(* ===== verification/_CoqProject ===== *)
-Q . S2P
Prelude.v
RingBuf.v
BitTricks.v
IKFifo.v
KFifo.v
TryQueue.v
Monitor.v
Spsc.v
AtomicKFifo.v
DMAtomicQueue.v
AtomicQueue.v
AtomicQueueThreads.v
DMQueue.v
DMMutexQueue.v
QueueThreadPool.v
ThreadSafeQueue.v
McDetails.v
McBlock.v
McPool.v
McSlots.v
McFreeList.v
McBulk.v
McExplicit.v
McExplicitDestructor.v
McExplicitBulk.v
McImplicitIndex.v
McImplicit.v
McImplicitBulk.v
McOrigin.v
McFrame.v
McSubQueue.v
McProducerBase.v
McQueue.v
McQueueRuns.v
McTokens.v
McConcurrentQueue.v
McQueueDestructor.v
McMove.v
McDequeue.v
McHandOver.v
McHash.v
McHashReturns.v
McThreads.v
LightweightSemaphore.v
BlockingConcurrentQueue.v
ConcurrentInner.v
RapidPool.v
DynamicRapidPool.v
RapidFactory.v
