(* ===== verification/Prelude.v ===== *)
(** * Verification of dmlockfree

    The library under src/include is a collection of queues and object pools for
    programs with several threads.  This development models them and proves what
    they promise.  It is a shallow embedding: a C++ function is a Rocq function
    or, where threads interleave, a step function on a state, and all of them
    evaluate.

    ** The parts of the program and where they are modelled

    Rings of the repository itself:
    - dmkfifo.h, [KFifo]: KFifo.v; dmatomic_kfifo.h, [AtomicKFifo]: AtomicKFifo.v.
      The interface both implement, [IKFifo], and what it promises: IKFifo.v.
    - dmatomic_queue.h, [CDMAtomicQueue]: DMAtomicQueue.v; atomic_queue.h,
      [CAtomicQueue]: AtomicQueue.v and, with two threads, AtomicQueueThreads.v;
      dmqueue.h, [CDMQueue]: DMQueue.v.  What the three promise: TryQueue.v.
    - windows of a ring, shared by all five: RingBuf.v; two threads on a ring under
      release and acquire: Spsc.v; rounding to a power of two: BitTricks.v.

    Locks and workers:
    - dmmutexqueue.h, [CDMMutexQueue]: DMMutexQueue.v; thread_safe_queue.h,
      [ThreadSafeQueue]: ThreadSafeQueue.v; both are bodies run under the monitor of
      Monitor.v.
    - queuethreadpool.hpp, [CDMQueueThreadPool]: QueueThreadPool.v, over [CDMQueue].

    Pools (dmrapidpool.h): [CDMRapidPool] in RapidPool.v, [CDynamicRapidPool] over it
    in DynamicRapidPool.v, [CDMRapidFactory], [DMPool], [DMNew] and [DMDelete] over
    that in RapidFactory.v.

    moodycamel's queue (concurrentqueue.h), bottom up:
    - [details] and the traits: McDetails.v, McBlock.v;
    - [Block]: McBlock.v; the initial pool, [requisition_block] and the free list used
      by one thread: McPool.v; [FreeList] with any number of threads: McFreeList.v;
    - slots, indices and contents of a sub-queue: McSlots.v; the loops over blocks that
      the bulk operations of both producers have: McBulk.v;
    - [ExplicitProducer]: McExplicit.v, its bulk operations McExplicitBulk.v, its
      destructor McExplicitDestructor.v;
      [ImplicitProducer]: McImplicitIndex.v (its block index), McImplicit.v and, for the
      bulk operations, McImplicitBulk.v; each used by one thread;
    - the claim of elements by concurrent consumers, which is the same code in both
      producers: McDequeue.v; what consumers of an [ExplicitProducer] do with a claim,
      next to the producer in [enqueue], which gets their blocks back: McHandOver.v;
    - the hash from threads to implicit producers, [get_or_add_implicit_producer]:
      McHash.v, and that its calls return: McHashReturns.v;
    - [ProducerBase]: McProducerBase.v; both kinds of producers keep the promises of
      McSubQueue.v while they share one pool, because each touches its own blocks only
      (McFrame.v);
    - the list of producers, tokens and the methods of [ConcurrentQueue]: McQueue.v,
      over any producers that keep these promises; sequences of calls: McQueueRuns.v;
      the constructors, and all of it put together: McConcurrentQueue.v;
    - tokens as objects that are moved, swapped and destroyed: McTokens.v; the destructor:
      McQueueDestructor.v, with McOrigin.v for where blocks come from; moving and swapping
      queues, which redirects the pointers to the table inside a queue: McMove.v;
    - the methods without a token, from the hash to the sub-queue, with any number of
      threads in the hash: McThreads.v.

    moodycamel's blocking queue (blockingconcurrentqueue.h): [mpmc_sema::Semaphore] and
    [LightweightSemaphore] in LightweightSemaphore.v, [BlockingConcurrentQueue] in
    BlockingConcurrentQueue.v, over a class that says what the inner queue promises;
    [ConcurrentQueue] keeps these promises: ConcurrentInner.v.

    ** Conventions

    - A [size_t], [uint32_t] or [uint16_t] is an integer reduced by [u64], [u32] or [u16]
      where the code stores it; an [int] that does not fit is undefined ([sint]).
      Theorems about counters that wrap speak of unbounded counters [t] and [h] and
      say that the fields hold [u64 t] and [u64 h].
    - [result] below is what a call does: a value, an exception, [abort()] or a failed
      [assert], or undefined behaviour (an access outside an array, a null or dangling
      pointer, an object constructed over another or destroyed twice).  That a call
      returns [Ok] is part of every functional theorem.
    - Raw memory is [None], an object in it [Some]; blocks, entries and pool slots have
      addresses, so that sharing is in the model.  Failing allocations are a list of
      answers, [mallocs], success when it runs out; exceptions of element types are
      arguments ([throws]).  A block that is freed with an object in it, which would
      never be destroyed, counts as an error ([destroy_block]).  [create_array] allocates
      [sizeof(Block)] times the count, reduced by [u64]: [sizeof_Block] is a trait.
    - Loops have fuel where they are not structural.  [copy_entries] and [copy_index] get
      one turn more than the array has entries, the loops of destructors one more than
      there are blocks or elements, those of bulk operations one more than the blocks
      they need or the entries of the index, walks over the list of producers one more
      than the list has ([turns], twice that for a bulk call, which goes round again from
      the last producer that gave something); the theorems show these to be enough: the
      results are [Ok], never [None].
    - Threads interleave at single accesses to shared variables.  In Spsc.v, and so in the
      three rings with two threads, a load with [acquire] returns any value not older than
      the last one seen, and data races are detected.  In McHash.v a load returns a value
      the thread has not seen replaced, under the resize flag too: the flag hands over what
      its last holder had seen ([lockView]), except when that one had no memory and cleared
      it with a relaxed store.  In McDequeue.v and LightweightSemaphore.v a relaxed load may
      return any value the variable has had.  In McHandOver.v the counters are as in
      McDequeue.v, a mark of an emptied slot may be seen late, and the rest is sequentially
      consistent, with data races excluded by a theorem.  In McFreeList.v loads that only
      feed a compare-exchange may return anything.  Read-modify-writes act on the last
      value.  In QueueThreadPool.v a step is a whole call, with the accesses it makes.
    - What callers of [ConcurrentQueue] must do is a predicate on the calls, [calls_ok],
      [actions_ok], [labels_ok] or [inner_calls_ok].  Beside existing tokens these ask, for
      a producer token, that elements do not throw and that bulk calls succeed: what
      happens otherwise is [throwing_enqueue_breaks_destructor] and
      [failed_bulk_loses_elements].  They are decided as the calls run, so that a bulk call
      counts as ruled out only when it does fail.

    ** What the theorems show

    - Rings: every sequence of calls answers what a bounded queue answers
      ([kfifo_refines_bqueue], [queue_refines], [atomic_queue_refines],
      [dmqueue_refines]), including wrapping indices; [atomic_equiv_kfifo] relates the two byte
      FIFOs; two threads on a ring have no data race, lose and repeat nothing
      ([spsc_safe], [queue_spsc_safe], [atomic_queue_spsc]) and do not wait ([put_wait_free]).
    - Locks: histories are linearizable, no wakeup is lost; a [CDMQueueThreadPool] that
      has run a task has a data race ([no_task_without_race]).
    - Pools: objects are handed out once, released slots are reused, misuse aborts;
      which misuse leaks.
    - moodycamel's parts: sub-queues refine a queue from any state of their counters,
      and give their blocks back ([explicit_producer_refines],
      [implicit_producer_refines], [explicit_producer_lifetime],
      [implicit_producer_lifetime]), with bulks of elements too ([explicit_bulk_refines],
      [implicit_bulk_lifetime]); which failures break an [ExplicitProducer]
      ([failed_bulk_loses_elements], [throwing_enqueue_breaks_destructor]); the pool
      hands out a block to one holder and loses none ([block_pool_exclusive]), the free
      list does so under contention ([free_list_safe], [no_block_lost]); consumers get
      distinct elements and strand none ([consumers_exclusive], [nothing_stranded]),
      without a race on slots or entries of
      the block index ([consumers_race_free]), nobody in each other's way
      ([claim_worked_off]), and leave a producer as one thread would ([quiescent_again]);
      each thread has one producer of its own ([producer_per_thread]) and gets it
      ([get_or_add_returns]) as long as there is memory for larger tables, and can get a
      second one otherwise ([failed_growth_two_producers]); the semaphore counts right and
      leaves no waiter behind; the blocking queue conserves elements, a permit always
      has an element, and nobody sleeps on a queue with elements; the same with
      [ConcurrentQueue] inside ([blocking_on_concurrent]).
    - moodycamel's queue as a whole, its methods called one after the other: a constructed
      queue has the blocks asked for, but for capacities whose size in bytes wraps
      ([initial_capacity]); every sequence of calls answers what a collection of queues
      answers ([concurrent_queue_refines]), each producer is one first-in-first-out stream
      ([producers_fifo]), the list and the tokens stay well-formed
      ([stays_well_formed]), consumers stay apart when they rotate ([consumers_spread]),
      but a bulk call can make them miss the rotation ([bulk_skips_rotation]); a token
      holds its producer alone ([tokens_exclusive]), the destructor frees everything once
      ([queue_lifetime]), moving and swapping exchanges what queues hold ([moves_refine]).
    - threads without tokens: each has a producer of its own and its elements leave in
      the order in which it enqueued them ([threads_fifo]).

    ** Not modelled

    - Methods of [ConcurrentQueue] that overlap in time, as a whole: their parts are
      modelled with any number of threads (McDequeue.v, McFreeList.v, McHash.v), and
      McThreads.v interleaves the searches of the hash, but what the methods do to the
      list of producers and to sub-queues comes one call after the other.
      Under BlockingConcurrentQueue.v, too, each call on the inner queue is one step
      (ConcurrentInner.v), while the semaphore is taken access by access.
    - [ThreadExitNotifier] and the removal of threads that ended from the hash, which the
      header compiles out.
    - The hand-over of blocks from consumers to a producer, other than between [enqueue],
      [dequeue] and [dequeue_bulk] of an [ExplicitProducer] without exceptions
      (McHandOver.v): [enqueue_bulk] next to consumers, elements that throw there, and the
      block index of an [ImplicitProducer], of which McDequeue.v has the claims.
    - What the threads of a [CDMQueueThreadPool] do after a data race.
    - Cache lines and alignment; the Windows and Mach
      semaphores and the chrono overloads (operating-system glue);
      concurrentqueue_internal_debug.h (compiled only under macros the build never
      sets); the test programs. *)
From stdpp Require Export prelude gmap relations strings.
From Stdlib Require Export ZArith Lia.

(** Lengths and slot numbers are [nat], C++ integers are [Z]. *)
Coercion Z.of_nat : nat >-> Z.

(** ** Outcomes of C++ code *)

(** The exceptions the modelled code throws. *)
Inductive exn :=
  | invalid_argument (what : string)
  | bad_alloc
  | bad_array_new_length.

#[export] Instance exn_eq_dec : EqDecision exn.
Proof. solve_decision. Defined.

(** What a C++ call does: return a value, throw, reach [abort()] or a failing
    [assert], or perform an operation the language leaves undefined (an access
    outside an array, a signed overflow, a null dereference). *)
Inductive result (A : Type) : Type :=
  | Ok (a : A)
  | Throw (e : exn)
  | Abort
  | UB.
Arguments Ok {A} _.
Arguments Throw {A} _.
Arguments Abort {A}.
Arguments UB {A}.

#[export] Instance result_ret : MRet result := @Ok.
#[export] Instance result_bind : MBind result := λ A B f m,
  match m with Ok a => f a | Throw e => Throw e | Abort => Abort | UB => UB end.
#[export] Instance result_fmap : FMap result := λ A B f m,
  match m with Ok a => Ok (f a) | Throw e => Throw e | Abort => Abort | UB => UB end.

(** An operation that is undefined unless [b] holds. *)
Definition defined_if (b : bool) : result () := if b then Ok () else UB.

(** [assert (b)]: skipped when the translation unit is built with [NDEBUG]. *)
Definition assert_ (NDEBUG b : bool) : result () :=
  if NDEBUG || b then Ok () else Abort.

Lemma bind_ok {A B} (x : A) (f : A → result B) : (Ok x ≫= f) = f x.
Proof. done. Qed.

Lemma bind_inv_ok {A B} (m : result A) (f : A → result B) y :
  (m ≫= f) = Ok y → ∃ x, m = Ok x ∧ f x = Ok y.
Proof. destruct m; simpl; intros; simplify_eq; eauto. Qed.

Lemma assert_ok NDEBUG b : b = true → assert_ NDEBUG b = Ok ().
Proof. intros ->. unfold assert_. by rewrite orb_true_r. Qed.

(** ** Machine integers *)

Section wrap.
Local Open Scope Z_scope.

(** The value an unsigned [w]-bit object holds after storing [x] in it. *)
Definition wrap (w x : Z) : Z := x mod 2 ^ w.

Definition fits (w x : Z) : Prop := 0 <= x < 2 ^ w.

(** [int] arithmetic: a result outside the range of a 32-bit [int] is
    undefined. *)
Definition INT_MAX : Z := 2147483647.
Definition INT_MIN : Z := -2147483648.
Definition sint (x : Z) : result Z :=
  if (INT_MIN <=? x) && (x <=? INT_MAX) then Ok x else UB.

(** [x % y] of signed integers: truncated, undefined for a zero divisor. *)
Definition crem (x y : Z) : result Z := if y =? 0 then UB else Ok (Z.rem x y).

Lemma wrap_small w x : fits w x → wrap w x = x.
Proof. intros. by apply Z.mod_small. Qed.

Lemma wrap_fits w x : 0 <= w → fits w (wrap w x).
Proof. intros. apply Z.mod_pos_bound. by apply Z.pow_pos_nonneg. Qed.

Lemma wrap_wrap w x : wrap w (wrap w x) = wrap w x.
Proof. apply Zmod_mod. Qed.

Lemma wrap_add_l w x y : wrap w (wrap w x + y) = wrap w (x + y).
Proof. apply Zplus_mod_idemp_l. Qed.
Lemma wrap_add_r w x y : wrap w (x + wrap w y) = wrap w (x + y).
Proof. apply Zplus_mod_idemp_r. Qed.
Lemma wrap_sub_l w x y : wrap w (wrap w x - y) = wrap w (x - y).
Proof. apply Zminus_mod_idemp_l. Qed.
Lemma wrap_sub_r w x y : wrap w (x - wrap w y) = wrap w (x - y).
Proof. apply Zminus_mod_idemp_r. Qed.

Lemma wrap_inj w x y : wrap w x = wrap w y → 0 <= y - x < 2 ^ w → x = y.
Proof.
  intros He Hd. assert ((y - x) mod 2 ^ w = 0) as Hm; [|rewrite Z.mod_small in Hm; lia].
  unfold wrap in He. rewrite Zminus_mod, He, Z.sub_diag. apply Z.mod_0_l. lia.
Qed.

(** Reducing a wrapped counter modulo a power of two not above the width. *)
Lemma wrap_mod_pow2 w k x : 0 <= k <= w → wrap w x mod 2 ^ k = x mod 2 ^ k.
Proof.
  intros Hk. unfold wrap.
  replace (2 ^ w) with (2 ^ k * 2 ^ (w - k))
    by (rewrite <- Z.pow_add_r by lia; f_equal; lia).
  rewrite Z.rem_mul_r, Z.mul_comm, Z.mod_add, Zmod_mod; lia.
Qed.

Lemma land_mask k x : 0 <= k → Z.land x (2 ^ k - 1) = x mod 2 ^ k.
Proof.
  intros. rewrite <- Z.land_ones by done.
  by rewrite Z.ones_equiv, Z.sub_1_r.
Qed.

Lemma sint_ok x : INT_MIN <= x <= INT_MAX → sint x = Ok x.
Proof. intros. unfold sint. by destruct (Z.leb_spec INT_MIN x), (Z.leb_spec x INT_MAX); try lia. Qed.
Lemma sint_inv x y : sint x = Ok y → y = x.
Proof. unfold sint. case_match; congruence. Qed.

Lemma crem_ok x y : 0 <= x → 0 < y → crem x y = Ok (x mod y).
Proof.
  intros. unfold crem. rewrite (proj2 (Z.eqb_neq _ _)) by lia.
  by rewrite Z.rem_mod_nonneg.
Qed.
End wrap.

#[global] Opaque sint.

(** [uint16_t], [uint32_t] and [uint64_t] ([size_t] of a 64-bit target). *)
Abbreviation u16 := (wrap 16).
Abbreviation u32 := (wrap 32).
Abbreviation u64 := (wrap 64).

(** ** Arrays: [std::vector], C arrays and [memcpy] *)

Section arrays.
Context {A : Type}.
Implicit Types (l xs : list A) (i off n : Z).
Local Open Scope Z_scope.

(** [l[i]] read and written; outside the array both are undefined. *)
Definition aread l i : result A :=
  if 0 <=? i then match l !! Z.to_nat i with Some x => Ok x | None => UB end else UB.
Definition awrite l i (x : A) : result (list A) :=
  if (0 <=? i) && (i <? length l) then Ok (<[Z.to_nat i:=x]> l) else UB.

(** The two sides of [memcpy]: the [n] elements from [off], and an array
    overwritten with [xs] from [off]. *)
Definition memread l off n : result (list A) :=
  if (0 <=? off) && (0 <=? n) && (off + n <=? length l)
  then Ok (take (Z.to_nat n) (drop (Z.to_nat off) l)) else UB.
Definition memwrite l off xs : result (list A) :=
  if (0 <=? off) && (off + length xs <=? length l)
  then Ok (take (Z.to_nat off) l ++ xs ++ drop (Z.to_nat off + length xs)%nat l) else UB.

Lemma aread_ok l (i : nat) x : l !! i = Some x → aread l i = Ok x.
Proof.
  intros Hi. unfold aread. rewrite (proj2 (Z.leb_le 0 i)) by lia.
  by rewrite Nat2Z.id, Hi.
Qed.
Lemma aread_Z l i x : 0 <= i → l !! Z.to_nat i = Some x → aread l i = Ok x.
Proof. intros Hi Hx. rewrite <- (Z2Nat.id i) by done. by apply aread_ok. Qed.
Lemma awrite_ok l (i : nat) x : (i < length l)%nat → awrite l i x = Ok (<[i:=x]> l).
Proof.
  intros Hi. unfold awrite.
  rewrite (proj2 (Z.leb_le 0 i)), (proj2 (Z.ltb_lt i (length l))) by lia.
  simpl. by rewrite Nat2Z.id.
Qed.
Lemma memread_ok l (off n : nat) :
  (off + n ≤ length l)%nat → memread l off n = Ok (take n (drop off l)).
Proof.
  intros H. unfold memread.
  rewrite !(proj2 (Z.leb_le 0 _)), (proj2 (Z.leb_le _ (length l))) by lia.
  simpl. by rewrite !Nat2Z.id.
Qed.
Lemma memwrite_ok l (off : nat) xs :
  (off + length xs ≤ length l)%nat →
  memwrite l off xs = Ok (take off l ++ xs ++ drop (off + length xs)%nat l).
Proof.
  intros H. unfold memwrite.
  rewrite (proj2 (Z.leb_le 0 _)), (proj2 (Z.leb_le _ (length l))) by lia.
  simpl. by rewrite !Nat2Z.id.
Qed.

Lemma memread_0 l (n : nat) : (n ≤ length l)%nat → memread l 0 n = Ok (take n l).
Proof. intros. by apply (memread_ok l 0). Qed.
Lemma memwrite_0 l xs :
  (length xs ≤ length l)%nat → memwrite l 0 xs = Ok (xs ++ drop (length xs) l).
Proof. intros. by apply (memwrite_ok l 0). Qed.

Lemma aread_cases l i : aread l i = UB ∨ ∃ x, aread l i = Ok x.
Proof. unfold aread. repeat case_match; eauto. Qed.

(** The lookup of an array a block was copied into. *)
Lemma lookup_splice l (off j : nat) xs :
  (off + length xs ≤ length l)%nat →
  (take off l ++ xs ++ drop (off + length xs)%nat l) !! j =
  if decide (off ≤ j < off + length xs)%nat then xs !! (j - off)%nat else l !! j.
Proof.
  intros H. case_decide as Hj.
  - rewrite lookup_app_r by (rewrite length_take; lia).
    rewrite lookup_app_l by (rewrite length_take; lia).
    f_equal. rewrite length_take. lia.
  - destruct (decide (j < off)%nat).
    + rewrite lookup_app_l by (rewrite length_take; lia). by rewrite lookup_take_lt.
    + rewrite lookup_app_r by (rewrite length_take; lia).
      rewrite lookup_app_r by (rewrite length_take; lia).
      rewrite lookup_drop, length_take. f_equal. lia.
Qed.
End arrays.

(** ** Sums and contents of a list of components, one of which changes *)

Lemma sum_list_imap_insert {A} (f : nat → A → nat) (l : list A) (i : nat) x y :
  l !! i = Some x →
  (sum_list (imap f (<[i := y]> l)) + f i x = sum_list (imap f l) + f i y)%nat.
Proof.
  revert f i. induction l as [|z l IH]; intros f [|i] Hi; simplify_eq/=; [lia|].
  specialize (IH (λ j, f (S j)) i Hi). unfold compose in *. lia.
Qed.

Lemma concat_insert {A B} (f : A → list B) (l : list A) (i : nat) x y :
  l !! i = Some x →
  f x ++ concat (f <$> <[i := y]> l) ≡ₚ f y ++ concat (f <$> l).
Proof.
  revert i. induction l as [|z l IH]; intros [|i] Hi; simplify_eq/=.
  - by rewrite !(assoc_L app), (Permutation_app_comm (f x)).
  - rewrite !(assoc_L app), (Permutation_app_comm (f x)), (Permutation_app_comm (f y)).
    rewrite <- !(assoc_L app). by rewrite IH.
Qed.

(** The sum of [f] over a list. *)
Definition zsum {A} (f : A → Z) (l : list A) : Z := foldr (λ x a, (f x + a)%Z) 0%Z l.

Lemma zsum_insert {A} (f : A → Z) (l : list A) (i : nat) x y :
  l !! i = Some x → (zsum f (<[i := y]> l) = zsum f l - f x + f y)%Z.
Proof.
  revert i. induction l as [|z l IH]; intros [|i] Hi; simplify_eq/=; [lia|].
  rewrite (IH i Hi). lia.
Qed.

Lemma zsum_take_insert {A} (f : A → Z) (l : list A) (i n : nat) x y :
  l !! i = Some x →
  (zsum f (take n (<[i := y]> l)) =
   zsum f (take n l) + if decide (i < n)%nat then f y - f x else 0)%Z.
Proof.
  revert i n. induction l as [|z l IH]; intros [|i] [|n] Hi; simplify_eq/=; try lia.
  rewrite (IH i n Hi). repeat case_decide; lia.
Qed.

Lemma zsum_ext {A} (f g : A → Z) (l : list A) :
  Forall (λ x, f x = g x) l → zsum f l = zsum g l.
Proof. induction 1; simpl; lia. Qed.

Lemma zsum_sub {A} (f g : A → Z) (l : list A) :
  (zsum (λ x, f x - g x) l = zsum f l - zsum g l)%Z.
Proof. induction l; simpl; lia. Qed.

Lemma zsum_app {A} (f : A → Z) (l1 l2 : list A) : (zsum f (l1 ++ l2) = zsum f l1 + zsum f l2)%Z.
Proof. induction l1 as [|x l IH]; simpl; lia. Qed.

Lemma zsum_nonneg {A} (f : A → Z) (l : list A) :
  Forall (λ x, 0 <= f x)%Z l → (0 <= zsum f l)%Z.
Proof. induction 1; simpl; lia. Qed.

Lemma zsum_ge {A} (f : A → Z) (l : list A) (i : nat) x :
  Forall (λ x, 0 <= f x)%Z l → l !! i = Some x → (f x <= zsum f l)%Z.
Proof.
  intros Hl. revert i. induction Hl as [|z l Hz Hl IH]; intros [|i] Hi; simplify_eq/=.
  - pose proof (zsum_nonneg f l Hl). lia.
  - specialize (IH i Hi). lia.
Qed.

Lemma zsum_le {A} (f g : A → Z) (l : list A) :
  Forall (λ x, f x <= g x)%Z l → (zsum f l <= zsum g l)%Z.
Proof. induction 1; simpl; lia. Qed.

Lemma zsum_zero {A} (f : A → Z) (l : list A) : Forall (λ x, f x = 0)%Z l → zsum f l = 0%Z.
Proof. induction 1; simpl; lia. Qed.

Lemma zsum_le_length {A} (f : A → Z) (l : list A) :
  Forall (λ x, f x <= 1)%Z l → (zsum f l <= length l)%Z.
Proof. induction 1; simpl; lia. Qed.

Lemma zsum_replicate {A} (f : A → Z) n x : (zsum f (replicate n x) = n * f x)%Z.
Proof. induction n; simpl; lia. Qed.

Create HintDb dm.
Create Rewrite HintDb wrap.
#[export] Hint Resolve wrap_fits : dm.
#[export] Hint Rewrite @wrap_wrap @wrap_add_l @wrap_add_r @wrap_sub_l @wrap_sub_r : wrap.

Lemma bind_guard_Some {A} P `{!Decision P} (m : option A) x :
  (guard P;; m) = Some x ↔ P ∧ m = Some x.
Proof. rewrite option_guard_decide. case_decide; intuition congruence. Qed.

(** ** Transition systems *)

Lemma rtc_invariant {S} (step : S → S → Prop) (P : S → Prop) s0 s :
  P s0 → (∀ s1 s2, P s1 → step s1 s2 → P s2) → rtc step s0 s → P s.
Proof. intros H0 Hstep Hs. induction Hs; eauto. Qed.
