(* ===== verification/RingBuf.v ===== *)
(** * Ring buffers: the window of an array read and written modulo its length

    Shared by every ring of the repository: [KFifo], [AtomicKFifo],
    [CDMAtomicQueue], [CAtomicQueue] and [CDMQueue].  A window is given by a
    start position (any natural number, reduced modulo the length of the
    array) and a number of elements. *)
From S2P Require Import Prelude.

Section ring.
Context {A : Type} `{!Inhabited A}.
Implicit Types (buf xs : list A) (s i j n m : nat).

(** The slot of position [i]. *)
Definition slot buf i : nat := i `mod` length buf.

(** The [n] elements from position [s] on. *)
Definition window buf s n : list A := (λ j, buf !!! slot buf (s + j)) <$> seq 0 n.

Lemma length_window buf s n : length (window buf s n) = n.
Proof. unfold window. by rewrite length_fmap, length_seq. Qed.

Lemma lookup_window buf s n j :
  j < n → window buf s n !! j = Some (buf !!! slot buf (s + j)).
Proof.
  intros. unfold window. rewrite list_lookup_fmap, lookup_seq_lt by done. done.
Qed.

Lemma window_app buf s n m :
  window buf s (n + m) = window buf s n ++ window buf (s + n) m.
Proof.
  unfold window. rewrite seq_app, fmap_app. f_equal.
  replace (seq (0 + n) m) with (Nat.add n <$> seq 0 m)
    by (rewrite fmap_add_seq; f_equal; lia).
  rewrite <- list_fmap_compose.
  apply list_fmap_ext. intros. simpl. by rewrite Nat.add_assoc.
Qed.

Lemma window_S buf s n :
  window buf s (S n) = window buf s n ++ [buf !!! slot buf (s + n)].
Proof.
  rewrite <- Nat.add_1_r, window_app. f_equal. unfold window. simpl.
  by rewrite Nat.add_0_r.
Qed.

Lemma window_cons buf s n :
  window buf s (S n) = buf !!! slot buf s :: window buf (S s) n.
Proof.
  change (S n) with (1 + n). rewrite window_app, Nat.add_1_r.
  unfold window at 1. simpl. by rewrite Nat.add_0_r.
Qed.

Lemma window_congr buf s s' n :
  slot buf s = slot buf s' → window buf s n = window buf s' n.
Proof.
  unfold slot. intros Heq. apply list_fmap_ext. intros i x _. f_equal. unfold slot.
  by rewrite <- (Nat.Div0.add_mod_idemp_l s), Heq, Nat.Div0.add_mod_idemp_l.
Qed.

(** Two positions less than a lap apart have different slots. *)
Lemma slot_inj buf i j :
  i < j < i + length buf → slot buf i ≠ slot buf j.
Proof.
  unfold slot. intros Hij Heq.
  pose proof (Nat.div_mod_eq i (length buf)). pose proof (Nat.div_mod_eq j (length buf)).
  assert (i `div` length buf < j `div` length buf); nia.
Qed.

Lemma slot_lt buf i : 0 < length buf → slot buf i < length buf.
Proof. intros. apply Nat.mod_upper_bound. lia. Qed.

Lemma slot_0 buf : slot buf 0 = 0.
Proof. apply Nat.Div0.mod_0_l. Qed.

(** The position at which the window comes back to the first slot. *)
Lemma slot_end buf s : 0 < length buf → slot buf (s + (length buf - slot buf s)) = 0.
Proof.
  intros H0. pose proof (slot_lt buf s H0) as Hs. unfold slot in *.
  rewrite <- Nat.Div0.add_mod_idemp_l.
  replace (s `mod` length buf + _) with (length buf) by lia. apply Nat.Div0.mod_same.
Qed.

Lemma slot_insert buf k x i : slot (<[k:=x]> buf) i = slot buf i.
Proof. unfold slot. by rewrite length_insert. Qed.

(** Storing at the end of a window that does not fill the array extends it. *)
Lemma window_push buf s n x :
  n < length buf →
  window (<[slot buf (s + n):=x]> buf) s (S n) = window buf s n ++ [x].
Proof.
  intros Hn. rewrite window_S. f_equal.
  - apply list_fmap_ext. intros i j Hj. apply lookup_seq in Hj.
    rewrite slot_insert. apply list_lookup_total_insert_ne.
    intros Heq. symmetry in Heq. revert Heq. apply slot_inj. lia.
  - rewrite slot_insert, list_lookup_total_insert_eq; [done|]. apply slot_lt. lia.
Qed.

(** Storing [xs] element by element from position [s] on. *)
Fixpoint ring_put buf s xs : list A :=
  match xs with
  | [] => buf
  | x :: xs' => ring_put (<[slot buf s:=x]> buf) (S s) xs'
  end.

Lemma length_ring_put buf s xs : length (ring_put buf s xs) = length buf.
Proof. revert buf s. induction xs; intros; simpl; [done|]. by rewrite IHxs, length_insert. Qed.

Lemma slot_ring_put buf s xs i : slot (ring_put buf s xs) i = slot buf i.
Proof. unfold slot. by rewrite length_ring_put. Qed.

Lemma ring_put_app buf s xs ys :
  ring_put buf s (xs ++ ys) = ring_put (ring_put buf s xs) (s + length xs) ys.
Proof.
  revert buf s. induction xs as [|x xs IH]; intros; simpl.
  - by rewrite Nat.add_0_r.
  - rewrite IH. f_equal. lia.
Qed.

Lemma ring_put_congr buf s s' xs :
  slot buf s = slot buf s' → ring_put buf s xs = ring_put buf s' xs.
Proof.
  revert buf s s'. induction xs as [|x xs IH]; intros buf s s' Hs; simpl; [done|].
  rewrite Hs. apply IH. rewrite !slot_insert. unfold slot in *.
  rewrite <- !(Nat.add_1_r s), <- !(Nat.add_1_r s').
  by rewrite <- (Nat.Div0.add_mod_idemp_l s), Hs, Nat.Div0.add_mod_idemp_l.
Qed.

Theorem window_ring_put buf s n xs :
  n + length xs ≤ length buf →
  window (ring_put buf (s + n) xs) s (n + length xs) = window buf s n ++ xs.
Proof.
  revert buf n. induction xs as [|x xs IH]; intros buf n Hn; simpl in *.
  - by rewrite Nat.add_0_r, app_nil_r.
  - replace (S (s + n)) with (s + S n) by lia.
    replace (n + S (length xs)) with (S n + length xs) by lia.
    rewrite IH by (rewrite length_insert; lia).
    rewrite window_push by lia. by rewrite <- app_assoc.
Qed.

(** Without wrapping, it is the copy of a block. *)
Lemma ring_put_block buf s xs :
  slot buf s + length xs ≤ length buf →
  ring_put buf s xs =
  take (slot buf s) buf ++ xs ++ drop (slot buf s + length xs) buf.
Proof.
  revert buf s. induction xs as [|x xs IH]; intros buf s Hs.
  { simpl. by rewrite Nat.add_0_r, take_drop. }
  apply list_eq. intros j. rewrite lookup_splice by done.
  simpl in *. destruct xs as [|y xs].
  { simpl. rewrite list_lookup_insert by lia.
    repeat case_decide; try lia; [|done]. by replace (j - slot buf s) with 0 by lia. }
  assert (Hslot : slot buf (S s) = S (slot buf s)).
  { unfold slot in *. simpl in Hs.
    rewrite <- (Nat.add_1_r s), <- Nat.Div0.add_mod_idemp_l, Nat.add_1_r.
    apply Nat.mod_small. lia. }
  rewrite IH; rewrite slot_insert, Hslot; [|rewrite length_insert; simpl in *; lia].
  rewrite lookup_splice by (rewrite length_insert; simpl in *; lia).
  simpl length in *. repeat case_decide; try lia.
  - by replace (j - slot buf s) with (S (j - S (slot buf s))) by lia.
  - assert (j = slot buf s) as -> by lia.
    rewrite list_lookup_insert_eq by lia. by rewrite Nat.sub_diag.
  - by rewrite list_lookup_insert_ne by lia.
Qed.

(** A window read block by block. *)
Lemma window_block buf s n :
  slot buf s + n ≤ length buf → window buf s n = take n (drop (slot buf s) buf).
Proof.
  intros Hs. apply list_eq. intros j. destruct (decide (j < n)).
  - rewrite lookup_window, lookup_take_lt, lookup_drop by lia.
    replace (slot buf (s + j)) with (slot buf s + j).
    { symmetry. apply list_lookup_lookup_total_lt. lia. }
    unfold slot in *. rewrite <- Nat.Div0.add_mod_idemp_l. symmetry.
    apply Nat.mod_small. lia.
  - rewrite !lookup_ge_None_2; [done| |by rewrite length_window; lia].
    rewrite length_take. lia.
Qed.
End ring.

(** ** The two [memcpy]s with which [put] and [get] cross the end of the buffer

    [std::memcpy(buffer_.data() + offset, data, l)] followed by
    [std::memcpy(buffer_.data(), data + l, n - l)] when [n > l], and the
    converse pair, as [KFifo] and [AtomicKFifo] both have them. *)
Section copies.
Context {A : Type} `{!Inhabited A}.
Implicit Types (buffer data xs : list A).
Local Open Scope Z_scope.

Definition copy_in buffer (capacity offset : Z) data (n : Z) : result (list A) :=
  let l := Z.min n (u32 (capacity - offset)) in
  xs ← memread data 0 l;
  buffer ← memwrite buffer offset xs;
  if l <? n
  then ys ← memread data l (u32 (n - l)); memwrite buffer 0 ys
  else Ok buffer.

Definition copy_out buffer (capacity offset : Z) data (n : Z) : result (list A) :=
  let l := Z.min n (u32 (capacity - offset)) in
  xs ← memread buffer offset l;
  data ← memwrite data 0 xs;
  if l <? n
  then ys ← memread buffer 0 (u32 (n - l)); memwrite data l ys
  else Ok data.

Lemma copy_in_ok buffer data (s n : nat) :
  (0 < length buffer)%nat → length buffer < 2 ^ 32 →
  (n ≤ length buffer)%nat → (n ≤ length data)%nat →
  copy_in buffer (length buffer) (slot buffer s) data n =
  Ok (ring_put buffer s (take n data)).
Proof.
  intros H0 H32 Hn Hd. unfold copy_in.
  pose proof (slot_lt buffer s H0) as Hs.
  set (c := (length buffer - slot buffer s)%nat).
  replace (u32 (length buffer - slot buffer s)) with (Z.of_nat c)
    by (rewrite wrap_small; unfold fits; lia).
  rewrite <- Nat2Z.inj_min. set (l := (n `min` c)%nat).
  rewrite memread_0 by lia. rewrite bind_ok.
  rewrite memwrite_ok by (rewrite length_take; lia). rewrite bind_ok.
  rewrite <- ring_put_block by (rewrite length_take; lia).
  destruct (Z.ltb_spec l n) as [Hln|Hln].
  - replace (u32 (n - l)) with (Z.of_nat (n - l))
      by (rewrite wrap_small; unfold fits; lia).
    rewrite memread_ok, bind_ok by lia.
    rewrite memwrite_0 by (rewrite length_ring_put, length_take, length_drop; lia).
    replace n with (l + (n - l))%nat at 3 by lia.
    rewrite <- take_take_drop, ring_put_app.
    replace (length (take l data)) with c by (rewrite length_take; lia).
    assert (Hsl : slot buffer (s + c) = 0%nat) by (by apply slot_end).
    rewrite (ring_put_block _ (s + c)) by
      (rewrite slot_ring_put, length_ring_put, Hsl, length_take, length_drop; lia).
    by rewrite slot_ring_put, Hsl, take_0.
  - by replace l with n by lia.
Qed.

Lemma copy_out_ok buffer data (s n : nat) :
  (0 < length buffer)%nat → length buffer < 2 ^ 32 →
  (n ≤ length buffer)%nat → (n ≤ length data)%nat →
  copy_out buffer (length buffer) (slot buffer s) data n =
  Ok (window buffer s n ++ drop n data).
Proof.
  intros H0 H32 Hn Hd. unfold copy_out.
  pose proof (slot_lt buffer s H0) as Hs.
  set (c := (length buffer - slot buffer s)%nat).
  replace (u32 (length buffer - slot buffer s)) with (Z.of_nat c)
    by (rewrite wrap_small; unfold fits; lia).
  rewrite <- Nat2Z.inj_min. set (l := (n `min` c)%nat).
  rewrite memread_ok by lia. rewrite bind_ok.
  rewrite <- window_block by lia.
  rewrite memwrite_0, bind_ok, length_window by (rewrite length_window; lia).
  destruct (Z.ltb_spec l n) as [Hln|Hln]; [|by replace l with n by lia].
  replace (u32 (n - l)) with (Z.of_nat (n - l))
    by (rewrite wrap_small; unfold fits; lia).
  rewrite memread_0, bind_ok by lia.
  rewrite memwrite_ok by (rewrite length_app, length_window, length_drop, length_take; lia).
  rewrite length_take, take_app_length' by (by rewrite length_window).
  replace n with (l + (n - l))%nat at 3 by lia. rewrite window_app, <- app_assoc.
  do 2 f_equal.
  assert (Hsl : slot buffer (s + l) = slot buffer 0)
    by (rewrite slot_0; replace l with c by lia; by apply slot_end).
  rewrite (window_congr _ _ _ _ Hsl), (window_block buffer 0), slot_0, drop_0
    by (rewrite slot_0; lia).
  rewrite drop_app_ge, drop_drop, length_window by (rewrite length_window; lia).
  do 2 f_equal. lia.
Qed.
End copies.

(** ** Rings that keep one slot free

    [CDMAtomicQueue], [CAtomicQueue] and [CDMQueue] tell a full ring from an
    empty one by never filling the last slot.  [h] and [t] are the slots of the
    front and of the next element; [dead] holds of the slots outside. *)
Section gap.
Context {A : Type} `{!Inhabited A} (dead : A → Prop).
Implicit Types (buf items : list A) (h t : nat).

Record gap_ring buf h t items : Prop := {
  gap_head : h < length buf;
  gap_tail : t = slot buf (h + length items);
  gap_fit : length items < length buf;
  gap_items : window buf h (length items) = items;
  gap_dead j : length items ≤ j < length buf → dead (buf !!! slot buf (h + j))
}.

Lemma slot_small buf i : i < length buf → slot buf i = i.
Proof. apply Nat.mod_small. Qed.

Lemma slot_succ buf i : slot buf (slot buf i + 1) = slot buf (i + 1).
Proof. apply Nat.Div0.add_mod_idemp_l. Qed.

Lemma slot_lap buf i : slot buf (i + length buf) = slot buf i.
Proof. unfold slot. rewrite <- (Nat.mul_1_l (length buf)) at 1. apply Nat.Div0.mod_add. Qed.

Lemma gap_init buf h :
  h < length buf → (∀ x, x ∈ buf → dead x) → gap_ring buf h h [].
Proof.
  intros Hh Hd. constructor; simpl; try done; try lia.
  - by rewrite Nat.add_0_r, slot_small.
  - intros j _. apply Hd, list_elem_of_lookup_total_2, slot_lt. lia.
Qed.

Section facts.
Context buf h t items (G : gap_ring buf h t items).

Lemma gap_tail_lt : t < length buf.
Proof. destruct G. subst. apply slot_lt. lia. Qed.

Lemma gap_empty : h = t ↔ items = [].
Proof.
  destruct G as [Hh -> Hf _ _]. split.
  - intros Heq. destruct items as [|x xs]; [done|]. exfalso.
    apply (slot_inj buf h (h + length (x :: xs))); [simpl in *; lia|].
    by rewrite <- Heq, slot_small.
  - intros ->. by rewrite Nat.add_0_r, slot_small.
Qed.

Lemma gap_full : slot buf (t + 1) = h ↔ S (length items) = length buf.
Proof.
  destruct G as [Hh -> Hf _ _]. rewrite slot_succ. split.
  - intros Heq. destruct (decide (S (length items) = length buf)); [done|]. exfalso.
    apply (slot_inj buf h (h + length items + 1)); [lia|]. by rewrite Heq, slot_small.
  - intros Heq. replace (h + length items + 1) with (h + length buf) by lia.
    by rewrite slot_lap, slot_small.
Qed.

(** The number of elements from the two indices. *)
Lemma gap_used :
  length items = if decide (h ≤ t) then t - h else t + length buf - h.
Proof.
  destruct G as [Hh -> Hf _ _]. unfold slot.
  destruct (decide (h + length items < length buf)).
  - rewrite Nat.mod_small by done. case_decide; lia.
  - replace (h + length items) with (h + length items - length buf + 1 * length buf) by lia.
    rewrite Nat.Div0.mod_add, Nat.mod_small by lia. case_decide; lia.
Qed.

Lemma gap_free_slot : ∃ d, buf !! t = Some d ∧ dead d.
Proof.
  pose proof gap_tail_lt as Ht. destruct G as [Hh E Hf _ Hd].
  exists (buf !!! t). split; [by apply list_lookup_lookup_total_lt|].
  rewrite E. apply Hd. lia.
Qed.

Lemma gap_front x xs : items = x :: xs → buf !! h = Some x.
Proof.
  intros ->. destruct G as [Hh _ _ Hi _]. rewrite <- (slot_small _ _ Hh).
  rewrite list_lookup_lookup_total_lt by (apply slot_lt; lia). f_equal.
  simpl in Hi. rewrite window_cons in Hi. by injection Hi.
Qed.

Lemma gap_push x :
  S (length items) < length buf → gap_ring (<[t:=x]> buf) h (slot buf (t + 1)) (items ++ [x]).
Proof.
  destruct G as [Hh -> Hf Hi Hd]. intros Hroom. constructor;
    rewrite ?length_insert, ?length_app, ?slot_insert; simpl; try lia.
  - rewrite slot_succ. f_equal. lia.
  - by rewrite Nat.add_1_r, window_push, Hi.
  - intros j Hj. rewrite slot_insert, list_lookup_total_insert_ne; [apply Hd; lia|].
    apply slot_inj. lia.
Qed.

Lemma gap_pop x xs d :
  items = x :: xs → dead d → gap_ring (<[h:=d]> buf) (slot buf (h + 1)) t xs.
Proof.
  intros ->. destruct G as [Hh -> Hf Hi Hd]. intros Hdead.
  simpl in *. rewrite window_cons in Hi. injection Hi as Hx Hxs.
  constructor; rewrite ?length_insert; rewrite ?slot_insert; try lia.
  - apply slot_lt. lia.
  - unfold slot. rewrite Nat.Div0.add_mod_idemp_l. f_equal. lia.
  - rewrite <- Hxs at 2.
    rewrite (window_congr _ _ (S h)) by
      (rewrite !slot_insert, (slot_small _ (slot _ _)) by (apply slot_lt; lia); f_equal; lia).
    apply list_fmap_ext. intros i j Hj. apply lookup_seq in Hj. rewrite slot_insert.
    apply list_lookup_total_insert_ne. rewrite <- (slot_small _ _ Hh) at 1. apply slot_inj. lia.
  - intros j Hj. rewrite slot_insert.
    replace (slot buf (slot buf (h + 1) + j)) with (slot buf (h + S j))
      by (unfold slot; rewrite Nat.Div0.add_mod_idemp_l; f_equal; lia).
    destruct (decide (S j = length buf)) as [->|].
    + rewrite slot_lap, slot_small by done. by rewrite list_lookup_total_insert_eq.
    + rewrite list_lookup_total_insert_ne; [apply Hd; lia|].
      rewrite <- (slot_small _ _ Hh) at 1. apply slot_inj. lia.
Qed.
End facts.
End gap.
