(* ===== verification/BitTricks.v ===== *)
(** * Rounding up to a power of two by smearing the highest bit

    Two routines of the repository do it: [roundup_power_of_two] of the byte
    FIFOs and [moodycamel::details::ceil_to_pow_2].  Both set every bit below
    the highest one by a sequence of [x |= x >> s]. *)
From S2P Require Import Prelude.
Local Open Scope Z_scope.

(** [x |= x >> s]. *)
Definition smear (s x : Z) : Z := Z.lor x (Z.shiftr x s).

(** [y] has bit [b] exactly when [x] has one of the bits [b .. b + d - 1]. *)
Definition covers (x y d : Z) : Prop :=
  0 <= y ∧ ∀ b, 0 <= b → Z.testbit y b = true ↔ ∃ k, 0 <= k < d ∧ Z.testbit x (b + k) = true.

Lemma covers_refl x : 0 <= x → covers x x 1.
Proof.
  intros Hx. split; [done|]. intros b Hb. split.
  - intros H. exists 0. by rewrite Z.add_0_r.
  - intros (k & Hk & H). by replace (b + k) with b in H by lia.
Qed.

Lemma covers_smear x y d : 0 < d → covers x y d → covers x (smear d y) (2 * d).
Proof.
  intros Hd [Hy Hc]. unfold smear. split.
  { apply Z.lor_nonneg. split; [done|]. by apply Z.shiftr_nonneg. }
  intros b Hb. rewrite Z.lor_spec, Z.shiftr_spec, orb_true_iff, !Hc by lia. split.
  - intros [(k & Hk & H)|(k & Hk & H)].
    + exists k. split; [lia|done].
    + exists (d + k). split; [lia|]. by rewrite Z.add_assoc.
  - intros (k & Hk & H). destruct (decide (k < d)).
    + left. exists k. split; [lia|done].
    + right. exists (k - d). split; [lia|]. by replace (b + d + (k - d)) with (b + k) by lia.
Qed.

(** Once every bit below the highest one is covered the value is [2^(log2 x+1) - 1]. *)
Lemma covers_ones x y d : 0 < x < 2 ^ d → 0 <= d → covers x y d → y = 2 ^ (Z.log2 x + 1) - 1.
Proof.
  intros Hx Hd [Hy Hc].
  pose proof (Z.log2_nonneg x). pose proof (Z.log2_spec x ltac:(lia)).
  assert (Hlog : Z.log2 x < d) by (apply Z.log2_lt_pow2; lia).
  rewrite Z.sub_1_r, <- Z.ones_equiv.
  apply Z.bits_inj'. intros b Hb.
  rewrite Z.testbit_ones_nonneg by lia.
  apply eq_true_iff_eq. rewrite Hc, Z.ltb_lt by done. split.
  - intros (k & Hk & Hbit). destruct (decide (b < Z.log2 x + 1)); [done|].
    rewrite Z.bits_above_log2 in Hbit; [done|lia|lia].
  - intros Hlt. exists (Z.log2 x - b). split; [lia|].
    replace (b + (Z.log2 x - b)) with (Z.log2 x) by lia. apply Z.bit_log2. lia.
Qed.

Lemma covers_0 y d : covers 0 y d → y = 0.
Proof.
  intros [Hy Hc]. apply Z.bits_inj'. intros b Hb. rewrite Z.bits_0.
  apply not_true_is_false. intros H. apply Hc in H as (k & _ & H); [|done].
  by rewrite Z.bits_0 in H.
Qed.

(** The smeared predecessor is one below the next power of two. *)
Lemma covers_log2_up v y d :
  1 <= v <= 2 ^ d → 0 <= d → covers (v - 1) y d → y + 1 = 2 ^ Z.log2_up v.
Proof.
  intros Hv Hd Hc. destruct (decide (v = 1)) as [->|Hne].
  - rewrite (covers_0 y d Hc). done.
  - rewrite (covers_ones (v - 1) y d) by (done || lia).
    rewrite Z.log2_up_eqn by lia. rewrite <- Z.sub_1_r, Z.add_1_r. lia.
Qed.

Lemma log2_up_le_pow2 v k : 0 <= k → 1 <= v → v <= 2 ^ k ↔ Z.log2_up v <= k.
Proof.
  intros Hk Hv. split.
  - intros Hle. rewrite <- (Z.log2_up_pow2 k) by done. by apply Z.log2_up_le_mono.
  - intros Hle. destruct (decide (v = 1)) as [->|]; [pose proof (Z.pow_pos_nonneg 2 k); lia|].
    apply Z.le_trans with (2 ^ Z.log2_up v); [apply Z.log2_up_spec; lia|].
    apply Z.pow_le_mono_r; lia.
Qed.

Lemma log2_up_bound v k : 0 <= k → 1 <= v <= 2 ^ k → Z.log2_up v <= k.
Proof. intros. apply log2_up_le_pow2; lia. Qed.

Lemma pow2_log2_up_ge v : 1 <= v → v <= 2 ^ Z.log2_up v.
Proof. intros. apply log2_up_le_pow2; [apply Z.log2_up_nonneg|done|done]. Qed.
