(* ===== verification/IKFifo.v ===== *)
(** * The byte FIFO interface and what it promises

    [IKFifo] (dmkfifo.h) and [IAtomicKFifo] (dmatomic_kfifo.h) declare the same
    virtual functions.  Here they are one class of operations, the laws a
    bounded byte queue satisfies, an abstract queue, and the theorem that every
    sequence of calls on an implementation of the laws answers what the
    abstract queue answers.  The last section is the index arithmetic the two
    implementations share. *)
From S2P Require Import Prelude RingBuf BitTricks.
Local Open Scope Z_scope.

Abbreviation byte := Byte.byte.
#[export] Instance byte_inhabited : Inhabited byte := populate Byte.x00.

(** The virtual functions.  [put] reads at most [len] bytes of [data]; [get] and
    [peek] overwrite a prefix of the destination and return it. *)
Class IKFifo (F : Type) : Type := {
  put : F → list byte → Z → result (F * Z);
  get : F → list byte → Z → result (F * list byte * Z);
  peek : F → list byte → Z → result (list byte * Z);
  isEmpty : F → bool;
  isFull : F → bool;
  len : F → Z;
  avail : F → Z;
  capacity : F → Z;
  reset : F → F
}.

(** ** The laws *)
Class FifoLaws (F : Type) `{!IKFifo F} : Type := {
  valid : F → Prop;
  contents : F → list byte;
  limit : F → nat;
  contents_fit f : valid f → (length (contents f) ≤ limit f)%nat;
  put_law f data n :
    valid f → fits 32 n → n <= length data →
    let k := (Z.to_nat n `min` (limit f - length (contents f)))%nat in
    ∃ f', put f data n = Ok (f', Z.of_nat k) ∧ valid f' ∧ limit f' = limit f ∧
          contents f' = contents f ++ take k data;
  get_law f data n :
    valid f → fits 32 n → n <= length data →
    let k := (Z.to_nat n `min` length (contents f))%nat in
    ∃ f', get f data n = Ok (f', take k (contents f) ++ drop k data, Z.of_nat k) ∧
          valid f' ∧ limit f' = limit f ∧ contents f' = drop k (contents f);
  peek_law f data n :
    valid f → fits 32 n → n <= length data →
    let k := (Z.to_nat n `min` length (contents f))%nat in
    peek f data n = Ok (take k (contents f) ++ drop k data, Z.of_nat k);
  len_law f : valid f → len f = length (contents f);
  avail_law f : valid f → avail f = (limit f - length (contents f))%nat;
  capacity_law f : valid f → capacity f = limit f;
  isEmpty_law f : valid f → isEmpty f = bool_decide (contents f = []);
  isFull_law f : valid f → isFull f = bool_decide (length (contents f) = limit f);
  reset_law f : valid f → valid (reset f) ∧ limit (reset f) = limit f ∧ contents (reset f) = []
}.

(** ** The abstract bounded queue *)
Inductive call :=
  | Put (data : list byte) (n : Z)
  | Get (data : list byte) (n : Z)
  | Peek (data : list byte) (n : Z)
  | IsEmpty | IsFull | Len | Avail | Capacity | Reset.

Inductive answer :=
  | Count (n : Z)
  | Bytes (data : list byte) (n : Z)
  | Flag (b : bool)
  | Done.

(** The caller's side of the contract: the pointer it passes is to at least as
    many bytes as it announces. *)
Definition call_ok (c : call) : Prop :=
  match c with
  | Put data n | Get data n | Peek data n => fits 32 n ∧ n <= length data
  | _ => True
  end.

Record bqueue := BQueue { q_limit : nat; q_items : list byte }.

Definition spec_call (q : bqueue) (c : call) : bqueue * answer :=
  let used := length (q_items q) in
  match c with
  | Put data n =>
      let k := (Z.to_nat n `min` (q_limit q - used))%nat in
      (BQueue (q_limit q) (q_items q ++ take k data), Count k)
  | Get data n =>
      let k := (Z.to_nat n `min` used)%nat in
      (BQueue (q_limit q) (drop k (q_items q)), Bytes (take k (q_items q) ++ drop k data) k)
  | Peek data n =>
      let k := (Z.to_nat n `min` used)%nat in
      (q, Bytes (take k (q_items q) ++ drop k data) k)
  | IsEmpty => (q, Flag (bool_decide (q_items q = [])))
  | IsFull => (q, Flag (bool_decide (used = q_limit q)))
  | Len => (q, Count used)
  | Avail => (q, Count (q_limit q - used)%nat)
  | Capacity => (q, Count (q_limit q))
  | Reset => (BQueue (q_limit q) [], Done)
  end.

Fixpoint spec_run (q : bqueue) (cs : list call) : bqueue * list answer :=
  match cs with
  | [] => (q, [])
  | c :: cs =>
      let '(q, a) := spec_call q c in
      let '(q, answers) := spec_run q cs in (q, a :: answers)
  end.

Section refinement.
Context {F : Type} `{!IKFifo F}.

Definition impl_call (f : F) (c : call) : result (F * answer) :=
  match c with
  | Put data n => '(f, k) ← put f data n; Ok (f, Count k)
  | Get data n => '(f, out, k) ← get f data n; Ok (f, Bytes out k)
  | Peek data n => '(out, k) ← peek f data n; Ok (f, Bytes out k)
  | IsEmpty => Ok (f, Flag (isEmpty f))
  | IsFull => Ok (f, Flag (isFull f))
  | Len => Ok (f, Count (len f))
  | Avail => Ok (f, Count (avail f))
  | Capacity => Ok (f, Count (capacity f))
  | Reset => Ok (reset f, Done)
  end.

Fixpoint impl_run (f : F) (cs : list call) : result (F * list answer) :=
  match cs with
  | [] => Ok (f, [])
  | c :: cs =>
      '(f, a) ← impl_call f c;
      '(f, answers) ← impl_run f cs;
      Ok (f, a :: answers)
  end.

Context `{!FifoLaws F}.

Definition abstract (f : F) : bqueue := BQueue (limit f) (contents f).

Lemma impl_call_refines f c :
  valid f → call_ok c →
  ∃ f', impl_call f c = Ok (f', (spec_call (abstract f) c).2) ∧ valid f' ∧
        abstract f' = (spec_call (abstract f) c).1.
Proof.
  intros Hv Hc. destruct c as [data n|data n|data n| | | | | |]; simpl.
  - destruct Hc as [Hn Hd]. destruct (put_law f data n Hv Hn Hd) as (f' & -> & ? & Hl & Hcs).
    exists f'. split_and!; [done|done|]. unfold abstract. by rewrite Hl, Hcs.
  - destruct Hc as [Hn Hd]. destruct (get_law f data n Hv Hn Hd) as (f' & -> & ? & Hl & Hcs).
    exists f'. split_and!; [done|done|]. unfold abstract. by rewrite Hl, Hcs.
  - destruct Hc as [Hn Hd]. rewrite (peek_law f data n Hv Hn Hd). eauto.
  - rewrite (isEmpty_law f Hv). eauto.
  - rewrite (isFull_law f Hv). eauto.
  - rewrite (len_law f Hv). eauto.
  - rewrite (avail_law f Hv). eauto.
  - rewrite (capacity_law f Hv). eauto.
  - destruct (reset_law f Hv) as (? & Hl & Hcs). exists (reset f).
    split_and!; [done|done|]. unfold abstract. by rewrite Hl, Hcs.
Qed.

Lemma impl_run_refines cs f :
  valid f → Forall call_ok cs →
  ∃ f', impl_run f cs = Ok (f', (spec_run (abstract f) cs).2) ∧ valid f' ∧
        abstract f' = (spec_run (abstract f) cs).1.
Proof.
  intros Hv Hcs. revert f Hv. induction Hcs as [|c cs Hc _ IH]; intros f Hv; simpl.
  { eauto. }
  destruct (impl_call_refines f c Hv Hc) as (f' & -> & Hv' & Ha). simpl.
  destruct (IH f' Hv') as (f'' & -> & Hv'' & Ha'). simpl. rewrite Ha in Ha' |- *.
  destruct (spec_call _ c) as [q a]. simpl in *.
  destruct (spec_run q cs) as [q' answers]. simpl in *. eauto.
Qed.
End refinement.

(** ** Index arithmetic of the two implementations

    [in] and [out] are free-running 32-bit counters; the slot of a counter is
    its value masked by [capacity - 1]. *)
Section geometry.
Implicit Types (buffer data : list byte).

Record geometry buffer (cap mask i o : Z) : Prop := {
  geo_pow2 : ∃ k, 1 <= k <= 31 ∧ cap = 2 ^ k;
  geo_mask : mask = cap - 1;
  geo_buffer : cap = length buffer;
  geo_in : fits 32 i;
  geo_out : fits 32 o;
  geo_used : u32 (i - o) <= cap
}.

Definition used (i o : Z) : nat := Z.to_nat (u32 (i - o)).
Definition queued buffer (i o : Z) : list byte := window buffer (Z.to_nat o) (used i o).

Context buffer (cap mask i o : Z) (G : geometry buffer cap mask i o).

Lemma geo_used_of : u32 (i - o) = used i o.
Proof. unfold used. rewrite Z2Nat.id; [done|]. by apply wrap_fits. Qed.

Lemma geo_used_le : (used i o ≤ length buffer)%nat.
Proof. pose proof geo_used_of. destruct G. lia. Qed.

Lemma geo_free : u32 (cap - u32 (i - o)) = (length buffer - used i o)%nat.
Proof.
  rewrite geo_used_of. pose proof geo_used_le. destruct G as [(k & Hk & Hc) _ Hb _ _ _].
  rewrite wrap_small; [lia|]. unfold fits.
  pose proof (Z.pow_le_mono_r 2 k 31 ltac:(lia) ltac:(lia)). lia.
Qed.

Lemma geo_length : (0 < length buffer)%nat ∧ length buffer < 2 ^ 32.
Proof.
  destruct G as [(k & Hk & Hc) _ Hb _ _ _].
  pose proof (Z.pow_le_mono_r 2 k 31 ltac:(lia) ltac:(lia)).
  pose proof (Z.pow_pos_nonneg 2 k). lia.
Qed.

(** The slot of a wrapped counter is the slot of the unwrapped one. *)
Lemma geo_slot x : 0 <= x → Z.land (u32 x) mask = slot buffer (Z.to_nat x).
Proof.
  intros Hx. destruct G as [(k & Hk & Hc) Hm Hb _ _ _].
  rewrite Hm, Hc, land_mask by lia. rewrite wrap_mod_pow2 by lia.
  unfold slot. rewrite Nat2Z.inj_mod, Z2Nat.id by done. by rewrite <- Hb, Hc.
Qed.

Lemma geo_in_of : i = u32 (o + used i o).
Proof.
  rewrite <- geo_used_of. rewrite wrap_add_r.
  replace (o + (i - o)) with i by lia. rewrite wrap_small; [done|apply G].
Qed.

Lemma geo_out_slot : Z.land o mask = slot buffer (Z.to_nat o).
Proof.
  destruct (geo_out _ _ _ _ _ G). rewrite <- geo_slot by lia.
  by rewrite (wrap_small 32 o) by (split; lia).
Qed.

Lemma geo_in_slot : Z.land i mask = slot buffer (Z.to_nat o + used i o)%nat.
Proof.
  destruct (geo_out _ _ _ _ _ G). rewrite geo_in_of at 1. rewrite geo_slot by lia.
  f_equal. f_equal. lia.
Qed.

Lemma geo_put data (n : nat) :
  (n ≤ length data)%nat → (used i o + n ≤ length buffer)%nat →
  ∃ buffer', copy_in buffer cap (Z.land i mask) data n = Ok buffer' ∧
    geometry buffer' cap mask (u32 (i + n)) o ∧
    queued buffer' (u32 (i + n)) o = queued buffer i o ++ take n data.
Proof.
  intros Hd Hn. pose proof geo_length as [H0 H32].
  assert (Hb : cap = length buffer) by apply G.
  exists (ring_put buffer (Z.to_nat o + used i o) (take n data)).
  assert (Hu : u32 (u32 (i + n) - o) = (used i o + n)%nat).
  { rewrite wrap_sub_l. replace (i + n - o) with (i - o + n) by lia.
    rewrite <- wrap_add_l.  rewrite geo_used_of, wrap_small; unfold fits; lia. }
  split_and!.
  - rewrite geo_in_slot, Hb. apply copy_in_ok; try done; lia.
  - destruct G. constructor; try done; rewrite ?length_ring_put; try done;
      [by apply wrap_fits|rewrite Hu; lia].
  - unfold queued. replace (used (u32 (i + n)) o) with (used i o + length (take n data))%nat.
    + rewrite window_ring_put; [done|]. rewrite length_take. lia.
    + unfold used at 2. rewrite Hu, length_take. lia.
Qed.

Lemma geo_read data (n : nat) :
  (n ≤ length data)%nat → (n ≤ used i o)%nat →
  copy_out buffer cap (Z.land o mask) data n = Ok (take n (queued buffer i o) ++ drop n data).
Proof.
  intros Hd Hn. pose proof geo_length as [H0 H32]. pose proof geo_used_le.
  rewrite geo_out_slot, (geo_buffer _ _ _ _ _ G), copy_out_ok by (done || lia).
  unfold queued. replace (used i o) with (n + (used i o - n))%nat by lia.
  by rewrite window_app, take_app_length' by (by rewrite length_window).
Qed.

Lemma geo_get (n : nat) :
  (n ≤ used i o)%nat →
  geometry buffer cap mask i (u32 (o + n)) ∧
  queued buffer i (u32 (o + n)) = drop n (queued buffer i o).
Proof.
  intros Hn. pose proof geo_length as [H0 H32]. pose proof geo_used_le.
  assert (Hu : u32 (i - u32 (o + n)) = (used i o - n)%nat).
  { rewrite wrap_sub_r. replace (i - (o + n)) with (i - o - n) by lia.
    rewrite <- wrap_sub_l.  rewrite geo_used_of, wrap_small; unfold fits; lia. }
  split.
  - destruct G. constructor; try done; [by apply wrap_fits|rewrite Hu; lia].
  - destruct (geo_out _ _ _ _ _ G) as [Ho _].
    unfold queued. unfold used at 1. rewrite Hu, Nat2Z.id.
    replace (used i o) with (n + (used i o - n))%nat at 2 by lia.
    rewrite window_app, drop_app_length' by (by rewrite length_window).
    apply window_congr, Nat2Z.inj.
    replace (Z.to_nat o + n)%nat with (Z.to_nat (o + n)) by lia.
    rewrite <- (geo_slot (o + n)) by lia.
    rewrite <- (geo_slot (u32 (o + n))) by (apply wrap_fits; lia).
    by rewrite wrap_wrap.
Qed.
End geometry.
