(* ===== verification/KFifo.v ===== *)
(** * [KFifo] (dmkfifo.h): the kernel-style byte FIFO *)
From S2P Require Import Prelude RingBuf BitTricks IKFifo.
Local Open Scope Z_scope.

Module KFifo.

Definition sizeof_uint32 : Z := 4.

Definition roundup_power_of_two (v : Z) : Z :=
  if v =? 0 then 0 else
  let n := u32 (v - 1) in
  let n := smear 1 n in
  let n := smear 2 n in
  let n := smear 4 n in
  let n := smear 8 n in
  let n := smear 16 n in
  let n := if 4 <? sizeof_uint32 then smear 32 n else n in
  u32 (n + 1).

Record t := mk {
  buffer_ : list byte;
  capacity_ : Z;
  mask_ : Z;
  in_idx_ : Z;
  out_idx_ : Z
}.

(** The constructor.  [buffer_.resize] value-initialises the bytes. *)
Definition create (requested_capacity : Z) : result t :=
  if requested_capacity =? 0
  then Throw (invalid_argument "KFifo capacity must be greater than 0.")
  else
    let cap := roundup_power_of_two requested_capacity in
    let capacity := if cap <? 2 then 2 else cap in
    Ok (mk (replicate (Z.to_nat capacity) Byte.x00) capacity (u32 (capacity - 1)) 0 0).

Definition len (q : t) : Z := u32 (in_idx_ q - out_idx_ q).
Definition avail (q : t) : Z := u32 (capacity_ q - len q).
Definition capacity (q : t) : Z := capacity_ q.
Definition isEmpty (q : t) : bool := in_idx_ q =? out_idx_ q.
Definition isFull (q : t) : bool := len q =? capacity_ q.

Definition put (q : t) (data : list byte) (n : Z) : result (t * Z) :=
  let free_space := avail q in
  let write_len := Z.min n free_space in
  if write_len =? 0 then Ok (q, 0) else
  let offset := Z.land (in_idx_ q) (mask_ q) in
  buffer ← copy_in (buffer_ q) (capacity_ q) offset data write_len;
  Ok (mk buffer (capacity_ q) (mask_ q) (u32 (in_idx_ q + write_len)) (out_idx_ q), write_len).

Definition get (q : t) (data : list byte) (n : Z) : result (t * list byte * Z) :=
  let current_data_len := len q in
  let read_len := Z.min n current_data_len in
  if read_len =? 0 then Ok (q, data, 0) else
  let offset := Z.land (out_idx_ q) (mask_ q) in
  data ← copy_out (buffer_ q) (capacity_ q) offset data read_len;
  Ok (mk (buffer_ q) (capacity_ q) (mask_ q) (in_idx_ q) (u32 (out_idx_ q + read_len)),
      data, read_len).

Definition peek (q : t) (data : list byte) (n : Z) : result (list byte * Z) :=
  let current_data_len := len q in
  let peek_len := Z.min n current_data_len in
  if peek_len =? 0 then Ok (data, 0) else
  let offset := Z.land (out_idx_ q) (mask_ q) in
  data ← copy_out (buffer_ q) (capacity_ q) offset data peek_len;
  Ok (data, peek_len).

Definition reset (q : t) : t := mk (buffer_ q) (capacity_ q) (mask_ q) 0 0.

#[global] Instance ops : IKFifo t := {
  IKFifo.put := put; IKFifo.get := get; IKFifo.peek := peek;
  IKFifo.isEmpty := isEmpty; IKFifo.isFull := isFull; IKFifo.len := len;
  IKFifo.avail := avail; IKFifo.capacity := capacity; IKFifo.reset := reset }.

Definition valid (q : t) : Prop :=
  geometry (buffer_ q) (capacity_ q) (mask_ q) (in_idx_ q) (out_idx_ q).
Definition contents (q : t) : list byte := queued (buffer_ q) (in_idx_ q) (out_idx_ q).
Definition limit (q : t) : nat := length (buffer_ q).

(** ** Rounding up *)

Lemma roundup_covers n : 0 <= n → covers n (smear 16 (smear 8 (smear 4 (smear 2 (smear 1 n))))) 32.
Proof.
  intros Hn.
  apply (covers_smear n _ 16); [lia|]. apply (covers_smear n _ 8); [lia|].
  apply (covers_smear n _ 4); [lia|]. apply (covers_smear n _ 2); [lia|].
  apply (covers_smear n _ 1); [lia|]. by apply covers_refl.
Qed.

Lemma roundup_eq v : 0 < v < 2 ^ 32 → roundup_power_of_two v = u32 (2 ^ Z.log2_up v).
Proof.
  intros Hv. unfold roundup_power_of_two. destruct (Z.eqb_spec v 0); [lia|].
  change (4 <? sizeof_uint32) with false. cbv zeta iota. f_equal.
  rewrite (wrap_small 32 (v - 1)) by (unfold fits; lia).
  apply (covers_log2_up v _ 32); [lia|lia|]. apply roundup_covers. lia.
Qed.

(** for a capacity up to 2^31 the rounding returns the least power of two
    not below it; above 2^31 the increment wraps and it returns 0. *)
Theorem roundup_power_of_two_spec v (Hv : 0 < v < 2 ^ 32) :
  let r := roundup_power_of_two v in
  if v <=? 2 ^ 31
  then (∃ k, 0 <= k ∧ r = 2 ^ k) ∧ v <= r ∧ ∀ j, 0 <= j → v <= 2 ^ j → r <= 2 ^ j
  else r = 0.
Proof.
  cbv zeta. rewrite roundup_eq by done. pose proof (Z.log2_up_nonneg v).
  destruct (Z.leb_spec v (2 ^ 31)) as [Hle|Hgt].
  - pose proof (log2_up_bound v 31 ltac:(lia) ltac:(lia)) as Hlog.
    pose proof (Z.pow_le_mono_r 2 (Z.log2_up v) 31 ltac:(lia) Hlog).
    rewrite wrap_small by (unfold fits; lia). split_and!.
    + eauto.
    + apply pow2_log2_up_ge. lia.
    + intros j Hj Hvj. apply Z.pow_le_mono_r; [lia|]. apply log2_up_bound; lia.
  - assert (Z.log2_up v = 32) as ->; [|done].
    apply Z.le_antisymm; [apply log2_up_bound; lia|].
    destruct (decide (Z.log2_up v <= 31)) as [Hlog|]; [|lia].
    apply log2_up_le_pow2 in Hlog; lia.
Qed.

Lemma roundup_power_of_two_spec_witness :
  roundup_power_of_two 1000 = 1024 ∧ roundup_power_of_two (2 ^ 31 + 1) = 0 ∧
  (let r := roundup_power_of_two 5 in
   if 5 <=? 2 ^ 31
   then (∃ k, 0 <= k ∧ r = 2 ^ k) ∧ 5 <= r ∧ ∀ j, 0 <= j → 5 <= 2 ^ j → r <= 2 ^ j
   else r = 0).
Proof. split_and!; [done|done|]. apply (roundup_power_of_two_spec 5); lia. Defined.

(** ** The constructor *)

(** The capacity the constructor gives a request: the next power of two and at
    least 2. *)
Definition rounded (v : Z) : nat := Z.to_nat (2 ^ Z.max 1 (Z.log2_up v)).

Lemma rounded_pow2 v :
  0 < v <= 2 ^ 31 → ∃ k, (1 ≤ k ≤ 31)%nat ∧ rounded v = (2 ^ k)%nat.
Proof.
  intros Hv. pose proof (log2_up_bound v 31 ltac:(lia) ltac:(lia)).
  exists (Z.to_nat (Z.max 1 (Z.log2_up v))). split; [lia|].
  unfold rounded. rewrite Z2Nat.inj_pow by lia. done.
Qed.

Lemma rounded_bounds v : 0 < v <= 2 ^ 31 → Z.max 2 v <= rounded v <= 2 ^ 31.
Proof.
  intros Hv. pose proof (log2_up_bound v 31 ltac:(lia) ltac:(lia)).
  pose proof (pow2_log2_up_ge v ltac:(lia)). pose proof (Z.log2_up_nonneg v).
  unfold rounded. rewrite Z2Nat.id by (apply Z.pow_nonneg; lia).
  pose proof (Z.pow_le_mono_r 2 (Z.log2_up v) (Z.max 1 (Z.log2_up v))).
  pose proof (Z.pow_le_mono_r 2 1 (Z.max 1 (Z.log2_up v))).
  pose proof (Z.pow_le_mono_r 2 (Z.max 1 (Z.log2_up v)) 31). lia.
Qed.

Lemma create_eq v :
  0 < v <= 2 ^ 31 →
  create v = Ok (mk (replicate (rounded v) Byte.x00) (rounded v) (rounded v - 1) 0 0).
Proof.
  intros Hv. pose proof (rounded_bounds v Hv) as Hb. unfold create.
  destruct (Z.eqb_spec v 0); [lia|].
  pose proof (log2_up_bound v 31 ltac:(lia) ltac:(lia)). pose proof (Z.log2_up_nonneg v).
  pose proof (Z.pow_le_mono_r 2 (Z.log2_up v) 31 ltac:(lia) ltac:(lia)).
  pose proof (Z.pow_pos_nonneg 2 (Z.log2_up v)).
  rewrite roundup_eq, (wrap_small 32) by (unfold fits; lia).
  assert (Hcap : (if 2 ^ Z.log2_up v <? 2 then 2 else 2 ^ Z.log2_up v) = rounded v).
  { unfold rounded. rewrite Z2Nat.id by (apply Z.pow_nonneg; lia).
    destruct (decide (Z.log2_up v = 0)) as [->|]; [done|]. rewrite Z.max_r by lia.
    pose proof (Z.pow_le_mono_r 2 1 (Z.log2_up v)).
    destruct (Z.ltb_spec (2 ^ Z.log2_up v) 2); lia. }
  rewrite Hcap, Nat2Z.id, wrap_small by (unfold fits; lia). done.
Qed.

Lemma create_valid v :
  0 < v <= 2 ^ 31 →
  ∃ q, create v = Ok q ∧ valid q ∧ limit q = rounded v ∧ contents q = [].
Proof.
  intros Hv. rewrite create_eq by done. pose proof (rounded_bounds v Hv).
  destruct (rounded_pow2 v Hv) as (k & Hk & Hr).
  eexists. split_and!; [done| | |done].
  - constructor; simpl; try done.
    + exists (Z.of_nat k). split; [lia|]. by rewrite Hr, Nat2Z.inj_pow.
    + by rewrite length_replicate.
    + change (u32 (0 - 0)) with 0. lia.
  - unfold limit. simpl. by rewrite length_replicate.
Qed.

(** a request of 0 throws; a request up to 2^31 is granted: the queue is
    empty, its capacity is a power of two, at least 2 and at least the
    request; a larger request silently gets a queue of two bytes. *)
Theorem create_spec v (Hv : fits 32 v) :
  if v =? 0
  then create v = Throw (invalid_argument "KFifo capacity must be greater than 0.")
  else ∃ q, create v = Ok q ∧ isEmpty q = true ∧ avail q = capacity q ∧
       if v <=? 2 ^ 31
       then valid q ∧ Z.max 2 v <= capacity q ∧ ∃ k, 0 <= k ∧ capacity q = 2 ^ k
       else capacity q = 2.
Proof.
  destruct Hv as [Hv0 Hv]. destruct (Z.eqb_spec v 0) as [->|Hne]; [done|].
  destruct (Z.leb_spec v (2 ^ 31)) as [Hle|Hgt].
  - destruct (create_valid v ltac:(lia)) as (q & Hq & Hval & Hlim & Hcs).
    assert (Hcap : capacity q = rounded v).
    { unfold capacity. rewrite (geo_buffer _ _ _ _ _ Hval). by rewrite <- Hlim. }
    assert (Hlen : u32 (in_idx_ q - out_idx_ q) = 0).
    { rewrite geo_used_of. unfold contents, queued in Hcs.
      apply (f_equal length) in Hcs. rewrite length_window in Hcs. by rewrite Hcs. }
    exists q. split_and!; try done.
    + unfold isEmpty. unfold create in Hq.
      destruct (v =? 0); [done|]. by simplify_eq/=.
    + unfold avail, len. rewrite Hlen, Z.sub_0_r. apply wrap_small.
      pose proof (geo_length _ _ _ _ _ Hval). pose proof (geo_buffer _ _ _ _ _ Hval).
      unfold fits, capacity. lia.
    + rewrite Hcap. apply rounded_bounds. lia.
    + rewrite Hcap. destruct (rounded_pow2 v ltac:(lia)) as (k & _ & ->).
      exists (Z.of_nat k). split; [lia|]. by rewrite Nat2Z.inj_pow.
  - pose proof (roundup_power_of_two_spec v ltac:(lia)) as Hr. cbv zeta in Hr.
    rewrite (proj2 (Z.leb_gt v (2 ^ 31))) in Hr by done.
    unfold create. rewrite Hr. destruct (Z.eqb_spec v 0); [done|].
    eexists. by split_and!.
Qed.

Lemma create_spec_witness :
  (create 0 = Throw (invalid_argument "KFifo capacity must be greater than 0.")) ∧
  (∃ q, create 100 = Ok q ∧ capacity q = 128) ∧
  (∃ q, create (2 ^ 31 + 1) = Ok q ∧ isEmpty q = true ∧ avail q = capacity q ∧
        capacity q = 2).
Proof.
  split_and!; [done|eexists; by split|].
  pose proof (create_spec (2 ^ 31 + 1)) as H. by apply H.
Defined.

(** ** The laws of the interface *)

Lemma contents_length q : length (contents q) = used (in_idx_ q) (out_idx_ q).
Proof. apply length_window. Qed.

Lemma avail_eq q : valid q → avail q = (limit q - length (contents q))%nat.
Proof. intros Hq. rewrite contents_length. exact (geo_free _ _ _ _ _ Hq). Qed.

Lemma len_eq q : len q = length (contents q).
Proof. rewrite contents_length. apply geo_used_of. Qed.

Lemma put_ok q data n :
  valid q → fits 32 n → n <= length data →
  let k := (Z.to_nat n `min` (limit q - length (contents q)))%nat in
  ∃ q', put q data n = Ok (q', Z.of_nat k) ∧ valid q' ∧ limit q' = limit q ∧
        contents q' = contents q ++ take k data.
Proof.
  intros Hq [Hn0 Hn] Hd k. unfold put. rewrite avail_eq by done.
  replace (Z.min n _) with (Z.of_nat k) by lia.
  destruct (Z.eqb_spec k 0) as [Hk|Hk].
  - exists q. replace k with 0%nat by lia. rewrite take_0, app_nil_r. done.
  - pose proof (contents_length q). pose proof (geo_used_le _ _ _ _ _ Hq).
    destruct (geo_put _ _ _ _ _ Hq data k) as (buffer' & -> & Hq' & Hcs);
      [lia|unfold limit in *; lia|].
    eexists. split_and!; [done|done| |done]. unfold limit. simpl.
    apply Nat2Z.inj. by rewrite <- (geo_buffer _ _ _ _ _ Hq), <- (geo_buffer _ _ _ _ _ Hq').
Qed.

Lemma peek_ok q data n :
  valid q → fits 32 n → n <= length data →
  let k := (Z.to_nat n `min` length (contents q))%nat in
  peek q data n = Ok (take k (contents q) ++ drop k data, Z.of_nat k).
Proof.
  intros Hq [Hn0 Hn] Hd k. unfold peek. rewrite len_eq.
  replace (Z.min n _) with (Z.of_nat k) by lia.
  destruct (Z.eqb_spec k 0) as [Hk|Hk]; [by replace k with 0%nat by lia|].
  pose proof (contents_length q). by rewrite (geo_read _ _ _ _ _ Hq) by lia.
Qed.

(** [get] is [peek] followed by the advance of the read counter. *)
Lemma get_peek q data n :
  get q data n =
  '(data, k) ← peek q data n;
  Ok (if k =? 0 then q
      else mk (buffer_ q) (capacity_ q) (mask_ q) (in_idx_ q) (u32 (out_idx_ q + k)), data, k).
Proof.
  unfold get, peek. destruct (Z.min n (len q) =? 0) eqn:Hk; [done|].
  destruct (copy_out _ _ _ _ _); simpl; by rewrite ?Hk.
Qed.

Lemma get_ok q data n :
  valid q → fits 32 n → n <= length data →
  let k := (Z.to_nat n `min` length (contents q))%nat in
  ∃ q', get q data n = Ok (q', take k (contents q) ++ drop k data, Z.of_nat k) ∧
        valid q' ∧ limit q' = limit q ∧ contents q' = drop k (contents q).
Proof.
  intros Hq Hn Hd k. rewrite get_peek, peek_ok by done. fold k. simpl.
  pose proof (contents_length q). eexists. split; [done|].
  destruct (Z.eqb_spec k 0) as [Hk|Hk]; [by replace k with 0%nat by lia|].
  destruct (geo_get _ _ _ _ _ Hq k) as [Hq' Hcs]; [lia|]. done.
Qed.

Lemma isEmpty_eq q : valid q → isEmpty q = bool_decide (contents q = []).
Proof.
  intros Hq. unfold isEmpty. apply eq_true_iff_eq.
  rewrite Z.eqb_eq, bool_decide_eq_true, <- length_zero_iff_nil, contents_length.
  split.
  - intros ->. unfold used. by rewrite Z.sub_diag.
  - intros Hz. rewrite (geo_in_of _ _ _ _ _ Hq), Hz, Z.add_0_r.
    apply wrap_small, Hq.
Qed.

Lemma reset_ok q :
  valid q → valid (reset q) ∧ limit (reset q) = limit q ∧ contents (reset q) = [].
Proof.
  intros Hq. split_and!; [|done|done]. pose proof (geo_length _ _ _ _ _ Hq).
  destruct Hq. constructor; simpl; try done. change (u32 (0 - 0)) with 0. lia.
Qed.

#[global] Instance laws : FifoLaws t.
Proof.
  refine {| IKFifo.valid := valid; IKFifo.contents := contents; IKFifo.limit := limit |}.
  - intros q Hq. rewrite contents_length. exact (geo_used_le _ _ _ _ _ Hq).
  - exact put_ok.
  - exact get_ok.
  - exact peek_ok.
  - intros q _. apply len_eq.
  - exact avail_eq.
  - intros q Hq. exact (geo_buffer _ _ _ _ _ Hq).
  - exact isEmpty_eq.
  - intros q Hq. apply eq_true_iff_eq. simpl. unfold isFull.
    rewrite Z.eqb_eq, bool_decide_eq_true, len_eq, (geo_buffer _ _ _ _ _ Hq). unfold limit. lia.
  - exact reset_ok.
Defined.

(** ** Refinement *)

(** C36: whatever calls are made on a freshly constructed queue, no call is
    undefined (no access outside [buffer_]) and the answers are those of a
    bounded byte queue of the rounded capacity. *)
Theorem kfifo_refines_bqueue v cs (Hv : 0 < v <= 2 ^ 31) (Hcs : Forall call_ok cs) :
  ∃ q, (q0 ← create v; impl_run q0 cs) = Ok (q, (spec_run (BQueue (rounded v) []) cs).2) ∧
       abstract q = (spec_run (BQueue (rounded v) []) cs).1.
Proof.
  destruct (create_valid v Hv) as (q0 & -> & Hq0 & Hl & Hc). rewrite bind_ok.
  destruct (impl_run_refines cs q0) as (q & Hrun & _ & Ha); [exact Hq0|exact Hcs|].
  replace (BQueue (rounded v) []) with (abstract q0); [eauto|].
  unfold abstract. simpl. by rewrite Hl, Hc.
Qed.

Definition bytes (zs : list nat) : list byte := (λ z, default Byte.x00 (Byte.of_nat z)) <$> zs.

(** Seven bytes through a queue of four, wrapping around the buffer. *)
Definition kfifo_calls : list call :=
  [Put (bytes [1; 2; 3]%nat) 3; Get (bytes [0; 0]%nat) 2; Put (bytes [4; 5; 6; 7]%nat) 4;
   IsFull; Peek (bytes [9]%nat) 1; Get (bytes [0; 0; 0; 0; 0]%nat) 5; IsEmpty].

Lemma kfifo_refines_bqueue_witness :
  (q0 ← create 3; impl_run q0 kfifo_calls) =
    Ok (mk (bytes [5; 6; 3; 4]%nat) 4 3 6 6,
        [Count 3; Bytes (bytes [1; 2]%nat) 2; Count 3; Flag true; Bytes (bytes [3]%nat) 1;
         Bytes (bytes [3; 4; 5; 6; 0]%nat) 4; Flag true]) ∧
  ∃ q, (q0 ← create 3; impl_run q0 kfifo_calls) =
       Ok (q, (spec_run (BQueue (rounded 3) []) kfifo_calls).2) ∧
       abstract q = (spec_run (BQueue (rounded 3) []) kfifo_calls).1.
Proof.
  split; [by vm_compute|]. apply (kfifo_refines_bqueue 3 kfifo_calls); [lia|].
  repeat constructor; by vm_compute.
Defined.

(** C40: bytes put into a queue with room for them come back from [get] in
    order, after those already queued. *)
Theorem kfifo_put_get_roundtrip q data dest n
  (Hq : valid q) (Hn : fits 32 n) (Hd : n = length data)
  (Hroom : n <= avail q) (Hdest : length dest = length (contents q ++ data)) :
  ∃ q1 q2, put q data n = Ok (q1, n) ∧
    get q1 dest (len q1) = Ok (q2, contents q ++ data, len q1) ∧ isEmpty q2 = true.
Proof.
  destruct (put_ok q data n Hq Hn ltac:(lia)) as (q1 & Hput & Hq1 & Hl1 & Hc1).
  rewrite avail_eq in Hroom by done.
  replace (Z.to_nat n `min` _)%nat with (length data) in Hput, Hc1 by lia.
  rewrite firstn_all in Hc1.
  assert (Hfit : fits 32 (len q1)) by (apply wrap_fits; lia).
  assert (Hlen1 : len q1 = length (contents q1)) by apply len_eq.
  destruct (get_ok q1 dest (len q1) Hq1 Hfit) as (q2 & Hget & Hq2 & _ & Hc2).
  { rewrite Hlen1, Hc1, Hdest. lia. }
  replace (Z.to_nat _ `min` _)%nat with (length (contents q1)) in Hget, Hc2 by lia.
  exists q1, q2. rewrite Hd at 2. split_and!; [done| |].
  - rewrite Hget, firstn_all, drop_ge, app_nil_r, <- Hlen1, Hc1 by (rewrite Hc1; lia). done.
  - rewrite isEmpty_eq, Hc2, drop_all by done. done.
Qed.

Lemma kfifo_put_get_roundtrip_witness :
  ∃ q q1 q2, create 4 = Ok q ∧ put q (bytes [7; 8]%nat) 2 = Ok (q1, 2) ∧
    get q1 (bytes [0; 0]%nat) (len q1) = Ok (q2, bytes [7; 8]%nat, len q1) ∧ isEmpty q2 = true.
Proof.
  destruct (create_valid 4 ltac:(lia)) as (q & Hq & Hval & Hlim & Hcs).
  assert (Hav : avail q = 4).
  { rewrite avail_eq, Hlim, Hcs by done. by vm_compute. }
  destruct (kfifo_put_get_roundtrip q (bytes [7; 8]%nat) (bytes [0; 0]%nat) 2 Hval)
    as (q1 & q2 & H1 & H2 & H3).
  - done.
  - done.
  - rewrite Hav. lia.
  - by rewrite Hcs.
  - rewrite Hcs in H2. by exists q, q1, q2.
Defined.
End KFifo.
