(* ===== verification/TryQueue.v ===== *)
(** * What the element queues promise

    [CDMAtomicQueue], [CAtomicQueue] and [CDMQueue] offer, under different
    names, the same three operations: push unless full, pop unless empty, and
    the number of elements.  The class has the operations, the laws say that
    they are those of a bounded first-in first-out queue, and the refinement
    theorem is proved once from the laws. *)
From S2P Require Import Prelude.
Local Open Scope Z_scope.

Class TryQueue (Q T : Type) : Type := {
  tq_push : Q → T → result (Q * bool);
  tq_pop : Q → result (Q * option T);
  tq_used : Q → result Z
}.

Class TryQueueLaws (Q T : Type) `{!TryQueue Q T} : Type := {
  tq_repr : Q → nat → list T → Prop;    (* the limit and the contents *)
  tq_item : T → Prop;                   (* the elements that may be pushed *)
  tq_fit q n xs : tq_repr q n xs → (length xs ≤ n)%nat;
  tq_push_law q n xs x :
    tq_repr q n xs → tq_item x →
    if decide (length xs < n)%nat
    then ∃ q', tq_push q x = Ok (q', true) ∧ tq_repr q' n (xs ++ [x])
    else tq_push q x = Ok (q, false);
  tq_pop_law q n xs :
    tq_repr q n xs →
    match xs with
    | [] => tq_pop q = Ok (q, None)
    | x :: xs => ∃ q', tq_pop q = Ok (q', Some x) ∧ tq_repr q' n xs
    end;
  tq_used_law q n xs : tq_repr q n xs → tq_used q = Ok (Z.of_nat (length xs))
}.

Inductive tq_call (T : Type) := TryPush (x : T) | TryPop | Used.
Arguments TryPush {T} _.
Arguments TryPop {T}.
Arguments Used {T}.

Inductive tq_answer (T : Type) := Pushed (b : bool) | Popped (o : option T) | Count (n : Z).
Arguments Pushed {T} _.
Arguments Popped {T} _.
Arguments Count {T} _.

(** The bounded queue of [n] elements. *)
Definition tq_spec {T} (n : nat) (xs : list T) (c : tq_call T) : list T * tq_answer T :=
  match c with
  | TryPush x =>
      if decide (length xs < n)%nat then (xs ++ [x], Pushed true) else (xs, Pushed false)
  | TryPop => (tail xs, Popped (head xs))
  | Used => (xs, Count (length xs))
  end.

Fixpoint tq_spec_run {T} (n : nat) (xs : list T) (cs : list (tq_call T)) :
    list T * list (tq_answer T) :=
  match cs with
  | [] => (xs, [])
  | c :: cs =>
      let '(xs, a) := tq_spec n xs c in
      let '(xs, answers) := tq_spec_run n xs cs in (xs, a :: answers)
  end.

Section refinement.
Context {Q T : Type} `{!TryQueue Q T}.

Definition tq_exec (q : Q) (c : tq_call T) : result (Q * tq_answer T) :=
  match c with
  | TryPush x => '(q, b) ← tq_push q x; Ok (q, Pushed b)
  | TryPop => '(q, o) ← tq_pop q; Ok (q, Popped o)
  | Used => n ← tq_used q; Ok (q, Count n)
  end.

Fixpoint tq_run (q : Q) (cs : list (tq_call T)) : result (Q * list (tq_answer T)) :=
  match cs with
  | [] => Ok (q, [])
  | c :: cs =>
      '(q, a) ← tq_exec q c;
      '(q, answers) ← tq_run q cs; Ok (q, a :: answers)
  end.

Context `{!TryQueueLaws Q T}.

Definition tq_call_ok (c : tq_call T) : Prop :=
  match c with TryPush x => tq_item x | _ => True end.

Lemma tq_exec_refines q n xs c :
  tq_repr q n xs → tq_call_ok c →
  ∃ q', tq_exec q c = Ok (q', (tq_spec n xs c).2) ∧ tq_repr q' n (tq_spec n xs c).1.
Proof.
  intros R Hc. destruct c as [x| |]; simpl.
  - pose proof (tq_push_law q n xs x R Hc) as P. case_decide.
    + destruct P as (q' & -> & R'). eauto.
    + rewrite P. eauto.
  - pose proof (tq_pop_law q n xs R) as P. destruct xs as [|x xs]; simpl.
    + rewrite P. eauto.
    + destruct P as (q' & -> & R'). eauto.
  - rewrite (tq_used_law q n xs R). eauto.
Qed.

Lemma tq_run_refines cs : ∀ q n xs,
  tq_repr q n xs → Forall tq_call_ok cs →
  ∃ q', tq_run q cs = Ok (q', (tq_spec_run n xs cs).2) ∧ tq_repr q' n (tq_spec_run n xs cs).1.
Proof.
  induction cs as [|c cs IH]; intros q n xs R Hcs; simpl; [eauto|].
  apply Forall_cons in Hcs as [Hc Hcs].
  destruct (tq_exec_refines q n xs c R Hc) as (q1 & -> & R1). simpl.
  destruct (tq_spec n xs c) as [xs1 a]. simpl in *.
  destruct (IH q1 n xs1 R1 Hcs) as (q2 & -> & R2). simpl.
  destruct (tq_spec_run n xs1 cs) as [xs2 answers]. eauto.
Qed.
End refinement.
