(* ===== verification/Monitor.v ===== *)
(** * Objects guarded by one mutex and one condition variable

    [CDMMutexQueue] and [ThreadSafeQueue] wrap a sequential object: every
    method locks a [std::mutex], runs a body on the object, may notify a
    [std::condition_variable], and unlocks.  [wait] unlocks and sleeps when
    its predicate fails.  This file is the thread-level model and what the
    mutex gives: mutual exclusion and linearizability. *)
From S2P Require Import Prelude.

Section monitor.
Context {S C R : Type}.

(** What the body of a method does with the object. *)
Inductive outcome :=
  | Return (s : S) (r : R) (notify : bool)
  | Wait.
Variable body : S → C → result outcome.

(** A thread inside a method: before the lock, in the body with the object as
    it read it, or asleep on the condition variable.  A thread not in the map
    is outside. *)
Inductive phase :=
  | Calling (c : C)
  | Inside (c : C) (seen : S)
  | Sleeping (c : C).

Record monitor := Mon {
  m_obj : S;
  m_owner : option nat;
  m_threads : gmap nat phase;
  m_log : list (C * R);       (* completed calls, in the order they held the mutex *)
  m_bad : bool                (* a body threw, aborted or was undefined *)
}.

Definition mon_init (s : S) : monitor := Mon s None ∅ [] false.

Inductive label :=
  | Call (i : nat) (c : C)
  | Lock (i : nat)
  | Unlock (i : nat) (wakes : option nat)   (* the thread [notify_one] picks *)
  | Spurious (i : nat).                     (* [wait] may return unasked *)

Definition asleep (m : monitor) (i : nat) : Prop := ∃ c, m_threads m !! i = Some (Sleeping c).

#[global] Instance asleep_dec m i : Decision (asleep m i).
Proof.
  refine (match m_threads m !! i as o return Decision (∃ c, o = Some (Sleeping c)) with
          | Some (Sleeping c) => left _ | _ => right _ end); try by intros []. eauto.
Defined.

(** Nobody sleeps. *)
Definition nobody_asleep (ts : gmap nat phase) : Prop :=
  map_Forall (λ _ p, match p with Sleeping _ => False | _ => True end) ts.

#[global] Instance nobody_asleep_dec ts : Decision (nobody_asleep ts).
Proof. unfold nobody_asleep. apply map_Forall_dec. intros i [c|c s|c]; apply _. Defined.

(** [notify_one]: wakes one sleeping thread if there is any. *)
Definition notify (ts : gmap nat phase) (wakes : option nat) : option (gmap nat phase) :=
  match wakes with
  | Some j =>
      match ts !! j with Some (Sleeping c) => Some (<[j := Calling c]> ts) | _ => None end
  | None => if decide (nobody_asleep ts) then Some ts else None
  end.

Definition mon_step (m : monitor) (l : label) : option monitor :=
  match l with
  | Call i c =>
      match m_threads m !! i with
      | None => Some (Mon (m_obj m) (m_owner m) (<[i := Calling c]> (m_threads m)) (m_log m) (m_bad m))
      | Some _ => None
      end
  | Lock i =>
      match m_owner m, m_threads m !! i with
      | None, Some (Calling c) =>
          Some (Mon (m_obj m) (Some i) (<[i := Inside c (m_obj m)]> (m_threads m)) (m_log m) (m_bad m))
      | _, _ => None
      end
  | Unlock i wakes =>
      match m_threads m !! i with
      | Some (Inside c seen) =>
          match body seen c with
          | Ok (Return s r n) =>
              let ts := delete i (m_threads m) in
              ts ← (if n then notify ts wakes else Some ts);
              Some (Mon s None ts (m_log m ++ [(c, r)]) (m_bad m))
          | Ok Wait =>
              Some (Mon (m_obj m) None (<[i := Sleeping c]> (m_threads m)) (m_log m) (m_bad m))
          | _ => Some (Mon (m_obj m) None (delete i (m_threads m)) (m_log m) true)
          end
      | _ => None
      end
  | Spurious i =>
      match m_threads m !! i with
      | Some (Sleeping c) =>
          Some (Mon (m_obj m) (m_owner m) (<[i := Calling c]> (m_threads m)) (m_log m) (m_bad m))
      | _ => None
      end
  end.

Fixpoint mon_run (m : monitor) (ls : list label) : option monitor :=
  match ls with [] => Some m | l :: ls => m' ← mon_step m l; mon_run m' ls end.

(** ** What the mutex gives *)

(** The completed calls, one after the other on the object. *)
Fixpoint serial (s : S) (log : list (C * R)) : option S :=
  match log with
  | [] => Some s
  | (c, r) :: log =>
      match body s c with Ok (Return s' _ _) => serial s' log | _ => None end
  end.
(** ... with the results they returned. *)
Fixpoint serial_results (s : S) (log : list (C * R)) : Prop :=
  match log with
  | [] => True
  | (c, r) :: log =>
      ∃ s' n, body s c = Ok (Return s' r n) ∧ serial_results s' log
  end.

Record mon_inv (s0 : S) (m : monitor) : Prop := {
  mi_owner i c seen : m_threads m !! i = Some (Inside c seen) →
    m_owner m = Some i ∧ seen = m_obj m;
  mi_inside i : m_owner m = Some i → ∃ c, m_threads m !! i = Some (Inside c (m_obj m));
  mi_serial : serial s0 (m_log m) = Some (m_obj m);
  mi_results : serial_results s0 (m_log m)
}.

Lemma serial_snoc s log s1 c s2 r n :
  serial s log = Some s1 → body s1 c = Ok (Return s2 r n) → serial s (log ++ [(c, r)]) = Some s2.
Proof.
  revert s. induction log as [|[c' r'] log IH]; intros s Hs Hb; simpl in *.
  - injection Hs as ->. by rewrite Hb.
  - destruct (body s c') as [[s' ? ?|]| | |]; try done. by apply IH.
Qed.

Lemma serial_results_snoc s log s1 c s2 r n :
  serial_results s log → serial s log = Some s1 → body s1 c = Ok (Return s2 r n) →
  serial_results s (log ++ [(c, r)]).
Proof.
  revert s. induction log as [|[c' r'] log IH]; intros s Hr Hs Hb; simpl in *.
  - injection Hs as ->. eauto.
  - destruct Hr as (s' & n' & Hb' & Hr). rewrite Hb' in Hs. exists s', n'. auto.
Qed.

Lemma notify_inside ts wakes ts' i c seen :
  notify ts wakes = Some ts' → ts' !! i = Some (Inside c seen) ↔ ts !! i = Some (Inside c seen).
Proof.
  unfold notify. destruct wakes as [j|]; [|by case_decide; intros [= <-]].
  destruct (ts !! j) as [[| |c']|] eqn:Hj; try done. intros [= <-].
  destruct (decide (i = j)) as [->|Hne].
  - rewrite lookup_insert_eq, Hj. naive_solver.
  - by rewrite lookup_insert_ne.
Qed.

Lemma mon_init_inv s0 : mon_inv s0 (mon_init s0).
Proof. by constructor. Qed.

(** A thread that is not in the body changes phase. *)
Lemma mon_inv_outside s0 m i p :
  mon_inv s0 m → (∀ c seen, m_threads m !! i ≠ Some (Inside c seen)) →
  (∀ c seen, p ≠ Inside c seen) →
  mon_inv s0 (Mon (m_obj m) (m_owner m) (<[i := p]> (m_threads m)) (m_log m) (m_bad m)).
Proof.
  intros I Hout Hp. destruct I as [I1 I2 I3 I4]. constructor; simpl; try done.
  - intros j c seen Hj. apply lookup_insert_Some in Hj as [[_ Hj]|[_ Hj]]; [by destruct (Hp c seen)|].
    by eapply I1.
  - intros j Hj. destruct (I2 j Hj) as [c Hc]. exists c.
    rewrite lookup_insert_ne; [done|]. intros ->. by destruct (Hout c (m_obj m)).
Qed.

(** The owner leaves the body. *)
Lemma mon_inv_leave s0 m i c seen s ts log bad :
  mon_inv s0 m → m_threads m !! i = Some (Inside c seen) →
  (∀ j c' seen', ts !! j = Some (Inside c' seen') → j ≠ i ∧ m_threads m !! j = Some (Inside c' seen')) →
  serial s0 log = Some s → serial_results s0 log →
  mon_inv s0 (Mon s None ts log bad).
Proof.
  intros I Hi Hts Hs Hr. destruct (mi_owner _ _ I _ _ _ Hi) as [Ho _].
  constructor; simpl; try done.
  intros j c' seen' Hj. apply Hts in Hj as [Hne Hj].
  destruct (mi_owner _ _ I _ _ _ Hj). congruence.
Qed.

Lemma mon_step_inv s0 m l m' : mon_inv s0 m → mon_step m l = Some m' → mon_inv s0 m'.
Proof.
  intros I Hs. destruct l as [i c|i|i wakes|i]; simpl in Hs.
  - destruct (m_threads m !! i) eqn:Hi; [done|]. injection Hs as <-.
    apply mon_inv_outside; [done|congruence|done].
  - destruct (m_owner m) eqn:Ho; [done|].
    destruct (m_threads m !! i) as [[c| |]|] eqn:Hi; try done. injection Hs as <-.
    destruct I as [I1 I2 I3 I4]. constructor; simpl; try done.
    + intros j c' seen Hj. apply lookup_insert_Some in Hj as [[<- [= <- <-]]|[Hne Hj]]; [done|].
      apply I1 in Hj as [? _]. congruence.
    + intros j [= <-]. rewrite lookup_insert_eq. eauto.
  - destruct (m_threads m !! i) as [[|c seen|]|] eqn:Hi; try done.
    destruct (mi_owner _ _ I _ _ _ Hi) as [Ho ->].
    destruct (body (m_obj m) c) as [[s r n|]|e| |] eqn:Hb.
    + apply bind_Some in Hs as (ts & Hts & [= <-]).
      eapply mon_inv_leave; [done|done| | |].
      * intros j c' seen' Hj.
        assert (Hj' : delete i (m_threads m) !! j = Some (Inside c' seen')).
        { destruct n; [|by injection Hts as ->]. by apply (notify_inside _ _ _ _ _ _ Hts). }
        by apply lookup_delete_Some in Hj' as [? ?].
      * eapply serial_snoc; [apply I|done].
      * eapply serial_results_snoc; [apply I|apply I|done].
    + injection Hs as <-. eapply mon_inv_leave; [done|done| |apply I|apply I].
      intros j c' seen' Hj. apply lookup_insert_Some in Hj as [[_ [=]]|[Hne Hj]]; done.
    + injection Hs as <-. eapply mon_inv_leave; [done|done| |apply I|apply I].
      intros j c' seen' Hj. by apply lookup_delete_Some in Hj as [? ?].
    + injection Hs as <-. eapply mon_inv_leave; [done|done| |apply I|apply I].
      intros j c' seen' Hj. by apply lookup_delete_Some in Hj as [? ?].
    + injection Hs as <-. eapply mon_inv_leave; [done|done| |apply I|apply I].
      intros j c' seen' Hj. by apply lookup_delete_Some in Hj as [? ?].
  - destruct (m_threads m !! i) as [[| |c]|] eqn:Hi; try done. injection Hs as <-.
    apply mon_inv_outside; [done|congruence|done].
Qed.

Lemma mon_run_invariant (P : monitor → Prop) m ls m' :
  P m → (∀ m l m', P m → mon_step m l = Some m' → P m') → mon_run m ls = Some m' → P m'.
Proof.
  intros H0 Hstep. revert m H0. induction ls as [|l ls IH]; intros m H0 Hs; simpl in Hs.
  - by injection Hs as <-.
  - apply bind_Some in Hs as (m1 & Hm1 & Hs). eauto.
Qed.

Lemma mon_run_inv s0 ls m : mon_run (mon_init s0) ls = Some m → mon_inv s0 m.
Proof. apply mon_run_invariant; [apply mon_init_inv|apply mon_step_inv]. Qed.

(** Two threads are never in a body at the same time. *)
Lemma mutual_exclusion s0 m i j c c' seen seen' :
  mon_inv s0 m → m_threads m !! i = Some (Inside c seen) →
  m_threads m !! j = Some (Inside c' seen') → i = j.
Proof. intros I Hi Hj. apply I in Hi as [Hi _], Hj as [Hj _]. congruence. Qed.

(** No body goes wrong when it goes right on every object it can meet. *)
Lemma mon_run_good (P : S → Prop) s0 ls m :
  P s0 →
  (∀ s c, P s → match body s c with Ok (Return s' _ _) => P s' | Ok Wait => True | _ => False end) →
  mon_run (mon_init s0) ls = Some m → m_bad m = false ∧ P (m_obj m).
Proof.
  intros H0 Hbody Hr.
  assert (Q : mon_inv s0 m ∧ m_bad m = false ∧ P (m_obj m)); [|tauto].
  revert Hr. apply (mon_run_invariant (λ m, mon_inv s0 m ∧ m_bad m = false ∧ P (m_obj m))).
  { split; [apply mon_init_inv|done]. }
  clear m. intros m l m' (I & Hb & HP) Hs. split; [by eapply mon_step_inv|].
  destruct l as [i c|i|i wakes|i]; simpl in Hs.
  - destruct (_ !! i); [done|]. by injection Hs as <-.
  - destruct (m_owner m); [done|]. destruct (_ !! i) as [[]|]; try done. by injection Hs as <-.
  - destruct (_ !! i) as [[|c seen|]|] eqn:Hi; try done.
    destruct (mi_owner _ _ I _ _ _ Hi) as [_ ->]. specialize (Hbody _ c HP).
    destruct (body (m_obj m) c) as [[s r n|]|e| |]; try done.
    + by apply bind_Some in Hs as (ts & _ & [= <-]).
    + by injection Hs as <-.
  - destruct (_ !! i) as [[]|]; try done. by injection Hs as <-.
Qed.
End monitor.
Arguments outcome S R : clear implicits.
Arguments phase S C : clear implicits.
Arguments monitor S C R : clear implicits.
Arguments label C : clear implicits.
