(* ===== verification/Spsc.v ===== *)
(** * Single-producer single-consumer rings under release/acquire

    [AtomicKFifo] and [CDMAtomicQueue] follow one protocol: each side owns an
    index only it stores to, loads the index of the other side with [acquire],
    accesses array cells without synchronisation, and publishes its own index
    with [release].  This file has

    - the fragment of the C++ memory model the protocol needs: the modification
      order of an atomic variable, acquire loads that may return any value not
      older than the last one seen, and the detection of data races on cells;
    - the protocol itself, as a transition system over unbounded positions;
    - its invariant: no data race, first-in first-out, no element lost. *)
From S2P Require Import Prelude RingBuf.

(** ** Memory *)

(** A non-atomic memory cell.  [c_prod] is the position in the modification
    order of the producer's index that the next store after the producer's last
    access to the cell gets: the consumer's accesses happen after it once the
    consumer has acquired a value at that position or later.  [c_cons] is the
    converse. *)
Record cell (A : Type) := Cell { c_val : A; c_prod : nat; c_cons : nat }.
Arguments Cell {A} _ _ _.
Arguments c_val {A} _.
Arguments c_prod {A} _.
Arguments c_cons {A} _.

(** The modification order of an atomic variable: its initial value, then every
    value stored, oldest first. *)
Definition newest {V} `{!Inhabited V} (h : list V) : V := default inhabitant (last h).

(** What an acquire load may return: the value at a position not before the
    last position seen. *)
Definition acquire {V} (h : list V) (view p : nat) : option V :=
  if decide (view ≤ p) then h !! p else None.

Lemma newest_snoc {V} `{!Inhabited V} (h : list V) v : newest (h ++ [v]) = v.
Proof. unfold newest. by rewrite last_snoc. Qed.

Lemma mod_lap_neq M i j : i < j < i + M → i `mod` M ≠ j `mod` M.
Proof.
  intros Hij Heq. pose proof (Nat.div_mod_eq i M). pose proof (Nat.div_mod_eq j M).
  assert (i `div` M < j `div` M); nia.
Qed.

Lemma mod_lap_eq M i j : i < j + M → j < i + M → i `mod` M = j `mod` M → i = j.
Proof.
  intros H1 H2 Heq. destruct (Nat.lt_trichotomy i j) as [Hlt|[?|Hlt]]; [|done|].
  - destruct (mod_lap_neq M i j); [lia|done].
  - destruct (mod_lap_neq M j i); [lia|done].
Qed.

(** The index that rings store for an unbounded position. *)
Definition enc (M i : nat) : Z := Z.of_nat (i `mod` M).

Lemma enc_eq M i j : i < j + M → j < i + M → (enc M i =? enc M j)%Z = bool_decide (i = j).
Proof.
  intros H1 H2. unfold enc. case_bool_decide as E; [by subst; apply Z.eqb_refl|].
  apply Z.eqb_neq. intros Heq%Nat2Z.inj. by apply E, (mod_lap_eq M).
Qed.

(** [i + M] and [i] have the same index. *)
Lemma enc_lap M i : enc M (i + M) = enc M i.
Proof. unfold enc. f_equal. rewrite <- (Nat.mul_1_l M) at 1. apply Nat.Div0.mod_add. Qed.

Lemma newest_mod M h : h ≠ [] → newest (enc M <$> h) = enc M (newest h).
Proof.
  intros Hh. unfold newest. rewrite fmap_last.
  destruct (last h) eqn:Hl; [done|]. by apply last_None in Hl.
Qed.

Lemma acquire_mod M h view p x :
  acquire (enc M <$> h) view p = Some x → ∃ i, acquire h view p = Some i ∧ x = enc M i.
Proof.
  unfold acquire. case_decide; [|done]. rewrite list_lookup_fmap.
  intros (i & -> & Hi)%fmap_Some. eauto.
Qed.

(** ** The protocol *)
Section protocol.
Context {A : Type}.
(** The number of cells, and of elements the ring may hold. *)
Variables (M N : nat).
(** Whether the consumer overwrites each cell it has read with [dead] before
    it gives it back ([CDMAtomicQueue::pop] runs the destructor). *)
Variables (destroys : bool) (dead : A).

Inductive prod_phase := PIdle | PWrite (xs : list A) (k : nat).
Inductive cons_phase := CIdle | CRead (n : nat) (ys : list A) (killed : nat).

Record ring := Ring {
  r_in : list nat;            (* modification order of the producer's index *)
  r_out : list nat;           (* modification order of the consumer's index *)
  r_cells : list (cell A);
  r_pview : nat;              (* last position of [r_out] the producer saw *)
  r_cview : nat;              (* last position of [r_in] the consumer saw *)
  r_prod : prod_phase;
  r_cons : cons_phase;
  r_race : bool;
  r_sent : list A;            (* published so far *)
  r_recvd : list A            (* consumed so far *)
}.

Definition ring_init : ring :=
  Ring [0] [0] (replicate M (Cell dead 0 0)) 0 0 PIdle CIdle false [] [].

Definition r_head (s : ring) : nat := newest (r_in s).
Definition r_tail (s : ring) : nat := newest (r_out s).

Inductive ring_step : ring → ring → Prop :=
  | p_acquire s p o :
      acquire (r_out s) (r_pview s) p = Some o →
      ring_step s (Ring (r_in s) (r_out s) (r_cells s) p (r_cview s)
                     (r_prod s) (r_cons s) (r_race s) (r_sent s) (r_recvd s))
  | p_begin s xs o :
      r_prod s = PIdle → r_out s !! r_pview s = Some o →
      xs ≠ [] → r_head s + length xs ≤ o + N →
      ring_step s (Ring (r_in s) (r_out s) (r_cells s) (r_pview s) (r_cview s)
                     (PWrite xs 0) (r_cons s) (r_race s) (r_sent s) (r_recvd s))
  | p_write s xs k x c :
      r_prod s = PWrite xs k → xs !! k = Some x →
      r_cells s !! ((r_head s + k) `mod` M) = Some c →
      ring_step s
        (Ring (r_in s) (r_out s)
           (<[(r_head s + k) `mod` M := Cell x (length (r_in s)) (c_cons c)]> (r_cells s))
           (r_pview s) (r_cview s) (PWrite xs (S k)) (r_cons s)
           (r_race s || bool_decide (r_pview s < c_cons c)) (r_sent s) (r_recvd s))
  | p_publish s xs :
      r_prod s = PWrite xs (length xs) →
      ring_step s
        (Ring (r_in s ++ [r_head s + length xs]) (r_out s) (r_cells s) (r_pview s) (r_cview s)
           PIdle (r_cons s) (r_race s) (r_sent s ++ xs) (r_recvd s))
  | c_acquire s p i :
      acquire (r_in s) (r_cview s) p = Some i →
      ring_step s (Ring (r_in s) (r_out s) (r_cells s) (r_pview s) p
                     (r_prod s) (r_cons s) (r_race s) (r_sent s) (r_recvd s))
  | c_begin s n i :
      r_cons s = CIdle → r_in s !! r_cview s = Some i →
      0 < n → r_tail s + n ≤ i →
      ring_step s (Ring (r_in s) (r_out s) (r_cells s) (r_pview s) (r_cview s)
                     (r_prod s) (CRead n [] 0) (r_race s) (r_sent s) (r_recvd s))
  | c_read s n ys d c :
      r_cons s = CRead n ys d → length ys < n →
      r_cells s !! ((r_tail s + length ys) `mod` M) = Some c →
      ring_step s
        (Ring (r_in s) (r_out s)
           (<[(r_tail s + length ys) `mod` M := Cell (c_val c) (c_prod c) (length (r_out s))]>
              (r_cells s))
           (r_pview s) (r_cview s) (r_prod s) (CRead n (ys ++ [c_val c]) d)
           (r_race s || bool_decide (r_cview s < c_prod c)) (r_sent s) (r_recvd s))
  | c_destroy s n ys d c :
      r_cons s = CRead n ys d → d < length ys → destroys = true →
      r_cells s !! ((r_tail s + d) `mod` M) = Some c →
      ring_step s
        (Ring (r_in s) (r_out s)
           (<[(r_tail s + d) `mod` M := Cell dead (c_prod c) (length (r_out s))]> (r_cells s))
           (r_pview s) (r_cview s) (r_prod s) (CRead n ys (S d))
           (r_race s || bool_decide (r_cview s < c_prod c)) (r_sent s) (r_recvd s))
  | c_cancel s n ys :
      r_cons s = CRead n ys 0 →
      ring_step s (Ring (r_in s) (r_out s) (r_cells s) (r_pview s) (r_cview s)
                     (r_prod s) CIdle (r_race s) (r_sent s) (r_recvd s))
  | c_publish s n ys d :
      r_cons s = CRead n ys d → length ys = n → (destroys = true → d = n) →
      ring_step s
        (Ring (r_in s) (r_out s ++ [r_tail s + n]) (r_cells s) (r_pview s) (r_cview s)
           (r_prod s) CIdle (r_race s) (r_sent s) (r_recvd s ++ ys)).

(** ** The invariant *)

Definition pending (s : ring) : list A :=
  match r_prod s with PIdle => [] | PWrite xs _ => xs end.
Definition written (s : ring) : nat :=
  match r_prod s with PIdle => 0 | PWrite _ k => k end.
Definition claimed (s : ring) : nat :=
  match r_cons s with CIdle => 0 | CRead n _ _ => n end.
Definition fetched (s : ring) : list A :=
  match r_cons s with CIdle => [] | CRead _ ys _ => ys end.
Definition killed (s : ring) : nat :=
  match r_cons s with CIdle => 0 | CRead _ _ d => d end.

Definition ascending (h : list nat) : Prop :=
  h ≠ [] ∧ ∀ p q x y, p ≤ q → h !! p = Some x → h !! q = Some y → x ≤ y.

(** [ys] is the part of [xs] from position [i] on. *)
Definition part_at (i : nat) (ys xs : list A) : Prop :=
  ∀ j y, ys !! j = Some y → xs !! (i + j) = Some y.

Record ring_inv (s : ring) : Prop := {
  inv_cells : length (r_cells s) = M;
  inv_in : ascending (r_in s);
  inv_out : ascending (r_out s);
  inv_pview : ∃ o, r_out s !! r_pview s = Some o ∧ r_head s + length (pending s) ≤ o + N;
  inv_cview : ∃ i, r_in s !! r_cview s = Some i ∧ r_tail s + claimed s ≤ i;
  inv_sent : length (r_sent s) = r_head s;
  inv_recvd : length (r_recvd s) = r_tail s ∧ part_at 0 (r_recvd s) (r_sent s);
  inv_fetched : length (fetched s) ≤ claimed s ∧ part_at (r_tail s) (fetched s) (r_sent s);
  inv_written : written s ≤ length (pending s);
  inv_killed : killed s ≤ length (fetched s);
  inv_live i c : r_tail s + killed s ≤ i < r_head s + written s →
    r_cells s !! (i `mod` M) = Some c → (r_sent s ++ pending s) !! i = Some (c_val c);
  inv_dead i c : destroys = true → r_head s + written s ≤ i < r_tail s + killed s + M →
    r_cells s !! (i `mod` M) = Some c → c_val c = dead;
  inv_prod_epoch p x i c : r_in s !! p = Some x → r_tail s ≤ i < x →
    r_cells s !! (i `mod` M) = Some c → c_prod c ≤ p;
  inv_cons_epoch p x i c : r_out s !! p = Some x → r_head s ≤ i < x + M →
    r_cells s !! (i `mod` M) = Some c → c_cons c ≤ p;
  inv_epochs j c : r_cells s !! j = Some c →
    c_prod c ≤ length (r_in s) ∧ c_cons c ≤ length (r_out s);
  inv_race : r_race s = false
}.

Lemma ascending_newest h p x : ascending h → h !! p = Some x → x ≤ newest h.
Proof.
  intros [Hne Hm] Hx. unfold newest. destruct (last h) as [y|] eqn:Hy.
  - simpl. rewrite last_lookup in Hy. apply (Hm p (pred (length h))); [|done|done].
    apply lookup_lt_Some in Hx. lia.
  - by apply last_None in Hy.
Qed.

Lemma ascending_snoc h x : ascending h → newest h ≤ x → ascending (h ++ [x]).
Proof.
  intros Ha Hx. split; [by destruct h|]. intros p q y z Hpq Hy Hz.
  apply lookup_snoc_Some in Hy as [[Hp Hy]|[-> <-]], Hz as [[Hq Hz]|[-> <-]]; try lia.
  - destruct Ha as [_ Hm]. eauto.
  - pose proof (ascending_newest _ _ _ Ha Hy). lia.
Qed.

Lemma part_at_app_r i ys xs zs : part_at i ys xs → part_at i ys (xs ++ zs).
Proof. intros H j y Hy. by apply lookup_app_l_Some, H. Qed.

Lemma part_at_app i ys zs xs :
  part_at i ys xs → part_at (i + length ys) zs xs → part_at i (ys ++ zs) xs.
Proof.
  intros H1 H2 j y Hy. apply lookup_app_Some in Hy as [Hy|[Hl Hy]]; [by apply H1|].
  apply H2 in Hy. rewrite <- Hy. f_equal. lia.
Qed.

Lemma part_at_nil i xs : part_at i [] xs.
Proof. intros j y Hy. by rewrite lookup_nil in Hy. Qed.

Lemma part_at_prefix ys xs : part_at 0 ys xs → ys `prefix_of` xs.
Proof.
  intros H. exists (drop (length ys) xs). apply list_eq. intros j.
  destruct (ys !! j) as [y|] eqn:Hy.
  - rewrite (lookup_app_l_Some _ _ _ _ Hy). by apply (H j).
  - rewrite lookup_app_r by (by apply lookup_ge_None). apply lookup_ge_None in Hy.
    rewrite lookup_drop. f_equal. lia.
Qed.

Hypothesis (HM : 0 < M) (HN : N ≤ M).

Lemma inv_bounds s :
  ring_inv s →
  r_tail s + claimed s ≤ r_head s ∧ r_head s + length (pending s) ≤ r_tail s + N ∧
  killed s ≤ length (fetched s) ≤ claimed s ∧ written s ≤ length (pending s).
Proof.
  intros I. destruct (inv_pview _ I) as (o & Ho & Hp), (inv_cview _ I) as (i & Hi & Hc).
  apply ascending_newest in Ho; [|apply I]. apply ascending_newest in Hi; [|apply I].
  unfold r_head, r_tail in *. pose proof (inv_fetched _ I). pose proof (inv_written _ I).
  pose proof (inv_killed _ I). intuition lia.
Qed.

Lemma ring_init_inv : ring_inv ring_init.
Proof.
  assert (Ha : ascending [0]).
  { split; [done|]. intros p q x y _ Hx Hy.
    apply list_lookup_singleton_Some in Hx as [-> <-], Hy as [-> <-]. lia. }
  constructor; unfold pending, written, claimed, fetched, killed; simpl;
    try done; try (split; [done|apply part_at_nil]).
  - by rewrite length_replicate.
  - exists 0. split; [done|]. unfold r_head. simpl. lia.
  - exists 0. split; [done|]. lia.
  - intros i c Hi. lia.
  - intros i c _ _ [-> _]%lookup_replicate_1. done.
  - intros p x i c [-> <-]%list_lookup_singleton_Some Hi. lia.
  - intros p x i c [-> <-]%list_lookup_singleton_Some _ [-> _]%lookup_replicate_1. done.
  - intros j c [-> _]%lookup_replicate_1. simpl. lia.
Qed.

(** Lookups in an array one cell of which was overwritten. *)
Ltac cell_cases H :=
  let E := fresh "Eslot" in
  apply list_lookup_insert_Some in H as [(E & <- & _)|(E & H)]; simpl in *.

Ltac phases :=
  unfold pending, written, claimed, fetched, killed, r_head, r_tail in *; simpl in *.

Lemma p_write_inv s xs k x c :
  ring_inv s → r_prod s = PWrite xs k → xs !! k = Some x →
  r_cells s !! ((r_head s + k) `mod` M) = Some c →
  ring_inv
    (Ring (r_in s) (r_out s)
       (<[(r_head s + k) `mod` M := Cell x (length (r_in s)) (c_cons c)]> (r_cells s))
       (r_pview s) (r_cview s) (PWrite xs (S k)) (r_cons s)
       (r_race s || bool_decide (r_pview s < c_cons c)) (r_sent s) (r_recvd s)).
Proof.
  intros I Hp Hx Hc. pose proof (inv_bounds s I) as B.
  pose proof (lookup_lt_Some _ _ _ Hx) as Hk.
  destruct I as [I1 I2 I3 I4 I5 I6 I7 I8 I9 I10 I11 I12 I13 I14 I15 I16].
  phases. rewrite Hp in *. constructor; phases; try done.
  - by rewrite length_insert.
  - intros i c' Hi Hc'. cell_cases Hc'.
    + assert (i = newest (r_in s) + k) as -> by (eapply mod_lap_eq; [| |done]; lia).
      rewrite lookup_app_r, I6 by lia. by rewrite Nat.add_sub_swap, Nat.sub_diag by lia.
    + apply I11; [|done]. assert (i ≠ newest (r_in s) + k) by congruence. lia.
  - intros i c' Hd Hi Hc'. cell_cases Hc'.
    + exfalso. eapply (mod_lap_neq M (newest (r_in s) + k) i); [lia|done].
    + apply (I12 i c' Hd); [lia|done].
  - intros p y i c' Hy Hi Hc'. pose proof (ascending_newest _ _ _ I2 Hy). cell_cases Hc'.
    + exfalso. eapply (mod_lap_neq M i (newest (r_in s) + k)); [lia|done].
    + eapply I13; eauto.
  - intros p y i c' Hy Hi Hc'. cell_cases Hc'; [|eapply I14; eauto].
    eapply I14; [done|done|]. congruence.
  - intros j c' Hc'. cell_cases Hc'; [|by eapply I15].
    split; [done|]. by destruct (I15 _ _ Hc).
  - rewrite I16. destruct I4 as (o & Ho & Hle). apply bool_decide_eq_false. apply Nat.nlt_ge.
    eapply I14; [done| |done]. lia.
Qed.

Lemma p_publish_inv s xs :
  ring_inv s → r_prod s = PWrite xs (length xs) →
  ring_inv
    (Ring (r_in s ++ [r_head s + length xs]) (r_out s) (r_cells s) (r_pview s) (r_cview s)
       PIdle (r_cons s) (r_race s) (r_sent s ++ xs) (r_recvd s)).
Proof.
  intros I Hp. pose proof (inv_bounds s I) as B.
  destruct I as [I1 I2 I3 I4 I5 I6 I7 I8 I9 I10 I11 I12 I13 I14 I15 I16].
  phases. rewrite Hp in *. constructor; phases; rewrite ?newest_snoc; try done.
  - apply ascending_snoc; [done|lia].
  - destruct I4 as (o & Ho & Hle). exists o. split; [done|lia].
  - destruct I5 as (i & Hi & Hle). exists i. split; [by apply lookup_app_l_Some|done].
  - rewrite length_app. lia.
  - split; [apply I7|]. apply part_at_app_r, I7.
  - split; [apply I8|]. apply part_at_app_r, I8.
  - intros i c Hi Hc. rewrite app_nil_r. apply I11; [lia|done].
  - intros i c Hd Hi Hc. apply (I12 i c Hd); [lia|done].
  - intros p x i c Hx Hi Hc. apply lookup_snoc_Some in Hx as [[_ Hx]|[-> _]].
    + eapply I13; eauto.
    + by destruct (I15 _ _ Hc).
  - intros p x i c Hx Hi Hc. eapply I14; [done| |done]. lia.
  - intros j c Hc. rewrite length_app. simpl. destruct (I15 _ _ Hc). lia.
Qed.

Lemma c_read_inv s n ys d c :
  ring_inv s → r_cons s = CRead n ys d → length ys < n →
  r_cells s !! ((r_tail s + length ys) `mod` M) = Some c →
  ring_inv
    (Ring (r_in s) (r_out s)
       (<[(r_tail s + length ys) `mod` M := Cell (c_val c) (c_prod c) (length (r_out s))]>
          (r_cells s))
       (r_pview s) (r_cview s) (r_prod s) (CRead n (ys ++ [c_val c]) d)
       (r_race s || bool_decide (r_cview s < c_prod c)) (r_sent s) (r_recvd s)).
Proof.
  intros I Hr Hn Hc. pose proof (inv_bounds s I) as B.
  destruct I as [I1 I2 I3 I4 I5 I6 I7 I8 I9 I10 I11 I12 I13 I14 I15 I16].
  phases. rewrite Hr in *. constructor; phases; try done.
  - by rewrite length_insert.
  - split; [rewrite length_app; simpl; lia|]. apply part_at_app; [apply I8|].
    intros j y [-> <-]%list_lookup_singleton_Some. rewrite Nat.add_0_r.
    rewrite <- (I11 (newest (r_out s) + length ys) c); [|lia|done]. symmetry. apply lookup_app_l. lia.
  - rewrite length_app. lia.
  - intros i c' Hi Hc'. cell_cases Hc'; [|by apply I11].
    apply (I11 i c); [done|]. congruence.
  - intros i c' Hd Hi Hc'. cell_cases Hc'; [|by apply (I12 i)].
    apply (I12 i c Hd); [done|]. congruence.
  - intros p x i c' Hx Hi Hc'. cell_cases Hc'; [|by eapply I13].
    eapply I13; [done|done|]. congruence.
  - intros p x i c' Hx Hi Hc'. pose proof (ascending_newest _ _ _ I3 Hx).
    cell_cases Hc'; [|by eapply I14].
    exfalso. eapply (mod_lap_neq M (newest (r_out s) + length ys) i); [lia|done].
  - intros j c' Hc'. cell_cases Hc'; [|by eapply I15].
    split; [|done]. by destruct (I15 _ _ Hc).
  - rewrite I16. destruct I5 as (i & Hi & Hle). apply bool_decide_eq_false. apply Nat.nlt_ge.
    eapply I13; [done| |done]. lia.
Qed.

Lemma c_destroy_inv s n ys d c :
  ring_inv s → r_cons s = CRead n ys d → d < length ys → 
  r_cells s !! ((r_tail s + d) `mod` M) = Some c →
  ring_inv
    (Ring (r_in s) (r_out s)
       (<[(r_tail s + d) `mod` M := Cell dead (c_prod c) (length (r_out s))]> (r_cells s))
       (r_pview s) (r_cview s) (r_prod s) (CRead n ys (S d))
       (r_race s || bool_decide (r_cview s < c_prod c)) (r_sent s) (r_recvd s)).
Proof.
  intros I Hr Hd Hc. pose proof (inv_bounds s I) as B.
  destruct I as [I1 I2 I3 I4 I5 I6 I7 I8 I9 I10 I11 I12 I13 I14 I15 I16].
  phases. rewrite Hr in *. constructor; phases; try done.
  - by rewrite length_insert.
  - intros i c' Hi Hc'. cell_cases Hc'; [|apply I11; [lia|done]].
    exfalso. eapply (mod_lap_neq M (newest (r_out s) + d) i); [lia|done].
  - intros i c' Hk Hi Hc'. cell_cases Hc'; [done|]. apply (I12 i c' Hk); [|done].
    split; [lia|]. destruct (decide (i = newest (r_out s) + d + M)) as [->|]; [|lia].
    rewrite <- (Nat.mul_1_l M) in Eslot at 2. by rewrite Nat.Div0.mod_add in Eslot.
  - intros p x i c' Hx Hi Hc'. cell_cases Hc'; [|by eapply I13].
    eapply I13; [done|done|]. congruence.
  - intros p x i c' Hx Hi Hc'. pose proof (ascending_newest _ _ _ I3 Hx).
    cell_cases Hc'; [|by eapply I14].
    exfalso. eapply (mod_lap_neq M (newest (r_out s) + d) i); [lia|done].
  - intros j c' Hc'. cell_cases Hc'; [|by eapply I15].
    split; [|done]. by destruct (I15 _ _ Hc).
  - rewrite I16. destruct I5 as (i & Hi & Hle). apply bool_decide_eq_false. apply Nat.nlt_ge.
    eapply I13; [done| |done]. lia.
Qed.

Lemma c_publish_inv s n ys d :
  ring_inv s → r_cons s = CRead n ys d → length ys = n → (destroys = true → d = n) →
  ring_inv
    (Ring (r_in s) (r_out s ++ [r_tail s + n]) (r_cells s) (r_pview s) (r_cview s)
       (r_prod s) CIdle (r_race s) (r_sent s) (r_recvd s ++ ys)).
Proof.
  intros I Hr Hn Hd. pose proof (inv_bounds s I) as B.
  destruct I as [I1 I2 I3 I4 I5 I6 I7 I8 I9 I10 I11 I12 I13 I14 I15 I16].
  phases. rewrite Hr in *. constructor; phases; rewrite ?newest_snoc; try done.
  - apply ascending_snoc; [done|lia].
  - destruct I4 as (o & Ho & Hle). exists o. split; [by apply lookup_app_l_Some|done].
  - destruct I5 as (i & Hi & Hle). exists i. split; [done|lia].
  - split; [rewrite length_app; lia|]. apply part_at_app; [apply I7|].
    simpl. destruct I7 as [-> _]. apply I8.
  - intros i c Hi Hc. apply I11; [lia|done].
  - intros i c Hk Hi Hc. apply (I12 i c Hk); [|done]. specialize (Hd Hk). lia.
  - intros p x i c Hx Hi Hc. eapply I13; [done| |done]. lia.
  - intros p x i c Hx Hi Hc. apply lookup_snoc_Some in Hx as [[_ Hx]|[-> _]].
    + eapply I14; eauto.
    + by destruct (I15 _ _ Hc).
  - intros j c Hc. rewrite length_app. simpl. destruct (I15 _ _ Hc). lia.
Qed.

Lemma acquire_Some {V} (h : list V) view p v :
  acquire h view p = Some v → view ≤ p ∧ h !! p = Some v.
Proof. unfold acquire. case_decide; naive_solver. Qed.

(** The steps that leave the cells and the indices alone. *)
Lemma p_acquire_inv s p o :
  ring_inv s → acquire (r_out s) (r_pview s) p = Some o →
  ring_inv (Ring (r_in s) (r_out s) (r_cells s) p (r_cview s)
              (r_prod s) (r_cons s) (r_race s) (r_sent s) (r_recvd s)).
Proof.
  intros I [Hle Ho]%acquire_Some.
  destruct (inv_pview s I) as (o' & Ho' & Hroom), I. constructor; try done.
  exists o. split; [done|]. phases.
  apply (proj2 inv_out0 _ _ _ _ Hle Ho') in Ho. simpl in *. lia.
Qed.

Lemma c_acquire_inv s p i :
  ring_inv s → acquire (r_in s) (r_cview s) p = Some i →
  ring_inv (Ring (r_in s) (r_out s) (r_cells s) (r_pview s) p
              (r_prod s) (r_cons s) (r_race s) (r_sent s) (r_recvd s)).
Proof.
  intros I [Hle Hi]%acquire_Some.
  destruct (inv_cview s I) as (i' & Hi' & Hroom), I. constructor; try done.
  exists i. split; [done|]. phases.
  apply (proj2 inv_in0 _ _ _ _ Hle Hi') in Hi. simpl in *. lia.
Qed.

Theorem ring_step_inv s s' : ring_inv s → ring_step s s' → ring_inv s'.
Proof.
  intros I Hs. destruct Hs as [s p o Ho|s xs o Hp Ho Hxs Hroom|s xs k x c Hp Hx Hc
    |s xs Hp|s p i Hi|s n i Hr Hi Hn Hroom|s n ys d c Hr Hn Hc|s n ys d c Hr Hd _ Hc
    |s n ys Hr|s n ys d Hr Hn Hd].
  - by eapply p_acquire_inv.
  - destruct I. constructor; phases; rewrite ?Hp in *; simpl in *; try done; try lia; eauto.
    intros i c Hi Hc. apply lookup_app_l_Some. apply (inv_live0 i c) in Hi; [|done].
    by rewrite app_nil_r in Hi.
  - by eapply p_write_inv.
  - by eapply p_publish_inv.
  - by eapply c_acquire_inv.
  - destruct I. constructor; phases; rewrite ?Hr in *; simpl in *; try done; eauto.
    split; [lia|]. apply part_at_nil.
  - by eapply c_read_inv.
  - by eapply c_destroy_inv.
  - destruct I. constructor; phases; rewrite ?Hr in *; simpl in *; try done; eauto.
    destruct inv_cview0 as (i & Hi & Hle). exists i. split; [done|lia].
  - by eapply c_publish_inv.
Qed.

Definition reachable (s : ring) : Prop := rtc ring_step ring_init s.

Lemma reachable_inv s : reachable s → ring_inv s.
Proof.
  apply rtc_invariant; [apply ring_init_inv|]. exact ring_step_inv.
Qed.

(** What the protocol guarantees, whatever values the acquire loads return and
    however the steps of the two sides interleave: no data race, the elements
    consumed are a prefix of those published, and at most [N] are inside. *)
Lemma reachable_fifo s :
  reachable s →
  r_race s = false ∧ r_recvd s `prefix_of` r_sent s ∧
  length (r_sent s) + length (pending s) ≤ length (r_recvd s) + N.
Proof.
  intros I%reachable_inv. split_and!; [apply I|apply part_at_prefix, I|].
  pose proof (inv_bounds s I) as B. destruct (inv_recvd s I) as [-> _].
  rewrite (inv_sent s I). lia.
Qed.
End protocol.
