(* ===== verification/AtomicKFifo.v ===== *)
(** * [AtomicKFifo] (dmatomic_kfifo.h): the byte FIFO with atomic indices

    First the methods as one thread runs them, against the laws of the
    interface; then the two threads of a single-producer single-consumer use,
    one atomic access or one copied byte at a time, as an instance of the
    protocol of [Spsc]. *)
From S2P Require Import Prelude RingBuf BitTricks IKFifo KFifo Spsc.
Local Open Scope Z_scope.

Module AtomicKFifo.

Definition sizeof_uint32 : Z := 4.

Definition roundup_power_of_two (v : Z) : Z :=
  if v =? 0 then 0 else
  let n := u32 (v - 1) in
  let n := smear 1 n in
  let n := smear 2 n in
  let n := smear 4 n in
  let n := smear 8 n in
  let n := smear 16 n in
  let n := if 4 <? sizeof_uint32 then smear 32 n else n in
  u32 (n + 1).

Record t := mk {
  buffer_ : list byte;
  capacity_ : Z;
  mask_ : Z;
  in_idx_ : Z;
  out_idx_ : Z
}.

Definition create (requested_capacity : Z) : result t :=
  if requested_capacity =? 0
  then Throw (invalid_argument "KFifo capacity must be greater than 0.")
  else
    let cap := roundup_power_of_two requested_capacity in
    let capacity := if cap <? 2 then 2 else cap in
    Ok (mk (replicate (Z.to_nat capacity) Byte.x00) capacity (u32 (capacity - 1)) 0 0).

Definition capacity (q : t) : Z := capacity_ q.

Definition isEmpty (q : t) : bool := in_idx_ q =? out_idx_ q.

Definition isFull (q : t) : bool :=
  let current_in := in_idx_ q in
  let current_out := out_idx_ q in
  let current_length := u32 (current_in - current_out) in
  current_length =? capacity_ q.

Definition len (q : t) : Z :=
  let current_in := in_idx_ q in
  let current_out := out_idx_ q in
  u32 (current_in - current_out).

Definition avail (q : t) : Z :=
  let current_in := in_idx_ q in
  let current_out := out_idx_ q in
  let current_length := u32 (current_in - current_out) in
  u32 (capacity_ q - current_length).

(** The length [put] transfers for the index values it loaded. *)
Definition put_len (capacity current_in_val current_out_val len_to_write : Z) : Z :=
  let current_length := u32 (current_in_val - current_out_val) in
  let free_space := u32 (capacity - current_length) in
  Z.min len_to_write free_space.

(** The length [get] and [peek] transfer. *)
Definition get_len (current_in_val current_out_val len_to_read : Z) : Z :=
  let current_data_len := u32 (current_in_val - current_out_val) in
  Z.min len_to_read current_data_len.

Definition put (q : t) (data : list byte) (len_to_write : Z) : result (t * Z) :=
  let current_in_val := in_idx_ q in
  let current_out_val := out_idx_ q in
  let actual_write_len := put_len (capacity_ q) current_in_val current_out_val len_to_write in
  if actual_write_len =? 0 then Ok (q, 0) else
  let offset_in_buffer := Z.land current_in_val (mask_ q) in
  buffer ← copy_in (buffer_ q) (capacity_ q) offset_in_buffer data actual_write_len;
  Ok (mk buffer (capacity_ q) (mask_ q) (u32 (current_in_val + actual_write_len)) (out_idx_ q),
      actual_write_len).

Definition get (q : t) (data : list byte) (len_to_read : Z) : result (t * list byte * Z) :=
  let current_out_val := out_idx_ q in
  let current_in_val := in_idx_ q in
  let actual_read_len := get_len current_in_val current_out_val len_to_read in
  if actual_read_len =? 0 then Ok (q, data, 0) else
  let offset_in_buffer := Z.land current_out_val (mask_ q) in
  data ← copy_out (buffer_ q) (capacity_ q) offset_in_buffer data actual_read_len;
  Ok (mk (buffer_ q) (capacity_ q) (mask_ q) (in_idx_ q) (u32 (current_out_val + actual_read_len)),
      data, actual_read_len).

Definition peek (q : t) (data : list byte) (len_to_peek : Z) : result (list byte * Z) :=
  let current_out_val := out_idx_ q in
  let current_in_val := in_idx_ q in
  let actual_peek_len := get_len current_in_val current_out_val len_to_peek in
  if actual_peek_len =? 0 then Ok (data, 0) else
  let offset_in_buffer := Z.land current_out_val (mask_ q) in
  data ← copy_out (buffer_ q) (capacity_ q) offset_in_buffer data actual_peek_len;
  Ok (data, actual_peek_len).

Definition reset (q : t) : t := mk (buffer_ q) (capacity_ q) (mask_ q) 0 0.

#[global] Instance ops : IKFifo t := {
  IKFifo.put := put; IKFifo.get := get; IKFifo.peek := peek;
  IKFifo.isEmpty := isEmpty; IKFifo.isFull := isFull; IKFifo.len := len;
  IKFifo.avail := avail; IKFifo.capacity := capacity; IKFifo.reset := reset }.

(** ** One thread: the same queue as [KFifo] *)

(** The members are those of [KFifo] with the atomics read as plain values. *)
Definition plain (q : t) : KFifo.t :=
  KFifo.mk (buffer_ q) (capacity_ q) (mask_ q) (in_idx_ q) (out_idx_ q).

Lemma create_plain v : plain <$> create v = KFifo.create v.
Proof. unfold create, KFifo.create. by destruct (v =? 0). Qed.

Lemma put_plain q data n :
  KFifo.put (plain q) data n = prod_map plain id <$> put q data n.
Proof.
  unfold KFifo.put, put, KFifo.avail, KFifo.len. fold (put_len (capacity_ q) (in_idx_ q) (out_idx_ q) n).
  simpl. destruct (_ =? 0); [done|]. by destruct (copy_in _ _ _ _ _).
Qed.

Lemma peek_plain q data n : KFifo.peek (plain q) data n = peek q data n.
Proof. done. Qed.

Lemma get_plain q data n :
  KFifo.get (plain q) data n = prod_map (prod_map plain id) id <$> get q data n.
Proof.
  unfold KFifo.get, get, KFifo.len. fold (get_len (in_idx_ q) (out_idx_ q) n).
  simpl. destruct (_ =? 0); [done|]. by destruct (copy_out _ _ _ _ _).
Qed.

(** called from one thread, the atomic FIFO answers every sequence of
    calls exactly as [KFifo] does, undefined behaviour and exceptions
    included. *)
Theorem atomic_equiv_kfifo v cs :
  (q ← create v; impl_run q cs) ≫= (λ r, Ok (plain r.1, r.2)) =
  (q ← KFifo.create v; impl_run q cs).
Proof.
  rewrite <- create_plain. destruct (create v) as [q| | |]; try done. clear v. simpl.
  revert q. induction cs as [|c cs IH]; intros q; [done|]. simpl.
  assert (Hc : impl_call (plain q) c = prod_map plain id <$> impl_call q c).
  { destruct c as [data n|data n|data n| | | | | |]; try done; simpl.
    - rewrite put_plain. by destruct (put q data n) as [[]| | |].
    - rewrite get_plain. by destruct (get q data n) as [[[]]| | |].
    - rewrite peek_plain. by destruct (peek q data n) as [[]| | |]. }
  rewrite Hc. destruct (impl_call q c) as [[q' a]| | |]; try done. simpl.
  rewrite <- IH. by destruct (impl_run q' cs) as [[]| | |].
Qed.

(** ** Two threads

    One producer runs [put], one consumer runs [get] and [peek].  A step is
    one access to an atomic index or the copy of one byte by [memcpy]. *)

(** Where the producer is inside [put]. *)
Inductive producer :=
  | PIdle
  | PLoadedIn (data : list byte) (len_to_write current_in_val : Z)
  | PCopying (data : list byte) (current_in_val : Z) (n k : nat).

(** Where the consumer is inside [get], or [peek] when [peeking]. *)
Inductive consumer :=
  | CIdle
  | CLoadedOut (peeking : bool) (len_to_read current_out_val : Z)
  | CCopying (peeking : bool) (current_out_val : Z) (n : nat) (ys : list byte).

Record conc := Conc {
  s_capacity : Z;
  s_mask : Z;
  s_in : list Z;               (* modification order of [in_idx_] *)
  s_out : list Z;              (* modification order of [out_idx_] *)
  s_buffer : list (cell byte);
  s_pview : nat;
  s_cview : nat;
  s_prod : producer;
  s_cons : consumer;
  s_ub : bool;                 (* a data race or an access outside the buffer happened *)
  s_sent : list byte;          (* all bytes accepted by [put], in order *)
  s_recvd : list byte          (* all bytes returned by [get], in order *)
}.

Definition conc_init (q : t) : conc :=
  Conc (capacity_ q) (mask_ q) [in_idx_ q] [out_idx_ q]
    ((λ b, Cell b 0 0) <$> buffer_ q) 0 0 PIdle CIdle false [] [].

Definition set_prod (s : conc) (pview : nat) (p : producer) : conc :=
  Conc (s_capacity s) (s_mask s) (s_in s) (s_out s) (s_buffer s) pview (s_cview s)
    p (s_cons s) (s_ub s) (s_sent s) (s_recvd s).
Definition set_cons (s : conc) (cview : nat) (c : consumer) : conc :=
  Conc (s_capacity s) (s_mask s) (s_in s) (s_out s) (s_buffer s) (s_pview s) cview
    (s_prod s) c (s_ub s) (s_sent s) (s_recvd s).

(** The slot of byte [k] of a transfer of [n] bytes that starts at index
    [idx]: the first [memcpy] goes to [offset], the second one to 0. *)
Definition copy_slot (capacity mask idx : Z) (n k : nat) : nat :=
  let offset := Z.land idx mask in
  let l := Z.min n (u32 (capacity - offset)) in
  Z.to_nat (if k <? l then offset + k else k - l).

Inductive label :=
  | PutCall (data : list byte) (n : Z)   (* [in_idx_.load(relaxed)] *)
  | PutLoadOut (p : nat)                 (* [out_idx_.load(acquire)] *)
  | PutCopy
  | PutStore                             (* [in_idx_.store(release)] *)
  | GetCall (peeking : bool) (n : Z)     (* [out_idx_.load(relaxed)] *)
  | GetLoadIn (p : nat)                  (* [in_idx_.load(acquire)] *)
  | GetCopy
  | GetStore.                            (* [out_idx_.store(release)], or [peek] returns *)

Definition put_step (s : conc) (l : label) : option conc :=
  match l, s_prod s with
  | PutCall data n, PIdle =>
      if bool_decide (fits 32 n ∧ n <= length data)
      then Some (set_prod s (s_pview s) (PLoadedIn data n (newest (s_in s)))) else None
  | PutLoadOut p, PLoadedIn data n current_in_val =>
      current_out_val ← acquire (s_out s) (s_pview s) p;
      let actual_write_len := put_len (s_capacity s) current_in_val current_out_val n in
      Some (set_prod s p
        (if actual_write_len =? 0 then PIdle
         else PCopying data current_in_val (Z.to_nat actual_write_len) 0))
  | PutCopy, PCopying data current_in_val n k =>
      guard (k < n)%nat ;;
      x ← data !! k;
      let j := copy_slot (s_capacity s) (s_mask s) current_in_val n k in
      Some match s_buffer s !! j with
      | Some c =>
          Conc (s_capacity s) (s_mask s) (s_in s) (s_out s)
            (<[j := Cell x (length (s_in s)) (c_cons c)]> (s_buffer s)) (s_pview s) (s_cview s)
            (PCopying data current_in_val n (S k)) (s_cons s)
            (s_ub s || bool_decide (s_pview s < c_cons c)%nat) (s_sent s) (s_recvd s)
      | None =>
          Conc (s_capacity s) (s_mask s) (s_in s) (s_out s) (s_buffer s) (s_pview s) (s_cview s)
            (s_prod s) (s_cons s) true (s_sent s) (s_recvd s)
      end
  | PutStore, PCopying data current_in_val n k =>
      if bool_decide (k = n) then
        Some (Conc (s_capacity s) (s_mask s) (s_in s ++ [u32 (current_in_val + n)]) (s_out s)
                (s_buffer s) (s_pview s) (s_cview s) PIdle (s_cons s) (s_ub s)
                (s_sent s ++ take n data) (s_recvd s))
      else None
  | _, _ => None
  end.

Definition get_step (s : conc) (l : label) : option conc :=
  match l, s_cons s with
  | GetCall peeking n, CIdle =>
      if bool_decide (fits 32 n)
      then Some (set_cons s (s_cview s) (CLoadedOut peeking n (newest (s_out s)))) else None
  | GetLoadIn p, CLoadedOut peeking n current_out_val =>
      current_in_val ← acquire (s_in s) (s_cview s) p;
      let actual_read_len := get_len current_in_val current_out_val n in
      Some (set_cons s p
        (if actual_read_len =? 0 then CIdle
         else CCopying peeking current_out_val (Z.to_nat actual_read_len) []))
  | GetCopy, CCopying peeking current_out_val n ys =>
      guard (length ys < n)%nat ;;
      let j := copy_slot (s_capacity s) (s_mask s) current_out_val n (length ys) in
      Some match s_buffer s !! j with
      | Some c =>
          Conc (s_capacity s) (s_mask s) (s_in s) (s_out s)
            (<[j := Cell (c_val c) (c_prod c) (length (s_out s))]> (s_buffer s))
            (s_pview s) (s_cview s) (s_prod s)
            (CCopying peeking current_out_val n (ys ++ [c_val c]))
            (s_ub s || bool_decide (s_cview s < c_prod c)%nat) (s_sent s) (s_recvd s)
      | None =>
          Conc (s_capacity s) (s_mask s) (s_in s) (s_out s) (s_buffer s) (s_pview s) (s_cview s)
            (s_prod s) (s_cons s) true (s_sent s) (s_recvd s)
      end
  | GetStore, CCopying peeking current_out_val n ys =>
      if bool_decide (length ys = n) then
        Some (if peeking then set_cons s (s_cview s) CIdle
              else Conc (s_capacity s) (s_mask s) (s_in s)
                     (s_out s ++ [u32 (current_out_val + n)]) (s_buffer s) (s_pview s) (s_cview s)
                     (s_prod s) CIdle (s_ub s) (s_sent s) (s_recvd s ++ ys))
      else None
  | _, _ => None
  end.

Definition conc_step (s : conc) (l : label) : option conc :=
  match put_step s l with Some s' => Some s' | None => get_step s l end.

(** A schedule: the labels in the order the steps happen. *)
Fixpoint conc_run (s : conc) (ls : list label) : option conc :=
  match ls with
  | [] => Some s
  | l :: ls => s' ← conc_step s l; conc_run s' ls
  end.

(** ** The two threads follow the protocol *)

(** The 32-bit value stored for an unbounded position. *)
Definition enc (i : nat) : Z := u32 i.

Definition prod_sim (M : nat) (p : producer) (r : prod_phase) (head : nat) : Prop :=
  match p, r with
  | PIdle, Spsc.PIdle => True
  | PLoadedIn data n idx, Spsc.PIdle => idx = enc head ∧ fits 32 n ∧ n <= length data
  | PCopying data idx n k, PWrite xs k' =>
      idx = enc head ∧ xs = take n data ∧ k = k' ∧ (0 < n ≤ M)%nat ∧ (n ≤ length data)%nat
  | _, _ => False
  end.

Definition cons_sim (M : nat) (c : consumer) (r : cons_phase) (tail : nat) : Prop :=
  match c, r with
  | CIdle, Spsc.CIdle => True
  | CLoadedOut _ n idx, Spsc.CIdle => idx = enc tail ∧ fits 32 n
  | CCopying _ idx n ys, CRead n' ys' d =>
      idx = enc tail ∧ n = n' ∧ ys = ys' ∧ d = 0%nat ∧ (0 < n ≤ M)%nat
  | _, _ => False
  end.

Record sim (M : nat) (s : conc) (r : ring) : Prop := {
  sim_capacity : s_capacity s = M;
  sim_mask : s_mask s = M - 1;
  sim_in : s_in s = enc <$> r_in r;
  sim_out : s_out s = enc <$> r_out r;
  sim_buffer : s_buffer s = r_cells r;
  sim_pview : s_pview s = r_pview r;
  sim_cview : s_cview s = r_cview r;
  sim_prod : prod_sim M (s_prod s) (r_prod r) (r_head r);
  sim_cons : cons_sim M (s_cons s) (r_cons r) (r_tail r);
  sim_ub : s_ub s = r_race r;
  sim_sent : s_sent s = r_sent r;
  sim_recvd : s_recvd s = r_recvd r
}.

Section simulation.
Context (k M : nat) (Hk : (1 ≤ k ≤ 31)%nat) (HM : M = (2 ^ k)%nat).

Lemma M_pow2 : Z.of_nat M = 2 ^ Z.of_nat k.
Proof. rewrite HM. by rewrite Nat2Z.inj_pow. Qed.

Lemma M_bounds : 2 <= M <= 2 ^ 31.
Proof.
  rewrite M_pow2. split; [apply (Z.pow_le_mono_r 2 1); lia|apply Z.pow_le_mono_r; lia].
Qed.

Lemma enc_sub i j : (j ≤ i ≤ j + M)%nat → u32 (enc i - enc j) = (i - j)%nat.
Proof.
  intros Hij. pose proof M_bounds. unfold enc. rewrite wrap_sub_l, wrap_sub_r.
  rewrite wrap_small; unfold fits; lia.
Qed.

Lemma put_len_enc i j n :
  (j ≤ i ≤ j + M)%nat → fits 32 n →
  put_len M (enc i) (enc j) n = (Z.to_nat n `min` (M - (i - j)))%nat.
Proof.
  intros Hij [Hn _]. pose proof M_bounds. unfold put_len. rewrite enc_sub by done.
  rewrite wrap_small by (unfold fits; lia). lia.
Qed.

Lemma get_len_enc i j n :
  (j ≤ i ≤ j + M)%nat → fits 32 n →
  get_len (enc i) (enc j) n = (Z.to_nat n `min` (i - j))%nat.
Proof. intros Hij [Hn _]. unfold get_len. rewrite enc_sub by done. lia. Qed.

Lemma copy_slot_enc i n j :
  (j < n ≤ M)%nat → copy_slot M (M - 1) (enc i) n j = ((i + j) `mod` M)%nat.
Proof.
  intros Hj. pose proof M_bounds.
  assert (Hoff : Z.land (enc i) (M - 1) = (i `mod` M)%nat).
  { rewrite M_pow2, land_mask by lia. unfold enc. rewrite wrap_mod_pow2 by lia.
    by rewrite <- M_pow2, Nat2Z.inj_mod. }
  assert (Hlt : (i `mod` M < M)%nat) by (apply Nat.mod_upper_bound; lia).
  unfold copy_slot. rewrite Hoff. rewrite <- Nat.Div0.add_mod_idemp_l.
  generalize dependent (i `mod` M)%nat. intros off _ Hlt.
  rewrite wrap_small by (unfold fits; lia).
  destruct (Z.ltb_spec j (Z.min n (M - off))).
  - rewrite Nat.mod_small; lia.
  - replace (off + j)%nat with (j - (M - off) + 1 * M)%nat by lia.
    rewrite Nat.Div0.mod_add, Nat.mod_small; lia.
Qed.

Lemma newest_enc h : h ≠ [] → newest (enc <$> h) = enc (newest h).
Proof.
  intros Hh. unfold newest. rewrite fmap_last.
  destruct (last h) eqn:Hl; [done|]. by apply last_None in Hl.
Qed.

Abbreviation step := (@ring_step byte M M false Byte.x00).
Abbreviation inv := (@ring_inv byte M M false Byte.x00).

Lemma step_inv r r' : inv r → step r r' → inv r'.
Proof. pose proof M_bounds. apply ring_step_inv; lia. Qed.

Lemma bounds r :
  inv r → (r_tail r + claimed r ≤ r_head r ∧ r_head r + length (pending r) ≤ r_tail r + M ∧
           killed r ≤ length (fetched r) ≤ claimed r ∧ written r ≤ length (pending r))%nat.
Proof. pose proof M_bounds. apply inv_bounds; lia. Qed.

Lemma acquire_enc h view p x :
  acquire (enc <$> h) view p = Some x → ∃ i, acquire h view p = Some i ∧ x = enc i.
Proof.
  unfold acquire. case_decide; [|done]. rewrite list_lookup_fmap.
  intros (i & -> & Hi)%fmap_Some. eauto.
Qed.

Lemma put_load_sim s r data n idx p s' :
  sim M s r → inv r → s_prod s = PLoadedIn data n idx →
  put_step s (PutLoadOut p) = Some s' → ∃ r', rtc step r r' ∧ sim M s' r'.
Proof.
  intros S I Hp Hs. pose proof M_bounds as HMb. unfold put_step in Hs. rewrite Hp in Hs.
  destruct S as [S1 S2 S3 S4 S5 S6 S7 S8 S9 S10 S11 S12].
  rewrite Hp in S8. destruct (r_prod r) eqn:Hr; [|done]. destruct S8 as (-> & Hn & Hd).
  rewrite S4, S6 in Hs.
  apply bind_Some in Hs as (x & (o & Ho & ->)%acquire_enc & [= <-]).
  assert (Hstep := p_acquire M M false Byte.x00 r p o Ho).
  set (r1 := Ring _ _ _ _ _ _ _ _ _ _) in Hstep.
  assert (I1 : inv r1) by (eapply step_inv; [exact I|exact Hstep]).
  apply acquire_Some in Ho as [_ Ho].
  pose proof (ascending_newest _ _ _ (inv_out _ _ _ _ _ I) Ho) as Hoo.
  pose proof (bounds r I) as B.
  destruct (inv_pview _ _ _ _ _ I1) as (o' & Ho' & Hroom).
  assert (o' = o) as -> by (simpl in Ho'; congruence).
  unfold pending in Hroom. simpl in Hroom. rewrite Hr in Hroom. simpl in Hroom.
  unfold r_tail in B. change (r_head r1) with (r_head r) in Hroom.
  rewrite S1, put_len_enc by (done || lia).
  set (m := (Z.to_nat n `min` (M - (r_head r - o)))%nat) in *.
  destruct (Z.eqb_spec m 0) as [Hm|Hm].
  - exists r1. split; [by apply rtc_once|]. constructor; try done. simpl. by rewrite Hr.
  - rewrite Nat2Z.id.
    assert (Hm' : length (take m data) = m) by (rewrite length_take; lia).
    eexists. split.
    + eapply rtc_l; [exact Hstep|]. apply rtc_once.
      apply (p_begin _ _ _ _ r1 (take m data) o); [done|done| |].
      * intros Hnil. rewrite Hnil in Hm'. simpl in Hm'. lia.
      * rewrite Hm'. change (r_head r1) with (r_head r). lia.
    + constructor; try done. simpl. split_and!; try done; lia.
Qed.

Lemma get_load_sim s r peeking n idx p s' :
  sim M s r → inv r → s_cons s = CLoadedOut peeking n idx →
  get_step s (GetLoadIn p) = Some s' → ∃ r', rtc step r r' ∧ sim M s' r'.
Proof.
  intros S I Hp Hs. pose proof M_bounds as HMb. unfold get_step in Hs. rewrite Hp in Hs.
  destruct S as [S1 S2 S3 S4 S5 S6 S7 S8 S9 S10 S11 S12].
  rewrite Hp in S9. destruct (r_cons r) eqn:Hr; [|done]. destruct S9 as (-> & Hn).
  rewrite S3, S7 in Hs.
  apply bind_Some in Hs as (x & (i & Hi & ->)%acquire_enc & [= <-]).
  assert (Hstep := c_acquire M M false Byte.x00 r p i Hi).
  set (r1 := Ring _ _ _ _ _ _ _ _ _ _) in Hstep.
  assert (I1 : inv r1) by (eapply step_inv; [exact I|exact Hstep]).
  apply acquire_Some in Hi as [_ Hi].
  pose proof (ascending_newest _ _ _ (inv_in _ _ _ _ _ I) Hi) as Hii.
  pose proof (bounds r I) as B.
  destruct (inv_cview _ _ _ _ _ I1) as (i' & Hi' & Hroom).
  assert (i' = i) as -> by (simpl in Hi'; congruence).
  change (r_tail r1) with (r_tail r) in Hroom. unfold r_head in B.
  rewrite get_len_enc by (done || lia).
  set (m := (Z.to_nat n `min` (i - r_tail r))%nat) in *.
  destruct (Z.eqb_spec m 0) as [Hm|Hm].
  - exists r1. split; [by apply rtc_once|]. constructor; try done. simpl. by rewrite Hr.
  - rewrite Nat2Z.id. eexists. split.
    + eapply rtc_l; [exact Hstep|]. apply rtc_once.
      apply (c_begin _ _ _ _ r1 m i); [done|done|lia|].
      change (r_tail r1) with (r_tail r). lia.
    + constructor; try done. simpl. split_and!; try done; lia.
Qed.

(** Every cell of the buffer exists. *)
Lemma cell_exists r i : inv r → is_Some (r_cells r !! (i `mod` M)%nat).
Proof.
  intros I. pose proof M_bounds. apply lookup_lt_is_Some.
  rewrite (inv_cells _ _ _ _ _ I). apply Nat.mod_upper_bound. lia.
Qed.

Lemma put_copy_sim s r s' :
  sim M s r → inv r → put_step s PutCopy = Some s' → ∃ r', rtc step r r' ∧ sim M s' r'.
Proof.
  intros S I Hs. unfold put_step in Hs.
  destruct (s_prod s) as [| |data idx n k0] eqn:Hp; [done|done|].
  destruct S as [S1 S2 S3 S4 S5 S6 S7 S8 S9 S10 S11 S12].
  rewrite Hp in S8. destruct (r_prod r) as [|xs k'] eqn:Hr; [done|].
  destruct S8 as (-> & -> & <- & Hn & Hd).
  apply bind_guard_Some in Hs as (Hlt & (x & Hx & [= <-])%bind_Some).
  rewrite S1, S2, copy_slot_enc by lia.
  destruct (cell_exists r (r_head r + k0) I) as [c Hc].
  rewrite S5, Hc. eexists. split.
  - apply rtc_once. eapply (p_write _ _ _ _ r); [exact Hr| |exact Hc].
    by rewrite lookup_take_lt.
  - rewrite S3, length_fmap, S6, S10. by constructor.
Qed.

Lemma put_store_sim s r s' :
  sim M s r → put_step s PutStore = Some s' → ∃ r', rtc step r r' ∧ sim M s' r'.
Proof.
  intros S Hs. unfold put_step in Hs.
  destruct (s_prod s) as [| |data idx n k0] eqn:Hp; [done|done|].
  destruct S as [S1 S2 S3 S4 S5 S6 S7 S8 S9 S10 S11 S12].
  rewrite Hp in S8. destruct (r_prod r) as [|xs k'] eqn:Hr; [done|].
  destruct S8 as (-> & -> & <- & Hn & Hd).
  case_bool_decide as Hkn; [|done]. injection Hs as <-. subst n.
  assert (Hlen : length (take k0 data) = k0) by (rewrite length_take; lia).
  eexists. split.
  - apply rtc_once, (p_publish _ _ _ _ r (take k0 data)). by rewrite Hlen.
  - constructor; simpl; try done; [|by rewrite S11].
    rewrite S3, fmap_app, Hlen. f_equal. unfold enc. simpl. rewrite wrap_add_l.
    do 2 f_equal. lia.
Qed.

Lemma get_copy_sim s r s' :
  sim M s r → inv r → get_step s GetCopy = Some s' → ∃ r', rtc step r r' ∧ sim M s' r'.
Proof.
  intros S I Hs. unfold get_step in Hs.
  destruct (s_cons s) as [| |peeking idx n ys] eqn:Hp; [done|done|].
  destruct S as [S1 S2 S3 S4 S5 S6 S7 S8 S9 S10 S11 S12].
  rewrite Hp in S9. destruct (r_cons r) as [|n' ys' d] eqn:Hr; [done|].
  destruct S9 as (-> & <- & <- & -> & Hn).
  apply bind_guard_Some in Hs as (Hlt & [= <-]).
  rewrite S1, S2, copy_slot_enc by lia.
  destruct (cell_exists r (r_tail r + length ys) I) as [c Hc].
  rewrite S5, Hc. eexists. split.
  - apply rtc_once. by eapply (c_read _ _ _ _ r).
  - rewrite S4, length_fmap, S7, S10. by constructor.
Qed.

Lemma get_store_sim s r s' :
  sim M s r → get_step s GetStore = Some s' → ∃ r', rtc step r r' ∧ sim M s' r'.
Proof.
  intros S Hs. unfold get_step in Hs.
  destruct (s_cons s) as [| |peeking idx n ys] eqn:Hp; [done|done|].
  destruct S as [S1 S2 S3 S4 S5 S6 S7 S8 S9 S10 S11 S12].
  rewrite Hp in S9. destruct (r_cons r) as [|n' ys' d] eqn:Hr; [done|].
  destruct S9 as (-> & <- & <- & -> & Hn).
  case_bool_decide as Hkn; [|done]. injection Hs as <-. destruct peeking.
  - eexists. split; [by eapply rtc_once, (c_cancel _ _ _ _ r)|by constructor].
  - eexists. split; [by eapply rtc_once, (c_publish _ _ _ _ r)|].
    constructor; simpl; try done; [|by rewrite S12].
    rewrite S4, fmap_app. f_equal. unfold enc. simpl. rewrite wrap_add_l.
    do 2 f_equal. lia.
Qed.

Lemma conc_step_sim s r l s' :
  sim M s r → inv r → conc_step s l = Some s' → ∃ r', rtc step r r' ∧ sim M s' r'.
Proof.
  intros S I Hs. unfold conc_step in Hs.
  destruct (put_step s l) as [s''|] eqn:Hput; [injection Hs as ->|clear Hput].
  - destruct l as [data n|p| | | | | |]; simpl in Hput; try done.
    + destruct (s_prod s) eqn:Hp; try done. case_bool_decide as Hd; [|done].
      injection Hput as <-. exists r. split; [done|]. destruct S. constructor; try done.
      simpl. rewrite Hp in *. destruct (r_prod r); [|done].
      rewrite sim_in0, newest_enc; [done|apply (inv_in _ _ _ _ _ I)].
    + destruct (s_prod s) as [|data n idx|] eqn:Hp; try done.
      eapply put_load_sim; [done..|]. simpl. by rewrite Hp.
    + by eapply put_copy_sim.
    + by eapply put_store_sim.
  - destruct l as [|p| | |peeking n|p| |]; simpl in Hs; try done.
    + destruct (s_cons s) eqn:Hp; try done. case_bool_decide as Hd; [|done].
      injection Hs as <-. exists r. split; [done|]. destruct S. constructor; try done.
      simpl. rewrite Hp in *. destruct (r_cons r); [|done].
      rewrite sim_out0, newest_enc; [done|apply (inv_out _ _ _ _ _ I)].
    + destruct (s_cons s) as [|peeking n idx|] eqn:Hp; try done.
      eapply get_load_sim; [done..|]. simpl. by rewrite Hp.
    + by eapply get_copy_sim.
    + by eapply get_store_sim.
Qed.

Lemma steps_inv r r' : inv r → rtc step r r' → inv r'.
Proof. intros I. apply rtc_invariant; [done|]. intros. by eapply step_inv. Qed.

Lemma conc_run_sim ls s r s' :
  sim M s r → inv r → conc_run s ls = Some s' → ∃ r', rtc step r r' ∧ sim M s' r' ∧ inv r'.
Proof.
  revert s r. induction ls as [|l ls IH]; intros s r S I Hs; simpl in Hs.
  { injection Hs as <-. by exists r. }
  apply bind_Some in Hs as (s1 & Hs1 & Hs).
  destruct (conc_step_sim s r l s1 S I Hs1) as (r1 & Hr1 & S1).
  destruct (IH s1 r1 S1 (steps_inv _ _ I Hr1) Hs) as (r2 & Hr2 & S2 & I2).
  exists r2. split_and!; [by etrans|done|done].
Qed.
End simulation.

Lemma atomic_create_eq v :
  0 < v <= 2 ^ 31 →
  create v = Ok (mk (replicate (KFifo.rounded v) Byte.x00) (KFifo.rounded v)
                   (KFifo.rounded v - 1) 0 0).
Proof.
  intros Hv. pose proof (create_plain v) as Hp. rewrite KFifo.create_eq in Hp by done.
  destruct (create v) as [q| | |]; try done. destruct q. by injection Hp as -> -> -> -> ->.
Qed.

Lemma conc_init_sim v q :
  0 < v <= 2 ^ 31 → create v = Ok q →
  sim (KFifo.rounded v) (conc_init q) (ring_init (KFifo.rounded v) Byte.x00).
Proof.
  intros Hv Hq. rewrite atomic_create_eq in Hq by done. injection Hq as <-.
  constructor; try done. simpl. by rewrite fmap_replicate.
Qed.

Lemma conc_run_reachable v q ls s :
  0 < v <= 2 ^ 31 → create v = Ok q → conc_run (conc_init q) ls = Some s →
  ∃ k r, KFifo.rounded v = (2 ^ k)%nat ∧ (1 ≤ k ≤ 31)%nat ∧
    sim (KFifo.rounded v) s r ∧
    reachable (KFifo.rounded v) (KFifo.rounded v) false Byte.x00 r.
Proof.
  intros Hv Hq Hs. destruct (KFifo.rounded_pow2 v Hv) as (k & Hk & Hr).
  pose proof (KFifo.rounded_bounds v Hv).
  destruct (conc_run_sim k _ Hk Hr ls _ _ s (conc_init_sim v q Hv Hq))
    as (r & Hrtc & S & I); [|done|by exists k, r].
  apply ring_init_inv; lia.
Qed.

(** C33: with one thread in [put] and one in [get] or [peek], whatever their
    interleaving and whichever sufficiently recent index values their acquire
    loads return, there is no data race and no access outside the buffer, the
    bytes returned by [get] are a prefix of the bytes accepted by [put], and
    at most [capacity] bytes are in between. *)
Theorem spsc_safe v q ls s
  (Hv : 0 < v <= 2 ^ 31) (Hq : create v = Ok q) (Hs : conc_run (conc_init q) ls = Some s) :
  s_ub s = false ∧ s_recvd s `prefix_of` s_sent s ∧
  length (s_sent s) <= length (s_recvd s) + capacity q.
Proof.
  destruct (conc_run_reachable v q ls s Hv Hq Hs) as (k & r & _ & _ & S & R).
  pose proof (KFifo.rounded_bounds v Hv).
  apply reachable_fifo in R as (H1 & H2 & H3); [|lia|lia].
  rewrite atomic_create_eq in Hq by done. injection Hq as <-.
  rewrite (sim_ub _ _ _ S), (sim_sent _ _ _ S), (sim_recvd _ _ _ S).
  split_and!; [done|done|]. unfold capacity. simpl. lia.
Qed.

(** A producer that fills a FIFO of two bytes, is told it is full while it has
    not seen the consumer's progress, and wraps around once it has. *)
Definition spsc_schedule : list label :=
  [PutCall (KFifo.bytes [1; 2; 3]%nat) 3; PutLoadOut 0; PutCopy; GetCall false 2; PutCopy;
   PutStore; GetLoadIn 1; GetCopy; PutCall (KFifo.bytes [9]%nat) 1; PutLoadOut 0; GetCopy;
   GetStore; PutCall (KFifo.bytes [3; 4]%nat) 2; PutLoadOut 1; PutCopy; GetCall false 4; PutCopy;
   GetLoadIn 1; PutStore].

Lemma spsc_safe_witness :
  ∃ q s, create 2 = Ok q ∧ conc_run (conc_init q) spsc_schedule = Some s ∧
    s_sent s = KFifo.bytes [1; 2; 3; 4]%nat ∧ s_recvd s = KFifo.bytes [1; 2]%nat ∧
    s_ub s = false ∧ s_recvd s `prefix_of` s_sent s ∧
    length (s_sent s) <= length (s_recvd s) + capacity q.
Proof.
  destruct (create 2) as [q| | |] eqn:Hq; [|by vm_compute in Hq..].
  destruct (conc_run (conc_init q) spsc_schedule) as [s|] eqn:Hs;
    [|by vm_compute in Hq; injection Hq as <-; vm_compute in Hs].
  exists q, s. split; [done|]. split; [done|].
  assert (s_sent s = KFifo.bytes [1; 2; 3; 4]%nat ∧ s_recvd s = KFifo.bytes [1; 2]%nat) as [-> ->].
  { vm_compute in Hq. injection Hq as <-. vm_compute in Hs. by injection Hs as <-. }
  destruct (spsc_safe 2 q spsc_schedule s) as (H1 & H2 & H3); [lia|done|done|].
  split_and!; try done.
  - exists (KFifo.bytes [3; 4]%nat). by vm_compute.
  - by vm_compute in Hq; injection Hq as <-.
Defined.

(** ** Wait-freedom *)

Definition is_put (l : label) : Prop :=
  match l with PutCall _ _ | PutLoadOut _ | PutCopy | PutStore => True | _ => False end.
Definition is_get (l : label) : Prop := ¬ is_put l.

Lemma conc_step_put s l s' : put_step s l = Some s' → conc_step s l = Some s'.
Proof. unfold conc_step. by intros ->. Qed.

Lemma conc_step_get s l s' : is_get l → get_step s l = Some s' → conc_step s l = Some s'.
Proof. unfold conc_step, is_get. destruct l; simpl; intros Hl Hs; done || by destruct Hl. Qed.

Section progress.
Context (k M : nat) (Hk : (1 ≤ k ≤ 31)%nat) (HM : M = (2 ^ k)%nat).
Abbreviation inv := (@ring_inv byte M M false Byte.x00).

Lemma put_copy_enabled s r data idx n j :
  sim M s r → inv r → s_prod s = PCopying data idx n j → (j < n)%nat →
  ∃ s', put_step s PutCopy = Some s' ∧ s_prod s' = PCopying data idx n (S j).
Proof.
  intros Sm I Hp Hj. unfold put_step. rewrite Hp, option_guard_True by done.
  pose proof (sim_prod _ _ _ Sm) as P. rewrite Hp in P.
  destruct (r_prod r) as [|xs k'] eqn:Hr; [done|]. destruct P as (-> & -> & <- & Hn & Hd).
  destruct (lookup_lt_is_Some_2 data j) as [x ->]; [lia|]. simpl.
  rewrite (sim_capacity _ _ _ Sm), (sim_mask _ _ _ Sm), (copy_slot_enc k) by (done || lia).
  destruct (cell_exists k M Hk HM r (r_head r + j) I) as [c Hc].
  rewrite (sim_buffer _ _ _ Sm), Hc. eauto.
Qed.

Lemma put_copying_finishes d s r data idx n j :
  sim M s r → inv r → s_prod s = PCopying data idx n j → (n - j = d)%nat →
  ∃ ls s', Forall is_put ls ∧ length ls = S d ∧ conc_run s ls = Some s' ∧ s_prod s' = PIdle.
Proof.
  revert s r j. induction d as [|d IH]; intros s r j Sm I Hp Hd.
  - exists [PutStore].
    assert (j = n) as ->.
    { pose proof (sim_prod _ _ _ Sm) as P. rewrite Hp in P.
      destruct (r_prod r) eqn:Hr; [done|]. pose proof (bounds k M Hk HM r I) as B.
      unfold written, pending in B. rewrite Hr in B.
      destruct P as (-> & -> & <- & Hn & Hd'). rewrite length_take in B. lia. }
    eexists. split_and!; [by repeat constructor|done| |]; simpl.
    + unfold conc_step, put_step. by rewrite Hp, bool_decide_true.
    + done.
  - destruct (put_copy_enabled s r data idx n j Sm I Hp) as (s1 & Hs1 & Hp1); [lia|].
    destruct (conc_step_sim k M Hk HM s r PutCopy s1 Sm I) as (r1 & Hr1 & Sm1);
      [by apply conc_step_put|].
    assert (I1 : inv r1) by (by eapply steps_inv).
    destruct (IH s1 r1 (S j) Sm1 I1 Hp1) as (ls & s2 & Hls & Hlen & Hrun & Hidle); [lia|].
    exists (PutCopy :: ls), s2. split_and!; [by constructor|simpl; lia| |done].
    simpl. by rewrite (conc_step_put _ _ _ Hs1).
Qed.

Lemma put_finishes s r :
  sim M s r → inv r →
  ∃ ls s', Forall is_put ls ∧ (length ls ≤ M + 2)%nat ∧ conc_run s ls = Some s' ∧ s_prod s' = PIdle.
Proof.
  intros Sm I. destruct (s_prod s) as [|data n idx|data idx n j] eqn:Hp.
  - exists [], s. by split_and!; [constructor|simpl; lia|..].
  - destruct (inv_pview _ _ _ _ _ I) as (o & Ho & _).
    assert (Hs1 : ∃ s1, put_step s (PutLoadOut (s_pview s)) = Some s1).
    { unfold put_step. rewrite Hp, (sim_out _ _ _ Sm), (sim_pview _ _ _ Sm). unfold acquire.
      rewrite decide_True, list_lookup_fmap, Ho by done. simpl. eauto. }
    destruct Hs1 as [s1 Hs1].
    destruct (conc_step_sim k M Hk HM s r _ s1 Sm I (conc_step_put _ _ _ Hs1))
      as (r1 & Hr1 & Sm1).
    assert (I1 : inv r1) by (by eapply steps_inv).
    destruct (s_prod s1) as [|data1 n1 idx1|data1 idx1 n1 j1] eqn:Hp1.
    + exists [PutLoadOut (s_pview s)], s1.
      split_and!; [by repeat constructor|simpl; lia| |done]. simpl.
      by rewrite (conc_step_put _ _ _ Hs1).
    + exfalso. unfold put_step in Hs1. rewrite Hp in Hs1.
      apply bind_Some in Hs1 as (? & _ & [= <-]). simpl in Hp1. by destruct (_ =? 0).
    + destruct (put_copying_finishes (n1 - j1) s1 r1 data1 idx1 n1 j1 Sm1 I1 Hp1 eq_refl)
        as (ls & s2 & Hls & Hlen & Hrun & Hidle).
      exists (PutLoadOut (s_pview s) :: ls), s2. split_and!; [by constructor| | |done].
      * pose proof (sim_prod _ _ _ Sm1) as P. rewrite Hp1 in P.
        destruct (r_prod r1); [done|]. simpl. destruct P as (_ & _ & _ & ? & _). lia.
      * simpl. by rewrite (conc_step_put _ _ _ Hs1).
  - destruct (put_copying_finishes (n - j) s r data idx n j Sm I Hp eq_refl)
      as (ls & s2 & Hls & Hlen & Hrun & Hidle).
    exists ls, s2. split_and!; [done| |done|done].
    pose proof (sim_prod _ _ _ Sm) as P. rewrite Hp in P.
    destruct (r_prod r); [done|]. destruct P as (_ & _ & _ & ? & _). lia.
Qed.
End progress.

(** [put] is wait-free: from every state two threads can reach, the
    producer returns from the call it is in within [capacity + 2] steps of its
    own, wherever the consumer has stopped. *)
Theorem put_wait_free v q ls s
  (Hv : 0 < v <= 2 ^ 31) (Hq : create v = Ok q) (Hs : conc_run (conc_init q) ls = Some s) :
  ∃ ls' s', Forall is_put ls' ∧ length ls' <= capacity q + 2 ∧
    conc_run s ls' = Some s' ∧ s_prod s' = PIdle.
Proof.
  destruct (conc_run_reachable v q ls s Hv Hq Hs) as (k & r & Hr & Hk & Sm & R).
  pose proof (KFifo.rounded_bounds v Hv).
  apply reachable_inv in R; [|lia|lia].
  destruct (put_finishes k _ Hk Hr s r Sm R) as (ls' & s' & H1 & H2 & H3 & H4).
  exists ls', s'. split_and!; try done. rewrite atomic_create_eq in Hq by done.
  injection Hq as <-. unfold capacity. simpl. lia.
Qed.

Lemma put_wait_free_witness :
  ∃ q s, create 2 = Ok q ∧ conc_run (conc_init q) (take 3 spsc_schedule) = Some s ∧
    s_prod s ≠ PIdle ∧
    ∃ ls' s', Forall is_put ls' ∧ length ls' <= capacity q + 2 ∧
      conc_run s ls' = Some s' ∧ s_prod s' = PIdle.
Proof.
  destruct (create 2) as [q| | |] eqn:Hq; [|by vm_compute in Hq..].
  destruct (conc_run (conc_init q) (take 3 spsc_schedule)) as [s|] eqn:Hs;
    [|by vm_compute in Hq; injection Hq as <-; vm_compute in Hs].
  exists q, s. split_and!; [done|done| |].
  - vm_compute in Hq. injection Hq as <-. vm_compute in Hs. by injection Hs as <-.
  - apply (put_wait_free 2 q (take 3 spsc_schedule) s); [lia|done|done].
Defined.
End AtomicKFifo.
