(* ===== verification/DMAtomicQueue.v ===== *)
(** * [CDMAtomicQueue] (dmatomic_queue.h): a padded single-producer ring of objects

    Slots hold constructed objects or raw memory ([None]): [new (&slot) T(..)]
    needs raw memory and [~T()] an object.  First the methods as one thread
    runs them, then a producer and a consumer thread as an instance of the
    protocol of [Spsc]. *)
From S2P Require Import Prelude RingBuf TryQueue Spsc.
Local Open Scope Z_scope.

Module DMAtomicQueue.
Section queue.
Context {T : Type} (sizeof_T : Z).

Definition kCacheLineSize : Z := 128.
Definition kPadding : Z := (kCacheLineSize - 1) / sizeof_T + 1.

Record t := mk {
  capacity_ : Z;
  slots_ : list (option T);
  head_ : Z;
  tail_ : Z
}.

(** [operator new[](sizeof(T) * (capacity + 2 * kPadding))]: the product is a
    [size_t], and only the objects that fit in that many bytes have a slot. *)
Definition allocate (capacity : Z) : list (option T) :=
  replicate (Z.to_nat (u64 (sizeof_T * u64 (capacity + 2 * kPadding)) / sizeof_T)) None.

Definition create (capacity : Z) : result t :=
  let slots := if capacity <? 2 then [] else allocate capacity in
  if capacity <? 2 then Throw (invalid_argument "size < 2")
  else Ok (mk capacity slots 0 0).

(** Placement [new] on raw memory, and the destructor of an object. *)
Definition construct (slots : list (option T)) (i : Z) (x : T) : result (list (option T)) :=
  o ← aread slots i;
  match o with None => awrite slots i (Some x) | Some _ => UB end.
Definition destroy (slots : list (option T)) (i : Z) : result (list (option T)) :=
  o ← aread slots i;
  match o with Some _ => awrite slots i None | None => UB end.

(** The index after [i]. *)
Definition next (capacity i : Z) : Z :=
  let n := u64 (i + 1) in if n =? capacity then 0 else n.

(** [x] is the outcome of [T(std::forward<Args>(args)...)]; [loads] are the
    values of [tail_] the spin loop reads.  [None]: still spinning. *)
Fixpoint spin (nextHead : Z) (loads : list Z) : option () :=
  match loads with
  | [] => None
  | l :: loads => if nextHead =? l then spin nextHead loads else Some ()
  end.

Definition emplace (q : t) (x : result T) (loads : list Z) : option (result t) :=
  let head := head_ q in
  let nextHead := next (capacity_ q) head in
  spin nextHead loads ;;
  Some (x ← x;
        slots ← construct (slots_ q) (u64 (head + kPadding)) x;
        Ok (mk (capacity_ q) slots nextHead (tail_ q))).

Definition try_emplace (q : t) (x : result T) : result (t * bool) :=
  let head := head_ q in
  let nextHead := next (capacity_ q) head in
  if nextHead =? tail_ q then Ok (q, false) else
  x ← x;
  slots ← construct (slots_ q) (u64 (head + kPadding)) x;
  Ok (mk (capacity_ q) slots nextHead (tail_ q), true).

Definition push (q : t) (v : T) (loads : list Z) : option (result t) := emplace q (Ok v) loads.
Definition try_push (q : t) (v : T) : result (t * bool) := try_emplace q (Ok v).

(** A pointer into the queue is the index of its slot. *)
Definition front (q : t) : option Z :=
  let tail := tail_ q in
  if head_ q =? tail then None else Some (u64 (tail + kPadding)).

Definition deref (q : t) (p : Z) : result T :=
  o ← aread (slots_ q) p; match o with Some x => Ok x | None => UB end.

Definition pop (NDEBUG : bool) (q : t) : result t :=
  let tail := tail_ q in
  assert_ NDEBUG (negb (head_ q =? tail));;
  slots ← destroy (slots_ q) (u64 (tail + kPadding));
  let nextTail := next (capacity_ q) tail in
  Ok (mk (capacity_ q) slots (head_ q) nextTail).

(** [static_cast] to [std::ptrdiff_t], the 64-bit two's complement type. *)
Definition ptrdiff (x : Z) : Z := if u64 x <? 2 ^ 63 then u64 x else u64 x - 2 ^ 64.

(** [size] for the values it loads from [head_] and [tail_]. *)
Definition size_of (capacity head tail : Z) : Z :=
  let diff := ptrdiff (u64 (head - tail)) in
  let diff := if diff <? 0 then ptrdiff (u64 (u64 diff + capacity)) else diff in
  u64 diff.
Definition size (q : t) : Z := size_of (capacity_ q) (head_ q) (tail_ q).
Definition empty (q : t) : bool := size q =? 0.
Definition capacity (q : t) : Z := capacity_ q.

(** [~CDMAtomicQueue]: [while (front()) pop();] with as many rounds as [fuel],
    then the memory is released. *)
Fixpoint drain (NDEBUG : bool) (fuel : nat) (q : t) : option (result t) :=
  match front q with
  | None => Some (Ok q)
  | Some _ =>
      match fuel with
      | O => None
      | S fuel =>
          match pop NDEBUG q with
          | Ok q => drain NDEBUG fuel q
          | Throw e => Some (Throw e) | Abort => Some Abort | UB => Some UB
          end
      end
  end.

(** ** One thread *)
Hypothesis Hsizeof : 0 < sizeof_T.

(** A capacity whose array of objects and padding is addressable. *)
Definition addressable (capacity : Z) : Prop :=
  2 <= capacity ∧ sizeof_T * (capacity + 2 * kPadding) < 2 ^ 63.

(** The raw memory around the slots. *)
Definition padding : list (option T) := replicate (Z.to_nat kPadding) None.

Record repr (q : t) (items : list T) : Prop := {
  re_cap : addressable (capacity_ q);
  re_slots : ∃ ring (h t : nat),
    slots_ q = padding ++ ring ++ padding ∧
    capacity_ q = length ring ∧ tail_ q = h ∧ head_ q = t ∧
    gap_ring (λ o, o = None) ring h t (Some <$> items)
}.

Lemma kPadding_pos : 0 < kPadding.
Proof. unfold kPadding, kCacheLineSize. assert (0 <= (128 - 1) / sizeof_T) by (apply Z.div_pos; lia). lia. Qed.

Lemma length_padding : Z.of_nat (length padding) = kPadding.
Proof. pose proof kPadding_pos. unfold padding. rewrite length_replicate. lia. Qed.

Lemma addressable_bound c : addressable c → c + 2 * kPadding < 2 ^ 63.
Proof. unfold addressable. pose proof kPadding_pos. nia. Qed.

Lemma next_slot {B} (ring : list B) (i : nat) :
  (i < length ring)%nat → length ring < 2 ^ 63 → next (length ring) i = slot ring (i + 1).
Proof.
  intros Hi Hl. unfold next. rewrite wrap_small by (unfold fits; lia). unfold slot.
  destruct (Z.eqb_spec (i + 1) (length ring)).
  - replace (i + 1)%nat with (length ring) by lia. by rewrite Nat.Div0.mod_same.
  - rewrite Nat.mod_small; lia.
Qed.

Section padded.
Context {B : Type} (pre ring post : list B) (pad : Z) (Hpad : Z.of_nat (length pre) = pad).
Context (Hb : length ring + 2 * pad < 2 ^ 63).

Lemma padded_index (i : nat) : (i < length ring)%nat → u64 (i + pad) = (length pre + i)%nat.
Proof. intros Hi. rewrite wrap_small; unfold fits; lia. Qed.

Lemma padded_read (i : nat) x :
  ring !! i = Some x → aread (pre ++ ring ++ post) (u64 (i + pad)) = Ok x.
Proof.
  intros Hx. pose proof (lookup_lt_Some _ _ _ Hx). rewrite padded_index by done.
  apply aread_ok. rewrite lookup_app_r by lia. rewrite lookup_app_l by lia.
  rewrite <- Hx. f_equal. lia.
Qed.

Lemma padded_write (i : nat) x :
  (i < length ring)%nat →
  awrite (pre ++ ring ++ post) (u64 (i + pad)) x = Ok (pre ++ <[i:=x]> ring ++ post).
Proof.
  intros Hi. rewrite padded_index by done. rewrite awrite_ok by (rewrite !length_app; lia).
  by rewrite insert_app_r, insert_app_l.
Qed.
End padded.

Lemma create_throws c : c < 2 → create c = Throw (invalid_argument "size < 2").
Proof. intros Hc. unfold create. by rewrite (proj2 (Z.ltb_lt _ _) Hc). Qed.

Lemma allocate_eq c :
  addressable c →
  allocate c = padding ++ replicate (Z.to_nat c) None ++ padding.
Proof.
  intros [Hc Hb]. pose proof kPadding_pos. pose proof (addressable_bound c (conj Hc Hb)).
  unfold allocate, padding. rewrite (wrap_small 64 (c + _)) by (unfold fits; lia).
  rewrite wrap_small by (unfold fits; lia).
  rewrite Z.mul_comm, Z.div_mul, <- !replicate_add by lia. f_equal. lia.
Qed.

Lemma dq_create_ok c : addressable c → ∃ q, create c = Ok q ∧ capacity_ q = c ∧ repr q [].
Proof.
  intros Hc. unfold create. rewrite (proj2 (Z.ltb_ge c 2)) by apply Hc.
  eexists. split; [done|]. split; [done|]. constructor; [done|].
  rewrite allocate_eq by done. pose proof kPadding_pos. destruct Hc as [Hc _].
  eexists _, 0%nat, 0%nat. split; [done|]. simpl. rewrite !length_replicate.
  split_and!; try lia. apply gap_init; [rewrite length_replicate; lia|].
  intros x Hx. by apply elem_of_replicate in Hx as [-> _].
Qed.

Lemma try_emplace_ok q items x :
  repr q items →
  if decide (S (length items) = capacity_ q :> Z)
  then try_emplace q (Ok x) = Ok (q, false)
  else ∃ q', try_emplace q (Ok x) = Ok (q', true) ∧ capacity_ q' = capacity_ q ∧
             repr q' (items ++ [x]).
Proof.
  intros [Hc (ring & h & t' & Hs & Hcap & Ht & Hh & G)].
  pose proof (addressable_bound _ Hc) as Hb. pose proof kPadding_pos.
  pose proof (gap_tail_lt _ _ _ _ _ G) as Hlt. unfold try_emplace.
  rewrite Hh, Hcap, Ht, Hs in *. rewrite next_slot by lia.
  pose proof (gap_full _ _ _ _ _ G) as Hfull. rewrite length_fmap in Hfull.
  case_decide as E.
  - by rewrite (proj2 (Z.eqb_eq _ _)) by (f_equal; apply Hfull; lia).
  - rewrite (proj2 (Z.eqb_neq _ _)) by (intros ?%Nat2Z.inj%Hfull; lia). simpl.
    destruct (gap_free_slot _ _ _ _ _ G) as (d & Hd & ->). unfold construct.
    rewrite (padded_read _ ring _ kPadding length_padding Hb _ _ Hd), bind_ok.
    rewrite padded_write, bind_ok by (done || apply length_padding). eexists. split_and!; [done|done|].
    constructor; [done|]. eexists _, h, _. simpl. split; [done|]. rewrite length_insert. split_and!; try done.
    rewrite fmap_app. apply gap_push; [done|]. rewrite length_fmap.
    pose proof (gap_fit _ _ _ _ _ G) as Hf. rewrite length_fmap in Hf. lia.
Qed.

(** With nobody popping, the spin loop of [emplace] never ends on a full queue;
    otherwise its first load lets it through and it does what [try_emplace]
    does. *)
Lemma emplace_ok q items x n :
  repr q items →
  emplace q x (replicate (S n) (tail_ q)) =
  if decide (S (length items) = capacity_ q :> Z) then None
  else Some (r ← try_emplace q x; Ok r.1).
Proof.
  intros [Hc (ring & h & t' & Hs & Hcap & Ht & Hh & G)].
  pose proof (addressable_bound _ Hc) as Hb. pose proof kPadding_pos.
  pose proof (gap_tail_lt _ _ _ _ _ G) as Hlt. unfold emplace, try_emplace.
  pose proof (gap_full _ _ _ _ _ G) as Hfull. rewrite length_fmap in Hfull.
  assert (Hn : next (capacity_ q) (head_ q) = slot ring (t' + 1))
    by (rewrite Hcap, Hh; apply next_slot; lia).
  rewrite Hn, Ht, Hcap in *. case_decide as E.
  - assert (Heq : slot ring (t' + 1) = h) by (apply Hfull; lia). rewrite Heq.
    assert (Hsp : ∀ k, spin h (replicate k (Z.of_nat h)) = None)
      by (induction k; simpl; [done|by rewrite Z.eqb_refl]).
    by rewrite Hsp.
  - simpl. rewrite (proj2 (Z.eqb_neq _ _)) by (intros ?%Nat2Z.inj%Hfull; lia).
    simpl. destruct x as [x| | |]; [|done..]. simpl. by destruct (construct _ _ _).
Qed.

Lemma dq_front_ok q items :
  repr q items →
  match items with
  | [] => front q = None
  | x :: _ => ∃ p, front q = Some p ∧ deref q p = Ok x
  end.
Proof.
  intros [Hc (ring & h & t' & Hs & Hcap & Ht & Hh & G)].
  pose proof (addressable_bound _ Hc) as Hb. rewrite Hcap in Hb.
  pose proof (gap_empty _ _ _ _ _ G) as He. unfold front. rewrite Hh, Ht.
  destruct items as [|x xs].
  - by rewrite (proj2 He), Z.eqb_refl.
  - rewrite (proj2 (Z.eqb_neq _ _)) by (intros E%Nat2Z.inj; by apply eq_sym, He in E).
    eexists. split; [done|]. unfold deref. rewrite Hs.
    erewrite padded_read; [|apply length_padding|done|by eapply gap_front]. done.
Qed.

Lemma dq_pop_ok NDEBUG q x xs :
  repr q (x :: xs) → ∃ q', pop NDEBUG q = Ok q' ∧ capacity_ q' = capacity_ q ∧ repr q' xs.
Proof.
  intros [Hc (ring & h & t' & Hs & Hcap & Ht & Hh & G)].
  pose proof (addressable_bound _ Hc) as Hb. rewrite Hcap in Hb.
  pose proof (gap_empty _ _ _ _ _ G) as He. pose proof (gap_head _ _ _ _ _ G) as Hlt.
  unfold pop. rewrite assert_ok, bind_ok.
  2: { rewrite Hh, Ht, (proj2 (Z.eqb_neq _ _)); [done|].
       intros E%Nat2Z.inj. by apply eq_sym, He in E. }
  pose proof kPadding_pos. rewrite Ht, Hs, Hcap, Hh, next_slot by lia. unfold destroy.
  erewrite padded_read; [|apply length_padding|done|by eapply gap_front]. rewrite bind_ok.
  rewrite padded_write, bind_ok by (done || apply length_padding). eexists. split_and!; [done|done|].
  constructor; [by simpl; rewrite <- Hcap|]. eexists _, _, t'. simpl. split; [done|]. rewrite length_insert. split_and!; try done.
  by eapply gap_pop.
Qed.

Lemma size_of_ok (capacity h t : Z) :
  0 <= h < capacity → 0 <= t < capacity → capacity < 2 ^ 63 →
  size_of capacity h t = if decide (t <= h) then h - t else h + capacity - t.
Proof.
  intros Hh Ht Hc. unfold size_of, ptrdiff. rewrite !wrap_wrap. case_decide.
  - rewrite (wrap_small 64 (h - t)) by (unfold fits; lia).
    rewrite (proj2 (Z.ltb_lt (h - t) (2 ^ 63))), (proj2 (Z.ltb_ge (h - t) 0)) by lia.
    apply wrap_small. unfold fits. lia.
  - replace (u64 (h - t)) with (h - t + 2 ^ 64)
      by (unfold wrap; apply (Z.mod_unique_pos _ _ (-1)); lia).
    rewrite (proj2 (Z.ltb_ge _ (2 ^ 63))) by lia.
    replace (h - t + 2 ^ 64 - 2 ^ 64) with (h - t) by lia.
    rewrite (proj2 (Z.ltb_lt (h - t) 0)), wrap_add_l by lia.
    rewrite (wrap_small 64 (h - t + capacity)) by (unfold fits; lia).
    rewrite (proj2 (Z.ltb_lt (_ + capacity) _)) by lia. rewrite wrap_small; [lia|unfold fits; lia].
Qed.

Lemma size_ok q items : repr q items → size q = length items.
Proof.
  intros [Hc (ring & h & t' & Hs & Hcap & Ht & Hh & G)].
  pose proof (addressable_bound _ Hc). pose proof kPadding_pos.
  pose proof (gap_used _ _ _ _ _ G) as Hu. rewrite length_fmap in Hu.
  pose proof (gap_tail_lt _ _ _ _ _ G). pose proof (gap_head _ _ _ _ _ G).
  unfold size. rewrite size_of_ok by lia. rewrite Hu, Ht, Hh, Hcap.
  repeat case_decide; lia.
Qed.

Lemma drain_ok NDEBUG items : ∀ q fuel,
  repr q items → (length items ≤ fuel)%nat →
  ∃ q', drain NDEBUG fuel q = Some (Ok q') ∧ repr q' [].
Proof.
  induction items as [|x xs IH]; intros q fuel R Hf; pose proof (dq_front_ok _ _ R) as Hfr.
  - destruct fuel; simpl; rewrite Hfr; eauto.
  - destruct Hfr as (p & Hp & _). destruct fuel as [|fuel]; simpl in *; [lia|].
    destruct (dq_pop_ok NDEBUG q x xs R) as (q' & -> & _ & R'). rewrite Hp.
    apply IH; [done|lia].
Qed.

(** An empty queue holds no object. *)
Lemma repr_nil_raw q i o : repr q [] → slots_ q !! i = Some o → o = None.
Proof.
  intros [Hc (ring & h & t' & Hs & Hcap & Ht & Hh & G)] Hi.
  rewrite Hs in Hi. unfold padding in Hi.
  apply lookup_app_Some in Hi as [[? _]%lookup_replicate_1|[_ Hi]]; [done|].
  apply lookup_app_Some in Hi as [Hi|[_ [? _]%lookup_replicate_1]]; [|done].
  set (j := (i - _)%nat) in Hi. pose proof (lookup_lt_Some _ _ _ Hi) as Hj.
  destruct G as [Hlt _ _ _ Hd]. simpl in *.
  apply list_lookup_total_correct in Hi as <-. destruct (decide (h ≤ j)%nat).
  - specialize (Hd (j - h)%nat ltac:(lia)). rewrite slot_small in Hd by lia.
    by replace (h + (j - h))%nat with j in Hd by lia.
  - specialize (Hd (j + length ring - h)%nat ltac:(lia)).
    replace (h + (j + length ring - h))%nat with (j + length ring)%nat in Hd by lia.
    by rewrite slot_lap, slot_small in Hd.
Qed.

(** Taking the front element: [T x = *q.front(); q.pop();]. *)
Definition take_front (NDEBUG : bool) (q : t) : result (t * option T) :=
  match front q with
  | None => Ok (q, None)
  | Some p => x ← deref q p; q ← pop NDEBUG q; Ok (q, Some x)
  end.
End queue.

Section laws.
Context {T : Type} (sizeof_T : Z) (Hsizeof : 0 < sizeof_T) (NDEBUG : bool).

Definition ops : TryQueue t T := {|
  tq_push := try_push sizeof_T;
  tq_pop := take_front sizeof_T NDEBUG;
  tq_used q := Ok (size q) |}.

#[local] Existing Instance ops.

Program Definition laws : TryQueueLaws t T := {|
  tq_repr q n xs := capacity_ q = n + 1 ∧ repr sizeof_T q xs;
  tq_item _ := True |}.
Next Obligation.
  intros q n xs [Hc [_ (ring & h & t' & _ & Hl & _ & _ & G)]].
  apply gap_fit in G. rewrite length_fmap in G. lia.
Qed.
Next Obligation.
  intros q n xs x [Hc R] _. pose proof (try_emplace_ok sizeof_T Hsizeof q xs x R) as P.
  assert (length xs ≤ n)%nat by (eapply laws_obligation_1; eauto).
  destruct (decide (length xs < n)%nat); case_decide; try lia; [|done].
  destruct P as (q' & ? & Hc' & ?). exists q'. split; [done|]. split; [lia|done].
Qed.
Next Obligation.
  intros q n xs [Hc R]. simpl. unfold take_front.
  pose proof (dq_front_ok sizeof_T Hsizeof q xs R) as P.
  destruct xs as [|x xs]; [by rewrite P|]. destruct P as (p & -> & ->). simpl.
  destruct (dq_pop_ok sizeof_T Hsizeof NDEBUG q x xs R) as (q' & -> & Hc' & R').
  exists q'. split; [done|]. split; [lia|done].
Qed.
Next Obligation. intros q n xs [_ R]. simpl. f_equal. by eapply size_ok. Qed.
End laws.

(** any sequence of [try_push], [front]-and-[pop] and [size] calls on a new
    queue answers what a bounded queue of [capacity - 1] elements answers; no
    object is constructed over another, no raw slot is read or destroyed and
    no assertion fails; and the destructor, run at any point, destroys every
    object that is left. *)
Theorem queue_refines {T} sizeof_T NDEBUG c (cs : list (tq_call T))
  (Hsizeof : 0 < sizeof_T) (Hc : addressable sizeof_T c) :
  let spec := tq_spec_run (T:=T) (Z.to_nat (c - 1)) [] cs in
  ∃ q q' q'', create sizeof_T c = Ok q ∧
    tq_run (TryQueue0 := ops sizeof_T NDEBUG) q cs = Ok (q', spec.2) ∧
    drain sizeof_T NDEBUG (length spec.1) q' = Some (Ok q'') ∧ Forall (λ o, o = None) (slots_ q'').
Proof.
  intros spec. destruct (dq_create_ok (T:=T) sizeof_T Hsizeof c Hc) as (q & Hq & Hcap & R).
  destruct (tq_run_refines (TryQueueLaws0 := laws sizeof_T Hsizeof NDEBUG) cs q
    (Z.to_nat (c - 1)) []) as (q' & Hrun & _ & R').
  { split; [|done]. destruct Hc. lia. }
  { apply Forall_forall. by intros []. }
  destruct (drain_ok sizeof_T Hsizeof NDEBUG _ q' _ R' (le_n _)) as (q'' & Hd & R'').
  exists q, q', q''. split_and!; [done|done|done|]. apply Forall_lookup. intros i o.
  by eapply repr_nil_raw.
Qed.

Lemma queue_refines_witness :
  ∃ q q' q'', create 16 3 = Ok q ∧
    tq_run (TryQueue0 := ops 16 false) q
      [TryPush 7; TryPush 8; TryPush 9; TryPop; TryPush 9; TryPop; Used] =
    Ok (q', [Pushed true; Pushed true; Pushed false; Popped (Some 7); Pushed true;
             Popped (Some 8); Count 1]) ∧
    drain 16 false 1 q' = Some (Ok q'') ∧ Forall (λ o, o = None) (slots_ q'').
Proof.
  apply (queue_refines (T := Z) 16 false 3
    [TryPush 7; TryPush 8; TryPush 9; TryPop; TryPush 9; TryPop; Used]); [lia|].
  split; [lia|]. by vm_compute.
Defined.

(** ** Two threads

    One producer in [emplace] or [try_emplace], one consumer that calls
    [front], reads the object it points to and calls [pop].  A step is one
    access to an atomic index or to a slot. *)
Section threads.
Context {T : Type} (sizeof_T : Z) (NDEBUG : bool).

Inductive producer :=
  | PIdle
  | PChecking (spins : bool) (v : T) (head : Z)    (* [head_] loaded *)
  | PRoom (v : T) (head : Z)                       (* not full *)
  | PBuilt (v : T) (head : Z).                     (* object constructed *)

Inductive consumer :=
  | CIdle
  | CFront (tail : Z)                              (* [front] returned the slot of [tail] *)
  | CHolds (tail : Z) (v : T)                      (* the object was read *)
  | CPopping (tail : Z) (v : T)                    (* in [pop], past the assertion *)
  | CRaw (tail : Z) (v : T).                       (* object destroyed *)

Record conc := Conc {
  s_capacity : Z;
  s_head : list Z;               (* modification order of [head_] *)
  s_tail : list Z;               (* modification order of [tail_] *)
  s_slots : list (cell (option T));
  s_pview : nat;
  s_cview : nat;
  s_prod : producer;
  s_cons : consumer;
  s_bad : bool;                  (* a race, a failed assertion or an object misused *)
  s_sent : list T;
  s_recvd : list T
}.

Definition conc_init (q : t) : conc :=
  Conc (capacity_ q) [head_ q] [tail_ q] ((λ o, Cell o 0 0) <$> slots_ q) 0 0
    PIdle CIdle false [] [].

Definition set_prod (s : conc) (pview : nat) (p : producer) : conc :=
  Conc (s_capacity s) (s_head s) (s_tail s) (s_slots s) pview (s_cview s) p (s_cons s)
    (s_bad s) (s_sent s) (s_recvd s).
Definition set_cons (s : conc) (cview : nat) (c : consumer) : conc :=
  Conc (s_capacity s) (s_head s) (s_tail s) (s_slots s) (s_pview s) cview (s_prod s) c
    (s_bad s) (s_sent s) (s_recvd s).
Definition set_slot (s : conc) (j : nat) (c : cell (option T)) (p : producer) (k : consumer)
    (bad : bool) : conc :=
  Conc (s_capacity s) (s_head s) (s_tail s) (<[j := c]> (s_slots s)) (s_pview s) (s_cview s) p k
    (s_bad s || bad) (s_sent s) (s_recvd s).
Definition fail (s : conc) : conc :=
  Conc (s_capacity s) (s_head s) (s_tail s) (s_slots s) (s_pview s) (s_cview s) (s_prod s)
    (s_cons s) true (s_sent s) (s_recvd s).

Inductive label :=
  | Emplace (spins : bool) (v : T)    (* [head_.load(relaxed)] *)
  | LoadTail (p : nat)                (* [tail_.load(acquire)] and the comparison *)
  | Construct
  | StoreHead                         (* [head_.store(release)] *)
  | Front (p : nat)                   (* [head_.load(acquire)] *)
  | Read                              (* the caller reads the object *)
  | Pop (p : nat)                     (* the assertion of [pop] *)
  | Destroy
  | StoreTail.                        (* [tail_.store(release)] *)

Definition index (i : Z) : nat := Z.to_nat (u64 (i + kPadding sizeof_T)).

Definition prod_step (s : conc) (l : label) : option conc :=
  match l, s_prod s with
  | Emplace spins v, PIdle => Some (set_prod s (s_pview s) (PChecking spins v (newest (s_head s))))
  | LoadTail p, PChecking spins v head =>
      tail ← acquire (s_tail s) (s_pview s) p;
      Some (set_prod s p
        (if next (s_capacity s) head =? tail
         then if spins then PChecking spins v head else PIdle
         else PRoom v head))
  | Construct, PRoom v head =>
      Some match s_slots s !! index head with
      | Some c =>
          set_slot s (index head) (Cell (Some v) (length (s_head s)) (c_cons c)) (PBuilt v head)
            (s_cons s) (bool_decide (s_pview s < c_cons c)%nat || bool_decide (is_Some (c_val c)))
      | None => fail s
      end
  | StoreHead, PBuilt v head =>
      Some (Conc (s_capacity s) (s_head s ++ [next (s_capacity s) head]) (s_tail s) (s_slots s)
              (s_pview s) (s_cview s) PIdle (s_cons s) (s_bad s) (s_sent s ++ [v]) (s_recvd s))
  | _, _ => None
  end.

Definition cons_step (s : conc) (l : label) : option conc :=
  match l, s_cons s with
  | Front p, CIdle =>
      let tail := newest (s_tail s) in
      head ← acquire (s_head s) (s_cview s) p;
      Some (set_cons s p (if head =? tail then CIdle else CFront tail))
  | Read, CFront tail =>
      Some match s_slots s !! index tail with
      | Some (Cell (Some v) pe _) =>
          set_slot s (index tail) (Cell (Some v) pe (length (s_tail s))) (s_prod s)
            (CHolds tail v) (bool_decide (s_cview s < pe)%nat)
      | _ => fail s
      end
  | Pop p, CHolds tail v =>
      if NDEBUG then Some (set_cons s (s_cview s) (CPopping tail v)) else
      head ← acquire (s_head s) (s_cview s) p;
      Some (if head =? tail then fail s else set_cons s p (CPopping tail v))
  | Destroy, CPopping tail v =>
      Some match s_slots s !! index tail with
      | Some (Cell (Some _) pe _) =>
          set_slot s (index tail) (Cell None pe (length (s_tail s))) (s_prod s)
            (CRaw tail v) (bool_decide (s_cview s < pe)%nat)
      | _ => fail s
      end
  | StoreTail, CRaw tail v =>
      Some (Conc (s_capacity s) (s_head s) (s_tail s ++ [next (s_capacity s) tail]) (s_slots s)
              (s_pview s) (s_cview s) (s_prod s) CIdle (s_bad s) (s_sent s) (s_recvd s ++ [v]))
  | _, _ => None
  end.

Definition conc_step (s : conc) (l : label) : option conc :=
  match prod_step s l with Some s' => Some s' | None => cons_step s l end.

Fixpoint conc_run (s : conc) (ls : list label) : option conc :=
  match ls with
  | [] => Some s
  | l :: ls => s' ← conc_step s l; conc_run s' ls
  end.

(** *** The threads follow the protocol, with one slot kept free *)

Definition prod_sim (M : nat) (p : producer) (r : @prod_phase (option T)) (head : nat) : Prop :=
  match p, r with
  | PIdle, Spsc.PIdle => True
  | PChecking _ _ h, Spsc.PIdle => h = enc M head
  | PRoom v h, PWrite xs k => xs = [Some v] ∧ k = 0%nat ∧ h = enc M head
  | PBuilt v h, PWrite xs k => xs = [Some v] ∧ k = 1%nat ∧ h = enc M head
  | _, _ => False
  end.

Definition cons_sim (M : nat) (c : consumer) (r : @cons_phase (option T)) (tail : nat) : Prop :=
  match c, r with
  | CIdle, Spsc.CIdle => True
  | CFront t, CRead n ys d => n = 1%nat ∧ ys = [] ∧ d = 0%nat ∧ t = enc M tail
  | CHolds t v, CRead n ys d => n = 1%nat ∧ ys = [Some v] ∧ d = 0%nat ∧ t = enc M tail
  | CPopping t v, CRead n ys d => n = 1%nat ∧ ys = [Some v] ∧ d = 0%nat ∧ t = enc M tail
  | CRaw t v, CRead n ys d => n = 1%nat ∧ ys = [Some v] ∧ d = 1%nat ∧ t = enc M tail
  | _, _ => False
  end.

Record sim (M : nat) (s : conc) (r : @ring (option T)) : Prop := {
  sim_capacity : s_capacity s = M;
  sim_head : s_head s = enc M <$> r_in r;
  sim_tail : s_tail s = enc M <$> r_out r;
  sim_slots : ∃ pre post, s_slots s = pre ++ r_cells r ++ post ∧
                          Z.of_nat (length pre) = kPadding sizeof_T;
  sim_pview : s_pview s = r_pview r;
  sim_cview : s_cview s = r_cview r;
  sim_prod : prod_sim M (s_prod s) (r_prod r) (r_head r);
  sim_cons : cons_sim M (s_cons s) (r_cons r) (r_tail r);
  sim_bad : s_bad s = r_race r;
  sim_sent : Some <$> s_sent s = r_sent r;
  sim_recvd : Some <$> s_recvd s = r_recvd r
}.

Section simulation.
Context (Hsizeof : 0 < sizeof_T) (M : nat) (HM : addressable sizeof_T M).

Abbreviation step := (@ring_step (option T) M (M - 1) true None).
Abbreviation inv := (@ring_inv (option T) M (M - 1) true None).

Lemma dq_M_bounds : 2 <= M < 2 ^ 63.
Proof.
  pose proof (addressable_bound _ Hsizeof _ HM). pose proof (kPadding_pos _ Hsizeof).
  destruct HM. lia.
Qed.

Lemma dq_step_inv r r' : inv r → step r r' → inv r'.
Proof. pose proof dq_M_bounds. apply ring_step_inv; lia. Qed.

Lemma dq_steps_inv r r' : inv r → rtc step r r' → inv r'.
Proof. intros I. apply rtc_invariant; [done|]. intros. by eapply dq_step_inv. Qed.

Lemma dq_bounds r :
  inv r → (r_tail r + claimed r ≤ r_head r ∧ r_head r + length (pending r) ≤ r_tail r + (M - 1) ∧
           killed r ≤ length (fetched r) ≤ claimed r ∧ written r ≤ length (pending r))%nat.
Proof. pose proof dq_M_bounds. apply inv_bounds; lia. Qed.

Lemma next_enc i : next M (enc M i) = enc M (i + 1).
Proof.
  pose proof dq_M_bounds. unfold enc. rewrite <- (length_replicate M ()) at 1.
  assert (i `mod` M < M)%nat by (apply Nat.mod_upper_bound; lia).
  rewrite next_slot by (rewrite length_replicate; lia).
  unfold slot. rewrite length_replicate. by rewrite Nat.Div0.add_mod_idemp_l.
Qed.

(** The slot of position [i], looked up and stored to. *)
Lemma slot_cell s r i :
  sim M s r → inv r →
  ∃ c, r_cells r !! (i `mod` M)%nat = Some c ∧ s_slots s !! index (enc M i) = Some c ∧
    ∀ c', ∃ pre post,
      <[index (enc M i) := c']> (s_slots s) = pre ++ <[(i `mod` M)%nat := c']> (r_cells r) ++ post ∧
      Z.of_nat (length pre) = kPadding sizeof_T.
Proof.
  intros S I. pose proof dq_M_bounds. pose proof (addressable_bound _ Hsizeof _ HM).
  assert (Hlt : (i `mod` M < M)%nat) by (apply Nat.mod_upper_bound; lia).
  pose proof (inv_cells _ _ _ _ _ I) as Hc.
  destruct (lookup_lt_is_Some_2 (r_cells r) (i `mod` M)) as [c Hcell]; [by rewrite Hc|].
  exists c. split; [done|]. destruct (sim_slots _ _ _ S) as (pre & post & -> & Hpre).
  assert (Hix : index (enc M i) = (length pre + i `mod` M)%nat).
  { unfold index, enc. generalize dependent (i `mod` M)%nat. intros j Hj _.
    rewrite wrap_small; [lia|]. unfold fits. lia. }
  rewrite Hix. split.
  - rewrite lookup_app_r by lia. rewrite Nat.add_comm, Nat.add_sub.
    by apply lookup_app_l_Some.
  - intros c'. exists pre, post. split; [|done].
    by rewrite insert_app_r, insert_app_l by (by rewrite Hc).
Qed.

Lemma load_tail_sim s r spins v h p s' :
  sim M s r → inv r → s_prod s = PChecking spins v h →
  prod_step s (LoadTail p) = Some s' → ∃ r', rtc step r r' ∧ sim M s' r'.
Proof.
  intros S I Hp Hs. pose proof dq_M_bounds. unfold prod_step in Hs. rewrite Hp in Hs.
  destruct S as [S1 S2 S3 S4 S5 S6 S7 S8 S9 S10 S11].
  rewrite Hp in S7. destruct (r_prod r) eqn:Hr; [|done]. simpl in S7. subst h.
  rewrite S3, S5 in Hs. apply bind_Some in Hs as (x & (o & Ho & ->)%acquire_mod & [= <-]).
  assert (Hstep := p_acquire M (M - 1) true None r p o Ho).
  set (r1 := Ring _ _ _ _ _ _ _ _ _ _) in Hstep.
  assert (I1 : inv r1) by (eapply dq_step_inv; [exact I|exact Hstep]).
  apply acquire_Some in Ho as [_ Ho].
  pose proof (ascending_newest _ _ _ (inv_out _ _ _ _ _ I) Ho) as Hoo.
  pose proof (dq_bounds r I) as B. destruct (inv_pview _ _ _ _ _ I1) as (o' & Ho' & Hroom).
  assert (o' = o) as -> by (simpl in Ho'; congruence).
  unfold pending in Hroom. simpl in Hroom. rewrite Hr in Hroom. simpl in Hroom.
  unfold r_tail in B. change (r_head r1) with (r_head r) in Hroom.
  rewrite S1, next_enc, <- (enc_lap M o), enc_eq by lia.
  case_bool_decide as E.
  - exists r1. split; [by apply rtc_once|].
    constructor; try done; destruct spins; simpl; by rewrite Hr.
  - eexists. split.
    + eapply rtc_l; [exact Hstep|]. apply rtc_once.
      apply (p_begin _ _ _ _ r1 [Some v] o); [done|done|done|].
      change (r_head r1) with (r_head r). simpl. lia.
    + by constructor.
Qed.

Lemma front_sim s r p s' :
  sim M s r → inv r → s_cons s = CIdle →
  cons_step s (Front p) = Some s' → ∃ r', rtc step r r' ∧ sim M s' r'.
Proof.
  intros S I Hp Hs. pose proof dq_M_bounds. unfold cons_step in Hs. rewrite Hp in Hs.
  destruct S as [S1 S2 S3 S4 S5 S6 S7 S8 S9 S10 S11].
  rewrite Hp in S8. destruct (r_cons r) eqn:Hr; [|done].
  rewrite S2, S6 in Hs. apply bind_Some in Hs as (x & (i & Hi & ->)%acquire_mod & [= <-]).
  assert (Hstep := c_acquire M (M - 1) true None r p i Hi).
  set (r1 := Ring _ _ _ _ _ _ _ _ _ _) in Hstep.
  assert (I1 : inv r1) by (eapply dq_step_inv; [exact I|exact Hstep]).
  apply acquire_Some in Hi as [_ Hi].
  pose proof (ascending_newest _ _ _ (inv_in _ _ _ _ _ I) Hi) as Hii.
  pose proof (dq_bounds r I) as B. destruct (inv_cview _ _ _ _ _ I1) as (i' & Hi' & Hroom).
  assert (i' = i) as -> by (simpl in Hi'; congruence).
  change (r_tail r1) with (r_tail r) in Hroom. unfold r_head in B.
  rewrite S3, newest_mod by apply (inv_out _ _ _ _ _ I).
  fold (r_tail r). rewrite enc_eq by lia. case_bool_decide as E.
  - exists r1. split; [by apply rtc_once|]. constructor; try done. simpl. by rewrite Hr.
  - eexists. split.
    + eapply rtc_l; [exact Hstep|]. apply rtc_once.
      apply (c_begin _ _ _ _ r1 1 i); [done|done|lia|].
      change (r_tail r1) with (r_tail r). lia.
    + by constructor.
Qed.

(** What the consumer finds in the slot it was given. *)
Lemma live_cell s r n ys c :
  sim M s r → inv r → r_cons r = CRead n ys 0 → n = 1%nat →
  r_cells r !! (r_tail r `mod` M)%nat = Some c → ∃ v, c_val c = Some v.
Proof.
  intros S I Hr -> Hc. pose proof (dq_bounds r I) as B.
  unfold claimed in B. rewrite Hr in B.
  assert (L : (r_sent r ++ pending r) !! r_tail r = Some (c_val c)).
  { apply (inv_live _ _ _ _ _ I); [|done]. unfold killed. rewrite Hr. lia. }
  rewrite lookup_app_l in L by (rewrite (inv_sent _ _ _ _ _ I); lia).
  rewrite <- (sim_sent _ _ _ S), list_lookup_fmap in L.
  apply fmap_Some in L as (v & _ & ->). eauto.
Qed.

Lemma construct_sim s r s' :
  sim M s r → inv r → prod_step s Construct = Some s' → ∃ r', rtc step r r' ∧ sim M s' r'.
Proof.
  intros S I Hs. pose proof S as S'. unfold prod_step in Hs.
  destruct (s_prod s) as [| |v h|] eqn:Hp; try done. injection Hs as <-.
  destruct S as [S1 S2 S3 S4 S5 S6 S7 S8 S9 S10 S11].
  rewrite Hp in S7. destruct (r_prod r) as [|xs k] eqn:Hr; [done|].
  destruct S7 as (-> & -> & ->).
  destruct (slot_cell s r (r_head r) S' I) as (c & Hc & -> & Hset).
  pose proof (dq_bounds r I) as B. unfold pending in B. rewrite Hr in B. simpl in B.
  assert (Hdead : c_val c = None).
  { apply (inv_dead _ _ _ _ _ I (r_head r)); [done| |done].
    unfold written, killed. rewrite Hr. pose proof dq_M_bounds. destruct (r_cons r); lia. }
  eexists. split.
  - apply rtc_once. eapply (p_write _ _ _ _ r _ 0 (Some v)); [exact Hr|done|].
    rewrite Nat.add_0_r. exact Hc.
  - rewrite Nat.add_0_r, S2, length_fmap, S5, Hdead.
    constructor; try done; simpl; [|by rewrite orb_false_r, S9].
    apply Hset.
Qed.

Lemma read_sim s r s' :
  sim M s r → inv r → cons_step s Read = Some s' → ∃ r', rtc step r r' ∧ sim M s' r'.
Proof.
  intros S I Hs. pose proof S as S'. unfold cons_step in Hs.
  destruct (s_cons s) as [|t| | |] eqn:Hp; try done. injection Hs as <-.
  destruct S as [S1 S2 S3 S4 S5 S6 S7 S8 S9 S10 S11].
  rewrite Hp in S8. destruct (r_cons r) as [|n ys d] eqn:Hr; [done|].
  destruct S8 as (-> & -> & -> & ->).
  destruct (slot_cell s r (r_tail r) S' I) as (c & Hc & -> & Hset).
  destruct (live_cell s r _ _ c S' I Hr eq_refl Hc) as [v Hv].
  destruct c as [o pe ce]. simpl in Hv. subst o. eexists. split.
  - apply rtc_once. eapply (c_read _ _ _ _ r); [exact Hr|simpl; lia|].
    simpl. rewrite Nat.add_0_r. exact Hc.
  - simpl. rewrite Nat.add_0_r, S3, length_fmap, S6, <- S9.
    constructor; try done. simpl. apply Hset.
Qed.

Lemma destroy_sim s r s' :
  sim M s r → inv r → cons_step s Destroy = Some s' → ∃ r', rtc step r r' ∧ sim M s' r'.
Proof.
  intros S I Hs. pose proof S as S'. unfold cons_step in Hs.
  destruct (s_cons s) as [| | |t w|] eqn:Hp; try done. injection Hs as <-.
  destruct S as [S1 S2 S3 S4 S5 S6 S7 S8 S9 S10 S11].
  rewrite Hp in S8. destruct (r_cons r) as [|n ys d] eqn:Hr; [done|].
  destruct S8 as (-> & -> & -> & ->).
  destruct (slot_cell s r (r_tail r) S' I) as (c & Hc & -> & Hset).
  destruct (live_cell s r _ _ c S' I Hr eq_refl Hc) as [v Hv].
  destruct c as [o pe ce]. simpl in Hv. subst o. eexists. split.
  - apply rtc_once. eapply (c_destroy _ _ _ _ r _ _ 0); [exact Hr|simpl; lia|done|].
    rewrite Nat.add_0_r. exact Hc.
  - simpl. rewrite Nat.add_0_r, S3, length_fmap, S6, <- S9.
    constructor; try done. simpl. apply Hset.
Qed.

Lemma pop_sim s r p s' :
  sim M s r → inv r → cons_step s (Pop p) = Some s' → ∃ r', rtc step r r' ∧ sim M s' r'.
Proof.
  intros S I Hs. unfold cons_step in Hs.
  destruct (s_cons s) as [| |t v| |] eqn:Hp; try done.
  destruct S as [S1 S2 S3 S4 S5 S6 S7 S8 S9 S10 S11].
  rewrite Hp in S8. destruct (r_cons r) as [|n ys d] eqn:Hr; [done|].
  destruct S8 as (-> & -> & -> & ->). destruct NDEBUG.
  { injection Hs as <-. exists r. split; [done|]. constructor; try done. by rewrite Hr. }
  rewrite S2, S6 in Hs. apply bind_Some in Hs as (x & (i & Hi & ->)%acquire_mod & [= <-]).
  assert (Hstep := c_acquire M (M - 1) true None r p i Hi).
  set (r1 := Ring _ _ _ _ _ _ _ _ _ _) in Hstep.
  assert (I1 : inv r1) by (eapply dq_step_inv; [exact I|exact Hstep]).
  apply acquire_Some in Hi as [_ Hi].
  pose proof (ascending_newest _ _ _ (inv_in _ _ _ _ _ I) Hi) as Hii.
  pose proof (dq_bounds r I) as B. destruct (inv_cview _ _ _ _ _ I1) as (i' & Hi' & Hroom).
  assert (i' = i) as -> by (simpl in Hi'; congruence).
  unfold claimed in Hroom. simpl in Hroom. rewrite Hr in Hroom.
  change (r_tail r1) with (r_tail r) in Hroom. unfold r_head in B. pose proof dq_M_bounds.
  rewrite enc_eq, bool_decide_false by lia.
  exists r1. split; [by apply rtc_once|]. constructor; try done. simpl. by rewrite Hr.
Qed.

Lemma store_sim s r l s' :
  sim M s r → l = StoreHead ∨ l = StoreTail → conc_step s l = Some s' →
  ∃ r', rtc step r r' ∧ sim M s' r'.
Proof.
  intros S Hl Hs. destruct S as [S1 S2 S3 S4 S5 S6 S7 S8 S9 S10 S11].
  destruct Hl as [-> | ->]; unfold conc_step in Hs; simpl in Hs.
  - destruct (s_prod s) as [| | |v h] eqn:Hp; try done. injection Hs as <-.
    destruct (r_prod r) as [|xs k] eqn:Hr; [done|]. destruct S7 as (-> & -> & ->).
    eexists. split; [by apply rtc_once, (p_publish _ _ _ _ r _ Hr)|].
    constructor; simpl; try done.
    + by rewrite S1, next_enc, S2, fmap_app.
    + by rewrite fmap_app, S10.
  - destruct (s_cons s) as [| | | |t v] eqn:Hp; try done. injection Hs as <-.
    destruct (r_cons r) as [|n ys d] eqn:Hr; [done|]. destruct S8 as (-> & -> & -> & ->).
    eexists. split; [by apply rtc_once, (c_publish _ _ _ _ r _ _ _ Hr)|].
    constructor; simpl; try done.
    + by rewrite S1, next_enc, S3, fmap_app.
    + by rewrite fmap_app, S11.
Qed.

Lemma dq_conc_step_sim s r l s' :
  sim M s r → inv r → conc_step s l = Some s' → ∃ r', rtc step r r' ∧ sim M s' r'.
Proof.
  intros S I Hs. destruct l; try (eapply store_sim; [exact S| |exact Hs]; solve [by left|by right]); unfold conc_step in Hs.
  - simpl in Hs. destruct (s_prod s) eqn:Hp; try done. injection Hs as <-.
    exists r. split; [done|]. pose proof (inv_in _ _ _ _ _ I) as [Hne _]. destruct S.
    constructor; try done. simpl. rewrite Hp in *. destruct (r_prod r); [|done].
    by rewrite sim_head0, newest_mod.
  - destruct (prod_step s (LoadTail p)) eqn:E; [injection Hs as ->|done].
    destruct (s_prod s) eqn:Hp; simpl in E; rewrite Hp in E; try done.
    eapply load_tail_sim; [done..|]. simpl. by rewrite Hp.
  - destruct (prod_step s Construct) eqn:E; [injection Hs as ->|done].
    by eapply construct_sim.
  - simpl prod_step in Hs. destruct (s_cons s) eqn:Hp; try (by simpl in Hs; rewrite Hp in Hs).
    eapply front_sim; [done..|exact Hs].
  - eapply read_sim; [done..|exact Hs].
  - eapply pop_sim; [done..|exact Hs].
  - eapply destroy_sim; [done..|exact Hs].
Qed.

Lemma dq_conc_run_sim ls : ∀ s r s',
  sim M s r → inv r → conc_run s ls = Some s' → ∃ r', rtc step r r' ∧ sim M s' r' ∧ inv r'.
Proof.
  induction ls as [|l ls IH]; intros s r s' S I Hs; simpl in Hs.
  { injection Hs as <-. by exists r. }
  apply bind_Some in Hs as (s1 & Hs1 & Hs).
  destruct (dq_conc_step_sim s r l s1 S I Hs1) as (r1 & Hr1 & S1).
  destruct (IH s1 r1 s' S1 (dq_steps_inv _ _ I Hr1) Hs) as (r2 & Hr2 & S2 & I2).
  exists r2. split_and!; [by etrans|done|done].
Qed.

Lemma dq_conc_init_sim q : create sizeof_T M = Ok q → sim M (conc_init q) (ring_init M None).
Proof.
  intros Hq. unfold create in Hq. pose proof dq_M_bounds.
  rewrite (proj2 (Z.ltb_ge M 2)), allocate_eq in Hq by (done || lia). injection Hq as <-.
  assert (E : [0] = enc M <$> [0%nat]).
  { unfold enc. simpl. by rewrite Nat.Div0.mod_0_l. }
  constructor; try done. simpl. rewrite Nat2Z.id, !fmap_app, fmap_replicate.
  eexists _, _. split; [done|]. rewrite length_fmap. by apply length_padding.
Qed.

End simulation.

Lemma dq_conc_run_reachable c q ls s :
  0 < sizeof_T → addressable sizeof_T c → create sizeof_T c = Ok q →
  conc_run (conc_init q) ls = Some s →
  ∃ M r, c = Z.of_nat M ∧ (2 ≤ M)%nat ∧ sim M s r ∧ @reachable (option T) M (M - 1) true None r.
Proof.
  intros Hsz Hc Hq Hs. exists (Z.to_nat c).
  assert (E : c = Z.of_nat (Z.to_nat c)) by (destruct Hc; lia).
  assert (2 ≤ Z.to_nat c)%nat by (destruct Hc; lia).
  rewrite E in Hc, Hq. destruct (dq_conc_run_sim Hsz _ Hc ls _ _ s (dq_conc_init_sim Hsz _ Hc q Hq))
    as (r & Hrtc & S & I); [|done|by exists r].
  apply ring_init_inv; lia.
Qed.
End threads.

(** C34: with one producer thread and one consumer thread, whatever their
    interleaving and whichever index values their acquire loads return, no slot
    is raced on, objects are only constructed in raw slots and only read and
    destroyed while alive, the assertion of [pop] holds, and the consumer
    receives a prefix of what the producer pushed, with at most
    [capacity - 1] elements in between. *)
Theorem queue_spsc_safe {T} sizeof_T NDEBUG c q ls (s : @conc T)
  (Hsizeof : 0 < sizeof_T) (Hc : addressable sizeof_T c)
  (Hq : create sizeof_T c = Ok q) (Hs : conc_run sizeof_T NDEBUG (conc_init q) ls = Some s) :
  s_bad s = false ∧ s_recvd s `prefix_of` s_sent s ∧
  length (s_sent s) <= length (s_recvd s) + (c - 1).
Proof.
  destruct (dq_conc_run_reachable _ _ _ _ _ _ Hsizeof Hc Hq Hs) as (M & r & -> & HM & S & R).
  apply reachable_fifo in R as (H1 & H2 & H3); [|lia|lia].
  rewrite (sim_bad _ _ _ _ S). rewrite <- (sim_sent _ _ _ _ S), <- (sim_recvd _ _ _ _ S) in *.
  rewrite !length_fmap in H3. split_and!; [done| |lia].
  destruct H2 as [k Hk]. exists (drop (length (s_recvd s)) (s_sent s)).
  apply (inj (fmap Some)). rewrite fmap_app, fmap_drop, Hk.
  f_equal. rewrite drop_app_length'; [done|]. by rewrite length_fmap.
Qed.

(** The producer fills a queue of two slots, spins while the consumer holds the
    only object, and goes on once it has seen the new [tail_]. *)
Definition spsc_schedule : list (@label Z) :=
  [Emplace false 7; LoadTail 0; Construct; StoreHead; Front 0; Front 1; Emplace true 8; LoadTail 0;
   Read; LoadTail 0; Pop 1; Destroy; StoreTail; LoadTail 0; LoadTail 1; Construct; Front 1;
   StoreHead; Front 2; Read].

Lemma queue_spsc_safe_witness :
  ∃ q s, create 8 2 = Ok q ∧ conc_run 8 false (conc_init q) spsc_schedule = Some s ∧
    s_sent s = [7; 8] ∧ s_recvd s = [7] ∧
    s_bad s = false ∧ s_recvd s `prefix_of` s_sent s ∧
    length (s_sent s) <= length (s_recvd s) + (2 - 1).
Proof.
  destruct (create 8 2) as [q| | |] eqn:Hq; [|by vm_compute in Hq..].
  destruct (conc_run 8 false (conc_init q) spsc_schedule) as [s|] eqn:Hs;
    [|by vm_compute in Hq; injection Hq as <-; vm_compute in Hs].
  exists q, s. split; [done|]. split; [done|].
  assert (s_sent s = [7; 8] ∧ s_recvd s = [7]) as [E1 E2].
  { vm_compute in Hq. injection Hq as <-. vm_compute in Hs. by injection Hs as <-. }
  split; [done|]. split; [done|]. apply (queue_spsc_safe 8 false 2 q spsc_schedule s);
    [lia|by split; vm_compute|done|done].
Defined.
End DMAtomicQueue.
