(* ===== verification/AtomicQueue.v ===== *)
(** * [CAtomicQueue] (atomic_queue.h): a ring of owned heap pointers

    The slots are [std::atomic<T*>]; [try_push] allocates a copy of the value
    and [pop] deletes it.  The heap is part of the model, so that a double
    delete, a dangling dereference or a leak can be stated. *)
From S2P Require Import Prelude RingBuf TryQueue.
Local Open Scope Z_scope.

Module AtomicQueue.
(** A [T*]; [None] is the null pointer. *)
Abbreviation pointer := (option nat).

Section queue.
Context {T : Type}.

Record t := mk {
  capacity : Z;
  size : Z;
  head : Z;
  tail : Z;
  buffer : list pointer;
  heap : gmap nat T;           (* the objects allocated and not yet deleted *)
  next_addr : nat              (* addresses from here on were never used *)
}.

(** [x % capacity] of [size_t]. *)
Definition umod (x capacity : Z) : result Z := if capacity =? 0 then UB else Ok (x mod capacity).

Definition create (capacity : Z) : t :=
  mk capacity 0 0 0 (replicate (Z.to_nat capacity) None) ∅ 0.

(** [delete p]: nothing for a null pointer, undefined for a dead object. *)
Definition delete_ (h : gmap nat T) (p : pointer) : result (gmap nat T) :=
  match p with
  | None => Ok h
  | Some a => match h !! a with Some _ => Ok (delete a h) | None => UB end
  end.

(** [~CAtomicQueue]: the array of pointers is deleted; what remains of the heap. *)
Definition destroy (q : t) : gmap nat T := heap q.

Definition try_push (q : t) (value : T) : result (t * bool) :=
  let current_tail := tail q in
  next_tail ← umod (u64 (current_tail + 1)) (capacity q);
  if next_tail =? head q then Ok (q, false) else
  let a := next_addr q in
  buffer ← awrite (buffer q) current_tail (Some a);
  Ok (mk (capacity q) (u64 (size q + 1)) (head q) next_tail buffer (<[a := value]> (heap q)) (S a),
      true).

Definition pop (q : t) : result (t * bool) :=
  let current_head := head q in
  if current_head =? tail q then Ok (q, false) else
  value ← aread (buffer q) current_head;
  buffer ← awrite (buffer q) current_head None;
  match value with
  | None => Ok (mk (capacity q) (size q) (head q) (tail q) buffer (heap q) (next_addr q), false)
  | Some _ =>
      head ← umod (u64 (current_head + 1)) (capacity q);
      heap ← delete_ (heap q) value;
      Ok (mk (capacity q) (u64 (size q - 1)) head (tail q) buffer heap (next_addr q), true)
  end.

Definition front (q : t) : result pointer :=
  let current_head := head q in
  if current_head =? tail q then Ok None else aread (buffer q) current_head.

Definition empty (q : t) : bool := head q =? tail q.

(** The caller's [*p]. *)
Definition deref (q : t) (p : pointer) : result T :=
  match p with
  | Some a => match heap q !! a with Some x => Ok x | None => UB end
  | None => UB
  end.

(** ** Correctness *)
Record repr (q : t) (limit : nat) (items : list T) : Prop := {
  re_capacity : capacity q = S limit ∧ S limit < 2 ^ 63;
  re_size : size q = length items;
  re_owned : ∃ (h t : nat) (ps : list nat),
    head q = h ∧ tail q = t ∧ length (buffer q) = S limit ∧
    gap_ring (λ p, p = None) (buffer q) h t (Some <$> ps) ∧
    NoDup ps ∧ Forall2 (λ a x, heap q !! a = Some x) ps items ∧
    (∀ a, is_Some (heap q !! a) ↔ a ∈ ps) ∧ Forall (λ a, a < next_addr q)%nat ps
}.

Lemma aq_create_ok (n : nat) : S n < 2 ^ 63 → repr (create (S n)) n [].
Proof.
  intros Hn. unfold create. rewrite Nat2Z.id. constructor; [done|done|].
  exists 0%nat, 0%nat, []. split; [done|]. split; [done|].
  split; [by cbn [buffer]; rewrite length_replicate|]. cbn [buffer]. split_and!; try by constructor.
  - apply gap_init; [rewrite length_replicate; lia|].
    intros p Hp. by apply elem_of_replicate in Hp as [-> _].
  - intros a. simpl. rewrite lookup_empty. split; [by intros []|by intros ?%not_elem_of_nil].
Qed.

Lemma aq_step_index (B : list pointer) limit (i : nat) :
  length B = S limit → (i < length B)%nat → S limit < 2 ^ 63 →
  umod (u64 (i + 1)) (S limit) = Ok (Z.of_nat (slot B (i + 1))).
Proof.
  intros HB Hi Hl. unfold umod. rewrite (proj2 (Z.eqb_neq _ _)) by lia.
  rewrite wrap_small by (unfold fits; lia). unfold slot. rewrite HB.
  rewrite Nat2Z.inj_mod. do 2 f_equal. lia.
Qed.

Lemma Forall2_fresh (hp : gmap nat T) ps items a x :
  a ∉ ps → Forall2 (λ b y, hp !! b = Some y) ps items →
  Forall2 (λ b y, <[a := x]> hp !! b = Some y) ps items.
Proof.
  intros Ha HF. induction HF as [|b y ps items Hb HF IH]; constructor.
  - rewrite lookup_insert_ne; [done|]. intros ->. apply Ha. left.
  - apply IH. intros ?. apply Ha. by right.
Qed.

Lemma Forall2_delete (hp : gmap nat T) ps items a :
  a ∉ ps → Forall2 (λ b y, hp !! b = Some y) ps items →
  Forall2 (λ b y, delete a hp !! b = Some y) ps items.
Proof.
  intros Ha HF. induction HF as [|b y ps items Hb HF IH]; constructor.
  - rewrite lookup_delete_ne; [done|]. intros ->. apply Ha. left.
  - apply IH. intros ?. apply Ha. by right.
Qed.

Lemma try_push_ok q limit items x :
  repr q limit items →
  if decide (length items < limit)%nat
  then ∃ q', try_push q x = Ok (q', true) ∧ repr q' limit (items ++ [x])
  else try_push q x = Ok (q, false).
Proof.
  intros [[Hc Hlim] Hs (h & t' & ps & Hh & Ht & Hl & G & Hnd & HF & Hdom & Hlt)].
  pose proof (gap_tail_lt _ _ _ _ _ G) as Htl. pose proof (gap_full _ _ _ _ _ G) as Hfull.
  pose proof (gap_fit _ _ _ _ _ G) as Hfit. pose proof (Forall2_length _ _ _ HF) as Hlen.
  rewrite length_fmap in Hfull, Hfit.
  unfold try_push. rewrite Ht, Hh, Hc, (aq_step_index _ _ _ Hl Htl Hlim), !bind_ok.
  case_decide as Hroom.
  - rewrite (proj2 (Z.eqb_neq _ _)) by (intros ?%Nat2Z.inj%Hfull; lia).
    rewrite awrite_ok, bind_ok by done. eexists. split; [done|].
    assert (Hnew : next_addr q ∉ ps)
      by (intros Hin; rewrite Forall_forall in Hlt; apply Hlt in Hin; lia).
    constructor; simpl; [done|rewrite length_app, Hs, wrap_small; simpl; [lia|unfold fits; lia]|].
    exists h, (slot (buffer q) (t' + 1)), (ps ++ [next_addr q]). simpl.
    split_and!; try done.
    + by rewrite length_insert.
    + rewrite fmap_app. apply gap_push; [done|]. rewrite length_fmap. lia.
    + apply NoDup_app. split; [done|]. split; [|apply NoDup_singleton].
      by intros a Ha ->%list_elem_of_singleton.
    + apply Forall2_app; [by apply Forall2_fresh|]. repeat constructor. apply lookup_insert_eq.
    + intros a. rewrite elem_of_app, list_elem_of_singleton, lookup_insert_is_Some, <- Hdom.
      clear. destruct (decide (a = next_addr q)); intuition congruence.
    + apply Forall_app_2; [|by apply Forall_singleton; lia].
      eapply Forall_impl; [done|]. simpl. lia.
  - assert (Heq : slot (buffer q) (t' + 1) = h) by (apply Hfull; lia).
    by rewrite Heq, Z.eqb_refl.
Qed.

Lemma aq_front_ok q limit items :
  repr q limit items →
  match items with
  | [] => front q = Ok None
  | x :: _ => ∃ p, front q = Ok p ∧ deref q p = Ok x
  end.
Proof.
  intros [[Hc Hlim] Hs (h & t' & ps & Hh & Ht & Hl & G & Hnd & HF & Hdom & Hlt)].
  pose proof (gap_empty _ _ _ _ _ G) as He. unfold front. rewrite Hh, Ht.
  destruct HF as [|a x ps items Ha HF].
  - by rewrite (proj2 He), Z.eqb_refl.
  - rewrite (proj2 (Z.eqb_neq _ _)) by (intros E%Nat2Z.inj; by apply He in E).
    exists (Some a). rewrite (aread_ok _ _ (Some a)); [|by eapply gap_front].
    split; [done|]. unfold deref. by rewrite Ha.
Qed.

Lemma aq_pop_ok q limit items :
  repr q limit items →
  match items with
  | [] => pop q = Ok (q, false)
  | _ :: items => ∃ q', pop q = Ok (q', true) ∧ repr q' limit items
  end.
Proof.
  intros [[Hc Hlim] Hs (h & t' & ps & Hh & Ht & Hl & G & Hnd & HF & Hdom & Hlt)].
  pose proof (gap_empty _ _ _ _ _ G) as He. pose proof (gap_head _ _ _ _ _ G) as Hhl.
  pose proof (gap_fit _ _ _ _ _ G) as Hfit. rewrite length_fmap in Hfit.
  pose proof (Forall2_length _ _ _ HF) as Hlen.
  unfold pop. rewrite Hh, Ht. destruct HF as [|a x ps items Ha HF].
  { by rewrite (proj2 He), Z.eqb_refl. }
  rewrite (proj2 (Z.eqb_neq _ _)) by (intros E%Nat2Z.inj; by apply He in E).
  rewrite (aread_ok _ _ (Some a)), bind_ok by (by eapply gap_front).
  rewrite awrite_ok, bind_ok, Hc, (aq_step_index _ _ _ Hl Hhl Hlim), bind_ok by done.
  unfold delete_. rewrite Ha, bind_ok. eexists. split; [done|].
  apply NoDup_cons in Hnd as [Hna Hnd]. apply Forall_cons in Hlt as [Hla Hlt].
  simpl in *. constructor; simpl; [done|rewrite Hs, wrap_small; [lia|unfold fits; lia]|].
  exists (slot (buffer q) (h + 1)), t', ps. simpl. split_and!; try done.
  - by rewrite length_insert.
  - by eapply gap_pop.
  - by apply Forall2_delete.
  - intros b. rewrite lookup_delete_is_Some, Hdom, elem_of_cons.
    clear -Hna. intuition congruence.
Qed.

(** Reading and removing the front value: [T x = *q.front(); q.pop();]. *)
Definition take_front (q : t) : result (t * option T) :=
  p ← front q;
  match p with
  | None => Ok (q, None)
  | Some _ => x ← deref q p; '(q, _) ← pop q; Ok (q, Some x)
  end.

#[global] Instance ops : TryQueue t T := {|
  tq_push := try_push; tq_pop := take_front; tq_used q := Ok (size q) |}.

#[global, refine] Instance laws : TryQueueLaws t T := {| tq_repr := repr; tq_item _ := True |}.
Proof.
  - intros q n xs [_ _ (h & t' & ps & _ & _ & Hl & G & _ & HF & _)].
    apply gap_fit in G. rewrite length_fmap, (Forall2_length _ _ _ HF) in G. lia.
  - intros q n xs x R _. by apply try_push_ok.
  - intros q n xs R. pose proof (aq_front_ok q n xs R) as Hf. pose proof (aq_pop_ok q n xs R) as Hp.
    simpl. unfold take_front. destruct xs as [|x xs]; [by rewrite Hf|].
    destruct Hf as (p & -> & Hd). destruct Hp as (q' & Hq' & R'). exists q'. simpl.
    destruct p; [|done]. rewrite Hd, bind_ok, Hq'. done.
  - intros q n xs [_ Hs _]. simpl. by rewrite Hs.
Defined.
End queue.

(** a queue of capacity [n + 1] answers every sequence of [try_push] and
    [front]-and-[pop] calls as a bounded queue of [n] values, with [size] the
    number of values inside and no dangling pointer followed or deleted; but
    the destructor frees only the array, so that every value still inside is
    leaked. *)
Theorem atomic_queue_refines {T} (n : nat) (cs : list (tq_call T)) (Hn : S n < 2 ^ 63) :
  ∃ q, tq_run (create (S n)) cs = Ok (q, (tq_spec_run n [] cs).2) ∧
       Z.of_nat (base.size (destroy q)) = length (tq_spec_run n [] cs).1.
Proof.
  destruct (tq_run_refines cs (create (S n)) n []) as (q & Hr & R).
  { by apply aq_create_ok. }
  { apply Forall_forall. by intros []. }
  exists q. split; [done|].
  destruct R as [_ _ (h & t' & ps & _ & _ & _ & _ & Hnd & HF & Hdom & _)].
  rewrite <- (Forall2_length _ _ _ HF). f_equal. unfold destroy.
  rewrite <- size_dom, <- (size_list_to_set (C := gset nat) ps Hnd). f_equal.
  apply set_eq. intros a. by rewrite elem_of_dom, Hdom, elem_of_list_to_set.
Qed.

Lemma atomic_queue_refines_witness :
  ∃ q, tq_run (create 3) [TryPush 7; TryPush 8; TryPush 9; TryPop; TryPush 9; Used] =
    Ok (q, [Pushed true; Pushed true; Pushed false; Popped (Some 7); Pushed true; Count 2]) ∧
    Z.of_nat (base.size (destroy q)) = 2.
Proof.
  apply (atomic_queue_refines (T := Z) 2
    [TryPush 7; TryPush 8; TryPush 9; TryPop; TryPush 9; Used]). lia.
Defined.
End AtomicQueue.
