(* ===== verification/AtomicQueueThreads.v ===== *)
(** * [CAtomicQueue] with two threads

    atomic_queue.h: one thread in [try_push], one in [front], [pop] and [empty], which
    reads the object [front] points to.  A step is one access to an atomic variable or to
    an object.  An acquire load of the other thread's index may return any value not older
    than the last one seen.  The slots are atomic in the code, but here a thread that
    accesses one before it has synchronised with the other's last access is undefined: that
    this does not happen shows that the code's loads return the last value.  An object
    belongs to the producer until it has stored the pointer, then to the consumer.  They
    follow the protocol of Spsc.v. *)
From S2P Require Import Prelude Spsc AtomicQueue.
Local Open Scope Z_scope.

Module AtomicQueueThreads.
Import AtomicQueue.

Section threads.
Context {T : Type}.

Inductive producer :=
  | Ready
  | HasRoom (v : T) (current_tail next_tail : Z)
  | Stored (v : T) (next_tail : Z)             (* the slot has the pointer *)
  | Published.                                 (* before [++size] *)

Inductive consumer :=
  | Away
  | NotEmpty (current_head : Z)                (* in [front] *)
  | Pointing (p : pointer)                     (* [front] returned [p] *)
  | Reading (p : pointer) (v : T)              (* and the object was read *)
  | Popping (current_head : Z)                 (* in [pop], which found an index to pop *)
  | Taken (p : pointer) (current_head : Z)     (* exchanged *)
  | Deleting (p : pointer)                     (* [head] stored *)
  | Deleted.                                   (* before [--size] *)

(** [s_head] and [s_tail] are all values stored so far, oldest first; [s_pview] and
    [s_cview] are the last ones the producer and the consumer saw of the other's index. *)
Record state := State {
  s_capacity : Z;
  s_size : Z;
  s_head : list Z;
  s_tail : list Z;
  s_buffer : list (cell pointer);
  s_heap : gmap nat T;
  s_next : nat;
  s_pview : nat;
  s_cview : nat;
  s_prod : producer;
  s_cons : consumer;
  s_pushed : list T;             (* published by [try_push] *)
  s_popped : list T              (* deleted by [pop] *)
}.

Definition share (q : t) : state :=
  State (capacity q) (size q) [head q] [tail q] ((λ p, Cell p 0 0) <$> buffer q) (heap q) (next_addr q)
    0 0 Ready Away [] [].

Inductive label :=
  | Push (v : T) (p : nat)       (* [tail.load], [head.load(acquire)], the comparison *)
  | StoreSlot                    (* [buffer[current_tail].store(new T(value))] *)
  | StoreTail
  | CountUp                      (* [++size] *)
  | ProducerEmpty (p : nat)      (* [empty] *)
  | Front (p : nat)              (* [head.load], [tail.load(acquire)], the comparison *)
  | LoadSlot
  | Read                         (* the caller reads the object *)
  | Pop (p : nat)                (* as [Front] *)
  | Exchange
  | StoreHead
  | Delete
  | CountDown                    (* [--size] *)
  | ConsumerEmpty (p : nat).

Definition set_prod (s : state) (pview : nat) (p : producer) : state :=
  State (s_capacity s) (s_size s) (s_head s) (s_tail s) (s_buffer s) (s_heap s) (s_next s)
    pview (s_cview s) p (s_cons s) (s_pushed s) (s_popped s).
Definition set_cons (s : state) (cview : nat) (c : consumer) : state :=
  State (s_capacity s) (s_size s) (s_head s) (s_tail s) (s_buffer s) (s_heap s) (s_next s)
    (s_pview s) cview (s_prod s) c (s_pushed s) (s_popped s).
Definition set_buffer (s : state) (b : list (cell pointer)) : state :=
  State (s_capacity s) (s_size s) (s_head s) (s_tail s) b (s_heap s) (s_next s)
    (s_pview s) (s_cview s) (s_prod s) (s_cons s) (s_pushed s) (s_popped s).
Definition set_size (s : state) (n : Z) : state :=
  State (s_capacity s) n (s_head s) (s_tail s) (s_buffer s) (s_heap s) (s_next s)
    (s_pview s) (s_cview s) (s_prod s) (s_cons s) (s_pushed s) (s_popped s).

(** The producer stores to slot [i]. *)
Definition store_slot (s : state) (i : Z) (p : pointer) : result state :=
  c ← aread (s_buffer s) i;
  if bool_decide (s_pview s < c_cons c)%nat then UB else
  b ← awrite (s_buffer s) i (Cell p (length (s_tail s)) (c_cons c));
  Ok (set_buffer s b).

(** The consumer loads slot [i] and, in an exchange, stores a null pointer. *)
Definition load_slot (s : state) (i : Z) (clear : bool) : result (state * pointer) :=
  c ← aread (s_buffer s) i;
  if bool_decide (s_cview s < c_prod c)%nat then UB else
  b ← awrite (s_buffer s) i (Cell (if clear then None else c_val c) (c_prod c) (length (s_head s)));
  Ok (set_buffer s b, c_val c).

Definition prod_step (s : state) (l : label) : option (result state) :=
  match l, s_prod s with
  | Push v p, Ready =>
      let current_tail := newest (s_tail s) in
      head ← acquire (s_head s) (s_pview s) p;
      Some (
        next_tail ← umod (u64 (current_tail + 1)) (s_capacity s);
        Ok (set_prod s p (if next_tail =? head then Ready else HasRoom v current_tail next_tail)))
  | StoreSlot, HasRoom v current_tail next_tail =>
      Some (
        let a := s_next s in
        s ← store_slot s current_tail (Some a);
        Ok (State (s_capacity s) (s_size s) (s_head s) (s_tail s) (s_buffer s) (<[a := v]> (s_heap s)) (S a)
              (s_pview s) (s_cview s) (Stored v next_tail) (s_cons s) (s_pushed s) (s_popped s)))
  | StoreTail, Stored v next_tail =>
      Some (Ok (State (s_capacity s) (s_size s) (s_head s) (s_tail s ++ [next_tail]) (s_buffer s) (s_heap s) (s_next s)
              (s_pview s) (s_cview s) Published (s_cons s) (s_pushed s ++ [v]) (s_popped s)))
  | CountUp, Published => Some (Ok (set_prod (set_size s (u64 (s_size s + 1))) (s_pview s) Ready))
  | ProducerEmpty p, Ready => _ ← acquire (s_head s) (s_pview s) p; Some (Ok (set_prod s p Ready))
  | _, _ => None
  end.

(** What [front] left is forgotten when the consumer calls again. *)
Definition at_rest (c : consumer) : bool :=
  match c with Away | Pointing _ | Reading _ _ => true | _ => false end.

Definition cons_step (s : state) (l : label) : option (result state) :=
  match l, s_cons s with
  | Front p, c =>
      if at_rest c then
        let current_head := newest (s_head s) in
        tail ← acquire (s_tail s) (s_cview s) p;
        Some (Ok (set_cons s p (if current_head =? tail then Away else NotEmpty current_head)))
      else None
  | LoadSlot, NotEmpty current_head =>
      Some ('(s, p) ← load_slot s current_head false; Ok (set_cons s (s_cview s) (Pointing p)))
  | Read, Pointing p =>
      Some (match p with
            | Some a => match s_heap s !! a with Some v => Ok (set_cons s (s_cview s) (Reading p v)) | None => UB end
            | None => UB
            end)
  | Pop p, c =>
      if at_rest c then
        let current_head := newest (s_head s) in
        tail ← acquire (s_tail s) (s_cview s) p;
        Some (Ok (set_cons s p (if current_head =? tail then Away else Popping current_head)))
      else None
  | Exchange, Popping current_head =>
      Some ('(s, p) ← load_slot s current_head true;
            Ok (set_cons s (s_cview s) (match p with None => Away | Some _ => Taken p current_head end)))
  | StoreHead, Taken p current_head =>
      Some (next_head ← umod (u64 (current_head + 1)) (s_capacity s);
            Ok (State (s_capacity s) (s_size s) (s_head s ++ [next_head]) (s_tail s) (s_buffer s) (s_heap s) (s_next s)
                  (s_pview s) (s_cview s) (s_prod s) (Deleting p) (s_pushed s) (s_popped s)))
  | Delete, Deleting p =>
      Some (match p with
            | Some a =>
                match s_heap s !! a with
                | Some v =>
                    Ok (State (s_capacity s) (s_size s) (s_head s) (s_tail s) (s_buffer s) (delete a (s_heap s)) (s_next s)
                          (s_pview s) (s_cview s) (s_prod s) Deleted (s_pushed s) (s_popped s ++ [v]))
                | None => UB
                end
            | None => UB
            end)
  | CountDown, Deleted => Some (Ok (set_cons (set_size s (u64 (s_size s - 1))) (s_cview s) Away))
  | ConsumerEmpty p, c =>
      if at_rest c then _ ← acquire (s_tail s) (s_cview s) p; Some (Ok (set_cons s p c)) else None
  | _, _ => None
  end.

Definition step (s : state) (l : label) : option (result state) :=
  match prod_step s l with Some r => Some r | None => cons_step s l end.

Fixpoint run (s : state) (ls : list label) : option (result state) :=
  match ls with
  | [] => Some (Ok s)
  | l :: ls => r ← step s l; match r with Ok s => run s ls | r => Some r end
  end.

(** ** The objects *)

(** The objects of [vals] are at [addrs], but for the first [gone], which were deleted. *)
Record heap_ok (addrs : list nat) (vals : list T) (gone : nat) (hp : gmap nat T) (nxt : nat) : Prop := {
  hk_nodup : NoDup addrs;
  hk_fresh : Forall (λ a, a < nxt)%nat addrs;
  hk_length : length addrs = length vals;
  hk_gone : (gone ≤ length vals)%nat;
  hk_heap a v : hp !! a = Some v ↔ ∃ j, (gone ≤ j)%nat ∧ addrs !! j = Some a ∧ vals !! j = Some v
}.

Lemma heap_push addrs vals gone hp nxt v :
  heap_ok addrs vals gone hp nxt → heap_ok (addrs ++ [nxt]) (vals ++ [v]) gone (<[nxt := v]> hp) (S nxt).
Proof.
  intros [K1 K2 K3 K4 K5]. assert (Hnew : nxt ∉ addrs).
  { intros Hin. rewrite Forall_forall in K2. apply K2 in Hin. lia. }
  constructor.
  - apply NoDup_app. split_and!; [done| |apply NoDup_singleton]. by intros a Ha ->%list_elem_of_singleton.
  - apply Forall_app. split; [|by apply Forall_singleton; lia]. eapply Forall_impl; [exact K2|]. simpl. lia.
  - rewrite !length_app. simpl. lia.
  - rewrite length_app. lia.
  - intros a w. split.
    + rewrite lookup_insert_Some. intros [[<- <-]|[Hne Hw]].
      * exists (length vals). split; [done|]. split; apply lookup_snoc_Some; right; split; done || lia.
      * apply K5 in Hw as (j & Hj & Ha & Hv). exists j. split; [done|]. by split; apply lookup_app_l_Some.
    + intros (j & Hj & Ha & Hv). apply lookup_snoc_Some in Ha as [[Hl Ha]|[-> <-]].
      * assert (nxt ≠ a) by (intros ->; by apply Hnew, (list_elem_of_lookup_2 _ j)). rewrite lookup_insert_ne by done.
        apply K5. exists j. rewrite lookup_app_l in Hv by lia. done.
      * rewrite K3, lookup_app_r, Nat.sub_diag in Hv by lia. injection Hv as <-. apply lookup_insert_eq.
Qed.

Lemma heap_get addrs vals gone hp nxt a :
  heap_ok addrs vals gone hp nxt → addrs !! gone = Some a → ∃ v, vals !! gone = Some v ∧ hp !! a = Some v.
Proof.
  intros [K1 K2 K3 K4 K5] Ha. destruct (lookup_lt_is_Some_2 vals gone) as [v Hv].
  { rewrite <- K3. by eapply lookup_lt_Some. }
  exists v. split; [done|]. apply K5. by exists gone.
Qed.

Lemma heap_pop addrs vals gone hp nxt a :
  heap_ok addrs vals gone hp nxt → addrs !! gone = Some a → heap_ok addrs vals (S gone) (delete a hp) nxt.
Proof.
  intros [K1 K2 K3 K4 K5] Ha. constructor; try done.
  - rewrite <- K3. apply lookup_lt_Some in Ha. lia.
  - intros b w. rewrite lookup_delete_Some, K5. split.
    + intros (Hne & j & Hj & Hb & Hw). exists j. split_and!; [|done..].
      assert (j ≠ gone) by congruence. lia.
    + intros (j & Hj & Hb & Hw). split; [|exists j; split_and!; done || lia].
      intros ->. pose proof (NoDup_lookup _ _ _ _ K1 Ha Hb). lia.
Qed.

Lemma heap_size addrs vals gone hp nxt :
  heap_ok addrs vals gone hp nxt → base.size hp = (length vals - gone)%nat.
Proof.
  intros [K1 K2 K3 K4 K5]. rewrite <- size_dom, <- K3, <- length_drop.
  rewrite <- (size_list_to_set (C := gset nat) (drop gone addrs)).
  - f_equal. apply set_eq. intros a. rewrite elem_of_dom, elem_of_list_to_set, list_elem_of_lookup. split.
    + intros [v (j & Hj & Ha & _)%K5]. exists (j - gone)%nat. rewrite lookup_drop, <- Ha. f_equal. lia.
    + intros [j Ha]. rewrite lookup_drop in Ha. destruct (lookup_lt_is_Some_2 vals (gone + j)) as [v Hv].
      { rewrite <- K3. by eapply lookup_lt_Some. }
      exists v. apply K5. exists (gone + j)%nat. split; [lia|done].
  - eapply sublist_NoDup; [exact K1|apply sublist_drop].
Qed.

(** ** The threads follow the protocol *)

(** The value in the slot that is not published. *)
Definition stored (c : producer) : list T := match c with Stored v _ => [v] | _ => [] end.

(** What [++size] and [--size] have still to do. *)
Definition uncounted (s : state) : Z :=
  (if s_prod s is Published then -1 else 0) + (if s_cons s is Deleted then 1 else 0).

Definition prod_sim (M : nat) (s : state) (r : ring (A := pointer)) : Prop :=
  match s_prod s, r_prod r with
  | Ready, Spsc.PIdle | Published, Spsc.PIdle => True
  | HasRoom _ t n, PWrite xs k => xs = [Some (s_next s)] ∧ k = 0%nat ∧ t = enc M (r_head r) ∧ n = enc M (r_head r + 1)
  | Stored _ n, PWrite xs k => length xs = 1%nat ∧ k = 1%nat ∧ n = enc M (r_head r + 1)
  | _, _ => False
  end.

Definition cons_sim (M : nat) (s : state) (r : ring (A := pointer)) : Prop :=
  match s_cons s, r_cons r with
  | Away, Spsc.CIdle | Deleted, Spsc.CIdle => True
  | NotEmpty h, CRead n ys d | Popping h, CRead n ys d => n = 1%nat ∧ ys = [] ∧ d = 0%nat ∧ h = enc M (r_tail r)
  | Pointing p, CRead n ys d => n = 1%nat ∧ ys = [p] ∧ d = 0%nat
  | Reading p v, CRead n ys d => n = 1%nat ∧ ys = [p] ∧ d = 0%nat ∧ s_pushed s !! length (s_popped s) = Some v
  | Taken p h, CRead n ys d => n = 1%nat ∧ ys = [p] ∧ d = 1%nat ∧ h = enc M (r_tail r)
  | Deleting p, Spsc.CIdle => r_recvd r !! length (s_popped s) = Some p
  | _, _ => False
  end.

Record sim (M : nat) (s : state) (r : ring (A := pointer)) : Prop := {
  sm_capacity : s_capacity s = M;
  sm_tail : s_tail s = enc M <$> r_in r;
  sm_head : s_head s = enc M <$> r_out r;
  sm_buffer : s_buffer s = r_cells r;
  sm_pview : s_pview s = r_pview r;
  sm_cview : s_cview s = r_cview r;
  sm_race : r_race r = false;
  sm_prod : prod_sim M s r;
  sm_cons : cons_sim M s r;
  sm_objects : ∃ addrs, Some <$> addrs = r_sent r ++ (if s_prod s is Stored _ _ then pending r else []) ∧
    heap_ok addrs (s_pushed s ++ stored (s_prod s)) (length (s_popped s)) (s_heap s) (s_next s);
  sm_popped : s_popped s = take (length (s_popped s)) (s_pushed s);
  sm_recvd : length (r_recvd r) = (length (s_popped s) + if s_cons s is Deleting _ then 1 else 0)%nat;
  sm_size : s_size s = u64 (length (s_pushed s) - length (s_popped s) + uncounted s)
}.

Section simulation.
Context (M : nat) (HM : 1 <= M < 2 ^ 63).

Abbreviation rstep := (@ring_step pointer M (M - 1) true None).
Abbreviation inv := (@ring_inv pointer M (M - 1) true None).

Lemma slot_step_inv r r' : inv r → rstep r r' → inv r'.
Proof. apply ring_step_inv; lia. Qed.

Lemma slot_steps_inv r r' : inv r → rtc rstep r r' → inv r'.
Proof. intros I. apply rtc_invariant; [done|]. intros. by eapply slot_step_inv. Qed.

Lemma slot_bounds r :
  inv r → (r_tail r + claimed r ≤ r_head r ∧ r_head r + length (pending r) ≤ r_tail r + (M - 1) ∧
           killed r ≤ length (fetched r) ≤ claimed r ∧ written r ≤ length (pending r))%nat.
Proof. apply inv_bounds; lia. Qed.

Lemma umod_enc i : umod (u64 (enc M i + 1)) M = Ok (enc M (i + 1)).
Proof.
  unfold umod, enc. rewrite (proj2 (Z.eqb_neq _ _)) by lia.
  assert (i `mod` M < M)%nat by (apply Nat.mod_upper_bound; lia). rewrite wrap_small by (unfold fits; lia).
  rewrite !Nat2Z.inj_mod, Nat2Z.inj_add, Zplus_mod_idemp_l. done.
Qed.

(** The slot of position [i]. *)
Lemma slot_cell_at s r i :
  sim M s r → inv r → ∃ c, r_cells r !! (i `mod` M)%nat = Some c ∧ aread (s_buffer s) (enc M i) = Ok c ∧
    ∀ c', awrite (s_buffer s) (enc M i) c' = Ok (<[(i `mod` M)%nat := c']> (r_cells r)).
Proof.
  intros S I. assert (i `mod` M < M)%nat by (apply Nat.mod_upper_bound; lia).
  pose proof (inv_cells _ _ _ _ _ I) as Hc. rewrite (sm_buffer _ _ _ S).
  destruct (lookup_lt_is_Some_2 (r_cells r) (i `mod` M)) as [c Hcell]; [by rewrite Hc|].
  exists c. split; [done|]. split; [by apply aread_ok|]. intros c'. apply awrite_ok. by rewrite Hc.
Qed.

Lemma share_sim : sim M (share (create M)) (ring_init M None) ∧ inv (ring_init M None).
Proof.
  split; [|apply ring_init_inv; lia]. constructor; try done.
  - simpl. unfold enc. by rewrite Nat.Div0.mod_0_l.
  - simpl. unfold enc. by rewrite Nat.Div0.mod_0_l.
  - simpl. by rewrite Nat2Z.id, fmap_replicate.
  - exists []. split; [done|]. constructor; try done; [constructor|].
    intros a v. simpl. rewrite lookup_empty. split; [done|]. by intros (j & _ & ? & _).
Qed.

(** What a step of the code does: it is defined, and the protocol takes steps too. *)
Definition simulated (res : result state) (r : ring) : Prop :=
  ∃ s' r', res = Ok s' ∧ rtc rstep r r' ∧ sim M s' r'.

Lemma ring_race r r' : inv r → rtc rstep r r' → r_race r' = false.
Proof. intros I Hr. apply (inv_race _ _ _ _ _ (slot_steps_inv _ _ I Hr)). Qed.

Lemma sent_length s r : sim M s r → inv r → length (s_pushed s) = r_head r.
Proof.
  intros S I. rewrite <- (inv_sent _ _ _ _ _ I). destruct (sm_objects _ _ _ S) as (addrs & Ha & K).
  pose proof (hk_length _ _ _ _ _ K) as Hl. apply (f_equal length) in Ha. rewrite length_fmap, length_app in Ha.
  rewrite length_app in Hl. pose proof (sm_prod _ _ _ S) as P. unfold prod_sim, pending, stored in *.
  destruct (s_prod s), (r_prod r); simpl in *; lia.
Qed.

(** *** The producer *)

Lemma push_sim s r v p res :
  sim M s r → inv r → s_prod s = Ready → prod_step s (Push v p) = Some res → simulated res r.
Proof.
  intros S I Hp Hs. unfold prod_step in Hs. rewrite Hp in Hs.
  destruct S as [S1 S2 S3 S4 S5 S6 S7 S8 S9 S10 S11 S12 S13]. unfold prod_sim in S8. rewrite Hp in S8, S10.
  destruct (r_prod r) eqn:Hr; [|done]. rewrite S3, S5 in Hs.
  apply bind_Some in Hs as (x & (o & Ho & ->)%acquire_mod & [= <-]).
  assert (Hstep := p_acquire M (M - 1) true None r p o Ho). set (r1 := Ring _ _ _ _ _ _ _ _ _ _) in Hstep.
  assert (I1 : inv r1) by (eapply slot_step_inv; [exact I|exact Hstep]).
  apply acquire_Some in Ho as [_ Ho]. pose proof (ascending_newest _ _ _ (inv_out _ _ _ _ _ I) Ho) as Hoo.
  pose proof (slot_bounds r I) as B. destruct (inv_pview _ _ _ _ _ I1) as (o' & Ho' & Hroom).
  assert (o' = o) as -> by (simpl in Ho'; congruence).
  unfold pending in Hroom. simpl in Hroom. rewrite Hr in Hroom. simpl in Hroom. unfold r_tail in B.
  change (r_head r1) with (r_head r) in Hroom.
  rewrite S1, S2, newest_mod by apply (inv_in _ _ _ _ _ I). fold (r_head r).
  rewrite umod_enc, bind_ok, <- (enc_lap M o), enc_eq by lia. unfold simulated. case_bool_decide as E.
  - exists (set_prod s p Ready), r1. split; [done|]. split; [by apply rtc_once|].
    constructor; try done; unfold prod_sim, cons_sim, uncounted in *; simpl; rewrite ?Hr, ?Hp in *; done.
  - eexists _, _. split; [done|]. split.
    + eapply rtc_l; [exact Hstep|]. apply rtc_once. apply (p_begin _ _ _ _ r1 [Some (s_next s)] o); [done|done|done|].
      change (r_head r1) with (r_head r). simpl. lia.
    + constructor; try done; unfold uncounted in *; simpl; rewrite ?Hp in *; done.
Qed.

Lemma store_slot_sim s r v t n :
  sim M s r → inv r → s_prod s = HasRoom v t n → ∀ res, prod_step s StoreSlot = Some res → simulated res r.
Proof.
  intros S I Hp res Hs. pose proof S as S'. unfold prod_step in Hs. rewrite Hp in Hs. injection Hs as <-.
  destruct S as [S1 S2 S3 S4 S5 S6 S7 S8 S9 S10 S11 S12 S13]. unfold prod_sim in S8. rewrite Hp in S8, S10.
  destruct (r_prod r) as [|xs k] eqn:Hr; [done|]. destruct S8 as (-> & -> & -> & ->).
  destruct (slot_cell_at s r (r_head r) S' I) as (c & Hc & Hread & Hwrite).
  assert (Hstep := p_write M (M - 1) true None r [Some (s_next s)] 0 (Some (s_next s)) c Hr eq_refl).
  rewrite Nat.add_0_r in Hstep. specialize (Hstep Hc).
  pose proof (ring_race _ _ I (rtc_once _ _ Hstep)) as Hrace. simpl in Hrace. rewrite S7, orb_false_l in Hrace.
  unfold store_slot. rewrite Hread, bind_ok, S5, Hrace, Hwrite, !bind_ok.
  eexists _, _. split; [done|]. split; [by apply rtc_once|]. constructor; try done; simpl.
  - by rewrite S2, length_fmap.
  - by rewrite S7, Hrace.
  - destruct S10 as (addrs & Ha & K). rewrite app_nil_r in Ha, K. exists (addrs ++ [s_next s]).
    split; [by rewrite fmap_app, Ha|]. by apply heap_push.
  - unfold uncounted in *. simpl. by rewrite Hp in S13.
Qed.

Lemma store_tail_sim s r v n :
  sim M s r → inv r → s_prod s = Stored v n → ∀ res, prod_step s StoreTail = Some res → simulated res r.
Proof.
  intros S I Hp res Hs. unfold prod_step in Hs. rewrite Hp in Hs. injection Hs as <-.
  destruct S as [S1 S2 S3 S4 S5 S6 S7 S8 S9 S10 S11 S12 S13]. unfold prod_sim in S8. rewrite Hp in S8, S10.
  destruct (r_prod r) as [|xs k] eqn:Hr; [done|]. destruct S8 as (Hx & -> & ->).
  rewrite <- Hx in Hr. eexists _, _. split; [done|]. split; [by apply rtc_once, (p_publish _ _ _ _ r _ Hr)|].
  constructor; try done; simpl.
  - by rewrite S2, fmap_app, Hx.
  - unfold cons_sim in *. simpl. destruct (s_cons s), (r_cons r); try done. naive_solver (eauto using lookup_app_l_Some).
  - destruct S10 as (addrs & Ha & K). exists addrs. rewrite !app_nil_r. unfold pending in Ha. rewrite Hr in Ha. done.
  - rewrite S11 at 1. symmetry. apply take_app_le. destruct S10 as (addrs & _ & K).
    apply (f_equal length) in S11. rewrite length_take in S11. lia.
  - unfold uncounted in *. simpl. rewrite Hp in S13. rewrite length_app. simpl. rewrite S13. f_equal. lia.
Qed.

Lemma producer_sim s r l res : sim M s r → inv r → prod_step s l = Some res → simulated res r.
Proof.
  intros S I Hs. destruct l; try done; destruct (s_prod s) eqn:Hp;
    try (unfold prod_step in Hs; rewrite Hp in Hs; done).
  - by eapply push_sim.
  - by eapply store_slot_sim.
  - by eapply store_tail_sim.
  - unfold prod_step in Hs. rewrite Hp in Hs. injection Hs as <-. eexists _, r. split; [done|]. split; [done|].
    destruct S as [S1 S2 S3 S4 S5 S6 S7 S8 S9 S10 S11 S12 S13]. unfold prod_sim in S8. rewrite Hp in S8, S10.
    constructor; try done; unfold prod_sim, uncounted in *; simpl; [done..|].
    rewrite S13, Hp. rewrite wrap_add_l. f_equal. lia.
  - unfold prod_step in Hs. rewrite Hp, (sm_head _ _ _ S), (sm_pview _ _ _ S) in Hs.
    apply bind_Some in Hs as (x & (o & Ho & ->)%acquire_mod & [= <-]). eexists _, _. split; [done|].
    split; [by apply rtc_once, (p_acquire _ _ _ _ r p o Ho)|]. destruct S as [S1 S2 S3 S4 S5 S6 S7 S8 S9 S10 S11 S12 S13].
    unfold prod_sim in S8. rewrite Hp in S8, S10.
    constructor; try done; unfold prod_sim, uncounted in *; simpl; rewrite ?Hp in *; done.
Qed.

(** *** The consumer *)

(** A new call forgets what [front] left. *)
Lemma rest_sim s r :
  sim M s r → inv r → at_rest (s_cons s) = true →
  ∃ r', rtc rstep r r' ∧ sim M (set_cons s (s_cview s) Away) r' ∧ r_cons r' = Spsc.CIdle.
Proof.
  intros [S1 S2 S3 S4 S5 S6 S7 S8 S9 S10 S11 S12 S13] I Hc. unfold cons_sim in S9.
  assert (∃ r', rtc rstep r r' ∧ r' = Ring (r_in r) (r_out r) (r_cells r) (r_pview r) (r_cview r)
    (r_prod r) Spsc.CIdle (r_race r) (r_sent r) (r_recvd r)) as (r' & Hrtc & ->).
  { destruct (s_cons s), (r_cons r) as [|n ys d] eqn:Hr; try done.
    - exists r. split; [done|]. destruct r. simpl in *. by subst.
    - destruct S9 as (_ & _ & ->). eexists. split; [|done]. by apply rtc_once, (c_cancel _ _ _ _ r _ _ Hr).
    - destruct S9 as (_ & _ & -> & _). eexists. split; [|done]. by apply rtc_once, (c_cancel _ _ _ _ r _ _ Hr). }
  eexists. split; [done|]. split; [|done]. constructor; try done; unfold uncounted in *; simpl;
    [by destruct (s_cons s)|by destruct (s_cons s)].
Qed.

(** [front] and [pop] look whether there is anything. *)
Lemma find_sim s r p tail :
  sim M s r → inv r → s_cons s = Away → acquire (s_tail s) (s_cview s) p = Some tail →
  let h := newest (s_head s) in
  ∃ r', rtc rstep r r' ∧
    if h =? tail then sim M (set_cons s p Away) r'
    else sim M (set_cons s p (NotEmpty h)) r' ∧ sim M (set_cons s p (Popping h)) r'.
Proof.
  intros [S1 S2 S3 S4 S5 S6 S7 S8 S9 S10 S11 S12 S13] I Hp Ha h. unfold cons_sim in S9. rewrite Hp in S9, S12.
  destruct (r_cons r) eqn:Hr; [|done]. rewrite S2, S6 in Ha. apply acquire_mod in Ha as (i & Hi & ->).
  assert (Hstep := c_acquire M (M - 1) true None r p i Hi). set (r1 := Ring _ _ _ _ _ _ _ _ _ _) in Hstep.
  assert (I1 : inv r1) by (eapply slot_step_inv; [exact I|exact Hstep]).
  apply acquire_Some in Hi as [_ Hi]. pose proof (ascending_newest _ _ _ (inv_in _ _ _ _ _ I) Hi) as Hii.
  pose proof (slot_bounds r I) as B. destruct (inv_cview _ _ _ _ _ I1) as (i' & Hi' & Hroom).
  assert (i' = i) as -> by (simpl in Hi'; congruence).
  change (r_tail r1) with (r_tail r) in Hroom. unfold r_head in B.
  subst h. rewrite S3, newest_mod by apply (inv_out _ _ _ _ _ I). fold (r_tail r). rewrite enc_eq by lia.
  case_bool_decide as E.
  - exists r1. split; [by apply rtc_once|]. constructor; try done; unfold cons_sim, uncounted in *; simpl;
      rewrite ?Hr, ?Hp in *; done.
  - eexists. split.
    + eapply rtc_l; [exact Hstep|]. apply rtc_once. apply (c_begin _ _ _ _ r1 1 i); [done|done|lia|].
      change (r_tail r1) with (r_tail r). lia.
    + split; constructor; try done; unfold uncounted in *; simpl; rewrite ?Hp in *; done.
Qed.

(** The slot that the consumer was given has the next object. *)
Lemma next_object s r c :
  sim M s r → inv r → claimed r = 1%nat → killed r = 0%nat → (∀ p, s_cons s ≠ Deleting p) →
  r_cells r !! (r_tail r `mod` M)%nat = Some c →
  r_sent r !! r_tail r = Some (c_val c) ∧ r_tail r = length (s_popped s) ∧
  ∃ a v, c_val c = Some a ∧ s_heap s !! a = Some v ∧ s_pushed s !! length (s_popped s) = Some v.
Proof.
  intros S I Hcl Hk Hno Hc. pose proof (slot_bounds r I) as B. pose proof (sent_length _ _ S I) as Hsl.
  destruct S as [S1 S2 S3 S4 S5 S6 S7 S8 S9 S10 S11 S12 S13].
  assert (Hl : (r_sent r ++ pending r) !! r_tail r = Some (c_val c)) by (apply (inv_live _ _ _ _ _ I); [lia|done]).
  rewrite lookup_app_l in Hl by (rewrite (inv_sent _ _ _ _ _ I); lia).
  assert (Ht : r_tail r = length (s_popped s)).
  { rewrite <- (proj1 (inv_recvd _ _ _ _ _ I)), S12. destruct (s_cons s) eqn:E; try lia. by destruct (Hno p). }
  split; [done|]. split; [done|]. destruct S10 as (addrs & Ha & K).
  assert (Hg : (Some <$> addrs) !! r_tail r = Some (c_val c)) by (rewrite Ha; by apply lookup_app_l_Some).
  rewrite list_lookup_fmap in Hg. apply fmap_Some in Hg as (a & Hg & ->). rewrite Ht in Hg.
  destruct (heap_get _ _ _ _ _ _ K Hg) as (v & Hv & Hh). exists a, v. split; [done|]. split; [done|].
  rewrite lookup_app_l in Hv by lia. done.
Qed.

Lemma load_slot_sim s r h :
  sim M s r → inv r → s_cons s = NotEmpty h → ∀ res, cons_step s LoadSlot = Some res → simulated res r.
Proof.
  intros S I Hp res Hs. pose proof S as S'. unfold cons_step in Hs. rewrite Hp in Hs. injection Hs as <-.
  destruct S as [S1 S2 S3 S4 S5 S6 S7 S8 S9 S10 S11 S12 S13]. unfold cons_sim in S9. rewrite Hp in S9, S12.
  destruct (r_cons r) as [|n ys d] eqn:Hr; [done|]. destruct S9 as (-> & -> & -> & ->).
  destruct (slot_cell_at s r (r_tail r) S' I) as (c & Hc & Hread & Hwrite).
  assert (Hstep := c_read M (M - 1) true None r 1 [] 0 c Hr ltac:(simpl; lia)). simpl length in Hstep.
  rewrite Nat.add_0_r in Hstep. specialize (Hstep Hc).
  pose proof (ring_race _ _ I (rtc_once _ _ Hstep)) as Hrace. simpl in Hrace. rewrite S7, orb_false_l in Hrace.
  unfold load_slot. rewrite Hread, bind_ok, S6, Hrace, Hwrite, !bind_ok.
  eexists _, _. split; [done|]. split; [by apply rtc_once|]. constructor; try done; simpl.
  - by rewrite S3, length_fmap.
  - by rewrite S7, Hrace.
  - unfold uncounted in *. simpl. by rewrite Hp in S13.
Qed.

Lemma exchange_sim s r h :
  sim M s r → inv r → s_cons s = Popping h → ∀ res, cons_step s Exchange = Some res → simulated res r.
Proof.
  intros S I Hp res Hs. pose proof S as S'. unfold cons_step in Hs. rewrite Hp in Hs. injection Hs as <-.
  destruct S as [S1 S2 S3 S4 S5 S6 S7 S8 S9 S10 S11 S12 S13]. unfold cons_sim in S9. rewrite Hp in S9, S12.
  destruct (r_cons r) as [|n ys d] eqn:Hr; [done|]. destruct S9 as (-> & -> & -> & ->).
  destruct (slot_cell_at s r (r_tail r) S' I) as (c & Hc & Hread & Hwrite).
  destruct (next_object s r c S' I) as (_ & _ & a & v & Hv & _);
    [by unfold claimed; rewrite Hr|by unfold killed; rewrite Hr|by rewrite Hp|done|].
  assert (Hstep := c_read M (M - 1) true None r 1 [] 0 c Hr ltac:(simpl; lia)). simpl length in Hstep.
  rewrite Nat.add_0_r in Hstep. specialize (Hstep Hc). set (r1 := Ring _ _ _ _ _ _ _ _ _ _) in Hstep.
  assert (Hstep2 := c_destroy M (M - 1) true None r1 1 [c_val c] 0 (Cell (c_val c) (c_prod c) (length (r_out r)))
    eq_refl ltac:(simpl; lia) eq_refl).
  rewrite Nat.add_0_r in Hstep2. change (r_tail r1) with (r_tail r) in Hstep2.
  assert (Hlt : (r_tail r `mod` M < length (r_cells r))%nat) by (by eapply lookup_lt_Some).
  specialize (Hstep2 ltac:(simpl; by rewrite list_lookup_insert_eq)). simpl in Hstep2. rewrite list_insert_insert_eq in Hstep2.
  assert (Hrtc : rtc rstep r _) by (eapply rtc_l; [exact Hstep|apply rtc_once, Hstep2]).
  pose proof (ring_race _ _ I (rtc_once _ _ Hstep)) as Hrace. simpl in Hrace. rewrite S7, orb_false_l in Hrace.
  unfold load_slot. rewrite Hread, bind_ok, S6, Hrace, Hwrite, !bind_ok, Hv.
  eexists _, _. split; [done|]. split; [exact Hrtc|]. constructor; try done; simpl.
  - by rewrite S3, length_fmap.
  - by rewrite S7, Hrace.
  - unfold cons_sim. simpl. by rewrite Hv.
  - unfold uncounted in *. simpl. by rewrite Hp in S13.
Qed.

Lemma read_object_sim s r p :
  sim M s r → inv r → s_cons s = Pointing p → ∀ res, cons_step s Read = Some res → simulated res r.
Proof.
  intros S I Hp res Hs. pose proof S as S'. unfold cons_step in Hs. rewrite Hp in Hs. injection Hs as <-.
  destruct S as [S1 S2 S3 S4 S5 S6 S7 S8 S9 S10 S11 S12 S13]. unfold cons_sim in S9. rewrite Hp in S9, S12.
  destruct (r_cons r) as [|n ys d] eqn:Hr; [done|]. destruct S9 as (-> & -> & ->).
  destruct (slot_cell_at s r (r_tail r) S' I) as (c & Hc & _).
  destruct (next_object s r c S' I) as (Hl & _ & a & v & Hv & Hh & Hx);
    [by unfold claimed; rewrite Hr|by unfold killed; rewrite Hr|by rewrite Hp|done|].
  destruct (inv_fetched _ _ _ _ _ I) as [_ Hf]. unfold fetched in Hf. rewrite Hr in Hf.
  specialize (Hf 0%nat p eq_refl). rewrite Nat.add_0_r, Hl, Hv in Hf. injection Hf as <-. rewrite Hh.
  eexists _, r. split; [done|]. split; [done|]. constructor; try done; simpl.
  - unfold cons_sim. simpl. by rewrite Hr.
  - unfold uncounted in *. simpl. by rewrite Hp in S13.
Qed.

Lemma store_head_sim s r p h :
  sim M s r → inv r → s_cons s = Taken p h → ∀ res, cons_step s StoreHead = Some res → simulated res r.
Proof.
  intros S I Hp res Hs. unfold cons_step in Hs. rewrite Hp in Hs. injection Hs as <-.
  destruct S as [S1 S2 S3 S4 S5 S6 S7 S8 S9 S10 S11 S12 S13]. unfold cons_sim in S9. rewrite Hp in S9, S12.
  destruct (r_cons r) as [|n ys d] eqn:Hr; [done|]. destruct S9 as (-> & -> & -> & ->).
  rewrite S1, umod_enc, bind_ok. eexists _, _. split; [done|].
  split; [by apply rtc_once, (c_publish _ _ _ _ r _ _ _ Hr)|]. constructor; try done; simpl.
  - by rewrite S3, fmap_app.
  - unfold cons_sim. simpl. rewrite lookup_app_r, S12 by lia. by rewrite Nat.add_0_r, Nat.sub_diag.
  - rewrite length_app, S12. simpl. lia.
  - unfold uncounted in *. simpl. by rewrite Hp in S13.
Qed.

Lemma delete_sim s r p :
  sim M s r → inv r → s_cons s = Deleting p → ∀ res, cons_step s Delete = Some res → simulated res r.
Proof.
  intros S I Hp res Hs. pose proof (sent_length _ _ S I) as Hsl. unfold cons_step in Hs. rewrite Hp in Hs. injection Hs as <-.
  destruct S as [S1 S2 S3 S4 S5 S6 S7 S8 S9 S10 S11 S12 S13]. unfold cons_sim in S9. rewrite Hp in S9, S12.
  destruct (r_cons r) eqn:Hr; [|done]. destruct S10 as (addrs & Ha & K).
  destruct (inv_recvd _ _ _ _ _ I) as [_ Hpre].
  assert (Hg : (Some <$> addrs) !! length (s_popped s) = Some p) by (rewrite Ha; apply lookup_app_l_Some; by apply (Hpre _ p)).
  rewrite list_lookup_fmap in Hg. apply fmap_Some in Hg as (a & Hg & ->).
  destruct (heap_get _ _ _ _ _ _ K Hg) as (v & Hv & ->).
  assert (Hlt : (length (s_popped s) < length (s_pushed s))%nat).
  { rewrite Hsl, <- (inv_sent _ _ _ _ _ I). pose proof (Hpre _ _ S9) as Hl. by apply lookup_lt_Some in Hl. }
  rewrite lookup_app_l in Hv by done. assert (Hle : length (s_popped s ++ [v]) = S (length (s_popped s))) by (rewrite length_app; simpl; lia).
  eexists _, r. split; [done|]. split; [done|]. constructor; try done; simpl; rewrite ?Hle.
  - unfold cons_sim. simpl. by rewrite Hr.
  - exists addrs. split; [done|]. by apply heap_pop.
  - rewrite S11 at 1. by rewrite (take_S_r _ _ v).
  - rewrite S12. lia.
  - unfold uncounted in *. simpl. rewrite Hp in S13. rewrite S13. f_equal. lia.
Qed.

(** [front] and [pop] from their first access. *)
Lemma call_sim s r p tail (pops : bool) :
  let h := newest (s_head s) in
  sim M s r → inv r → at_rest (s_cons s) = true → acquire (s_tail s) (s_cview s) p = Some tail →
  simulated (Ok (set_cons s p (if h =? tail then Away else if pops then Popping h else NotEmpty h))) r.
Proof.
  intros h S I Hc Ha. destruct (rest_sim s r S I Hc) as (r1 & Hr1 & Sim1 & _).
  destruct (find_sim _ r1 p tail Sim1 (slot_steps_inv _ _ I Hr1) eq_refl Ha) as (r2 & Hr2 & Sim2).
  change (newest (s_head (set_cons s (s_cview s) Away))) with h in Sim2. eexists _, r2. split; [done|].
  split; [by etrans|]. destruct (h =? tail); [exact Sim2|]. by destruct pops; apply Sim2.
Qed.

Lemma look_sim s r p tail :
  sim M s r → inv r → at_rest (s_cons s) = true → acquire (s_tail s) (s_cview s) p = Some tail →
  simulated (Ok (set_cons s p (s_cons s))) r.
Proof.
  intros [S1 S2 S3 S4 S5 S6 S7 S8 S9 S10 S11 S12 S13] I Hc Ha. rewrite S2, S6 in Ha.
  apply acquire_mod in Ha as (i & Hi & ->). eexists _, _. split; [done|].
  split; [by apply rtc_once, (c_acquire _ _ _ _ r p i Hi)|]. by constructor.
Qed.

Lemma consumer_sim s r l res : sim M s r → inv r → cons_step s l = Some res → simulated res r.
Proof.
  intros S I Hs. destruct l; try done.
  - unfold cons_step in Hs. destruct (at_rest (s_cons s)) eqn:Hc; [|by destruct (s_cons s)].
    assert (Hs' : (tail ← acquire (s_tail s) (s_cview s) p;
      Some (Ok (set_cons s p (if newest (s_head s) =? tail then Away else NotEmpty (newest (s_head s)))))) = Some res)
      by (destruct (s_cons s); done).
    apply bind_Some in Hs' as (tail & Ha & [= <-]). by apply (call_sim s r p tail false).
  - destruct (s_cons s) eqn:Hp; try (unfold cons_step in Hs; rewrite Hp in Hs; done). by eapply load_slot_sim.
  - destruct (s_cons s) eqn:Hp; try (unfold cons_step in Hs; rewrite Hp in Hs; done). by eapply read_object_sim.
  - unfold cons_step in Hs. destruct (at_rest (s_cons s)) eqn:Hc; [|by destruct (s_cons s)].
    assert (Hs' : (tail ← acquire (s_tail s) (s_cview s) p;
      Some (Ok (set_cons s p (if newest (s_head s) =? tail then Away else Popping (newest (s_head s)))))) = Some res)
      by (destruct (s_cons s); done).
    apply bind_Some in Hs' as (tail & Ha & [= <-]). by apply (call_sim s r p tail true).
  - destruct (s_cons s) eqn:Hp; try (unfold cons_step in Hs; rewrite Hp in Hs; done). by eapply exchange_sim.
  - destruct (s_cons s) eqn:Hp; try (unfold cons_step in Hs; rewrite Hp in Hs; done). by eapply store_head_sim.
  - destruct (s_cons s) eqn:Hp; try (unfold cons_step in Hs; rewrite Hp in Hs; done). by eapply delete_sim.
  - destruct (s_cons s) eqn:Hp; try (unfold cons_step in Hs; rewrite Hp in Hs; done).
    unfold cons_step in Hs. rewrite Hp in Hs. injection Hs as <-. eexists _, r. split; [done|]. split; [done|].
    destruct S as [S1 S2 S3 S4 S5 S6 S7 S8 S9 S10 S11 S12 S13]. unfold cons_sim in S9. rewrite Hp in S9, S12.
    constructor; try done; unfold cons_sim, uncounted in *; simpl; [done..|].
    rewrite S13, Hp, wrap_sub_l. f_equal. lia.
  - unfold cons_step in Hs. destruct (at_rest (s_cons s)) eqn:Hc; [|by destruct (s_cons s)].
    assert (Hs' : (tail ← acquire (s_tail s) (s_cview s) p; Some (Ok (set_cons s p (s_cons s)))) = Some res)
      by (destruct (s_cons s); done).
    apply bind_Some in Hs' as (tail & Ha & [= <-]). by eapply look_sim.
Qed.

Lemma threads_run_sim ls : ∀ s r res, sim M s r → inv r → run s ls = Some res → simulated res r.
Proof.
  induction ls as [|l ls IH]; intros s r res S I Hs.
  { injection Hs as <-. by exists s, r. }
  cbn [run] in Hs. apply bind_Some in Hs as (r1 & Hstep & Hs). unfold step in Hstep.
  assert (simulated r1 r) as (s1 & q1 & -> & Hr1 & Sim1).
  { destruct (prod_step s l) eqn:E; [injection Hstep as <-; by eapply producer_sim|by eapply consumer_sim]. }
  destruct (IH s1 q1 res Sim1 (slot_steps_inv _ _ I Hr1) Hs) as (s2 & q2 & -> & Hr2 & Sim2).
  exists s2, q2. split; [done|]. split; [by etrans|done].
Qed.
End simulation.

(** C35: one thread in [try_push] and one in [front], [pop] and [empty], however their
    steps interleave and whatever their acquire loads return: every access to a slot comes
    after the other thread's last one, no dead object is read or deleted, the object
    [front] points to is the oldest, what [pop] deletes is a prefix of what was pushed,
    and at most [capacity - 1] values are in the slots.  Between calls [size] is the number
    of values inside, and as many objects are alive. *)
Theorem atomic_queue_spsc (M : nat) ls res :
  1 <= M < 2 ^ 63 → run (share (create M)) ls = Some res →
  ∃ s, res = Ok s ∧ s_popped s `prefix_of` s_pushed s ∧
    length (s_pushed s) <= length (s_popped s) + (M - 1) + (if s_cons s is Deleting _ then 1 else 0) ∧
    (∀ p v, s_cons s = Reading p v → s_pushed s !! length (s_popped s) = Some v) ∧
    (s_prod s = Ready → at_rest (s_cons s) = true →
     s_size s = length (s_pushed s) - length (s_popped s) ∧
     Z.of_nat (base.size (s_heap s)) = length (s_pushed s) - length (s_popped s)).
Proof.
  intros HM Hs. destruct (share_sim M HM) as [S0 I0].
  destruct (threads_run_sim M HM ls _ _ res S0 I0 Hs) as (s & r & -> & Hr & S). exists s. split; [done|].
  assert (I := slot_steps_inv M HM _ _ I0 Hr). pose proof (sent_length M s r S I) as Hsl.
  pose proof (slot_bounds M HM r I) as B. pose proof (inv_recvd _ _ _ _ _ I) as [Hrl _].
  assert (Hle : (length (s_popped s) ≤ length (s_pushed s))%nat).
  { pose proof (sm_popped _ _ _ S) as Hp. apply (f_equal length) in Hp. rewrite length_take in Hp. lia. }
  split_and!.
  - rewrite (sm_popped _ _ _ S). apply prefix_take.
  - pose proof (sm_recvd _ _ _ S). destruct (s_cons s); lia.
  - intros p v Hp. pose proof (sm_cons _ _ _ S) as C. unfold cons_sim in C. rewrite Hp in C.
    destruct (r_cons r); [done|]. apply C.
  - intros Hp Hc. pose proof (sm_size _ _ _ S) as Hsz. unfold uncounted in Hsz. rewrite Hp in Hsz.
    destruct (sm_objects _ _ _ S) as (addrs & _ & K). apply heap_size in K. rewrite K, Hp, app_nil_r.
    split; [|lia]. rewrite Hsz. pose proof (sm_recvd _ _ _ S).
    destruct (s_cons s); try done; rewrite wrap_small by (unfold fits; lia); lia.
Qed.
End threads.
Arguments label : clear implicits.
Arguments state : clear implicits.

(** A queue of two slots: the producer finds it full until it sees that the only value
    was popped; the consumer counts a value down before the producer has counted it up. *)
Definition two_threads : list (label Z) :=
  [Push 7 0; StoreSlot; Front 0; StoreTail; Front 1; LoadSlot; Read; Pop 1; Exchange; StoreHead; Delete; CountDown;
   ConsumerEmpty 1; CountUp; Push 8 0; Push 8 1; StoreSlot; StoreTail; CountUp; Front 1; Front 2; LoadSlot; Read].

Definition summary (r : option (result (state Z))) : option (list Z * list Z * Z * bool) :=
  match r with
  | Some (Ok s) => Some (s_pushed s, s_popped s, s_size s, if s_cons s is Reading _ 8 then true else false)
  | _ => None
  end.

Example counted_below_zero :
  summary (run (share (create 2)) (take 12 two_threads)) = Some ([7], [7], 2 ^ 64 - 1, false).
Proof. vm_compute. reflexivity. Qed.

Example two_threads_run : summary (run (share (create 2)) two_threads) = Some ([7; 8], [7], 1, true).
Proof. vm_compute. reflexivity. Qed.

Lemma atomic_queue_spsc_witness : ∃ s, run (share (create 2)) two_threads = Some (Ok s) ∧
  s_popped s `prefix_of` s_pushed s ∧ (∀ p v, s_cons s = Reading p v → s_pushed s !! length (s_popped s) = Some v) ∧
  (s_prod s = Ready → at_rest (s_cons s) = true →
   s_size s = length (s_pushed s) - length (s_popped s) ∧
   Z.of_nat (base.size (s_heap s)) = length (s_pushed s) - length (s_popped s)).
Proof.
  destruct (run (share (create 2)) two_threads) as [res|] eqn:E; [|exfalso; revert E; vm_compute; discriminate].
  destruct (atomic_queue_spsc 2 two_threads res ltac:(lia) E) as (s & -> & H1 & _ & H2 & H3).
  exists s. exact (conj eq_refl (conj H1 (conj H2 H3))).
Defined.
End AtomicQueueThreads.
