(* ===== verification/DMQueue.v ===== *)
(** * [CDMQueue] (dmqueue.h): the ring of pointers with [int] indices

    One slot is kept free.  All index arithmetic is on [int]; results that do
    not fit are undefined. *)
From S2P Require Import Prelude RingBuf TryQueue.
Local Open Scope Z_scope.

(** [void*]. *)
Definition ptr : Type := Z.
Definition nullptr : ptr := 0.

Module DMQueue.

Record t := mk {
  m_pArray : option (list ptr);
  m_nHead : Z;
  m_nTail : Z;
  m_nSize : Z
}.

Definition create : t := mk None 0 0 0.

(** [new void* [n]()]. *)
Definition new_array (n : Z) : result (list ptr) :=
  if n <? 0 then Throw bad_array_new_length else Ok (replicate (Z.to_nat n) nullptr).

Definition Init (q : t) (nSize : Z) : result (t * bool) :=
  m_nSize ← sint (nSize + 1);
  m_pArray ← new_array m_nSize;
  Ok (mk (Some m_pArray) (m_nHead q) (m_nTail q) m_nSize, true).

Definition GetUsedSize (q : t) : result Z :=
  nDist ← sint (m_nTail q + m_nSize q);
  nDist ← sint (nDist - m_nHead q);
  if nDist >=? m_nSize q then sint (nDist - m_nSize q) else Ok nDist.

(** Dereferencing a null [m_pArray] is undefined. *)
Definition array (q : t) : result (list ptr) :=
  match m_pArray q with Some a => Ok a | None => UB end.

Definition PushBack (q : t) (p : ptr) : result (t * bool) :=
  nDist ← sint (m_nTail q + m_nSize q);
  nDist ← sint (nDist - m_nHead q);
  nUsed ← (if nDist >=? m_nSize q then sint (nDist - m_nSize q) else Ok nDist);
  nLimit ← sint (m_nSize q - 1);
  if nUsed >=? nLimit then Ok (q, false) else
  a ← array q;
  a ← awrite a (m_nTail q) p;
  nTail ← sint (m_nTail q + 1);
  nTail ← crem nTail (m_nSize q);
  Ok (mk (Some a) (m_nHead q) nTail (m_nSize q), true).

Definition PopFront (q : t) : result (t * ptr) :=
  nDist ← sint (m_nTail q + m_nSize q);
  nDist ← sint (nDist - m_nHead q);
  nUsed ← (if nDist >=? m_nSize q then sint (nDist - m_nSize q) else Ok nDist);
  if 0 =? nUsed then Ok (q, nullptr) else
  a ← array q;
  p ← aread a (m_nHead q);
  nHead ← sint (m_nHead q + 1);
  nHead ← crem nHead (m_nSize q);
  Ok (mk (Some a) nHead (m_nTail q) (m_nSize q), p).

(** ** Correctness *)

(** The sizes whose index arithmetic stays within [int]. *)
Definition in_range (nSize : Z) : Prop := 0 <= nSize <= 2 ^ 30 - 1.

Record repr (q : t) (limit : nat) (items : list ptr) : Prop := {
  re_range : in_range limit;
  re_array : ∃ a (h t : nat), m_pArray q = Some a ∧ m_nSize q = length a ∧ length a = S limit ∧
    m_nHead q = h ∧ m_nTail q = t ∧ gap_ring (λ _, True) a h t items
}.

Lemma int_range x : 0 <= x < 2 ^ 31 → INT_MIN <= x <= INT_MAX.
Proof. unfold INT_MIN, INT_MAX. lia. Qed.

Lemma Init_ok nSize :
  in_range nSize → ∃ q, Init create nSize = Ok (q, true) ∧ repr q (Z.to_nat nSize) [].
Proof.
  intros Hn. pose proof Hn as [H0 H1]. unfold Init, new_array.
  rewrite sint_ok by (apply int_range; lia). simpl.
  rewrite (proj2 (Z.ltb_ge _ _)) by lia. simpl. eexists. split; [done|].
  constructor; [by rewrite Z2Nat.id|].
  eexists _, 0%nat, 0%nat. simpl. split; [done|]. rewrite length_replicate.
  split_and!; try lia. apply gap_init; [rewrite length_replicate; lia|done].
Qed.

(** The number of elements, as the three methods compute it. *)
Lemma used_eq {A} q limit items (k : Z → result A) :
  repr q limit items →
  (nDist ← sint (m_nTail q + m_nSize q);
   nDist ← sint (nDist - m_nHead q);
   nUsed ← (if nDist >=? m_nSize q then sint (nDist - m_nSize q) else Ok nDist);
   k nUsed) = k (length items).
Proof.
  intros [Hn (a & h & t' & Ha & Hs & Hl & Hh & Ht & G)]. unfold in_range in Hn.
  pose proof (gap_used _ _ _ _ _ G) as Hu. pose proof (gap_tail_lt _ _ _ _ _ G) as Htl.
  pose proof (gap_head _ _ _ _ _ G) as Hhl. rewrite Hs, Hh, Ht.
  rewrite sint_ok, bind_ok by (apply int_range; lia).
  rewrite sint_ok, bind_ok by (apply int_range; lia).
  rewrite Z.geb_leb. destruct (Z.leb_spec (length a) (t' + length a - h)).
  - rewrite sint_ok, bind_ok by (apply int_range; lia). f_equal. case_decide; lia.
  - rewrite bind_ok. f_equal. case_decide; lia.
Qed.

Lemma GetUsedSize_ok q limit items : repr q limit items → GetUsedSize q = Ok (Z.of_nat (length items)).
Proof.
  intros R. rewrite <- (used_eq q limit items Ok R). unfold GetUsedSize.
  destruct (sint (m_nTail q + m_nSize q)) as [n| | |]; [|done..]. simpl.
  destruct (sint (n - m_nHead q)) as [n'| | |]; [|done..]. simpl.
  destruct (n' >=? m_nSize q); [|done]. by destruct (sint _).
Qed.

(** Stepping an index. *)
Lemma step_index (a : list ptr) (i : nat) :
  (i < length a)%nat → length a <= 2 ^ 30 →
  (n ← sint (i + 1); crem n (length a)) = Ok (Z.of_nat (slot a (i + 1))).
Proof.
  intros Hi Hl. rewrite sint_ok, bind_ok by (apply int_range; lia).
  rewrite crem_ok by lia. unfold slot. f_equal. rewrite Nat2Z.inj_mod. f_equal. lia.
Qed.

Lemma PushBack_ok q limit items p :
  repr q limit items →
  if decide (length items < limit)%nat
  then ∃ q', PushBack q p = Ok (q', true) ∧ repr q' limit (items ++ [p])
  else PushBack q p = Ok (q, false).
Proof.
  intros R. unfold PushBack. rewrite (used_eq q limit items _ R).
  destruct R as [Hn (a & h & t' & Ha & Hs & Hl & Hh & Ht & G)]. pose proof Hn as [_ Hn'].
  pose proof (gap_tail_lt _ _ _ _ _ G) as Htl. pose proof (gap_fit _ _ _ _ _ G) as Hf.
  rewrite !Hs, !(sint_ok (length a - 1)), !bind_ok by (apply int_range; lia). rewrite !Z.geb_leb.
  destruct (Z.leb_spec (length a - 1) (length items)); case_decide; try lia; [done|].
  unfold array. rewrite Ha, bind_ok, Ht, awrite_ok, bind_ok by done.
  pose proof (step_index a t' Htl ltac:(lia)) as E. apply bind_inv_ok in E as (n & -> & E).
  rewrite bind_ok, E, bind_ok. eexists. split; [done|]. constructor; [done|].
  eexists _, h, _. simpl. split; [done|]. rewrite length_insert. split_and!; try done.
  apply gap_push; [done|lia].
Qed.

Lemma PopFront_ok q limit items :
  repr q limit items →
  match items with
  | [] => PopFront q = Ok (q, nullptr)
  | p :: items => ∃ q', PopFront q = Ok (q', p) ∧ repr q' limit items
  end.
Proof.
  intros R. unfold PopFront. rewrite (used_eq q limit items _ R).
  destruct R as [Hn (a & h & t' & Ha & Hs & Hl & Hh & Ht & G)]. pose proof Hn as [_ Hn'].
  destruct items as [|p items]; [done|].
  pose proof (gap_head _ _ _ _ _ G) as Hhl.
  rewrite (proj2 (Z.eqb_neq _ _)) by (simpl; lia). unfold array.
  pose proof (gap_front _ _ _ _ _ G p items eq_refl) as Hp.
  rewrite Ha, bind_ok, Hh, (aread_ok _ _ _ Hp), bind_ok, Hs.
  pose proof (step_index a h Hhl ltac:(lia)) as E. apply bind_inv_ok in E as (n & -> & E).
  rewrite bind_ok, E, bind_ok. eexists. split; [done|]. constructor; [done|].
  eexists a, _, t'. simpl. split_and!; try done.
  pose proof (gap_pop _ _ _ _ _ G p items p eq_refl I) as G'. by rewrite list_insert_id in G'.
Qed.

(** The queue behind the common interface; a null pointer popped is read as
    "empty". *)
#[global] Instance ops : TryQueue t ptr := {|
  tq_push := PushBack;
  tq_pop q := '(q, p) ← PopFront q; Ok (q, if p =? nullptr then None else Some p);
  tq_used := GetUsedSize |}.

#[global, refine] Instance laws : TryQueueLaws t ptr := {|
  tq_repr q n xs := repr q n xs ∧ Forall (λ p, p ≠ nullptr) xs;
  tq_item p := p ≠ nullptr |}.
Proof.
  - intros q n xs [[_ (a & h & t' & _ & _ & Hl & _ & _ & G)] _]. apply gap_fit in G. lia.
  - intros q n xs p [R Hxs] Hp. pose proof (PushBack_ok q n xs p R) as P. case_decide; [|done].
    destruct P as (q' & ? & ?). exists q'. split; [done|]. split; [done|].
    apply Forall_app_2; [done|]. by apply Forall_singleton.
  - intros q n xs [R Hxs]. pose proof (PopFront_ok q n xs R) as P. simpl.
    destruct xs as [|p xs]; [by rewrite P|]. destruct P as (q' & -> & R').
    apply Forall_cons in Hxs as [Hp Hxs]. exists q'. simpl.
    by rewrite (proj2 (Z.eqb_neq p nullptr) Hp).
  - intros q n xs [R _]. by apply GetUsedSize_ok in R.
Defined.

(** a queue initialised with any [nSize] from 0 to 2^30 - 1 answers every
    sequence of [PushBack] of non-null pointers, [PopFront] and [GetUsedSize]
    as a bounded queue of [nSize] pointers; no index leaves the array and no
    [int] overflows. *)
Theorem dmqueue_refines nSize (cs : list (tq_call ptr))
  (Hn : in_range nSize) (Hcs : Forall tq_call_ok cs) :
  ∃ q q', Init create nSize = Ok (q, true) ∧
    tq_run q cs = Ok (q', (tq_spec_run (Z.to_nat nSize) [] cs).2) ∧
    GetUsedSize q' = Ok (Z.of_nat (length (tq_spec_run (Z.to_nat nSize) [] cs).1)).
Proof.
  destruct (Init_ok nSize Hn) as (q & Hq & R).
  destruct (tq_run_refines cs q (Z.to_nat nSize) []) as (q' & Hr & R' & _); [done|done|].
  exists q, q'. split_and!; [done|done|]. by eapply GetUsedSize_ok.
Qed.

Lemma dmqueue_refines_witness :
  ∃ q q', Init create 2 = Ok (q, true) ∧
    tq_run q [TryPush 7; TryPush 8; TryPush 9; TryPop; TryPush 9; TryPop; TryPop; TryPop] =
    Ok (q', [Pushed true; Pushed true; Pushed false; Popped (Some 7); Pushed true;
             Popped (Some 8); Popped (Some 9); Popped None]) ∧
    GetUsedSize q' = Ok 0.
Proof.
  apply (dmqueue_refines 2
    [TryPush 7; TryPush 8; TryPush 9; TryPop; TryPush 9; TryPop; TryPop; TryPop]).
  - split; lia.
  - repeat apply Forall_cons_2; by simpl.
Defined.

(** before [Init] the queue refuses every pointer and is empty; a null
    pointer is accepted and takes a place, but [PopFront] returns it as if the
    queue were empty; and a size of [INT_MAX] overflows in [Init]. *)
Theorem dmqueue_edges p q limit items (R : repr q limit items) (Hroom : (length items < limit)%nat) :
  PushBack create p = Ok (create, false) ∧ PopFront create = Ok (create, nullptr) ∧
  GetUsedSize create = Ok 0 ∧
  (∃ q', PushBack q nullptr = Ok (q', true) ∧ repr q' limit (items ++ [nullptr]) ∧
         (items = [] → ∃ q'', PopFront q' = Ok (q'', nullptr) ∧ repr q'' limit [])) ∧
  Init create INT_MAX = UB.
Proof.
  assert (E : ∀ x, INT_MIN <= x <= INT_MAX → sint x = Ok x) by apply sint_ok.
  split_and!.
  - unfold PushBack. simpl. by rewrite !E by (unfold INT_MIN, INT_MAX; lia).
  - unfold PopFront. simpl. by rewrite !E by (unfold INT_MIN, INT_MAX; lia).
  - unfold GetUsedSize. simpl. by rewrite !E by (unfold INT_MIN, INT_MAX; lia).
  - pose proof (PushBack_ok q limit items nullptr R) as P. rewrite decide_True in P by done.
    destruct P as (q' & Hq' & R'). exists q'. split_and!; [done|done|].
    intros ->. apply PopFront_ok in R'. simpl in R'. done.
  - done.
Qed.

Lemma dmqueue_edges_witness :
  ∃ q, Init create 1 = Ok (q, true) ∧ repr q 1 [] ∧ PushBack create 5 = Ok (create, false) ∧
    ∃ q', PushBack q nullptr = Ok (q', true) ∧
      ∃ q'', PopFront q' = Ok (q'', nullptr) ∧ repr q'' 1 [].
Proof.
  destruct (Init_ok 1) as (q & Hq & R); [split; lia|]. exists q. split; [done|]. split; [done|].
  destruct (dmqueue_edges 5 q 1 [] R) as (? & _ & _ & (q' & Hq' & _ & H) & _); [simpl; lia|].
  split; [done|]. exists q'. split; [done|]. by apply H.
Defined.

End DMQueue.
