(* ===== verification/DMMutexQueue.v ===== *)
(** * [CDMMutexQueue] (dmmutexqueue.h): a [CDMQueue] behind a mutex and an
    initialisation flag *)
From S2P Require Import Prelude TryQueue Monitor DMQueue.
Local Open Scope Z_scope.

Module DMMutexQueue.

(** The members the mutex guards. *)
Record t := mk { m_queue : DMQueue.t; m_bInitialized : bool }.

Definition create : t := mk DMQueue.create false.

(** The bodies of the methods, with the mutex held. *)
Definition Init (q : t) (nSize : Z) : result (t * bool) :=
  if m_bInitialized q then Ok (q, false) else
  '(queue, ret) ← DMQueue.Init (m_queue q) nSize;
  Ok (mk queue (if ret : bool then true else m_bInitialized q), ret).

Definition PushBack (q : t) (p : ptr) : result (t * bool) :=
  if negb (m_bInitialized q) then Ok (q, false) else
  '(queue, ret) ← DMQueue.PushBack (m_queue q) p;
  Ok (mk queue (m_bInitialized q), ret).

Definition PopFront (q : t) : result (t * ptr) :=
  if negb (m_bInitialized q) then Ok (q, nullptr) else
  '(queue, p) ← DMQueue.PopFront (m_queue q);
  Ok (mk queue (m_bInitialized q), p).

Definition GetUsedSize (q : t) : result Z :=
  if negb (m_bInitialized q) then Ok 0 else DMQueue.GetUsedSize (m_queue q).

Inductive call := CInit (nSize : Z) | CPushBack (p : ptr) | CPopFront | CGetUsedSize.
Inductive answer := AFlag (b : bool) | APtr (p : ptr) | AInt (n : Z).

(** One method as the body of a monitor; none of them waits or notifies. *)
Definition body (q : t) (c : call) : result (outcome t answer) :=
  match c with
  | CInit n => '(q, b) ← Init q n; Ok (Return q (AFlag b) false)
  | CPushBack p => '(q, b) ← PushBack q p; Ok (Return q (AFlag b) false)
  | CPopFront => '(q, p) ← PopFront q; Ok (Return q (APtr p) false)
  | CGetUsedSize => n ← GetUsedSize q; Ok (Return q (AInt n) false)
  end.

(** ** The sequential specification *)

(** Not initialised, or a bounded queue. *)
Definition model : Type := option (nat * list ptr).

Definition spec (m : model) (c : call) : model * answer :=
  match m, c with
  | None, CInit n => (Some (Z.to_nat n, []), AFlag true)
  | None, CPushBack _ => (None, AFlag false)
  | None, CPopFront => (None, APtr nullptr)
  | None, CGetUsedSize => (None, AInt 0)
  | Some _, CInit _ => (m, AFlag false)
  | Some (n, xs), CPushBack p =>
      if decide (length xs < n)%nat then (Some (n, xs ++ [p]), AFlag true) else (m, AFlag false)
  | Some (n, xs), CPopFront => (Some (n, tail xs), APtr (default nullptr (head xs)))
  | Some (n, xs), CGetUsedSize => (m, AInt (length xs))
  end.

Fixpoint spec_run (m : model) (log : list (call * answer)) : Prop :=
  match log with
  | [] => True
  | (c, a) :: log => a = (spec m c).2 ∧ spec_run (spec m c).1 log
  end.

Definition repr (q : t) (m : model) : Prop :=
  match m with
  | None => q = create
  | Some (n, xs) => m_bInitialized q = true ∧ DMQueue.repr (m_queue q) n xs
  end.

Definition call_ok (c : call) : Prop :=
  match c with CInit n => DMQueue.in_range n | _ => True end.

Lemma body_ok q m c :
  repr q m → call_ok c →
  ∃ q', body q c = Ok (Return q' (spec m c).2 false) ∧ repr q' (spec m c).1.
Proof.
  destruct m as [[n xs]|]; simpl; [intros [Hi R] Hc|intros -> Hc].
  - destruct q as [q []]; [clear Hi; simpl in R|done]. destruct c as [k|p| |]; simpl.
    + by eexists.
    + pose proof (DMQueue.PushBack_ok q n xs p R) as P. unfold PushBack. simpl.
      case_decide; [destruct P as (q' & -> & R')|rewrite P]; by eexists.
    + pose proof (DMQueue.PopFront_ok q n xs R) as P. unfold PopFront. simpl.
      destruct xs as [|x xs]; [rewrite P|destruct P as (q' & -> & R')]; by eexists.
    + unfold GetUsedSize. simpl. rewrite (DMQueue.GetUsedSize_ok q n xs R). by eexists.
  - destruct c as [k|p| |]; try by eexists.
    destruct (DMQueue.Init_ok k Hc) as (q' & Hq' & R'). simpl. unfold Init. simpl.
    rewrite Hq'. by eexists.
Qed.

(** The states a monitor over [body] goes through, when every call is in
    range. *)
Definition good (q : t) : Prop := ∃ m, repr q m.

Lemma serial_spec log : ∀ q m,
  repr q m → Forall (λ ca, call_ok ca.1) log → serial_results body q log → spec_run m log.
Proof.
  induction log as [|[c a] log IH]; intros q m R Hok Hr; simpl in *; [done|].
  apply Forall_cons in Hok as [Hc Hok]. destruct Hr as (q' & n & Hb & Hr).
  destruct (body_ok q m c R Hc) as (q'' & Hb' & R'). rewrite Hb in Hb'.
  injection Hb' as -> -> _. split; [done|]. by eapply IH.
Qed.

(** The calls a state has seen. *)
Definition calls_ok (ls : list (label call)) : Prop :=
  Forall (λ l, match l with Call _ c => call_ok c | _ => True end) ls.

Definition phase_ok (p : phase t call) : Prop :=
  match p with Calling c | Inside c _ | Sleeping c => call_ok c end.

Lemma run_calls_ok ls : ∀ m m',
  calls_ok ls → map_Forall (λ _, phase_ok) (m_threads m) → Forall (λ ca, call_ok ca.1) (m_log m) →
  good (m_obj m) → mon_inv body create m → m_bad m = false →
  mon_run body m ls = Some m' →
  Forall (λ ca, call_ok ca.1) (m_log m') ∧ m_bad m' = false.
Proof.
  induction ls as [|l ls IH]; intros m m' Hls Hts Hlog Hg I Hb Hr; simpl in Hr.
  { by injection Hr as <-. }
  apply Forall_cons in Hls as [Hl Hls]. apply bind_Some in Hr as (m1 & Hs & Hr).
  pose proof (mon_step_inv _ _ _ _ _ I Hs) as I1. revert Hr.
  destruct l as [i c|i|i wakes|i]; simpl in Hs.
  - destruct (m_threads m !! i); [done|]. injection Hs as <-.
    apply IH; try done. by apply map_Forall_insert_2.
  - destruct (m_owner m); [done|].
    destruct (m_threads m !! i) as [[c| |]|] eqn:Hi; try done. injection Hs as <-.
    apply IH; try done. apply map_Forall_insert_2; [|done]. exact (Hts _ _ Hi).
  - destruct (m_threads m !! i) as [[|c seen|]|] eqn:Hi; try done.
    pose proof (Hts _ _ Hi) as Hc. simpl in Hc.
    destruct (mi_owner _ _ _ I _ _ _ Hi) as [_ ->]. destruct Hg as [sp R].
    destruct (body_ok _ _ _ R Hc) as (q' & Hbody & R'). rewrite Hbody in Hs. simpl in Hs.
    injection Hs as <-. apply IH; try done; simpl.
    + by apply map_Forall_delete.
    + apply Forall_app_2; [done|]. by apply Forall_singleton.
    + by eexists.
  - destruct (m_threads m !! i) as [[| |c]|] eqn:Hi; try done. injection Hs as <-.
    apply IH; try done. apply map_Forall_insert_2; [|done]. exact (Hts _ _ Hi).
Qed.

(** C39: whatever calls any number of threads make, in whatever interleaving,
    the mutex queue is linearizable: in the order the calls held the mutex,
    their answers are those of a queue that refuses everything until the first
    [Init], ignores later ones, and is bounded first-in first-out in between;
    and no call is undefined. *)
Theorem mutex_queue_linearizable ls m
  (Hls : calls_ok ls) (Hr : mon_run body (mon_init create) ls = Some m) :
  spec_run None (m_log m) ∧ m_bad m = false.
Proof.
  pose proof (mon_run_inv _ _ _ _ Hr) as I.
  apply run_calls_ok in Hr as [Hlog Hb]; try done.
  - split; [|done]. eapply serial_spec; [|done|apply I]. done.
  - by exists None.
Qed.

(** Three threads: one initialises while another pushes too early. *)
Lemma mutex_queue_linearizable_witness :
  let ls := [Call 1 (CPushBack 5); Call 2 (CInit 1); Lock 1; Unlock 1 None; Lock 2;
             Call 1 (CPushBack 6); Unlock 2 None; Lock 1; Call 3 (CPushBack 7); Unlock 1 None;
             Lock 3; Unlock 3 None; Call 2 CPopFront; Lock 2; Unlock 2 None] in
  ∃ m, mon_run body (mon_init create) ls = Some m ∧
    m_log m = [(CPushBack 5, AFlag false); (CInit 1, AFlag true); (CPushBack 6, AFlag true);
               (CPushBack 7, AFlag false); (CPopFront, APtr 6)] ∧
    spec_run None (m_log m) ∧ m_bad m = false.
Proof.
  intros ls. destruct (mon_run body (mon_init create) ls) as [m|] eqn:Hm; [|by vm_compute in Hm].
  exists m. split; [done|]. split; [by vm_compute in Hm; injection Hm as <-|].
  apply (mutex_queue_linearizable ls m); [|done]. repeat constructor; simpl; lia || done.
Defined.

End DMMutexQueue.
