(* ===== verification/QueueThreadPool.v ===== *)
(** * [CDMQueueThreadPool] (queuethreadpool.hpp): a chain of worker threads

    Worker [i] takes tasks from queue [i] and hands them to queue [i + 1] unless that one is
    loaded, in which case it runs them.  A step is a call of [CDMQueue], with the plain
    variables it loads and stores.  These executions, in which the calls do not overlap,
    are some of those of the code; they are enough to show that it has a data race. *)
From S2P Require Import Prelude TryQueue DMQueue.
Local Open Scope Z_scope.

#[local] Arguments Z.eqb : simpl never.

Module QueueThreadPool.
Section pool.
(** The template parameters. *)
Context (N Q : Z).

(** Where a worker is in [ThreadFunction]. *)
Inductive worker :=
  | WIdle                       (* at the loop condition *)
  | WGot (task : ptr)           (* in [ProcessTask], before the test *)
  | WForward (task : ptr)       (* about to push to the next queue *)
  | WRun (task : ptr)           (* about to call [OnProcessTask] *)
  | WExit.

Record t := mk {
  workers : list worker;        (* [threads] *)
  queues : list DMQueue.t;
  running : bool;
  max_queue : Z;
  accepted : list ptr;          (* the tasks [PushTask] returned [true] for *)
  processed : list ptr          (* the tasks given to [OnProcessTask] *)
}.

(** [queue.Init(max_queue)]: the [size_t] is converted to [int]. *)
Definition to_int (x : Z) : Z :=
  let w := wrap 32 x in if w <? 2 ^ 31 then w else w - 2 ^ 32.

Fixpoint init_all (n : nat) : result (list DMQueue.t) :=
  match n with
  | O => Ok []
  | S n => '(q, _) ← DMQueue.Init DMQueue.create (to_int Q); qs ← init_all n; Ok (q :: qs)
  end.

Definition create : result t :=
  qs ← init_all (Z.to_nat N);
  Ok (mk (replicate (Z.to_nat N) WIdle) qs true Q [] []).

Definition PushTask (p : t) (task : ptr) : result (t * bool) :=
  q ← aread (queues p) 0;
  '(q, b) ← DMQueue.PushBack q task;
  qs ← awrite (queues p) 0 q;
  Ok (mk (workers p) qs (running p) (max_queue p)
        (if b : bool then accepted p ++ [task] else accepted p) (processed p), b).

(** [QueueSize > max_queue / N]: the [int] is converted to [size_t]. *)
Definition shouldBalanceLoad (p : t) (threadId : Z) : result bool :=
  q ← aread (queues p) threadId;
  QueueSize ← DMQueue.GetUsedSize q;
  Ok (u64 QueueSize >? max_queue p / N).

Definition set_worker (p : t) (i : nat) (w : worker) : t :=
  mk (<[i := w]> (workers p)) (queues p) (running p) (max_queue p) (accepted p) (processed p).

(** The three stages of one round of [ThreadFunction] for worker [i]. *)
Definition PopTask (p : t) (i : nat) : result t :=
  if negb (running p) then Ok (set_worker p i WExit) else
  q ← aread (queues p) i;
  '(q, task) ← DMQueue.PopFront q;
  qs ← awrite (queues p) i q;
  Ok (mk (if nullptr =? task then workers p else <[i := WGot task]> (workers p)) qs (running p)
        (max_queue p) (accepted p) (processed p)).

Definition ProcessTask_test (p : t) (i : nat) (task : ptr) : result t :=
  if i <? u64 (N - 1) then
    loaded ← shouldBalanceLoad p (i + 1);
    Ok (set_worker p i (if loaded : bool then WRun task else WForward task))
  else Ok (set_worker p i (WRun task)).

(** The result of [PushBack] is not looked at. *)
Definition ProcessTask_forward (p : t) (i : nat) (task : ptr) : result t :=
  q ← aread (queues p) (i + 1);
  '(q, _) ← DMQueue.PushBack q task;
  qs ← awrite (queues p) (i + 1) q;
  Ok (mk (<[i := WIdle]> (workers p)) qs (running p) (max_queue p) (accepted p) (processed p)).

Definition OnProcessTask (p : t) (i : nat) (task : ptr) : t :=
  mk (<[i := WIdle]> (workers p)) (queues p) (running p) (max_queue p) (accepted p)
    (processed p ++ [task]).

Inductive label :=
  | Push (task : ptr)            (* a call of [PushTask] *)
  | Work (i : nat)               (* worker [i] takes a step *)
  | Stop.                        (* the destructor clears [running] *)

Definition pool_step (p : t) (l : label) : option (result t) :=
  match l with
  | Push task => Some ('(p, _) ← PushTask p task; Ok p)
  | Stop =>
      Some (Ok (mk (workers p) (queues p) false (max_queue p) (accepted p) (processed p)))
  | Work i =>
      w ← workers p !! i;
      match w with
      | WIdle => Some (PopTask p i)
      | WGot task => Some (ProcessTask_test p i task)
      | WForward task => Some (ProcessTask_forward p i task)
      | WRun task => Some (Ok (OnProcessTask p i task))
      | WExit => None
      end
  end.

Fixpoint pool_run (p : t) (ls : list label) : option (result t) :=
  match ls with
  | [] => Some (Ok p)
  | l :: ls => r ← pool_step p l; match r with Ok p => pool_run p ls | r => Some r end
  end.

(** ** Accesses to the plain variables of the queues *)

(** The thread that owns the pool and calls [PushTask], and the workers. *)
Inductive thread := Owner | Worker (i : nat).
(** [m_nHead], [m_nTail] and the slots of queue [i]. *)
Inductive place := Head (i : nat) | Tail (i : nat) | Slot (i : nat) (k : Z).
Record access := Access { thread_of : thread; place_of : place; is_store : bool }.
#[global] Instance thread_eq_dec : EqDecision thread.
Proof. solve_decision. Defined.
#[global] Instance place_eq_dec : EqDecision place.
Proof. solve_decision. Defined.
#[global] Instance access_eq_dec : EqDecision access.
Proof. solve_decision. Defined.

(** [GetUsedSize], and the start of the other two. *)
Definition used_accesses (th : thread) (i : nat) : list access :=
  [Access th (Tail i) false; Access th (Head i) false].
Definition push_accesses (th : thread) (i : nat) (q : DMQueue.t) (task : ptr) : list access :=
  used_accesses th i ++
  match DMQueue.PushBack q task with
  | Ok (_, true) =>
      [Access th (Tail i) false; Access th (Slot i (DMQueue.m_nTail q)) true; Access th (Tail i) false; Access th (Tail i) true]
  | _ => []
  end.
Definition pop_accesses (th : thread) (i : nat) (q : DMQueue.t) : list access :=
  used_accesses th i ++
  if DMQueue.m_nTail q =? DMQueue.m_nHead q then []
  else [Access th (Head i) false; Access th (Slot i (DMQueue.m_nHead q)) false; Access th (Head i) false; Access th (Head i) true].

Definition footprint (p : t) (l : label) : list access :=
  let at_queue (i : nat) (f : DMQueue.t → list access) := from_option f [] (queues p !! i) in
  match l with
  | Push task => at_queue 0%nat (λ q, push_accesses Owner 0 q task)
  | Stop => []
  | Work i =>
      match workers p !! i with
      | Some WIdle => if running p then at_queue i (pop_accesses (Worker i) i) else []
      | Some (WGot _) => if i <? u64 (N - 1) then used_accesses (Worker i) (S i) else []
      | Some (WForward task) => at_queue (S i) (λ q, push_accesses (Worker i) (S i) q task)
      | Some (WRun _) | Some WExit | None => []
      end
  end.

Fixpoint accesses (p : t) (ls : list label) : list access :=
  match ls with
  | [] => []
  | l :: ls => footprint p l ++ match pool_step p l with Some (Ok p) => accesses p ls | _ => [] end
  end.

(** Two threads access the same variable, and one stores to it.  Nothing orders the
    accesses of two threads of the pool: all of them come after the creation of the
    workers and before they are joined, and the only atomic variable, [running], is stored
    to once, after which a worker that reads the new value makes no further access. *)
Definition race (tr : list access) : Prop :=
  ∃ a b, a ∈ tr ∧ b ∈ tr ∧ thread_of a ≠ thread_of b ∧ place_of a = place_of b ∧ (is_store a || is_store b) = true.

(** ** No task is run without a race *)

(** No worker has a task and the queues that satisfy [P] are empty. *)
Record quiet (P : nat → Prop) (p : t) : Prop := {
  qt_workers i w : workers p !! i = Some w → w = WIdle ∨ w = WExit;
  qt_processed : processed p = [];
  qt_queues i q : P i → queues p !! i = Some q → DMQueue.m_nTail q = DMQueue.m_nHead q
}.

Lemma empty_pop q q' task :
  DMQueue.m_nTail q = DMQueue.m_nHead q → DMQueue.PopFront q = Ok (q', task) → q' = q ∧ task = nullptr.
Proof.
  intros Hq (d & Hd%sint_inv & (d' & Hd'%sint_inv & (u & Hu & Hr)%bind_inv_ok)%bind_inv_ok)%bind_inv_ok.
  assert (d' = DMQueue.m_nSize q) as -> by lia.
  rewrite Z.geb_leb, Z.leb_refl, Z.sub_diag in Hu. apply sint_inv in Hu as ->. by injection Hr as <- <-.
Qed.

Lemma push_refused q q' task : DMQueue.PushBack q task = Ok (q', false) → q' = q.
Proof.
  unfold DMQueue.PushBack.
  intros (? & _ & (? & _ & (? & _ & (? & _ & Hr)%bind_inv_ok)%bind_inv_ok)%bind_inv_ok)%bind_inv_ok.
  case_match; [by injection Hr|].
  by apply bind_inv_ok in Hr as (? & _ & (? & _ & (? & _ & (? & _ & [=])%bind_inv_ok)%bind_inv_ok)%bind_inv_ok).
Qed.

Lemma init_all_empty n qs i q : init_all n = Ok qs → qs !! i = Some q → DMQueue.m_nTail q = DMQueue.m_nHead q.
Proof.
  revert qs i. induction n as [|n IH]; intros qs i; [by intros [= <-]|].
  intros ([q0 b] & Hq & (qs' & Hqs & [= <-])%bind_inv_ok)%bind_inv_ok.
  destruct i as [|i]; [|by apply (IH qs' i)]. intros Heq. simpl in Heq. simplify_eq. revert Hq. unfold DMQueue.Init.
  by intros (? & _ & (? & _ & [= <- <-])%bind_inv_ok)%bind_inv_ok.
Qed.

Lemma create_quiet P p : create = Ok p → quiet P p.
Proof.
  intros (qs & Hqs & [= <-])%bind_inv_ok. split; simpl; [|done|].
  - intros i w [-> _]%lookup_replicate_1. by left.
  - intros i q _ Hq. by eapply init_all_empty.
Qed.

Lemma awrite_same {A} (l : list A) i x l' : aread l i = Ok x → awrite l i x = Ok l' → l' = l.
Proof.
  unfold aread, awrite. repeat case_match; try done. intros [= ->] [= <-]. by apply list_insert_id.
Qed.

Lemma aread_0 {A} (l : list A) x : aread l 0 = Ok x → l !! 0%nat = Some x.
Proof. unfold aread. change (Z.to_nat 0) with 0%nat. rewrite Z.leb_refl. case_match; congruence. Qed.

Section step.
Context (P : nat → Prop) `{!∀ i, Decision (P i)}.

Lemma push_quiet p task p' :
  quiet P p → pool_step p (Push task) = Some (Ok p') →
  (P 0%nat → Access Owner (Tail 0) true ∉ footprint p (Push task)) → quiet P p'.
Proof.
  intros [W R E] Hs Hno. simpl in Hs. injection Hs as Hs. apply bind_inv_ok in Hs as ([p1 b] & Hp & [= <-]).
  apply bind_inv_ok in Hp as (q & Hq & ([q' b'] & Hpush & (qs & Hqs & [= <- <-])%bind_inv_ok)%bind_inv_ok).
  split; [done|done|]. simpl. intros i x Hi Hx. destruct i as [|i].
  - assert (b' = false) as ->.
    { destruct b'; [|done]. destruct (Hno Hi). simpl. rewrite (aread_0 _ _ Hq). simpl.
      unfold push_accesses. rewrite Hpush. set_solver. }
    apply push_refused in Hpush as ->. rewrite (awrite_same _ _ _ _ Hq Hqs) in Hx. by apply (E 0%nat).
  - unfold awrite in Hqs. destruct (_ && _); [|done]. injection Hqs as <-. simpl in Hx.
    rewrite list_lookup_insert_ne in Hx by done. by apply (E (S i)).
Qed.

Lemma pop_quiet p i p' :
  quiet P p → PopTask p i = Ok p' → workers p !! i = Some WIdle →
  (¬ P i → Access (Worker i) (Tail i) false ∉ footprint p (Work i)) → quiet P p'.
Proof.
  intros [W R E] Hs Hw Hno. unfold PopTask in Hs. destruct (running p) eqn:Hrun; cbn [negb] in Hs.
  - apply bind_inv_ok in Hs as (q & Hq & ([q' task] & Hpop & (qs & Hqs & [= <-])%bind_inv_ok)%bind_inv_ok).
    assert (queues p !! i = Some q) as Hqi.
    { unfold aread in Hq. case_match; [|done]. rewrite Nat2Z.id in Hq. by destruct (queues p !! i); [injection Hq as ->|]. }
    destruct (decide (P i)) as [Hi|Hi].
    + destruct (empty_pop q q' task (E i q Hi Hqi) Hpop) as [-> ->]. simpl. rewrite (awrite_same _ _ _ _ Hq Hqs).
      by split.
    + destruct (Hno Hi). simpl. rewrite Hw, Hrun, Hqi. simpl. unfold pop_accesses, used_accesses. set_solver.
  - injection Hs as <-. split; [|done|done]. simpl. intros k w. rewrite list_lookup_insert_Some.
    intros [(_ & <- & _)|[_ Hk]]; [by right|by apply (W k)].
Qed.

(** A step keeps the pool quiet if the owner does not push to a queue that should stay
    empty, and a worker does not look into one that may have tasks. *)
Lemma quiet_step p l p' :
  quiet P p → pool_step p l = Some (Ok p') →
  (P 0%nat → Access Owner (Tail 0) true ∉ footprint p l) →
  (∀ i, ¬ P i → Access (Worker i) (Tail i) false ∉ footprint p l) → quiet P p'.
Proof.
  intros Q0 Hs Hown Hwork. destruct l as [task|i|]; [by eapply push_quiet| |].
  - simpl in Hs. destruct (workers p !! i) as [w|] eqn:Hw; [|done]. simpl in Hs.
    destruct (qt_workers _ _ Q0 i w Hw) as [->| ->]; [|done]. injection Hs as Hs. eapply pop_quiet; eauto.
  - injection Hs as <-. destruct Q0. by split.
Qed.

Lemma quiet_run ls : ∀ p p',
  quiet P p → pool_run p ls = Some (Ok p') → (P 0%nat → Access Owner (Tail 0) true ∉ accesses p ls) →
  (∀ i, ¬ P i → Access (Worker i) (Tail i) false ∉ accesses p ls) → quiet P p'.
Proof.
  induction ls as [|l ls IH]; intros p p' Q0 Hr Hown Hwork; [by injection Hr as <-|]. cbn [pool_run accesses] in *.
  destruct (pool_step p l) as [[p1| | |]|] eqn:Hs; try done. simpl in Hr.
  eapply (IH p1); [eapply quiet_step; eauto| |..]; set_solver.
Qed.
End step.
End pool.

(** no task is run without a data race.  Whatever the number of workers and the size of
    the queues, in every execution in which a task has been run (the calls of [CDMQueue]
    one after the other), the owner's [PushTask] has stored to [m_nTail] of the first queue
    and its worker's [PopFront] has loaded it: a plain [int], without synchronisation
    between the two threads, which is undefined behaviour in C++. *)
Theorem no_task_without_race N Q ls p p' :
  create N Q = Ok p → pool_run N p ls = Some (Ok p') → processed p' ≠ [] →
  Access Owner (Tail 0) true ∈ accesses N p ls ∧ Access (Worker 0) (Tail 0) false ∈ accesses N p ls ∧
  race (accesses N p ls).
Proof.
  intros Hp Hr Hdone.
  assert (Access Owner (Tail 0) true ∈ accesses N p ls) as Ho.
  { destruct (decide (Access Owner (Tail 0) true ∈ accesses N p ls)) as [|Hn]; [done|]. destruct Hdone.
    apply (qt_processed (λ _, True)), (quiet_run N (λ _, True) ls p); [by eapply create_quiet|done|done|by intros i []]. }
  assert (Access (Worker 0) (Tail 0) false ∈ accesses N p ls) as Hw.
  { destruct (decide (Access (Worker 0) (Tail 0) false ∈ accesses N p ls)) as [|Hn]; [done|]. destruct Hdone.
    apply (qt_processed (λ i, i ≠ 0%nat)), (quiet_run N (λ i, i ≠ 0%nat) ls p); [by eapply create_quiet|done|done|].
    intros i Hi. by assert (i = 0%nat) as -> by lia. }
  split; [done|]. split; [done|]. by exists (Access Owner (Tail 0) true), (Access (Worker 0) (Tail 0) false).
Qed.

(** Two workers, one task, which the second one runs. *)
Definition one_task : list label := [Work 0; Push 11; Work 1; Work 0; Work 0; Work 0; Work 1; Work 1; Work 1].

Lemma no_task_without_race_witness :
  ∃ p p', create 2 8 = Ok p ∧ pool_run 2 p one_task = Some (Ok p') ∧ processed p' = [11] ∧
    Access Owner (Tail 0) true ∈ accesses 2 p one_task ∧ Access (Worker 0) (Tail 0) false ∈ accesses 2 p one_task ∧
    race (accesses 2 p one_task).
Proof.
  destruct (create 2 8) as [p| | |] eqn:Hp; [|by vm_compute in Hp..].
  destruct (pool_run 2 p one_task) as [[p'| | |]|] eqn:Hr;
    [|by vm_compute in Hp; injection Hp as <-; vm_compute in Hr..].
  assert (processed p' = [11]) as Hd.
  { vm_compute in Hp. injection Hp as <-. vm_compute in Hr. by injection Hr as <-. }
  exists p, p'. split; [done|]. split; [done|]. split; [done|].
  apply (no_task_without_race 2 8 one_task p p'); [done|done|]. rewrite Hd. discriminate.
Defined.
End QueueThreadPool.
