(* ===== verification/ThreadSafeQueue.v ===== *)
(** * [ThreadSafeQueue] (thread_safe_queue.h): a queue with a blocking [pop] *)
From S2P Require Import Prelude Monitor.

Module ThreadSafeQueue.
Section queue.
Context {T : Type}.

(** The member [queue_], a [std::queue]. *)
Definition t : Type := list T.

Inductive call := CPush (value : T) | CPop | CTryPop | CEmpty.
Inductive answer := ADone | AValue (value : T) | AFailed | AFlag (b : bool).

(** The bodies of the methods, with the mutex held. *)
Definition push (queue_ : t) (value : T) : outcome t answer :=
  Return (queue_ ++ [value]) ADone true.

Definition pop (queue_ : t) : outcome t answer :=
  match queue_ with
  | [] => Wait
  | value :: queue_ => Return queue_ (AValue value) false
  end.

Definition try_pop (queue_ : t) : outcome t answer :=
  match queue_ with
  | [] => Return [] AFailed false
  | value :: queue_ => Return queue_ (AValue value) false
  end.

Definition empty (queue_ : t) : outcome t answer :=
  Return queue_ (AFlag (bool_decide (length queue_ = 0))) false.

Definition body (queue_ : t) (c : call) : result (outcome t answer) :=
  Ok match c with
     | CPush value => push queue_ value
     | CPop => pop queue_
     | CTryPop => try_pop queue_
     | CEmpty => empty queue_
     end.

#[global] Instance call_is_pop (c : call) : Decision (c = CPop).
Proof. destruct c; [right|left|right|right]; done. Defined.

Abbreviation mon := (monitor t call answer).
Abbreviation init := (@mon_init t call answer ([] : t)).
Abbreviation step := (@mon_step t call answer body).
Abbreviation run := (@mon_run t call answer body).

(** ** First in, first out *)

Definition pushed (log : list (call * answer)) : list T :=
  omap (λ ca, match ca.1 with CPush v => Some v | _ => None end) log.
Definition popped (log : list (call * answer)) : list T :=
  omap (λ ca, match ca.2 with AValue v => Some v | _ => None end) log.

Lemma serial_fifo log : ∀ q q',
  serial_results body q log → serial body q log = Some q' →
  q ++ pushed log = popped log ++ q'.
Proof.
  induction log as [|[c a] log IH]; intros q q' Hr Hs; simpl in *.
  { injection Hs as ->. by rewrite app_nil_r. }
  destruct Hr as (q1 & n & Hb & Hr). unfold body in Hb. injection Hb as Hb.
  rewrite Hb in Hs. specialize (IH _ _ Hr Hs). destruct c as [v| | |]; simpl in Hb.
  - injection Hb as <- <- <-. simpl. by rewrite <- IH, <- (assoc_L app).
  - destruct q as [|x q]; [done|]. injection Hb as <- <- <-. simpl. by f_equal.
  - destruct q as [|x q]; injection Hb as <- <- <-; simpl; [done|]. by f_equal.
  - by injection Hb as <- <- <-.
Qed.

(** ** No wake-up is lost *)

(** A popper that will look at the queue again without being notified. *)
Definition ready (p : phase t call) : Prop :=
  match p with Calling CPop | Inside CPop _ => True | _ => False end.
#[global] Instance ready_dec p : Decision (ready p).
Proof. destruct p as [[]|[]|]; apply _. Defined.

Definition ready_count (ts : gmap nat (phase t call)) : nat :=
  size (filter (λ ip, ready ip.2) ts).

Lemma ready_insert_yes ts i p :
  ready p → (∀ p', ts !! i = Some p' → ¬ ready p') →
  ready_count (<[i := p]> ts) = S (ready_count ts).
Proof.
  intros Hp Hno. unfold ready_count. rewrite map_filter_insert_True by done.
  apply map_size_insert_None. apply map_lookup_filter_None. right. intros p' Hp'. by apply Hno.
Qed.

Lemma ready_insert_no ts i p :
  ¬ ready p → (∀ p', ts !! i = Some p' → ¬ ready p') →
  ready_count (<[i := p]> ts) = ready_count ts.
Proof.
  intros Hp Hno. unfold ready_count. f_equal. rewrite map_filter_insert_False by done.
  apply map_filter_delete_not. intros p' Hp'. by apply Hno.
Qed.

Lemma ready_insert_keep ts i p p' :
  ready p → ts !! i = Some p' → ready p' → ready_count (<[i := p]> ts) = ready_count ts.
Proof.
  intros Hp Hi Hp'. unfold ready_count. rewrite map_filter_insert_True by done.
  apply map_size_insert_Some. exists p'. by apply map_lookup_filter_Some.
Qed.

Lemma ready_delete_no ts i p :
  ts !! i = Some p → ¬ ready p → ready_count (delete i ts) = ready_count ts.
Proof.
  intros Hi Hp. unfold ready_count. f_equal.
  apply map_filter_delete_not. intros p' Hp'. by simplify_eq.
Qed.

Lemma ready_delete_yes ts i p :
  ts !! i = Some p → ready p → S (ready_count (delete i ts)) = ready_count ts.
Proof.
  intros Hi Hp. unfold ready_count. rewrite map_filter_delete.
  rewrite map_size_delete_Some by (exists p; by apply map_lookup_filter_Some).
  enough (size (filter (λ ip, ready ip.2) ts) ≠ 0) by lia.
  intros H0%map_size_empty_inv.
  by eapply (map_filter_empty_not_lookup _ _ i p); [exact H0|exact Hp|].
Qed.

Record wake_inv (m : mon) : Prop := {
  wi_sleepers i c : m_threads m !! i = Some (Sleeping c) → c = CPop;
  wi_ready : ¬ nobody_asleep (m_threads m) → length (m_obj m) ≤ ready_count (m_threads m)
}.

Lemma asleep_somebody (ts : gmap nat (phase t call)) i c :
  ts !! i = Some (Sleeping c) → ¬ nobody_asleep ts.
Proof. intros Hi Hn. by specialize (Hn _ _ Hi). Qed.

Lemma nobody_asleep_insert (ts : gmap nat (phase t call)) i p :
  nobody_asleep ts → (∀ c, p ≠ Sleeping c) → nobody_asleep (<[i := p]> ts).
Proof. intros Hn Hp. apply map_Forall_insert_2; [|done]. destruct p; [done..|]. by eapply Hp. Qed.

Lemma nobody_asleep_delete (ts : gmap nat (phase t call)) i :
  nobody_asleep ts → nobody_asleep (delete i ts).
Proof. apply map_Forall_delete. Qed.

(** [notify_one] makes one more popper ready, when there is one asleep. *)
Lemma notify_ready ts wakes ts' :
  (∀ i c, ts !! i = Some (Sleeping c) → c = CPop) → notify ts wakes = Some ts' →
  (∀ i c, ts' !! i = Some (Sleeping c) → c = CPop) ∧
  (nobody_asleep ts ∧ ts' = ts ∨
   ¬ nobody_asleep ts ∧ ready_count ts' = S (ready_count ts)).
Proof.
  intros Hp Hn. unfold notify in Hn. destruct wakes as [j|].
  - destruct (ts !! j) as [[| |c]|] eqn:Hj; try done. injection Hn as <-.
    assert (c = CPop) as -> by (by eapply Hp). split.
    + intros i c' [[_ [=]]|[_ Hi]]%lookup_insert_Some. by eapply Hp.
    + right. split; [by eapply asleep_somebody|]. apply ready_insert_yes; [done|].
      rewrite Hj. intros p' [= <-] [].
  - case_decide; [|done]. injection Hn as <-. auto.
Qed.

Lemma wake_init : wake_inv init.
Proof. constructor; simpl; [by intros|]. intros H. by destruct H. Qed.

(** A thread leaves the mutex after taking at least as much work as its own. *)
Lemma wake_leave m i c seen q log bad :
  wake_inv m → m_threads m !! i = Some (Inside c seen) →
  length q ≤ length (m_obj m) - (if decide (c = CPop) then 1 else 0) →
  wake_inv (Mon q None (delete i (m_threads m)) log bad).
Proof.
  intros [W1 W2] Hi Hq. constructor; simpl.
  - intros j c' [_ Hj]%lookup_delete_Some. by eapply W1.
  - intros Hn.
    assert (W : length (m_obj m) ≤ ready_count (m_threads m))
      by (apply W2; intros ?; by apply Hn, nobody_asleep_delete).
    destruct (decide (ready (Inside c seen))) as [Hr|Hr].
    + pose proof (ready_delete_yes _ _ _ Hi Hr). destruct c; try done.
      rewrite decide_True in Hq by done. lia.
    + rewrite (ready_delete_no _ _ _ Hi Hr). lia.
Qed.

Lemma wake_step m l m' : mon_inv body [] m → wake_inv m → step m l = Some m' → wake_inv m'.
Proof.
  intros I W Hs. pose proof W as [W1 W2]. destruct l as [i c|i|i wakes|i]; simpl in Hs.
  - destruct (m_threads m !! i) eqn:Hi; [done|]. injection Hs as <-. constructor; simpl.
    + intros j c' [[_ [=]]|[_ Hj]]%lookup_insert_Some. by eapply W1.
    + intros Hn. etrans; [apply W2; intros ?; by apply Hn, nobody_asleep_insert|].
      destruct (decide (ready (Calling c))).
      * rewrite ready_insert_yes; [lia|done|congruence].
      * rewrite ready_insert_no; [lia|done|congruence].
  - destruct (m_owner m); [done|].
    destruct (m_threads m !! i) as [[c| |]|] eqn:Hi; try done. injection Hs as <-.
    constructor; simpl.
    + intros j c' [[_ [=]]|[_ Hj]]%lookup_insert_Some. by eapply W1.
    + intros Hn. etrans; [apply W2; intros ?; by apply Hn, nobody_asleep_insert|].
      destruct (decide (ready (Calling c))).
      * rewrite (ready_insert_keep _ i _ (Calling c)); [lia|by destruct c|done|done].
      * rewrite ready_insert_no; [lia|by destruct c|]. rewrite Hi. by intros ? [= <-].
  - destruct (m_threads m !! i) as [[|c seen|]|] eqn:Hi; try done.
    destruct (mi_owner _ _ _ I _ _ _ Hi) as [_ ->]. unfold body in Hs.
    destruct c as [v| | |]; simpl in Hs.
    + apply bind_Some in Hs as (ts & Hts & [= <-]).
      assert (Hd : ready_count (delete i (m_threads m)) = ready_count (m_threads m))
        by (eapply ready_delete_no; [done|by intros []]).
      apply notify_ready in Hts as [W1' Hts];
        [|intros j c' [_ Hj]%lookup_delete_Some; by eapply W1].
      constructor; simpl; [done|]. intros Hn. rewrite length_app. simpl.
      destruct Hts as [[Hno ->]|[Hsome Hts]]; [done|]. rewrite Hts, Hd.
      enough (length (m_obj m) ≤ ready_count (m_threads m)) by lia.
      apply W2. intros Hno. by apply Hsome, nobody_asleep_delete.
    + unfold pop in Hs. destruct (m_obj m) as [|x q] eqn:Ho; injection Hs as <-.
      * constructor; simpl.
        -- intros j c' [[_ [=]]|[_ Hj]]%lookup_insert_Some; [done|]. by eapply W1.
        -- intros _. rewrite ?Ho. simpl. lia.
      * eapply wake_leave; [done|done|]. rewrite ?Ho. simpl. lia.
    + unfold try_pop in Hs. destruct (m_obj m) as [|x q] eqn:Ho; injection Hs as <-;
        (eapply wake_leave; [done|done|]); rewrite ?Ho; simpl; lia.
    + injection Hs as <-. eapply wake_leave; [done|done|]. simpl. lia.
  - destruct (m_threads m !! i) as [[| |c]|] eqn:Hi; try done. injection Hs as <-.
    constructor; simpl.
    + intros j c' [[_ [=]]|[_ Hj]]%lookup_insert_Some. by eapply W1.
    + intros Hn. rewrite ready_insert_yes.
      * etrans; [apply W2; by eapply asleep_somebody|]. lia.
      * by rewrite (W1 _ _ Hi).
      * rewrite Hi. by intros ? [= <-] [].
Qed.

Lemma run_wake_inv ls m : run init ls = Some m → mon_inv body [] m ∧ wake_inv m.
Proof.
  apply (mon_run_invariant body (λ m, mon_inv body [] m ∧ wake_inv m)).
  - split; [apply mon_init_inv|apply wake_init].
  - intros m1 l m2 [I W] Hs.
    split; [eapply mon_step_inv; [exact I|exact Hs]|eapply wake_step; [exact I|exact W|exact Hs]].
Qed.
End queue.
Arguments call T : clear implicits.
Arguments answer T : clear implicits.

(** whatever calls any number of threads make, in whatever interleaving,
    the queue is linearizable and first-in first-out: in the order the calls
    held the mutex, the values returned by [pop] and [try_pop], followed by
    those still inside, are exactly the values pushed, in order. *)
Theorem blocking_queue_fifo {T} ls (m : monitor (@t T) (call T) (answer T))
  (Hr : mon_run body (mon_init []) ls = Some m) :
  serial_results body [] (m_log m) ∧ pushed (m_log m) = popped (m_log m) ++ m_obj m.
Proof.
  apply mon_run_inv in Hr as I. split; [apply I|].
  apply (serial_fifo _ []); apply I.
Qed.

(** A consumer blocks on the empty queue, a producer wakes it, and a third
    thread takes the value first. *)
Definition steal_schedule : list (label (call nat)) :=
  [Call 1 CPop; Lock 1; Unlock 1 None; Call 2 (CPush 7); Call 3 CTryPop; Lock 2;
   Unlock 2 (Some 1); Lock 3; Unlock 3 None; Lock 1; Unlock 1 None; Call 2 (CPush 8); Lock 2;
   Unlock 2 (Some 1)].

Lemma blocking_queue_fifo_witness :
  ∃ m, mon_run body (mon_init []) steal_schedule = Some m ∧ m_obj m = [8] ∧
    popped (m_log m) = [7] ∧ serial_results body [] (m_log m) ∧
    pushed (m_log m) = popped (m_log m) ++ m_obj m.
Proof.
  destruct (mon_run body (mon_init []) steal_schedule) as [m|] eqn:Hm; [|by vm_compute in Hm].
  exists m. split; [done|].
  split; [by vm_compute in Hm; injection Hm as <-|].
  split; [by vm_compute in Hm; injection Hm as <-|].
  by apply (blocking_queue_fifo steal_schedule).
Defined.

(** C38: no wake-up is lost: while some [pop] sleeps on the condition variable,
    at least as many other [pop]s as there are values in the queue are awake
    and will look at it; so once every thread has returned or sleeps, a
    sleeping [pop] means that the queue is empty. *)
Theorem no_lost_wakeup {T} ls (m : monitor (@t T) (call T) (answer T)) i c
  (Hr : mon_run body (mon_init []) ls = Some m) (Hi : m_threads m !! i = Some (Sleeping c)) :
  c = CPop ∧ length (m_obj m) ≤ ready_count (m_threads m) ∧
  ((∀ j p, m_threads m !! j = Some p → ∃ c', p = Sleeping c') → m_obj m = []).
Proof.
  apply run_wake_inv in Hr as [I [W1 W2]].
  pose proof (W2 (asleep_somebody _ _ _ Hi)) as Hlen.
  split_and!; [by eapply W1|done|]. intros Hall. apply nil_length_inv.
  enough (ready_count (m_threads m) = 0) by lia. unfold ready_count.
  apply map_size_empty_iff, map_empty. intros j. apply map_lookup_filter_None. right.
  intros p Hj Hp. by destruct (Hall j p Hj) as [c' ->].
Qed.

Lemma no_lost_wakeup_witness :
  ∃ m, mon_run body (mon_init []) (take 11 steal_schedule) = Some m ∧
    m_threads m !! 1 = Some (Sleeping (CPop : call nat)) ∧
    (CPop : call nat) = CPop ∧ length (m_obj m) ≤ ready_count (m_threads m) ∧
    ((∀ j p, m_threads m !! j = Some p → ∃ c', p = Sleeping c') → m_obj m = []).
Proof.
  destruct (mon_run body (mon_init []) (take 11 steal_schedule)) as [m|] eqn:Hm;
    [|by vm_compute in Hm].
  assert (Hi : m_threads m !! 1 = Some (Sleeping (CPop : call nat)))
    by (by vm_compute in Hm; injection Hm as <-).
  exists m. split; [done|]. split; [done|]. by apply (no_lost_wakeup (take 11 steal_schedule) m 1).
Defined.
End ThreadSafeQueue.
