(* ===== verification/McDetails.v ===== *)
(** * [moodycamel::details]

    The arithmetic helpers of concurrentqueue.h: comparison of counters that
    wrap, the thread-id hash, alignment and rounding to a power of two. *)
From S2P Require Import Prelude BitTricks.
Local Open Scope Z_scope.

Module McDetails.

(** [const_numeric_max<T>::value] for a [w]-bit integer type. *)
Definition const_numeric_max (is_signed : bool) (w : Z) : Z :=
  if is_signed then 2 ^ (w - 1) - 1 else 2 ^ w - 1.

(** [circular_less_than<T>] at width [w]. *)
Definition circular_less_than (w a b : Z) : bool := 2 ^ (w - 1) <? wrap w (a - b).

(** For [index_t] and [size_t]. *)
Definition clt : Z → Z → bool := circular_less_than 64.

(** The MurmurHash3 finalizers. *)
Definition hash32 (h : Z) : Z :=
  let h := Z.lxor h (Z.shiftr h 16) in
  let h := u32 (h * 0x85ebca6b) in
  let h := Z.lxor h (Z.shiftr h 13) in
  let h := u32 (h * 0xc2b2ae35) in
  Z.lxor h (Z.shiftr h 16).
Definition hash64 (h : Z) : Z :=
  let h := Z.lxor h (Z.shiftr h 33) in
  let h := u64 (h * 0xff51afd7ed558ccd) in
  let h := Z.lxor h (Z.shiftr h 33) in
  let h := u64 (h * 0xc4ceb9fe1a85ec53) in
  Z.lxor h (Z.shiftr h 33).

(** [hash_thread_id], for identifiers of [size] bytes. *)
Definition hash_thread_id (size id : Z) : Z := if 4 <? size then hash64 id else hash32 id.

(** [align_for<U>]: the next address that is a multiple of the alignment. *)
Definition align_for (alignment ptr : Z) : Z := ptr + (alignment - ptr mod alignment) mod alignment.

(** [ceil_to_pow_2] of [size_t]: [i] runs over 1, 2, 4. *)
Definition ceil_to_pow_2 (x : Z) : Z :=
  let x := u64 (x - 1) in
  let x := smear 4 (smear 2 (smear 1 x)) in
  let x := fold_left (λ x i, smear (Z.shiftl i 3) x) [1; 2; 4] x in
  u64 (x + 1).

(** [swap_relaxed]. *)
Definition swap_relaxed {A} (l r : A) : A * A := let temp := l in let l := r in let r := temp in (l, r).

(** ** Correctness *)

Lemma circular_less_than_wrap w a b :
  circular_less_than w (wrap w a) (wrap w b) = circular_less_than w a b.
Proof. unfold circular_less_than. by autorewrite with wrap. Qed.

(** Two counters that wrap at [w] bits compare as the counters they stand for, as
    long as these are less than half the range apart. *)
Lemma circular_less_than_spec w a b :
  1 < w → - 2 ^ (w - 1) < a - b < 2 ^ (w - 1) →
  circular_less_than w (wrap w a) (wrap w b) = (a <? b).
Proof.
  intros Hw Hab. rewrite circular_less_than_wrap. unfold circular_less_than.
  assert (2 ^ w = 2 * 2 ^ (w - 1)) as Hp
    by (rewrite <- Z.pow_succ_r by lia; f_equal; lia).
  apply eq_true_iff_eq. rewrite !Z.ltb_lt. unfold wrap. split; intros H.
  - destruct (decide (a < b)); [done|]. rewrite Z.mod_small in H; lia.
  - replace (a - b) with (a - b + 2 ^ w + (-1) * 2 ^ w) by lia.
    rewrite Z.mod_add by lia. rewrite Z.mod_small; lia.
Qed.

Lemma clt_spec a b : - 2 ^ 63 < a - b < 2 ^ 63 → clt (u64 a) (u64 b) = (a <? b).
Proof. intros. apply circular_less_than_spec; lia. Qed.

Lemma clt_0 g : - 2 ^ 63 < g < 2 ^ 63 → clt 0 (u64 g) = (0 <? g).
Proof. intros. change 0 with (u64 0) at 1. rewrite clt_spec by lia. done. Qed.

Lemma xorshift_inj s x y :
  0 < s → 0 <= x → 0 <= y → Z.lxor x (Z.shiftr x s) = Z.lxor y (Z.shiftr y s) → x = y.
Proof.
  intros Hs Hx Hy H. set (d := Z.lxor x y).
  assert (Hd : 0 <= d) by (by apply Z.lxor_nonneg).
  assert (Z.shiftr d s = d) as Hsh.
  { unfold d. rewrite Z.shiftr_lxor. apply (f_equal (Z.lxor x)) in H.
    rewrite <- Z.lxor_assoc, Z.lxor_nilpotent, Z.lxor_0_l in H. rewrite H.
    by rewrite !Z.lxor_assoc, Z.lxor_nilpotent, Z.lxor_0_r. }
  apply Z.lxor_eq. fold d. rewrite Z.shiftr_div_pow2 in Hsh by lia.
  assert (2 <= 2 ^ s) by (change 2 with (2 ^ 1) at 1; apply Z.pow_le_mono_r; lia).
  destruct (decide (d = 0)); [done|]. pose proof (Z.div_lt d (2 ^ s)). lia.
Qed.

Lemma mul_odd_inj w c inv x y :
  wrap w (c * inv) = wrap w 1 → fits w x → fits w y → wrap w (x * c) = wrap w (y * c) → x = y.
Proof.
  intros Hc Hx Hy H. rewrite <- (wrap_small w x), <- (wrap_small w y) by done.
  unfold wrap in *. apply (f_equal (λ z, (z * inv) mod 2 ^ w)) in H.
  rewrite !Zmult_mod_idemp_l in H. rewrite <- !Z.mul_assoc in H.
  rewrite <- (Zmult_mod_idemp_r (c * inv)), <- (Zmult_mod_idemp_r (c * inv) y) in H.
  rewrite Hc, !Zmult_mod_idemp_r, !Z.mul_1_r in H. done.
Qed.

Lemma xorshift_fits w s x : 0 <= s → fits w x → fits w (Z.lxor x (Z.shiftr x s)).
Proof.
  intros Hs [H0 H1]. assert (0 <= Z.shiftr x s) by (by apply Z.shiftr_nonneg).
  split; [by apply Z.lxor_nonneg|].
  destruct (decide (x = 0)) as [->|Hx]; [by rewrite Z.shiftr_0_l|].
  destruct (decide (Z.lxor x (Z.shiftr x s) = 0)) as [->|Hne]; [lia|].
  assert (0 <= Z.lxor x (Z.shiftr x s)) by (by apply Z.lxor_nonneg).
  apply Z.log2_lt_pow2; [lia|]. apply Z.log2_lt_pow2 in H1; [|lia].
  eapply Z.le_lt_trans; [apply Z.log2_lxor; lia|]. apply Z.max_lub_lt; [done|].
  eapply Z.le_lt_trans; [|exact H1]. apply Z.log2_le_mono. rewrite Z.shiftr_div_pow2 by lia.
  apply Z.div_le_upper_bound; [by apply Z.pow_pos_nonneg|].
  assert (1 <= 2 ^ s) by (assert (0 < 2 ^ s) by (by apply Z.pow_pos_nonneg); lia). nia.
Qed.

(** One round: a xorshift and a multiplication by an odd constant. *)
Lemma round_inj w s c inv x y :
  0 < s → 0 < w → wrap w (c * inv) = wrap w 1 → fits w x → fits w y →
  wrap w (Z.lxor x (Z.shiftr x s) * c) = wrap w (Z.lxor y (Z.shiftr y s) * c) → x = y.
Proof.
  intros Hs Hw Hc Hx Hy H. apply (mul_odd_inj w c inv) in H; [|done|apply xorshift_fits; done || lia..].
  apply (xorshift_inj s); [done|apply Hx|apply Hy|done].
Qed.

(** the hash loses nothing: distinct thread identifiers of up to four (or up to
    eight) bytes have distinct hashes. *)
Theorem hash_thread_id_injective size id1 id2 :
  let w := if 4 <? size then 64 else 32 in
  fits w id1 → fits w id2 → hash_thread_id size id1 = hash_thread_id size id2 → id1 = id2.
Proof.
  unfold hash_thread_id. destruct (4 <? size); cbv zeta; intros H1 H2 H.
  - apply xorshift_inj in H; [|done|apply wrap_fits; done..].
    apply (round_inj 64 33 _ 0x9cb4b2f8129337db) in H; [|done|done|done|apply wrap_fits; done..].
    by apply (round_inj 64 33 _ 0x4f74430c22a54005) in H.
  - apply xorshift_inj in H; [|done|apply wrap_fits; done..].
    apply (round_inj 32 13 _ 0x7ed1b41d) in H; [|done|done|done|apply wrap_fits; done..].
    by apply (round_inj 32 16 _ 0xa5cb9243) in H.
Qed.

(** [align_for] returns the least multiple of the alignment not below the pointer. *)
Theorem align_for_spec alignment ptr (Ha : 0 < alignment) :
  (align_for alignment ptr) mod alignment = 0 ∧
  ptr <= align_for alignment ptr < ptr + alignment.
Proof.
  unfold align_for. pose proof (Z.mod_pos_bound (alignment - ptr mod alignment) alignment Ha).
  split; [|lia]. rewrite Zplus_mod_idemp_r.
  replace (ptr + (alignment - ptr mod alignment)) with ((ptr / alignment + 1) * alignment).
  - by apply Z.mod_mul; lia.
  - pose proof (Z.div_mod ptr alignment). lia.
Qed.

Lemma ceil_to_pow_2_eq x : fits 64 x → 0 < x → ceil_to_pow_2 x = u64 (2 ^ Z.log2_up x).
Proof.
  intros [_ Hx] Hp. unfold ceil_to_pow_2. rewrite (wrap_small 64 (x - 1)) by (unfold fits; lia).
  cbv zeta. f_equal. apply (covers_log2_up x _ 64); [lia|lia|]. simpl.
  apply (covers_smear _ _ 32); [done|]. apply (covers_smear _ _ 16); [done|].
  apply (covers_smear _ _ 8); [done|]. apply (covers_smear _ _ 4); [done|].
  apply (covers_smear _ _ 2); [done|]. apply (covers_smear _ _ 1); [done|].
  apply covers_refl. lia.
Qed.

(** C28: up to 2^63 [ceil_to_pow_2] is the least power of two not below its argument;
    0 and values above 2^63 give 0. *)
Theorem ceil_to_pow_2_spec x (Hx : fits 64 x) :
  let r := ceil_to_pow_2 x in
  if (0 <? x) && (x <=? 2 ^ 63)
  then (∃ k, 0 <= k ∧ r = 2 ^ k) ∧ x <= r ∧ ∀ j, 0 <= j → x <= 2 ^ j → r <= 2 ^ j
  else r = 0.
Proof.
  cbv zeta. destruct (Z.ltb_spec 0 x) as [Hp|Hp]; simpl;
    [|by replace x with 0 by (destruct Hx; lia)].
  rewrite ceil_to_pow_2_eq by done.
  destruct Hx as [_ Hx]. destruct (Z.leb_spec x (2 ^ 63)) as [Hle|Hgt].
  - pose proof (log2_up_bound x 63 ltac:(lia) ltac:(lia)). pose proof (Z.log2_up_nonneg x).
    pose proof (Z.pow_le_mono_r 2 (Z.log2_up x) 63 ltac:(lia) ltac:(lia)).
    pose proof (pow2_log2_up_ge x ltac:(lia)).
    rewrite wrap_small by (unfold fits; lia). split_and!; [by eexists|done|].
    intros j Hj Hxj. apply Z.pow_le_mono_r; [done|]. apply log2_up_bound; lia.
  - assert (Z.log2_up x = 64) as ->; [|done].
    pose proof (log2_up_bound x 64 ltac:(lia) ltac:(lia)).
    assert (¬ Z.log2_up x <= 63); [|lia]. rewrite <- log2_up_le_pow2; lia.
Qed.

Lemma hash_thread_id_injective_witness :
  hash_thread_id 8 1 = 0xb456bcfc34c2cb2c ∧ (hash_thread_id 8 7 = hash_thread_id 8 7 → 7 = 7).
Proof.
  split; [by vm_compute|]. apply (hash_thread_id_injective 8 7 7); unfold fits; simpl; lia.
Defined.

Lemma align_for_spec_witness : align_for 8 13 = 16 ∧ (align_for 8 13) mod 8 = 0.
Proof. split; [done|]. apply (align_for_spec 8 13). done. Defined.

Lemma ceil_to_pow_2_spec_witness :
  ceil_to_pow_2 100 = 128 ∧
  (let r := ceil_to_pow_2 0 in
   if (0 <? 0) && (0 <=? 2 ^ 63)
   then (∃ k, 0 <= k ∧ r = 2 ^ k) ∧ 0 <= r ∧ ∀ j, 0 <= j → 0 <= 2 ^ j → r <= 2 ^ j
   else r = 0).
Proof. split; [done|]. apply (ceil_to_pow_2_spec 0). done. Defined.
End McDetails.
