(* ===== verification/McBlock.v ===== *)
(** * [ConcurrentQueue::Block]

    concurrentqueue.h: a block of [BLOCK_SIZE] element slots and the record of
    which of them have been dequeued, one flag per slot or a counter.  The two
    representations keep the same promise, [tracks]. *)
From S2P Require Import Prelude.
Local Open Scope Z_scope.

Module McBlock.

(** The constants of [ConcurrentQueueDefaultTraits] a queue is built with, and the size
    of its blocks in bytes, which depends on the element type. *)
Class Traits := {
  BLOCK_SIZE : Z;
  sizeof_Block : Z;
  EXPLICIT_BLOCK_EMPTY_COUNTER_THRESHOLD : Z;
  EXPLICIT_INITIAL_INDEX_SIZE : Z;
  IMPLICIT_INITIAL_INDEX_SIZE : Z;
  MAX_SUBQUEUE_SIZE : Z;
  NDEBUG : bool
}.

(** The [static_assert]s of the class, for objects that fit in memory. *)
Class TraitsOk `{Traits} := {
  block_size_pow2 : ∃ k, 1 <= k < 32 ∧ BLOCK_SIZE = 2 ^ k;
  block_bytes : 0 < sizeof_Block < 2 ^ 32;
  index_size_pow2 : ∃ k, 1 <= k < 32 ∧ EXPLICIT_INITIAL_INDEX_SIZE = 2 ^ k;
  implicit_size_pow2 : ∃ k, 1 <= k < 32 ∧ IMPLICIT_INITIAL_INDEX_SIZE = 2 ^ k
}.

Definition SIZE_MAX : Z := 2 ^ 64 - 1.

(** [ConcurrentQueueDefaultTraits], with elements of 8 bytes. *)
#[global] Instance ConcurrentQueueDefaultTraits : Traits := {|
  BLOCK_SIZE := 32;
  sizeof_Block := 328;
  EXPLICIT_BLOCK_EMPTY_COUNTER_THRESHOLD := 32;
  EXPLICIT_INITIAL_INDEX_SIZE := 32;
  IMPLICIT_INITIAL_INDEX_SIZE := 32;
  MAX_SUBQUEUE_SIZE := SIZE_MAX;
  NDEBUG := false
|}.

#[global] Instance default_traits_ok : @TraitsOk ConcurrentQueueDefaultTraits.
Proof. split; first [by exists 5|done]. Qed.

Inductive InnerQueueContext := implicit_context | explicit_context.

Section block.
Context `{Traits} {T : Type}.

(** An element slot is raw memory or holds an object; an [atomic<bool>] that was
    never stored to has no value. *)
Record block := Block {
  elements : list (option T);
  next : option nat;
  elementsCompletelyDequeued : Z;
  emptyFlags : list (option bool);
  freeListRefs : Z;
  freeListNext : option nat;
  dynamicallyAllocated : bool
}.

Definition flags_fit : bool := BLOCK_SIZE <=? EXPLICIT_BLOCK_EMPTY_COUNTER_THRESHOLD.

(** [Block::Block]. *)
Definition new_block : block :=
  Block (replicate (Z.to_nat BLOCK_SIZE) None) None 0
        (replicate (if flags_fit then Z.to_nat BLOCK_SIZE else 1%nat) None) 0 None true.

Definition with_elements (b : block) es :=
  Block es (next b) (elementsCompletelyDequeued b) (emptyFlags b) (freeListRefs b) (freeListNext b)
        (dynamicallyAllocated b).
Definition with_next (b : block) n :=
  Block (elements b) n (elementsCompletelyDequeued b) (emptyFlags b) (freeListRefs b)
        (freeListNext b) (dynamicallyAllocated b).
Definition with_count (b : block) c :=
  Block (elements b) (next b) c (emptyFlags b) (freeListRefs b) (freeListNext b)
        (dynamicallyAllocated b).
Definition with_flags (b : block) fs :=
  Block (elements b) (next b) (elementsCompletelyDequeued b) fs (freeListRefs b) (freeListNext b)
        (dynamicallyAllocated b).

(** [context == explicit_context && BLOCK_SIZE <= THRESHOLD] *)
Definition use_flags (c : InnerQueueContext) : bool :=
  match c with explicit_context => flags_fit | implicit_context => false end.

(** The slot of an index: [idx & (BLOCK_SIZE - 1)]. *)
Definition slot (idx : Z) : Z := Z.land idx (BLOCK_SIZE - 1).

Fixpoint all_set (fs : list (option bool)) : result bool :=
  match fs with
  | [] => Ok true
  | Some true :: fs => all_set fs
  | Some false :: _ => Ok false
  | None :: _ => UB
  end.

Definition is_empty (c : InnerQueueContext) (b : block) : result bool :=
  if use_flags c then all_set (emptyFlags b)
  else if elementsCompletelyDequeued b =? BLOCK_SIZE then Ok true
  else assert_ NDEBUG (elementsCompletelyDequeued b <=? BLOCK_SIZE);; Ok false.

(** [assert(!emptyFlags[i]); emptyFlags[i].store(true)] *)
Definition set_flag (b : block) (i : Z) : result block :=
  f ← aread (emptyFlags b) i;
  match f with
  | None => if NDEBUG then fs ← awrite (emptyFlags b) i (Some true); Ok (with_flags b fs) else UB
  | Some f =>
      assert_ NDEBUG (negb f);;
      fs ← awrite (emptyFlags b) i (Some true); Ok (with_flags b fs)
  end.

Definition set_empty (c : InnerQueueContext) (i : Z) (b : block) : result (block * bool) :=
  if use_flags c
  then b ← set_flag b (BLOCK_SIZE - 1 - slot i); Ok (b, false)
  else
    let prevVal := elementsCompletelyDequeued b in
    assert_ NDEBUG (prevVal <? BLOCK_SIZE);;
    Ok (with_count b (u64 (prevVal + 1)), prevVal =? BLOCK_SIZE - 1).

Fixpoint set_flags (b : block) (i : Z) (count : nat) : result block :=
  match count with
  | O => Ok b
  | S n => b ← set_flag b i; set_flags b (i + 1) n
  end.

Definition set_many_empty (c : InnerQueueContext) (i count : Z) (b : block) : result (block * bool) :=
  if use_flags c
  then
    let i := u64 (BLOCK_SIZE - 1 - slot i - count + 1) in
    b ← set_flags b i (Z.to_nat count); Ok (b, false)
  else
    let prevVal := elementsCompletelyDequeued b in
    assert_ NDEBUG (u64 (prevVal + count) <=? BLOCK_SIZE);;
    Ok (with_count b (u64 (prevVal + count)), u64 (prevVal + count) =? BLOCK_SIZE).

Definition set_all_empty (c : InnerQueueContext) (b : block) : block :=
  if use_flags c then with_flags b (replicate (Z.to_nat BLOCK_SIZE) (Some true))
  else with_count b BLOCK_SIZE.

Definition reset_empty (c : InnerQueueContext) (b : block) : block :=
  if use_flags c then with_flags b (replicate (Z.to_nat BLOCK_SIZE) (Some false))
  else with_count b 0.

(** What is done with the slot [operator[]] points to: placement [new], reading
    the object, its destructor.  A slot is constructed once and destroyed once. *)
Definition construct (b : block) (idx : Z) (x : T) : result block :=
  o ← aread (elements b) (slot idx);
  match o with
  | None => es ← awrite (elements b) (slot idx) (Some x); Ok (with_elements b es)
  | Some _ => UB
  end.
Definition element (b : block) (idx : Z) : result T :=
  o ← aread (elements b) (slot idx); match o with Some x => Ok x | None => UB end.
Definition destruct_at (b : block) (idx : Z) : result block :=
  o ← aread (elements b) (slot idx);
  match o with
  | Some _ => es ← awrite (elements b) (slot idx) None; Ok (with_elements b es)
  | None => UB
  end.

(** ** Which slots are done *)

(** The block records exactly the slots [done] as dequeued. *)
Definition tracks (c : InnerQueueContext) (b : block) (done : list nat) : Prop :=
  NoDup done ∧ (∀ k : nat, k ∈ done → k < BLOCK_SIZE) ∧
  if use_flags c
  then length (emptyFlags b) = Z.to_nat BLOCK_SIZE ∧
       ∀ k : nat, k < BLOCK_SIZE →
         emptyFlags b !! (Z.to_nat BLOCK_SIZE - 1 - k)%nat = Some (Some (bool_decide (k ∈ done)))
  else elementsCompletelyDequeued b = length done.

Section tracks.
Context `{!TraitsOk}.

Lemma block_size_pos : 2 <= BLOCK_SIZE < 2 ^ 32.
Proof.
  destruct block_size_pow2 as (k & Hk & ->). split.
  - change 2 with (2 ^ 1) at 1. apply Z.pow_le_mono_r; lia.
  - apply Z.pow_lt_mono_r; lia.
Qed.

Lemma slot_mod i : slot i = i mod BLOCK_SIZE.
Proof. unfold slot. destruct block_size_pow2 as (k & Hk & ->). apply land_mask. lia. Qed.

Lemma slot_wrap i : slot (u64 i) = slot i.
Proof.
  rewrite !slot_mod. destruct block_size_pow2 as (k & Hk & ->). apply wrap_mod_pow2. lia.
Qed.

Lemma slot_bound i : 0 <= slot i < BLOCK_SIZE.
Proof. rewrite slot_mod. apply Z.mod_pos_bound. pose proof block_size_pos. lia. Qed.

Lemma done_length (done : list nat) :
  NoDup done → (∀ k : nat, k ∈ done → k < BLOCK_SIZE) →
  length done <= BLOCK_SIZE ∧
  (Z.of_nat (length done) = BLOCK_SIZE ↔ ∀ k : nat, k < BLOCK_SIZE → k ∈ done).
Proof.
  intros Hnd Hlt. pose proof block_size_pos.
  assert (Hsub : done ⊆+ seq 0 (Z.to_nat BLOCK_SIZE)).
  { apply NoDup_submseteq; [done|]. intros k Hk. apply elem_of_seq. specialize (Hlt k Hk). lia. }
  pose proof (submseteq_length _ _ Hsub) as Hle. rewrite length_seq in Hle.
  split; [lia|]. split.
  - intros He k Hk. assert (done ≡ₚ seq 0 (Z.to_nat BLOCK_SIZE)) as ->.
    { apply submseteq_length_Permutation; [done|]. rewrite length_seq. lia. }
    apply elem_of_seq. lia.
  - intros Hall. assert (seq 0 (Z.to_nat BLOCK_SIZE) ⊆+ done) as Hs.
    { apply NoDup_submseteq; [apply NoDup_seq|]. intros k Hk%elem_of_seq. apply Hall. lia. }
    apply submseteq_length in Hs. rewrite length_seq in Hs. lia.
Qed.

Lemma reset_tracks c b : tracks c (reset_empty c b) [].
Proof.
  unfold tracks, reset_empty. pose proof block_size_pos.
  split; [apply NoDup_nil_2|]. split; [by intros k Hk%not_elem_of_nil|].
  destruct (use_flags c); simpl; [|done]. rewrite length_replicate. split; [done|].
  intros k Hk. rewrite lookup_replicate_2 by lia. f_equal.
Qed.

Lemma set_all_tracks c b : tracks c (set_all_empty c b) (seq 0 (Z.to_nat BLOCK_SIZE)).
Proof.
  unfold tracks, set_all_empty. pose proof block_size_pos.
  split; [apply NoDup_seq|]. split; [intros k Hk%elem_of_seq; lia|].
  destruct (use_flags c); simpl; [|rewrite length_seq; lia]. rewrite length_replicate.
  split; [done|]. intros k Hk. rewrite lookup_replicate_2 by lia. do 2 f_equal. symmetry.
  apply bool_decide_eq_true. apply elem_of_seq. lia.
Qed.

Lemma all_set_spec fs :
  (∀ i f, fs !! i = Some f → is_Some f) →
  all_set fs = Ok (forallb (λ f, match f with Some f => f | None => false end) fs).
Proof.
  induction fs as [|[f|] fs IH]; intros Hf; simpl; [done| |].
  - destruct f; [|done]. apply IH. intros i. apply (Hf (S i)).
  - by destruct (Hf 0%nat None eq_refl).
Qed.

Lemma is_empty_tracks c b done :
  tracks c b done → is_empty c b = Ok (bool_decide (Z.of_nat (length done) = BLOCK_SIZE)).
Proof.
  intros (Hnd & Hlt & Ht). pose proof block_size_pos.
  destruct (done_length done Hnd Hlt) as [Hle Hall]. unfold is_empty.
  destruct (use_flags c).
  - destruct Ht as [Hlen Hf]. rewrite all_set_spec.
    2:{ intros i f Hi. pose proof (lookup_lt_Some _ _ _ Hi).
        specialize (Hf (Z.to_nat BLOCK_SIZE - 1 - i)%nat ltac:(lia)).
        replace (Z.to_nat BLOCK_SIZE - 1 - (Z.to_nat BLOCK_SIZE - 1 - i))%nat with i in Hf by lia.
        rewrite Hi in Hf. injection Hf as ->. eauto. }
    f_equal. apply eq_true_iff_eq. rewrite forallb_forall, bool_decide_eq_true, Hall. split.
    + intros Hset k Hk. specialize (Hf k Hk).
      apply list_elem_of_lookup_2, list_elem_of_In, Hset in Hf. by apply bool_decide_eq_true in Hf.
    + intros Hset f Hin. apply list_elem_of_In, list_elem_of_lookup in Hin as [i Hi].
      pose proof (lookup_lt_Some _ _ _ Hi).
      specialize (Hf (Z.to_nat BLOCK_SIZE - 1 - i)%nat ltac:(lia)).
      replace (Z.to_nat BLOCK_SIZE - 1 - (Z.to_nat BLOCK_SIZE - 1 - i))%nat with i in Hf by lia.
      rewrite Hi in Hf. injection Hf as ->. apply bool_decide_eq_true, Hset. lia.
  - rewrite Ht. case_bool_decide as Hb.
    + by rewrite (proj2 (Z.eqb_eq _ _)).
    + rewrite (proj2 (Z.eqb_neq _ _)) by done. rewrite assert_ok by (by apply Z.leb_le). done.
Qed.

(** Marking leaves everything but the record of empty slots alone. *)
Definition same_slots (b b' : block) : Prop :=
  elements b' = elements b ∧ next b' = next b ∧ freeListRefs b' = freeListRefs b ∧
  freeListNext b' = freeListNext b ∧ dynamicallyAllocated b' = dynamicallyAllocated b.

#[local] Instance same_slots_preorder : PreOrder same_slots.
Proof.
  split; [by intros b|]. intros b1 b2 b3 (? & ? & ? & ? & ?) (? & ? & ? & ? & ?).
  unfold same_slots. split_and!; congruence.
Qed.

Lemma tracks_Permutation c b done done' : done ≡ₚ done' → tracks c b done → tracks c b done'.
Proof.
  intros Hp (Hnd & Hlt & Ht). unfold tracks. split; [by rewrite <- Hp|].
  split; [intros k Hk; apply Hlt; by rewrite Hp|]. destruct (use_flags c).
  - destruct Ht as [Hl Ht]. split; [done|]. intros k Hk. rewrite Ht by done. do 2 f_equal.
    apply bool_decide_ext. by rewrite Hp.
  - by rewrite Ht, Hp.
Qed.

Lemma set_flag_tracks c b done (k : nat) :
  use_flags c = true → tracks c b done → k ∉ done → k < BLOCK_SIZE →
  ∃ b', set_flag b (BLOCK_SIZE - 1 - k) = Ok b' ∧ tracks c b' (k :: done) ∧ same_slots b b'.
Proof.
  intros Hu (Hnd & Hlt & Ht) Hk Hb. pose proof block_size_pos. unfold tracks in *.
  rewrite Hu in *. destruct Ht as [Hlen Ht]. pose proof (Ht k Hb) as Hf.
  rewrite bool_decide_eq_false_2 in Hf by done. unfold set_flag.
  replace (BLOCK_SIZE - 1 - k) with (Z.of_nat (Z.to_nat BLOCK_SIZE - 1 - k)%nat) by lia.
  rewrite (aread_ok _ _ _ Hf), bind_ok, assert_ok, bind_ok, awrite_ok by (done || lia). simpl.
  eexists. split; [done|]. simpl. rewrite length_insert. split_and!; try done.
  - by constructor.
  - intros j [-> | Hj]%elem_of_cons; [done|by apply Hlt].
  - intros j Hj. destruct (decide (j = k)) as [->|Hne].
    + rewrite list_lookup_insert_eq by lia. rewrite bool_decide_eq_true_2; [done|left].
    + rewrite list_lookup_insert_ne by lia. rewrite Ht by done. do 2 f_equal.
      apply bool_decide_ext. rewrite elem_of_cons. intuition lia.
Qed.

Lemma set_flags_tracks c (n : nat) : ∀ b done (k : nat),
  use_flags c = true → tracks c b done → k + n <= BLOCK_SIZE →
  (∀ j, (k ≤ j < k + n)%nat → j ∉ done) →
  ∃ b', set_flags b (BLOCK_SIZE - k - n) n = Ok b' ∧ tracks c b' (seq k n ++ done) ∧ same_slots b b'.
Proof.
  induction n as [|n IH]; intros b done k Hu Ht Hk Hd; cbn [set_flags].
  - by exists b.
  - destruct (set_flag_tracks c b done (k + n)%nat Hu Ht) as (b1 & Hb1 & Ht1 & Hs1).
    { apply Hd. lia. } { lia. }
    replace (BLOCK_SIZE - k - S n) with (BLOCK_SIZE - 1 - (k + n)%nat) by lia.
    rewrite Hb1, bind_ok.
    replace (BLOCK_SIZE - 1 - (k + n)%nat + 1) with (BLOCK_SIZE - k - n) by lia.
    destruct (IH b1 ((k + n)%nat :: done) k Hu Ht1) as (b2 & Hb2 & Ht2 & Hs2); [lia| |].
    { intros j Hj [-> | Hin]%elem_of_cons; [lia|]. by apply (Hd j); [lia|]. }
    exists b2. split; [done|]. split; [|by transitivity b1].
    eapply tracks_Permutation; [|exact Ht2]. rewrite seq_S, <- (assoc_L app).
    apply Permutation_app_head. solve_Permutation.
Qed.

Lemma set_empty_tracks c b done i :
  tracks c b done → Z.to_nat (slot i) ∉ done →
  ∃ b', set_empty c i b = Ok (b', negb (use_flags c) && bool_decide (length done + 1 = BLOCK_SIZE)) ∧
    tracks c b' (Z.to_nat (slot i) :: done) ∧ same_slots b b'.
Proof.
  intros Ht Hk. pose proof block_size_pos. pose proof (slot_bound i) as Hs. unfold set_empty.
  destruct (use_flags c) eqn:Hu; simpl.
  - destruct (set_flag_tracks c b done (Z.to_nat (slot i)) Hu Ht Hk ltac:(lia)) as (b' & Hb & Ht' & Hs').
    rewrite Z2Nat.id in Hb by lia. rewrite Hb, bind_ok. eauto.
  - destruct Ht as (Hnd & Hlt & Ht).
    assert (Hnd' : NoDup (Z.to_nat (slot i) :: done)) by (by constructor).
    assert (Hlt' : ∀ j : nat, j ∈ Z.to_nat (slot i) :: done → j < BLOCK_SIZE).
    { intros j [-> | Hj]%elem_of_cons; [lia|by apply Hlt]. }
    destruct (done_length _ Hnd' Hlt') as [Hle _]. simpl in Hle. rewrite Hu in Ht. rewrite Ht.
    rewrite assert_ok by (apply Z.ltb_lt; lia). rewrite bind_ok, wrap_small by (unfold fits; lia).
    eexists. split; [|split].
    + do 2 f_equal. apply eq_true_iff_eq. rewrite Z.eqb_eq, bool_decide_eq_true. lia.
    + unfold tracks. rewrite Hu. split_and!; [done..|]. simpl. lia.
    + by split_and!.
Qed.

Lemma set_many_empty_tracks c b done i (count : nat) :
  tracks c b done → slot i + count <= BLOCK_SIZE →
  (∀ j, j ∈ seq (Z.to_nat (slot i)) count → j ∉ done) →
  ∃ b', set_many_empty c i count b =
          Ok (b', negb (use_flags c) && bool_decide (length done + count = BLOCK_SIZE)) ∧
    tracks c b' (seq (Z.to_nat (slot i)) count ++ done) ∧ same_slots b b'.
Proof.
  intros Ht Hc Hd. pose proof block_size_pos. pose proof (slot_bound i) as Hs. unfold set_many_empty.
  destruct (use_flags c) eqn:Hu; simpl.
  - destruct (set_flags_tracks c count b done (Z.to_nat (slot i)) Hu Ht) as (b' & Hb & Ht' & Hs').
    { lia. } { intros j Hj. apply Hd, elem_of_seq. lia. }
    rewrite wrap_small by (unfold fits; lia). rewrite Nat2Z.id.
    replace (BLOCK_SIZE - 1 - slot i - count + 1) with
      (BLOCK_SIZE - Z.to_nat (slot i) - count) by lia. rewrite Hb, bind_ok. eauto.
  - destruct Ht as (Hnd & Hlt & Ht).
    assert (Hnd' : NoDup (seq (Z.to_nat (slot i)) count ++ done)).
    { apply NoDup_app. split_and!; [apply NoDup_seq|done|done]. }
    assert (Hlt' : ∀ j : nat, j ∈ seq (Z.to_nat (slot i)) count ++ done → j < BLOCK_SIZE).
    { intros j [Hj%elem_of_seq|Hj]%elem_of_app; [lia|by apply Hlt]. }
    destruct (done_length _ Hnd' Hlt') as [Hle _]. rewrite length_app, length_seq in Hle.
    rewrite Hu in Ht. rewrite Ht, wrap_small by (unfold fits; lia).
    rewrite assert_ok by (apply Z.leb_le; lia). rewrite bind_ok.
    eexists. split; [|split].
    + do 2 f_equal. apply eq_true_iff_eq. rewrite Z.eqb_eq, bool_decide_eq_true. lia.
    + unfold tracks. rewrite Hu. split_and!; [done..|]. simpl. rewrite length_app, length_seq. lia.
    + by split_and!.
Qed.

(** ** A block's life between two resets *)

Inductive mark := SetOne (i : Z) | SetMany (i : Z) (count : nat).

Definition marked (m : mark) : list nat :=
  match m with
  | SetOne i => [Z.to_nat (slot i)]
  | SetMany i count => seq (Z.to_nat (slot i)) count
  end.
Definition mark_fits (m : mark) : Prop :=
  match m with SetOne _ => True | SetMany i count => slot i + count <= BLOCK_SIZE end.

Definition apply_mark (c : InnerQueueContext) (m : mark) (b : block) : result (block * bool) :=
  match m with SetOne i => set_empty c i b | SetMany i count => set_many_empty c i count b end.
Fixpoint apply_marks (c : InnerQueueContext) (ms : list mark) (b : block) :
    result (block * list bool) :=
  match ms with
  | [] => Ok (b, [])
  | m :: ms => '(b, a) ← apply_mark c m b; '(b, answers) ← apply_marks c ms b; Ok (b, a :: answers)
  end.

(** The answers promised: with a counter, whether this mark filled the block. *)
Fixpoint mark_answers (c : InnerQueueContext) (n : nat) (ms : list mark) : list bool :=
  match ms with
  | [] => []
  | m :: ms =>
      let n' := (n + length (marked m))%nat in
      (negb (use_flags c) && bool_decide (Z.of_nat n' = BLOCK_SIZE)) :: mark_answers c n' ms
  end.

Lemma apply_marks_tracks c ms : ∀ b done,
  tracks c b done → Forall mark_fits ms → NoDup (concat (marked <$> ms) ++ done) →
  ∃ b', apply_marks c ms b = Ok (b', mark_answers c (length done) ms) ∧
    tracks c b' (reverse (concat (marked <$> ms)) ++ done) ∧ same_slots b b'.
Proof.
  induction ms as [|m ms IH]; intros b done Ht Hf Hnd; simpl; [by exists b|].
  apply Forall_cons in Hf as [Hm Hms]. simpl in Hnd.
  assert (Hdis : ∀ j, j ∈ marked m → j ∉ done).
  { rewrite <- (assoc_L app) in Hnd. apply NoDup_app in Hnd as (_ & Hd & _).
    intros j Hj Hin. apply (Hd j Hj), elem_of_app. by right. }
  assert (∃ b1, apply_mark c m b =
      Ok (b1, negb (use_flags c) && bool_decide (Z.of_nat (length done + length (marked m)) = BLOCK_SIZE)) ∧
      tracks c b1 (marked m ++ done) ∧ same_slots b b1) as (b1 & -> & Ht1 & Hs1).
  { destruct m as [i|i count]; simpl.
    - destruct (set_empty_tracks c b done i Ht) as (b1 & -> & ? & ?); [apply Hdis; simpl; left|].
      exists b1. split; [|done]. do 4 f_equal. apply bool_decide_ext. lia.
    - destruct (set_many_empty_tracks c b done i count Ht Hm Hdis) as (b1 & -> & ? & ?).
      exists b1. split; [|done]. rewrite length_seq. do 4 f_equal. apply bool_decide_ext. lia. }
  simpl. destruct (IH b1 (marked m ++ done) Ht1 Hms) as (b2 & Hb2 & Ht2 & Hs2).
  { eapply NoDup_Permutation_proper; [|exact Hnd]. rewrite !(assoc_L app).
    apply Permutation_app_tail, Permutation_app_comm. }
  rewrite Hb2. simpl. exists b2. rewrite length_app, (Nat.add_comm (length done)).
  split; [done|]. split; [|by transitivity b1].
  eapply tracks_Permutation; [|exact Ht2]. rewrite !reverse_Permutation. solve_Permutation.
Qed.

(** C22: after a reset, marking every slot at most once, alone or several at a time,
    keeps all assertions; the block is empty exactly when all its slots were marked;
    with the counter the mark that completes the block, and no other, says so. *)
Theorem block_tracks_empty c b ms :
  Forall mark_fits ms → NoDup (concat (marked <$> ms)) →
  ∃ b', apply_marks c ms (reset_empty c b) = Ok (b', mark_answers c 0 ms) ∧
    is_empty c b' = Ok (bool_decide (Z.of_nat (length (concat (marked <$> ms))) = BLOCK_SIZE)) ∧
    elements b' = elements b.
Proof.
  intros Hf Hnd. destruct (apply_marks_tracks c ms _ _ (reset_tracks c b) Hf) as (b' & Hb & Ht & Hs).
  { by rewrite app_nil_r. }
  exists b'. split; [done|]. rewrite app_nil_r in Ht. split.
  - rewrite (is_empty_tracks _ _ _ Ht). do 2 f_equal. by rewrite length_reverse.
  - destruct Hs as [-> _]. unfold reset_empty. by destruct (use_flags c).
Qed.
End tracks.
End block.
Arguments block T : clear implicits.

Lemma block_tracks_empty_witness :
  mark_answers implicit_context 0 [SetMany 64 30; SetOne 31; SetOne 94] = [false; false; true] ∧
  ∃ b', apply_marks implicit_context [SetMany 64 30; SetOne 31; SetOne 94]
      (reset_empty implicit_context (new_block (T := Z))) =
      Ok (b', mark_answers implicit_context 0 [SetMany 64 30; SetOne 31; SetOne 94]) ∧
    is_empty implicit_context b' = Ok (bool_decide (Z.of_nat (length (concat (marked <$>
      [SetMany 64 30; SetOne 31; SetOne 94]))) = BLOCK_SIZE)) ∧
    elements b' = elements (new_block (T := Z)).
Proof.
  split; [by vm_compute|]. apply (block_tracks_empty (T := Z) implicit_context).
  - repeat constructor; by vm_compute.
  - apply (bool_decide_unpack _). by vm_compute.
Defined.
End McBlock.
