(* ===== verification/McPool.v ===== *)
(** * The block pool of [ConcurrentQueue]

    concurrentqueue.h: [populate_initial_block_list], [requisition_block] and
    the free list, run by one thread.  Blocks live in a heap that the pool, the
    producers and the free list share; a block belongs to at most one of them. *)
From S2P Require Import Prelude McBlock.
Local Open Scope Z_scope.

Module McPool.
Import McBlock.

Definition REFS_MASK : Z := 0x7FFFFFFF.
Definition SHOULD_BE_ON_FREELIST : Z := 0x80000000.

Section pool.
Context `{Traits} {T : Type}.

(** The blocks in memory, by address; the array [initialBlockPool] is the
    addresses [0 .. initialBlockPoolSize - 1].  [mallocs] is what the next calls
    of [Traits::malloc] answer, success when it is exhausted. *)
Record pool := Pool {
  heap : gmap nat (block T);
  fresh : nat;
  initialBlockPoolSize : Z;
  initialBlockPoolIndex : Z;
  freeListHead : option nat;
  mallocs : list bool
}.

Definition with_heap (p : pool) (h : gmap nat (block T)) : pool :=
  Pool h (fresh p) (initialBlockPoolSize p) (initialBlockPoolIndex p) (freeListHead p) (mallocs p).
Definition with_head (p : pool) (o : option nat) : pool :=
  Pool (heap p) (fresh p) (initialBlockPoolSize p) (initialBlockPoolIndex p) o (mallocs p).

(** Dereferencing a block pointer, and storing through it. *)
Definition deref (p : pool) (i : nat) : result (block T) :=
  match heap p !! i with Some b => Ok b | None => UB end.
Definition update (p : pool) (i : nat) (f : block T → block T) : result pool :=
  b ← deref p i; Ok (with_heap p (<[i := f b]> (heap p))).

Definition set_refs (r : Z) (b : block T) : block T :=
  Block (elements b) (next b) (elementsCompletelyDequeued b) (emptyFlags b) r (freeListNext b)
        (dynamicallyAllocated b).
Definition set_free_next (n : option nat) (b : block T) : block T :=
  Block (elements b) (next b) (elementsCompletelyDequeued b) (emptyFlags b) (freeListRefs b) n
        (dynamicallyAllocated b).
Definition set_static (b : block T) : block T :=
  Block (elements b) (next b) (elementsCompletelyDequeued b) (emptyFlags b) (freeListRefs b)
        (freeListNext b) false.

Definition malloc (p : pool) : bool * pool :=
  (hd true (mallocs p),
   Pool (heap p) (fresh p) (initialBlockPoolSize p) (initialBlockPoolIndex p) (freeListHead p)
        (tail (mallocs p))).

(** The pool after [create_array] has constructed [blockCount] blocks, or had no memory. *)
Definition initial_blocks (blockCount : nat) (mallocs : list bool) : pool :=
  if decide (blockCount = 0%nat) then Pool ∅ 0 0 0 None mallocs
  else if hd true mallocs
  then Pool (list_to_map ((λ i, (i, set_static new_block)) <$> seq 0 blockCount)) blockCount
            blockCount 0 None (tail mallocs)
  else Pool ∅ 0 0 0 None (tail mallocs).

(** [populate_initial_block_list] of a queue under construction: [create_array] asks
    [malloc] for [sizeof(Block) * count] bytes, which may wrap; then it constructs blocks
    beyond the memory it got. *)
Definition populate_initial_block_list (blockCount : nat) (mallocs : list bool) : result pool :=
  if negb (bool_decide (blockCount = 0%nat)) && hd true mallocs &&
     (u64 (sizeof_Block * blockCount) <? sizeof_Block * blockCount)
  then UB else Ok (initial_blocks blockCount mallocs).

Definition try_get_block_from_initial_pool (p : pool) : pool * option nat :=
  if initialBlockPoolSize p <=? initialBlockPoolIndex p then (p, None)
  else
    let index := initialBlockPoolIndex p in
    (Pool (heap p) (fresh p) (initialBlockPoolSize p) (u64 (index + 1)) (freeListHead p) (mallocs p),
     if index <? initialBlockPoolSize p then Some (Z.to_nat index) else None).

(** [FreeList::add_knowing_refcount_is_zero]: without contention the
    compare-exchange succeeds at once. *)
Definition add_knowing_refcount_is_zero (node : nat) (p : pool) : result pool :=
  let head := freeListHead p in
  p ← update p node (set_free_next head);
  p ← update p node (set_refs 1);
  Ok (with_head p (Some node)).

(** [FreeList::add] *)
Definition add_block_to_free_list (node : nat) (p : pool) : result pool :=
  b ← deref p node;
  p ← update p node (set_refs (u32 (freeListRefs b + SHOULD_BE_ON_FREELIST)));
  if freeListRefs b =? 0 then add_knowing_refcount_is_zero node p else Ok p.

(** A chain of blocks, each after its successor was read. *)
Fixpoint add_blocks_to_free_list (fuel : nat) (block : option nat) (p : pool) : result pool :=
  match block with
  | None => Ok p
  | Some i =>
      match fuel with
      | O => UB
      | S fuel =>
          b ← deref p i;
          p ← add_block_to_free_list i p;
          add_blocks_to_free_list fuel (next b) p
      end
  end.

(** [FreeList::try_get]; [None] when the loop has not ended after [fuel] turns. *)
Fixpoint try_get (fuel : nat) (p : pool) : option (result (pool * option nat)) :=
  match fuel with
  | O => None
  | S fuel =>
      match freeListHead p with
      | None => Some (Ok (p, None))
      | Some head =>
          match heap p !! head with
          | None => Some UB
          | Some b =>
              if Z.land (freeListRefs b) REFS_MASK =? 0 then try_get fuel p
              else Some (
                p ← update p head (set_refs (u32 (freeListRefs b + 1)));
                let p := with_head p (freeListNext b) in
                b ← deref p head;
                assert_ NDEBUG (Z.land (freeListRefs b) SHOULD_BE_ON_FREELIST =? 0);;
                p ← update p head (set_refs (u32 (freeListRefs b - 2)));
                Ok (p, Some head))
          end
      end
  end.

(** [create<Block>] *)
Definition create_block (p : pool) : pool * option nat :=
  let '(ok, p) := malloc p in
  if ok : bool
  then (Pool (<[fresh p := new_block]> (heap p)) (S (fresh p)) (initialBlockPoolSize p)
             (initialBlockPoolIndex p) (freeListHead p) (mallocs p), Some (fresh p))
  else (p, None).

(** One turn of [try_get] is enough when nobody else uses the list. *)
Definition try_get_fuel : nat := 1.

Definition requisition_block (canAlloc : bool) (p : pool) : result (pool * option nat) :=
  let '(p, o) := try_get_block_from_initial_pool p in
  match o with
  | Some _ => Ok (p, o)
  | None =>
      '(p, o) ← default UB (try_get try_get_fuel p);
      match o with
      | Some _ => Ok (p, o)
      | None => if canAlloc : bool then Ok (create_block p) else Ok (p, None)
      end
  end.

(** No slot holds an object. *)
Definition is_raw (b : block T) : bool := forallb (λ o, if o is None then true else false) (elements b).

(** [destroy(block)].  [~Block] does not run the destructors of elements; here it is an
    error to destroy a block that holds any, as they would be leaked. *)
Definition destroy_block (i : nat) (p : pool) : result pool :=
  b ← deref p i; if is_raw b then Ok (with_heap p (delete i (heap p))) else UB.

(** ** Who owns a block *)

Definition raw (b : block T) : Prop := elements b = replicate (Z.to_nat BLOCK_SIZE) None.

(** The nodes of the free list from [head]. *)
Fixpoint chain (h : gmap nat (block T)) (head : option nat) (l : list nat) : Prop :=
  match l with
  | [] => head = None
  | i :: l =>
      head = Some i ∧
      ∃ b, h !! i = Some b ∧ freeListRefs b = 1 ∧ raw b ∧ chain h (freeListNext b) l
  end.

(** The blocks in [owned] are used by producers, those in [l] are in the free
    list, those of the initial pool not yet handed out are unused; there are no
    others. *)
Record pool_ok_with (p : pool) (owned : gset nat) (l : list nat) : Prop := {
  po_fresh i b : heap p !! i = Some b → (i < fresh p)%nat;
  po_initial : 0 <= initialBlockPoolIndex p ∧ initialBlockPoolSize p <= fresh p ∧
    initialBlockPoolSize p <= SIZE_MAX;
  po_unused (i : nat) : initialBlockPoolIndex p <= i < initialBlockPoolSize p →
    (i ∉ owned) ∧ (i ∉ l) ∧ ∃ b, heap p !! i = Some b ∧ raw b ∧ freeListRefs b = 0;
  po_chain : chain (heap p) (freeListHead p) l;
  po_nodup : NoDup l;
  po_disjoint i : i ∈ l → i ∉ owned;
  po_owned i : i ∈ owned → ∃ b, heap p !! i = Some b ∧ freeListRefs b = 0;
  po_all (i : nat) : is_Some (heap p !! i) →
    i ∈ owned ∨ i ∈ l ∨ initialBlockPoolIndex p <= i < initialBlockPoolSize p
}.
Definition pool_ok (p : pool) (owned : gset nat) : Prop := ∃ l, pool_ok_with p owned l.

Lemma chain_frame h h' head l :
  (∀ i, i ∈ l → h' !! i = h !! i) → chain h head l → chain h' head l.
Proof.
  revert head. induction l as [|i l IH]; intros head Hf; simpl; [done|].
  intros (-> & b & Hb & Hr & Hraw & Hc). split; [done|]. exists b.
  rewrite Hf by left. split_and!; try done. apply IH; [|done]. intros j Hj. apply Hf. by right.
Qed.

Lemma deref_ok p i b : heap p !! i = Some b → deref p i = Ok b.
Proof. unfold deref. by intros ->. Qed.

Lemma update_ok p i b f :
  heap p !! i = Some b → update p i f = Ok (with_heap p (<[i := f b]> (heap p))).
Proof. intros Hi. unfold update. by rewrite (deref_ok _ _ _ Hi). Qed.

(** A producer changes a block of its own. *)
Lemma update_owned p owned i b f :
  pool_ok p owned → i ∈ owned → heap p !! i = Some b → freeListRefs (f b) = freeListRefs b →
  pool_ok (with_heap p (<[i := f b]> (heap p))) owned.
Proof.
  intros (l & [P1 P2 P3 P4 P5 P6 P7 P8]) Hi Hb Hf. exists l. constructor; simpl; try done.
  - intros j b'. destruct (decide (i = j)) as [<-|]; [by intros _; eapply P1|].
    rewrite lookup_insert_ne by done. apply P1.
  - intros j Hj. destruct (P3 j Hj) as (Ho & Hl & b' & Hb' & Hr). split_and!; [done..|].
    exists b'. rewrite lookup_insert_ne by congruence. done.
  - eapply chain_frame; [|done]. intros j Hj. rewrite lookup_insert_ne; [done|].
    intros ->. by apply (P6 j).
  - intros j Hj. destruct (decide (i = j)) as [<-|].
    + rewrite lookup_insert_eq. exists (f b). split; [done|].
      destruct (P7 i Hi) as (b' & Hb' & <-). rewrite Hf. congruence.
    + rewrite lookup_insert_ne by done. by apply P7.
  - intros j [<- | Hj]%lookup_insert_is_Some'; [by left|by apply P8].
Qed.

Lemma refs_step_1 : u32 (1 + 1) = 2 ∧ (Z.land 1 REFS_MASK =? 0) = false ∧
  (Z.land 2 SHOULD_BE_ON_FREELIST =? 0) = true ∧ u32 (2 - 2) = 0.
Proof. done. Qed.

Lemma try_get_ok p owned l :
  pool_ok_with p owned l → initialBlockPoolSize p <= initialBlockPoolIndex p →
  match l with
  | [] => try_get try_get_fuel p = Some (Ok (p, None))
  | i :: l' =>
      ∃ p' b, try_get try_get_fuel p = Some (Ok (p', Some i)) ∧
        heap p' !! i = Some b ∧ raw b ∧ freeListRefs b = 0 ∧
        (∀ j, j ≠ i → heap p' !! j = heap p !! j) ∧
        fresh p' = fresh p ∧ initialBlockPoolSize p' = initialBlockPoolSize p ∧
        initialBlockPoolIndex p' = initialBlockPoolIndex p ∧ mallocs p' = mallocs p ∧
        chain (heap p') (freeListHead p') l'
  end.
Proof.
  intros [P1 P2 P3 P4 P5 P6 P7 P8] Hini. destruct l as [|i l']; simpl in P4; simpl.
  - by rewrite P4.
  - destruct P4 as (Hh & b & Hb & Hr & Hraw & Hc). rewrite Hh, Hb, Hr.
    destruct refs_step_1 as (R1 & R2 & R3 & R4). rewrite R2, R1, (update_ok _ _ _ _ Hb), bind_ok.
    unfold deref. simpl. rewrite lookup_insert_eq, bind_ok. cbn [set_refs freeListRefs].
    rewrite R3, assert_ok, bind_ok, R4 by done. unfold update, deref. simpl.
    rewrite lookup_insert_eq, bind_ok. simpl. do 2 eexists. split; [done|]. simpl.
    rewrite lookup_insert_eq. split; [done|]. split_and!; try done.
    + intros j Hj. by rewrite !lookup_insert_ne.
    + apply NoDup_cons in P5 as [Hi _]. eapply chain_frame; [|exact Hc].
      intros j Hj. rewrite !lookup_insert_ne; [done|congruence..].
Qed.

Lemma initial_ok p owned l :
  pool_ok_with p owned l → initialBlockPoolIndex p < initialBlockPoolSize p →
  let i := Z.to_nat (initialBlockPoolIndex p) in
  (i ∉ owned) ∧
  pool_ok (Pool (heap p) (fresh p) (initialBlockPoolSize p) (u64 (initialBlockPoolIndex p + 1))
                (freeListHead p) (mallocs p)) ({[i]} ∪ owned) ∧
  ∃ b, heap p !! i = Some b ∧ raw b.
Proof.
  intros [P1 P2 P3 P4 P5 P6 P7 P8] Hlt i. unfold SIZE_MAX in *.
  destruct (P3 i ltac:(lia)) as (Ho & Hl & b & Hb & Hraw & Hr).
  split_and!; [done| |by exists b]. exists l.
  rewrite (wrap_small 64 (initialBlockPoolIndex p + 1)) by (unfold fits; lia).
  constructor; simpl; try done; try (unfold SIZE_MAX in *; lia).
  - intros j Hj. destruct (P3 j ltac:(lia)) as (? & ? & ?). split_and!; try done.
    apply not_elem_of_union. rewrite elem_of_singleton. split; [lia|done].
  - intros j Hj [->%elem_of_singleton|Hin]%elem_of_union; [done|by apply (P6 j)].
  - intros j [->%elem_of_singleton|Hin]%elem_of_union; [by eauto|by apply P7].
  - intros j Hj. destruct (decide (j = i)) as [->|Hne]; [left; set_solver|].
    destruct (P8 j Hj) as [?|[?|?]]; [left; set_solver|by right; left|right; right; lia].
Qed.

Lemma free_list_ok p p' owned i l b :
  pool_ok_with p owned (i :: l) → heap p' !! i = Some b → raw b → freeListRefs b = 0 →
  (∀ j, j ≠ i → heap p' !! j = heap p !! j) →
  fresh p' = fresh p → initialBlockPoolSize p' = initialBlockPoolSize p →
  initialBlockPoolIndex p' = initialBlockPoolIndex p → chain (heap p') (freeListHead p') l →
  (∀ j, j ∈ owned → heap p' !! j = heap p !! j) ∧
  (i ∉ owned) ∧ pool_ok p' ({[i]} ∪ owned) ∧ ∃ b, heap p' !! i = Some b ∧ raw b.
Proof.
  intros [P1 P2 P3 P4 P5 P6 P7 P8] Hb Hraw Hr Hf F1 F2 F3 Hc.
  assert (Hi : i ∉ owned) by (apply P6; left).
  assert (Hfo : ∀ j, j ∈ owned → heap p' !! j = heap p !! j).
  { intros j Hj. apply Hf. by intros ->. }
  split_and!; [done|done| |by exists b]. exists l. apply NoDup_cons in P5 as [Hil P5].
  destruct P4 as (_ & b0 & Hb0 & _).
  constructor; rewrite ?F1, ?F2, ?F3; try done.
  - intros j b'. destruct (decide (j = i)) as [->|Hj]; [intros _; by eapply P1|].
    rewrite Hf by done. apply P1.
  - intros j Hj. destruct (P3 j Hj) as (Ho & Hl & b' & Hb' & ?). apply not_elem_of_cons in Hl as [? ?].
    split_and!; [|done|].
    + apply not_elem_of_union. by rewrite elem_of_singleton.
    + exists b'. by rewrite Hf.
  - intros j Hj [->%elem_of_singleton|Hin]%elem_of_union; [done|]. apply (P6 j); [by right|done].
  - intros j [->%elem_of_singleton|Hin]%elem_of_union; [by eauto|]. rewrite Hfo by done. by apply P7.
  - intros j Hj. destruct (decide (j = i)) as [->|Hne]; [left; set_solver|]. rewrite Hf in Hj by done.
    destruct (P8 j Hj) as [?|[Hl%elem_of_cons|?]]; [left; set_solver|right; left; tauto|by right; right].
Qed.

Lemma create_ok_pool p owned :
  pool_ok_with p owned [] → initialBlockPoolSize p <= initialBlockPoolIndex p →
  let p' := Pool (<[fresh p := new_block]> (heap p)) (S (fresh p)) (initialBlockPoolSize p)
                 (initialBlockPoolIndex p) (freeListHead p) (tail (mallocs p)) in
  (∀ i, i ∈ owned → heap p' !! i = heap p !! i) ∧
  (fresh p ∉ owned) ∧ pool_ok p' ({[fresh p]} ∪ owned) ∧ ∃ b, heap p' !! fresh p = Some b ∧ raw b.
Proof.
  intros [P1 P2 P3 P4 P5 P6 P7 P8] Hle p'. simpl.
  assert (Hfr : fresh p ∉ owned).
  { intros Hin. destruct (P7 _ Hin) as (b & Hb & _). apply P1 in Hb. lia. }
  assert (Hf : ∀ i, i ∈ owned → <[fresh p:=new_block]> (heap p) !! i = heap p !! i).
  { intros i Hi. apply lookup_insert_ne. by intros <-. }
  split_and!; [done|done| |]; [|exists new_block; by rewrite lookup_insert_eq].
  exists []. constructor; simpl; try done; try (unfold SIZE_MAX in *; lia).
  - intros i b [[<- _]|[Hne Hb]]%lookup_insert_Some; [lia|]. apply P1 in Hb. lia.
  - by intros j ?%not_elem_of_nil.
  - intros j [->%elem_of_singleton|Hin]%elem_of_union.
    + exists new_block. by rewrite lookup_insert_eq.
    + rewrite Hf by done. by apply P7.
  - intros j [<- | Hj]%lookup_insert_is_Some'; [left; set_solver|].
    destruct (P8 j Hj) as [?|?]; [left; set_solver|by right].
Qed.

Lemma no_memory_ok p owned :
  pool_ok_with p owned [] →
  pool_ok (Pool (heap p) (fresh p) (initialBlockPoolSize p) (initialBlockPoolIndex p)
                (freeListHead p) (tail (mallocs p))) owned.
Proof. intros [P1 P2 P3 P4 P5 P6 P7 P8]. exists []. by constructor. Qed.

(** What a producer gets from [requisition_block]: nothing changes for the
    blocks in use, and a block it receives is raw and nobody's. *)
Lemma requisition_block_ok canAlloc p owned :
  pool_ok p owned →
  ∃ p' o, requisition_block canAlloc p = Ok (p', o) ∧
    (∀ i, i ∈ owned → heap p' !! i = heap p !! i) ∧
    match o with
    | Some i => (i ∉ owned) ∧ pool_ok p' ({[i]} ∪ owned) ∧ ∃ b, heap p' !! i = Some b ∧ raw b
    | None => pool_ok p' owned
    end.
Proof.
  intros [l Hp]. unfold requisition_block, try_get_block_from_initial_pool.
  destruct (Z.leb_spec (initialBlockPoolSize p) (initialBlockPoolIndex p)) as [Hle|Hlt].
  - pose proof (try_get_ok p owned l Hp Hle) as G. destruct l as [|i l'].
    + rewrite G. simpl. destruct canAlloc; [|by exists p, None; split_and!; [..|exists []]].
      unfold create_block, malloc. destruct (hd true (mallocs p)).
      * eexists _, (Some _). split; [reflexivity|]. exact (create_ok_pool p owned Hp Hle).
      * eexists _, None. split; [reflexivity|]. split; [done|]. by apply no_memory_ok.
    + destruct G as (p' & b & -> & Hb & Hraw & Hr & Hf & F1 & F2 & F3 & F4 & Hc). simpl.
      exists p', (Some i). split; [done|]. by eapply free_list_ok.
  - destruct (po_initial _ _ _ Hp) as (H0 & H1 & H2).
    rewrite (proj2 (Z.ltb_lt _ _)) by done. do 2 eexists. split; [reflexivity|].
    split; [done|]. exact (initial_ok p owned l Hp Hlt).
Qed.
(** A producer gives a block back, raw again. *)
Lemma add_block_to_free_list_ok p owned i b :
  pool_ok p owned → i ∈ owned → heap p !! i = Some b → raw b →
  ∃ p', add_block_to_free_list i p = Ok p' ∧ pool_ok p' (owned ∖ {[i]}) ∧
    ∀ j, j ≠ i → heap p' !! j = heap p !! j.
Proof.
  intros (l & [P1 P2 P3 P4 P5 P6 P7 P8]) Hi Hb Hraw.
  destruct (P7 i Hi) as (b' & Hb' & Hr). assert (b' = b) as -> by congruence.
  unfold add_block_to_free_list. rewrite (deref_ok _ _ _ Hb), bind_ok, (update_ok _ _ _ _ Hb), bind_ok, Hr.
  simpl. unfold add_knowing_refcount_is_zero. simpl.
  erewrite update_ok by (simpl; apply lookup_insert_eq). rewrite bind_ok.
  erewrite update_ok by (simpl; apply lookup_insert_eq). rewrite bind_ok. simpl.
  eexists. split; [reflexivity|]. split; [|intros j Hj; simpl; by rewrite !lookup_insert_ne].
  assert (Hil : i ∉ l) by (intros Hl; by apply (P6 i)).
  exists (i :: l). constructor; simpl; try done.
  - intros j bj. rewrite !insert_insert_eq.
    intros [[<- _]|[Hne Hj]]%lookup_insert_Some; [by eapply P1|by eapply P1].
  - intros j Hj. destruct (P3 j Hj) as (Ho & Hl & bj & Hbj & ?).
    assert (j ≠ i) by (by intros ->). split_and!; [set_solver|set_solver|].
    exists bj. by rewrite !lookup_insert_ne.
  - split; [done|]. eexists. rewrite !insert_insert_eq, lookup_insert_eq. split; [reflexivity|].
    split_and!; [done|done|]. simpl. eapply chain_frame; [|exact P4].
    intros j Hj. apply lookup_insert_ne. by intros ->.
  - by constructor.
  - intros j [-> | Hj]%elem_of_cons; [set_solver|]. pose proof (P6 j Hj). set_solver.
  - intros j Hj. rewrite !lookup_insert_ne by set_solver. apply P7. set_solver.
  - intros j Hj. destruct (decide (j = i)) as [->|Hne]; [right; left; left|].
    rewrite !lookup_insert_ne in Hj by done.
    destruct (P8 j Hj) as [?|[?|?]]; [left; set_solver|right; left; by right|by right; right].
Qed.

Lemma raw_is_raw b : raw b → is_raw b = true.
Proof. unfold raw, is_raw. intros ->. by apply forallb_forall; intros o [-> _]%list_elem_of_In%elem_of_replicate. Qed.

Lemma destroy_raw p i b : heap p !! i = Some b → raw b → destroy_block i p = Ok (with_heap p (delete i (heap p))).
Proof. intros Hb Hr. unfold destroy_block. by rewrite (deref_ok _ _ _ Hb), bind_ok, raw_is_raw. Qed.

Lemma destroy_block_ok p owned i b :
  pool_ok p owned → i ∈ owned → heap p !! i = Some b → raw b →
  ∃ p', destroy_block i p = Ok p' ∧ pool_ok p' (owned ∖ {[i]}) ∧
    ∀ j, j ≠ i → heap p' !! j = heap p !! j.
Proof.
  intros (l & [P1 P2 P3 P4 P5 P6 P7 P8]) Hi Hb Hr. rewrite (destroy_raw _ _ _ Hb Hr). eexists. split; [reflexivity|].
  split; [|intros j Hj; simpl; by rewrite lookup_delete_ne].
  exists l. constructor; simpl; try done.
  - intros j bj [_ Hj]%lookup_delete_Some. by eapply P1.
  - intros j Hj. destruct (P3 j Hj) as (Ho & Hl & bj & Hbj & ?).
    split_and!; [set_solver|done|]. exists bj. rewrite lookup_delete_ne; [done|]. by intros ->.
  - eapply chain_frame; [|exact P4]. intros j Hj. apply lookup_delete_ne. intros ->. by apply (P6 j).
  - intros j Hj. pose proof (P6 j Hj). set_solver.
  - intros j Hj. rewrite lookup_delete_ne by set_solver. apply P7. set_solver.
  - intros j [Hne Hj]%lookup_delete_is_Some. destruct (P8 j Hj) as [?|?]; [left; set_solver|by right].
Qed.

Lemma malloc_pool (p : pool) owned : pool_ok p owned → pool_ok (malloc p).2 owned.
Proof. intros (l & [P1 P2 P3 P4 P5 P6 P7 P8]). exists l. by constructor. Qed.

Lemma update_memory (p : pool) i f p' : update p i f = Ok p' → mallocs p' = mallocs p.
Proof. unfold update, deref. destruct (heap p !! i); [|done]. by intros [= <-]. Qed.

Lemma add_block_memory (p : pool) i p' :
  add_block_to_free_list i p = Ok p' → mallocs p' = mallocs p.
Proof.
  unfold add_block_to_free_list, add_knowing_refcount_is_zero. intros Ha.
  apply bind_inv_ok in Ha as (b & _ & Ha). apply bind_inv_ok in Ha as (p1 & H1 & Ha).
  apply update_memory in H1 as <-. case_match; [|by simplify_eq].
  apply bind_inv_ok in Ha as (p2 & H2 & Ha). apply bind_inv_ok in Ha as (p3 & H3 & [= <-]).
  apply update_memory in H2 as <-. by apply update_memory in H3 as <-.
Qed.

Lemma add_blocks_ok l : ∀ fuel p owned,
  pool_ok p owned → NoDup l → (∀ i, i ∈ l → i ∈ owned) → (length l ≤ fuel)%nat →
  (∀ k i, l !! k = Some i → ∃ b, heap p !! i = Some b ∧ raw b ∧ next b = l !! S k) →
  ∃ p', add_blocks_to_free_list fuel (head l) p = Ok p' ∧ pool_ok p' (owned ∖ list_to_set l) ∧
    (∀ j, j ∉ l → heap p' !! j = heap p !! j) ∧ mallocs p' = mallocs p.
Proof.
  induction l as [|i l IH]; intros fuel p owned P Hnd Ho Hf Hl.
  { exists p. split_and!; [by destruct fuel| |done|done]. by replace (owned ∖ list_to_set []) with owned by set_solver. }
  destruct fuel as [|fuel]; [simpl in Hf; lia|]. cbn [add_blocks_to_free_list head].
  apply NoDup_cons in Hnd as [Hi Hnd]. destruct (Hl 0%nat i eq_refl) as (b & Hb & Hr & Hn).
  destruct (add_block_to_free_list_ok p owned i b P (Ho i ltac:(left)) Hb Hr) as (p1 & Hadd & P1 & Hf1).
  rewrite (deref_ok _ _ _ Hb), bind_ok, Hadd, bind_ok, Hn. change ((i :: l) !! 1%nat) with (l !! 0%nat).
  rewrite <- head_lookup. destruct (IH fuel p1 (owned ∖ {[i]})) as (p' & Hrun & P' & Hf' & M'); try done.
  - intros j Hj. pose proof (Ho j ltac:(by right)). set_solver.
  - simpl in Hf. lia.
  - intros k j Hk. destruct (Hl (S k) j Hk) as (b' & Hb' & Hr' & Hn'). exists b'. rewrite Hf1; [done|].
    intros ->. apply Hi. by eapply list_elem_of_lookup_2.
  - exists p'. split_and!; [done| | |].
    + by replace (owned ∖ list_to_set (i :: l)) with (owned ∖ {[i]} ∖ list_to_set l) by set_solver.
    + intros j Hj. apply not_elem_of_cons in Hj as [??]. by rewrite Hf', Hf1.
    + rewrite M'. by apply add_block_memory in Hadd.
Qed.

Lemma requisition_memory (p : pool) p' o :
  requisition_block true p = Ok (p', o) → mallocs p = [] → is_Some o ∧ mallocs p' = [].
Proof.
  intros Hr Hm. unfold requisition_block, try_get_block_from_initial_pool in Hr.
  destruct (initialBlockPoolSize p <=? initialBlockPoolIndex p) eqn:Hi.
  - destruct (try_get try_get_fuel p) as [[[p1 o1]| | |]|] eqn:Ht; try done. simpl in Hr.
    assert (mallocs p1 = []) as Hm1.
    { simpl in Ht. unfold update, deref in Ht. repeat (case_match; simplify_eq/=; try done).
      all: unfold assert_ in Ht; repeat (case_match; simplify_eq/=; try done). }
    destruct o1 as [i|]; [by simplify_eq/=|]. unfold create_block, malloc in Hr.
    rewrite Hm1 in Hr. by simplify_eq/=.
  - assert (initialBlockPoolIndex p <? initialBlockPoolSize p = true) as Hlt.
    { apply Z.leb_gt in Hi. by apply Z.ltb_lt. }
    rewrite Hlt in Hr. by simplify_eq/=.
Qed.

Lemma initial_block_at (n i : nat) : (i < n)%nat →
  (list_to_map ((λ i, (i, set_static new_block)) <$> seq 0 n) : gmap nat (block T)) !! i = Some (set_static new_block).
Proof.
  intros Hi. apply elem_of_list_to_map_1.
  - rewrite <- list_fmap_compose. unfold compose. simpl. rewrite list_fmap_id. apply NoDup_seq.
  - apply list_elem_of_fmap. exists i. split; [done|]. apply elem_of_seq. lia.
Qed.

Lemma initial_blocks_ok (n : nat) ms : n <= SIZE_MAX → pool_ok (initial_blocks n ms) ∅.
Proof.
  intros Hn. exists []. unfold initial_blocks.
  assert (He : ∀ ms', pool_ok_with (Pool ∅ 0 0 0 None ms') ∅ []).
  { intros ms'. constructor; simpl; try done; [intros; lia|constructor|].
    intros i Hi. by apply is_Some_None in Hi. }
  destruct (decide (n = 0%nat)) as [->|Hz]; [done|]. destruct (hd true ms); [|done].
  constructor; simpl; try done.
  - intros i b Hi. apply elem_of_list_to_map_2, list_elem_of_fmap in Hi as (j & [= -> ->] & Hj).
    apply elem_of_seq in Hj. lia.
  - intros i Hi. split_and!; [set_solver|set_solver|]. rewrite initial_block_at by lia. by eexists.
  - constructor.
  - intros i [b Hi]. right. right. apply elem_of_list_to_map_2, list_elem_of_fmap in Hi as (j & [= -> ->] & Hj).
    apply elem_of_seq in Hj. lia.
Qed.

Lemma populate_fits (n : nat) ms :
  sizeof_Block * n < 2 ^ 64 → 0 <= sizeof_Block → populate_initial_block_list n ms = Ok (initial_blocks n ms).
Proof.
  intros Hn Hs. unfold populate_initial_block_list. rewrite wrap_small by (unfold fits; lia).
  by rewrite Z.ltb_irrefl, andb_false_r.
Qed.

(** ** Clients of the pool *)

Inductive request := Acquire (canAlloc : bool) | Release (k : nat).

(** A client takes blocks and gives back blocks it holds. *)
Definition serve (p : pool) (held : list nat) (r : request) : result (pool * list nat) :=
  match r with
  | Acquire canAlloc =>
      '(p, o) ← requisition_block canAlloc p;
      Ok (p, match o with Some i => i :: held | None => held end)
  | Release k =>
      match held !! k with
      | Some i => p ← add_block_to_free_list i p; Ok (p, delete k held)
      | None => Ok (p, held)
      end
  end.
Fixpoint serve_all (p : pool) (held : list nat) (rs : list request) : result (pool * list nat) :=
  match rs with
  | [] => Ok (p, held)
  | r :: rs => '(p, held) ← serve p held r; serve_all p held rs
  end.

Definition holds (p : pool) (held : list nat) : Prop :=
  NoDup held ∧ pool_ok p (list_to_set held) ∧
  ∀ i, i ∈ held → ∃ b, heap p !! i = Some b ∧ raw b.

Lemma serve_ok p held r :
  holds p held → ∃ p' held', serve p held r = Ok (p', held') ∧ holds p' held'.
Proof.
  intros (Hnd & Hp & Hraw). destruct r as [ca|k]; simpl.
  - destruct (requisition_block_ok ca p _ Hp) as (p' & o & -> & Hf & Ho). simpl.
    do 2 eexists. split; [reflexivity|]. destruct o as [i|].
    + destruct Ho as (Hi & Hp' & Hb). rewrite elem_of_list_to_set in Hi.
      split_and!; [by constructor|done|]. intros j [-> | Hj]%elem_of_cons; [done|].
      rewrite Hf by (by apply elem_of_list_to_set). by apply Hraw.
    + split_and!; [done..|]. intros j Hj. rewrite Hf by (by apply elem_of_list_to_set). by apply Hraw.
  - destruct (held !! k) as [i|] eqn:Hk; [|by exists p, held].
    pose proof (list_elem_of_lookup_2 _ _ _ Hk) as Hi. destruct (Hraw i Hi) as (b & Hb & Hrb).
    destruct (add_block_to_free_list_ok p _ i b Hp) as (p' & -> & Hp' & Hf); [set_solver|done..|].
    simpl. do 2 eexists. split; [reflexivity|].
    assert (Hperm : held ≡ₚ i :: delete k held) by (by apply delete_Permutation).
    assert (Hin : ∀ j, j ∈ held ↔ j = i ∨ j ∈ delete k held).
    { intros j. rewrite <- elem_of_cons. split; intros Hj; [by rewrite <- Hperm|by rewrite Hperm]. }
    pose proof Hnd as Hnd'. rewrite Hperm in Hnd'. apply NoDup_cons in Hnd' as [Hni Hnd'].
    split_and!; [done| |].
    + replace (list_to_set (delete k held)) with (list_to_set (C := gset nat) held ∖ {[i]}); [done|].
      apply set_eq. intros j. rewrite elem_of_difference, !elem_of_list_to_set, elem_of_singleton.
      rewrite Hin. split; [tauto|]. intros Hj. split; [by right|]. by intros ->.
    + intros j Hj. rewrite Hf by (by intros ->). apply Hraw, Hin. by right.
Qed.

Context `{!TraitsOk}.

(** C21: an initial pool whose array fits in memory is constructed, and however blocks are
    requested and returned, and whatever [malloc] answers, the pool never fails an
    assertion, never touches memory that is not a block, and every block it hands out is
    raw and held by nobody else. *)
Theorem block_pool_exclusive (n : nat) ms rs :
  sizeof_Block * n < 2 ^ 64 →
  ∃ p0 p held, populate_initial_block_list n ms = Ok p0 ∧ serve_all p0 [] rs = Ok (p, held) ∧ holds p held.
Proof.
  intros Hn. pose proof block_bytes. exists (initial_blocks n ms). rewrite populate_fits by lia.
  assert (Hinit : holds (initial_blocks n ms) []).
  { split_and!; [constructor|apply initial_blocks_ok; unfold SIZE_MAX; nia|set_solver]. }
  revert Hinit. generalize (initial_blocks n ms). generalize (@nil nat).
  induction rs as [|r rs IH]; intros held p Hinit; simpl; [by exists p, held|].
  destruct (serve_ok p held r Hinit) as (p' & held' & -> & Hserved). simpl.
  destruct (IH held' p' Hserved) as (p2 & held2 & _ & Hr & ?). by exists p2, held2.
Qed.
End pool.
Arguments pool T : clear implicits.

Lemma block_pool_exclusive_witness :
  (∃ p, serve_all (T := Z) (initial_blocks 1 [true; true; false]) []
     [Acquire true; Acquire true; Acquire true; Release 1; Acquire false] = Ok (p, [0; 1]%nat)) ∧
  ∃ p0 p held, populate_initial_block_list (T := Z) 1 [true; true; false] = Ok p0 ∧
     serve_all p0 [] [Acquire true; Acquire true; Acquire true; Release 1; Acquire false] = Ok (p, held) ∧
     holds p held.
Proof.
  split; [by eexists; vm_compute|]. apply (block_pool_exclusive (T := Z) 1). by vm_compute.
Defined.
End McPool.
