(* ===== verification/McSlots.v ===== *)
(** * The slots of a sub-queue

    concurrentqueue.h: what [ExplicitProducer] and [ImplicitProducer] have in
    common.  An index names a block and a slot in it; the blocks of a sub-queue
    cover consecutive ranges of indices; slots below the head are dequeued, those
    from the head to the tail hold the elements, the others are raw.  The
    queue that a sub-queue stands for is [queue_run]. *)
From S2P Require Import Prelude BitTricks McDetails McBlock.
Local Open Scope Z_scope.

Module McSlots.
Import McDetails McBlock.

(** ** The queue a sub-queue stands for *)

Section queue_spec.
Context {T : Type}.

Inductive call := Enqueue (canAlloc : bool) (x : T) | Dequeue.
Inductive answer := Enqueued (b : bool) | Dequeued (o : option T).

(** The unbounded queue of [xs], which may refuse an element: what it holds after
    the calls, when the answers are its answers. *)
Inductive queue_run : list T → list call → list answer → list T → Prop :=
  | queue_done xs : queue_run xs [] [] xs
  | queue_enqueued xs canAlloc x cs answers ys :
      queue_run (xs ++ [x]) cs answers ys →
      queue_run xs (Enqueue canAlloc x :: cs) (Enqueued true :: answers) ys
  | queue_refused xs canAlloc x cs answers ys :
      queue_run xs cs answers ys →
      queue_run xs (Enqueue canAlloc x :: cs) (Enqueued false :: answers) ys
  | queue_dequeued x xs cs answers ys :
      queue_run xs cs answers ys →
      queue_run (x :: xs) (Dequeue :: cs) (Dequeued (Some x) :: answers) ys
  | queue_empty cs answers ys :
      queue_run [] cs answers ys →
      queue_run [] (Dequeue :: cs) (Dequeued None :: answers) ys.

Definition never_refused (cs : list call) (answers : list answer) : Prop :=
  ∀ k canAlloc x, cs !! k = Some (Enqueue canAlloc x) → answers !! k = Some (Enqueued true).

End queue_spec.

Section slots.
Context `{Traits} {T : Type}.

(** A new block would let the tail come round to the head, or exceed the limit. *)
Definition too_full (tail head : Z) : bool :=
  negb (clt head (u64 (tail + BLOCK_SIZE))) ||
  (negb (MAX_SUBQUEUE_SIZE =? SIZE_MAX) &&
   ((MAX_SUBQUEUE_SIZE =? 0) || (u64 (MAX_SUBQUEUE_SIZE - BLOCK_SIZE) <? u64 (tail - head)))).

Definition base (A : Z) (k : nat) : Z := A + BLOCK_SIZE * k.

(** The slots of the block at [b] that are dequeued. *)
Definition dequeued_slots (h b : Z) : list nat := seq 0 (Z.to_nat (Z.min BLOCK_SIZE (h - b))).

(** What the slot of an index holds. *)
Definition content (h : Z) (xs : list T) (idx : Z) : option T :=
  if h <=? idx then xs !! Z.to_nat (idx - h) else None.

(** The elements of a block whose first slot is that of [start]. *)
Definition slots_ok (b : block T) (start h : Z) (xs : list T) : Prop :=
  length (elements b) = Z.to_nat BLOCK_SIZE ∧
  ∀ j : nat, j < BLOCK_SIZE → elements b !! j = Some (content h xs (start + j)).

Record block_ok (c : InnerQueueContext) (b : block T) (start h : Z) (xs : list T) : Prop := {
  bk_length : length (elements b) = Z.to_nat BLOCK_SIZE;
  bk_elements (j : nat) : j < BLOCK_SIZE → elements b !! j = Some (content h xs (start + j));
  bk_tracks : tracks c b (dequeued_slots h start)
}.

Context `{!TraitsOk}.

(** ** Indices *)

Lemma base_slot A k j : A mod BLOCK_SIZE = 0 → 0 <= j < BLOCK_SIZE → slot (base A k + j) = j.
Proof.
  intros HA Hj. pose proof block_size_pos. rewrite slot_mod. unfold base.
  rewrite (Z.div_mod A BLOCK_SIZE), HA, Z.add_0_r by lia.
  replace (BLOCK_SIZE * (A / BLOCK_SIZE) + BLOCK_SIZE * k + j) with
    (j + (A / BLOCK_SIZE + k) * BLOCK_SIZE) by lia.
  rewrite Z.mod_add by lia. by apply Z.mod_small.
Qed.

Lemma base_aligned A k : A mod BLOCK_SIZE = 0 → base A k mod BLOCK_SIZE = 0.
Proof.
  intros HA. pose proof block_size_pos. unfold base. rewrite Z.mul_comm, Z.mod_add by lia. done.
Qed.

(** The block and the slot of an index of the ring. *)
Lemma locate A u idx :
  A <= idx < base A u → ∃ (k : nat) j, (k < u)%nat ∧ 0 <= j < BLOCK_SIZE ∧ idx = base A k + j.
Proof.
  unfold base. intros Hi. pose proof block_size_pos.
  assert (Hbs : 0 < BLOCK_SIZE) by lia. assert (Hne : BLOCK_SIZE ≠ 0) by lia.
  pose proof (Z.div_mod (idx - A) BLOCK_SIZE Hne).
  pose proof (Z.mod_pos_bound (idx - A) BLOCK_SIZE Hbs).
  assert (0 <= (idx - A) / BLOCK_SIZE) by (apply Z.div_pos; lia).
  exists (Z.to_nat ((idx - A) / BLOCK_SIZE)), ((idx - A) mod BLOCK_SIZE).
  split_and!; [|lia|lia|].
  - assert ((idx - A) / BLOCK_SIZE < u); [|lia]. apply Z.div_lt_upper_bound; lia.
  - rewrite Z2Nat.id by lia. lia.
Qed.

Lemma base_inj A k j k' j' :
  0 <= j < BLOCK_SIZE → 0 <= j' < BLOCK_SIZE → base A k + j = base A k' + j' → k = k' ∧ j = j'.
Proof. unfold base. intros Hj Hj' He. assert (k = k') by nia. subst. split; [done|lia]. Qed.

Lemma land_size s m x : 0 <= m → s = 2 ^ m → Z.land x (s - 1) = x mod s.
Proof. intros Hm ->. by apply land_mask. Qed.

Lemma wrap_mod_size s m w x : s = 2 ^ m → 0 <= m <= w → wrap w x mod s = x mod s.
Proof. intros -> Hm. by apply wrap_mod_pow2. Qed.

(** Two positions of a circular index. *)
Lemma mod_inj s x (k1 k2 : nat) :
  k1 < s → k2 < s → (x + k1) mod s = (x + k2) mod s → k1 = k2.
Proof.
  intros H1 H2 Hm. assert ((k1 - k2) mod s = 0) as Hd.
  { replace (Z.of_nat k1 - k2) with ((x + k1) - (x + k2)) by lia.
    rewrite Zminus_mod, Hm, Z.sub_diag. by apply Z.mod_0_l; lia. }
  apply Z.mod_divide in Hd as [q Hq]; [|lia]. assert (q = 0) by nia. subst. lia.
Qed.

Lemma last_at (l : list nat) (i : nat) : last l = Some i ↔ l !! (length l - 1)%nat = Some i.
Proof. rewrite last_lookup. by replace (pred (length l)) with (length l - 1)%nat by lia. Qed.

Lemma block_base x : Z.ldiff x (BLOCK_SIZE - 1) = x - slot x.
Proof.
  rewrite slot_mod. destruct block_size_pow2 as (k & Hk & ->).
  rewrite Z.sub_1_r, <- Z.ones_equiv, Z.ldiff_ones_r, Z.shiftl_mul_pow2, Z.shiftr_div_pow2 by lia.
  pose proof (Z.div_mod x (2 ^ k)). lia.
Qed.

(** The base of a wrapped index: the low bits do not carry. *)
Lemma wrap_block_base x : u64 x - slot x = u64 (x - slot x).
Proof.
  rewrite <- wrap_sub_l. symmetry. apply wrap_small. pose proof block_size_pos.
  pose proof (slot_bound x) as Hs. pose proof (wrap_fits 64 x ltac:(lia)). unfold fits in *.
  assert (slot x <= u64 x); [|lia]. rewrite <- slot_wrap, slot_mod. apply Z.mod_le; lia.
Qed.

(** The unsigned quotient is right modulo the size of the index. *)
Lemma offset_mod s m d x :
  0 <= m → s = 2 ^ m → s * BLOCK_SIZE <= 2 ^ 63 → 0 <= d → BLOCK_SIZE * d < 2 ^ 63 →
  (x + u64 (- (BLOCK_SIZE * d)) / BLOCK_SIZE) mod s = (x - d) mod s.
Proof.
  intros Hm -> Hmem Hd Hb. pose proof block_size_pos. destruct block_size_pow2 as (kb & Hkb & Hbs).
  rewrite Hbs, <- Z.pow_add_r in Hmem by lia.
  assert (m + kb <= 63) by (apply (Z.pow_le_mono_r_iff 2); lia).
  replace (u64 (- (BLOCK_SIZE * d)) / BLOCK_SIZE) with (if decide (d = 0) then 0 else 2 ^ (64 - kb) - d).
  - case_decide as Hz; [subst; f_equal; lia|].
    replace (2 ^ (64 - kb)) with (2 ^ (64 - kb - m) * 2 ^ m) by (rewrite <- Z.pow_add_r by lia; f_equal; lia).
    replace (x + (2 ^ (64 - kb - m) * 2 ^ m - d)) with (x - d + 2 ^ (64 - kb - m) * 2 ^ m) by lia.
    rewrite Z.mod_add; [done|]. pose proof (Z.pow_pos_nonneg 2 m). lia.
  - case_decide as Hz; [by subst; rewrite Z.mul_0_r|]. unfold wrap.
    replace (- (BLOCK_SIZE * d)) with (2 ^ 64 - BLOCK_SIZE * d + (-1) * 2 ^ 64) by lia.
    rewrite Z.mod_add, Z.mod_small by nia. rewrite Hbs.
    replace (2 ^ 64) with (2 ^ kb * 2 ^ (64 - kb)) by (rewrite <- Z.pow_add_r by lia; f_equal; lia).
    rewrite <- Z.mul_sub_distr_l, Z.mul_comm, Z.div_mul; [done|].
    pose proof (Z.pow_pos_nonneg 2 kb). lia.
Qed.

(** Without a limit on the size of a sub-queue only 2^63 elements fill it. *)
Lemma too_full_unlimited t h :
  MAX_SUBQUEUE_SIZE = SIZE_MAX → 0 <= t - h → t - h + BLOCK_SIZE <= 2 ^ 62 →
  too_full (u64 t) (u64 h) = false.
Proof.
  intros Hmax Hspan Hlim. pose proof block_size_pos. unfold too_full.
  rewrite Hmax, Z.eqb_refl, wrap_add_l, clt_spec by lia. by rewrite (proj2 (Z.ltb_lt _ _)) by lia.
Qed.

(** The head is not beyond the tail. *)
Lemma in_order t h : 0 <= t - h <= 2 ^ 62 → negb (clt (u64 t) (u64 h)) = true.
Proof. intros Hd. rewrite clt_spec by lia. by rewrite (proj2 (Z.ltb_ge _ _)) by lia. Qed.

(** ** Contents *)

Lemma content_snoc h xs x idx :
  idx ≠ h + length xs → content h (xs ++ [x]) idx = content h xs idx.
Proof.
  intros Hne. unfold content. destruct (Z.leb_spec h idx); [|done].
  destruct (decide (Z.to_nat (idx - h) < length xs)%nat).
  - by rewrite lookup_app_l.
  - rewrite lookup_app_r, !lookup_ge_None_2 by (simpl; lia). done.
Qed.

Lemma content_new h xs x : content h (xs ++ [x]) (h + length xs) = Some x.
Proof.
  unfold content. rewrite (proj2 (Z.leb_le _ _)) by lia.
  replace (Z.to_nat (h + length xs - h)) with (length xs) by lia. apply list_lookup_middle.
  done.
Qed.

Lemma content_out h xs idx : idx < h ∨ h + length xs <= idx → content h xs idx = None.
Proof.
  unfold content. intros Hi. destruct (Z.leb_spec h idx); [|done]. apply lookup_ge_None_2. lia.
Qed.

Lemma content_tail h x xs idx : idx ≠ h → content (h + 1) xs idx = content h (x :: xs) idx.
Proof.
  unfold content. intros Hi. destruct (Z.leb_spec h idx), (Z.leb_spec (h + 1) idx); try lia; [|done].
  replace (Z.to_nat (idx - h)) with (S (Z.to_nat (idx - (h + 1)))) by lia. done.
Qed.

Lemma block_full c b start h xs :
  block_ok c b start h xs →
  is_empty c b = Ok (bool_decide (start + BLOCK_SIZE <= h)).
Proof.
  intros [_ _ Ht]. rewrite (is_empty_tracks _ _ _ Ht). f_equal. apply bool_decide_ext.
  unfold dequeued_slots. rewrite length_seq. pose proof block_size_pos. lia.
Qed.

Lemma reset_fields c (b : block T) :
  elements (reset_empty c b) = elements b ∧ next (reset_empty c b) = next b ∧
  freeListRefs (reset_empty c b) = freeListRefs b.
Proof. unfold reset_empty. by destruct (use_flags c). Qed.

(** A raw block, reset, holds the range that starts at the tail. *)
Lemma fresh_block_ok c (b : block T) t h xs :
  length (elements b) = Z.to_nat BLOCK_SIZE →
  (∀ j : nat, j < BLOCK_SIZE → elements b !! j = Some None) →
  Z.of_nat (length xs) <= t - h → block_ok c (reset_empty c b) t h xs.
Proof.
  intros Hl He Hx. constructor; rewrite ?(proj1 (reset_fields c b)).
  - done.
  - intros j Hj. rewrite He by done. f_equal. symmetry. apply content_out. lia.
  - unfold dequeued_slots. replace (Z.to_nat (Z.min BLOCK_SIZE (h - t))) with 0%nat by lia.
    apply reset_tracks.
Qed.

(** Constructing the element at the tail in its block. *)
Lemma fill_element c b start h x xs (j : nat) :
  block_ok c b start h xs → start mod BLOCK_SIZE = 0 → j < BLOCK_SIZE → h + length xs = start + j →
  ∃ b', construct b (u64 (start + j)) x = Ok b' ∧ block_ok c b' start h (xs ++ [x]) ∧
    next b' = next b ∧ freeListRefs b' = freeListRefs b.
Proof.
  intros [B1 B2 B3] Hst Hj Ht. pose proof block_size_pos.
  assert (Hslot : slot (u64 (start + j)) = j).
  { rewrite slot_wrap. replace start with (base start 0) by (unfold base; lia).
    apply base_slot; [done|lia]. }
  assert (Hel : elements b !! j = Some None).
  { rewrite B2 by done. f_equal. apply content_out. lia. }
  unfold construct. rewrite Hslot, (aread_ok _ _ _ Hel), bind_ok, awrite_ok by lia.
  eexists. split; [reflexivity|]. split; [|done]. constructor; simpl; [by rewrite length_insert| |done].
  intros j' Hj'. destruct (decide (j' = j)) as [->|Hne].
  - rewrite list_lookup_insert_eq by lia. do 2 f_equal. rewrite <- Ht. by rewrite content_new.
  - rewrite list_lookup_insert_ne, B2 by done. f_equal. symmetry. apply content_snoc. lia.
Qed.

(** Destroying the element at the head. *)
Lemma destruct_head (b : block T) start h x xs (j : nat) :
  slots_ok b start h (x :: xs) → start mod BLOCK_SIZE = 0 → j < BLOCK_SIZE → h = start + j →
  slot (u64 h) = j ∧ element b (u64 h) = Ok x ∧
  destruct_at b (u64 h) = Ok (with_elements b (<[j := None]> (elements b))) ∧
  slots_ok (with_elements b (<[j := None]> (elements b))) start (h + 1) xs.
Proof.
  intros [B1 B2] Hst Hj Hh. pose proof block_size_pos.
  assert (Hslot : slot (u64 h) = j).
  { rewrite slot_wrap, Hh. replace start with (base start 0) by (unfold base; lia).
    apply base_slot; [done|lia]. }
  assert (Hel : elements b !! j = Some (Some x)).
  { rewrite B2 by done. f_equal. unfold content. rewrite <- Hh, (proj2 (Z.leb_le _ _)) by lia.
    by rewrite Z.sub_diag. }
  pose proof (lookup_lt_Some _ _ _ Hel). unfold element, destruct_at.
  rewrite Hslot, (aread_ok _ _ _ Hel), !bind_ok. split_and!; [done|done| |].
  { by rewrite awrite_ok. }
  split; simpl; [by rewrite length_insert|]. intros j' Hj'. destruct (decide (j' = j)) as [->|Hne].
  - rewrite list_lookup_insert_eq by done. f_equal. symmetry. apply content_out. lia.
  - rewrite list_lookup_insert_ne, B2 by done. f_equal. symmetry. apply content_tail. lia.
Qed.

(** The slots of another block. *)
Lemma other_slots (b : block T) start h x xs :
  slots_ok b start h (x :: xs) → (h < start ∨ start + BLOCK_SIZE <= h) → slots_ok b start (h + 1) xs.
Proof.
  intros [B1 B2] Hs. split; [done|]. intros j Hj. rewrite B2 by done. f_equal. symmetry.
  apply content_tail. lia.
Qed.

(** A block without elements is raw. *)
Lemma no_slots_raw (b : block T) start h xs :
  slots_ok b start h xs → start + BLOCK_SIZE <= h ∨ xs = [] →
  elements b = replicate (Z.to_nat BLOCK_SIZE) None.
Proof.
  intros [B1 B2] Hx. apply list_eq_same_length with (Z.to_nat BLOCK_SIZE);
    [by rewrite length_replicate|done|]. intros j y z Hj. rewrite B2 by lia.
  rewrite lookup_replicate_2 by done. intros Hy Hz. injection Hy as <-. injection Hz as <-. unfold content.
  destruct (Z.leb_spec h (start + j)); [|done]. destruct Hx as [Hx|Hx]; [lia|by rewrite Hx].
Qed.

Lemma block_slots c b start h xs : block_ok c b start h xs → slots_ok b start h xs.
Proof. by intros [? ? _]. Qed.

(** Taking the element at the head out of its block. *)
Lemma take_element c b start h x xs (j : nat) :
  block_ok c b start h (x :: xs) → start mod BLOCK_SIZE = 0 → j < BLOCK_SIZE → h = start + j →
  element b (u64 h) = Ok x ∧
  ∃ b1 b2, destruct_at b (u64 h) = Ok b1 ∧
    set_empty c (u64 h) b1 = Ok (b2, negb (use_flags c) && bool_decide (h + 1 = start + BLOCK_SIZE)) ∧
    block_ok c b2 start (h + 1) xs ∧ next b2 = next b ∧ freeListRefs b2 = freeListRefs b.
Proof.
  intros B Hst Hj Hh. pose proof block_size_pos.
  destruct (destruct_head b start h x xs j (block_slots _ _ _ _ _ B) Hst Hj Hh)
    as (Hslot & Hel & Hd & S1 & S2).
  destruct (set_empty_tracks c (with_elements b (<[j:=None]> (elements b)))
    (dequeued_slots h start) (u64 h)) as (b2 & Hset & Ht2 & (F1 & F2 & F3 & _)).
  { apply B. }
  { rewrite Hslot. unfold dequeued_slots. rewrite elem_of_seq. lia. }
  split; [done|]. do 2 eexists. split; [exact Hd|]. split.
  { rewrite Hset. do 3 f_equal. apply bool_decide_ext. unfold dequeued_slots. rewrite length_seq. lia. }
  split; [|by rewrite F2, F3].
  constructor; [by rewrite F1|intros j' Hj'; rewrite F1; by apply S2|].
  eapply tracks_Permutation; [|exact Ht2]. rewrite Hslot, Nat2Z.id. unfold dequeued_slots.
  replace (Z.to_nat (Z.min BLOCK_SIZE (h - start))) with j by lia.
  replace (Z.to_nat (Z.min BLOCK_SIZE (h + 1 - start))) with (S j) by lia.
  rewrite seq_S. apply Permutation_cons_append.
Qed.

Lemma other_block c b start h x xs :
  block_ok c b start h (x :: xs) → (h < start ∨ start + BLOCK_SIZE <= h) → block_ok c b start (h + 1) xs.
Proof.
  intros B Hs. pose proof block_size_pos.
  destruct (other_slots _ _ _ _ _ (block_slots _ _ _ _ _ B) Hs). constructor; [done|done|].
  - destruct B as [_ _ B3]. unfold dequeued_slots in *.
    by replace (Z.to_nat (Z.min BLOCK_SIZE (h + 1 - start))) with
      (Z.to_nat (Z.min BLOCK_SIZE (h - start))) by lia.
Qed.
End slots.
End McSlots.
