(* ===== verification/McFreeList.v ===== *)
(** * [FreeList] under contention

    concurrentqueue.h: the lock-free free list of blocks.  Any number of threads
    are in [add] and [try_get]; a step is one access to the list.  A load of the
    head or of a reference count is only a guess that a compare-exchange checks,
    and may return anything; [freeListNext] is read under a reference acquired
    after it was stored, and so holds what was stored last. *)
From S2P Require Import Prelude McBlock McPool.
Local Open Scope Z_scope.

Module McFreeList.
Import McPool.

(** The fields of a node that the list uses. *)
Record node := Node { freeListRefs : Z; freeListNext : option nat }.

Definition set_refs (nd : node) (r : Z) : node := Node (u32 r) (freeListNext nd).
Definition set_next (nd : node) (o : option nat) : node := Node (freeListRefs nd) o.

Inductive call := add (n : nat) | try_get.

(** Where a thread is: about to make the access the constructor names.
    [add_knowing_refcount_is_zero] is called by [add], or by [try_get], whose loop
    then goes on with the value [k] of its variable [head]. *)
Inductive pc :=
  | AddRefs (n : nat)
  | LoadHead (n : nat) (k : option (option nat))
  | StoreNext (n : nat) (h : option nat) (k : option (option nat))
  | StoreRefs (n : nat) (h : option nat) (k : option (option nat))
  | CasHead (n : nat) (h : option nat) (k : option (option nat))
  | AddFailed (n : nat) (h : option nat) (k : option (option nat))
  | GetLoad
  | GetRefs (h : nat)
  | GetCas (h : nat) (refs : Z)
  | GetNext (h : nat)
  | GetPop (h : nat) (next : option nat)
  | GetAssert (h : nat)
  | GetSub2 (h : nat)
  | GetSub1 (h : nat) (head : option nat)
  | Returning (o : option nat).

(** [while (head != nullptr)] *)
Definition get_loop (head : option nat) : pc :=
  match head with None => Returning None | Some h => GetRefs h end.
Definition resume (k : option (option nat)) : pc :=
  match k with None => Returning None | Some head => get_loop head end.

Definition start (c : call) : pc := match c with add n => AddRefs n | try_get => GetLoad end.

(** The list, its threads, and the nodes that are in no use and may be added;
    [bad] is set when an assertion fails or a node is handed out that was not
    taken from its owner. *)
Record free_list := FreeList {
  nodes : list node;
  freeListHead : option nat;
  threads : list (option pc);
  owned : gset nat;
  bad : bool
}.

Definition with_head (s : free_list) (o : option nat) : free_list :=
  FreeList (nodes s) o (threads s) (owned s) (bad s).
Definition with_node (s : free_list) (n : nat) (nd : node) : free_list :=
  FreeList (<[n := nd]> (nodes s)) (freeListHead s) (threads s) (owned s) (bad s).
Definition with_thread (s : free_list) (i : nat) (th : option pc) : free_list :=
  FreeList (nodes s) (freeListHead s) (<[i := th]> (threads s)) (owned s) (bad s).
Definition fail_if (s : free_list) (b : bool) : free_list :=
  FreeList (nodes s) (freeListHead s) (threads s) (owned s) (bad s || b).
Definition give (s : free_list) (n : nat) : free_list :=
  FreeList (nodes s) (freeListHead s) (threads s) ({[n]} ∪ owned s) (bad s || bool_decide (n ∈ owned s)).

(** What the environment answers: the write of a read-modify-write or a store
    takes place, or a load, or a compare-exchange that fails, reads a value. *)
Inductive answer := Go | SeenHead (o : option nat) | SeenRefs (v : Z).

(** Only pointers to nodes are ever stored in the head. *)
Definition is_pointer (s : free_list) (o : option nat) : bool :=
  match o with None => true | Some n => bool_decide (n < length (nodes s))%nat end.

Definition advance (s : free_list) (p : pc) (a : answer) : option (free_list * pc) :=
  match p, a with
  | AddRefs n, Go =>
      nd ← nodes s !! n;
      Some (with_node s n (set_refs nd (freeListRefs nd + SHOULD_BE_ON_FREELIST)),
            if freeListRefs nd =? 0 then LoadHead n None else Returning None)
  | LoadHead n k, SeenHead h =>
      if is_pointer s h then Some (s, StoreNext n h k) else None
  | StoreNext n h k, Go =>
      nd ← nodes s !! n; Some (with_node s n (set_next nd h), StoreRefs n h k)
  | StoreRefs n h k, Go =>
      nd ← nodes s !! n; Some (with_node s n (set_refs nd 1), CasHead n h k)
  | CasHead n h k, Go =>
      if decide (freeListHead s = h) then Some (with_head s (Some n), resume k) else None
  | CasHead n h k, SeenHead h' =>
      if is_pointer s h' && negb (bool_decide (h' = h)) then Some (s, AddFailed n h' k) else None
  | AddFailed n h k, Go =>
      nd ← nodes s !! n;
      Some (with_node s n (set_refs nd (freeListRefs nd + (SHOULD_BE_ON_FREELIST - 1))),
            if freeListRefs nd =? 1 then StoreNext n h k else resume k)
  | GetLoad, SeenHead h => if is_pointer s h then Some (s, get_loop h) else None
  | GetRefs h, SeenRefs v =>
      Some (s, if Z.land v REFS_MASK =? 0 then GetLoad else GetCas h v)
  | GetCas h v, Go =>
      nd ← nodes s !! h;
      if freeListRefs nd =? v then Some (with_node s h (set_refs nd (v + 1)), GetNext h) else None
  | GetCas h v, SeenRefs v' => if v' =? v then None else Some (s, GetLoad)
  | GetNext h, Go => nd ← nodes s !! h; Some (s, GetPop h (freeListNext nd))
  | GetPop h next, Go =>
      if decide (freeListHead s = Some h) then Some (with_head s next, GetAssert h) else None
  | GetPop h next, SeenHead h' =>
      if is_pointer s h' && negb (bool_decide (h' = Some h)) then Some (s, GetSub1 h h') else None
  | GetAssert h, Go =>
      nd ← nodes s !! h;
      Some (fail_if s (negb (Z.land (freeListRefs nd) SHOULD_BE_ON_FREELIST =? 0)), GetSub2 h)
  | GetSub2 h, Go =>
      nd ← nodes s !! h;
      Some (give (with_node s h (set_refs nd (freeListRefs nd - 2))) h, Returning (Some h))
  | GetSub1 h head, Go =>
      nd ← nodes s !! h;
      Some (with_node s h (set_refs nd (freeListRefs nd - 1)),
            if freeListRefs nd =? SHOULD_BE_ON_FREELIST + 1 then LoadHead h (Some head)
            else get_loop head)
  | _, _ => None
  end.

Inductive label := Begin (i : nat) (c : call) | Act (i : nat) (a : answer).

(** A node is added by somebody who has it. *)
Definition take_node (s : free_list) (c : call) : option free_list :=
  match c with
  | add n =>
      if decide (n ∈ owned s)
      then Some (FreeList (nodes s) (freeListHead s) (threads s) (owned s ∖ {[n]}) (bad s)) else None
  | try_get => Some s
  end.

Definition step (s : free_list) (l : label) : option free_list :=
  match l with
  | Begin i c =>
      match threads s !! i with
      | Some None => s ← take_node s c; Some (with_thread s i (Some (start c)))
      | _ => None
      end
  | Act i a =>
      match threads s !! i with
      | Some (Some (Returning _)) => Some (with_thread s i None)
      | Some (Some p) => '(s, p') ← advance s p a; Some (with_thread s i (Some p'))
      | _ => None
      end
  end.

Fixpoint run (s : free_list) (ls : list label) : option free_list :=
  match ls with [] => Some s | l :: ls => s' ← step s l; run s' ls end.

(** An empty list, [size] blocks and [n] threads. *)
Definition create (size n : nat) : free_list :=
  FreeList (replicate size (Node 0 None)) None (replicate n None) (list_to_set (seq 0 size)) false.

(** ** What holds in every state *)

(** Where a node is: with its owner, in the list, to be published by the last of
    those that hold a reference, or in the hands of a thread. *)
Inductive status :=
  | Owned | Listed | Pending
  | Adding (i : nat) | Publishing (i : nat) | Raised (i : nat) | Popped (i : nat).

(** The count without the references of threads in [try_get]. *)
Definition base (st : status) : Z :=
  match st with
  | Owned | Adding _ => 0
  | Listed | Raised _ | Popped _ => 1
  | Pending | Publishing _ => SHOULD_BE_ON_FREELIST
  end.
Definition busy (st : status) : option nat :=
  match st with Adding i | Publishing i | Raised i | Popped i => Some i | _ => None end.

Definition about (th : option pc) : option nat :=
  match th with
  | Some (AddRefs n | LoadHead n _ | StoreNext n _ _ | StoreRefs n _ _ | CasHead n _ _ |
          AddFailed n _ _ | GetAssert n | GetSub2 n) => Some n
  | _ => None
  end.
Definition holds (n : nat) (th : option pc) : Z :=
  match th with
  | Some (GetNext h | GetPop h _ | GetAssert h | GetSub2 h | GetSub1 h _) =>
      if decide (h = n) then 1 else 0
  | _ => 0
  end.
Definition holders (ths : list (option pc)) (n : nat) : Z := zsum (holds n) ths.

Fixpoint chain (nds : list node) (head : option nat) (l : list nat) : Prop :=
  match l with
  | [] => head = None
  | n :: l => head = Some n ∧ ∃ nd, nds !! n = Some nd ∧ chain nds (freeListNext nd) l
  end.

Definition next_is (nds : list node) (n : nat) (o : option nat) : Prop :=
  ∃ nd, nds !! n = Some nd ∧ freeListNext nd = o.

Definition pc_ok (nds : list node) (ss : list status) (i : nat) (p : pc) : Prop :=
  match p with
  | AddRefs n => ss !! n = Some (Adding i)
  | LoadHead n _ | StoreNext n _ _ => ss !! n = Some (Publishing i)
  | StoreRefs n h _ => ss !! n = Some (Publishing i) ∧ next_is nds n h
  | CasHead n h _ => ss !! n = Some (Raised i) ∧ next_is nds n h
  | AddFailed n _ _ => ss !! n = Some (Raised i)
  | GetCas _ v => Z.land v REFS_MASK ≠ 0
  | GetPop h next => next_is nds h next
  | GetAssert h | GetSub2 h => ss !! h = Some (Popped i)
  | _ => True
  end.

Record node_ok (ths : list (option pc)) (n : nat) (nd : node) (st : status) : Prop := {
  no_refs : freeListRefs nd = base st + holders ths n;
  no_pending : st = Pending → 0 < holders ths n;
  no_publishing i : st = Publishing i → holders ths n = 0
}.

Record inv (ss : list status) (l : list nat) (s : free_list) : Prop := {
  inv_nodes n nd : nodes s !! n = Some nd → ∃ st, ss !! n = Some st ∧ node_ok (threads s) n nd st;
  inv_chain : chain (nodes s) (freeListHead s) l;
  inv_nodup : NoDup l;
  inv_listed n : n ∈ l ↔ ss !! n = Some Listed;
  inv_owned n : n ∈ owned s ↔ ss !! n = Some Owned;
  inv_threads i p : threads s !! i = Some (Some p) → pc_ok (nodes s) ss i p;
  inv_busy n st i : ss !! n = Some st → busy st = Some i →
    ∃ th, threads s !! i = Some th ∧ about th = Some n;
  inv_length : length ss = length (nodes s);
  inv_good : bad s = false
}.

Lemma holds_bounds n ths : Forall (λ th, 0 <= holds n th) ths ∧ Forall (λ th, holds n th <= 1) ths.
Proof.
  split; apply Forall_forall; intros [p|] _; simpl; try lia; destruct p; try lia; case_decide; lia.
Qed.
Lemma holders_bounds ths n : 0 <= holders ths n <= length ths.
Proof.
  destruct (holds_bounds n ths). split; [by apply zsum_nonneg|by apply zsum_le_length].
Qed.

Lemma list_chain_frame nds nds' head l :
  (∀ n nd, n ∈ l → nds !! n = Some nd →
     ∃ nd', nds' !! n = Some nd' ∧ freeListNext nd' = freeListNext nd) →
  chain nds head l → chain nds' head l.
Proof.
  revert head. induction l as [|n l IH]; intros head H; [done|].
  intros (-> & nd & Hn & Hc). split; [done|].
  destruct (H n nd ltac:(by left) Hn) as (nd' & Hn' & Heq). exists nd'. split; [done|].
  rewrite Heq. apply IH; [|done]. intros. apply H; [by right|done].
Qed.

(** A node is written; what follows its place in the list is kept, unless it is
    not in the list. *)
Lemma chain_write nds n nd nd' head l :
  nds !! n = Some nd → freeListNext nd' = freeListNext nd ∨ (n ∉ l) →
  chain nds head l → chain (<[n := nd']> nds) head l.
Proof.
  intros Hn Hw. apply list_chain_frame. intros m x Hm Hx.
  destruct (decide (m = n)) as [->|Hne]; [|exists x; by rewrite list_lookup_insert_ne].
  simplify_eq. exists nd'. rewrite list_lookup_insert_eq by (by eapply lookup_lt_Some).
  by destruct Hw.
Qed.

Lemma next_is_write nds n nd nd' m o :
  nds !! n = Some nd → freeListNext nd' = freeListNext nd ∨ m ≠ n →
  next_is nds m o → next_is (<[n := nd']> nds) m o.
Proof.
  intros Hn Hw (x & Hx & Ho). destruct (decide (m = n)) as [->|Hne].
  - simplify_eq. exists nd'. rewrite list_lookup_insert_eq by (by eapply lookup_lt_Some).
    by destruct Hw as [->|].
  - exists x. by rewrite list_lookup_insert_ne.
Qed.

Section steps.
Context (ss : list status) (l : list nat) (s : free_list) (I : inv ss l s).
Hypothesis Hthreads : length (threads s) < 2 ^ 31 - 1.

(** A step of thread [i] that changes no node. *)
Lemma list_inv_move i th th' :
  threads s !! i = Some th → (∀ n, holds n th' = holds n th) → about th' = about th →
  (∀ p, th' = Some p → pc_ok (nodes s) ss i p) → inv ss l (with_thread s i th').
Proof.
  intros Hi Hh Hab Hpc. destruct I as [In Ic Iu Il Io It Ib Ie Ig]. constructor; simpl; try done.
  - intros n nd Hn. destruct (In n nd Hn) as (st & Hst & [H1 H2 H3]). exists st. split; [done|].
    assert (E : holders (<[i := th']> (threads s)) n = holders (threads s) n).
    { unfold holders. rewrite (zsum_insert _ _ _ _ _ Hi), Hh. lia. }
    constructor; by rewrite E.
  - intros j p [(<- & -> & ?)|[? Hj]]%list_lookup_insert_Some; [by apply Hpc|by apply It].
  - intros n st j Hst Hbusy. destruct (Ib n st j Hst Hbusy) as (x & Hj & Hx).
    destruct (decide (i = j)) as [->|Hne]; [|exists x; by rewrite list_lookup_insert_ne].
    exists th'. rewrite list_lookup_insert_eq by (by eapply lookup_lt_Some).
    split; [done|]. simplify_eq. by rewrite Hab.
Qed.

(** A step of thread [i] that changes node [n] or its status. *)
Lemma inv_step i th th' n nd nd' st st' l' head' owned' :
  threads s !! i = Some th → nodes s !! n = Some nd → ss !! n = Some st →
  (∀ m, m ≠ n → holds m th' = holds m th) →
  node_ok (<[i := th']> (threads s)) n nd' st' →
  st' = st ∨ (busy st = None ∨ busy st = Some i) ∧ (busy st' = None ∨ busy st' = Some i) →
  freeListNext nd' = freeListNext nd ∨
    holders (threads s) n = 0 ∧ (busy st = None ∨ busy st = Some i) →
  (∀ m, m ≠ n → about th = Some m → about th' = Some m) →
  (busy st' = Some i → about th' = Some n) →
  (∀ p, th' = Some p → pc_ok (<[n := nd']> (nodes s)) (<[n := st']> ss) i p) →
  chain (<[n := nd']> (nodes s)) head' l' → NoDup l' →
  (∀ m, m ∈ l' ↔ <[n := st']> ss !! m = Some Listed) →
  (∀ m, m ∈ owned' ↔ <[n := st']> ss !! m = Some Owned) →
  inv (<[n := st']> ss) l' (FreeList (<[n := nd']> (nodes s)) head' (<[i := th']> (threads s)) owned' false).
Proof.
  intros Hi Hn Hst Hh Hnode Hstat Hnext Hab Hab' Hpc Hc Hnd Hl Ho.
  destruct I as [In Ic Iu Il Io It Ib Ie Ig].
  assert (Hlen : (n < length (nodes s))%nat) by (by eapply lookup_lt_Some).
  assert (Hkeep : ∀ m x j, j ≠ i → ss !! m = Some x → busy x = Some j → <[n := st']> ss !! m = Some x).
  { intros m x j Hj Hm Hx. destruct (decide (m = n)) as [->|]; [|by rewrite list_lookup_insert_ne].
    rewrite list_lookup_insert_eq by lia. simplify_eq. f_equal.
    destruct Hstat as [|[[?|?] _]]; congruence. }
  assert (Hfree : ∀ m x j, j ≠ i → ss !! m = Some x → busy x = Some j →
            freeListNext nd' = freeListNext nd ∨ m ≠ n).
  { intros m x j Hj Hm Hx. destruct Hnext as [|[_ Hb]]; [by left|right]. intros ->. simplify_eq.
    destruct Hb; congruence. }
  constructor; simpl; try done.
  - intros m x [(<- & -> & _)|[Hne Hm]]%list_lookup_insert_Some.
    + exists st'. by rewrite list_lookup_insert_eq by lia.
    + destruct (In m x Hm) as (y & Hy & [H1 H2 H3]). exists y.
      rewrite list_lookup_insert_ne by done. split; [done|].
      assert (E : holders (<[i := th']> (threads s)) m = holders (threads s) m).
      { unfold holders. rewrite (zsum_insert _ _ _ _ _ Hi), Hh by done. lia. }
      constructor; by rewrite E.
  - intros j p [(<- & -> & ?)|[Hne Hj]]%list_lookup_insert_Some; [by apply Hpc|].
    specialize (It j p Hj). destruct p; simpl in *; try done; try (by eapply Hkeep).
    + destruct It as [Hs Hx]. split; [by eapply Hkeep|]. eapply next_is_write; [done| |done].
      by eapply Hfree.
    + destruct It as [Hs Hx]. split; [by eapply Hkeep|]. eapply next_is_write; [done| |done].
      by eapply Hfree.
    + eapply next_is_write; [done| |done]. destruct Hnext as [|[H0 _]]; [by left|right]. intros ->.
      pose proof (zsum_ge (holds n) _ _ _ (proj1 (holds_bounds n _)) Hj) as Hge.
      simpl in Hge. rewrite decide_True in Hge by done. unfold holders in H0. lia.
  - intros m x j Hm Hx. destruct (decide (j = i)) as [->|Hne].
    + exists th'. rewrite list_lookup_insert_eq by (by eapply lookup_lt_Some). split; [done|].
      apply list_lookup_insert_Some in Hm as [(<- & -> & _)|[Hne Hm]]; [by apply Hab'|].
      destruct (Ib m x i Hm Hx) as (th0 & Hth0 & Habout). simplify_eq. by apply Hab.
    + rewrite list_lookup_insert_ne by done. apply list_lookup_insert_Some in Hm as [(<- & -> & _)|[_ Hm]].
      * apply (Ib n st j Hst). destruct Hstat as [<-|[_ [?|?]]]; congruence.
      * by apply (Ib m x j Hm).
  - by rewrite !length_insert.
Qed.

Lemma holders_insert i th th' n :
  threads s !! i = Some th → holders (<[i := th']> (threads s)) n = holders (threads s) n - holds n th + holds n th'.
Proof. intros Hi. unfold holders. by rewrite (zsum_insert _ _ _ _ _ Hi). Qed.

(** The status of [n] changes, but neither to [Listed] nor to [Owned]. *)
Lemma listed_same n st st' (o : status) :
  ss !! n = Some st → st ≠ o → st' ≠ o →
  ∀ m, ss !! m = Some o ↔ <[n := st']> ss !! m = Some o.
Proof.
  intros Hn H1 H2 m. destruct (decide (m = n)) as [->|]; [|by rewrite list_lookup_insert_ne].
  rewrite list_lookup_insert_eq by (by eapply lookup_lt_Some). split; congruence.
Qed.

(** A step that leaves the list and the owners alone. *)
Lemma inv_quiet i th th' n nd nd' st st' :
  threads s !! i = Some th → nodes s !! n = Some nd → ss !! n = Some st →
  (∀ m, m ≠ n → holds m th' = holds m th) →
  node_ok (<[i := th']> (threads s)) n nd' st' →
  st' = st ∨ (st = Pending ∨ busy st = Some i) ∧ (st' = Pending ∨ busy st' = Some i) →
  freeListNext nd' = freeListNext nd ∨ holders (threads s) n = 0 ∧ busy st = Some i →
  (∀ m, m ≠ n → about th = Some m → about th' = Some m) →
  (busy st' = Some i → about th' = Some n) →
  (∀ p, th' = Some p → pc_ok (<[n := nd']> (nodes s)) (<[n := st']> ss) i p) →
  inv (<[n := st']> ss) l (with_thread (with_node s n nd') i th').
Proof.
  intros Hi Hn Hst Hh Hnode Hstat Hnext Hab Hab' Hpc. pose proof I as [In Ic Iu Il Io It Ib Ie Ig].
  assert (Hother : ∀ o, o = Listed ∨ o = Owned → ∀ m, ss !! m = Some o ↔ <[n := st']> ss !! m = Some o).
  { intros o Ho m. destruct Hstat as [->|[H1 H2]]; [by rewrite list_insert_id|].
    eapply listed_same; [done|intros ->; destruct H1, Ho; by subst|].
    intros ->; destruct H2, Ho; by subst. }
  unfold with_thread, with_node. simpl. rewrite Ig.
  eapply inv_step; try done.
  - destruct Hstat as [|[[->|?] [->|?]]]; [by left|right; simpl; tauto..].
  - destruct Hnext as [|[? ?]]; [by left|right; tauto].
  - eapply chain_write; [done| |done]. destruct Hnext as [|[? Hb]]; [by left|right].
    intros Hx%Il. rewrite Hst in Hx. by simplify_eq.
  - intros m. rewrite Il. apply Hother. by left.
  - intros m. rewrite Io. apply Hother. by right.
Qed.

Lemma refs_of n nd :
  nodes s !! n = Some nd → ∃ st, ss !! n = Some st ∧ freeListRefs nd = base st + holders (threads s) n ∧
    (st = Pending → 0 < holders (threads s) n) ∧ (∀ i, st = Publishing i → holders (threads s) n = 0) ∧
    0 <= base st <= 2 ^ 31 ∧ 0 <= holders (threads s) n < 2 ^ 31 - 1.
Proof.
  intros Hn. destruct (inv_nodes _ _ _ I n nd Hn) as (st & Hst & [H1 H2 H3]). exists st.
  pose proof (holders_bounds (threads s) n). split_and!; try done; try lia; by destruct st.
Qed.
End steps.

Lemma set_refs_small nd r : 0 <= r < 2 ^ 32 → set_refs nd r = Node r (freeListNext nd).
Proof. intros. unfold set_refs. by rewrite wrap_small. Qed.

Ltac other_nodes :=
  let m := fresh "m" in let Hm := fresh in
  intros m Hm; simpl; repeat (rewrite decide_False by done); congruence.

Lemma get_loop_idle h :
  about (Some (get_loop h)) = None ∧ (∀ m, holds m (Some (get_loop h)) = 0) ∧
  ∀ nds ss i, pc_ok nds ss i (get_loop h).
Proof. by destruct h. Qed.
Lemma resume_idle k :
  about (Some (resume k)) = None ∧ (∀ m, holds m (Some (resume k)) = 0) ∧
  ∀ nds ss i, pc_ok nds ss i (resume k).
Proof. destruct k as [h|]; [apply get_loop_idle|done]. Qed.

Section accesses.
Context (ss : list status) (l : list nat) (s : free_list) (I : inv ss l s).
Hypothesis Hthreads : length (threads s) < 2 ^ 31 - 1.

Let goal (i : nat) (sp : free_list * pc) : Prop :=
  ∃ ss' l', inv ss' l' (with_thread sp.1 i (Some sp.2)).

Lemma add_refs_ok i n nd :
  threads s !! i = Some (Some (AddRefs n)) → nodes s !! n = Some nd →
  goal i (with_node s n (set_refs nd (freeListRefs nd + SHOULD_BE_ON_FREELIST)),
          if freeListRefs nd =? 0 then LoadHead n None else Returning None).
Proof.
  intros Hi Hn. pose proof (inv_threads _ _ _ I i _ Hi) as Hp. simpl in Hp.
  destruct (refs_of _ _ _ I Hthreads n nd Hn) as (st & Hst & Hr & _ & _ & _ & Hh). simplify_eq.
  simpl in Hr. unfold goal. simpl. rewrite set_refs_small by (unfold SHOULD_BE_ON_FREELIST; lia).
  exists (<[n := if freeListRefs nd =? 0 then Publishing i else Pending]> ss), l.
  eapply (inv_quiet _ _ _ I i _ _ n nd _ (Adding i)); try done.
  - destruct (freeListRefs nd =? 0); other_nodes.
  - assert (E : holders (<[i := Some (if freeListRefs nd =? 0 then LoadHead n None else Returning None)]> (threads s)) n
      = holders (threads s) n).
    { rewrite (holders_insert _ _ _ _ _ Hi). destruct (freeListRefs nd =? 0); simpl; lia. }
    destruct (Z.eqb_spec (freeListRefs nd) 0); constructor; rewrite ?E; simpl; try done; lia.
  - right. destruct (freeListRefs nd =? 0); simpl; tauto.
  - by left.
  - destruct (freeListRefs nd =? 0); intros m Hm [= <-]; done.
  - destruct (freeListRefs nd =? 0); done.
  - intros p [= <-]. assert (n < length ss)%nat by (by eapply lookup_lt_Some).
    destruct (freeListRefs nd =? 0); simpl; [by rewrite list_lookup_insert_eq|done].
Qed.

Lemma store_next_ok i n h k nd :
  threads s !! i = Some (Some (StoreNext n h k)) → nodes s !! n = Some nd →
  goal i (with_node s n (set_next nd h), StoreRefs n h k).
Proof.
  intros Hi Hn. pose proof (inv_threads _ _ _ I i _ Hi) as Hst. simpl in Hst.
  destruct (refs_of _ _ _ I Hthreads n nd Hn) as (st & Hst' & Hr & _ & Hz & _). simplify_eq.
  pose proof (holders_insert _ _ _ (Some (StoreRefs n h k)) n Hi) as E. simpl in E.
  specialize (Hz i eq_refl). simpl in Hr. exists (<[n := Publishing i]> ss), l.
  eapply (inv_quiet _ _ _ I i _ _ n nd _ (Publishing i)); try done.
  - constructor; simpl; try done; intros; lia.
  - by left.
  - by right.
  - intros p [= <-]. simpl. rewrite list_lookup_insert_eq by (by eapply lookup_lt_Some).
    split; [done|]. exists (set_next nd h).
    by rewrite list_lookup_insert_eq by (by eapply lookup_lt_Some).
Qed.

Lemma store_refs_ok i n h k nd :
  threads s !! i = Some (Some (StoreRefs n h k)) → nodes s !! n = Some nd →
  goal i (with_node s n (set_refs nd 1), CasHead n h k).
Proof.
  intros Hi Hn. pose proof (inv_threads _ _ _ I i _ Hi) as [Hst (nd' & Hnd' & Hnext)].
  destruct (refs_of _ _ _ I Hthreads n nd Hn) as (st & Hst' & Hr & _ & Hz & _). simplify_eq.
  pose proof (holders_insert _ _ _ (Some (CasHead n (freeListNext nd) k)) n Hi) as E. simpl in E.
  specialize (Hz i eq_refl). exists (<[n := Raised i]> ss), l.
  eapply (inv_quiet _ _ _ I i _ _ n nd _ (Publishing i)); try done.
  - constructor; simpl; try done. change (u32 1) with 1. lia.
  - right. split; by right.
  - by left.
  - intros p [= <-]. simpl. rewrite list_lookup_insert_eq by (by eapply lookup_lt_Some).
    split; [done|]. exists (set_refs nd 1).
    by rewrite list_lookup_insert_eq by (by eapply lookup_lt_Some).
Qed.

Lemma add_failed_ok i n h k nd :
  threads s !! i = Some (Some (AddFailed n h k)) → nodes s !! n = Some nd →
  goal i (with_node s n (set_refs nd (freeListRefs nd + (SHOULD_BE_ON_FREELIST - 1))),
          if freeListRefs nd =? 1 then StoreNext n h k else resume k).
Proof.
  intros Hi Hn. pose proof (inv_threads _ _ _ I i _ Hi) as Hst. simpl in Hst.
  destruct (refs_of _ _ _ I Hthreads n nd Hn) as (st & Hst' & Hr & _ & _ & _ & Hh). simplify_eq.
  simpl in Hr. unfold goal. simpl. rewrite set_refs_small by (unfold SHOULD_BE_ON_FREELIST; lia).
  destruct (resume_idle k) as (Ha & Hho & Hpc).
  assert (Hlt : (n < length ss)%nat) by (by eapply lookup_lt_Some).
  destruct (Z.eqb_spec (freeListRefs nd) 1).
  - exists (<[n := Publishing i]> ss), l.
    pose proof (holders_insert _ _ _ (Some (StoreNext n h k)) n Hi) as E. simpl in E.
    eapply (inv_quiet _ _ _ I i _ _ n nd _ (Raised i)); try done.
    + constructor; simpl; try done; intros; unfold SHOULD_BE_ON_FREELIST; lia.
    + right. split; by right.
    + by left.
    + intros p [= <-]. simpl. by rewrite list_lookup_insert_eq.
  - exists (<[n := Pending]> ss), l.
    pose proof (holders_insert _ _ _ (Some (resume k)) n Hi) as E. rewrite Hho in E. simpl in E.
    eapply (inv_quiet _ _ _ I i _ _ n nd _ (Raised i)); try done.
    + constructor; simpl; try done; intros; unfold SHOULD_BE_ON_FREELIST; lia.
    + right. split; [by right|by left].
    + by left.
    + intros m Hm [= <-]. done.
    + intros p [= <-]. apply Hpc.
Qed.

Lemma get_cas_ok i h nd v :
  threads s !! i = Some (Some (GetCas h v)) → nodes s !! h = Some nd → freeListRefs nd = v →
  goal i (with_node s h (set_refs nd (v + 1)), GetNext h).
Proof.
  intros Hi Hn <-. pose proof (inv_threads _ _ _ I i _ Hi) as Hmask. simpl in Hmask.
  destruct (refs_of _ _ _ I Hthreads h nd Hn) as (st & Hst & Hr & Hpe & Hz & Hb & Hh).
  pose proof (holders_insert _ _ _ (Some (GetNext h)) h Hi) as E. simpl in E.
  rewrite decide_True in E by done.
  unfold goal. simpl. rewrite set_refs_small by lia. exists (<[h := st]> ss), l.
  eapply (inv_quiet _ _ _ I i _ _ h nd _ st); try done.
  - other_nodes.
  - constructor; simpl; [lia|intros; lia|]. intros j Hj. exfalso. apply Hmask.
    specialize (Hz j Hj). subst st. simpl in Hr. by rewrite Hr, Hz.
  - by left.
  - by left.
  - intros Hbusy. destruct (inv_busy _ _ _ I h st i Hst Hbusy) as (? & ? & ?). by simplify_eq.
  - by intros p [= <-].
Qed.

Lemma get_sub1_ok i h head nd :
  threads s !! i = Some (Some (GetSub1 h head)) → nodes s !! h = Some nd →
  goal i (with_node s h (set_refs nd (freeListRefs nd - 1)),
          if freeListRefs nd =? SHOULD_BE_ON_FREELIST + 1 then LoadHead h (Some head)
          else get_loop head).
Proof.
  intros Hi Hn. destruct (refs_of _ _ _ I Hthreads h nd Hn) as (st & Hst & Hr & Hpe & Hz & Hb & Hh).
  assert (Hge : 1 <= holders (threads s) h).
  { pose proof (zsum_ge (holds h) _ _ _ (proj1 (holds_bounds h _)) Hi) as Hge.
    simpl in Hge. by rewrite decide_True in Hge. }
  unfold goal. simpl. rewrite set_refs_small by lia.
  assert (Hlt : (h < length ss)%nat) by (by eapply lookup_lt_Some).
  assert (Hnb : busy st ≠ Some i).
  { intros Hbusy. destruct (inv_busy _ _ _ I h st i Hst Hbusy) as (? & ? & ?). by simplify_eq. }
  destruct (get_loop_idle head) as (Ha & Hho & Hpc).
  destruct (Z.eqb_spec (freeListRefs nd) (SHOULD_BE_ON_FREELIST + 1)) as [Heq|Hne].
  - assert (st = Pending) as ->.
    { destruct st; try done; simpl in Hr; unfold SHOULD_BE_ON_FREELIST in *; try lia.
      specialize (Hz _ eq_refl). lia. }
    exists (<[h := Publishing i]> ss), l.
    pose proof (holders_insert _ _ _ (Some (LoadHead h (Some head))) h Hi) as E. simpl in E.
    rewrite decide_True in E by done. simpl in Hr.
    eapply (inv_quiet _ _ _ I i _ _ h nd _ Pending); try done.
    + other_nodes.
    + constructor; simpl; try done; intros; lia.
    + right. split; [by left|by right].
    + by left.
    + intros p [= <-]. simpl. by rewrite list_lookup_insert_eq.
  - exists (<[h := st]> ss), l.
    pose proof (holders_insert _ _ _ (Some (get_loop head)) h Hi) as E. rewrite Hho in E.
    simpl in E. rewrite decide_True in E by done.
    eapply (inv_quiet _ _ _ I i _ _ h nd _ st); try done.
    + intros m Hm. rewrite Hho. simpl. by rewrite decide_False.
    + constructor; simpl; [lia| |]; intros; subst st; simpl in Hr.
      * lia.
      * specialize (Hz _ eq_refl). lia.
    + by left.
    + by left.
    + intros p [= <-]. apply Hpc.
Qed.
End accesses.

(** ** Accesses that change what the list or its users have *)

Section ownership.
Context (ss : list status) (l : list nat) (s : free_list) (I : inv ss l s).
Hypothesis Hthreads : length (threads s) < 2 ^ 31 - 1.

Let goal (i : nat) (s' : free_list) (th : option pc) : Prop :=
  ∃ ss' l', inv ss' l' (with_thread s' i th).

(** The status of [n] becomes one the list has, or ceases to be so. *)
Lemma status_gained n st o (A : nat → Prop) :
  ss !! n = Some st → (∀ m, A m ↔ ss !! m = Some o) →
  ∀ m, m = n ∨ A m ↔ <[n := o]> ss !! m = Some o.
Proof.
  intros Hn HA m. rewrite HA. destruct (decide (m = n)) as [->|Hne].
  - rewrite list_lookup_insert_eq by (by eapply lookup_lt_Some). tauto.
  - rewrite list_lookup_insert_ne by done. tauto.
Qed.
Lemma status_lost n st st' o (A : nat → Prop) :
  ss !! n = Some st → st' ≠ o → (∀ m, A m ↔ ss !! m = Some o) →
  ∀ m, A m ∧ m ≠ n ↔ <[n := st']> ss !! m = Some o.
Proof.
  intros Hn Hne HA m. rewrite HA. destruct (decide (m = n)) as [->|Hm].
  - rewrite list_lookup_insert_eq by (by eapply lookup_lt_Some). split; [tauto|congruence].
  - rewrite list_lookup_insert_ne by done. tauto.
Qed.

Lemma begin_add_ok i n :
  threads s !! i = Some None → n ∈ owned s →
  goal i (FreeList (nodes s) (freeListHead s) (threads s) (owned s ∖ {[n]}) (bad s)) (Some (AddRefs n)).
Proof.
  intros Hi Hn. pose proof I as [In Ic Iu Il Io It Ib Ie Ig].
  pose proof (proj1 (Io n) Hn) as Hst. assert (Hlt : (n < length ss)%nat) by (by eapply lookup_lt_Some).
  destruct (lookup_lt_is_Some_2 (nodes s) n ltac:(lia)) as [nd Hnd].
  destruct (refs_of _ _ _ I Hthreads n nd Hnd) as (st & Hst' & Hr & _). simplify_eq.
  pose proof (holders_insert _ _ _ (Some (AddRefs n)) n Hi) as E. simpl in E, Hr.
  exists (<[n := Adding i]> ss), l. unfold with_thread. simpl.
  rewrite Ig. rewrite <- (list_insert_id (nodes s) n nd) at 1 by done.
  eapply (inv_step _ _ _ I i _ _ n nd _ Owned); try done.
  - constructor; simpl; try done; lia.
  - right. simpl. tauto.
  - by left.
  - intros p [= <-]. simpl. by rewrite list_lookup_insert_eq.
  - by rewrite list_insert_id.
  - intros m. rewrite Il. by eapply listed_same.
  - intros m. rewrite elem_of_difference, elem_of_singleton.
    exact (status_lost n Owned (Adding i) Owned _ Hst ltac:(done) Io m).
Qed.

Lemma cas_head_ok i n k :
  threads s !! i = Some (Some (CasHead n (freeListHead s) k)) →
  goal i (with_head s (Some n)) (Some (resume k)).
Proof.
  intros Hi. pose proof I as [In Ic Iu Il Io It Ib Ie Ig].
  destruct (It i _ Hi) as [Hst (nd & Hnd & Hnext)].
  destruct (refs_of _ _ _ I Hthreads n nd Hnd) as (st & Hst' & Hr & _). simplify_eq.
  assert (Hnl : n ∉ l) by (intros Hx%Il; congruence).
  destruct (resume_idle k) as (Ha & Hho & Hpc).
  pose proof (holders_insert _ _ _ (Some (resume k)) n Hi) as E. rewrite Hho in E. simpl in E, Hr.
  exists (<[n := Listed]> ss), (n :: l). unfold with_thread. simpl.
  rewrite Ig. rewrite <- (list_insert_id (nodes s) n nd) at 1 by done.
  eapply (inv_step _ _ _ I i _ _ n nd _ (Raised i)); try done.
  - constructor; simpl; try done; lia.
  - right. simpl. tauto.
  - by left.
  - intros m Hm [= <-]. done.
  - intros p [= <-]. apply Hpc.
  - rewrite list_insert_id by done. split; [done|]. exists nd. by rewrite Hnext.
  - by constructor.
  - intros m. rewrite elem_of_cons. exact (status_gained n _ Listed _ Hst Il m).
  - intros m. rewrite Io. by eapply listed_same.
Qed.

Lemma get_pop_ok i h next :
  threads s !! i = Some (Some (GetPop h next)) → freeListHead s = Some h →
  goal i (with_head s next) (Some (GetAssert h)).
Proof.
  intros Hi Hhead. pose proof I as [In Ic Iu Il Io It Ib Ie Ig].
  destruct (It i _ Hi) as (nd & Hnd & <-).
  destruct l as [|h' l']; [by rewrite Hhead in Ic|]. destruct Ic as [E (x & Hx & Hc)].
  rewrite Hhead in E. injection E as <-.
  assert (x = nd) as -> by congruence.
  pose proof (proj1 (Il h) ltac:(by left)) as Hst. apply NoDup_cons in Iu as [Hnl Hnd'].
  destruct (refs_of _ _ _ I Hthreads h nd Hnd) as (st & Hst' & Hr & _). simplify_eq.
  pose proof (holders_insert _ _ _ (Some (GetAssert h)) h Hi) as E. simpl in E, Hr.
  rewrite decide_True in E by done.
  exists (<[h := Popped i]> ss), l'. unfold with_thread. simpl.
  rewrite Ig. rewrite <- (list_insert_id (nodes s) h nd) at 1 by done.
  eapply (inv_step _ _ _ I i _ _ h nd _ Listed); try done.
  - constructor; simpl; try done; lia.
  - right. simpl. tauto.
  - by left.
  - intros p [= <-]. simpl. by rewrite list_lookup_insert_eq by (by eapply lookup_lt_Some).
  - by rewrite list_insert_id.
  - intros m. rewrite <- (status_lost h Listed (Popped i) Listed _ Hst ltac:(done) Il m).
    rewrite elem_of_cons. split; [|tauto]. intros Hm. split; [by right|]. by intros ->.
  - intros m. rewrite Io. by eapply listed_same.
Qed.

Lemma get_sub2_ok i h nd :
  threads s !! i = Some (Some (GetSub2 h)) → nodes s !! h = Some nd →
  (h ∉ owned s) ∧ goal i (give (with_node s h (set_refs nd (freeListRefs nd - 2))) h) (Some (Returning (Some h))).
Proof.
  intros Hi Hn. pose proof I as [In Ic Iu Il Io It Ib Ie Ig].
  pose proof (It i _ Hi) as Hst. simpl in Hst.
  destruct (refs_of _ _ _ I Hthreads h nd Hn) as (st & Hst' & Hr & _ & _ & _ & Hh). simplify_eq.
  assert (Hno : h ∉ owned s) by (intros Hx%Io; congruence). split; [done|].
  assert (Hge : 1 <= holders (threads s) h).
  { pose proof (zsum_ge (holds h) _ _ _ (proj1 (holds_bounds h _)) Hi) as Hge.
    simpl in Hge. by rewrite decide_True in Hge. }
  pose proof (holders_insert _ _ _ (Some (Returning (Some h))) h Hi) as E. simpl in E, Hr.
  rewrite decide_True in E by done.
  exists (<[h := Owned]> ss), l. unfold with_thread, give. simpl.
  rewrite (bool_decide_eq_false_2 _ Hno), Ig, set_refs_small by lia. simpl.
  eapply (inv_step _ _ _ I i _ _ h nd _ (Popped i)); try done.
  - other_nodes.
  - constructor; simpl; try done; lia.
  - right. simpl. tauto.
  - by left.
  - intros m Hm [= <-]. done.
  - by intros p [= <-].
  - eapply chain_write; [done|by left|done].
  - intros m. rewrite Il. by eapply listed_same.
  - intros m. rewrite elem_of_union, elem_of_singleton.
    exact (status_gained h _ Owned _ Hst Io m).
Qed.

Lemma get_assert_ok i h nd :
  threads s !! i = Some (Some (GetAssert h)) → nodes s !! h = Some nd →
  (Z.land (freeListRefs nd) SHOULD_BE_ON_FREELIST =? 0) = true.
Proof.
  intros Hi Hn. pose proof (inv_threads _ _ _ I i _ Hi) as Hst. simpl in Hst.
  destruct (refs_of _ _ _ I Hthreads h nd Hn) as (st & Hst' & Hr & _ & _ & _ & Hh). simplify_eq.
  simpl in Hr. apply Z.eqb_eq, Z.bits_inj'. intros j Hj.
  change SHOULD_BE_ON_FREELIST with (2 ^ 31). rewrite Z.land_spec, Z.pow2_bits_eqb, Z.bits_0 by lia.
  destruct (Z.eqb_spec 31 j) as [<-|]; [|by rewrite andb_false_r]. rewrite andb_true_r.
  apply Z.testbit_false; [lia|]. by rewrite Z.div_small by lia.
Qed.
End ownership.

(** ** Runs *)

Lemma threads_with s i th : threads (with_thread s i th) = <[i := th]> (threads s).
Proof. done. Qed.

Section runs.
Context (n : nat).
Hypothesis Hn : n < 2 ^ 31 - 1.

Definition holds_inv (s : free_list) : Prop := length (threads s) = n ∧ ∃ ss l, inv ss l s.

Lemma advance_ok s i p a s' p' :
  holds_inv s → threads s !! i = Some (Some p) → advance s p a = Some (s', p') →
  threads s' = threads s ∧ ∃ ss l, inv ss l (with_thread s' i (Some p')).
Proof.
  intros [Hl (ss & l & I)] Hi Ha. assert (Ht : length (threads s) < 2 ^ 31 - 1) by lia.
  pose proof (inv_threads _ _ _ I i p Hi) as Hp.
  destruct p, a; simpl in Ha; try discriminate;
    try (apply bind_Some in Ha as (nd & Hnd & Ha)); try (case_match eqn:Hc; [|done]);
    try (case_match eqn:Hc; [done|]); injection Ha as <- <-; (split; [done|]).
  all: try by eapply add_refs_ok.
  all: try by eapply store_next_ok.
  all: try by eapply store_refs_ok.
  all: try by eapply add_failed_ok.
  all: try by eapply get_sub1_ok.
  all: try (apply Z.eqb_eq in Hc; by eapply get_cas_ok).
  all: try (subst; by eapply cas_head_ok).
  all: try by eapply get_pop_ok.
  all: try by eapply get_sub2_ok.
  all: try (exists ss, l; eapply list_inv_move; try done; by intros ? [= <-]).
  - exists ss, l. eapply list_inv_move; try done. intros ? [= <-]. apply Hp.
  - exists ss, l. destruct (get_loop_idle o) as (Hab & Hho & Hpc).
    eapply list_inv_move; try done. by intros ? [= <-].
  - exists ss, l. destruct (Z.eqb_spec (Z.land v REFS_MASK) 0);
      (eapply list_inv_move; try done; by intros ? [= <-]).
  - exists ss, l. eapply list_inv_move; try done. intros ? [= <-]. by exists nd.
  - exists ss, l. rewrite (get_assert_ok _ _ _ I Ht _ _ _ Hi Hnd). unfold fail_if, with_thread. simpl.
    rewrite orb_false_r. eapply list_inv_move; try done. by intros ? [= <-].
Qed.

Lemma list_step_inv s l s' : holds_inv s → step s l = Some s' → holds_inv s'.
Proof.
  intros H Hs. pose proof H as [Hl (ss & li & I)].
  destruct l as [i c|i a]; cbn [step] in Hs; destruct (threads s !! i) as [th|] eqn:Hi; try done.
  - destruct th; [done|]. apply bind_Some in Hs as (s1 & Hs1 & [= <-]).
    destruct c as [m|]; simpl in Hs1; [case_decide; [|done]|]; injection Hs1 as <-;
      (split; [by rewrite threads_with, length_insert|]).
    + eapply begin_add_ok; try done. lia.
    + exists ss, li. eapply list_inv_move; try done; [lia..|]. by intros ? [= <-].
  - destruct th as [p|]; [|done].
    assert (Hret : (∃ o, p = Returning o) ∨ ∀ o, p ≠ Returning o) by (destruct p; eauto).
    destruct Hret as [[o ->]|Hp].
    + injection Hs as <-. split; [by rewrite threads_with, length_insert|].
      exists ss, li. by eapply list_inv_move.
    + assert (Hs' : ('(s, p') ← advance s p a; Some (with_thread s i (Some p'))) = Some s')
        by (destruct p; try done; by destruct (Hp o)).
      apply bind_Some in Hs' as ((s1 & p') & Ha & [= <-]).
      destruct (advance_ok s i p a s1 p' H Hi Ha) as [Heq Hinv].
      split; [|done]. by rewrite threads_with, Heq, length_insert.
Qed.

Lemma list_run_inv ls : ∀ s s', holds_inv s → run s ls = Some s' → holds_inv s'.
Proof.
  induction ls as [|l ls IH]; simpl; intros s s' H Hs; [by simplify_eq|].
  apply bind_Some in Hs as (s1 & Hs1 & Hs). eapply IH; [|done]. by eapply list_step_inv.
Qed.

Lemma list_create_inv size : holds_inv (create size n).
Proof.
  split; [apply length_replicate|]. exists (replicate size Owned), []. constructor; simpl; try done.
  - intros m nd [-> Hm]%lookup_replicate. exists Owned. split; [by apply lookup_replicate_2|].
    constructor; simpl; try done. unfold holders. by rewrite zsum_replicate, Z.mul_0_r.
  - constructor.
  - intros m. split; [by intros ?%elem_of_nil|]. by intros [? ?]%lookup_replicate.
  - intros m. rewrite elem_of_list_to_set, elem_of_seq. split.
    + intros [_ Hm]. by apply lookup_replicate_2.
    + intros [_ ?]%lookup_replicate. lia.
  - by intros i p [? ?]%lookup_replicate.
  - intros m st i [-> ?]%lookup_replicate. done.
  - by rewrite !length_replicate.
Qed.
End runs.

(** C14: with any number of threads adding and taking blocks, whatever they read
    before their compare-exchanges: no assertion fails, a block is handed out only
    while nobody has it, and the list is at all times a chain of distinct blocks
    that nobody has. *)
Theorem free_list_safe (size n : nat) ls s :
  n < 2 ^ 31 - 1 → run (create size n) ls = Some s →
  bad s = false ∧
  ∃ l, chain (nodes s) (freeListHead s) l ∧ NoDup l ∧ ∀ m, m ∈ l → m ∉ owned s.
Proof.
  intros Hn Hs. destruct (list_run_inv n Hn ls _ s (list_create_inv n size) Hs) as [_ (ss & l & I)].
  split; [apply I|]. exists l. split_and!; [apply I|apply I|].
  intros m Hm%(inv_listed _ _ _ I) Ho%(inv_owned _ _ _ I). congruence.
Qed.

Lemma advance_length s p a s' p' :
  advance s p a = Some (s', p') → length (nodes s') = length (nodes s).
Proof.
  intros Ha. destruct p, a; simpl in Ha; try discriminate;
    try (apply bind_Some in Ha as (nd & Hnd & Ha)); repeat (case_match; try done);
    injection Ha as <- <-; simpl; by rewrite ?length_insert.
Qed.

Lemma list_run_length ls : ∀ s s', run s ls = Some s' → length (nodes s') = length (nodes s).
Proof.
  induction ls as [|l ls IH]; simpl; intros s s' Hs; [by simplify_eq|].
  apply bind_Some in Hs as (s1 & Hs1 & Hs). rewrite (IH _ _ Hs). clear IH Hs.
  destruct l as [i c|i a]; cbn [step] in Hs1; destruct (threads s !! i) as [[p|]|]; try done.
  - destruct c; simpl in Hs1; [case_decide; [|done]|]; by injection Hs1 as <-.
  - destruct p; try (by injection Hs1 as <-);
      apply bind_Some in Hs1 as ((s2 & p') & Ha & [= <-]); by apply advance_length in Ha.
Qed.

(** What a [try_get] does that runs alone and finds the block [m]. *)
Definition get_alone (i m : nat) : list label :=
  [Begin i try_get; Act i (SeenHead (Some m)); Act i (SeenRefs 1)] ++ replicate 6 (Act i Go).

(** With no call in progress every status is [Owned] or [Listed]. *)
Lemma idle_status ss l s m st :
  inv ss l s → Forall (λ th, th = None) (threads s) → ss !! m = Some st → st = Owned ∨ st = Listed.
Proof.
  intros I Hidle Hm. assert (Hz : holders (threads s) m = 0).
  { apply zsum_zero. eapply Forall_impl; [exact Hidle|]. by intros ? ->. }
  assert (Hb : ∀ i, busy st ≠ Some i).
  { intros i Hb. destruct (inv_busy _ _ _ I m st i Hm Hb) as (th & Hi & Hth).
    rewrite Forall_lookup in Hidle. rewrite (Hidle i th Hi) in Hth. done. }
  assert (Hlt : (m < length (nodes s))%nat).
  { rewrite <- (inv_length _ _ _ I). by eapply lookup_lt_Some. }
  destruct (lookup_lt_is_Some_2 _ _ Hlt) as [nd Hnd].
  destruct (inv_nodes _ _ _ I m nd Hnd) as (st' & Hst' & [_ Hp _]). simplify_eq.
  destruct st; try (by destruct (Hb i)); [by left|by right|]. specialize (Hp eq_refl). lia.
Qed.

Lemma run_access s i p a ls s' p' :
  threads s !! i = Some (Some p) → (∀ o, p ≠ Returning o) → advance s p a = Some (s', p') →
  run s (Act i a :: ls) = run (with_thread s' i (Some p')) ls.
Proof.
  intros Hi Hp Ha. cbn [run step]. rewrite Hi. destruct p; try (by rewrite Ha). by destruct (Hp o).
Qed.

Lemma run_try_get s i ls :
  threads s !! i = Some None → run s (Begin i try_get :: ls) = run (with_thread s i (Some GetLoad)) ls.
Proof. intros Hi. cbn [run step]. by rewrite Hi. Qed.
Lemma run_return s i o a ls :
  threads s !! i = Some (Some (Returning o)) → run s (Act i a :: ls) = run (with_thread s i None) ls.
Proof. intros Hi. cbn [run step]. by rewrite Hi. Qed.

Lemma get_alone_ok s i m nd :
  threads s !! i = Some None → freeListHead s = Some m → nodes s !! m = Some nd → freeListRefs nd = 1 →
  Forall (λ th, th = None) (threads s) →
  ∃ s', run s (get_alone i m) = Some s' ∧ owned s' = {[m]} ∪ owned s ∧
    Forall (λ th, th = None) (threads s').
Proof.
  intros Hi Hm Hnd Hr Hidle.
  assert (Hlt : (m < length (nodes s))%nat) by (by eapply lookup_lt_Some).
  assert (Hti : (i < length (threads s))%nat) by (by eapply lookup_lt_Some).
  assert (Hset : set_refs nd 2 = Node 2 (freeListNext nd)) by done.
  unfold get_alone. cbn [app replicate]. rewrite run_try_get by done.
  repeat (try change (if Z.land 1 REFS_MASK =? 0 then GetLoad else GetCas m 1) with (GetCas m 1);
    erewrite run_access; cbn [with_thread with_node with_head fail_if give threads];
    [|by apply list_lookup_insert_eq; rewrite ?length_insert|done|
     cbn [advance with_node with_head with_thread fail_if give nodes freeListHead owned is_pointer get_loop];
     rewrite ?(bool_decide_eq_true_2 (m < length (nodes s))%nat) by done;
     rewrite ?list_lookup_insert_eq by (by rewrite ?length_insert); rewrite ?Hnd;
     cbn [mbind option_bind];
     rewrite ?Hr, ?Hm, ?decide_True by done; reflexivity]).
  erewrite run_return by (cbn [with_thread with_node with_head fail_if give threads];
    by apply list_lookup_insert_eq; rewrite ?length_insert).
  eexists. split; [reflexivity|]. split; [done|]. simpl. rewrite !list_insert_insert_eq.
  by apply Forall_insert.
Qed.


(** C15: with no call in progress every block is with its owner or in the list, its
    count of references says which, and a [try_get] that runs alone takes the head. *)
Theorem no_block_lost (size n : nat) ls s :
  n < 2 ^ 31 - 1 → run (create size n) ls = Some s → Forall (λ th, th = None) (threads s) →
  (∃ l, chain (nodes s) (freeListHead s) l ∧ ∀ m, (m < size)%nat ↔ m ∈ owned s ∨ m ∈ l) ∧
  (∀ m nd, nodes s !! m = Some nd → freeListRefs nd = if decide (m ∈ owned s) then 0 else 1) ∧
  ∀ i m, (i < n)%nat → freeListHead s = Some m →
    ∃ s', run s (get_alone i m) = Some s' ∧ owned s' = {[m]} ∪ owned s ∧
      Forall (λ th, th = None) (threads s').
Proof.
  intros Hn Hs Hidle.
  pose proof (list_run_inv n Hn ls _ s (list_create_inv n size) Hs) as [Hl (ss & l & I)].
  pose proof (list_run_length ls _ _ Hs) as Hsize. simpl in Hsize. rewrite length_replicate in Hsize.
  assert (Hst : ∀ m, (m < size)%nat → ∃ st, ss !! m = Some st ∧ (st = Owned ∨ st = Listed)).
  { intros m Hm. destruct (lookup_lt_is_Some_2 ss m) as [st Hst]; [rewrite (inv_length _ _ _ I); lia|].
    exists st. split; [done|]. by eapply idle_status. }
  assert (Hrefs : ∀ m nd, nodes s !! m = Some nd → freeListRefs nd = if decide (m ∈ owned s) then 0 else 1).
  { intros m nd Hnd. destruct (inv_nodes _ _ _ I m nd Hnd) as (st & Hm & [Hr _ _]).
    assert (Hz : holders (threads s) m = 0).
    { apply zsum_zero. eapply Forall_impl; [exact Hidle|]. by intros ? ->. }
    rewrite Hr, Hz. destruct (idle_status _ _ _ _ _ I Hidle Hm) as [-> | ->].
    - by rewrite decide_True by (by apply (inv_owned _ _ _ I)).
    - rewrite decide_False; [done|]. rewrite (inv_owned _ _ _ I). congruence. }
  split_and!; [exists l; split; [apply I|]|done|].
  - intros m. rewrite (inv_owned _ _ _ I), (inv_listed _ _ _ I). split.
    + intros Hm. destruct (Hst m Hm) as (st & -> & [-> | ->]); tauto.
    + rewrite <- Hsize, <- (inv_length _ _ _ I). intros [?|?]; by eapply lookup_lt_Some.
  - intros i m Hi Hm. pose proof (inv_chain _ _ _ I) as Hc.
    destruct l as [|m' l]; simpl in Hc; [congruence|]. destruct Hc as (Hm' & nd & Hnd & _).
    assert (m' = m) as -> by congruence. eapply get_alone_ok; try done.
    + destruct (lookup_lt_is_Some_2 (threads s) i ltac:(lia)) as [th Hth]. rewrite Hth.
      rewrite Forall_lookup in Hidle. by rewrite (Hidle i th Hth).
    + rewrite (Hrefs m nd Hnd), decide_False; [done|]. rewrite (inv_owned _ _ _ I).
      rewrite (proj1 (inv_listed _ _ _ I m)) by (by left). congruence.
Qed.

(** ** Examples *)

(** What an [add] does that runs alone with the head [h]. *)
Definition add_alone (i n : nat) (h : option nat) : list label :=
  [Begin i (add n); Act i Go; Act i (SeenHead h)] ++ replicate 4 (Act i Go).

(** Thread 1 has a reference to block 1 and is about to take it from the list;
    thread 0 takes the block and adds it again.  Thread 1 finds another head, drops
    the last reference and so has to put block 1 back; it takes it in the end. *)
Definition taken_and_added_again : list label :=
  add_alone 0 0 None ++ add_alone 0 1 (Some 0%nat) ++
  [Begin 1 try_get; Act 1 (SeenHead (Some 1%nat)); Act 1 (SeenRefs 1); Act 1 Go; Act 1 Go;
   Begin 0 try_get; Act 0 (SeenHead (Some 1%nat)); Act 0 (SeenRefs 2)] ++ replicate 6 (Act 0 Go) ++
  [Begin 0 (add 1); Act 0 Go; Act 0 Go;
   Act 1 (SeenHead (Some 0%nat)); Act 1 Go; Act 1 (SeenHead (Some 0%nat)); Act 1 Go; Act 1 Go; Act 1 Go;
   Act 1 (SeenRefs 1); Act 1 Go; Act 1 Go; Act 1 (SeenHead (Some 1%nat)); Act 1 Go;
   Act 1 (SeenRefs 1)] ++ replicate 6 (Act 1 Go).

Definition outcome (o : option free_list) : option (list node * option nat * list (option pc) * list nat * bool) :=
  s ← o; Some (nodes s, freeListHead s, threads s, elements (owned s), bad s).

Definition outcome_expected : list node * option nat * list (option pc) * list nat * bool :=
  ([Node 1 None; Node 0 (Some 0%nat)], Some 0%nat, [None; None], [1%nat], false).

Lemma free_list_safe_witness :
  outcome (run (create 2 2) taken_and_added_again) = Some outcome_expected ∧
  ∀ s, run (create 2 2) taken_and_added_again = Some s →
  bad s = false ∧ ∃ l, chain (nodes s) (freeListHead s) l ∧ NoDup l ∧ ∀ m, m ∈ l → m ∉ owned s.
Proof.
  split; [by vm_compute|]. intros s Hs.
  by apply (free_list_safe 2 2 taken_and_added_again s).
Defined.

Lemma no_block_lost_witness :
  is_Some (outcome (run (create 2 2) taken_and_added_again)) ∧
  ∀ s, run (create 2 2) taken_and_added_again = Some s →
  threads s = [None; None] ∧
  ∃ l, chain (nodes s) (freeListHead s) l ∧ ∀ m, (m < 2)%nat ↔ m ∈ owned s ∨ m ∈ l.
Proof.
  split; [by vm_compute; eexists|]. intros s Hs.
  assert (Hidle : threads s = [None; None]).
  { assert (E : outcome (run (create 2 2) taken_and_added_again) = Some outcome_expected)
      by (by vm_compute).
    rewrite Hs in E. unfold outcome, outcome_expected in E. simpl in E. congruence. }
  split; [done|]. apply (no_block_lost 2 2 taken_and_added_again s); [done|done|].
  rewrite Hidle. by repeat constructor.
Defined.
End McFreeList.
