(* ===== verification/McBulk.v ===== *)
(** * What the bulk operations of the two producers share

    concurrentqueue.h: the loops of [enqueue_bulk] and [dequeue_bulk] that construct,
    move out and destroy elements block by block are the same code in
    [ExplicitProducer] and [ImplicitProducer]. *)
From S2P Require Import Prelude McDetails McBlock McPool McSlots.
Local Open Scope Z_scope.

Module McBulk.
Import McDetails McBlock McPool McSlots.

Section bulk.
Context `{Traits} {T : Type}.

(** [index & ~(BLOCK_SIZE - 1)] *)
Definition block_start (index : Z) : Z := Z.ldiff index (BLOCK_SIZE - 1).

(** [firstAllocatedBlock == nullptr ? block : firstAllocatedBlock] *)
Definition or_first (first : option nat) (b : nat) : option nat :=
  match first with None => Some b | _ => first end.

Definition non_null (o : option nat) : bool := match o with Some _ => true | None => false end.

(** ** Constructing *)

(** The end of the block, or of the elements. *)
Definition stop_index (currentTailIndex newTailIndex : Z) : Z :=
  let stopIndex := u64 (block_start currentTailIndex + BLOCK_SIZE) in
  if clt newTailIndex stopIndex then newTailIndex else stopIndex.

(** [while (currentTailIndex != stopIndex)] constructs the next element; [turns] is the
    difference.  [throws] says which constructors throw.  The last part of the result
    says that one did. *)
Fixpoint fill_slots (turns : nat) (noexcept_ctor : bool) (currentTailIndex : Z) (xs : list T)
    (throws : list bool) (i : nat) (p : pool T) : result (pool T * Z * list T * list bool * bool) :=
  match turns with
  | O => Ok (p, currentTailIndex, xs, throws, false)
  | S turns =>
      match xs with
      | [] => UB
      | x :: xs' =>
          if negb noexcept_ctor && hd false throws then Ok (p, currentTailIndex, xs, throws, true)
          else
            b ← deref p i;
            b ← construct b currentTailIndex x;
            p ← update p i (λ _, b);
            fill_slots turns noexcept_ctor (u64 (currentTailIndex + 1)) xs' (tail throws) i p
      end
  end.

Inductive filled := Filled | ThrewAt (constructedStopIndex : Z) (lastBlockEnqueued : option nat).

(** One block at a time, up to [endBlock]. *)
Fixpoint fill_blocks (fuel : nat) (noexcept_ctor : bool) (newTailIndex : Z) (endBlock : option nat)
    (currentTailIndex : Z) (xs : list T) (throws : list bool) (tb : option nat) (p : pool T) :
    result (pool T * filled) :=
  match fuel with
  | O => UB
  | S fuel =>
      let stopIndex := stop_index currentTailIndex newTailIndex in
      let turns := Z.to_nat (u64 (stopIndex - currentTailIndex)) in
      '(p, currentTailIndex, xs, throws, threw) ←
        match tb with
        | Some i => fill_slots turns noexcept_ctor currentTailIndex xs throws i p
        | None => if decide (turns = 0%nat) then Ok (p, currentTailIndex, xs, throws, false) else UB
        end;
      if threw : bool then Ok (p, ThrewAt currentTailIndex tb)
      else if decide (tb = endBlock)
      then assert_ NDEBUG (currentTailIndex =? newTailIndex);; Ok (p, Filled)
      else
        match tb with
        | None => UB
        | Some i =>
            b ← deref p i;
            fill_blocks fuel noexcept_ctor newTailIndex endBlock currentTailIndex xs throws (next b) p
        end
  end.

(** The destructor of [turns] elements. *)
Fixpoint destroy_slots (turns : nat) (index : Z) (i : nat) (p : pool T) : result (pool T) :=
  match turns with
  | O => Ok p
  | S turns =>
      b ← deref p i;
      b ← destruct_at b index;
      p ← update p i (λ _, b);
      destroy_slots turns (u64 (index + 1)) i p
  end.

(** What was constructed before the exception. *)
Fixpoint destroy_constructed (fuel : nat) (constructedStopIndex : Z) (lastBlock : option nat)
    (currentTailIndex : Z) (block : option nat) (p : pool T) : result (pool T) :=
  match fuel, block with
  | S fuel, Some i =>
      let stopIndex := stop_index currentTailIndex constructedStopIndex in
      p ← destroy_slots (Z.to_nat (u64 (stopIndex - currentTailIndex))) currentTailIndex i p;
      if decide (block = lastBlock) then Ok p
      else b ← deref p i; destroy_constructed fuel constructedStopIndex lastBlock stopIndex (next b) p
  | _, _ => UB
  end.

(** ** Moving out *)

(** The elements of one block from [index] on, moved out and destroyed, until an
    assignment throws; [index] stays at that element, which is not destroyed yet. *)
Fixpoint take_slots (turns : nat) (throws : list bool) (index : Z) (i : nat) (p : pool T) :
    result (pool T * Z * list T * list bool * bool) :=
  match turns with
  | O => Ok (p, index, [], throws, false)
  | S turns =>
      b ← deref p i;
      x ← element b index;
      if hd false throws then Ok (p, index, [], throws, true)
      else
        b ← destruct_at b index;
        p ← update p i (λ _, b);
        '(p, index, xs, throws, threw) ← take_slots turns (tail throws) (u64 (index + 1)) i p;
        Ok (p, index, x :: xs, throws, threw)
  end.

(** The end of the part of the block of [index] that is to be dequeued. *)
Definition end_index (firstIndex actualCount index : Z) : Z :=
  let endIndex := u64 (block_start index + BLOCK_SIZE) in
  if clt (u64 (firstIndex + actualCount)) endIndex then u64 (firstIndex + actualCount) else endIndex.

(** The call returns the number of elements, having stored them; or it throws, having
    stored some of those it took out. *)
Inductive bulk_dequeued := GotMany (xs : list T) | LostMany (stored : list T).

(** ** Rows of blocks, slot by slot

    The blocks of [ring] cover consecutive ranges of indices from [A]; the slot of an
    index holds what [f] says, and the slots below [h] are marked as dequeued.  What is
    known of the next pointers is [N]. *)

Definition holds (b : block T) (start : Z) (f : Z → option T) : Prop :=
  length (elements b) = Z.to_nat BLOCK_SIZE ∧
  ∀ j : nat, j < BLOCK_SIZE → elements b !! j = Some (f (start + j)).

Record cells (c : InnerQueueContext) (N : nat → option nat → Prop) (p : pool T) (owned : gset nat)
    (ring : list nat) (A h : Z) (f : Z → option T) : Prop := {
  ce_pool : pool_ok p owned;
  ce_owned i : i ∈ ring → i ∈ owned;
  ce_nodup : NoDup ring;
  ce_aligned : A mod BLOCK_SIZE = 0;
  ce_blocks k i : ring !! k = Some i → ∃ b, heap p !! i = Some b ∧ N k (next b) ∧
    holds b (base A k) f ∧ tracks c b (dequeued_slots h (base A k))
}.

(** The slots from [lo] to [hi] become raw. *)
Definition cleared (lo hi : Z) (f : Z → option T) : Z → option T :=
  λ idx, if (lo <=? idx) && (idx <? hi) then None else f idx.

(** Nothing throws. *)
Definition no_throw (noexcept_ctor : bool) (throws : list bool) : Prop :=
  noexcept_ctor = true ∨ Forall (λ b, b = false) throws.

Section proofs.
Context `{!TraitsOk}.

(** ** Indices *)

(** The base of the block of an index. *)
Lemma block_start_at A k (j : Z) :
  A mod BLOCK_SIZE = 0 → 0 <= j < BLOCK_SIZE → block_start (u64 (base A k + j)) = u64 (base A k).
Proof.
  intros HA Hj. unfold block_start. rewrite block_base, slot_wrap, wrap_block_base, base_slot by done. f_equal. lia.
Qed.

Lemma stop_index_at A k (j : Z) T' :
  A mod BLOCK_SIZE = 0 → 0 <= j < BLOCK_SIZE → - 2 ^ 62 <= T' - base A (S k) <= 2 ^ 62 →
  stop_index (u64 (base A k + j)) (u64 T') = u64 (Z.min T' (base A (S k))).
Proof.
  intros HA Hj Hd. unfold stop_index. rewrite block_start_at by done. rewrite wrap_add_l.
  replace (base A k + BLOCK_SIZE) with (base A (S k)) by (unfold base; lia). rewrite clt_spec by lia.
  destruct (Z.ltb_spec T' (base A (S k))); f_equal; lia.
Qed.

(** The part of the indices from [t] to [E] that is in the block of [t]. *)
Lemma part_of_block A (n k : nat) t E :
  A mod BLOCK_SIZE = 0 → BLOCK_SIZE * n < 2 ^ 62 → (k < n)%nat → base A k <= t < base A (S k) →
  t <= E <= base A n →
  ∃ m : nat, stop_index (u64 t) (u64 E) = u64 (t + m) ∧ t + m = Z.min E (base A (S k)) ∧
    base A (S k) <= base A n ∧ (u64 (t + m) =? u64 E) = bool_decide (t + m = E) ∧
    ∀ j : nat, (j ≤ m)%nat → Z.to_nat (u64 (u64 (t + m) - u64 (t + j))) = (m - j)%nat.
Proof.
  intros HA Hsz Hk Ht HE. pose proof block_size_pos.
  assert (Hlast : base A (S k) <= base A n) by (unfold base; nia).
  assert (Hall : base A n - base A k < 2 ^ 62) by (unfold base; nia).
  exists (Z.to_nat (Z.min E (base A (S k)) - t)).
  set (m := Z.to_nat _). assert (Hm : t + m = Z.min E (base A (S k))) by (unfold m; lia).
  split_and!; [|done|done| |].
  - rewrite Hm. replace t with (base A k + (t - base A k)) at 1 by lia.
    apply stop_index_at; [done|unfold base in *; lia|lia].
  - apply eq_true_iff_eq. rewrite Z.eqb_eq, bool_decide_eq_true. split; [|by intros ->].
    intros He. apply wrap_inj in He; lia.
  - intros j Hj. autorewrite with wrap. rewrite wrap_small; [lia|]. unfold fits. lia.
Qed.

(** The part of the elements that is in the block of the head. *)
Lemma part_to_take A (n : nat) first cnt k h (ys : list T) :
  A mod BLOCK_SIZE = 0 → BLOCK_SIZE * n < 2 ^ 62 →
  u64 (first + cnt) = u64 (h + length ys) → base A k <= h < base A (S k) →
  h + length ys <= base A n → (k < n)%nat →
  ∃ m : nat, end_index first cnt (u64 h) = u64 (h + m) ∧ (m ≤ length ys)%nat ∧ h + m <= base A (S k) ∧
    (u64 (h + m) =? u64 (first + cnt)) = bool_decide (m = length ys) ∧
    (m ≠ length ys → h + m = base A (S k) ∧ (S k < n)%nat) ∧
    ∀ j : nat, (j ≤ m)%nat → Z.to_nat (u64 (u64 (h + m) - u64 (h + j))) = (m - j)%nat.
Proof.
  intros HA Hsz Hf Hh HT Hk. pose proof block_size_pos.
  destruct (part_of_block A n k h (h + length ys) HA Hsz Hk Hh) as (m & Hs & Hm & Hl & He & Ht); [lia|].
  exists m. rewrite <- Hf in Hs, He. split_and!; [exact Hs|lia|lia| | |done].
  - rewrite He. apply bool_decide_ext. lia.
  - intros Hne. split; [lia|]. assert (base A (S k) < base A n) as Hlt by lia. unfold base in Hlt. nia.
Qed.

(** The number of blocks that are needed. *)
Lemma blocks_needed A (n : nat) t (c : nat) :
  A mod BLOCK_SIZE = 0 → base A n - BLOCK_SIZE < t <= base A n → (0 < c)%nat → BLOCK_SIZE * c < 2 ^ 62 →
  ∃ m : nat,
    u64 (block_start (u64 (u64 t + c - 1)) - block_start (u64 (u64 t - 1))) = BLOCK_SIZE * m ∧
    block_start (u64 (u64 t - 1)) = u64 (base A n - BLOCK_SIZE) ∧
    base A (n + m) - BLOCK_SIZE < t + c <= base A (n + m) ∧ (m ≤ c)%nat.
Proof.
  intros HA Ht Hc Hsz. pose proof block_size_pos.
  assert (HA' : (A - BLOCK_SIZE) mod BLOCK_SIZE = 0).
  { rewrite Zminus_mod, HA, Z.mod_same by lia. done. }
  assert (Hb : ∀ k, base (A - BLOCK_SIZE) k = base A k - BLOCK_SIZE) by (intros; unfold base; lia).
  replace (u64 t + c - 1) with (u64 t + (c - 1)) by lia. autorewrite with wrap.
  set (j := t - 1 - (base A n - BLOCK_SIZE)).
  assert (Hj : 0 <= j < BLOCK_SIZE) by lia.
  replace (u64 (t - 1)) with (u64 (base (A - BLOCK_SIZE) n + j)) by (rewrite Hb; f_equal; lia).
  rewrite block_start_at by done. set (m := Z.to_nat ((j + c) / BLOCK_SIZE)).
  assert (Hm : Z.of_nat m = (j + c) / BLOCK_SIZE) by (unfold m; rewrite Z2Nat.id; [done|apply Z.div_pos; lia]).
  assert (Hbs : 0 < BLOCK_SIZE) by lia. assert (Hne : BLOCK_SIZE ≠ 0) by lia.
  pose proof (Z.div_mod (j + c) BLOCK_SIZE Hne) as Hdm. rewrite <- Hm in Hdm.
  pose proof (Z.mod_pos_bound (j + c) BLOCK_SIZE Hbs) as Hr. set (r := (j + c) mod BLOCK_SIZE) in *.
  replace (u64 (t + (c - 1))) with (u64 (base (A - BLOCK_SIZE) (n + m) + r)).
  2:{ f_equal. rewrite Hb. unfold j in Hdm. unfold base in *. nia. }
  rewrite block_start_at by done. exists m. autorewrite with wrap. rewrite !Hb. split_and!.
  - rewrite wrap_small; [unfold base; lia|]. unfold fits, base. nia.
  - done.
  - unfold j in Hdm. unfold base in *. nia.
  - unfold j in Hdm. unfold base in *. nia.
  - nia.
Qed.

(** The element after the last block of [main] or in it. *)
Lemma start_in_ring (main ahead : list nat) A t first start :
  A mod BLOCK_SIZE = 0 → base A (length main) - BLOCK_SIZE < t <= base A (length main) →
  (t = base A (length main) → length ahead ≠ 0%nat) → first = head ahead →
  (main ≠ [] → start = last main) → (main = [] → t = base A (length main)) →
  ∃ k, (if (slot (u64 t) =? 0) && non_null first then first else start) = (main ++ ahead) !! k ∧
    (if slot (u64 t) =? 0 then first else start) = (main ++ ahead) !! k ∧
    (k < length (main ++ ahead))%nat ∧ (length main ≤ S k)%nat ∧ base A k <= t < base A (S k) ∧
    negb (slot (u64 t) =? 0) || non_null first = true.
Proof.
  intros HA Ht Hne -> Hst Hmain. pose proof block_size_pos.
  assert (Hslot : (slot (u64 t) =? 0) = bool_decide (t = base A (length main))).
  { apply eq_true_iff_eq. rewrite Z.eqb_eq, bool_decide_eq_true, slot_wrap. split; [|intros ->].
    - intros Hz. destruct (decide (t = base A (length main))) as [|Hn]; [done|].
      set (j := t - (base A (length main) - BLOCK_SIZE)) in *.
      assert (slot t = j); [|lia]. replace t with (base (A - BLOCK_SIZE) (length main) + j) by (unfold base in *; lia).
      apply base_slot; [|lia]. rewrite Zminus_mod, HA, Z.mod_same by lia. done.
    - rewrite <- (Z.add_0_r (base A (length main))). by apply base_slot; [|lia]. }
  rewrite Hslot. case_bool_decide as Hb.
  - destruct ahead as [|a ahead]; [by destruct (Hne Hb)|]. cbn [head non_null].
    exists (length main). simpl. split; [by rewrite list_lookup_middle|]. split; [by rewrite list_lookup_middle|].
    rewrite length_app. simpl. split_and!; [lia|lia|lia|unfold base in *; lia|done].
  - assert (main ≠ []) as Hm by (intros Hm; by apply Hb, Hmain). exists (length main - 1)%nat. simpl.
    assert (0 < length main)%nat by (destruct main; simpl; [done|lia]). rewrite length_app.
    replace (base A (S (length main - 1))) with (base A (length main)) by (f_equal; lia).
    assert (start = (main ++ ahead) !! (length main - 1)%nat).
    { rewrite lookup_app_l, Hst by (done || lia). by rewrite last_lookup, Nat.sub_1_r. }
    split_and!; [done|done|lia|lia|unfold base in *; nia|lia|done].
Qed.

(** ** Changing one block of a row *)

Lemma cells_ext c N p owned ring A h f g :
  (∀ idx, A <= idx < base A (length ring) → g idx = f idx) → cells c N p owned ring A h f → cells c N p owned ring A h g.
Proof.
  intros He [I1 I2 I3 I4 I5]. pose proof block_size_pos. constructor; try done. intros k i Hk.
  destruct (I5 k i Hk) as (b & Hb & Hn & [Hl Hh] & Ht). apply lookup_lt_Some in Hk.
  exists b. split; [done|]. split; [done|]. split; [|done]. split; [done|]. intros j Hj. rewrite Hh by done. rewrite He; [done|]. unfold base. nia.
Qed.

Lemma cells_update c N p owned ring A h f g k i b b' :
  cells c N p owned ring A h f → ring !! k = Some i → heap p !! i = Some b →
  next b' = next b → freeListRefs b' = freeListRefs b → tracks c b' (dequeued_slots h (base A k)) →
  holds b' (base A k) g →
  (∀ k' (j : Z), k' ≠ k → 0 <= j < BLOCK_SIZE → g (base A k' + j) = f (base A k' + j)) →
  cells c N (with_heap p (<[i := b']> (heap p))) owned ring A h g.
Proof.
  intros [I1 I2 I3 I4 I5] Hk Hb Hn Hr Ht Hh Ho. constructor; try done.
  - apply (update_owned p owned i b (λ _, b')); try done. by apply I2, list_elem_of_lookup_2 with k.
  - intros k' i' Hk'. destruct (decide (k' = k)) as [->|Hne].
    + assert (i' = i) as -> by congruence. exists b'. simpl. rewrite lookup_insert_eq, Hn.
      destruct (I5 k i Hk) as (b0 & Hb0 & HN & _). assert (b0 = b) as -> by congruence. by split_and!.
    + destruct (I5 k' i' Hk') as (b0 & Hb0 & HN & [Hl Hh0] & Ht0). exists b0. simpl.
      rewrite lookup_insert_ne by (intros ->; apply Hne; by eapply NoDup_lookup).
      split; [done|]. split; [done|]. split; [|done]. split; [done|]. intros j Hj. rewrite Hh0 by done. by rewrite Ho by lia.
Qed.

(** Another state of the pool with the same blocks. *)
Lemma cells_pool c N p p' owned owned' ring A h (f : Z → option T) :
  cells c N p owned ring A h f → pool_ok p' owned' → (∀ i, i ∈ ring → i ∈ owned') →
  (∀ i, i ∈ ring → heap p' !! i = heap p !! i) → cells c N p' owned' ring A h f.
Proof.
  intros [I1 I2 I3 I4 I5] P Ho Hf. constructor; try done. intros k i Hk.
  rewrite Hf by (by eapply list_elem_of_lookup_2). by apply I5.
Qed.

(** The first blocks of a row. *)
Lemma cells_prefix c N (N' : nat → option nat → Prop) p p' owned owned' ring rest A h (f : Z → option T) :
  cells c N p owned (ring ++ rest) A h f → pool_ok p' owned' → (∀ i, i ∈ ring → i ∈ owned') →
  (∀ i, i ∈ ring → heap p' !! i = heap p !! i) → (∀ k n, (k < length ring)%nat → N k n → N' k n) →
  cells c N' p' owned' ring A h f.
Proof.
  intros [I1 I2 I3 I4 I5] P Ho Hf HN. constructor; try done; [by apply NoDup_app in I3 as [? _]|].
  intros k i Hk. rewrite Hf by (by eapply list_elem_of_lookup_2). pose proof (lookup_lt_Some _ _ _ Hk).
  destruct (I5 k i) as (b & Hb & Hn & ?); [by apply lookup_app_l_Some|]. exists b. split; [done|]. split; [by apply HN|done].
Qed.

Lemma holds_raw (b : block T) start f :
  holds b start f → (∀ j : nat, j < BLOCK_SIZE → f (start + j) = None) → raw b.
Proof.
  intros [B1 B2] Hf. apply list_eq_same_length with (Z.to_nat BLOCK_SIZE);
    [by rewrite length_replicate|done|]. intros j y z Hj. rewrite B2 by lia.
  rewrite lookup_replicate_2, Hf by lia. congruence.
Qed.

(** A block at the end of the row. *)
Lemma cells_snoc c N (N' : nat → option nat → Prop) p owned ring A h (f : Z → option T) nb b :
  cells c N p owned ring A h f → nb ∈ owned → nb ∉ ring → heap p !! nb = Some b →
  holds b (base A (length ring)) f → tracks c b (dequeued_slots h (base A (length ring))) →
  (∀ k n, (k < length ring)%nat → N k n → N' k n) → N' (length ring) (next b) →
  cells c N' p owned (ring ++ [nb]) A h f.
Proof.
  intros [I1 I2 I3 I4 I5] Ho Hn Hb Hh Ht HN HN'. constructor; try done.
  - intros i [?|Hi%list_elem_of_singleton]%elem_of_app; [by apply I2|by subst].
  - apply NoDup_app. split_and!; [done| |apply NoDup_singleton]. by intros i Hi ->%list_elem_of_singleton.
  - intros k i Hk. destruct (decide (k < length ring)%nat) as [Hlt|Hge].
    + rewrite lookup_app_l in Hk by done. destruct (I5 k i Hk) as (b' & Hb' & HNk & ?). exists b'.
      split; [done|]. split; [by apply HN|done].
    + rewrite lookup_app_r in Hk by lia. apply list_lookup_singleton_Some in Hk as [Hz <-].
      assert (k = length ring) as -> by lia. by exists b.
Qed.

(** The next pointer of one block changes. *)
Lemma cells_next c (N N' : nat → option nat → Prop) p owned ring A h (f : Z → option T) k i b n :
  cells c N p owned ring A h f → ring !! k = Some i → heap p !! i = Some b → N' k n →
  (∀ k' m, (k' < length ring)%nat → k' ≠ k → N k' m → N' k' m) →
  cells c N' (with_heap p (<[i := with_next b n]> (heap p))) owned ring A h f.
Proof.
  intros [I1 I2 I3 I4 I5] Hk Hb Hn HN. constructor; try done.
  - apply (update_owned p owned i b (λ _, with_next b n)); try done. by apply I2, list_elem_of_lookup_2 with k.
  - intros k' i' Hk'. destruct (I5 k' i' Hk') as (b' & Hb' & HNk & Hh & Ht). destruct (decide (k' = k)) as [->|Hne].
    + assert (i' = i) as -> by congruence. assert (b' = b) as -> by congruence.
      exists (with_next b n). simpl. rewrite lookup_insert_eq. by split_and!.
    + exists b'. simpl. rewrite lookup_insert_ne by (intros ->; apply Hne; by eapply NoDup_lookup).
      split; [done|]. split; [|done]. apply HN; [by eapply lookup_lt_Some|done..].
Qed.

Lemma aligned_slot start (j : nat) : start mod BLOCK_SIZE = 0 → j < BLOCK_SIZE → slot (u64 (start + j)) = j.
Proof.
  intros Hst Hj. rewrite slot_wrap. replace start with (base start 0) by (unfold base; lia). by apply base_slot; [|lia].
Qed.

(** The next element goes into its slot. *)
Lemma cells_fill c N p owned ring A h xs x k i (j : nat) :
  cells c N p owned ring A h (content h xs) → ring !! k = Some i → j < BLOCK_SIZE → h + length xs = base A k + j →
  ∃ b b', heap p !! i = Some b ∧ construct b (u64 (h + length xs)) x = Ok b' ∧
    cells c N (with_heap p (<[i := b']> (heap p))) owned ring A h (content h (xs ++ [x])).
Proof.
  intros C Hk Hj Ht. pose proof block_size_pos. destruct (ce_blocks _ _ _ _ _ _ _ _ C k i Hk) as (b & Hb & _ & [Hl Hh] & Htr).
  destruct (fill_element c b (base A k) h x xs j) as (b' & Hb' & [B1 B2 B3] & Hn' & Hr');
    [by constructor|apply base_aligned, C|lia|lia|].
  exists b, b'. rewrite Ht. split_and!; [done|done|]. apply (cells_update _ _ _ _ _ _ _ (content h xs) _ k _ b); try done.
  intros k' j' Hne Hj'. apply content_snoc. intros He. destruct (base_inj A k' j' k j); [lia..|done].
Qed.

(** An element is destroyed in its slot. *)
Lemma cells_destroy c N p owned ring A h f k i (j : nat) x :
  cells c N p owned ring A h f → ring !! k = Some i → j < BLOCK_SIZE → f (base A k + j) = Some x →
  ∃ b b', heap p !! i = Some b ∧ destruct_at b (u64 (base A k + j)) = Ok b' ∧
    cells c N (with_heap p (<[i := b']> (heap p))) owned ring A h (cleared (base A k + j) (base A k + j + 1) f).
Proof.
  intros C Hk Hj Hx. pose proof block_size_pos. destruct (ce_blocks _ _ _ _ _ _ _ _ C k i Hk) as (b & Hb & _ & [Hl Hh] & Htr).
  assert (Hslot : slot (u64 (base A k + j)) = j) by (apply aligned_slot; [apply base_aligned, C|done]).
  pose proof (Hh j Hj) as Hel. rewrite Hx in Hel. pose proof (lookup_lt_Some _ _ _ Hel).
  exists b, (with_elements b (<[j := None]> (elements b))). split; [done|].
  unfold destruct_at, element. rewrite Hslot, (aread_ok _ _ _ Hel), !bind_ok, awrite_ok, ?bind_ok by done. split; [done|].
  apply (cells_update _ _ _ _ _ _ _ f _ k _ b); try done.
  - split; simpl; [by rewrite length_insert|]. intros j' Hj'. unfold cleared. destruct (decide (j' = j)) as [->|Hne].
    + rewrite list_lookup_insert_eq by done. by rewrite (proj2 (Z.leb_le _ _)), (proj2 (Z.ltb_lt _ _)) by lia.
    + rewrite list_lookup_insert_ne, Hh by done. destruct (Z.leb_spec (base A k + j) (base A k + j')); [|done].
      by rewrite (proj2 (Z.ltb_ge _ _)) by lia.
  - intros k' j' Hne Hj'. unfold cleared.
    destruct (Z.leb_spec (base A k + j) (base A k' + j')), (Z.ltb_spec (base A k' + j') (base A k + j + 1)); try done.
    destruct (base_inj A k' j' k j); [lia..|done].
Qed.

Lemma no_throw_hd noexcept_ctor throws :
  no_throw noexcept_ctor throws → negb noexcept_ctor && hd false throws = false.
Proof. intros [->|Hf]; [done|]. destruct Hf; simpl; subst; by rewrite ?andb_false_r. Qed.

Lemma no_throw_tail noexcept_ctor throws :
  no_throw noexcept_ctor throws → no_throw noexcept_ctor (tail throws).
Proof. intros [?|Hf]; [by left|right]. by destruct Hf. Qed.

(** ** Constructing elements in one block *)

Lemma fill_slots_ok c N noexcept_ctor ys : ∀ p owned ring A h xs rest throws k i (j : nat),
  cells c N p owned ring A h (content h xs) → ring !! k = Some i → j + length ys <= BLOCK_SIZE →
  h + length xs = base A k + j →
  ∃ (n : nat) p' throws', fill_slots (length ys) noexcept_ctor (u64 (h + length xs)) (ys ++ rest) throws i p =
      Ok (p', u64 (h + length xs + n), drop n ys ++ rest, throws', bool_decide (n < length ys)%nat) ∧
    (n ≤ length ys)%nat ∧ cells c N p' owned ring A h (content h (xs ++ take n ys)) ∧ mallocs p' = mallocs p ∧
    (no_throw noexcept_ctor throws → n = length ys ∧ no_throw noexcept_ctor throws') ∧
    (noexcept_ctor = true → n = length ys).
Proof.
  induction ys as [|y ys IH]; intros p owned ring A h xs rest throws k i j C Hk Hj Ht; cbn [fill_slots length app].
  { exists 0%nat, p, throws. rewrite Z.add_0_r, app_nil_r. by split_and!. }
  simpl length in Hj. destruct (negb noexcept_ctor && hd false throws) eqn:Hth.
  { exists 0%nat, p, throws. rewrite Z.add_0_r, app_nil_r. apply andb_true_iff in Hth as Hth'.
    split_and!; [done|lia|done|done| |by destruct Hth' as [? _], noexcept_ctor]. intros Hnt. by rewrite no_throw_hd in Hth. }
  destruct (cells_fill c N p owned ring A h xs y k i j C Hk) as (b & b' & Hb & Hc & C1); [lia|done|].
  rewrite (deref_ok _ _ _ Hb), bind_ok, Hc, bind_ok, (update_ok _ _ _ _ Hb), bind_ok, wrap_add_l.
  assert (Hl : h + length xs + 1 = h + length (xs ++ [y])) by (rewrite length_app; simpl; lia).
  destruct (IH _ owned ring A h (xs ++ [y]) rest (tail throws) k i (S j) C1 Hk) as (n & p' & th' & Hf & Hn & C' & M & Hnt & Hne);
    [lia|rewrite <- Hl; lia|].
  rewrite Hl, Hf. exists (S n), p', th'. rewrite <- app_assoc in C'.
  replace (h + length (xs ++ [y]) + n) with (h + length xs + S n) by lia. split_and!; try done.
  - do 2 f_equal. apply bool_decide_ext. lia.
  - lia.
  - intros Ht'. destruct (Hnt (no_throw_tail _ _ Ht')) as [-> ?]. done.
  - intros Ht'. by rewrite Hne.
Qed.

(** ** Block by block *)

(** The next pointers lead from block [k] to the last one. *)
Definition chained (N : nat → option nat → Prop) (ring : list nat) (k : nat) : Prop :=
  ∀ m n, (k ≤ m)%nat → (S m < length ring)%nat → N m n → n = ring !! S m.

Lemma chained_S N ring k : chained N ring k → chained N ring (S k).
Proof. intros Hn m n Hm. apply Hn. lia. Qed.

Lemma fill_blocks_ok c N noexcept_ctor (fuel : nat) : ∀ (k : nat) p owned ring A h xs ys throws,
  let t := h + length xs in
  cells c N p owned ring A h (content h xs) → chained N ring k → (k < length ring)%nat →
  base A k <= t < base A (S k) → base A (length ring) - BLOCK_SIZE < t + length ys <= base A (length ring) →
  (length ring ≤ fuel + k)%nat → BLOCK_SIZE * length ring < 2 ^ 62 →
  ∃ (n : nat) p' f, fill_blocks fuel noexcept_ctor (u64 (t + length ys)) (last ring) (u64 t) ys throws (ring !! k) p =
      Ok (p', f) ∧ (n ≤ length ys)%nat ∧
    cells c N p' owned ring A h (content h (xs ++ take n ys)) ∧ mallocs p' = mallocs p ∧
    match f with
    | Filled => n = length ys
    | ThrewAt stop lastBlock => noexcept_ctor = false ∧ stop = u64 (t + n) ∧
        ∃ k', (k ≤ k' < length ring)%nat ∧ lastBlock = ring !! k' ∧ base A k' <= t + n < base A (S k')
    end ∧ (no_throw noexcept_ctor throws → f = Filled).
Proof.
  induction fuel as [|fuel IH]; intros k p owned ring A h xs ys throws t C Hch Hk Ht HT Hf Hsz; [lia|].
  pose proof block_size_pos. destruct (lookup_lt_is_Some_2 ring k Hk) as [i Hi]. cbn [fill_blocks].
  destruct (part_of_block A (length ring) k t (t + length ys) (ce_aligned _ _ _ _ _ _ _ _ C) Hsz Hk Ht)
    as (m & Hstop & Hm & Hlast & _ & Hturns); [lia|].
  pose proof (Hturns 0%nat ltac:(lia)) as Ht0. rewrite Z.add_0_r, Nat.sub_0_r in Ht0. rewrite Hstop, Ht0, Hi.
  assert (Hlen : length (take m ys) = m) by (rewrite length_take; lia).
  destruct (fill_slots_ok c N noexcept_ctor (take m ys) p owned ring A h xs (drop m ys) throws k i
    (Z.to_nat (t - base A k)) C Hi) as (n1 & p1 & th1 & Hfill & Hn1 & C1 & M1 & Hnt & Hne); [unfold base in *; lia|lia|].
  rewrite Hlen, take_drop in Hfill. fold t in Hfill. rewrite Hfill, bind_ok. rewrite Hlen in Hn1, Hnt, Hne.
  case_bool_decide as Hth.
  { exists n1, p1, (ThrewAt (u64 (t + n1)) (Some i)). rewrite take_take, Nat.min_l in C1 by lia.
    split; [done|]. split; [lia|]. split; [done|]. split; [done|]. split.
    - split; [destruct noexcept_ctor; [|done]; specialize (Hne eq_refl); lia|]. split; [done|].
      exists k. split; [lia|]. split; [done|]. lia.
    - intros Ht'. destruct (Hnt Ht'). lia. }
  assert (n1 = m) as -> by lia. rewrite (firstn_all2 (n := m) (take m ys)) in C1 by lia.
  destruct (decide (k = length ring - 1)%nat) as [->|Hnk].
  - assert (S (length ring - 1) = length ring) as Hlr by lia. rewrite Hlr in *.
    assert (m = length ys) as -> by lia. rewrite decide_True by (symmetry; by apply last_at).
    rewrite Z.eqb_refl, assert_ok, bind_ok by done. exists (length ys), p1, Filled. by split_and!.
  - assert (HS : base A (S k) <= base A (length ring) - BLOCK_SIZE) by (unfold base; nia).
    rewrite decide_False.
    2:{ intros Hl. symmetry in Hl. apply last_at in Hl. apply Hnk. eapply NoDup_lookup; [apply C|done..]. }
    destruct (ce_blocks _ _ _ _ _ _ _ _ C1 k i Hi) as (b & Hb & Hn & _). rewrite (deref_ok _ _ _ Hb), bind_ok.
    rewrite (Hch k _ ltac:(lia) ltac:(lia) Hn).
    assert (Hl : h + length (xs ++ take m ys) = t + m) by (rewrite length_app, Hlen; unfold t; lia).
    assert (Hsum : t + length ys = t + m + length (drop m ys)) by (rewrite length_drop; lia).
    rewrite drop_ge, app_nil_l by lia. rewrite Hsum in HT |- *. rewrite <- Hl in HT |- *.
    destruct (IH (S k) p1 owned ring A h (xs ++ take m ys) (drop m ys) th1 C1 (chained_S _ _ _ Hch))
      as (n & p' & f & Hr & Hn' & C' & M' & Hres & Hnt'); [lia|unfold base in *; nia|done|lia|done|].
    exists (m + n)%nat, p', f. rewrite length_drop in Hn'. rewrite <- app_assoc, take_take_drop in C'.
    rewrite Hr. split_and!; [done|lia|done|congruence| |intros Ht'; by destruct (Hnt Ht') as [_ ?%Hnt']].
    destruct f as [|stop lb]; [rewrite length_drop in Hres; lia|]. destruct Hres as (? & Hs & k' & Hk' & ? & Hb').
    rewrite Hl in Hs, Hb'. replace (t + (m + n)%nat) with (t + m + n) by lia. split; [done|]. split; [by rewrite Hs; f_equal; lia|].
    exists k'. split; [lia|]. split; [done|]. lia.
Qed.

(** Nothing to construct. *)
Lemma fill_blocks_nil fuel noexcept_ctor t throws tb (p : pool T) :
  fill_blocks (S fuel) noexcept_ctor (u64 t) tb (u64 t) [] throws tb p = Ok (p, Filled).
Proof.
  pose proof block_size_pos. cbn [fill_blocks].
  assert (Hstop : stop_index (u64 t) (u64 t) = u64 t).
  { unfold stop_index, block_start. rewrite block_base, slot_wrap.
    rewrite wrap_block_base, wrap_add_l. pose proof (slot_bound t). rewrite clt_spec by lia.
    by rewrite (proj2 (Z.ltb_lt _ _)) by lia. }
  rewrite Hstop, Z.sub_diag. change (Z.to_nat (u64 0)) with 0%nat.
  destruct tb; cbn [fill_slots]; rewrite ?decide_True by done; rewrite bind_ok, decide_True, Z.eqb_refl by done;
    by rewrite assert_ok.
Qed.

(** ** Destroying elements block by block *)

Lemma destroy_slots_cells c N (turns : nat) : ∀ p owned ring A h f k i (j : nat),
  cells c N p owned ring A h f → ring !! k = Some i → j + turns <= BLOCK_SIZE →
  (∀ m : nat, (m < turns)%nat → is_Some (f (base A k + j + m))) →
  ∃ p', destroy_slots turns (u64 (base A k + j)) i p = Ok p' ∧
    cells c N p' owned ring A h (cleared (base A k + j) (base A k + j + turns) f) ∧ mallocs p' = mallocs p.
Proof.
  induction turns as [|turns IH]; intros p owned ring A h f k i j C Hk Hj Hf; cbn [destroy_slots].
  { exists p. split; [done|]. split; [|done]. eapply cells_ext; [|exact C]. intros idx _. unfold cleared.
    destruct (Z.leb_spec (base A k + j) idx), (Z.ltb_spec idx (base A k + j + 0%nat)); [lia|done..]. }
  destruct (Hf 0%nat ltac:(lia)) as [x Hx]. rewrite Z.add_0_r in Hx.
  destruct (cells_destroy c N p owned ring A h f k i j x C Hk ltac:(lia) Hx) as (b & b' & Hb & Hd & C1).
  rewrite (deref_ok _ _ _ Hb), bind_ok, Hd, bind_ok, (update_ok _ _ _ _ Hb), bind_ok, wrap_add_l.
  replace (base A k + j + 1) with (base A k + S j) in * by lia.
  destruct (IH _ owned ring A h _ k i (S j) C1 Hk) as (p' & Hr & C' & M); [lia| |].
  { intros m Hm. unfold cleared. rewrite (proj2 (Z.ltb_ge _ (base A k + S j))), andb_false_r by lia.
    replace (base A k + S j + m) with (base A k + j + S m) by lia. apply Hf. lia. }
  exists p'. split; [done|]. split; [|done]. eapply cells_ext; [|exact C']. intros idx _. unfold cleared.
  destruct (Z.leb_spec (base A k + j) idx), (Z.ltb_spec idx (base A k + j + S turns)),
    (Z.leb_spec (base A k + S j) idx), (Z.ltb_spec idx (base A k + S j + turns)),
    (Z.ltb_spec idx (base A k + S j)); try done; lia.
Qed.

Lemma destroy_constructed_ok c N (fuel : nat) : ∀ (k k' : nat) p owned ring A h f t E,
  cells c N p owned ring A h f → chained N ring k → (k ≤ k' < length ring)%nat →
  base A k <= t < base A (S k) → t <= E → base A k' <= E < base A (S k') →
  (∀ idx, t <= idx < E → is_Some (f idx)) → (k' < fuel + k)%nat → BLOCK_SIZE * length ring < 2 ^ 62 →
  ∃ p', destroy_constructed fuel (u64 E) (ring !! k') (u64 t) (ring !! k) p = Ok p' ∧
    cells c N p' owned ring A h (cleared t E f) ∧ mallocs p' = mallocs p.
Proof.
  induction fuel as [|fuel IH]; intros k k' p owned ring A h f t E C Hch Hk Ht HtE HE Hf Hfuel Hsz; [lia|].
  pose proof block_size_pos. assert (Hkl : (k < length ring)%nat) by lia.
  destruct (lookup_lt_is_Some_2 ring k Hkl) as [i Hi]. cbn [destroy_constructed]. rewrite Hi.
  assert (HEl : E <= base A (length ring)) by (unfold base in *; nia).
  destruct (part_of_block A (length ring) k t E (ce_aligned _ _ _ _ _ _ _ _ C) Hsz Hkl Ht)
    as (m & Hstop & Hm & _ & _ & Hturns); [lia|].
  pose proof (Hturns 0%nat ltac:(lia)) as Ht0. rewrite Z.add_0_r, Nat.sub_0_r in Ht0. rewrite Hstop, Ht0.
  destruct (destroy_slots_cells c N m p owned ring A h f k i (Z.to_nat (t - base A k)) C Hi) as (p1 & Hd & C1 & M1);
    [unfold base in *; lia|intros o Ho; apply Hf; lia|].
  replace (base A k + Z.to_nat (t - base A k)) with t in * by lia. rewrite Hd, bind_ok.
  destruct (lookup_lt_is_Some_2 ring k') as [i' Hi']; [lia|].
  destruct (decide (k = k')) as [->|Hne].
  - rewrite decide_True by congruence. exists p1. replace (t + m) with E in * by lia. done.
  - rewrite decide_False by (rewrite <- Hi; intros Hl; apply Hne; rewrite Hi in Hl; eapply NoDup_lookup; [apply C|done|by rewrite <- Hl]).
    assert (base A (S k) <= base A k') by (unfold base; nia).
    destruct (ce_blocks _ _ _ _ _ _ _ _ C1 k i Hi) as (b & Hb & Hn & _). rewrite (deref_ok _ _ _ Hb), bind_ok.
    rewrite (Hch k _ ltac:(lia) ltac:(lia) Hn).
    destruct (IH (S k) k' p1 owned ring A h (cleared t (t + m) f) (t + m) E C1 (chained_S _ _ _ Hch))
      as (p' & Hr & C' & M'); try lia; try done.
    + unfold base in *. lia.
    + intros idx Hidx. unfold cleared. rewrite (proj2 (Z.ltb_ge _ _)), andb_false_r by lia. apply Hf. lia.
    + exists p'. split; [done|]. split; [|congruence]. eapply cells_ext; [|exact C']. intros idx _. unfold cleared.
      destruct (Z.leb_spec t idx), (Z.ltb_spec idx E), (Z.leb_spec (t + m) idx), (Z.ltb_spec idx (t + m)); try done; lia.
Qed.

(** Undoing the construction of some elements. *)
Lemma destroy_constructed_content c N (fuel k k' : nat) p owned ring A h xs zs :
  let t := h + length xs in
  cells c N p owned ring A h (content h (xs ++ zs)) → chained N ring k → (k ≤ k' < length ring)%nat →
  base A k <= t < base A (S k) → base A k' <= t + length zs < base A (S k') → (k' < fuel + k)%nat →
  BLOCK_SIZE * length ring < 2 ^ 62 →
  ∃ p', destroy_constructed fuel (u64 (t + length zs)) (ring !! k') (u64 t) (ring !! k) p = Ok p' ∧
    cells c N p' owned ring A h (content h xs) ∧ mallocs p' = mallocs p.
Proof.
  intros t C Hch Hk Ht HE Hf Hsz.
  destruct (destroy_constructed_ok c N fuel k k' p owned ring A h _ t (t + length zs) C Hch Hk Ht)
    as (p' & Hr & C' & M); try done; [lia| |].
  { intros idx Hidx. unfold content. rewrite (proj2 (Z.leb_le _ _)) by lia. apply lookup_lt_is_Some.
    rewrite length_app. lia. }
  exists p'. split; [done|]. split; [|done]. eapply cells_ext; [|exact C']. intros idx _. unfold cleared, content.
  destruct (Z.leb_spec h idx), (Z.leb_spec t idx), (Z.ltb_spec idx (t + length zs)); simpl; try done; try lia.
  - apply lookup_ge_None_2. lia.
  - rewrite !lookup_ge_None_2; [done|rewrite ?length_app; lia..].
  - by rewrite lookup_app_l by lia.
Qed.

(** ** Taking elements out of one block *)

Lemma with_heap_same (p : pool T) i b : heap p !! i = Some b → with_heap p (<[i := b]> (heap p)) = p.
Proof. intros Hi. unfold with_heap. rewrite insert_id by done. by destruct p. Qed.

Lemma with_heap_twice (p : pool T) i b b' :
  with_heap (with_heap p (<[i := b]> (heap p))) (<[i := b']> (heap (with_heap p (<[i := b]> (heap p))))) =
  with_heap p (<[i := b']> (heap p)).
Proof. unfold with_heap. simpl. by rewrite insert_insert_eq. Qed.

(** What the loops over the slots of a block leave of it. *)
Definition slots_changed (b b' : block T) : Prop := b' = with_elements b (elements b').

Lemma slots_changed_refl b : slots_changed b b.
Proof. by destruct b. Qed.

Lemma slots_changed_trans b es b' : slots_changed (with_elements b es) b' → slots_changed b b'.
Proof. unfold slots_changed. by intros ->. Qed.

Lemma take_slots_ok ys : ∀ throws p i b start h rest (j : nat),
  heap p !! i = Some b → slots_ok b start h (ys ++ rest) → start mod BLOCK_SIZE = 0 → h = start + j →
  j + length ys <= BLOCK_SIZE →
  ∃ (n : nat) b' throws', take_slots (length ys) throws (u64 h) i p =
      Ok (with_heap p (<[i := b']> (heap p)), u64 (h + n), take n ys, throws', bool_decide (n < length ys)%nat) ∧
    (n ≤ length ys)%nat ∧ slots_ok b' start (h + n) (drop n ys ++ rest) ∧ slots_changed b b' ∧
    (throws = [] → n = length ys ∧ throws' = []).
Proof.
  induction ys as [|y ys IH]; intros throws p i b start h rest j Hb Hs Hst Hh Hj; cbn [take_slots length].
  { exists 0%nat, b, throws. rewrite Z.add_0_r, with_heap_same by done.
    split_and!; try done. apply slots_changed_refl. }
  simpl length in Hj. pose proof block_size_pos.
  destruct (destruct_head b start h y (ys ++ rest) j Hs Hst) as (_ & Hel & Hd & Hs'); [lia|done|].
  rewrite (deref_ok _ _ _ Hb), bind_ok, Hel, bind_ok. destruct (hd false throws) eqn:Hth.
  { exists 0%nat, b, throws. rewrite Z.add_0_r, with_heap_same by done.
    split_and!; try done; [lia|apply slots_changed_refl|]. by intros ->. }
  rewrite Hd, bind_ok, (update_ok _ _ _ _ Hb), bind_ok, wrap_add_l.
  set (b1 := with_elements b _) in *. set (p1 := with_heap p _).
  destruct (IH (tail throws) p1 i b1 start (h + 1) rest (S j)) as (n & b' & throws' & -> & Hn & Hs2 & Hch & Hnt);
    [apply lookup_insert_eq|done|done|lia|lia|].
  rewrite bind_ok. exists (S n), b', throws'. unfold p1. rewrite with_heap_twice.
  replace (h + 1 + n) with (h + S n) in * by lia. split_and!.
  - simpl. do 3 f_equal. apply bool_decide_ext. lia.
  - lia.
  - done.
  - by apply (slots_changed_trans b _ b') in Hch.
  - intros ->. destruct (Hnt eq_refl) as [-> ->]. done.
Qed.

Lemma destroy_slots_ok ys : ∀ p i b start h rest (j : nat),
  heap p !! i = Some b → slots_ok b start h (ys ++ rest) → start mod BLOCK_SIZE = 0 → h = start + j →
  j + length ys <= BLOCK_SIZE →
  ∃ b', destroy_slots (length ys) (u64 h) i p = Ok (with_heap p (<[i := b']> (heap p))) ∧
    slots_ok b' start (h + length ys) rest ∧ slots_changed b b'.
Proof.
  induction ys as [|y ys IH]; intros p i b start h rest j Hb Hs Hst Hh Hj; cbn [destroy_slots length].
  { exists b. rewrite Z.add_0_r, with_heap_same by done. split_and!; try done. apply slots_changed_refl. }
  simpl length in Hj. pose proof block_size_pos.
  destruct (destruct_head b start h y (ys ++ rest) j Hs Hst) as (_ & _ & Hd & Hs'); [lia|done|].
  rewrite (deref_ok _ _ _ Hb), bind_ok, Hd, bind_ok, (update_ok _ _ _ _ Hb), bind_ok, wrap_add_l.
  set (b1 := with_elements b _) in *. set (p1 := with_heap p _).
  destruct (IH p1 i b1 start (h + 1) rest (S j)) as (b' & -> & Hs2 & Hch);
    [apply lookup_insert_eq|done|done|lia|lia|].
  exists b'. unfold p1. rewrite with_heap_twice. replace (h + 1 + length ys) with (h + S (length ys)) in * by lia.
  split_and!; [done|done|]. by apply (slots_changed_trans b _ b') in Hch.
Qed.

Lemma other_block_many c (b : block T) start ys : ∀ h rest,
  block_ok c b start h (ys ++ rest) → h + length ys <= start ∨ start + BLOCK_SIZE <= h →
  block_ok c b start (h + length ys) rest.
Proof.
  induction ys as [|y ys IH]; intros h rest Hb Ho; simpl length in *; [by rewrite Z.add_0_r|].
  replace (h + S (length ys)) with (h + 1 + length ys) by lia. apply IH; [|lia].
  apply (other_block _ _ _ _ y); [done|lia].
Qed.

End proofs.
End bulk.
End McBulk.
