(* ===== verification/McExplicit.v ===== *)
(** * [ConcurrentQueue::ExplicitProducer]

    concurrentqueue.h: the sub-queue of one producer token, used by one thread.
    Its blocks form a ring through [Block::next]; a circular index maps the base
    of each block to the block; four counters that wrap at 64 bits say where
    enqueueing and dequeueing stand. *)
From S2P Require Import Prelude BitTricks McDetails McBlock McPool McSlots.
Local Open Scope Z_scope.

Module McExplicit.
Import McDetails McBlock McPool McSlots.

Section producer.
Context `{Traits} {T : Type}.

(** [BlockIndexHeader] with its array of [BlockIndexEntry]; an entry that was
    never written has no value. *)
Record header := Header {
  size : Z;
  front : Z;
  entries : list (option (Z * nat))
}.

(** The fields of [ProducerBase] and [ExplicitProducer].  [blockIndex] is the
    current index, followed by the ones it replaced ([prev]). *)
Record producer := Producer {
  tailIndex : Z;
  headIndex : Z;
  dequeueOptimisticCount : Z;
  dequeueOvercommit : Z;
  tailBlock : option nat;
  blockIndex : list header;
  pr_blockIndexSlotsUsed : Z;
  pr_blockIndexSize : Z;
  pr_blockIndexFront : Z
}.

Definition set_tail (r : producer) (tail : Z) : producer :=
  Producer tail (headIndex r) (dequeueOptimisticCount r) (dequeueOvercommit r) (tailBlock r)
    (blockIndex r) (pr_blockIndexSlotsUsed r) (pr_blockIndexSize r) (pr_blockIndexFront r).
Definition set_block (r : producer) (b : option nat) (used : Z) : producer :=
  Producer (tailIndex r) (headIndex r) (dequeueOptimisticCount r) (dequeueOvercommit r) b
    (blockIndex r) used (pr_blockIndexSize r) (pr_blockIndexFront r).
Definition set_index (r : producer) (hs : list header) (size front : Z) : producer :=
  Producer (tailIndex r) (headIndex r) (dequeueOptimisticCount r) (dequeueOvercommit r) (tailBlock r)
    hs (pr_blockIndexSlotsUsed r) size front.
Definition set_counts (r : producer) (head optimistic overcommit : Z) : producer :=
  Producer (tailIndex r) head optimistic overcommit (tailBlock r)
    (blockIndex r) (pr_blockIndexSlotsUsed r) (pr_blockIndexSize r) (pr_blockIndexFront r).

(** [circular_less_than<index_t>]. *)
(** The copy loop of [new_block_index], from slot [i] up to [stop]; [fuel]
    bounds its turns. *)
Fixpoint copy_entries (fuel : nat) (es : list (option (Z * nat))) (i stop mask : Z) :
    result (list (option (Z * nat))) :=
  match fuel with
  | O => UB
  | S fuel =>
      e ← aread es i;
      let i := Z.land (u64 (i + 1)) mask in
      if i =? stop then Ok [e] else rest ← copy_entries fuel es i stop mask; Ok (e :: rest)
  end.

Definition new_block_index (numberOfFilledSlotsToExpose : Z) (p : pool T) (r : producer) :
    result (pool T * producer * bool) :=
  let prevBlockSizeMask := u64 (pr_blockIndexSize r - 1) in
  let newSize := u64 (Z.shiftl (pr_blockIndexSize r) 1) in
  let '(ok, p) := malloc p in
  if negb ok then Ok (p, r, false)
  else
    copied ← (if pr_blockIndexSlotsUsed r =? 0 then Ok []
              else match blockIndex r with
                   | [] => UB
                   | h :: _ =>
                       copy_entries (S (length (entries h))) (entries h)
                         (Z.land (u64 (pr_blockIndexFront r - pr_blockIndexSlotsUsed r)) prevBlockSizeMask)
                         (pr_blockIndexFront r) prevBlockSizeMask
                   end);
    let h := Header newSize (u64 (numberOfFilledSlotsToExpose - 1))
               (copied ++ replicate (Z.to_nat newSize - length copied) None) in
    Ok (p, set_index r (h :: blockIndex r) newSize (length copied), true).

(** [ExplicitProducer::ExplicitProducer] *)
Definition create (p : pool T) : result (pool T * producer) :=
  let size := Z.shiftr EXPLICIT_INITIAL_INDEX_SIZE 1 in
  let poolBasedIndexSize := Z.shiftr (ceil_to_pow_2 (initialBlockPoolSize p)) 1 in
  let size := if size <? poolBasedIndexSize then poolBasedIndexSize else size in
  '(p, r, _) ← new_block_index 0 p (Producer 0 0 0 0 None [] 0 size 0);
  Ok (p, r).

(** [tailBlock != nullptr && tailBlock->next->is_empty()], with the next block. *)
Definition next_is_empty (p : pool T) (r : producer) : result (option nat) :=
  match tailBlock r with
  | None => Ok None
  | Some tb =>
      b ← deref p tb;
      match next b with
      | None => UB
      | Some nx =>
          bn ← deref p nx;
          e ← is_empty explicit_context bn;
          Ok (if e : bool then Some nx else None)
      end
  end.

(** The block index has room, or is replaced by a larger one. *)
Definition ensure_index (canAlloc : bool) (p : pool T) (r : producer) :
    result (pool T * producer * bool) :=
  if bool_decide (blockIndex r = []) || (pr_blockIndexSlotsUsed r =? pr_blockIndexSize r)
  then if canAlloc then new_block_index (pr_blockIndexSlotsUsed r) p r else Ok (p, r, false)
  else Ok (p, r, true).

(** The new block goes between the tail block and the one after it. *)
Definition link_block (nb : nat) (p : pool T) (r : producer) : result (pool T) :=
  match tailBlock r with
  | None => update p nb (λ b, with_next b (Some nb))
  | Some tb =>
      b ← deref p tb;
      p ← update p nb (λ b', with_next b' (next b));
      update p tb (λ b', with_next b' (Some nb))
  end.

Definition insert_block (nb : nat) (p : pool T) (r : producer) : result (pool T * producer) :=
  p ← update p nb (reset_empty explicit_context);
  p ← link_block nb p r;
  Ok (p, set_block r (Some nb) (u64 (pr_blockIndexSlotsUsed r + 1))).

(** The next block: the one ahead if it is empty, else a new one. *)
Definition start_block (canAlloc : bool) (p : pool T) (r : producer) :
    result (pool T * producer * bool) :=
  ahead ← next_is_empty p r;
  match ahead with
  | Some nx =>
      p ← update p nx (reset_empty explicit_context);
      Ok (p, set_block r (Some nx) (pr_blockIndexSlotsUsed r), true)
  | None =>
      let head := headIndex r in
      assert_ NDEBUG (negb (clt (tailIndex r) head));;
      if too_full (tailIndex r) head then Ok (p, r, false)
      else
        '(p, r, ok) ← ensure_index canAlloc p r;
        if negb ok then Ok (p, r, false)
        else
          '(p, o) ← requisition_block canAlloc p;
          match o with
          | None => Ok (p, r, false)
          | Some nb => '(p, r) ← insert_block nb p r; Ok (p, r, true)
          end
  end.

(** The tail block goes into the index, which is published. *)
Definition add_to_index (r : producer) : result producer :=
  match blockIndex r, tailBlock r with
  | h :: hs, Some tb =>
      es ← awrite (entries h) (pr_blockIndexFront r) (Some (tailIndex r, tb));
      Ok (set_index r (Header (size h) (pr_blockIndexFront r) es :: hs) (pr_blockIndexSize r)
            (Z.land (u64 (pr_blockIndexFront r + 1)) (u64 (pr_blockIndexSize r - 1))))
  | _, _ => UB
  end.

(** The element is constructed in its slot and published. *)
Definition put_element (x : T) (p : pool T) (r : producer) : result (pool T * producer) :=
  match tailBlock r with
  | None => UB
  | Some tb =>
      b ← deref p tb;
      b ← construct b (tailIndex r) x;
      p ← update p tb (λ _, b);
      Ok (p, set_tail r (u64 (1 + tailIndex r)))
  end.

Inductive enqueued := Returned (b : bool) | Threw.

(** [enqueue]; [noexcept_ctor] is the compile-time test of the element type,
    [throws] what the constructor does this time. *)
Definition enqueue (noexcept_ctor canAlloc throws : bool) (x : T) (p : pool T) (r : producer) :
    result (pool T * producer * enqueued) :=
  if slot (tailIndex r) =? 0
  then
    let startBlock := tailBlock r in
    let originalBlockIndexSlotsUsed := pr_blockIndexSlotsUsed r in
    '(p, r, ok) ← start_block canAlloc p r;
    if negb ok then Ok (p, r, Returned false)
    else if negb noexcept_ctor && throws
    then Ok (p, set_block r (match startBlock with None => tailBlock r | _ => startBlock end)
                  originalBlockIndexSlotsUsed, Threw)
    else
      r ← add_to_index r;
      '(p, r) ← put_element x p r;
      Ok (p, r, Returned true)
  else if negb noexcept_ctor && throws then Ok (p, r, Threw)
  else '(p, r) ← put_element x p r; Ok (p, r, Returned true).

(** The block of an index, through the current block index.  The quotient is
    unsigned, as [BLOCK_SIZE] is. *)
Definition block_of (r : producer) (index : Z) : result nat :=
  match blockIndex r with
  | [] => UB
  | h :: _ =>
      e ← aread (entries h) (front h);
      match e with
      | None => UB
      | Some (headBase, _) =>
          let blockBaseIndex := Z.ldiff index (BLOCK_SIZE - 1) in
          let offset := u64 (blockBaseIndex - headBase) / BLOCK_SIZE in
          e ← aread (entries h) (Z.land (u64 (front h + offset)) (size h - 1));
          match e with Some (_, b) => Ok b | None => UB end
      end
  end.

Inductive dequeued := Got (x : T) | Nothing | Lost.

(** [dequeue]; when the assignment to the result throws, the element is
    destroyed all the same and the exception goes on. *)
Definition dequeue (assign_throws : bool) (p : pool T) (r : producer) :
    result (pool T * producer * dequeued) :=
  let tail := tailIndex r in
  let overcommit := dequeueOvercommit r in
  if clt (u64 (dequeueOptimisticCount r - overcommit)) tail
  then
    let myDequeueCount := dequeueOptimisticCount r in
    let r := set_counts r (headIndex r) (u64 (dequeueOptimisticCount r + 1)) overcommit in
    if clt (u64 (myDequeueCount - overcommit)) (tailIndex r)
    then
      let index := headIndex r in
      let r := set_counts r (u64 (headIndex r + 1)) (dequeueOptimisticCount r) overcommit in
      i ← block_of r index;
      b ← deref p i;
      x ← element b index;
      b ← destruct_at b index;
      '(b, _) ← set_empty explicit_context index b;
      p ← update p i (λ _, b);
      Ok (p, r, if assign_throws : bool then Lost else Got x)
    else Ok (p, set_counts r (headIndex r) (dequeueOptimisticCount r) (u64 (overcommit + 1)), Nothing)
  else Ok (p, r, Nothing).

(** [ProducerBase::size_approx] *)
Definition size_approx (r : producer) : Z :=
  if clt (headIndex r) (tailIndex r) then u64 (tailIndex r - headIndex r) else 0.

(** ** The ring of blocks and the elements in it

    The counters are those of an unbounded queue, [h] elements dequeued and [t]
    enqueued, reduced to 64 bits.  The blocks of the ring, oldest first, cover
    consecutive ranges of indices from [A]. *)

Definition successor (ring : list nat) (k : nat) : option nat :=
  ring !! (if decide (S k = length ring) then 0 else S k)%nat.

(** The blocks of the other producers. *)
Definition others (owned : gset nat) (ring : list nat) : gset nat := owned ∖ list_to_set ring.

Record blocks_ok (p : pool T) (r : producer) (owned : gset nat) (ring : list nat) (A t h : Z)
    (xs : list T) : Prop := {
  bo_pool : pool_ok p owned;
  bo_owned i : i ∈ ring → i ∈ owned;
  bo_nodup : NoDup ring;
  bo_tail_block : tailBlock r = last ring;
  bo_tail : tailIndex r = u64 t;
  bo_head : headIndex r = u64 h;
  bo_counts : u64 (dequeueOptimisticCount r - dequeueOvercommit r) = u64 h;
  bo_length : Z.of_nat (length xs) = t - h;
  bo_aligned : A mod BLOCK_SIZE = 0;
  bo_bounds : A <= h <= t ∧ base A (length ring) - BLOCK_SIZE <= t <= base A (length ring);
  bo_size : BLOCK_SIZE * length ring < 2 ^ 62;
  bo_blocks k i : ring !! k = Some i →
    ∃ b, heap p !! i = Some b ∧ next b = successor ring k ∧ block_ok explicit_context b (base A k) h xs
}.

(** The index has the entries of the first [n] blocks of the ring. *)
Record index_for (r : producer) (ring : list nat) (n : nat) (A : Z) : Prop := {
  ix_used : pr_blockIndexSlotsUsed r = length ring;
  ix_size : ∃ m, 0 <= m ∧ pr_blockIndexSize r = 2 ^ m;
  ix_memory : pr_blockIndexSize r * BLOCK_SIZE <= 2 ^ 63;
  ix_room : Z.of_nat (length ring) <= pr_blockIndexSize r;
  ix_front : 0 <= pr_blockIndexFront r < pr_blockIndexSize r;
  ix_current :
    match blockIndex r with
    | [] => ring = []
    | hd :: _ =>
        size hd = pr_blockIndexSize r ∧
        Z.of_nat (length (entries hd)) = pr_blockIndexSize r ∧
        ∀ k i, (k < n)%nat → ring !! k = Some i →
          entries hd !! Z.to_nat ((pr_blockIndexFront r - n + k) mod pr_blockIndexSize r) =
          Some (Some (u64 (base A k), i))
    end
}.

Definition front_ok (r : producer) : Prop :=
  match blockIndex r with
  | [] => True
  | hd :: _ => front hd = (pr_blockIndexFront r - 1) mod pr_blockIndexSize r
  end.

(** The queue of [xs] between two calls. *)
Record repr (p : pool T) (r : producer) (owned : gset nat) (ring : list nat) (A t h : Z)
    (xs : list T) : Prop := {
  rp_blocks : blocks_ok p r owned ring A t h xs;
  rp_index : index_for r ring (length ring) A;
  rp_front : ring ≠ [] → front_ok r;
  rp_started : base A (length ring) - BLOCK_SIZE < t;
  rp_unindexed : blockIndex r = [] →
    pr_blockIndexFront r = 0 ∧ pr_blockIndexSize r * BLOCK_SIZE <= 2 ^ 62
}.

Section proofs.
Context `{!TraitsOk}.

Lemma next_is_empty_ok p r owned ring A t h xs :
  blocks_ok p r owned ring A t h xs →
  next_is_empty p r = Ok (match ring with
    | [] => None
    | i :: _ => if decide (A + BLOCK_SIZE <= h) then Some i else None
    end).
Proof.
  intros I. unfold next_is_empty. rewrite (bo_tail_block _ _ _ _ _ _ _ _ I).
  destruct ring as [|i0 ring']; [done|]. set (ring := i0 :: ring') in *.
  destruct (last ring) as [tb|] eqn:Htb; [|by apply last_None in Htb].
  apply last_at in Htb. destruct (bo_blocks _ _ _ _ _ _ _ _ I _ _ Htb) as (b & Hb & Hn & _).
  rewrite (deref_ok _ _ _ Hb), bind_ok, Hn. unfold successor.
  rewrite decide_True by (simpl; lia). change (ring !! 0%nat) with (Some i0).
  destruct (bo_blocks _ _ _ _ _ _ _ _ I 0%nat i0 eq_refl) as (b0 & Hb0 & _ & Hk).
  rewrite (deref_ok _ _ _ Hb0), bind_ok, (block_full _ _ _ _ _ Hk), bind_ok.
  replace (base A 0 + BLOCK_SIZE) with (A + BLOCK_SIZE) by (unfold base; lia).
  unfold ring. destruct (decide (A + BLOCK_SIZE <= h)).
  - by rewrite bool_decide_eq_true_2.
  - by rewrite bool_decide_eq_false_2.
Qed.

(** Reading the heap where another block was written. *)
Lemma blocks_frame p r owned ring A t h xs k i j b :
  blocks_ok p r owned ring A t h xs → ring !! k = Some i → i ≠ j →
  <[j := b]> (heap p) !! i = heap p !! i.
Proof. intros _ _ Hne. by rewrite lookup_insert_ne. Qed.

(** ** Changing one block of the ring *)

Definition ring_blocks (hp : gmap nat (block T)) (ring : list nat) (A h : Z) (xs : list T) : Prop :=
  ∀ k i, ring !! k = Some i →
    ∃ b, hp !! i = Some b ∧ next b = successor ring k ∧ block_ok explicit_context b (base A k) h xs.

Lemma ring_insert hp ring A h xs h' xs' k i b' :
  ring_blocks hp ring A h xs → NoDup ring → ring !! k = Some i →
  next b' = successor ring k → block_ok explicit_context b' (base A k) h' xs' →
  (∀ k' b, k' ≠ k → (k' < length ring)%nat → block_ok explicit_context b (base A k') h xs →
     block_ok explicit_context b (base A k') h' xs') →
  ring_blocks (<[i := b']> hp) ring A h' xs'.
Proof.
  intros Hr Hnd Hk Hn Hb Hoth k' i' Hk'. destruct (decide (k' = k)) as [->|Hne].
  - assert (i' = i) as -> by congruence. exists b'. by rewrite lookup_insert_eq.
  - destruct (Hr _ _ Hk') as (b & Hb' & Hn' & Hok). exists b. rewrite lookup_insert_ne.
    + split_and!; [done..|]. apply Hoth; [done| |done]. by eapply lookup_lt_Some.
    + intros ->. apply Hne. by eapply NoDup_lookup.
Qed.

Lemma put_element_ok p r owned ring A t h xs x :
  blocks_ok p r owned ring A t h xs → ring ≠ [] → t < base A (length ring) →
  ∃ p', put_element x p r = Ok (p', set_tail r (u64 (1 + tailIndex r))) ∧
    blocks_ok p' (set_tail r (u64 (1 + tailIndex r))) owned ring A (t + 1) h (xs ++ [x]).
Proof.
  intros I Hne Ht. pose proof block_size_pos. destruct I as [I1 I2 I3 I4 I5 I6 I7 I8 I9 I10 I11 I12].
  destruct (last ring) as [tb|] eqn:Htb; [|by apply last_None in Htb].
  apply last_at in Htb as Hk. set (k := (length ring - 1)%nat) in *.
  assert (Hu : (0 < length ring)%nat) by (destruct ring; simpl; [done|lia]).
  assert (∃ j : nat, 0 <= j < BLOCK_SIZE ∧ t = base A k + j) as (j & Hj & ->).
  { exists (Z.to_nat (t - base A k)). unfold base, k in *. nia. }
  destruct (I12 k tb Hk) as (b & Hb & Hn & Hok).
  destruct (fill_element explicit_context b (base A k) h x xs j Hok) as (b' & Hb' & Hok' & Hn' & Hr');
    [by apply base_aligned|lia|lia|].
  unfold put_element. rewrite I4, (deref_ok _ _ _ Hb), bind_ok, I5, Hb', bind_ok, (update_ok _ _ _ _ Hb), bind_ok.
  eexists. split; [reflexivity|]. constructor; simpl; try done.
  - apply (update_owned p owned tb b (λ _, b')); try done. by apply I2, list_elem_of_lookup_2 with k.
  - congruence.
  - rewrite wrap_add_r. f_equal. lia.
  - rewrite length_app. simpl. lia.
  - lia.
  - apply (ring_insert _ _ _ h xs _ _ k); try done; [congruence|].
    intros k' c Hk' Hlt [C1 C2 C3]. constructor; [done| |done].
    intros j' Hj'. rewrite C2 by done. f_equal. symmetry. apply content_snoc.
    intros He. destruct (base_inj A k' j' k j); [lia..|done].
Qed.

(** ** The block index *)

Lemma size_bounds r ring n A :
  index_for r ring n A → 1 <= pr_blockIndexSize r <= 2 ^ 62.
Proof.
  intros [_ (m & Hm & Hs) Hmem _ _ _]. pose proof block_size_pos.
  assert (1 <= 2 ^ m) by (pose proof (Z.pow_pos_nonneg 2 m); lia). rewrite Hs in *. nia.
Qed.

Lemma pos_inj s f n k1 k2 :
  0 < s → (k1 : nat) < s → (k2 : nat) < s →
  Z.to_nat ((f - n + k1) mod s) = Z.to_nat ((f - n + k2) mod s) → k1 = k2.
Proof.
  intros Hs H1 H2 He.
  pose proof (Z.mod_pos_bound (f - n + k1) s Hs). pose proof (Z.mod_pos_bound (f - n + k2) s Hs).
  apply (mod_inj s (f - n)); lia.
Qed.

Lemma index_set_block r ring n A b used :
  index_for r ring n A → used = pr_blockIndexSlotsUsed r → index_for (set_block r b used) ring n A.
Proof. intros [I1 I2 I3 I4 I5 I6] ->. by constructor. Qed.

(** The oldest block becomes the newest; its entry is to be written. *)
Lemma index_rotate r i rest A :
  index_for r (i :: rest) (length (i :: rest)) A →
  index_for r (rest ++ [i]) (length rest) (A + BLOCK_SIZE).
Proof.
  intros [X1 X2 X3 X4 X5 X6].
  assert (Hlen : length (rest ++ [i]) = length (i :: rest)) by (rewrite length_app; simpl; lia).
  constructor; rewrite ?Hlen; try done. destruct (blockIndex r) as [|hd hs]; [done|]. destruct X6 as (X6 & X7 & X8).
  split_and!; [done..|]. intros k j Hk Hj. simpl length in *.
  rewrite lookup_app_l in Hj by lia. replace (base (A + BLOCK_SIZE) k) with (base A (S k)) by (unfold base; lia).
  replace (pr_blockIndexFront r - length rest + k) with
    (pr_blockIndexFront r - S (length rest) + S k) by lia. apply X8; [lia|done].
Qed.

(** A new block; its entry is to be written. *)
Lemma index_snoc r ring A b nb :
  index_for r ring (length ring) A → blockIndex r ≠ [] → Z.of_nat (length ring) < pr_blockIndexSize r →
  index_for (set_block r b (u64 (pr_blockIndexSlotsUsed r + 1))) (ring ++ [nb]) (length ring) A.
Proof.
  intros X Hp Hroom. pose proof (size_bounds _ _ _ _ X). destruct X as [X1 X2 X3 X4 X5 X6].
  assert (Hlen : length (ring ++ [nb]) = S (length ring)) by (rewrite length_app; simpl; lia).
  constructor; simpl; try done; rewrite ?Hlen.
  - rewrite X1. rewrite wrap_small; [lia|]. unfold fits. lia.
  - lia.
  - destruct (blockIndex r) as [|hd hs]; [done|]. destruct X6 as (X6 & X7 & X8).
    split_and!; [done..|]. intros k i Hk Hi. rewrite lookup_app_l in Hi by lia. by apply X8.
Qed.

(** The entry of the newest block is written; [fr] is what is published. *)
Lemma write_entry r ring A tb (hd : header) hs fr :
  index_for r ring (length ring - 1) A → blockIndex r = hd :: hs →
  ring !! (length ring - 1)%nat = Some tb →
  ∃ es f, awrite (entries hd) (pr_blockIndexFront r) (Some (u64 (base A (length ring - 1)), tb)) = Ok es ∧
    Z.land (u64 (pr_blockIndexFront r + 1)) (u64 (pr_blockIndexSize r - 1)) = f ∧
    index_for (set_index r (Header (size hd) fr es :: hs) (pr_blockIndexSize r) f) ring (length ring) A ∧
    (f - 1) mod pr_blockIndexSize r = pr_blockIndexFront r.
Proof.
  intros I Hb Htb. pose proof (size_bounds _ _ _ _ I) as Hs.
  destruct I as [I1 (m & Hm & I2) I3 I4 I5 I6]. rewrite Hb in I6. destruct I6 as (I6 & I7 & I8).
  pose proof (lookup_lt_Some _ _ _ Htb) as Hu.
  assert (∃ f : nat, pr_blockIndexFront r = f) as [f Hf] by (exists (Z.to_nat (pr_blockIndexFront r)); lia).
  rewrite Hf in *. rewrite awrite_ok by lia. do 2 eexists. split; [reflexivity|]. split; [reflexivity|].
  rewrite (wrap_small 64 (f + 1)), (wrap_small 64 (pr_blockIndexSize r - 1)) by (unfold fits; lia).
  rewrite (land_size (pr_blockIndexSize r) m) by done. split; [|].
  - constructor; simpl; try done; [by exists m|by apply Z.mod_pos_bound; lia|].
    rewrite length_insert. split_and!; [done..|]. intros k i Hk Hi.
    replace (((f + 1) mod pr_blockIndexSize r - length ring + k)
               mod pr_blockIndexSize r) with
      ((f - (length ring - 1)%nat + k) mod pr_blockIndexSize r).
    2:{ replace ((f + 1) mod pr_blockIndexSize r - length ring + k) with
          ((f + 1) mod pr_blockIndexSize r + (k - length ring)) by lia.
        rewrite Zplus_mod_idemp_l. f_equal. lia. }
    destruct (decide (k = length ring - 1)%nat) as [->|Hne].
    + assert (i = tb) as -> by congruence.
      replace (f - (length ring - 1)%nat + (length ring - 1)%nat)
        with (Z.of_nat f) by lia.
      rewrite Z.mod_small, Nat2Z.id by lia. by rewrite list_lookup_insert_eq by lia.
    + rewrite list_lookup_insert_ne.
      * apply I8; [lia|done].
      * intros He. apply Hne.
        apply (pos_inj (pr_blockIndexSize r) (f) (length ring - 1)%nat);
          [lia..|]. rewrite <- He. f_equal.
        replace (f - (length ring - 1)%nat + (length ring - 1)%nat)
          with (Z.of_nat f) by lia. rewrite Z.mod_small; lia.
  - rewrite Zminus_mod_idemp_l, Z.add_simpl_r. by rewrite Z.mod_small by lia.
Qed.

Lemma add_to_index_ok r ring A tb (hd : header) hs :
  index_for r ring (length ring - 1) A → blockIndex r = hd :: hs →
  ring !! (length ring - 1)%nat = Some tb → tailBlock r = Some tb →
  tailIndex r = u64 (base A (length ring - 1)) →
  ∃ es f, add_to_index r =
      Ok (set_index r (Header (size hd) (pr_blockIndexFront r) es :: hs) (pr_blockIndexSize r) f) ∧
    index_for (set_index r (Header (size hd) (pr_blockIndexFront r) es :: hs) (pr_blockIndexSize r) f)
      ring (length ring) A ∧
    front_ok (set_index r (Header (size hd) (pr_blockIndexFront r) es :: hs) (pr_blockIndexSize r) f).
Proof.
  intros I Hb Htb Ht Hti.
  destruct (write_entry r ring A tb hd hs (pr_blockIndexFront r) I Hb Htb) as (es & f & He & Hf & X & Hm).
  unfold add_to_index. rewrite Hb, Ht, Hti, He, Hf, bind_ok. exists es, f. split; [reflexivity|].
  split; [done|]. unfold front_ok. simpl. congruence.
Qed.

(** The position of the entry of an index, computed from the entry at the front. *)
Lemma locate_entry r ring A (k : nat) (j : Z) (hd : header) hs :
  index_for r ring (length ring) A → front_ok r → blockIndex r = hd :: hs → A mod BLOCK_SIZE = 0 →
  BLOCK_SIZE * length ring < 2 ^ 62 → (k < length ring)%nat → 0 <= j < BLOCK_SIZE →
  (∃ il, aread (entries hd) (front hd) = Ok (Some (u64 (base A (length ring - 1)), il))) ∧
  Z.land (u64 (front hd + u64 (Z.ldiff (u64 (base A k + j)) (BLOCK_SIZE - 1) -
                                 u64 (base A (length ring - 1))) / BLOCK_SIZE)) (size hd - 1) =
  (pr_blockIndexFront r - length ring + k) mod pr_blockIndexSize r.
Proof.
  intros I Hf Hbi HA Hb Hk Hj. pose proof (size_bounds _ _ _ _ I) as Hs. pose proof block_size_pos.
  destruct I as [I1 (m & Hm & I2) I3 I4 I5 I6]. unfold front_ok in Hf. rewrite Hbi in Hf, I6.
  destruct I6 as (I6 & I7 & I8). rewrite Hf. set (s := pr_blockIndexSize r) in *.
  set (f := pr_blockIndexFront r) in *. pose proof (Z.mod_pos_bound (f - 1) s ltac:(lia)) as Hf1.
  assert (∃ il, ring !! (length ring - 1)%nat = Some il) as [il Hil].
  { apply lookup_lt_is_Some. lia. }
  split.
  { exists il. pose proof (I8 (length ring - 1)%nat il ltac:(lia) Hil) as E1.
    replace (f - length ring + (length ring - 1)%nat) with (f - 1) in E1 by lia.
    by rewrite <- (Z2Nat.id ((f - 1) mod s)), (aread_ok _ _ _ E1) by lia. }
  rewrite block_base, slot_wrap, base_slot by done.
  replace (u64 (u64 (base A k + j) - j - u64 (base A (length ring - 1)))) with
    (u64 (- (BLOCK_SIZE * (length ring - 1 - k)%nat))).
  2:{ autorewrite with wrap. unfold base. rewrite <- Z.sub_add_distr. autorewrite with wrap.
      rewrite !Nat2Z.inj_sub by lia. f_equal. lia. }
  assert (Hm64 : 0 <= m <= 64).
  { split; [done|]. apply (Z.pow_le_mono_r_iff 2); [lia..|]. rewrite <- I2. lia. }
  rewrite I6. fold s. rewrite (land_size s m) by done.
  rewrite (wrap_mod_size s m), (offset_mod s m) by (done || lia || nia).
  rewrite Zminus_mod_idemp_l. f_equal. lia.
Qed.

Lemma entry_at r ring A (k : nat) i (hd : header) hs :
  index_for r ring (length ring) A → blockIndex r = hd :: hs → ring !! k = Some i →
  aread (entries hd) ((pr_blockIndexFront r - length ring + k) mod pr_blockIndexSize r) =
    Ok (Some (u64 (base A k), i)).
Proof.
  intros I Hbi Hi. pose proof (size_bounds _ _ _ _ I). pose proof (lookup_lt_Some _ _ _ Hi).
  destruct I as [_ _ _ _ _ I6]. rewrite Hbi in I6. destruct I6 as (_ & _ & I8).
  pose proof (Z.mod_pos_bound (pr_blockIndexFront r - length ring + k) (pr_blockIndexSize r) ltac:(lia)) as [Hp _].
  by apply (aread_Z _ _ _ Hp), I8.
Qed.

Lemma block_of_ok r ring A k i (j : Z) :
  index_for r ring (length ring) A → front_ok r → A mod BLOCK_SIZE = 0 →
  BLOCK_SIZE * length ring < 2 ^ 62 → ring !! k = Some i → 0 <= j < BLOCK_SIZE →
  block_of r (u64 (base A k + j)) = Ok i.
Proof.
  intros I Hf HA Hb Hi Hj. pose proof (lookup_lt_Some _ _ _ Hi) as Hk. unfold block_of.
  destruct (blockIndex r) as [|hd hs] eqn:Hbi.
  { pose proof (ix_current _ _ _ _ I) as C. rewrite Hbi in C. by subst. }
  destruct (locate_entry r ring A k j hd hs) as [[il ->] Hpos]; try done. rewrite bind_ok, Hpos.
  by rewrite (entry_at _ _ _ _ _ _ _ I Hbi Hi).
Qed.

Lemma copy_entries_ok s m es f : ∀ (n fuel : nat),
  0 <= m → s = 2 ^ m → s <= 2 ^ 62 → Z.of_nat (length es) = s → 0 <= f < s →
  (0 < n)%nat → Z.of_nat n <= s → (n < fuel)%nat →
  ∃ l, copy_entries fuel es ((f - n) mod s) f (s - 1) = Ok l ∧ length l = n ∧
    ∀ k, (k < n)%nat → l !! k = es !! Z.to_nat ((f - n + k) mod s).
Proof.
  induction n as [|n IH]; intros fuel Hm Hs Hs62 Hlen Hf Hn Hns Hfuel; [lia|].
  destruct fuel as [|fuel]; [lia|]. cbn [copy_entries].
  pose proof (Z.mod_pos_bound (f - S n) s ltac:(lia)) as Hi.
  destruct (lookup_lt_is_Some_2 es (Z.to_nat ((f - S n) mod s)) ltac:(lia)) as [e He].
  rewrite (aread_Z _ _ _ (proj1 Hi) He), bind_ok.
  rewrite (wrap_small 64 ((f - S n) mod s + 1)) by (unfold fits; lia).
  rewrite (land_size s m), Zplus_mod_idemp_l by done.
  replace (f - S n + 1) with (f - n) by lia.
  destruct (decide (n = 0%nat)) as [->|Hn0].
  - rewrite Z.sub_0_r, (Z.mod_small f) by lia. rewrite Z.eqb_refl. exists [e].
    split_and!; [done|done|]. intros [|k] Hk; [|lia]. rewrite Z.add_0_r. by rewrite He.
  - rewrite (proj2 (Z.eqb_neq _ _)).
    2:{ intros Heq. assert ((f - n - f) mod s = 0) as Hd.
        { rewrite Zminus_mod, Heq. rewrite (Z.mod_small f) by lia. by rewrite Z.sub_diag, Z.mod_0_l by lia. }
        apply Z.mod_divide in Hd as [q Hq]; [|lia].
        assert (Hb : 0 < n < s) by lia. clear - Hq Hb. destruct (Z.le_gt_cases 0 q); nia. }
    destruct (IH fuel) as (l & -> & Hl & Hlk); [done|done|done|done|done|lia..|].
    rewrite bind_ok. exists (e :: l). split_and!; [done|simpl; lia|].
    intros [|k] Hk; simpl; [by rewrite Z.add_0_r, He|]. rewrite Hlk by lia. do 3 f_equal. lia.
Qed.

Lemma new_block_index_ok expose p r ring A :
  index_for r ring (length ring) A → pr_blockIndexSize r * BLOCK_SIZE <= 2 ^ 62 →
  (blockIndex r = [] → pr_blockIndexFront r = 0) →
  (new_block_index expose p r = Ok ((malloc p).2, r, false) ∧
   hd true (mallocs p) = false) ∨
  ∃ hd, new_block_index expose p r =
      Ok ((malloc p).2,
          set_index r (hd :: blockIndex r) (2 * pr_blockIndexSize r) (length ring), true) ∧
    index_for (set_index r (hd :: blockIndex r) (2 * pr_blockIndexSize r) (length ring))
      ring (length ring) A ∧
    (expose = length ring → ring ≠ [] →
     front_ok (set_index r (hd :: blockIndex r) (2 * pr_blockIndexSize r) (length ring))).
Proof.
  intros I Hmem Hfront0. pose proof (size_bounds _ _ _ _ I) as Hs. pose proof block_size_pos.
  destruct I as [I1 (m & Hm & I2) I3 I4 I5 I6]. unfold new_block_index, malloc.
  destruct (hd true (mallocs p)); [right|by left]. cbn [negb snd].
  assert (u64 (Z.shiftl (pr_blockIndexSize r) 1) = 2 * pr_blockIndexSize r) as ->.
  { rewrite Z.shiftl_mul_pow2 by lia. rewrite wrap_small; [lia|unfold fits; lia]. }
  rewrite (wrap_small 64 (pr_blockIndexSize r - 1)) by (unfold fits; lia). rewrite I1.
  assert (∃ copied,
    (if Z.of_nat (length ring) =? 0 then Ok []
     else match blockIndex r with
          | [] => UB
          | h :: _ => copy_entries (S (length (entries h))) (entries h)
              (Z.land (u64 (pr_blockIndexFront r - length ring)) (pr_blockIndexSize r - 1))
              (pr_blockIndexFront r) (pr_blockIndexSize r - 1)
          end) = Ok copied ∧ length copied = length ring ∧
    ∀ k i, (k < length ring)%nat → ring !! k = Some i →
      copied !! k = Some (Some (u64 (base A k), i))) as (copied & -> & Hlen & Hcop).
  { destruct (Z.eqb_spec (length ring) 0) as [Hz|Hz].
    { exists []. split_and!; [done|simpl; lia|]. intros k i Hk. lia. }
    destruct (blockIndex r) as [|h hs]; [by subst|]. destruct I6 as (I6 & I7 & I8).
    rewrite (land_size (pr_blockIndexSize r) m) by done.
    rewrite (wrap_mod_size (pr_blockIndexSize r) m) by
      (done || (split; [lia|]; apply (Z.pow_le_mono_r_iff 2); lia)).
    destruct (copy_entries_ok (pr_blockIndexSize r) m (entries h) (pr_blockIndexFront r)
      (length ring) (S (length (entries h)))) as (l & -> & Hl & Hlk); [done|done|lia|done|done|lia|done|lia|].
    exists l. split_and!; [done|done|]. intros k i Hk Hi. rewrite Hlk by done. by apply I8. }
  rewrite bind_ok, Hlen. eexists. split; [reflexivity|]. split.
  - constructor; simpl; try done; try lia.
    + exists (m + 1). split; [lia|]. rewrite I2, Z.pow_add_r by lia. lia.
    + rewrite length_app, length_replicate. split_and!; [done|lia|].
      intros k i Hk Hi. rewrite Z.sub_diag, Z.add_0_l, Z.mod_small by lia.
      rewrite Nat2Z.id, lookup_app_l by lia. by apply Hcop.
  - intros -> Hne. unfold front_ok. simpl. destruct ring as [|i0 ring]; [done|]. simpl length in *.
    rewrite Z.mod_small by lia. apply wrap_small. unfold fits. lia.
Qed.

(** ** Starting a block *)

(** The tail stands at the start of the newest block, which the index lacks. *)
Record opened (p : pool T) (r : producer) (owned : gset nat) (ring : list nat) (A t h : Z)
    (xs : list T) : Prop := {
  op_blocks : blocks_ok p r owned ring A t h xs;
  op_start : t = base A (length ring - 1);
  op_ring : ring ≠ [];
  op_index : index_for r ring (length ring - 1) A;
  op_present : blockIndex r ≠ []
}.

Lemma boundary p r owned ring A t h xs :
  repr p r owned ring A t h xs → (slot (tailIndex r) =? 0) = bool_decide (t = base A (length ring)).
Proof.
  intros [I _ _ Hs _]. destruct (bo_bounds _ _ _ _ _ _ _ _ I) as [_ Hb].
  pose proof (bo_aligned _ _ _ _ _ _ _ _ I) as HA. pose proof block_size_pos.
  rewrite (bo_tail _ _ _ _ _ _ _ _ I), slot_wrap. apply eq_true_iff_eq.
  rewrite Z.eqb_eq, bool_decide_eq_true. split.
  - intros Hz. rewrite slot_mod in Hz. unfold base in *.
    apply Z.mod_divide in Hz as [q Hq]; [|lia]. apply Z.mod_divide in HA as [a Ha]; [|lia].
    subst A t. assert (q = a + length ring) by nia. nia.
  - intros ->. rewrite <- (Z.add_0_r (base A (length ring))). by apply base_slot; [|lia].
Qed.

Lemma rotate_successor i (rest : list nat) k :
  (k < length rest)%nat → successor (rest ++ [i]) k = successor (i :: rest) (S k).
Proof.
  intros Hk. unfold successor. rewrite length_app. simpl length.
  rewrite decide_False by lia. case_decide as Hl.
  - rewrite lookup_app_r by lia. by replace (S k - length rest)%nat with 0%nat by lia.
  - simpl. rewrite lookup_app_l; [done|lia].
Qed.

Lemma rotate_successor_last i (rest : list nat) :
  successor (rest ++ [i]) (length rest) = successor (i :: rest) 0.
Proof.
  unfold successor. rewrite length_app, decide_True by (simpl; lia). by destruct rest.
Qed.

Lemma reuse_block_ok p r owned i rest A t h xs :
  repr p r owned (i :: rest) A t h xs → t = base A (length (i :: rest)) → A + BLOCK_SIZE <= h →
  ∃ p', update p i (reset_empty explicit_context) = Ok p' ∧
    opened p' (set_block r (Some i) (pr_blockIndexSlotsUsed r)) owned (rest ++ [i])
      (A + BLOCK_SIZE) t h xs.
Proof.
  intros [I X _ Hs _] Ht Hh. pose proof block_size_pos.
  pose proof (bo_blocks _ _ _ _ _ _ _ _ I 0%nat i eq_refl) as (b & Hb & Hn & [K1 K2 K3]).
  destruct (reset_fields explicit_context b) as (F1 & F2 & F3).
  rewrite (update_ok _ _ _ _ Hb). eexists. split; [reflexivity|].
  destruct I as [I1 I2 I3 I4 I5 I6 I7 I8 I9 I10 I11 I12].
  assert (Hbase : ∀ k, base (A + BLOCK_SIZE) k = base A (S k)) by (intros; unfold base; lia).
  assert (Hlen : length (rest ++ [i]) = length (i :: rest)) by (rewrite length_app; simpl; lia).
  constructor; [|rewrite Hlen, Hbase; subst t; f_equal; simpl; lia|by destruct rest| |].
  - constructor; simpl; try done.
    + apply update_owned; [done|apply I2; left|done|done].
    + intros j Hj. apply I2. rewrite elem_of_app, list_elem_of_singleton in Hj.
      apply elem_of_cons. tauto.
    + rewrite Permutation_app_comm. done.
    + by rewrite last_snoc.
    + rewrite Z.add_mod, I9, Z.mod_same by lia. by rewrite Z.mod_0_l by lia.
    + rewrite Hlen, Hbase. subst t. unfold base in *. lia.
    + rewrite Hlen. done.
    + intros k j Hk. destruct (decide (k < length rest)%nat) as [Hlt|Hge].
      * rewrite lookup_app_l in Hk by done. destruct (I12 (S k) j Hk) as (bj & Hbj & Hnj & Hok).
        assert (i ≠ j).
        { intros ->. apply NoDup_cons in I3 as [Hi _]. apply Hi. by eapply list_elem_of_lookup_2. }
        exists bj. rewrite lookup_insert_ne, rotate_successor, Hbase by done. by split_and!.
      * rewrite lookup_app_r in Hk by lia. apply list_lookup_singleton_Some in Hk as [Hk ->].
        assert (k = length rest) as -> by lia. eexists. rewrite lookup_insert_eq. split; [done|].
        rewrite rotate_successor_last, F2. split; [done|]. rewrite Hbase.
        replace (base A (S (length rest))) with t by (subst t; done).
        apply fresh_block_ok; [done| |lia]. intros m Hm. rewrite K2 by done. f_equal.
        apply content_out. left. unfold base. lia.
  - apply index_set_block; [|done]. replace (length (rest ++ [i]) - 1)%nat with (length rest) by (rewrite Hlen; simpl; lia).
    by apply index_rotate.
  - simpl. intros He. destruct X as [_ _ _ _ _ X6]. by rewrite He in X6.
Qed.

Lemma blocks_ok_pool p p' r owned owned' ring A t h xs :
  blocks_ok p r owned ring A t h xs → pool_ok p' owned' → owned ⊆ owned' →
  (∀ i, i ∈ owned → heap p' !! i = heap p !! i) → blocks_ok p' r owned' ring A t h xs.
Proof.
  intros [I1 I2 I3 I4 I5 I6 I7 I8 I9 I10 I11 I12] Hp Hsub Hf. constructor; try done.
  - intros i Hi. apply Hsub. by apply I2.
  - intros k i Hi. destruct (I12 k i Hi) as (b & Hb & ?). exists b.
    rewrite Hf; [done|]. apply I2. by eapply list_elem_of_lookup_2.
Qed.

(** The pointers of the ring after [nb] went behind the tail. *)
Lemma snoc_successor (ring : list nat) (nb : nat) k :
  (S k < length ring)%nat → successor (ring ++ [nb]) k = successor ring k.
Proof.
  intros Hk. unfold successor. rewrite length_app, !decide_False by (simpl; lia).
  by rewrite lookup_app_l.
Qed.
Lemma snoc_successor_tail (ring : list nat) (nb : nat) k :
  S k = length ring → successor (ring ++ [nb]) k = Some nb.
Proof.
  intros Hk. unfold successor. rewrite length_app, decide_False by (simpl; lia).
  rewrite lookup_app_r by lia. by rewrite Hk, Nat.sub_diag.
Qed.
Lemma snoc_successor_new (ring : list nat) (nb : nat) :
  successor (ring ++ [nb]) (length ring) = (match ring with [] => Some nb | i :: _ => Some i end).
Proof.
  unfold successor. rewrite length_app, decide_True by (simpl; lia). by destruct ring.
Qed.
Lemma tail_successor (ring : list nat) k :
  S k = length ring → successor ring k = head ring.
Proof. intros Hk. unfold successor. rewrite decide_True by done. by destruct ring. Qed.

(** What [link_block] does to the ring's pointers. *)
Lemma link_block_ok p r owned ring nb bn :
  pool_ok p owned → (∀ i, i ∈ ring → i ∈ owned) → NoDup ring → tailBlock r = last ring →
  nb ∈ owned → nb ∉ ring → heap p !! nb = Some bn →
  (∀ k i, ring !! k = Some i → ∃ b, heap p !! i = Some b ∧ next b = successor ring k) →
  ∃ p', link_block nb p r = Ok p' ∧ pool_ok p' owned ∧
    heap p' !! nb = Some (with_next bn (successor (ring ++ [nb]) (length ring))) ∧
    ∀ k i b, ring !! k = Some i → heap p !! i = Some b →
      heap p' !! i = Some (with_next b (successor (ring ++ [nb]) k)).
Proof.
  intros I1 I2 I3 I4 Hnb Hnr Hbn Hptr.
  assert (Hne : ∀ k i, ring !! k = Some i → nb ≠ i).
  { intros k i Hi ->. apply Hnr. by eapply list_elem_of_lookup_2. }
  unfold link_block. rewrite I4. destruct (last ring) as [tb|] eqn:Htb.
  - apply last_at in Htb as Hk. pose proof (lookup_lt_Some _ _ _ Hk) as Hlt.
    destruct (Hptr _ _ Hk) as (bt & Hbt & Hnt).
    rewrite (deref_ok _ _ _ Hbt), bind_ok, (update_ok _ _ _ _ Hbn), bind_ok.
    set (p2 := with_heap p _).
    assert (P2 : pool_ok p2 owned)
      by (by apply (update_owned p owned nb bn (λ b', with_next b' (next bt)))).
    assert (G2t : heap p2 !! tb = Some bt)
      by (unfold p2; simpl; rewrite lookup_insert_ne; [done|by eapply Hne]).
    rewrite (update_ok _ _ _ _ G2t). eexists. split; [reflexivity|]. split_and!.
    + apply (update_owned p2 owned tb bt (λ b', with_next b' (Some nb))); try done.
      apply I2. by eapply list_elem_of_lookup_2.
    + simpl. rewrite lookup_insert_ne by (symmetry; by eapply Hne). rewrite lookup_insert_eq.
      do 2 f_equal. rewrite Hnt, tail_successor, snoc_successor_new by lia. by destruct ring.
    + intros k i b Hi Hb. destruct (decide (k = length ring - 1)%nat) as [->|Hkne].
      * assert (i = tb) as -> by congruence. simpl. rewrite lookup_insert_eq.
        rewrite snoc_successor_tail by lia. congruence.
      * destruct (Hptr k i Hi) as (b' & Hb' & Hn). pose proof (lookup_lt_Some _ _ _ Hi).
        pose proof (Hne _ _ Hi). assert (tb ≠ i) by (intros ->; apply Hkne; by eapply NoDup_lookup).
        simpl. rewrite !lookup_insert_ne by done. rewrite snoc_successor, <- Hn by lia.
        rewrite Hb'. assert (b' = b) as -> by congruence. by destruct b.
  - apply last_None in Htb as ->. rewrite (update_ok _ _ _ _ Hbn).
    eexists. split; [reflexivity|]. split_and!.
    + by apply (update_owned p owned nb bn (λ b', with_next b' (Some nb))).
    + simpl. apply lookup_insert_eq.
    + intros k i b Hi. by rewrite lookup_nil in Hi.
Qed.

(** What [insert_block] does to them. *)
Lemma insert_block_links p r owned ring nb b0 :
  pool_ok p owned → (∀ i, i ∈ ring → i ∈ owned) → NoDup ring → tailBlock r = last ring →
  nb ∈ owned → nb ∉ ring → heap p !! nb = Some b0 →
  (∀ k i, ring !! k = Some i → ∃ b, heap p !! i = Some b ∧ next b = successor ring k) →
  ∃ p', insert_block nb p r =
      Ok (p', set_block r (Some nb) (u64 (pr_blockIndexSlotsUsed r + 1))) ∧ pool_ok p' owned ∧
    heap p' !! nb = Some (with_next (reset_empty explicit_context b0)
                                    (successor (ring ++ [nb]) (length ring))) ∧
    ∀ k i b, ring !! k = Some i → heap p !! i = Some b →
      heap p' !! i = Some (with_next b (successor (ring ++ [nb]) k)).
Proof.
  intros I1 I2 I3 I4 Hnb Hnr Hb0 Hptr.
  destruct (reset_fields explicit_context b0) as (F1 & F2 & F3).
  unfold insert_block. rewrite (update_ok _ _ _ _ Hb0), bind_ok.
  set (p1 := with_heap p (<[nb:=reset_empty explicit_context b0]> (heap p))).
  assert (G : ∀ k i, ring !! k = Some i → heap p1 !! i = heap p !! i).
  { intros k i Hi. apply lookup_insert_ne. intros ->. apply Hnr. by eapply list_elem_of_lookup_2. }
  destruct (link_block_ok p1 r owned ring nb (reset_empty explicit_context b0)) as (p' & -> & Hp' & Hn & Hr);
    try done; [by apply update_owned|apply lookup_insert_eq| |].
  { intros k i Hi. rewrite (G k i Hi). eauto. }
  rewrite bind_ok. eexists. split; [reflexivity|]. split_and!; [done|done|]. intros k i b Hi Hb.
  apply (Hr k i b Hi). by rewrite (G k i Hi).
Qed.

Lemma insert_pointers p r owned ring A t h xs nb b0 :
  blocks_ok p r owned ring A t h xs → nb ∈ owned → nb ∉ ring → heap p !! nb = Some b0 →
  ∃ p', insert_block nb p r =
      Ok (p', set_block r (Some nb) (u64 (pr_blockIndexSlotsUsed r + 1))) ∧ pool_ok p' owned ∧
    heap p' !! nb = Some (with_next (reset_empty explicit_context b0)
                                    (successor (ring ++ [nb]) (length ring))) ∧
    ∀ k i, ring !! k = Some i → ∃ b, heap p' !! i = Some b ∧
      next b = successor (ring ++ [nb]) k ∧ block_ok explicit_context b (base A k) h xs.
Proof.
  intros [I1 I2 I3 I4 I5 I6 I7 I8 I9 I10 I11 I12] Hnb Hnr Hb0.
  destruct (insert_block_links p r owned ring nb b0) as (p' & -> & Hp' & Hn & Hr); try done.
  { intros k i Hi. destruct (I12 k i Hi) as (b & Hb & Hnx & _). eauto. }
  exists p'. split_and!; [done..|]. intros k i Hi.
  destruct (I12 k i Hi) as (b & Hb & Hnx & Hok). eexists. split; [by apply (Hr k i b)|].
  split; [done|]. by destruct Hok.
Qed.

Lemma insert_block_ok p r owned ring A t h xs nb b0 :
  blocks_ok p r owned ring A t h xs → index_for r ring (length ring) A →
  t = base A (length ring) → BLOCK_SIZE * (length ring + 1) < 2 ^ 62 →
  Z.of_nat (length ring) < pr_blockIndexSize r → blockIndex r ≠ [] →
  nb ∈ owned → nb ∉ ring → heap p !! nb = Some b0 → raw b0 →
  ∃ p' r', insert_block nb p r = Ok (p', r') ∧ opened p' r' owned (ring ++ [nb]) A t h xs.
Proof.
  intros I X Ht Hsz Hroom Hpres Hnb Hnr Hb0 Hraw. pose proof block_size_pos.
  destruct (insert_pointers _ _ _ _ _ _ _ _ _ _ I Hnb Hnr Hb0) as (p' & -> & Hp' & Hnb' & Hring).
  destruct I as [I1 I2 I3 I4 I5 I6 I7 I8 I9 I10 I11 I12].
  assert (Hnew : ∀ n, block_ok explicit_context (with_next (reset_empty explicit_context b0) n) t h xs).
  { intros n. destruct (fresh_block_ok explicit_context b0 t h xs) as [? ? ?]; [..|by constructor]; try done.
    - by rewrite Hraw, length_replicate.
    - intros j Hj. rewrite Hraw, lookup_replicate_2; [done|lia].
    - lia. }
  do 2 eexists. split; [reflexivity|].
  assert (Hlen : length (ring ++ [nb]) = S (length ring)) by (rewrite length_app; simpl; lia).
  constructor; [|rewrite Hlen; subst t; f_equal; lia|by destruct ring| |done].
  - constructor; simpl; try done.
    + intros i [Hi|Hi%list_elem_of_singleton]%elem_of_app; [by apply I2|by subst].
    + apply NoDup_app. split_and!; [done| |apply NoDup_singleton].
      intros i Hi ->%list_elem_of_singleton. done.
    + by rewrite last_snoc.
    + rewrite Hlen. subst t. unfold base in *. lia.
    + rewrite Hlen. lia.
    + intros k i Hi. destruct (decide (k < length ring)%nat) as [Hlt|Hge].
      * rewrite lookup_app_l in Hi by done. by apply Hring.
      * rewrite lookup_app_r in Hi by lia. apply list_lookup_singleton_Some in Hi as [Hz ->].
        assert (k = length ring) as -> by lia. eexists. split; [done|]. split; [done|].
        rewrite <- Ht. apply Hnew.
  - replace (length (ring ++ [nb]) - 1)%nat with (length ring) by lia. by apply index_snoc.
Qed.

Lemma blocks_ok_index p r owned ring A t h xs hs sz f :
  blocks_ok p r owned ring A t h xs → blocks_ok p (set_index r hs sz f) owned ring A t h xs.
Proof. intros [I1 I2 I3 I4 I5 I6 I7 I8 I9 I10 I11 I12]. by constructor. Qed.

Lemma span p r owned ring A t h xs :
  blocks_ok p r owned ring A t h xs → 0 <= t - h <= BLOCK_SIZE * length ring.
Proof. intros I. destruct (bo_bounds _ _ _ _ _ _ _ _ I). unfold base in *. lia. Qed.

(** The index, when there is to be room for one more block. *)
Lemma ensure_index_for canAlloc p r ring A :
  index_for r ring (length ring) A → (ring ≠ [] → front_ok r) → BLOCK_SIZE * length ring < 2 ^ 62 →
  (blockIndex r = [] → pr_blockIndexFront r = 0 ∧ pr_blockIndexSize r * BLOCK_SIZE <= 2 ^ 62) →
  ∃ p' r' ok, ensure_index canAlloc p r = Ok (p', r', ok) ∧ (p' = p ∨ p' = (malloc p).2) ∧
    (r' = r ∨ ∃ hd sz f, r' = set_index r (hd :: blockIndex r) sz f) ∧
    index_for r' ring (length ring) A ∧ (ring ≠ [] → front_ok r') ∧
    (ok = true → Z.of_nat (length ring) < pr_blockIndexSize r' ∧ blockIndex r' ≠ []) ∧
    (canAlloc = true → mallocs p = [] → ok = true).
Proof.
  intros X F Hbs U. pose proof block_size_pos. pose proof (size_bounds _ _ _ _ X) as Hsz.
  unfold ensure_index. destruct (bool_decide (blockIndex r = []) || _) eqn:Hc.
  - destruct canAlloc; [|do 3 eexists; split; [reflexivity|]; split_and!; try done; by left].
    assert (Hmem : pr_blockIndexSize r * BLOCK_SIZE <= 2 ^ 62).
    { apply orb_true_iff in Hc as [Hc|Hc].
      - apply bool_decide_eq_true in Hc. by apply U.
      - apply Z.eqb_eq in Hc. rewrite (ix_used _ _ _ _ X) in Hc. lia. }
    destruct (new_block_index_ok (pr_blockIndexSlotsUsed r) p r ring A X Hmem) as [[-> Hfail]|(hd & -> & X' & F')]; [by apply U| |].
    + do 3 eexists. split; [reflexivity|]. split_and!; try done; [by right|by left|].
      intros _ Hm. by rewrite Hm in Hfail.
    + do 3 eexists. split; [reflexivity|]. split_and!; try done; [by right|right; eauto| |].
      * intros Hr. apply F'; [by apply (ix_used _ _ _ _ X)|done].
      * intros _. pose proof (ix_room _ _ _ _ X). simpl. split; [lia|done].
  - apply orb_false_iff in Hc as [Hc1 Hc2]. apply bool_decide_eq_false in Hc1.
    apply Z.eqb_neq in Hc2. rewrite (ix_used _ _ _ _ X) in Hc2.
    pose proof (ix_room _ _ _ _ X). do 3 eexists. split; [reflexivity|]. split_and!; try done; [by left|by left|].
    intros _. split; [lia|done].
Qed.

Lemma ensure_index_ok canAlloc p r owned ring A t h xs :
  repr p r owned ring A t h xs →
  ∃ p' r' ok, ensure_index canAlloc p r = Ok (p', r', ok) ∧ heap p' = heap p ∧
    repr p' r' owned ring A t h xs ∧ tailIndex r' = tailIndex r ∧
    (ok = true → Z.of_nat (length ring) < pr_blockIndexSize r' ∧ blockIndex r' ≠ []) ∧
    (canAlloc = true → mallocs p = [] → ok = true) ∧ (mallocs p = [] → mallocs p' = []).
Proof.
  intros [I X F S U].
  destruct (ensure_index_for canAlloc p r ring A X F (bo_size _ _ _ _ _ _ _ _ I) U)
    as (p' & r' & ok & -> & Hp & Hr & X' & F' & Hok & Hmem). do 3 eexists. split; [reflexivity|].
  assert (heap p' = heap p ∧ pool_ok p' owned ∧ (mallocs p = [] → mallocs p' = [])) as (Hh & P & Hm).
  { pose proof (bo_pool _ _ _ _ _ _ _ _ I). destruct Hp as [->| ->]; [done|]. split_and!; [done|by apply malloc_pool|].
    simpl. by intros ->. }
  split; [done|]. split_and!; try done; [|by destruct Hr as [->|(hd & sz & f & ->)]].
  constructor; try done.
  - eapply (blocks_ok_pool p p'); [|done|done|by rewrite Hh].
    destruct Hr as [->|(hd & sz & f & ->)]; [done|by apply blocks_ok_index].
  - by destruct Hr as [->|(hd & sz & f & ->)].
Qed.

Lemma link_block_memory nb (p : pool T) r p' : link_block nb p r = Ok p' → mallocs p' = mallocs p.
Proof.
  unfold link_block. destruct (tailBlock r) as [tb|]; [|apply update_memory].
  intros H2. apply bind_inv_ok in H2 as (b & _ & H2). apply bind_inv_ok in H2 as (p3 & H3 & H2).
  apply update_memory in H3 as <-. by apply update_memory in H2.
Qed.

Lemma insert_block_memory nb (p : pool T) r p' r' :
  insert_block nb p r = Ok (p', r') → mallocs p = [] → mallocs p' = [].
Proof.
  unfold insert_block. intros Hi <-.
  apply bind_inv_ok in Hi as (p1 & H1 & Hi). apply bind_inv_ok in Hi as (p2 & H2 & [= <- _]).
  apply update_memory in H1 as <-. by apply link_block_memory in H2.
Qed.

Lemma start_block_ok canAlloc p r owned ring A t h xs :
  repr p r owned ring A t h xs → t = base A (length ring) →
  BLOCK_SIZE * (length ring + 1) < 2 ^ 62 →
  ∃ p' r' ok, start_block canAlloc p r = Ok (p', r', ok) ∧
    (if ok : bool
     then ∃ owned' ring' A', others owned' ring' = others owned ring ∧ opened p' r' owned' ring' A' t h xs ∧
            (length ring' ≤ S (length ring))%nat
     else repr p' r' owned ring A t h xs) ∧
    (canAlloc = true → mallocs p = [] → MAX_SUBQUEUE_SIZE = SIZE_MAX →
     ok = true ∧ mallocs p' = []).
Proof.
  intros R Ht Hsz. pose proof R as [I X F S U]. pose proof block_size_pos.
  pose proof (span _ _ _ _ _ _ _ _ I) as Hspan.
  unfold start_block. rewrite (next_is_empty_ok _ _ _ _ _ _ _ _ I), bind_ok.
  destruct (match ring with [] => None | i :: _ => if decide (A + BLOCK_SIZE <= h) then Some i else None end)
    as [i|] eqn:Hahead.
  - destruct ring as [|i' rest]; [done|]. case_decide as Hh; [|done]. injection Hahead as ->.
    destruct (reuse_block_ok _ _ _ _ _ _ _ _ _ R Ht Hh) as (p' & Hu & O). rewrite Hu, bind_ok.
    do 3 eexists. split; [reflexivity|]. split.
    + exists owned, (rest ++ [i]), (A + BLOCK_SIZE). split_and!; [unfold others; set_solver|done|].
      rewrite length_app. simpl. lia.
    + intros _ Hm _. split; [done|]. unfold update, deref in Hu.
      destruct (heap p !! i); [|done]. injection Hu as <-. done.
  - rewrite (bo_tail _ _ _ _ _ _ _ _ I), (bo_head _ _ _ _ _ _ _ _ I).
    rewrite assert_ok, bind_ok by (apply in_order; lia). destruct (too_full (u64 t) (u64 h)) eqn:Hfull.
    { do 3 eexists. split; [reflexivity|]. split; [done|]. intros _ _ Hmax.
      by rewrite too_full_unlimited in Hfull by (done || lia). }
    destruct (ensure_index_ok canAlloc p r owned ring A t h xs R)
      as (p1 & r1 & ok & -> & Hh1 & R1 & Ht1 & Hroom & Hmem & Hmem1). rewrite bind_ok.
    destruct ok; cbn [negb].
    2:{ do 3 eexists. split; [reflexivity|]. split; [done|]. intros Hc Hm _. by specialize (Hmem Hc Hm). }
    destruct (Hroom eq_refl) as [Hroom1 Hpres]. pose proof R1 as [I1 X1 F1 S1 U1].
    destruct (requisition_block_ok canAlloc p1 owned (bo_pool _ _ _ _ _ _ _ _ I1))
      as (p2 & o & Hreq & Hf & Ho). rewrite Hreq, bind_ok. destruct o as [nb|].
    + destruct Ho as (Hnb & P2 & b0 & Hb0 & Hraw).
      assert (I2 : blocks_ok p2 r1 ({[nb]} ∪ owned) ring A t h xs)
        by (eapply blocks_ok_pool; [done|done|set_solver|done]).
      destruct (insert_block_ok p2 r1 ({[nb]} ∪ owned) ring A t h xs nb b0) as (p3 & r3 & Hins & O);
        try done; [set_solver| |].
      { intros Hin. apply Hnb. by apply (bo_owned _ _ _ _ _ _ _ _ I1). }
      rewrite Hins, bind_ok. do 3 eexists. split; [reflexivity|]. split.
      * eexists _, _, _. split_and!; [|done|rewrite length_app; simpl; lia]. unfold others. set_solver.
      * intros -> Hm _. split; [done|]. destruct (requisition_memory _ _ _ Hreq (Hmem1 Hm)) as [_ Hm2].
        by eapply insert_block_memory.
    + do 3 eexists. split; [reflexivity|]. split.
      * constructor; try done. eapply blocks_ok_pool; [done|done|done|done].
      * intros -> Hm _. destruct (requisition_memory _ _ _ Hreq (Hmem1 Hm)) as [[? [=]] _].
Qed.

(** ** The two operations *)

Lemma put_repr p r owned ring A t h xs x :
  blocks_ok p r owned ring A t h xs → index_for r ring (length ring) A → front_ok r →
  blockIndex r ≠ [] → ring ≠ [] → t < base A (length ring) →
  ∃ p' r', put_element x p r = Ok (p', r') ∧
    repr p' r' owned ring A (t + 1) h (xs ++ [x]) ∧ mallocs p' = mallocs p.
Proof.
  intros I X F Hp Hr Ht. destruct (put_element_ok p r owned ring A t h xs x I Hr Ht) as (p' & Hput & I').
  do 2 eexists. split; [exact Hput|]. split.
  - destruct X. constructor; try done. destruct (bo_bounds _ _ _ _ _ _ _ _ I). lia.
  - unfold put_element in Hput. destruct (tailBlock r) as [tb|]; [|done].
    apply bind_inv_ok in Hput as (b & _ & Hput). apply bind_inv_ok in Hput as (b' & _ & Hput).
    apply bind_inv_ok in Hput as (p1 & Hu & [= <-]). by apply update_memory in Hu.
Qed.

Lemma opened_indexed p r owned ring A t h xs :
  opened p r owned ring A t h xs →
  ∃ r', add_to_index r = Ok r' ∧ blocks_ok p r' owned ring A t h xs ∧
    index_for r' ring (length ring) A ∧ front_ok r' ∧ blockIndex r' ≠ [].
Proof.
  intros [I Ht Hr X Hp]. destruct (blockIndex r) as [|hd hs] eqn:Hb; [done|].
  destruct (last ring) as [tb|] eqn:Htb; [|by apply last_None in Htb].
  destruct (add_to_index_ok r ring A tb hd hs X Hb) as (es & f & Hadd & X' & F').
  - by apply last_at.
  - by rewrite (bo_tail_block _ _ _ _ _ _ _ _ I).
  - by rewrite (bo_tail _ _ _ _ _ _ _ _ I), Ht.
  - eexists. split; [exact Hadd|]. split_and!; try done. by apply blocks_ok_index.
Qed.

Lemma enqueue_ok noexcept_ctor canAlloc throws x p r owned ring A t h xs :
  repr p r owned ring A t h xs → BLOCK_SIZE * (length ring + 1) < 2 ^ 62 →
  negb noexcept_ctor && throws = false →
  ∃ p' r' b, enqueue noexcept_ctor canAlloc throws x p r = Ok (p', r', Returned b) ∧
    (if b : bool
     then ∃ owned' ring' A', others owned' ring' = others owned ring ∧ repr p' r' owned' ring' A' (t + 1) h (xs ++ [x]) ∧
            (length ring' ≤ S (length ring))%nat
     else repr p' r' owned ring A t h xs) ∧
    (canAlloc = true → mallocs p = [] → MAX_SUBQUEUE_SIZE = SIZE_MAX → b = true ∧ mallocs p' = []).
Proof.
  intros R Hsz Hth. pose proof block_size_pos. pose proof R as [I X F S U].
  unfold enqueue. rewrite (boundary _ _ _ _ _ _ _ _ R), Hth. case_bool_decide as Ht.
  - destruct (start_block_ok canAlloc p r owned ring A t h xs R Ht Hsz)
      as (p1 & r1 & ok & -> & Hok & Hmem). rewrite bind_ok. destruct ok; cbn [negb].
    + destruct Hok as (owned' & ring' & A' & Hsub & O & Hlen).
      destruct (opened_indexed _ _ _ _ _ _ _ _ O) as (r2 & -> & I2 & X2 & F2 & P2). rewrite bind_ok.
      destruct O as [_ Hst Hr _ _].
      destruct (put_repr p1 r2 owned' ring' A' t h xs x) as (p3 & r3 & Hput & R3 & M3); try done.
      { subst t. unfold base in *. assert (length ring' ≠ 0%nat) by (by destruct ring'). nia. }
      rewrite Hput, bind_ok. do 3 eexists. split; [reflexivity|]. split.
      * exists owned', ring', A'. by split_and!.
      * intros Hc Hm Hx. rewrite M3. by apply Hmem.
    + do 3 eexists. split; [reflexivity|]. by split.
  - destruct (bo_bounds _ _ _ _ _ _ _ _ I) as [Hb1 Hb2].
    assert (Hr : ring ≠ []) by (intros ->; unfold base in *; simpl in *; lia).
    assert (Hp : blockIndex r ≠ []).
    { intros Hb. pose proof (ix_current _ _ _ _ X) as C. by rewrite Hb in C. }
    destruct (put_repr p r owned ring A t h xs x) as (p3 & r3 & Hput & R3 & M3); try done; [by apply F|lia|].
    rewrite Hput, bind_ok. do 3 eexists. split; [reflexivity|]. split.
    + exists owned, ring, A. split_and!; [done|done|lia].
    + intros _ Hm _. by rewrite M3.
Qed.

Lemma dequeue_ok assign_throws p r owned ring A t h xs :
  repr p r owned ring A t h xs →
  ∃ p' r', dequeue assign_throws p r =
      Ok (p', r', match xs with [] => Nothing | x :: _ => if assign_throws : bool then Lost else Got x end) ∧
    repr p' r' owned ring A t (match xs with [] => h | _ => h + 1 end) (tail xs) ∧
    mallocs p' = mallocs p.
Proof.
  intros R. pose proof R as [I X F S U]. pose proof block_size_pos.
  pose proof (span _ _ _ _ _ _ _ _ I) as Hspan. pose proof (bo_size _ _ _ _ _ _ _ _ I) as Hsz.
  pose proof I as [I1 I2 I3 I4 I5 I6 I7 I8 I9 I10 I11 I12].
  unfold dequeue. rewrite I7, I5, clt_spec by lia. destruct xs as [|x xs].
  - simpl in I8. rewrite (proj2 (Z.ltb_ge h t)) by lia. do 2 eexists. split; [reflexivity|]. by split.
  - simpl in I8. rewrite (proj2 (Z.ltb_lt h t)) by lia. cbn [tailIndex set_counts].
    rewrite I5, clt_spec, (proj2 (Z.ltb_lt h t)) by lia. cbn [headIndex set_counts].
    destruct (locate A (length ring) h) as (k & j & Hk & Hj & Hh); [lia|].
    destruct (lookup_lt_is_Some_2 ring k Hk) as [i Hi].
    assert (Hr : ring ≠ []) by (by destruct ring).
    rewrite I6. unfold set_counts at 2. cbn [headIndex dequeueOptimisticCount].
    set (r1 := set_counts _ _ _ _).
    assert (Hof : block_of r1 (u64 h) = Ok i).
    { change (block_of r1 (u64 h)) with (block_of r (u64 h)). rewrite Hh.
      by eapply block_of_ok; [done|apply F|..]. }
    rewrite Hof, bind_ok. destruct (I12 k i Hi) as (b & Hb & Hn & Hok).
    rewrite (deref_ok _ _ _ Hb), bind_ok.
    destruct (take_element explicit_context b (base A k) h x xs (Z.to_nat j) Hok)
      as (-> & b1 & b2 & -> & Hset & Hok2 & Hn2 & Hrefs2);
      [by apply base_aligned|lia|lia|].
    rewrite !bind_ok, Hset, bind_ok, (update_ok _ _ _ _ Hb), bind_ok.
    do 2 eexists. split; [reflexivity|]. split; [|done].
    constructor; try done; [|destruct X; by constructor].
    constructor; simpl; try done.
    + apply (update_owned p owned i b (λ _, b2)); try done. apply I2. by eapply list_elem_of_lookup_2.
    + by autorewrite with wrap.
    + autorewrite with wrap.
      replace (dequeueOptimisticCount r + 1 - dequeueOvercommit r) with
        (dequeueOptimisticCount r - dequeueOvercommit r + 1) by lia.
      rewrite <- wrap_add_l, I7. by autorewrite with wrap.
    + lia.
    + lia.
    + apply (ring_insert (heap p) ring A h (x :: xs) _ _ k); try done; [congruence|].
      intros k' b' Hk' Hlt Hb'. apply (other_block _ _ _ _ x); [done|].
      rewrite Hh. unfold base. assert (k' < k ∨ k < k')%nat as [?|?] by lia; [right|left]; nia.
Qed.

(** ** Runs *)

Definition exec (noexcept_ctor : bool) (p : pool T) (r : producer) (c : call) :
    result (pool T * producer * answer) :=
  match c with
  | Enqueue canAlloc x =>
      '(p, r, e) ← enqueue noexcept_ctor canAlloc false x p r;
      match e with Returned b => Ok (p, r, Enqueued b) | Threw => UB end
  | Dequeue =>
      '(p, r, d) ← dequeue false p r;
      match d with
      | Got x => Ok (p, r, Dequeued (Some x))
      | Nothing => Ok (p, r, Dequeued None)
      | Lost => UB
      end
  end.

Fixpoint run (noexcept_ctor : bool) (p : pool T) (r : producer) (cs : list call) :
    result (pool T * producer * list answer) :=
  match cs with
  | [] => Ok (p, r, [])
  | c :: cs =>
      '(p, r, a) ← exec noexcept_ctor p r c;
      '(p, r, answers) ← run noexcept_ctor p r cs; Ok (p, r, a :: answers)
  end.

Lemma producer_run_ok noexcept_ctor cs : ∀ p r owned ring A t h xs,
  repr p r owned ring A t h xs → BLOCK_SIZE * (length ring + length cs) < 2 ^ 62 →
  ∃ p' r' answers owned' ring' A' t' h' ys,
    run noexcept_ctor p r cs = Ok (p', r', answers) ∧ queue_run xs cs answers ys ∧
    repr p' r' owned' ring' A' t' h' ys ∧ others owned' ring' = others owned ring ∧
    (mallocs p = [] → MAX_SUBQUEUE_SIZE = SIZE_MAX →
     Forall (λ c, match c with Enqueue canAlloc _ => canAlloc = true | _ => True end) cs →
     never_refused cs answers).
Proof.
  induction cs as [|c cs IH]; intros p r owned ring A t h xs R Hsz; cbn [run].
  { exists p, r, [], owned, ring, A, t, h, xs. split_and!; [done|constructor|done|done|]. by intros _ _ _ k ? ? ?. }
  pose proof block_size_pos. simpl length in Hsz. destruct c as [canAlloc x|]; cbn [exec].
  - destruct (enqueue_ok noexcept_ctor canAlloc false x p r owned ring A t h xs R)
      as (p1 & r1 & b & -> & Hb & Hmem); [nia|by rewrite andb_false_r|]. rewrite !bind_ok.
    assert (∃ owned1 ring1 A1 t1, repr p1 r1 owned1 ring1 A1 t1 h (if b then xs ++ [x] else xs) ∧
      others owned1 ring1 = others owned ring ∧
      (length ring1 ≤ S (length ring))%nat) as (owned1 & ring1 & A1 & t1 & R1 & Hoth & Hlen).
    { destruct b; [destruct Hb as (o1 & g1 & A1 & ? & ? & ?); by exists o1, g1, A1, (t + 1)|].
      exists owned, ring, A, t. split_and!; [done|done|lia]. }
    destruct (IH p1 r1 owned1 ring1 A1 t1 h _ R1) as
      (p2 & r2 & answers & o2 & g2 & A2 & t2 & h2 & ys & -> & Hq & R2 & Ho2 & Hnr); [nia|].
    rewrite bind_ok. do 9 eexists. split; [reflexivity|]. split; [destruct b; by constructor|].
    split; [exact R2|]. split; [congruence|]. intros Hm Hmax [Hc Hcs]%Forall_cons. destruct (Hmem Hc Hm Hmax) as [-> Hm1].
    intros [|k] ca y Hk; simpl in *; [done|]. by apply (Hnr Hm1 Hmax Hcs k ca y).
  - destruct (dequeue_ok false p r owned ring A t h xs R) as (p1 & r1 & -> & R1 & Hm1).
    rewrite bind_ok. destruct xs as [|x xs]; rewrite bind_ok;
      (destruct (IH _ _ _ _ _ _ _ _ R1) as
         (p2 & r2 & answers & o2 & g2 & A2 & t2 & h2 & ys & -> & Hq & R2 & Ho2 & Hnr); [nia|]);
      rewrite bind_ok; do 9 eexists; (split; [reflexivity|]); (split; [by constructor|]);
      (split; [exact R2|]); (split; [done|]); intros Hm Hmax [_ Hcs]%Forall_cons [|k] ca y Hk; simpl in *; try done;
      apply (Hnr ltac:(congruence) Hmax Hcs k ca y Hk).
Qed.

(** ** Construction *)

Lemma half_pow2 k : 1 <= k → Z.shiftr (2 ^ k) 1 = 2 ^ (k - 1).
Proof.
  intros Hk. rewrite Z.shiftr_div_pow2 by lia.
  replace (2 ^ k) with (2 ^ (k - 1) * 2 ^ 1) by (rewrite <- Z.pow_add_r by lia; f_equal; lia).
  by rewrite Z.div_mul.
Qed.

(** The size the constructor doubles. *)
Lemma initial_size n :
  0 <= n <= 2 ^ 31 →
  ∃ m, 0 <= m <= 30 ∧
    (let size := Z.shiftr EXPLICIT_INITIAL_INDEX_SIZE 1 in
     let poolBasedIndexSize := Z.shiftr (ceil_to_pow_2 n) 1 in
     if size <? poolBasedIndexSize then poolBasedIndexSize else size) = 2 ^ m.
Proof.
  intros Hn. destruct index_size_pow2 as (k & Hk & ->). cbv zeta. rewrite half_pow2 by lia.
  destruct (Z.ltb_spec (2 ^ (k - 1)) (Z.shiftr (ceil_to_pow_2 n) 1)) as [Hlt|Hge].
  - destruct (decide (n = 0)) as [->|Hn0].
    { pose proof (Z.pow_pos_nonneg 2 (k - 1)). change (Z.shiftr (ceil_to_pow_2 0) 1) with 0 in Hlt. lia. }
    rewrite ceil_to_pow_2_eq in * by (unfold fits; lia).
    pose proof (log2_up_bound n 31 ltac:(lia) ltac:(lia)) as Hl. pose proof (Z.log2_up_nonneg n).
    assert (2 ^ Z.log2_up n <= 2 ^ 31) by (apply Z.pow_le_mono_r; lia).
    rewrite wrap_small in * by (unfold fits; lia).
    destruct (decide (Z.log2_up n = 0)) as [Hz|Hz].
    { rewrite Hz in Hlt. change (Z.shiftr (2 ^ 0) 1) with 0 in Hlt. pose proof (Z.pow_pos_nonneg 2 (k - 1)). lia. }
    exists (Z.log2_up n - 1). split; [lia|]. apply half_pow2. lia.
  - exists (k - 1). split; [lia|done].
Qed.

Lemma create_repr p owned :
  pool_ok p owned → 0 <= initialBlockPoolSize p <= 2 ^ 31 →
  ∃ p' r, create p = Ok (p', r) ∧ repr p' r owned [] 0 0 0 [] ∧ (mallocs p = [] → mallocs p' = []).
Proof.
  intros P Hn. pose proof block_size_pos. unfold create. cbv zeta.
  destruct (initial_size _ Hn) as (m & Hm & Hsz). cbv zeta in Hsz. rewrite Hsz.
  set (r0 := Producer 0 0 0 0 None [] 0 (2 ^ m) 0).
  assert (Hpow : 1 <= 2 ^ m <= 2 ^ 30).
  { split; [pose proof (Z.pow_pos_nonneg 2 m); lia|apply Z.pow_le_mono_r; lia]. }
  assert (Hmem : 2 ^ m * BLOCK_SIZE <= 2 ^ 62) by nia.
  assert (X : index_for r0 [] (length (@nil nat)) 0).
  { constructor; simpl; try done; try lia. exists m. split; [lia|done]. }
  assert (B : ∀ p', pool_ok p' owned → blocks_ok p' r0 owned [] 0 0 0 []).
  { intros p' P'. constructor; simpl; try done; try (unfold base; simpl; lia).
    - intros i Hi. by apply elem_of_nil in Hi.
    - constructor. }
  destruct (new_block_index_ok 0 p r0 [] 0 X Hmem) as [[E _]|(hd & E & X' & F')]; [done| |];
    change (pr_blockIndexSlotsUsed r0) with 0 in E; rewrite E, bind_ok;
    do 2 eexists; (split; [reflexivity|]); (split; [|simpl; by intros ->]).
  - constructor; [by apply B, malloc_pool|done|done|unfold base; simpl; lia|done].
  - constructor; [by apply blocks_ok_index, B, malloc_pool|done|done|unfold base; simpl; lia|done].
Qed.

Lemma size_approx_repr p r owned ring A t h xs :
  repr p r owned ring A t h xs → size_approx r = length xs.
Proof.
  intros [I _ _ _ _]. pose proof (span _ _ _ _ _ _ _ _ I). pose proof (bo_size _ _ _ _ _ _ _ _ I).
  pose proof (bo_length _ _ _ _ _ _ _ _ I). unfold size_approx.
  rewrite (bo_head _ _ _ _ _ _ _ _ I), (bo_tail _ _ _ _ _ _ _ _ I), clt_spec by lia.
  autorewrite with wrap. destruct (Z.ltb_spec h t); [|lia]. rewrite wrap_small; [lia|].
  unfold fits. lia.
Qed.

(** an [ExplicitProducer] used by one thread is a queue, from any state a queue
    can be in: whatever its counters, which wrap at 64 bits, and however its blocks
    are spread over the ring, every sequence of calls runs without undefined
    behaviour or failed assertion and answers what the list of its elements answers. *)
Theorem explicit_producer_refines noexcept_ctor p r owned ring A t h xs cs :
  repr p r owned ring A t h xs → BLOCK_SIZE * (length ring + length cs) < 2 ^ 62 →
  ∃ p' r' answers ys, run noexcept_ctor p r cs = Ok (p', r', answers) ∧
    queue_run xs cs answers ys ∧ size_approx r' = length ys.
Proof.
  intros R Hsz. destruct (producer_run_ok noexcept_ctor cs p r owned ring A t h xs R Hsz)
    as (p' & r' & answers & o & g & A' & t' & h' & ys & Hr & Hq & R' & _ & _).
  exists p', r', answers, ys. split_and!; [done|done|]. by eapply size_approx_repr.
Qed.
End proofs.
End producer.

(** ** Examples *)

(** 40 elements in, 41 times out. *)
Definition in_and_out : list (call (T := Z)) :=
  (Enqueue true <$> seqZ 0 40) ++ replicate 41 Dequeue.
Definition one_block : pool Z := initial_blocks 1 [].

(** What the calls answer from a state of the pool and the producer, and the tail
    index they leave. *)
Definition answers_from (s : result (pool Z * producer)) (cs : list (call (T := Z))) :
    option (Z * list (answer (T := Z))) :=
  match s with
  | Ok (p, r) =>
      match run true p r cs with
      | Ok (_, r', answers) => Some (tailIndex r', answers)
      | _ => None
      end
  | _ => None
  end.

Definition all_out : list (answer (T := Z)) :=
  replicate 40 (Enqueued true) ++ (Dequeued ∘ Some <$> seqZ 0 40) ++ [Dequeued None].

(** A producer whose counters are one block short of wrapping. *)
Definition about_to_wrap : producer :=
  Producer (2 ^ 64 - 32) (2 ^ 64 - 32) 0 32 None [Header 64 0 (replicate 64 None)] 0 64 0.

Lemma about_to_wrap_repr :
  repr one_block about_to_wrap ∅ [] (2 ^ 64 - 32) (2 ^ 64 - 32) (2 ^ 64 - 32) [].
Proof.
  constructor; [constructor| |done|done|done]; try done.
  - by apply initial_blocks_ok.
  - by intros i Hi%elem_of_nil.
  - constructor.
  - constructor; try done. by exists 6.
Qed.

Lemma explicit_producer_refines_witness :
  answers_from (Ok (one_block, about_to_wrap)) in_and_out = Some (8, all_out) ∧
  ∃ p' r' answers ys, run true one_block about_to_wrap in_and_out = Ok (p', r', answers) ∧
    queue_run [] in_and_out answers ys ∧ size_approx r' = length ys.
Proof.
  split; [by vm_compute|].
  eapply (explicit_producer_refines true one_block about_to_wrap);
    [exact about_to_wrap_repr|by vm_compute].
Defined.
End McExplicit.
