(* ===== verification/McExplicitDestructor.v ===== *)
(** * [~ExplicitProducer], and a producer from construction to destruction

    concurrentqueue.h: the destructor looks for the half dequeued block, destroys the
    elements left in the ring of blocks and gives the blocks back. *)
From S2P Require Import Prelude McDetails McBlock McPool McSlots McExplicit.
Local Open Scope Z_scope.

Module McExplicitDestructor.
Import McDetails McBlock McPool McSlots McExplicit.

Section producer.
Context `{Traits} {T : Type}.

(** Enough turns for a loop over distinct blocks. *)
Definition size_heap (p : pool T) : nat := fresh p.

(** The search for the half dequeued block: [None] when [fuel] turns were not
    enough. *)
Fixpoint find_half (fuel : nat) (h : header) (head i : Z) : option (result nat) :=
  match fuel with
  | O => None
  | S fuel =>
      match aread (entries h) i with
      | Ok (Some (b, blk)) =>
          if clt (u64 (b + BLOCK_SIZE)) head
          then find_half fuel h head (Z.land (u64 (i + 1)) (size h - 1))
          else Some (assert_ NDEBUG (clt b head);; Ok blk)
      | _ => Some UB
      end
  end.

Definition half_dequeued (r : producer) : option (result (option nat)) :=
  if slot (headIndex r) =? 0 then Some (Ok None)
  else
    match blockIndex r with
    | [] => Some UB
    | h :: _ =>
        o ← find_half (S (length (entries h))) h (headIndex r)
              (Z.land (u64 (pr_blockIndexFront r - pr_blockIndexSlotsUsed r))
                      (u64 (pr_blockIndexSize r - 1)));
        Some (blk ← o; Ok (Some blk))
    end.

(** [while (i != BLOCK_SIZE && (block != tailBlock || i != lastValidIndex))]; at
    most [BLOCK_SIZE - i] turns. *)
Fixpoint destruct_slots (turns : nat) (is_tail : bool) (lastValidIndex i : Z) (b : block T) :
    result (block T) :=
  match turns with
  | O => Ok b
  | S turns =>
      if (i =? BLOCK_SIZE) || (is_tail && (i =? lastValidIndex)) then Ok b
      else b ← destruct_at b i; destruct_slots turns is_tail lastValidIndex (i + 1) b
  end.

Definition destruct_block (r : producer) (half : option nat) (tb i : nat) (p : pool T) :
    result (pool T) :=
  b ← deref p i;
  e ← is_empty explicit_context b;
  if e : bool then Ok p
  else
    let first := if decide (Some i = half) then slot (headIndex r) else 0 in
    let lastValidIndex :=
      if slot (tailIndex r) =? 0 then BLOCK_SIZE else slot (tailIndex r) in
    b ← destruct_slots (Z.to_nat (BLOCK_SIZE - first)) (bool_decide (i = tb)) lastValidIndex first b;
    update p i (λ _, b).

(** The [do] loop over the ring, from the block after [at]. *)
Fixpoint destruct_ring (fuel : nat) (r : producer) (half : option nat) (tb at_ : nat) (p : pool T) :
    option (result (pool T)) :=
  match fuel with
  | O => None
  | S fuel =>
      match b ← deref p at_; match next b with Some i => Ok i | None => UB end with
      | Ok i =>
          match destruct_block r half tb i p with
          | Ok p => if decide (i = tb) then Some (Ok p) else destruct_ring fuel r half tb i p
          | e => Some e
          end
      | _ => Some UB
      end
  end.

(** The [do] loop that gives the blocks back. *)
Fixpoint release_ring (fuel : nat) (tb i : nat) (p : pool T) : option (result (pool T)) :=
  match fuel with
  | O => None
  | S fuel =>
      match deref p i with
      | Ok b =>
          match next b with
          | Some nx =>
              match (if dynamicallyAllocated b then destroy_block i p
                     else add_block_to_free_list i p) with
              | Ok p => if decide (nx = tb) then Some (Ok p) else release_ring fuel tb nx p
              | e => Some e
              end
          | None => Some UB
          end
      | _ => Some UB
      end
  end.

Definition destroy_producer (p : pool T) (r : producer) : option (result (pool T)) :=
  match tailBlock r with
  | None => Some (Ok p)
  | Some tb =>
      half ← half_dequeued r;
      match half with
      | Ok half =>
          p ← destruct_ring (S (size_heap p)) r half tb tb p;
          match p with Ok p => release_ring (S (size_heap p)) tb tb p | e => Some e end
      | _ => Some UB
      end
  end.

Section proofs.
Context `{!TraitsOk}.

(** ** The half dequeued block *)

Lemma find_half_ok (r : producer) (hd : header) ring A h : ∀ (n fuel k : nat),
  index_for r ring (length ring) A → head (blockIndex r) = Some hd →
  BLOCK_SIZE * length ring < 2 ^ 62 → (k + n < length ring)%nat → (n < fuel)%nat →
  base A (k + n) < h < base A (k + n) + BLOCK_SIZE →
  ∃ i, ring !! (k + n)%nat = Some i ∧
    find_half fuel hd (u64 h)
      ((pr_blockIndexFront r - length ring + k) mod pr_blockIndexSize r) = Some (Ok i).
Proof.
  induction n as [|n IH]; intros fuel k X Hd Hsz Hk Hf Hh; (destruct fuel as [|fuel]; [lia|]);
    pose proof (size_bounds _ _ _ _ X) as Hs; pose proof block_size_pos;
    destruct (lookup_lt_is_Some_2 ring k ltac:(lia)) as [i Hi];
    pose proof X as [X1 (m & Hm & X2) X3 X4 X5 X6];
    (destruct (blockIndex r) as [|hd' hs] eqn:Hbi; [done|]); injection Hd as ->;
    destruct X6 as (X6 & X7 & X8);
    pose proof (X8 k i ltac:(lia) Hi) as He; cbn [find_half];
    rewrite (aread_Z _ _ _ (proj1 (Z.mod_pos_bound _ (pr_blockIndexSize r) ltac:(lia))) He);
    rewrite wrap_add_l; unfold base in Hh.
  - rewrite Nat.add_0_r in *. rewrite !clt_spec by (unfold base; lia).
    rewrite (proj2 (Z.ltb_ge _ _)), (proj2 (Z.ltb_lt _ _)), assert_ok by (done || unfold base; lia).
    by exists i.
  - rewrite clt_spec by (unfold base; nia). rewrite (proj2 (Z.ltb_lt _ _)) by (unfold base; nia).
    pose proof (Z.mod_pos_bound (pr_blockIndexFront r - length ring + k) (pr_blockIndexSize r) ltac:(lia)).
    rewrite X6, (wrap_small 64 (_ + 1)) by (unfold fits; lia).
    rewrite (land_size _ m), Zplus_mod_idemp_l by done.
    replace (pr_blockIndexFront r - length ring + k + 1) with (pr_blockIndexFront r - length ring + S k) by lia.
    replace (k + S n)%nat with (S k + n)%nat in * by lia.
    apply (IH fuel (S k)); [done|done|done|lia|lia|unfold base; lia].
Qed.

(** The head is at the start of a block or in the one found. *)
Lemma half_dequeued_ok (p : pool T) r owned ring A t h xs :
  repr p r owned ring A t h xs →
  ∃ half, half_dequeued r = Some (Ok half) ∧
    ∀ k i, ring !! k = Some i → h < base A k + BLOCK_SIZE →
      (if decide (Some i = half) then slot (headIndex r) else 0) = Z.max 0 (h - base A k).
Proof.
  intros [I X F St U]. pose proof block_size_pos. destruct (bo_bounds _ _ _ _ _ _ _ _ I) as [Hb1 Hb2].
  pose proof (bo_size _ _ _ _ _ _ _ _ I) as Hsz. pose proof (bo_aligned _ _ _ _ _ _ _ _ I) as HA.
  unfold half_dequeued. rewrite (bo_head _ _ _ _ _ _ _ _ I), slot_wrap.
  destruct (Z.eqb_spec (slot h) 0) as [Hz|Hz].
  - exists None. split; [done|]. intros k i Hi Hh. rewrite decide_False by done.
    assert (h <= base A k); [|lia]. apply Z.nlt_ge. intros Hlt.
    assert (slot (base A k + (h - base A k)) = 0) as Hz' by (by rewrite Zplus_minus).
    rewrite base_slot in Hz' by (done || lia). lia.
  - assert (h < base A (length ring)) as Hlt.
    { destruct (decide (h = base A (length ring))) as [->|]; [|lia]. exfalso. apply Hz.
      rewrite <- (Z.add_0_r (base A (length ring))). by apply base_slot; [|lia]. }
    destruct (locate A (length ring) h) as (k0 & j & Hk0 & Hj & Hh0); [lia|].
    assert (j ≠ 0) by (intros ->; apply Hz; rewrite Hh0; by apply base_slot; [|lia]).
    pose proof (size_bounds _ _ _ _ X) as Hs. pose proof X as [X1 (m & Hm & X2) X3 X4 X5 X6].
    destruct (blockIndex r) as [|hd hs] eqn:Hb; [subst ring; simpl in Hk0; lia|]. destruct X6 as (X6 & X7 & _).
    destruct (find_half_ok r hd ring A h k0 (S (length (entries hd))) 0 X) as (i0 & Hi0 & Hfind);
      [by rewrite Hb|done|done|lia|simpl; lia|].
    rewrite Z.add_0_r in Hfind. simpl in Hi0.
    rewrite X1, (wrap_small 64 (pr_blockIndexSize r - 1)) by (unfold fits; lia).
    rewrite (land_size _ m) by done.
    assert (m <= 64) by (apply (Z.pow_le_mono_r_iff 2); lia).
    rewrite (wrap_mod_size _ m) by done. rewrite Hfind.
    exists (Some i0). split; [done|]. intros k i Hi Hh. case_decide as Hd.
    + injection Hd as ->. assert (k = k0) as -> by (by eapply NoDup_lookup; [apply I|..]).
      rewrite Hh0, base_slot by (done || lia). lia.
    + assert (k ≠ k0) by congruence. assert (k < k0 ∨ k0 < k)%nat as [?|?] by lia; unfold base in *; nia.
Qed.

(** ** The elements *)

Definition range (i j : Z) (b : block T) : Prop :=
  length (elements b) = Z.to_nat BLOCK_SIZE ∧
  ∀ k : nat, k < BLOCK_SIZE → ∃ o, elements b !! k = Some o ∧ (is_Some o ↔ i <= k < j).

(** The loop over the slots of a block stops where its elements do. *)
Lemma destruct_slots_ok is_tail last stop : ∀ (turns : nat) (b : block T) i,
  range i stop b → 0 <= i <= stop → stop <= BLOCK_SIZE → stop - i <= turns →
  stop = (if is_tail : bool then last else BLOCK_SIZE) →
  ∃ b', destruct_slots turns is_tail last i b = Ok b' ∧ raw b' ∧ next b' = next b ∧
    freeListRefs b' = freeListRefs b ∧ dynamicallyAllocated b' = dynamicallyAllocated b.
Proof.
  pose proof block_size_pos.
  assert (Hdone : ∀ (b : block T) i, range i i b → raw b).
  { intros b i [Hl He]. apply list_eq_same_length with (Z.to_nat BLOCK_SIZE);
      [by rewrite length_replicate|done|]. intros j y z Hj Hy Hz.
    rewrite lookup_replicate_2 in Hz by done. destruct (He j ltac:(lia)) as (o & Ho & Hs).
    destruct y as [y|]; [|congruence]. exfalso. assert (is_Some o) as Hc by (exists y; congruence).
    apply Hs in Hc. lia. }
  induction turns as [|turns IH]; intros b i Hr Hi Hstop Ht Hlast; cbn [destruct_slots].
  { assert (i = stop) as -> by lia. exists b. split_and!; try done. by eapply Hdone. }
  destruct (decide (i = stop)) as [->|Hne].
  - assert ((stop =? BLOCK_SIZE) || is_tail && (stop =? last) = true) as ->.
    { rewrite Hlast. destruct is_tail; rewrite Z.eqb_refl; [by rewrite orb_true_r|done]. }
    exists b. split_and!; try done. by eapply Hdone.
  - assert ((i =? BLOCK_SIZE) || is_tail && (i =? last) = false) as ->.
    { rewrite (proj2 (Z.eqb_neq i BLOCK_SIZE)) by lia. destruct is_tail; [|done].
      by rewrite (proj2 (Z.eqb_neq i last)) by lia. }
    destruct Hr as [Hl He]. destruct (He (Z.to_nat i) ltac:(lia)) as (o & Ho & [_ [x ->]]); [lia|].
    unfold destruct_at. assert (slot i = Z.to_nat i) as ->.
    { rewrite slot_mod, Z.mod_small by lia. lia. }
    rewrite (aread_ok _ _ _ Ho), bind_ok, awrite_ok, !bind_ok by (by eapply lookup_lt_Some).
    apply (IH (with_elements b (<[Z.to_nat i:=None]> (elements b)))); [|lia..|done].
    split; simpl; [by rewrite length_insert|]. intros k Hk. destruct (decide (k = Z.to_nat i)) as [->|Hk'].
    + exists None. rewrite list_lookup_insert_eq by lia. split; [done|]. rewrite is_Some_alt. lia.
    + rewrite list_lookup_insert_ne by done. destruct (He k Hk) as (o' & Ho' & Hs). exists o'.
      split; [done|]. rewrite Hs. lia.
Qed.


Lemma content_range (b : block T) start h xs t :
  slots_ok b start h xs → Z.of_nat (length xs) = t - h →
  range (Z.max 0 (h - start)) (Z.min BLOCK_SIZE (t - start)) b.
Proof.
  intros [Hl He] Hx. split; [done|]. intros k Hk. exists (content h xs (start + k)). split; [by apply He|].
  unfold content. destruct (Z.leb_spec h (start + k)).
  - rewrite lookup_lt_is_Some. lia.
  - rewrite is_Some_alt. lia.
Qed.

(** The first [n] blocks of the ring have been emptied. *)
Record emptying (p : pool T) (owned : gset nat) (ring : list nat) (A h : Z) (xs : list T) (n : nat) :
    Prop := {
  em_pool : pool_ok p owned;
  em_blocks k i : ring !! k = Some i → ∃ b, heap p !! i = Some b ∧ next b = successor ring k ∧
    if decide (k < n)%nat then raw b else block_ok explicit_context b (base A k) h xs
}.

Lemma emptied_insert p owned ring A h xs (n i : nat) b b' :
  emptying p owned ring A h xs n → NoDup ring → i ∈ owned → ring !! n = Some i →
  heap p !! i = Some b → raw b' → next b' = next b → freeListRefs b' = freeListRefs b →
  emptying (with_heap p (<[i := b']> (heap p))) owned ring A h xs (S n).
Proof.
  intros [E1 E2] Hnd Ho Hi Hb Hraw Hn Hrefs. constructor.
  - by apply (update_owned p owned i b (λ _, b')).
  - intros k j Hj. destruct (E2 k j Hj) as (bj & Hbj & Hnj & Hok). destruct (decide (k = n)) as [->|Hne].
    + assert (j = i) as -> by congruence. exists b'. simpl. rewrite lookup_insert_eq, decide_True by lia.
      split_and!; [done|congruence|done].
    + exists bj. simpl. rewrite lookup_insert_ne by (intros ->; apply Hne; by eapply NoDup_lookup).
      split_and!; [done|done|]. repeat case_decide; try done; lia.
Qed.

Lemma destruct_block_ok p0 p r owned ring A t h xs half (tb n i : nat) :
  repr p0 r owned ring A t h xs → emptying p owned ring A h xs n →
  half_dequeued r = Some (Ok half) → last ring = Some tb → ring !! n = Some i →
  ∃ p', destruct_block r half tb i p = Ok p' ∧ emptying p' owned ring A h xs (S n).
Proof.
  intros R E Hhalf Htb Hi. pose proof block_size_pos. pose proof R as [I X F St U].
  pose proof (lookup_lt_Some _ _ _ Hi) as Hn. apply last_at in Htb.
  destruct (bo_bounds _ _ _ _ _ _ _ _ I) as [Hb1 Hb2]. pose proof (bo_nodup _ _ _ _ _ _ _ _ I) as Hnd.
  pose proof (bo_aligned _ _ _ _ _ _ _ _ I) as HA. pose proof (bo_length _ _ _ _ _ _ _ _ I) as Hlen.
  destruct (half_dequeued_ok _ _ _ _ _ _ _ _ R) as (half' & Hhalf' & Hfirst).
  assert (half' = half) as -> by congruence.
  destruct (em_blocks _ _ _ _ _ _ _ E n i Hi) as (b & Hb & Hnext & Hok). rewrite decide_False in Hok by lia.
  assert (Ho : i ∈ owned) by (apply (bo_owned _ _ _ _ _ _ _ _ I); by eapply list_elem_of_lookup_2).
  unfold destruct_block. rewrite (deref_ok _ _ _ Hb), bind_ok, (block_full _ _ _ _ _ Hok), bind_ok.
  case_bool_decide as He.
  - exists p. split; [done|]. constructor; [apply E|]. intros k j Hj.
    destruct (em_blocks _ _ _ _ _ _ _ E k j Hj) as (bj & Hbj & Hnj & Hokj). exists bj.
    split_and!; [done|done|]. destruct (decide (k = n)) as [->|Hne].
    + rewrite decide_True by lia. assert (bj = b) as -> by congruence.
      eapply no_slots_raw; [by eapply block_slots|by left].
    + repeat case_decide; try done; lia.
  - rewrite (Hfirst n i Hi) by lia.
    set (last := if slot (tailIndex r) =? 0 then BLOCK_SIZE else slot (tailIndex r)).
    set (first := Z.max 0 (h - base A n)). set (stop := Z.min BLOCK_SIZE (t - base A n)).
    assert (Hlast : stop = if bool_decide (i = tb) then last else BLOCK_SIZE).
    { unfold stop, last. case_bool_decide as Hit.
      - subst i. assert (n = length ring - 1)%nat as -> by (by eapply NoDup_lookup).
        rewrite (boundary _ _ _ _ _ _ _ _ R), (bo_tail _ _ _ _ _ _ _ _ I), slot_wrap.
        assert (Hbase : base A (length ring) = base A (length ring - 1) + BLOCK_SIZE).
        { unfold base. rewrite Nat2Z.inj_sub by lia. lia. }
        case_bool_decide as Ht; [lia|].
        assert (slot (base A (length ring - 1) + (t - base A (length ring - 1))) = t - base A (length ring - 1)) as Hsl
          by (apply base_slot; [done|lia]).
        rewrite Zplus_minus in Hsl. lia.
      - assert (n ≠ length ring - 1)%nat by (intros ->; congruence). unfold base in *. nia. }
    assert (Hs : first <= stop) by (unfold first, stop, base in *; nia).
    destruct (destruct_slots_ok (bool_decide (i = tb)) last stop (Z.to_nat (BLOCK_SIZE - first)) b first)
      as (b' & -> & Hraw & Hn' & Hr' & Hd'); [by eapply content_range; [eapply block_slots|]|lia|lia|lia|done|].
    rewrite bind_ok, (update_ok _ _ _ _ Hb). eexists. split; [reflexivity|]. by eapply emptied_insert.
Qed.

(** The blocks of a ring are fewer than those ever allocated. *)
Lemma ring_fuel (p : pool T) owned ring :
  pool_ok p owned → NoDup ring → (∀ i, i ∈ ring → i ∈ owned) → (length ring <= size_heap p)%nat.
Proof.
  intros (l & [P1 _ _ _ _ _ P7 _]) Hnd Hsub. unfold size_heap.
  rewrite <- (length_seq (fresh p) 0). apply submseteq_length, NoDup_submseteq; [done|].
  intros i Hi. destruct (P7 i (Hsub i Hi)) as (b & Hb & _). apply P1 in Hb. apply elem_of_seq. lia.
Qed.

Lemma destruct_ring_ok p0 r owned ring A t h xs half tb : ∀ (m n fuel : nat) p at_ b,
  repr p0 r owned ring A t h xs → emptying p owned ring A h xs n →
  half_dequeued r = Some (Ok half) → last ring = Some tb →
  heap p !! at_ = Some b → next b = ring !! n → (n + m = length ring)%nat → (0 < m <= fuel)%nat →
  ∃ p', destruct_ring fuel r half tb at_ p = Some (Ok p') ∧ emptying p' owned ring A h xs (length ring).
Proof.
  induction m as [|m IH]; intros n fuel p at_ b R E Hhalf Htb Hat Hb Hm Hf; [lia|].
  destruct fuel as [|fuel]; [lia|]. cbn [destruct_ring]. rewrite (deref_ok _ _ _ Hat), bind_ok, Hb.
  destruct (lookup_lt_is_Some_2 ring n ltac:(lia)) as [i Hi]. rewrite Hi.
  destruct (destruct_block_ok p0 p r owned ring A t h xs half tb n i) as (p' & -> & E'); try done.
  pose proof (bo_nodup _ _ _ _ _ _ _ _ (rp_blocks _ _ _ _ _ _ _ _ R)) as Hnd.
  apply last_at in Htb as Htb'. destruct (decide (m = 0%nat)) as [->|Hm0].
  - replace n with (length ring - 1)%nat in * by lia. rewrite decide_True by congruence.
    exists p'. split; [done|]. by replace (length ring) with (S (length ring - 1)) by lia.
  - rewrite decide_False.
    2:{ intros ->. assert (n = length ring - 1)%nat; [|lia]. by eapply NoDup_lookup. }
    destruct (em_blocks _ _ _ _ _ _ _ E' n i Hi) as (bi & Hbi & Hni & _).
    apply (IH (S n) fuel p' i bi); try done; [|lia|lia]. rewrite Hni. unfold successor.
    by rewrite decide_False by lia.
Qed.

(** ** The blocks go back *)

Lemma release_ring_ok (tb : nat) : ∀ (l : list nat) (fuel : nat) (p : pool T) owned i,
  pool_ok p owned → NoDup (i :: l) → (∀ j, j ∈ i :: l → j ∈ owned) → tb ∉ l →
  (∀ k j, (i :: l) !! k = Some j → ∃ b, heap p !! j = Some b ∧ raw b ∧
     next b = Some (default tb ((i :: l) !! S k))) →
  (length l < fuel)%nat →
  ∃ p', release_ring fuel tb i p = Some (Ok p') ∧ pool_ok p' (owned ∖ list_to_set (i :: l)).
Proof.
  induction l as [|i' l IH]; intros fuel p owned i P Hnd Hsub Htb Hl Hf; (destruct fuel as [|fuel]; [simpl in Hf; lia|]);
    destruct (Hl 0%nat i eq_refl) as (b & Hb & Hraw & Hn); cbn [release_ring]; rewrite (deref_ok _ _ _ Hb), Hn;
    assert (∃ p', (if dynamicallyAllocated b then destroy_block i p else add_block_to_free_list i p) = Ok p' ∧
      pool_ok p' (owned ∖ {[i]}) ∧ ∀ j, j ≠ i → heap p' !! j = heap p !! j) as (p' & -> & P' & Hh)
      by (destruct (dynamicallyAllocated b);
          [eapply destroy_block_ok|eapply add_block_to_free_list_ok]; try done; apply Hsub; left);
    simpl.
  - rewrite decide_True by done. exists p'. split; [done|].
    by replace (owned ∖ ({[i]} ∪ ∅)) with (owned ∖ {[i]}) by set_solver.
  - apply not_elem_of_cons in Htb as [Htb1 Htb2]. rewrite decide_False by done.
    apply NoDup_cons in Hnd as [Hi Hnd].
    destruct (IH fuel p' (owned ∖ {[i]}) i' P' Hnd) as (p2 & Hrel & P2); [|done| |simpl in Hf; lia|].
    + intros j Hj. apply elem_of_difference. split; [apply Hsub; by right|].
      intros ->%elem_of_singleton. done.
    + intros k j Hj. destruct (Hl (S k) j Hj) as (bj & Hbj & Hrj & Hnj). exists bj.
      rewrite Hh by (intros ->; apply Hi; by eapply list_elem_of_lookup_2). by split_and!.
    + exists p2. split; [done|]. simpl in P2.
      by replace (owned ∖ ({[i]} ∪ ({[i']} ∪ list_to_set l))) with
        (owned ∖ {[i]} ∖ ({[i']} ∪ list_to_set l)) by set_solver.
Qed.

Lemma destroy_producer_ok p r owned ring A t h xs :
  repr p r owned ring A t h xs →
  ∃ p', destroy_producer p r = Some (Ok p') ∧ pool_ok p' (others owned ring).
Proof.
  intros R. pose proof R as [I X F St U]. unfold destroy_producer.
  rewrite (bo_tail_block _ _ _ _ _ _ _ _ I). destruct (last ring) as [tb|] eqn:Htb.
  2:{ apply last_None in Htb as ->. exists p. split; [done|].
      replace (others owned []) with owned by (unfold others; set_solver). apply I. }
  destruct (half_dequeued_ok _ _ _ _ _ _ _ _ R) as (half & Hhalf & _). rewrite Hhalf.
  cbn [mbind option_bind]. pose proof (bo_nodup _ _ _ _ _ _ _ _ I) as Hnd.
  apply last_at in Htb as Htb'. pose proof (lookup_lt_Some _ _ _ Htb') as Hlt.
  destruct (bo_blocks _ _ _ _ _ _ _ _ I _ _ Htb') as (b & Hb & Hn & _).
  pose proof (ring_fuel p owned ring (bo_pool _ _ _ _ _ _ _ _ I) Hnd (bo_owned _ _ _ _ _ _ _ _ I)).
  destruct (destruct_ring_ok p r owned ring A t h xs half tb (length ring) 0 (S (size_heap p)) p tb b)
    as (p1 & Hring & E1); try done; [constructor; [apply I|]| |lia|].
  { intros k i Hi. destruct (bo_blocks _ _ _ _ _ _ _ _ I k i Hi) as (bi & ? & ? & ?). by exists bi. }
  { rewrite Hn. unfold successor. by rewrite decide_True by lia. }
  rewrite Hring. clear Hring. cbn [mbind option_bind].
  assert (Hsplit : ring = take (length ring - 1) ring ++ [tb]).
  { rewrite <- (take_drop (length ring - 1) ring) at 1. f_equal.
    rewrite (drop_S _ _ _ Htb'), drop_ge by lia. done. }
  set (front_ := take (length ring - 1) ring) in *.
  assert (Hlen : length front_ = (length ring - 1)%nat) by (unfold front_; rewrite length_take; lia).
  assert (Hperm : tb :: front_ ≡ₚ ring) by (rewrite Hsplit; apply Permutation_cons_append).
  destruct (release_ring_ok tb front_ (S (size_heap p1)) p1 owned tb) as (p2 & -> & P2).
  - apply E1.
  - by rewrite Hperm.
  - intros j Hj. rewrite Hperm in Hj. by apply (bo_owned _ _ _ _ _ _ _ _ I).
  - rewrite <- Hperm in Hnd. by apply NoDup_cons in Hnd as [? _].
  - intros [|k] j Hj.
    + injection Hj as <-. destruct (em_blocks _ _ _ _ _ _ _ E1 _ _ Htb') as (bj & Hbj & Hnj & Hraw).
      rewrite decide_True in Hraw by lia. exists bj. split_and!; [done|done|]. rewrite Hnj. unfold successor.
      rewrite decide_True by lia. rewrite Hsplit. simpl. by destruct front_.
    + simpl in Hj. pose proof (lookup_lt_Some _ _ _ Hj).
      assert (ring !! k = Some j) as Hj' by (rewrite Hsplit; by apply lookup_app_l_Some).
      destruct (em_blocks _ _ _ _ _ _ _ E1 _ _ Hj') as (bj & Hbj & Hnj & Hraw).
      rewrite decide_True in Hraw by lia. exists bj. split_and!; [done|done|]. rewrite Hnj. unfold successor.
      rewrite decide_False by lia. rewrite Hsplit. simpl. destruct (decide (S k < length front_)%nat).
      * rewrite lookup_app_l by done.
        by destruct (lookup_lt_is_Some_2 front_ (S k)) as [y ->].
      * rewrite lookup_app_r, (lookup_ge_None_2 front_ (S k)) by lia.
        by replace (S k - length front_)%nat with 0%nat by lia.
  - pose proof (ring_fuel p1 owned ring (em_pool _ _ _ _ _ _ _ E1) Hnd (bo_owned _ _ _ _ _ _ _ _ I)). lia.
  - exists p2. split; [done|]. unfold others.
    by replace (list_to_set ring : gset nat) with (list_to_set (tb :: front_) : gset nat)
      by (apply list_to_set_perm_L; done).
Qed.

(** C20: from construction to destruction an [ExplicitProducer] used by one thread, with
    elements whose operations do not throw, is a queue, and gives every block it took
    from the pool back, those made by [malloc] freed, with all elements destroyed (a block
    that is freed or given back with an element in it is an error); while memory can be
    had and no limit on its size is set, it accepts every element. *)
Theorem explicit_producer_lifetime noexcept_ctor p owned cs :
  pool_ok p owned → 0 <= initialBlockPoolSize p <= 2 ^ 31 → BLOCK_SIZE * length cs < 2 ^ 62 →
  ∃ p1 r1 p2 r2 answers ys p3, create p = Ok (p1, r1) ∧
    run noexcept_ctor p1 r1 cs = Ok (p2, r2, answers) ∧ queue_run [] cs answers ys ∧
    destroy_producer p2 r2 = Some (Ok p3) ∧ pool_ok p3 owned ∧
    (mallocs p = [] → MAX_SUBQUEUE_SIZE = SIZE_MAX →
     Forall (λ c, match c with Enqueue canAlloc _ => canAlloc = true | _ => True end) cs →
     never_refused cs answers).
Proof.
  intros P Hn Hsz. destruct (create_repr p owned P Hn) as (p1 & r1 & Hc & R & Hm).
  destruct (producer_run_ok noexcept_ctor cs p1 r1 owned [] 0 0 0 [] R Hsz)
    as (p2 & r2 & answers & o & g & A' & t' & h' & ys & Hr & Hq & R2 & Ho & Hnr).
  destruct (destroy_producer_ok _ _ _ _ _ _ _ _ R2) as (p3 & Hd & P3). rewrite Ho in P3.
  exists p1, r1, p2, r2, answers, ys, p3. split_and!; [done|done|done|done| |].
  - replace owned with (others owned []) by (unfold others; set_solver). done.
  - intros Hm0. by apply Hnr, Hm.
Qed.
End proofs.
End producer.

(** ** Examples *)

(** C23: with an element type whose constructor may throw, the first [enqueue] of a
    producer that throws leaves a block in the ring that counts as full: it is not
    used again, and destroying the producer runs the destructors of [BLOCK_SIZE]
    objects that never existed. *)
Theorem throwing_enqueue_breaks_destructor (T : Type) (x : T) (mem : list bool) :
  ∃ p0 p1 r1 p2 r2 p3 r3,
    populate_initial_block_list (T := T) 1 (true :: true :: mem) = Ok p0 ∧
    create p0 = Ok (p1, r1) ∧
    destroy_producer p1 r1 = Some (Ok p1) ∧
    enqueue false false true x p1 r1 = Ok (p2, r2, Threw) ∧
    size_approx r2 = 0 ∧ destroy_producer p2 r2 = Some UB ∧
    enqueue false false false x p2 r2 = Ok (p3, r3, Returned false).
Proof.
  do 7 eexists. split_and!; [vm_compute; reflexivity..|].
  all: vm_compute; reflexivity.
Qed.

Lemma explicit_producer_lifetime_witness :
  answers_from (create one_block) in_and_out = Some (40, all_out) ∧
  ∃ p1 r1 p2 r2 answers ys p3, create one_block = Ok (p1, r1) ∧
    run true p1 r1 in_and_out = Ok (p2, r2, answers) ∧ queue_run [] in_and_out answers ys ∧
    destroy_producer p2 r2 = Some (Ok p3) ∧ pool_ok p3 ∅ ∧
    (mallocs one_block = [] → MAX_SUBQUEUE_SIZE = SIZE_MAX →
     Forall (λ c, match c with Enqueue canAlloc _ => canAlloc = true | _ => True end) in_and_out →
     never_refused in_and_out answers).
Proof.
  split; [by vm_compute|].
  apply (explicit_producer_lifetime true one_block ∅); [by apply initial_blocks_ok|by vm_compute|by vm_compute].
Defined.
End McExplicitDestructor.
