(* ===== verification/McExplicitBulk.v ===== *)
(** * The bulk operations of [ExplicitProducer]

    concurrentqueue.h: [enqueue_bulk] reserves the blocks it needs, takes them into the
    block index, and only then constructs the elements; [dequeue_bulk] takes elements
    from consecutive blocks.  Used by one thread. *)
From S2P Require Import Prelude McDetails McBlock McPool McSlots McBulk McExplicit.
Local Open Scope Z_scope.

Module McExplicitBulk.
Import McDetails McBlock McPool McSlots McBulk McExplicit.

Section producer.
Context `{Traits} {T : Type}.

(** An entry of the index that is not published yet. *)
Definition index_entry (base : Z) (b : nat) (r : producer) : result producer :=
  match blockIndex r with
  | [] => UB
  | h :: hs =>
      es ← awrite (entries h) (pr_blockIndexFront r) (Some (base, b));
      Ok (set_index r (Header (size h) (front h) es :: hs) (pr_blockIndexSize r)
            (Z.land (u64 (pr_blockIndexFront r + 1)) (u64 (pr_blockIndexSize r - 1))))
  end.

(** The blocks ahead that are empty, at most [turns]; [turns] is
    [blockBaseDiff / BLOCK_SIZE].  What is left of [turns] is returned. *)
Fixpoint take_ahead (turns : nat) (currentTailIndex : Z) (first : option nat) (p : pool T) (r : producer) :
    result (producer * option nat * Z * nat) :=
  match turns, tailBlock r with
  | S rest, Some tb =>
      b ← deref p tb;
      if decide (next b = first) then Ok (r, first, currentTailIndex, turns)
      else
        match next b with
        | None => UB
        | Some nx =>
            bn ← deref p nx;
            e ← is_empty explicit_context bn;
            if e : bool
            then
              let currentTailIndex := u64 (currentTailIndex + BLOCK_SIZE) in
              r ← index_entry currentTailIndex nx (set_block r (Some nx) (pr_blockIndexSlotsUsed r));
              take_ahead rest currentTailIndex (or_first first nx) p r
            else Ok (r, first, currentTailIndex, turns)
        end
  | _, _ => Ok (r, first, currentTailIndex, turns)
  end.

(** What a failure goes back to. *)
Record original := Original { originalFront : Z; originalUsed : Z; startBlock : option nat }.

Definition undo (o : original) (first : option nat) (r : producer) : producer :=
  let r := set_block r (match startBlock o with None => first | b => b end) (originalUsed o) in
  set_index r (blockIndex r) (pr_blockIndexSize r) (originalFront o).

(** Room in the index for one more block; [originalFront] follows a new index. *)
Definition bulk_index (canAlloc full : bool) (o : original) (p : pool T) (r : producer) :
    result (pool T * producer * original * bool) :=
  if bool_decide (blockIndex r = []) || (pr_blockIndexSlotsUsed r =? pr_blockIndexSize r) || full
  then
    if negb canAlloc || full then Ok (p, r, o, false)
    else
      '(p, r, ok) ← new_block_index (originalUsed o) p r;
      Ok (p, r, if ok : bool then Original (originalUsed o) (originalUsed o) (startBlock o) else o, ok)
  else Ok (p, r, o, true).

(** As many blocks as necessary from the pool; without a first block the call has
    failed, and its changes are undone. *)
Fixpoint allocate (turns : nat) (canAlloc : bool) (o : original) (currentTailIndex : Z)
    (first : option nat) (p : pool T) (r : producer) : result (pool T * producer * original * option nat * bool) :=
  match turns with
  | O => Ok (p, r, o, first, true)
  | S turns =>
      let currentTailIndex := u64 (currentTailIndex + BLOCK_SIZE) in
      let head := headIndex r in
      assert_ NDEBUG (negb (clt currentTailIndex head));;
      '(p, r, o, ok) ← bulk_index canAlloc (too_full currentTailIndex head) o p r;
      if negb ok then Ok (p, undo o first r, o, first, false)
      else
        '(p, nb) ← requisition_block canAlloc p;
        match nb with
        | None => Ok (p, undo o first r, o, first, false)
        | Some nb =>
            p ← update p nb (set_all_empty explicit_context);
            p ← link_block nb p r;
            r ← index_entry currentTailIndex nb (set_block r (Some nb) (u64 (pr_blockIndexSlotsUsed r + 1)));
            allocate turns canAlloc o currentTailIndex (or_first first nb) p r
        end
  end.

(** [reset_empty] from the first block on, up to [last]. *)
Fixpoint reset_blocks (fuel : nat) (last b : option nat) (p : pool T) : result (pool T) :=
  match fuel, b with
  | S fuel, Some i =>
      p ← update p i (reset_empty explicit_context);
      if decide (b = last) then Ok p
      else blk ← deref p i; reset_blocks fuel last (next blk) p
  | _, _ => UB
  end.

Definition publish_front (r : producer) : result producer :=
  match blockIndex r with
  | [] => UB
  | h :: hs =>
      Ok (set_index r
            (Header (size h) (Z.land (u64 (pr_blockIndexFront r - 1)) (u64 (pr_blockIndexSize r - 1))) (entries h) :: hs)
            (pr_blockIndexSize r) (pr_blockIndexFront r))
  end.

(** [enqueue_bulk] of the elements [xs]. *)
Definition enqueue_bulk (noexcept_ctor canAlloc : bool) (xs : list T) (throws : list bool)
    (p : pool T) (r : producer) : result (pool T * producer * enqueued) :=
  let count := Z.of_nat (length xs) in
  let startTailIndex := tailIndex r in
  let start := Original (pr_blockIndexFront r) (pr_blockIndexSlotsUsed r) (tailBlock r) in
  let blockBaseDiff :=
    u64 (block_start (u64 (startTailIndex + count - 1)) - block_start (u64 (startTailIndex - 1))) in
  let currentTailIndex := block_start (u64 (startTailIndex - 1)) in
  let turns := Z.to_nat (blockBaseDiff / BLOCK_SIZE) in
  '(r, first, currentTailIndex, needed) ← take_ahead turns currentTailIndex None p r;
  '(p, r, start, first, ok) ← allocate needed canAlloc start currentTailIndex first p r;
  if negb ok then Ok (p, r, Returned false)
  else
    p ← (if 0 <? blockBaseDiff then reset_blocks turns (tailBlock r) first p else Ok p);
    r ← (if (0 <? blockBaseDiff) && noexcept_ctor then publish_front r else Ok r);
    let newTailIndex := u64 (startTailIndex + count) in
    let boundary := slot startTailIndex =? 0 in
    assert_ NDEBUG (negb boundary || non_null first || (count =? 0));;
    let tb := if boundary && non_null first then first else startBlock start in
    '(p, f) ← fill_blocks (S turns) noexcept_ctor newTailIndex (tailBlock r) startTailIndex xs throws tb p;
    match f with
    | ThrewAt constructedStopIndex lastBlockEnqueued =>
        p ← destroy_constructed (S turns) constructedStopIndex lastBlockEnqueued startTailIndex
              (if boundary then first else startBlock start) p;
        Ok (p, undo start first r, Threw)
    | Filled =>
        r ← (if negb noexcept_ctor && non_null first then publish_front r else Ok r);
        Ok (p, set_tail r newTailIndex, Returned true)
    end.

(** ** [dequeue_bulk] *)

Definition entry_block (h : header) (indexIndex : Z) : result nat :=
  e ← aread (entries h) indexIndex; match e with Some (_, b) => Ok b | None => UB end.

Definition empty_slots (i : nat) (firstIndexInBlock endIndex : Z) (p : pool T) : result (pool T) :=
  b ← deref p i;
  '(b, _) ← set_many_empty explicit_context firstIndexInBlock (u64 (endIndex - firstIndexInBlock)) b;
  update p i (λ _, b).

(** The elements that are left after an exception are destroyed. *)
Fixpoint destroy_rest (fuel : nat) (h : header) (firstIndex actualCount firstIndexInBlock index indexIndex : Z)
    (p : pool T) : result (pool T) :=
  match fuel with
  | O => UB
  | S fuel =>
      let endIndex := end_index firstIndex actualCount firstIndexInBlock in
      i ← entry_block h indexIndex;
      p ← destroy_slots (Z.to_nat (u64 (endIndex - index))) index i p;
      p ← empty_slots i firstIndexInBlock endIndex p;
      if endIndex =? u64 (firstIndex + actualCount) then Ok p
      else destroy_rest fuel h firstIndex actualCount endIndex endIndex
             (Z.land (u64 (indexIndex + 1)) (u64 (size h - 1))) p
  end.

(** Block by block; the last part of the result says that an assignment threw. *)
Fixpoint take_blocks (fuel : nat) (throws : list bool) (h : header) (firstIndex actualCount index indexIndex : Z)
    (p : pool T) : result (pool T * list T * bool) :=
  match fuel with
  | O => UB
  | S fuel =>
      let endIndex := end_index firstIndex actualCount index in
      i ← entry_block h indexIndex;
      '(p, reached, xs, throws, threw) ← take_slots (Z.to_nat (u64 (endIndex - index))) throws index i p;
      if threw : bool
      then p ← destroy_rest (S fuel) h firstIndex actualCount index reached indexIndex p; Ok (p, xs, true)
      else
        p ← empty_slots i index endIndex p;
        if endIndex =? u64 (firstIndex + actualCount) then Ok (p, xs, false)
        else
          '(p, ys, threw) ← take_blocks fuel throws h firstIndex actualCount endIndex
             (Z.land (u64 (indexIndex + 1)) (u64 (size h - 1))) p;
          Ok (p, xs ++ ys, threw)
  end.

(** [dequeue_bulk] with room for [max] elements. *)
Definition dequeue_bulk (throws : list bool) (max : Z) (p : pool T) (r : producer) :
    result (pool T * producer * bulk_dequeued) :=
  let tail := tailIndex r in
  let overcommit := dequeueOvercommit r in
  let desiredCount := u64 (tail - u64 (dequeueOptimisticCount r - overcommit)) in
  if clt 0 desiredCount
  then
    let desiredCount := if desiredCount <? max then desiredCount else max in
    let myDequeueCount := dequeueOptimisticCount r in
    let r := set_counts r (headIndex r) (u64 (dequeueOptimisticCount r + desiredCount)) overcommit in
    let actualCount := u64 (tail - u64 (myDequeueCount - overcommit)) in
    if clt 0 actualCount
    then
      let actualCount := if desiredCount <? actualCount then desiredCount else actualCount in
      let overcommit :=
        if actualCount <? desiredCount then u64 (overcommit + (desiredCount - actualCount)) else overcommit in
      let firstIndex := headIndex r in
      let r := set_counts r (u64 (headIndex r + actualCount)) (dequeueOptimisticCount r) overcommit in
      match blockIndex r with
      | [] => UB
      | h :: _ =>
          e ← aread (entries h) (front h);
          match e with
          | None => UB
          | Some (headBase, _) =>
              let offset := u64 (block_start firstIndex - headBase) / BLOCK_SIZE in
              let indexIndex := Z.land (u64 (front h + offset)) (u64 (size h - 1)) in
              '(p, xs, threw) ← take_blocks (S (length (entries h))) throws h firstIndex actualCount
                                  firstIndex indexIndex p;
              Ok (p, r, if threw : bool then LostMany xs else GotMany xs)
          end
      end
    else Ok (p, set_counts r (headIndex r) (dequeueOptimisticCount r) (u64 (overcommit + desiredCount)), GotMany [])
  else Ok (p, r, GotMany []).

(** ** Runs of single and bulk calls *)

Inductive bulk_call := One (c : call (T := T)) | EnqueueBulk (canAlloc : bool) (xs : list T) | DequeueBulk (max : nat).
Inductive bulk_answer := Answer (a : answer (T := T)) | EnqueuedBulk (b : bool) | DequeuedBulk (xs : list T).

(** Nothing throws. *)
Definition exec_bulk (noexcept_ctor : bool) (p : pool T) (r : producer) (c : bulk_call) :
    result (pool T * producer * bulk_answer) :=
  match c with
  | One c => '(p, r, a) ← exec noexcept_ctor p r c; Ok (p, r, Answer a)
  | EnqueueBulk canAlloc xs =>
      '(p, r, e) ← enqueue_bulk noexcept_ctor canAlloc xs [] p r;
      match e with Returned b => Ok (p, r, EnqueuedBulk b) | Threw => UB end
  | DequeueBulk max =>
      '(p, r, d) ← dequeue_bulk [] max p r;
      match d with GotMany xs => Ok (p, r, DequeuedBulk xs) | LostMany _ => UB end
  end.

Fixpoint run_bulk (noexcept_ctor : bool) (p : pool T) (r : producer) (cs : list bulk_call) :
    result (pool T * producer * list bulk_answer) :=
  match cs with
  | [] => Ok (p, r, [])
  | c :: cs =>
      '(p, r, a) ← exec_bulk noexcept_ctor p r c;
      '(p, r, answers) ← run_bulk noexcept_ctor p r cs; Ok (p, r, a :: answers)
  end.

(** What the unbounded queue of [xs] answers. *)
Definition queue_step (xs : list T) (c : bulk_call) : list T * bulk_answer :=
  match c with
  | One (Enqueue _ x) => (xs ++ [x], Answer (Enqueued true))
  | One Dequeue => (tail xs, Answer (Dequeued (head xs)))
  | EnqueueBulk _ ys => (xs ++ ys, EnqueuedBulk true)
  | DequeueBulk max => (drop max xs, DequeuedBulk (take max xs))
  end.

Fixpoint queue_steps (xs : list T) (cs : list bulk_call) : list T * list bulk_answer :=
  match cs with
  | [] => (xs, [])
  | c :: cs =>
      let '(xs, a) := queue_step xs c in let '(xs, answers) := queue_steps xs cs in (xs, a :: answers)
  end.

(** A call may use memory, and its argument is a [size_t]; the elements that the calls
    enqueue. *)
Definition call_ok (c : bulk_call) : Prop :=
  match c with
  | One (Enqueue canAlloc _) => canAlloc = true
  | One Dequeue => True
  | EnqueueBulk canAlloc _ => canAlloc = true
  | DequeueBulk max => max < 2 ^ 64
  end.

Definition adds (c : bulk_call) : nat :=
  match c with One (Enqueue _ _) => 1 | EnqueueBulk _ xs => length xs | _ => 0 end.

(** ** Reserving blocks

    The ring is [main], the blocks from the oldest one to the one the tail is in, and
    [ahead], the blocks that are reserved: raw, and already in the index. *)

Record reserved (p : pool T) (r : producer) (owned : gset nat) (main ahead : list nat) (A t h : Z)
    (xs : list T) : Prop := {
  rs_pool : pool_ok p owned;
  rs_owned i : i ∈ main ++ ahead → i ∈ owned;
  rs_nodup : NoDup (main ++ ahead);
  rs_tail_block : tailBlock r = last (main ++ ahead);
  rs_tail : tailIndex r = u64 t;
  rs_head : headIndex r = u64 h;
  rs_counts : u64 (dequeueOptimisticCount r - dequeueOvercommit r) = u64 h;
  rs_length : Z.of_nat (length xs) = t - h;
  rs_aligned : A mod BLOCK_SIZE = 0;
  rs_bounds : A <= h <= t ∧ base A (length main) - BLOCK_SIZE < t <= base A (length main);
  rs_blocks k i : (main ++ ahead) !! k = Some i →
    ∃ b, heap p !! i = Some b ∧ next b = successor (main ++ ahead) k ∧
      if decide (k < length main)%nat then block_ok explicit_context b (base A k) h xs else raw b;
  rs_index : index_for r (main ++ ahead) (length (main ++ ahead)) A;
  rs_unindexed : blockIndex r = [] →
    pr_blockIndexFront r = 0 ∧ pr_blockIndexSize r * BLOCK_SIZE <= 2 ^ 62
}.

Section proofs.
Context `{!TraitsOk}.

(** [currentTailIndex] *)
Definition reached (A : Z) (n : nat) : Z := base A n - BLOCK_SIZE.

Lemma reached_next A n : u64 (u64 (reached A n) + BLOCK_SIZE) = u64 (base A n).
Proof. unfold reached. rewrite wrap_add_l. f_equal. lia. Qed.

Lemma base_S A n : base (A + BLOCK_SIZE) n = base A (S n).
Proof. unfold base. lia. Qed.

Lemma index_entry_ok r ring A tb :
  index_for r ring (length ring - 1) A → blockIndex r ≠ [] → ring !! (length ring - 1)%nat = Some tb →
  ∃ hs f, index_entry (u64 (base A (length ring - 1))) tb r = Ok (set_index r hs (pr_blockIndexSize r) f) ∧
    index_for (set_index r hs (pr_blockIndexSize r) f) ring (length ring) A ∧ hs ≠ [] ∧
    (f - 1) mod pr_blockIndexSize r = pr_blockIndexFront r.
Proof.
  intros X Hp Htb. unfold index_entry. destruct (blockIndex r) as [|hd hs] eqn:Hb; [done|].
  destruct (write_entry r ring A tb hd hs (front hd) X Hb Htb) as (es & f & -> & Hf & X' & Hm).
  rewrite bind_ok, Hf. do 2 eexists. split; [reflexivity|]. by split_and!.
Qed.

(** The oldest block is reserved. *)
Lemma reserve_ahead p r owned i main ahead A t h xs :
  reserved p r owned (i :: main) ahead A t h xs → A + BLOCK_SIZE <= h →
  ∃ r', index_entry (u64 (base A (length ((i :: main) ++ ahead)))) i
      (set_block r (Some i) (pr_blockIndexSlotsUsed r)) = Ok r' ∧
    reserved p r' owned main (ahead ++ [i]) (A + BLOCK_SIZE) t h xs.
Proof.
  intros [I1 I2 I3 I4 I5 I6 I7 I8 I9 I10 I11 I12 I13] Hh. pose proof block_size_pos.
  assert (Hring : main ++ ahead ++ [i] = (main ++ ahead) ++ [i]) by (by rewrite assoc_L by apply _).
  assert (Hlen : length ((main ++ ahead) ++ [i]) = length ((i :: main) ++ ahead))
    by (rewrite !length_app; simpl; lia).
  destruct (index_entry_ok (set_block r (Some i) (pr_blockIndexSlotsUsed r)) ((main ++ ahead) ++ [i])
    (A + BLOCK_SIZE) i) as (hs & f & He & X & Hp & Hm).
  { apply index_set_block; [|done]. rewrite Hlen. simpl length. rewrite Nat.sub_succ, Nat.sub_0_r.
    apply (index_rotate r i (main ++ ahead) A I12). }
  { simpl. intros Hb. pose proof (ix_current _ _ _ _ I12) as C. by rewrite Hb in C. }
  { rewrite lookup_app_r, Hlen by (rewrite Hlen; simpl; lia). simpl length.
    by replace (S (length (main ++ ahead)) - 1 - length (main ++ ahead))%nat with 0%nat by lia. }
  rewrite base_S, Hlen in He. simpl length in He. rewrite Nat.sub_succ, Nat.sub_0_r in He.
  simpl length. rewrite He. eexists. split; [reflexivity|].
  destruct (I11 0%nat i eq_refl) as (b0 & Hb0 & Hn0 & Hok0). cbn [length] in Hok0. rewrite decide_True in Hok0 by lia.
  constructor; rewrite ?Hring; simpl; try done.
  - intros j Hj. apply I2. rewrite elem_of_app, list_elem_of_singleton in Hj. simpl. set_solver.
  - rewrite Permutation_app_comm. done.
  - by rewrite last_snoc.
  - rewrite Z.add_mod, I9, Z.mod_same by lia. by rewrite Z.mod_0_l by lia.
  - rewrite base_S. simpl length in I10. unfold base in *. lia.
  - intros k j Hk. destruct (decide (k < length (main ++ ahead))%nat) as [Hlt|Hge].
    + rewrite lookup_app_l in Hk by done. destruct (I11 (S k) j Hk) as (b & Hb & Hn & Hok).
      exists b. split; [done|]. split; [by rewrite rotate_successor, Hn|]. rewrite base_S. simpl length in Hok.
      destruct (decide (k < length main)%nat); [rewrite decide_True in Hok by lia|rewrite decide_False in Hok by lia]; done.
    + rewrite lookup_app_r in Hk by lia. apply list_lookup_singleton_Some in Hk as [Hk ->].
      assert (k = length (main ++ ahead)) as -> by lia. exists b0. split; [done|].
      rewrite rotate_successor_last. split; [done|]. rewrite length_app, decide_False by lia.
      eapply no_slots_raw; [by apply (block_slots _ _ _ _ _ Hok0)|]. left. unfold base. lia.
Qed.

Lemma take_ahead_ok turns : ∀ p r owned main ahead A t h xs,
  reserved p r owned main ahead A t h xs →
  ∃ r' main' ahead' A' left,
    take_ahead turns (u64 (reached A (length (main ++ ahead)))) (head ahead) p r =
      Ok (r', head ahead', u64 (reached A' (length (main ++ ahead))), left) ∧
    reserved p r' owned main' ahead' A' t h xs ∧ main' ++ ahead' ≡ₚ main ++ ahead ∧
    (length ahead' + left = length ahead + turns ∧ left ≤ turns)%nat ∧ (ahead' = [] → r' = r ∧ main' = main ∧ A' = A) ∧
    (∃ n, main' = drop n main) ∧ base A' (length main') = base A (length main).
Proof.
  induction turns as [|turns IH]; intros p r owned main ahead A t h xs R; pose proof R as
    [I1 I2 I3 I4 I5 I6 I7 I8 I9 I10 I11 I12 I13]; cbn [take_ahead].
  { exists r, main, ahead, A, 0%nat. split_and!; try done. by exists 0%nat. }
  assert (Hstop : ∃ r' main' ahead' A' left,
    Ok (r, head ahead, u64 (reached A (length (main ++ ahead))), S turns) =
      Ok (r', head ahead', u64 (reached A' (length (main ++ ahead))), left) ∧
    reserved p r' owned main' ahead' A' t h xs ∧ main' ++ ahead' ≡ₚ main ++ ahead ∧
    (length ahead' + left = length ahead + S turns ∧ left ≤ S turns)%nat ∧ (ahead' = [] → r' = r ∧ main' = main ∧ A' = A) ∧
    (∃ n, main' = drop n main) ∧ base A' (length main') = base A (length main)).
  { exists r, main, ahead, A, (S turns). split_and!; try done. by exists 0%nat. }
  rewrite I4. destruct (last (main ++ ahead)) as [tb|] eqn:Htb; [|exact Hstop].
  apply last_at in Htb as Hk. destruct (I11 _ _ Hk) as (b & Hb & Hn & _). rewrite (deref_ok _ _ _ Hb), bind_ok.
  rewrite Hn, tail_successor by (destruct (main ++ ahead); simpl in *; [done|lia]).
  destruct main as [|i main].
  { simpl. rewrite decide_True by done. exact Hstop. }
  change (head ((i :: main) ++ ahead)) with (Some i). rewrite decide_False.
  2:{ destruct ahead as [|a ahead]; [done|]. simpl. intros [= ->].
      apply NoDup_cons in I3 as [Hni _]. apply Hni. set_solver. }
  destruct (I11 0%nat i eq_refl) as (b0 & Hb0 & _ & Hok0). rewrite decide_True in Hok0 by (simpl; lia).
  rewrite (deref_ok _ _ _ Hb0), bind_ok, (block_full _ _ _ _ _ Hok0), bind_ok.
  replace (base A 0 + BLOCK_SIZE) with (A + BLOCK_SIZE) by (unfold base; lia).
  case_bool_decide as Hh; [|exact Hstop].
  destruct (reserve_ahead _ _ _ _ _ _ _ _ _ _ R Hh) as (r1 & He & R1).
  rewrite reached_next, He, bind_ok.
  assert (Hlen : length (main ++ ahead ++ [i]) = length ((i :: main) ++ ahead))
    by (rewrite !length_app; simpl; lia).
  destruct (IH p r1 owned main (ahead ++ [i]) (A + BLOCK_SIZE) t h xs R1)
    as (r' & main' & ahead' & A' & left & Ht & R' & Hl & Hleft & Hnil & Hlast & Hbase). rewrite Hlen in *.
  replace (reached (A + BLOCK_SIZE) (length ((i :: main) ++ ahead))) with (base A (length ((i :: main) ++ ahead))) in Ht
    by (unfold reached, base; lia).
  replace (or_first (head ahead) i) with (head (ahead ++ [i])) by (by destruct ahead). rewrite Ht.
  exists r', main', ahead', A', left. rewrite length_app in Hleft. simpl in Hleft.
  split_and!; [done|done| |lia|lia| | |].
  - rewrite Hl, (assoc_L (++)). simpl. by rewrite Permutation_app_comm.
  - intros ->. simpl in Hleft. lia.
  - destruct Hlast as [n ->]. by exists (S n).
  - rewrite Hbase. unfold base. simpl length. lia.
Qed.


Lemma set_all_fields c (b : block T) :
  elements (set_all_empty c b) = elements b ∧ freeListRefs (set_all_empty c b) = freeListRefs b.
Proof. unfold set_all_empty. by destruct (use_flags c). Qed.

Lemma reserved_pool p p' r owned owned' main ahead A t h xs :
  reserved p r owned main ahead A t h xs → pool_ok p' owned' → owned ⊆ owned' →
  (∀ i, i ∈ owned → heap p' !! i = heap p !! i) → reserved p' r owned' main ahead A t h xs.
Proof.
  intros [I1 I2 I3 I4 I5 I6 I7 I8 I9 I10 I11 I12 I13] Hp Hsub Hf. constructor; try done.
  - intros i Hi. by apply Hsub, I2.
  - intros k i Hi. destruct (I11 k i Hi) as (b & Hb & ?). exists b.
    rewrite Hf; [done|]. by apply I2, list_elem_of_lookup_2 with k.
Qed.

(** A block from the pool is reserved. *)
Lemma reserve_new p r owned main ahead A t h xs nb b0 :
  reserved p r owned main ahead A t h xs → blockIndex r ≠ [] →
  Z.of_nat (length (main ++ ahead)) < pr_blockIndexSize r →
  nb ∈ owned → nb ∉ main ++ ahead → heap p !! nb = Some b0 → raw b0 →
  ∃ p1 p2 r', update p nb (set_all_empty explicit_context) = Ok p1 ∧ link_block nb p1 r = Ok p2 ∧
    index_entry (u64 (base A (length (main ++ ahead)))) nb
      (set_block r (Some nb) (u64 (pr_blockIndexSlotsUsed r + 1))) = Ok r' ∧
    reserved p2 r' owned main (ahead ++ [nb]) A t h xs ∧ (mallocs p = [] → mallocs p2 = []).
Proof.
  intros [I1 I2 I3 I4 I5 I6 I7 I8 I9 I10 I11 I12 I13] Hpres Hroom Hnb Hnr Hb0 Hraw.
  destruct (set_all_fields explicit_context b0) as (F1 & F2).
  set (ring := main ++ ahead) in *. set (b1 := set_all_empty explicit_context b0) in *.
  assert (Hring : main ++ ahead ++ [nb] = ring ++ [nb]) by (by unfold ring; rewrite assoc_L by apply _).
  assert (Hlen : length (ring ++ [nb]) = S (length ring)) by (rewrite length_app; simpl; lia).
  exists (with_heap p (<[nb := b1]> (heap p))). rewrite (update_ok _ _ _ _ Hb0).
  set (p1 := with_heap p (<[nb := b1]> (heap p))).
  assert (G : ∀ k i, ring !! k = Some i → heap p1 !! i = heap p !! i).
  { intros k i Hi. apply lookup_insert_ne. intros ->. apply Hnr. by eapply list_elem_of_lookup_2. }
  destruct (link_block_ok p1 r owned ring nb b1) as (p2 & Hlink & Hp2 & Hn & Hr);
    try done; [by apply update_owned|apply lookup_insert_eq| |].
  { intros k i Hi. destruct (I11 k i Hi) as (b & Hb & Hnx & _). exists b. by rewrite (G k i Hi). }
  destruct (index_entry_ok (set_block r (Some nb) (u64 (pr_blockIndexSlotsUsed r + 1))) (ring ++ [nb]) A nb)
    as (hs & f & He & X & Hhs & Hm).
  { rewrite Hlen, Nat.sub_succ, Nat.sub_0_r. by apply index_snoc. }
  { done. }
  { rewrite Hlen, Nat.sub_succ, Nat.sub_0_r. by apply list_lookup_middle. }
  rewrite Hlen, Nat.sub_succ, Nat.sub_0_r in He.
  exists p2. eexists. split; [done|]. split; [done|]. split; [exact He|]. split.
  - constructor; rewrite ?Hring; simpl; try done.
    + intros i [Hi|Hi%list_elem_of_singleton]%elem_of_app; [by apply I2|by subst].
    + apply NoDup_app. split_and!; [done| |apply NoDup_singleton]. by intros i Hi ->%list_elem_of_singleton.
    + by rewrite last_snoc.
    + intros k i Hi. destruct (decide (k < length ring)%nat) as [Hlt|Hge].
      * rewrite lookup_app_l in Hi by done. destruct (I11 k i Hi) as (b & Hb & Hnx & Hok). eexists. split.
        { apply (Hr k i b Hi). by rewrite (G k i Hi). }
        split; [done|]. destruct (decide (k < length main)%nat); [|done]. by destruct Hok.
      * rewrite lookup_app_r in Hi by lia. apply list_lookup_singleton_Some in Hi as [Hz ->].
        assert (k = length ring) as -> by lia. eexists. split; [done|]. split; [done|].
        unfold ring. rewrite length_app, decide_False by lia. unfold raw. simpl. by rewrite F1.
  - intros Hm0. by apply link_block_memory in Hlink as ->.
Qed.

Lemma bulk_index_ok canAlloc full o p r owned main ahead A t h xs :
  reserved p r owned main ahead A t h xs → BLOCK_SIZE * length (main ++ ahead) < 2 ^ 62 →
  ∃ p' r' o' ok, bulk_index canAlloc full o p r = Ok (p', r', o', ok) ∧ heap p' = heap p ∧
    reserved p' r' owned main ahead A t h xs ∧
    startBlock o' = startBlock o ∧
    (ok = true → Z.of_nat (length (main ++ ahead)) < pr_blockIndexSize r' ∧ blockIndex r' ≠ []) ∧
    (canAlloc = true → full = false → mallocs p = [] → ok = true ∧ mallocs p' = []).
Proof.
  intros R Hsz. pose proof R as [I1 I2 I3 I4 I5 I6 I7 I8 I9 I10 I11 I12 I13].
  pose proof (size_bounds _ _ _ _ I12). pose proof (ix_room _ _ _ _ I12). unfold bulk_index.
  destruct (bool_decide (blockIndex r = []) || _ || full) eqn:Hc.
  - destruct (negb canAlloc || full) eqn:Hcf.
    { do 4 eexists. split; [reflexivity|]. split_and!; try done. intros -> ->. done. }
    apply orb_false_iff in Hcf as [_ ->]. rewrite orb_false_r in Hc.
    assert (Hmem : pr_blockIndexSize r * BLOCK_SIZE <= 2 ^ 62).
    { apply orb_true_iff in Hc as [Hc|Hc]; [apply bool_decide_eq_true in Hc; by apply I13|].
      apply Z.eqb_eq in Hc. rewrite (ix_used _ _ _ _ I12) in Hc. lia. }
    destruct (new_block_index_ok (originalUsed o) p r _ A I12 Hmem) as [[-> Hfail]|(hd & -> & X & _)];
      [by intros Hb; apply I13| |]; rewrite bind_ok; do 4 eexists; (split; [reflexivity|]); (split; [done|]).
    + split; [|split; [done|split; [done|]]].
      * eapply reserved_pool; [done|by apply malloc_pool|done|done].
      * intros _ _ Hm. by rewrite Hm in Hfail.
    + split; [|split; [done|split]].
      * destruct R. constructor; try done. by apply malloc_pool.
      * intros _. simpl. split; [lia|done].
      * intros _ _ Hm. split; [done|]. simpl. by rewrite Hm.
  - apply orb_false_iff in Hc as [Hc ->]. apply orb_false_iff in Hc as [Hc1 Hc2].
    apply bool_decide_eq_false in Hc1. apply Z.eqb_neq in Hc2. rewrite (ix_used _ _ _ _ I12) in Hc2.
    do 4 eexists. split; [reflexivity|]. split_and!; try done. intros _. split; [lia|done].
Qed.

(** Without a failing allocation all blocks are reserved. *)
Lemma allocate_ok (turns : nat) : ∀ canAlloc o p r owned main ahead A t h xs,
  reserved p r owned main ahead A t h xs → BLOCK_SIZE * (length (main ++ ahead) + turns) < 2 ^ 62 →
  ∃ p' r' o' owned' ahead' ok,
    allocate turns canAlloc o (u64 (reached A (length (main ++ ahead)))) (head ahead) p r =
      Ok (p', if ok : bool then r' else undo o' (head ahead') r', o', head ahead', ok) ∧
    reserved p' r' owned' main ahead' A t h xs ∧ startBlock o' = startBlock o ∧
    others owned' (main ++ ahead') = others owned (main ++ ahead) ∧
    (ok = true → length ahead' = (length ahead + turns)%nat) ∧ (turns = 0%nat → ok = true ∧ r' = r ∧ p' = p ∧ owned' = owned ∧ ahead' = ahead) ∧
    (canAlloc = true → mallocs p = [] → MAX_SUBQUEUE_SIZE = SIZE_MAX → ok = true ∧ mallocs p' = []).
Proof.
  induction turns as [|turns IH]; intros canAlloc o p r owned main ahead A t h xs R Hsz; cbn [allocate].
  { exists p, r, o, owned, ahead, true. split_and!; try done. }
  pose proof block_size_pos. destruct (rs_bounds _ _ _ _ _ _ _ _ _ R) as [Hb1 Hb2].
  assert (Hsz0 : BLOCK_SIZE * length (main ++ ahead) < 2 ^ 62) by nia.
  assert (Hrange : 0 <= base A (length (main ++ ahead)) - h /\ base A (length (main ++ ahead)) - h + BLOCK_SIZE <= 2 ^ 62).
  { unfold base in *. rewrite length_app in *. nia. }
  rewrite reached_next, (rs_head _ _ _ _ _ _ _ _ _ R).
  rewrite assert_ok, bind_ok by (apply in_order; lia).
  destruct (bulk_index_ok canAlloc (too_full (u64 (base A (length (main ++ ahead)))) (u64 h)) o _ _ _ _ _ _ _ _ _ R Hsz0)
    as (p1 & r1 & o1 & ok & -> & Hh1 & R1 & Hst & Hroom & Hmem). rewrite bind_ok.
  assert (Hfull : MAX_SUBQUEUE_SIZE = SIZE_MAX → too_full (u64 (base A (length (main ++ ahead)))) (u64 h) = false)
    by (intros Hmax; apply too_full_unlimited; [done|lia|lia]).
  destruct ok; cbn [negb].
  2:{ exists p1, r1, o1, owned, ahead, false. split_and!; try done. intros Hc Hm Hmax.
      by destruct (Hmem Hc (Hfull Hmax) Hm). }
  destruct (Hroom eq_refl) as [Hroom1 Hpres].
  destruct (requisition_block_ok canAlloc p1 owned (rs_pool _ _ _ _ _ _ _ _ _ R1)) as (p2 & nb & Hreq & Hf & Ho).
  rewrite Hreq, bind_ok. destruct nb as [nb|].
  2:{ exists p2, r1, o1, owned, ahead, false. split_and!; try done; [by eapply reserved_pool|].
      intros -> Hm Hmax. destruct (Hmem eq_refl (Hfull Hmax) Hm) as [_ Hm1].
      by destruct (requisition_memory _ _ _ Hreq Hm1) as [[? [=]] _]. }
  destruct Ho as (Hnb & P2 & b0 & Hb0 & Hraw).
  assert (R2 : reserved p2 r1 ({[nb]} ∪ owned) main ahead A t h xs) by (eapply reserved_pool; [done|done|set_solver|done]).
  destruct (reserve_new p2 r1 ({[nb]} ∪ owned) main ahead A t h xs nb b0 R2 Hpres Hroom1)
    as (p3 & p4 & r4 & -> & Hlink & He & R4 & Hm4); [set_solver| |done|done|].
  { intros Hin. apply Hnb. by apply (rs_owned _ _ _ _ _ _ _ _ _ R1). }
  rewrite bind_ok, Hlink, bind_ok, He, bind_ok.
  assert (Hlen : length (main ++ ahead ++ [nb]) = S (length (main ++ ahead))) by (rewrite !length_app; simpl; lia).
  destruct (IH canAlloc o1 p4 r4 ({[nb]} ∪ owned) main (ahead ++ [nb]) A t h xs R4)
    as (p' & r' & o' & owned' & ahead' & ok & Hrun & R' & Hst' & Hoth & Hlen' & _ & Hmem'); [rewrite Hlen; lia|].
  rewrite Hlen in Hrun. replace (reached A (S (length (main ++ ahead)))) with (base A (length (main ++ ahead))) in Hrun
    by (unfold reached, base; lia).
  replace (or_first (head ahead) nb) with (head (ahead ++ [nb])) by (by destruct ahead). rewrite Hrun.
  exists p', r', o', owned', ahead', ok. split_and!; try done; [congruence|..].
  - rewrite Hoth. unfold others. apply leibniz_equiv. intros x. rewrite !elem_of_difference, elem_of_union, !elem_of_list_to_set.
    rewrite !elem_of_app, !list_elem_of_singleton, elem_of_singleton.
    split; [intros [[->|?] Hn]; [tauto|split; [done|tauto]]|].
    intros [Hx Hn]. split; [by right|]. intros [?|[?| ->]]; [tauto|tauto|done].
  - intros ->. rewrite Hlen', length_app by done. simpl. lia.
  - intros -> Hm Hmax. apply Hmem'; [done| |done]. apply Hm4.
    destruct (Hmem eq_refl (Hfull Hmax) Hm) as [_ Hm1]. by destruct (requisition_memory _ _ _ Hreq Hm1).
Qed.


(** ** Constructing the elements *)

(** All blocks of the ring are in use; the tail may be in any of them. *)
Definition filling (p : pool T) (owned : gset nat) (ring : list nat) (A t h : Z) (xs : list T) : Prop :=
  cells explicit_context (λ k n, n = successor ring k) p owned ring A h (content h xs) ∧
  Z.of_nat (length xs) = t - h ∧ A <= h <= t ∧ t <= base A (length ring).

Lemma ring_chained ring k : chained (λ k n, n = successor ring k) ring k.
Proof. intros m n _ Hm ->. unfold successor. by rewrite decide_False by lia. Qed.

Lemma ring_cells (p : pool T) owned ring A h xs :
  pool_ok p owned → (∀ i, i ∈ ring → i ∈ owned) → NoDup ring → A mod BLOCK_SIZE = 0 →
  ring_blocks (heap p) ring A h xs →
  cells explicit_context (λ k n, n = successor ring k) p owned ring A h (content h xs).
Proof.
  intros P Ho Hnd HA Hr. constructor; try done. intros k i Hk. destruct (Hr k i Hk) as (b & Hb & Hn & [B1 B2 B3]).
  by exists b.
Qed.

Lemma cells_ring (p : pool T) owned ring A h xs :
  cells explicit_context (λ k n, n = successor ring k) p owned ring A h (content h xs) →
  ring_blocks (heap p) ring A h xs.
Proof.
  intros C k i Hk. destruct (ce_blocks _ _ _ _ _ _ _ _ C k i Hk) as (b & Hb & Hn & [B1 B2] & B3).
  exists b. by split_and!.
Qed.

Lemma reset_blocks_ok (fuel : nat) : ∀ (n : nat) p owned ring A t h xs,
  pool_ok p owned → (∀ i, i ∈ ring → i ∈ owned) → NoDup ring → Z.of_nat (length xs) = t - h → t <= base A n →
  (∀ k i, ring !! k = Some i → ∃ b, heap p !! i = Some b ∧ next b = successor ring k ∧
     if decide (k < n)%nat then block_ok explicit_context b (base A k) h xs else raw b) →
  (n < length ring)%nat → (length ring ≤ fuel + n)%nat →
  ∃ p', reset_blocks fuel (last ring) (ring !! n) p = Ok p' ∧ pool_ok p' owned ∧
    ring_blocks (heap p') ring A h xs ∧ mallocs p' = mallocs p.
Proof.
  induction fuel as [|fuel IH]; intros n p owned ring A t h xs P Hown Hnd Hlen Ht Hbl Hn Hf; [lia|].
  pose proof block_size_pos. destruct (lookup_lt_is_Some_2 ring n Hn) as [i Hi]. cbn [reset_blocks]. rewrite Hi.
  destruct (Hbl n i Hi) as (b & Hb & Hnx & Hraw). rewrite decide_False in Hraw by lia.
  destruct (reset_fields explicit_context b) as (F1 & F2 & F3).
  rewrite (update_ok _ _ _ _ Hb), bind_ok. set (p1 := with_heap p _).
  assert (P1 : pool_ok p1 owned) by (apply update_owned; [done|by apply Hown, list_elem_of_lookup_2 with n|done|done]).
  assert (Hb1 : heap p1 !! i = Some (reset_empty explicit_context b)) by apply lookup_insert_eq.
  assert (Hbl1 : ∀ k j, ring !! k = Some j → ∃ b, heap p1 !! j = Some b ∧ next b = successor ring k ∧
     if decide (k < S n)%nat then block_ok explicit_context b (base A k) h xs else raw b).
  { intros k j Hk. destruct (decide (k = n)) as [->|Hne].
    - assert (j = i) as -> by congruence. eexists. split; [done|]. rewrite F2. split; [done|].
      rewrite decide_True by lia. apply fresh_block_ok; [by rewrite Hraw, length_replicate| |lia].
      intros m Hm. rewrite Hraw, lookup_replicate_2; [done|lia].
    - destruct (Hbl k j Hk) as (b' & Hb' & Hn' & Hok). exists b'. split; [|split; [done|]].
      + unfold p1. simpl. rewrite lookup_insert_ne; [done|]. intros ->. apply Hne. by eapply NoDup_lookup.
      + destruct (decide (k < n)%nat); [rewrite decide_True by lia|rewrite decide_False by lia]; done. }
  destruct (decide (Some i = last ring)) as [Hl|Hl].
  - exists p1. split_and!; [done|done| |done]. intros k j Hk. destruct (Hbl1 k j Hk) as (b' & Hb' & Hn' & Hok).
    exists b'. split_and!; [done|done|]. rewrite decide_True in Hok; [done|].
    symmetry in Hl. apply last_at in Hl. assert (n = (length ring - 1)%nat) by (by eapply NoDup_lookup).
    apply lookup_lt_Some in Hk. lia.
  - rewrite (deref_ok _ _ _ Hb1), bind_ok, F2, Hnx.
    assert (Hn1 : (S n < length ring)%nat).
    { destruct (decide (S n = length ring)) as [He|]; [|lia]. exfalso. apply Hl. symmetry. apply last_at.
      by replace (length ring - 1)%nat with n by lia. }
    unfold successor. rewrite decide_False by lia.
    destruct (IH (S n) p1 owned ring A t h xs) as (p' & Hr & ?); [done|done|done|done| |done|lia|lia|].
    + unfold base in *. lia.
    + by exists p'.
Qed.

(** ** [enqueue_bulk] *)

Lemma repr_reserved p r owned ring A t h xs :
  repr p r owned ring A t h xs → reserved p r owned ring [] A t h xs.
Proof.
  intros [[I1 I2 I3 I4 I5 I6 I7 I8 I9 I10 I11 I12] X F S U]. constructor; rewrite ?app_nil_r; try done; [lia|].
  intros k i Hi. destruct (I12 k i Hi) as (b & Hb & Hn & Hok). exists b. split_and!; [done|done|].
  by rewrite decide_True by (by eapply lookup_lt_Some).
Qed.

Lemma publish_front_ok r ring n A :
  index_for r ring n A → blockIndex r ≠ [] →
  ∃ hs, publish_front r = Ok (set_index r hs (pr_blockIndexSize r) (pr_blockIndexFront r)) ∧ hs ≠ [] ∧
    index_for (set_index r hs (pr_blockIndexSize r) (pr_blockIndexFront r)) ring n A ∧
    front_ok (set_index r hs (pr_blockIndexSize r) (pr_blockIndexFront r)).
Proof.
  intros X Hp. pose proof (size_bounds _ _ _ _ X) as Hs. destruct X as [X1 (m & Hm & X2) X3 X4 X5 X6].
  unfold publish_front. destruct (blockIndex r) as [|hd hs]; [done|]. eexists. split; [reflexivity|].
  split; [done|]. split.
  - constructor; try done. by exists m.
  - unfold front_ok. simpl. rewrite (wrap_small 64 (pr_blockIndexSize r - 1)) by (unfold fits; lia).
    rewrite (land_size _ m) by done. apply (wrap_mod_size _ m); [done|]. split; [done|].
    apply (Z.pow_le_mono_r_iff 2); [lia..|]. rewrite <- X2. lia.
Qed.

(** After the reservation: the blocks are reset and the index is published when the
    constructors cannot throw. *)
Lemma reserved_filling p r owned main ahead A t h xs (m : nat) :
  reserved p r owned main ahead A t h xs → length ahead = m →
  ∃ p', (if 0 <? BLOCK_SIZE * m then reset_blocks m (tailBlock r) (head ahead) p else Ok p) = Ok p' ∧
    filling p' owned (main ++ ahead) A t h xs ∧ mallocs p' = mallocs p.
Proof.
  intros [I1 I2 I3 I4 I5 I6 I7 I8 I9 I10 I11 I12 I13] Hm. pose proof block_size_pos. subst m.
  assert (Hb : t <= base A (length (main ++ ahead))) by (rewrite length_app; unfold base in *; nia).
  destruct ahead as [|a ahead].
  - rewrite Z.mul_0_r. exists p. split; [done|]. split; [|done]. rewrite app_nil_r in *.
    split; [|split; [done|lia]]. apply ring_cells; try done.
    intros k i Hk. destruct (I11 k i Hk) as (b & Hbk & Hn & Hok).
    rewrite decide_True in Hok by (by eapply lookup_lt_Some). by exists b.
  - rewrite (proj2 (Z.ltb_lt _ _)) by (simpl; lia). rewrite I4.
    destruct (reset_blocks_ok (length (a :: ahead)) (length main) p owned (main ++ a :: ahead) A t h xs)
      as (p' & Hr & P' & B' & M'); try done; [lia|rewrite length_app; simpl; lia..|].
    rewrite list_lookup_middle in Hr by done. exists p'. split; [done|]. split; [|done].
    split; [by apply ring_cells|split; [done|lia]].
Qed.

Lemma enqueue_bulk_nil noexcept_ctor canAlloc throws p r owned ring A t h xs :
  repr p r owned ring A t h xs → enqueue_bulk noexcept_ctor canAlloc [] throws p r = Ok (p, r, Returned true).
Proof.
  intros R. pose proof block_size_pos. pose proof (rp_blocks _ _ _ _ _ _ _ _ R) as I. unfold enqueue_bulk. cbn [length].
  change (Z.of_nat 0) with 0. rewrite Z.add_0_r, Z.sub_diag. change (u64 0) with 0. rewrite Z.div_0_l by lia.
  change (Z.to_nat 0) with 0%nat. cbn [take_ahead]. rewrite bind_ok. cbn [allocate]. rewrite bind_ok. cbn [negb Z.ltb Z.compare andb]. rewrite !bind_ok.
  rewrite orb_true_r, assert_ok, bind_ok by done.
  cbn [non_null]. rewrite !andb_false_r, (bo_tail _ _ _ _ _ _ _ _ I), wrap_wrap. cbn [startBlock].
  rewrite fill_blocks_nil, !bind_ok. do 2 f_equal. rewrite <- (bo_tail _ _ _ _ _ _ _ _ I). by destruct r.
Qed.


(** The reserved blocks are filled: the queue has the new elements. *)
Lemma filled_repr p r owned ring A t h xs tail' :
  filling p owned ring A t h xs → tailBlock r = last ring → headIndex r = u64 h →
  u64 (dequeueOptimisticCount r - dequeueOvercommit r) = u64 h →
  base A (length ring) - BLOCK_SIZE < t → BLOCK_SIZE * length ring < 2 ^ 62 →
  index_for r ring (length ring) A → front_ok r → blockIndex r ≠ [] → tail' = u64 t →
  repr p (set_tail r tail') owned ring A t h xs.
Proof.
  intros (F1 & F2 & F3 & F4) Ht Hh Hc Hb Hsz X Hf Hp ->. destruct X. constructor; try done.
  pose proof (cells_ring _ _ _ _ _ _ F1). destruct F1. constructor; try done. lia.
Qed.

(** The index is published once, before or after the elements are constructed. *)
Lemma publish_once noexcept_ctor (m : nat) (ahead : list nat) r ring n A :
  length ahead = m → index_for r ring n A → blockIndex r ≠ [] → (m = 0%nat → front_ok r) →
  ∃ hs0 hs1,
    let r0 := set_index r hs0 (pr_blockIndexSize r) (pr_blockIndexFront r) in
    let r1 := set_index r hs1 (pr_blockIndexSize r) (pr_blockIndexFront r) in
    (if (0 <? BLOCK_SIZE * m) && noexcept_ctor then publish_front r else Ok r) = Ok r0 ∧
    (if negb noexcept_ctor && non_null (head ahead) then publish_front r0 else Ok r0) = Ok r1 ∧
    index_for r1 ring n A ∧ front_ok r1 ∧ hs1 ≠ [].
Proof.
  intros Hm X Hp Hf. pose proof block_size_pos.
  assert (Hsame : set_index r (blockIndex r) (pr_blockIndexSize r) (pr_blockIndexFront r) = r) by by destruct r.
  destruct (publish_front_ok r ring n A X Hp) as (hs & Hpub & Hne & X' & Hf').
  destruct ahead as [|a ahead]; simpl in Hm; subst m.
  - exists (blockIndex r), (blockIndex r). cbv zeta. rewrite Hsame, Z.mul_0_r, andb_false_r. cbn. split_and!; try done. by apply Hf.
  - rewrite (proj2 (Z.ltb_lt _ _)) by lia. destruct noexcept_ctor; cbn [andb negb head non_null].
    + by exists hs, hs.
    + exists (blockIndex r), hs. cbv zeta. by rewrite Hsame.
Qed.

Lemma enqueue_bulk_ok noexcept_ctor canAlloc ys throws p r owned ring A t h xs :
  repr p r owned ring A t h xs → BLOCK_SIZE * (length ring + length ys) < 2 ^ 62 →
  no_throw noexcept_ctor throws →
  ∃ p' r' b, enqueue_bulk noexcept_ctor canAlloc ys throws p r = Ok (p', r', Returned b) ∧
    (b = true → ∃ owned' ring' A', others owned' ring' = others owned ring ∧
       repr p' r' owned' ring' A' (t + length ys) h (xs ++ ys) ∧ (length ring' ≤ length ring + length ys)%nat) ∧
    (canAlloc = true → mallocs p = [] → MAX_SUBQUEUE_SIZE = SIZE_MAX → b = true ∧ mallocs p' = []).
Proof.
  intros R Hsz Hnt. pose proof block_size_pos. destruct (decide (ys = [])) as [->|Hys].
  { exists p, r, true. rewrite (enqueue_bulk_nil _ _ _ _ _ _ _ _ _ _ _ R). split_and!; try done. intros _.
    exists owned, ring, A. rewrite app_nil_r, Z.add_0_r. split_and!; [done|done|lia]. }
  assert (Hc : (0 < length ys)%nat) by (destruct ys; simpl; [done|lia]).
  pose proof (repr_reserved _ _ _ _ _ _ _ _ R) as R0. destruct (rs_bounds _ _ _ _ _ _ _ _ _ R0) as [Hb1 Hb2].
  destruct (blocks_needed A (length ring) t (length ys) (rs_aligned _ _ _ _ _ _ _ _ _ R0) Hb2 Hc)
    as (m & Hdiff & Hstart & Hroom & Hmc); [nia|]. fold (reached A (length ring)) in Hstart.
  unfold enqueue_bulk. rewrite (bo_tail _ _ _ _ _ _ _ _ (rp_blocks _ _ _ _ _ _ _ _ R)), Hdiff, Hstart.
  rewrite (Z.mul_comm BLOCK_SIZE m), Z.div_mul, Nat2Z.id, (Z.mul_comm m BLOCK_SIZE) by lia.
  destruct (take_ahead_ok m p r owned ring [] A t h xs R0) as
    (r1 & main & ahead1 & A1 & left & Hahead & R1 & Hperm & [Hleft _] & Hnil & [d Hdrop] & Hbase).
  rewrite app_nil_r in Hahead, Hperm. pose proof (Permutation_length Hperm) as Hlen1. cbn [head] in Hahead. rewrite Hahead, bind_ok. simpl in Hleft.
  rewrite <- Hlen1. destruct (allocate_ok left canAlloc (Original (pr_blockIndexFront r) (pr_blockIndexSlotsUsed r) (tailBlock r))
    p r1 owned main ahead1 A1 t h xs R1) as (p2 & r2 & o2 & owned2 & ahead & ok & Hal & R2 & Hst & Hoth & Hlen2 & Hzero & Hmem);
    [rewrite Hlen1; nia|]. rewrite Hal, bind_ok.
  destruct ok; cbn [negb]; [|do 3 eexists; split; [reflexivity|]; split; [done|]; intros Hca Hm Hmax; by destruct (Hmem Hca Hm Hmax)].
  specialize (Hlen2 eq_refl). assert (Hm : length ahead = m) by lia.
  destruct (reserved_filling _ _ _ _ _ _ _ _ _ m R2 Hm) as (p3 & -> & F & M3). rewrite bind_ok.
  destruct R2 as [J1 J2 J3 J4 J5 J6 J7 J8 J9 J10 J11 J12 J13]. set (ring2 := main ++ ahead) in *.
  assert (Hlen : length ring2 = (length ring + left)%nat) by (unfold ring2; rewrite <- Hlen1, !length_app; lia).
  assert (Hend : base A1 (length ring2) = base A (length ring + m)).
  { unfold ring2 in *. rewrite length_app, Hm. unfold base in *. lia. }
  assert (Hne : ring2 ≠ []).
  { intros Hn. unfold ring2 in Hn. apply app_eq_nil in Hn as [-> ->]. simpl in Hm, Hbase. subst m. unfold base in *. simpl in *. lia. }
  assert (Hp2 : blockIndex r2 ≠ []).
  { intros Hb. pose proof (ix_current _ _ _ _ J12) as C. by rewrite Hb in C. }
  destruct (publish_once noexcept_ctor m ahead r2 ring2 (length ring2) A1 Hm J12 Hp2) as (hs0 & hs1 & -> & Hpub & X & Hfr & Hhs).
  { intros ->. assert (left = 0%nat) as Hl0 by lia. destruct (Hzero Hl0) as (_ & -> & _ & _ & ->).
    destruct ahead1; [|done]. destruct (Hnil eq_refl) as (-> & -> & _). apply (rp_front _ _ _ _ _ _ _ _ R).
    unfold ring2 in Hne. by rewrite app_nil_r in Hne. }
  rewrite bind_ok. destruct (start_in_ring main ahead A1 t (head ahead) (startBlock o2)) as (k & Htb & _ & Hk & Hkm & Htk & Has).
  { done. } { lia. } { intros He. rewrite Hm. unfold base in *. intros ->. rewrite Nat.add_0_r in Hroom. lia. } { done. }
  { intros Hmain. rewrite Hst. cbn [startBlock]. rewrite (bo_tail_block _ _ _ _ _ _ _ _ (rp_blocks _ _ _ _ _ _ _ _ R)).
    assert (d < length ring)%nat.
    { destruct (decide (d < length ring)%nat); [done|]. by rewrite Hdrop, drop_ge in Hmain by lia. }
    rewrite Hdrop, !last_lookup, lookup_drop, length_drop. f_equal. lia. }
  { intros Hmain. rewrite Hmain in J10. simpl in J10. unfold base in *. rewrite Hmain. simpl. lia. }
  rewrite Has, assert_ok, bind_ok by done. fold ring2 in Htb, Hk. rewrite Htb, wrap_add_l. cbn [tailBlock set_index]. rewrite J4.
  destruct F as (C & Fl & Fb & Fr). replace t with (h + length xs) in * by lia.
  destruct (fill_blocks_ok _ _ noexcept_ctor (S m) k p3 owned2 ring2 A1 h xs ys throws C
    (ring_chained ring2 k) Hk Htk) as (n & p4 & f & -> & _ & C4 & M4 & Hf & Hnt');
    [rewrite Hend; lia|unfold ring2; rewrite length_app; lia|rewrite Hlen; nia|].
  rewrite (Hnt' Hnt) in Hf |- *. subst n. rewrite firstn_all in C4.
  rewrite bind_ok, Hpub, bind_ok. do 3 eexists. split; [reflexivity|]. split.
  - intros _. exists owned2, ring2, A1. split; [|split; [|lia]].
    + rewrite Hoth. unfold others. f_equal. by rewrite Hperm.
    + apply filled_repr; try done; [|rewrite Hend; lia|rewrite Hlen; nia].
      split; [done|]. rewrite length_app, Hend. lia.
  - intros Hca Hm0 Hmax. split; [done|]. rewrite M4, M3. by apply Hmem.
Qed.


(** ** [dequeue_bulk] *)

(** The slots of a block that were dequeued are marked, at once. *)
Lemma finish_block p owned ring A h zs rest k i b b1 (j : nat) :
  pool_ok p owned → (∀ i, i ∈ ring → i ∈ owned) → NoDup ring → A mod BLOCK_SIZE = 0 →
  ring_blocks (heap p) ring A h (zs ++ rest) → ring !! k = Some i → heap p !! i = Some b →
  slots_changed b b1 → slots_ok b1 (base A k) (h + length zs) rest →
  h = base A k + j → j < BLOCK_SIZE → j + length zs <= BLOCK_SIZE →
  ∃ p2, empty_slots i (u64 h) (u64 (h + length zs)) (with_heap p (<[i := b1]> (heap p))) = Ok p2 ∧
    mallocs p2 = mallocs p ∧ pool_ok p2 owned ∧ ring_blocks (heap p2) ring A (h + length zs) rest.
Proof.
  intros P Hown Hnd HA Hr Hk Hb Hch Hs Hh Hj Hjz. pose proof block_size_pos.
  destruct (Hr k i Hk) as (b' & Hb' & Hn & [_ _ Ht]). assert (b' = b) as -> by congruence.
  assert (Hslot : slot (u64 h) = j) by (rewrite slot_wrap, Hh; by apply base_slot; [|lia]).
  assert (Hi : i ∈ owned) by (by eapply Hown, list_elem_of_lookup_2).
  unfold empty_slots. rewrite (deref_ok _ i b1) by apply lookup_insert_eq. rewrite bind_ok.
  assert (Hcount : u64 (u64 (h + length zs) - u64 h) = length zs).
  { autorewrite with wrap. replace (h + length zs - h) with (Z.of_nat (length zs)) by lia.
    rewrite wrap_small; [done|]. unfold fits. lia. }
  rewrite Hcount. assert (Ht1 : tracks explicit_context b1 (dequeued_slots h (base A k))).
  { rewrite Hch. exact Ht. }
  destruct (set_many_empty_tracks explicit_context b1 _ (u64 h) (length zs) Ht1) as (b2 & -> & Ht2 & F1 & F2 & F3 & _).
  { rewrite Hslot. lia. }
  { intros j'. rewrite Hslot, elem_of_seq. unfold dequeued_slots. rewrite elem_of_seq. lia. }
  rewrite bind_ok, (update_ok _ i b1) by apply lookup_insert_eq. rewrite with_heap_twice.
  eexists. split; [reflexivity|]. rewrite Hch in F2, F3. split; [done|]. split.
  - by apply (update_owned p owned i b (λ _, b2)).
  - apply (ring_insert _ _ _ h (zs ++ rest) _ _ k); try done; [by rewrite F2| |].
    + destruct Hs as [Hs1 Hs2]. constructor; [by rewrite F1|intros j' Hj'; rewrite F1; by apply Hs2|].
      eapply tracks_Permutation; [|exact Ht2]. rewrite Hslot, Nat2Z.id. unfold dequeued_slots.
      replace (Z.to_nat (Z.min BLOCK_SIZE (h - base A k))) with j by lia.
      replace (Z.to_nat (Z.min BLOCK_SIZE (h + length zs - base A k))) with (j + length zs)%nat by lia.
      rewrite seq_app. apply Permutation_app_comm.
    + intros k' c Hk' Hlt Hc. apply other_block_many; [done|].
      rewrite Hh. unfold base. assert (k' < k ∨ k < k')%nat as [?|?] by lia; [right|left]; nia.
Qed.

(** *** Block by block *)

Section blocks.
Context (r : producer) (hd : header) (hs : list header) (owned : gset nat) (ring : list nat) (A : Z).
Context (Hindex : index_for r ring (length ring) A) (Hhd : blockIndex r = hd :: hs).
Context (Hown : ∀ i, i ∈ ring → i ∈ owned) (Hnodup : NoDup ring) (HA : A mod BLOCK_SIZE = 0).
Context (Hsz : BLOCK_SIZE * length ring < 2 ^ 62).

(** The place of the entry of a block. *)
Definition position (k : nat) : Z := (pr_blockIndexFront r - length ring + k) mod pr_blockIndexSize r.

Lemma entry_block_ok k i : ring !! k = Some i → entry_block hd (position k) = Ok i.
Proof. intros Hi. unfold entry_block, position. by rewrite (entry_at _ _ _ _ _ _ _ Hindex Hhd Hi). Qed.

Lemma position_next k : Z.land (u64 (position k + 1)) (u64 (size hd - 1)) = position (S k).
Proof.
  pose proof (size_bounds _ _ _ _ Hindex) as Hs. destruct Hindex as [_ (m & Hm & X2) _ _ _ X6].
  rewrite Hhd in X6. destruct X6 as (-> & _). rewrite (wrap_small 64 (_ - 1)) by (unfold fits; lia).
  rewrite (land_size _ m), (wrap_mod_size _ m) by
    (done || (split; [done|]; apply (Z.pow_le_mono_r_iff 2); [lia..|]; rewrite <- X2; lia)).
  unfold position. rewrite Z.add_mod_idemp_l by lia. f_equal. lia.
Qed.

(** The rest of a block, of which [n] elements are gone, is destroyed, and the blocks after it. *)
Lemma destroy_rest_ok (fuel : nat) first cnt rest : ∀ (k n : nat) p h ys i b b1,
  pool_ok p owned → ring_blocks (heap p) ring A h (ys ++ rest) → ring !! k = Some i → heap p !! i = Some b →
  slots_changed b b1 → slots_ok b1 (base A k) (h + n) (drop n ys ++ rest) → (n ≤ length ys)%nat →
  base A k <= h < base A (S k) → h + n <= base A (S k) → h + length ys <= base A (length ring) →
  u64 (first + cnt) = u64 (h + length ys) → (length ring ≤ fuel + k)%nat →
  ∃ p', destroy_rest fuel hd first cnt (u64 h) (u64 (h + n)) (position k) (with_heap p (<[i := b1]> (heap p))) = Ok p' ∧
    mallocs p' = mallocs p ∧ pool_ok p' owned ∧ ring_blocks (heap p') ring A (h + length ys) rest.
Proof.
  induction fuel as [|fuel IH]; intros k n p h ys i b b1 P Hr Hk Hb Hch Hs Hn Hh Hhn HT Hf Hfuel;
    pose proof (lookup_lt_Some _ _ _ Hk) as Hlt; [lia|]. pose proof block_size_pos. cbn [destroy_rest].
  destruct (part_to_take A (length ring) first cnt k h ys HA Hsz Hf Hh HT Hlt) as (m & -> & Hm & Hmb & -> & Hmore & Hturns).
  assert (Hnm : (n ≤ m)%nat) by (destruct (decide (m = length ys)) as [->|Hne]; [done|destruct (Hmore Hne); lia]).
  rewrite (entry_block_ok _ _ Hk), bind_ok, Hturns by done.
  set (zs := take m ys). assert (Hzs : length zs = m) by (unfold zs; rewrite length_take; lia).
  assert (Hys : ys = zs ++ drop m ys) by (symmetry; apply take_drop).
  assert (Hdr : drop n ys = drop n zs ++ drop m ys) by (rewrite Hys at 1; by rewrite drop_app_le by lia).
  rewrite Hdr, <- app_assoc in Hs.
  destruct (destroy_slots_ok (drop n zs) (with_heap p (<[i := b1]> (heap p))) i b1 (base A k) (h + n)
    (drop m ys ++ rest) (Z.to_nat (h + n - base A k))) as (b2 & Hd & Hs2 & Hch2).
  { apply lookup_insert_eq. } { done. } { by apply base_aligned. } { lia. }
  { rewrite length_drop. unfold base in *. lia. }
  rewrite length_drop, Hzs in Hd, Hs2. rewrite Hd, bind_ok, with_heap_twice.
  replace (h + n + (m - n)%nat) with (h + m) in Hs2 by lia.
  destruct (finish_block p owned ring A h zs (drop m ys ++ rest) k i b b2 (Z.to_nat (h - base A k)))
    as (p2 & He & M2 & P2 & Hr2); try done.
  { by rewrite app_assoc, <- Hys. } { unfold slots_changed in *. by rewrite Hch2, Hch. }
  { by rewrite Hzs. } { lia. } { unfold base in *. lia. } { unfold base in *. lia. }
  rewrite Hzs in He, Hr2. rewrite He, bind_ok. case_bool_decide as Hend.
  - exists p2. rewrite Hend, drop_all in Hr2. by rewrite Hend in *.
  - destruct (Hmore Hend) as [Hbase HSk]. destruct (lookup_lt_is_Some_2 ring (S k) HSk) as [i' Hi'].
    destruct (Hr2 _ _ Hi') as (b' & Hb' & _ & Hok'). rewrite position_next.
    destruct (IH (S k) 0%nat p2 (h + m) (drop m ys) i' b' b') as (p' & Hp & M' & P' & Hr'); try done.
    { apply slots_changed_refl. } { rewrite Z.add_0_r, drop_0. by apply block_slots in Hok'. }
    { lia. } { unfold base in *. lia. } { unfold base in *. lia. } { rewrite length_drop. lia. }
    { rewrite length_drop, Hf. f_equal. lia. } { lia. }
    rewrite with_heap_same, Z.add_0_r in Hp by done. exists p'. rewrite length_drop in Hr'.
    replace (h + m + (length ys - m)%nat) with (h + length ys) in Hr' by lia.
    split_and!; [done|congruence|done|done].
Qed.

Lemma take_blocks_ok (fuel : nat) first cnt rest : ∀ (k : nat) throws p h ys,
  pool_ok p owned → ring_blocks (heap p) ring A h (ys ++ rest) → (k < length ring)%nat →
  base A k <= h < base A (S k) → h + length ys <= base A (length ring) →
  u64 (first + cnt) = u64 (h + length ys) → (length ring ≤ fuel + k)%nat →
  ∃ p' (n : nat), take_blocks fuel throws hd first cnt (u64 h) (position k) p =
      Ok (p', take n ys, bool_decide (n < length ys)%nat) ∧ (n ≤ length ys)%nat ∧ (throws = [] → n = length ys) ∧
    mallocs p' = mallocs p ∧ pool_ok p' owned ∧ ring_blocks (heap p') ring A (h + length ys) rest.
Proof.
  induction fuel as [|fuel IH]; intros k throws p h ys P Hr Hk Hh HT Hf Hfuel; [lia|].
  pose proof block_size_pos. cbn [take_blocks]. destruct (lookup_lt_is_Some_2 ring k Hk) as [i Hi].
  destruct (part_to_take A (length ring) first cnt k h ys HA Hsz Hf Hh HT Hk) as (m & Hend & Hm & Hmb & Hlast & Hmore & Hturns).
  rewrite Hend, (entry_block_ok _ _ Hi), bind_ok.
  pose proof (Hturns 0%nat ltac:(lia)) as Hall. rewrite Z.add_0_r, Nat.sub_0_r in Hall. rewrite Hall. destruct (Hr _ _ Hi) as (b & Hb & Hn & Hok).
  set (zs := take m ys). assert (Hzs : length zs = m) by (unfold zs; rewrite length_take; lia).
  assert (Hys : ys = zs ++ drop m ys) by (symmetry; apply take_drop).
  destruct (take_slots_ok zs throws p i b (base A k) h (drop m ys ++ rest) (Z.to_nat (h - base A k)) Hb)
    as (n & b1 & throws1 & Ht & Hnz & Hs1 & Hch & Hnt).
  { rewrite app_assoc, <- Hys. by apply block_slots in Hok. } { by apply base_aligned. } { lia. }
  { unfold base in *. lia. }
  rewrite Hzs in Ht. rewrite Ht, bind_ok. case_bool_decide as Hth.
  - destruct (destroy_rest_ok (S fuel) first cnt rest k n p h ys i b b1) as (p' & Hd & M' & P' & Hr'); try done.
    { rewrite Hys at 1. rewrite drop_app_le, <- app_assoc by lia. exact Hs1. } { lia. }
    { unfold base in *. lia. }
    rewrite Hd, bind_ok. exists p', n. split_and!; try done; [|lia|intros ->; destruct (Hnt eq_refl); lia].
    unfold zs. rewrite take_take, Nat.min_l, bool_decide_eq_true_2 by lia. done.
  - assert (n = m) as -> by lia. destruct (finish_block p owned ring A h zs (drop m ys ++ rest) k i b b1
      (Z.to_nat (h - base A k))) as (p2 & He & M2 & P2 & Hr2); try done.
    { by rewrite app_assoc, <- Hys. } { rewrite Hzs. rewrite drop_ge in Hs1 by lia. exact Hs1. }
    { lia. } { unfold base in *. lia. } { unfold base in *. lia. }
    rewrite Hzs in He, Hr2. rewrite He, bind_ok, Hlast. rewrite take_ge by lia. case_bool_decide as Hm'.
    + exists p2, m. unfold zs. rewrite Hm' in Hr2 |- *. rewrite drop_all in Hr2. by rewrite bool_decide_eq_false_2 by lia.
    + destruct (Hmore Hm') as [Hbase HSk]. rewrite position_next.
      destruct (IH (S k) throws1 p2 (h + m) (drop m ys)) as (p' & n' & Hp & Hn' & Hnt' & M' & P' & Hr'); try done.
      { unfold base in *. lia. } { rewrite length_drop. lia. } { rewrite length_drop, Hf. f_equal. lia. } { lia. }
      rewrite Hp, bind_ok. exists p', (m + n')%nat. rewrite length_drop in *.
      replace (h + m + (length ys - m)%nat) with (h + length ys) in Hr' by lia. split_and!; try done.
      * unfold zs. rewrite take_take_drop. do 2 f_equal. apply bool_decide_ext. lia.
      * lia.
      * intros ->. destruct (Hnt eq_refl) as [_ ->]. rewrite Hnt'; [lia|done].
      * congruence.
Qed.
End blocks.

(** The elements, at most [max], leave the queue in order; the index is not needed when
    there are none. *)
Lemma dequeue_bulk_ok throws (max : nat) p r owned ring A t h xs :
  repr p r owned ring A t h xs →
  ∃ p' r' (n : nat),
    let taken := take max xs in
    dequeue_bulk throws max p r =
      Ok (p', r', if decide (n < length taken)%nat then LostMany (take n taken) else GotMany taken) ∧
    (throws = [] → n = length taken) ∧
    repr p' r' owned ring A t (h + length taken) (drop max xs) ∧ mallocs p' = mallocs p.
Proof.
  intros R. pose proof R as [I X F S U]. pose proof block_size_pos.
  pose proof (span _ _ _ _ _ _ _ _ I) as Hspan. pose proof (bo_size _ _ _ _ _ _ _ _ I) as Hsz.
  pose proof I as [I1 I2 I3 I4 I5 I6 I7 I8 I9 I10 I11 I12].
  unfold dequeue_bulk. rewrite I7, I5. autorewrite with wrap. rewrite <- I8.
  assert (Hfit : u64 (length xs) = length xs) by (apply wrap_small; unfold fits; lia). rewrite Hfit.
  assert (Hclt : clt 0 (length xs) = (0 <? length xs)) by (rewrite <- (clt_spec 0 (length xs)), Hfit by lia; done).
  rewrite Hclt. destruct (Z.ltb_spec 0 (length xs)) as [Hne|He].
  2:{ destruct xs; [|simpl in He; lia]. rewrite take_nil, drop_nil. exists p, r, 0%nat. rewrite Z.add_0_r. by split_and!. }
  set (taken := take max xs).
  assert (Htk : Z.of_nat (length taken) = if length xs <? max then Z.of_nat (length xs) else Z.of_nat max).
  { unfold taken. rewrite length_take. destruct (Z.ltb_spec (length xs) max); lia. }
  rewrite <- Htk.
  assert (Hle : (length taken ≤ length xs)%nat) by (unfold taken; rewrite length_take; lia).
  assert (Hac : (if length taken <? length xs then Z.of_nat (length taken) else Z.of_nat (length xs)) = length taken)
    by (destruct (Z.ltb_spec (length taken) (length xs)); lia).
  rewrite Hac, Z.ltb_irrefl. cbn [headIndex dequeueOptimisticCount set_counts blockIndex].
  destruct (locate A (length ring) h) as (k & j & Hk & Hj & Hh); [lia|].
  destruct (blockIndex r) as [|hd hs] eqn:Hbi.
  { pose proof (ix_current _ _ _ _ X) as C. rewrite Hbi in C.
    rewrite C in Hk. simpl in Hk. lia. }
  assert (Hf : front_ok r) by (apply F; intros ->; simpl in Hk; lia).
  destruct (locate_entry r ring A k j hd hs X Hf Hbi I9 Hsz Hk Hj) as [[il Hil] Hpos].
  rewrite Hil, bind_ok, I6. unfold block_start. rewrite <- Hh in Hpos.
  assert (Hmask : u64 (size hd - 1) = size hd - 1).
  { pose proof (size_bounds _ _ _ _ X). pose proof (ix_current _ _ _ _ X) as C. rewrite Hbi in C.
    destruct C as (-> & _). apply wrap_small. unfold fits. lia. }
  rewrite Hmask, Hpos. fold (position r ring k).
  assert (Hlen : (length ring ≤ length (entries hd))%nat).
  { pose proof (ix_room _ _ _ _ X). pose proof (ix_current _ _ _ _ X) as C. rewrite Hbi in C. lia. }
  assert (Hxs : xs = taken ++ drop max xs) by (symmetry; apply take_drop).
  destruct (take_blocks_ok r hd hs owned ring A X Hbi I2 I3 I9 Hsz (Datatypes.S (length (entries hd))) (u64 h)
    (length taken) (drop max xs) k throws p h taken) as (p' & n & Htb & Hn & Hnt & M' & P' & Hr'); try done.
  { by rewrite <- Hxs. } { unfold base in *. lia. } { lia. } { by autorewrite with wrap. } { lia. }
  rewrite Htb, bind_ok. do 2 eexists. exists n. split.
  { case_bool_decide.
    - by rewrite decide_True.
    - by rewrite decide_False, take_ge by lia. }
  split; [done|]. split; [|done]. constructor; try done; [|destruct X; by constructor|simpl; congruence].
  constructor; simpl; try done.
  - by autorewrite with wrap.
  - autorewrite with wrap.
    replace (dequeueOptimisticCount r + length taken - dequeueOvercommit r) with
      (dequeueOptimisticCount r - dequeueOvercommit r + length taken) by lia.
    rewrite <- wrap_add_l, I7. by autorewrite with wrap.
  - rewrite length_drop. unfold taken. rewrite length_take. lia.
  - lia.
Qed.

(** ** The producer is a queue *)

Lemma exec_bulk_ok noexcept_ctor c p r owned ring A t h xs :
  repr p r owned ring A t h xs → BLOCK_SIZE * (length ring + adds c) < 2 ^ 62 → call_ok c →
  mallocs p = [] → MAX_SUBQUEUE_SIZE = SIZE_MAX →
  ∃ p' r' owned' ring' A' t' h',
    exec_bulk noexcept_ctor p r c = Ok (p', r', (queue_step xs c).2) ∧
    repr p' r' owned' ring' A' t' h' (queue_step xs c).1 ∧ mallocs p' = [] ∧
    (length ring' ≤ length ring + adds c)%nat.
Proof.
  intros R Hsz Hc Hm Hmax. destruct c as [[canAlloc x|]|canAlloc ys|max]; simpl in Hc, Hsz |- *.
  - destruct (enqueue_ok noexcept_ctor canAlloc false x p r owned ring A t h xs R)
      as (p1 & r1 & b & -> & Hb & Hmem); [lia|by rewrite andb_false_r|].
    destruct (Hmem Hc Hm Hmax) as [-> Hm1]. destruct Hb as (o & g & A1 & _ & R1 & Hl).
    exists p1, r1, o, g, A1, (t + 1), h. split_and!; [done..|lia].
  - destruct (dequeue_ok false p r owned ring A t h xs R) as (p1 & r1 & -> & R1 & Hm1).
    exists p1, r1, owned, ring, A, t. eexists. split; [by destruct xs|]. split; [exact R1|]. split; [congruence|lia].
  - destruct (enqueue_bulk_ok noexcept_ctor canAlloc ys [] p r owned ring A t h xs R)
      as (p1 & r1 & b & -> & Hb & Hmem); [lia|by right|].
    destruct (Hmem Hc Hm Hmax) as [-> Hm1]. destruct (Hb eq_refl) as (o & g & A1 & _ & R1 & Hl).
    exists p1, r1, o, g, A1, (t + length ys), h. by split_and!.
  - destruct (dequeue_bulk_ok [] max p r owned ring A t h xs R) as (p1 & r1 & n & -> & Hn & R1 & Hm1).
    rewrite (Hn eq_refl), bind_ok, decide_False by lia. exists p1, r1, owned, ring, A, t. eexists.
    split; [done|]. split; [exact R1|]. split; [congruence|lia].
Qed.

Lemma run_bulk_ok noexcept_ctor cs : ∀ p r owned ring A t h xs,
  repr p r owned ring A t h xs → BLOCK_SIZE * (length ring + sum_list (adds <$> cs)) < 2 ^ 62 → Forall call_ok cs →
  mallocs p = [] → MAX_SUBQUEUE_SIZE = SIZE_MAX →
  ∃ p' r' owned' ring' A' t' h',
    run_bulk noexcept_ctor p r cs = Ok (p', r', (queue_steps xs cs).2) ∧
    repr p' r' owned' ring' A' t' h' (queue_steps xs cs).1.
Proof.
  induction cs as [|c cs IH]; intros p r owned ring A t h xs R Hsz Hcs Hm Hmax; cbn [run_bulk queue_steps].
  { by exists p, r, owned, ring, A, t, h. }
  pose proof block_size_pos. apply Forall_cons in Hcs as [Hc Hcs].
  rewrite fmap_cons in Hsz. cbn [sum_list id] in Hsz. rewrite Nat2Z.inj_add in Hsz.
  set (n := sum_list (adds <$> cs)) in *. assert (0 <= BLOCK_SIZE * n) by nia.
  destruct (exec_bulk_ok noexcept_ctor c p r owned ring A t h xs R) as
    (p1 & r1 & o1 & g1 & A1 & t1 & h1 & -> & R1 & Hm1 & Hl); [nia|done..|].
  destruct (IH p1 r1 o1 g1 A1 t1 h1 _ R1) as (p2 & r2 & o2 & g2 & A2 & t2 & h2 & Hr & R2); [nia|done..|].
  rewrite bind_ok, Hr. destruct (queue_step xs c) as [xs1 a]. simpl in *. destruct (queue_steps xs1 cs) as [xs2 answers].
  by exists p2, r2, o2, g2, A2, t2, h2.
Qed.

(** C18: single and bulk calls mixed, from any state a queue can be in: with memory
    available and no limit on the size, [enqueue_bulk] never fails and appends its
    elements, [dequeue_bulk] takes the first [max] elements or all there are, and every
    run answers what the list of the elements answers; no assertion fails. *)
Theorem explicit_bulk_refines noexcept_ctor p r owned ring A t h xs cs :
  repr p r owned ring A t h xs → BLOCK_SIZE * (length ring + sum_list (adds <$> cs)) < 2 ^ 62 → Forall call_ok cs →
  mallocs p = [] → MAX_SUBQUEUE_SIZE = SIZE_MAX →
  ∃ p' r', run_bulk noexcept_ctor p r cs = Ok (p', r', (queue_steps xs cs).2) ∧
    size_approx r' = length (queue_steps xs cs).1.
Proof.
  intros R Hsz Hcs Hm Hmax. destruct (run_bulk_ok noexcept_ctor cs p r owned ring A t h xs R Hsz Hcs Hm Hmax)
    as (p' & r' & o & g & A' & t' & h' & Hr & R'). exists p', r'. split; [done|]. by eapply size_approx_repr.
Qed.

End proofs.
End producer.

(** ** Examples *)

(** Three bulks over several blocks, with the counters about to wrap. *)
Definition bulks : list (bulk_call (T := Z)) :=
  [EnqueueBulk true (seqZ 0 50); One (Enqueue true 50); DequeueBulk 45; EnqueueBulk true (seqZ 51 70);
   One Dequeue; DequeueBulk 100; DequeueBulk 1; EnqueueBulk true []].

Definition bulk_answers : list (bulk_answer (T := Z)) :=
  [EnqueuedBulk true; Answer (Enqueued true); DequeuedBulk (seqZ 0 45); EnqueuedBulk true;
   Answer (Dequeued (Some 45)); DequeuedBulk (seqZ 46 75); DequeuedBulk []; EnqueuedBulk true].

Lemma explicit_bulk_refines_witness :
  queue_steps [] bulks = ([], bulk_answers) ∧
  ∃ p' r', run_bulk true one_block about_to_wrap bulks = Ok (p', r', (queue_steps [] bulks).2) ∧
    size_approx r' = length (queue_steps [] bulks).1.
Proof.
  split; [by vm_compute|]. eapply (explicit_bulk_refines true one_block about_to_wrap).
  - exact about_to_wrap_repr.
  - by vm_compute.
  - repeat constructor.
  - done.
  - done.
Defined.

(** 33 blocks are asked for where the index has room for 32 and there is no memory for
    a larger one: the 32 blocks that were reserved stay in the ring.  There is memory for
    a block more later. *)
Definition no_larger_index {T} (mem : list bool) : result (pool T * producer) :=
  create (initial_blocks 1 (true :: true :: replicate 31 true ++ false :: true :: mem)).

Definition after_failure {T} (x y : nat → T) (taken : nat) : list (bulk_call (T := T)) :=
  EnqueueBulk true (x <$> seq 0 1056) :: (One ∘ Enqueue true ∘ y <$> seq 0 1056) ++ replicate taken (One Dequeue).

(** C27: when [enqueue_bulk] fails because its index of blocks cannot grow, it keeps the
    blocks it reserved in the ring but no longer counts them as used slots of the index.
    Later calls take blocks of the ring into the index without looking for room, so that
    they overwrite the entries of blocks that are in use.  It happens, whatever the
    elements, when a bulk asks for 33 blocks of 32 elements, the index has 32 entries and
    there is no memory for a larger one, and 1056 elements are enqueued one by one
    afterwards, each answered by true: the first 32 elements are never handed out, the
    last 32 come in their place, and the 1025th dequeue moves out of a slot that was
    emptied before. *)
Theorem failed_bulk_loses_elements (T : Type) (x y : nat → T) (mem : list bool) :
  match ('(p, r) ← no_larger_index mem; run_bulk true p r (after_failure x y 1024)) with
  | Ok (p, r, answers) =>
      answers = EnqueuedBulk false :: replicate 1056 (Answer (Enqueued true)) ++
        (Answer ∘ Dequeued ∘ Some ∘ y <$> seq 1024 32 ++ seq 32 992) ∧
      run_bulk true p r [One Dequeue] = UB
  | _ => False
  end.
Proof. vm_compute. split; reflexivity. Qed.
End McExplicitBulk.
