(* ===== verification/McImplicitIndex.v ===== *)
(** * The block index of [ConcurrentQueue::ImplicitProducer]

    concurrentqueue.h: the data of [ImplicitProducer] and its block index, a
    circular array of pointers to entries, each with the base of a block and the
    block; entries outlive the array when it is replaced by a larger one. *)
From S2P Require Import Prelude BitTricks McDetails McBlock McPool McSlots.
Local Open Scope Z_scope.

Module McImplicitIndex.
Import McDetails McBlock McPool McSlots.

Section producer.
Context `{Traits} {T : Type}.

Definition INVALID_BLOCK_BASE : Z := 1.

(** [BlockIndexEntry]; an [atomic] that was never stored to has no value. *)
Record entry := Entry { key : Z; value : option (option nat) }.

(** [BlockIndexHeader]: the array of pointers, [None] for one that was never set. *)
Record header := Header { capacity : Z; tail_ : Z; index_ : list (option nat) }.

(** The producer: [blockIndex] with the headers that came before it, and all
    entries by address. *)
Record producer := Producer {
  tailIndex : Z;
  headIndex : Z;
  dequeueOptimisticCount : Z;
  dequeueOvercommit : Z;
  tailBlock : option nat;
  nextBlockIndexCapacity : Z;
  blockIndex : list header;
  all_entries : list entry
}.

Definition set_tail (r : producer) (t : Z) : producer :=
  Producer t (headIndex r) (dequeueOptimisticCount r) (dequeueOvercommit r) (tailBlock r)
    (nextBlockIndexCapacity r) (blockIndex r) (all_entries r).

Definition set_block (r : producer) (b : option nat) : producer :=
  Producer (tailIndex r) (headIndex r) (dequeueOptimisticCount r) (dequeueOvercommit r) b
    (nextBlockIndexCapacity r) (blockIndex r) (all_entries r).

Definition set_counts (r : producer) (head optimistic overcommit : Z) : producer :=
  Producer (tailIndex r) head optimistic overcommit (tailBlock r)
    (nextBlockIndexCapacity r) (blockIndex r) (all_entries r).

Definition set_index (r : producer) (cap : Z) (hs : list header) (es : list entry) : producer :=
  Producer (tailIndex r) (headIndex r) (dequeueOptimisticCount r) (dequeueOvercommit r) (tailBlock r)
    cap hs es.

(** The entry behind a pointer, and stores to it. *)
Definition get_entry (r : producer) (id : nat) : result entry :=
  match all_entries r !! id with Some e => Ok e | None => UB end.

Definition put_entry (r : producer) (id : nat) (e : entry) : producer :=
  set_index r (nextBlockIndexCapacity r) (blockIndex r) (<[id := e]> (all_entries r)).

Definition store_value (r : producer) (id : nat) (v : option nat) : result producer :=
  e ← get_entry r id; Ok (put_entry r id (Entry (key e) (Some v))).

Definition load_value (e : entry) : result (option nat) :=
  match value e with Some v => Ok v | None => UB end.

Definition pointer (h : header) (pos : Z) : result nat :=
  o ← aread (index_ h) pos; match o with Some id => Ok id | None => UB end.

(** ** The block index *)

(** The copy loop of [new_block_index]; [fuel] bounds its turns. *)
Fixpoint copy_index (fuel : nat) (h : header) (prevPos : Z) : result (list (option nat)) :=
  match fuel with
  | O => UB
  | S fuel =>
      let prevPos := Z.land (u64 (prevPos + 1)) (u64 (capacity h - 1)) in
      e ← aread (index_ h) prevPos;
      if prevPos =? tail_ h then Ok [e] else rest ← copy_index fuel h prevPos; Ok (e :: rest)
  end.

Definition new_block_index (p : pool T) (r : producer) : result (pool T * producer * bool) :=
  let prevCapacity := match blockIndex r with [] => 0 | prev :: _ => capacity prev end in
  let entryCount :=
    match blockIndex r with [] => nextBlockIndexCapacity r | prev :: _ => capacity prev end in
  let '(ok, p) := malloc p in
  if negb ok then Ok (p, r, false)
  else
    copied ← match blockIndex r with
             | [] => Ok []
             | prev :: _ =>
                 l ← copy_index (S (length (index_ prev))) prev (tail_ prev);
                 assert_ NDEBUG (Z.of_nat (length l) =? prevCapacity);; Ok l
             end;
    let fresh := Some <$> seq (length (all_entries r)) (Z.to_nat entryCount) in
    let cap := nextBlockIndexCapacity r in
    defined_if (prevCapacity + entryCount <=? cap);;
    let header := Header cap (Z.land (u64 (prevCapacity - 1)) (u64 (cap - 1)))
      (copied ++ fresh ++ replicate (Z.to_nat (cap - prevCapacity - entryCount)) None) in
    Ok (p, set_index r (u64 (Z.shiftl cap 1)) (header :: blockIndex r)
             (all_entries r ++ replicate (Z.to_nat entryCount) (Entry INVALID_BLOCK_BASE None)), true).

(** The key is set and the tail of the index moved to the entry. *)
Definition reserve (r : producer) (newTail : Z) (id : nat) (blockStartIndex : Z) : result producer :=
  match blockIndex r with
  | [] => UB
  | h :: hs =>
      e ← get_entry r id;
      let r := put_entry r id (Entry blockStartIndex (value e)) in
      Ok (set_index r (nextBlockIndexCapacity r) (Header (capacity h) newTail (index_ h) :: hs)
            (all_entries r))
  end.

Definition next_tail (h : header) : Z := Z.land (u64 (tail_ h + 1)) (u64 (capacity h - 1)).

Definition insert_block_index_entry (canAlloc : bool) (blockStartIndex : Z) (p : pool T) (r : producer) :
    result (pool T * producer * option nat) :=
  match blockIndex r with
  | [] => Ok (p, r, None)
  | h :: _ =>
      let newTail := next_tail h in
      idxEntry ← pointer h newTail;
      e ← get_entry r idxEntry;
      free ← (if key e =? INVALID_BLOCK_BASE then Ok true
              else v ← load_value e; Ok (bool_decide (v = None)));
      if free : bool then r ← reserve r newTail idxEntry blockStartIndex; Ok (p, r, Some idxEntry)
      else if negb canAlloc then Ok (p, r, None)
      else
        '(p, r, ok) ← new_block_index p r;
        if negb ok then Ok (p, r, None)
        else
          match blockIndex r with
          | [] => UB
          | h :: _ =>
              let newTail := next_tail h in
              idxEntry ← pointer h newTail;
              e ← get_entry r idxEntry;
              assert_ NDEBUG (key e =? INVALID_BLOCK_BASE);;
              r ← reserve r newTail idxEntry blockStartIndex; Ok (p, r, Some idxEntry)
          end
  end.

Definition rewind_block_index_tail (r : producer) : result producer :=
  match blockIndex r with
  | [] => UB
  | h :: hs =>
      Ok (set_index r (nextBlockIndexCapacity r)
            (Header (capacity h) (Z.land (u64 (tail_ h - 1)) (u64 (capacity h - 1))) (index_ h) :: hs)
            (all_entries r))
  end.

(** The quotient is unsigned, as [BLOCK_SIZE] is. *)
Definition get_block_index_index_for_index (index : Z) (r : producer) : result Z :=
  match blockIndex r with
  | [] => UB
  | h :: _ =>
      let index := Z.ldiff index (BLOCK_SIZE - 1) in
      id ← pointer h (tail_ h);
      e ← get_entry r id;
      let tailBase := key e in
      assert_ NDEBUG (negb (tailBase =? INVALID_BLOCK_BASE));;
      let offset := u64 (index - tailBase) / BLOCK_SIZE in
      let idx := Z.land (u64 (tail_ h + offset)) (u64 (capacity h - 1)) in
      id ← pointer h idx;
      e ← get_entry r id;
      v ← load_value e;
      assert_ NDEBUG ((key e =? index) && bool_decide (v ≠ None));;
      Ok idx
  end.

Definition get_block_index_entry_for_index (index : Z) (r : producer) : result nat :=
  idx ← get_block_index_index_for_index index r;
  match blockIndex r with [] => UB | h :: _ => pointer h idx end.

(** ** The block index as a row of marks

    From the entry after the tail of the index round to the tail itself: each entry
    is free, reserved for the block that starts at [E] less its distance from the
    end, holds that block, or has lost it again. *)
Inductive mark := Free | Reserved | Live (b : nat) | Cleared.

Definition entry_ok (e : entry) (start : Z) (m : mark) : Prop :=
  match m with
  | Free => key e = INVALID_BLOCK_BASE ∨ value e = Some None
  | Reserved => key e = u64 start
  | Live b => key e = u64 start ∧ value e = Some (Some b)
  | Cleared => key e = u64 start ∧ value e = Some None
  end.

Definition position (h : header) (o : nat) : Z := (tail_ h + 1 + o) mod capacity h.

Record index_ok (r : producer) (h : header) (ids : list nat) (view : list mark) (E : Z) : Prop := {
  in_current : head (blockIndex r) = Some h;
  in_size : ∃ m, 0 <= m ∧ capacity h = 2 ^ m;
  in_memory : capacity h * BLOCK_SIZE <= 2 ^ 63;
  in_next : nextBlockIndexCapacity r = 2 * capacity h;
  in_tail : 0 <= tail_ h < capacity h;
  in_index : index_ h = Some <$> ids;
  in_length : Z.of_nat (length ids) = capacity h;
  in_nodup : NoDup ids;
  in_bound id : id ∈ ids → (id < length (all_entries r))%nat;
  in_view : length view = length ids;
  in_entries o m : view !! o = Some m → ∃ id e,
    ids !! Z.to_nat (position h o) = Some id ∧ all_entries r !! id = Some e ∧
    entry_ok e (E - BLOCK_SIZE * (capacity h - o)) m
}.

Definition with_header (r : producer) (h : header) : producer :=
  set_index r (nextBlockIndexCapacity r) (h :: tail (blockIndex r)) (all_entries r).

Definition at_tail (h : header) (t : Z) : header := Header (capacity h) t (index_ h).

(** The marks of the blocks [bs], oldest first, in an index that has room for more. *)
Definition row (ids bs : list nat) : list mark :=
  replicate (length ids - length bs) Free ++ (Live <$> bs).

(** The index has the entries of the blocks; a producer that could not allocate one
    has no blocks. *)
Definition indexed (r : producer) (bs : list nat) (A : Z) : Prop :=
  (blockIndex r = [] ∧ bs = []) ∨
  ∃ hd ids, index_ok r hd ids (row ids bs) (base A (length bs)) ∧ (length bs ≤ length ids)%nat.

(** Everything but the index is left alone. *)
Definition same_queue (r r' : producer) : Prop :=
  r' = set_index r (nextBlockIndexCapacity r') (blockIndex r') (all_entries r').

Section proofs.
Context `{!TraitsOk}.

Lemma capacity_bounds r h ids view E : index_ok r h ids view E → 1 <= capacity h <= 2 ^ 62.
Proof.
  intros [_ (m & Hm & Hs) Hmem _ _ _ _ _ _ _ _]. pose proof block_size_pos.
  pose proof (Z.pow_pos_nonneg 2 m). nia.
Qed.

Lemma position_bound h o : 0 < capacity h → 0 <= position h o < capacity h.
Proof. intros. by apply Z.mod_pos_bound. Qed.

Lemma position_inj h (o1 o2 : nat) :
  o1 < capacity h → o2 < capacity h → position h o1 = position h o2 → o1 = o2.
Proof.
  unfold position. intros H1 H2 He. by apply (mod_inj (capacity h) (tail_ h + 1)).
Qed.

Lemma pointer_ok h ids pos id :
  index_ h = Some <$> ids → 0 <= pos → ids !! Z.to_nat pos = Some id → pointer h pos = Ok id.
Proof.
  intros Hi Hp Hid. unfold pointer. erewrite (aread_Z _ _ (Some id)); [done|done|].
  by rewrite Hi, list_lookup_fmap, Hid.
Qed.

Lemma index_entry r h ids view E (o : nat) m :
  index_ok r h ids view E → view !! o = Some m →
  ∃ id e, pointer h (position h o) = Ok id ∧ get_entry r id = Ok e ∧
    ids !! Z.to_nat (position h o) = Some id ∧ all_entries r !! id = Some e ∧
    entry_ok e (E - BLOCK_SIZE * (capacity h - o)) m.
Proof.
  intros I Ho. destruct (in_entries _ _ _ _ _ I o m Ho) as (id & e & Hid & He & Hm).
  pose proof (capacity_bounds _ _ _ _ _ I). pose proof (position_bound h o ltac:(lia)).
  exists id, e. split_and!; try done.
  - eapply pointer_ok; [apply I|lia|done].
  - unfold get_entry. by rewrite He.
Qed.

(** One entry changes. *)
Lemma set_mark r h ids view E (o : nat) id e m :
  index_ok r h ids view E → (o < length view)%nat → ids !! Z.to_nat (position h o) = Some id →
  entry_ok e (E - BLOCK_SIZE * (capacity h - o)) m →
  index_ok (put_entry r id e) h ids (<[o := m]> view) E.
Proof.
  intros I Ho Hid Hm. pose proof (capacity_bounds _ _ _ _ _ I).
  destruct I as [I1 I2 I3 I4 I5 I6 I7 I8 I9 I10 I11].
  constructor; simpl; try done; [by intros ?; rewrite length_insert; apply I9|by rewrite length_insert|].
  intros o' m' [(-> & -> & _)|[Hne Ho']]%list_lookup_insert_Some.
  - exists id, e. split_and!; [done| |done]. apply list_lookup_insert_eq.
    by apply I9, list_elem_of_lookup_2 with (Z.to_nat (position h o')).
  - destruct (I11 o' m' Ho') as (id' & e' & Hid' & He' & Hm'). exists id', e'.
    split_and!; [done| |done]. rewrite list_lookup_insert_ne; [done|]. intros ->.
    pose proof (NoDup_lookup _ _ _ _ I8 Hid Hid') as Hp.
    pose proof (position_bound h o ltac:(lia)). pose proof (position_bound h o' ltac:(lia)).
    apply lookup_lt_Some in Ho'. apply Hne, (position_inj h); lia.
Qed.

(** The tail of the index moves over a free entry, and back. *)
Lemma next_position h (o : nat) :
  0 < capacity h → position (at_tail h ((tail_ h + 1) mod capacity h)) o = position h (S o).
Proof.
  intros Hc. unfold position, at_tail. simpl. rewrite <- Z.add_assoc, Zplus_mod_idemp_l. f_equal. lia.
Qed.

Lemma last_position h (o : nat) :
  0 < capacity h → capacity h = S o →
  position (at_tail h ((tail_ h + 1) mod capacity h)) o = position h 0.
Proof.
  intros Hc Ho. rewrite next_position by done. unfold position.
  replace (tail_ h + 1 + S o) with (tail_ h + 1 + 0%nat + 1 * capacity h) by lia. rewrite Z.mod_add; lia.
Qed.

Lemma rotate r h ids view E :
  index_ok r h ids (Free :: view) E →
  index_ok (with_header r (at_tail h ((tail_ h + 1) mod capacity h)))
    (at_tail h ((tail_ h + 1) mod capacity h)) ids (view ++ [Free]) (E + BLOCK_SIZE).
Proof.
  intros I. pose proof (capacity_bounds _ _ _ _ _ I) as Hc.
  destruct I as [I1 I2 I3 I4 I5 I6 I7 I8 I9 I10 I11]. simpl in I10.
  constructor; simpl; try done; [apply Z.mod_pos_bound; lia|rewrite length_app; simpl; lia|].
  intros o m Ho. destruct (decide (o < length view)%nat) as [Hlt|Hge].
  - rewrite lookup_app_l in Ho by done. destruct (I11 (S o) m Ho) as (id & e & Hid & He & Hm).
    exists id, e. rewrite next_position by lia. split_and!; [done|done|].
    by replace (E + BLOCK_SIZE - BLOCK_SIZE * (capacity h - o)) with
      (E - BLOCK_SIZE * (capacity h - S o)) by lia.
  - rewrite lookup_app_r in Ho by lia. apply list_lookup_singleton_Some in Ho as [Hz <-].
    destruct (I11 0%nat Free eq_refl) as (id & e & Hid & He & Hm). exists id, e.
    by rewrite last_position by lia.
Qed.

Lemma rotate_back r h ids view E :
  index_ok r h ids (view ++ [Free]) (E + BLOCK_SIZE) →
  index_ok (with_header r (at_tail h ((tail_ h - 1) mod capacity h)))
    (at_tail h ((tail_ h - 1) mod capacity h)) ids (Free :: view) E.
Proof.
  intros I. pose proof (capacity_bounds _ _ _ _ _ I) as Hc.
  destruct I as [I1 I2 I3 I4 I5 I6 I7 I8 I9 I10 I11]. rewrite length_app in I10. simpl in I10.
  set (h0 := at_tail h ((tail_ h - 1) mod capacity h)).
  assert (Hh : at_tail h0 ((tail_ h0 + 1) mod capacity h0) = h).
  { unfold h0, at_tail. simpl. rewrite Zplus_mod_idemp_l, Z.sub_add, Z.mod_small by lia. by destruct h. }
  constructor; simpl; try done; [apply Z.mod_pos_bound; lia|lia|].
  intros [|o] m Ho; simpl in Ho.
  - injection Ho as <-. destruct (I11 (length view) Free) as (id & e & Hid & He & Hm).
    { by apply list_lookup_middle. }
    exists id, e. split_and!; [|done|done]. rewrite <- (last_position h0 (length view)), Hh by (simpl; lia).
    done.
  - destruct (I11 o m) as (id & e & Hid & He & Hm); [by apply lookup_app_l_Some|].
    exists id, e. rewrite <- next_position, Hh by (simpl; lia). split_and!; [done|done|].
    by replace (E - BLOCK_SIZE * (capacity h - S o)) with
      (E + BLOCK_SIZE - BLOCK_SIZE * (capacity h - o)) by lia.
Qed.

Lemma mask_ok r h ids view E x :
  index_ok r h ids view E → Z.land (u64 x) (u64 (capacity h - 1)) = x mod capacity h.
Proof.
  intros I. pose proof (capacity_bounds _ _ _ _ _ I). destruct (in_size _ _ _ _ _ I) as (m & Hm & Hs).
  assert (m <= 64) by (apply (Z.pow_le_mono_r_iff 2); lia).
  rewrite (wrap_small 64 (capacity h - 1)) by (unfold fits; lia).
  rewrite (land_size (capacity h) m) by done. by apply (wrap_mod_size _ m).
Qed.

Lemma head_index r h ids view E : index_ok r h ids view E → blockIndex r = h :: tail (blockIndex r).
Proof. intros I. pose proof (in_current _ _ _ _ _ I). destruct (blockIndex r); by simplify_eq/=. Qed.

(** Reserving an entry and taking it back or filling it in. *)
Lemma reserve_ok r h ids view E id e :
  index_ok r h ids (Free :: view) E → pointer h (position h 0) = Ok id → get_entry r id = Ok e →
  ids !! Z.to_nat (position h 0) = Some id →
  let h' := at_tail h ((tail_ h + 1) mod capacity h) in
  ∃ r', reserve r (next_tail h) id (u64 E) = Ok r' ∧
    index_ok r' h' ids (view ++ [Reserved]) (E + BLOCK_SIZE) ∧
    ids !! Z.to_nat (position h' (length view)) = Some id ∧
    r' = with_header (put_entry r id (Entry (u64 E) (value e))) h'.
Proof.
  intros I Hp He Hid h'. pose proof (capacity_bounds _ _ _ _ _ I) as Hc.
  pose proof (rotate _ _ _ _ _ I) as I'. pose proof (in_view _ _ _ _ _ I) as Hv. simpl in Hv.
  pose proof (in_length _ _ _ _ _ I) as Hl.
  assert (Hlast : position h' (length view) = position h 0) by (apply last_position; lia).
  unfold reserve, next_tail. rewrite (head_index _ _ _ _ _ I), (mask_ok _ _ _ _ _ _ I), He, bind_ok.
  eexists. split; [reflexivity|]. rewrite Hlast. split_and!; [|done|].
  - fold h'. pose proof (set_mark _ _ _ _ _ (length view) id (Entry (u64 E) (value e)) Reserved I') as I2.
    rewrite insert_app_r_alt, Nat.sub_diag in I2 by lia. apply I2; [rewrite length_app; simpl; lia| |].
    + fold h'. by rewrite Hlast.
    + simpl. f_equal. lia.
  - unfold with_header, put_entry. simpl. done.
Qed.

Lemma store_reserved r h ids view E id v :
  index_ok r h ids (view ++ [Reserved]) E → ids !! Z.to_nat (position h (length view)) = Some id →
  ∃ r', store_value r id v = Ok r' ∧
    index_ok r' h ids (view ++ [match v with Some b => Live b | None => Free end]) E ∧
    r' = set_index r (nextBlockIndexCapacity r) (blockIndex r) (all_entries r').
Proof.
  intros I Hid. pose proof (capacity_bounds _ _ _ _ _ I) as Hc.
  pose proof (in_view _ _ _ _ _ I) as Hv. pose proof (in_length _ _ _ _ _ I) as Hl.
  rewrite length_app in Hv. simpl in Hv.
  destruct (in_entries _ _ _ _ _ I (length view) Reserved) as (id' & e & Hid' & He & Hm).
  { by apply list_lookup_middle. }
  assert (id' = id) as -> by congruence. unfold store_value, get_entry. rewrite He, bind_ok.
  eexists. split; [reflexivity|]. split; [|done].
  assert (Hw : ∀ m, view ++ [m] = <[length view := m]> (view ++ [Reserved])).
  { intros m. by rewrite insert_app_r_alt, Nat.sub_diag by lia. }
  rewrite Hw. apply set_mark; [done|rewrite length_app; simpl; lia|done|].
  destruct v as [b|]; simpl; [done|by right].
Qed.

Lemma rewind_ok r h ids view E :
  index_ok r h ids view E →
  rewind_block_index_tail r = Ok (with_header r (at_tail h ((tail_ h - 1) mod capacity h))).
Proof.
  intros I. unfold rewind_block_index_tail, with_header, at_tail.
  by rewrite (head_index _ _ _ _ _ I), (mask_ok _ _ _ _ _ _ I).
Qed.

Lemma undo_ok r h ids view E id :
  index_ok r h ids (view ++ [Reserved]) (E + BLOCK_SIZE) →
  ids !! Z.to_nat (position h (length view)) = Some id →
  ∃ r1 r' h', rewind_block_index_tail r = Ok r1 ∧ store_value r1 id None = Ok r' ∧
    index_ok r' h' ids (Free :: view) E ∧
    r' = set_index r (nextBlockIndexCapacity r) (blockIndex r') (all_entries r').
Proof.
  intros I Hid. destruct (store_reserved r h ids view _ id None I Hid) as (r1 & Hst & I1 & Hr1).
  apply rotate_back in I1. rewrite (rewind_ok _ _ _ _ _ I).
  eexists _, (with_header r1 _), _. split; [reflexivity|].
  unfold store_value, get_entry in *. simpl. destruct (all_entries r !! id) as [e|]; [|done].
  rewrite bind_ok in *. injection Hst as <-. split_and!; [reflexivity|exact I1|done].
Qed.

(** ** A larger index *)

Lemma copy_index_ok h m : ∀ (n fuel : nat),
  0 <= m → capacity h = 2 ^ m → capacity h <= 2 ^ 62 → Z.of_nat (length (index_ h)) = capacity h →
  0 <= tail_ h < capacity h → (0 < n)%nat → Z.of_nat n <= capacity h → (n <= fuel)%nat →
  ∃ l, copy_index fuel h ((tail_ h - n) mod capacity h) = Ok l ∧ length l = n ∧
    ∀ k, (k < n)%nat → l !! k = index_ h !! Z.to_nat ((tail_ h - n + 1 + k) mod capacity h).
Proof.
  induction n as [|n IH]; intros fuel Hm Hs Hs62 Hlen Ht Hn Hns Hfuel; [lia|].
  destruct fuel as [|fuel]; [lia|]. cbn [copy_index]. set (c := capacity h) in *.
  pose proof (Z.mod_pos_bound (tail_ h - S n) c ltac:(lia)).
  pose proof (Z.mod_pos_bound (tail_ h - n) c ltac:(lia)) as Hi.
  rewrite (wrap_small 64 ((tail_ h - S n) mod c + 1)), (wrap_small 64 (c - 1)) by (unfold fits; lia).
  rewrite (land_size c m), Zplus_mod_idemp_l by done.
  replace (tail_ h - S n + 1) with (tail_ h - n) by lia.
  destruct (lookup_lt_is_Some_2 (index_ h) (Z.to_nat ((tail_ h - n) mod c)) ltac:(lia)) as [e He].
  rewrite (aread_Z _ _ _ (proj1 Hi) He), bind_ok. destruct (decide (n = 0%nat)) as [->|Hn0].
  - rewrite Z.sub_0_r in *. rewrite (Z.mod_small (tail_ h)) in * by lia. rewrite Z.eqb_refl. exists [e].
    split_and!; [done|done|]. intros [|k] Hk; [|lia].
    rewrite Z.add_0_r, Z.mod_small by lia. by rewrite He.
  - rewrite (proj2 (Z.eqb_neq _ _)).
    2:{ intros Heq. apply Hn0. apply (mod_inj c (tail_ h - n)); [lia..|].
        by rewrite Z.sub_add, Z.add_0_r, (Z.mod_small (tail_ h)) by lia. }
    destruct (IH fuel) as (l & -> & Hl & Hlk); [done..|lia|lia|lia|].
    rewrite bind_ok. exists (e :: l). split_and!; [done|simpl; lia|].
    intros [|k] Hk; simpl; [by rewrite Z.add_0_r, He|]. rewrite Hlk by lia. do 3 f_equal. lia.
Qed.

Lemma copied_ids r h ids view E :
  index_ok r h ids view E →
  ∃ l, copy_index (S (length (index_ h))) h (tail_ h) = Ok (Some <$> l) ∧ length l = length ids ∧
    l ≡ₚ ids ∧ ∀ o : nat, (o < length ids)%nat → l !! o = ids !! Z.to_nat (position h o).
Proof.
  intros I. pose proof (capacity_bounds _ _ _ _ _ I) as Hc. pose proof I as [_ (m & Hm & Hs) _ _ Ht Hx Hl Hnd _ _ _].
  destruct (copy_index_ok h m (length ids) (S (length (index_ h)))) as (lo & Hco & Hlo & Hlk);
    [done|done|lia|by rewrite Hx, length_fmap|done|lia|lia|rewrite Hx, length_fmap; lia|].
  replace ((tail_ h - length ids) mod capacity h) with (tail_ h) in Hco.
  2:{ rewrite Hl, <- (Z.mod_small (tail_ h) (capacity h)) at 1 by lia.
      rewrite <- (Z.mod_add _ (-1)) by lia. done. }
  set (l := (λ o : nat, default 0%nat (ids !! Z.to_nat (position h o))) <$> seq 0 (length ids)).
  assert (Hlk' : ∀ o : nat, (o < length ids)%nat → l !! o = ids !! Z.to_nat (position h o)).
  { intros o Ho. unfold l. rewrite list_lookup_fmap, lookup_seq_lt by done. simpl.
    pose proof (position_bound h o ltac:(lia)).
    by destruct (lookup_lt_is_Some_2 ids (Z.to_nat (position h o)) ltac:(lia)) as [id ->]. }
  assert (Hll : length l = length ids) by (unfold l; by rewrite length_fmap, length_seq).
  exists l. split_and!; [|done| |done].
  - rewrite Hco. f_equal. apply list_eq_same_length with (length ids); [by rewrite length_fmap|done|].
    intros o x y Ho. rewrite Hlk, list_lookup_fmap, Hlk', Hx, list_lookup_fmap by done.
    unfold position. replace (tail_ h - length ids + 1 + o) with (tail_ h + 1 + o + -1 * capacity h) by lia.
    rewrite Z.mod_add by lia. congruence.
  - apply submseteq_length_Permutation; [|lia]. apply NoDup_submseteq.
    + apply NoDup_alt. intros i j x Hi Hj. pose proof (lookup_lt_Some _ _ _ Hi). pose proof (lookup_lt_Some _ _ _ Hj).
      rewrite Hlk' in Hi, Hj by lia. pose proof (NoDup_lookup _ _ _ _ Hnd Hi Hj).
      pose proof (position_bound h i ltac:(lia)). pose proof (position_bound h j ltac:(lia)).
      apply (position_inj h); lia.
    + intros x [o Ho]%list_elem_of_lookup. pose proof (lookup_lt_Some _ _ _ Ho).
      rewrite Hlk' in Ho by lia. by eapply list_elem_of_lookup_2.
Qed.

(** The index as [new_block_index] leaves it: the entries of [l], then new ones. *)
Definition grown_header (cap : Z) (l : list nat) (fresh count : nat) : header :=
  Header cap (Z.land (u64 (length l - 1)) (u64 (cap - 1))) (Some <$> l ++ seq fresh count).

Definition grown (r : producer) (l : list nat) (count : nat) : producer :=
  set_index r (u64 (Z.shiftl (nextBlockIndexCapacity r) 1))
    (grown_header (nextBlockIndexCapacity r) l (length (all_entries r)) count :: blockIndex r)
    (all_entries r ++ replicate count (Entry INVALID_BLOCK_BASE None)).

Lemma fresh_entry r l count (k : nat) :
  (k < count)%nat →
  (l ++ seq (length (all_entries r)) count) !! (length l + k)%nat = Some (length (all_entries r) + k)%nat ∧
  all_entries (grown r l count) !! (length (all_entries r) + k)%nat =
    Some (Entry INVALID_BLOCK_BASE None).
Proof.
  intros Hk. simpl. rewrite !lookup_app_r, !Nat.add_sub' by lia.
  by rewrite lookup_seq_lt, lookup_replicate_2.
Qed.

(** The entries of a producer without an index, or those of one in order, are
    followed by free ones. *)
Lemma grown_ok r l view E m (count : nat) :
  0 <= m → nextBlockIndexCapacity r = 2 ^ m → Z.of_nat (length l + count) = 2 ^ m → (0 < count)%nat →
  2 ^ m * BLOCK_SIZE <= 2 ^ 63 → NoDup l → (∀ id, id ∈ l → (id < length (all_entries r))%nat) →
  length view = length l →
  (∀ (o : nat) mk, view !! o = Some mk → ∃ id e, l !! o = Some id ∧ all_entries r !! id = Some e ∧
     entry_ok e (E - BLOCK_SIZE * (length l - o)) mk) →
  let h := grown_header (2 ^ m) l (length (all_entries r)) count in
  index_ok (grown r l count) h (l ++ seq (length (all_entries r)) count)
    (replicate count Free ++ view) E.
Proof.
  intros Hm Hn Hl Hc Hmem Hnd Hb Hv He h. pose proof block_size_pos.
  assert (Hp : 1 <= 2 ^ m <= 2 ^ 62) by (pose proof (Z.pow_pos_nonneg 2 m); nia).
  assert (Hm64 : m <= 64) by (apply (Z.pow_le_mono_r_iff 2); lia).
  assert (Ht : tail_ h = (length l - 1) mod 2 ^ m).
  { unfold h, grown_header. simpl. rewrite (wrap_small 64 (2 ^ m - 1)) by (unfold fits; lia).
    rewrite (land_size (2 ^ m) m) by done. by apply (wrap_mod_size _ m). }
  assert (Hpos : ∀ o : nat, o < 2 ^ m →
    Z.to_nat (position h o) = if decide (o < count)%nat then (length l + o)%nat else (o - count)%nat).
  { intros o Ho. unfold position. rewrite Ht. change (capacity h) with (2 ^ m).
    rewrite <- Z.add_assoc, Zplus_mod_idemp_l. case_decide.
    - rewrite Z.mod_small by lia. lia.
    - replace (length l - 1 + (1 + o)) with ((o - count)%nat + 1 * 2 ^ m) by lia.
      rewrite Z.mod_add, Z.mod_small by lia. lia. }
  constructor; try done.
  - simpl. by rewrite Hn.
  - by exists m.
  - simpl. rewrite Hn, Z.shiftl_mul_pow2, wrap_small by (unfold fits; lia). lia.
  - rewrite Ht. apply Z.mod_pos_bound. change (capacity h) with (2 ^ m). lia.
  - rewrite length_app, length_seq. done.
  - apply NoDup_app. split_and!; [done| |apply NoDup_seq]. intros id Hid%Hb Hs%elem_of_seq. lia.
  - simpl. intros id [Hid%Hb|Hid%elem_of_seq]%elem_of_app; rewrite length_app, length_replicate; lia.
  - rewrite !length_app, length_replicate, length_seq. lia.
  - intros o mk Ho. pose proof (lookup_lt_Some _ _ _ Ho) as Hlt.
    rewrite length_app, length_replicate in Hlt. rewrite Hpos by lia. case_decide as Hd.
    + rewrite lookup_app_l in Ho by (by rewrite length_replicate).
      apply lookup_replicate in Ho as [-> _]. destruct (fresh_entry r l count o Hd).
      do 2 eexists. split_and!; [done|done|by left].
    + rewrite lookup_app_r, length_replicate in Ho by (rewrite length_replicate; lia).
      destruct (He _ _ Ho) as (id & e & Hid & Hid' & Hok). exists id, e. split_and!.
      * by apply lookup_app_l_Some.
      * by apply lookup_app_l_Some.
      * change (capacity h) with (2 ^ m).
        replace (E - BLOCK_SIZE * (2 ^ m - o)) with
          (E - BLOCK_SIZE * (length l - (o - count)%nat)) by (rewrite <- Hl; nia). done.
Qed.

Lemma grow_ok (p : pool T) r h ids view E :
  index_ok r h ids view E → capacity h * BLOCK_SIZE <= 2 ^ 62 →
  if hd true (mallocs p)
  then ∃ l, new_block_index p r = Ok ((malloc p).2, grown r l (length ids), true) ∧
    length l = length ids ∧
    index_ok (grown r l (length ids))
      (grown_header (2 * capacity h) l (length (all_entries r)) (length ids))
      (l ++ seq (length (all_entries r)) (length ids)) (replicate (length ids) Free ++ view) E
  else new_block_index p r = Ok ((malloc p).2, r, false).
Proof.
  intros I Hmem. pose proof (capacity_bounds _ _ _ _ _ I) as Hc.
  destruct (copied_ids _ _ _ _ _ I) as (l & Hco & Hll & Hperm & Hlk).
  unfold new_block_index, malloc. rewrite (head_index _ _ _ _ _ I).
  destruct (hd true (mallocs p)); cbn [negb snd]; [|done].
  pose proof I as [_ (m & Hm & Hs) _ Hn Ht Hx Hl Hnd Hb Hv He].
  exists l. split_and!; [|done|].
  - rewrite Hco, bind_ok, length_fmap, Hll. rewrite assert_ok, !bind_ok by (apply Z.eqb_eq; lia).
    rewrite Hn. rewrite (proj2 (Z.leb_le _ _)) by lia. unfold defined_if. rewrite bind_ok.
    do 2 f_equal. unfold grown, grown_header. rewrite <- (head_index _ _ _ _ _ I), Hn, Hll, <- Hl, Nat2Z.id.
    replace (2 * length ids - length ids - length ids) with 0 by lia.
    rewrite fmap_app, app_nil_r. done.
  - replace (2 * capacity h) with (2 ^ (m + 1)) by (rewrite Z.pow_add_r by lia; lia).
    apply grown_ok; try done; try lia.
    + rewrite Hn, Hs, Z.pow_add_r by lia. lia.
    + rewrite Hll, Z.pow_add_r by lia. lia.
    + rewrite Z.pow_add_r, <- Hs by lia. lia.
    + by rewrite Hperm.
    + intros id. rewrite Hperm. apply Hb.
    + intros o mk Ho. destruct (He o mk Ho) as (id & e & Hid & Hid' & Hok). exists id, e.
      apply lookup_lt_Some in Ho. rewrite Hlk by lia. split_and!; [done|done|].
      by rewrite Hll, Hl.
Qed.

(** ** The blocks in the index *)

#[global] Instance same_queue_preorder : PreOrder same_queue.
Proof.
  split; [by intros []|]. unfold same_queue. intros r1 r2 r3 H12 H23. rewrite H23, H12. done.
Qed.

Lemma aligned_key x : x mod BLOCK_SIZE = 0 → (u64 x =? INVALID_BLOCK_BASE) = false.
Proof.
  intros Hx. pose proof block_size_pos. destruct block_size_pow2 as (k & Hk & Hb).
  apply Z.eqb_neq. intros Hu. pose proof (wrap_mod_size BLOCK_SIZE k 64 x Hb ltac:(lia)) as Hw.
  rewrite Hu, Hx in Hw. unfold INVALID_BLOCK_BASE in Hw. rewrite Z.mod_small in Hw; lia.
Qed.

(** What reserving an entry leaves. *)
Record reserved (r' : producer) (h' : header) (ids : list nat) (bs : list nat) (E : Z) (id : nat) :
    Prop := {
  rs_index : index_ok r' h' ids
    ((replicate (length ids - length bs - 1) Free ++ (Live <$> bs)) ++ [Reserved]) (E + BLOCK_SIZE);
  rs_room : (length bs < length ids)%nat;
  rs_entry : ids !! Z.to_nat (position h'
    (length (replicate (length ids - length bs - 1) Free ++ (Live <$> bs)))) = Some id
}.

Lemma next_tail_ok r h ids view E : index_ok r h ids view E → next_tail h = position h 0.
Proof.
  intros I. unfold next_tail, position. rewrite (mask_ok _ _ _ _ _ _ I). f_equal. lia.
Qed.

Lemma reserve_free r h ids bs E :
  index_ok r h ids (row ids bs) E → (length bs < length ids)%nat →
  ∃ id e r' h', pointer h (next_tail h) = Ok id ∧ get_entry r id = Ok e ∧ entry_ok e E Free ∧
    ids !! Z.to_nat (position h 0) = Some id ∧
    reserve r (next_tail h) id (u64 E) = Ok r' ∧ reserved r' h' ids bs E id ∧ same_queue r r'.
Proof.
  intros I Hlt. unfold row in I.
  replace (length ids - length bs)%nat with (S (length ids - length bs - 1))%nat in I by lia.
  simpl in I. destruct (index_entry _ _ _ _ _ 0 Free I eq_refl) as (id & e & Hp & He & Hid & _ & Hok).
  destruct (reserve_ok _ _ _ _ _ _ _ I Hp He Hid) as (r' & Hr & I' & Hid' & ->).
  do 4 eexists. split_and!; [|exact He|exact Hok|exact Hid|exact Hr|by split|done].
  by rewrite (next_tail_ok _ _ _ _ _ I).
Qed.

(** The first of the new entries has not been used. *)
Lemma grown_next r l count cap view E :
  let h := grown_header cap l (length (all_entries r)) count in
  index_ok (grown r l count) h (l ++ seq (length (all_entries r)) count) view E →
  (0 < count)%nat → Z.of_nat (length l + count) = cap → position h 0 = length l ∧
  get_entry (grown r l count) (length (all_entries r)) = Ok (Entry INVALID_BLOCK_BASE None).
Proof.
  intros h I Hc Hcap. split.
  - unfold position. assert (tail_ h = (length l - 1) mod cap) as ->.
    { unfold h at 1, grown_header. simpl. exact (mask_ok _ _ _ _ _ (length l - 1) I). }
    change (capacity h) with cap. rewrite <- Z.add_assoc, Zplus_mod_idemp_l, Z.mod_small by lia. lia.
  - destruct (fresh_entry r l count 0 Hc) as [_ He]. rewrite Nat.add_0_r in He.
    unfold get_entry. by rewrite He.
Qed.

Lemma insert_entry_ok canAlloc (p : pool T) r h ids bs E :
  index_ok r h ids (row ids bs) E → (length bs ≤ length ids)%nat → E mod BLOCK_SIZE = 0 →
  BLOCK_SIZE * length bs <= 2 ^ 62 →
  ∃ p' r' o, insert_block_index_entry canAlloc (u64 E) p r = Ok (p', r', o) ∧
    (p' = p ∨ p' = (malloc p).2) ∧ same_queue r r' ∧
    match o with
    | Some id => ∃ h' ids', reserved r' h' ids' bs E id
    | None => r' = r
    end ∧ (canAlloc = true → mallocs p = [] → is_Some o).
Proof.
  intros I Hle HE Hsz. pose proof (capacity_bounds _ _ _ _ _ I) as Hc.
  pose proof (in_length _ _ _ _ _ I) as Hl. unfold insert_block_index_entry.
  rewrite (head_index _ _ _ _ _ I). destruct (decide (length bs < length ids)%nat) as [Hlt|Hge].
  - destruct (reserve_free _ _ _ _ _ I Hlt) as (id & e & r' & h' & -> & He & Hf & _ & Hr & R & S).
    rewrite bind_ok, He, bind_ok.
    assert ((if key e =? INVALID_BLOCK_BASE then Ok true
             else v ← load_value e; Ok (bool_decide (v = None))) = Ok true) as ->.
    { destruct Hf as [-> | Hv]; [by rewrite Z.eqb_refl|]. case_match; [done|].
      unfold load_value. by rewrite Hv. }
    rewrite bind_ok, Hr, bind_ok. do 3 eexists. split; [reflexivity|]. split_and!; eauto.
  - unfold row in I. replace (length ids - length bs)%nat with 0%nat in I by lia. simpl in I.
    destruct bs as [|b bs]; [simpl in *; lia|].
    destruct (index_entry _ _ _ _ _ 0 (Live b) I eq_refl) as (id & e & Hp & He & Hid & _ & Hk & Hv).
    rewrite (next_tail_ok _ _ _ _ _ I), Hp, bind_ok, He, bind_ok, Hk, aligned_key.
    2:{ rewrite Z.mul_comm, <- Z.add_opp_r, <- Z.mul_opp_l, Z.mod_add; [done|].
        pose proof block_size_pos. lia. }
    unfold load_value. rewrite Hv, !bind_ok, bool_decide_eq_false_2 by done.
    destruct canAlloc; [|do 3 eexists; split; [reflexivity|]; split_and!; auto; done].
    assert (Hmem : capacity h * BLOCK_SIZE <= 2 ^ 62).
    { rewrite <- Hl. by replace (length ids) with (length (b :: bs)) by lia; rewrite Z.mul_comm. }
    pose proof (grow_ok p r h ids _ E I Hmem) as Hnew. cbn [negb].
    destruct (hd true (mallocs p)) eqn:Hm.
    + destruct Hnew as (l & -> & Hll & I'). rewrite bind_ok. cbn [negb].
      set (h1 := grown_header (2 * capacity h) l (length (all_entries r)) (length ids)) in *.
      set (ids1 := l ++ seq (length (all_entries r)) (length ids)) in *.
      assert (Hl1 : length ids1 = (length ids + length ids)%nat).
      { unfold ids1. rewrite length_app, length_seq. lia. }
      assert (I2 : index_ok (grown r l (length ids)) h1 ids1 (row ids1 (b :: bs)) E).
      { unfold row. rewrite Hl1. replace (length ids + length ids - length (b :: bs))%nat
          with (length ids) by lia. exact I'. }
      destruct (reserve_free _ _ _ _ _ I2) as (id1 & e1 & r1 & h2 & Hp1 & He1 & _ & Hid1 & Hr1 & R1 & S1); [lia|].
      destruct (grown_next r l (length ids) _ _ _ I') as [Hpos Hg]; [lia|lia|].
      fold h1 in Hpos. rewrite Hpos, Nat2Z.id in Hid1.
      assert (id1 = length (all_entries r)) as ->.
      { unfold ids1 in Hid1. rewrite lookup_app_r, Nat.sub_diag, lookup_seq_lt in Hid1 by lia.
        injection Hid1 as <-. lia. }
      assert (blockIndex (grown r l (length ids)) = h1 :: blockIndex r) as ->.
      { simpl. by rewrite (in_next _ _ _ _ _ I). }
      rewrite Hp1, bind_ok, Hg, bind_ok, assert_ok, bind_ok, Hr1, bind_ok by done.
      do 3 eexists. split; [reflexivity|]. split_and!; [by right|by transitivity (grown r l (length ids))|by eauto|by eauto].
    + rewrite Hnew, bind_ok. do 3 eexists. split; [reflexivity|].
      split_and!; [by right|done|done|]. intros _ Hn. by rewrite Hn in Hm.
Qed.

Lemma row_lookup ids bs k i :
  bs !! k = Some i → row ids bs !! (length ids - length bs + k)%nat = Some (Live i).
Proof.
  intros Hi. unfold row. rewrite lookup_app_r, length_replicate, Nat.add_sub' by
    (rewrite length_replicate; lia). by rewrite list_lookup_fmap, Hi.
Qed.

(** The entry of an index in a block, computed from the entry at the tail, which may be
    before or after it. *)
Lemma lookup_from_tail r h m start (e j : Z) id1 e1 id2 e2 i :
  head (blockIndex r) = Some h → 0 <= m → capacity h = 2 ^ m → capacity h * BLOCK_SIZE <= 2 ^ 63 →
  BLOCK_SIZE * Z.abs e < 2 ^ 63 → start mod BLOCK_SIZE = 0 → 0 <= j < BLOCK_SIZE →
  pointer h (tail_ h) = Ok id1 → get_entry r id1 = Ok e1 → key e1 = u64 start →
  pointer h ((tail_ h + e) mod capacity h) = Ok id2 → get_entry r id2 = Ok e2 →
  key e2 = u64 (start + BLOCK_SIZE * e) → value e2 = Some (Some i) →
  get_block_index_index_for_index (u64 (start + BLOCK_SIZE * e + j)) r = Ok ((tail_ h + e) mod capacity h).
Proof.
  intros Hh Hm Hs Hmem He HA Hj Hp1 He1 Hk1 Hp2 He2 Hk2 Hv2. pose proof block_size_pos.
  unfold get_block_index_index_for_index. destruct (blockIndex r) as [|h' hs]; [done|]. injection Hh as ->.
  rewrite Hp1, bind_ok, He1, bind_ok, Hk1, aligned_key, assert_ok, bind_ok by done.
  assert (HA2 : (start + BLOCK_SIZE * e) mod BLOCK_SIZE = 0) by (by rewrite Z.mul_comm, Z.mod_add by lia).
  assert (Hslot : slot (u64 (start + BLOCK_SIZE * e + j)) = j).
  { rewrite slot_wrap. replace (start + BLOCK_SIZE * e) with (base (start + BLOCK_SIZE * e) 0) by (unfold base; lia).
    by apply base_slot. }
  assert (Hblock : u64 (start + BLOCK_SIZE * e + j) - j = u64 (start + BLOCK_SIZE * e)).
  { rewrite slot_wrap in Hslot. rewrite <- Hslot at 2. rewrite wrap_block_base, Hslot. f_equal. lia. }
  rewrite block_base, Hslot, Hblock. autorewrite with wrap.
  replace (start + BLOCK_SIZE * e - start) with (BLOCK_SIZE * e) by lia.
  assert (Hm64 : m <= 63) by (apply (Z.pow_le_mono_r_iff 2); [lia..|]; rewrite <- Hs; nia).
  pose proof (Z.pow_pos_nonneg 2 m).
  assert (Hc : 1 <= capacity h <= 2 ^ 63) by nia.
  rewrite (wrap_small 64 (capacity h - 1)) by (unfold fits; lia).
  rewrite (land_size _ m), (wrap_mod_size _ m) by (done || lia).
  assert ((tail_ h + u64 (BLOCK_SIZE * e) / BLOCK_SIZE) mod capacity h = (tail_ h + e) mod capacity h) as ->.
  { destruct (Z.leb_spec 0 e).
    - rewrite wrap_small by (unfold fits; lia). rewrite Z.mul_comm, Z.div_mul by lia. done.
    - replace (BLOCK_SIZE * e) with (- (BLOCK_SIZE * - e)) by lia.
      rewrite (offset_mod (capacity h) m) by (done || lia). f_equal. lia. }
  rewrite Hp2, bind_ok, He2, bind_ok. unfold load_value. rewrite Hv2, bind_ok, Hk2.
  by rewrite Z.eqb_refl, bool_decide_eq_true_2, assert_ok by done.
Qed.

Lemma lookup_index_ok r h ids bs A k i (j : Z) :
  index_ok r h ids (row ids bs) (base A (length bs)) → (length bs ≤ length ids)%nat →
  A mod BLOCK_SIZE = 0 → bs !! k = Some i → 0 <= j < BLOCK_SIZE →
  get_block_index_index_for_index (u64 (base A k + j)) r = Ok (position h (length ids - length bs + k)) ∧
  ∃ id e, pointer h (position h (length ids - length bs + k)) = Ok id ∧
    get_entry r id = Ok e ∧ value e = Some (Some i) ∧ key e = u64 (base A k) ∧
    ids !! Z.to_nat (position h (length ids - length bs + k)) = Some id.
Proof.
  intros I Hle HA Hi Hj. pose proof (capacity_bounds _ _ _ _ _ I) as Hc. pose proof block_size_pos.
  pose proof (in_length _ _ _ _ _ I) as Hl. pose proof (in_tail _ _ _ _ _ I) as Ht.
  pose proof (lookup_lt_Some _ _ _ Hi) as Hk. set (n := length bs) in *.
  assert (∃ il, bs !! (n - 1)%nat = Some il) as [il Hil] by (apply lookup_lt_is_Some; lia).
  destruct (index_entry _ _ _ _ _ _ _ I (row_lookup ids bs _ _ Hil)) as (id1 & e1 & Hp1 & He1 & _ & _ & Hk1 & _).
  destruct (index_entry _ _ _ _ _ _ _ I (row_lookup ids bs _ _ Hi)) as (id & e & Hp & He & Hid & _ & Hke & Hv).
  assert (Hbase : ∀ k' : nat, (k' < n)%nat →
    base A n - BLOCK_SIZE * (capacity h - (length ids - n + k')%nat) = base A k').
  { intros k' Hk'. unfold base. rewrite <- Hl. rewrite Nat2Z.inj_add, Nat2Z.inj_sub by lia. lia. }
  unfold n in Hbase. rewrite Hbase in Hk1, Hke by lia. fold n in Hbase, Hk1, Hp1, Hp.
  replace (position h (length ids - n + (n - 1))) with (tail_ h) in Hp1.
  2:{ unfold position. replace (tail_ h + 1 + (length ids - n + (n - 1))%nat) with
        (tail_ h + 1 * capacity h) by lia. by rewrite Z.mod_add, Z.mod_small by lia. }
  assert (Hpos : (tail_ h + (k - (n - 1)%nat)) mod capacity h = position h (length ids - n + k)).
  { unfold position. replace (tail_ h + 1 + (length ids - n + k)%nat) with
      (tail_ h + (k - (n - 1)%nat) + 1 * capacity h) by lia. by rewrite Z.mod_add by lia. }
  split; [|by exists id, e]. destruct (in_size _ _ _ _ _ I) as (m & Hm & Hs).
  assert (Hb : base A (n - 1)%nat + BLOCK_SIZE * (k - (n - 1)%nat) = base A k) by (unfold base; lia).
  rewrite <- Hpos in Hp |- *. rewrite <- Hb in Hke |- *.
  eapply lookup_from_tail; try done; [apply I|apply I| |by apply base_aligned].
  pose proof (in_memory _ _ _ _ _ I). nia.
Qed.

Lemma lookup_ok r h ids bs A k i (j : Z) :
  index_ok r h ids (row ids bs) (base A (length bs)) → (length bs ≤ length ids)%nat →
  A mod BLOCK_SIZE = 0 → bs !! k = Some i → 0 <= j < BLOCK_SIZE →
  ∃ id e, get_block_index_entry_for_index (u64 (base A k + j)) r = Ok id ∧
    get_entry r id = Ok e ∧ value e = Some (Some i) ∧ key e = u64 (base A k) ∧
    ids !! Z.to_nat (position h (length ids - length bs + k)) = Some id.
Proof.
  intros I Hle HA Hi Hj. destruct (lookup_index_ok _ _ _ _ _ _ _ _ I Hle HA Hi Hj) as (Hx & id & e & Hp & ?).
  exists id, e. split; [|done]. unfold get_block_index_entry_for_index.
  by rewrite Hx, bind_ok, (head_index _ _ _ _ _ I).
Qed.

(** The same index. *)
Definition same_index (r r' : producer) : Prop :=
  blockIndex r' = blockIndex r ∧ nextBlockIndexCapacity r' = nextBlockIndexCapacity r ∧
  all_entries r' = all_entries r.

Lemma index_frame r r' h ids view E :
  same_index r r' → index_ok r h ids view E → index_ok r' h ids view E.
Proof. intros (F1 & F2 & F3) []. by constructor; rewrite ?F1, ?F2, ?F3. Qed.

Lemma indexed_frame r r' bs A : same_index r r' → indexed r bs A → indexed r' bs A.
Proof.
  intros F [[Hb ->]|(hd & ids & X & Hle)]; [left; split; [by rewrite (proj1 F)|done]|].
  right. exists hd, ids. split; [by eapply index_frame|done].
Qed.

Lemma indexed_none r bs A : indexed r bs A → blockIndex r = [] → bs = [].
Proof.
  intros [[_ ?]|(hd & ids & X & _)] Hb; [done|]. by rewrite (head_index _ _ _ _ _ X) in Hb.
Qed.

(** Clearing the entry of the first block. *)
Lemma clear_first r h ids i bs A :
  index_ok r h ids (row ids (i :: bs)) (base A (length (i :: bs))) →
  (length (i :: bs) ≤ length ids)%nat → ∀ id e,
  ids !! Z.to_nat (position h (length ids - length (i :: bs) + 0)) = Some id → get_entry r id = Ok e →
  ∃ r', store_value r id None = Ok r' ∧ indexed r' bs (A + BLOCK_SIZE) ∧ same_queue r r' ∧
    blockIndex r' = blockIndex r.
Proof.
  intros I Hle id e Hid He. unfold store_value. rewrite He, bind_ok. eexists. split; [reflexivity|].
  split_and!; [|done|done]. right. exists h, ids. simpl in Hle. split; [|lia].
  replace (base (A + BLOCK_SIZE) (length bs)) with (base A (length (i :: bs))) by (unfold base; simpl; lia).
  assert (row ids bs = <[(length ids - length (i :: bs))%nat := Free]> (row ids (i :: bs))) as ->.
  { unfold row. rewrite insert_app_r_alt by (rewrite length_replicate; lia).
    rewrite length_replicate, Nat.sub_diag. simpl.
    replace (length ids - length bs)%nat with (length ids - S (length bs) + 1)%nat by lia.
    by rewrite replicate_add, <- (assoc_L app). }
  rewrite Nat.add_0_r in Hid. apply set_mark; [done| |done|by right].
  unfold row. rewrite length_app, length_replicate. simpl. lia.
Qed.
(** ** Entries of new blocks *)

Lemma insert_ok canAlloc (p : pool T) r bs A :
  indexed r bs A → A mod BLOCK_SIZE = 0 → BLOCK_SIZE * length bs <= 2 ^ 62 →
  ∃ p' r' o, insert_block_index_entry canAlloc (u64 (base A (length bs))) p r = Ok (p', r', o) ∧
    (p' = p ∨ p' = (malloc p).2) ∧ same_queue r r' ∧
    match o with
    | Some id => ∃ hd ids, reserved r' hd ids bs (base A (length bs)) id
    | None => r' = r
    end ∧ (blockIndex r ≠ [] → canAlloc = true → mallocs p = [] → is_Some o).
Proof.
  intros [[Hb _]|(hd & ids & X & Hle)] HA Hsz.
  - exists p, r, None. unfold insert_block_index_entry. rewrite Hb. split_and!; try done. all: by left || reflexivity.
  - destruct (insert_entry_ok canAlloc p r hd ids bs _ X Hle) as (p' & r' & o & He & Hp & Hs & Ho & Hm);
      [by apply base_aligned|done|]. exists p', r', o. by split_and!.
Qed.

(** The entry gets its block. *)
Lemma store_block_ok r hd ids bs A id nb :
  reserved r hd ids bs (base A (length bs)) id →
  ∃ r2, store_value r id (Some nb) = Ok r2 ∧ same_queue r r2 ∧ indexed r2 (bs ++ [nb]) A.
Proof.
  intros [X Hroom Hid]. destruct (store_reserved _ _ _ _ _ _ (Some nb) X Hid) as (r2 & Hst & X2 & Hs2).
  exists r2. split; [done|]. split; [by unfold same_queue; rewrite Hs2|]. right. exists hd, ids.
  rewrite length_app. simpl. split; [|lia]. unfold row. rewrite length_app. simpl.
  replace (base A (length bs + 1)) with (base A (length bs) + BLOCK_SIZE) by (unfold base; lia).
  rewrite fmap_app, (assoc_L app). by replace (length ids - (length bs + 1))%nat with
    (length ids - length bs - 1)%nat by lia.
Qed.

(** The entry is taken back. *)
Lemma unreserve_ok r hd ids bs A id :
  reserved r hd ids bs (base A (length bs)) id →
  ∃ r1 r2, rewind_block_index_tail r = Ok r1 ∧ store_value r1 id None = Ok r2 ∧ same_queue r r2 ∧
    indexed r2 bs A ∧ blockIndex r2 ≠ [].
Proof.
  intros [X Hroom Hid]. destruct (undo_ok _ _ _ _ _ _ X Hid) as (r1 & r2 & h & Hr & Hst & X2 & Hs).
  exists r1, r2. split_and!; [done|done|by unfold same_queue; rewrite Hs| |by rewrite (head_index _ _ _ _ _ X2)].
  right. do 2 eexists. split; [|apply Nat.lt_le_incl, Hroom]. unfold row.
  by replace (length ids - length bs)%nat with (S (length ids - length bs - 1))%nat by lia.
Qed.
End proofs.
End producer.
End McImplicitIndex.
