(* ===== verification/McImplicit.v ===== *)
(** * [ConcurrentQueue::ImplicitProducer]

    concurrentqueue.h: the sub-queue of a thread that enqueues without a token,
    used by one thread, from construction to destruction.  A block goes back to the
    free list as soon as its last element is dequeued. *)
From S2P Require Import Prelude BitTricks McDetails McBlock McPool McSlots McImplicitIndex.
Local Open Scope Z_scope.

Module McImplicit.
Import McDetails McBlock McPool McSlots McImplicitIndex.

Section producer.
Context `{Traits} {T : Type}.

(** [ImplicitProducer::ImplicitProducer] *)
Definition create (p : pool T) : result (pool T * producer) :=
  '(p, r, _) ← new_block_index p (Producer 0 0 0 0 None IMPLICIT_INITIAL_INDEX_SIZE [] []);
  Ok (p, r).

(** ** The operations *)

(** The element is constructed in its slot of a block. *)
Definition construct_in (b : nat) (index : Z) (x : T) (p : pool T) : result (pool T) :=
  bl ← deref p b; bl ← construct bl index x; update p b (λ _, bl).

Definition put_element (x : T) (p : pool T) (r : producer) : result (pool T * producer) :=
  match tailBlock r with
  | None => UB
  | Some tb =>
      p ← construct_in tb (tailIndex r) x p; Ok (p, set_tail r (u64 (1 + tailIndex r)))
  end.

Inductive enqueued := Returned (b : bool) | Threw.

(** The new block is in the index already, without its address: it is filled in, or
    the entry is taken back. *)
Definition open_block (noexcept_ctor throws : bool) (x : T) (idxEntry newBlock : nat) (p : pool T)
    (r : producer) : result (pool T * producer * enqueued) :=
  p ← update p newBlock (reset_empty implicit_context);
  if negb noexcept_ctor
  then
    if throws
    then
      r ← rewind_block_index_tail r;
      r ← store_value r idxEntry None;
      p ← add_block_to_free_list newBlock p; Ok (p, r, Threw)
    else
      p ← construct_in newBlock (tailIndex r) x p;
      r ← store_value r idxEntry (Some newBlock);
      Ok (p, set_tail (set_block r (Some newBlock)) (u64 (1 + tailIndex r)), Returned true)
  else
    r ← store_value r idxEntry (Some newBlock);
    '(p, r) ← put_element x p (set_block r (Some newBlock)); Ok (p, r, Returned true).

(** [enqueue]; [noexcept_ctor] is the compile-time test of the element type,
    [throws] what the constructor does this time. *)
Definition enqueue (noexcept_ctor canAlloc throws : bool) (x : T) (p : pool T) (r : producer) :
    result (pool T * producer * enqueued) :=
  if slot (tailIndex r) =? 0
  then
    let head := headIndex r in
    assert_ NDEBUG (negb (clt (tailIndex r) head));;
    if too_full (tailIndex r) head then Ok (p, r, Returned false)
    else
      '(p, r, o) ← insert_block_index_entry canAlloc (tailIndex r) p r;
      match o with
      | None => Ok (p, r, Returned false)
      | Some idxEntry =>
          '(p, o) ← requisition_block canAlloc p;
          match o with
          | None =>
              r ← rewind_block_index_tail r;
              r ← store_value r idxEntry None; Ok (p, r, Returned false)
          | Some newBlock => open_block noexcept_ctor throws x idxEntry newBlock p r
          end
      end
  else if negb noexcept_ctor && throws then Ok (p, r, Threw)
  else '(p, r) ← put_element x p r; Ok (p, r, Returned true).

Inductive dequeued := Got (x : T) | Nothing | Lost.

(** [dequeue]; when the assignment to the result throws, [Guard] does the rest. *)
Definition dequeue (assign_throws : bool) (p : pool T) (r : producer) :
    result (pool T * producer * dequeued) :=
  let tail := tailIndex r in
  let overcommit := dequeueOvercommit r in
  if clt (u64 (dequeueOptimisticCount r - overcommit)) tail
  then
    let myDequeueCount := dequeueOptimisticCount r in
    let r := set_counts r (headIndex r) (u64 (dequeueOptimisticCount r + 1)) overcommit in
    if clt (u64 (myDequeueCount - overcommit)) (tailIndex r)
    then
      let index := headIndex r in
      let r := set_counts r (u64 (headIndex r + 1)) (dequeueOptimisticCount r) overcommit in
      id ← get_block_index_entry_for_index index r;
      e ← get_entry r id;
      v ← load_value e;
      match v with
      | None => UB
      | Some i =>
          b ← deref p i;
          x ← element b index;
          b ← destruct_at b index;
          '(b, empty) ← set_empty implicit_context index b;
          p ← update p i (λ _, b);
          '(p, r) ← (if empty : bool
                     then r ← store_value r id None; p ← add_block_to_free_list i p; Ok (p, r)
                     else Ok (p, r));
          Ok (p, r, if assign_throws : bool then Lost else Got x)
      end
    else Ok (p, set_counts r (headIndex r) (dequeueOptimisticCount r) (u64 (overcommit + 1)), Nothing)
  else Ok (p, r, Nothing).

(** [ProducerBase::size_approx] *)
Definition size_approx (r : producer) : Z :=
  if clt (headIndex r) (tailIndex r) then u64 (tailIndex r - headIndex r) else 0.

(** ** [~ImplicitProducer] *)

(** At the start of a block, or the first time: the block before is freed and the
    one of [index] looked up. *)
Definition next_block (index : Z) (block : option nat) (p : pool T) (r : producer) :
    result (pool T * option nat) :=
  if (slot index =? 0) || bool_decide (block = None)
  then
    p ← (match block with Some b => add_block_to_free_list b p | None => Ok p end);
    id ← get_block_index_entry_for_index index r;
    e ← get_entry r id; v ← load_value e; Ok (p, v)
  else Ok (p, block).

(** [while (index != tail)]; [None] when [fuel] turns were not enough. *)
Fixpoint destroy_elements (fuel : nat) (index : Z) (block : option nat) (p : pool T) (r : producer) :
    option (result (pool T)) :=
  match fuel with
  | O => None
  | S fuel =>
      if index =? tailIndex r then Some (Ok p)
      else
        match ('(p, o) ← next_block index block p r;
               match o with
               | None => UB
               | Some b =>
                   bl ← deref p b; bl ← destruct_at bl index; p ← update p b (λ _, bl); Ok (p, o)
               end) with
        | Ok (p, o) => destroy_elements fuel (u64 (index + 1)) o p r
        | e => Some ('(p, _) ← e; Ok p)
        end
  end.

(** [for (size_t i = 0; i != localBlockIndex->capacity; ++i)
    localBlockIndex->index[i]->~BlockIndexEntry()] *)
Definition destroy_entries (r : producer) : result () :=
  match blockIndex r with
  | [] => Ok ()
  | h :: _ =>
      foldr (λ (i : nat) rest, id ← pointer h i; _ ← get_entry r id; rest) (Ok ())
        (seq 0 (Z.to_nat (capacity h)))
  end.

Definition destroy_producer (p : pool T) (r : producer) : option (result (pool T)) :=
  let tail := tailIndex r in
  let index := headIndex r in
  if NDEBUG || (index =? tail) || clt index tail
  then
    let forceFreeLastBlock := negb (index =? tail) in
    o ← destroy_elements (S (Z.to_nat (u64 (tail - index)))) index None p r;
    Some (
      p ← o;
      p ← (match tailBlock r with
           | Some tb => if forceFreeLastBlock || negb (slot tail =? 0) then add_block_to_free_list tb p
                        else Ok p
           | None => Ok p
           end);
      destroy_entries r;; Ok p)
  else Some Abort.

(** ** Runs *)

(** A call, and whether the constructor or the assignment it runs throws. *)
Inductive outcome := Answer (a : answer (T := T)) | Raised.

Definition exec (noexcept_ctor : bool) (p : pool T) (r : producer) (op : call * bool) :
    result (pool T * producer * outcome) :=
  match op with
  | (Enqueue canAlloc x, throws) =>
      '(p, r, e) ← enqueue noexcept_ctor canAlloc throws x p r;
      Ok (p, r, match e with Returned b => Answer (Enqueued b) | Threw => Raised end)
  | (Dequeue, throws) =>
      '(p, r, d) ← dequeue throws p r;
      Ok (p, r, match d with
                | Got x => Answer (Dequeued (Some x))
                | Nothing => Answer (Dequeued None)
                | Lost => Raised
                end)
  end.

Fixpoint run (noexcept_ctor : bool) (p : pool T) (r : producer) (ops : list (call * bool)) :
    result (pool T * producer * list outcome) :=
  match ops with
  | [] => Ok (p, r, [])
  | op :: ops =>
      '(p, r, o) ← exec noexcept_ctor p r op;
      '(p, r, outs) ← run noexcept_ctor p r ops; Ok (p, r, o :: outs)
  end.

(** What a queue of [xs] may answer, and what it holds then: a constructor that
    throws adds nothing, an assignment that throws loses the element. *)
Definition served (noexcept_ctor : bool) (xs : list T) (op : call * bool) (o : outcome) (ys : list T) :
    Prop :=
  match op, o with
  | (Enqueue _ x, throws), Answer (Enqueued true) =>
      negb noexcept_ctor && throws = false ∧ ys = xs ++ [x]
  | (Enqueue _ _, _), Answer (Enqueued false) => ys = xs
  | (Enqueue _ _, throws), Raised => noexcept_ctor = false ∧ throws = true ∧ ys = xs
  | (Dequeue, throws), Answer (Dequeued (Some x)) => throws = false ∧ xs = x :: ys
  | (Dequeue, _), Answer (Dequeued None) => xs = [] ∧ ys = []
  | (Dequeue, throws), Raised => throws = true ∧ ∃ x, xs = x :: ys
  | _, _ => False
  end.

Inductive served_all (noexcept_ctor : bool) : list T → list (call * bool) → list outcome → list T → Prop :=
  | served_nil xs : served_all noexcept_ctor xs [] [] xs
  | served_cons xs op o ys ops outs zs :
      served noexcept_ctor xs op o ys → served_all noexcept_ctor ys ops outs zs →
      served_all noexcept_ctor xs (op :: ops) (o :: outs) zs.

(** No call of [enqueue] answers [false]. *)
Definition none_refused (outs : list outcome) : Prop := Answer (Enqueued false) ∉ outs.

Definition may_allocate (op : call (T := T) * bool) : bool :=
  match op.1 with Enqueue canAlloc _ => canAlloc | Dequeue => true end.

(** ** The blocks and the elements in them

    The counters are those of an unbounded queue, [h] elements dequeued and [t]
    enqueued, reduced to 64 bits.  The blocks in use, oldest first, cover
    consecutive ranges of indices from [A]; the head is in the first, the tail in
    or at the end of the last. *)
Record blocks_ok (p : pool T) (r : producer) (owned : gset nat) (bs : list nat) (A t h : Z)
    (xs : list T) : Prop := {
  bo_pool : pool_ok p (owned ∪ list_to_set bs);
  bo_disjoint i : i ∈ bs → i ∉ owned;
  bo_nodup : NoDup bs;
  bo_tail_block : bs ≠ [] → tailBlock r = last bs;
  bo_tail : tailIndex r = u64 t;
  bo_head : headIndex r = u64 h;
  bo_counts : u64 (dequeueOptimisticCount r - dequeueOvercommit r) = u64 h;
  bo_length : Z.of_nat (length xs) = t - h;
  bo_aligned : A mod BLOCK_SIZE = 0;
  bo_bounds : A <= h <= t ∧ base A (length bs) - BLOCK_SIZE <= t <= base A (length bs);
  bo_first : bs ≠ [] → h < A + BLOCK_SIZE;
  bo_size : BLOCK_SIZE * length bs < 2 ^ 62;
  bo_blocks k i : bs !! k = Some i →
    ∃ b, heap p !! i = Some b ∧ block_ok implicit_context b (base A k) h xs
}.

(** The queue of [xs] between two calls. *)
Record repr (p : pool T) (r : producer) (owned : gset nat) (bs : list nat) (A t h : Z)
    (xs : list T) : Prop := {
  rp_blocks : blocks_ok p r owned bs A t h xs;
  rp_index : indexed r bs A;
  rp_started : base A (length bs) - BLOCK_SIZE < t
}.

Section proofs.
Context `{!TraitsOk}.

(** ** [enqueue] *)

Lemma blocks_queue p r r' owned bs A t h xs :
  blocks_ok p r owned bs A t h xs → same_queue r r' → blocks_ok p r' owned bs A t h xs.
Proof. intros [] ->. by constructor. Qed.

Lemma blocks_span p r owned bs A t h xs :
  blocks_ok p r owned bs A t h xs → 0 <= t - h <= BLOCK_SIZE * length bs.
Proof. intros I. pose proof (bo_bounds _ _ _ _ _ _ _ _ I) as [? ?]. unfold base in *. lia. Qed.

Lemma block_boundary p r owned bs A t h xs :
  repr p r owned bs A t h xs → (slot (tailIndex r) =? 0) = bool_decide (t = base A (length bs)).
Proof.
  intros [I _ Hs]. destruct (bo_bounds _ _ _ _ _ _ _ _ I) as [_ Hb].
  pose proof (bo_aligned _ _ _ _ _ _ _ _ I) as HA. pose proof block_size_pos.
  rewrite (bo_tail _ _ _ _ _ _ _ _ I), slot_wrap. apply eq_true_iff_eq.
  rewrite Z.eqb_eq, bool_decide_eq_true. split.
  - intros Hz. set (B := base A (length bs)) in *.
    assert (slot (base A (length bs) + (t - B)) = 0) as Hz' by (by rewrite Zplus_minus).
    destruct (decide (t = B)); [done|]. exfalso.
    replace (base A (length bs) + (t - B)) with (base A (length bs) - BLOCK_SIZE + (t - B + BLOCK_SIZE)) in Hz' by lia.
    rewrite slot_mod in Hz'. replace (base A (length bs) - BLOCK_SIZE) with
      (A + (length bs - 1) * BLOCK_SIZE) in Hz' by (unfold base; lia).
    apply Z.mod_divide in HA as [a ->]; [|lia].
    replace (a * BLOCK_SIZE + (length bs - 1) * BLOCK_SIZE + (t - B + BLOCK_SIZE)) with
      (t - B + BLOCK_SIZE + (a + length bs - 1) * BLOCK_SIZE) in Hz' by lia.
    rewrite Z.mod_add, Z.mod_small in Hz'; lia.
  - intros ->. rewrite <- (Z.add_0_r (base A (length bs))). by apply base_slot; [|lia].
Qed.

(** The element goes into the last block. *)
Lemma fill_ok p r owned bs A t h xs tb x :
  blocks_ok p r owned bs A t h xs → last bs = Some tb → t < base A (length bs) →
  ∃ p', construct_in tb (tailIndex r) x p = Ok p' ∧
    blocks_ok p' (set_tail r (u64 (1 + tailIndex r))) owned bs A (t + 1) h (xs ++ [x]) ∧
    mallocs p' = mallocs p.
Proof.
  intros I Htb Ht. pose proof block_size_pos. apply last_at in Htb as Hk.
  destruct I as [I1 I2 I3 I4 I5 I6 I7 I8 I9 I10 I10' I11 I12].
  set (k := (length bs - 1)%nat) in *. pose proof (lookup_lt_Some _ _ _ Hk) as Hlt.
  assert (∃ j : nat, 0 <= j < BLOCK_SIZE ∧ t = base A k + j) as (j & Hj & ->).
  { exists (Z.to_nat (t - base A k)). unfold base, k in *. nia. }
  destruct (I12 k tb Hk) as (b & Hb & Hok).
  destruct (fill_element implicit_context b (base A k) h x xs j Hok) as (b' & Hb' & Hok' & Hn' & Hr');
    [by apply base_aligned|lia|lia|].
  unfold construct_in. rewrite (deref_ok _ _ _ Hb), bind_ok, I5, Hb', bind_ok, (update_ok _ _ _ _ Hb).
  eexists. split; [reflexivity|]. split; [|done]. constructor; simpl; try done.
  - apply (update_owned p _ tb b (λ _, b')); try done.
    apply list_elem_of_lookup_2 in Hk. set_solver.
  - rewrite wrap_add_r. f_equal. lia.
  - rewrite length_app. simpl. lia.
  - lia.
  - intros k' i Hi. destruct (decide (k' = k)) as [->|Hne].
    + assert (i = tb) as -> by congruence. exists b'. by rewrite lookup_insert_eq.
    + destruct (I12 k' i Hi) as (c & Hc & [C1 C2 C3]). exists c.
      rewrite lookup_insert_ne by (intros ->; apply Hne; by eapply NoDup_lookup).
      split; [done|]. constructor; [done| |done]. intros j' Hj'. rewrite C2 by done. f_equal. symmetry.
      apply content_snoc. intros He. destruct (base_inj A k' j' k j); [lia..|done].
Qed.

Lemma blocks_pool p p' r owned owned' bs A t h xs :
  blocks_ok p r owned bs A t h xs → pool_ok p' (owned' ∪ list_to_set bs) →
  (∀ i, i ∈ bs → i ∉ owned') →
  (∀ i, i ∈ bs → heap p' !! i = heap p !! i) → blocks_ok p' r owned' bs A t h xs.
Proof.
  intros [I1 I2 I3 I4 I5 I6 I7 I8 I9 I10 I10' I11 I12] Hp Ho Hf. constructor; try done.
  intros k i Hi. destruct (I12 k i Hi) as (b & Hb & ?). exists b.
  rewrite Hf; [done|]. by eapply list_elem_of_lookup_2.
Qed.

(** A block joins those in use. *)
Lemma blocks_open p r owned bs A t h xs nb b0 :
  blocks_ok p r ({[nb]} ∪ owned) bs A t h xs → t = base A (length bs) →
  BLOCK_SIZE * (length bs + 1) < 2 ^ 62 →
  nb ∉ owned ∪ list_to_set bs → h < A + BLOCK_SIZE →
  heap p !! nb = Some (reset_empty implicit_context b0) → raw b0 →
  blocks_ok p (set_block r (Some nb)) owned (bs ++ [nb]) A t h xs.
Proof.
  intros [I1 I2 I3 I4 I5 I6 I7 I8 I9 I10 I10' I11 I12] Ht Hsz Hnb Hfirst Hb0 Hraw.
  pose proof block_size_pos.
  assert (Hlen : length (bs ++ [nb]) = S (length bs)) by (rewrite length_app; simpl; lia).
  constructor; simpl; try done.
  - by replace (owned ∪ list_to_set (bs ++ [nb])) with ({[nb]} ∪ owned ∪ list_to_set bs) by set_solver.
  - intros i [Hi|Hi%list_elem_of_singleton]%elem_of_app; [pose proof (I2 i Hi)|]; set_solver.
  - apply NoDup_app. split_and!; [done| |apply NoDup_singleton].
    intros i Hi ->%list_elem_of_singleton. set_solver.
  - by rewrite last_snoc.
  - rewrite Hlen. subst t. unfold base in *. lia.
  - rewrite Hlen. lia.
  - intros k i Hi. destruct (decide (k < length bs)%nat).
    + rewrite lookup_app_l in Hi by done. by apply I12.
    + rewrite lookup_app_r in Hi by lia. apply list_lookup_singleton_Some in Hi as [Hz <-].
      replace k with (length bs) by lia. rewrite <- Ht. eexists. split; [done|].
      apply fresh_block_ok; [by rewrite Hraw, length_replicate| |lia].
      intros j Hj. rewrite Hraw, lookup_replicate_2; [done|lia].
Qed.

(** The new block and its entry are taken back, or the element is in it. *)
Lemma open_block_ok noexcept_ctor throws x p r owned bs A t h xs hd ids id nb b0 :
  blocks_ok p r ({[nb]} ∪ owned) bs A t h xs → reserved r hd ids bs (base A (length bs)) id →
  t = base A (length bs) → BLOCK_SIZE * (length bs + 1) < 2 ^ 62 →
  nb ∉ owned ∪ list_to_set bs → heap p !! nb = Some b0 → raw b0 →
  ∃ p' r' e, open_block noexcept_ctor throws x id nb p r = Ok (p', r', e) ∧
    mallocs p' = mallocs p ∧
    if negb noexcept_ctor && throws
    then e = Threw ∧ repr p' r' owned bs A t h xs ∧ blockIndex r' ≠ []
    else e = Returned true ∧ repr p' r' owned (bs ++ [nb]) A (t + 1) h (xs ++ [x]).
Proof.
  intros I X Ht Hsz Hnb Hb0 Hraw. pose proof block_size_pos.
  assert (Hout : ∀ i, i ∈ bs → nb ≠ i) by (intros i Hi ->; set_solver).
  unfold open_block. rewrite (update_ok _ _ _ _ Hb0), bind_ok.
  set (p1 := with_heap p (<[nb:=reset_empty implicit_context b0]> (heap p))).
  assert (Hnb1 : heap p1 !! nb = Some (reset_empty implicit_context b0)) by apply lookup_insert_eq.
  assert (Hp1 : pool_ok p1 ({[nb]} ∪ owned ∪ list_to_set bs)).
  { apply update_owned; [apply I|set_solver|done|by destruct (reset_fields implicit_context b0) as (_ & _ & ->)]. }
  pose proof (bo_disjoint _ _ _ _ _ _ _ _ I) as Hdis.
  assert (I1 : blocks_ok p1 r ({[nb]} ∪ owned) bs A t h xs).
  { eapply (blocks_pool p); [done|done|done|]. intros i Hi. apply lookup_insert_ne. by apply Hout. }
  destruct (negb noexcept_ctor && throws) eqn:Hth.
  - apply andb_true_iff in Hth as [-> ->].
    destruct (unreserve_ok _ _ _ _ _ _ X) as (r1 & r' & -> & Hst & Hs & X' & Hb'). rewrite bind_ok, Hst, bind_ok.
    destruct (add_block_to_free_list_ok p1 _ nb _ Hp1 ltac:(set_solver) Hnb1) as (p2 & Hadd & Hp2 & Hf).
    { unfold raw. by rewrite (proj1 (reset_fields implicit_context b0)). }
    rewrite Hadd, bind_ok. do 3 eexists. split; [reflexivity|].
    split; [by apply add_block_memory in Hadd|]. split; [done|].
    split; [|done]. constructor; [|done|lia].
    + apply (blocks_queue _ r); [|done].
      eapply (blocks_pool p1); [done| | |].
      * by replace (owned ∪ list_to_set bs) with (({[nb]} ∪ owned ∪ list_to_set bs) ∖ {[nb]}) by set_solver.
      * intros i Hi. pose proof (Hdis i Hi). set_solver.
      * intros i Hi. apply Hf. intros ->. by apply (Hout nb).
  - destruct (store_block_ok _ _ _ _ _ _ nb X) as (r2 & Hst & Hs2 & X2).
    assert (I2 : blocks_ok p1 (set_block r (Some nb)) owned (bs ++ [nb]) A t h xs).
    { apply (blocks_open _ _ _ _ _ _ _ _ _ b0); try done.
      pose proof (bo_bounds _ _ _ _ _ _ _ _ I). subst t. unfold base in *. destruct bs; [simpl in *; lia|].
      by apply (bo_first _ _ _ _ _ _ _ _ I). }
    destruct (fill_ok _ _ _ _ _ _ _ _ nb x I2) as (p3 & Hfill & I3 & Hm).
    { by rewrite last_snoc. } { subst t. rewrite length_app. unfold base. simpl. lia. }
    change (tailIndex (set_block r (Some nb))) with (tailIndex r) in Hfill, I3.
    assert (R : repr p3 (set_tail (set_block r2 (Some nb)) (u64 (1 + tailIndex r)))
      owned (bs ++ [nb]) A (t + 1) h (xs ++ [x])).
    { constructor; [|by apply (indexed_frame r2)|subst t; rewrite length_app; unfold base; simpl; lia].
      eapply blocks_queue; [exact I3|]. by rewrite Hs2. }
    assert (Hput : put_element x p1 (set_block r2 (Some nb)) =
      Ok (p3, set_tail (set_block r2 (Some nb)) (u64 (1 + tailIndex r)))).
    { unfold put_element. simpl. replace (tailIndex r2) with (tailIndex r) by (by rewrite Hs2).
      by rewrite Hfill. }
    exists p3, (set_tail (set_block r2 (Some nb)) (u64 (1 + tailIndex r))), (Returned true).
    split; [|done]. destruct noexcept_ctor; cbn [negb].
    + by rewrite Hst, bind_ok, Hput.
    + destruct throws; [done|]. rewrite Hfill, bind_ok, Hst, bind_ok.
      by replace (tailIndex r2) with (tailIndex r) by (by rewrite Hs2).
Qed.

Lemma add_ok noexcept_ctor canAlloc throws x p r owned bs A t h xs :
  repr p r owned bs A t h xs → BLOCK_SIZE * (length bs + 1) < 2 ^ 62 →
  ∃ p' r' e, enqueue noexcept_ctor canAlloc throws x p r = Ok (p', r', e) ∧
    match e with
    | Returned true => negb noexcept_ctor && throws = false ∧
        ∃ bs', repr p' r' owned bs' A (t + 1) h (xs ++ [x]) ∧ (length bs' ≤ S (length bs))%nat
    | Returned false => repr p' r' owned bs A t h xs
    | Threw => noexcept_ctor = false ∧ throws = true ∧ repr p' r' owned bs A t h xs
    end ∧
    (canAlloc = true → mallocs p = [] → MAX_SUBQUEUE_SIZE = SIZE_MAX → blockIndex r ≠ [] →
     e ≠ Returned false ∧ mallocs p' = []) ∧ (blockIndex r ≠ [] → blockIndex r' ≠ []).
Proof.
  intros R Hsz. pose proof R as [I X Hstart]. pose proof block_size_pos. pose proof (blocks_span _ _ _ _ _ _ _ _ I).
  unfold enqueue. rewrite (block_boundary _ _ _ _ _ _ _ _ R). case_bool_decide as Ht.
  - rewrite (bo_tail _ _ _ _ _ _ _ _ I), (bo_head _ _ _ _ _ _ _ _ I).
    rewrite assert_ok, bind_ok by (apply in_order; lia). destruct (too_full (u64 t) (u64 h)) eqn:Hfull.
    { do 3 eexists. split; [reflexivity|]. split_and!; [done| |done]. intros _ _ Hmax.
      by rewrite too_full_unlimited in Hfull by (done || lia). }
    destruct (insert_ok canAlloc p r bs A X) as (p1 & r1 & o & Hins & Hp1 & Hs1 & Ho & Hm1);
      [apply I|lia|]. rewrite Ht, Hins, <- Ht, bind_ok.
    assert (Hq1 : heap p1 = heap p ∧ pool_ok p1 (owned ∪ list_to_set bs) ∧ (mallocs p = [] → mallocs p1 = [])).
    { pose proof (bo_pool _ _ _ _ _ _ _ _ I). destruct Hp1 as [-> | ->]; [done|].
      split_and!; [done|by apply malloc_pool|]. simpl. by intros ->. }
    destruct Hq1 as (Hh1 & Hpool1 & Hmem1).
    assert (I1 : blocks_ok p1 r owned bs A t h xs)
      by (eapply (blocks_pool p); [done|done|apply I|by rewrite Hh1]).
    destruct o as [id|].
    2:{ subst r1. do 3 eexists. split; [reflexivity|]. split_and!; [by constructor| |done].
        intros Hc Hm _ Hb. by destruct (Hm1 Hb Hc Hm). }
    destruct Ho as (hd & ids & R1).
    pose proof (blocks_queue _ _ r1 _ _ _ _ _ _ I1 Hs1) as I2.
    destruct (requisition_block_ok canAlloc p1 _ Hpool1) as (p2 & o & Hreq & Hf & Ho). rewrite Hreq, bind_ok.
    destruct o as [nb|].
    + destruct Ho as (Hnb & P2 & b0 & Hb0 & Hraw).
      assert (I3 : blocks_ok p2 r1 ({[nb]} ∪ owned) bs A t h xs).
      { eapply (blocks_pool p1); [done|by rewrite <- (assoc_L (∪))| |].
        - intros i Hi. pose proof (bo_disjoint _ _ _ _ _ _ _ _ I i Hi). set_solver.
        - intros i Hi. apply Hf. set_solver. }
      destruct (open_block_ok noexcept_ctor throws x _ _ _ _ _ _ _ _ _ _ _ _ _ I3 R1 Ht Hsz Hnb Hb0 Hraw)
        as (p3 & r3 & e & -> & Hm3 & Hres).
      exists p3, r3, e. split; [reflexivity|].
      destruct (negb noexcept_ctor && throws) eqn:Hth; [destruct Hres as (-> & R3 & Hb3)|destruct Hres as (-> & R3)].
      * apply andb_true_iff in Hth as [Hn ->]. destruct noexcept_ctor; [done|].
        split_and!; try done. intros -> Hm _ _. split; [done|]. rewrite Hm3.
        by destruct (requisition_memory _ _ _ Hreq (Hmem1 Hm)).
      * split_and!.
        -- done.
        -- exists (bs ++ [nb]). split; [done|]. rewrite length_app. simpl. lia.
        -- intros -> Hm _ _. split; [done|]. rewrite Hm3.
           by destruct (requisition_memory _ _ _ Hreq (Hmem1 Hm)).
        -- intros _ Hb3. destruct R3 as [_ X3 _]. apply (indexed_none _ _ _ X3) in Hb3. by destruct bs.
    + destruct (unreserve_ok _ _ _ _ _ _ R1) as (r2 & r3 & -> & Hst & Hs3 & X3 & Hb3).
      rewrite bind_ok, Hst, bind_ok. do 3 eexists. split; [reflexivity|]. split_and!.
      * constructor; [|done|done]. apply (blocks_queue _ r1); [|done].
        eapply (blocks_pool p1); [done|done|apply I|]. intros i Hi. apply Hf. set_solver.
      * intros -> Hm _ _. by destruct (requisition_memory _ _ _ Hreq (Hmem1 Hm)) as [[? [=]] _].
      * done.
  - destruct (negb noexcept_ctor && throws) eqn:Hth.
    + apply andb_true_iff in Hth as [Hn ->]. do 3 eexists. split; [reflexivity|].
      by destruct noexcept_ctor.
    + destruct (bo_bounds _ _ _ _ _ _ _ _ I) as [Hb1 Hb2].
      assert (bs ≠ []) as Hne by (intros ->; unfold base in *; simpl in *; lia).
      destruct (last bs) as [tb|] eqn:Htb; [|by apply last_None in Htb].
      destruct (fill_ok _ _ _ _ _ _ _ _ tb x I Htb ltac:(lia)) as (p' & Hfill & I' & Hm).
      unfold put_element. rewrite (bo_tail_block _ _ _ _ _ _ _ _ I Hne), Htb, Hfill, !bind_ok.
      do 3 eexists. split; [reflexivity|]. split_and!.
      * done.
      * exists bs. split; [|lia]. constructor; [done|by apply (indexed_frame r)|lia].
      * by rewrite Hm.
      * done.
Qed.

(** ** [dequeue] *)

Lemma taken_blocks p r owned i bs A t h x xs b0 b :
  blocks_ok p r owned (i :: bs) A t h (x :: xs) →
  heap p !! i = Some b0 → block_ok implicit_context b A (h + 1) xs → freeListRefs b = freeListRefs b0 →
  let p' := with_heap p (<[i := b]> (heap p)) in
  pool_ok p' (owned ∪ list_to_set (i :: bs)) ∧
  ∀ k j, (i :: bs) !! k = Some j →
    ∃ bj, heap p' !! j = Some bj ∧ block_ok implicit_context bj (base A k) (h + 1) xs.
Proof.
  intros [I1 I2 I3 I4 I5 I6 I7 I8 I9 I10 I10' I11 I12] Hb0 Hb Hrefs p'. pose proof block_size_pos. split.
  - apply (update_owned p _ i b0 (λ _, b)); [done|set_solver|done|done].
  - intros k j Hk. destruct (decide (k = 0)%nat) as [->|Hk0].
    + simpl in Hk. injection Hk as <-. exists b. simpl. rewrite lookup_insert_eq. split; [done|].
      by replace (base A 0) with A by (unfold base; lia).
    + assert (i ≠ j) as Hne.
      { intros ->. apply Hk0. by apply (NoDup_lookup (j :: bs) k 0 j). }
      destruct (I12 k j Hk) as (bj & Hbj & Hok). exists bj. simpl. rewrite lookup_insert_ne by done.
      split; [done|]. apply (other_block _ _ _ _ x); [done|]. left.
      specialize (I10' ltac:(done)). unfold base. nia.
Qed.

Lemma remove_ok assign_throws p r owned bs A t h xs :
  repr p r owned bs A t h xs →
  match xs with
  | [] => dequeue assign_throws p r = Ok (p, r, Nothing)
  | x :: xs => ∃ p' r' bs' A',
      dequeue assign_throws p r = Ok (p', r', if assign_throws then Lost else Got x) ∧
      repr p' r' owned bs' A' t (h + 1) xs ∧ (length bs' ≤ length bs)%nat ∧
      mallocs p' = mallocs p ∧ (blockIndex r ≠ [] → blockIndex r' ≠ [])
  end.
Proof.
  intros R. pose proof R as [I X Hst]. pose proof block_size_pos. pose proof (blocks_span _ _ _ _ _ _ _ _ I) as Hsp.
  pose proof (bo_bounds _ _ _ _ _ _ _ _ I) as [Hb1 Hb2]. pose proof (bo_size _ _ _ _ _ _ _ _ I) as Hsz.
  pose proof (bo_length _ _ _ _ _ _ _ _ I) as Hlen.
  unfold dequeue. rewrite (bo_counts _ _ _ _ _ _ _ _ I), (bo_tail _ _ _ _ _ _ _ _ I), clt_spec by lia.
  destruct xs as [|x xs]; simpl in Hlen; [by rewrite (proj2 (Z.ltb_ge h t)) by lia|].
  rewrite (proj2 (Z.ltb_lt h t)) by lia. cbn [tailIndex headIndex set_counts].
  rewrite (bo_tail _ _ _ _ _ _ _ _ I), clt_spec, (proj2 (Z.ltb_lt h t)) by lia.
  rewrite (bo_head _ _ _ _ _ _ _ _ I). unfold set_counts at 2. cbn [dequeueOptimisticCount].
  destruct bs as [|i bs]; [unfold base in *; simpl in *; lia|].
  destruct X as [[_ [=]]|(hd & ids & X & Hle)].
  pose proof (bo_first _ _ _ _ _ _ _ _ I ltac:(done)) as Hfirst.
  assert (∃ j : nat, j < BLOCK_SIZE ∧ h = A + j) as (j & Hj & Hh) by (exists (Z.to_nat (h - A)); lia).
  set (r1 := set_counts _ _ _ _).
  assert (F1 : same_index r r1) by done.
  destruct (lookup_ok r1 hd ids (i :: bs) A 0 i j (index_frame _ _ _ _ _ _ F1 X) Hle)
    as (id & e & Hlook & He & Hv & _ & Hid); [apply I|done|lia|].
  replace (base A 0 + j) with h in Hlook by (unfold base; lia).
  rewrite Hlook, bind_ok, He, bind_ok. unfold load_value. rewrite Hv, bind_ok.
  destruct (bo_blocks _ _ _ _ _ _ _ _ I 0%nat i eq_refl) as (b & Hb & Hok).
  replace (base A 0) with A in Hok by (unfold base; lia).
  destruct (take_element implicit_context b A h x xs j Hok) as (Hel & b1 & b2 & Hd & Hset & Hok2 & _ & Hrefs);
    [apply I|done|done|].
  rewrite (deref_ok _ _ _ Hb), bind_ok, Hel, bind_ok, Hd, bind_ok, Hset, bind_ok, (update_ok _ _ _ _ Hb), bind_ok.
  destruct (taken_blocks _ _ _ _ _ _ _ _ _ _ _ b2 I Hb Hok2 Hrefs) as [Hp1 Hblocks].
  set (p1 := with_heap p (<[i:=b2]> (heap p))) in *.
  assert (C : u64 (dequeueOptimisticCount r1 - dequeueOvercommit r1) = u64 (h + 1)).
  { unfold r1. simpl. autorewrite with wrap.
    replace (dequeueOptimisticCount r + 1 - dequeueOvercommit r) with
      (dequeueOptimisticCount r - dequeueOvercommit r + 1) by lia.
    rewrite <- wrap_add_l, (bo_counts _ _ _ _ _ _ _ _ I). by autorewrite with wrap. }
  assert (C' : headIndex r1 = u64 (h + 1)) by (unfold r1; simpl; by autorewrite with wrap).
  destruct I as [I1 I2 I3 I4 I5 I6 I7 I8 I9 I10 I10' I11 I12].
  cbn [use_flags negb andb]. case_bool_decide as Hlast.
  - destruct (clear_first r1 hd ids i bs A (index_frame _ _ _ _ _ _ F1 X) Hle id e Hid He)
      as (r2 & Hs & X2 & Hq & Hb3). rewrite Hs, bind_ok.
    destruct (Hblocks 0%nat i eq_refl) as (bi & Hbi & Hoki).
    destruct (add_block_to_free_list_ok p1 _ i bi Hp1) as (p2 & Hadd & Hp2 & Hf); [set_solver|done| |].
    { apply (no_slots_raw bi A (h + 1) xs); [|left; lia]. apply (block_slots implicit_context).
      by replace A with (base A 0) by (unfold base; lia). }
    rewrite Hadd, !bind_ok. apply NoDup_cons in I3 as [Hi3 I3]. do 4 eexists. split; [reflexivity|].
    split; [|split_and!; [|by apply add_block_memory in Hadd|by rewrite Hb3]].
    2:{ instantiate (1 := bs). simpl. lia. }
    constructor; [|exact X2|unfold base in *; simpl in *; lia].
    apply (blocks_queue _ r1); [|done]. constructor; try done.
    + replace (owned ∪ list_to_set bs) with ((owned ∪ list_to_set (i :: bs)) ∖ {[i]}); [done|].
      specialize (I2 i ltac:(left)). set_solver.
    + intros k Hk. apply I2. by right.
    + intros Hne. simpl. rewrite I4 by done. by destruct bs.
    + lia.
    + rewrite Z.add_mod, I9, Z.mod_same, Z.add_0_l by lia. apply Z.mod_0_l. lia.
    + unfold base in *. simpl in *. lia.
    + intros _. lia.
    + simpl in *. lia.
    + intros k' j' Hk'. destruct (Hblocks (S k') j' Hk') as (bj & Hbj & Hokj). exists bj.
      rewrite Hf by (intros ->; apply Hi3; by eapply list_elem_of_lookup_2). split; [done|].
      by replace (base (A + BLOCK_SIZE) k') with (base A (S k')) by (unfold base; lia).
  - rewrite bind_ok. do 4 eexists. split; [reflexivity|].
    split; [|split_and!; [reflexivity|done|done]].
    constructor; [|right; exists hd, ids; split; [by eapply index_frame|done]|done].
    constructor; try done; try lia.
Qed.

(** ** The destructor *)

(** The loop at index [h]: the blocks not given back yet, and the block it holds. *)
Record destroying (p : pool T) (r : producer) (owned : gset nat) (bs : list nat) (A t h : Z)
    (xs : list T) (cur : option nat) : Prop := {
  de_pool : pool_ok p (owned ∪ list_to_set bs);
  de_disjoint i : i ∈ bs → i ∉ owned;
  de_nodup : NoDup bs;
  de_length : Z.of_nat (length xs) = t - h;
  de_aligned : A mod BLOCK_SIZE = 0;
  de_bounds : A <= h <= A + BLOCK_SIZE ∧ base A (length bs) - BLOCK_SIZE < t <= base A (length bs);
  de_block : match cur with Some i => head bs = Some i ∧ A < h | None => h < A + BLOCK_SIZE end;
  de_blocks k i : bs !! k = Some i → ∃ b, heap p !! i = Some b ∧ slots_ok b (base A k) h xs;
  de_lookup k i (j : Z) : bs !! k = Some i → 0 <= j < BLOCK_SIZE →
    ∃ id e, get_block_index_entry_for_index (u64 (base A k + j)) r = Ok id ∧
      get_entry r id = Ok e ∧ value e = Some (Some i)
}.

Lemma head_slot A h : A mod BLOCK_SIZE = 0 → A <= h < A + BLOCK_SIZE → slot (u64 h) = h - A.
Proof.
  intros HA Hh. rewrite slot_wrap. replace h with (base A 0 + (h - A)) at 1 by (unfold base; lia).
  apply base_slot; [done|lia].
Qed.

(** The entry of the head. *)
Lemma first_lookup p r owned i bs A t h xs cur :
  destroying p r owned (i :: bs) A t h xs cur → h < A + BLOCK_SIZE →
  (id ← get_block_index_entry_for_index (u64 h) r; e ← get_entry r id; load_value e) = Ok (Some i).
Proof.
  intros D Hh. pose proof (de_bounds _ _ _ _ _ _ _ _ _ D).
  destruct (de_lookup _ _ _ _ _ _ _ _ _ D 0%nat i (h - A) eq_refl) as (id & e & Hl & He & Hv); [lia|].
  replace (base A 0 + (h - A)) with h in Hl by (unfold base; lia).
  rewrite Hl, bind_ok, He, bind_ok. unfold load_value. by rewrite Hv.
Qed.

(** The first block is given back. *)
Lemma give_back p r owned i bs A t h xs :
  destroying p r owned (i :: bs) A t h xs (Some i) → h = A + BLOCK_SIZE → h < t →
  ∃ p', add_block_to_free_list i p = Ok p' ∧
    destroying p' r owned bs (A + BLOCK_SIZE) t h xs None ∧ bs ≠ [].
Proof.
  intros [D1 D2 D3 D4 D5 D6 D7 D8 D9] Hh Ht. pose proof block_size_pos.
  destruct (D8 0%nat i eq_refl) as (b & Hb & Hok).
  destruct (add_block_to_free_list_ok p _ i b D1) as (p' & Hadd & Hp' & Hf); [set_solver|done| |].
  { eapply no_slots_raw; [exact Hok|]. left. unfold base. lia. }
  apply NoDup_cons in D3 as [Hi D3]. exists p'. split; [done|].
  assert (Hbase : ∀ k, base (A + BLOCK_SIZE) k = base A (S k)) by (intros; unfold base; lia).
  simpl length in D6. split.
  - constructor; try done.
    + replace (owned ∪ list_to_set bs) with ((owned ∪ list_to_set (i :: bs)) ∖ {[i]}); [done|].
      specialize (D2 i ltac:(left)). set_solver.
    + intros j Hj. apply D2. by right.
    + rewrite Z.add_mod, D5, Z.mod_same, Z.add_0_l by lia. apply Z.mod_0_l. lia.
    + rewrite Hbase. lia.
    + lia.
    + intros k j Hk. destruct (D8 (S k) j Hk) as (bj & Hbj & Hokj). exists bj.
      rewrite Hf, Hbase by (intros ->; apply Hi; by eapply list_elem_of_lookup_2). done.
    + intros k j o Hk Ho. rewrite Hbase. by apply (D9 (S k)).
  - intros ->. unfold base in D6. simpl in D6. lia.
Qed.

Lemma next_block_ok p r owned bs A t h x xs cur :
  destroying p r owned bs A t h (x :: xs) cur →
  ∃ p' i bs' A', next_block (u64 h) cur p r = Ok (p', Some i) ∧ last (i :: bs') = last bs ∧
    destroying p' r owned (i :: bs') A' t h (x :: xs) None.
Proof.
  intros D. pose proof block_size_pos. pose proof (de_bounds _ _ _ _ _ _ _ _ _ D) as [Hb1 Hb2].
  pose proof (de_length _ _ _ _ _ _ _ _ _ D) as Hl. simpl in Hl.
  destruct bs as [|i bs]; [unfold base in Hb2; simpl in Hb2; lia|].
  unfold next_block. destruct (decide (h = A + BLOCK_SIZE)) as [He|Hne].
  - destruct cur as [c|]; [|pose proof (de_block _ _ _ _ _ _ _ _ _ D); simpl in *; lia].
    pose proof (de_block _ _ _ _ _ _ _ _ _ D) as [[= ->] _].
    destruct (give_back _ _ _ _ _ _ _ _ _ D He ltac:(lia)) as (p' & Hadd & D' & Hbs).
    rewrite (head_slot (A + BLOCK_SIZE) h) by (apply D' || lia).
    replace (h - (A + BLOCK_SIZE)) with 0 by lia. cbn [orb Z.eqb]. rewrite Hadd, bind_ok.
    destruct bs as [|i' bs]; [done|]. pose proof (first_lookup _ _ _ _ _ _ _ _ _ _ D' ltac:(lia)) as Hv.
    apply bind_inv_ok in Hv as (id & -> & Hv). apply bind_inv_ok in Hv as (e & He' & Hv).
    rewrite bind_ok, He', bind_ok, Hv, bind_ok. by do 4 eexists.
  - pose proof (first_lookup _ _ _ _ _ _ _ _ _ _ D ltac:(lia)) as Hv.
    assert (D' : destroying p r owned (i :: bs) A t h (x :: xs) None) by (destruct D; constructor; try done; lia).
    rewrite (head_slot A h) by (apply D || lia). destruct cur as [c|].
    + pose proof (de_block _ _ _ _ _ _ _ _ _ D) as [[= ->] Hlt].
      rewrite (proj2 (Z.eqb_neq _ _)), bool_decide_eq_false_2 by (done || lia). by do 4 eexists.
    + rewrite bool_decide_eq_true_2, orb_true_r, bind_ok by done.
      apply bind_inv_ok in Hv as (id & -> & Hv). apply bind_inv_ok in Hv as (e & He' & Hv).
      rewrite bind_ok, He', bind_ok, Hv, bind_ok. by do 4 eexists.
Qed.

(** One element is destroyed. *)
Lemma destroy_head p r owned i bs A t h x xs :
  destroying p r owned (i :: bs) A t h (x :: xs) None →
  ∃ p', (bl ← deref p i; bl ← destruct_at bl (u64 h); update p i (λ _, bl)) = Ok p' ∧
    destroying p' r owned (i :: bs) A t (h + 1) xs (Some i).
Proof.
  intros [D1 D2 D3 D4 D5 D6 D7 D8 D9]. pose proof block_size_pos. simpl in D7, D4.
  destruct (D8 0%nat i eq_refl) as (b & Hb & Hok).
  replace (base A 0) with A in Hok by (unfold base; lia).
  destruct (destruct_head b A h x xs (Z.to_nat (h - A)) Hok D5) as (_ & _ & Hd & Hok'); [lia|lia|].
  rewrite (deref_ok _ _ _ Hb), bind_ok, Hd, bind_ok, (update_ok _ _ _ _ Hb). eexists. split; [reflexivity|].
  set (b' := with_elements _ _) in *. constructor; try done; try lia.
  - apply (update_owned p _ i b (λ _, b')); [done|set_solver|done|done].
  - split; [done|lia].
  - intros k j Hk. destruct (decide (k = 0)%nat) as [->|Hk0].
    + simpl in Hk. injection Hk as <-. exists b'. simpl. rewrite lookup_insert_eq. split; [done|].
      by replace (base A 0) with A by (unfold base; lia).
    + assert (i ≠ j) as Hne.
      { intros ->. apply Hk0. by apply (NoDup_lookup (j :: bs) k 0 j). }
      destruct (D8 k j Hk) as (bj & Hbj & Hokj). exists bj. simpl. rewrite lookup_insert_ne by done.
      split; [done|]. apply (other_slots _ _ _ x); [done|]. left. unfold base. nia.
Qed.

Lemma destroy_elements_ok r t : ∀ xs fuel p owned bs A h cur,
  destroying p r owned bs A t h xs cur → tailIndex r = u64 t → t - h <= 2 ^ 62 →
  (length xs < fuel)%nat →
  ∃ p' bs' A' cur', destroy_elements fuel (u64 h) cur p r = Some (Ok p') ∧ last bs' = last bs ∧
    destroying p' r owned bs' A' t t [] cur'.
Proof.
  induction xs as [|x xs IH]; intros fuel p owned bs A h cur D Ht Hsp Hf; (destruct fuel as [|fuel]; [lia|]);
    pose proof (de_length _ _ _ _ _ _ _ _ _ D) as Hl; simpl in Hl; cbn [destroy_elements]; rewrite Ht.
  - replace h with t in * by lia. rewrite Z.eqb_refl. by do 4 eexists.
  - rewrite (proj2 (Z.eqb_neq _ _)) by (intros Hu; apply wrap_inj in Hu; lia).
    destruct (next_block_ok _ _ _ _ _ _ _ _ _ _ D) as (p1 & i & bs1 & A1 & -> & Hlast & D1).
    rewrite bind_ok. destruct (destroy_head _ _ _ _ _ _ _ _ _ _ D1) as (p2 & Hd & D2).
    apply bind_inv_ok in Hd as (bl & -> & Hd). apply bind_inv_ok in Hd as (bl' & Hd & Hu).
    rewrite bind_ok, Hd, bind_ok, Hu, bind_ok, wrap_add_l.
    destruct (IH fuel p2 owned _ _ _ _ D2 Ht) as (p' & bs' & A' & cur' & Hrun & Hlast' & D'); [lia|simpl in *; lia|].
    exists p', bs', A', cur'. split_and!; [done|congruence|done].
Qed.

(** Every entry of the index was constructed. *)
Lemma destroy_entries_ok r bs A : indexed r bs A → destroy_entries r = Ok ().
Proof.
  intros [[Hb _]|(h & ids & X & _)]; unfold destroy_entries; [by rewrite Hb|].
  rewrite (head_index _ _ _ _ _ X). pose proof (in_length _ _ _ _ _ X) as Hl.
  assert (Hi : ∀ i, i ∈ seq 0 (Z.to_nat (capacity h)) → (i < length ids)%nat).
  { intros i Hi%elem_of_seq. lia. }
  revert Hi. generalize (seq 0 (Z.to_nat (capacity h))). intros l. induction l as [|i l IH]; [done|].
  intros Hi. simpl. destruct (lookup_lt_is_Some_2 ids i (Hi i ltac:(left))) as [id Hid].
  rewrite (pointer_ok h ids i id); [|apply X|lia|by rewrite Nat2Z.id]. rewrite bind_ok.
  destruct (lookup_lt_is_Some_2 (all_entries r) id) as [e He].
  { eapply in_bound; [done|]. by eapply list_elem_of_lookup_2. }
  assert (get_entry r id = Ok e) as -> by (unfold get_entry; by rewrite He). rewrite bind_ok. apply IH. intros j Hj. apply Hi. by right.
Qed.

Lemma destructor_ok p r owned bs A t h xs :
  repr p r owned bs A t h xs → ∃ p', destroy_producer p r = Some (Ok p') ∧ pool_ok p' owned.
Proof.
  intros R. pose proof R as [I X Hst]. pose proof block_size_pos. pose proof (blocks_span _ _ _ _ _ _ _ _ I) as Hsp.
  pose proof (bo_bounds _ _ _ _ _ _ _ _ I) as [Hb1 Hb2]. pose proof (bo_size _ _ _ _ _ _ _ _ I) as Hsz.
  pose proof (bo_length _ _ _ _ _ _ _ _ I) as Hlen. pose proof (block_boundary _ _ _ _ _ _ _ _ R) as Hslot.
  unfold destroy_producer. rewrite (bo_tail _ _ _ _ _ _ _ _ I) in *. rewrite (bo_head _ _ _ _ _ _ _ _ I).
  assert (Heq : (u64 h =? u64 t) = bool_decide (h = t)).
  { apply eq_true_iff_eq. rewrite Z.eqb_eq, bool_decide_eq_true. split; [|by intros ->].
    intros Hu. apply wrap_inj in Hu; lia. }
  assert (NDEBUG || (u64 h =? u64 t) || clt (u64 h) (u64 t) = true) as ->.
  { rewrite Heq, clt_spec by lia. case_bool_decide; [by rewrite orb_true_r|].
    by rewrite (proj2 (Z.ltb_lt _ _)), orb_true_r by lia. }
  replace (Z.to_nat (u64 (u64 t - u64 h))) with (length xs).
  2:{ autorewrite with wrap. rewrite wrap_small by (unfold fits; lia). lia. }
  destruct (decide (bs = [])) as [->|Hne].
  { assert (h = t ∧ t = A) as [-> ->] by (unfold base in *; simpl in *; lia).
    cbn [destroy_elements]. rewrite (bo_tail _ _ _ _ _ _ _ _ I), Z.eqb_refl. cbn [mbind option_bind].
    exists p. rewrite bind_ok. cbn [negb orb]. rewrite Hslot, bool_decide_eq_true_2 by (unfold base; simpl; lia).
    cbn [negb]. rewrite (destroy_entries_ok _ _ _ X). split; [by destruct (tailBlock r)|].
    replace owned with (owned ∪ list_to_set []) by set_solver. apply I. }
  assert (D : destroying p r owned bs A t h xs None).
  { pose proof (bo_first _ _ _ _ _ _ _ _ I Hne). destruct X as [[_ ?]|(hd & ids & X & Hle)]; [done|].
    destruct I as [I1 I2 I3 I4 I5 I6 I7 I8 I9 I10 I10' I11 I12]. constructor; try done; try lia.
    - intros k i Hk. destruct (I12 k i Hk) as (b & Hb & Hok). exists b. split; [done|]. by eapply block_slots.
    - intros k i j Hk Hj. destruct (lookup_ok _ _ _ _ _ _ _ _ X Hle I9 Hk Hj) as (id & e & ? & ? & ? & _).
      by exists id, e. }
  destruct (destroy_elements_ok r t xs (S (length xs)) p owned bs A h None D) as (p1 & bs1 & A1 & cur & -> & Hl1 & D1);
    [apply I|lia|lia|]. cbn [mbind option_bind]. rewrite bind_ok.
  destruct (last bs) as [tb|] eqn:Htb; [|by apply last_None in Htb].
  rewrite (bo_tail_block _ _ _ _ _ _ _ _ I Hne), Htb.
  assert (bs1 = [tb]) as ->.
  { destruct (de_bounds _ _ _ _ _ _ _ _ _ D1) as [B1 B2].
    destruct bs1 as [|i [|j bs1]]; simplify_eq/=; [done|]. unfold base in B2. simpl in B2. lia. }
  assert (negb (u64 h =? u64 t) || negb (slot (u64 t) =? 0) = true) as ->.
  { rewrite Heq, Hslot. case_bool_decide; [|done]. subst h. rewrite bool_decide_eq_false_2; [done|].
    intros Hb. pose proof (bo_first _ _ _ _ _ _ _ _ I Hne). unfold base in *.
    assert (length bs ≠ 0%nat) by (by destruct bs). nia. }
  destruct (de_blocks _ _ _ _ _ _ _ _ _ D1 0%nat tb eq_refl) as (b & Hb & Hok).
  destruct (add_block_to_free_list_ok p1 _ tb b (de_pool _ _ _ _ _ _ _ _ _ D1)) as (p2 & -> & Hp2 & _);
    [set_solver|done|by eapply no_slots_raw; [|right]|].
  rewrite bind_ok, (destroy_entries_ok _ _ _ X), bind_ok. exists p2. split; [done|].
  replace owned with ((owned ∪ list_to_set [tb]) ∖ {[tb]}); [done|].
  pose proof (de_disjoint _ _ _ _ _ _ _ _ _ D1 tb ltac:(left)). set_solver.
Qed.

(** ** Runs and construction *)

Lemma exec_ok noexcept_ctor p r owned bs A t h xs op :
  repr p r owned bs A t h xs → BLOCK_SIZE * (length bs + 1) < 2 ^ 62 →
  ∃ p' r' o bs' A' t' h' ys, exec noexcept_ctor p r op = Ok (p', r', o) ∧
    served noexcept_ctor xs op o ys ∧ repr p' r' owned bs' A' t' h' ys ∧
    (length bs' ≤ S (length bs))%nat ∧
    (mallocs p = [] → MAX_SUBQUEUE_SIZE = SIZE_MAX → blockIndex r ≠ [] → may_allocate op = true →
     o ≠ Answer (Enqueued false) ∧ mallocs p' = [] ∧ blockIndex r' ≠ []).
Proof.
  intros R Hsz. destruct op as [[canAlloc x|] throws]; cbn [exec].
  - destruct (add_ok noexcept_ctor canAlloc throws x _ _ _ _ _ _ _ _ R Hsz)
      as (p' & r' & e & -> & He & Hm & Hb). rewrite bind_ok.
    assert (Hfin : (mallocs p = [] → MAX_SUBQUEUE_SIZE = SIZE_MAX → blockIndex r ≠ [] → canAlloc = true →
       (match e with Returned b => Answer (Enqueued b) | Threw => Raised end) ≠ Answer (Enqueued false) ∧
       mallocs p' = [] ∧ blockIndex r' ≠ [])).
    { intros Hmem Hmax Hi ->. destruct (Hm eq_refl Hmem Hmax Hi) as [Hr Hm'].
      split_and!; [|done|by apply Hb]. destruct e as [[]|]; congruence. }
    destruct e as [[]|].
    + destruct He as (Hth & bs' & R' & Hlen).
      exists p', r', (Answer (Enqueued true)), bs', A, (t + 1), h, (xs ++ [x]). by split_and!.
    + exists p', r', (Answer (Enqueued false)), bs, A, t, h, xs. split_and!; [done|done|done|lia|done].
    + destruct He as (Hn & Hth & R').
      exists p', r', Raised, bs, A, t, h, xs. split_and!; [done|done|done|lia|done].
  - pose proof (remove_ok throws _ _ _ _ _ _ _ _ R) as Hd. destruct xs as [|x xs].
    + rewrite Hd, bind_ok. exists p, r, (Answer (Dequeued None)), bs, A, t, h, [].
      by split_and!; [..|lia|].
    + destruct Hd as (p' & r' & bs' & A' & -> & R' & Hlen & Hm & Hb). rewrite bind_ok.
      exists p', r', (if throws then Raised else Answer (Dequeued (Some x))), bs', A', t, (h + 1), xs.
      split_and!; [by destruct throws|destruct throws; [by split; [|exists x]|done]|done|lia|].
      intros Hmem _ Hi _. split_and!; [by destruct throws|by rewrite Hm|by apply Hb].
Qed.

Lemma implicit_run_ok noexcept_ctor ops : ∀ p r owned bs A t h xs,
  repr p r owned bs A t h xs → BLOCK_SIZE * (length bs + length ops) < 2 ^ 62 →
  ∃ p' r' outs bs' A' t' h' ys, run noexcept_ctor p r ops = Ok (p', r', outs) ∧
    served_all noexcept_ctor xs ops outs ys ∧ repr p' r' owned bs' A' t' h' ys ∧
    (mallocs p = [] → MAX_SUBQUEUE_SIZE = SIZE_MAX → blockIndex r ≠ [] →
     Forall (λ op, may_allocate op = true) ops → none_refused outs).
Proof.
  induction ops as [|op ops IH]; intros p r owned bs A t h xs R Hsz; cbn [run].
  { exists p, r, [], bs, A, t, h, xs. split_and!; [done|constructor|done|]. intros _ _ _ _.
    apply not_elem_of_nil. }
  pose proof block_size_pos. simpl length in Hsz.
  destruct (exec_ok noexcept_ctor _ _ _ _ _ _ _ _ op R) as
    (p1 & r1 & o & bs1 & A1 & t1 & h1 & ys1 & -> & Hs & R1 & Hlen & Hmem); [nia|]. rewrite bind_ok.
  destruct (IH _ _ _ _ _ _ _ _ R1) as
    (p2 & r2 & outs & bs2 & A2 & t2 & h2 & ys & -> & Hs2 & R2 & Hmem2); [nia|].
  rewrite bind_ok. do 8 eexists. split; [reflexivity|]. split; [by econstructor|]. split; [exact R2|].
  intros Hm Hmax Hb [Hop Hops]%Forall_cons. destruct (Hmem Hm Hmax Hb Hop) as (Ho & Hm1 & Hb1).
  apply not_elem_of_cons. split; [congruence|by apply Hmem2].
Qed.

Lemma count_ok p r owned bs A t h xs :
  repr p r owned bs A t h xs → size_approx r = length xs.
Proof.
  intros [I _ _]. pose proof (blocks_span _ _ _ _ _ _ _ _ I). pose proof (bo_size _ _ _ _ _ _ _ _ I).
  pose proof (bo_length _ _ _ _ _ _ _ _ I). unfold size_approx.
  rewrite (bo_head _ _ _ _ _ _ _ _ I), (bo_tail _ _ _ _ _ _ _ _ I), clt_spec by lia.
  autorewrite with wrap. destruct (Z.ltb_spec h t); [|lia]. rewrite wrap_small; [lia|].
  unfold fits. lia.
Qed.

Lemma new_producer_repr p owned :
  pool_ok p owned → ∃ p' r, create p = Ok (p', r) ∧ repr p' r owned [] 0 0 0 [] ∧
    (mallocs p = [] → mallocs p' = [] ∧ blockIndex r ≠ []).
Proof.
  intros P. pose proof block_size_pos. unfold create. set (r0 := Producer _ _ _ _ _ _ _ _).
  assert (B : ∀ r, same_queue r0 r → blocks_ok (malloc p).2 r owned [] 0 0 0 []).
  { intros r Hr. apply (blocks_queue _ r0); [|done]. constructor; simpl; try done; try (unfold base; simpl; lia).
    - replace (owned ∪ ∅) with owned by set_solver. by apply malloc_pool.
    - by intros i ?%not_elem_of_nil.
    - constructor. }
  destruct implicit_size_pow2 as (m & Hm & Hs).
  assert (Hp : 1 <= 2 ^ m <= 2 ^ 31).
  { split; [pose proof (Z.pow_pos_nonneg 2 m); lia|apply Z.pow_le_mono_r; lia]. }
  assert (Hnew : new_block_index p r0 = if hd true (mallocs p)
    then Ok ((malloc p).2, grown r0 [] (Z.to_nat (2 ^ m)), true) else Ok ((malloc p).2, r0, false)).
  { unfold new_block_index, malloc. destruct (hd true (mallocs p)); [|done]. cbn [negb blockIndex r0].
    change (nextBlockIndexCapacity r0) with IMPLICIT_INITIAL_INDEX_SIZE. rewrite bind_ok.
    rewrite (proj2 (Z.leb_le _ _)) by lia. unfold defined_if. rewrite bind_ok, Z.sub_0_r, Z.sub_diag.
    unfold grown, grown_header. change (nextBlockIndexCapacity r0) with IMPLICIT_INITIAL_INDEX_SIZE.
    rewrite <- Hs, app_nil_r. done. }
  rewrite Hnew. destruct (hd true (mallocs p)) eqn:Hmem; rewrite bind_ok.
  - do 2 eexists. split; [reflexivity|]. split; [|simpl; by intros ->].
    constructor; [by apply B|right|unfold base; simpl; lia].
    do 2 eexists. split; [|simpl; lia]. unfold row. simpl length. rewrite length_seq, Nat.sub_0_r.
    apply (grown_ok r0 [] [] _ m); try done; try lia; [simpl; lia|nia|constructor|by intros ? ?%not_elem_of_nil].
  - do 2 eexists. split; [reflexivity|]. split; [|intros Hn; by rewrite Hn in Hmem].
    constructor; [by apply B|by left|unfold base; simpl; lia].
Qed.

(** an [ImplicitProducer] used by one thread is a queue, from any state a queue
    can be in, whatever its counters, which wrap at 64 bits, and however far its
    block index has grown: every sequence of calls runs without undefined behaviour
    or failed assertion and answers what the list of its elements answers; an
    element whose constructor throws is not added. *)
Theorem implicit_producer_refines noexcept_ctor p r owned bs A t h xs ops :
  repr p r owned bs A t h xs → BLOCK_SIZE * (length bs + length ops) < 2 ^ 62 →
  ∃ p' r' outs ys, run noexcept_ctor p r ops = Ok (p', r', outs) ∧
    served_all noexcept_ctor xs ops outs ys ∧ size_approx r' = length ys.
Proof.
  intros R Hsz. destruct (implicit_run_ok noexcept_ctor ops _ _ _ _ _ _ _ _ R Hsz)
    as (p' & r' & outs & bs' & A' & t' & h' & ys & Hr & Hs & R' & _).
  exists p', r', outs, ys. split_and!; [done|done|]. by eapply count_ok.
Qed.

(** whatever is done with an [ImplicitProducer] between its construction and its
    destruction, exceptions and failing allocations included, all blocks it used go
    back to the pool with every element destroyed: none is lost, none given back
    twice.  While memory can be had no element is refused. *)
Theorem implicit_producer_lifetime noexcept_ctor p owned ops :
  pool_ok p owned → BLOCK_SIZE * length ops < 2 ^ 62 →
  ∃ p1 r1 p2 r2 outs ys p3, create p = Ok (p1, r1) ∧
    run noexcept_ctor p1 r1 ops = Ok (p2, r2, outs) ∧ served_all noexcept_ctor [] ops outs ys ∧
    destroy_producer p2 r2 = Some (Ok p3) ∧ pool_ok p3 owned ∧
    (mallocs p = [] → MAX_SUBQUEUE_SIZE = SIZE_MAX → Forall (λ op, may_allocate op = true) ops →
     none_refused outs).
Proof.
  intros P Hsz. destruct (new_producer_repr p owned P) as (p1 & r1 & Hc & R & Hm).
  destruct (implicit_run_ok noexcept_ctor ops _ _ _ _ _ _ _ _ R Hsz)
    as (p2 & r2 & outs & bs & A & t & h & ys & Hr & Hs & R2 & Hn).
  destruct (destructor_ok _ _ _ _ _ _ _ _ R2) as (p3 & Hd & P3).
  exists p1, r1, p2, r2, outs, ys, p3. split_and!; try done.
  intros Hmem Hmax Hops. destruct (Hm Hmem). by apply Hn.
Qed.
End proofs.
End producer.

(** ** Examples: blocks of 4 elements, an index for 2 of them *)

Definition small : Traits := {|
  BLOCK_SIZE := 4;
  sizeof_Block := 72;
  EXPLICIT_BLOCK_EMPTY_COUNTER_THRESHOLD := 4;
  EXPLICIT_INITIAL_INDEX_SIZE := 2;
  IMPLICIT_INITIAL_INDEX_SIZE := 2;
  MAX_SUBQUEUE_SIZE := SIZE_MAX;
  NDEBUG := false
|}.

#[local] Existing Instance small.

#[local] Instance small_ok : TraitsOk.
Proof. split; [by exists 2|done|by exists 1|by exists 1]. Qed.

(** Ten elements in, the index grows; the constructor of the ninth throws the first
    time; then all out, the assignment of the third throws. *)
Definition in_and_out : list (call (T := Z) * bool) :=
  ((λ x, (Enqueue true x, false)) <$> seqZ 0 8) ++ [(Enqueue true 8, true)] ++
  ((λ x, (Enqueue true x, false)) <$> seqZ 8 2) ++
  replicate 2 (Dequeue, false) ++ [(Dequeue, true)] ++ replicate 8 (Dequeue, false).

Definition all_answers : list (outcome (T := Z)) :=
  replicate 8 (Answer (Enqueued true)) ++ [Raised] ++ replicate 2 (Answer (Enqueued true)) ++
  [Answer (Dequeued (Some 0)); Answer (Dequeued (Some 1)); Raised] ++
  (Answer ∘ Dequeued ∘ Some <$> seqZ 3 7) ++ [Answer (Dequeued None)].

Definition answers_from (s : result (pool Z * producer)) : option (list (outcome (T := Z))) :=
  match s with
  | Ok (p, r) => match run false p r in_and_out with Ok (_, _, outs) => Some outs | _ => None end
  | _ => None
  end.

Definition no_blocks : pool Z := initial_blocks 0 [].

Lemma implicit_producer_lifetime_witness :
  answers_from (create no_blocks) = Some all_answers ∧
  ∃ p1 r1 p2 r2 outs ys p3, create no_blocks = Ok (p1, r1) ∧
    run false p1 r1 in_and_out = Ok (p2, r2, outs) ∧ served_all false [] in_and_out outs ys ∧
    destroy_producer p2 r2 = Some (Ok p3) ∧ pool_ok p3 ∅ ∧
    (mallocs no_blocks = [] → MAX_SUBQUEUE_SIZE = SIZE_MAX →
     Forall (λ op, may_allocate op = true) in_and_out → none_refused outs).
Proof.
  split; [by vm_compute|].
  apply (implicit_producer_lifetime false no_blocks ∅ in_and_out); [by apply initial_blocks_ok|by vm_compute].
Defined.

(** A producer whose counters are about to wrap. *)
Definition about_to_wrap : producer :=
  Producer (2 ^ 64 - 4) (2 ^ 64 - 4) 0 4 None 4
    [Header 2 1 [Some 0%nat; Some 1%nat]] (replicate 2 (Entry INVALID_BLOCK_BASE None)).

Lemma near_wrap_repr :
  repr no_blocks about_to_wrap ∅ [] (2 ^ 64 - 4) (2 ^ 64 - 4) (2 ^ 64 - 4) [].
Proof.
  constructor; [constructor|right|done]; try done; try (by intros i Hi%elem_of_nil).
  - by apply initial_blocks_ok.
  - constructor.
  - exists (Header 2 1 [Some 0%nat; Some 1%nat]), [0; 1]%nat. split; [|simpl; lia]. constructor; try done.
    + by exists 1.
    + apply (bool_decide_unpack _). by vm_compute.
    + intros id Hid. change (length (all_entries about_to_wrap)) with 2%nat.
      rewrite !elem_of_cons, elem_of_nil in Hid. lia.
    + intros [|[|o]] m Ho; simplify_eq/=; (do 2 eexists; split_and!; [done|done|by left]).
Qed.

Lemma implicit_producer_refines_witness :
  answers_from (Ok (no_blocks, about_to_wrap)) = Some all_answers ∧
  ∃ p' r' outs ys, run false no_blocks about_to_wrap in_and_out = Ok (p', r', outs) ∧
    served_all false [] in_and_out outs ys ∧ size_approx r' = length ys.
Proof.
  split; [by vm_compute|].
  eapply (implicit_producer_refines false no_blocks about_to_wrap);
    [exact near_wrap_repr|by vm_compute].
Defined.
End McImplicit.
