(* ===== verification/McImplicitBulk.v ===== *)
(** * The bulk operations of [ImplicitProducer]

    concurrentqueue.h: [enqueue_bulk] reserves its blocks and their index entries
    first and gives all of them back when an allocation fails or a constructor throws;
    [dequeue_bulk] takes elements from consecutive blocks and frees the blocks it
    empties.  Used by one thread. *)
From S2P Require Import Prelude McDetails McBlock McPool McSlots McBulk McImplicitIndex McImplicit.
Local Open Scope Z_scope.

Module McImplicitBulk.
Import McDetails McBlock McPool McSlots McBulk McImplicitIndex McImplicit.

Section producer.
Context `{Traits} {T : Type}.

(** ** [enqueue_bulk] *)

(** The new block behind the last one: [linked] unless it is the first and the tail is
    at the start of a block. *)
Definition chain_block (linked : bool) (nb : nat) (p : pool T) (r : producer) : result (pool T) :=
  if linked
  then
    assert_ NDEBUG (non_null (tailBlock r));;
    match tailBlock r with
    | None => UB
    | Some tb => update p tb (λ b, with_next b (Some nb))
    end
  else Ok p.

(** The blocks from [firstAllocatedBlock] to [endBlock]; [linked] says that the tail is
    inside a block. *)
Fixpoint reserve_blocks (turns : nat) (canAlloc linked : bool) (currentTailIndex : Z)
    (first endBlock : option nat) (p : pool T) (r : producer) :
    result (pool T * producer * option nat * option nat * bool) :=
  match turns with
  | O => Ok (p, r, first, endBlock, true)
  | S turns =>
      let currentTailIndex := u64 (currentTailIndex + BLOCK_SIZE) in
      let head := headIndex r in
      assert_ NDEBUG (negb (clt currentTailIndex head));;
      if too_full currentTailIndex head then Ok (p, r, first, endBlock, false)
      else
        '(p, r, o) ← insert_block_index_entry canAlloc currentTailIndex p r;
        match o with
        | None => Ok (p, r, first, endBlock, false)
        | Some idxEntry =>
            '(p, o) ← requisition_block canAlloc p;
            match o with
            | None =>
                r ← rewind_block_index_tail r;
                r ← store_value r idxEntry None;
                Ok (p, r, first, endBlock, false)
            | Some nb =>
                p ← update p nb (λ b, with_next (reset_empty implicit_context b) None);
                r ← store_value r idxEntry (Some nb);
                p ← chain_block (linked || non_null first) nb p r;
                reserve_blocks turns canAlloc linked currentTailIndex (or_first first nb) (Some nb) p
                  (set_block r (Some nb))
            end
        end
  end.

(** The entries of the blocks from [block] on are cleared and the tail of the index goes
    back. *)
Fixpoint release_entries (fuel : nat) (currentTailIndex : Z) (block : option nat) (p : pool T) (r : producer) :
    result producer :=
  match block with
  | None => Ok r
  | Some i =>
      match fuel with
      | O => UB
      | S fuel =>
          let currentTailIndex := u64 (currentTailIndex + BLOCK_SIZE) in
          idxEntry ← get_block_index_entry_for_index currentTailIndex r;
          r ← store_value r idxEntry None;
          r ← rewind_block_index_tail r;
          b ← deref p i;
          release_entries fuel currentTailIndex (next b) p r
      end
  end.

Definition revert (fuel : nat) (startTailIndex : Z) (first startBlock : option nat) (p : pool T) (r : producer) :
    result (pool T * producer) :=
  r ← release_entries fuel (block_start (u64 (startTailIndex - 1))) first p r;
  p ← add_blocks_to_free_list fuel first p;
  Ok (p, set_block r startBlock).

(** [enqueue_bulk] of the elements [xs]; [throws] says which constructors throw. *)
Definition enqueue_bulk (noexcept_ctor canAlloc : bool) (xs : list T) (throws : list bool)
    (p : pool T) (r : producer) : result (pool T * producer * enqueued) :=
  let count := Z.of_nat (length xs) in
  let startTailIndex := tailIndex r in
  let startBlock := tailBlock r in
  let blockBaseDiff :=
    u64 (block_start (u64 (startTailIndex + count - 1)) - block_start (u64 (startTailIndex - 1))) in
  let currentTailIndex := block_start (u64 (startTailIndex - 1)) in
  let turns := Z.to_nat (blockBaseDiff / BLOCK_SIZE) in
  let boundary := slot startTailIndex =? 0 in
  '(p, r, first, endBlock, ok) ←
    reserve_blocks turns canAlloc (negb boundary) currentTailIndex None startBlock p r;
  if negb ok
  then '(p, r) ← revert turns startTailIndex first startBlock p r; Ok (p, r, Returned false)
  else
    let newTailIndex := u64 (startTailIndex + count) in
    assert_ NDEBUG (negb boundary || non_null first || (count =? 0));;
    let tb := if boundary && non_null first then first else startBlock in
    '(p, f) ← fill_blocks (S turns) noexcept_ctor newTailIndex endBlock startTailIndex xs throws tb p;
    match f with
    | ThrewAt constructedStopIndex lastBlockEnqueued =>
        p ← destroy_constructed (S turns) constructedStopIndex lastBlockEnqueued startTailIndex
              (if boundary then first else startBlock) p;
        '(p, r) ← revert turns startTailIndex first startBlock p r; Ok (p, r, Threw)
    | Filled => Ok (p, set_tail (set_block r endBlock) newTailIndex, Returned true)
    end.

(** ** [dequeue_bulk] *)

(** An entry and the block in it. *)
Definition entry_block (h : header) (indexIndex : Z) (r : producer) : result (nat * nat) :=
  id ← pointer h indexIndex;
  e ← get_entry r id;
  v ← load_value e;
  match v with Some b => Ok (id, b) | None => UB end.

(** The slots are marked; a block that is empty now is freed. *)
Definition empty_slots (id i : nat) (blockStartIndex endIndex : Z) (p : pool T) (r : producer) :
    result (pool T * producer) :=
  b ← deref p i;
  '(b, empty) ← set_many_empty implicit_context blockStartIndex (u64 (endIndex - blockStartIndex)) b;
  p ← update p i (λ _, b);
  if empty : bool
  then r ← store_value r id None; p ← add_block_to_free_list i p; Ok (p, r)
  else Ok (p, r).

(** The elements that are left after an exception are destroyed. *)
Fixpoint destroy_rest (fuel : nat) (h : header) (firstIndex actualCount blockStartIndex index indexIndex : Z)
    (p : pool T) (r : producer) : result (pool T * producer) :=
  match fuel with
  | O => UB
  | S fuel =>
      let endIndex := end_index firstIndex actualCount blockStartIndex in
      '(id, i) ← entry_block h indexIndex r;
      p ← destroy_slots (Z.to_nat (u64 (endIndex - index))) index i p;
      '(p, r) ← empty_slots id i blockStartIndex endIndex p r;
      if endIndex =? u64 (firstIndex + actualCount) then Ok (p, r)
      else destroy_rest fuel h firstIndex actualCount endIndex endIndex
             (Z.land (u64 (indexIndex + 1)) (u64 (capacity h - 1))) p r
  end.

(** Block by block; the last part of the result says that an assignment threw. *)
Fixpoint take_blocks (fuel : nat) (throws : list bool) (h : header) (firstIndex actualCount index indexIndex : Z)
    (p : pool T) (r : producer) : result (pool T * producer * list T * bool) :=
  match fuel with
  | O => UB
  | S fuel =>
      let endIndex := end_index firstIndex actualCount index in
      '(id, i) ← entry_block h indexIndex r;
      '(p, reached, xs, throws, threw) ← take_slots (Z.to_nat (u64 (endIndex - index))) throws index i p;
      if threw : bool
      then
        '(p, r) ← destroy_rest (S fuel) h firstIndex actualCount index reached indexIndex p r;
        Ok (p, r, xs, true)
      else
        '(p, r) ← empty_slots id i index endIndex p r;
        if endIndex =? u64 (firstIndex + actualCount) then Ok (p, r, xs, false)
        else
          '(p, r, ys, threw) ← take_blocks fuel throws h firstIndex actualCount endIndex
             (Z.land (u64 (indexIndex + 1)) (u64 (capacity h - 1))) p r;
          Ok (p, r, xs ++ ys, threw)
  end.

(** [dequeue_bulk] with room for [max] elements; [throws] says which assignments throw. *)
Definition dequeue_bulk (throws : list bool) (max : Z) (p : pool T) (r : producer) :
    result (pool T * producer * bulk_dequeued) :=
  let tail := tailIndex r in
  let overcommit := dequeueOvercommit r in
  let desiredCount := u64 (tail - u64 (dequeueOptimisticCount r - overcommit)) in
  if clt 0 desiredCount
  then
    let desiredCount := if desiredCount <? max then desiredCount else max in
    let myDequeueCount := dequeueOptimisticCount r in
    let r := set_counts r (headIndex r) (u64 (dequeueOptimisticCount r + desiredCount)) overcommit in
    let actualCount := u64 (tail - u64 (myDequeueCount - overcommit)) in
    if clt 0 actualCount
    then
      let actualCount := if desiredCount <? actualCount then desiredCount else actualCount in
      let overcommit :=
        if actualCount <? desiredCount then u64 (overcommit + (desiredCount - actualCount)) else overcommit in
      let firstIndex := headIndex r in
      let r := set_counts r (u64 (headIndex r + actualCount)) (dequeueOptimisticCount r) overcommit in
      indexIndex ← get_block_index_index_for_index firstIndex r;
      match blockIndex r with
      | [] => UB
      | h :: _ =>
          '(p, r, xs, threw) ← take_blocks (S (length (index_ h))) throws h firstIndex actualCount
                                 firstIndex indexIndex p r;
          Ok (p, r, if threw : bool then LostMany xs else GotMany xs)
      end
    else Ok (p, set_counts r (headIndex r) (dequeueOptimisticCount r) (u64 (overcommit + desiredCount)), GotMany [])
  else Ok (p, r, GotMany []).

(** ** Runs of single and bulk calls *)

(** Each call with what its constructors or assignments do. *)
Inductive bulk_call :=
  | One (op : call (T := T) * bool)
  | EnqueueBulk (canAlloc : bool) (xs : list T) (throws : list bool)
  | DequeueBulk (max : nat) (throws : list bool).

Inductive bulk_outcome :=
  | OneOutcome (o : outcome (T := T))
  | EnqueuedBulk (b : bool)
  | DequeuedBulk (xs : list T)
  | BulkRaised (stored : list T).

Definition exec_bulk (noexcept_ctor : bool) (p : pool T) (r : producer) (c : bulk_call) :
    result (pool T * producer * bulk_outcome) :=
  match c with
  | One op => '(p, r, o) ← exec noexcept_ctor p r op; Ok (p, r, OneOutcome o)
  | EnqueueBulk canAlloc xs throws =>
      '(p, r, e) ← enqueue_bulk noexcept_ctor canAlloc xs throws p r;
      Ok (p, r, match e with Returned b => EnqueuedBulk b | Threw => BulkRaised [] end)
  | DequeueBulk max throws =>
      '(p, r, d) ← dequeue_bulk throws max p r;
      Ok (p, r, match d with GotMany xs => DequeuedBulk xs | LostMany xs => BulkRaised xs end)
  end.

Fixpoint run_bulk (noexcept_ctor : bool) (p : pool T) (r : producer) (cs : list bulk_call) :
    result (pool T * producer * list bulk_outcome) :=
  match cs with
  | [] => Ok (p, r, [])
  | c :: cs =>
      '(p, r, o) ← exec_bulk noexcept_ctor p r c;
      '(p, r, outs) ← run_bulk noexcept_ctor p r cs; Ok (p, r, o :: outs)
  end.

(** What a queue of [xs] may answer, and what it holds then: all elements of a bulk are
    added or none; as many as there are, up to [max], are taken out in order, and when an
    assignment throws those not stored are lost. *)
Definition served_bulk (noexcept_ctor : bool) (xs : list T) (c : bulk_call) (o : bulk_outcome) (ys : list T) : Prop :=
  match c, o with
  | One op, OneOutcome o => served noexcept_ctor xs op o ys
  | EnqueueBulk _ zs _, EnqueuedBulk true => ys = xs ++ zs
  | EnqueueBulk _ _ _, EnqueuedBulk false => ys = xs
  | EnqueueBulk _ _ throws, BulkRaised [] => ¬ no_throw noexcept_ctor throws ∧ ys = xs
  | DequeueBulk max _, DequeuedBulk zs => zs = take max xs ∧ ys = drop max xs
  | DequeueBulk max throws, BulkRaised zs =>
      throws ≠ [] ∧ ys = drop max xs ∧ ∃ n, (n < length (take max xs))%nat ∧ zs = take n (take max xs)
  | _, _ => False
  end.

Inductive served_bulks (noexcept_ctor : bool) : list T → list bulk_call → list bulk_outcome → list T → Prop :=
  | served_none xs : served_bulks noexcept_ctor xs [] [] xs
  | served_more xs c o ys cs outs zs :
      served_bulk noexcept_ctor xs c o ys → served_bulks noexcept_ctor ys cs outs zs →
      served_bulks noexcept_ctor xs (c :: cs) (o :: outs) zs.

(** The elements a call may add; the argument of a bulk call is a [size_t]. *)
Definition adds (c : bulk_call) : nat :=
  match c with One _ => 1 | EnqueueBulk _ xs _ => length xs | DequeueBulk _ _ => 0 end.
Definition in_range (c : bulk_call) : Prop := match c with DequeueBulk max _ => max < 2 ^ 64 | _ => True end.

Definition may_allocate_bulk (c : bulk_call) : bool :=
  match c with One op => may_allocate op | EnqueueBulk canAlloc _ _ => canAlloc | DequeueBulk _ _ => true end.
Definition refused (o : bulk_outcome) : bool :=
  match o with OneOutcome (Answer (Enqueued false)) | EnqueuedBulk false => true | _ => false end.

(** ** Reserving blocks

    The row is [bs], the blocks in use, and [ahead], the blocks reserved by this call.
    What is known of the next pointers: the blocks of [ahead] are a chain, which starts
    at the last block in use when the tail is inside it. *)

Definition linked_next (linked : bool) (bs ahead : list nat) (k : nat) (n : option nat) : Prop :=
  (length bs ≤ k)%nat ∨ (linked = true ∧ S k = length bs ∧ ahead ≠ []) → n = (bs ++ ahead) !! S k.

Record reserving (p : pool T) (r : producer) (owned : gset nat) (linked : bool) (start : option nat)
    (bs ahead : list nat) (A t h : Z) (xs : list T) : Prop := {
  rv_cells : cells implicit_context (linked_next linked bs ahead) p (owned ∪ list_to_set (bs ++ ahead))
    (bs ++ ahead) A h (content h xs);
  rv_disjoint i : i ∈ bs ++ ahead → i ∉ owned;
  rv_index : indexed r (bs ++ ahead) A;
  rv_tail_block : tailBlock r = match last ahead with Some b => Some b | None => start end;
  rv_start : bs ≠ [] → start = last bs;
  rv_linked : linked = bool_decide (t ≠ base A (length bs));
  rv_tail : tailIndex r = u64 t;
  rv_head : headIndex r = u64 h;
  rv_counts : u64 (dequeueOptimisticCount r - dequeueOvercommit r) = u64 h;
  rv_length : Z.of_nat (length xs) = t - h;
  rv_bounds : A <= h <= t ∧ base A (length bs) - BLOCK_SIZE < t <= base A (length bs);
  rv_first : bs ≠ [] → h < A + BLOCK_SIZE;
  rv_size : BLOCK_SIZE * length bs < 2 ^ 62
}.

Section proofs.
Context `{!TraitsOk}.

Lemma repr_reserving p r owned bs A t h xs :
  repr p r owned bs A t h xs →
  reserving p r owned (negb (slot (tailIndex r) =? 0)) (tailBlock r) bs [] A t h xs.
Proof.
  intros R. rewrite (block_boundary _ _ _ _ _ _ _ _ R). destruct R as [[] X Hst].
  constructor; rewrite ?app_nil_r; try done; [|by rewrite bool_decide_not|lia].
  constructor; try done; [set_solver|]. intros k i Hk. destruct (bo_blocks0 k i Hk) as (b & Hb & [B1 B2 B3]).
  exists b. apply lookup_lt_Some in Hk. split; [done|]. split; [|done].
  intros [Hc|(_ & _ & Hc)]; [lia|done].
Qed.

Lemma reserving_repr p r owned linked bs A t h xs :
  reserving p r owned linked (tailBlock r) bs [] A t h xs → repr p r owned bs A t h xs.
Proof.
  intros [I1 I2 I3 I4 I5 I6 I7 I8 I9 I10 I11 I12 I13]. rewrite app_nil_r in *.
  destruct I1 as [C1 C2 C3 C4 C5]. constructor; [|done|lia]. constructor; try done; [lia|].
  intros k i Hk. destruct (C5 k i Hk) as (b & Hb & _ & [B1 B2] & B3). by exists b.
Qed.

(** Only the index and the pool differ. *)
Lemma reserving_same p p' r r' owned linked start bs ahead A t h xs :
  reserving p r owned linked start bs ahead A t h xs → same_queue r r' → indexed r' (bs ++ ahead) A →
  pool_ok p' (owned ∪ list_to_set (bs ++ ahead)) →
  (∀ i, i ∈ bs ++ ahead → heap p' !! i = heap p !! i) → reserving p' r' owned linked start bs ahead A t h xs.
Proof.
  intros [I1 I2 I3 I4 I5 I6 I7 I8 I9 I10 I11 I12 I13] Hq X P Hf. rewrite Hq in *.
  constructor; try done. eapply cells_pool; [done|done| |done]. set_solver.
Qed.

Lemma reserving_span p r owned linked start bs ahead A t h xs :
  reserving p r owned linked start bs ahead A t h xs → 0 <= t - h <= BLOCK_SIZE * length bs.
Proof. intros R. pose proof (rv_bounds _ _ _ _ _ _ _ _ _ _ _ R) as [? ?]. unfold base in *. lia. Qed.

Lemma chain_block_ok linked start nb p r O bs ahead A h (f : Z → option T) b :
  cells implicit_context (linked_next linked bs ahead) p O (bs ++ ahead) A h f →
  nb ∈ O → nb ∉ bs ++ ahead → heap p !! nb = Some b → holds b (base A (length (bs ++ ahead))) f →
  tracks implicit_context b (dequeued_slots h (base A (length (bs ++ ahead)))) → next b = None →
  (linked = true → bs ≠ []) → tailBlock r = match last ahead with Some b => Some b | None => start end →
  (bs ≠ [] → start = last bs) →
  ∃ p', chain_block (linked || non_null (head ahead)) nb p r = Ok p' ∧
    cells implicit_context (linked_next linked bs (ahead ++ [nb])) p' O (bs ++ ahead ++ [nb]) A h f ∧
    mallocs p' = mallocs p.
Proof.
  intros C Ho Hn Hb Hh Ht Hnx Hl Htb Hst. rewrite (assoc_L (++)).
  assert (Hend : linked_next linked bs (ahead ++ [nb]) (length (bs ++ ahead)) (next b)).
  { intros _. rewrite Hnx, lookup_ge_None_2; [done|]. rewrite !length_app. simpl. lia. }
  assert (Hold : ∀ k n, (S k < length (bs ++ ahead))%nat → linked_next linked bs ahead k n →
    linked_next linked bs (ahead ++ [nb]) k n).
  { intros k n Hk Hkn Hc. rewrite (assoc_L (++)), lookup_app_l by lia. apply Hkn.
    destruct Hc as [?|(? & ? & _)]; [by left|right]. split_and!; [done|done|]. intros ->. rewrite app_nil_r in Hk. lia. }
  unfold chain_block. destruct (linked || non_null (head ahead)) eqn:Hc.
  - assert (Hne : bs ++ ahead ≠ []).
    { intros [Hbs ->]%app_eq_nil. rewrite orb_false_r in Hc. by apply Hl. }
    assert (∃ tb, last (bs ++ ahead) = Some tb ∧ tailBlock r = Some tb) as (tb & Htb' & Hr).
    { destruct (last (bs ++ ahead)) as [tb|] eqn:Hlast; [|by apply last_None in Hlast]. exists tb. split; [done|].
      rewrite Htb. destruct ahead as [|a ahead] using rev_ind; [|by rewrite (assoc_L (++)), last_snoc in Hlast; rewrite last_snoc].
      rewrite app_nil_r in *. simpl. by rewrite Hst. }
    rewrite Hr, assert_ok, bind_ok by done. apply last_at in Htb' as Hk.
    destruct (ce_blocks _ _ _ _ _ _ _ _ C _ _ Hk) as (b0 & Hb0 & _). rewrite (update_ok _ _ _ _ Hb0).
    eexists. split; [reflexivity|]. split; [|done].
    assert (nb ≠ tb) as Hnt by (intros ->; apply Hn; by eapply list_elem_of_lookup_2).
    apply (cells_snoc _ (λ k n, if decide (S k = length (bs ++ ahead)) then n = Some nb else linked_next linked bs ahead k n) _ _ _ _ _ _ _ _ b).
    + apply (cells_next _ (linked_next linked bs ahead) _ _ _ _ _ _ _ (length (bs ++ ahead) - 1) _ b0); try done.
      * apply lookup_lt_Some in Hk. by rewrite decide_True by lia.
      * intros k' m Hk' Hne' Hm. by rewrite decide_False by lia.
    + done.
    + done.
    + simpl. by rewrite lookup_insert_ne.
    + done.
    + done.
    + intros k n Hk'. case_decide as Hd; [|intros Hkn; apply Hold; [lia|done]].
      intros -> _. rewrite (assoc_L (++)). rewrite Hd. by rewrite list_lookup_middle.
    + exact Hend.
  - apply orb_false_iff in Hc as [-> Hc]. destruct ahead as [|]; [|done]. rewrite app_nil_r in *.
    exists p. split; [done|]. split; [|done]. apply (cells_snoc _ (linked_next false bs []) _ _ _ _ _ _ _ _ b); try done.
    intros k n Hk _ [?|(? & _)]; [lia|done].
Qed.

(** One more block; its entry is in the index. *)
Lemma reserve_one p0 p r owned linked start bs ahead A t h xs nb b0 :
  reserving p0 r owned linked start bs ahead A t h xs → (∀ i, i ∈ bs ++ ahead → heap p !! i = heap p0 !! i) →
  pool_ok p ({[nb]} ∪ (owned ∪ list_to_set (bs ++ ahead))) → nb ∉ owned ∪ list_to_set (bs ++ ahead) →
  heap p !! nb = Some b0 → raw b0 → ∀ r2, same_queue r r2 → indexed r2 (bs ++ ahead ++ [nb]) A →
  ∃ p1 p2, update p nb (λ b, with_next (reset_empty implicit_context b) None) = Ok p1 ∧
    chain_block (linked || non_null (head ahead)) nb p1 r2 = Ok p2 ∧
    reserving p2 (set_block r2 (Some nb)) owned linked start bs (ahead ++ [nb]) A t h xs ∧
    mallocs p2 = mallocs p.
Proof.
  intros [I1 I2 I3 I4 I5 I6 I7 I8 I9 I10 I11 I12 I13] Hp0 P Hnb Hb0 Hraw r2 Hq X. pose proof block_size_pos.
  set (b1 := with_next (reset_empty implicit_context b0) None).
  destruct (reset_fields implicit_context b0) as (F1 & F2 & F3).
  assert (Hnin : nb ∉ bs ++ ahead) by set_solver.
  eexists. rewrite (update_ok _ _ _ _ Hb0). set (p1 := with_heap p (<[nb := b1]> (heap p))).
  assert (P1 : pool_ok p1 ({[nb]} ∪ (owned ∪ list_to_set (bs ++ ahead)))).
  { apply (update_owned p _ nb b0 (λ _, b1)); [done|set_solver|done|done]. }
  assert (C1 : cells implicit_context (linked_next linked bs ahead) p1 ({[nb]} ∪ (owned ∪ list_to_set (bs ++ ahead)))
    (bs ++ ahead) A h (content h xs)).
  { eapply cells_pool; [done|done|set_solver|]. intros i Hi. rewrite <- Hp0 by done.
    apply lookup_insert_ne. by intros ->. }
  assert (Hend : t <= base A (length (bs ++ ahead))) by (rewrite length_app; unfold base in *; nia).
  destruct (fresh_block_ok implicit_context b0 (base A (length (bs ++ ahead))) h xs) as [B1 B2 B3];
    [by rewrite Hraw, length_replicate|intros j Hj; rewrite Hraw; apply lookup_replicate_2; lia|lia|].
  assert (Hl : linked = true → bs ≠ []).
  { intros ->. symmetry in I6. apply bool_decide_eq_true in I6. intros ->. unfold base in *. simpl in *. lia. }
  assert (Htb : tailBlock r2 = match last ahead with Some b => Some b | None => start end) by (rewrite Hq; done).
  destruct (chain_block_ok linked start nb p1 r2 _ bs ahead A h (content h xs) b1 C1) as (p2 & Hch & C2 & M2);
    try done; [set_solver|apply lookup_insert_eq|].
  exists p2. split; [done|]. split; [done|]. split; [|done].
  constructor; rewrite ?last_snoc; try (rewrite Hq; done); try done.
  - by replace (owned ∪ list_to_set (bs ++ ahead ++ [nb])) with ({[nb]} ∪ (owned ∪ list_to_set (bs ++ ahead))) by set_solver.
  - intros i Hi. rewrite (assoc_L (++)), elem_of_app, list_elem_of_singleton in Hi.
    destruct Hi as [Hi| ->]; [by apply I2|set_solver].
  - by apply (indexed_frame r2).
Qed.

Lemma reserve_blocks_ok (turns : nat) : ∀ canAlloc p r owned linked start bs ahead A t h xs,
  reserving p r owned linked start bs ahead A t h xs → BLOCK_SIZE * (length (bs ++ ahead) + turns) < 2 ^ 62 →
  ∃ p' r' ahead' ok,
    reserve_blocks turns canAlloc linked (u64 (base A (length (bs ++ ahead)) - BLOCK_SIZE)) (head ahead)
      (tailBlock r) p r = Ok (p', r', head ahead', tailBlock r', ok) ∧
    reserving p' r' owned linked start bs ahead' A t h xs ∧ (length ahead' ≤ length ahead + turns)%nat ∧
    (ok = true → length ahead' = (length ahead + turns)%nat) ∧ (blockIndex r ≠ [] → blockIndex r' ≠ []) ∧
    (canAlloc = true → mallocs p = [] → MAX_SUBQUEUE_SIZE = SIZE_MAX → blockIndex r ≠ [] → ok = true ∧ mallocs p' = []).
Proof.
  induction turns as [|turns IH]; intros canAlloc p r owned linked start bs ahead A t h xs R Hsz; cbn [reserve_blocks].
  { exists p, r, ahead, true. split_and!; try done; lia. }
  pose proof block_size_pos. pose proof (reserving_span _ _ _ _ _ _ _ _ _ _ _ R) as Hsp.
  assert (Hstop : ∀ p' r', reserving p' r' owned linked start bs ahead A t h xs → tailBlock r' = tailBlock r →
    (blockIndex r ≠ [] → blockIndex r' ≠ []) →
    (canAlloc = true → mallocs p = [] → MAX_SUBQUEUE_SIZE = SIZE_MAX → blockIndex r ≠ [] → False) →
    ∃ p'' r'' ahead' ok, Ok (p', r', head ahead, tailBlock r, false) = Ok (p'', r'', head ahead', tailBlock r'', ok) ∧
      reserving p'' r'' owned linked start bs ahead' A t h xs ∧ (length ahead' ≤ length ahead + S turns)%nat ∧
      (ok = true → length ahead' = (length ahead + S turns)%nat) ∧ (blockIndex r ≠ [] → blockIndex r'' ≠ []) ∧
      (canAlloc = true → mallocs p = [] → MAX_SUBQUEUE_SIZE = SIZE_MAX → blockIndex r ≠ [] → ok = true ∧ mallocs p'' = [])).
  { intros p' r' R' Htb Hb Hm. exists p', r', ahead, false. rewrite Htb. split_and!; try done; [lia|].
    intros Hc Hm' Hx Hi. by destruct (Hm Hc Hm' Hx Hi). }
  pose proof (rv_bounds _ _ _ _ _ _ _ _ _ _ _ R) as [Hb1 Hb2]. pose proof (rv_cells _ _ _ _ _ _ _ _ _ _ _ R) as C.
  assert (Hrange : 0 <= base A (length (bs ++ ahead)) - h <= BLOCK_SIZE * length (bs ++ ahead)).
  { rewrite length_app in *. unfold base in *. nia. }
  assert (Hnext : u64 (u64 (base A (length (bs ++ ahead)) - BLOCK_SIZE) + BLOCK_SIZE) = u64 (base A (length (bs ++ ahead)))).
  { rewrite wrap_add_l. f_equal. lia. }
  rewrite Hnext, (rv_head _ _ _ _ _ _ _ _ _ _ _ R). set (E := base A (length (bs ++ ahead))) in *.
  rewrite assert_ok, bind_ok by (apply in_order; lia).
  destruct (too_full (u64 E) (u64 h)) eqn:Hfull.
  { apply Hstop; [done..|]. intros _ _ Hmax. by rewrite too_full_unlimited in Hfull by (done || lia). }
  destruct (insert_ok canAlloc p r _ A (rv_index _ _ _ _ _ _ _ _ _ _ _ R) (ce_aligned _ _ _ _ _ _ _ _ C))
    as (p1 & r1 & o & Hins & Hp1 & Hs1 & Ho & Hm1); [lia|]. fold E in Hins. rewrite Hins, bind_ok.
  assert (Hq1 : heap p1 = heap p ∧ pool_ok p1 (owned ∪ list_to_set (bs ++ ahead)) ∧ (mallocs p = [] → mallocs p1 = [])).
  { pose proof (ce_pool _ _ _ _ _ _ _ _ C). destruct Hp1 as [-> | ->]; [done|].
    split_and!; [done|by apply malloc_pool|]. simpl. by intros ->. }
  destruct Hq1 as (Hh1 & Hpool1 & Hmem1). destruct o as [id|].
  2:{ subst r1. apply Hstop; [|done|done|].
      - eapply reserving_same; [done|done|apply R|done|by rewrite Hh1].
      - intros Hc Hm _ Hi. by destruct (Hm1 Hi Hc Hm). }
  destruct Ho as (hd & ids & R1). destruct (requisition_block_ok canAlloc p1 _ Hpool1) as (p2 & o & Hreq & Hf & Ho).
  rewrite Hreq, bind_ok. destruct o as [nb|].
  2:{ destruct (unreserve_ok _ _ _ _ _ _ R1) as (r2 & r3 & -> & Hst & Hs3 & X3 & Hb3).
      rewrite bind_ok, Hst, bind_ok. assert (Hs : same_queue r r3) by by transitivity r1.
      apply Hstop; [|by rewrite Hs|done|].
      - eapply reserving_same; [done|done|done|done|]. intros i Hi. rewrite Hf, Hh1; [done|set_solver].
      - intros -> Hm _ _. by destruct (requisition_memory _ _ _ Hreq (Hmem1 Hm)) as [[? [=]] _]. }
  destruct Ho as (Hnb & P2 & b0 & Hb0 & Hraw).
  destruct (store_block_ok _ _ _ _ _ _ nb R1) as (r2 & Hst & Hs2 & X2).
  assert (Hs : same_queue r r2) by by transitivity r1. rewrite <- (assoc_L (++)) in X2.
  destruct (reserve_one p p2 r owned linked start bs ahead A t h xs nb b0 R) with (r2 := r2)
    as (p3 & p4 & Hu & Hch & R4 & M4); try done.
  { intros i Hi. rewrite Hf, Hh1; [done|set_solver]. }
  rewrite Hu, bind_ok, Hst, bind_ok, Hch, bind_ok.
  assert (Hlen : length (bs ++ ahead ++ [nb]) = S (length (bs ++ ahead))) by (rewrite !length_app; simpl; lia).
  assert (HE : base A (length (bs ++ ahead ++ [nb])) - BLOCK_SIZE = E) by (rewrite Hlen; unfold E, base; lia).
  destruct (IH canAlloc p4 _ owned linked start bs (ahead ++ [nb]) A t h xs R4)
    as (p' & r' & ahead' & ok & Hrun & R' & Hle & Hok & Hb & Hmem); [rewrite Hlen; lia|].
  rewrite HE in Hrun. replace (or_first (head ahead) nb) with (head (ahead ++ [nb])) by (by destruct ahead).
  change (tailBlock (set_block r2 (Some nb))) with (Some nb) in Hrun. rewrite Hrun. rewrite length_app in Hle, Hok.
  simpl in Hle, Hok. assert (Hbr : blockIndex (set_block r2 (Some nb)) ≠ []).
  { intros Hb2'. apply (indexed_none _ _ _ X2) in Hb2'. by destruct bs, ahead. }
  exists p', r', ahead', ok. split_and!; [done|done|lia|intros Hk; rewrite Hok by done; lia|intros _; by apply Hb|].
  intros -> Hm Hmax _. apply Hmem; [done| |done|done]. rewrite M4.
  by destruct (requisition_memory _ _ _ Hreq (Hmem1 Hm)).
Qed.

(** ** Giving the reserved blocks back

    While the entries are cleared, from the oldest to the newest, the tail of the index
    goes back from the newest to the oldest: the marks are those seen from the tail
    before, in [h]. *)

Lemma with_header_same (r : producer) h : head (blockIndex r) = Some h → with_header r h = r.
Proof. intros Hh. unfold with_header, set_index. destruct r as [? ? ? ? ? ? [|h' hs] ?]; by simplify_eq/=. Qed.

Lemma marks_weaken r h ids view view' E :
  index_ok r h ids view E → length view' = length view →
  (∀ o m m' e s, view !! o = Some m → view' !! o = Some m' → entry_ok e s m → entry_ok e s m') →
  index_ok r h ids view' E.
Proof.
  intros [I1 I2 I3 I4 I5 I6 I7 I8 I9 I10 I11] Hl Hw. constructor; try done; [congruence|].
  intros o m' Ho. destruct (lookup_lt_is_Some_2 view o) as [m Hm]; [rewrite <- Hl; by eapply lookup_lt_Some|].
  destruct (I11 o m Hm) as (id & e & ? & ? & ?). exists id, e. split_and!; [done|done|]. by eapply Hw.
Qed.

Lemma rotate_back_many (n : nat) : ∀ r h ids view E,
  index_ok r h ids (view ++ replicate n Free) (E + BLOCK_SIZE * n) →
  index_ok (with_header r (at_tail h ((tail_ h - n) mod capacity h)))
    (at_tail h ((tail_ h - n) mod capacity h)) ids (replicate n Free ++ view) E.
Proof.
  induction n as [|n IH]; intros r h ids view E I; pose proof (in_tail _ _ _ _ _ I).
  - rewrite app_nil_r, Z.mul_0_r, Z.add_0_r in I. rewrite Z.sub_0_r, Z.mod_small by done.
    assert (at_tail h (tail_ h) = h) as -> by (by destruct h). by rewrite with_header_same by apply I.
  - rewrite replicate_S_end, (assoc_L (++)) in I.
    replace (E + BLOCK_SIZE * S n) with (E + BLOCK_SIZE * n + BLOCK_SIZE) in I by lia.
    apply rotate_back in I. change (Free :: view ++ replicate n Free) with ((Free :: view) ++ replicate n Free) in I.
    apply IH in I. cbn [tail_ at_tail capacity] in I.
    rewrite Zminus_mod_idemp_l in I. replace (tail_ h - 1 - n) with (tail_ h - S n) in I by lia.
    change (replicate (S n) Free ++ view) with (Free :: replicate n Free ++ view).
    replace (replicate n Free ++ Free :: view) with (Free :: replicate n Free ++ view) in I; [exact I|].
    change (Free :: replicate n Free ++ view) with (replicate (S n) Free ++ view).
    by rewrite replicate_S_end, <- (assoc_L (++)).
Qed.

(** The marks when [k] entries are cleared and those of [todo] are not yet. *)
Definition clearing (ids bs : list nat) (n k : nat) (todo : list nat) : list mark :=
  replicate (length ids - length bs - n) Free ++ (Live <$> bs) ++ replicate k Cleared ++ (Live <$> todo).

Record releasing (r : producer) (h : header) (ids bs : list nat) (A : Z) (n k : nat) (todo : list nat) : Prop := {
  rl_index : index_ok (with_header r h) h ids (clearing ids bs n k todo) (base A (length bs + n));
  rl_tail : head (blockIndex r) = Some (at_tail h ((tail_ h - k) mod capacity h));
  rl_length : (k + length todo)%nat = n;
  rl_room : (length bs + n ≤ length ids)%nat
}.

Lemma clearing_lookup ids bs n k todo (j : nat) m :
  (length bs + n ≤ length ids)%nat → (replicate k Cleared ++ (Live <$> todo)) !! j = Some m →
  clearing ids bs n k todo !! (length ids - n + j)%nat = Some m.
Proof.
  intros Hr Hj. unfold clearing. rewrite (assoc_L (++)), lookup_app_r;
    rewrite length_app, length_replicate, length_fmap; [|lia].
  by replace (length ids - n + j - (length ids - length bs - n + length bs))%nat with j by lia.
Qed.

Lemma release_one r h ids bs A (n k : nat) i todo :
  A mod BLOCK_SIZE = 0 → BLOCK_SIZE * n < 2 ^ 62 → releasing r h ids bs A n k (i :: todo) →
  ∃ id r1 r2, get_block_index_entry_for_index (u64 (base A (length bs + k))) r = Ok id ∧
    store_value r id None = Ok r1 ∧ rewind_block_index_tail r1 = Ok r2 ∧
    releasing r2 h ids bs A n (S k) todo ∧ same_queue r r2.
Proof.
  intros HA Hsz [I Ht Hl Hr]. pose proof block_size_pos. pose proof (capacity_bounds _ _ _ _ _ I) as Hc.
  pose proof (in_length _ _ _ _ _ I) as Hlen. simpl in Hl. set (L := length ids) in *.
  assert (Hkey : ∀ j : nat, (j < n)%nat → ∃ id e, pointer h ((tail_ h - (n - 1 - j)%nat) mod capacity h) = Ok id ∧
    get_entry r id = Ok e ∧ key e = u64 (base A (length bs + j)) ∧
    ids !! Z.to_nat (position h (L - n + j)) = Some id ∧ (j = k → value e = Some (Some i))).
  { intros j Hj. assert (∃ m, (replicate k Cleared ++ (Live <$> i :: todo)) !! j = Some m) as [m Hm].
    { apply lookup_lt_is_Some_2. rewrite length_app, length_replicate, length_fmap. simpl. lia. }
    pose proof (clearing_lookup ids bs n k (i :: todo) j m Hr Hm) as Hv. fold L in Hv.
    destruct (index_entry _ _ _ _ _ _ _ I Hv) as (id & e & Hp & He & Hid & _ & Hok). exists id, e.
    replace (position h (L - n + j)) with ((tail_ h - (n - 1 - j)%nat) mod capacity h) in Hp.
    2:{ unfold position. replace (tail_ h + 1 + (L - n + j)%nat) with (tail_ h - (n - 1 - j)%nat + 1 * capacity h) by lia.
        by rewrite Z.mod_add by lia. }
    replace (base A (length bs + n) - BLOCK_SIZE * (capacity h - (L - n + j)%nat)) with (base A (length bs + j)) in Hok
      by (unfold base; nia).
    apply lookup_app_Some in Hm as [Hm|[Hge Hm]].
    - apply lookup_replicate in Hm as [-> Hjk]. destruct Hok. split_and!; try done. lia.
    - rewrite length_replicate in Hge, Hm. rewrite list_lookup_fmap in Hm. apply fmap_Some in Hm as (b & Hb & ->).
      destruct Hok as [Hk Hval]. split_and!; try done. intros ->. rewrite Nat.sub_diag in Hb. by simplify_eq/=. }
  destruct (Hkey k ltac:(lia)) as (id & e & Hp & He & Hk & Hid & Hval).
  destruct (Hkey (n - 1 - k)%nat ltac:(lia)) as (id1 & e1 & Hp1 & He1 & Hk1 & _).
  destruct (in_size _ _ _ _ _ I) as (m & Hm & Hs). set (h1 := at_tail h ((tail_ h - k) mod capacity h)) in *.
  assert (Hpos : (tail_ h1 + (k - (n - 1 - k)%nat)) mod capacity h1 = (tail_ h - (n - 1 - k)%nat) mod capacity h).
  { unfold h1. simpl. rewrite Zplus_mod_idemp_l. f_equal. lia. }
  assert (Hbase : base A (length bs + (n - 1 - k)) + BLOCK_SIZE * (k - (n - 1 - k)%nat) = base A (length bs + k))
    by (unfold base; nia).
  assert (Hlook : get_block_index_index_for_index (u64 (base A (length bs + k))) r =
    Ok ((tail_ h1 + (k - (n - 1 - k)%nat)) mod capacity h1)).
  { rewrite <- (Z.add_0_r (base A (length bs + k))), <- Hbase. rewrite <- Hbase in Hk.
    apply (lookup_from_tail r h1 m (base A (length bs + (n - 1 - k))) _ 0 id1 e1 id e i); try done; [apply I|nia|by apply base_aligned|lia| |rewrite Hpos; exact Hp|by apply Hval].
    unfold h1. simpl. replace (n - 1 - (n - 1 - k))%nat with k in Hp1 by lia. exact Hp1. }
  exists id. unfold get_block_index_entry_for_index. rewrite Hlook, bind_ok, Hpos.
  destruct (blockIndex r) as [|h' hs] eqn:Hbi; [done|]. injection Ht as ->.
  unfold store_value. rewrite He, bind_ok. do 2 eexists. split; [exact Hp|]. split; [reflexivity|].
  unfold rewind_block_index_tail. cbn [blockIndex put_entry set_index]. rewrite Hbi.
  split; [reflexivity|]. split; [|unfold same_queue; by destruct r].
  change (capacity h1) with (capacity h). rewrite (mask_ok _ _ _ _ _ _ I).
  constructor; [| |simpl; lia|done].
  - assert (Hset : clearing ids bs n (S k) todo = <[(L - n + k)%nat := Cleared]> (clearing ids bs n k (i :: todo))).
    { unfold clearing. rewrite !(assoc_L (++)).
      rewrite insert_app_r_alt; rewrite !length_app, !length_replicate, !length_fmap; [|fold L; lia].
      fold L. replace (L - n + k - (L - length bs - n + length bs + k))%nat with 0%nat by lia.
      by rewrite replicate_S_end, <- !(assoc_L (++)). }
    rewrite Hset. unfold with_header in I. rewrite Hbi in I.
    apply (set_mark _ _ _ _ _ _ id (Entry (key e) (Some None)) Cleared I).
    + apply lookup_lt_is_Some. eexists. apply clearing_lookup; [done|]. rewrite lookup_app_r, length_replicate, Nat.sub_diag
        by (rewrite length_replicate; lia). reflexivity.
    + exact Hid.
    + simpl. split; [|done]. rewrite Hk. f_equal. unfold base. nia.
  - simpl. rewrite Zminus_mod_idemp_l. by replace (tail_ h - k - 1) with (tail_ h - S k) by lia.
Qed.

Lemma release_entries_ok todo : ∀ fuel p r h ids bs A (n k : nat),
  A mod BLOCK_SIZE = 0 → BLOCK_SIZE * n < 2 ^ 62 → releasing r h ids bs A n k todo →
  (∀ m i, todo !! m = Some i → ∃ b, heap p !! i = Some b ∧ next b = todo !! S m) → (length todo ≤ fuel)%nat →
  ∃ r', release_entries fuel (u64 (base A (length bs + k) - BLOCK_SIZE)) (head todo) p r = Ok r' ∧
    releasing r' h ids bs A n n [] ∧ same_queue r r'.
Proof.
  induction todo as [|i todo IH]; intros fuel p r h ids bs A n k HA Hsz R Hch Hf.
  { exists r. split; [by destruct fuel|]. split; [|done]. pose proof (rl_length _ _ _ _ _ _ _ _ R) as Hl.
    simpl in Hl. assert (n = k) as -> by lia. done. }
  destruct fuel as [|fuel]; [simpl in Hf; lia|]. cbn [release_entries head].
  destruct (release_one _ _ _ _ _ _ _ _ _ HA Hsz R) as (id & r1 & r2 & Hg & Hs & Hw & R2 & Hq).
  rewrite wrap_add_l. replace (base A (length bs + k) - BLOCK_SIZE + BLOCK_SIZE) with (base A (length bs + k)) by lia.
  rewrite Hg, bind_ok, Hs, bind_ok, Hw, bind_ok. destruct (Hch 0%nat i eq_refl) as (b & Hb & Hn).
  rewrite (deref_ok _ _ _ Hb), bind_ok, Hn. change ((i :: todo) !! 1%nat) with (todo !! 0%nat). rewrite <- head_lookup.
  destruct (IH fuel p r2 h ids bs A n (S k) HA Hsz R2) as (r' & Hr & R' & Hq').
  { intros m j Hm. by apply (Hch (S m)). } { simpl in Hf. lia. }
  replace (base A (length bs + S k) - BLOCK_SIZE) with (base A (length bs + k)) in Hr by (unfold base; lia).
  exists r'. split_and!; [done|done|by transitivity r2].
Qed.

Lemma released_indexed r h ids bs A (n : nat) :
  releasing r h ids bs A n n [] → indexed r bs A ∧ blockIndex r ≠ [].
Proof.
  intros [I Ht _ Hr]. split; [|intros Hb; by rewrite Hb in Ht]. right.
  assert (I2 : index_ok (with_header r h) h ids
    ((replicate (length ids - length bs - n) Free ++ (Live <$> bs)) ++ replicate n Free) (base A (length bs) + BLOCK_SIZE * n)).
  { replace (base A (length bs) + BLOCK_SIZE * n) with (base A (length bs + n)) by (unfold base; lia).
    eapply marks_weaken; [exact I| |].
    - unfold clearing. rewrite !length_app, !length_replicate, !length_fmap. simpl. lia.
    - unfold clearing. rewrite (assoc_L (++)), app_nil_r. intros o m m' e s [Hm|[Hge Hm]]%lookup_app_Some.
      + rewrite (lookup_app_l_Some _ _ _ _ Hm). congruence.
      + rewrite lookup_app_r by done. apply lookup_replicate in Hm as [-> _].
        intros [-> _]%lookup_replicate [_ He]. by right. }
  apply rotate_back_many in I2. exists (at_tail h ((tail_ h - n) mod capacity h)), ids. split; [|lia].
  assert (with_header r (at_tail h ((tail_ h - n) mod capacity h)) = r) as Hw by by apply with_header_same.
  change (with_header (with_header r h) (at_tail h ((tail_ h - n) mod capacity h)))
    with (with_header r (at_tail h ((tail_ h - n) mod capacity h))) in I2. rewrite Hw in I2.
  unfold row. rewrite (assoc_L (++)), <- replicate_add in I2.
  by replace (length ids - length bs)%nat with (n + (length ids - length bs - n))%nat by lia.
Qed.

(** All or nothing: what a failure or an exception leaves. *)
Lemma revert_ok p r owned linked start bs ahead A t h xs (turns : nat) :
  reserving p r owned linked start bs ahead A t h xs → (length ahead ≤ turns)%nat →
  BLOCK_SIZE * (length bs + turns) < 2 ^ 62 →
  ∃ p' r', revert turns (u64 t) (head ahead) start p r = Ok (p', r') ∧
    repr p' r' owned bs A t h xs ∧ mallocs p' = mallocs p ∧ (blockIndex r ≠ [] → blockIndex r' ≠ []).
Proof.
  intros R Hturns Hsz. pose proof block_size_pos. pose proof R as [I1 I2 I3 I4 I5 I6 I7 I8 I9 I10 I11 I12 I13].
  pose proof I1 as [C1 C2 C3 C4 C5].
  assert (Hchain : ∀ m i, ahead !! m = Some i → ∃ b, heap p !! i = Some b ∧ raw b ∧ next b = ahead !! S m).
  { intros m i Hm. destruct (C5 (length bs + m)%nat i) as (b & Hb & Hn & Hh & _).
    { rewrite lookup_app_r by lia. by replace (length bs + m - length bs)%nat with m by lia. }
    exists b. split; [done|]. split.
    - eapply holds_raw; [done|]. intros j Hj. apply content_out. unfold base in *. lia.
    - rewrite Hn by (left; lia). rewrite lookup_app_r by lia. f_equal. lia. }
  assert (Hrel : ∃ r', release_entries turns (u64 (base A (length bs) - BLOCK_SIZE)) (head ahead) p r = Ok r' ∧
    indexed r' bs A ∧ same_queue r r' ∧ (blockIndex r ≠ [] → blockIndex r' ≠ [])).
  { destruct ahead as [|a ahead].
    - exists r. rewrite app_nil_r in I3. split_and!; [by destruct turns|done|done|done].
    - destruct I3 as [[_ Hnil]|(hd & ids & X & Hle)]; [by destruct bs|].
      destruct (release_entries_ok (a :: ahead) turns p r hd ids bs A (length (a :: ahead)) 0 C4) as (r' & Hr & R' & Hq).
      + nia.
      + rewrite length_app in Hle, X. constructor; [| |done|done].
        * rewrite with_header_same by apply X. unfold clearing. unfold row in X. rewrite length_app, fmap_app in X.
          by replace (length ids - length bs - length (a :: ahead))%nat with
            (length ids - (length bs + length (a :: ahead)))%nat by lia.
        * rewrite Z.sub_0_r, Z.mod_small by apply X. rewrite (in_current _ _ _ _ _ X). by destruct hd.
      + intros m i Hm. destruct (Hchain m i Hm) as (b & ? & _ & ?). by exists b.
      + done.
      + rewrite Nat.add_0_r in Hr. destruct (released_indexed _ _ _ _ _ _ R') as [X' Hb'].
        exists r'. by split_and!. }
  destruct Hrel as (r' & Hr & X' & Hq & Hb).
  destruct (blocks_needed A (length bs) t 1 C4) as (_ & _ & Hstart & _); [lia|lia|lia|].
  unfold revert. rewrite Hstart, Hr, bind_ok.
  apply NoDup_app in C3 as C3'. destruct C3' as (_ & Hdis & Hnd).
  destruct (add_blocks_ok ahead turns p _ C1 Hnd) as (p' & Hadd & P' & Hf' & M'); try done.
  { intros i Hi. set_solver. }
  rewrite Hadd, bind_ok. exists p', (set_block r' start). split; [done|]. split; [|done].
  replace (owned ∪ list_to_set (bs ++ ahead)) with (owned ∪ list_to_set bs ∪ list_to_set ahead) in P' by set_solver.
  assert (Hset : (owned ∪ list_to_set bs ∪ list_to_set ahead) ∖ list_to_set ahead = owned ∪ list_to_set bs).
  { apply set_eq. intros i. rewrite elem_of_difference, !elem_of_union, !elem_of_list_to_set.
    pose proof (I2 i) as Hi. rewrite elem_of_app in Hi. pose proof (Hdis i). tauto. }
  rewrite Hset in P'. apply (reserving_repr p' (set_block r' start) owned linked).
  constructor; rewrite ?app_nil_r; try (rewrite Hq; done); try done.
  - eapply cells_prefix; [exact I1|done|set_solver| |].
    + intros i Hi. apply Hf'. intros Hi'. by apply (Hdis i).
    + intros k n Hk _ [?|(_ & _ & ?)]; [lia|done].
  - intros i Hi. apply I2. set_solver.
  - by apply (indexed_frame r').
Qed.

(** ** [enqueue_bulk] *)

Lemma reserving_cells p p' r owned linked start bs ahead A t h xs :
  reserving p r owned linked start bs ahead A t h xs →
  cells implicit_context (linked_next linked bs ahead) p' (owned ∪ list_to_set (bs ++ ahead)) (bs ++ ahead) A h (content h xs) →
  reserving p' r owned linked start bs ahead A t h xs.
Proof. by intros [] C; constructor. Qed.

Lemma reserved_chained p r owned linked start bs ahead A t h xs k :
  reserving p r owned linked start bs ahead A t h xs → (length bs ≤ S k)%nat → t < base A (S k) →
  chained (linked_next linked bs ahead) (bs ++ ahead) k.
Proof.
  intros R Hk Ht m n Hm Hlt Hn. apply Hn. destruct (decide (length bs ≤ m)%nat) as [|Hnm]; [by left|right].
  assert (m = k ∧ S k = length bs) as [-> Hkl] by lia. rewrite (rv_linked _ _ _ _ _ _ _ _ _ _ _ R).
  rewrite bool_decide_eq_true_2 by (rewrite <- Hkl; lia). split_and!; [done|done|].
  intros ->. rewrite app_nil_r in Hlt. lia.
Qed.

(** The reserved blocks are filled. *)
Lemma filled_queue p p' r owned linked start bs ahead A t h xs ys tb :
  let ring := bs ++ ahead in
  reserving p r owned linked start bs ahead A t h xs → (ring ≠ [] → tb = last ring) →
  cells implicit_context (linked_next linked bs ahead) p' (owned ∪ list_to_set ring) ring A h (content h (xs ++ ys)) →
  base A (length ring) - BLOCK_SIZE < t + length ys <= base A (length ring) → BLOCK_SIZE * length ring < 2 ^ 62 →
  repr p' (set_tail (set_block r tb) (u64 (t + length ys))) owned ring A (t + length ys) h (xs ++ ys).
Proof.
  intros ring [I1 I2 I3 I4 I5 I6 I7 I8 I9 I10 I11 I12 I13] Htb [C1 C2 C3 C4 C5] Hb Hsz. pose proof block_size_pos.
  constructor; [|by apply (indexed_frame r)|lia]. constructor; try done.
  - rewrite length_app. lia.
  - lia.
  - intros _. destruct (decide (bs = [])) as [->|Hne]; [|by apply I12]. unfold base in *. simpl in *. lia.
  - intros k i Hk. destruct (C5 k i Hk) as (b & Hb' & _ & [B1 B2] & B3). by exists b.
Qed.

Lemma add_nothing noexcept_ctor canAlloc throws p r owned bs A t h xs :
  repr p r owned bs A t h xs → enqueue_bulk noexcept_ctor canAlloc [] throws p r = Ok (p, r, Returned true).
Proof.
  intros R. pose proof block_size_pos. pose proof (rp_blocks _ _ _ _ _ _ _ _ R) as I. unfold enqueue_bulk. cbn [length].
  change (Z.of_nat 0) with 0. rewrite Z.add_0_r, Z.sub_diag. change (u64 0) with 0. rewrite Z.div_0_l by lia.
  change (Z.to_nat 0) with 0%nat. cbn [reserve_blocks]. rewrite bind_ok. cbn [negb non_null].
  rewrite orb_true_r, assert_ok, bind_ok, andb_false_r, (bo_tail _ _ _ _ _ _ _ _ I), wrap_wrap by done.
  rewrite fill_blocks_nil, bind_ok. do 2 f_equal. rewrite <- (bo_tail _ _ _ _ _ _ _ _ I). by destruct r.
Qed.

Lemma add_bulk_ok noexcept_ctor canAlloc ys throws p r owned bs A t h xs :
  repr p r owned bs A t h xs → BLOCK_SIZE * (length bs + length ys) < 2 ^ 62 →
  ∃ p' r' e, enqueue_bulk noexcept_ctor canAlloc ys throws p r = Ok (p', r', e) ∧
    match e with
    | Returned true =>
        ∃ bs', repr p' r' owned bs' A (t + length ys) h (xs ++ ys) ∧ (length bs' ≤ length bs + length ys)%nat
    | Returned false => repr p' r' owned bs A t h xs
    | Threw => ¬ no_throw noexcept_ctor throws ∧ repr p' r' owned bs A t h xs
    end ∧
    (canAlloc = true → mallocs p = [] → MAX_SUBQUEUE_SIZE = SIZE_MAX → blockIndex r ≠ [] →
     e ≠ Returned false ∧ mallocs p' = []) ∧ (blockIndex r ≠ [] → blockIndex r' ≠ []).
Proof.
  intros R Hsz. pose proof block_size_pos. destruct (decide (ys = [])) as [->|Hys].
  { exists p, r, (Returned true). rewrite (add_nothing _ _ _ _ _ _ _ _ _ _ _ R). split_and!; try done.
    exists bs. rewrite app_nil_r, Z.add_0_r. split; [done|lia]. }
  assert (Hc : (0 < length ys)%nat) by (destruct ys; simpl; [done|lia]).
  pose proof (repr_reserving _ _ _ _ _ _ _ _ R) as R0. set (linked := negb (slot (tailIndex r) =? 0)) in *.
  pose proof (rv_bounds _ _ _ _ _ _ _ _ _ _ _ R0) as [Hb1 Hb2]. pose proof (rv_cells _ _ _ _ _ _ _ _ _ _ _ R0) as C0.
  destruct (blocks_needed A (length bs) t (length ys) (ce_aligned _ _ _ _ _ _ _ _ C0) Hb2 Hc)
    as (m & Hdiff & Hstart & Hroom & Hmc); [nia|].
  unfold enqueue_bulk. fold linked. rewrite (rv_tail _ _ _ _ _ _ _ _ _ _ _ R0), Hdiff, Hstart.
  rewrite (Z.mul_comm BLOCK_SIZE m), Z.div_mul, Nat2Z.id by lia.
  destruct (reserve_blocks_ok m canAlloc p r owned linked (tailBlock r) bs [] A t h xs R0)
    as (p1 & r1 & ahead & ok & Hres & R1 & Hle & Hok & Hb & Hmem); [rewrite app_nil_r; nia|].
  rewrite app_nil_r in Hres. cbn [head] in Hres. simpl in Hle, Hok.
  rewrite Hres, bind_ok.
  assert (Hsz1 : BLOCK_SIZE * length (bs ++ ahead) < 2 ^ 62) by (rewrite length_app; nia).
  destruct ok; cbn [negb].
  2:{ destruct (revert_ok p1 r1 owned linked (tailBlock r) bs ahead A t h xs m R1 Hle) as (p2 & r2 & -> & R2 & M2 & Hb2');
        [nia|]. rewrite bind_ok. exists p2, r2, (Returned false). split_and!; [done|done| |auto].
      intros Hca Hm Hmax Hi. by destruct (Hmem Hca Hm Hmax Hi). }
  specialize (Hok eq_refl). assert (Hlen : length (bs ++ ahead) = (length bs + m)%nat) by (rewrite length_app; lia).
  pose proof (rv_cells _ _ _ _ _ _ _ _ _ _ _ R1) as C1.
  destruct (start_in_ring bs ahead A t (head ahead) (tailBlock r)) as (k & Htb & Htb2 & Hk & Hkm & Htk & Has).
  { apply C0. } { done. } { intros He. rewrite Hok. unfold base in *. intros ->. rewrite Nat.add_0_r in Hroom. lia. }
  { done. } { apply R0. } { intros ->. unfold base in *. simpl in *. lia. }
  assert (Hl : linked = negb (slot (u64 t) =? 0)) by (unfold linked; by rewrite (rv_tail _ _ _ _ _ _ _ _ _ _ _ R0)).
  rewrite <- Hl in Has. rewrite Has, assert_ok, bind_ok, Htb, Htb2, wrap_add_l by done.
  assert (Hlast : bs ++ ahead ≠ [] → tailBlock r1 = last (bs ++ ahead)).
  { intros Hne. rewrite (rv_tail_block _ _ _ _ _ _ _ _ _ _ _ R1). destruct ahead as [|a l] using rev_ind.
    - rewrite app_nil_r in *. simpl. by apply R0.
    - by rewrite (assoc_L (++)), !last_snoc. }
  rewrite Hlast by (intros Hn; rewrite Hn in Hk; simpl in Hk; lia).
  pose proof (reserved_chained _ _ _ _ _ _ _ _ _ _ _ k R1 Hkm (proj2 Htk)) as Hch.
  assert (Hth : t = h + length xs) by (pose proof (rv_length _ _ _ _ _ _ _ _ _ _ _ R0); lia).
  rewrite Hth in Htk, Hroom |- *.
  destruct (fill_blocks_ok _ _ noexcept_ctor (S m) k p1 _ (bs ++ ahead) A h xs ys throws C1 Hch Hk Htk)
    as (n & p2 & f & -> & Hn & C2 & M2 & Hf & Hnt); [by rewrite Hlen|lia|done|]. rewrite bind_ok.
  assert (Hmem2 : canAlloc = true → mallocs p = [] → MAX_SUBQUEUE_SIZE = SIZE_MAX → blockIndex r ≠ [] → mallocs p2 = []).
  { intros Hca Hm Hmax Hi. rewrite M2. by apply Hmem. }
  destruct f as [|stop lastBlock].
  - subst n. rewrite firstn_all in C2. do 3 eexists. split; [reflexivity|]. split; [|split; [|auto]].
    + exists (bs ++ ahead). rewrite <- Hth, Hlen. split; [|lia].
      eapply filled_queue; [exact R1|done|done|rewrite Hlen, Hth; lia|done].
    + intros Hca Hm Hmax Hi. split; [done|by apply Hmem2].
  - destruct Hf as (-> & -> & k' & Hk' & -> & Hkt).
    destruct (destroy_constructed_content _ _ (S m) k k' p2 _ (bs ++ ahead) A h xs (take n ys) C2 Hch Hk' Htk)
      as (p3 & Hd & C3 & M3); [rewrite length_take_le by lia; done|lia|done|].
    rewrite length_take_le in Hd by lia. rewrite Hd, bind_ok, <- Hth.
    destruct (revert_ok p3 r1 owned linked (tailBlock r) bs ahead A t h xs m) as (p4 & r2 & -> & R4 & M4 & Hb4);
      [by eapply reserving_cells|lia|nia|]. rewrite bind_ok.
    exists p4, r2, Threw. split; [done|]. split; [split; [by intros ?%Hnt|done]|]. split; [|auto].
    intros Hca Hm Hmax Hi. split; [done|]. rewrite M4, M3. by apply Hmem2.
Qed.

(** ** [dequeue_bulk]

    While the elements are taken out the head index is already behind them; [at_head] is
    the producer with its head at [h]. *)

Definition at_head (r : producer) (h : Z) : producer :=
  set_counts r (u64 h) (u64 (h + dequeueOvercommit r)) (dequeueOvercommit r).

Lemma repr_counts (p : pool T) r r' owned bs A t h xs :
  repr p r owned bs A t h xs → tailIndex r' = tailIndex r → tailBlock r' = tailBlock r → same_index r r' →
  headIndex r' = u64 h → u64 (dequeueOptimisticCount r' - dequeueOvercommit r') = u64 h → repr p r' owned bs A t h xs.
Proof.
  intros [[I1 I2 I3 I4 I5 I6 I7 I8 I9 I10 I11 I12 I13] X Hs] Ht Hb Hi Hh Hc.
  constructor; [|by eapply indexed_frame|done]. constructor; try done; [by rewrite Hb|by rewrite Ht].
Qed.

Lemma at_head_counts r h : u64 (dequeueOptimisticCount (at_head r h) - dequeueOvercommit (at_head r h)) = u64 h.
Proof. simpl. autorewrite with wrap. f_equal. lia. Qed.

(** The place in the index of the first of [n] blocks. *)
Definition place (hd : header) (n : nat) : Z := (tail_ hd + 1 - n) mod capacity hd.

Lemma first_entry r i bs A hd hs :
  indexed r (i :: bs) A → blockIndex r = hd :: hs → A mod BLOCK_SIZE = 0 →
  ∃ id, entry_block hd (place hd (length (i :: bs))) r = Ok (id, i) ∧
    (∃ r', store_value r id None = Ok r' ∧ indexed r' bs (A + BLOCK_SIZE) ∧ same_queue r r' ∧
       blockIndex r' = blockIndex r) ∧
    (∀ j, 0 <= j < BLOCK_SIZE →
       get_block_index_index_for_index (u64 (A + j)) r = Ok (place hd (length (i :: bs)))) ∧
    Z.land (u64 (place hd (length (i :: bs)) + 1)) (u64 (capacity hd - 1)) = place hd (length bs) ∧
    (length (i :: bs) ≤ length (index_ hd))%nat.
Proof.
  intros [[Hb _]|(hd' & ids & X & Hle)] Hbi HA; [congruence|]. pose proof block_size_pos.
  assert (hd' = hd) as -> by (pose proof (in_current _ _ _ _ _ X); rewrite Hbi in *; by simplify_eq/=).
  pose proof (in_length _ _ _ _ _ X) as Hl. pose proof (capacity_bounds _ _ _ _ _ X) as Hc.
  assert (Hp : position hd (length ids - length (i :: bs) + 0) = place hd (length (i :: bs))).
  { unfold position, place. replace (tail_ hd + 1 + (length ids - length (i :: bs) + 0)%nat) with
      (tail_ hd + 1 - length (i :: bs) + 1 * capacity hd) by lia. by rewrite Z.mod_add by lia. }
  destruct (lookup_index_ok r hd ids (i :: bs) A 0 i 0 X Hle HA eq_refl ltac:(lia)) as (_ & id & e & Hpt & He & Hv & _ & Hid).
  rewrite Hp in Hpt. exists id. split_and!.
  - unfold entry_block. rewrite Hpt, bind_ok, He, bind_ok. unfold load_value. by rewrite Hv, bind_ok.
  - by apply (clear_first r hd ids i bs A X Hle id e).
  - intros j Hj. destruct (lookup_index_ok r hd ids (i :: bs) A 0 i j X Hle HA eq_refl Hj) as (Hx & _).
    rewrite Hp in Hx. by replace (base A 0 + j) with (A + j) in Hx by (unfold base; lia).
  - rewrite (mask_ok _ _ _ _ _ _ X). unfold place. rewrite Zplus_mod_idemp_l. f_equal. simpl length. lia.
  - rewrite (in_index _ _ _ _ _ X), length_fmap. done.
Qed.

(** The slots taken out of the first block are marked; a block that is empty goes. *)
Lemma finish_first (p : pool T) r owned i bs A t h zs rest b b1 hd hs id :
  repr p (at_head r h) owned (i :: bs) A t h (zs ++ rest) → blockIndex r = hd :: hs →
  entry_block hd (place hd (length (i :: bs))) r = Ok (id, i) →
  heap p !! i = Some b → slots_changed b b1 → slots_ok b1 A (h + length zs) rest →
  h + length zs <= A + BLOCK_SIZE →
  ∃ p' r' bs' A', empty_slots id i (u64 h) (u64 (h + length zs)) (with_heap p (<[i := b1]> (heap p))) r = Ok (p', r') ∧
    repr p' (at_head r' (h + length zs)) owned bs' A' t (h + length zs) rest ∧ mallocs p' = mallocs p ∧
    same_queue r r' ∧ blockIndex r' = blockIndex r ∧ (length bs' ≤ length (i :: bs))%nat ∧
    (h + length zs = A + BLOCK_SIZE → bs' = bs ∧ A' = A + BLOCK_SIZE).
Proof.
  intros [[I1 I2 I3 I4 I5 I6 I7 I8 I9 I10 I10' I11 I12] X Hst] Hbi Hen Hb Hch Hs Hend. pose proof block_size_pos.
  specialize (I10' ltac:(done)). destruct I10 as [Ib1 Ib2].
  destruct (first_entry r i bs A hd hs) as (id' & Hen' & (r2 & Hsv & X2 & Hq2 & Hb2) & _); [by apply (indexed_frame (at_head r h))|done|done|].
  assert (id' = id) as -> by congruence.
  destruct (I12 0%nat i eq_refl) as (b' & Hb' & [_ _ Ht]). assert (b' = b) as -> by congruence.
  replace (base A 0) with A in Ht by (unfold base; lia).
  assert (Hslot : slot (u64 h) = Z.to_nat (h - A)).
  { replace h with (A + Z.to_nat (h - A)) at 1 by lia. apply aligned_slot; [done|lia]. }
  unfold empty_slots. rewrite (deref_ok _ i b1) by apply lookup_insert_eq. rewrite bind_ok.
  assert (Hcount : u64 (u64 (h + length zs) - u64 h) = length zs).
  { autorewrite with wrap. replace (h + length zs - h) with (Z.of_nat (length zs)) by lia.
    rewrite wrap_small; [done|]. unfold fits. lia. }
  rewrite Hcount. assert (Ht1 : tracks implicit_context b1 (dequeued_slots h A)) by (rewrite Hch; exact Ht).
  destruct (set_many_empty_tracks implicit_context b1 _ (u64 h) (length zs) Ht1) as (b2 & -> & Ht2 & F1 & F2 & F3 & _).
  { rewrite Hslot. lia. }
  { intros j'. rewrite Hslot, elem_of_seq. unfold dequeued_slots. rewrite elem_of_seq. lia. }
  rewrite bind_ok, (update_ok _ i b1) by apply lookup_insert_eq. rewrite with_heap_twice, bind_ok.
  cbn [use_flags negb andb]. set (p2 := with_heap p (<[i := b2]> (heap p))).
  rewrite Hch in F3. simpl in F3.
  assert (P2 : pool_ok p2 (owned ∪ list_to_set (i :: bs))) by (apply (update_owned p _ i b (λ _, b2)); [done|set_solver|done|done]).
  assert (Hfirst : block_ok implicit_context b2 A (h + length zs) rest).
  { destruct Hs as [Hs1 Hs2]. constructor; [by rewrite F1|intros j' Hj'; rewrite F1; by apply Hs2|].
    eapply tracks_Permutation; [|exact Ht2]. rewrite Hslot, Nat2Z.id. unfold dequeued_slots.
    replace (Z.to_nat (Z.min BLOCK_SIZE (h - A))) with (Z.to_nat (h - A)) by lia.
    replace (Z.to_nat (Z.min BLOCK_SIZE (h + length zs - A))) with (Z.to_nat (h - A) + length zs)%nat by lia.
    rewrite seq_app. apply Permutation_app_comm. }
  assert (Hblocks : ∀ k j, (i :: bs) !! k = Some j →
    ∃ bj, heap p2 !! j = Some bj ∧ block_ok implicit_context bj (base A k) (h + length zs) rest).
  { intros [|k] j Hk.
    - injection Hk as <-. exists b2. unfold p2. simpl. rewrite lookup_insert_eq. split; [done|].
      by replace (base A 0) with A by (unfold base; lia).
    - assert (i ≠ j) as Hne by (intros ->; apply NoDup_cons in I3 as [I3 _]; apply I3; by eapply list_elem_of_lookup_2).
      destruct (I12 (S k) j Hk) as (bj & Hbj & Hok). exists bj. unfold p2. simpl. rewrite lookup_insert_ne by done.
      split; [done|]. apply other_block_many; [done|]. unfold base. nia. }
  assert (Hfull : bool_decide (length (dequeued_slots h A) + length zs = BLOCK_SIZE) = bool_decide (h + length zs = A + BLOCK_SIZE)).
  { apply bool_decide_ext. unfold dequeued_slots. rewrite length_seq. lia. }
  rewrite Hfull. clear Hfull. rewrite length_app in I8. case_bool_decide as Hlast.
  - rewrite Hsv, bind_ok.
    destruct (add_block_to_free_list_ok p2 _ i b2 P2) as (p3 & Hadd & P3 & Hf3); [set_solver|apply lookup_insert_eq| |].
    { apply (no_slots_raw b2 A (h + length zs) rest); [by apply (block_slots implicit_context)|left; lia]. }
    rewrite Hadd, bind_ok. apply NoDup_cons in I3 as [Hi3 I3]. exists p3, r2, bs, (A + BLOCK_SIZE).
    split; [done|]. split; [|split_and!; [by apply add_block_memory in Hadd|done|done|simpl; lia|done]].
    simpl length in Ib2, Hst, I11.
    constructor; [|by apply (indexed_frame r2)|unfold base in *; lia].
    constructor; try (rewrite Hq2; simpl; done); try done.
    + replace (owned ∪ list_to_set bs) with ((owned ∪ list_to_set (i :: bs)) ∖ {[i]}); [done|].
      specialize (I2 i ltac:(left)). set_solver.
    + intros k Hk. apply I2. by right.
    + intros Hne. rewrite Hq2. simpl. simpl in I4. rewrite I4 by done. by destruct bs.
    + by rewrite at_head_counts.
    + lia.
    + rewrite Z.add_mod, I9, Z.mod_same, Z.add_0_l by lia. apply Z.mod_0_l. lia.
    + unfold base in *. lia.
    + intros _. lia.
    + lia.
    + intros k j Hk. destruct (Hblocks (S k) j Hk) as (bj & Hbj & Hok). exists bj.
      rewrite Hf3 by (intros ->; apply Hi3; by eapply list_elem_of_lookup_2). split; [done|].
      by replace (base (A + BLOCK_SIZE) k) with (base A (S k)) by (unfold base; lia).
  - exists p2, r, (i :: bs), A. split; [done|]. split; [|split_and!; [done|done|done|lia|lia]].
    constructor; [|by apply (indexed_frame (at_head r h))|done]. constructor; try done; [by rewrite at_head_counts|lia|lia|intros _; lia].
Qed.

(** What the loops keep, and where they leave the producer. *)
Definition left_at (p p' : pool T) (r r' : producer) (owned : gset nat) (bs : list nat) (t h : Z) (xs : list T) : Prop :=
  ∃ bs' A', repr p' (at_head r' h) owned bs' A' t h xs ∧ (length bs' ≤ length bs)%nat ∧
    mallocs p' = mallocs p ∧ same_queue r r' ∧ blockIndex r' = blockIndex r.

Lemma left_at_trans p p1 p' r r1 r' owned bs bs1 t h xs :
  mallocs p1 = mallocs p → same_queue r r1 → blockIndex r1 = blockIndex r → (length bs1 ≤ length bs)%nat →
  left_at p1 p' r1 r' owned bs1 t h xs → left_at p p' r r' owned bs t h xs.
Proof.
  intros M Hq Hb Hl (bs' & A' & R & Hl' & M' & Hq' & Hb'). exists bs', A'.
  split_and!; [done|lia|congruence|by transitivity r1|congruence].
Qed.

(** The block of the head, when there is an element. *)
Lemma head_block (p : pool T) r owned bs A t h xs :
  repr p (at_head r h) owned bs A t h xs → h < t →
  ∃ i bs' b, bs = i :: bs' ∧ heap p !! i = Some b ∧ slots_ok b A h xs ∧ A <= h < A + BLOCK_SIZE ∧
    A mod BLOCK_SIZE = 0 ∧ t <= base A (length bs) ∧ BLOCK_SIZE * length bs < 2 ^ 62 ∧ indexed r bs A.
Proof.
  intros [[I1 I2 I3 I4 I5 I6 I7 I8 I9 I10 I10' I11 I12] X Hst] Ht. destruct bs as [|i bs].
  { unfold base in *. simpl in *. lia. }
  destruct (I12 0%nat i eq_refl) as (b & Hb & Hok). specialize (I10' ltac:(done)).
  replace (base A 0) with A in Hok by (unfold base; lia). exists i, bs, b.
  split_and!; try done; [by apply block_slots in Hok|lia|lia|by apply (indexed_frame (at_head r h))].
Qed.

Lemma wipe_rest_ok (fuel : nat) first cnt rest hd hs t : ∀ (n : nat) p r owned bs A h ys i b b1,
  repr p (at_head r h) owned bs A t h (ys ++ rest) → blockIndex r = hd :: hs → h < t →
  head bs = Some i → heap p !! i = Some b → slots_changed b b1 → slots_ok b1 A (h + n) (drop n ys ++ rest) →
  (n ≤ length ys)%nat → h + n <= A + BLOCK_SIZE →
  u64 (first + cnt) = u64 (h + length ys) → (length bs ≤ fuel)%nat →
  ∃ p' r', destroy_rest fuel hd first cnt (u64 h) (u64 (h + n)) (place hd (length bs))
      (with_heap p (<[i := b1]> (heap p))) r = Ok (p', r') ∧
    left_at p p' r r' owned bs t (h + length ys) rest.
Proof.
  induction fuel as [|fuel IH]; intros n p r owned bs A h ys i b b1 R Hbi Hht Hi Hb Hch Hs Hn Hhn Hf Hfuel;
    [destruct bs; simpl in *; [done|lia]|]. pose proof block_size_pos. cbn [destroy_rest].
  destruct (head_block _ _ _ _ _ _ _ _ R Hht) as (i' & bs' & b' & -> & Hb' & _ & HAh & HA & Htb & Hsz & X).
  injection Hi as ->. assert (b' = b) as -> by congruence.
  pose proof (bo_length _ _ _ _ _ _ _ _ (rp_blocks _ _ _ _ _ _ _ _ R)) as Hlen. rewrite length_app in Hlen.
  destruct (first_entry r i bs' A hd hs X Hbi HA) as (id & Hen & _ & _ & Hnext & _).
  destruct (part_to_take A (length (i :: bs')) first cnt 0 h ys HA Hsz Hf) as (m & -> & Hm & Hmb & -> & Hmore & Hturns);
    [unfold base; lia|lia|simpl; lia|]. replace (base A 1) with (A + BLOCK_SIZE) in * by (unfold base; lia).
  assert (Hnm : (n ≤ m)%nat) by (destruct (decide (m = length ys)) as [->|Hne]; [done|destruct (Hmore Hne); lia]).
  rewrite Hen, bind_ok, Hturns by done.
  set (zs := take m ys). assert (Hzs : length zs = m) by (unfold zs; rewrite length_take; lia).
  assert (Hys : ys = zs ++ drop m ys) by (symmetry; apply take_drop).
  assert (Hdr : drop n ys = drop n zs ++ drop m ys) by (rewrite Hys at 1; by rewrite drop_app_le by lia).
  rewrite Hdr, <- app_assoc in Hs.
  destruct (destroy_slots_ok (drop n zs) (with_heap p (<[i := b1]> (heap p))) i b1 A (h + n)
    (drop m ys ++ rest) (Z.to_nat (h + n - A))) as (b2 & Hd & Hs2 & Hch2);
    [apply lookup_insert_eq|done|done|lia|rewrite length_drop; lia|].
  rewrite length_drop, Hzs in Hd, Hs2. rewrite Hd, bind_ok, with_heap_twice.
  replace (h + n + (m - n)%nat) with (h + m) in Hs2 by lia. rewrite Hys, <- app_assoc in R.
  destruct (finish_first p r owned i bs' A t h zs (drop m ys ++ rest) b b2 hd hs id R Hbi Hen Hb) as
    (p2 & r2 & bs2 & A2 & He & R2 & M2 & Hq2 & Hb2 & Hl2 & Hfull); [by unfold slots_changed in *; rewrite Hch2, Hch|by rewrite Hzs|lia|].
  rewrite Hzs in He, R2, Hfull. rewrite He, bind_ok. case_bool_decide as Hend.
  - exists p2, r2. split; [done|]. rewrite Hend, drop_all in R2. exists bs2, A2. by rewrite Hend in *.
  - destruct (Hmore Hend) as [Hbase _]. destruct (Hfull Hbase) as [-> ->]. rewrite Hnext.
    destruct (head_block _ _ _ _ _ _ _ _ R2) as (j & bs3 & b3 & -> & Hb3 & Hs3 & _); [lia|].
    destruct (IH 0%nat p2 r2 owned (j :: bs3) (A + BLOCK_SIZE) (h + m) (drop m ys) j b3 b3 R2) as (p' & r' & Hr & L); try done.
    { by rewrite Hb2. } { lia. } { apply slots_changed_refl. } { by rewrite Z.add_0_r, drop_0. } { lia. } { lia. }
    { rewrite length_drop, Hf. f_equal. lia. } { simpl in *. lia. }
    rewrite with_heap_same, Z.add_0_r in Hr by done. exists p', r'. split; [done|].
    rewrite length_drop in L. replace (h + m + (length ys - m)%nat) with (h + length ys) in L by lia.
    by eapply left_at_trans.
Qed.

Lemma move_blocks_ok (fuel : nat) first cnt rest hd hs t : ∀ throws p r owned bs A h ys,
  repr p (at_head r h) owned bs A t h (ys ++ rest) → blockIndex r = hd :: hs → h < t →
  u64 (first + cnt) = u64 (h + length ys) → (length bs ≤ fuel)%nat →
  ∃ p' r' (n : nat), take_blocks fuel throws hd first cnt (u64 h) (place hd (length bs)) p r =
      Ok (p', r', take n ys, bool_decide (n < length ys)%nat) ∧ (n ≤ length ys)%nat ∧ (throws = [] → n = length ys) ∧
    left_at p p' r r' owned bs t (h + length ys) rest.
Proof.
  induction fuel as [|fuel IH]; intros throws p r owned bs A h ys R Hbi Hht Hf Hfuel; pose proof block_size_pos;
    destruct (head_block _ _ _ _ _ _ _ _ R Hht) as (i & bs' & b & -> & Hb & Hs & HAh & HA & Htb & Hsz & X);
    [simpl in Hfuel; lia|]. cbn [take_blocks].
  pose proof (bo_length _ _ _ _ _ _ _ _ (rp_blocks _ _ _ _ _ _ _ _ R)) as Hlen. rewrite length_app in Hlen.
  destruct (first_entry r i bs' A hd hs X Hbi HA) as (id & Hen & _ & _ & Hnext & _).
  destruct (part_to_take A (length (i :: bs')) first cnt 0 h ys HA Hsz Hf) as (m & Hend & Hm & Hmb & Hlast & Hmore & Hturns);
    [unfold base; lia|lia|simpl; lia|]. replace (base A 1) with (A + BLOCK_SIZE) in * by (unfold base; lia).
  pose proof (Hturns 0%nat ltac:(lia)) as Ht0. rewrite Z.add_0_r, Nat.sub_0_r in Ht0.
  rewrite Hend, Hen, bind_ok, Ht0.
  set (zs := take m ys). assert (Hzs : length zs = m) by (unfold zs; rewrite length_take; lia).
  assert (Hys : ys = zs ++ drop m ys) by (symmetry; apply take_drop).
  assert (Hs0 : slots_ok b A h (zs ++ drop m ys ++ rest)) by (by rewrite app_assoc, <- Hys).
  destruct (take_slots_ok zs throws p i b A h (drop m ys ++ rest) (Z.to_nat (h - A)) Hb Hs0 HA)
    as (n & b1 & throws1 & Ht & Hnz & Hs1 & Hch & Hnt); [lia|lia|].
  rewrite Hzs in Ht. rewrite Ht, bind_ok. case_bool_decide as Hth.
  - destruct (wipe_rest_ok (S fuel) first cnt rest hd hs t n p r owned (i :: bs') A h ys i b b1 R Hbi Hht eq_refl Hb Hch)
      as (p' & r' & Hd & L); try done; [|lia|lia|].
    { rewrite Hys at 1. rewrite drop_app_le, <- app_assoc by lia. exact Hs1. }
    rewrite Hd, bind_ok. exists p', r', n. split_and!; try done; [|lia|intros ->; destruct (Hnt eq_refl); lia].
    unfold zs. rewrite take_take, Nat.min_l, bool_decide_eq_true_2 by lia. done.
  - assert (n = m) as -> by lia. rewrite Hys, <- app_assoc in R. rewrite drop_ge, app_nil_l in Hs1 by lia.
    destruct (finish_first p r owned i bs' A t h zs (drop m ys ++ rest) b b1 hd hs id R Hbi Hen Hb Hch) as
      (p2 & r2 & bs2 & A2 & He & R2 & M2 & Hq2 & Hb2 & Hl2 & Hfull); [by rewrite Hzs|lia|].
    rewrite Hzs in He, R2, Hfull. rewrite He, bind_ok, Hlast. rewrite (take_ge zs) by lia. case_bool_decide as Hm'.
    + exists p2, r2, m. unfold zs. rewrite Hm' in R2 |- *. rewrite drop_all in R2.
      rewrite bool_decide_eq_false_2 by lia. split_and!; [done|done|done|]. by exists bs2, A2.
    + destruct (Hmore Hm') as [Hbase _]. destruct (Hfull Hbase) as [-> ->]. rewrite Hnext.
      destruct (IH throws1 p2 r2 owned bs' (A + BLOCK_SIZE) (h + m) (drop m ys) R2) as (p' & r' & n' & Hp & Hn' & Hnt' & L).
      { by rewrite Hb2. } { lia. } { rewrite length_drop, Hf. f_equal. lia. } { simpl in Hfuel. lia. }
      rewrite Hp, bind_ok. exists p', r', (m + n')%nat. rewrite length_drop in *.
      replace (h + m + (length ys - m)%nat) with (h + length ys) in L by lia. split_and!.
      * unfold zs. rewrite take_take_drop. do 2 f_equal. apply bool_decide_ext. lia.
      * lia.
      * intros ->. destruct (Hnt eq_refl) as [_ ->]. rewrite Hnt'; [lia|done].
      * by eapply left_at_trans.
Qed.

(** The elements, at most [max], leave the queue in order. *)
Lemma remove_bulk_ok throws (max : nat) p r owned bs A t h xs :
  repr p r owned bs A t h xs →
  ∃ p' r' (n : nat) bs' A',
    let taken := take max xs in
    dequeue_bulk throws max p r =
      Ok (p', r', if decide (n < length taken)%nat then LostMany (take n taken) else GotMany taken) ∧
    (throws = [] → n = length taken) ∧ repr p' r' owned bs' A' t (h + length taken) (drop max xs) ∧
    (length bs' ≤ length bs)%nat ∧ mallocs p' = mallocs p ∧ (blockIndex r ≠ [] → blockIndex r' ≠ []).
Proof.
  intros R. pose proof R as [I X Hst]. pose proof block_size_pos. pose proof (blocks_span _ _ _ _ _ _ _ _ I) as Hspan.
  pose proof (bo_size _ _ _ _ _ _ _ _ I) as Hsz. pose proof (bo_length _ _ _ _ _ _ _ _ I) as I8.
  unfold dequeue_bulk. rewrite (bo_counts _ _ _ _ _ _ _ _ I), (bo_tail _ _ _ _ _ _ _ _ I).
  autorewrite with wrap. rewrite <- I8.
  assert (Hfit : u64 (length xs) = length xs) by (apply wrap_small; unfold fits; lia). rewrite Hfit.
  assert (Hclt : clt 0 (length xs) = (0 <? length xs)) by (rewrite <- (clt_spec 0 (length xs)), Hfit by lia; done).
  rewrite Hclt. destruct (Z.ltb_spec 0 (length xs)) as [Hne|He].
  2:{ destruct xs; [|simpl in He; lia]. rewrite take_nil, drop_nil. exists p, r, 0%nat, bs, A. rewrite Z.add_0_r. by split_and!. }
  set (taken := take max xs).
  assert (Htk : Z.of_nat (length taken) = if length xs <? max then Z.of_nat (length xs) else Z.of_nat max).
  { unfold taken. rewrite length_take. destruct (Z.ltb_spec (length xs) max); lia. }
  rewrite <- Htk. assert (Hle : (length taken ≤ length xs)%nat) by (unfold taken; rewrite length_take; lia).
  assert (Hac : (if length taken <? length xs then Z.of_nat (length taken) else Z.of_nat (length xs)) = length taken)
    by (destruct (Z.ltb_spec (length taken) (length xs)); lia).
  rewrite Hac, Z.ltb_irrefl. cbn [headIndex dequeueOptimisticCount set_counts blockIndex].
  set (r1 := set_counts _ _ _ _).
  assert (R1 : repr p (at_head r1 h) owned bs A t h xs).
  { apply (repr_counts p r); try done. by rewrite at_head_counts. }
  destruct (head_block p r1 owned bs A t h xs R1) as (i & bs' & b & -> & Hb & Hs & HAh & HA & Htb & _ & X1); [lia|].
  destruct (blockIndex r1) as [|hd hs] eqn:Hbi; [by apply (indexed_none _ _ _ X1) in Hbi|].
  destruct (first_entry r1 i bs' A hd hs X1 Hbi HA) as (id & _ & _ & Hidx & _ & Hroom).
  specialize (Hidx (h - A) ltac:(lia)). replace (A + (h - A)) with h in Hidx by lia.
  rewrite (bo_head _ _ _ _ _ _ _ _ I), Hidx, bind_ok. change (blockIndex r) with (blockIndex r1). rewrite Hbi.
  assert (Hxs : xs = taken ++ drop max xs) by (symmetry; apply take_drop). rewrite Hxs in R1.
  destruct (move_blocks_ok (S (length (index_ hd))) (u64 h) (length taken) (drop max xs) hd hs t throws p r1 owned
    (i :: bs') A h taken R1 Hbi) as (p' & r' & n & Htb' & Hn & Hnt & bs2 & A2 & R2 & Hl2 & M2 & Hq2 & Hb2);
    [lia|by autorewrite with wrap|lia|].
  rewrite Htb', bind_ok. exists p', r', n, bs2, A2. split.
  { case_bool_decide; [by rewrite decide_True|by rewrite decide_False, take_ge by lia]. }
  split; [done|]. split; [|split_and!; [done|done|intros _; by rewrite Hb2, Hbi]].
  apply (repr_counts p' (at_head r' (h + length taken))); try done; [by rewrite Hq2; unfold r1; simpl; rewrite (bo_head _ _ _ _ _ _ _ _ I); autorewrite with wrap|].
  rewrite Hq2. unfold r1. simpl. autorewrite with wrap.
  replace (dequeueOptimisticCount r + length taken - dequeueOvercommit r) with
    (dequeueOptimisticCount r - dequeueOvercommit r + length taken) by lia.
  rewrite <- wrap_add_l, (bo_counts _ _ _ _ _ _ _ _ I). by autorewrite with wrap.
Qed.

(** ** Single and bulk calls *)

Lemma exec_call_ok noexcept_ctor p r owned bs A t h xs c :
  repr p r owned bs A t h xs → BLOCK_SIZE * (length bs + adds c) < 2 ^ 62 → in_range c →
  ∃ p' r' o bs' A' t' h' ys, exec_bulk noexcept_ctor p r c = Ok (p', r', o) ∧
    served_bulk noexcept_ctor xs c o ys ∧ repr p' r' owned bs' A' t' h' ys ∧
    (length bs' ≤ length bs + adds c)%nat ∧
    (mallocs p = [] → MAX_SUBQUEUE_SIZE = SIZE_MAX → blockIndex r ≠ [] → may_allocate_bulk c = true →
     refused o = false ∧ mallocs p' = [] ∧ blockIndex r' ≠ []).
Proof.
  intros R Hsz Hc. destruct c as [op|canAlloc zs throws|max throws]; cbn [exec_bulk adds] in *.
  - destruct (exec_ok noexcept_ctor _ _ _ _ _ _ _ _ op R) as
      (p' & r' & o & bs' & A' & t' & h' & ys & -> & Hs & R' & Hl & Hm); [lia|].
    rewrite bind_ok. exists p', r', (OneOutcome o), bs', A', t', h', ys. split_and!; [done|done|done|lia|].
    intros Hmem Hmax Hi Ha. destruct (Hm Hmem Hmax Hi Ha) as (Hr & ? & ?). split_and!; [|done|done].
    by destruct o as [[[]|]|].
  - destruct (add_bulk_ok noexcept_ctor canAlloc zs throws p r owned bs A t h xs R Hsz)
      as (p' & r' & e & -> & He & Hm & Hb). rewrite bind_ok.
    assert (Hfin : mallocs p = [] → MAX_SUBQUEUE_SIZE = SIZE_MAX → blockIndex r ≠ [] → canAlloc = true →
      e ≠ Returned false ∧ mallocs p' = [] ∧ blockIndex r' ≠ []).
    { intros Hmem Hmax Hi ->. destruct (Hm eq_refl Hmem Hmax Hi). split_and!; [done|done|by apply Hb]. }
    destruct e as [[]|].
    + destruct He as (bs' & R' & Hl). exists p', r', (EnqueuedBulk true), bs', A, (t + length zs), h, (xs ++ zs).
      split_and!; [done|done|done|lia|]. intros Hmem Hmax Hi Ha. by destruct (Hfin Hmem Hmax Hi Ha) as (_ & ?).
    + exists p', r', (EnqueuedBulk false), bs, A, t, h, xs. split_and!; [done|done|done|lia|].
      intros Hmem Hmax Hi Ha. by destruct (Hfin Hmem Hmax Hi Ha) as (? & _).
    + destruct He as (Hth & R'). exists p', r', (BulkRaised []), bs, A, t, h, xs. split_and!; [done|done|done|lia|].
      intros Hmem Hmax Hi Ha. by destruct (Hfin Hmem Hmax Hi Ha) as (_ & ?).
  - destruct (remove_bulk_ok throws max p r owned bs A t h xs R)
      as (p' & r' & n & bs' & A' & -> & Hn & R' & Hl & Hm & Hb). rewrite bind_ok. destruct (decide (n < _)%nat) as [Hlt|Hge].
    + exists p', r', (BulkRaised (take n (take max xs))), bs', A', t, (h + length (take max xs)), (drop max xs).
      split_and!; [done| |done|lia|].
      * split; [intros ->; specialize (Hn eq_refl); lia|]. split; [done|]. by exists n.
      * intros Hmem _ Hi _. split_and!; [done|by rewrite Hm|by apply Hb].
    + exists p', r', (DequeuedBulk (take max xs)), bs', A', t, (h + length (take max xs)), (drop max xs).
      split_and!; [done|done|done|lia|]. intros Hmem _ Hi _. split_and!; [done|by rewrite Hm|by apply Hb].
Qed.

Lemma run_bulks_ok noexcept_ctor cs : ∀ p r owned bs A t h xs,
  repr p r owned bs A t h xs → BLOCK_SIZE * (length bs + sum_list (adds <$> cs)) < 2 ^ 62 → Forall in_range cs →
  ∃ p' r' outs bs' A' t' h' ys, run_bulk noexcept_ctor p r cs = Ok (p', r', outs) ∧
    served_bulks noexcept_ctor xs cs outs ys ∧ repr p' r' owned bs' A' t' h' ys ∧
    (mallocs p = [] → MAX_SUBQUEUE_SIZE = SIZE_MAX → blockIndex r ≠ [] →
     Forall (λ c, may_allocate_bulk c = true) cs → Forall (λ o, refused o = false) outs).
Proof.
  induction cs as [|c cs IH]; intros p r owned bs A t h xs R Hsz Hcs; cbn [run_bulk].
  { exists p, r, [], bs, A, t, h, xs. split_and!; [done|constructor|done|done]. }
  pose proof block_size_pos. apply Forall_cons in Hcs as [Hc Hcs].
  rewrite fmap_cons in Hsz. cbn [sum_list id] in Hsz. rewrite Nat2Z.inj_add in Hsz.
  set (n := sum_list (adds <$> cs)) in *. assert (0 <= BLOCK_SIZE * n) by nia.
  destruct (exec_call_ok noexcept_ctor p r owned bs A t h xs c R) as
    (p1 & r1 & o & bs1 & A1 & t1 & h1 & ys1 & -> & Hs & R1 & Hl & Hm); [nia|done|].
  destruct (IH p1 r1 owned bs1 A1 t1 h1 ys1 R1) as (p2 & r2 & outs & bs2 & A2 & t2 & h2 & ys & Hr & Hs2 & R2 & Hm2); [nia|done|].
  rewrite bind_ok, Hr, bind_ok. do 8 eexists. split; [reflexivity|]. split; [by econstructor|]. split; [exact R2|].
  intros Hmem Hmax Hi [Ha Has]%Forall_cons. destruct (Hm Hmem Hmax Hi Ha) as (Ho & Hmem1 & Hi1).
  apply Forall_cons. split; [done|]. by apply Hm2.
Qed.

(** C19: whatever single and bulk calls are made on an [ImplicitProducer] between its
    construction and its destruction, with failing allocations and throwing constructors
    and assignments among them: no assertion fails and nothing is undefined; a bulk of
    elements is added as a whole or not at all; elements leave in order; and every block
    goes back to the pool with its elements destroyed.  While memory can be had nothing is
    refused. *)
Theorem implicit_bulk_lifetime noexcept_ctor p owned cs :
  pool_ok p owned → BLOCK_SIZE * sum_list (adds <$> cs) < 2 ^ 62 → Forall in_range cs →
  ∃ p1 r1 p2 r2 outs ys p3, create p = Ok (p1, r1) ∧ run_bulk noexcept_ctor p1 r1 cs = Ok (p2, r2, outs) ∧
    served_bulks noexcept_ctor [] cs outs ys ∧ size_approx r2 = length ys ∧
    destroy_producer p2 r2 = Some (Ok p3) ∧ pool_ok p3 owned ∧
    (mallocs p = [] → MAX_SUBQUEUE_SIZE = SIZE_MAX → Forall (λ c, may_allocate_bulk c = true) cs →
     Forall (λ o, refused o = false) outs).
Proof.
  intros P Hsz Hcs. destruct (new_producer_repr p owned P) as (p1 & r1 & Hc & R & Hm).
  destruct (run_bulks_ok noexcept_ctor cs _ _ _ _ _ _ _ _ R Hsz Hcs) as
    (p2 & r2 & outs & bs & A & t & h & ys & Hr & Hs & R2 & Hn).
  destruct (destructor_ok _ _ _ _ _ _ _ _ R2) as (p3 & Hd & P3).
  exists p1, r1, p2, r2, outs, ys, p3. split_and!; try done; [by eapply count_ok|].
  intros Hmem Hmax Ha. destruct (Hm Hmem). by apply Hn.
Qed.

End proofs.
End producer.

(** ** Example: blocks of 4 elements, an index for 2 of them *)

#[local] Existing Instance small.
#[local] Existing Instance small_ok.

(** The seventh constructor throws and the bulk is taken back; then one that fits; the
    third assignment of the second [dequeue_bulk] throws, which loses four elements. *)
Definition bulks : list (bulk_call (T := Z)) :=
  [EnqueueBulk true (seqZ 0 13) (replicate 6 false ++ [true]); EnqueueBulk true (seqZ 0 13) [];
   DequeueBulk 3 []; DequeueBulk 6 [false; false; true]; One (Enqueue true 13, false);
   DequeueBulk 100 []; One (Dequeue, false)].

Definition bulk_outcomes : list (bulk_outcome (T := Z)) :=
  [BulkRaised []; EnqueuedBulk true; DequeuedBulk [0; 1; 2]; BulkRaised [3; 4];
   OneOutcome (Answer (Enqueued true)); DequeuedBulk [9; 10; 11; 12; 13]; OneOutcome (Answer (Dequeued None))].

Lemma implicit_bulk_lifetime_witness :
  match ('(p, r) ← create no_blocks; run_bulk false p r bulks) with Ok (_, _, outs) => outs = bulk_outcomes | _ => False end ∧
  ∃ p1 r1 p2 r2 outs ys p3, create no_blocks = Ok (p1, r1) ∧ run_bulk false p1 r1 bulks = Ok (p2, r2, outs) ∧
    served_bulks false [] bulks outs ys ∧ size_approx r2 = length ys ∧
    destroy_producer p2 r2 = Some (Ok p3) ∧ pool_ok p3 ∅ ∧
    (mallocs no_blocks = [] → MAX_SUBQUEUE_SIZE = SIZE_MAX → Forall (λ c, may_allocate_bulk c = true) bulks →
     Forall (λ o, refused o = false) outs).
Proof.
  split; [by vm_compute|]. apply (implicit_bulk_lifetime false no_blocks ∅ bulks).
  - by apply initial_blocks_ok.
  - by vm_compute.
  - by repeat constructor.
Defined.
End McImplicitBulk.
