(* ===== verification/McOrigin.v ===== *)
(** * Where blocks come from

    concurrentqueue.h: a block of the initial pool is part of an array, any other block
    an allocation of its own, and [dynamicallyAllocated] says which.  No operation of a
    producer changes that, so that destructors free what may be freed. *)
From S2P Require Import Prelude McDetails McBlock McPool McSlots McBulk McExplicit.
From S2P Require Import McExplicitBulk McExplicitDestructor McImplicitIndex McImplicit McImplicitBulk.
Local Open Scope Z_scope.

Module McOrigin.
Import McDetails McBlock McPool McSlots McBulk.

Create HintDb origin discriminated.

Section origin.
Context `{Traits} {T : Type} (N : Z).

(** The initial pool has the first [N] addresses. *)
Record sourced (p : pool T) : Prop := {
  so_initial : initialBlockPoolSize p = N;
  so_fresh : N <= fresh p;
  so_flag i b : heap p !! i = Some b → dynamicallyAllocated b = (N <=? Z.of_nat i);
  so_static (i : nat) : i < N → is_Some (heap p !! i)
}.

(** What has to hold of a result. *)
Class Kept (A : Type) : Type := kept : A → Prop.
#[local] Instance kept_pool : Kept (pool T) := sourced.
#[local] Instance kept_prod `{Kept A, Kept B} : Kept (A * B) := λ x, kept x.1 ∧ kept x.2.
#[local] Instance kept_other A : Kept A | 100 := λ _, True.

Definition keeps `{Kept A} (m : result A) : Prop := ∀ x, m = Ok x → kept x.

Lemma keeps_ret `{Kept A} (x : A) : kept x → keeps (Ok x).
Proof. by intros Hx y [= <-]. Qed.

Lemma keeps_bind `{Kept A, Kept B} (m : result A) (k : A → result B) :
  keeps m → (∀ x, m = Ok x → kept x → keeps (k x)) → keeps (m ≫= k).
Proof. intros Hm Hk y (x & Hx & Hy)%bind_inv_ok. by eapply Hk; [..|exact Hy]; [|apply Hm]. Qed.

Lemma keeps_read {A} `{Kept B} (m : result A) (k : A → result B) :
  (∀ x, m = Ok x → keeps (k x)) → keeps (m ≫= k).
Proof. intros Hk y (x & Hx & Hy)%bind_inv_ok. by eapply Hk. Qed.

Lemma keeps_update p i f :
  sourced p → (∀ b, deref p i = Ok b → dynamicallyAllocated (f b) = dynamicallyAllocated b) → keeps (update p i f).
Proof.
  intros [HN Hf Hd Hs] Hb p' (b & Hi & [= <-])%bind_inv_ok. specialize (Hb b Hi).
  unfold deref in Hi. destruct (heap p !! i) as [b'|] eqn:Hp; [|done]. injection Hi as ->. constructor; simpl; try done.
  - intros j b1 [[<- <-]|[Hne Hj]]%lookup_insert_Some; [rewrite Hb|]; by apply Hd.
  - intros j Hj. apply lookup_insert_is_Some'. right. by apply Hs.
Qed.

(** What is done with a block in between. *)
Lemma dyn_destruct (b b' : block T) i : destruct_at b i = Ok b' → dynamicallyAllocated b' = dynamicallyAllocated b.
Proof.
  unfold destruct_at. intros ([x|] & _ & Hr)%bind_inv_ok; [|done]. by apply bind_inv_ok in Hr as (es & _ & [= <-]).
Qed.
Lemma dyn_construct (b b' : block T) i x : construct b i x = Ok b' → dynamicallyAllocated b' = dynamicallyAllocated b.
Proof.
  unfold construct. intros ([y|] & _ & Hr)%bind_inv_ok; [done|]. by apply bind_inv_ok in Hr as (es & _ & [= <-]).
Qed.
Lemma dyn_set_flag (b b' : block T) i : set_flag b i = Ok b' → dynamicallyAllocated b' = dynamicallyAllocated b.
Proof.
  unfold set_flag. intros ([f|] & _ & Hr)%bind_inv_ok.
  - apply bind_inv_ok in Hr as (_ & _ & Hr). by apply bind_inv_ok in Hr as (fs & _ & [= <-]).
  - destruct NDEBUG; [|done]. by apply bind_inv_ok in Hr as (fs & _ & [= <-]).
Qed.
Lemma dyn_set_flags n : ∀ (b b' : block T) i, set_flags b i n = Ok b' → dynamicallyAllocated b' = dynamicallyAllocated b.
Proof.
  induction n as [|n IH]; intros b b' i; simpl; [by intros [= <-]|].
  intros (b1 & H1%dyn_set_flag & H2%IH)%bind_inv_ok. congruence.
Qed.
Lemma dyn_set_empty c i (b b' : block T) e : set_empty c i b = Ok (b', e) → dynamicallyAllocated b' = dynamicallyAllocated b.
Proof.
  unfold set_empty. destruct (use_flags c).
  - intros (b1 & H1%dyn_set_flag & [= <- <-])%bind_inv_ok. done.
  - by intros (_ & _ & [= <- <-])%bind_inv_ok.
Qed.
Lemma dyn_set_many_empty c i n (b b' : block T) e :
  set_many_empty c i n b = Ok (b', e) → dynamicallyAllocated b' = dynamicallyAllocated b.
Proof.
  unfold set_many_empty. destruct (use_flags c).
  - intros (b1 & H1%dyn_set_flags & [= <- <-])%bind_inv_ok. done.
  - by intros (_ & _ & [= <- <-])%bind_inv_ok.
Qed.
Lemma dyn_reset_empty c (b : block T) : dynamicallyAllocated (reset_empty c b) = dynamicallyAllocated b.
Proof. unfold reset_empty. by case_match. Qed.
Lemma dyn_set_all_empty c (b : block T) : dynamicallyAllocated (set_all_empty c b) = dynamicallyAllocated b.
Proof. unfold set_all_empty. by case_match. Qed.
Import McExplicitDestructor.
Lemma dyn_destruct_slots n : ∀ tl last i (b b' : block T),
  destruct_slots n tl last i b = Ok b' → dynamicallyAllocated b' = dynamicallyAllocated b.
Proof.
  induction n as [|n IH]; intros tl last i b b'; simpl; [by intros [= <-]|].
  destruct (_ || _); [by intros [= <-]|]. intros (b1 & H1%dyn_destruct & H2%IH)%bind_inv_ok. congruence.
Qed.

Ltac same_origin :=
  repeat match goal with
  | Hb : destruct_at _ _ = Ok _ |- _ => apply dyn_destruct in Hb
  | Hb : construct _ _ _ = Ok _ |- _ => apply dyn_construct in Hb
  | Hb : set_empty _ _ _ = Ok (_, _) |- _ => apply dyn_set_empty in Hb
  | Hb : set_many_empty _ _ _ _ = Ok (_, _) |- _ => apply dyn_set_many_empty in Hb
  | Hb : destruct_slots _ _ _ _ _ = Ok _ |- _ => apply dyn_destruct_slots in Hb
  end; first [done | by rewrite ?dyn_reset_empty, ?dyn_set_all_empty | congruence].

Ltac origin_intro :=
  intros; repeat match goal with x : _ * _ |- _ => destruct x end;
  repeat match goal with
  | Hc : kept (_, _) |- _ => destruct Hc; cbn [fst snd] in *
  | Hc : @kept (pool T) _ ?p |- _ => change (sourced p) in Hc
  | Hc : kept _ |- _ => clear Hc
  end.
Ltac pool_kept :=
  first [assumption | done | match goal with Hp : sourced _ |- _ => destruct Hp; constructor; done end].
Ltac origin_step :=
  match goal with
  | |- keeps UB => by intros ?
  | |- keeps Abort => by intros ?
  | |- keeps (update _ _ _) => apply keeps_update; [pool_kept|intros; same_origin]
  | |- keeps _ => solve [eauto 2 with origin]
  | |- keeps (Ok _) =>
      apply keeps_ret; repeat match goal with |- kept (_, _) => split end;
      solve [pool_kept]
  | |- keeps (mbind _ _) => refine (keeps_bind _ _ _ _); [|origin_intro]
  | |- keeps (if ?b then _ else _) => destruct b
  | |- keeps (match ?x with _ => _ end) => destruct x
  | |- keeps _ => by intros ??
  end.
Ltac origin := origin_intro; repeat origin_step.

(** ** The pool *)

Lemma keeps_malloc p : sourced p → sourced (malloc p).2.
Proof. by intros []. Qed.
Lemma keeps_head p o : sourced p → sourced (with_head p o).
Proof. by intros []. Qed.
#[local] Hint Resolve keeps_malloc keeps_head : origin.

Lemma keeps_add_knowing node p : sourced p → keeps (add_knowing_refcount_is_zero node p).
Proof. intros Hp. unfold add_knowing_refcount_is_zero. origin. Qed.
#[local] Hint Resolve keeps_add_knowing : origin.
Lemma keeps_add_block node p : sourced p → keeps (add_block_to_free_list node p).
Proof. intros Hp. unfold add_block_to_free_list. origin. Qed.
#[local] Hint Resolve keeps_add_block : origin.
Lemma keeps_add_blocks fuel : ∀ block p, sourced p → keeps (add_blocks_to_free_list fuel block p).
Proof. induction fuel as [|fuel IH]; intros; simpl; origin. Qed.
#[local] Hint Resolve keeps_add_blocks : origin.

Lemma keeps_try_get fuel p : sourced p → keeps (default UB (try_get fuel p)).
Proof.
  intros Hp. induction fuel as [|fuel IH]; simpl; [origin|]. destruct (freeListHead p) as [i|]; [|simpl; origin].
  destruct (heap p !! i) as [b|]; [|simpl; origin]. destruct (_ =? 0); [exact IH|]. simpl. origin.
Qed.
#[local] Hint Resolve keeps_try_get : origin.

Lemma keeps_create_block p : sourced p → keeps (Ok (create_block p)).
Proof.
  intros Hp. apply keeps_ret. split; [|done]. unfold create_block. simpl. destruct (hd true (mallocs p)); [|by destruct Hp].
  destruct Hp as [HN Hf Hd Hs]. constructor; simpl; [done|lia| |].
  - intros i b [[<- <-]|[Hne Hi]]%lookup_insert_Some; [|by apply Hd]. simpl. symmetry. by apply Z.leb_le.
  - intros i Hi. apply lookup_insert_is_Some'. right. by apply Hs.
Qed.

#[local] Hint Resolve keeps_create_block : origin.

Lemma keeps_requisition canAlloc p : sourced p → keeps (requisition_block canAlloc p).
Proof.
  intros Hp. unfold requisition_block. assert (Hi : sourced (try_get_block_from_initial_pool p).1).
  { unfold try_get_block_from_initial_pool. case_match; [done|]. by destruct Hp. }
  destruct (try_get_block_from_initial_pool p). cbn [fst] in Hi. origin.
Qed.
#[local] Hint Resolve keeps_requisition : origin.

(** ** The loops of both producers *)
Lemma keeps_fill_slots turns : ∀ nx cti xs throws i p, sourced p → keeps (fill_slots turns nx cti xs throws i p).
Proof. induction turns as [|turns IH]; intros; simpl; origin. Qed.
#[local] Hint Resolve keeps_fill_slots : origin.
Lemma keeps_fill_blocks fuel : ∀ nx nt eb cti xs throws tb p, sourced p → keeps (fill_blocks fuel nx nt eb cti xs throws tb p).
Proof. induction fuel as [|fuel IH]; intros; simpl; origin. Qed.
#[local] Hint Resolve keeps_fill_blocks : origin.
Lemma keeps_destroy_slots turns : ∀ index i p, sourced p → keeps (destroy_slots turns index i p).
Proof. induction turns as [|turns IH]; intros; simpl; origin. Qed.
#[local] Hint Resolve keeps_destroy_slots : origin.
Lemma keeps_destroy_constructed fuel : ∀ stop lb cti blk p, sourced p → keeps (destroy_constructed fuel stop lb cti blk p).
Proof. induction fuel as [|fuel IH]; intros; simpl; origin. Qed.
#[local] Hint Resolve keeps_destroy_constructed : origin.
Lemma keeps_take_slots turns : ∀ throws index i p, sourced p → keeps (take_slots turns throws index i p).
Proof. induction turns as [|turns IH]; intros; simpl; origin. Qed.
#[local] Hint Resolve keeps_take_slots : origin.

(** ** [ExplicitProducer] *)

Import McExplicit.
Lemma keeps_explicit_index n p r : sourced p → keeps (new_block_index n p r).
Proof. intros Hp. unfold new_block_index. simpl. origin. Qed.
#[local] Hint Resolve keeps_explicit_index : origin.
Lemma keeps_explicit_create p : sourced p → keeps (create p).
Proof. intros Hp. unfold create. origin. Qed.
#[local] Hint Resolve keeps_explicit_create : origin.
Lemma keeps_ensure_index ca p r : sourced p → keeps (ensure_index ca p r).
Proof. intros Hp. unfold ensure_index. origin. Qed.
#[local] Hint Resolve keeps_ensure_index : origin.
Lemma keeps_link_block nb p r : sourced p → keeps (link_block nb p r).
Proof. intros Hp. unfold link_block. origin. Qed.
#[local] Hint Resolve keeps_link_block : origin.
Lemma keeps_start_block ca p r : sourced p → keeps (start_block ca p r).
Proof. intros Hp. unfold start_block, insert_block. origin. Qed.
#[local] Hint Resolve keeps_start_block : origin.
Lemma keeps_put_element x p r : sourced p → keeps (put_element x p r).
Proof. intros Hp. unfold put_element. origin. Qed.
#[local] Hint Resolve keeps_put_element : origin.
Lemma keeps_explicit_enqueue nx ca th x p r : sourced p → keeps (enqueue nx ca th x p r).
Proof. intros Hp. unfold enqueue. origin. Qed.
#[local] Hint Resolve keeps_explicit_enqueue : origin.
Lemma keeps_explicit_dequeue th p r : sourced p → keeps (dequeue th p r).
Proof. intros Hp. unfold dequeue. origin. Qed.
#[local] Hint Resolve keeps_explicit_dequeue : origin.

Import McExplicitBulk.
Lemma keeps_bulk_index ca full o p r : sourced p → keeps (bulk_index ca full o p r).
Proof. intros Hp. unfold bulk_index. origin. Qed.
#[local] Hint Resolve keeps_bulk_index : origin.
Lemma keeps_allocate turns : ∀ ca o cti first p r, sourced p → keeps (allocate turns ca o cti first p r).
Proof. induction turns as [|turns IH]; intros; simpl; origin. Qed.
#[local] Hint Resolve keeps_allocate : origin.
Lemma keeps_reset_blocks fuel : ∀ last b p, sourced p → keeps (reset_blocks fuel last b p).
Proof. induction fuel as [|fuel IH]; intros; simpl; origin. Qed.
#[local] Hint Resolve keeps_reset_blocks : origin.
Lemma keeps_explicit_enqueue_bulk nx ca xs throws p r : sourced p → keeps (enqueue_bulk nx ca xs throws p r).
Proof. intros Hp. unfold enqueue_bulk. cbv zeta. origin. Qed.
#[local] Hint Resolve keeps_explicit_enqueue_bulk : origin.
Lemma keeps_explicit_empty_slots i first stop p : sourced p → keeps (empty_slots i first stop p).
Proof. intros Hp. unfold empty_slots. origin. Qed.
#[local] Hint Resolve keeps_explicit_empty_slots : origin.
Lemma keeps_explicit_destroy_rest fuel : ∀ h first cnt start index ii p, sourced p → keeps (destroy_rest fuel h first cnt start index ii p).
Proof. induction fuel as [|fuel IH]; intros; simpl; origin. Qed.
#[local] Hint Resolve keeps_explicit_destroy_rest : origin.
Lemma keeps_explicit_take_blocks fuel : ∀ throws h first cnt index ii p, sourced p → keeps (take_blocks fuel throws h first cnt index ii p).
Proof. induction fuel as [|fuel IH]; intros; [simpl; origin|]. cbn [take_blocks]. origin. Qed.
#[local] Hint Resolve keeps_explicit_take_blocks : origin.
Lemma keeps_explicit_dequeue_bulk throws max p r : sourced p → keeps (dequeue_bulk throws max p r).
Proof. intros Hp. unfold dequeue_bulk. cbv zeta. origin. Qed.
#[local] Hint Resolve keeps_explicit_dequeue_bulk : origin.

(** ** [ImplicitProducer] *)

Import McImplicitIndex.
Lemma keeps_implicit_index p r : sourced p → keeps (new_block_index p r).
Proof. intros Hp. unfold new_block_index. cbv zeta. simpl. origin. Qed.
#[local] Hint Resolve keeps_implicit_index : origin.
Lemma keeps_insert_entry ca start p r : sourced p → keeps (insert_block_index_entry ca start p r).
Proof. intros Hp. unfold insert_block_index_entry. cbv zeta. origin. Qed.
#[local] Hint Resolve keeps_insert_entry : origin.

Import McImplicit.
Lemma keeps_implicit_create p : sourced p → keeps (create p).
Proof. intros Hp. unfold create. origin. Qed.
#[local] Hint Resolve keeps_implicit_create : origin.
Lemma keeps_construct_in b index x p : sourced p → keeps (construct_in b index x p).
Proof. intros Hp. unfold construct_in. origin. Qed.
#[local] Hint Resolve keeps_construct_in : origin.
Lemma keeps_implicit_enqueue nx ca th x p r : sourced p → keeps (enqueue nx ca th x p r).
Proof. intros Hp. unfold enqueue, open_block, put_element. origin. Qed.
#[local] Hint Resolve keeps_implicit_enqueue : origin.
Lemma keeps_implicit_dequeue th p r : sourced p → keeps (dequeue th p r).
Proof. intros Hp. unfold dequeue. origin. Qed.
#[local] Hint Resolve keeps_implicit_dequeue : origin.

Import McImplicitBulk.
Lemma keeps_chain_block linked nb p r : sourced p → keeps (chain_block linked nb p r).
Proof. intros Hp. unfold chain_block. origin. Qed.
#[local] Hint Resolve keeps_chain_block : origin.
Lemma keeps_reserve_blocks turns : ∀ ca linked cti first eb p r, sourced p → keeps (reserve_blocks turns ca linked cti first eb p r).
Proof. induction turns as [|turns IH]; intros; simpl; origin. Qed.
#[local] Hint Resolve keeps_reserve_blocks : origin.
Lemma keeps_revert fuel start first sb p r : sourced p → keeps (revert fuel start first sb p r).
Proof. intros Hp. unfold revert. origin. Qed.
#[local] Hint Resolve keeps_revert : origin.
Lemma keeps_implicit_enqueue_bulk nx ca xs throws p r : sourced p → keeps (enqueue_bulk nx ca xs throws p r).
Proof. intros Hp. unfold enqueue_bulk. cbv zeta. origin. Qed.
#[local] Hint Resolve keeps_implicit_enqueue_bulk : origin.
Lemma keeps_implicit_empty_slots id i first stop p r : sourced p → keeps (empty_slots id i first stop p r).
Proof. intros Hp. unfold empty_slots. origin. Qed.
#[local] Hint Resolve keeps_implicit_empty_slots : origin.
Lemma keeps_implicit_destroy_rest fuel : ∀ h first cnt start index ii p r, sourced p → keeps (destroy_rest fuel h first cnt start index ii p r).
Proof. induction fuel as [|fuel IH]; intros; simpl; origin. Qed.
#[local] Hint Resolve keeps_implicit_destroy_rest : origin.
Lemma keeps_implicit_take_blocks fuel : ∀ throws h first cnt index ii p r, sourced p → keeps (take_blocks fuel throws h first cnt index ii p r).
Proof. induction fuel as [|fuel IH]; intros; [simpl; origin|]. cbn [take_blocks]. origin. Qed.
#[local] Hint Resolve keeps_implicit_take_blocks : origin.
Lemma keeps_implicit_dequeue_bulk throws max p r : sourced p → keeps (dequeue_bulk throws max p r).
Proof. intros Hp. unfold dequeue_bulk. cbv zeta. origin. Qed.
#[local] Hint Resolve keeps_implicit_dequeue_bulk : origin.

(** ** The destructors *)

(** A block that is an allocation of its own may be freed. *)
Lemma keeps_destroy_block i b p : sourced p → deref p i = Ok b → dynamicallyAllocated b = true → keeps (destroy_block i p).
Proof.
  intros [HN Hf Hd Hs] Hb Hdyn p' Hp. unfold destroy_block in Hp. rewrite Hb, bind_ok in Hp.
  destruct (is_raw b); [injection Hp as <-|done]. unfold deref in Hb. destruct (heap p !! i) as [b'|] eqn:Hi; [|done]. injection Hb as ->.
  rewrite (Hd i b Hi) in Hdyn. apply Z.leb_le in Hdyn. constructor; simpl; try done.
  - intros j b1 [_ Hj]%lookup_delete_Some. by apply Hd.
  - intros j Hj. rewrite lookup_delete_ne by lia. by apply Hs.
Qed.

(** A loop that may run out of turns, after [m]. *)
Lemma keeps_then `{Kept A, Kept B} (m : result A) (k : A → option (result B)) t a u :
  keeps m → (∀ x, m = Ok x → kept x → keeps (default UB (k x))) →
  (∀ e, keeps (default UB (t e))) → keeps (default UB a) → keeps (default UB u) →
  keeps (default UB (match m with Ok x => k x | Throw e => t e | Abort => a | UB => u end)).
Proof. intros Hm Hk Ht Ha Hu. destruct m as [x|e| |]; [apply Hk; [done|by apply Hm]|apply Ht|apply Ha|apply Hu]. Qed.

Import McExplicitDestructor.

Lemma keeps_destruct_block r half tb i p : sourced p → keeps (destruct_block r half tb i p).
Proof. intros Hp. unfold destruct_block. cbv zeta. origin. Qed.
#[local] Hint Resolve keeps_destruct_block : origin.

Lemma keeps_destruct_ring fuel : ∀ r half tb at_ p, sourced p → keeps (default UB (destruct_ring fuel r half tb at_ p)).
Proof.
  induction fuel as [|fuel IH]; intros r half tb at_ p Hp; [simpl; origin|]. cbn [destruct_ring].
  refine (keeps_then _ _ _ _ _ _ _ _ _ _); [origin| |by intros ??..]. intros i _ _.
  refine (keeps_then _ _ _ _ _ _ _ _ _ _); [origin| |by intros ??..]. intros p1 _ Hp1.
  destruct (decide _); [simpl; origin|]. by apply IH.
Qed.

Lemma keeps_release_ring fuel : ∀ tb i p, sourced p → keeps (default UB (release_ring fuel tb i p)).
Proof.
  induction fuel as [|fuel IH]; intros tb i p Hp; [simpl; origin|]. cbn [release_ring].
  refine (keeps_then _ _ _ _ _ _ _ _ _ _); [origin| |by intros ??..]. intros b Hb _.
  destruct (next b) as [nx|]; [|simpl; origin]. refine (keeps_then _ _ _ _ _ _ _ _ _ _); [| |by intros ??..].
  - destruct (dynamicallyAllocated b) eqn:Hdyn; [by eapply keeps_destroy_block|origin].
  - intros p1 _ Hp1. destruct (decide _); [simpl; origin|]. by apply IH.
Qed.

Lemma keeps_explicit_destroy p r : sourced p → keeps (default UB (destroy_producer p r)).
Proof.
  intros Hp. unfold destroy_producer. destruct (McExplicit.tailBlock r) as [tb|]; [|simpl; origin].
  destruct (half_dequeued r) as [[half|e| |]|]; cbn [mbind option_bind]; [|by intros ??..].
  pose proof (keeps_destruct_ring (S (size_heap p)) r half tb tb p Hp) as Hd. revert Hd.
  destruct (destruct_ring _ r half tb tb p) as [[p1|e| |]|]; cbn [mbind option_bind]; intros Hd; try by intros ??.
  apply keeps_release_ring. by apply (Hd p1).
Qed.

Import McImplicit.

Lemma keeps_destroy_elements fuel : ∀ index o p r, sourced p → keeps (default UB (destroy_elements fuel index o p r)).
Proof.
  induction fuel as [|fuel IH]; intros index o p r Hp; [simpl; origin|]. cbn [destroy_elements].
  destruct (_ =? _); [simpl; origin|]. refine (keeps_then _ _ _ _ _ _ _ _ _ _); [unfold next_block; origin| |by intros ??..].
  intros [p1 o1] _ [Hp1 _]. by apply IH.
Qed.

Lemma keeps_implicit_destroy p r : sourced p → keeps (default UB (destroy_producer p r)).
Proof.
  intros Hp. unfold destroy_producer. destruct (_ || _); [|simpl; origin].
  pose proof (keeps_destroy_elements (S (Z.to_nat (u64 (tailIndex r - headIndex r)))) (headIndex r) None p r Hp) as Hd.
  revert Hd. destruct (destroy_elements _ _ _ p r) as [[p1|e| |]|]; cbn [mbind option_bind]; intros Hd; try by intros ??.
  assert (Hp1 : sourced p1) by (by apply (Hd p1)). cbn. origin.
Qed.
End origin.
End McOrigin.
