(* ===== verification/McFrame.v ===== *)
(** * The frame rule of the sub-queues

    concurrentqueue.h: all producers of a queue share one block pool.  An operation of a
    producer that is defined in a pool without certain blocks does the same beside these
    blocks and leaves them alone: it only reaches the blocks of its own producer and
    those it takes from the pool. *)
From S2P Require Import Prelude McDetails McBlock McPool McSlots McBulk McExplicit.
From S2P Require Import McExplicitBulk McExplicitDestructor McImplicitIndex McImplicit McImplicitBulk.
Local Open Scope Z_scope.

Module McFrame.
Import McDetails McBlock McPool McSlots McBulk.

Create HintDb frame discriminated.

Section frame.
Context `{Traits} {T : Type} (F : gmap nat (block T)) (N : Z).

(** The pool with the blocks of [F], which it does not have and will not allocate.  The
    size of the initial pool, [N], never changes. *)
Definition beside (p : pool T) : pool T := with_heap p (heap p ∪ F).
Definition apart (p : pool T) : Prop :=
  heap p ##ₘ F ∧ (∀ i, is_Some (F !! i) → (i < fresh p)%nat) ∧ initialBlockPoolSize p = N.

(** How [F] is added to a value, and what has to hold of the value. *)
Class Framed (A : Type) : Type := { frame_in : A → A; frame_ok : A → Prop }.
#[export] Instance framed_pool : Framed (pool T) := {| frame_in := beside; frame_ok := apart |}.
#[export] Instance framed_prod `{Framed A, Framed B} : Framed (A * B) := {|
  frame_in x := (frame_in x.1, frame_in x.2);
  frame_ok x := frame_ok x.1 ∧ frame_ok x.2
|}.
#[export] Instance framed_other A : Framed A | 100 := {| frame_in x := x; frame_ok _ := True |}.

(** What is defined in the smaller pool, [m], is [m'] beside [F]. *)
Definition framed `{Framed A} (m m' : result A) : Prop :=
  ∀ x, m = Ok x → m' = Ok (frame_in x) ∧ frame_ok x.

Lemma framed_ret `{Framed A} (x : A) : frame_ok x → framed (Ok x) (Ok (frame_in x)).
Proof. by intros Hx y [= <-]. Qed.

Lemma framed_bind `{Framed A, Framed B} (m m' : result A) (k k' : A → result B) :
  framed m m' → (∀ x, frame_ok x → framed (k x) (k' (frame_in x))) → framed (m ≫= k) (m' ≫= k').
Proof.
  intros Hm Hk y Hy. apply bind_inv_ok in Hy as (x & Hx & Hy).
  destruct (Hm x Hx) as [-> Hok]. by apply Hk.
Qed.

Lemma framed_same {A} (m : result A) : framed m m.
Proof. by intros x ->. Qed.
Lemma framed_same_2 {A B} (m : result (A * B)) : framed m m.
Proof. by intros [x y] ->. Qed.

Lemma framed_undefined `{Framed A} (m : result A) : framed UB m.
Proof. by intros x. Qed.
Lemma framed_aborted `{Framed A} (m : result A) : framed Abort m.
Proof. by intros x. Qed.

(** ** The pool *)

Lemma framed_deref p i : apart p → framed (deref p i) (deref (beside p) i).
Proof.
  intros [Hd _] b Hb. split; [|done]. unfold deref in *. simpl.
  destruct (heap p !! i) eqn:Hi; [|done]. by rewrite (lookup_union_Some_l _ _ _ _ Hi).
Qed.

Lemma framed_update p i f : apart p → framed (update p i f) (update (beside p) i f).
Proof.
  intros Ha p' Hu. pose proof Ha as (Hd & Hf & HN). unfold update in *.
  apply bind_inv_ok in Hu as (b & Hb & [= <-]). pose proof Hb as Hi. unfold deref in Hi.
  destruct (heap p !! i) as [b'|] eqn:Hp; [|done].
  destruct (framed_deref p i Ha b Hb) as [-> _]. simpl. split.
  - unfold beside. simpl. by rewrite insert_union_l.
  - split; [|done]. simpl. apply map_disjoint_insert_l_2; [|done].
    by eapply map_disjoint_Some_l.
Qed.

Lemma framed_malloc p : apart p →
  malloc (beside p) = ((malloc p).1, beside (malloc p).2) ∧ apart (malloc p).2.
Proof. done. Qed.

(** One step into both sides. *)
Ltac frame_intro :=
  intros; repeat match goal with x : _ * _ |- _ => destruct x end;
  cbn [frame_in frame_ok framed_prod framed_pool framed_other fst snd] in *;
  repeat match goal with Hc : _ ∧ _ |- _ => destruct Hc | Hc : True |- _ => clear Hc end.
Ltac frame_step :=
  match goal with
  | |- framed ?m ?m => first [apply framed_same | apply framed_same_2]
  | |- framed UB _ => apply framed_undefined
  | |- framed Abort _ => apply framed_aborted
  | |- framed _ _ => solve [eauto 2 with frame]
  | |- framed (Ok _) (Ok _) =>
      refine (framed_ret _ _); cbn [frame_ok framed_prod framed_pool framed_other fst snd];
      repeat match goal with |- _ ∧ _ => split end; solve [done]
  | |- framed (mbind _ _) (mbind _ _) => refine (framed_bind _ _ _ _ _ _); [|frame_intro]
  | |- framed (if ?b then _ else _) _ => destruct b
  | |- framed (match ?x with _ => _ end) _ => destruct x
  | |- framed (fmap _ _) (fmap _ _) => idtac
  end.
Ltac frame := frame_intro; repeat frame_step.

#[local] Hint Resolve framed_deref framed_update : frame.

(** Loops. *)
Lemma framed_add_knowing node p :
  apart p → framed (add_knowing_refcount_is_zero node p) (add_knowing_refcount_is_zero node (beside p)).
Proof. intros Ha. unfold add_knowing_refcount_is_zero. frame. Qed.

#[local] Hint Resolve framed_add_knowing : frame.

Lemma framed_add_block node p :
  apart p → framed (add_block_to_free_list node p) (add_block_to_free_list node (beside p)).
Proof. intros Ha. unfold add_block_to_free_list. frame. Qed.
#[local] Hint Resolve framed_add_block : frame.

Lemma framed_add_blocks fuel : ∀ block p,
  apart p → framed (add_blocks_to_free_list fuel block p) (add_blocks_to_free_list fuel block (beside p)).
Proof. induction fuel as [|fuel IH]; intros; simpl; frame. Qed.

#[local] Hint Resolve framed_add_blocks : frame.

Lemma framed_try_get fuel p :
  apart p → framed (default UB (try_get fuel p)) (default UB (try_get fuel (beside p))).
Proof.
  intros Ha. induction fuel as [|fuel IH]; simpl; [frame|].
  destruct (freeListHead p) as [i|]; [|simpl; frame].
  destruct (heap p !! i) as [b|] eqn:Hi; [|simpl; frame].
  rewrite (lookup_union_Some_l _ _ _ _ Hi). destruct (_ =? 0); [exact IH|]. simpl. frame.
Qed.
#[local] Hint Resolve framed_try_get : frame.

Lemma framed_create_block p :
  apart p → framed (Ok (create_block p)) (Ok (create_block (beside p))).
Proof.
  intros (Hd & Hf & HN) x [= <-]. unfold create_block. simpl. destruct (hd true (mallocs p)); [|done].
  simpl. split.
  - unfold beside. simpl. by rewrite insert_union_l.
  - split; [|done]. split; simpl; [|split; [intros i Hi; specialize (Hf i Hi); lia|done]]. apply map_disjoint_insert_l_2; [|done].
    destruct (F !! fresh p) eqn:Hp; [|done]. specialize (Hf (fresh p) ltac:(by rewrite Hp)). lia.
Qed.

#[local] Hint Resolve framed_create_block : frame.

Lemma framed_requisition canAlloc p :
  apart p → framed (requisition_block canAlloc p) (requisition_block canAlloc (beside p)).
Proof.
  intros Ha. unfold requisition_block, try_get_block_from_initial_pool.
  change (initialBlockPoolSize (beside p)) with (initialBlockPoolSize p).
  change (initialBlockPoolIndex (beside p)) with (initialBlockPoolIndex p).
  destruct (initialBlockPoolSize p <=? initialBlockPoolIndex p); [|frame].
  refine (framed_bind _ _ _ _ _ _); [by apply framed_try_get|]. frame.
Qed.
#[local] Hint Resolve framed_requisition : frame.

(** ** The loops of both producers *)

Lemma framed_fill_slots turns : ∀ nx cti xs throws i p,
  apart p → framed (fill_slots turns nx cti xs throws i p) (fill_slots turns nx cti xs throws i (beside p)).
Proof. induction turns as [|turns IH]; intros; simpl; frame. Qed.
#[local] Hint Resolve framed_fill_slots : frame.

Lemma framed_fill_blocks fuel : ∀ nx nt eb cti xs throws tb p,
  apart p → framed (fill_blocks fuel nx nt eb cti xs throws tb p) (fill_blocks fuel nx nt eb cti xs throws tb (beside p)).
Proof. induction fuel as [|fuel IH]; intros; simpl; frame. Qed.

Lemma framed_destroy_slots turns : ∀ index i p,
  apart p → framed (destroy_slots turns index i p) (destroy_slots turns index i (beside p)).
Proof. induction turns as [|turns IH]; intros; simpl; frame. Qed.
#[local] Hint Resolve framed_fill_blocks framed_destroy_slots : frame.

Lemma framed_destroy_constructed fuel : ∀ stop lb cti blk p,
  apart p → framed (destroy_constructed fuel stop lb cti blk p) (destroy_constructed fuel stop lb cti blk (beside p)).
Proof. induction fuel as [|fuel IH]; intros; simpl; frame. Qed.

Lemma framed_take_slots turns : ∀ throws index i p,
  apart p → framed (take_slots turns throws index i p) (take_slots turns throws index i (beside p)).
Proof. induction turns as [|turns IH]; intros; simpl; frame. Qed.
#[local] Hint Resolve framed_destroy_constructed framed_take_slots : frame.

(** ** [ExplicitProducer] *)

Import McExplicit.

Lemma framed_explicit_index n p r :
  apart p → framed (new_block_index n p r) (new_block_index n (beside p) r).
Proof. intros Ha. unfold new_block_index. simpl. frame. Qed.
#[local] Hint Resolve framed_explicit_index : frame.

Lemma framed_explicit_create p : apart p → framed (create p) (create (beside p)).
Proof. intros Ha. unfold create. frame. Qed.

Lemma framed_next_is_empty p r : apart p → framed (next_is_empty p r) (next_is_empty (beside p) r).
Proof. intros Ha. unfold next_is_empty. frame. Qed.

Lemma framed_ensure_index ca p r : apart p → framed (ensure_index ca p r) (ensure_index ca (beside p) r).
Proof. intros Ha. unfold ensure_index. frame. Qed.

Lemma framed_link_block nb p r : apart p → framed (link_block nb p r) (link_block nb (beside p) r).
Proof. intros Ha. unfold link_block. frame. Qed.
#[local] Hint Resolve framed_next_is_empty framed_ensure_index framed_link_block : frame.

Lemma framed_start_block ca p r : apart p → framed (start_block ca p r) (start_block ca (beside p) r).
Proof. intros Ha. unfold start_block, insert_block. frame. Qed.

Lemma framed_put_element x p r : apart p → framed (put_element x p r) (put_element x (beside p) r).
Proof. intros Ha. unfold put_element. frame. Qed.
#[local] Hint Resolve framed_start_block framed_put_element : frame.

Lemma framed_explicit_enqueue nx ca th x p r :
  apart p → framed (enqueue nx ca th x p r) (enqueue nx ca th x (beside p) r).
Proof. intros Ha. unfold enqueue. frame. Qed.

Lemma framed_explicit_dequeue th p r : apart p → framed (dequeue th p r) (dequeue th (beside p) r).
Proof. intros Ha. unfold dequeue. frame. Qed.

Import McExplicitBulk.

Lemma framed_take_ahead turns : ∀ cti first p r,
  apart p → framed (take_ahead turns cti first p r) (take_ahead turns cti first (beside p) r).
Proof. induction turns as [|turns IH]; intros; simpl; frame. Qed.

Lemma framed_bulk_index ca full o p r :
  apart p → framed (bulk_index ca full o p r) (bulk_index ca full o (beside p) r).
Proof. intros Ha. unfold bulk_index. frame. Qed.
#[local] Hint Resolve framed_take_ahead framed_bulk_index : frame.

Lemma framed_allocate turns : ∀ ca o cti first p r,
  apart p → framed (allocate turns ca o cti first p r) (allocate turns ca o cti first (beside p) r).
Proof. induction turns as [|turns IH]; intros; simpl; frame. Qed.

Lemma framed_reset_blocks fuel : ∀ last b p,
  apart p → framed (reset_blocks fuel last b p) (reset_blocks fuel last b (beside p)).
Proof. induction fuel as [|fuel IH]; intros; simpl; frame. Qed.
#[local] Hint Resolve framed_allocate framed_reset_blocks : frame.

Lemma framed_explicit_enqueue_bulk nx ca xs throws p r :
  apart p → framed (enqueue_bulk nx ca xs throws p r) (enqueue_bulk nx ca xs throws (beside p) r).
Proof. intros Ha. unfold enqueue_bulk. cbv zeta. frame. Qed.

Lemma framed_explicit_empty_slots i first stop p :
  apart p → framed (empty_slots i first stop p) (empty_slots i first stop (beside p)).
Proof. intros Ha. unfold empty_slots. frame. Qed.
#[local] Hint Resolve framed_explicit_empty_slots : frame.

Lemma framed_explicit_destroy_rest fuel : ∀ h first cnt start index ii p,
  apart p → framed (destroy_rest fuel h first cnt start index ii p)
                   (destroy_rest fuel h first cnt start index ii (beside p)).
Proof. induction fuel as [|fuel IH]; intros; simpl; frame. Qed.
#[local] Hint Resolve framed_explicit_destroy_rest : frame.

Lemma framed_explicit_take_blocks fuel : ∀ throws h first cnt index ii p,
  apart p → framed (take_blocks fuel throws h first cnt index ii p)
                   (take_blocks fuel throws h first cnt index ii (beside p)).
Proof. induction fuel as [|fuel IH]; intros; [simpl; frame|]. cbn [take_blocks]. frame. Qed.
#[local] Hint Resolve framed_explicit_take_blocks : frame.

Lemma framed_explicit_dequeue_bulk throws max p r :
  apart p → framed (dequeue_bulk throws max p r) (dequeue_bulk throws max (beside p) r).
Proof. intros Ha. unfold dequeue_bulk. cbv zeta. frame. Qed.

(** ** [ImplicitProducer] *)

Import McImplicitIndex.

Lemma framed_implicit_index p r : apart p → framed (new_block_index p r) (new_block_index (beside p) r).
Proof. intros Ha. unfold new_block_index. cbv zeta. simpl. frame. Qed.
#[local] Hint Resolve framed_implicit_index : frame.

Lemma framed_insert_entry ca start p r :
  apart p → framed (insert_block_index_entry ca start p r) (insert_block_index_entry ca start (beside p) r).
Proof. intros Ha. unfold insert_block_index_entry. cbv zeta. frame. Qed.
#[local] Hint Resolve framed_insert_entry : frame.

Import McImplicit.

Lemma framed_implicit_create p : apart p → framed (create p) (create (beside p)).
Proof. intros Ha. unfold create. frame. Qed.

Lemma framed_construct_in b index x p :
  apart p → framed (construct_in b index x p) (construct_in b index x (beside p)).
Proof. intros Ha. unfold construct_in. frame. Qed.
#[local] Hint Resolve framed_construct_in : frame.

Lemma framed_implicit_enqueue nx ca th x p r :
  apart p → framed (enqueue nx ca th x p r) (enqueue nx ca th x (beside p) r).
Proof. intros Ha. unfold enqueue, open_block, put_element. frame. Qed.

Lemma framed_implicit_dequeue th p r : apart p → framed (dequeue th p r) (dequeue th (beside p) r).
Proof. intros Ha. unfold dequeue. frame. Qed.

Import McImplicitBulk.

Lemma framed_chain_block linked nb p r :
  apart p → framed (chain_block linked nb p r) (chain_block linked nb (beside p) r).
Proof. intros Ha. unfold chain_block. frame. Qed.
#[local] Hint Resolve framed_chain_block : frame.

Lemma framed_reserve_blocks turns : ∀ ca linked cti first eb p r,
  apart p → framed (reserve_blocks turns ca linked cti first eb p r)
                   (reserve_blocks turns ca linked cti first eb (beside p) r).
Proof. induction turns as [|turns IH]; intros; simpl; frame. Qed.

Lemma framed_release_entries fuel : ∀ cti blk p r,
  apart p → framed (release_entries fuel cti blk p r) (release_entries fuel cti blk (beside p) r).
Proof. induction fuel as [|fuel IH]; intros; simpl; frame. Qed.
#[local] Hint Resolve framed_reserve_blocks framed_release_entries : frame.

Lemma framed_revert fuel start first sb p r :
  apart p → framed (revert fuel start first sb p r) (revert fuel start first sb (beside p) r).
Proof. intros Ha. unfold revert. frame. Qed.
#[local] Hint Resolve framed_revert : frame.

Lemma framed_implicit_enqueue_bulk nx ca xs throws p r :
  apart p → framed (enqueue_bulk nx ca xs throws p r) (enqueue_bulk nx ca xs throws (beside p) r).
Proof. intros Ha. unfold enqueue_bulk. cbv zeta. frame. Qed.

Lemma framed_implicit_empty_slots id i first stop p r :
  apart p → framed (empty_slots id i first stop p r) (empty_slots id i first stop (beside p) r).
Proof. intros Ha. unfold empty_slots. frame. Qed.
#[local] Hint Resolve framed_implicit_empty_slots : frame.

Lemma framed_implicit_destroy_rest fuel : ∀ h first cnt start index ii p r,
  apart p → framed (destroy_rest fuel h first cnt start index ii p r)
                   (destroy_rest fuel h first cnt start index ii (beside p) r).
Proof. induction fuel as [|fuel IH]; intros; simpl; frame. Qed.
#[local] Hint Resolve framed_implicit_destroy_rest : frame.

Lemma framed_implicit_take_blocks fuel : ∀ throws h first cnt index ii p r,
  apart p → framed (take_blocks fuel throws h first cnt index ii p r)
                   (take_blocks fuel throws h first cnt index ii (beside p) r).
Proof. induction fuel as [|fuel IH]; intros; [simpl; frame|]. cbn [take_blocks]. frame. Qed.
#[local] Hint Resolve framed_implicit_take_blocks : frame.

Lemma framed_implicit_dequeue_bulk throws max p r :
  apart p → framed (dequeue_bulk throws max p r) (dequeue_bulk throws max (beside p) r).
Proof. intros Ha. unfold dequeue_bulk. cbv zeta. frame. Qed.

(** ** The destructors *)

(** A loop that may run out of turns goes on after [m] when [m] is defined. *)
Lemma framed_then `{Framed A, Framed B} (m m' : result A) (k k' : A → option (result B)) (t t' : exn → option (result B)) a a' u u' :
  framed m m' → (∀ x, frame_ok x → framed (default UB (k x)) (default UB (k' (frame_in x)))) →
  (∀ e x, default UB (t e) ≠ Ok x) → (∀ x, default UB a ≠ Ok x) → (∀ x, default UB u ≠ Ok x) →
  framed (default UB (match m with Ok x => k x | Throw e => t e | Abort => a | UB => u end))
         (default UB (match m' with Ok x => k' x | Throw e => t' e | Abort => a' | UB => u' end)).
Proof.
  intros Hm Hk Ht Ha Hu y Hy. destruct m as [x|e| |]; [|by destruct (Ht e y)|by destruct (Ha y)|by destruct (Hu y)].
  destruct (Hm x eq_refl) as [-> Hok]. by apply Hk.
Qed.

Lemma framed_destroy_block i p : apart p → framed (destroy_block i p) (destroy_block i (beside p)).
Proof.
  intros Ha p' Hp. unfold destroy_block in *. apply bind_inv_ok in Hp as (b & Hb & Hp). destruct (is_raw b) eqn:Hraw; [injection Hp as <-|done].
  destruct (framed_deref p i Ha b Hb) as [-> _]. destruct Ha as (Hd & Hf & HN). rewrite bind_ok. change (is_raw (frame_in b)) with (is_raw b). rewrite Hraw. simpl.
  unfold deref in Hb. destruct (heap p !! i) as [b'|] eqn:Hi; [|done]. split.
  - unfold beside. simpl. do 2 f_equal. rewrite delete_union, (delete_id F i); [done|].
    by eapply map_disjoint_Some_l.
  - split; [|done]. simpl. by apply map_disjoint_delete_l.
Qed.
#[local] Hint Resolve framed_destroy_block : frame.

Import McExplicitDestructor.

Lemma framed_destruct_block r half tb i p :
  apart p → framed (destruct_block r half tb i p) (destruct_block r half tb i (beside p)).
Proof. intros Ha. unfold destruct_block. cbv zeta. frame. Qed.

Lemma framed_destruct_ring fuel : ∀ r half tb at_ p,
  apart p → framed (default UB (destruct_ring fuel r half tb at_ p)) (default UB (destruct_ring fuel r half tb at_ (beside p))).
Proof.
  induction fuel as [|fuel IH]; intros r half tb at_ p Ha; [simpl; frame|]. cbn [destruct_ring].
  refine (framed_then _ _ _ _ _ _ _ _ _ _ _ _ _ _ _); [frame| |done..]. intros i _. cbn [frame_in framed_other].
  refine (framed_then _ _ _ _ _ _ _ _ _ _ _ _ _ _ _); [by apply framed_destruct_block| |done..].
  intros p1 Ha1. destruct (decide _); [simpl; frame|]. by apply IH.
Qed.

Lemma framed_release_ring fuel : ∀ tb i p,
  apart p → framed (default UB (release_ring fuel tb i p)) (default UB (release_ring fuel tb i (beside p))).
Proof.
  induction fuel as [|fuel IH]; intros tb i p Ha; [simpl; frame|]. cbn [release_ring].
  refine (framed_then _ _ _ _ _ _ _ _ _ _ _ _ _ _ _); [frame| |done..]. intros b _. cbn [frame_in framed_other].
  destruct (next b) as [nx|]; [|simpl; frame].
  refine (framed_then _ _ _ _ _ _ _ _ _ _ _ _ _ _ _); [frame| |done..].
  intros p1 Ha1. destruct (decide _); [simpl; frame|]. by apply IH.
Qed.

Lemma framed_explicit_destroy p r :
  apart p → framed (default UB (destroy_producer p r)) (default UB (destroy_producer (beside p) r)).
Proof.
  intros Ha. unfold destroy_producer. destruct (McExplicit.tailBlock r) as [tb|]; [|simpl; frame].
  destruct (half_dequeued r) as [[half|e| |]|]; cbn [mbind option_bind]; [|simpl; frame..].
  change (size_heap (beside p)) with (size_heap p).
  pose proof (framed_destruct_ring (S (size_heap p)) r half tb tb p Ha) as Hd. revert Hd.
  destruct (destruct_ring _ r half tb tb p) as [[p1|e| |]|]; cbn [mbind option_bind default]; intros Hd y Hy; try done.
  destruct (Hd p1 eq_refl) as [Hd' Ha1].
  destruct (destruct_ring _ r half tb tb (beside p)) as [p1'|]; [|done]. change (p1' = Ok (beside p1)) in Hd'. subst p1'.
  by apply framed_release_ring.
Qed.

Import McImplicit.

Lemma framed_next_block index o p r : apart p → framed (next_block index o p r) (next_block index o (beside p) r).
Proof. intros Ha. unfold next_block. frame. Qed.
#[local] Hint Resolve framed_next_block : frame.

Lemma framed_destroy_elements fuel : ∀ index o p r,
  apart p → framed (default UB (destroy_elements fuel index o p r)) (default UB (destroy_elements fuel index o (beside p) r)).
Proof.
  induction fuel as [|fuel IH]; intros index o p r Ha; [simpl; frame|]. cbn [destroy_elements].
  destruct (_ =? _); [simpl; frame|].
  refine (framed_then _ _ _ _ _ _ _ _ _ _ _ _ _ _ _); [frame| |done..].
  intros [p1 o1] [Ha1 _]. by apply IH.
Qed.

Lemma framed_implicit_destroy p r :
  apart p → framed (default UB (destroy_producer p r)) (default UB (destroy_producer (beside p) r)).
Proof.
  intros Ha. unfold destroy_producer. destruct (_ || _); [|simpl; frame].
  pose proof (framed_destroy_elements (S (Z.to_nat (u64 (tailIndex r - headIndex r)))) (headIndex r) None p r Ha) as Hd.
  revert Hd. destruct (destroy_elements _ _ _ p r) as [[p1|e| |]|]; cbn [mbind option_bind]; intros Hd y Hy; try done.
  destruct (Hd p1 eq_refl) as [Hd' Ha1].
  destruct (destroy_elements _ _ _ (beside p) r) as [p1'|]; [|done]. change (p1' = Ok (beside p1)) in Hd'. subst p1'.
  revert y Hy. match goal with |- ∀ y, ?a = _ → ?b = _ ∧ _ => change (framed a b) end. rewrite !bind_ok. simpl. frame.
Qed.

(** ** For clients *)

(** An operation on the pool with two more results, beside [F]. *)
Definition frames {R Q} (f : pool T → result (pool T * R * Q)) : Prop :=
  ∀ p p1 r q, apart p → f p = Ok (p1, r, q) → f (beside p) = Ok (beside p1, r, q) ∧ apart p1.

Lemma frames_of {R Q} (f : pool T → result (pool T * R * Q)) :
  (∀ p, apart p → framed (f p) (f (beside p))) → frames f.
Proof. intros Hf p p1 r q Ha Hp. destruct (Hf p Ha _ Hp) as [-> [[? _] _]]. done. Qed.

(** The same with one more result. *)
Lemma frames_create {R} (f : pool T → result (pool T * R)) p p1 r :
  (∀ p, apart p → framed (f p) (f (beside p))) → apart p → f p = Ok (p1, r) →
  f (beside p) = Ok (beside p1, r) ∧ apart p1.
Proof. intros Hf Ha Hp. destruct (Hf p Ha _ Hp) as [-> [? _]]. done. Qed.
End frame.

(** ** Taking a pool apart *)

Section parts.
Context `{Traits} {T : Type}.

(** The pool without the blocks of [B], and these blocks. *)
Definition without (B : gset nat) (p : pool T) : pool T :=
  with_heap p (filter (λ ib, ib.1 ∉ B) (heap p)).
Definition blocks_of (B : gset nat) (p : pool T) : gmap nat (block T) :=
  filter (λ ib, ib.1 ∈ B) (heap p).

Lemma without_lookup B p i : heap (without B p) !! i = if decide (i ∈ B) then None else heap p !! i.
Proof.
  simpl. case_decide as Hi.
  - apply map_lookup_filter_None_2. right. by intros x _ [].
  - destruct (heap p !! i) as [b|] eqn:Hp; [by apply map_lookup_filter_Some_2|].
    apply map_lookup_filter_None_2. by left.
Qed.

Lemma blocks_of_lookup B p i : blocks_of B p !! i = if decide (i ∈ B) then heap p !! i else None.
Proof.
  unfold blocks_of. case_decide as Hi.
  - destruct (heap p !! i) as [b|] eqn:Hp; [by apply map_lookup_filter_Some_2|].
    apply map_lookup_filter_None_2. by left.
  - apply map_lookup_filter_None_2. by right.
Qed.

Lemma beside_lookup F (p : pool T) i : heap (beside F p) !! i = heap p !! i ∪ F !! i.
Proof. apply lookup_union. Qed.

Lemma reassemble B p : beside (blocks_of B p) (without B p) = p.
Proof.
  unfold beside. destruct p as [h ? ? ? ? ?]. unfold with_heap. simpl. f_equal. apply map_eq. intros i.
  rewrite lookup_union. change (filter _ h !! i) with (heap (without B (Pool h 0 0 0 None [])) !! i).
  rewrite without_lookup, blocks_of_lookup. simpl. case_decide; [by rewrite (left_id_L None (∪))|].
  by rewrite (right_id_L None (∪)).
Qed.

Lemma without_apart B (p : pool T) owned :
  pool_ok p owned → apart (blocks_of B p) (initialBlockPoolSize p) (without B p).
Proof.
  intros (l & P). split; [|split; [|done]].
  - apply map_disjoint_spec. intros i b b'. rewrite without_lookup, blocks_of_lookup. by case_decide.
  - intros i [b Hb]. rewrite blocks_of_lookup in Hb. case_decide; [|done]. by eapply po_fresh in Hb.
Qed.

(** What is left when the other producers and their blocks are taken away is a pool. *)
Lemma without_ok (p : pool T) A B : pool_ok p (A ∪ B) → A ## B → pool_ok (without B p) A.
Proof.
  intros (l & [P1 P2 P3 P4 P5 P6 P7 P8]) Hd. exists l. constructor; try done.
  - intros i b. rewrite without_lookup. case_decide; [done|]. apply P1.
  - intros i Hi. destruct (P3 i Hi) as (Ho & Hl & b & Hb & Hr). split_and!; [set_solver|done|].
    exists b. rewrite without_lookup, decide_False by set_solver. done.
  - eapply chain_frame; [|exact P4]. intros i Hi. specialize (P6 i Hi).
    rewrite without_lookup, decide_False by set_solver. done.
  - intros i Hi. specialize (P6 i Hi). set_solver.
  - intros i Hi. rewrite without_lookup, decide_False by set_solver. apply P7. set_solver.
  - intros i Hi. rewrite without_lookup in Hi. case_decide as HB; [by apply is_Some_None in Hi|].
    specialize (P8 i Hi). set_solver.
Qed.

(** Putting the others back beside what an operation left. *)
Lemma beside_ok F N (p : pool T) A B :
  pool_ok p A → apart F N p → (∀ i, i ∈ B ↔ is_Some (F !! i)) → (∀ i b, F !! i = Some b → freeListRefs b = 0) →
  pool_ok (beside F p) (A ∪ B) ∧ A ## B.
Proof.
  intros (l & [P1 P2 P3 P4 P5 P6 P7 P8]) (Hd & Hf & HN) HB Hr.
  assert (Hp : ∀ i b, heap p !! i = Some b → heap (beside F p) !! i = Some b).
  { intros i b Hb. by apply lookup_union_Some_l. }
  assert (Hno : ∀ i, is_Some (heap p !! i) → i ∉ B).
  { intros i [b Hb] Hi. apply HB in Hi as [b' Hb']. by apply (map_disjoint_spec (heap p) F) with (i := i) (x := b) (y := b') in Hd. }
  assert (Hl : ∀ i, i ∈ l → is_Some (heap p !! i)).
  { intros i Hi. clear - P4 Hi. revert P4. generalize (freeListHead p). induction l as [|j l IH]; intros o Hc; [by apply elem_of_nil in Hi|].
    destruct Hc as (_ & b & Hb & _ & _ & Hc). apply elem_of_cons in Hi as [->|Hi]; [by eexists|by eapply IH]. }
  split; [|intros i Hi; destruct (P7 i Hi) as (b & Hb & _); apply Hno; by eexists].
  exists l. constructor; try done.
  - intros i b. rewrite beside_lookup. destruct (heap p !! i) eqn:Hi; [intros _; by eapply P1|].
    rewrite (left_id_L None (∪)). intros Hi'. apply Hf. by eexists.
  - intros i Hi. destruct (P3 i Hi) as (Ho & Hl' & b & Hb & Hr'). split_and!; [|done|exists b; by split; [apply Hp|]].
    assert (i ∉ B) by (apply Hno; by eexists). set_solver.
  - eapply chain_frame; [|exact P4]. intros i Hi. destruct (Hl i Hi) as [b Hb]. by rewrite Hb, (Hp _ _ Hb).
  - intros i Hi. specialize (P6 i Hi). specialize (Hno i (Hl i Hi)). set_solver.
  - intros i [Hi|Hi]%elem_of_union.
    + destruct (P7 i Hi) as (b & Hb & ?). exists b. split; [by apply Hp|done].
    + destruct (proj1 (HB i) Hi) as [b Hb]. exists b. split; [|by eapply Hr]. by apply lookup_union_Some_r.
  - intros i. rewrite beside_lookup. destruct (heap p !! i) eqn:Hi.
    + intros _. specialize (P8 i ltac:(by rewrite Hi)). set_solver.
    + rewrite (left_id_L None (∪)). intros Hs%HB. set_solver.
Qed.

(** An operation on the part of the pool with the blocks [A] leaves [p1] and [A']. *)
Lemma local_change (p : pool T) A B p1 A' :
  pool_ok p (A ∪ B) → apart (blocks_of B p) (initialBlockPoolSize p) p1 → pool_ok p1 A' →
  let p' := beside (blocks_of B p) p1 in
  pool_ok p' (A' ∪ B) ∧ A' ## B ∧ initialBlockPoolSize p' = initialBlockPoolSize p ∧ mallocs p' = mallocs p1 ∧
  (∀ i, i ∈ B → heap p' !! i = heap p !! i) ∧ (∀ i, i ∈ A' → heap p' !! i = heap p1 !! i).
Proof.
  intros (l & P) Ha P1 p'. destruct (beside_ok (blocks_of B p) _ p1 A' B P1 Ha) as [P2 Hd].
  - intros i. rewrite blocks_of_lookup. case_decide as Hi; [|split; [done|by intros ?%is_Some_None]].
    split; [|done]. intros _. destruct (po_owned _ _ _ P i) as (b & Hb & _); [set_solver|by eexists].
  - intros i b. rewrite blocks_of_lookup. case_decide as Hi; [|done]. intros Hb.
    destruct (po_owned _ _ _ P i) as (b' & Hb' & ?); [set_solver|]. congruence.
  - destruct Ha as (Hdis & _ & HN). split_and!; try done.
    + intros i Hi. unfold p'. rewrite beside_lookup, blocks_of_lookup, decide_True by done.
      destruct (heap p1 !! i) as [b1|] eqn:Hi1; [|by rewrite (left_id_L None (∪))].
      destruct (po_owned _ _ _ P i) as (b & Hb & _); [set_solver|].
      apply (map_disjoint_spec (heap p1) (blocks_of B p)) with (i := i) (x := b1) (y := b) in Hdis; [done|done|].
      by rewrite blocks_of_lookup, decide_True.
    + intros i Hi. destruct P1 as (l1 & P1). destruct (po_owned _ _ _ P1 i Hi) as (b & Hb & _). rewrite Hb.
      by apply lookup_union_Some_l.
Qed.
End parts.
End McFrame.
