(* ===== verification/McSubQueue.v ===== *)
(** * What [ConcurrentQueue] expects of its producers

    concurrentqueue.h: a queue keeps a list of producers, explicit and implicit ones,
    that share a block pool, the environment [E].  The methods of the queue are written,
    and proved, against this class; ProducerBase is its instance. *)
From S2P Require Import Prelude McBulk.
Local Open Scope Z_scope.

Module McSubQueue.
Export McBulk.

(** Taking one element: it was stored, there was none, or the assignment threw. *)
Inductive dequeued (T : Type) := Got (x : T) | Nothing | Lost.
Arguments Got {T} _.
Arguments Nothing {T}.
Arguments Lost {T}.

(** Adding answers, or a constructor threw. *)
Inductive enqueued := Returned (b : bool) | Threw.

Class SubQueue (E P T : Type) : Type := {
  isExplicit : P → bool;
  sub_create : bool → E → result (E * option P);
  sub_enqueue : bool → bool → T → E → P → result (E * P * enqueued);
  sub_enqueue_bulk : bool → list T → list bool → E → P → result (E * P * enqueued);
  sub_dequeue : bool → E → P → result (E * P * dequeued T);
  sub_dequeue_bulk : list bool → Z → E → P → result (E * P * bulk_dequeued (T := T));
  sub_size_approx : P → Z
}.

(** The producers [ps] hold the elements [qs] in [e]; [n] bounds the number of elements
    added so far.  With [ample e ps] no allocation fails from now on.  An explicit
    producer that refuses a bulk promises nothing afterwards. *)
Class SubQueueLaws (E P T : Type) `{!SubQueue E P T} : Type := {
  holds : E → list P → list (list T) → nat → Prop;
  fits_in : nat → Prop;
  ample : E → list P → Prop;

  holds_length e ps qs n : holds e ps qs n → length qs = length ps;
  fits_in_less m n : (m ≤ n)%nat → fits_in n → fits_in m;

  create_law x e ps qs n :
    holds e ps qs n → ∃ e' o, sub_create x e = Ok (e', o) ∧
      match o with
      | Some p => isExplicit p = x ∧ holds e' (ps ++ [p]) (qs ++ [[]]) n
      | None => holds e' ps qs n
      end ∧
      (ample e ps → ∃ p, o = Some p ∧ ample e' (ps ++ [p]));

  enqueue_law canAlloc throws x e ps qs n k p xs :
    holds e ps qs n → ps !! k = Some p → qs !! k = Some xs → fits_in (n + 1) →
    (isExplicit p = true → throws = false) →
    ∃ e' p' r, sub_enqueue canAlloc throws x e p = Ok (e', p', r) ∧ isExplicit p' = isExplicit p ∧
      holds e' (<[k := p']> ps) (<[k := match r with Returned true => xs ++ [x] | _ => xs end]> qs) (n + 1) ∧
      (r = Threw → throws = true) ∧
      (canAlloc = true → ample e ps → r ≠ Returned false ∧ ample e' (<[k := p']> ps));

  enqueue_bulk_law canAlloc ys throws e ps qs n k p xs :
    holds e ps qs n → ps !! k = Some p → qs !! k = Some xs → fits_in (n + length ys) →
    (isExplicit p = true → throws = []) →
    ∃ e' p' r, sub_enqueue_bulk canAlloc ys throws e p = Ok (e', p', r) ∧ isExplicit p' = isExplicit p ∧
      ((isExplicit p = true → r = Returned true) →
       holds e' (<[k := p']> ps) (<[k := match r with Returned true => xs ++ ys | _ => xs end]> qs) (n + length ys)) ∧
      (r = Threw → throws ≠ []) ∧
      (canAlloc = true → ample e ps → r ≠ Returned false ∧ ample e' (<[k := p']> ps));

  dequeue_law throws e ps qs n k p xs :
    holds e ps qs n → ps !! k = Some p → qs !! k = Some xs →
    ∃ e' p', sub_dequeue throws e p =
        Ok (e', p', match xs with [] => Nothing | x :: _ => if throws : bool then Lost else Got x end) ∧
      isExplicit p' = isExplicit p ∧ holds e' (<[k := p']> ps) (<[k := tail xs]> qs) n ∧
      (ample e ps → ample e' (<[k := p']> ps));

  dequeue_bulk_law throws (max : nat) e ps qs n k p xs :
    holds e ps qs n → ps !! k = Some p → qs !! k = Some xs →
    ∃ e' p' (m : nat), sub_dequeue_bulk throws max e p =
        Ok (e', p', let taken := take max xs in
                    if decide (m < length taken)%nat then LostMany (take m taken) else GotMany taken) ∧
      (throws = [] → m = length (take max xs)) ∧
      isExplicit p' = isExplicit p ∧ holds e' (<[k := p']> ps) (<[k := drop max xs]> qs) n ∧
      (ample e ps → ample e' (<[k := p']> ps));

  size_law e ps qs n k p xs :
    holds e ps qs n → ps !! k = Some p → qs !! k = Some xs → sub_size_approx p = length xs
}.
End McSubQueue.
