(* ===== verification/McProducerBase.v ===== *)
(** * [ConcurrentQueue::ProducerBase]: producers that share a pool

    concurrentqueue.h: a producer is explicit or implicit; [dequeue] and [dequeue_bulk]
    of the base class go to the one or the other.  Several producers draw their blocks
    from one pool, and each keeps to its own: by the frame rule what was proved of a
    single producer holds of each of them. *)
From S2P Require Import Prelude McDetails McBlock McPool McSlots McBulk McExplicit.
From S2P Require Import McExplicitBulk McImplicitIndex McImplicit McImplicitBulk McFrame McSubQueue.
Local Open Scope Z_scope.

Module McProducerBase.
Import McBlock McPool McSlots McFrame McSubQueue.

(** Whether constructing an element may throw, [MOODYCAMEL_NOEXCEPT_CTOR]. *)
Class Element : Type := noexcept_ctor : bool.

Section base.
Context `{Traits} `{Element} {T : Type}.

Inductive sub := Explicit (r : McExplicit.producer) | Implicit (r : McImplicitIndex.producer).

(** [isExplicit ? create<ExplicitProducer>(this) : create<ImplicitProducer>(this)] *)
Definition create (explicit : bool) (p : pool T) : result (pool T * option sub) :=
  let '(ok, p) := malloc p in
  if negb ok then Ok (p, None)
  else if explicit
  then '(p, r) ← McExplicit.create p; Ok (p, Some (Explicit r))
  else '(p, r) ← McImplicit.create p; Ok (p, Some (Implicit r)).

Definition enqueue (canAlloc throws : bool) (x : T) (p : pool T) (s : sub) :
    result (pool T * sub * enqueued) :=
  match s with
  | Explicit r =>
      '(p, r, e) ← McExplicit.enqueue noexcept_ctor canAlloc throws x p r;
      Ok (p, Explicit r, match e with McExplicit.Returned b => Returned b | McExplicit.Threw => Threw end)
  | Implicit r =>
      '(p, r, e) ← McImplicit.enqueue noexcept_ctor canAlloc throws x p r;
      Ok (p, Implicit r, match e with McImplicit.Returned b => Returned b | McImplicit.Threw => Threw end)
  end.

Definition enqueue_bulk (canAlloc : bool) (xs : list T) (throws : list bool) (p : pool T) (s : sub) :
    result (pool T * sub * enqueued) :=
  match s with
  | Explicit r =>
      '(p, r, e) ← McExplicitBulk.enqueue_bulk noexcept_ctor canAlloc xs throws p r;
      Ok (p, Explicit r, match e with McExplicit.Returned b => Returned b | McExplicit.Threw => Threw end)
  | Implicit r =>
      '(p, r, e) ← McImplicitBulk.enqueue_bulk noexcept_ctor canAlloc xs throws p r;
      Ok (p, Implicit r, match e with McImplicit.Returned b => Returned b | McImplicit.Threw => Threw end)
  end.

(** [ProducerBase::dequeue] *)
Definition dequeue (throws : bool) (p : pool T) (s : sub) : result (pool T * sub * dequeued T) :=
  match s with
  | Explicit r =>
      '(p, r, d) ← McExplicit.dequeue throws p r;
      Ok (p, Explicit r, match d with
                         | McExplicit.Got x => Got x
                         | McExplicit.Nothing => Nothing
                         | McExplicit.Lost => Lost
                         end)
  | Implicit r =>
      '(p, r, d) ← McImplicit.dequeue throws p r;
      Ok (p, Implicit r, match d with
                         | McImplicit.Got x => Got x
                         | McImplicit.Nothing => Nothing
                         | McImplicit.Lost => Lost
                         end)
  end.

(** [ProducerBase::dequeue_bulk] *)
Definition dequeue_bulk (throws : list bool) (max : Z) (p : pool T) (s : sub) :
    result (pool T * sub * bulk_dequeued) :=
  match s with
  | Explicit r => '(p, r, d) ← McExplicitBulk.dequeue_bulk throws max p r; Ok (p, Explicit r, d)
  | Implicit r => '(p, r, d) ← McImplicitBulk.dequeue_bulk throws max p r; Ok (p, Implicit r, d)
  end.

(** [ProducerBase::size_approx] *)
Definition size_approx (s : sub) : Z :=
  match s with
  | Explicit r => McExplicit.size_approx r
  | Implicit r => McImplicit.size_approx r
  end.

#[global] Instance producer_base : SubQueue (pool T) sub T := {|
  isExplicit s := match s with Explicit _ => true | Implicit _ => false end;
  sub_create := create;
  sub_enqueue := enqueue;
  sub_enqueue_bulk := enqueue_bulk;
  sub_dequeue := dequeue;
  sub_dequeue_bulk := dequeue_bulk;
  sub_size_approx := size_approx
|}.

(** ** Operations in a part of the pool *)

Ltac framed_by L :=
  let Hr := fresh in
  match goal with
  | Ha : apart _ _ _ |- _ =>
      intros (([? ?] & ?) & Hr & [= <- <- <-])%bind_inv_ok;
      destruct (frames_of _ _ _ L _ _ _ _ Ha Hr) as [-> ?]
  end; done.

Lemma enqueue_frames F N canAlloc throws x s : frames F N (λ p, enqueue canAlloc throws x p s).
Proof.
  intros p p1 s1 e Ha. destruct s as [r|r]; simpl.
  - framed_by (λ p, framed_explicit_enqueue F N noexcept_ctor canAlloc throws x p r).
  - framed_by (λ p, framed_implicit_enqueue F N noexcept_ctor canAlloc throws x p r).
Qed.

Lemma enqueue_bulk_frames F N canAlloc xs throws s : frames F N (λ p, enqueue_bulk canAlloc xs throws p s).
Proof.
  intros p p1 s1 e Ha. destruct s as [r|r]; simpl.
  - framed_by (λ p, framed_explicit_enqueue_bulk F N noexcept_ctor canAlloc xs throws p r).
  - framed_by (λ p, framed_implicit_enqueue_bulk F N noexcept_ctor canAlloc xs throws p r).
Qed.

Lemma dequeue_frames F N throws s : frames F N (λ p, dequeue throws p s).
Proof.
  intros p p1 s1 e Ha. destruct s as [r|r]; simpl.
  - framed_by (λ p, framed_explicit_dequeue F N throws p r).
  - framed_by (λ p, framed_implicit_dequeue F N throws p r).
Qed.

Lemma dequeue_bulk_frames F N throws max s : frames F N (λ p, dequeue_bulk throws max p s).
Proof.
  intros p p1 s1 e Ha. destruct s as [r|r]; simpl.
  - framed_by (λ p, framed_explicit_dequeue_bulk F N throws max p r).
  - framed_by (λ p, framed_implicit_dequeue_bulk F N throws max p r).
Qed.

Lemma create_frames F N explicit p p1 o :
  apart F N p → create explicit p = Ok (p1, o) → create explicit (beside F p) = Ok (beside F p1, o) ∧ apart F N p1.
Proof.
  intros Ha. assert (Ha' : apart F N (malloc p).2) by exact Ha. unfold create.
  change (malloc (beside F p)) with ((malloc p).1, beside F (malloc p).2).
  rewrite (surjective_pairing (malloc p)). destruct (malloc p) as [[] p']; simpl fst in *; simpl snd in *; cbn [negb];
    [|by intros [= <- <-]].
  destruct explicit; intros ([p2 r] & Hr & [= <- <-])%bind_inv_ok.
  - destruct (frames_create F N _ _ _ _ (λ p, framed_explicit_create F N p) Ha' Hr) as [-> ?]. done.
  - destruct (frames_create F N _ _ _ _ (λ p, framed_implicit_create F N p) Ha' Hr) as [-> ?]. done.
Qed.

(** ** Several producers *)

Context `{!TraitsOk}.

(** A producer with its blocks and its elements. *)
Record cell := Cell { c_sub : sub; c_ring : list nat; c_items : list T }.

Definition ring_set (c : cell) : gset nat := list_to_set (c_ring c).
Definition blocks (cs : list cell) : gset nat := list_to_set (concat (c_ring <$> cs)).

Definition sub_ok (p : pool T) (owned : gset nat) (c : cell) : Prop :=
  match c_sub c with
  | Explicit r => ∃ A t h, McExplicit.repr p r owned (c_ring c) A t h (c_items c)
  | Implicit r => ∃ A t h, McImplicit.repr p r (owned ∖ ring_set c) (c_ring c) A t h (c_items c)
  end.

Record together (p : pool T) (cs : list cell) (n : nat) : Prop := {
  tg_pool : pool_ok p (blocks cs);
  tg_nodup : NoDup (concat (c_ring <$> cs));
  tg_subs k c : cs !! k = Some c → sub_ok p (blocks cs) c ∧ (length (c_ring c) ≤ n)%nat;
  tg_size : 0 <= initialBlockPoolSize p <= 2 ^ 31
}.

(** A producer only depends on its own blocks. *)
Lemma sub_ok_frame p p' owned owned' c :
  sub_ok p owned c → pool_ok p' owned' → ring_set c ⊆ owned' →
  (∀ i, i ∈ c_ring c → heap p' !! i = heap p !! i) → sub_ok p' owned' c.
Proof.
  unfold sub_ok, ring_set. intros Hs Hp Hsub Hf. destruct c as [[r|r] ring xs]; simpl in *.
  - destruct Hs as (A & t & h & [[I1 I2 I3 I4 I5 I6 I7 I8 I9 I10 I11 I12] X1 X2 X3 X4]). exists A, t, h.
    constructor; try done. constructor; try done; [set_solver|]. intros k i Hi.
    destruct (I12 k i Hi) as (b & Hb & ?). exists b. rewrite Hf; [done|]. by eapply list_elem_of_lookup_2.
  - destruct Hs as (A & t & h & [I X1 X2]). exists A, t, h. constructor; try done.
    eapply McImplicit.blocks_pool; [exact I| |set_solver|done].
    by rewrite difference_union_L, (union_comm_L owned'), subseteq_union_1_L.
Qed.

Lemma sub_ok_inv p c : sub_ok p (ring_set c) c → pool_ok p (ring_set c) ∧ NoDup (c_ring c).
Proof.
  unfold sub_ok, ring_set. destruct c as [[r|r] ring xs]; simpl; intros (A & t & h & R).
  - destruct (McExplicit.rp_blocks _ _ _ _ _ _ _ _ R). done.
  - destruct (McImplicit.rp_blocks _ _ _ _ _ _ _ _ R). split; [|done].
    by rewrite difference_union_L, (union_idemp_L) in bo_pool.
Qed.

Lemma rings_split cs k c :
  cs !! k = Some c → concat (c_ring <$> cs) ≡ₚ c_ring c ++ concat (c_ring <$> delete k cs).
Proof. intros Hk. rewrite (delete_Permutation _ _ _ Hk) at 1. done. Qed.

Lemma blocks_split cs k c : cs !! k = Some c → blocks cs = ring_set c ∪ blocks (delete k cs).
Proof.
  intros Hk. unfold blocks, ring_set. rewrite <- list_to_set_app_L. apply list_to_set_perm_L. by apply rings_split.
Qed.

Lemma delete_insert (cs : list cell) k c' : delete k (<[k := c']> cs) = delete k cs.
Proof.
  apply list_eq. intros j. rewrite !list_lookup_delete.
  case_decide; by rewrite list_lookup_insert_ne by lia.
Qed.

Lemma in_blocks cs k c i : cs !! k = Some c → i ∈ c_ring c → i ∈ blocks cs.
Proof.
  intros Hk Hi. unfold blocks. apply elem_of_list_to_set, list_elem_of_In, in_concat.
  exists (c_ring c). rewrite <- !list_elem_of_In. split; [|done].
  apply list_elem_of_fmap. exists c. split; [done|]. by eapply list_elem_of_lookup_2.
Qed.

Lemma in_other_blocks cs k j c i : cs !! j = Some c → j ≠ k → i ∈ c_ring c → i ∈ blocks (delete k cs).
Proof.
  intros Hj Hne. destruct (decide (j < k)%nat).
  - apply (in_blocks _ j). by rewrite list_lookup_delete_lt.
  - apply (in_blocks _ (pred j)). rewrite list_lookup_delete_ge by lia. by rewrite Nat.succ_pred by lia.
Qed.

(** One producer with the free blocks, the others aside. *)
Lemma alone p cs n k c :
  together p cs n → cs !! k = Some c →
  let B := blocks (delete k cs) in
  apart (blocks_of B p) (initialBlockPoolSize p) (without B p) ∧ sub_ok (without B p) (ring_set c) c.
Proof.
  intros [P Hnd Hs Hsz] Hk B. rewrite (blocks_split _ _ _ Hk) in P.
  rewrite (rings_split _ _ _ Hk), NoDup_app in Hnd. destruct Hnd as (_ & Hnd & _).
  assert (Hd : ring_set c ## B).
  { intros i Hi%elem_of_list_to_set Hj%elem_of_list_to_set. by apply (Hnd i). }
  split; [by eapply without_apart|]. destruct (Hs k c Hk) as [Hc _].
  eapply sub_ok_frame; [exact Hc|by apply without_ok|done|].
  intros i Hi. rewrite without_lookup, decide_False; [done|]. intros Hi'. apply (Hd i); [by apply elem_of_list_to_set|done].
Qed.

Lemma rejoin p cs n n' k c p1 c' :
  together p cs n → cs !! k = Some c → let B := blocks (delete k cs) in
  apart (blocks_of B p) (initialBlockPoolSize p) p1 → sub_ok p1 (ring_set c') c' →
  (length (c_ring c') ≤ n')%nat → (n ≤ n')%nat →
  together (beside (blocks_of B p) p1) (<[k := c']> cs) n'.
Proof.
  intros [P Hnd Hs Hsz] Hk B Ha Hc' Hl Hn. pose proof P as P0. rewrite (blocks_split _ _ _ Hk) in P.
  destruct (sub_ok_inv _ _ Hc') as [P1 Hnd'].
  destruct (local_change p (ring_set c) B p1 (ring_set c') P Ha P1) as (P' & Hd & Hsz' & _ & HB & HA).
  set (p' := beside _ p1) in *. pose proof (lookup_lt_Some _ _ _ Hk) as Hlt.
  assert (Hk' : <[k:=c']> cs !! k = Some c') by (by apply list_lookup_insert_eq).
  assert (Hblocks : blocks (<[k:=c']> cs) = ring_set c' ∪ B) by (by rewrite (blocks_split _ _ _ Hk'), delete_insert).
  rewrite (rings_split _ _ _ Hk), NoDup_app in Hnd. destruct Hnd as (_ & _ & Hnd).
  constructor; [by rewrite Hblocks| | |by rewrite Hsz'].
  - rewrite (rings_split _ _ _ Hk'), delete_insert. apply NoDup_app. split_and!; [done| |done].
    intros i Hi Hin. apply (Hd i); [by apply elem_of_list_to_set|]. by apply elem_of_list_to_set.
  - rewrite Hblocks. intros j cj Hj. destruct (decide (j = k)) as [->|Hne].
    + assert (cj = c') as -> by congruence. split; [|done].
      eapply sub_ok_frame; [exact Hc'|done|set_solver|]. intros i Hi. apply HA. by apply elem_of_list_to_set.
    + rewrite list_lookup_insert_ne in Hj by done. destruct (Hs j cj Hj) as [Hcj Hlj]. split; [|lia].
      assert (HinB : ∀ i, i ∈ c_ring cj → i ∈ B) by (intros i; by eapply in_other_blocks).
      eapply sub_ok_frame; [exact Hcj|done| |].
      * intros i Hi%elem_of_list_to_set. apply elem_of_union_r. by apply HinB.
      * intros i Hi. by apply HB, HinB.
Qed.

(** What an operation does to a producer of its own it does to one of several; an answer
    that is not [fine] may leave it in any state. *)
Lemma one_of_several_unless {Q} (fine : Q → Prop) (f : pool T → result (pool T * sub * Q)) p cs n n' k c
    (R : list bool → list bool → sub → Q → list T → Prop) :
  together p cs n → cs !! k = Some c → (n ≤ n')%nat → (∀ F N, frames F N f) →
  (∀ p0, sub_ok p0 (ring_set c) c → (length (c_ring c) ≤ n)%nat → ∃ p1 q c', f p0 = Ok (p1, c_sub c', q) ∧
     (fine q → sub_ok p1 (ring_set c') c' ∧ (length (c_ring c') ≤ n')%nat) ∧ R (mallocs p0) (mallocs p1) (c_sub c') q (c_items c')) →
  ∃ p' q c', f p = Ok (p', c_sub c', q) ∧ (fine q → together p' (<[k := c']> cs) n') ∧
    R (mallocs p) (mallocs p') (c_sub c') q (c_items c').
Proof.
  intros T0 Hk Hn Hf Hop. destruct (alone p cs n k c T0 Hk) as [Ha Hc]. set (B := blocks (delete k cs)) in *.
  destruct (Hop _ Hc (proj2 (tg_subs _ _ _ T0 k c Hk))) as (p1 & q & c' & Hrun & Hfine & HR).
  destruct (Hf _ _ _ _ _ _ Ha Hrun) as [Hrun' Ha']. rewrite reassemble in Hrun'.
  do 3 eexists. split; [exact Hrun'|]. split; [|exact HR]. intros [Hc' Hl]%Hfine. by apply (rejoin p cs n n' k c).
Qed.

Lemma one_of_several {Q} (f : pool T → result (pool T * sub * Q)) p cs n n' k c (R : list bool → list bool → sub → Q → list T → Prop) :
  together p cs n → cs !! k = Some c → (n ≤ n')%nat → (∀ F N, frames F N f) →
  (∀ p0, sub_ok p0 (ring_set c) c → (length (c_ring c) ≤ n)%nat → ∃ p1 q c', f p0 = Ok (p1, c_sub c', q) ∧
     sub_ok p1 (ring_set c') c' ∧ (length (c_ring c') ≤ n')%nat ∧ R (mallocs p0) (mallocs p1) (c_sub c') q (c_items c')) →
  ∃ p' q c', f p = Ok (p', c_sub c', q) ∧ together p' (<[k := c']> cs) n' ∧
    R (mallocs p) (mallocs p') (c_sub c') q (c_items c').
Proof.
  intros T0 Hk Hn Hf Hop. destruct (one_of_several_unless (λ _, True) f p cs n n' k c R T0 Hk Hn Hf) as (p' & q & c' & ? & ? & ?).
  { intros p0 Hc Hl. destruct (Hop p0 Hc Hl) as (p1 & q & c' & ? & ? & ? & ?). by exists p1, q, c'. }
  exists p', q, c'. auto.
Qed.

(** ** Each operation, with the producer alone *)

Definition has_index (s : sub) : Prop :=
  match s with Explicit _ => True | Implicit r => McImplicitIndex.blockIndex r ≠ [] end.

Lemma all_its_own (p : pool T) r owned ring A t h xs :
  McExplicit.repr p r owned ring A t h xs → McExplicit.others owned ring = ∅ → owned = list_to_set ring.
Proof.
  intros [I _ _ _ _] Ho. apply set_eq. intros i. rewrite elem_of_list_to_set. split.
  - intros Hi. destruct (decide (i ∈ ring)) as [|Hn]; [done|]. exfalso. unfold McExplicit.others in Ho.
    assert (i ∈ owned ∖ list_to_set (C := gset nat) ring) as Hin; [set_solver|]. rewrite Ho in Hin. set_solver.
  - by apply (McExplicit.bo_owned _ _ _ _ _ _ _ _ I).
Qed.

Lemma enqueue_alone canAlloc throws x n c p0 :
  sub_ok p0 (ring_set c) c → (length (c_ring c) ≤ n)%nat → BLOCK_SIZE * (n + 1)%nat < 2 ^ 62 →
  (isExplicit (c_sub c) = true → throws = false) →
  ∃ p1 e c', enqueue canAlloc throws x p0 (c_sub c) = Ok (p1, c_sub c', e) ∧
    sub_ok p1 (ring_set c') c' ∧ (length (c_ring c') ≤ n + 1)%nat ∧
    isExplicit (c_sub c') = isExplicit (c_sub c) ∧
    c_items c' = match e with Returned true => c_items c ++ [x] | _ => c_items c end ∧
    (e = Threw → throws = true) ∧
    (canAlloc = true → MAX_SUBQUEUE_SIZE = SIZE_MAX → mallocs p0 = [] → has_index (c_sub c) →
     e ≠ Returned false ∧ mallocs p1 = [] ∧ has_index (c_sub c')).
Proof.
  destruct c as [[r|r] ring xs]; unfold sub_ok, ring_set; cbn [c_sub c_ring c_items enqueue];
    intros (A & t & h & R) Hl Hn Ht; pose proof block_size_pos.
  - destruct (McExplicit.enqueue_ok noexcept_ctor canAlloc throws x p0 r _ ring A t h xs R)
      as (p1 & r1 & b & -> & Hb & Hm); [nia|rewrite (Ht eq_refl); by rewrite andb_false_r|]. rewrite bind_ok.
    destruct b.
    + destruct Hb as (owned' & ring' & A' & Ho & R' & Hl'). exists p1, (Returned true), (Cell (Explicit r1) ring' (xs ++ [x])).
      split; [done|]. rewrite (all_its_own _ _ _ _ _ _ _ _ R') in R' by (rewrite Ho; unfold McExplicit.others; set_solver).
      split; [by exists A', (t + 1), h|]. split_and!; try done; [simpl; lia|].
      intros Hc Hx Hmem _. by destruct (Hm Hc Hmem Hx).
    + exists p1, (Returned false), (Cell (Explicit r1) ring xs). split; [done|]. split; [by exists A, t, h|].
      split_and!; try done; [simpl; lia|]. intros Hc Hx Hmem _. by destruct (Hm Hc Hmem Hx).
  - destruct (McImplicit.add_ok noexcept_ctor canAlloc throws x p0 r _ ring A t h xs R)
      as (p1 & r1 & e & -> & He & Hm & Hb); [nia|]. rewrite bind_ok.
    assert (Hmem' : canAlloc = true → MAX_SUBQUEUE_SIZE = SIZE_MAX → mallocs p0 = [] → McImplicitIndex.blockIndex r ≠ [] →
      e ≠ McImplicit.Returned false ∧ mallocs p1 = [] ∧ McImplicitIndex.blockIndex r1 ≠ []).
    { intros Hc Hx Hmem Hi. destruct (Hm Hc Hmem Hx Hi). auto. }
    rewrite difference_diag_L in *.
    destruct e as [[]|].
    + destruct He as (_ & ring' & R' & Hl'). exists p1, (Returned true), (Cell (Implicit r1) ring' (xs ++ [x])).
      split; [done|]. split; [exists A, (t + 1), h; by rewrite difference_diag_L|]. split_and!; try done; [simpl; lia|].
      intros Hc Hx Hmem Hi. by destruct (Hmem' Hc Hx Hmem Hi) as (_ & ? & ?).
    + exists p1, (Returned false), (Cell (Implicit r1) ring xs). split; [done|].
      split; [exists A, t, h; by rewrite difference_diag_L|]. split_and!; try done; [simpl; lia|].
      intros Hc Hx Hmem Hi. by destruct (Hmem' Hc Hx Hmem Hi) as (? & ? & ?).
    + destruct He as (_ & Hth & R'). exists p1, Threw, (Cell (Implicit r1) ring xs). split; [done|].
      split; [exists A, t, h; by rewrite difference_diag_L|]. split_and!; try done; [simpl; lia|].
      intros Hc Hx Hmem Hi. by destruct (Hmem' Hc Hx Hmem Hi) as (? & ? & ?).
Qed.

(** A bulk that an explicit producer refuses may have left its index inconsistent. *)
Definition kept_whole (s : sub) (e : enqueued) : Prop := isExplicit s = true → e = Returned true.

Lemma enqueue_bulk_alone canAlloc ys throws n c p0 :
  sub_ok p0 (ring_set c) c → (length (c_ring c) ≤ n)%nat → BLOCK_SIZE * (n + length ys)%nat < 2 ^ 62 →
  (isExplicit (c_sub c) = true → throws = []) →
  ∃ p1 e c', enqueue_bulk canAlloc ys throws p0 (c_sub c) = Ok (p1, c_sub c', e) ∧
    (kept_whole (c_sub c) e → sub_ok p1 (ring_set c') c' ∧ (length (c_ring c') ≤ n + length ys)%nat) ∧
    isExplicit (c_sub c') = isExplicit (c_sub c) ∧
    c_items c' = match e with Returned true => c_items c ++ ys | _ => c_items c end ∧
    (e = Threw → throws ≠ []) ∧
    (canAlloc = true → MAX_SUBQUEUE_SIZE = SIZE_MAX → mallocs p0 = [] → has_index (c_sub c) →
     e ≠ Returned false ∧ mallocs p1 = [] ∧ has_index (c_sub c')).
Proof.
  destruct c as [[r|r] ring xs]; unfold sub_ok, ring_set; cbn [c_sub c_ring c_items enqueue_bulk];
    intros (A & t & h & R) Hl Hn Ht; pose proof block_size_pos.
  - rewrite (Ht eq_refl).
    destruct (McExplicitBulk.enqueue_bulk_ok noexcept_ctor canAlloc ys [] p0 r _ ring A t h xs R)
      as (p1 & r1 & b & -> & Hb & Hm); [nia|by right|]. rewrite bind_ok. destruct b.
    + destruct (Hb eq_refl) as (owned' & ring' & A' & Ho & R' & Hl').
      exists p1, (Returned true), (Cell (Explicit r1) ring' (xs ++ ys)). split; [done|].
      rewrite (all_its_own _ _ _ _ _ _ _ _ R') in R' by (rewrite Ho; unfold McExplicit.others; set_solver).
      split_and!; try done.
      * intros _. split; [by exists A', (t + length ys), h|]. simpl. lia.
      * intros Hc Hx Hmem _. by destruct (Hm Hc Hmem Hx).
    + exists p1, (Returned false), (Cell (Explicit r1) ring xs). split_and!; try done; [by intros [=]%(λ f, f eq_refl)|].
      intros Hc Hx Hmem _. by destruct (Hm Hc Hmem Hx).
  - destruct (McImplicitBulk.add_bulk_ok noexcept_ctor canAlloc ys throws p0 r _ ring A t h xs R)
      as (p1 & r1 & e & -> & He & Hm & Hb); [nia|]. rewrite bind_ok.
    assert (Hmem' : canAlloc = true → MAX_SUBQUEUE_SIZE = SIZE_MAX → mallocs p0 = [] → McImplicitIndex.blockIndex r ≠ [] →
      e ≠ McImplicit.Returned false ∧ mallocs p1 = [] ∧ McImplicitIndex.blockIndex r1 ≠ []).
    { intros Hc Hx Hmem Hi. destruct (Hm Hc Hmem Hx Hi). auto. }
    rewrite difference_diag_L in *. destruct e as [[]|].
    + destruct He as (ring' & R' & Hl'). exists p1, (Returned true), (Cell (Implicit r1) ring' (xs ++ ys)).
      split; [done|]. split; [intros _; split; [exists A, (t + length ys), h; by rewrite difference_diag_L|simpl; lia]|].
      split_and!; try done. intros Hc Hx Hmem Hi. by destruct (Hmem' Hc Hx Hmem Hi) as (_ & ? & ?).
    + exists p1, (Returned false), (Cell (Implicit r1) ring xs). split; [done|].
      split; [intros _; split; [exists A, t, h; by rewrite difference_diag_L|simpl; lia]|]. split_and!; try done.
      intros Hc Hx Hmem Hi. by destruct (Hmem' Hc Hx Hmem Hi) as (? & ? & ?).
    + destruct He as (Hth & R'). exists p1, Threw, (Cell (Implicit r1) ring xs). split; [done|].
      split; [intros _; split; [exists A, t, h; by rewrite difference_diag_L|simpl; lia]|]. split_and!; try done.
      * intros _ ->. apply Hth. by right.
      * intros Hc Hx Hmem Hi. by destruct (Hmem' Hc Hx Hmem Hi) as (? & ? & ?).
Qed.

Lemma dequeue_alone throws n c p0 :
  sub_ok p0 (ring_set c) c → (length (c_ring c) ≤ n)%nat →
  ∃ p1 d c', dequeue throws p0 (c_sub c) = Ok (p1, c_sub c', d) ∧
    sub_ok p1 (ring_set c') c' ∧ (length (c_ring c') ≤ n)%nat ∧
    isExplicit (c_sub c') = isExplicit (c_sub c) ∧ c_items c' = tail (c_items c) ∧
    d = match c_items c with [] => Nothing | x :: _ => if throws then Lost else Got x end ∧
    mallocs p1 = mallocs p0 ∧ (has_index (c_sub c) → has_index (c_sub c')).
Proof.
  destruct c as [[r|r] ring xs]; unfold sub_ok, ring_set; cbn [c_sub c_ring c_items dequeue];
    intros (A & t & h & R) Hl.
  - destruct (McExplicit.dequeue_ok throws p0 r _ ring A t h xs R) as (p1 & r1 & -> & R1 & Hm). rewrite bind_ok.
    do 2 eexists. exists (Cell (Explicit r1) ring (tail xs)). split; [reflexivity|]. split; [by do 3 eexists|].
    split_and!; try done. by destruct xs, throws.
  - pose proof (McImplicit.remove_ok throws p0 r _ ring A t h xs R) as Hr. rewrite difference_diag_L in *.
    destruct xs as [|x xs].
    + rewrite Hr, bind_ok. do 2 eexists. exists (Cell (Implicit r) ring []). split; [reflexivity|].
      split; [exists A, t, h; by rewrite difference_diag_L|done].
    + destruct Hr as (p1 & r1 & ring' & A' & -> & R1 & Hl1 & Hm & Hb). rewrite bind_ok.
      do 2 eexists. exists (Cell (Implicit r1) ring' xs). split; [reflexivity|].
      split; [exists A', t, (h + 1); by rewrite difference_diag_L|]. split_and!; try done; [simpl; lia|].
      by destruct throws.
Qed.

Lemma dequeue_bulk_alone throws (max : nat) n c p0 :
  sub_ok p0 (ring_set c) c → (length (c_ring c) ≤ n)%nat →
  ∃ p1 d c', dequeue_bulk throws max p0 (c_sub c) = Ok (p1, c_sub c', d) ∧
    sub_ok p1 (ring_set c') c' ∧ (length (c_ring c') ≤ n)%nat ∧
    isExplicit (c_sub c') = isExplicit (c_sub c) ∧ c_items c' = drop max (c_items c) ∧
    (∃ m : nat, (throws = [] → m = length (take max (c_items c))) ∧
       d = let taken := take max (c_items c) in
           if decide (m < length taken)%nat then LostMany (take m taken) else GotMany taken) ∧
    mallocs p1 = mallocs p0 ∧ (has_index (c_sub c) → has_index (c_sub c')).
Proof.
  destruct c as [[r|r] ring xs]; unfold sub_ok, ring_set; cbn [c_sub c_ring c_items dequeue_bulk];
    intros (A & t & h & R) Hl.
  - destruct (McExplicitBulk.dequeue_bulk_ok throws max p0 r _ ring A t h xs R)
      as (p1 & r1 & m & -> & Hm & R1 & Hmem). rewrite bind_ok.
    do 2 eexists. exists (Cell (Explicit r1) ring (drop max xs)). split; [reflexivity|]. split; [by do 3 eexists|].
    split_and!; try done. by exists m.
  - destruct (McImplicitBulk.remove_bulk_ok throws max p0 r _ ring A t h xs R)
      as (p1 & r1 & m & ring' & A' & -> & Hm & R1 & Hl1 & Hmem & Hb). rewrite bind_ok, difference_diag_L in *.
    do 2 eexists. exists (Cell (Implicit r1) ring' (drop max xs)). split; [reflexivity|].
    split; [do 3 eexists; by rewrite difference_diag_L|]. split_and!; try done; [simpl; lia|]. by exists m.
Qed.

(** ** A new producer *)

Lemma create_alone x p0 :
  pool_ok p0 ∅ → 0 <= initialBlockPoolSize p0 <= 2 ^ 31 →
  ∃ p1 o, create x p0 = Ok (p1, o) ∧ pool_ok p1 ∅ ∧
    (∀ s, o = Some s → isExplicit s = x ∧ sub_ok p1 ∅ (Cell s [] [])) ∧
    (mallocs p0 = [] → ∃ s, o = Some s ∧ mallocs p1 = [] ∧ has_index s).
Proof.
  intros P Hsz. unfold create. pose proof (malloc_pool p0 ∅ P) as P1.
  assert (Hsz1 : 0 <= initialBlockPoolSize (malloc p0).2 <= 2 ^ 31) by done.
  assert (Hm : mallocs p0 = [] → (malloc p0).1 = true ∧ mallocs (malloc p0).2 = []) by (simpl; by intros ->).
  destruct (malloc p0) as [[] p1]; simpl fst in *; simpl snd in *; cbn [negb].
  2:{ do 2 eexists. split; [reflexivity|]. split_and!; [done|done|]. intros He. by destruct (Hm He). }
  destruct x.
  - destruct (McExplicit.create_repr p1 ∅ P1 Hsz1) as (p2 & r & -> & R & Hm2). rewrite bind_ok.
    pose proof (McExplicit.bo_pool _ _ _ _ _ _ _ _ (McExplicit.rp_blocks _ _ _ _ _ _ _ _ R)).
    do 2 eexists. split; [reflexivity|]. split_and!; [done| |].
    + intros s [= <-]. split; [done|]. by do 3 eexists.
    + intros He. eexists. split; [done|]. destruct (Hm He). split; [by apply Hm2|done].
  - destruct (McImplicit.new_producer_repr p1 ∅ P1) as (p2 & r & -> & R & Hm2). rewrite bind_ok.
    pose proof (McImplicit.bo_pool _ _ _ _ _ _ _ _ (McImplicit.rp_blocks _ _ _ _ _ _ _ _ R)) as P2.
    replace (∅ ∪ list_to_set []) with (∅ : gset nat) in P2 by set_solver. do 2 eexists. split; [reflexivity|]. split_and!; [done| |].
    + intros s [= <-]. split; [done|]. exists 0, 0, 0. unfold ring_set. cbn [c_ring c_items]. by rewrite difference_diag_L.
    + intros He. eexists. split; [done|]. destruct (Hm He) as [_ Hm1]. by destruct (Hm2 Hm1).
Qed.

Lemma blocks_snoc cs s : blocks (cs ++ [Cell s [] []]) = blocks cs.
Proof. unfold blocks. by rewrite fmap_app, concat_app, app_nil_r. Qed.

Lemma join p cs n p1 :
  together p cs n → apart (blocks_of (blocks cs) p) (initialBlockPoolSize p) p1 → pool_ok p1 ∅ →
  let p' := beside (blocks_of (blocks cs) p) p1 in
  together p' cs n ∧ ∀ s, sub_ok p1 ∅ (Cell s [] []) → together p' (cs ++ [Cell s [] []]) n.
Proof.
  intros [P Hnd Hs Hsz] Ha P1 p'.
  destruct (local_change p ∅ (blocks cs) p1 ∅) as (P' & _ & Hsz' & _ & HB & _); [by rewrite union_empty_l_L|done|done|].
  fold p' in P', Hsz', HB. rewrite union_empty_l_L in P'.
  assert (Hs' : ∀ k c, cs !! k = Some c → sub_ok p' (blocks cs) c ∧ (length (c_ring c) ≤ n)%nat).
  { intros k c Hk. destruct (Hs k c Hk) as [Hc Hl]. split; [|done].
    assert (Hin : ∀ i, i ∈ c_ring c → i ∈ blocks cs) by (intros i; by apply (in_blocks cs k)).
    eapply sub_ok_frame; [exact Hc|done| |intros i Hi; by apply HB, Hin].
    intros i Hi%elem_of_list_to_set. by apply Hin. }
  split; [by constructor; rewrite ?Hsz'|]. intros s Hc. constructor; rewrite ?Hsz', ?blocks_snoc; try done.
  - by rewrite fmap_app, concat_app, app_nil_r.
  - intros k c [[_ Hk]|[_ <-]]%lookup_snoc_Some; [by apply (Hs' k)|]. split; [|simpl; lia].
    eapply sub_ok_frame; [exact Hc|done|set_solver|by intros i ?%not_elem_of_nil].
Qed.

Lemma create_several x p cs n :
  together p cs n →
  ∃ p' o, create x p = Ok (p', o) ∧ together p' cs n ∧
    (∀ s, o = Some s → isExplicit s = x ∧ together p' (cs ++ [Cell s [] []]) n) ∧
    (mallocs p = [] → ∃ s, o = Some s ∧ mallocs p' = [] ∧ has_index s).
Proof.
  intros T0. pose proof T0 as [P Hnd Hs Hsz].
  destruct (create_alone x (without (blocks cs) p)) as (p1 & o & Hrun & P1 & Ho & Hm);
    [apply without_ok; [by rewrite union_empty_l_L|set_solver]|done|].
  destruct (create_frames _ _ _ _ _ _ (without_apart (blocks cs) p _ P) Hrun) as [Hrun' Ha].
  rewrite reassemble in Hrun'. destruct (join p cs n p1 T0 Ha P1) as [T1 T2].
  exists (beside (blocks_of (blocks cs) p) p1), o. split_and!; [done|done| |done].
  intros s Hs'. destruct (Ho s Hs'). split; [done|]. by apply T2.
Qed.

(** ** What the queue is promised *)

Definition holds (p : pool T) (ss : list sub) (qs : list (list T)) (n : nat) : Prop :=
  ∃ cs, ss = c_sub <$> cs ∧ qs = c_items <$> cs ∧ together p cs n.
Definition ample (p : pool T) (ss : list sub) : Prop :=
  mallocs p = [] ∧ MAX_SUBQUEUE_SIZE = SIZE_MAX ∧ Forall has_index ss.

Lemma holds_at p ss qs n k s xs :
  holds p ss qs n → ss !! k = Some s → qs !! k = Some xs →
  ∃ cs c, ss = c_sub <$> cs ∧ qs = c_items <$> cs ∧ together p cs n ∧ cs !! k = Some c ∧ s = c_sub c ∧ xs = c_items c.
Proof.
  intros (cs & -> & -> & T0) Hs Hq. rewrite list_lookup_fmap in Hs. rewrite list_lookup_fmap in Hq.
  destruct (cs !! k) as [c|] eqn:Hk; [|done]. simpl in Hs, Hq. injection Hs as <-. injection Hq as <-. by exists cs, c.
Qed.

Lemma holds_insert p cs k c n :
  together p (<[k := c]> cs) n → holds p (<[k := c_sub c]> (c_sub <$> cs)) (<[k := c_items c]> (c_items <$> cs)) n.
Proof. intros T0. exists (<[k := c]> cs). by rewrite !list_fmap_insert. Qed.

Lemma ample_insert p p' ss k s s' :
  ample p ss → ss !! k = Some s → mallocs p' = [] → (has_index s → has_index s') → ample p' (<[k := s']> ss).
Proof.
  intros (Hm & Hx & Hi) Hk Hm' Hs. split_and!; [done|done|]. apply Forall_insert; [done|].
  apply Hs. by eapply Forall_lookup_1.
Qed.

Lemma ample_after p p' cs k c s' e :
  ample p (c_sub <$> cs) → cs !! k = Some c →
  (MAX_SUBQUEUE_SIZE = SIZE_MAX → mallocs p = [] → has_index (c_sub c) → e ≠ Returned false ∧ mallocs p' = [] ∧ has_index s') →
  e ≠ Returned false ∧ ample p' (<[k := s']> (c_sub <$> cs)).
Proof.
  intros Ha Hk Hm. pose proof Ha as (Hmem & Hmax & Hi).
  assert (Hs : (c_sub <$> cs) !! k = Some (c_sub c)) by (by rewrite list_lookup_fmap, Hk).
  destruct (Hm Hmax Hmem) as (He & Hmem' & Hi'); [exact (Forall_lookup_1 _ _ _ _ Hi Hs)|]. split; [done|].
  by apply (ample_insert p p' _ k (c_sub c)).
Qed.

#[global, refine] Instance producer_base_laws : SubQueueLaws (pool T) sub T := {|
  McSubQueue.holds := holds;
  fits_in n := BLOCK_SIZE * n < 2 ^ 62;
  McSubQueue.ample := ample
|}.
Proof.
  - intros p ss qs n (cs & -> & -> & _). by rewrite !length_fmap.
  - intros m n Hmn Hn. pose proof block_size_pos. nia.
  - intros x p ss qs n (cs & -> & -> & T0).
    destruct (create_several x p cs n T0) as (p' & o & Hrun & T1 & T2 & Hm). exists p', o.
    split; [exact Hrun|]. split.
    + destruct o as [s|]; [|by exists cs]. destruct (T2 s eq_refl) as [Hx T3]. split; [exact Hx|].
      exists (cs ++ [Cell s [] []]). by rewrite !fmap_app.
    + intros (Hmem & Hx & Hi). destruct (Hm Hmem) as (s & -> & Hmem' & Hs). exists s. split; [done|].
      split_and!; [done|done|]. apply Forall_app. by rewrite Forall_singleton.
  - intros ca th x p ss qs n k s xs Hh Hs Hq Hfit Hth.
    destruct (holds_at _ _ _ _ _ _ _ Hh Hs Hq) as (cs & c & -> & -> & T0 & Hk & -> & ->).
    destruct (one_of_several (λ p, enqueue ca th x p (c_sub c)) p cs n (n + 1) k c
      (λ m m' s e xs, isExplicit s = isExplicit (c_sub c) ∧ xs = match e with Returned true => c_items c ++ [x] | _ => c_items c end ∧
         (e = Threw → th = true) ∧
         (ca = true → MAX_SUBQUEUE_SIZE = SIZE_MAX → m = [] → has_index (c_sub c) → e ≠ Returned false ∧ m' = [] ∧ has_index s))
      T0 Hk) as (p' & e & c' & Hrun & T' & Hx & Hxs & Hthrew & Hm); [lia|intros; apply enqueue_frames| |].
    { intros p0 Hc Hl. by apply (enqueue_alone ca th x n c p0). }
    exists p', (c_sub c'), e. split_and!; [exact Hrun|exact Hx|rewrite <- Hxs; by apply holds_insert|done|].
    intros Hca Ha. by apply (ample_after p p' cs k c); [| |by apply Hm].
  - intros ca ys th p ss qs n k s xs Hh Hs Hq Hfit Hth.
    destruct (holds_at _ _ _ _ _ _ _ Hh Hs Hq) as (cs & c & -> & -> & T0 & Hk & -> & ->).
    destruct (one_of_several_unless (kept_whole (c_sub c)) (λ p, enqueue_bulk ca ys th p (c_sub c)) p cs n (n + length ys) k c
      (λ m m' s e xs, isExplicit s = isExplicit (c_sub c) ∧ xs = match e with Returned true => c_items c ++ ys | _ => c_items c end ∧
         (e = Threw → th ≠ []) ∧
         (ca = true → MAX_SUBQUEUE_SIZE = SIZE_MAX → m = [] → has_index (c_sub c) → e ≠ Returned false ∧ m' = [] ∧ has_index s))
      T0 Hk) as (p' & e & c' & Hrun & T' & Hx & Hxs & Hthrew & Hm); [lia|intros; apply enqueue_bulk_frames| |].
    { intros p0 Hc Hl. by apply (enqueue_bulk_alone ca ys th n c p0). }
    exists p', (c_sub c'), e. split_and!; [exact Hrun|exact Hx|intros Hw; rewrite <- Hxs; by apply holds_insert, T'|done|].
    intros Hca Ha. by apply (ample_after p p' cs k c); [| |by apply Hm].
  - intros th p ss qs n k s xs Hh Hs Hq.
    destruct (holds_at _ _ _ _ _ _ _ Hh Hs Hq) as (cs & c & -> & -> & T0 & Hk & -> & ->).
    destruct (one_of_several (λ p, dequeue th p (c_sub c)) p cs n n k c
      (λ m m' s d xs, isExplicit s = isExplicit (c_sub c) ∧ xs = tail (c_items c) ∧
         d = match c_items c with [] => Nothing | x :: _ => if th then Lost else Got x end ∧
         m' = m ∧ (has_index (c_sub c) → has_index s))
      T0 Hk) as (p' & d & c' & Hrun & T' & Hx & Hxs & -> & Hm & Hi); [lia|intros; apply dequeue_frames| |].
    { intros p0 Hc Hl. by apply (dequeue_alone th n c p0). }
    exists p', (c_sub c'). split_and!; [exact Hrun|exact Hx|rewrite <- Hxs; by apply holds_insert|].
    intros Ha. eapply ample_insert; [done|done|by rewrite Hm; apply Ha|done].
  - intros th max p ss qs n k s xs Hh Hs Hq.
    destruct (holds_at _ _ _ _ _ _ _ Hh Hs Hq) as (cs & c & -> & -> & T0 & Hk & -> & ->).
    destruct (one_of_several (λ p, dequeue_bulk th max p (c_sub c)) p cs n n k c
      (λ m m' s d xs, isExplicit s = isExplicit (c_sub c) ∧ xs = drop max (c_items c) ∧
         (∃ m : nat, (th = [] → m = length (take max (c_items c))) ∧
            d = let taken := take max (c_items c) in
                if decide (m < length taken)%nat then LostMany (take m taken) else GotMany taken) ∧
         m' = m ∧ (has_index (c_sub c) → has_index s))
      T0 Hk) as (p' & d & c' & Hrun & T' & Hx & Hxs & (m & Hth & ->) & Hm & Hi); [lia|intros; apply dequeue_bulk_frames| |].
    { intros p0 Hc Hl. by apply (dequeue_bulk_alone th max n c p0). }
    exists p', (c_sub c'), m. split_and!; [exact Hrun|done|exact Hx|rewrite <- Hxs; by apply holds_insert|].
    intros Ha. eapply ample_insert; [done|done|by rewrite Hm; apply Ha|done].
  - intros p ss qs n k s xs Hh Hs Hq.
    destruct (holds_at _ _ _ _ _ _ _ Hh Hs Hq) as (cs & c & -> & -> & T0 & Hk & -> & ->).
    destruct (tg_subs _ _ _ T0 k c Hk) as [Hc _]. destruct c as [[r|r] ring xs]; destruct Hc as (A & t & h & R).
    + by apply (McExplicit.size_approx_repr _ _ _ _ _ _ _ _ R).
    + by apply (McImplicit.count_ok _ _ _ _ _ _ _ _ R).
Defined.
End base.
End McProducerBase.
