(* ===== verification/McQueue.v ===== *)
(** * The methods of [ConcurrentQueue]

    concurrentqueue.h: the list of producers, producer and consumer tokens, and the
    methods that enqueue and dequeue, over producers that keep the promises of
    McSubQueue.v.  Calls come one after the other. *)
From S2P Require Import Prelude McBulk McSubQueue.
Local Open Scope Z_scope.

Module McQueue.
Import McSubQueue.

(** [Traits::EXPLICIT_CONSUMER_CONSUMPTION_QUOTA_BEFORE_ROTATE] *)
Class Quota : Type := EXPLICIT_CONSUMER_CONSUMPTION_QUOTA_BEFORE_ROTATE : Z.

Section queue.
Context {E P T : Type} `{!SubQueue E P T} `{Quota}.

(** A producer in the list, with the fields of [ConcurrentQueueProducerTypelessBase];
    producers are numbered as they are created, tokens by their addresses. *)
Record node := Node { sub : P; next_prod : option nat; inactive : bool; token : option nat }.

Record queue := Queue {
  env : E;
  producers : list node;
  producerListTail : option nat;
  producerCount : Z;
  nextExplicitConsumerId : Z;
  globalExplicitConsumerOffset : Z
}.

Definition get (q : queue) (i : nat) : result node :=
  match producers q !! i with Some n => Ok n | None => UB end.

(** The producer [i] after one of its operations. *)
Definition store (q : queue) (e : E) (i : nat) (p : P) : queue :=
  Queue e (alter (λ n, Node p (next_prod n) (inactive n) (token n)) i (producers q)) (producerListTail q)
    (producerCount q) (nextExplicitConsumerId q) (globalExplicitConsumerOffset q).
(** A change to a producer's own fields. *)
Definition mark (q : queue) (i : nat) (f : node → node) : queue :=
  Queue (env q) (alter f i (producers q)) (producerListTail q) (producerCount q) (nextExplicitConsumerId q)
    (globalExplicitConsumerOffset q).
Definition set_inactive (q : queue) (i : nat) (b : bool) : queue :=
  mark q i (λ n, Node (sub n) (next_prod n) b (token n)).
Definition set_token (q : queue) (i : nat) (this : option nat) : queue :=
  mark q i (λ n, Node (sub n) (next_prod n) (inactive n) this).
Definition set_env (q : queue) (e : E) : queue :=
  Queue e (producers q) (producerListTail q) (producerCount q) (nextExplicitConsumerId q)
    (globalExplicitConsumerOffset q).
(** [globalExplicitConsumerOffset.fetch_add(1)] *)
Definition rotate (q : queue) : queue :=
  Queue (env q) (producers q) (producerListTail q) (producerCount q) (nextExplicitConsumerId q)
    (u32 (globalExplicitConsumerOffset q + 1)).

(** Enough turns for a walk over the list. *)
Definition turns (q : queue) : nat := S (length (producers q)).

(** ** The list of producers *)

Fixpoint find_inactive (fuel : nat) (ptr : option nat) (explicit : bool) (q : queue) : result (option nat) :=
  match ptr with
  | None => Ok None
  | Some i =>
      match fuel with
      | O => UB
      | S fuel =>
          n ← get q i;
          if inactive n && Bool.eqb (isExplicit (sub n)) explicit then Ok (Some i)
          else find_inactive fuel (next_prod n) explicit q
      end
  end.

Definition add_producer (producer : option P) (q : queue) : queue * option nat :=
  match producer with
  | None => (q, None)
  | Some p =>
      let i := length (producers q) in
      (Queue (env q) (producers q ++ [Node p (producerListTail q) false None]) (Some i)
         (u32 (producerCount q + 1)) (nextExplicitConsumerId q) (globalExplicitConsumerOffset q), Some i)
  end.

(** The producer, and whether it was one that was given up. *)
Definition recycle_or_create_producer (explicit : bool) (q : queue) : result (queue * option nat * bool) :=
  found ← find_inactive (turns q) (producerListTail q) explicit q;
  match found with
  | Some i => Ok (set_inactive q i false, Some i, true)
  | None =>
      '(e, o) ← sub_create explicit (env q);
      Ok (add_producer o (set_env q e), false)
  end.

(** ** Tokens *)

(** [ProducerToken::ProducerToken] of the token at [this]: the pointer to its producer,
    null if none could be allocated. *)
Definition ProducerToken (this : nat) (q : queue) : result (queue * option nat) :=
  '(q, producer, _) ← recycle_or_create_producer true q;
  Ok (match producer with Some i => set_token q i (Some this) | None => q end, producer).

(** [~ProducerToken] *)
Definition destroy_token (producer : option nat) (q : queue) : result queue :=
  match producer with
  | None => Ok q
  | Some i => _ ← get q i; Ok (set_inactive (set_token q i None) i true)
  end.

Record consumer := Consumer {
  initialOffset : Z;
  lastKnownGlobalOffset : Z;
  itemsConsumedFromCurrent : Z;
  currentProducer : option nat;
  desiredProducer : option nat
}.

(** [ConsumerToken::ConsumerToken] *)
Definition ConsumerToken (q : queue) : queue * consumer :=
  (Queue (env q) (producers q) (producerListTail q) (producerCount q)
     (u32 (nextExplicitConsumerId q + 1)) (globalExplicitConsumerOffset q),
   Consumer (nextExplicitConsumerId q) (u32 (-1)) 0 None None).

Definition set_consumed (t : consumer) (n : Z) : consumer :=
  Consumer (initialOffset t) (lastKnownGlobalOffset t) n (currentProducer t) (desiredProducer t).
Definition set_current (t : consumer) (i : nat) (n : Z) : consumer :=
  Consumer (initialOffset t) (lastKnownGlobalOffset t) n (Some i) (desiredProducer t).

(** ** Enqueueing *)

Definition enqueue_to (canAlloc throws : bool) (x : T) (i : nat) (q : queue) : result (queue * enqueued) :=
  n ← get q i;
  '(e, p, r) ← sub_enqueue canAlloc throws x (env q) (sub n);
  Ok (store q e i p, r).
Definition enqueue_bulk_to (canAlloc : bool) (xs : list T) (throws : list bool) (i : nat) (q : queue) :
    result (queue * enqueued) :=
  n ← get q i;
  '(e, p, r) ← sub_enqueue_bulk canAlloc xs throws (env q) (sub n);
  Ok (store q e i p, r).

(** [inner_enqueue] and [inner_enqueue_bulk] with a token. *)
Definition inner_enqueue (canAlloc throws : bool) (token : option nat) (x : T) (q : queue) :
    result (queue * enqueued) :=
  match token with None => UB | Some i => enqueue_to canAlloc throws x i q end.
Definition inner_enqueue_bulk (canAlloc : bool) (token : option nat) (xs : list T) (throws : list bool) (q : queue) :
    result (queue * enqueued) :=
  match token with None => UB | Some i => enqueue_bulk_to canAlloc xs throws i q end.

(** The same without a token; [producer] is what [get_or_add_implicit_producer]
    answers. *)
Definition inner_enqueue_implicit (canAlloc throws : bool) (producer : option nat) (x : T) (q : queue) :
    result (queue * enqueued) :=
  match producer with None => Ok (q, Returned false) | Some i => enqueue_to canAlloc throws x i q end.
Definition inner_enqueue_bulk_implicit (canAlloc : bool) (producer : option nat) (xs : list T) (throws : list bool)
    (q : queue) : result (queue * enqueued) :=
  match producer with None => Ok (q, Returned false) | Some i => enqueue_bulk_to canAlloc xs throws i q end.

(** ** Dequeueing without a token *)

Definition dequeue_from (throws : bool) (i : nat) (q : queue) : result (queue * dequeued T) :=
  n ← get q i;
  '(e, p, d) ← sub_dequeue throws (env q) (sub n);
  Ok (store q e i p, d).
Definition dequeue_bulk_from (throws : list bool) (max : Z) (i : nat) (q : queue) :
    result (queue * bulk_dequeued (T := T)) :=
  n ← get q i;
  '(e, p, d) ← sub_dequeue_bulk throws max (env q) (sub n);
  Ok (store q e i p, d).

(** The longest of the first three producers that are not empty. *)
Fixpoint choose (fuel : nat) (ptr : option nat) (nonEmptyCount : Z) (best : option nat) (bestSize : Z)
    (q : queue) : result (Z * option nat) :=
  match ptr with
  | None => Ok (nonEmptyCount, best)
  | Some i =>
      if nonEmptyCount <? 3
      then
        match fuel with
        | O => UB
        | S fuel =>
            n ← get q i;
            let size := sub_size_approx (sub n) in
            if 0 <? size
            then choose fuel (next_prod n) (nonEmptyCount + 1) (if bestSize <? size then Some i else best)
                   (if bestSize <? size then size else bestSize) q
            else choose fuel (next_prod n) nonEmptyCount best bestSize q
        end
      else Ok (nonEmptyCount, best)
  end.

(** Every producer but [best] in turn. *)
Fixpoint dequeue_each (fuel : nat) (best ptr : option nat) (throws : bool) (q : queue) :
    result (queue * dequeued T) :=
  match ptr with
  | None => Ok (q, Nothing)
  | Some i =>
      match fuel with
      | O => UB
      | S fuel =>
          '(q, d) ← (if decide (ptr = best) then Ok (q, Nothing) else dequeue_from throws i q);
          match d with
          | Nothing => n ← get q i; dequeue_each fuel best (next_prod n) throws q
          | _ => Ok (q, d)
          end
      end
  end.

Definition try_dequeue (throws : bool) (q : queue) : result (queue * dequeued T) :=
  '(nonEmptyCount, best) ← choose (turns q) (producerListTail q) 0 None 0 q;
  if 0 <? nonEmptyCount
  then
    match best with
    | None => UB
    | Some b =>
        '(q, d) ← dequeue_from throws b q;
        match d with
        | Nothing => dequeue_each (turns q) best (producerListTail q) throws q
        | _ => Ok (q, d)
        end
    end
  else Ok (q, Nothing).

Definition try_dequeue_non_interleaved (throws : bool) (q : queue) : result (queue * dequeued T) :=
  dequeue_each (turns q) None (producerListTail q) throws q.

(** The loop of [try_dequeue_bulk], having taken [acc]; [throws] says which of the
    remaining assignments throw. *)
Fixpoint dequeue_bulk_each (fuel : nat) (ptr : option nat) (throws : list bool) (max : Z) (acc : list T)
    (q : queue) : result (queue * bulk_dequeued (T := T)) :=
  match ptr with
  | None => Ok (q, GotMany acc)
  | Some i =>
      match fuel with
      | O => UB
      | S fuel =>
          '(q, d) ← dequeue_bulk_from throws (max - length acc) i q;
          match d with
          | LostMany ys => Ok (q, LostMany (acc ++ ys))
          | GotMany ys =>
              let acc := acc ++ ys in
              if Z.of_nat (length acc) =? max then Ok (q, GotMany acc)
              else n ← get q i; dequeue_bulk_each fuel (next_prod n) (drop (length ys) throws) max acc q
          end
      end
  end.

Definition try_dequeue_bulk (throws : list bool) (max : Z) (q : queue) : result (queue * bulk_dequeued (T := T)) :=
  dequeue_bulk_each (turns q) (producerListTail q) throws max [] q.

(** ** Dequeueing with a token *)

(** [ptr->next_prod()], starting again at the tail after the last. *)
Definition next_or (tail : option nat) (i : nat) (q : queue) : result (option nat) :=
  n ← get q i; Ok (match next_prod n with None => tail | o => o end).

Fixpoint walk (steps : nat) (tail ptr : option nat) (q : queue) : result (option nat) :=
  match steps with
  | O => Ok ptr
  | S steps =>
      match ptr with None => UB | Some i => ptr ← next_or tail i q; walk steps tail ptr q end
  end.

Definition update_current_producer_after_rotation (t : consumer) (q : queue) : result (consumer * bool) :=
  let tail := producerListTail q in
  if decide (desiredProducer t = None ∧ tail = None) then Ok (t, false)
  else
    let prodCount := producerCount q in
    let globalOffset := globalExplicitConsumerOffset q in
    desired ← (if decide (desiredProducer t = None)
               then
                 r ← (if prodCount =? 0 then UB else Ok (initialOffset t mod prodCount));
                 walk (Z.to_nat (u32 (prodCount - 1 - r))) tail tail q
               else Ok (desiredProducer t));
    let delta := u32 (globalOffset - lastKnownGlobalOffset t) in
    delta ← (if prodCount <=? delta then (if prodCount =? 0 then UB else Ok (delta mod prodCount)) else Ok delta);
    desired ← walk (Z.to_nat delta) tail desired q;
    Ok (Consumer (initialOffset t) globalOffset 0 desired desired, true).

(** The start of both methods. *)
Definition settle (t : consumer) (q : queue) : result (consumer * bool) :=
  if decide (desiredProducer t = None) then update_current_producer_after_rotation t q
  else if lastKnownGlobalOffset t =? globalExplicitConsumerOffset q then Ok (t, true)
  else update_current_producer_after_rotation t q.

(** Round the list from [ptr] to the current producer. *)
Fixpoint search (fuel : nat) (tail ptr : option nat) (throws : bool) (t : consumer) (q : queue) :
    result (queue * consumer * dequeued T) :=
  if decide (ptr = currentProducer t) then Ok (q, t, Nothing)
  else
    match fuel, ptr with
    | S fuel, Some i =>
        '(q, d) ← dequeue_from throws i q;
        match d with
        | Nothing => ptr ← next_or tail i q; search fuel tail ptr throws t q
        | Got _ => Ok (q, set_current t i 1, d)
        | Lost => Ok (q, t, d)
        end
    | _, _ => UB
    end.

Definition try_dequeue_token (throws : bool) (t : consumer) (q : queue) : result (queue * consumer * dequeued T) :=
  '(t, ok) ← settle t q;
  if negb ok then Ok (q, t, Nothing)
  else
    match currentProducer t with
    | None => UB
    | Some i =>
        '(q, d) ← dequeue_from throws i q;
        match d with
        | Got _ =>
            let t := set_consumed t (u32 (itemsConsumedFromCurrent t + 1)) in
            Ok (if itemsConsumedFromCurrent t =? EXPLICIT_CONSUMER_CONSUMPTION_QUOTA_BEFORE_ROTATE
                then rotate q else q, t, d)
        | Lost => Ok (q, t, d)
        | Nothing =>
            let tail := producerListTail q in
            ptr ← next_or tail i q;
            search (turns q) tail ptr throws t q
        end
    end.

(** The same for up to [max] more elements.  A producer that gave some becomes the
    current one, where the round ends. *)
Fixpoint search_bulk (fuel : nat) (tail ptr : option nat) (throws : list bool) (max : Z) (acc : list T)
    (t : consumer) (q : queue) : result (queue * consumer * bulk_dequeued (T := T)) :=
  if decide (ptr = currentProducer t) then Ok (q, t, GotMany acc)
  else
    match fuel, ptr with
    | S fuel, Some i =>
        '(q, d) ← dequeue_bulk_from throws max i q;
        match d with
        | LostMany ys => Ok (q, t, LostMany (acc ++ ys))
        | GotMany ys =>
            let t := if decide (ys = []) then t else set_current t i (u32 (length ys)) in
            if Z.of_nat (length ys) =? max then Ok (q, t, GotMany (acc ++ ys))
            else
              ptr ← next_or tail i q;
              search_bulk fuel tail ptr (drop (length ys) throws) (max - length ys) (acc ++ ys) t q
        end
    | _, _ => UB
    end.

Definition try_dequeue_bulk_token (throws : list bool) (max : Z) (t : consumer) (q : queue) :
    result (queue * consumer * bulk_dequeued (T := T)) :=
  '(t, ok) ← settle t q;
  if negb ok then Ok (q, t, GotMany [])
  else
    match currentProducer t with
    | None => UB
    | Some i =>
        '(q, d) ← dequeue_bulk_from throws max i q;
        match d with
        | LostMany ys => Ok (q, t, LostMany ys)
        | GotMany ys =>
            if Z.of_nat (length ys) =? max
            then
              let t := set_consumed t (u32 (itemsConsumedFromCurrent t + u32 max)) in
              Ok (if EXPLICIT_CONSUMER_CONSUMPTION_QUOTA_BEFORE_ROTATE <=? itemsConsumedFromCurrent t
                  then rotate q else q, t, GotMany ys)
            else
              let t := set_consumed t (u32 (itemsConsumedFromCurrent t + length ys)) in
              let tail := producerListTail q in
              ptr ← next_or tail i q;
              search_bulk (2 * turns q) tail ptr (drop (length ys) throws) (max - length ys) ys t q
        end
    end.

(** [try_dequeue_from_producer] and its bulk form. *)
Definition try_dequeue_from_producer (throws : bool) (token : option nat) (q : queue) : result (queue * dequeued T) :=
  match token with None => UB | Some i => dequeue_from throws i q end.
Definition try_dequeue_bulk_from_producer (throws : list bool) (max : Z) (token : option nat) (q : queue) :
    result (queue * bulk_dequeued (T := T)) :=
  match token with None => UB | Some i => dequeue_bulk_from throws max i q end.

(** [ConcurrentQueue::size_approx] *)
Fixpoint sum_sizes (fuel : nat) (ptr : option nat) (size : Z) (q : queue) : result Z :=
  match ptr with
  | None => Ok size
  | Some i =>
      match fuel with
      | O => UB
      | S fuel => n ← get q i; sum_sizes fuel (next_prod n) (u64 (size + sub_size_approx (sub n))) q
      end
  end.
Definition size_approx (q : queue) : result Z := sum_sizes (turns q) (producerListTail q) 0 q.

(** ** What the queue stands for

    The elements of each producer, in order, are a list of its own. *)

(** Taking the pieces [ps], each from the front of a producer. *)
Inductive takes : list (list T) → list (nat * list T) → list (list T) → Prop :=
  | takes_nothing qs : takes qs [] qs
  | takes_piece qs k ys zs ps qs' :
      qs !! k = Some (ys ++ zs) → takes (<[k := zs]> qs) ps qs' → takes qs ((k, ys) :: ps) qs'.

Definition all_empty (qs : list (list T)) : Prop := Forall (λ xs, xs = []) qs.

(** The elements [out] are taken; less than [max] only when nothing is left. *)
Definition taken (qs : list (list T)) (max : nat) (out : list T) (qs' : list (list T)) : Prop :=
  ∃ ps, takes qs ps qs' ∧ out = concat (ps.*2) ∧ (length out ≤ max)%nat ∧
    ((length out < max)%nat → all_empty qs').

(** What a call answers that took [out] for one element, or for [max]. *)
Definition answers_one (qs : list (list T)) (throws : bool) (d : dequeued T) (qs' : list (list T)) : Prop :=
  match d with
  | Got x => throws = false ∧ taken qs 1 [x] qs'
  | Nothing => taken qs 1 [] qs'
  | Lost => throws = true ∧ ∃ x, taken qs 1 [x] qs'
  end.
Definition answers_many (qs : list (list T)) (throws : list bool) (max : nat) (d : bulk_dequeued (T := T))
    (qs' : list (list T)) : Prop :=
  match d with
  | GotMany out => taken qs max out qs'
  | LostMany stored =>
      throws ≠ [] ∧ ∃ ps, takes qs ps qs' ∧ stored `prefix_of` concat (ps.*2) ∧ (length (concat (ps.*2)) ≤ max)%nat
  end.

Lemma takes_app qs ps qs1 ps' qs' : takes qs ps qs1 → takes qs1 ps' qs' → takes qs (ps ++ ps') qs'.
Proof. induction 1; [done|]. intros. simpl. by econstructor; eauto. Qed.

Lemma takes_length qs ps qs' : takes qs ps qs' → length qs' = length qs.
Proof. induction 1 as [|? ? ? ? ? ? ? ? IH]; [done|]. by rewrite IH, length_insert. Qed.

Lemma takes_one qs k ys zs : qs !! k = Some (ys ++ zs) → takes qs [(k, ys)] (<[k := zs]> qs).
Proof. intros Hk. econstructor; [exact Hk|constructor]. Qed.

Context `{!SubQueueLaws E P T}.

(** ** Between two calls *)

Definition before (i : nat) : option nat := match i with O => None | S j => Some j end.

(** The newest producer comes first, each is followed by the one created before it. *)
Record queue_ok (q : queue) (qs : list (list T)) (n : nat) : Prop := {
  qo_holds : holds (env q) (sub <$> producers q) qs n;
  qo_tail : producerListTail q = before (length (producers q));
  qo_next i nd : producers q !! i = Some nd → next_prod nd = before i;
  qo_count : producerCount q = u32 (length (producers q))
}.

Definition queue_ample (q : queue) : Prop := ample (env q) (sub <$> producers q).

(** Only the environment and the state of producers differ. *)
Definition same_list (q q' : queue) : Prop :=
  length (producers q') = length (producers q) ∧ producerListTail q' = producerListTail q ∧
  producerCount q' = producerCount q ∧ globalExplicitConsumerOffset q' = globalExplicitConsumerOffset q ∧
  (queue_ample q → queue_ample q').

#[local] Instance same_list_preorder : PreOrder same_list.
Proof.
  split; [done|]. intros q1 q2 q3 (A1 & B1 & C1 & D1 & F1) (A2 & B2 & C2 & D2 & F2).
  unfold same_list. split_and!; [congruence..|]. auto.
Qed.

Lemma queue_length q qs n : queue_ok q qs n → length qs = length (producers q).
Proof. intros I. rewrite (holds_length _ _ _ _ (qo_holds _ _ _ I)). apply length_fmap. Qed.

(** The producer that has the elements [xs]. *)
Lemma producer_get q qs n i xs :
  queue_ok q qs n → qs !! i = Some xs →
  ∃ nd, get q i = Ok nd ∧ producers q !! i = Some nd ∧ next_prod nd = before i ∧ (sub <$> producers q) !! i = Some (sub nd).
Proof.
  intros I Hi. pose proof (lookup_lt_Some _ _ _ Hi) as Hlt. rewrite (queue_length _ _ _ I) in Hlt.
  destruct (lookup_lt_is_Some_2 _ _ Hlt) as [nd Hnd]. exists nd. unfold get. rewrite Hnd.
  split_and!; [done|done|by eapply qo_next|]. by rewrite list_lookup_fmap, Hnd.
Qed.

Lemma store_subs q e i nd p :
  producers q !! i = Some nd → sub <$> producers (store q e i p) = <[i := p]> (sub <$> producers q).
Proof.
  intros Hi. simpl. apply list_eq. intros j. rewrite list_lookup_fmap. destruct (decide (j = i)) as [->|Hne].
  - rewrite list_lookup_alter_eq, Hi. simpl. rewrite list_lookup_insert_eq; [done|]. rewrite length_fmap.
    by eapply lookup_lt_Some.
  - by rewrite list_lookup_alter_ne, list_lookup_insert_ne, list_lookup_fmap by done.
Qed.

Lemma store_ok q qs n e i nd p qs' n' :
  queue_ok q qs n → producers q !! i = Some nd → holds e (<[i := p]> (sub <$> producers q)) qs' n' →
  queue_ok (store q e i p) qs' n'.
Proof.
  intros [I1 I2 I3 I4] Hi Hh. constructor.
  - by rewrite (store_subs _ _ _ _ _ Hi).
  - simpl. by rewrite length_alter.
  - intros j nd' Hj. simpl in Hj. destruct (decide (j = i)) as [->|Hne].
    + rewrite list_lookup_alter_eq, Hi in Hj. injection Hj as <-. simpl. by apply I3.
    + rewrite list_lookup_alter_ne in Hj by done. by apply I3.
  - simpl. by rewrite length_alter.
Qed.

Lemma store_same q e i nd p :
  producers q !! i = Some nd →
  (ample (env q) (sub <$> producers q) → ample e (<[i := p]> (sub <$> producers q))) → same_list q (store q e i p).
Proof.
  intros Hi Ha. unfold same_list, queue_ample. rewrite (store_subs _ _ _ _ _ Hi). simpl. by rewrite length_alter.
Qed.

(** ** One producer *)

Lemma dequeue_from_ok throws i q qs n xs :
  queue_ok q qs n → qs !! i = Some xs →
  ∃ q', dequeue_from throws i q =
      Ok (q', match xs with [] => Nothing | x :: _ => if throws then Lost else Got x end) ∧
    queue_ok q' (<[i := tail xs]> qs) n ∧ same_list q q'.
Proof.
  intros I Hi. destruct (producer_get _ _ _ _ _ I Hi) as (nd & Hg & Hnd & _ & Hs). unfold dequeue_from. rewrite Hg, bind_ok.
  destruct (dequeue_law throws _ _ _ _ _ _ _ (qo_holds _ _ _ I) Hs Hi) as (e' & p' & -> & _ & Hh & Ha).
  rewrite bind_ok. eexists. split; [reflexivity|]. split; [by eapply store_ok|by eapply store_same].
Qed.

Lemma dequeue_bulk_from_ok throws (max : nat) i q qs n xs :
  queue_ok q qs n → qs !! i = Some xs →
  ∃ q' d, dequeue_bulk_from throws max i q = Ok (q', d) ∧
    match d with GotMany ys => ys = take max xs | LostMany ys => throws ≠ [] ∧ ys `prefix_of` take max xs end ∧
    queue_ok q' (<[i := drop max xs]> qs) n ∧ same_list q q'.
Proof.
  intros I Hi. destruct (producer_get _ _ _ _ _ I Hi) as (nd & Hg & Hnd & _ & Hs). unfold dequeue_bulk_from. rewrite Hg, bind_ok.
  destruct (dequeue_bulk_law throws max _ _ _ _ _ _ _ (qo_holds _ _ _ I) Hs Hi) as (e' & p' & m & -> & Hm & _ & Hh & Ha).
  rewrite bind_ok. do 2 eexists. split; [reflexivity|]. split; [|split; [by eapply store_ok|by eapply store_same]].
  cbv zeta. case_decide as Hlt; [|done]. split; [|apply prefix_take]. intros ->. specialize (Hm eq_refl). lia.
Qed.

(** ** Without a token *)

Definition empty_from (m : nat) (qs : list (list T)) : Prop :=
  ∀ j xs, (m ≤ j)%nat → qs !! j = Some xs → xs = [].

Lemma empty_from_all qs : empty_from 0 qs → all_empty qs.
Proof. intros He. apply Forall_forall. intros xs [j Hj]%list_elem_of_lookup. apply (He j); [lia|done]. Qed.

Lemma all_empty_at qs i xs : all_empty qs → qs !! i = Some xs → xs = [].
Proof. intros He Hi. by apply (Forall_lookup_1 _ _ _ _ He Hi). Qed.

Lemma empty_down m xs qs : empty_from (S m) qs → qs !! m = Some xs → xs = [] → empty_from m qs.
Proof.
  intros He Hm -> j ys Hj Hy. destruct (decide (j = m)) as [->|]; [congruence|]. apply (He j); [lia|done].
Qed.

Lemma taken_first qs i x xs throws :
  qs !! i = Some (x :: xs) → answers_one qs throws (if throws then Lost else Got x) (<[i := xs]> qs).
Proof.
  intros Hi. assert (Ht : taken qs 1 [x] (<[i := xs]> qs)).
  { exists [(i, [x])]. split_and!; [by apply takes_one|done|simpl; lia|simpl; lia]. }
  destruct throws; [split; [done|by exists x]|done].
Qed.

Lemma taken_none qs throws : all_empty qs → answers_one qs throws Nothing qs.
Proof. intros He. exists []. split_and!; [constructor|done|simpl; lia|done]. Qed.

Lemma size_at q qs n i xs nd :
  queue_ok q qs n → qs !! i = Some xs → producers q !! i = Some nd → sub_size_approx (sub nd) = length xs.
Proof.
  intros I Hi Hnd. apply (size_law _ _ _ _ i (sub nd) xs (qo_holds _ _ _ I)); [|done]. by rewrite list_lookup_fmap, Hnd.
Qed.

Lemma choose_ok q qs n : queue_ok q qs n → ∀ fuel m cnt best bestSize,
  (m ≤ fuel)%nat → (m ≤ length qs)%nat → 0 <= cnt →
  (cnt = 0 → bestSize = 0 ∧ empty_from m qs) →
  (0 < cnt → ∃ b x xs, best = Some b ∧ qs !! b = Some (x :: xs)) →
  ∃ cnt' best', choose fuel (before m) cnt best bestSize q = Ok (cnt', best') ∧ 0 <= cnt' ∧
    (cnt' = 0 → all_empty qs) ∧ (0 < cnt' → ∃ b x xs, best' = Some b ∧ qs !! b = Some (x :: xs)).
Proof.
  intros I. induction fuel as [|fuel IH]; intros [|m] cnt best bestSize Hm Hl Hc H0 Hb; try lia; cbn [choose before].
  - exists cnt, best. split_and!; [done|done|intros; by apply empty_from_all, H0|done].
  - exists cnt, best. split_and!; [done|done|intros; by apply empty_from_all, H0|done].
  - destruct (Z.ltb_spec cnt 3); [|exists cnt, best; split_and!; [done|done|lia|done]].
    destruct (lookup_lt_is_Some_2 qs m) as [xs Hx]; [lia|].
    destruct (producer_get _ _ _ _ _ I Hx) as (nd & -> & Hnd & Hnext & _).
    rewrite bind_ok, Hnext, (size_at _ _ _ _ _ _ I Hx Hnd). destruct xs as [|x xs]; simpl length.
    + apply IH; [lia|lia|done| |done]. intros Hz. destruct (H0 Hz). split; [done|]. by eapply empty_down.
    + rewrite (proj2 (Z.ltb_lt 0 _)) by lia. apply IH; [lia|lia|lia|lia|]. intros _.
      destruct (Z.ltb_spec bestSize (S (length xs))); [by exists m, x, xs|].
      apply Hb. assert (cnt ≠ 0); [|lia]. intros Hz. destruct (H0 Hz). lia.
Qed.

Lemma dequeue_each_ok throws best n : ∀ fuel m q qs,
  queue_ok q qs n → (m ≤ fuel)%nat → (m ≤ length qs)%nat → empty_from m qs →
  (∀ b xs, best = Some b → qs !! b = Some xs → xs = []) →
  ∃ q' d qs', dequeue_each fuel best (before m) throws q = Ok (q', d) ∧
    answers_one qs throws d qs' ∧ queue_ok q' qs' n ∧ same_list q q'.
Proof.
  induction fuel as [|fuel IH]; intros [|m] q qs I Hm Hl He Hb; try lia; cbn [dequeue_each before].
  1-2: exists q, Nothing, qs; split_and!; [done|by apply taken_none, empty_from_all|done|done].
  destruct (lookup_lt_is_Some_2 qs m) as [xs Hx]; [lia|].
  assert (∃ q1, (if decide (Some m = best) then Ok (q, Nothing) else dequeue_from throws m q) =
      Ok (q1, match xs with [] => Nothing | x :: _ => if throws then Lost else Got x end) ∧
    queue_ok q1 (<[m := tail xs]> qs) n ∧ same_list q q1) as (q1 & -> & I1 & S1).
  { case_decide as Hd; [|by apply dequeue_from_ok]. assert (xs = []) as -> by (by apply (Hb m)). exists q.
    simpl. by rewrite list_insert_id by done. }
  rewrite bind_ok. destruct xs as [|x xs].
  - simpl in I1. rewrite list_insert_id in I1 by done. destruct (producer_get _ _ _ _ _ I1 Hx) as (nd & -> & _ & Hnext & _).
    rewrite bind_ok, Hnext. destruct (IH m q1 qs I1) as (q' & d & qs' & Hr & Ha & I' & S'); [lia|lia| |done|].
    { by eapply empty_down. }
    exists q', d, qs'. split_and!; [done|done|done|by etransitivity].
  - exists q1, (if throws then Lost else Got x), (<[m := xs]> qs).
    split_and!; [by destruct throws|by apply taken_first|done|done].
Qed.

Lemma queue_turns q qs n : queue_ok q qs n → producerListTail q = before (length qs) ∧ (length qs ≤ turns q)%nat.
Proof. intros I. rewrite (qo_tail _ _ _ I), (queue_length _ _ _ I). unfold turns. split; [done|lia]. Qed.

Lemma empty_from_end qs : empty_from (length qs) qs.
Proof. intros j xs Hj Hx. apply lookup_lt_Some in Hx. lia. Qed.

Lemma try_dequeue_non_interleaved_ok throws q qs n :
  queue_ok q qs n → ∃ q' d qs', try_dequeue_non_interleaved throws q = Ok (q', d) ∧
    answers_one qs throws d qs' ∧ queue_ok q' qs' n ∧ same_list q q'.
Proof.
  intros I. destruct (queue_turns _ _ _ I) as [Ht Hf]. unfold try_dequeue_non_interleaved. rewrite Ht.
  by apply dequeue_each_ok; [|lia| |apply empty_from_end|].
Qed.

Lemma try_dequeue_ok throws q qs n :
  queue_ok q qs n → ∃ q' d qs', try_dequeue throws q = Ok (q', d) ∧
    answers_one qs throws d qs' ∧ queue_ok q' qs' n ∧ same_list q q'.
Proof.
  intros I. destruct (queue_turns _ _ _ I) as [Ht Hf]. unfold try_dequeue. rewrite Ht.
  destruct (choose_ok q qs n I (turns q) (length qs) 0 None 0) as (cnt & best & -> & Hc & H0 & Hb);
    [lia|lia|lia|intros _; split; [done|apply empty_from_end]|lia|].
  rewrite bind_ok. destruct (Z.ltb_spec 0 cnt) as [Hp|Hz].
  - destruct (Hb Hp) as (b & x & xs & -> & Hx). destruct (dequeue_from_ok throws b q qs n _ I Hx) as (q1 & -> & I1 & S1).
    rewrite bind_ok. exists q1, (if throws then Lost else Got x), (<[b := xs]> qs).
    split_and!; [by destruct throws|by apply taken_first|done|done].
  - exists q, Nothing, qs. split_and!; [done|apply taken_none, H0; lia|done|done].
Qed.

(** A bulk taken from producer [i]: its pieces, and what is left of it. *)
Lemma takes_bulk qs i xs k : qs !! i = Some xs → takes qs [(i, take k xs)] (<[i := drop k xs]> qs).
Proof. intros Hi. apply takes_one. by rewrite take_drop. Qed.

Lemma drained {A} (xs : list A) k : (length (take k xs) < k)%nat → drop k xs = [].
Proof. rewrite length_take. intros. apply drop_ge. lia. Qed.

Lemma drop_nonnil {A} (l : list A) k : drop k l ≠ [] → l ≠ [].
Proof. intros Hd ->. by rewrite drop_nil in Hd. Qed.

Lemma empty_from_insert m xs ys qs : empty_from m qs → qs !! m = Some xs → ys = [] → empty_from m (<[m := ys]> qs).
Proof.
  intros He Hm -> j zs Hj Hz. destruct (decide (j = m)) as [->|Hne].
  - rewrite list_lookup_insert_eq in Hz by (by eapply lookup_lt_Some). congruence.
  - rewrite list_lookup_insert_ne in Hz by done. by apply (He j).
Qed.

(** The answer of a loop that has taken [acc] before the pieces [ps]. *)
Definition answers_rest (throws : list bool) (max : nat) (acc : list T) (ps : list (nat * list T))
    (d : bulk_dequeued (T := T)) (qs' : list (list T)) : Prop :=
  match d with
  | GotMany out => out = acc ++ concat (ps.*2) ∧ ((length out < max)%nat → all_empty qs')
  | LostMany stored => throws ≠ [] ∧ ∃ ys, stored = acc ++ ys ∧ ys `prefix_of` concat (ps.*2)
  end ∧ (length acc + length (concat (ps.*2)) ≤ max)%nat.

Lemma answers_rest_lost throws max acc k i xs ys qs' :
  throws ≠ [] → ys `prefix_of` take k xs → (length acc + length (take k xs) ≤ max)%nat →
  answers_rest throws max acc [(i, take k xs)] (LostMany (acc ++ ys)) qs'.
Proof. intros Ht Hp Hl. split; [|simpl; by rewrite app_nil_r]. split; [done|]. exists ys. simpl. by rewrite app_nil_r. Qed.

Lemma answers_rest_more throws throws' max acc i ys ps d qs' :
  (throws' ≠ [] → throws ≠ []) → answers_rest throws' max (acc ++ ys) ps d qs' →
  answers_rest throws max acc ((i, ys) :: ps) d qs'.
Proof.
  intros Ht [Hd Hl]. rewrite length_app in Hl. unfold answers_rest. rewrite fmap_cons. cbn [concat snd].
  split; [|rewrite length_app; lia]. destruct d.
  - destruct Hd as [-> He]. by rewrite (assoc_L app).
  - destruct Hd as [Hn (zs & -> & Hz)]. split; [by apply Ht|]. exists (ys ++ zs). rewrite (assoc_L app).
    split; [done|]. cbn [concat snd]. by apply prefix_app.
Qed.

Lemma answers_rest_many qs throws max ps d qs' :
  takes qs ps qs' → answers_rest throws max [] ps d qs' → answers_many qs throws max d qs'.
Proof.
  intros Ht [Hd Hl]. simpl in Hl. destruct d; simpl in *.
  - destruct Hd as [-> He]. by exists ps.
  - destruct Hd as [Hn (zs & -> & Hz)]. split; [done|]. by exists ps.
Qed.

Lemma dequeue_bulk_each_ok (max : nat) n : ∀ fuel m throws acc q qs,
  queue_ok q qs n → (m ≤ fuel)%nat → (m ≤ length qs)%nat → empty_from m qs → (length acc ≤ max)%nat →
  ∃ q' d qs' ps, dequeue_bulk_each fuel (before m) throws max acc q = Ok (q', d) ∧
    takes qs ps qs' ∧ answers_rest throws max acc ps d qs' ∧ queue_ok q' qs' n ∧ same_list q q'.
Proof.
  induction fuel as [|fuel IH]; intros [|m] throws acc q qs I Hm Hl He Ha; try lia;
    cbn [dequeue_bulk_each before].
  1-2: exists q, (GotMany acc), qs, []; split; [done|]; split; [constructor|]; split; [|done];
    (split; [|simpl; lia]); split; [by rewrite app_nil_r|intros _; by apply empty_from_all].
  destruct (lookup_lt_is_Some_2 qs m) as [xs Hx]; [lia|].
  replace (Z.of_nat max - length acc) with (Z.of_nat (max - length acc)) by lia.
  assert (Hk0 : (length acc + (max - length acc) = max)%nat) by lia. set (k := (max - length acc)%nat) in *.
  destruct (dequeue_bulk_from_ok throws k m q qs n xs I Hx) as (q1 & d & -> & Hd & I1 & S1).
  rewrite bind_ok. pose proof (takes_bulk qs m xs k Hx) as Ht1. assert (Hk : (length (take k xs) ≤ k)%nat) by (rewrite length_take; lia).
  destruct d as [ys|ys].
  2:{ destruct Hd as [Hth Hp]. exists q1, (LostMany (acc ++ ys)), (<[m := drop k xs]> qs), [(m, take k xs)].
      split; [done|]. split; [exact Ht1|]. split; [apply answers_rest_lost; [done|done|lia]|done]. }
  subst ys. rewrite length_app. destruct (Z.eqb_spec (length acc + length (take k xs))%nat max) as [Hf|Hf].
  - exists q1, (GotMany (acc ++ take k xs)), (<[m := drop k xs]> qs), [(m, take k xs)].
    split; [done|]. split; [exact Ht1|]. split; [|done]. split; simpl; rewrite app_nil_r; [|lia].
    rewrite length_app. split; [done|lia].
  - assert (He1 : empty_from m (<[m := drop k xs]> qs)).
    { intros j zs Hj Hz. destruct (decide (j = m)) as [->|Hne].
      - rewrite list_lookup_insert_eq in Hz by (by eapply lookup_lt_Some). injection Hz as <-. apply drained. lia.
      - rewrite list_lookup_insert_ne in Hz by done. apply (He j); [lia|done]. }
    destruct (lookup_lt_is_Some_2 (<[m := drop k xs]> qs) m) as [zs Hz]; [rewrite length_insert; lia|].
    destruct (producer_get _ _ _ _ _ I1 Hz) as (nd & -> & _ & Hnext & _). rewrite bind_ok, Hnext.
    destruct (IH m (drop (length (take k xs)) throws) (acc ++ take k xs) q1 _ I1) as (q' & d & qs' & ps & Hr & Ht & Hans & I' & S');
      [lia|rewrite length_insert; lia|done|rewrite length_app; lia|].
    exists q', d, qs', ((m, take k xs) :: ps). split; [done|]. split; [exact (takes_app _ _ _ _ _ Ht1 Ht)|].
    split; [|split; [done|by etransitivity]]. eapply answers_rest_more; [|done]. apply drop_nonnil.
Qed.

Lemma try_dequeue_bulk_ok throws (max : nat) q qs n :
  queue_ok q qs n → ∃ q' d qs', try_dequeue_bulk throws max q = Ok (q', d) ∧
    answers_many qs throws max d qs' ∧ queue_ok q' qs' n ∧ same_list q q'.
Proof.
  intros I. destruct (queue_turns _ _ _ I) as [Ht Hf]. unfold try_dequeue_bulk. rewrite Ht.
  destruct (dequeue_bulk_each_ok max n (turns q) (length qs) throws [] q qs I) as
    (q' & d & qs' & ps & Hr & Htk & Hans & I' & S'); [lia|lia|apply empty_from_end|simpl; lia|].
  exists q', d, qs'. split_and!; [done|by eapply answers_rest_many|done|done].
Qed.

(** [size_approx] adds up all lengths. *)
Lemma sum_sizes_ok q qs n : queue_ok q qs n → ∀ fuel m size,
  (m ≤ fuel)%nat → (m ≤ length qs)%nat →
  sum_sizes fuel (before m) (u64 size) q = Ok (u64 (size + length (concat (take m qs)))).
Proof.
  intros I. induction fuel as [|fuel IH]; intros [|m] size Hm Hl; try lia; cbn [sum_sizes before].
  1-2: simpl; by rewrite Z.add_0_r.
  destruct (lookup_lt_is_Some_2 qs m) as [xs Hx]; [lia|].
  destruct (producer_get _ _ _ _ _ I Hx) as (nd & -> & Hnd & Hnext & _). rewrite bind_ok, Hnext, wrap_add_l, IH by lia.
  rewrite (size_at _ _ _ _ _ _ I Hx Hnd), (take_S_r _ _ _ Hx), concat_app, length_app. simpl. rewrite app_nil_r.
  do 2 f_equal. lia.
Qed.

Lemma size_approx_ok q qs n : queue_ok q qs n → size_approx q = Ok (u64 (length (concat qs))).
Proof.
  intros I. destruct (queue_turns _ _ _ I) as [Ht Hf]. unfold size_approx. rewrite Ht. change 0 with (u64 0).
  rewrite (sum_sizes_ok q qs n I) by lia. by rewrite firstn_all.
Qed.

(** ** With a token *)

(** The pointers of a token lead to producers of the queue. *)
Record token_ok (q : queue) (t : consumer) : Prop := {
  tk_desired i : desiredProducer t = Some i → (i < length (producers q))%nat;
  tk_current : desiredProducer t ≠ None → ∃ c, currentProducer t = Some c ∧ (c < length (producers q))%nat
}.

Lemma token_ok_same q q' t : token_ok q t → same_list q q' → token_ok q' t.
Proof. intros [T2 T3] (Hl & _). by constructor; rewrite ?Hl. Qed.

(** The producer after [i], round the list. *)
Definition following (len i : nat) : nat := match i with O => pred len | S j => j end.

Lemma next_or_ok q qs n i :
  queue_ok q qs n → (i < length qs)%nat →
  next_or (producerListTail q) i q = Ok (Some (following (length qs) i)).
Proof.
  intros I Hi. destruct (lookup_lt_is_Some_2 _ _ Hi) as [xs Hx]. destruct (producer_get _ _ _ _ _ I Hx) as (nd & Hg & _ & Hn & _).
  unfold next_or. rewrite Hg, bind_ok, Hn, (proj1 (queue_turns _ _ _ I)). destruct i; [|done]. simpl.
  by destruct (length qs); [lia|].
Qed.

(** [steps] producers on, in the list of the producers from the tail on. *)
Lemma walk_ok q qs n (steps : nat) : queue_ok q qs n → ∀ i, (i < length qs)%nat →
  walk steps (producerListTail q) (Some i) q = Ok (Some (Z.to_nat ((i - steps) mod length qs))).
Proof.
  intros I. induction steps as [|steps IH]; intros i Hi; cbn [walk].
  - rewrite Z.sub_0_r, Z.mod_small by lia. by rewrite Nat2Z.id.
  - rewrite (next_or_ok q qs n) by done. rewrite bind_ok, IH by (unfold following; destruct i; lia).
    do 3 f_equal. unfold following. destruct i as [|i].
    + replace (pred (length qs) - steps) with (0 - S steps + 1 * length qs) by lia. rewrite Z.mod_add by lia. done.
    + f_equal. lia.
Qed.

(** The first producer a token is sent to, and how far a rotation moves it. *)
Definition first_position (len : nat) (initialOffset : Z) : Z := initialOffset mod len.

(** After the rotation a token is where its offset and the rotations so far put it. *)
Lemma update_current_ok t q qs n :
  queue_ok q qs n → token_ok q t → length (producers q) < 2 ^ 32 → qs ≠ [] →
  ∃ i, update_current_producer_after_rotation t q =
      Ok (Consumer (initialOffset t) (globalExplicitConsumerOffset q) 0 (Some i) (Some i), true) ∧
    (i < length qs)%nat ∧
    i = Z.to_nat ((match desiredProducer t with
                   | None => first_position (length qs) (initialOffset t)
                   | Some d => Z.of_nat d
                   end - u32 (globalExplicitConsumerOffset q - lastKnownGlobalOffset t)) mod length qs).
Proof.
  intros I [T2 T3] Hlen Hne. pose proof (queue_length _ _ _ I) as Hl. destruct (queue_turns _ _ _ I) as [Ht _].
  assert (Hpos : (0 < length qs)%nat) by (by destruct qs; simpl; [|lia]).
  assert (Hc : producerCount q = length qs) by (rewrite (qo_count _ _ _ I), <- Hl; apply wrap_small; unfold fits; lia).
  assert (Htail : producerListTail q = Some (pred (length qs))) by (rewrite Ht; by destruct (length qs); [lia|]).
  unfold update_current_producer_after_rotation. rewrite Hc.
  rewrite decide_False by (rewrite Htail; by intros [_ ?]).
  rewrite (proj2 (Z.eqb_neq (length qs) 0)) by lia.
  assert (∃ d : nat, (d < length qs)%nat ∧ Z.of_nat d = match desiredProducer t with
      None => first_position (length qs) (initialOffset t) | Some d => Z.of_nat d end ∧
    (if decide (desiredProducer t = None)
     then r ← Ok (initialOffset t mod length qs);
          walk (Z.to_nat (u32 (length qs - 1 - r))) (producerListTail q) (producerListTail q) q
     else Ok (desiredProducer t)) = Ok (Some d)) as (d & Hd & <- & ->).
  { destruct (desiredProducer t) as [d|] eqn:Hdt; [exists d; split_and!; [rewrite Hl; by apply T2|done|done]|].
    pose proof (Z.mod_pos_bound (initialOffset t) (length qs) ltac:(lia)) as Hm.
    exists (Z.to_nat (initialOffset t mod length qs)). unfold first_position. split_and!; [lia|lia|].
    rewrite decide_True, bind_ok by done. rewrite Htail at 2. rewrite wrap_small by (unfold fits; lia).
    rewrite (walk_ok q qs n) by (done || lia). do 2 f_equal. f_equal. rewrite Z2Nat.id by lia.
    replace (pred (length qs) - (length qs - 1 - initialOffset t mod length qs)) with (initialOffset t mod length qs) by lia.
    apply Z.mod_mod. lia. }
  rewrite bind_ok. set (delta := u32 (_ - _)). pose proof (wrap_fits 32 (globalExplicitConsumerOffset q - lastKnownGlobalOffset t) ltac:(lia)) as Hf.
  assert (∃ delta', (if length qs <=? delta then Ok (delta mod length qs) else Ok delta) = Ok delta' ∧ 0 <= delta' ∧
    delta' mod length qs = delta mod length qs) as (delta' & -> & Hd0 & Hdm).
  { unfold fits in Hf. destruct (Z.leb_spec (length qs) delta); eexists; (split; [reflexivity|]).
    - split; [apply Z.mod_pos_bound; lia|apply Z.mod_mod; lia].
    - unfold delta in *. split; [lia|done]. }
  rewrite bind_ok, (walk_ok q qs n) by done. rewrite bind_ok. eexists. split; [reflexivity|]. rewrite Z2Nat.id by done.
  assert (Heq : (d - delta') mod length qs = (d - delta) mod length qs) by (rewrite Zminus_mod, Hdm, <- Zminus_mod; done).
  pose proof (Z.mod_pos_bound (d - delta) (length qs) ltac:(lia)). rewrite Heq. split; [lia|done].
Qed.

Lemma settle_ok t q qs n :
  queue_ok q qs n → token_ok q t → length (producers q) < 2 ^ 32 →
  ∃ t' b, settle t q = Ok (t', b) ∧ token_ok q t' ∧
    if b : bool then ∃ c, currentProducer t' = Some c ∧ (c < length qs)%nat else qs = [].
Proof.
  intros I K Hlen. pose proof (queue_length _ _ _ I) as Hl. unfold settle.
  assert (Hup : qs ≠ [] → ∃ t' b, update_current_producer_after_rotation t q = Ok (t', b) ∧ token_ok q t' ∧
    if b : bool then ∃ c, currentProducer t' = Some c ∧ (c < length qs)%nat else qs = []).
  { intros Hne. destruct (update_current_ok t q qs n I K Hlen Hne) as (i & -> & Hi & _). do 2 eexists. split; [reflexivity|].
    split; [|by exists i]. constructor; simpl; [intros ? [= <-]; by rewrite <- Hl|].
    intros _. exists i. by rewrite <- Hl. }
  case_decide as Hd.
  - destruct (decide (qs = [])) as [->|Hne]; [|by apply Hup].
    exists t, false. split; [|done]. unfold update_current_producer_after_rotation.
    rewrite decide_True; [done|]. split; [done|]. by rewrite (proj1 (queue_turns _ _ _ I)).
  - destruct (tk_current _ _ K Hd) as (c & Hc & Hlt). rewrite <- Hl in Hlt.
    destruct (lastKnownGlobalOffset t =? globalExplicitConsumerOffset q); [|apply Hup; intros ->; simpl in *; lia].
    exists t, true. split_and!; [done|done|by exists c].
Qed.

Lemma shift_inj m x y r : 0 <= x < m → 0 <= y < m → (x - r) mod m = (y - r) mod m → x = y.
Proof.
  intros Hx Hy He. assert (((x - r) - (y - r)) mod m = 0) as Hd by (rewrite Zminus_mod, He, Z.sub_diag; apply Z.mod_0_l; lia).
  replace (x - r - (y - r)) with (x - y) in Hd by lia. apply Z.mod_divide in Hd as [k Hk]; [|lia].
  assert (k = 0) by nia. lia.
Qed.

(** The producer the rotations have assigned to a token, counted from the oldest, or will
    assign to it first: [desiredProducer].  Between two rotations [try_dequeue] may move
    the token on to another producer, [currentProducer], when this one is empty. *)
Definition assigned (len : nat) (t : consumer) : Z :=
  match desiredProducer t with None => first_position len (initialOffset t) | Some d => d end.

(** C8: consumers spread over the producers.  Take two consumer tokens that are assigned
    different producers (their [desiredProducer]s, wherever they have found elements
    since; for new tokens, their numbers modulo the number of producers) and last saw the
    same rotation.  When both catch up with the rotations since, each is assigned the
    producer that is their number before its last one, round the list, both dequeue next
    from the producers they are assigned ([currentProducer]), these are different, and
    both have seen the same rotation again.  No division by zero, no null pointer and no
    endless walk is met on the way, however the 32-bit counters wrap. *)
Theorem consumers_spread q qs n t1 t2 :
  queue_ok q qs n → token_ok q t1 → token_ok q t2 → length (producers q) < 2 ^ 32 → qs ≠ [] →
  lastKnownGlobalOffset t1 = lastKnownGlobalOffset t2 → assigned (length qs) t1 ≠ assigned (length qs) t2 →
  ∃ t1' t2' i1 i2,
    update_current_producer_after_rotation t1 q = Ok (t1', true) ∧
    update_current_producer_after_rotation t2 q = Ok (t2', true) ∧
    currentProducer t1' = Some i1 ∧ desiredProducer t1' = Some i1 ∧
    currentProducer t2' = Some i2 ∧ desiredProducer t2' = Some i2 ∧
    lastKnownGlobalOffset t1' = lastKnownGlobalOffset t2' ∧
    Z.of_nat i1 = (assigned (length qs) t1 - u32 (globalExplicitConsumerOffset q - lastKnownGlobalOffset t1)) mod length qs ∧
    Z.of_nat i2 = (assigned (length qs) t2 - u32 (globalExplicitConsumerOffset q - lastKnownGlobalOffset t2)) mod length qs ∧
    i1 ≠ i2.
Proof.
  intros I K1 K2 Hlen Hne Hk Hp.
  assert (Hpos : 0 < length qs) by (destruct qs; simpl; [done|lia]).
  assert (Hr : ∀ t, token_ok q t → 0 <= assigned (length qs) t < length qs).
  { intros t [T1 _]. unfold assigned. destruct (desiredProducer t) as [d|]; [|by apply Z.mod_pos_bound].
    specialize (T1 d eq_refl). rewrite <- (queue_length _ _ _ I) in T1. lia. }
  destruct (update_current_ok t1 q qs n I K1 Hlen Hne) as (i1 & -> & Hi1 & E1).
  destruct (update_current_ok t2 q qs n I K2 Hlen Hne) as (i2 & -> & Hi2 & E2).
  fold (assigned (length qs) t1) in E1. fold (assigned (length qs) t2) in E2. rewrite <- Hk in E2.
  set (r := u32 _) in *. pose proof (Hr t1 K1). pose proof (Hr t2 K2).
  pose proof (Z.mod_pos_bound (assigned (length qs) t1 - r) (length qs) Hpos).
  pose proof (Z.mod_pos_bound (assigned (length qs) t2 - r) (length qs) Hpos).
  do 4 eexists. do 7 (split; [reflexivity|]). split; [lia|]. split; [rewrite <- Hk; change (Z.of_nat i2 = (assigned (length qs) t2 - r) mod length qs); rewrite E2; lia|]. intros ->.
  assert (Heq : (assigned (length qs) t1 - r) mod length qs = (assigned (length qs) t2 - r) mod length qs) by lia.
  apply Hp. apply (shift_inj (length qs) (assigned (length qs) t1) (assigned (length qs) t2) r); done.
Qed.

(** How many producers a round from [i] on still visits before it is back at [c]. *)
Definition dist (len c i : nat) : nat := if decide (c ≤ i)%nat then i - c else i + len - c.

Lemma dist_self len c : dist len c c = 0%nat.
Proof. unfold dist. rewrite decide_True by lia. lia. Qed.

Lemma dist_following len c i :
  (c < len)%nat → (i < len)%nat → i ≠ c → S (dist len c (following len i)) = dist len c i.
Proof. unfold dist, following. intros. destruct i; repeat case_decide; lia. Qed.

Lemma dist_start len c : (c < len)%nat → dist len c (following len c) = pred len.
Proof. unfold dist, following. intros. destruct c; repeat case_decide; lia. Qed.

Lemma dist_zero len c i : (c < len)%nat → (i < len)%nat → dist len c i = 0%nat → i = c.
Proof. unfold dist. intros. case_decide; lia. Qed.

Lemma dist_bound len c i : (c < len)%nat → (i < len)%nat → (dist len c i < len)%nat.
Proof. unfold dist. intros. case_decide; lia. Qed.

Lemma dist_inj len c i j :
  (c < len)%nat → (i < len)%nat → (j < len)%nat → dist len c i = dist len c j → i = j.
Proof. unfold dist. intros. repeat case_decide; lia. Qed.

(** The same from another producer. *)
Lemma dist_change len c i j :
  (c < len)%nat → (i < len)%nat → (j < len)%nat →
  dist len i j = (if decide (dist len c i ≤ dist len c j) then dist len c j - dist len c i
                  else dist len c j + len - dist len c i)%nat.
Proof. unfold dist. intros. repeat case_decide; lia. Qed.

Lemma following_bound len i : (i < len)%nat → (following len i < len)%nat.
Proof. unfold following. destruct i; lia. Qed.

(** The producers that are known to be empty: those the round has passed, and those up
    to [w] before the current one. *)
Definition known_empty (qs : list (list T)) (c i w : nat) : Prop :=
  ∀ j xs, qs !! j = Some xs →
    (dist (length qs) c i < dist (length qs) c j ∨ dist (length qs) c j ≤ w)%nat → xs = [].

Lemma known_all qs c w : (c < length qs)%nat → known_empty qs c c w → all_empty qs.
Proof.
  intros Hc K. apply Forall_forall. intros xs [j Hj]%list_elem_of_lookup. apply (K j); [done|].
  rewrite dist_self. lia.
Qed.

Lemma known_pass qs c i xs w :
  (c < length qs)%nat → qs !! i = Some xs → i ≠ c → known_empty qs c i w → xs = [] →
  known_empty qs c (following (length qs) i) w.
Proof.
  intros Hc Hi Hne K -> j ys Hj Hd. pose proof (lookup_lt_Some _ _ _ Hi). pose proof (lookup_lt_Some _ _ _ Hj).
  pose proof (dist_following (length qs) c i Hc ltac:(done) Hne).
  destruct (decide (j = i)) as [->|]; [congruence|]. apply (K j ys Hj).
  assert (dist (length qs) c j ≠ dist (length qs) c i) by (intros ?%dist_inj; done). lia.
Qed.

Lemma known_start qs c xs : (c < length qs)%nat → qs !! c = Some xs → xs = [] →
  known_empty qs c (following (length qs) c) 0.
Proof.
  intros Hc Hx -> j ys Hj [Hd|Hd].
  - rewrite (dist_start _ _ Hc) in Hd. pose proof (dist_bound (length qs) c j Hc (lookup_lt_Some _ _ _ Hj)). lia.
  - assert (j = c) as -> by (apply (dist_zero (length qs)); [done|by eapply lookup_lt_Some|lia]). congruence.
Qed.

Lemma token_current q t i m :
  token_ok q t → (i < length (producers q))%nat → token_ok q (set_current t i m).
Proof. intros [T2 T3] Hi. constructor; simpl; [done|]. intros _. by exists i. Qed.

Lemma search_ok throws n t c : currentProducer t = Some c → ∀ fuel i q qs,
  queue_ok q qs n → token_ok q t → (c < length qs)%nat → (i < length qs)%nat →
  (dist (length qs) c i ≤ fuel)%nat → known_empty qs c i 0 →
  ∃ q' t' d qs', search fuel (producerListTail q) (Some i) throws t q = Ok (q', t', d) ∧
    answers_one qs throws d qs' ∧ queue_ok q' qs' n ∧ same_list q q' ∧ token_ok q' t'.
Proof.
  intros Hcur. induction fuel as [|fuel IH]; intros i q qs I K Hc Hi Hf He.
  { assert (i = c) as -> by (apply (dist_zero (length qs)); [done|done|lia]). simpl. rewrite decide_True by done.
    exists q, t, Nothing, qs. split_and!; [done|by eapply taken_none, known_all|done|done|done]. }
  cbn [search]. rewrite Hcur. case_decide as Hd.
  { injection Hd as ->. exists q, t, Nothing, qs. split_and!; [done|by eapply taken_none, known_all|done|done|done]. }
  assert (Hne : i ≠ c) by congruence. destruct (lookup_lt_is_Some_2 qs i Hi) as [xs Hx].
  destruct (dequeue_from_ok throws i q qs n xs I Hx) as (q1 & -> & I1 & S1). rewrite bind_ok.
  destruct xs as [|x xs].
  - simpl in I1. rewrite list_insert_id in I1 by done. pose proof S1 as (Hl & Ht & _). rewrite <- Ht.
    rewrite (next_or_ok _ _ _ _ I1 Hi), bind_ok.
    pose proof (dist_following _ _ _ Hc Hi Hne).
    destruct (IH (following (length qs) i) q1 qs I1) as (q' & t' & d & qs' & Hr & Ha & I' & S' & K');
      [by eapply token_ok_same|done|by apply following_bound|lia|by eapply known_pass|].
    exists q', t', d, qs'. split_and!; [done|done|done|by etransitivity|done].
  - pose proof (token_ok_same _ _ _ K S1). exists q1, (if throws then t else set_current t i 1),
      (if throws then Lost else Got x), (<[i := xs]> qs).
    split_and!; [by destruct throws|by apply taken_first|done|done|].
    destruct throws; [done|]. apply token_current; [done|]. by rewrite <- (queue_length _ _ _ I1), length_insert.
Qed.

Lemma rotate_ok q qs n : queue_ok q qs n → queue_ok (rotate q) qs n.
Proof. by intros []. Qed.

(** Whether a call made the consumers rotate, the list is as before. *)
Definition same_but_offset (q q' : queue) : Prop :=
  length (producers q') = length (producers q) ∧ (queue_ample q → queue_ample q').

Lemma same_list_but q q' : same_list q q' → same_but_offset q q'.
Proof. by intros (? & _ & _ & _ & ?). Qed.

Lemma try_dequeue_token_ok throws t q qs n :
  queue_ok q qs n → token_ok q t → length (producers q) < 2 ^ 32 →
  ∃ q' t' d qs', try_dequeue_token throws t q = Ok (q', t', d) ∧
    answers_one qs throws d qs' ∧ queue_ok q' qs' n ∧ same_but_offset q q' ∧ token_ok q' t'.
Proof.
  intros I K Hlen. unfold try_dequeue_token. destruct (settle_ok t q qs n I K Hlen) as (t1 & b & -> & K1 & Hb).
  rewrite bind_ok. destruct b; cbn [negb].
  2:{ subst qs. exists q, t1, Nothing, []. split_and!; [done|apply taken_none; constructor|done|done|done]. }
  destruct Hb as (c & Hc & Hlt). rewrite Hc. destruct (lookup_lt_is_Some_2 qs c Hlt) as [xs Hx].
  destruct (dequeue_from_ok throws c q qs n xs I Hx) as (q1 & -> & I1 & S1). rewrite bind_ok.
  pose proof (token_ok_same _ _ _ K1 S1) as K2. destruct xs as [|x xs].
  - simpl in I1. rewrite list_insert_id in I1 by done. rewrite (next_or_ok _ _ _ _ I1 Hlt), bind_ok.
    destruct (search_ok throws n t1 c Hc (turns q1) (following (length qs) c) q1 qs I1 K2 Hlt)
      as (q' & t' & d & qs' & Hr & Ha & I' & S' & K'); [by apply following_bound| |by eapply known_start|].
    { rewrite dist_start by done. pose proof (queue_turns _ _ _ I1). lia. }
    exists q', t', d, qs'. split_and!; [done|done|done|apply same_list_but; by etransitivity|done].
  - destruct throws.
    + exists q1, t1, Lost, (<[c := xs]> qs). split_and!; [done|exact (taken_first qs c x xs true Hx)|done|by apply same_list_but|done].
    + pose proof (taken_first qs c x xs false Hx) as Ha. set (t2 := set_consumed _ _).
      assert (K3 : token_ok q1 t2) by (by destruct K2).
      destruct (_ =? _).
      * exists (rotate q1), t2, (Got x), (<[c := xs]> qs).
        split; [done|]. split; [done|]. split; [by apply rotate_ok|].
        split; [exact (same_list_but _ _ S1)|by destruct K3].
      * exists q1, t2, (Got x), (<[c := xs]> qs). split; [done|]. split; [done|]. split; [done|].
        split; [by apply same_list_but|done].
Qed.

(** Turns that are left: at most once round the producers not known to be empty, and
    once more round all. *)
Definition rounds (len c i w : nat) : nat :=
  if decide (dist len c i ≤ w)%nat then dist len c i else dist len c i - w + len.

(** A producer that gave all it had becomes the current one. *)
Lemma known_moved qs c i xs ys w :
  (c < length qs)%nat → qs !! i = Some xs → (w < dist (length qs) c i)%nat → known_empty qs c i w → ys = [] →
  let w' := (length qs - dist (length qs) c i + w)%nat in
  known_empty (<[i := ys]> qs) i (following (length qs) i) w' ∧
  (S (rounds (length qs) i (following (length qs) i) w') ≤ rounds (length qs) c i w)%nat.
Proof.
  intros Hc Hi Hw K -> w'. pose proof (lookup_lt_Some _ _ _ Hi) as Hl.
  pose proof (dist_start (length qs) i Hl) as Hs. pose proof (dist_bound (length qs) c i Hc Hl). split.
  - intros j zs Hj Hd. pose proof (lookup_lt_Some _ _ _ Hj) as Hlj. rewrite length_insert in *.
    destruct (decide (j = i)) as [->|Hne].
    { rewrite list_lookup_insert_eq in Hj by done. by injection Hj as <-. }
    rewrite list_lookup_insert_ne in Hj by done. apply (K j zs Hj).
    pose proof (dist_bound (length qs) i j Hl Hlj). pose proof (dist_change (length qs) c i j Hc Hl Hlj) as Hch.
    assert (dist (length qs) c j ≠ dist (length qs) c i) by (intros ?%dist_inj; done).
    case_decide; lia.
  - unfold rounds. rewrite Hs. repeat case_decide; lia.
Qed.

Lemma rounds_following len c i w :
  (c < len)%nat → (i < len)%nat → i ≠ c → (S (rounds len c (following len i) w) ≤ rounds len c i w)%nat.
Proof.
  intros Hc Hi Hne. pose proof (dist_following len c i Hc Hi Hne). pose proof (dist_bound len c i Hc Hi).
  unfold rounds. repeat case_decide; lia.
Qed.

Lemma search_bulk_ok n : ∀ fuel i throws (max : nat) acc t c w q qs,
  currentProducer t = Some c → queue_ok q qs n → token_ok q t → (c < length qs)%nat → (i < length qs)%nat →
  (rounds (length qs) c i w ≤ fuel)%nat → known_empty qs c i w → (0 < max)%nat →
  ∃ q' t' d qs' ps, search_bulk fuel (producerListTail q) (Some i) throws max acc t q = Ok (q', t', d) ∧
    takes qs ps qs' ∧ answers_rest throws (length acc + max) acc ps d qs' ∧
    queue_ok q' qs' n ∧ same_list q q' ∧ token_ok q' t'.
Proof.
  assert (Hdone : ∀ fuel throws (max : nat) acc t c w q qs,
    currentProducer t = Some c → queue_ok q qs n → token_ok q t → (c < length qs)%nat → known_empty qs c c w →
    ∃ q' t' d qs' ps, search_bulk fuel (producerListTail q) (Some c) throws max acc t q = Ok (q', t', d) ∧
      takes qs ps qs' ∧ answers_rest throws (length acc + max) acc ps d qs' ∧
      queue_ok q' qs' n ∧ same_list q q' ∧ token_ok q' t').
  { intros fuel throws max acc t c w q qs Hcur I K Hc He. exists q, t, (GotMany acc), qs, [].
    split. { destruct fuel; simpl; by rewrite decide_True. }
    split; [constructor|]. split; [|done]. split; [|simpl; lia]. split; [by rewrite app_nil_r|].
    intros _. by eapply known_all. }
  induction fuel as [|fuel IH]; intros i throws max acc t c w q qs Hcur I K Hc Hi Hf He Hpos;
    (destruct (decide (i = c)) as [->|Hne]; [by eapply Hdone|]).
  { exfalso. pose proof (rounds_following (length qs) c i w Hc Hi Hne). lia. }
  cbn [search_bulk]. rewrite decide_False by (rewrite Hcur; congruence).
  destruct (lookup_lt_is_Some_2 qs i Hi) as [xs Hx].
  destruct (dequeue_bulk_from_ok throws max i q qs n xs I Hx) as (q1 & d & -> & Hd & I1 & S1).
  rewrite bind_ok. pose proof (takes_bulk qs i xs max Hx) as Ht1.
  assert (Hk : (length (take max xs) ≤ max)%nat) by (rewrite length_take; lia).
  pose proof (token_ok_same _ _ _ K S1) as K1. destruct d as [ys|ys].
  2:{ destruct Hd as [Hth Hp]. exists q1, t, (LostMany (acc ++ ys)), (<[i := drop max xs]> qs), [(i, take max xs)].
      split; [done|]. split; [done|]. split; [apply answers_rest_lost; [done|done|lia]|done]. }
  subst ys. set (t1 := if decide _ then t else _).
  assert (K2 : token_ok q1 t1).
  { unfold t1. case_decide; [done|]. apply token_current; [done|].
    by rewrite <- (queue_length _ _ _ I1), length_insert. }
  destruct (Z.eqb_spec (length (take max xs)) max) as [Hfull|Hless].
  { exists q1, t1, (GotMany (acc ++ take max xs)), (<[i := drop max xs]> qs), [(i, take max xs)].
    split; [done|]. split; [done|]. split; [|done]. split; simpl; rewrite app_nil_r; [|lia].
    rewrite length_app. split; [done|lia]. }
  assert (Hdrained : drop max xs = []) by (apply drained; lia).
  pose proof S1 as (_ & Htl & _). rewrite <- Htl.
  assert (Hi1 : (i < length (<[i := drop max xs]> qs))%nat) by (by rewrite length_insert).
  rewrite (next_or_ok _ _ _ _ I1 Hi1), bind_ok, length_insert.
  replace (Z.of_nat max - length (take max xs)) with (Z.of_nat (max - length (take max xs))) by lia.
  assert (∃ c1 w1, currentProducer t1 = Some c1 ∧ (c1 < length qs)%nat ∧
    known_empty (<[i := drop max xs]> qs) c1 (following (length qs) i) w1 ∧
    (rounds (length qs) c1 (following (length qs) i) w1 ≤ fuel)%nat) as (c1 & w1 & Hcur1 & Hc1 & He1 & Hf1).
  { unfold t1. case_decide as Hnil.
    - assert (xs = []) as -> by (destruct xs, max; simpl in *; by try lia). exists c, w.
      rewrite drop_nil, list_insert_id by done. split_and!; [done|done|by eapply known_pass|].
      pose proof (rounds_following (length qs) c i w Hc Hi Hne). lia.
    - assert (Hw : (w < dist (length qs) c i)%nat).
      { destruct (decide (dist (length qs) c i ≤ w)%nat); [|lia]. exfalso. apply Hnil.
        rewrite (He i xs Hx) by (by right). by rewrite take_nil. }
      destruct (known_moved qs c i xs (drop max xs) w Hc Hx Hw He Hdrained) as [He1 Hr1].
      exists i. eexists. split_and!; [done|done|exact He1|lia]. }
  destruct (IH (following (length qs) i) (drop (length (take max xs)) throws) (max - length (take max xs))%nat
    (acc ++ take max xs) t1 c1 w1 q1 _ Hcur1 I1 K2) as (q' & t' & d & qs' & ps & Hr & Htk & Ha & I' & S' & K');
    rewrite ?length_insert; try done; [by apply following_bound|lia|].
  exists q', t', d, qs', ((i, take max xs) :: ps). split; [done|]. split; [exact (takes_app _ _ _ _ _ Ht1 Htk)|].
  split; [|split; [done|split; [by etransitivity|done]]].
  eapply answers_rest_more; [by apply drop_nonnil|].
  by replace (length acc + max)%nat with (length (acc ++ take max xs) + (max - length (take max xs)))%nat
    by (rewrite length_app; lia).
Qed.

Lemma try_dequeue_bulk_token_ok throws (max : nat) t q qs n :
  queue_ok q qs n → token_ok q t → length (producers q) < 2 ^ 32 →
  ∃ q' t' d qs', try_dequeue_bulk_token throws max t q = Ok (q', t', d) ∧
    answers_many qs throws max d qs' ∧ queue_ok q' qs' n ∧ same_but_offset q q' ∧ token_ok q' t'.
Proof.
  intros I K Hlen. unfold try_dequeue_bulk_token. destruct (settle_ok t q qs n I K Hlen) as (t1 & b & -> & K1 & Hb).
  rewrite bind_ok. destruct b; cbn [negb].
  2:{ subst qs. exists q, t1, (GotMany []), []. split; [done|]. split; [|done]. exists [].
      split; [constructor|]. split; [done|]. split; [simpl; lia|]. intros _. constructor. }
  destruct Hb as (c & Hc & Hlt). rewrite Hc. destruct (lookup_lt_is_Some_2 qs c Hlt) as [xs Hx].
  destruct (dequeue_bulk_from_ok throws max c q qs n xs I Hx) as (q1 & d & -> & Hd & I1 & S1). rewrite bind_ok.
  pose proof (token_ok_same _ _ _ K1 S1) as K2. pose proof (takes_bulk qs c xs max Hx) as Ht1.
  assert (Hk : (length (take max xs) ≤ max)%nat) by (rewrite length_take; lia).
  destruct d as [ys|ys].
  2:{ destruct Hd as [Hth Hp]. exists q1, t1, (LostMany ys), (<[c := drop max xs]> qs). split; [done|].
      split; [|split; [done|split; [by apply same_list_but|done]]].
      eapply answers_rest_many; [exact Ht1|]. apply (answers_rest_lost throws max [] max c xs ys); [done|done|simpl; lia]. }
  subst ys. destruct (Z.eqb_spec (length (take max xs)) max) as [Hfull|Hless].
  - set (t2 := set_consumed _ _). assert (K3 : token_ok q1 t2) by (by destruct K2).
    assert (Ha : answers_many qs throws max (GotMany (take max xs)) (<[c := drop max xs]> qs)).
    { exists [(c, take max xs)]. split; [done|]. split; [simpl; by rewrite app_nil_r|]. split; [done|lia]. }
    destruct (_ <=? _).
    + exists (rotate q1), t2, (GotMany (take max xs)), (<[c := drop max xs]> qs). split; [done|]. split; [done|].
      split; [by apply rotate_ok|]. split; [exact (same_list_but _ _ S1)|by destruct K3].
    + exists q1, t2, (GotMany (take max xs)), (<[c := drop max xs]> qs). split; [done|]. split; [done|].
      split; [done|]. split; [by apply same_list_but|done].
  - set (t2 := set_consumed _ _). assert (K3 : token_ok q1 t2) by (by destruct K2).
    assert (Hlt1 : (c < length (<[c := drop max xs]> qs))%nat) by (by rewrite length_insert).
    rewrite (next_or_ok _ _ _ _ I1 Hlt1), bind_ok.
    replace (Z.of_nat max - length (take max xs)) with (Z.of_nat (max - length (take max xs))) by lia.
    destruct (search_bulk_ok n (2 * turns q1) (following (length (<[c := drop max xs]> qs)) c)
      (drop (length (take max xs)) throws) (max - length (take max xs)) (take max xs) t2 c 0 q1 _ Hc I1 K3 Hlt1)
      as (q' & t' & d & qs' & ps & Hr & Htk & Ha & I' & S' & K').
    + by apply following_bound.
    + pose proof (queue_turns _ _ _ I1). unfold rounds. rewrite dist_start by done. case_decide; lia.
    + apply (known_start _ _ (drop max xs) Hlt1); [by apply list_lookup_insert_eq|apply drained; lia].
    + lia.
    + exists q', t', d, qs'. split; [done|]. split; [|split; [done|split; [|done]]].
      * eapply answers_rest_many; [exact (takes_app _ _ _ _ _ Ht1 Htk)|].
        eapply (answers_rest_more _ _ _ []); [by apply drop_nonnil|].
        by replace (length (take max xs) + (max - length (take max xs)))%nat with max in Ha by lia.
      * apply same_list_but. by etransitivity.
Qed.

(** ** The list of producers *)

(** ** Counting up to the quota *)

(** [k] calls of [try_dequeue] with one token. *)
Fixpoint try_dequeues (k : nat) (t : consumer) (q : queue) : result (queue * consumer * list (dequeued T)) :=
  match k with
  | O => Ok (q, t, [])
  | S k =>
      '(q, t, d) ← try_dequeue_token false t q;
      '(q, t, ds) ← try_dequeues k t q;
      Ok (q, t, d :: ds)
  end.

Lemma try_dequeues_snoc k : ∀ t q q1 t1 ds q2 t2 d,
  try_dequeues k t q = Ok (q1, t1, ds) → try_dequeue_token false t1 q1 = Ok (q2, t2, d) →
  try_dequeues (S k) t q = Ok (q2, t2, ds ++ [d]).
Proof.
  induction k as [|k IH]; intros t q q1 t1 ds q2 t2 d H1 H2.
  - injection H1 as -> -> <-. cbn [try_dequeues]. by rewrite H2.
  - cbn [try_dequeues] in H1. change (try_dequeues (S (S k)) t q) with
      ('(q, t, d) ← try_dequeue_token false t q; '(q, t, ds) ← try_dequeues (S k) t q; Ok (q, t, d :: ds)).
    destruct (try_dequeue_token false t q) as [[[q' t'] d']| | |]; [|done..]. rewrite bind_ok in *.
    destruct (try_dequeues k t' q') as [[[q'' t''] ds']| | |] eqn:Hk; [|done..]. rewrite bind_ok in H1. injection H1 as -> -> <-.
    by rewrite (IH _ _ _ _ _ _ _ _ Hk H2).
Qed.

(** A token that has seen the last rotation is at the producer [i] and has taken [c]
    elements of its quota. *)
Record settled (q : queue) (t : consumer) (i : nat) (c : Z) : Prop := {
  st_desired : desiredProducer t ≠ None;
  st_offset : lastKnownGlobalOffset t = globalExplicitConsumerOffset q;
  st_current : currentProducer t = Some i;
  st_consumed : itemsConsumedFromCurrent t = c
}.

Lemma settled_settle q t i c : settled q t i c → settle t q = Ok (t, true).
Proof. intros [D O _ _]. unfold settle. rewrite decide_False by done. by rewrite O, Z.eqb_refl. Qed.

Lemma settled_one q qs n t i c x xs :
  queue_ok q qs n → settled q t i c → qs !! i = Some (x :: xs) → fits 32 (c + 1) →
  ∃ q' t', try_dequeue_token false t q = Ok (q', t', Got x) ∧ queue_ok q' (<[i := xs]> qs) n ∧
    (c + 1 ≠ EXPLICIT_CONSUMER_CONSUMPTION_QUOTA_BEFORE_ROTATE →
     settled q' t' i (c + 1) ∧ globalExplicitConsumerOffset q' = globalExplicitConsumerOffset q) ∧
    (c + 1 = EXPLICIT_CONSUMER_CONSUMPTION_QUOTA_BEFORE_ROTATE →
     globalExplicitConsumerOffset q' = u32 (globalExplicitConsumerOffset q + 1)).
Proof.
  intros I S Hx Hf. unfold try_dequeue_token. rewrite (settled_settle _ _ _ _ S), bind_ok. destruct S as [D O C M].
  cbn [negb]. rewrite C. destruct (dequeue_from_ok false i q qs n _ I Hx) as (q1 & -> & I1 & _ & _ & _ & G & _).
  rewrite bind_ok. cbn [itemsConsumedFromCurrent set_consumed]. rewrite M, wrap_small by done.
  do 2 eexists. split; [reflexivity|]. split; [by case_match; [apply rotate_ok|]|]. split.
  - intros Hne. rewrite (proj2 (Z.eqb_neq _ _)) by done. split; [|done]. split; simpl; by rewrite ?G.
  - intros ->. rewrite Z.eqb_refl. simpl. by rewrite G.
Qed.

Lemma settled_many k : ∀ q qs n t i c xs,
  queue_ok q qs n → settled q t i c → qs !! i = Some xs → (k ≤ length xs)%nat → 0 <= c → c + k < 2 ^ 32 →
  (∀ j : nat, (j < k)%nat → c + j + 1 ≠ EXPLICIT_CONSUMER_CONSUMPTION_QUOTA_BEFORE_ROTATE) →
  ∃ q' t', try_dequeues k t q = Ok (q', t', Got <$> take k xs) ∧ queue_ok q' (<[i := drop k xs]> qs) n ∧
    settled q' t' i (c + k) ∧ globalExplicitConsumerOffset q' = globalExplicitConsumerOffset q.
Proof.
  induction k as [|k IH]; intros q qs n t i c xs I S Hx Hk Hc Hf Hj; cbn [try_dequeues].
  { exists q, t. rewrite list_insert_id, Z.add_0_r by done. by split. }
  destruct xs as [|x xs]; [simpl in Hk; lia|].
  destruct (settled_one q qs n t i c x xs I S Hx) as (q1 & t1 & -> & I1 & Hn & _); [unfold fits; lia|].
  rewrite bind_ok. destruct Hn as [S1 G1]; [specialize (Hj 0%nat); lia|].
  destruct (IH q1 (<[i := xs]> qs) n t1 i (c + 1) xs I1 S1) as (q2 & t2 & -> & I2 & S2 & G2); try lia.
  - apply list_lookup_insert_eq. by eapply lookup_lt_Some.
  - simpl in Hk. lia.
  - intros j Hjk. specialize (Hj (Datatypes.S j)). lia.
  - rewrite bind_ok. exists q2, t2. rewrite list_insert_insert_eq in I2. split; [done|]. split; [done|].
    rewrite G2, G1. split; [|done]. by replace (c + Datatypes.S k) with (c + 1 + k) by lia.
Qed.

Lemma search_bulk_nothing n t c : currentProducer t = Some c → ∀ fuel i (max : nat) acc q qs,
  queue_ok q qs n → (c < length qs)%nat → (i < length qs)%nat → (dist (length qs) c i ≤ fuel)%nat →
  all_empty qs → (0 < max)%nat →
  ∃ q', search_bulk fuel (producerListTail q) (Some i) [] max acc t q = Ok (q', t, GotMany acc) ∧
    queue_ok q' qs n ∧ same_list q q'.
Proof.
  intros Hcur. induction fuel as [|fuel IH]; intros i max acc q qs I Hc Hi Hf He Hm.
  all: destruct (decide (i = c)) as [->|Hne]; [exists q; split; [by simpl; rewrite decide_True|done]|].
  { destruct Hne. by apply (dist_zero (length qs)); [..|lia]. }
  cbn [search_bulk]. rewrite decide_False by (rewrite Hcur; congruence).
  destruct (lookup_lt_is_Some_2 qs i Hi) as [xs Hx]. rewrite (all_empty_at _ _ _ He Hx) in Hx.
  destruct (dequeue_bulk_from_ok [] max i q qs n [] I Hx) as (q1 & d & -> & Hd & I1 & S1). rewrite bind_ok.
  rewrite drop_nil, list_insert_id in I1 by done. rewrite take_nil in Hd.
  destruct d as [ys|ys]; [subst ys|by destruct Hd].
  rewrite decide_True by done. cbn [length]. rewrite (proj2 (Z.eqb_neq _ _)) by lia.
  pose proof S1 as (_ & Htl & _). rewrite <- Htl, (next_or_ok _ _ _ _ I1 Hi), bind_ok, app_nil_r.
  pose proof (dist_following _ _ _ Hc Hi Hne). rewrite Z.sub_0_r.
  destruct (IH (following (length qs) i) max acc q1 qs I1) as (q' & Hr & I' & S');
    [done|by apply following_bound|lia|done|done|].
  exists q'. split; [done|]. split; [done|by etransitivity].
Qed.

(** C24: [try_dequeue] with a token compares the count of the elements taken from the
    current producer with the quota by [==].  While a token that has seen the last
    rotation has taken less than its quota, single calls make all consumers rotate
    exactly when they complete it.  A bulk call that gets less than it asked for, the
    other producers being empty, adds what it got to the count without comparing; and
    when the count has reached or passed the quota in this way, no number of single calls
    that find elements makes the consumers rotate, until the 32-bit counter wraps: the
    token stays at its producer. *)
Theorem bulk_skips_rotation q qs n t i c xs :
  fits 32 EXPLICIT_CONSUMER_CONSUMPTION_QUOTA_BEFORE_ROTATE →
  queue_ok q qs n → settled q t i c → qs !! i = Some xs → 0 <= c →
  let quota := EXPLICIT_CONSUMER_CONSUMPTION_QUOTA_BEFORE_ROTATE in
  (∀ k : nat, (k ≤ length xs)%nat → k ≠ 0%nat → c + k = quota →
     ∃ q' t', try_dequeues k t q = Ok (q', t', Got <$> take k xs) ∧
       globalExplicitConsumerOffset q' = u32 (globalExplicitConsumerOffset q + 1)) ∧
  (∀ max : nat, (length xs < max)%nat → all_empty (<[i := []]> qs) → c + length xs < 2 ^ 32 →
     ∃ q' t', try_dequeue_bulk_token [] max t q = Ok (q', t', GotMany xs) ∧
       settled q' t' i (c + length xs) ∧ globalExplicitConsumerOffset q' = globalExplicitConsumerOffset q) ∧
  (∀ k : nat, (k ≤ length xs)%nat → quota <= c → c + k < 2 ^ 32 →
     ∃ q' t', try_dequeues k t q = Ok (q', t', Got <$> take k xs) ∧
       settled q' t' i (c + k) ∧ globalExplicitConsumerOffset q' = globalExplicitConsumerOffset q).
Proof.
  intros Hq I S Hx Hc quota. split; [|split].
  - intros k Hk Hpos Heq. destruct k as [|k]; [done|].
    destruct (settled_many k q qs n t i c xs I S Hx) as (q1 & t1 & H1 & I1 & S1 & G1);
      [lia|done|unfold fits in Hq; fold quota in Hq; lia|fold quota; lia|].
    destruct (drop k xs) as [|x rest] eqn:Hd; [apply (f_equal length) in Hd; rewrite length_drop in Hd; simpl in Hd; lia|].
    destruct (settled_one q1 _ n t1 i (c + k) x rest I1 S1) as (q2 & t2 & H2 & _ & _ & Hr).
    + apply list_lookup_insert_eq. by eapply lookup_lt_Some.
    + unfold fits in *. fold quota in Hq. lia.
    + exists q2, t2. rewrite Hr, G1 by (fold quota; lia). split; [|done].
      assert (take (Datatypes.S k) xs = take k xs ++ [x]) as ->.
      { apply take_S_r. pose proof (lookup_drop xs k 0) as Hl. rewrite Hd, Nat.add_0_r in Hl. by symmetry. }
      rewrite fmap_app. by eapply try_dequeues_snoc.
  - intros max Hmax He Hf. unfold try_dequeue_bulk_token. rewrite (settled_settle _ _ _ _ S), bind_ok.
    destruct S as [D O C M]. cbn [negb]. rewrite C.
    destruct (dequeue_bulk_from_ok [] max i q qs n xs I Hx) as (q1 & d & -> & Hd & I1 & _ & Ht & _ & G & _). rewrite bind_ok.
    destruct d as [ys|ys]; [|by destruct Hd]. rewrite take_ge in Hd by lia. subst ys.
    rewrite (proj2 (Z.eqb_neq _ _)) by lia. pose proof (lookup_lt_Some _ _ _ Hx) as Hi.
    rewrite drop_ge in I1 by lia. set (qs1 := <[i := []]> qs) in *.
    assert (Hi1 : (i < length qs1)%nat) by (unfold qs1; by rewrite length_insert).
    rewrite (next_or_ok _ _ _ _ I1 Hi1), bind_ok. set (t2 := set_consumed _ _).
    replace (Z.of_nat max - length xs) with (Z.of_nat (max - length xs)) by lia. rewrite drop_nil.
    destruct (search_bulk_nothing n t2 i C (2 * turns q1) (following (length qs1) i) (max - length xs) xs q1 qs1)
      as (q2 & Hr & _ & _ & _ & _ & G2 & _); [done|done|by apply following_bound| |done|lia|].
    { rewrite dist_start by done. pose proof (queue_turns _ _ _ I1). lia. }
    exists q2, t2. split; [exact Hr|]. split; [|congruence].
    split; [done|simpl; congruence|done|simpl]. rewrite M. apply wrap_small. unfold fits. lia.
  - intros k Hk Hqc Hf. destruct (settled_many k q qs n t i c xs I S Hx) as (q1 & t1 & H1 & _ & S1 & G1); [lia..| |eauto].
    intros j Hj. fold quota. lia.
Qed.

Lemma find_inactive_ok q qs n x : queue_ok q qs n → ∀ fuel m,
  (m ≤ fuel)%nat → (m ≤ length qs)%nat →
  ∃ o, find_inactive fuel (before m) x q = Ok o ∧
    ∀ i, o = Some i → ∃ nd, producers q !! i = Some nd ∧ inactive nd = true ∧ isExplicit (sub nd) = x.
Proof.
  intros I. induction fuel as [|fuel IH]; intros [|m] Hm Hl; try lia; cbn [find_inactive before].
  1-2: by exists None.
  destruct (lookup_lt_is_Some_2 qs m) as [xs Hx]; [lia|].
  destruct (producer_get _ _ _ _ _ I Hx) as (nd & -> & Hnd & Hnext & _). rewrite bind_ok.
  destruct (inactive nd && Bool.eqb (isExplicit (sub nd)) x) eqn:Hb.
  - apply andb_prop in Hb as [Hi He]. apply Bool.eqb_prop in He. exists (Some m). split; [done|].
    intros i [= <-]. by exists nd.
  - rewrite Hnext. apply IH; lia.
Qed.

(** Marks leave the producers' queues and the links alone. *)
Class Marks (f : node → node) : Prop := marks_node nd : sub (f nd) = sub nd ∧ next_prod (f nd) = next_prod nd.
#[global] Instance set_inactive_marks b : Marks (λ n, Node (sub n) (next_prod n) b (token n)).
Proof. done. Qed.
#[global] Instance set_token_marks o : Marks (λ n, Node (sub n) (next_prod n) (inactive n) o).
Proof. done. Qed.

Lemma mark_lookup q i f j nd :
  producers (mark q i f) !! j = Some nd → ∃ nd0, producers q !! j = Some nd0 ∧ nd = if decide (j = i) then f nd0 else nd0.
Proof.
  simpl. destruct (decide (j = i)) as [->|Hne].
  - rewrite list_lookup_alter_eq. destruct (producers q !! i) as [nd0|]; [|done]. intros [= <-]. by exists nd0.
  - rewrite list_lookup_alter_ne by done. intros Hj. by exists nd.
Qed.

Lemma mark_subs q i f `{!Marks f} : sub <$> producers (mark q i f) = sub <$> producers q.
Proof.
  simpl. apply list_eq. intros j. rewrite !list_lookup_fmap. destruct (decide (j = i)) as [->|Hne].
  - rewrite list_lookup_alter_eq. destruct (producers q !! i) as [nd|]; [|done]. simpl. by rewrite (proj1 (marks_node nd)).
  - by rewrite list_lookup_alter_ne.
Qed.

Lemma mark_ok q qs n i f `{!Marks f} : queue_ok q qs n → queue_ok (mark q i f) qs n.
Proof.
  intros [I1 I2 I3 I4]. constructor; [by rewrite mark_subs|simpl; by rewrite length_alter| |simpl; by rewrite length_alter].
  intros j nd (nd0 & Hj & ->)%mark_lookup. specialize (I3 j nd0 Hj). case_decide; [|done]. by rewrite (proj2 (marks_node nd0)).
Qed.

Lemma mark_same q i f `{!Marks f} : same_list q (mark q i f).
Proof. unfold same_list, queue_ample. rewrite mark_subs by done. simpl. by rewrite length_alter. Qed.

Lemma recycle_or_create_ok x q qs n :
  queue_ok q qs n →
  ∃ q' o recycled, recycle_or_create_producer x q = Ok (q', o, recycled) ∧
    match o with
    | Some i => (∃ nd, producers q' !! i = Some nd ∧ isExplicit (sub nd) = x ∧ inactive nd = false) ∧
        if recycled : bool
        then (∃ nd, producers q !! i = Some nd ∧ inactive nd = true) ∧ queue_ok q' qs n ∧ same_list q q'
        else i = length (producers q) ∧ length (producers q') = S i ∧ queue_ok q' (qs ++ [[]]) n
    | None => recycled = false ∧ queue_ok q' qs n ∧ length (producers q') = length (producers q)
    end ∧ (queue_ample q → is_Some o ∧ queue_ample q').
Proof.
  intros I. destruct (queue_turns _ _ _ I) as [Ht Hf]. unfold recycle_or_create_producer. rewrite Ht.
  destruct (find_inactive_ok q qs n x I (turns q) (length qs)) as (o & -> & Ho); [lia|lia|]. rewrite bind_ok.
  destruct o as [i|].
  - destruct (Ho i eq_refl) as (nd & Hnd & Hin & He). exists (set_inactive q i false), (Some i), true.
    assert (S1 : same_list q (set_inactive q i false)) by (apply mark_same, _). split; [done|]. split; [split|].
    + eexists. simpl. rewrite list_lookup_alter_eq, Hnd. simpl. by split.
    + split_and!; [by exists nd|apply mark_ok; [apply _|done]|done].
    + intros Ha. split; [done|]. by apply S1.
  - destruct (create_law x _ _ _ _ (qo_holds _ _ _ I)) as (e & op & -> & Hop & Ha). rewrite bind_ok.
    destruct I as [I1 I2 I3 I4]. destruct op as [p|]; cbn [add_producer].
    + destruct Hop as [Hx Hh]. do 2 eexists. exists false. split; [reflexivity|]. split; [split|].
      * eexists. simpl. rewrite lookup_app_r, Nat.sub_diag by done. simpl. by split.
      * split_and!; [done|simpl; rewrite length_app; simpl; lia|]. constructor; simpl.
        -- by rewrite fmap_app.
        -- rewrite length_app. simpl. by rewrite Nat.add_1_r.
        -- intros j nd [[_ Hj]|[-> <-]]%lookup_snoc_Some; [by apply I3|]. done.
        -- rewrite I4, length_app, wrap_add_l. simpl. do 2 f_equal. lia.
      * intros Hm. destruct (Ha Hm) as (p' & [= <-] & Hm'). split; [done|]. unfold queue_ample. simpl. by rewrite fmap_app.
    + exists (set_env q e), None, false. split; [done|]. split; [split_and!; [done|by constructor|done]|].
      intros Hm. by destruct (Ha Hm) as (p' & ? & _).
Qed.

Lemma destroy_token_ok o q qs n :
  queue_ok q qs n → (∀ i, o = Some i → (i < length (producers q))%nat) →
  ∃ q', destroy_token o q = Ok q' ∧ queue_ok q' qs n ∧ same_list q q'.
Proof.
  intros I Ho. destruct o as [i|]; [|by exists q]. destruct (lookup_lt_is_Some_2 _ _ (Ho i eq_refl)) as [nd Hnd].
  unfold destroy_token, get. rewrite Hnd, bind_ok. eexists. split; [done|].
  split; [do 2 (apply mark_ok; [apply _|]); done|]. etransitivity; apply mark_same, _.
Qed.

(** ** Enqueueing *)

Lemma enqueue_to_ok canAlloc throws x i q qs n xs :
  queue_ok q qs n → qs !! i = Some xs → fits_in (n + 1) →
  (∀ nd, producers q !! i = Some nd → isExplicit (sub nd) = true → throws = false) →
  ∃ q' r, enqueue_to canAlloc throws x i q = Ok (q', r) ∧
    queue_ok q' (<[i := match r with Returned true => xs ++ [x] | _ => xs end]> qs) (n + 1) ∧
    length (producers q') = length (producers q) ∧ (r = Threw → throws = true) ∧
    (canAlloc = true → queue_ample q → r ≠ Returned false ∧ queue_ample q').
Proof.
  intros I Hi Hfit Hth. destruct (producer_get _ _ _ _ _ I Hi) as (nd & Hg & Hnd & _ & Hs). unfold enqueue_to. rewrite Hg, bind_ok.
  destruct (enqueue_law canAlloc throws x _ _ _ _ _ _ _ (qo_holds _ _ _ I) Hs Hi Hfit (Hth nd Hnd))
    as (e' & p' & r & -> & _ & Hh & Ht & Ha). rewrite bind_ok. do 2 eexists. split; [reflexivity|].
  split; [by eapply store_ok|]. split; [simpl; by rewrite length_alter|]. split; [done|].
  intros Hc Hm. destruct (Ha Hc Hm). split; [done|]. unfold queue_ample. by rewrite (store_subs _ _ _ _ _ Hnd).
Qed.

Lemma enqueue_bulk_to_ok canAlloc ys throws i q qs n xs :
  queue_ok q qs n → qs !! i = Some xs → fits_in (n + length ys) →
  (∀ nd, producers q !! i = Some nd → isExplicit (sub nd) = true → throws = []) →
  ∃ q' r, enqueue_bulk_to canAlloc ys throws i q = Ok (q', r) ∧
    ((∀ nd, producers q !! i = Some nd → isExplicit (sub nd) = true → r = Returned true) →
     queue_ok q' (<[i := match r with Returned true => xs ++ ys | _ => xs end]> qs) (n + length ys)) ∧
    length (producers q') = length (producers q) ∧ (r = Threw → throws ≠ []) ∧
    (canAlloc = true → queue_ample q → r ≠ Returned false ∧ queue_ample q').
Proof.
  intros I Hi Hfit Hth. destruct (producer_get _ _ _ _ _ I Hi) as (nd & Hg & Hnd & _ & Hs). unfold enqueue_bulk_to. rewrite Hg, bind_ok.
  destruct (enqueue_bulk_law canAlloc ys throws _ _ _ _ _ _ _ (qo_holds _ _ _ I) Hs Hi Hfit (Hth nd Hnd))
    as (e' & p' & r & -> & _ & Hh & Ht & Ha). rewrite bind_ok. do 2 eexists. split; [reflexivity|].
  split; [intros Hr; eapply store_ok; by eauto|]. split; [simpl; by rewrite length_alter|]. split; [done|].
  intros Hc Hm. destruct (Ha Hc Hm). split; [done|]. unfold queue_ample. by rewrite (store_subs _ _ _ _ _ Hnd).
Qed.
End queue.
End McQueue.
