(* ===== verification/McQueueRuns.v ===== *)
(** * Clients of [ConcurrentQueue]

    concurrentqueue.h: what a sequence of calls on a queue answers, with any number of
    producers and consumer tokens: the queue is a collection of first-in-first-out
    queues, one for each producer, and a call that takes elements looks at all of them
    before it gives up. *)
From S2P Require Import Prelude McBulk McSubQueue McQueue.
Local Open Scope Z_scope.

Module McQueueRuns.
Import McSubQueue McQueue.

Section runs.
Context {E P T : Type} `{!SubQueue E P T} `{Quota}.

(** The calls; producers and consumer tokens are numbered as they are made.
    [NewProducer true] is the construction of a [ProducerToken], [NewProducer false] the
    one of a producer for a thread. *)
Inductive call :=
  | NewProducer (explicit : bool)
  | DropToken (i : nat)
  | NewConsumer
  | Enqueue (i : nat) (canAlloc throws : bool) (x : T)
  | EnqueueBulk (i : nat) (canAlloc : bool) (xs : list T) (throws : list bool)
  | TryDequeue (throws : bool)
  | TryDequeueNonInterleaved (throws : bool)
  | TryDequeueToken (k : nat) (throws : bool)
  | TryDequeueFrom (i : nat) (throws : bool)
  | TryDequeueBulk (max : nat) (throws : list bool)
  | TryDequeueBulkToken (k max : nat) (throws : list bool)
  | TryDequeueBulkFrom (i max : nat) (throws : list bool)
  | SizeApprox.

Inductive answer :=
  | Done
  | Created (producer : option nat) (recycled : bool)
  | Added (r : enqueued)
  | One (d : dequeued T)
  | Many (d : bulk_dequeued (T := T))
  | Size (n : Z).

Record system := System { the_queue : queue (E := E) (P := P); consumers : list consumer }.

Definition with_queue (s : system) (q : queue) : system := System q (consumers s).
Definition with_consumer (s : system) (q : queue) (k : nat) (t : consumer) : system :=
  System q (<[k := t]> (consumers s)).

Definition exec (s : system) (c : call) : result (system * answer) :=
  let q := the_queue s in
  match c with
  | NewProducer explicit =>
      '(q, o, recycled) ← recycle_or_create_producer explicit q; Ok (with_queue s q, Created o recycled)
  | DropToken i => q ← destroy_token (Some i) q; Ok (with_queue s q, Done)
  | NewConsumer => let '(q, t) := ConsumerToken q in Ok (System q (consumers s ++ [t]), Done)
  | Enqueue i canAlloc throws x =>
      '(q, r) ← inner_enqueue canAlloc throws (Some i) x q; Ok (with_queue s q, Added r)
  | EnqueueBulk i canAlloc xs throws =>
      '(q, r) ← inner_enqueue_bulk canAlloc (Some i) xs throws q; Ok (with_queue s q, Added r)
  | TryDequeue throws => '(q, d) ← try_dequeue throws q; Ok (with_queue s q, One d)
  | TryDequeueNonInterleaved throws =>
      '(q, d) ← try_dequeue_non_interleaved throws q; Ok (with_queue s q, One d)
  | TryDequeueToken k throws =>
      match consumers s !! k with
      | None => UB
      | Some t => '(q, t, d) ← try_dequeue_token throws t q; Ok (with_consumer s q k t, One d)
      end
  | TryDequeueFrom i throws =>
      '(q, d) ← try_dequeue_from_producer throws (Some i) q; Ok (with_queue s q, One d)
  | TryDequeueBulk max throws => '(q, d) ← try_dequeue_bulk throws max q; Ok (with_queue s q, Many d)
  | TryDequeueBulkToken k max throws =>
      match consumers s !! k with
      | None => UB
      | Some t => '(q, t, d) ← try_dequeue_bulk_token throws max t q; Ok (with_consumer s q k t, Many d)
      end
  | TryDequeueBulkFrom i max throws =>
      '(q, d) ← try_dequeue_bulk_from_producer throws max (Some i) q; Ok (with_queue s q, Many d)
  | SizeApprox => n ← size_approx q; Ok (s, Size n)
  end.

Fixpoint run (s : system) (cs : list call) : result (system * list answer) :=
  match cs with
  | [] => Ok (s, [])
  | c :: cs => '(s, a) ← exec s c; '(s, answers) ← run s cs; Ok (s, a :: answers)
  end.

(** ** The collection of queues *)

(** How a call may be answered when the producers have the elements [qs], and what
    they have then. *)
Definition serves (qs : list (list T)) (c : call) (a : answer) (qs' : list (list T)) : Prop :=
  match c, a with
  | NewProducer _, Created (Some i) true => (i < length qs)%nat ∧ qs' = qs
  | NewProducer _, Created (Some i) false => i = length qs ∧ qs' = qs ++ [[]]
  | NewProducer _, Created None _ | DropToken _, Done | NewConsumer, Done => qs' = qs
  | Enqueue i _ throws x, Added r => ∃ xs, qs !! i = Some xs ∧
      qs' = <[i := match r with Returned true => xs ++ [x] | _ => xs end]> qs ∧ (r = Threw → throws = true)
  | EnqueueBulk i _ ys throws, Added r => ∃ xs, qs !! i = Some xs ∧
      qs' = <[i := match r with Returned true => xs ++ ys | _ => xs end]> qs ∧ (r = Threw → throws ≠ [])
  | TryDequeue throws, One d | TryDequeueNonInterleaved throws, One d | TryDequeueToken _ throws, One d =>
      answers_one qs throws d qs'
  | TryDequeueFrom i throws, One d => ∃ xs, qs !! i = Some xs ∧ qs' = <[i := tail xs]> qs ∧
      d = match xs with [] => Nothing | x :: _ => if throws : bool then Lost else Got x end
  | TryDequeueBulk max throws, Many d | TryDequeueBulkToken _ max throws, Many d => answers_many qs throws max d qs'
  | TryDequeueBulkFrom i max throws, Many d => ∃ xs, qs !! i = Some xs ∧ qs' = <[i := drop max xs]> qs ∧
      match d with
      | GotMany ys => ys = take max xs
      | LostMany ys => throws ≠ [] ∧ ys `prefix_of` take max xs
      end
  | SizeApprox, Size n => n = u64 (length (concat qs)) ∧ qs' = qs
  | _, _ => False
  end.

Inductive serves_all : list (list T) → list call → list answer → list (list T) → Prop :=
  | serves_done qs : serves_all qs [] [] qs
  | serves_more qs c a qs1 cs answers qs2 :
      serves qs c a qs1 → serves_all qs1 cs answers qs2 → serves_all qs (c :: cs) (a :: answers) qs2.

(** Nothing was refused for want of memory. *)
Definition refused (a : answer) : bool :=
  match a with Created None _ | Added (Returned false) => true | _ => false end.
Definition may_allocate (c : call) : bool :=
  match c with Enqueue _ canAlloc _ _ | EnqueueBulk _ canAlloc _ _ => canAlloc | _ => true end.

Definition adds (c : call) : nat :=
  match c with Enqueue _ _ _ _ => 1 | EnqueueBulk _ _ xs _ => length xs | _ => 0 end.

Context `{!SubQueueLaws E P T}.

(** The call, which adds elements, is not refused. *)
Definition accepted (s : system) (c : call) : Prop :=
  ∀ s' r, exec s c = Ok (s', Added r) → r = Returned true.

(** The calls considered: they use producers and tokens that exist; there are less than
    2^32 producers; and an explicit producer does not fail half-way: its elements do not
    throw, and it refuses no bulk.  What a throwing element and a refused bulk do to an
    explicit producer is shown in McExplicitDestructor.v and McExplicitBulk.v. *)
Definition call_ok (s : system) (c : call) : Prop :=
  let ps := producers (the_queue s) in
  match c with
  | NewProducer _ => S (length ps) < 2 ^ 32
  | DropToken i | TryDequeueFrom i _ | TryDequeueBulkFrom i _ _ => (i < length ps)%nat
  | Enqueue i _ throws _ => ∃ n, ps !! i = Some n ∧ (isExplicit (sub n) = true → throws = false)
  | EnqueueBulk i _ _ throws => ∃ n, ps !! i = Some n ∧ (isExplicit (sub n) = true → throws = [] ∧ accepted s c)
  | TryDequeueToken k _ | TryDequeueBulkToken k _ _ => (k < length (consumers s))%nat
  | NewConsumer | TryDequeue _ | TryDequeueNonInterleaved _ | TryDequeueBulk _ _ | SizeApprox => True
  end.

Fixpoint calls_ok (s : system) (cs : list call) : Prop :=
  match cs with
  | [] => True
  | c :: cs => call_ok s c ∧ ∀ s' a, exec s c = Ok (s', a) → calls_ok s' cs
  end.

Record system_ok (s : system) (qs : list (list T)) (n : nat) : Prop := {
  so_queue : queue_ok (the_queue s) qs n;
  so_tokens : Forall (token_ok (the_queue s)) (consumers s);
  so_producers : length (producers (the_queue s)) < 2 ^ 32
}.

Lemma tokens_kept (q q' : queue (E := E) (P := P)) ts :
  Forall (token_ok q) ts → (length (producers q) ≤ length (producers q'))%nat → Forall (token_ok q') ts.
Proof.
  intros Ht Hl. eapply Forall_impl; [exact Ht|]. intros t [T1 T2]. constructor.
  - intros i Hi. specialize (T1 i Hi). lia.
  - intros Hd. destruct (T2 Hd) as (c & Hc & ?). exists c. split; [done|lia].
Qed.

Lemma system_kept s qs n q' qs' n' :
  system_ok s qs n → queue_ok q' qs' n' → length (producers q') = length (producers (the_queue s)) →
  system_ok (with_queue s q') qs' n'.
Proof.
  intros [I Ht Hp] I' Hl. constructor; simpl; [done| |by rewrite Hl]. apply (tokens_kept (the_queue s)); [done|lia].
Qed.

Lemma system_consumer s qs n q' qs' n' k t :
  system_ok s qs n → queue_ok q' qs' n' → length (producers q') = length (producers (the_queue s)) → token_ok q' t →
  system_ok (with_consumer s q' k t) qs' n'.
Proof.
  intros S I' Hl Ht. destruct (system_kept _ _ _ _ _ _ S I' Hl) as [? ? ?]. constructor; simpl; [done| |done].
  by apply Forall_insert.
Qed.

Lemma has_elements s qs n i : system_ok s qs n → (i < length (producers (the_queue s)))%nat → ∃ xs, qs !! i = Some xs.
Proof. intros [I _ _] Hi. rewrite <- (queue_length _ _ _ I) in Hi. by apply lookup_lt_is_Some_2. Qed.

(** What a call does to memory that does not run out. *)
Definition memory_kept (s s' : system) (c : call) (a : answer) : Prop :=
  queue_ample (the_queue s) → may_allocate c = true → refused a = false ∧ queue_ample (the_queue s').

Lemma enqueues_ok s qs n c :
  system_ok s qs n → call_ok s c → fits_in (n + adds c) →
  match c with Enqueue _ _ _ _ | EnqueueBulk _ _ _ _ => True | _ => False end →
  ∃ s' a qs', exec s c = Ok (s', a) ∧ serves qs c a qs' ∧ system_ok s' qs' (n + adds c) ∧ memory_kept s s' c a.
Proof.
  intros S Hc Hfit Hk. pose proof (so_queue _ _ _ S) as I. destruct c; try done; destruct Hc as (nd & Hnd & Hth);
    (destruct (has_elements s qs n i S) as [ys Hy]; [by eapply lookup_lt_Some|]); cbn [exec inner_enqueue inner_enqueue_bulk].
  - destruct (enqueue_to_ok canAlloc throws x i _ _ _ _ I Hy Hfit) as (q' & r & -> & I' & Hl & Ht & Hm).
    { intros nd' Hnd'. rewrite Hnd in Hnd'. by injection Hnd' as <-. }
    rewrite bind_ok. do 3 eexists. split; [reflexivity|]. split; [by exists ys|]. split; [by eapply system_kept|].
    intros Ha Hca. destruct (Hm Hca Ha) as [Hr ?]. split; [|done]. by destruct r as [[]|].
  - destruct (enqueue_bulk_to_ok canAlloc xs throws i _ _ _ _ I Hy Hfit) as (q' & r & Hrun & I' & Hl & Ht & Hm).
    { intros nd' Hnd' Hx. rewrite Hnd in Hnd'. injection Hnd' as <-. by destruct (Hth Hx). }
    rewrite Hrun, bind_ok. do 3 eexists. split; [reflexivity|]. split; [by exists ys|]. split.
    + eapply system_kept; [exact S| |exact Hl]. apply I'. intros nd' Hnd' Hx. rewrite Hnd in Hnd'. injection Hnd' as <-.
      destruct (Hth Hx) as [_ Hacc]. apply (Hacc (with_queue s q')). cbn [exec inner_enqueue_bulk]. by rewrite Hrun.
    + intros Ha Hca. destruct (Hm Hca Ha) as [Hr ?]. split; [|done]. by destruct r as [[]|].
Qed.

Lemma producers_ok s qs n c :
  system_ok s qs n → call_ok s c →
  match c with NewProducer _ | DropToken _ | NewConsumer => True | _ => False end →
  ∃ s' a qs', exec s c = Ok (s', a) ∧ serves qs c a qs' ∧ system_ok s' qs' n ∧ memory_kept s s' c a.
Proof.
  intros S Hc Hk. pose proof S as [I Ht Hp]. destruct c; try done; cbn [exec].
  - destruct (recycle_or_create_ok explicit _ _ _ I) as (q' & o & rc & -> & Ho & Hm). rewrite bind_ok.
    exists (with_queue s q'), (Created o rc). destruct o as [i|].
    + destruct Ho as [_ Ho]. destruct rc.
      * destruct Ho as ((nd & Hnd & _) & I' & Hl & _). exists qs. split; [done|]. split.
        { split; [|done]. rewrite (queue_length _ _ _ I). by eapply lookup_lt_Some. }
        split; [by apply (system_kept s qs n)|]. intros Ha _. by destruct (Hm Ha).
      * destruct Ho as (-> & Hl & I'). exists (qs ++ [[]]). split; [done|]. split; [split; [symmetry; by eapply queue_length|done]|].
        split; [|intros Ha _; by destruct (Hm Ha)]. simpl in Hc. constructor; simpl; [done| |lia].
        apply (tokens_kept (the_queue s)); [done|lia].
    + destruct Ho as (-> & I' & Hl). exists qs. split; [done|]. split; [done|]. split; [by apply (system_kept s qs n)|].
      intros Ha _. destruct (Hm Ha) as [[? ?] _]. done.
  - simpl in Hc. destruct (destroy_token_ok (Some i) (the_queue s) qs n I) as (q' & Hd & I' & Hl & _ & _ & _ & Ha); [by intros ? [= <-]|].
    rewrite Hd, bind_ok.
    exists (with_queue s q'), Done, qs. split; [done|]. split; [done|].
    split; [by apply (system_kept s qs n)|]. intros ? _. auto.
  - do 3 eexists. split; [reflexivity|]. split; [reflexivity|]. split; [|done]. constructor; simpl; [by destruct I| |done].
    apply Forall_app. split; [apply (tokens_kept (the_queue s)); [done|simpl; lia]|]. apply Forall_singleton. by constructor.
Qed.

Lemma dequeues_ok s qs n c :
  system_ok s qs n → call_ok s c →
  match c with
  | Enqueue _ _ _ _ | EnqueueBulk _ _ _ _ | NewProducer _ | DropToken _ | NewConsumer => False
  | _ => True
  end →
  ∃ s' a qs', exec s c = Ok (s', a) ∧ serves qs c a qs' ∧ system_ok s' qs' n ∧ memory_kept s s' c a.
Proof.
  intros S Hc Hk. pose proof S as [I Ht Hp]. destruct c; try done; cbn [exec].
  - destruct (try_dequeue_ok throws _ _ _ I) as (q' & d & qs' & -> & Ha & I' & Hs). rewrite bind_ok.
    exists (with_queue s q'), (One d), qs'. split; [done|]. split; [done|].
    split; [apply (system_kept s qs n); [done|done|apply Hs]|]. intros Hm _. split; [done|]. by apply Hs.
  - destruct (try_dequeue_non_interleaved_ok throws _ _ _ I) as (q' & d & qs' & -> & Ha & I' & Hs). rewrite bind_ok.
    exists (with_queue s q'), (One d), qs'. split; [done|]. split; [done|].
    split; [apply (system_kept s qs n); [done|done|apply Hs]|]. intros Hm _. split; [done|]. by apply Hs.
  - simpl in Hc. destruct (lookup_lt_is_Some_2 _ _ Hc) as [t Hk']. rewrite Hk'.
    destruct (try_dequeue_token_ok throws t _ _ _ I (Forall_lookup_1 _ _ _ _ Ht Hk') Hp)
      as (q' & t' & d & qs' & -> & Ha & I' & Hs & K'). rewrite bind_ok.
    exists (with_consumer s q' k t'), (One d), qs'. split; [done|]. split; [done|].
    split; [apply (system_consumer s qs n); [done|done|apply Hs|done]|]. intros Hm _. split; [done|]. by apply Hs.
  - destruct (has_elements s qs n i S Hc) as [xs Hx]. cbn [try_dequeue_from_producer].
    destruct (dequeue_from_ok throws i _ _ _ _ I Hx) as (q' & -> & I' & Hs). rewrite bind_ok.
    do 3 eexists. split; [reflexivity|]. split; [by exists xs|].
    split; [apply (system_kept s qs n); [done|done|apply Hs]|]. intros Hm _. split; [done|]. by apply Hs.
  - destruct (try_dequeue_bulk_ok throws max _ _ _ I) as (q' & d & qs' & -> & Ha & I' & Hs). rewrite bind_ok.
    exists (with_queue s q'), (Many d), qs'. split; [done|]. split; [done|].
    split; [apply (system_kept s qs n); [done|done|apply Hs]|]. intros Hm _. split; [done|]. by apply Hs.
  - simpl in Hc. destruct (lookup_lt_is_Some_2 _ _ Hc) as [t Hk']. rewrite Hk'.
    destruct (try_dequeue_bulk_token_ok throws max t _ _ _ I (Forall_lookup_1 _ _ _ _ Ht Hk') Hp)
      as (q' & t' & d & qs' & -> & Ha & I' & Hs & K'). rewrite bind_ok.
    exists (with_consumer s q' k t'), (Many d), qs'. split; [done|]. split; [done|].
    split; [apply (system_consumer s qs n); [done|done|apply Hs|done]|]. intros Hm _. split; [done|]. by apply Hs.
  - destruct (has_elements s qs n i S Hc) as [xs Hx]. cbn [try_dequeue_bulk_from_producer].
    destruct (dequeue_bulk_from_ok throws max i _ _ _ _ I Hx) as (q' & d & -> & Hd & I' & Hs). rewrite bind_ok.
    exists (with_queue s q'), (Many d), (<[i := drop max xs]> qs). split; [done|]. split; [exists xs; by destruct d|].
    split; [apply (system_kept s qs n); [done|done|apply Hs]|]. intros Hm _. split; [done|]. by apply Hs.
  - rewrite (size_approx_ok _ _ _ I), bind_ok. do 3 eexists. split; [reflexivity|]. by split.
Qed.

Lemma exec_serves s qs n c :
  system_ok s qs n → call_ok s c → fits_in (n + adds c) →
  ∃ s' a qs', exec s c = Ok (s', a) ∧ serves qs c a qs' ∧ system_ok s' qs' (n + adds c) ∧ memory_kept s s' c a.
Proof.
  intros S Hc Hfit. destruct c; try (by apply enqueues_ok); cbn [adds]; rewrite Nat.add_0_r;
    first [by apply producers_ok | by apply dequeues_ok].
Qed.

Lemma run_serves cs : ∀ s qs n,
  system_ok s qs n → calls_ok s cs → fits_in (n + sum_list (adds <$> cs)) →
  ∃ s' answers qs', run s cs = Ok (s', answers) ∧ serves_all qs cs answers qs' ∧
    system_ok s' qs' (n + sum_list (adds <$> cs)) ∧
    (queue_ample (the_queue s) → Forall (λ c, may_allocate c = true) cs → Forall (λ a, refused a = false) answers).
Proof.
  induction cs as [|c cs IH]; intros s qs n S Hcs Hfit; cbn [run].
  { exists s, [], qs. rewrite Nat.add_0_r. split; [done|]. split; [constructor|done]. }
  destruct Hcs as [Hc Hcs]. rewrite fmap_cons in Hfit |- *. cbn [sum_list id] in Hfit |- *.
  rewrite Nat.add_assoc in Hfit |- *. unfold id in *.
  destruct (exec_serves s qs n c S Hc) as (s1 & a & qs1 & Hrun & Hs & S1 & Hm).
  { eapply fits_in_less; [|exact Hfit]. lia. }
  destruct (IH s1 qs1 _ S1 (Hcs _ _ Hrun) Hfit) as (s2 & answers & qs2 & Hrun2 & Hs2 & S2 & Hm2).
  rewrite Hrun, bind_ok, Hrun2, bind_ok. exists s2, (a :: answers), qs2. split; [done|].
  split; [by econstructor|]. split; [done|]. intros Ha [Hca Hcas]%Forall_cons. destruct (Hm Ha Hca) as [Hr Ha1].
  apply Forall_cons. split; [done|]. by apply Hm2.
Qed.

(** ** Well-formed states *)

Definition points_into (len : nat) (o : option nat) : bool :=
  match o with None => true | Some i => bool_decide (i < len)%nat end.

(** The list goes from the newest producer to the oldest and has as many as are counted;
    a token has no producer yet, or both its pointers lead to producers of the list. *)
Definition well_formed (s : system) : bool :=
  let q := the_queue s in
  let len := length (producers q) in
  bool_decide (producerListTail q = before len) && (producerCount q =? len) &&
  bool_decide (next_prod <$> producers q = before <$> seq 0 len) &&
  forallb (λ t, points_into len (desiredProducer t) &&
                (bool_decide (desiredProducer t = None) ||
                 (bool_decide (currentProducer t ≠ None) && points_into len (currentProducer t)))) (consumers s).

Lemma system_well_formed s qs n : system_ok s qs n → well_formed s = true.
Proof.
  intros [[I1 I2 I3 I4] Ht Hp]. unfold well_formed. rewrite !andb_true_iff. split_and!.
  - by apply bool_decide_eq_true_2.
  - rewrite I4, wrap_small by (unfold fits; lia). apply Z.eqb_refl.
  - apply bool_decide_eq_true_2, list_eq. intros i. rewrite !list_lookup_fmap.
    destruct (producers (the_queue s) !! i) as [nd|] eqn:Hi; simpl.
    + rewrite lookup_seq_lt by (by eapply lookup_lt_Some). simpl. by rewrite (I3 i nd Hi).
    + by rewrite lookup_seq_ge by (by apply lookup_ge_None).
  - apply forallb_forall. intros t Hin. apply list_elem_of_In in Hin. rewrite Forall_forall in Ht.
    destruct (Ht t Hin) as [T1 T2]. destruct (desiredProducer t) as [d|]; [|done].
    destruct (T2 ltac:(done)) as (c & -> & Hc). simpl. specialize (T1 d eq_refl).
    by rewrite !bool_decide_eq_true_2.
Qed.

(** ** The order of elements *)

(** What a call adds to producer [i], what an answer hands out, and whether it loses
    elements to an exception. *)
Definition sent (i : nat) (c : call) (a : answer) : list T :=
  match c, a with
  | Enqueue j _ _ x, Added (Returned true) => if decide (j = i) then [x] else []
  | EnqueueBulk j _ xs _, Added (Returned true) => if decide (j = i) then xs else []
  | _, _ => []
  end.
Definition received (a : answer) : list T :=
  match a with One (Got x) => [x] | Many (GotMany xs) => xs | _ => [] end.
Definition loses (a : answer) : bool :=
  match a with One Lost | Many (LostMany _) => true | _ => false end.

(** The elements of producer [i] among elements with their producers. *)
Definition from (i : nat) (xs : list (nat * T)) : list T := snd <$> filter (λ kx, kx.1 = i) xs.
Definition content (i : nat) (qs : list (list T)) : list T := default [] (qs !! i).

Fixpoint all_sent (i : nat) (cs : list call) (answers : list answer) : list T :=
  match cs, answers with c :: cs, a :: answers => sent i c a ++ all_sent i cs answers | _, _ => [] end.
Definition all_received (answers : list answer) : list T := concat (received <$> answers).

Lemma from_app i xs ys : from i (xs ++ ys) = from i xs ++ from i ys.
Proof. unfold from. by rewrite filter_app, fmap_app. Qed.

Lemma from_piece i k ys : from i (pair k <$> ys) = if decide (k = i) then ys else [].
Proof.
  unfold from. induction ys as [|y ys IH]; [by case_decide|]. rewrite fmap_cons. destruct (decide (k = i)).
  - rewrite filter_cons_True by done. by rewrite fmap_cons, IH.
  - by rewrite filter_cons_False.
Qed.

Lemma content_insert i k xs (qs : list (list T)) :
  (k < length qs)%nat → content i (<[k := xs]> qs) = if decide (k = i) then xs else content i qs.
Proof.
  intros Hk. unfold content. case_decide as Hd.
  - subst. by rewrite list_lookup_insert_eq.
  - by rewrite list_lookup_insert_ne.
Qed.

Lemma takes_tagged qs ps qs' :
  takes qs ps qs' → ∃ tagged, tagged.*2 = concat (ps.*2) ∧ ∀ i, content i qs = from i tagged ++ content i qs'.
Proof.
  induction 1 as [qs|qs k ys zs ps qs' Hk Ht (tagged & Heq & Hi)]; [by exists []|].
  exists ((pair k <$> ys) ++ tagged). split.
  - rewrite fmap_app, fmap_cons, Heq. cbn [concat snd]. f_equal. rewrite <- list_fmap_compose. apply list_fmap_id.
  - intros i. specialize (Hi i). rewrite content_insert in Hi by (by eapply lookup_lt_Some).
    rewrite from_app, from_piece. case_decide as Hd; [|exact Hi]. subst i.
    rewrite <- (assoc_L app), <- Hi. unfold content. by rewrite Hk.
Qed.

Lemma taken_tagged qs max out qs' :
  taken qs max out qs' → ∃ tagged, out = tagged.*2 ∧ ∀ i, content i qs = from i tagged ++ content i qs'.
Proof. intros (ps & Ht & -> & _). destruct (takes_tagged _ _ _ Ht) as (tagged & He & Hi). by exists tagged. Qed.

Lemma enqueued_tagged (qs : list (list T)) i xs ys (r : enqueued) :
  qs !! i = Some xs → ∀ j,
  content j qs ++ match r with Returned true => if decide (i = j) then ys else [] | _ => [] end =
  content j (<[i := match r with Returned true => xs ++ ys | _ => xs end]> qs).
Proof.
  intros Hi j. rewrite content_insert by (by eapply lookup_lt_Some). case_decide as Hd; [|destruct r as [[]|]; by rewrite app_nil_r].
  subst. unfold content. rewrite Hi. destruct r as [[]|]; simpl; by rewrite ?app_nil_r.
Qed.

(** One call: what was there and what it adds is what it hands out and what stays. *)
Lemma serves_tagged qs c a qs' :
  serves qs c a qs' → loses a = false →
  ∃ tagged, received a = tagged.*2 ∧ ∀ i, content i qs ++ sent i c a = from i tagged ++ content i qs'.
Proof.
  assert (Hsame : ∀ a, received a = [] → ∃ tagged : list (nat * T), received a = tagged.*2 ∧
    ∀ i, content i qs ++ [] = from i tagged ++ content i qs).
  { intros a' Hr. exists []. split; [done|]. intros i. by rewrite app_nil_r. }
  assert (Hany : ∀ a throws d, received a = received (One d) → answers_one qs throws d qs' → loses (One d) = false →
    ∃ tagged, received a = tagged.*2 ∧ ∀ i, content i qs ++ [] = from i tagged ++ content i qs').
  { intros a' throws d -> Ha Hl. assert (taken qs 1 (received (One d)) qs') as Ht by (by destruct d as [x| |]; [apply Ha| |]).
    destruct (taken_tagged _ _ _ _ Ht) as (tagged & He & Hi). exists tagged. split; [done|]. intros i. by rewrite app_nil_r. }
  assert (Hone : ∀ i xs ys, qs !! i = Some (ys ++ xs) → qs' = <[i := xs]> qs → ∃ tagged : list (nat * T), ys = tagged.*2 ∧
    ∀ j, content j qs ++ [] = from j tagged ++ content j qs').
  { intros i xs ys Hi ->. destruct (takes_tagged _ _ _ (takes_one qs i ys xs Hi)) as (tagged & He & Hj).
    exists tagged. simpl in He. rewrite app_nil_r in He. split; [done|]. intros j. by rewrite app_nil_r. }
  intros Hs Hl. destruct c, a as [|[i'|] [|]|r|d|d|z]; simpl in Hs; try done;
    try (destruct Hs as [_ ->]); try (subst qs'); try (by apply Hsame); try (by eapply Hany).
  - exists []. split; [done|]. intros i. unfold content. simpl. rewrite app_nil_r.
    destruct (decide (i < length qs)%nat).
    + by rewrite lookup_app_l.
    + rewrite lookup_app_r, (lookup_ge_None_2 qs) by lia. by destruct (i - length qs)%nat as [|[]].
  - destruct Hs as (xs & Hx & -> & _). exists []. split; [done|]. intros j. simpl. by rewrite <- (enqueued_tagged _ _ _ [x] r Hx).
  - destruct Hs as (ys & Hy & -> & _). exists []. split; [done|]. intros j. simpl. by rewrite <- (enqueued_tagged _ _ _ xs r Hy).
  - destruct Hs as (xs & Hx & -> & ->). destruct xs as [|x xs], throws; try done.
    1-2: rewrite list_insert_id by done; by apply Hsame.
    by apply (Hone i xs [x]).
  - destruct d as [out|]; [|done]. destruct (taken_tagged _ _ _ _ Hs) as (tagged & He & Hi). exists tagged.
    split; [done|]. intros i. by rewrite app_nil_r.
  - destruct d as [out|]; [|done]. destruct (taken_tagged _ _ _ _ Hs) as (tagged & He & Hi). exists tagged.
    split; [done|]. intros i. by rewrite app_nil_r.
  - destruct Hs as (xs & Hx & -> & Hd). destruct d as [ys|]; [|done]. subst ys. simpl.
    apply (Hone i (drop max xs) (take max xs)); [by rewrite take_drop|done].
Qed.

Lemma serves_all_tagged qs cs answers qs' :
  serves_all qs cs answers qs' → Forall (λ a, loses a = false) answers →
  ∃ tagged, all_received answers = tagged.*2 ∧
    ∀ i, content i qs ++ all_sent i cs answers = from i tagged ++ content i qs'.
Proof.
  induction 1 as [qs|qs c a qs1 cs answers qs2 Hs Hss IH].
  { intros _. exists []. split; [done|]. intros i. simpl. by rewrite app_nil_r. }
  intros [Hl Hls]%Forall_cons. destruct (serves_tagged _ _ _ _ Hs Hl) as (t1 & H1 & Hi1).
  destruct (IH Hls) as (t2 & H2 & Hi2). exists (t1 ++ t2). split.
  - unfold all_received in *. rewrite fmap_cons, fmap_app, <- H1, <- H2. done.
  - intros i. cbn [all_sent]. rewrite from_app, (assoc_L app), Hi1, <- (assoc_L app), Hi2. by rewrite (assoc_L app).
Qed.

(** ** The number of elements *)

Lemma total_insert k xs ys (qs : list (list T)) :
  qs !! k = Some xs → (length (concat (<[k := ys]> qs)) + length xs = length (concat qs) + length ys)%nat.
Proof.
  intros Hk. pose proof (lookup_lt_Some _ _ _ Hk). rewrite insert_take_drop by done.
  rewrite <- (take_drop_middle _ _ _ Hk) at 3. rewrite !concat_app, !length_app. simpl. rewrite !length_app. lia.
Qed.

Lemma takes_total (qs : list (list T)) ps qs' : takes qs ps qs' → (length (concat qs') ≤ length (concat qs))%nat.
Proof.
  induction 1 as [|qs k ys zs ps qs' Hk _ IH]; [done|]. pose proof (total_insert k _ zs qs Hk) as Ht.
  rewrite length_app in Ht. lia.
Qed.

Lemma answers_one_total (qs : list (list T)) throws d qs' : answers_one qs throws d qs' → (length (concat qs') ≤ length (concat qs))%nat.
Proof.
  destruct d as [x| |]; [intros [_ (ps & Ht & _)]|intros (ps & Ht & _)|intros (_ & x & ps & Ht & _)];
    by apply takes_total in Ht.
Qed.

Lemma answers_many_total (qs : list (list T)) throws max d qs' :
  answers_many qs throws max d qs' → (length (concat qs') ≤ length (concat qs))%nat.
Proof. destruct d; [intros (ps & Ht & _)|intros (_ & ps & Ht & _)]; by apply takes_total in Ht. Qed.

Lemma serves_total (qs : list (list T)) c a qs' : serves qs c a qs' → (length (concat qs') ≤ length (concat qs) + adds c)%nat.
Proof.
  intros Hs. destruct c, a as [|[i'|] [|]|r|d|d|z]; simpl in Hs |- *; try done; try (subst; lia).
  - destruct Hs as [_ ->]. lia.
  - destruct Hs as [_ ->]. rewrite concat_app, length_app. simpl. lia.
  - destruct Hs as (xs & Hx & -> & _). pose proof (total_insert i xs (match r with Returned true => xs ++ [x] | _ => xs end) qs Hx).
    destruct r as [[]|]; rewrite ?length_app in *; simpl in *; lia.
  - destruct Hs as (ys & Hy & -> & _). pose proof (total_insert i ys (match r with Returned true => ys ++ xs | _ => ys end) qs Hy).
    destruct r as [[]|]; rewrite ?length_app in *; simpl in *; lia.
  - apply answers_one_total in Hs. lia.
  - apply answers_one_total in Hs. lia.
  - apply answers_one_total in Hs. lia.
  - destruct Hs as (xs & Hx & -> & _). pose proof (total_insert i xs (tail xs) qs Hx). destruct xs; simpl in *; lia.
  - apply answers_many_total in Hs. lia.
  - apply answers_many_total in Hs. lia.
  - destruct Hs as (xs & Hx & -> & _). pose proof (total_insert i xs (drop max xs) qs Hx). rewrite length_drop in *. lia.
  - destruct Hs as [_ ->]. lia.
Qed.

Lemma serves_all_total (qs : list (list T)) cs answers qs' :
  serves_all qs cs answers qs' → (length (concat qs') ≤ length (concat qs) + sum_list (adds <$> cs))%nat.
Proof.
  induction 1 as [|qs c a qs1 cs answers qs2 Hs _ IH]; [simpl; lia|]. apply serves_total in Hs.
  rewrite fmap_cons. cbn [sum_list id]. lia.
Qed.
End runs.
End McQueueRuns.
