(* ===== verification/McTokens.v ===== *)
(** * Tokens

    concurrentqueue.h: [ProducerToken] and [ConsumerToken] as objects that are
    constructed, moved, swapped and destroyed.  A producer token and its producer point
    at each other; a producer is given up when the token that holds it is destroyed. *)
From S2P Require Import Prelude McBulk McSubQueue McQueue McQueueRuns.
Local Open Scope Z_scope.

Module McTokens.
Import McSubQueue McQueue McQueueRuns.

Section tokens.
Context {E P T : Type} `{!SubQueue E P T} `{Quota}.

(** A queue with its consumer tokens, and the producer tokens by address, each with its
    field [producer]. *)
Record client := Client { sys : system (E := E) (P := P); tokens : gmap nat (option nat) }.

Definition its_queue (w : client) : queue (E := E) (P := P) := the_queue (sys w).
Definition with_tokens (w : client) (q : queue) (tks : gmap nat (option nat)) : client :=
  Client (with_queue (sys w) q) tks.

(** [producer] of the token at [this]. *)
Definition producer_of (w : client) (this : nat) : result (option nat) :=
  match tokens w !! this with Some o => Ok o | None => UB end.

(** [if (producer != nullptr) producer->token = this] *)
Definition point_back (producer : option nat) (this : nat) (q : queue (E := E) (P := P)) : result queue :=
  match producer with
  | None => Ok q
  | Some i => _ ← get q i; Ok (set_token q i (Some this))
  end.

Definition construct_token (this : nat) (w : client) : result client :=
  '(q, producer) ← ProducerToken this (its_queue w);
  Ok (with_tokens w q (<[this := producer]> (tokens w))).

(** [ProducerToken(ProducerToken&& other)] *)
Definition move_token (this other : nat) (w : client) : result client :=
  producer ← producer_of w other;
  q ← point_back producer this (its_queue w);
  Ok (with_tokens w q (<[this := producer]> (<[other := None]> (tokens w)))).

(** [ProducerToken::swap], which is assignment, too. *)
Definition swap_tokens (this other : nat) (w : client) : result client :=
  mine ← producer_of w this;
  theirs ← producer_of w other;
  q ← point_back theirs this (its_queue w);
  q ← point_back mine other q;
  Ok (with_tokens w q (<[other := mine]> (<[this := theirs]> (tokens w)))).

Definition valid (this : nat) (w : client) : result bool :=
  producer ← producer_of w this; Ok (bool_decide (is_Some producer)).

Definition delete_token (this : nat) (w : client) : result client :=
  producer ← producer_of w this;
  q ← destroy_token producer (its_queue w);
  Ok (with_tokens w q (delete this (tokens w))).

(** [ConsumerToken(ConsumerToken&& other)] and [ConsumerToken::swap]. *)
Definition move_consumer (other : consumer) : consumer :=
  Consumer (initialOffset other) (lastKnownGlobalOffset other) (itemsConsumedFromCurrent other)
    (currentProducer other) (desiredProducer other).
Definition swap_consumers (this other : consumer) : consumer * consumer :=
  (Consumer (initialOffset other) (lastKnownGlobalOffset other) (itemsConsumedFromCurrent other)
     (currentProducer other) (desiredProducer other),
   Consumer (initialOffset this) (lastKnownGlobalOffset this) (itemsConsumedFromCurrent this)
     (currentProducer this) (desiredProducer this)).

(** The calls that take a producer token. *)
Inductive token_call :=
  | EnqueueTo (canAlloc throws : bool) (x : T)
  | EnqueueBulkTo (canAlloc : bool) (xs : list T) (throws : list bool)
  | DequeueFrom (throws : bool)
  | DequeueBulkFrom (max : nat) (throws : list bool).
Definition at_producer (c : token_call) (i : nat) : call (T := T) :=
  match c with
  | EnqueueTo canAlloc throws x => Enqueue i canAlloc throws x
  | EnqueueBulkTo canAlloc xs throws => EnqueueBulk i canAlloc xs throws
  | DequeueFrom throws => TryDequeueFrom i throws
  | DequeueBulkFrom max throws => TryDequeueBulkFrom i max throws
  end.

(** What a client does: token operations, calls with the producer of a token, and the
    calls that need none. *)
Inductive action :=
  | NewToken (this : nat)
  | MoveToken (this other : nat)
  | SwapTokens (this other : nat)
  | DeleteToken (this : nat)
  | MoveConsumer (k : nat)
  | SwapConsumers (k j : nat)
  | WithToken (this : nat) (c : token_call)
  | Call (c : call (T := T)).

Definition called (w : client) (c : call (T := T)) : result (client * answer) :=
  '(s, a) ← exec (sys w) c; Ok (Client s (tokens w), a).
Definition done (m : result client) : result (client * answer (T := T)) := w ← m; Ok (w, Done).

Definition act (w : client) (a : action) : result (client * answer) :=
  match a with
  | NewToken this => done (construct_token this w)
  | MoveToken this other => done (move_token this other w)
  | SwapTokens this other => done (swap_tokens this other w)
  | DeleteToken this => done (delete_token this w)
  | MoveConsumer k =>
      match consumers (sys w) !! k with
      | None => UB
      | Some t => Ok (Client (System (its_queue w) (consumers (sys w) ++ [move_consumer t])) (tokens w), Done)
      end
  | SwapConsumers k j =>
      match consumers (sys w) !! k, consumers (sys w) !! j with
      | Some t, Some u =>
          let '(t, u) := swap_consumers t u in
          Ok (Client (System (its_queue w) (<[j := u]> (<[k := t]> (consumers (sys w))))) (tokens w), Done)
      | _, _ => UB
      end
  | WithToken this c =>
      producer ← producer_of w this;
      match producer with None => UB | Some i => called w (at_producer c i) end
  | Call c => called w c
  end.

Fixpoint acts (w : client) (l : list action) : result (client * list answer) :=
  match l with
  | [] => Ok (w, [])
  | a :: l => '(w, r) ← act w a; '(w, rs) ← acts w l; Ok (w, r :: rs)
  end.

(** ** What a call leaves alone *)

(** Whether a producer is explicit, given up, and held. *)
Definition face (nd : node (P := P)) : bool * bool * option nat := (isExplicit (sub nd), inactive nd, token nd).
Definition faces (q : queue (E := E) (P := P)) : list (bool * bool * option nat) := face <$> producers q.

Context (I : E → Prop).

(** Operations on producers keep to [I], and none turns a producer into one of the other
    kind. *)
Class Keeps : Prop := {
  create_keeps x (e : E) e' (o : option P) : sub_create x e = Ok (e', o) → (I e → I e') ∧ ∀ p, o = Some p → isExplicit p = x;
  enqueue_keeps ca th (x : T) (e : E) (p : P) e' p' r :
    sub_enqueue ca th x e p = Ok (e', p', r) → (I e → I e') ∧ isExplicit p' = isExplicit p;
  enqueue_bulk_keeps ca (xs : list T) th (e : E) (p : P) e' p' r :
    sub_enqueue_bulk ca xs th e p = Ok (e', p', r) → (I e → I e') ∧ isExplicit p' = isExplicit p;
  dequeue_keeps th (e : E) (p : P) e' p' (d : dequeued T) :
    sub_dequeue th e p = Ok (e', p', d) → (I e → I e') ∧ isExplicit p' = isExplicit p;
  dequeue_bulk_keeps th max (e : E) (p : P) e' p' (d : bulk_dequeued (T := T)) :
    sub_dequeue_bulk th max e p = Ok (e', p', d) → (I e → I e') ∧ isExplicit p' = isExplicit p
}.

(** The producers have the same faces and [I] has not been broken. *)
Definition calm (q q' : queue (E := E) (P := P)) : Prop := faces q' = faces q ∧ (I (env q) → I (env q')).
#[local] Instance calm_preorder : PreOrder calm.
Proof. split; [by intros q|]. intros q1 q2 q3 [H1 H2] [H3 H4]. split; [congruence|auto]. Qed.

(** Results that have a queue in them. *)
Class HasQueue (A : Type) : Type := queue_in : A → queue (E := E) (P := P).
#[local] Instance queue_itself : HasQueue queue := λ q, q.
#[local] Instance queue_first A B `{HasQueue A} : HasQueue (A * B) := λ x, queue_in x.1.

Definition steady `{HasQueue A} (q : queue) (m : result A) : Prop :=
  ∀ x, m = Ok x → calm q (queue_in x).

Lemma steady_ret `{HasQueue A} q (x : A) : calm q (queue_in x) → steady q (Ok x).
Proof. by intros Hx y [= <-]. Qed.

Lemma steady_bind `{HasQueue A, HasQueue B} q (m : result A) (k : A → result B) :
  steady q m → (∀ x, steady (queue_in x) (k x)) → steady q (m ≫= k).
Proof.
  intros Hm Hk y (x & Hx & Hy)%bind_inv_ok. etransitivity; [by apply (Hm x)|by apply (Hk x)].
Qed.

Lemma steady_read {A} `{HasQueue B} q (m : result A) (k : A → result B) : (∀ x, steady q (k x)) → steady q (m ≫= k).
Proof. intros Hk y (x & _ & Hy)%bind_inv_ok. by eapply Hk. Qed.

Lemma steady_store q i nd e p :
  producers q !! i = Some nd → isExplicit p = isExplicit (sub nd) → faces (store q e i p) = faces q.
Proof.
  intros Hi Hp. unfold faces. simpl. apply list_eq. intros j. rewrite !list_lookup_fmap.
  destruct (decide (j = i)) as [->|Hne]; [|by rewrite list_lookup_alter_ne].
  rewrite list_lookup_alter_eq, Hi. simpl. unfold face. simpl. by rewrite Hp.
Qed.

Lemma steady_operation {R} q i (f : P → result (E * P * R)) :
  (∀ p e p' r, f p = Ok (e, p', r) → (I (env q) → I e) ∧ isExplicit p' = isExplicit p) →
  steady q (n ← get q i; '(e, p, r) ← f (sub n); Ok (store q e i p, r)).
Proof.
  intros Hf [q' r'] (nd & Hnd & ([[e p'] r] & Hr & [= <- <-])%bind_inv_ok)%bind_inv_ok.
  unfold get in Hnd. destruct (producers q !! i) as [nd'|] eqn:Hi; [|done]. injection Hnd as ->.
  destruct (Hf _ _ _ _ Hr) as [HI Hk]. split; [by apply (steady_store q i nd)|done].
Qed.

Context `{!Keeps}.

Lemma steady_enqueue_to ca th x i q : steady q (enqueue_to ca th x i q).
Proof. apply (steady_operation q i (λ p, sub_enqueue ca th x (env q) p)). intros ????. apply enqueue_keeps. Qed.
Lemma steady_enqueue_bulk_to ca xs th i q : steady q (enqueue_bulk_to ca xs th i q).
Proof. apply (steady_operation q i (λ p, sub_enqueue_bulk ca xs th (env q) p)). intros ????. apply enqueue_bulk_keeps. Qed.
Lemma steady_dequeue_from th i q : steady q (dequeue_from th i q).
Proof. apply (steady_operation q i (λ p, sub_dequeue th (env q) p)). intros ????. apply dequeue_keeps. Qed.
Lemma steady_dequeue_bulk_from th max i q : steady q (dequeue_bulk_from th max i q).
Proof. apply (steady_operation q i (λ p, sub_dequeue_bulk th max (env q) p)). intros ????. apply dequeue_bulk_keeps. Qed.
#[local] Hint Resolve steady_enqueue_to steady_enqueue_bulk_to steady_dequeue_from steady_dequeue_bulk_from : core.

Ltac steady_intro :=
  intros; repeat match goal with x : _ * _ |- _ => destruct x end;
  cbn [queue_in queue_first queue_itself fst snd] in *.
Ltac steady_step :=
  match goal with
  | |- steady _ (Ok _) => apply steady_ret; cbn [queue_in queue_first queue_itself fst]; by repeat case_match
  | |- steady _ UB => by intros ?
  | |- steady _ _ => solve [auto]
  | |- steady ?q (mbind _ (if ?b then _ else _)) => destruct b
  | |- steady ?q (mbind _ _) => first [refine (steady_bind q _ _ _ _); [solve [auto | by apply steady_ret]|steady_intro] | apply steady_read; steady_intro]
  | |- steady _ (if ?b then _ else _) => destruct b
  | |- steady _ (match ?x with _ => _ end) => destruct x
  end.
Ltac steady := steady_intro; repeat steady_step.

Lemma steady_dequeue_each fuel : ∀ best ptr th q, steady q (dequeue_each fuel best ptr th q).
Proof. induction fuel as [|fuel IH]; intros best ptr th q; simpl; steady. Qed.
Lemma steady_dequeue_bulk_each fuel : ∀ ptr th max acc q, steady q (dequeue_bulk_each fuel ptr th max acc q).
Proof. induction fuel as [|fuel IH]; intros ptr th max acc q; simpl; steady. Qed.
Lemma steady_search fuel : ∀ tail ptr th t q, steady q (search fuel tail ptr th t q).
Proof. induction fuel as [|fuel IH]; intros tail ptr th t q; simpl; steady. Qed.
Lemma steady_search_bulk fuel : ∀ tail ptr th max acc t q, steady q (search_bulk fuel tail ptr th max acc t q).
Proof. induction fuel as [|fuel IH]; intros tail ptr th max acc t q; simpl; steady. Qed.
#[local] Hint Resolve steady_dequeue_each steady_dequeue_bulk_each steady_search steady_search_bulk : core.

Lemma steady_try_dequeue th q : steady q (try_dequeue th q).
Proof. unfold try_dequeue. steady. Qed.
Lemma steady_try_dequeue_token th t q : steady q (try_dequeue_token th t q).
Proof. unfold try_dequeue_token. steady. Qed.
Lemma steady_try_dequeue_bulk_token th max t q : steady q (try_dequeue_bulk_token th max t q).
Proof. unfold try_dequeue_bulk_token. steady. Qed.

(** The calls that neither make nor give up explicit producers. *)
Definition plain (c : call (T := T)) : bool :=
  match c with NewProducer true | DropToken _ => false | _ => true end.

Lemma exec_calm s c s' a :
  exec s c = Ok (s', a) → plain c = true → (∀ x, c ≠ NewProducer x) → calm (the_queue s) (the_queue s').
Proof.
  assert (Hx : ∀ {A} (m : result (queue * A)) (k : queue → A → system) (l : A → answer),
    steady (the_queue s) m → (∀ q x, the_queue (k q x) = q) →
    ('(q, x) ← m; Ok (k q x, l x)) = Ok (s', a) → calm (the_queue s) (the_queue s')).
  { intros A m k l Hm Hk ([q x] & Hr & [= <- <-])%bind_inv_ok. rewrite Hk. by apply (Hm (q, x)). }
  assert (Hy : ∀ {A} (m : result (queue * consumer * A)) k (l : A → answer), steady (the_queue s) m →
    ('(q, t, x) ← m; Ok (with_consumer s q k t, l x)) = Ok (s', a) → calm (the_queue s) (the_queue s')).
  { intros A m k l Hm ([[q t] x] & Hr & [= <- <-])%bind_inv_ok. by apply (Hm (q, t, x)). }
  intros Hr Hp Hn. destruct c; cbn [exec] in Hr; try done; try (by specialize (Hn _ eq_refl)).
  - by injection Hr as <- <-.
  - revert Hr. by apply (Hx _ _ (λ q _, with_queue s q)); [apply steady_enqueue_to|].
  - revert Hr. by apply (Hx _ _ (λ q _, with_queue s q)); [apply steady_enqueue_bulk_to|].
  - revert Hr. by apply (Hx _ _ (λ q _, with_queue s q)); [apply steady_try_dequeue|].
  - revert Hr. by apply (Hx _ _ (λ q _, with_queue s q)); [apply steady_dequeue_each|].
  - destruct (consumers s !! k); [|done]. revert Hr. by apply Hy, steady_try_dequeue_token.
  - revert Hr. by apply (Hx _ _ (λ q _, with_queue s q)); [apply steady_dequeue_from|].
  - revert Hr. by apply (Hx _ _ (λ q _, with_queue s q)); [apply steady_dequeue_bulk_each|].
  - destruct (consumers s !! k); [|done]. revert Hr. by apply Hy, steady_try_dequeue_bulk_token.
  - revert Hr. by apply (Hx _ _ (λ q _, with_queue s q)); [apply steady_dequeue_bulk_from|].
  - by apply bind_inv_ok in Hr as (n & _ & [= <- <-]).
Qed.

(** ** Tokens and producers point at each other *)

(** An explicit producer is held by a token or given up, an implicit one neither. *)
Record linked (fs : list (bool * bool * option nat)) (tks : gmap nat (option nat)) : Prop := {
  lk_back this i : tks !! this = Some (Some i) → fs !! i = Some (true, false, Some this);
  lk_forth this i x b : fs !! i = Some (x, b, Some this) → tks !! this = Some (Some i);
  lk_free i x b : fs !! i = Some (x, b, None) → b = x
}.

(** [this] does not hold a producer. *)
Definition empty_handed (this : nat) (tks : gmap nat (option nat)) : Prop := ∀ i, tks !! this ≠ Some (Some i).

Lemma linked_null fs tks this : linked fs tks → empty_handed this tks → linked fs (<[this := None]> tks).
Proof.
  intros [L1 L2 L3] He. constructor; [|intros this' i x b Hi|done].
  - intros this' i [[-> ?]|[? ?]]%lookup_insert_Some; [done|by apply L1].
  - apply L2 in Hi. apply lookup_insert_Some. right. split; [|done]. intros ->. by apply (He i).
Qed.

Lemma linked_gone fs tks this : linked fs tks → empty_handed this tks → linked fs (delete this tks).
Proof.
  intros [L1 L2 L3] He. constructor; [|intros this' i x b Hi|done].
  - intros this' i [? ?]%lookup_delete_Some. by apply L1.
  - apply L2 in Hi. apply lookup_delete_Some. split; [|done]. intros ->. by apply (He i).
Qed.

Lemma linked_give_up fs tks this i :
  linked fs tks → tks !! this = Some (Some i) → linked (<[i := (true, true, None)]> fs) (<[this := None]> tks).
Proof.
  intros L Ht. pose proof L as [L1 L2 L3]. pose proof (L1 _ _ Ht) as Hi. pose proof (lookup_lt_Some _ _ _ Hi). constructor.
  - intros this' j [[-> ?]|[Hne Hj]]%lookup_insert_Some; [done|]. pose proof (L1 _ _ Hj) as Hj'.
    rewrite list_lookup_insert_ne; [done|]. intros ->. congruence.
  - intros this' j x b [(-> & ? & ?)|[Hne Hj]]%list_lookup_insert_Some; [done|]. apply L2 in Hj.
    apply lookup_insert_Some. right. split; [|done]. intros ->. congruence.
  - intros j x b [(-> & ? & ?)|[Hne Hj]]%list_lookup_insert_Some; [congruence|by apply (L3 j)].
Qed.

Lemma linked_take fs tks this i :
  linked fs tks → empty_handed this tks → fs !! i = Some (true, true, None) →
  linked (<[i := (true, false, Some this)]> fs) (<[this := Some i]> tks).
Proof.
  intros L He Hi. pose proof L as [L1 L2 L3]. pose proof (lookup_lt_Some _ _ _ Hi). constructor.
  - intros this' j [[-> [= <-]]|[Hne Hj]]%lookup_insert_Some; [by apply list_lookup_insert_eq|].
    pose proof (L1 _ _ Hj) as Hj'. rewrite list_lookup_insert_ne; [done|]. intros ->. congruence.
  - intros this' j x b [(-> & ? & ?)|[Hne Hj]]%list_lookup_insert_Some; [simplify_eq; apply lookup_insert_eq|].
    apply L2 in Hj. apply lookup_insert_Some. right. split; [|done]. intros ->. by apply (He j).
  - intros j x b [(-> & ? & ?)|[Hne Hj]]%list_lookup_insert_Some; [congruence|by apply (L3 j)].
Qed.

Lemma linked_new fs tks this :
  linked fs tks → empty_handed this tks →
  linked (fs ++ [(true, false, Some this)]) (<[this := Some (length fs)]> tks).
Proof.
  intros L He. pose proof L as [L1 L2 L3]. constructor.
  - intros this' j [[-> [= <-]]|[Hne Hj]]%lookup_insert_Some; [by rewrite lookup_app_r, Nat.sub_diag by done|].
    pose proof (L1 _ _ Hj) as Hj'. by apply lookup_app_l_Some.
  - intros this' j x b [[_ Hj]|[<- ?]]%lookup_snoc_Some; [|simplify_eq; apply lookup_insert_eq].
    apply L2 in Hj. apply lookup_insert_Some. right. split; [|done]. intros ->. by apply (He j).
  - intros j x b [[_ Hj]|[_ ?]]%lookup_snoc_Some; [by apply (L3 j)|congruence].
Qed.

Lemma linked_implicit fs tks : linked fs tks → linked (fs ++ [(false, false, None)]) tks.
Proof.
  intros [L1 L2 L3]. constructor.
  - intros this j Hj. by apply lookup_app_l_Some, L1.
  - intros this j x b [[_ Hj]|[_ ?]]%lookup_snoc_Some; [by eapply L2|congruence].
  - intros j x b [[_ Hj]|[_ ?]]%lookup_snoc_Some; [by apply (L3 j)|congruence].
Qed.

(** The faces when the producer [o] gets to point to [this]. *)
Definition refaced (fs : list (bool * bool * option nat)) (o : option nat) (this : nat) : list (bool * bool * option nat) :=
  match o with Some i => alter (λ f, (f.1, Some this)) i fs | None => fs end.

Lemma alter_at {A} (g : A → A) (l : list A) i c : l !! i = Some c → alter g i l = <[i := g c]> l.
Proof.
  intros Hi. apply list_eq. intros j. destruct (decide (j = i)) as [->|Hne].
  - rewrite list_lookup_alter_eq, Hi, list_lookup_insert_eq by (by eapply lookup_lt_Some). done.
  - by rewrite list_lookup_alter_ne, list_lookup_insert_ne.
Qed.

Lemma linked_move fs tks this other o :
  linked fs tks → tks !! other = Some o → empty_handed this tks → this ≠ other →
  linked (refaced fs o this) (<[this := o]> (<[other := None]> tks)).
Proof.
  intros L Ho He Hne. assert (He' : empty_handed this (<[other := None]> tks)).
  { intros i. by rewrite lookup_insert_ne. }
  destruct o as [i|]; simpl.
  - pose proof (lk_back _ _ L _ _ Ho) as Hi. pose proof (lookup_lt_Some _ _ _ Hi).
    rewrite (alter_at _ _ _ _ Hi). cbn [fst]. rewrite <- (list_insert_insert_eq fs i _ (true, true, None)).
    apply linked_take; [by apply linked_give_up|done|]. by apply list_lookup_insert_eq.
  - apply linked_null; [|done]. apply linked_null; [done|]. intros i. congruence.
Qed.

Lemma refaced_twice fs a b this other tmp :
  (∀ i, a = Some i → b ≠ Some i) →
  refaced (refaced (refaced fs a tmp) b this) a other = refaced (refaced fs b this) a other.
Proof.
  intros Hne. destruct a as [i|]; [|done]. simpl. destruct b as [j|]; simpl.
  - assert (i ≠ j) by (intros ->; by apply (Hne j)).
    rewrite (list_alter_alter_ne _ _ (alter _ i fs) i j), list_alter_alter_eq, (list_alter_alter_ne _ _ fs i j) by done. done.
  - by rewrite list_alter_alter_eq.
Qed.

(** Swapping is moving by way of a third token. *)
Lemma linked_swap fs tks this other a b :
  linked fs tks → tks !! this = Some a → tks !! other = Some b →
  linked (refaced (refaced fs b this) a other) (<[other := a]> (<[this := b]> tks)).
Proof.
  intros L Ha Hb. destruct (decide (this = other)) as [<-|Hne].
  { assert (b = a) as -> by congruence. rewrite insert_insert_eq, insert_id by done. destruct a as [i|]; [|done].
    pose proof (lk_back _ _ L _ _ Ha) as Hi. simpl.
    assert (alter (λ f, (f.1, Some this)) i fs = fs) as Hid by (by rewrite (alter_at _ _ _ _ Hi), list_insert_id).
    by rewrite !Hid. }
  set (tmp := fresh (dom tks)). assert (Ht : tks !! tmp = None) by (apply not_elem_of_dom, is_fresh).
  assert (tmp ≠ this ∧ tmp ≠ other) as [Ht1 Ht2] by (split; intros Heq; congruence).
  rewrite <- (refaced_twice fs a b this other tmp).
  2:{ intros i -> ->. apply (lk_back _ _ L) in Ha. apply (lk_back _ _ L) in Hb. congruence. }
  assert (L1 : linked (refaced fs a tmp) (<[tmp := a]> (<[this := None]> tks))).
  { apply linked_move; [done..| |done]. intros i. by rewrite Ht. }
  apply (linked_move _ _ this other b) in L1; [|by simplify_map_eq|intros i; by simplify_map_eq|done].
  apply (linked_move _ _ other tmp a) in L1; [|by simplify_map_eq|intros i; by simplify_map_eq|done].
  apply (linked_gone _ _ tmp) in L1; [|intros i; by simplify_map_eq].
  match goal with |- linked _ ?m => match type of L1 with linked _ ?m' => replace m with m'; [done|] end end.
  apply map_eq. intros k. destruct (decide (k = tmp)), (decide (k = this)), (decide (k = other)); subst; by simplify_map_eq.
Qed.

(** ** Each operation *)

Lemma faces_mark q i f (g : bool * bool * option nat → bool * bool * option nat) c :
  (∀ nd, face (f nd) = g (face nd)) → faces q !! i = Some c → faces (mark q i f) = <[i := g c]> (faces q).
Proof.
  intros Hg Hi. rewrite <- (alter_at g _ _ _ Hi). unfold faces. simpl. apply list_eq. intros j.
  rewrite list_lookup_fmap. destruct (decide (j = i)) as [->|Hne].
  - rewrite !list_lookup_alter_eq, list_lookup_fmap. destruct (producers q !! i) as [nd|]; simpl; [by rewrite Hg|done].
  - by rewrite !list_lookup_alter_ne, list_lookup_fmap.
Qed.

Lemma faces_set_token q i x b tk o :
  faces q !! i = Some (x, b, tk) → faces (set_token q i o) = <[i := (x, b, o)]> (faces q).
Proof. by apply (faces_mark q i _ (λ f, (f.1, o))). Qed.
Lemma faces_set_inactive q i x b tk b' :
  faces q !! i = Some (x, b, tk) → faces (set_inactive q i b') = <[i := (x, b', tk)]> (faces q).
Proof. by apply (faces_mark q i _ (λ f, (f.1.1, b', f.2))). Qed.

Lemma get_face q i f : faces q !! i = Some f → ∃ nd, get q i = Ok nd ∧ face nd = f.
Proof.
  unfold faces, get. rewrite list_lookup_fmap. destruct (producers q !! i) as [nd|]; [|done].
  intros [= <-]. by exists nd.
Qed.

Lemma find_inactive_face fuel : ∀ ptr x q i,
  find_inactive fuel ptr x q = Ok (Some i) → ∃ tk, faces q !! i = Some (x, true, tk).
Proof.
  induction fuel as [|fuel IH]; intros [j|] x q i; try done. simpl. intros (nd & Hnd & Hr)%bind_inv_ok.
  destruct (inactive nd && _) eqn:Hb; [|by eapply IH]. injection Hr as ->.
  apply andb_prop in Hb as [Hi He%Bool.eqb_prop]. exists (token nd). unfold faces. rewrite list_lookup_fmap.
  unfold get in Hnd. destruct (producers q !! i); [|done]. injection Hnd as ->. simpl. unfold face. by rewrite Hi, He.
Qed.

Lemma recycle_faces x q q' o r :
  recycle_or_create_producer x q = Ok (q', o, r) →
  (I (env q) → I (env q')) ∧
  match o with
  | Some i => if r : bool
      then ∃ tk, faces q !! i = Some (x, true, tk) ∧ faces q' = <[i := (x, false, tk)]> (faces q)
      else i = length (faces q) ∧ faces q' = faces q ++ [(x, false, None)]
  | None => faces q' = faces q
  end.
Proof.
  unfold recycle_or_create_producer. intros ([i|] & Hf & Hr)%bind_inv_ok.
  - injection Hr as <- <- <-. split; [done|]. destruct (find_inactive_face _ _ _ _ _ Hf) as [tk Hi]. exists tk.
    split; [done|]. by eapply faces_set_inactive.
  - apply bind_inv_ok in Hr as ([e op] & Hc & Hr). destruct (create_keeps _ _ _ _ Hc) as [HI Hk].
    destruct op as [p|]; injection Hr as <- <- <-; [|done]. split; [done|]. split; [by unfold faces; rewrite length_fmap|].
    unfold faces. simpl. rewrite fmap_app. simpl. unfold face. simpl. by rewrite (Hk p eq_refl).
Qed.

Context `{!SubQueueLaws E P T}.

(** The client's queue works and its tokens are right. *)
Record client_ok (w : client) (qs : list (list T)) (n : nat) : Prop := {
  cl_system : system_ok (sys w) qs n;
  cl_linked : linked (faces (its_queue w)) (tokens w);
  cl_env : I (env (its_queue w))
}.

Lemma system_mark s qs n i f `{!Marks f} : system_ok s qs n → system_ok (with_queue s (mark (the_queue s) i f)) qs n.
Proof.
  intros S. eapply system_kept; [exact S|apply mark_ok; [done|apply S]|]. simpl. by rewrite length_alter.
Qed.

Lemma producer_of_ok w this : is_Some (tokens w !! this) → ∃ o, producer_of w this = Ok o ∧ tokens w !! this = Some o.
Proof. unfold producer_of. intros [o ->]. by exists o. Qed.

Lemma fresh_token w this : tokens w !! this = None → empty_handed this (tokens w).
Proof. intros Hn i. by rewrite Hn. Qed.

(** A producer is made or taken over: what it and the queue are then. *)
Lemma recycled_client w qs n x :
  client_ok w qs n → S (length (producers (its_queue w))) < 2 ^ 32 →
  ∃ q o r qs', recycle_or_create_producer x (its_queue w) = Ok (q, o, r) ∧ system_ok (with_queue (sys w) q) qs' n ∧ I (env q) ∧
    match o with
    | Some i => if r : bool
        then x = true ∧ faces (its_queue w) !! i = Some (x, true, None) ∧ faces q = <[i := (x, false, None)]> (faces (its_queue w))
        else i = length (faces (its_queue w)) ∧ faces q = faces (its_queue w) ++ [(x, false, None)]
    | None => faces q = faces (its_queue w)
    end.
Proof.
  intros [S L HI] Hlen. destruct (producers_ok _ _ _ (NewProducer x) S Hlen Logic.I) as (s' & a & qs' & Hr & _ & S' & _).
  cbn [exec] in Hr. apply bind_inv_ok in Hr as ([[q o] r] & Hr & [= <- <-]). exists q, o, r, qs'.
  split; [done|]. split; [done|]. destruct (recycle_faces _ _ _ _ _ Hr) as [HI' Hf]. split; [by apply HI'|]. destruct o as [i|]; [|done].
  destruct r; [|done]. destruct Hf as (tk & Hi & Hf). destruct tk as [this|].
  - pose proof (lk_forth _ _ L _ _ _ _ Hi) as Ht. apply (lk_back _ _ L) in Ht. unfold its_queue in *. congruence.
  - pose proof (lk_free _ _ L _ _ _ Hi). by subst x.
Qed.

Lemma construct_token_ok this w qs n :
  client_ok w qs n → tokens w !! this = None → S (length (producers (its_queue w))) < 2 ^ 32 →
  ∃ w' qs', construct_token this w = Ok w' ∧ client_ok w' qs' n.
Proof.
  intros W Hn Hlen. destruct (recycled_client w qs n true W Hlen) as (q & o & r & qs' & Hr & S' & HI' & Hf).
  pose proof W as [S L HI]. pose proof (fresh_token _ _ Hn) as He.
  unfold construct_token, ProducerToken. rewrite Hr, !bind_ok. destruct o as [i|].
  - do 2 eexists. split; [reflexivity|]. split; [apply (system_mark (with_queue (sys w) q) _ _ i _ S')| |done].
    cbn [its_queue with_tokens sys the_queue with_queue tokens]. unfold its_queue in *. destruct r.
    + destruct Hf as (_ & Hi & Hf). rewrite (faces_set_token _ _ true false None), Hf, list_insert_insert_eq.
      2:{ rewrite Hf. apply list_lookup_insert_eq. by eapply lookup_lt_Some. }
      by apply linked_take.
    + destruct Hf as [-> Hf]. rewrite (faces_set_token _ _ true false None), Hf.
      2:{ rewrite Hf. by apply list_lookup_middle. }
      rewrite insert_app_r_alt, Nat.sub_diag by done. by apply linked_new.
  - do 2 eexists. split; [reflexivity|]. split; [exact S'| |done]. cbn. rewrite Hf. by apply linked_null.
Qed.

Lemma delete_token_ok this w qs n :
  client_ok w qs n → is_Some (tokens w !! this) → ∃ w', delete_token this w = Ok w' ∧ client_ok w' qs n.
Proof.
  intros [S L HI] (o & Ho & Ht)%producer_of_ok. unfold delete_token. rewrite Ho, bind_ok. destruct o as [i|].
  - pose proof (lk_back _ _ L _ _ Ht) as Hi. destruct (get_face _ _ _ Hi) as (nd & Hnd & _). unfold destroy_token. rewrite Hnd, !bind_ok.
    eexists. split; [reflexivity|]. split; [| |done].
    + apply (system_mark (with_queue (sys w) (set_token (its_queue w) i None)) _ _ i); [apply _|]. exact (system_mark (sys w) _ _ i _ S).
    + cbn [its_queue with_tokens sys the_queue with_queue tokens].
      rewrite (faces_set_inactive _ _ true false None), (faces_set_token _ _ _ _ _ None Hi), list_insert_insert_eq.
      2:{ rewrite (faces_set_token _ _ _ _ _ None Hi). apply list_lookup_insert_eq. by eapply lookup_lt_Some. }
      rewrite <- (delete_insert_eq _ this None). apply linked_gone; [by apply linked_give_up|].
      intros j. by rewrite lookup_insert_eq.
  - eexists. split; [reflexivity|]. split; [by destruct S| |done]. cbn. apply linked_gone; [done|]. intros j. congruence.
Qed.

Lemma point_back_ok o this s q qs n :
  system_ok (with_queue s q) qs n → (∀ i, o = Some i → is_Some (faces q !! i)) →
  ∃ q', point_back o this q = Ok q' ∧ system_ok (with_queue s q') qs n ∧ faces q' = refaced (faces q) o this ∧ env q' = env q.
Proof.
  intros S Ho. destruct o as [i|]; [|by exists q]. destruct (Ho i eq_refl) as [[[x b] tk] Hi].
  destruct (get_face _ _ _ Hi) as (nd & Hnd & _). simpl. rewrite Hnd, bind_ok. eexists. split; [done|].
  split; [exact (system_mark (with_queue s q) _ _ i _ S)|]. split; [|done]. by rewrite (faces_set_token _ _ _ _ _ _ Hi), (alter_at _ _ _ _ Hi).
Qed.

Lemma move_token_ok this other w qs n :
  client_ok w qs n → is_Some (tokens w !! other) → tokens w !! this = None →
  ∃ w', move_token this other w = Ok w' ∧ client_ok w' qs n.
Proof.
  intros [S L HI] (o & Ho & Ht)%producer_of_ok Hn. unfold move_token. rewrite Ho, bind_ok.
  destruct (point_back_ok o this (sys w) (its_queue w) qs n) as (q & -> & S' & Hf & He).
  - by destruct S.
  - intros i ->. apply (lk_back _ _ L) in Ht. by eexists.
  - rewrite bind_ok. eexists. split; [done|]. split; [done| |by cbn; rewrite He]. cbn. rewrite Hf.
    apply linked_move; [done|done|by apply fresh_token|congruence].
Qed.

Lemma swap_tokens_ok this other w qs n :
  client_ok w qs n → is_Some (tokens w !! this) → is_Some (tokens w !! other) →
  ∃ w', swap_tokens this other w = Ok w' ∧ client_ok w' qs n.
Proof.
  intros [S L HI] (a & Ha & Hat)%producer_of_ok (b & Hb & Hbt)%producer_of_ok. unfold swap_tokens. rewrite Ha, Hb, !bind_ok.
  destruct (point_back_ok b this (sys w) (its_queue w) qs n) as (q & -> & S1 & Hf1 & He1).
  { by destruct S. }
  { intros i ->. apply (lk_back _ _ L) in Hbt. by eexists. }
  rewrite bind_ok. destruct (point_back_ok a other (sys w) q qs n S1) as (q2 & -> & S2 & Hf2 & He2).
  { intros i ->. apply (lk_back _ _ L) in Hat. rewrite Hf1. destruct b as [j|]; [|by eexists].
    simpl. destruct (decide (i = j)) as [->|Hne]; [rewrite list_lookup_alter_eq, Hat|rewrite list_lookup_alter_ne by done]; by eexists. }
  rewrite bind_ok. eexists. split; [done|]. split; [done| |by cbn; rewrite He2, He1]. cbn. rewrite Hf2, Hf1. by apply linked_swap.
Qed.

(** ** What a client has to see to *)

(** It makes tokens at free addresses and uses them while they are alive, and calls with
    a token that is valid; its calls are as in McQueueRuns.v. *)
Definition action_ok (w : client) (a : action) : Prop :=
  match a with
  | NewToken this => tokens w !! this = None ∧ S (length (producers (its_queue w))) < 2 ^ 32
  | MoveToken this other => tokens w !! this = None ∧ is_Some (tokens w !! other)
  | SwapTokens this other => is_Some (tokens w !! this) ∧ is_Some (tokens w !! other)
  | DeleteToken this => is_Some (tokens w !! this)
  | MoveConsumer k => (k < length (consumers (sys w)))%nat
  | SwapConsumers k j => (k < length (consumers (sys w)))%nat ∧ (j < length (consumers (sys w)))%nat
  | WithToken this c => ∃ i, tokens w !! this = Some (Some i) ∧ call_ok (sys w) (at_producer c i)
  | Call c => plain c = true ∧ call_ok (sys w) c
  end.
Fixpoint actions_ok (w : client) (l : list action) : Prop :=
  match l with
  | [] => True
  | a :: l => action_ok w a ∧ ∀ w' r, act w a = Ok (w', r) → actions_ok w' l
  end.

Definition action_adds (a : action) : nat :=
  match a with WithToken _ c => adds (at_producer c 0) | Call c => adds c | _ => 0 end.

Lemma called_ok w qs n c :
  client_ok w qs n → call_ok (sys w) c → fits_in (n + adds c) → plain c = true →
  ∃ w' r qs', called w c = Ok (w', r) ∧ client_ok w' qs' (n + adds c).
Proof.
  intros [S L HI] Hc Hfit Hp. destruct (exec_serves _ _ _ _ S Hc Hfit) as (s' & r & qs' & Hr & _ & S' & _).
  exists (Client s' (tokens w)), r, qs'. unfold called. rewrite Hr. split; [done|].
  assert ((∃ x, c = NewProducer x) ∨ ∀ x, c ≠ NewProducer x) as [[x ->]|Hn] by (destruct c; eauto).
  - destruct x; [done|]. destruct (recycled_client w qs n false) as (q & o & rc & _ & Hrec & _ & HI' & Hf); [done|exact Hc|].
    cbn [exec] in Hr. unfold its_queue in *. rewrite Hrec in Hr. injection Hr as <- <-. split; [done| |done]. cbn.
    destruct o as [i|]; [|by rewrite Hf]. destruct rc; [by destruct Hf|]. destruct Hf as [_ ->]. by apply linked_implicit.
  - destruct (exec_calm _ _ _ _ Hr Hp Hn) as [Hf HI']. unfold its_queue in *.
    split; [done| |by apply HI']. unfold its_queue. simpl. by rewrite Hf.
Qed.

Lemma consumers_ok w qs n ts :
  client_ok w qs n → Forall (token_ok (its_queue w)) ts → client_ok (Client (System (its_queue w) ts) (tokens w)) qs n.
Proof. intros [[S1 S2 S3] L HI] Ht. by split. Qed.

Lemma act_ok w qs n a :
  client_ok w qs n → action_ok w a → fits_in (n + action_adds a) →
  ∃ w' r qs', act w a = Ok (w', r) ∧ client_ok w' qs' (n + action_adds a).
Proof.
  intros W Ha Hfit. pose proof (so_tokens _ _ _ (cl_system _ _ _ W)) as Ht.
  assert (Hdone : ∀ m, (∃ w' qs', m = Ok w' ∧ client_ok w' qs' n) →
    ∃ w' r qs', done m = Ok (w', r) ∧ client_ok w' qs' (n + 0)).
  { intros m (w' & qs' & -> & W'). exists w', Done, qs'. by rewrite Nat.add_0_r. }
  destruct a as [this|this other|this other|this|k|k j|this c|c]; cbn [act action_ok action_adds] in *.
  - apply Hdone. destruct Ha. by eapply construct_token_ok.
  - apply Hdone. destruct Ha. destruct (move_token_ok this other w qs n) as (w' & ? & ?); eauto.
  - apply Hdone. destruct Ha. destruct (swap_tokens_ok this other w qs n) as (w' & ? & ?); eauto.
  - apply Hdone. destruct (delete_token_ok this w qs n) as (w' & ? & ?); eauto.
  - destruct (lookup_lt_is_Some_2 _ _ Ha) as [t Hk]. rewrite Hk. do 3 eexists. split; [reflexivity|]. rewrite Nat.add_0_r.
    apply consumers_ok; [done|]. apply Forall_app. split; [done|]. apply Forall_singleton. destruct t. by eapply Forall_lookup_1 in Ht.
  - destruct Ha as [Hk Hj]. destruct (lookup_lt_is_Some_2 _ _ Hk) as [t Htk]. destruct (lookup_lt_is_Some_2 _ _ Hj) as [u Huj].
    rewrite Htk, Huj. do 3 eexists. split; [reflexivity|]. rewrite Nat.add_0_r. apply consumers_ok; [done|].
    destruct t, u. do 2 (apply Forall_insert; [|by eapply Forall_lookup_1 in Ht]). done.
  - destruct Ha as (i & Hi & Hc). unfold producer_of. rewrite Hi, bind_ok.
    assert (adds (at_producer c 0) = adds (at_producer c i)) as Heq by (by destruct c). rewrite Heq in *.
    apply (called_ok w qs); try done. by destruct c.
  - destruct Ha. by apply (called_ok w qs).
Qed.

Lemma acts_ok l : ∀ w qs n,
  client_ok w qs n → actions_ok w l → fits_in (n + sum_list (action_adds <$> l)) →
  ∃ w' rs qs', acts w l = Ok (w', rs) ∧ client_ok w' qs' (n + sum_list (action_adds <$> l)).
Proof.
  induction l as [|a l IH]; intros w qs n W Hl Hfit; cbn [acts].
  { exists w, [], qs. by rewrite Nat.add_0_r. }
  destruct Hl as [Ha Hl]. rewrite fmap_cons in *. cbn [sum_list id] in *. rewrite Nat.add_assoc in *.
  destruct (act_ok w qs n a W Ha) as (w1 & r & qs1 & Hr & W1).
  { eapply fits_in_less; [|exact Hfit]. unfold id. lia. }
  destruct (IH w1 qs1 _ W1 (Hl _ _ Hr) Hfit) as (w2 & rs & qs2 & Hrs & W2).
  rewrite Hr, bind_ok, Hrs, bind_ok. by exists w2, (r :: rs), qs2.
Qed.

(** The invariant in terms of the producers. *)
Lemma linked_producers q tks this i :
  linked (faces q) tks →
  tks !! this = Some (Some i) ↔
  ∃ nd, producers q !! i = Some nd ∧ isExplicit (sub nd) = true ∧ inactive nd = false ∧ token nd = Some this.
Proof.
  intros L. split.
  - intros Ht%(lk_back _ _ L). unfold faces in Ht. rewrite list_lookup_fmap in Ht.
    destruct (producers q !! i) as [nd|]; [|done]. injection Ht as Hx Hi Ht. by exists nd.
  - intros (nd & Hi & Hx & Hin & Ht). apply (lk_forth _ _ L _ i true false). unfold faces. rewrite list_lookup_fmap, Hi.
    simpl. unfold face. by rewrite Hx, Hin, Ht.
Qed.

Lemma linked_inactive q tks i nd :
  linked (faces q) tks → producers q !! i = Some nd → isExplicit (sub nd) = true →
  (inactive nd = true ↔ ∀ this, tks !! this ≠ Some (Some i)).
Proof.
  intros L Hi Hx. assert (Hf : faces q !! i = Some (face nd)) by (unfold faces; by rewrite list_lookup_fmap, Hi).
  unfold face in Hf. split.
  - intros Hin this Ht%(lk_back _ _ L). congruence.
  - intros Hno. destruct (token nd) as [this|] eqn:Ht.
    + apply (lk_forth _ _ L) in Hf. by destruct (Hno this).
    + apply (lk_free _ _ L) in Hf. congruence.
Qed.
End tokens.
End McTokens.
