(* ===== verification/McConcurrentQueue.v ===== *)
(** * [ConcurrentQueue]

    concurrentqueue.h: the constructors, and the queue as a whole: the methods of
    McQueue.v on the producers of McProducerBase.v, which share the pool of McPool.v. *)
From S2P Require Import Prelude McBlock McPool McImplicit McSubQueue McProducerBase McQueue McQueueRuns.
Local Open Scope Z_scope.

Module McConcurrentQueue.
Import McBlock McPool McSubQueue McProducerBase McQueue McQueueRuns.

Section queue.
Context `{Traits} `{Element} `{Quota} {T : Type}.

Definition with_blocks (blocks : Z) (mallocs : list bool) : result (queue (E := pool T) (P := McProducerBase.sub)) :=
  p ← populate_initial_block_list (Z.to_nat blocks) mallocs; Ok (Queue p [] None 0 0 0).

(** [capacity / BLOCK_SIZE + ((capacity & (BLOCK_SIZE - 1)) == 0 ? 0 : 1)] *)
Definition blocks_for (capacity : Z) : Z :=
  u64 (capacity / BLOCK_SIZE + (if Z.land capacity (BLOCK_SIZE - 1) =? 0 then 0 else 1)).

(** [ConcurrentQueue(capacity)] *)
Definition construct (capacity : Z) (mallocs : list bool) : result (queue (E := pool T) (P := McProducerBase.sub)) :=
  with_blocks (blocks_for capacity) mallocs.

(** [ConcurrentQueue(minCapacity, maxExplicitProducers, maxImplicitProducers)] *)
Definition construct_for (minCapacity maxExplicitProducers maxImplicitProducers : Z) (mallocs : list bool) :
    result (queue (E := pool T) (P := McProducerBase.sub)) :=
  with_blocks
    (u64 (u64 (u64 (minCapacity + BLOCK_SIZE - 1) / BLOCK_SIZE - 1) * u64 (maxExplicitProducers + 1) +
          2 * u64 (maxExplicitProducers + maxImplicitProducers))) mallocs.

Context `{!TraitsOk}.

(** ** Construction *)

(** The queue over the pool [initial_blocks], before there are producers. *)
Definition constructed (capacity : Z) (ms : list bool) : queue (E := pool T) (P := McProducerBase.sub) :=
  Queue (initial_blocks (Z.to_nat (blocks_for capacity)) ms) [] None 0 0 0.

(** The blocks are as many as are needed for [capacity] elements. *)
Lemma blocks_for_ceil capacity :
  0 <= capacity < 2 ^ 64 → blocks_for capacity = (capacity + (BLOCK_SIZE - 1)) / BLOCK_SIZE ∧ 0 <= blocks_for capacity <= 2 ^ 63.
Proof.
  intros Hc. destruct block_size_pow2 as (k & Hk & HB). unfold blocks_for.
  assert (Hland : Z.land capacity (BLOCK_SIZE - 1) = capacity mod BLOCK_SIZE) by (rewrite HB; apply land_mask; lia).
  rewrite Hland. assert (BLOCK_SIZE ≠ 0 ∧ 0 < BLOCK_SIZE) as [Hz Hp] by (pose proof block_size_pos; lia). assert (HB2 : 2 <= BLOCK_SIZE) by (rewrite HB; change 2 with (2 ^ 1) at 1; apply Z.pow_le_mono_r; lia).
  pose proof (Z.div_mod capacity _ Hz) as Hd. pose proof (Z.mod_pos_bound capacity _ Hp).
  set (d := capacity / BLOCK_SIZE) in *. set (m := capacity mod BLOCK_SIZE) in *.
  assert (0 <= d) by (apply Z.div_pos; lia). assert (2 * d <= BLOCK_SIZE * d) by nia. assert (d <= 2 ^ 63 - 1) by lia.
  assert (Hceil : (capacity + (BLOCK_SIZE - 1)) / BLOCK_SIZE = d + (if m =? 0 then 0 else 1)).
  { symmetry. destruct (Z.eqb_spec m 0).
    - apply Z.div_unique with (BLOCK_SIZE - 1); nia.
    - apply Z.div_unique with (m - 1); nia. }
  rewrite Hceil. destruct (Z.eqb_spec m 0); rewrite wrap_small by (unfold fits; lia); lia.
Qed.

Lemma capacity_blocks capacity : 0 <= capacity <= 2 ^ 31 → 0 <= blocks_for capacity <= 2 ^ 31.
Proof.
  intros Hc. destruct (blocks_for_ceil capacity) as [He ?]; [lia|]. split; [lia|]. rewrite He. pose proof block_size_pos.
  apply Z.div_le_upper_bound; nia.
Qed.

Lemma construct_ok capacity ms :
  0 <= capacity < 2 ^ 64 → sizeof_Block * blocks_for capacity < 2 ^ 64 → construct capacity ms = Ok (constructed capacity ms).
Proof.
  intros Hc Hfit. pose proof block_bytes. destruct (blocks_for_ceil capacity Hc) as [_ Hb]. unfold construct, with_blocks.
  rewrite populate_fits by lia. done.
Qed.

Lemma construct_small capacity ms : 0 <= capacity <= 2 ^ 31 → construct capacity ms = Ok (constructed capacity ms).
Proof. intros Hc. pose proof (capacity_blocks _ Hc). pose proof block_bytes. apply construct_ok; [lia|]. nia. Qed.

Lemma constructed_ok capacity ms :
  0 <= capacity <= 2 ^ 31 → system_ok (T := T) (System (constructed capacity ms) []) [] 0.
Proof.
  intros Hc. pose proof (capacity_blocks _ Hc) as Hb. constructor; simpl; [|constructor|done].
  constructor; simpl; try done. change (McProducerBase.holds (initial_blocks (T := T) (Z.to_nat (blocks_for capacity)) ms) [] [] 0).
  exists []. split; [done|]. split; [done|]. constructor; try done.
  - apply initial_blocks_ok. unfold SIZE_MAX. lia.
  - constructor.
  - unfold initial_blocks. case_decide; [done|]. destruct (hd true ms); simpl; lia.
Qed.

Lemma constructed_ample capacity : MAX_SUBQUEUE_SIZE = SIZE_MAX → queue_ample (constructed capacity []).
Proof.
  intros Hx. unfold queue_ample, constructed. simpl. split; [|split; [done|constructor]].
  unfold initial_blocks. by case_decide.
Qed.

Lemma run_from_construction capacity ms (cs : list (call (T := T))) :
  0 <= capacity <= 2 ^ 31 → BLOCK_SIZE * sum_list (adds <$> cs) < 2 ^ 62 →
  calls_ok (System (constructed capacity ms) []) cs →
  ∃ s' answers qs', run (System (constructed capacity ms) []) cs = Ok (s', answers) ∧
    serves_all [] cs answers qs' ∧ size_approx (the_queue s') = Ok (Z.of_nat (length (concat qs'))) ∧
    (ms = [] → MAX_SUBQUEUE_SIZE = SIZE_MAX → Forall (λ c, may_allocate c = true) cs →
     Forall (λ a, refused a = false) answers) ∧ well_formed s' = true.
Proof.
  intros Hcap Hfit Hcs. destruct (run_serves cs _ [] 0 (constructed_ok _ ms Hcap) Hcs Hfit)
    as (s' & answers & qs' & Hrun & Hs & S' & Hm).
  exists s', answers, qs'. split; [exact Hrun|]. split; [exact Hs|]. split.
  { rewrite (size_approx_ok _ _ _ (so_queue _ _ _ S')). do 2 f_equal. pose proof block_size_pos.
    apply serves_all_total in Hs. simpl in Hs. apply wrap_small. unfold fits. nia. }
  split; [|by eapply system_well_formed]. intros -> Hx Ha. apply Hm; [|done]. by apply constructed_ample.
Qed.

(** C1: a [ConcurrentQueue] is a collection of first-in-first-out queues.  It is
    constructed for any capacity up to 2^31, whatever [malloc] answers, and from then on
    every sequence of calls by any number of producers and consumer tokens runs without
    undefined behaviour or failed assertion and is answered as the collection answers: a
    call that takes elements comes back empty-handed, or with less than it asked for,
    only when no producer has an element left; [size_approx] is exact; while memory can
    be had nothing is refused.  The calls use producers and tokens that exist, there are
    less than 2^32 producers, and no element that goes to a producer token's producer
    throws and no bulk that goes to one is refused: those two break it. *)
Theorem concurrent_queue_refines capacity ms (cs : list (call (T := T))) :
  0 <= capacity <= 2 ^ 31 → BLOCK_SIZE * sum_list (adds <$> cs) < 2 ^ 62 →
  ∃ q, construct capacity ms = Ok q ∧
    (calls_ok (System q []) cs →
     ∃ s' answers qs', run (System q []) cs = Ok (s', answers) ∧
       serves_all [] cs answers qs' ∧ size_approx (the_queue s') = Ok (Z.of_nat (length (concat qs'))) ∧
       (ms = [] → MAX_SUBQUEUE_SIZE = SIZE_MAX → Forall (λ c, may_allocate c = true) cs →
        Forall (λ a, refused a = false) answers)).
Proof.
  intros Hcap Hfit. exists (constructed capacity ms). split; [by apply construct_small|]. intros Hcs.
  destruct (run_from_construction capacity ms cs Hcap Hfit Hcs) as (s' & answers & qs' & ? & ? & ? & ? & _).
  by exists s', answers, qs'.
Qed.

(** C3: every producer is a first-in-first-out queue to all consumers together.  When no
    consumer's assignment throws, each element a consumer is handed comes from some
    producer, and for every producer the elements handed out from it, in the order of
    the calls, followed by those it still has, are the elements enqueued to it, in order:
    nothing is lost, repeated or made up.  As long as no element throws on its way to a
    producer token's producer, and no bulk is refused by one; a refused bulk can make
    such a producer lose elements. *)
Theorem producers_fifo capacity ms (cs : list (call (T := T))) :
  0 <= capacity <= 2 ^ 31 → BLOCK_SIZE * sum_list (adds <$> cs) < 2 ^ 62 →
  ∃ q, construct capacity ms = Ok q ∧
    (calls_ok (System q []) cs →
     ∃ s' answers, run (System q []) cs = Ok (s', answers) ∧
       (Forall (λ a, loses a = false) answers →
        ∃ tagged qs', all_received answers = tagged.*2 ∧ size_approx (the_queue s') = Ok (Z.of_nat (length (concat qs'))) ∧
          ∀ i, all_sent i cs answers = from i tagged ++ content i qs')).
Proof.
  intros Hcap Hfit. exists (constructed capacity ms). split; [by apply construct_small|]. intros Hcs.
  destruct (run_from_construction capacity ms cs Hcap Hfit Hcs) as (s' & answers & qs' & Hrun & Hs & Hsize & _).
  exists s', answers. split; [exact Hrun|]. intros Hl.
  destruct (serves_all_tagged _ _ _ _ Hs Hl) as (tagged & Hr & Hi). by exists tagged, qs'.
Qed.

(** C4: the data stays well-formed: after any calls the list links every producer to the
    one created before it and ends, the count of producers is theirs, and the pointers of
    every consumer token lead into the list, or it has none yet. *)
Theorem stays_well_formed capacity ms (cs : list (call (T := T))) :
  0 <= capacity <= 2 ^ 31 → BLOCK_SIZE * sum_list (adds <$> cs) < 2 ^ 62 →
  ∃ q, construct capacity ms = Ok q ∧
    (calls_ok (System q []) cs → ∃ s' answers, run (System q []) cs = Ok (s', answers) ∧ well_formed s' = true).
Proof.
  intros Hcap Hfit. exists (constructed capacity ms). split; [by apply construct_small|]. intros Hcs.
  destruct (run_from_construction capacity ms cs Hcap Hfit Hcs) as (s' & answers & qs' & ? & _ & _ & _ & ?).
  by exists s', answers.
Qed.

(** C26: the constructor makes as many blocks as its capacity needs, rounded up, or none
    without memory, for every capacity whose blocks fit in the address space; for every
    larger one the size of the allocation wraps around, and when [malloc] has that much
    the constructor writes beyond it. *)
Theorem initial_capacity capacity ms :
  0 <= capacity < 2 ^ 64 →
  let blocks := (capacity + (BLOCK_SIZE - 1)) / BLOCK_SIZE in
  (sizeof_Block * blocks < 2 ^ 64 →
   ∃ q, construct capacity ms = Ok q ∧
     initialBlockPoolSize (env q) = (if (0 <? blocks) && negb (hd true ms) then 0 else blocks) ∧
     ∀ i : nat, i < initialBlockPoolSize (env q) → ∃ b, heap (env q) !! i = Some b ∧ raw b ∧ dynamicallyAllocated b = false) ∧
  (2 ^ 64 <= sizeof_Block * blocks → construct capacity (true :: ms) = UB).
Proof.
  intros Hc blocks. pose proof block_bytes. destruct (blocks_for_ceil capacity Hc) as [He Hb]. fold blocks in He. split.
  - intros Hfit. rewrite <- He in Hfit. exists (constructed capacity ms). split; [by apply construct_ok|].
    cbn [constructed env]. rewrite He in *. unfold initial_blocks. case_decide as Hz; simpl.
    + assert (blocks = 0) as -> by lia. split; [done|]. intros i Hi. lia.
    + rewrite (proj2 (Z.ltb_lt _ _)) by lia. destruct (hd true ms); simpl; [|split; [done|intros i Hi; lia]].
      split; [lia|]. intros i Hi. exists (set_static new_block). split; [|done].
      apply initial_block_at. lia.
  - intros Hbig. unfold construct, with_blocks, populate_initial_block_list. rewrite He, Z2Nat.id by lia.
    rewrite bool_decide_eq_false_2, (proj2 (Z.ltb_lt _ _)); [done| |nia].
    pose proof (wrap_fits 64 (sizeof_Block * blocks)). unfold fits in *. lia.
Qed.
End queue.

(** ** Examples: blocks of 4 elements, rotation after 4 *)

#[local] Existing Instance McImplicit.small.
#[local] Existing Instance McImplicit.small_ok.
#[local] Instance no_exceptions : Element := true.
#[local] Instance quota_4 : Quota := 4.

(** Two producers and two consumers; the token of the first producer is dropped and its
    producer used again. *)
Definition client : list (call (T := Z)) :=
  [NewProducer true; NewProducer false; NewConsumer; NewConsumer; EnqueueBulk 0 true (seqZ 0 10) [];
   Enqueue 1 true false 100; Enqueue 1 true false 101; TryDequeueToken 0 false; TryDequeueToken 1 false;
   TryDequeueBulkToken 0 5 []; SizeApprox; TryDequeue false; DropToken 0; NewProducer true;
   Enqueue 0 true false 10; TryDequeueBulk 100 []; TryDequeueToken 1 false;
   EnqueueBulk 0 false [11; 12] []; SizeApprox].

Definition client_answers : list (answer (T := Z)) :=
  [Created (Some 0%nat) false; Created (Some 1%nat) false; Done; Done; Added (Returned true);
   Added (Returned true); Added (Returned true); One (Got 100); One (Got 0);
   Many (GotMany [101; 1; 2; 3; 4]); Size 5; One (Got 5); Done; Created (Some 0%nat) true;
   Added (Returned true); Many (GotMany [6; 7; 8; 9; 10]); One Nothing; Added (Returned true);
   Size 2].

Definition start : system (E := pool Z) (P := McProducerBase.sub) := System (constructed 5 []) [].
Lemma starts q : construct 5 [] = Ok q → System q [] = start.
Proof. rewrite construct_small by (by split; vm_compute). by intros [= <-]. Qed.

Definition answers_of (cs : list (call (T := Z))) : option (list (answer (T := Z))) :=
  match run start cs with Ok (_, answers) => Some answers | _ => None end.

(** Evaluates what is asked of the calls, one by one. *)
Ltac call_is_ok :=
  match goal with
  | |- ∃ n, _ ∧ _ => eexists; split; [reflexivity|]; intros _; call_is_ok
  | |- accepted _ _ => intros ? ? Hx; vm_compute in Hx; by injection Hx
  | |- _ ∧ _ => split; call_is_ok
  | |- True => exact I
  | |- (_ < _)%nat => vm_compute; lia
  | |- _ => reflexivity
  end.
Ltac calls_are_ok :=
  lazymatch goal with
  | |- calls_ok _ [] => exact I
  | |- calls_ok _ _ =>
      split; [cbn [call_ok]; call_is_ok|
        let Hx := fresh in intros ? ? Hx; vm_compute in Hx; injection Hx as <- <-; calls_are_ok]
  end.

Lemma client_ok : calls_ok start client.
Proof. unfold client. calls_are_ok. Qed.

Lemma concurrent_queue_refines_witness :
  answers_of client = Some client_answers ∧
  ∃ q, construct 5 [] = Ok q ∧ ∃ s' answers qs', run (System q []) client = Ok (s', answers) ∧
    serves_all [] client answers qs' ∧ size_approx (the_queue s') = Ok (Z.of_nat (length (concat qs'))) ∧
    ((@nil bool) = [] → MAX_SUBQUEUE_SIZE = SIZE_MAX → Forall (λ c, may_allocate c = true) client →
     Forall (λ a, refused a = false) answers).
Proof.
  split; [by vm_compute|].
  destruct (concurrent_queue_refines 5 [] client) as (q & Hq & Hrun); [by split; vm_compute|by vm_compute|].
  exists q. split; [exact Hq|]. apply Hrun. rewrite (starts q Hq). exact client_ok.
Defined.

Lemma producers_fifo_witness :
  all_received client_answers = [100; 0; 101; 1; 2; 3; 4; 5; 6; 7; 8; 9; 10] ∧
  all_sent 0 client client_answers = seqZ 0 13 ∧
  ∃ q, construct 5 [] = Ok q ∧ ∃ s' answers, run (System q []) client = Ok (s', answers) ∧
    (Forall (λ a, loses a = false) answers →
     ∃ tagged qs', all_received answers = tagged.*2 ∧ size_approx (the_queue s') = Ok (Z.of_nat (length (concat qs'))) ∧
       ∀ i, all_sent i client answers = from i tagged ++ content i qs').
Proof.
  split; [by vm_compute|]. split; [by vm_compute|].
  destruct (producers_fifo 5 [] client) as (q & Hq & Hrun); [by split; vm_compute|by vm_compute|].
  exists q. split; [exact Hq|]. apply Hrun. rewrite (starts q Hq). exact client_ok.
Defined.

Lemma stays_well_formed_witness :
  ∃ q, construct 5 [] = Ok q ∧ ∃ s' answers, run (System q []) client = Ok (s', answers) ∧ well_formed s' = true.
Proof.
  destruct (stays_well_formed 5 [] client) as (q & Hq & Hrun); [by split; vm_compute|by vm_compute|].
  exists q. split; [exact Hq|]. apply Hrun. rewrite (starts q Hq). exact client_ok.
Defined.

(** 10 elements take 3 blocks of 4; 2^61 elements take blocks of more than 2^64 bytes. *)
Lemma initial_capacity_witness :
  (∃ q, construct (T := Z) 10 [] = Ok q ∧ initialBlockPoolSize (env q) = 3) ∧ construct (T := Z) (2 ^ 61) [true] = UB.
Proof.
  split.
  - destruct (initial_capacity (T := Z) 10 []) as [Hsmall _]; [by split; vm_compute|].
    destruct Hsmall as (q & Hq & Hsize & _); [by vm_compute|]. exists q. split; [exact Hq|]. rewrite Hsize. by vm_compute.
  - apply (initial_capacity (T := Z) (2 ^ 61) []); by vm_compute.
Defined.

(** Two producers, two new consumers. *)
Definition two_by_two : list (call (T := Z)) := [NewProducer true; NewProducer true; NewConsumer; NewConsumer].
Definition after_two_by_two : system (E := pool Z) (P := McProducerBase.sub) :=
  match run start two_by_two with Ok (s, _) => s | _ => start end.
Definition consumer_of (k : nat) : consumer := default (Consumer 0 0 0 None None) (consumers after_two_by_two !! k).

Lemma two_by_two_ok : ∃ qs n, system_ok after_two_by_two qs n.
Proof.
  destruct (run_serves two_by_two start [] 0) as (s & answers & qs & Hrun & _ & S & _).
  - by apply constructed_ok.
  - unfold two_by_two. calls_are_ok.
  - by vm_compute.
  - exists qs. eexists. replace after_two_by_two with s; [exact S|]. unfold after_two_by_two. by rewrite Hrun.
Qed.

Lemma consumers_spread_witness :
  ∃ t1' t2' i1 i2,
    update_current_producer_after_rotation (consumer_of 0) (the_queue after_two_by_two) = Ok (t1', true) ∧
    currentProducer t1' = Some i1 ∧
    update_current_producer_after_rotation (consumer_of 1) (the_queue after_two_by_two) = Ok (t2', true) ∧
    currentProducer t2' = Some i2 ∧ i1 ≠ i2.
Proof.
  destruct two_by_two_ok as (qs & n & [I K _]).
  assert (Hl : length qs = 2%nat) by (rewrite (queue_length _ _ _ I); by vm_compute).
  assert (Hc : ∀ k, (k < 2)%nat → token_ok (the_queue after_two_by_two) (consumer_of k)).
  { intros k Hk. rewrite Forall_lookup in K. apply (K k). destruct k as [|[|k]]; [by vm_compute..|lia]. }
  destruct (consumers_spread (the_queue after_two_by_two) qs n (consumer_of 0) (consumer_of 1)) as (t1 & t2 & i1 & i2 & ?);
    [done|by apply Hc; lia|by apply Hc; lia|by vm_compute|by intros ->|by vm_compute| |].
  - rewrite Hl. by vm_compute.
  - exists t1, t2, i1, i2. tauto.
Defined.

(** One producer; its consumer takes a bulk of [n] elements with a call that asks for 10,
    and then 20 elements one by one. *)
Definition after_bulk (n : nat) : list (call (T := Z)) :=
  [NewProducer true; NewConsumer; EnqueueBulk 0 true (replicate n 0) []; TryDequeueBulkToken 0 10 [];
   EnqueueBulk 0 true (replicate 20 0) []].

Definition rotations (cs : list (call (T := Z))) : option Z :=
  match run start cs with Ok (s, _) => Some (globalExplicitConsumerOffset (the_queue s)) | _ => None end.

(** The quota is 4. *)
Example rotations_after_bulk :
  (λ n, rotations (after_bulk n ++ replicate 20 (TryDequeueToken 0 false))) <$> [0%nat; 3%nat; 4%nat; 5%nat] =
  [Some 5; Some 5; Some 0; Some 0].
Proof. by vm_compute. Qed.

Definition bulk_taken : system (E := pool Z) (P := McProducerBase.sub) :=
  match run start (after_bulk 5) with Ok (s, _) => s | _ => start end.

Lemma bulk_taken_ok : ∃ xs n, queue_ok (the_queue bulk_taken) [xs] n ∧ length xs = 20%nat.
Proof.
  destruct (run_serves (after_bulk 5) start [] 0) as (s & answers & qs & Hrun & _ & [I K _] & _).
  - by apply constructed_ok.
  - unfold after_bulk. calls_are_ok.
  - by vm_compute.
  - assert (s = bulk_taken) as -> by (unfold bulk_taken; by rewrite Hrun).
    pose proof (queue_length _ _ _ I) as Hl.
    assert (length (producers (the_queue bulk_taken)) = 1%nat) as Hp by (by vm_compute). rewrite Hp in Hl.
    destruct qs as [|xs [|ys qs]]; [discriminate Hl| |discriminate Hl]. exists xs. eexists. split; [exact I|].
    assert (sub_size_approx (T := Z) <$> (sub <$> producers (the_queue bulk_taken)) = [20]) as Hs by (by vm_compute).
    destruct (producer_get _ _ _ 0 _ I eq_refl) as (nd & _ & Hnd & _).
    apply (f_equal (lookup 0%nat)) in Hs. rewrite !list_lookup_fmap, Hnd in Hs. cbn [fmap option_fmap option_map] in Hs.
    apply (f_equal (default 0)) in Hs. change (sub_size_approx (T := Z) (sub nd) = 20) in Hs.
    rewrite (size_at _ _ _ 0 xs nd I eq_refl Hnd) in Hs. lia.
Qed.

Lemma bulk_skips_rotation_witness :
  ∃ q' t' ds, try_dequeues 20 (default (Consumer 0 0 0 None None) (consumers bulk_taken !! 0%nat)) (the_queue bulk_taken) =
    Ok (q', t', ds) ∧ globalExplicitConsumerOffset q' = globalExplicitConsumerOffset (the_queue bulk_taken) ∧
    itemsConsumedFromCurrent t' = 25.
Proof.
  destruct bulk_taken_ok as (xs & n & I & Hl).
  destruct (bulk_skips_rotation (the_queue bulk_taken) [xs] n (default (Consumer 0 0 0 None None) (consumers bulk_taken !! 0%nat))
    0 5 xs) as (_ & _ & Hr); [by split; vm_compute|exact I|by split; vm_compute|done|done|].
  destruct (Hr 20%nat) as (q' & t' & H1 & S' & G); [lia|by vm_compute|by vm_compute|].
  exists q', t', (Got <$> take 20 xs). split; [exact H1|]. split; [exact G|]. by rewrite (st_consumed _ _ _ _ S').
Defined.

End McConcurrentQueue.
