(* ===== verification/McQueueDestructor.v ===== *)
(** * [~ConcurrentQueue]

    concurrentqueue.h: the destructor of the queue takes the producers from the tokens,
    destroys them, and frees the blocks: those of the free list that were allocated one
    by one, and the initial pool. *)
From S2P Require Import Prelude McDetails McBlock McPool McSlots McExplicit McExplicitDestructor.
From S2P Require Import McImplicit McOrigin McFrame McSubQueue McProducerBase McQueue McQueueRuns McTokens.
From S2P Require Import McConcurrentQueue.
Local Open Scope Z_scope.

Module McQueueDestructor.
Import McBlock McPool McOrigin McFrame McSubQueue McProducerBase McQueue McQueueRuns McConcurrentQueue McTokens.

Section destructor.
Context `{Traits} `{Element} `{Quota} {T : Type}.

(** [destroy(ptr)] of a producer. *)
Definition destroy (s : McProducerBase.sub) (p : pool T) : result (pool T) :=
  match s with
  | Explicit r => default UB (McExplicitDestructor.destroy_producer p r)
  | Implicit r => default UB (McImplicit.destroy_producer p r)
  end.

(** The queue while its producers are destroyed: the pool, the producers that are left,
    and the tokens. *)
Record ruins := Ruins {
  its_pool : pool T;
  nodes : gmap nat (node (P := McProducerBase.sub));
  its_tokens : gmap nat (option nat)
}.

(** [if (ptr->token != nullptr) ptr->token->producer = nullptr] *)
Definition invalidate (o : option nat) (tks : gmap nat (option nat)) : result (gmap nat (option nat)) :=
  match o with
  | None => Ok tks
  | Some this => match tks !! this with Some _ => Ok (<[this := None]> tks) | None => UB end
  end.

Fixpoint destroy_producers (fuel : nat) (ptr : option nat) (r : ruins) : result ruins :=
  match ptr with
  | None => Ok r
  | Some i =>
      match fuel with
      | O => UB
      | S fuel =>
          match nodes r !! i with
          | None => UB
          | Some n =>
              tks ← invalidate (token n) (its_tokens r);
              p ← destroy (McQueue.sub n) (its_pool r);
              destroy_producers fuel (next_prod n) (Ruins p (delete i (nodes r)) tks)
          end
      end
  end.

(** [for (block = freeList.head_unsafe(); block != nullptr; block = next)] *)
Fixpoint destroy_free_list (fuel : nat) (block : option nat) (p : pool T) : result (pool T) :=
  match block with
  | None => Ok p
  | Some i =>
      match fuel with
      | O => UB
      | S fuel =>
          b ← deref p i;
          p ← (if dynamicallyAllocated b then destroy_block i p else Ok p);
          destroy_free_list fuel (freeListNext b) p
      end
  end.

(** [destroy_array] of the [count] blocks from address 0 on, the last one first. *)
Fixpoint destroy_array (count : nat) (p : pool T) : result (pool T) :=
  match count with O => Ok p | S i => p ← destroy_block i p; destroy_array i p end.

(** [~ConcurrentQueue]; [tks] are the producer tokens. *)
Definition destroy_queue (q : queue (E := pool T) (P := McProducerBase.sub)) (tks : gmap nat (option nat)) : result ruins :=
  r ← destroy_producers (turns q) (producerListTail q) (Ruins (env q) (map_seq 0 (producers q)) tks);
  p ← destroy_free_list (S (fresh (its_pool r))) (freeListHead (its_pool r)) (its_pool r);
  p ← destroy_array (Z.to_nat (initialBlockPoolSize p)) p;
  Ok (Ruins p (nodes r) (its_tokens r)).

Context `{!TraitsOk}.

(** ** A producer of several *)

Lemma destroy_alone p c :
  sub_ok p (ring_set c) c → ∃ p', destroy (c_sub c) p = Ok p' ∧ pool_ok p' ∅.
Proof.
  destruct c as [[r|r] ring xs]; unfold sub_ok, ring_set; cbn [c_sub c_ring c_items destroy]; intros (A & t & h & R).
  - destruct (McExplicitDestructor.destroy_producer_ok p r _ ring A t h xs R) as (p' & -> & P). exists p'.
    split; [done|]. unfold McExplicit.others in P. by rewrite difference_diag_L in P.
  - rewrite difference_diag_L in R. destruct (McImplicit.destructor_ok p r ∅ ring A t h xs R) as (p' & -> & P). by exists p'.
Qed.

Lemma destroy_framed F N s p p1 :
  apart F N p → destroy s p = Ok p1 → destroy s (beside F p) = Ok (beside F p1) ∧ apart F N p1.
Proof.
  intros Ha Hr. destruct s as [r|r]; simpl in *.
  - destruct (framed_explicit_destroy F N p r Ha p1 Hr) as [-> ?]. done.
  - destruct (framed_implicit_destroy F N p r Ha p1 Hr) as [-> ?]. done.
Qed.

Lemma destroy_sourced N s p p1 : sourced N p → destroy s p = Ok p1 → sourced N p1.
Proof.
  intros Hp Hr. destruct s as [r|r]; simpl in *; [by eapply (keeps_explicit_destroy N p r)|by eapply (keeps_implicit_destroy N p r)].
Qed.

Lemma destroy_one p cs n k c :
  together p cs n → cs !! k = Some c → ∃ p', destroy (c_sub c) p = Ok p' ∧ together p' (delete k cs) n.
Proof.
  intros T0 Hk. pose proof T0 as [P Hnd Hs Hsz]. destruct (alone p cs n k c T0 Hk) as [Ha Hc].
  set (B := blocks (delete k cs)) in *. destruct (destroy_alone _ _ Hc) as (p1 & Hrun & P1).
  destruct (destroy_framed _ _ _ _ _ Ha Hrun) as [Hrun' Ha']. rewrite reassemble in Hrun'.
  eexists. split; [exact Hrun'|]. rewrite (blocks_split _ _ _ Hk) in P.
  destruct (local_change p (ring_set c) B p1 ∅ P Ha' P1) as (P' & _ & Hsz' & _ & HB & _). rewrite union_empty_l_L in P'.
  rewrite (rings_split _ _ _ Hk), NoDup_app in Hnd. destruct Hnd as (_ & _ & Hnd).
  constructor; [done|done| |by rewrite Hsz'].
  intros j cj Hj. assert (∃ j', cs !! j' = Some cj) as [j' Hj'].
  { rewrite list_lookup_delete in Hj. case_decide; eauto. }
  destruct (Hs j' cj Hj') as [Hcj Hl]. split; [|done].
  assert (HinB : ∀ i, i ∈ c_ring cj → i ∈ B) by (intros i; by apply (in_blocks _ j)).
  eapply sub_ok_frame; [exact Hcj|done| |intros i Hi; by apply HB, HinB].
  intros i Hi%elem_of_list_to_set. by apply HinB.
Qed.

(** ** All producers, the newest first *)

(** The first [m] of the producers [ps] are left; [cs] are they with their blocks. *)
Record ruins_ok (N : Z) (ps : list node) (m n : nat) (cs : list (cell (T := T))) (r : ruins) : Prop := {
  ru_together : together (its_pool r) cs n;
  ru_subs : c_sub <$> cs = McQueue.sub <$> take m ps;
  ru_nodes : nodes r = map_seq 0 (take m ps);
  ru_sourced : sourced N (its_pool r);
  ru_alive i nd this : take m ps !! i = Some nd → token nd = Some this → is_Some (its_tokens r !! this);
  ru_held this i : its_tokens r !! this = Some (Some i) → ∃ nd, take m ps !! i = Some nd ∧ token nd = Some this
}.

Lemma invalidate_ok N ps m n cs r nd :
  ruins_ok N ps (S m) n cs r → ps !! m = Some nd →
  ∃ tks, invalidate (token nd) (its_tokens r) = Ok tks ∧ dom tks = dom (its_tokens r) ∧
    (∀ this i, tks !! this = Some (Some i) → ∃ nd, take m ps !! i = Some nd ∧ token nd = Some this).
Proof.
  intros R Hm. pose proof (take_S_r _ _ _ Hm) as Htake.
  assert (Hheld : ∀ this i, its_tokens r !! this = Some (Some i) → token nd ≠ Some this →
    ∃ nd, take m ps !! i = Some nd ∧ token nd = Some this).
  { intros this i (nd' & Hi & Ht)%(ru_held _ _ _ _ _ _ R) Hne. rewrite Htake in Hi. exists nd'. split; [|done].
    apply lookup_snoc_Some in Hi as [[_ Hi]|[_ ->]]; done. }
  destruct (token nd) as [this|] eqn:Ht; simpl.
  - destruct (ru_alive _ _ _ _ _ _ R m nd this) as [o Ho]; [|done|].
    { rewrite Htake. apply list_lookup_middle. apply lookup_lt_Some in Hm. rewrite length_take. lia. }
    rewrite Ho. eexists. split; [done|]. split; [apply dom_insert_lookup_L; by eexists|].
    intros this' i [[_ ?]|[Hne Hi]]%lookup_insert_Some; [done|]. apply Hheld; [done|congruence].
  - eexists. split; [done|]. split; [done|]. intros this' i Hi. by apply Hheld.
Qed.

Lemma fmap_const_dom {A B} (x : B) (m1 m2 : gmap nat A) : dom m1 = dom m2 → (λ _, x) <$> m1 = (λ _, x) <$> m2.
Proof.
  intros Hd. apply map_eq. intros i. rewrite !lookup_fmap. destruct (m1 !! i) as [a|] eqn:Ha, (m2 !! i) as [b|] eqn:Hb; try done.
  - apply not_elem_of_dom in Hb. rewrite <- Hd in Hb. by apply not_elem_of_dom in Hb as ?; congruence.
  - apply not_elem_of_dom in Ha. rewrite Hd in Ha. by apply not_elem_of_dom in Ha as ?; congruence.
Qed.

Lemma delete_snoc {A} (l : list A) x k : length l = k → delete k (l ++ [x]) = l.
Proof. intros <-. by rewrite delete_middle, app_nil_r. Qed.

Lemma nothing_left N ps n cs r :
  ruins_ok N ps 0 n cs r →
  together (its_pool r) [] n ∧ nodes r = ∅ ∧ sourced N (its_pool r) ∧ its_tokens r = (λ _, None) <$> its_tokens r.
Proof.
  intros [T0 Hs Hn Hr _ Hh]. simpl in *. apply fmap_nil_inv in Hs as ->. split_and!; try done.
  apply map_eq. intros this. rewrite lookup_fmap. destruct (its_tokens r !! this) as [[i|]|] eqn:Ht; try done.
  by destruct (Hh _ _ Ht) as (? & ? & _).
Qed.

Lemma destroy_producers_ok N ps n :
  (∀ i nd, ps !! i = Some nd → next_prod nd = before i) →
  ∀ m fuel cs r, ruins_ok N ps m n cs r → (m ≤ fuel)%nat → (m ≤ length ps)%nat →
  ∃ r', destroy_producers fuel (before m) r = Ok r' ∧ together (its_pool r') [] n ∧ nodes r' = ∅ ∧
    sourced N (its_pool r') ∧ its_tokens r' = (λ _, None) <$> its_tokens r.
Proof.
  intros Hnext. induction m as [|m IH]; intros [|fuel] cs r R Hm Hl; try lia; cbn [before destroy_producers].
  1-2: by exists r; split; [|eapply nothing_left].
  destruct (lookup_lt_is_Some_2 ps m) as [nd Hnd]; [lia|]. pose proof (take_S_r _ _ _ Hnd) as Htake.
  assert (Hlen : length (take m ps) = m) by (rewrite length_take; lia).
  rewrite (ru_nodes _ _ _ _ _ _ R), Htake, map_seq_snoc, Hlen, lookup_insert_eq.
  destruct (invalidate_ok _ _ _ _ _ _ _ R Hnd) as (tks & -> & Hdom & Hheld). rewrite bind_ok.
  assert (∃ c, cs !! m = Some c ∧ c_sub c = McQueue.sub nd) as (c & Hc & <-).
  { pose proof (ru_subs _ _ _ _ _ _ R) as Hs. rewrite Htake, fmap_app in Hs.
    assert (Hx : (c_sub <$> cs) !! m = Some (McQueue.sub nd)).
    { rewrite Hs. apply list_lookup_middle. by rewrite length_fmap. }
    rewrite list_lookup_fmap in Hx. destruct (cs !! m) as [c|]; [|done]. injection Hx as Hx. by exists c. }
  destruct (destroy_one _ _ _ _ _ (ru_together _ _ _ _ _ _ R) Hc) as (p' & Hd & T'). rewrite Hd, bind_ok.
  rewrite (Hnext _ _ Hnd), delete_insert_id by (apply lookup_map_seq_None; lia).
  destruct (IH fuel (delete m cs) (Ruins p' (map_seq 0 (take m ps)) tks)) as (r' & Hr' & ? & ? & ? & Htks); [|lia|lia|].
  - constructor; simpl; try done.
    + pose proof (ru_subs _ _ _ _ _ _ R) as Hs. rewrite list_fmap_delete, Hs, Htake, fmap_app.
      apply delete_snoc. by rewrite length_fmap.
    + eapply destroy_sourced; [apply R|done].
    + intros i nd' this Hi Ht. apply elem_of_dom. rewrite Hdom. apply elem_of_dom.
      eapply (ru_alive _ _ _ _ _ _ R i nd'); [|done]. rewrite Htake. by apply lookup_app_l_Some.
  - exists r'. split_and!; try done. rewrite Htks. by apply fmap_const_dom.
Qed.

(** ** The blocks *)

Lemma chain_length (p : pool T) owned l : pool_ok_with p owned l → (length l ≤ fresh p)%nat.
Proof.
  intros [P1 _ _ P4 P5 _ _ _]. rewrite <- (length_seq (fresh p) 0). apply submseteq_length, NoDup_submseteq; [done|].
  intros i Hi. assert (is_Some (heap p !! i)) as [b Hb].
  { clear - P4 Hi. revert P4. generalize (freeListHead p). induction l as [|j l IH]; intros o Hc; [by apply elem_of_nil in Hi|].
    destruct Hc as (_ & b & Hb & _ & _ & Hc). apply elem_of_cons in Hi as [->|Hi]; [by eexists|by eapply IH]. }
  apply P1 in Hb. apply elem_of_seq. lia.
Qed.

(** A pool that nobody uses holds no elements. *)
Lemma unused_raw (p : pool T) i b : pool_ok p ∅ → heap p !! i = Some b → raw b.
Proof.
  intros (l & [_ _ P3 P4 _ _ _ P8]) Hi. destruct (P8 i) as [?%not_elem_of_empty|[Hl|Hun]]; [by eexists|done| |].
  - clear - P4 Hl Hi. revert P4. generalize (freeListHead p). induction l as [|j l IH]; intros o Hc; [by apply elem_of_nil in Hl|].
    destruct Hc as (_ & b' & Hb' & _ & Hr & Hc). apply elem_of_cons in Hl as [->|Hl]; [congruence|by eapply IH].
  - destruct (P3 i Hun) as (_ & _ & b' & Hb' & Hr & _). congruence.
Qed.

Lemma destroy_free_list_ok N l : ∀ fuel head p,
  chain (T := T) (heap p) head l → NoDup l → sourced N p → (length l ≤ fuel)%nat →
  ∃ p', destroy_free_list fuel head p = Ok p' ∧ sourced N p' ∧
    heap p' ⊆ heap p ∧ (∀ i : nat, i ∈ l → is_Some (heap p' !! i) → i < N).
Proof.
  induction l as [|i l IH]; intros fuel head p Hc Hnd Hp Hf.
  { simpl in Hc. subst head. exists p. split; [by destruct fuel|]. split_and!; try done. by intros i ?%not_elem_of_nil. }
  destruct fuel as [|fuel]; simpl in Hf; [lia|]. destruct Hc as (-> & b & Hb & _ & Hraw & Hc). apply NoDup_cons in Hnd as [Hi Hnd].
  cbn [destroy_free_list]. rewrite (deref_ok _ _ _ Hb), bind_ok.
  assert (∃ p1, (if dynamicallyAllocated b then destroy_block i p else Ok p) = Ok p1 ∧ sourced N p1 ∧
    (∀ j, j ≠ i → heap p1 !! j = heap p !! j) ∧ heap p1 ⊆ heap p ∧
    (is_Some (heap p1 !! i) → i < N)) as (p1 & -> & Hp1 & Hsame & Hsub & Hgone).
  { pose proof (so_flag _ _ Hp i b Hb) as Hflag. destruct (dynamicallyAllocated b) eqn:Hdyn.
    - pose proof (destroy_raw _ _ _ Hb Hraw) as Hd.
      rewrite Hd. eexists. split; [done|]. split; [exact (keeps_destroy_block N i b p Hp (deref_ok _ _ _ Hb) Hdyn _ Hd)|]. simpl. split_and!.
      + intros j Hj. by rewrite lookup_delete_ne.
      + apply delete_subseteq.
      + rewrite lookup_delete_eq. by intros ?%is_Some_None.
    - exists p. split_and!; try done. intros _. symmetry in Hflag. apply Z.leb_gt in Hflag. done. }
  rewrite bind_ok. destruct (IH fuel (freeListNext b) p1) as (p' & Hr & Hp' & Hsub' & Hin); [|done|done|lia|].
  { eapply chain_frame; [|exact Hc]. intros j Hj. apply Hsame. by intros ->. }
  exists p'. split; [done|]. split; [done|]. split; [by etransitivity|].
  intros j [->|Hj]%elem_of_cons Hs; [|by apply Hin]. apply Hgone. by eapply lookup_weaken_is_Some.
Qed.

Lemma destroy_array_ok count : ∀ p : pool T,
  (∀ i, is_Some (heap p !! i) ↔ (i < count)%nat) → (∀ i b, heap p !! i = Some b → raw b) →
  ∃ p', destroy_array count p = Ok p' ∧ heap p' = ∅.
Proof.
  induction count as [|i IH]; intros p Hp Hraw; simpl.
  { exists p. split; [done|]. apply map_eq. intros j. rewrite lookup_empty. apply eq_None_not_Some. rewrite Hp. lia. }
  destruct (proj2 (Hp i)) as [b Hb]; [lia|]. rewrite (destroy_raw _ _ _ Hb (Hraw _ _ Hb)), !bind_ok.
  apply IH; simpl.
  - intros j. rewrite lookup_delete_is_Some, Hp. lia.
  - intros j bj [_ Hj]%lookup_delete_Some. by eapply Hraw.
Qed.

(** A pool that nobody uses is freed. *)
Lemma destroy_blocks_ok N (p : pool T) :
  pool_ok p ∅ → sourced N p →
  ∃ p1 p2, destroy_free_list (S (fresh p)) (freeListHead p) p = Ok p1 ∧
    destroy_array (Z.to_nat (initialBlockPoolSize p1)) p1 = Ok p2 ∧ heap p2 = ∅.
Proof.
  intros P0 Hp. pose proof P0 as (l & P). pose proof (chain_length _ _ _ P) as Hl. pose proof P as [_ _ _ P4 P5 _ _ P8].
  destruct (destroy_free_list_ok N l (S (fresh p)) _ p P4 P5 Hp) as (p1 & Hr & Hp1 & Hsub & Hin); [lia|].
  destruct (destroy_array_ok (Z.to_nat (initialBlockPoolSize p1)) p1) as (p2 & Hr2 & He).
  - intros i. rewrite (so_initial _ _ Hp1). split; [|intros Hi; apply (so_static _ _ Hp1); lia]. intros Hi.
    destruct (P8 i) as [?%not_elem_of_empty|[Hli|Hun]]; [by eapply lookup_weaken_is_Some|done| |].
    + pose proof (Hin i Hli Hi). lia.
    + rewrite (so_initial _ _ Hp) in Hun. lia.
  - intros i b Hi. eapply (unused_raw p); [done|]. by eapply lookup_weaken.
  - by exists p1, p2.
Qed.

(** ** Clients of the queue *)

#[global] Instance sourced_keeps N : Keeps (E := pool T) (P := McProducerBase.sub) (T := T) (sourced N).
Proof.
  constructor.
  - intros x p p' o Hr. simpl in Hr. unfold create in Hr. cbn [malloc] in Hr. set (p1 := Pool _ _ _ _ _ (tail (mallocs p))) in Hr.
    assert (Hp1 : sourced N p → sourced N p1) by (by intros []).
    destruct (negb (hd true (mallocs p))); [by injection Hr as <- <-|].
    destruct x; apply bind_inv_ok in Hr as ([p2 r] & Hr & [= <- <-]); (split; [|by intros s [= <-]]); intros Hp%Hp1.
    + by apply (keeps_explicit_create N p1 Hp _ Hr).
    + by apply (keeps_implicit_create N p1 Hp _ Hr).
  - intros ca th x p s p' s' r Hr. simpl in Hr. destruct s; apply bind_inv_ok in Hr as ([[p2 r2] e] & Hr & [= <- <- <-]); (split; [|done]); intros Hp.
    + by apply (keeps_explicit_enqueue N _ _ _ _ _ _ Hp _ Hr).
    + by apply (keeps_implicit_enqueue N _ _ _ _ _ _ Hp _ Hr).
  - intros ca xs th p s p' s' r Hr. simpl in Hr. destruct s; apply bind_inv_ok in Hr as ([[p2 r2] e] & Hr & [= <- <- <-]); (split; [|done]); intros Hp.
    + by apply (keeps_explicit_enqueue_bulk N _ _ _ _ _ _ Hp _ Hr).
    + by apply (keeps_implicit_enqueue_bulk N _ _ _ _ _ _ Hp _ Hr).
  - intros th p s p' s' d Hr. simpl in Hr. destruct s; apply bind_inv_ok in Hr as ([[p2 r2] e] & Hr & [= <- <- <-]); (split; [|done]); intros Hp.
    + by apply (keeps_explicit_dequeue N _ _ _ Hp _ Hr).
    + by apply (keeps_implicit_dequeue N _ _ _ Hp _ Hr).
  - intros th max p s p' s' d Hr. simpl in Hr. destruct s; apply bind_inv_ok in Hr as ([[p2 r2] e] & Hr & [= <- <- <-]); (split; [|done]); intros Hp.
    + by apply (keeps_explicit_dequeue_bulk N _ _ _ _ Hp _ Hr).
    + by apply (keeps_implicit_dequeue_bulk N _ _ _ _ Hp _ Hr).
Qed.

Lemma client_destroyed N w qs n :
  client_ok (sourced N) w qs n →
  ∃ r, destroy_queue (its_queue w) (tokens w) = Ok r ∧ heap (its_pool r) = ∅ ∧ nodes r = ∅ ∧
    its_tokens r = (λ _, None) <$> tokens w.
Proof.
  intros [[[Hh Htail Hnext _] _ _] L HN]. destruct Hh as (cs & Hss & -> & T0).
  set (q := its_queue w) in *. unfold destroy_queue. fold q.
  destruct (destroy_producers_ok N (producers q) n Hnext (length (producers q)) (turns q) cs
    (Ruins (env q) (map_seq 0 (producers q)) (tokens w))) as (r & Hr & T' & Hn & HN' & Htks); [|unfold turns; lia|done|].
  - constructor; simpl; rewrite ?firstn_all; try done.
    + intros i nd this Hi Ht. eexists. eapply (lk_forth _ _ L _ i).
      unfold faces. rewrite list_lookup_fmap, Hi. simpl. unfold face. by rewrite Ht.
    + intros this i Ht. apply (linked_producers q) in Ht; [|done]. destruct Ht as (nd & Hi & _ & _ & Ht). by exists nd.
  - change (producerListTail q = before (length (producers q))) in Htail. rewrite Htail, Hr, bind_ok. destruct (destroy_blocks_ok N (its_pool r)) as (p1 & p2 & -> & Hp2 & He); [apply T'|done|].
    rewrite bind_ok, Hp2, bind_ok. by eexists.
Qed.

Lemma initial_sourced count ms :
  let p := initial_blocks (T := T) count ms in sourced (initialBlockPoolSize p) p.
Proof.
  unfold initial_blocks. assert (Hno : ∀ ms, sourced (T := T) 0 (Pool ∅ 0 0 0 None ms)).
  { intros ms'. constructor; simpl; [done|lia|done|lia]. }
  case_decide; [done|]. destruct (hd true ms); [|done].
  constructor; simpl; [done|lia| |].
  - intros i b Hi. apply elem_of_list_to_map_2, list_elem_of_fmap in Hi as (j & [= -> ->] & Hj). apply elem_of_seq in Hj.
    simpl. symmetry. apply Z.leb_gt. lia.
  - intros i Hi. rewrite initial_block_at by lia. by eexists.
Qed.

(** A client that has just constructed a queue. *)
Definition new_client (capacity : Z) (ms : list bool) : result (client (E := pool T) (P := McProducerBase.sub)) :=
  q ← construct capacity ms; Ok (Client (System q []) ∅).

Lemma new_client_ok capacity ms :
  0 <= capacity <= 2 ^ 31 → ∃ w N, new_client capacity ms = Ok w ∧ client_ok (T := T) (sourced N) w [] 0.
Proof.
  intros Hc. unfold new_client. rewrite construct_small, bind_ok by done. do 2 eexists. split; [done|].
  constructor; [by apply constructed_ok| |apply initial_sourced].
  constructor; [done|by intros ???? ?|by intros ??? ?].
Qed.

(** C5: a [ConcurrentQueue] that is used and destroyed gives all memory back.  From its
    construction with any capacity up to 2^31, whatever [malloc] answers and whatever the
    clients do - enqueue and dequeue, construct, move, swap and destroy tokens - the
    destructor runs without undefined behaviour or failed assertion on what is left:
    every element left in the queue is destroyed, every producer is destroyed once, every
    block is freed once and as it was allocated, those of the initial pool with their
    array and the others each by itself, and every token still alive is made invalid.
    The clients use tokens that are alive and valid, there are less than 2^32 producers,
    and no element throws on its way to a producer token's producer, nor is a bulk
    refused by one; an element that throws there does break the destructor. *)
Theorem queue_lifetime capacity ms (l : list (action (T := T))) :
  0 <= capacity <= 2 ^ 31 → BLOCK_SIZE * sum_list (action_adds <$> l) < 2 ^ 62 →
  ∃ w0, new_client capacity ms = Ok w0 ∧
    (actions_ok w0 l →
     ∃ w answers r, acts w0 l = Ok (w, answers) ∧
       destroy_queue (its_queue w) (tokens w) = Ok r ∧
       heap (its_pool r) = ∅ ∧ nodes r = ∅ ∧ its_tokens r = (λ _, None) <$> tokens w).
Proof.
  intros Hc Hfit. destruct (new_client_ok capacity ms Hc) as (w0 & N & Hnew & W). exists w0. split; [exact Hnew|]. intros Hl.
  destruct (acts_ok (sourced N) l _ _ _ W Hl Hfit) as (w & answers & qs & Hr & W').
  destruct (client_destroyed _ _ _ _ W') as (r & Hd & ? & ? & ?). by exists w, answers, r.
Qed.

(** C6: producer tokens hold their producers exclusively.  Whatever clients do with
    tokens and the queue, a token and its producer point at each other, so that no two
    tokens have one producer; a producer that a token holds is explicit and active, and
    an explicit producer is up for reuse exactly when no token holds it. *)
Theorem tokens_exclusive capacity ms (l : list (action (T := T))) :
  0 <= capacity <= 2 ^ 31 → BLOCK_SIZE * sum_list (action_adds <$> l) < 2 ^ 62 →
  ∃ w0, new_client capacity ms = Ok w0 ∧
    (actions_ok w0 l →
     ∃ w answers, acts w0 l = Ok (w, answers) ∧
       (∀ this i, tokens w !! this = Some (Some i) ↔
          ∃ nd, producers (its_queue w) !! i = Some nd ∧ isExplicit (T := T) (McQueue.sub nd) = true ∧ inactive nd = false ∧
            token nd = Some this) ∧
       (∀ i nd, producers (its_queue w) !! i = Some nd → isExplicit (T := T) (McQueue.sub nd) = true →
          inactive nd = true ↔ ∀ this, tokens w !! this ≠ Some (Some i))).
Proof.
  intros Hc Hfit. destruct (new_client_ok capacity ms Hc) as (w0 & N & Hnew & W). exists w0. split; [exact Hnew|]. intros Hl.
  destruct (acts_ok (sourced N) l _ _ _ W Hl Hfit) as (w & answers & qs & Hr & [_ L _]).
  exists w, answers. split; [exact Hr|]. split; [intros; by apply linked_producers|]. intros i nd. by apply linked_inactive.
Qed.
End destructor.

(** ** Examples: blocks of 4 elements *)

#[local] Existing Instance McImplicit.small.
#[local] Existing Instance McImplicit.small_ok.
#[local] Existing Instance no_exceptions.
#[local] Existing Instance quota_4.

(** Three tokens; two are swapped, one is moved and dropped, and the token made after
    that gets its producer. *)
Definition some_actions : list (action (T := Z)) :=
  [NewToken 1; WithToken 1 (EnqueueBulkTo true (seqZ 0 10) []); NewToken 2; SwapTokens 1 2;
   WithToken 2 (EnqueueTo true false 10); WithToken 1 (EnqueueTo true false 20); MoveToken 3 1; DeleteToken 1;
   DeleteToken 3; Call NewConsumer; Call (TryDequeueToken 0 false); NewToken 4; MoveConsumer 0; SwapConsumers 0 1;
   Call (NewProducer false); Call (Enqueue 2 true false 30); Call (TryDequeueBulkToken 1 7 [])].

Definition first : client (E := pool Z) (P := McProducerBase.sub) := Client start ∅.
Lemma starts_client w : new_client 5 [] = Ok w → w = first.
Proof. unfold new_client. rewrite construct_small by (by split; vm_compute). by intros [= <-]. Qed.

Definition outcome : option (list (nat * option nat) * nat * list (nat * option nat)) :=
  match acts first some_actions with
  | Ok (w, _) =>
      match destroy_queue (its_queue w) (tokens w) with
      | Ok r => Some (map_to_list (tokens w), length (producers (its_queue w)), map_to_list (its_tokens r))
      | _ => None
      end
  | _ => None
  end.
Example outcome_is : outcome = Some ([(4, Some 1); (2, Some 0)], 3, [(4, None); (2, None)])%nat.
Proof. by vm_compute. Qed.

Ltac action_is_ok :=
  match goal with
  | |- call_ok _ _ => cbn [call_ok at_producer]; action_is_ok
  | |- ∃ n, _ ∧ _ => eexists; split; [reflexivity|]; action_is_ok
  | |- accepted _ _ => intros ? ? Hx; vm_compute in Hx; by injection Hx
  | |- _ → _ => intros _; action_is_ok
  | |- _ ∧ _ => split; action_is_ok
  | |- True => exact I
  | |- is_Some _ => by eexists
  | |- (_ < _)%nat => vm_compute; lia
  | |- _ => reflexivity
  end.
Ltac actions_are_ok :=
  lazymatch goal with
  | |- actions_ok _ [] => exact I
  | |- actions_ok _ _ =>
      split; [cbn [action_ok]; action_is_ok|
        let Hx := fresh in intros ? ? Hx; vm_compute in Hx; injection Hx as <- <-; actions_are_ok]
  end.

Lemma some_actions_ok : actions_ok first some_actions.
Proof. unfold some_actions. actions_are_ok. Qed.

Lemma queue_lifetime_witness :
  outcome = Some ([(4, Some 1); (2, Some 0)], 3, [(4, None); (2, None)])%nat ∧
  ∃ w answers r, acts first some_actions = Ok (w, answers) ∧
    destroy_queue (its_queue w) (tokens w) = Ok r ∧
    heap (its_pool r) = ∅ ∧ nodes r = ∅ ∧ its_tokens r = (λ _, None) <$> tokens w.
Proof.
  split; [by vm_compute|].
  destruct (queue_lifetime 5 [] some_actions) as (w0 & ->%starts_client & Hl); [by split; vm_compute|by vm_compute|].
  apply Hl. exact some_actions_ok.
Defined.

Lemma tokens_exclusive_witness :
  ∃ w answers, acts first some_actions = Ok (w, answers) ∧
    (∀ this i, tokens w !! this = Some (Some i) ↔
       ∃ nd, producers (its_queue w) !! i = Some nd ∧ isExplicit (T := Z) (McQueue.sub nd) = true ∧ inactive nd = false ∧
         token nd = Some this) ∧
    (∀ i nd, producers (its_queue w) !! i = Some nd → isExplicit (T := Z) (McQueue.sub nd) = true →
       inactive nd = true ↔ ∀ this, tokens w !! this ≠ Some (Some i)).
Proof.
  destruct (tokens_exclusive 5 [] some_actions) as (w0 & ->%starts_client & Hl); [by split; vm_compute|by vm_compute|].
  apply Hl. exact some_actions_ok.
Defined.
End McQueueDestructor.
