(* ===== verification/McMove.v ===== *)
(** * Moving and swapping queues

    concurrentqueue.h: the move constructor, [swap_internal] and the parts of
    [~ConcurrentQueue] that follow pointers.  A queue object holds the first table of the
    hash from threads to producers in itself, so that moving a queue has to redirect the
    pointers to it; producers point back at their queue.  Queue objects, producers and
    tables have addresses here. *)
From S2P Require Import Prelude McDetails.
Local Open Scope Z_scope.

Module McMove.
Import McDetails.

(** [Traits::INITIAL_IMPLICIT_PRODUCER_HASH_SIZE] *)
Class HashSize : Type := INITIAL_IMPLICIT_PRODUCER_HASH_SIZE : Z.

Definition invalid_thread_id : Z := 0.

(** [ImplicitProducerKVP] *)
Record kvp := Kvp { key : Z; value : option nat }.

(** A pointer to an [ImplicitProducerHash]: the one inside the queue at an address, or
    an allocated one. *)
Inductive table_ptr := Initial (q : nat) | Allocated (h : nat).
#[local] Instance table_ptr_eq_dec : EqDecision table_ptr.
Proof. solve_decision. Defined.

(** The table inside a queue; [entries_of] is the queue whose array [entries] points to. *)
Record initial_hash := InitialHash { initial_capacity : Z; entries_of : nat; initial_prev : option table_ptr }.
(** An allocated table and its entries. *)
Record hash := Hash { capacity : Z; entries : list kvp; prev : option table_ptr }.

(** The fields of [ConcurrentQueue]. *)
Record object := Object {
  producerListTail : option nat;
  producerCount : Z;
  initialBlockPoolIndex : Z;
  initialBlockPool : option nat;
  initialBlockPoolSize : Z;
  freeListHead : option nat;
  nextExplicitConsumerId : Z;
  globalExplicitConsumerOffset : Z;
  implicitProducerHash : option table_ptr;
  implicitProducerHashCount : Z;
  initialImplicitProducerHash : initial_hash;
  initialImplicitProducerHashEntries : list kvp
}.

(** The links of a producer. *)
Record producer := Producer { next_prod : option nat; parent : nat }.

Record memory := Memory {
  objects : gmap nat object;
  producers : gmap nat producer;
  tables : gmap nat hash
}.

Definition the_object (m : memory) (q : nat) : result object :=
  match objects m !! q with Some o => Ok o | None => UB end.
Definition with_object (m : memory) (q : nat) (o : object) : memory :=
  Memory (<[q := o]> (objects m)) (producers m) (tables m).
Definition with_producers (m : memory) ps := Memory (objects m) ps (tables m).
Definition with_tables (m : memory) ts := Memory (objects m) (producers m) ts.

Definition set_hash (o : object) (p : option table_ptr) : object :=
  Object (producerListTail o) (producerCount o) (initialBlockPoolIndex o) (initialBlockPool o) (initialBlockPoolSize o)
    (freeListHead o) (nextExplicitConsumerId o) (globalExplicitConsumerOffset o) p (implicitProducerHashCount o)
    (initialImplicitProducerHash o) (initialImplicitProducerHashEntries o).
Definition set_hashes (o : object) (p : option table_ptr) (count : Z) (i : initial_hash) (es : list kvp) : object :=
  Object (producerListTail o) (producerCount o) (initialBlockPoolIndex o) (initialBlockPool o) (initialBlockPoolSize o)
    (freeListHead o) (nextExplicitConsumerId o) (globalExplicitConsumerOffset o) p count i es.

Section moves.
Context `{HashSize}.

(** [ImplicitProducerKVP::swap] *)
Definition swap_kvp (a b : kvp) : kvp * kvp :=
  let '(ka, kb) := swap_relaxed (key a) (key b) in
  (Kvp ka (value b), Kvp kb (value a)).

(** [std::array::swap] *)
Fixpoint swap_entries (es fs : list kvp) : list kvp * list kvp :=
  match es, fs with
  | e :: es, f :: fs =>
      let '(e, f) := swap_kvp e f in let '(es, fs) := swap_entries es fs in (e :: es, f :: fs)
  | _, _ => (es, fs)
  end.

Definition populate_initial_implicit_producer_hash (this : nat) (m : memory) : result memory :=
  if INITIAL_IMPLICIT_PRODUCER_HASH_SIZE =? 0 then Ok m
  else
    o ← the_object m this;
    Ok (with_object m this
      (set_hashes o (Some (Initial this)) 0 (InitialHash INITIAL_IMPLICIT_PRODUCER_HASH_SIZE this None)
         ((λ e, Kvp invalid_thread_id (value e)) <$> initialImplicitProducerHashEntries o))).

(** [hash->prev], and storing to it. *)
Definition get_prev (m : memory) (p : table_ptr) : result (option table_ptr) :=
  match p with
  | Initial q => o ← the_object m q; Ok (initial_prev (initialImplicitProducerHash o))
  | Allocated h => match tables m !! h with Some t => Ok (prev t) | None => UB end
  end.
Definition set_prev (m : memory) (p : table_ptr) (v : option table_ptr) : result memory :=
  match p with
  | Initial q =>
      o ← the_object m q;
      let i := initialImplicitProducerHash o in
      Ok (with_object m q
            (set_hashes o (implicitProducerHash o) (implicitProducerHashCount o)
               (InitialHash (initial_capacity i) (entries_of i) v) (initialImplicitProducerHashEntries o)))
  | Allocated h =>
      match tables m !! h with
      | Some t => Ok (with_tables m (<[h := Hash (capacity t) (entries t) v]> (tables m)))
      | None => UB
      end
  end.

(** [for (hash = ptr; hash->prev != &old.initialImplicitProducerHash; hash = hash->prev)
    continue; hash->prev = &initialImplicitProducerHash] *)
Fixpoint relink (fuel : nat) (ptr : option table_ptr) (old new : nat) (m : memory) : result memory :=
  match fuel, ptr with
  | S fuel, Some p =>
      v ← get_prev m p;
      if decide (v = Some (Initial old)) then set_prev m p (Some (Initial new))
      else relink fuel v old new m
  | _, _ => UB
  end.

(** The pointers of [this] to the table inside [other] become pointers to its own. *)
Definition redirect (this other : nat) (m : memory) : result memory :=
  o ← the_object m this;
  if decide (implicitProducerHash o = Some (Initial other))
  then Ok (with_object m this (set_hash o (Some (Initial this))))
  else relink (S (size (tables m))) (implicitProducerHash o) other this m.

Definition swap_implicit_producer_hashes (this other : nat) (m : memory) : result memory :=
  if INITIAL_IMPLICIT_PRODUCER_HASH_SIZE =? 0 then Ok m
  else
    a ← the_object m this;
    b ← the_object m other;
    let '(es, fs) := swap_entries (initialImplicitProducerHashEntries a) (initialImplicitProducerHashEntries b) in
    let '(ca, cb) := swap_relaxed (implicitProducerHashCount a) (implicitProducerHashCount b) in
    let '(pa, pb) := swap_relaxed (implicitProducerHash a) (implicitProducerHash b) in
    let i := initialImplicitProducerHash a in
    let j := initialImplicitProducerHash b in
    let m := with_object m this (set_hashes a pa ca (InitialHash (initial_capacity i) this (initial_prev i)) es) in
    let m := with_object m other (set_hashes b pb cb (InitialHash (initial_capacity j) other (initial_prev j)) fs) in
    m ← redirect this other m;
    redirect other this m.

(** [reown_producers] *)
Fixpoint reown (fuel : nat) (ptr : option nat) (this : nat) (m : memory) : result memory :=
  match ptr with
  | None => Ok m
  | Some i =>
      match fuel, producers m !! i with
      | S fuel, Some p =>
          reown fuel (next_prod p) this (with_producers m (<[i := Producer (next_prod p) this]> (producers m)))
      | _, _ => UB
      end
  end.
Definition reown_producers (this : nat) (m : memory) : result memory :=
  o ← the_object m this; reown (S (size (producers m))) (producerListTail o) this m.

(** [swap_internal] *)
Definition swap_internal (this other : nat) (m : memory) : result memory :=
  if decide (this = other) then Ok m
  else
    a ← the_object m this;
    b ← the_object m other;
    let m := with_object m this
      (Object (producerListTail b) (producerCount b) (initialBlockPoolIndex b) (initialBlockPool b)
         (initialBlockPoolSize b) (freeListHead b) (nextExplicitConsumerId b) (globalExplicitConsumerOffset b)
         (implicitProducerHash a) (implicitProducerHashCount a) (initialImplicitProducerHash a)
         (initialImplicitProducerHashEntries a)) in
    let m := with_object m other
      (Object (producerListTail a) (producerCount a) (initialBlockPoolIndex a) (initialBlockPool a)
         (initialBlockPoolSize a) (freeListHead a) (nextExplicitConsumerId a) (globalExplicitConsumerOffset a)
         (implicitProducerHash b) (implicitProducerHashCount b) (initialImplicitProducerHash b)
         (initialImplicitProducerHashEntries b)) in
    m ← swap_implicit_producer_hashes this other m;
    m ← reown_producers this m;
    reown_producers other m.

(** A queue object before its constructor's body: [INITIAL_IMPLICIT_PRODUCER_HASH_SIZE]
    entries with [value] null. *)
Definition blank (tail : option nat) (count index : Z) (pool : option nat) (poolSize : Z) (free : option nat) (id offset : Z) :
    object :=
  Object tail count index pool poolSize free id offset None 0 (InitialHash 0 0 None)
    (replicate (Z.to_nat INITIAL_IMPLICIT_PRODUCER_HASH_SIZE) (Kvp invalid_thread_id None)).

(** [ConcurrentQueue(capacity)] with an initial pool of [poolSize] blocks at [pool]. *)
Definition construct (this : nat) (pool : option nat) (poolSize : Z) (m : memory) : result memory :=
  populate_initial_implicit_producer_hash this (with_object m this (blank None 0 0 pool poolSize None 0 0)).

(** [ConcurrentQueue(ConcurrentQueue&& other)] *)
Definition move_construct (this other : nat) (m : memory) : result memory :=
  b ← the_object m other;
  let m := with_object m this
    (blank (producerListTail b) (producerCount b) (initialBlockPoolIndex b) (initialBlockPool b) (initialBlockPoolSize b)
       (freeListHead b) (nextExplicitConsumerId b) (globalExplicitConsumerOffset b)) in
  let m := with_object m other
    (Object (producerListTail b) (producerCount b) (initialBlockPoolIndex b) (initialBlockPool b) (initialBlockPoolSize b)
       None (nextExplicitConsumerId b) (globalExplicitConsumerOffset b) (implicitProducerHash b)
       (implicitProducerHashCount b) (initialImplicitProducerHash b) (initialImplicitProducerHashEntries b)) in
  m ← populate_initial_implicit_producer_hash this m;
  m ← swap_implicit_producer_hashes this other m;
  b ← the_object m other;
  let m := with_object m other
    (Object None 0 0 None 0 (freeListHead b) 0 0 (implicitProducerHash b)
       (implicitProducerHashCount b) (initialImplicitProducerHash b) (initialImplicitProducerHashEntries b)) in
  reown_producers this m.

(** [add_producer(create<...>(this))]: the new producer is at [i]. *)
Definition add_producer (this i : nat) (m : memory) : result memory :=
  o ← the_object m this;
  let m := with_object m this
    (Object (Some i) (wrap 32 (producerCount o + 1)) (initialBlockPoolIndex o) (initialBlockPool o) (initialBlockPoolSize o)
       (freeListHead o) (nextExplicitConsumerId o) (globalExplicitConsumerOffset o) (implicitProducerHash o)
       (implicitProducerHashCount o) (initialImplicitProducerHash o) (initialImplicitProducerHashEntries o)) in
  Ok (with_producers m (<[i := Producer (producerListTail o) this]> (producers m))).

(** [get_or_add_implicit_producer]: a bigger table, allocated at [h]. *)
Definition grow (this h : nat) (newCapacity : Z) (m : memory) : result memory :=
  o ← the_object m this;
  let newHash := Hash newCapacity (replicate (Z.to_nat newCapacity) (Kvp invalid_thread_id None)) (implicitProducerHash o) in
  Ok (with_object (with_tables m (<[h := newHash]> (tables m))) this (set_hash o (Some (Allocated h)))).

(** [~ConcurrentQueue]: its walks over the producers and over the tables. *)
Fixpoint destroy_producers (fuel : nat) (ptr : option nat) (m : memory) : result memory :=
  match ptr with
  | None => Ok m
  | Some i =>
      match fuel, producers m !! i with
      | S fuel, Some p => destroy_producers fuel (next_prod p) (with_producers m (delete i (producers m)))
      | _, _ => UB
      end
  end.

Definition free_table (p : table_ptr) (m : memory) : result memory :=
  match p with
  | Initial _ => UB
  | Allocated h =>
      match tables m !! h with Some _ => Ok (with_tables m (delete h (tables m))) | None => UB end
  end.

Fixpoint destroy_tables (fuel : nat) (hash : option table_ptr) (m : memory) : result memory :=
  match hash with
  | None => Ok m
  | Some p =>
      match fuel with
      | O => UB
      | S fuel =>
          prev ← get_prev m p;
          m ← (match prev with Some _ => free_table p m | None => Ok m end);
          destroy_tables fuel prev m
      end
  end.

Definition destroy (this : nat) (m : memory) : result memory :=
  o ← the_object m this;
  m ← destroy_producers (size (producers m)) (producerListTail o) m;
  m ← (if negb (INITIAL_IMPLICIT_PRODUCER_HASH_SIZE =? 0)
       then destroy_tables (S (size (tables m))) (implicitProducerHash o) m
       else Ok m);
  Ok (Memory (delete this (objects m)) (producers m) (tables m)).

(** What calls on a queue do to its fields beside its lists of producers and tables, and
    to the entries of an allocated table: any values. *)
Definition use (this : nat) (index : Z) (free : option nat) (id offset hashCount : Z) (es : list kvp) (m : memory) : result memory :=
  o ← the_object m this;
  Ok (with_object m this
        (Object (producerListTail o) (producerCount o) index (initialBlockPool o) (initialBlockPoolSize o) free id offset
           (implicitProducerHash o) hashCount (initialImplicitProducerHash o) es)).
Definition enter (h : nat) (es : list kvp) (m : memory) : result memory :=
  match tables m !! h with
  | Some t => Ok (with_tables m (<[h := Hash (capacity t) es (prev t)]> (tables m)))
  | None => UB
  end.

(** What the owners of queues do. *)
Inductive action :=
  | Construct (q : nat) (pool : option nat) (poolSize : Z)
  | MoveConstruct (q other : nat)
  | Swap (q other : nat)
  | AddProducer (q i : nat)
  | Grow (q h : nat) (newCapacity : Z)
  | Use (q : nat) (index : Z) (free : option nat) (id offset hashCount : Z) (es : list kvp)
  | Enter (h : nat) (es : list kvp)
  | Destroy (q : nat).

Definition act (a : action) (m : memory) : result memory :=
  match a with
  | Construct q pool poolSize => construct q pool poolSize m
  | MoveConstruct q other => move_construct q other m
  | Swap q other => swap_internal q other m
  | AddProducer q i => add_producer q i m
  | Grow q h newCapacity => grow q h newCapacity m
  | Use q index free id offset hashCount es => use q index free id offset hashCount es m
  | Enter h es => enter h es m
  | Destroy q => destroy q m
  end.

Fixpoint acts (l : list action) (m : memory) : result memory :=
  match l with
  | [] => Ok m
  | a :: l => m ← act a m; acts l m
  end.

(** ** Queues as values *)

(** What a queue is made of: its producers and its allocated tables, newest first, and its
    other fields. *)
Record view := View {
  the_producers : list nat;
  count : Z;
  pool_index : Z;
  pool : option nat;
  pool_size : Z;
  free : option nat;
  next_id : Z;
  offset : Z;
  the_tables : list nat;
  hash_count : Z;
  initial_entries : list kvp
}.

Definition empty_view (pool : option nat) (poolSize : Z) : view :=
  View [] 0 0 pool poolSize None 0 0 [] 0
    (replicate (Z.to_nat INITIAL_IMPLICIT_PRODUCER_HASH_SIZE) (Kvp invalid_thread_id None)).

(** Queues by name, and what every allocated table holds. *)
Record world := World { views : gmap nat view; contents : gmap nat (Z * list kvp) }.

Definition step (a : action) (w : world) : option world :=
  let only (b : bool) w := if b then Some w else None in
  match a with
  | Construct q pool poolSize =>
      only (bool_decide (views w !! q = None)) (World (<[q := empty_view pool poolSize]> (views w)) (contents w))
  | MoveConstruct q other =>
      v ← views w !! other;
      only (bool_decide (views w !! q = None))
        (World (<[q := v]> (<[other := empty_view None 0]> (views w))) (contents w))
  | Swap q other =>
      v ← views w !! q;
      v' ← views w !! other;
      Some (World (<[other := v]> (<[q := v']> (views w))) (contents w))
  | AddProducer q i =>
      v ← views w !! q;
      only (bool_decide (map_Forall (λ _ u, i ∉ the_producers u) (views w)))
        (World (<[q := View (i :: the_producers v) (wrap 32 (count v + 1)) (pool_index v) (pool v) (pool_size v) (free v)
                         (next_id v) (offset v) (the_tables v) (hash_count v) (initial_entries v)]> (views w)) (contents w))
  | Grow q h newCapacity =>
      v ← views w !! q;
      only (bool_decide (contents w !! h = None))
        (World (<[q := View (the_producers v) (count v) (pool_index v) (pool v) (pool_size v) (free v)
                         (next_id v) (offset v) (h :: the_tables v) (hash_count v) (initial_entries v)]> (views w))
           (<[h := (newCapacity, replicate (Z.to_nat newCapacity) (Kvp invalid_thread_id None))]> (contents w)))
  | Use q index free id offset hashCount es =>
      v ← views w !! q;
      only (bool_decide (length es = length (initial_entries v)))
        (World (<[q := View (the_producers v) (count v) index (pool v) (pool_size v) free id offset (the_tables v)
                         hashCount es]> (views w)) (contents w))
  | Enter h es =>
      c ← contents w !! h;
      only (bool_decide (length es = length c.2)) (World (views w) (<[h := (c.1, es)]> (contents w)))
  | Destroy q =>
      v ← views w !! q;
      Some (World (delete q (views w)) (filter (λ p, p.1 ∉ the_tables v) (contents w)))
  end.

Fixpoint steps (l : list action) (w : world) : option world :=
  match l with
  | [] => Some w
  | a :: l => w ← step a w; steps l w
  end.
End moves.

(** ** Chains of pointers *)

(** Following [next] from [p] passes [l] and arrives at [stop]. *)
Inductive leads {A} (next : A → option (option A)) (stop : option A) : option A → list A → Prop :=
  | leads_nil : leads next stop stop []
  | leads_cons x y l : next x = Some y → leads next stop y l → leads next stop (Some x) (x :: l).

Section chains.
Context {A : Type}.
Implicit Types (next : A → option (option A)) (l : list A).

Definition ends next (stop : option A) : Prop := match stop with None => True | Some x => next x = None end.

Lemma leads_det next s s' p l l' :
  ends next s → ends next s' → leads next s p l → leads next s' p l' → s = s' ∧ l = l'.
Proof.
  intros Hs Hs' Hl. revert l'. induction Hl as [|x y l Hx Hl IH]; intros l' Hl'.
  - inversion Hl'; subst; [done|]. simpl in Hs. congruence.
  - inversion Hl' as [Heq|x' y' l'' Hx' Hl'' Heq]; subst; [simpl in *; congruence|].
    rewrite Hx in Hx'. simplify_eq. destruct (IH _ Hl'') as [-> ->]. done.
Qed.

Lemma leads_elem next s p l x : leads next s p l → x ∈ l → is_Some (next x).
Proof. induction 1; intros Hin; [by apply elem_of_nil in Hin|]. apply elem_of_cons in Hin as [->|]; eauto. Qed.

Lemma leads_split next s p l1 x l2 :
  leads next s p (l1 ++ x :: l2) → leads next (Some x) p l1 ∧ leads next s (Some x) (x :: l2).
Proof.
  revert p. induction l1 as [|y l1 IH]; intros p Hl; simpl in *.
  - inversion Hl; subst. split; econstructor; eauto.
  - inversion Hl; subst. edestruct IH; eauto. split; [econstructor; eauto|done].
Qed.

Lemma leads_join next s p l1 x l2 :
  leads next (Some x) p l1 → leads next s (Some x) l2 → leads next s p (l1 ++ l2).
Proof. induction 1; intros; simpl; [done|]. econstructor; eauto. Qed.

Lemma leads_NoDup next s p l : ends next s → leads next s p l → NoDup l.
Proof.
  intros Hs. induction 1 as [|x y l Hx Hl IH]; constructor; auto.
  intros (l1 & l2 & ->)%list_elem_of_split. pose proof (leads_split _ _ _ _ _ _ Hl) as [_ Hx'].
  inversion Hx' as [|? y' ? Hy' Hl']; subst. rewrite Hx in Hy'. simplify_eq.
  pose proof (leads_det _ _ _ _ _ _ Hs Hs Hl Hl') as [_ Heq].
  apply (f_equal length) in Heq. rewrite length_app in Heq. simpl in Heq. lia.
Qed.

Lemma leads_frame next next' s p l :
  leads next s p l → (∀ x, x ∈ l → next' x = next x) → leads next' s p l.
Proof.
  induction 1 as [|x y l Hx Hl IH]; intros Hsame; [constructor|].
  econstructor; [rewrite Hsame; [done|left]|]. apply IH. intros z Hz. apply Hsame. by right.
Qed.

End chains.

(** The links of producers and of allocated tables; the chains a queue holds. *)
Definition next_of (ps : gmap nat producer) (i : nat) : option (option nat) := next_prod <$> ps !! i.
Definition prev_of (ts : gmap nat hash) (p : table_ptr) : option (option table_ptr) :=
  match p with Initial _ => None | Allocated h => prev <$> ts !! h end.
Definition newest (q : nat) (hs : list nat) : table_ptr := match hs with [] => Initial q | h :: _ => Allocated h end.
Definition listed (ps : gmap nat producer) (l : list nat) : Prop := leads (next_of ps) None (head l) l.
Definition tabled (ts : gmap nat hash) (q : nat) (hs : list nat) : Prop :=
  leads (prev_of ts) (Some (Initial q)) (Some (newest q hs)) (Allocated <$> hs).
Definition content (t : hash) : Z * list kvp := (capacity t, entries t).

Section layouts.
Context `{HashSize}.
Implicit Types (ps : gmap nat producer) (ts : gmap nat hash) (m : memory).

Lemma bounded_by_map {A} (f : gmap nat A) (l : list nat) :
  NoDup l → (∀ x, x ∈ l → is_Some (f !! x)) → (length l ≤ size f)%nat.
Proof.
  intros Hl Hin. rewrite <- (size_list_to_set (C := gset nat) l Hl), <- (size_dom (D := gset nat)).
  apply subseteq_size. intros x Hx%elem_of_list_to_set. apply elem_of_dom. auto.
Qed.

Lemma listed_NoDup ps l : listed ps l → NoDup l.
Proof. by apply leads_NoDup. Qed.

Lemma listed_size ps l : listed ps l → (length l ≤ size ps)%nat.
Proof.
  intros Hl. apply bounded_by_map; [by eapply listed_NoDup|].
  intros x Hx. pose proof (leads_elem _ _ _ _ _ Hl Hx) as Hs. unfold next_of in Hs. by rewrite fmap_is_Some in Hs.
Qed.

Lemma tabled_allocated ts q hs h : tabled ts q hs → h ∈ hs → is_Some (ts !! h).
Proof.
  intros Ht Hh. pose proof (leads_elem _ _ _ _ (Allocated h) Ht) as Hs. unfold prev_of in Hs.
  rewrite fmap_is_Some in Hs. apply Hs. by apply list_elem_of_fmap_2.
Qed.

Lemma tabled_NoDup ts q hs : tabled ts q hs → NoDup hs.
Proof. intros Ht. eapply NoDup_fmap_1. eapply leads_NoDup, Ht. done. Qed.

Lemma tabled_size ts q hs : tabled ts q hs → (length hs ≤ size ts)%nat.
Proof.
  intros Ht. apply bounded_by_map; [by eapply tabled_NoDup|]. intros. by eapply tabled_allocated.
Qed.

(** Two queues have no table in common. *)
Lemma tabled_disjoint ts q q' hs hs' h :
  tabled ts q hs → tabled ts q' hs' → q ≠ q' → h ∈ hs → h ∉ hs'.
Proof.
  intros Ht Ht' Hq (l1 & l2 & ->)%list_elem_of_split (l1' & l2' & ->)%list_elem_of_split.
  unfold tabled in *. rewrite fmap_app in Ht, Ht'.
  apply leads_split in Ht as [_ Ht]. apply leads_split in Ht' as [_ Ht'].
  by edestruct (leads_det (prev_of ts) (Some (Initial q)) (Some (Initial q'))) as [[= ->] _]; eauto.
Qed.

Lemma tabled_frame ts ts' q hs : tabled ts q hs → (∀ h, h ∈ hs → ts' !! h = ts !! h) → tabled ts' q hs.
Proof.
  intros Ht Hsame. eapply leads_frame; [done|]. intros x Hx.
  apply list_elem_of_fmap in Hx as (h & -> & Hh). simpl. by rewrite Hsame.
Qed.

Lemma listed_frame ps ps' l : listed ps l → (∀ i, i ∈ l → next_of ps' i = next_of ps i) → listed ps' l.
Proof. intros Hl Hsame. by eapply leads_frame. Qed.

(** [relink] changes the oldest allocated table only. *)
Lemma relink_ok fuel h hs old new m :
  (length hs < fuel)%nat → NoDup (h :: hs) →
  leads (prev_of (tables m)) (Some (Initial old)) (Some (Allocated h)) (Allocated <$> h :: hs) →
  ∃ ts, relink fuel (Some (Allocated h)) old new m = Ok (with_tables m ts) ∧
    content <$> ts = content <$> tables m ∧ (∀ k, k ∉ h :: hs → ts !! k = tables m !! k) ∧
    leads (prev_of ts) (Some (Initial new)) (Some (Allocated h)) (Allocated <$> h :: hs).
Proof.
  revert h fuel. induction hs as [|h' hs IH]; intros h fuel Hf Hnd Hl.
  all: destruct fuel as [|fuel]; [simpl in Hf; lia|]; rewrite fmap_cons in *.
  all: inversion Hl as [|? y ? Hy Hl']; subst; simpl in Hy; destruct (tables m !! h) as [t|] eqn:Ht; [|done].
  all: simpl in Hy; injection Hy as Hy; simpl; rewrite Ht; simpl; rewrite Hy.
  - inversion Hl'; subst. rewrite decide_True by congruence. eexists. split; [done|]. split_and!.
    + rewrite fmap_insert. apply insert_id. by rewrite lookup_fmap, Ht.
    + intros k Hk. apply lookup_insert_ne. intros ->. apply Hk. left.
    + econstructor; [simpl; by rewrite lookup_insert_eq|constructor].
  - inversion Hl' as [|? y' ? Hy' Hl'' Heq]; subst. rewrite <- Heq in Hl'.
    rewrite decide_False by congruence.
    apply NoDup_cons in Hnd as [Hnh Hnd].
    destruct (IH h' fuel) as (ts & -> & Hc & Hsame & Hts); [simpl in Hf; lia|done|by rewrite fmap_cons|].
    exists ts. split_and!; [done|done| |].
    + intros k Hk. apply Hsame. intros Hin. apply Hk. by right.
    + econstructor; [|done]. simpl. rewrite Hsame, Ht by done. simpl. congruence.
Qed.

Lemma swap_entries_ok es fs : length es = length fs → swap_entries es fs = (fs, es).
Proof.
  revert fs. induction es as [|[k v] es IH]; intros [|[k' v'] fs] Hl; simplify_eq/=; [done|].
  by rewrite IH.
Qed.

Lemma redirect_ok this other o hs m :
  this ≠ other → objects m !! this = Some o → implicitProducerHash o = Some (newest other hs) → tabled (tables m) other hs →
  ∃ ts, redirect this other m =
      Ok (Memory (<[this := set_hash o (Some (newest this hs))]> (objects m)) (producers m) ts) ∧
    content <$> ts = content <$> tables m ∧ (∀ k, k ∉ hs → ts !! k = tables m !! k) ∧ tabled ts this hs.
Proof.
  intros Hne Ho Hp Ht. unfold redirect, the_object. rewrite Ho. cbn [mbind result_bind]. rewrite Hp.
  destruct hs as [|h hs]; cbn [newest] in *.
  - rewrite decide_True by done. exists (tables m). split_and!; [done..|constructor].
  - rewrite decide_False by done.
    pose proof (tabled_NoDup _ _ _ Ht) as Hnd. pose proof (tabled_size _ _ _ Ht) as Hs.
    destruct (relink_ok (S (size (tables m))) h hs other this m) as (ts & Hr & Hc & Hsame & Hl); [simpl in Hs; lia|done..|].
    exists ts. change (S (size (tables m))) with (Nat.succ (size (tables m))) in *. rewrite Hr. split_and!; [|done..].
    rewrite insert_id; [done|]. rewrite Ho. destruct o; simpl in *. by subst.
Qed.

Lemma swap_hashes_ok this other a b hs ks m :
  INITIAL_IMPLICIT_PRODUCER_HASH_SIZE ≠ 0 → this ≠ other →
  objects m !! this = Some a → objects m !! other = Some b →
  implicitProducerHash a = Some (newest this hs) → implicitProducerHash b = Some (newest other ks) →
  length (initialImplicitProducerHashEntries a) = length (initialImplicitProducerHashEntries b) →
  tabled (tables m) this hs → tabled (tables m) other ks →
  ∃ ts, swap_implicit_producer_hashes this other m =
      Ok (Memory
        (<[other := set_hashes b (Some (newest other hs)) (implicitProducerHashCount a)
             (InitialHash (initial_capacity (initialImplicitProducerHash b)) other (initial_prev (initialImplicitProducerHash b)))
             (initialImplicitProducerHashEntries a)]>
        (<[this := set_hashes a (Some (newest this ks)) (implicitProducerHashCount b)
             (InitialHash (initial_capacity (initialImplicitProducerHash a)) this (initial_prev (initialImplicitProducerHash a)))
             (initialImplicitProducerHashEntries b)]> (objects m))) (producers m) ts) ∧
    content <$> ts = content <$> tables m ∧ (∀ k, k ∉ hs → k ∉ ks → ts !! k = tables m !! k) ∧
    tabled ts this ks ∧ tabled ts other hs.
Proof.
  intros Hsize Hne Ha Hb Hpa Hpb Hlen Hta Htb. unfold swap_implicit_producer_hashes, the_object.
  rewrite (proj2 (Z.eqb_neq _ _) Hsize), Ha, Hb. cbn [mbind result_bind].
  rewrite swap_entries_ok by done. unfold swap_relaxed. cbn zeta iota.
  set (a' := set_hashes a _ _ _ _). set (b' := set_hashes b _ _ _ _). set (m1 := with_object (with_object m this a') other b').
  destruct (redirect_ok this other a' ks m1) as (ts1 & -> & Hc1 & Hsame1 & Ht1); [done| |done..|].
  { simpl. rewrite lookup_insert_ne by done. apply lookup_insert_eq. }
  cbn [mbind result_bind].
  destruct (redirect_ok other this b' hs (Memory (<[this := set_hash a' (Some (newest this ks))]> (objects m1)) (producers m1) ts1))
    as (ts2 & -> & Hc2 & Hsame2 & Ht2); [done| |done| |].
  { simpl. rewrite lookup_insert_ne by done. apply lookup_insert_eq. }
  { eapply tabled_frame; [done|]. intros h Hh. apply Hsame1. by eapply (tabled_disjoint (tables m) this other). }
  exists ts2. split_and!.
  - do 2 f_equal. apply map_eq. intros k. simpl. rewrite !lookup_insert. by repeat case_decide.
  - simpl in *. congruence.
  - intros k Hk Hk'. rewrite Hsame2 by done. by apply Hsame1.
  - eapply tabled_frame; [done|]. intros h Hh. apply Hsame2.
    apply (tabled_disjoint (tables m) other this ks hs); auto.
  - done.
Qed.

Lemma reown_ok fuel ptr this m l :
  (length l ≤ fuel)%nat → NoDup l → leads (next_of (producers m)) None ptr l →
  ∃ ps, reown fuel ptr this m = Ok (with_producers m ps) ∧
    ∀ i, ps !! i = (if decide (i ∈ l) then λ p, Producer (next_prod p) this else id) <$> producers m !! i.
Proof.
  revert ptr m l. induction fuel as [|fuel IH]; intros ptr m l Hf Hnd Hl; destruct Hl as [|i y l Hi Hl].
  1,3: exists (producers m); split; [by destruct m|]; intros i; rewrite decide_False by apply not_elem_of_nil; by destruct (producers m !! i).
  { simpl in Hf; lia. }
  apply NoDup_cons in Hnd as [Hni Hnd]. simpl in Hf.
  unfold next_of in Hi. destruct (producers m !! i) as [p|] eqn:Hp; [|done]. simpl in *. rewrite Hp. simplify_eq.
  edestruct (IH (next_prod p) (with_producers m (<[i := Producer (next_prod p) this]> (producers m))) l) as (ps & -> & Hps); [lia|done| |].
  { eapply leads_frame; [done|]. intros x Hx. unfold next_of. simpl. by rewrite lookup_insert_ne by congruence. }
  exists ps. split; [done|]. intros k. rewrite Hps. simpl. destruct (decide (k = i)) as [->|Hk].
  - by rewrite lookup_insert_eq, Hp, decide_False, decide_True by (done || left).
  - rewrite lookup_insert_ne by done. f_equal. destruct (decide (k ∈ l)), (decide (k ∈ i :: l)); set_solver.
Qed.

(** ** The memory of a world *)

Definition layout (q : nat) (v : view) : object :=
  Object (head (the_producers v)) (count v) (pool_index v) (pool v) (pool_size v) (free v) (next_id v) (offset v)
    (Some (newest q (the_tables v))) (hash_count v) (InitialHash INITIAL_IMPLICIT_PRODUCER_HASH_SIZE q None) (initial_entries v).

(** Every producer and every table is on the list of exactly the queue it belongs to. *)
Record held ps ts (w : world) : Prop := Held {
  h_entries q v : views w !! q = Some v → length (initial_entries v) = Z.to_nat INITIAL_IMPLICIT_PRODUCER_HASH_SIZE;
  h_listed q v : views w !! q = Some v → listed ps (the_producers v);
  h_owner q v i : views w !! q = Some v → i ∈ the_producers v → parent <$> ps !! i = Some q;
  h_all i p : ps !! i = Some p → ∃ v, views w !! parent p = Some v ∧ i ∈ the_producers v;
  h_tabled q v : views w !! q = Some v → tabled ts q (the_tables v);
  h_table h : is_Some (ts !! h) → ∃ q v, views w !! q = Some v ∧ h ∈ the_tables v;
  h_contents : contents w = content <$> ts
}.

Definition repr m (w : world) : Prop :=
  (∀ q, objects m !! q = layout q <$> views w !! q) ∧ held (producers m) (tables m) w.

Lemma held_disjoint ps ts w q q' v v' i :
  held ps ts w → views w !! q = Some v → views w !! q' = Some v' → i ∈ the_producers v → i ∈ the_producers v' → q = q'.
Proof.
  intros Hh Hv Hv' Hi Hi'. pose proof (h_owner _ _ _ Hh _ _ _ Hv Hi). pose proof (h_owner _ _ _ Hh _ _ _ Hv' Hi').
  congruence.
Qed.

Lemma same_contents ts ts' h : content <$> ts' = content <$> ts → is_Some (ts' !! h) ↔ is_Some (ts !! h).
Proof.
  intros Hc. assert ((content <$> ts') !! h = (content <$> ts) !! h) as Hh by by rewrite Hc.
  rewrite !lookup_fmap in Hh. destruct (ts' !! h), (ts !! h); simplify_eq/=; by rewrite ?is_Some_alt.
Qed.

(** An empty queue needs no memory but its object. *)
Lemma held_empty ps ts w q pool n :
  held ps ts w → views w !! q = None → held ps ts (World (<[q := empty_view pool n]> (views w)) (contents w)).
Proof.
  intros Hh Hq. split; simpl.
  - intros k v. rewrite lookup_insert. case_decide; [|by apply Hh]. intros [= <-]. apply length_replicate.
  - intros k v. rewrite lookup_insert. case_decide; [|by apply Hh]. intros [= <-]. constructor.
  - intros k v i. rewrite lookup_insert. case_decide; [|by apply Hh]. intros [= <-] Hi. by apply not_elem_of_nil in Hi.
  - intros i p Hp. destruct (h_all _ _ _ Hh _ _ Hp) as (v & Hv & Hi). exists v. split; [|done].
    rewrite lookup_insert_ne; [done|]. congruence.
  - intros k v. rewrite lookup_insert. case_decide; [|by apply Hh]. intros [= <-]. subst. constructor.
  - intros h Hs. destruct (h_table _ _ _ Hh _ Hs) as (k & v & Hv & Hi). exists k, v. split; [|done].
    rewrite lookup_insert_ne; [done|]. congruence.
  - apply Hh.
Qed.

(** A queue keeps its producers and tables, whatever its other fields become. *)
Lemma held_fields ps ts w q v v' :
  held ps ts w → views w !! q = Some v → the_producers v' = the_producers v → the_tables v' = the_tables v →
  length (initial_entries v') = length (initial_entries v) → held ps ts (World (<[q := v']> (views w)) (contents w)).
Proof.
  intros Hh Hv Hp Ht Hl. split; simpl.
  - intros k u. rewrite lookup_insert. case_decide; [|by apply Hh]. intros [= <-]. rewrite Hl. by eapply h_entries.
  - intros k u. rewrite lookup_insert. case_decide; [|by apply Hh]. intros [= <-]. rewrite Hp. by eapply h_listed.
  - intros k u i. rewrite lookup_insert. case_decide; [|by apply Hh]. intros [= <-]. subst. rewrite Hp. by eapply h_owner.
  - intros i p Hi. destruct (h_all _ _ _ Hh _ _ Hi) as (u & Hu & Hin). destruct (decide (parent p = q)) as [Heq|Hne].
    + exists v'. rewrite Heq, lookup_insert_eq, Hp. split; [done|]. rewrite Heq in Hu. by simplify_eq.
    + exists u. by rewrite lookup_insert_ne.
  - intros k u. rewrite lookup_insert. case_decide; [|by apply Hh]. intros [= <-]. subst. rewrite Ht. by eapply h_tabled.
  - intros h Hs. destruct (h_table _ _ _ Hh _ Hs) as (k & u & Hu & Hin). destruct (decide (k = q)) as [->|].
    + exists q, v'. rewrite lookup_insert_eq, Ht. by simplify_eq.
    + exists k, u. by rewrite lookup_insert_ne.
  - apply Hh.
Qed.

(** New entries leave the chains of tables as they are. *)
Lemma held_entries ps ts w h t es :
  held ps ts w → ts !! h = Some t →
  held ps (<[h := Hash (capacity t) es (prev t)]> ts) (World (views w) (<[h := (capacity t, es)]> (contents w))).
Proof.
  intros Hh Ht. split; simpl; try apply Hh.
  - intros q v Hv. eapply leads_frame; [by eapply h_tabled|]. intros [k|k] _; [done|]. simpl.
    rewrite lookup_insert. case_decide; [|done]. subst. by rewrite Ht.
  - intros k. rewrite lookup_insert. case_decide; [subst|]; intros Hs; eapply h_table; eauto.
  - rewrite (h_contents _ _ _ Hh). by rewrite fmap_insert.
Qed.

(** Two queues exchange what they hold. *)
Lemma held_exchange ps ts ps' ts' w this other v v' :
  held ps ts w → this ≠ other → views w !! this = Some v → views w !! other = Some v' →
  content <$> ts' = content <$> ts → (∀ k, k ∉ the_tables v → k ∉ the_tables v' → ts' !! k = ts !! k) →
  tabled ts' this (the_tables v') → tabled ts' other (the_tables v) →
  (∀ i, ps' !! i = (if decide (i ∈ the_producers v) then λ p, Producer (next_prod p) other else id) <$>
                   ((if decide (i ∈ the_producers v') then λ p, Producer (next_prod p) this else id) <$> ps !! i)) →
  held ps' ts' (World (<[other := v]> (<[this := v']> (views w))) (contents w)).
Proof.
  intros Hh Hne Hv Hv' Hc Hsame Ht Ht' Hps.
  assert (∀ i, next_of ps' i = next_of ps i) as Hnext.
  { intros i. unfold next_of. rewrite Hps. by repeat case_decide; destruct (ps !! i). }
  assert (∀ k u, <[other := v]> (<[this := v']> (views w)) !! k = Some u →
    (k = other ∧ u = v) ∨ (k = this ∧ u = v') ∨ (k ≠ other ∧ k ≠ this ∧ views w !! k = Some u)) as Hk.
  { intros k u. rewrite !lookup_insert. repeat case_decide; naive_solver. }
  assert (∀ q u i, views w !! q = Some u → i ∈ the_producers u → q ≠ other → i ∉ the_producers v') as Hd'
    by (intros q u i Hu Hi Hq Hi'; apply Hq; by eapply held_disjoint).
  assert (∀ q u i, views w !! q = Some u → i ∈ the_producers u → q ≠ this → i ∉ the_producers v) as Hd
    by (intros q u i Hu Hi Hq Hi'; apply Hq; by eapply held_disjoint).
  split; simpl.
  - intros k u Hu. apply Hk in Hu as [[-> ->]|[[-> ->]|(?&?&Hu)]]; by eapply h_entries.
  - intros k u Hu. eapply (listed_frame ps); [|by intros].
    apply Hk in Hu as [[-> ->]|[[-> ->]|(?&?&Hu)]]; by eapply h_listed.
  - intros k u i Hu Hi. rewrite Hps.
    apply Hk in Hu as [[-> ->]|[[-> ->]|(?&?&Hu)]].
    + rewrite decide_True by done. pose proof (h_owner _ _ _ Hh _ _ _ Hv Hi). by destruct (ps !! i).
    + rewrite decide_False, decide_True by (done || eauto). pose proof (h_owner _ _ _ Hh _ _ _ Hv' Hi). by destruct (ps !! i).
    + rewrite !decide_False by eauto. pose proof (h_owner _ _ _ Hh _ _ _ Hu Hi). by destruct (ps !! i).
  - intros i p. rewrite Hps. destruct (ps !! i) as [p0|] eqn:Hp; [|done]. intros [= <-].
    destruct (h_all _ _ _ Hh _ _ Hp) as (u & Hu & Hi).
    destruct (decide (i ∈ the_producers v)) as [Hin|Hin]; [|destruct (decide (i ∈ the_producers v')) as [Hin'|Hin']]; simpl.
    + exists v. by rewrite lookup_insert_eq.
    + exists v'. by rewrite lookup_insert_ne, lookup_insert_eq by done.
    + exists u. rewrite !lookup_insert_ne by (intros Heq; simplify_eq; congruence). done.
  - intros k u Hu. apply Hk in Hu as [[-> ->]|[[-> ->]|(?&?&Hu)]]; [done..|].
    eapply tabled_frame; [by eapply h_tabled|]. intros h Hin.
    apply Hsame; eapply (tabled_disjoint ts k); eauto using h_tabled.
  - intros h Hs. rewrite (same_contents ts) in Hs by done. destruct (h_table _ _ _ Hh _ Hs) as (k & u & Hu & Hi).
    destruct (decide (k = this)) as [->|]; [|destruct (decide (k = other)) as [->|]].
    + exists other, v. rewrite lookup_insert_eq. naive_solver.
    + exists this, v'. rewrite lookup_insert_ne, lookup_insert_eq by done. naive_solver.
    + exists k, u. by rewrite !lookup_insert_ne by done.
  - rewrite Hc. apply Hh.
Qed.

(** ** Each operation *)

Context (positive : 0 < INITIAL_IMPLICIT_PRODUCER_HASH_SIZE).

Lemma the_object_ok m w q v : repr m w → views w !! q = Some v → the_object m q = Ok (layout q v).
Proof. intros [Hr _] Hv. unfold the_object. by rewrite Hr, Hv. Qed.

Lemma populate_hash_ok this tail n i pl sz fr id off m :
  objects m !! this = Some (blank tail n i pl sz fr id off) →
  populate_initial_implicit_producer_hash this m =
  Ok (with_object m this (set_hashes (blank tail n i pl sz fr id off) (Some (Initial this)) 0
    (InitialHash INITIAL_IMPLICIT_PRODUCER_HASH_SIZE this None)
    (replicate (Z.to_nat INITIAL_IMPLICIT_PRODUCER_HASH_SIZE) (Kvp invalid_thread_id None)))).
Proof.
  intros Ho. unfold populate_initial_implicit_producer_hash, the_object.
  rewrite (proj2 (Z.eqb_neq _ _)), Ho by lia. cbn [mbind result_bind]. unfold blank. simpl. by rewrite fmap_replicate.
Qed.

Lemma construct_moves m w w' q pl n :
  repr m w → step (Construct q pl n) w = Some w' → ∃ m', construct q pl n m = Ok m' ∧ repr m' w'.
Proof.
  intros [Hr Hh] Hs. simpl in Hs. case_bool_decide as Hq; simplify_eq/=.
  unfold construct. erewrite populate_hash_ok by apply lookup_insert_eq. eexists. split; [done|]. split; simpl; [|by apply held_empty].
  intros k. rewrite !lookup_insert. case_decide; [by subst|apply Hr].
Qed.

Lemma reown_producers_ok this o m l :
  objects m !! this = Some o → producerListTail o = head l → listed (producers m) l →
  ∃ ps, reown_producers this m = Ok (with_producers m ps) ∧
    ∀ i, ps !! i = (if decide (i ∈ l) then λ p, Producer (next_prod p) this else id) <$> producers m !! i.
Proof.
  intros Ho Hl Hc. unfold reown_producers, the_object. rewrite Ho. cbn [mbind result_bind]. rewrite Hl.
  apply reown_ok; [|by eapply listed_NoDup|done]. pose proof (listed_size _ _ Hc). lia.
Qed.

Lemma swap_ok m w w' q other :
  repr m w → step (Swap q other) w = Some w' → ∃ m', swap_internal q other m = Ok m' ∧ repr m' w'.
Proof.
  intros Hrep Hs. pose proof Hrep as [Hr Hh]. simpl in Hs.
  destruct (views w !! q) as [v|] eqn:Hv; [|done]. destruct (views w !! other) as [v'|] eqn:Hv'; [|done].
  simplify_eq/=. unfold swap_internal. case_decide as Hne.
  { subst. rewrite Hv in Hv'. simplify_eq. exists m. split; [done|]. destruct w; simpl in *. by rewrite insert_insert_eq, insert_id. }
  rewrite !(the_object_ok m w _ _ Hrep) by done. cbn [mbind result_bind].
  match goal with |- context [with_object (with_object m q ?x) other ?y] => set (a := x); set (b := y) end.
  destruct (swap_hashes_ok q other a b (the_tables v) (the_tables v') (with_object (with_object m q a) other b))
    as (ts & -> & Hc & Hsame & Ht & Ht'); [lia|done|by simpl; rewrite lookup_insert_ne, lookup_insert_eq by done|by simpl; rewrite lookup_insert_eq|reflexivity|reflexivity| | | |].
  { simpl. by rewrite (h_entries _ _ _ Hh q v), (h_entries _ _ _ Hh other v'). }
  1,2: by eapply h_tabled.
  cbn [mbind result_bind]. simpl in Hc, Hsame.
  match goal with |- context [reown_producers q ?x] => set (m1 := x) end.
  destruct (reown_producers_ok q (layout q v') m1 (the_producers v')) as (ps1 & -> & Hps1);
    [simpl; by rewrite lookup_insert_ne, lookup_insert_eq by done|done|by eapply h_listed|].
  cbn [mbind result_bind].
  destruct (reown_producers_ok other (layout other v) (with_producers m1 ps1) (the_producers v)) as (ps2 & -> & Hps2);
    [simpl; by rewrite lookup_insert_eq|done| |].
  { eapply (listed_frame (producers m)); [by eapply h_listed|]. intros i _. unfold next_of. simpl. rewrite Hps1.
    change (producers m1) with (producers m). by case_decide; destruct (producers m !! i). }
  eexists. split; [done|]. split.
  - intros k. simpl. rewrite !lookup_insert. by repeat case_decide; subst.
  - simpl. eapply held_exchange; eauto. intros i. rewrite Hps2. simpl. by rewrite Hps1.
Qed.

Lemma move_construct_ok m w w' q other :
  repr m w → step (MoveConstruct q other) w = Some w' → ∃ m', move_construct q other m = Ok m' ∧ repr m' w'.
Proof.
  intros Hrep Hs. pose proof Hrep as [Hr Hh]. simpl in Hs.
  destruct (views w !! other) as [v|] eqn:Hv; [|done]. simpl in Hs. case_bool_decide as Hq; simplify_eq/=.
  assert (q ≠ other) as Hne by congruence.
  unfold move_construct. rewrite (the_object_ok m w _ _ Hrep Hv). cbn [mbind result_bind].
  erewrite populate_hash_ok by (simpl; rewrite lookup_insert_ne, lookup_insert_eq by done; done). cbn [mbind result_bind].
  match goal with |- context [swap_implicit_producer_hashes q other (with_object (with_object ?m0 other ?y) q ?x)] => set (a := x); set (b := y); set (m1 := with_object (with_object m0 other b) q a) end.
  destruct (swap_hashes_ok q other a b [] (the_tables v) m1) as (ts & -> & Hc & Hsame & Ht & Ht');
    [lia|done|by simpl; rewrite lookup_insert_eq|by simpl; rewrite lookup_insert_ne, lookup_insert_eq by done
    |reflexivity|reflexivity| |constructor|by eapply h_tabled|].
  { simpl. by rewrite length_replicate, (h_entries _ _ _ Hh other v). }
  cbn [mbind result_bind]. unfold the_object. cbn [objects]. rewrite lookup_insert_eq. cbn [mbind result_bind].
  match goal with |- context [reown_producers q ?x] => set (m2 := x) end.
  destruct (reown_producers_ok q (layout q v) m2 (the_producers v)) as (ps & -> & Hps);
    [simpl; by rewrite lookup_insert_ne, lookup_insert_ne, lookup_insert_eq by done|done|by eapply h_listed|].
  eexists. split; [done|]. split.
  - intros k. simpl. rewrite !lookup_insert. by repeat case_decide; subst.
  - simpl. pose proof (held_empty _ _ w q None 0 Hh Hq) as Hh1.
    assert (<[q := v]> (<[other := empty_view None 0]> (views w)) =
            <[other := empty_view None 0]> (<[q := v]> (<[q := empty_view None 0]> (views w)))) as ->.
    { apply map_eq. intros k. rewrite !lookup_insert. by repeat case_decide; subst. }
    eapply (held_exchange _ _ ps ts _ q other (empty_view None 0) v Hh1); try done.
    + apply lookup_insert_eq.
    + simpl. by rewrite lookup_insert_ne.
    + intros i. cbn [the_producers empty_view]. rewrite Hps.
      destruct (decide (i ∈ [])) as [Hi|_]; [by apply not_elem_of_nil in Hi|]. by rewrite option_fmap_id.
Qed.

Lemma fresh_producer ps ts w i :
  held ps ts w → map_Forall (λ _ u, i ∉ the_producers u) (views w) → ps !! i = None.
Proof.
  intros Hh Hf. destruct (ps !! i) as [p|] eqn:Hp; [|done].
  destruct (h_all _ _ _ Hh _ _ Hp) as (v & Hv & Hi). by destruct (Hf _ _ Hv).
Qed.

Lemma add_producer_moves m w w' q i :
  repr m w → step (AddProducer q i) w = Some w' → ∃ m', add_producer q i m = Ok m' ∧ repr m' w'.
Proof.
  intros Hrep Hs. pose proof Hrep as [Hr Hh]. simpl in Hs.
  destruct (views w !! q) as [v|] eqn:Hv; [|done]. simpl in Hs. case_bool_decide as Hf; simplify_eq/=.
  unfold add_producer. rewrite (the_object_ok m w _ _ Hrep Hv). eexists. split; [done|].
  pose proof (fresh_producer _ _ _ _ Hh Hf) as Hi.
  split; [intros k; simpl; rewrite !lookup_insert; by repeat case_decide; subst|]. split; simpl.
  - intros k u. rewrite lookup_insert. case_decide; [|by apply Hh]. intros [= <-]. by apply (h_entries _ _ _ Hh q v).
  - assert (∀ k u, views w !! k = Some u → leads (next_of (<[i := Producer (head (the_producers v)) q]> (producers m))) None
      (head (the_producers u)) (the_producers u)) as Hold.
    { intros k u Hu. eapply leads_frame; [by eapply h_listed|]. intros x Hx. unfold next_of.
      rewrite lookup_insert_ne; [done|]. intros ->. by apply (Hf _ _ Hu). }
    intros k u. rewrite lookup_insert. case_decide; [|by apply Hold]. intros [= <-].
    econstructor; [unfold next_of; by rewrite lookup_insert_eq|]. by eapply Hold.
  - intros k u j. rewrite lookup_insert. case_decide.
    + intros [= <-] [->|Hj]%elem_of_cons; [rewrite lookup_insert_eq; by subst|]. subst.
      rewrite lookup_insert_ne; [by eapply h_owner|]. intros ->. by apply (Hf _ _ Hv).
    + intros Hu Hj. rewrite lookup_insert_ne; [by eapply h_owner|]. intros ->. by apply (Hf _ _ Hu).
  - intros j p. rewrite lookup_insert. case_decide as Hj.
    + intros [= <-]. simpl. eexists. rewrite lookup_insert_eq. split; [done|]. subst. left.
    + intros Hp. destruct (h_all _ _ _ Hh _ _ Hp) as (u & Hu & Hin). rewrite lookup_insert. case_decide as Hk; [|eauto].
      eexists. split; [done|]. simpl. right. rewrite <- Hk in Hu. by simplify_eq.
  - intros k u. rewrite lookup_insert. case_decide; [|by apply Hh]. intros [= <-]. subst. by apply (h_tabled _ _ _ Hh _ v).
  - intros h Hs. destruct (h_table _ _ _ Hh _ Hs) as (k & u & Hu & Hin). destruct (decide (k = q)) as [->|].
    + eexists q, _. rewrite lookup_insert_eq. split; [done|]. by simplify_eq.
    + exists k, u. by rewrite lookup_insert_ne.
  - apply Hh.
Qed.

Lemma grow_moves m w w' q h n :
  repr m w → step (Grow q h n) w = Some w' → ∃ m', grow q h n m = Ok m' ∧ repr m' w'.
Proof.
  intros Hrep Hs. pose proof Hrep as [Hr Hh]. simpl in Hs.
  destruct (views w !! q) as [v|] eqn:Hv; [|done]. simpl in Hs. case_bool_decide as Hf; simplify_eq/=.
  unfold grow. rewrite (the_object_ok m w _ _ Hrep Hv). eexists. split; [done|].
  assert (tables m !! h = None) as Hn.
  { rewrite (h_contents _ _ _ Hh), lookup_fmap in Hf. by destruct (tables m !! h). }
  split; [intros k; simpl; rewrite !lookup_insert; by repeat case_decide; subst|]. split; simpl.
  - intros k u. rewrite lookup_insert. case_decide; [|by apply Hh]. intros [= <-]. by apply (h_entries _ _ _ Hh q v).
  - intros k u. rewrite lookup_insert. case_decide; [|by apply Hh]. intros [= <-]. by apply (h_listed _ _ _ Hh q v).
  - intros k u j. rewrite lookup_insert. case_decide; [|by apply Hh]. intros [= <-]. subst. by apply (h_owner _ _ _ Hh _ v).
  - intros j p Hp. destruct (h_all _ _ _ Hh _ _ Hp) as (u & Hu & Hin). rewrite lookup_insert. case_decide as Hk; [|eauto].
    eexists. split; [done|]. simpl. rewrite <- Hk in Hu. by simplify_eq.
  - set (t := Hash _ _ _).
    assert (∀ k u, views w !! k = Some u → tabled (<[h := t]> (tables m)) k (the_tables u)) as Hold.
    { intros k u Hu. eapply tabled_frame; [by eapply h_tabled|]. intros x Hx. apply lookup_insert_ne. intros ->.
      pose proof (tabled_allocated _ _ _ _ (h_tabled _ _ _ Hh _ _ Hu) Hx) as [? ?]. congruence. }
    intros k u. rewrite lookup_insert. case_decide; [|by apply Hold]. intros [= <-]. subst.
    econstructor; [simpl; by rewrite lookup_insert_eq|]. by eapply Hold.
  - intros x. rewrite lookup_insert. case_decide as Hx.
    + intros _. eexists q, _. rewrite lookup_insert_eq. split; [done|]. subst. left.
    + intros Hs. destruct (h_table _ _ _ Hh _ Hs) as (k & u & Hu & Hin). destruct (decide (k = q)) as [->|].
      * eexists q, _. rewrite lookup_insert_eq. split; [done|]. right. by simplify_eq.
      * exists k, u. by rewrite lookup_insert_ne.
  - rewrite (h_contents _ _ _ Hh). by rewrite fmap_insert.
Qed.

Lemma use_moves m w w' q index fr id off hc es :
  repr m w → step (Use q index fr id off hc es) w = Some w' → ∃ m', use q index fr id off hc es m = Ok m' ∧ repr m' w'.
Proof.
  intros Hrep Hs. pose proof Hrep as [Hr Hh]. simpl in Hs.
  destruct (views w !! q) as [v|] eqn:Hv; [|done]. simpl in Hs. case_bool_decide as Hf; simplify_eq/=.
  unfold use. rewrite (the_object_ok m w _ _ Hrep Hv). eexists. split; [done|].
  split; [intros k; simpl; rewrite !lookup_insert; by repeat case_decide; subst|]. by eapply held_fields.
Qed.

Lemma enter_moves m w w' h es :
  repr m w → step (Enter h es) w = Some w' → ∃ m', enter h es m = Ok m' ∧ repr m' w'.
Proof.
  intros [Hr Hh] Hs. simpl in Hs. rewrite (h_contents _ _ _ Hh), lookup_fmap in Hs.
  destruct (tables m !! h) as [t|] eqn:Ht; [|done]. simpl in Hs. case_bool_decide as Hf; simplify_eq/=.
  unfold enter. rewrite Ht. eexists. split; [done|]. split; [apply Hr|]. simpl.
  rewrite <- (h_contents _ _ _ Hh). by apply held_entries.
Qed.

Lemma destroy_producers_leads fuel ptr m l :
  (length l ≤ fuel)%nat → NoDup l → leads (next_of (producers m)) None ptr l →
  ∃ ps, destroy_producers fuel ptr m = Ok (with_producers m ps) ∧
    ∀ i, ps !! i = if decide (i ∈ l) then None else producers m !! i.
Proof.
  revert ptr m l. induction fuel as [|fuel IH]; intros ptr m l Hf Hnd Hl; destruct Hl as [|i y l Hi Hl].
  1,3: exists (producers m); split; [by destruct m|]; intros i; by rewrite decide_False by apply not_elem_of_nil.
  { simpl in Hf; lia. }
  apply NoDup_cons in Hnd as [Hni Hnd]. simpl in Hf.
  unfold next_of in Hi. destruct (producers m !! i) as [p|] eqn:Hp; [|done]. simpl in *. rewrite Hp. simplify_eq.
  edestruct (IH (next_prod p) (with_producers m (delete i (producers m))) l) as (ps & -> & Hps); [lia|done| |].
  { eapply leads_frame; [done|]. intros x Hx. unfold next_of. simpl. by rewrite lookup_delete_ne by congruence. }
  exists ps. split; [done|]. intros k. rewrite Hps. simpl. rewrite lookup_delete.
  destruct (decide (k ∈ l)), (decide (k ∈ i :: l)), (decide (i = k)); set_solver.
Qed.

Lemma destroy_tables_leads fuel ptr m q v hs :
  (length hs < fuel)%nat → NoDup hs → objects m !! q = Some (layout q v) →
  leads (prev_of (tables m)) (Some (Initial q)) ptr (Allocated <$> hs) →
  ∃ ts, destroy_tables fuel ptr m = Ok (with_tables m ts) ∧
    ∀ h, ts !! h = if decide (h ∈ hs) then None else tables m !! h.
Proof.
  revert ptr m hs. induction fuel as [|fuel IH]; intros ptr m hs Hf Hnd Ho Hl; [lia|].
  destruct hs as [|h hs].
  - inversion Hl; subst. exists (tables m). simpl. unfold the_object. rewrite Ho. simpl.
    split; [destruct fuel; by destruct m|]. done.
  - apply NoDup_cons in Hnd as [Hni Hnd]. rewrite fmap_cons in Hl.
    inversion Hl as [|x y l Hy Hl' Hp]; subst. simpl in Hy, Hf.
    destruct (tables m !! h) as [t|] eqn:Ht; [|done]. simpl in Hy. injection Hy as Hy.
    assert (∃ z, prev t = Some z) as [z Hz].
    { rewrite Hy. inversion Hl'; eauto. }
    cbn [destroy_tables get_prev]. rewrite Ht. cbn [mbind result_bind]. rewrite Hz.
    unfold free_table. rewrite Ht. cbn [mbind result_bind]. rewrite <- Hz, Hy.
    edestruct (IH y (with_tables m (delete h (tables m))) hs) as (ts & -> & Hts); [lia|done|done| |].
    { eapply leads_frame; [done|]. intros x Hx. apply list_elem_of_fmap in Hx as (k & -> & Hk). simpl.
      by rewrite lookup_delete_ne by congruence. }
    exists ts. split; [done|]. intros k. rewrite Hts. simpl. rewrite lookup_delete.
    destruct (decide (k ∈ hs)), (decide (k ∈ h :: hs)), (decide (h = k)); set_solver.
Qed.

Lemma held_delete ps ts ps' ts' w q v :
  held ps ts w → views w !! q = Some v →
  (∀ i, ps' !! i = if decide (i ∈ the_producers v) then None else ps !! i) →
  (∀ h, ts' !! h = if decide (h ∈ the_tables v) then None else ts !! h) →
  held ps' ts' (World (delete q (views w)) (filter (λ p, p.1 ∉ the_tables v) (contents w))).
Proof.
  intros Hh Hv Hps Hts.
  assert (∀ k u i, k ≠ q → views w !! k = Some u → i ∈ the_producers u → i ∉ the_producers v) as Hd
    by (intros k u i Hk Hu Hi Hi'; apply Hk; by eapply held_disjoint).
  assert (∀ k u h, k ≠ q → views w !! k = Some u → h ∈ the_tables u → h ∉ the_tables v) as Hd'
    by (intros k u h Hk Hu Hi; eapply (tabled_disjoint ts k q); eauto using h_tabled).
  split; simpl.
  - intros k u [? Hu]%lookup_delete_Some. by eapply h_entries.
  - intros k u [? Hu]%lookup_delete_Some. eapply listed_frame; [by eapply h_listed|].
    intros i Hi. unfold next_of. rewrite Hps, decide_False; eauto.
  - intros k u i [? Hu]%lookup_delete_Some Hi. rewrite Hps, decide_False by eauto. by eapply h_owner.
  - intros i p. rewrite Hps. case_decide as Hi; [done|]. intros Hp.
    destruct (h_all _ _ _ Hh _ _ Hp) as (u & Hu & Hin). exists u. split; [|done].
    rewrite lookup_delete_ne; [done|]. intros Heq. rewrite <- Heq in Hu. by simplify_eq.
  - intros k u [? Hu]%lookup_delete_Some. eapply tabled_frame; [by eapply h_tabled|].
    intros h Hin. rewrite Hts, decide_False; eauto.
  - intros h. rewrite Hts. case_decide as Hi; [by intros [? ?]|]. intros Hs.
    destruct (h_table _ _ _ Hh _ Hs) as (k & u & Hu & Hin). exists k, u. split; [|done].
    rewrite lookup_delete_ne; [done|]. intros <-. by simplify_eq.
  - apply map_eq. intros h. rewrite map_lookup_filter, lookup_fmap, Hts, (h_contents _ _ _ Hh), lookup_fmap.
    destruct (ts !! h); simpl; repeat case_decide; simpl; repeat case_guard; done.
Qed.

Lemma destroy_moves m w w' q :
  repr m w → step (Destroy q) w = Some w' → ∃ m', destroy q m = Ok m' ∧ repr m' w'.
Proof.
  intros Hrep Hs. pose proof Hrep as [Hr Hh]. simpl in Hs.
  destruct (views w !! q) as [v|] eqn:Hv; [|done]. simplify_eq/=.
  unfold destroy. rewrite (the_object_ok m w _ _ Hrep Hv). cbn [mbind result_bind].
  pose proof (h_listed _ _ _ Hh _ _ Hv) as Hl. pose proof (h_tabled _ _ _ Hh _ _ Hv) as Ht.
  destruct (destroy_producers_leads (size (producers m)) (producerListTail (layout q v)) m (the_producers v))
    as (ps & -> & Hps); [by apply listed_size|by eapply listed_NoDup|done|].
  cbn [mbind result_bind]. rewrite (proj2 (Z.eqb_neq _ _)) by lia. cbn [negb].
  destruct (destroy_tables_leads (S (size (tables m))) (implicitProducerHash (layout q v)) (with_producers m ps) q v (the_tables v))
    as (ts & Hd & Hts); [pose proof (tabled_size _ _ _ Ht); lia|by eapply tabled_NoDup|simpl; by rewrite Hr, Hv|done|].
  cbn [tables with_producers]. rewrite Hd. eexists. split; [done|]. split; simpl.
  - intros k. rewrite !lookup_delete. case_decide; [done|apply Hr].
  - by eapply held_delete.
Qed.
End layouts.

Section claims.
Context `{HashSize}.

Lemma act_moves a m w w' :
  0 < INITIAL_IMPLICIT_PRODUCER_HASH_SIZE → repr m w → step a w = Some w' → ∃ m', act a m = Ok m' ∧ repr m' w'.
Proof.
  destruct a; eauto using construct_moves, move_construct_ok, swap_ok, add_producer_moves, grow_moves, use_moves, enter_moves,
    destroy_moves.
Qed.

Lemma acts_refine l m w w' :
  0 < INITIAL_IMPLICIT_PRODUCER_HASH_SIZE → repr m w → steps l w = Some w' → ∃ m', acts l m = Ok m' ∧ repr m' w'.
Proof.
  intros Hp. revert m w. induction l as [|a l IH]; intros m w Hr Hs; simplify_eq/=; [eauto|].
  destruct (step a w) as [w1|] eqn:Ha; [|done]. edestruct act_moves as (m1 & -> & Hr1); eauto.
Qed.

Definition no_memory : memory := Memory ∅ ∅ ∅.
Definition no_world : world := World ∅ ∅.

Lemma repr_none : repr no_memory no_world.
Proof. split; [done|]. split; simpl; try done. intros h [? [=]]. Qed.

(** C7: whatever sequence of constructions, moves, swaps (move assignment is a swap),
    additions of producers, growths of the hash, destructions and other calls that give the
    free list, the place in the initial pool, the ids and offset of the consumers, the
    count and the entries of the hash any values, a program makes, no pointer is followed to a queue, producer or table that is not there and every
    walk ends; the fields of each queue are those of the value it received, its producers
    are exactly the ones whose [parent] it is, its chain of tables ends with the table
    inside itself, the entries of the tables are as they were, and when all queues are
    destroyed no producer and no table remains. *)
Theorem moves_refine (l : list action) (w : world) :
  0 < INITIAL_IMPLICIT_PRODUCER_HASH_SIZE → steps l no_world = Some w →
  ∃ m, acts l no_memory = Ok m ∧
    (∀ q v, views w !! q = Some v →
       objects m !! q = Some (layout q v) ∧ listed (producers m) (the_producers v) ∧ tabled (tables m) q (the_tables v)) ∧
    (∀ q i, parent <$> producers m !! i = Some q ↔ ∃ v, views w !! q = Some v ∧ i ∈ the_producers v) ∧
    contents w = content <$> tables m ∧
    (views w = ∅ → m = no_memory).
Proof.
  intros Hp Hs. destruct (acts_refine l _ _ _ Hp repr_none Hs) as (m & Hm & Hr & Hh). exists m. split_and!; [done|..].
  - intros q v Hv. rewrite Hr, Hv. eauto using h_listed, h_tabled.
  - intros q i. split.
    + destruct (producers m !! i) as [p|] eqn:Hi; [|done]. intros [= <-]. by eapply h_all.
    + intros (v & Hv & Hi). by eapply h_owner.
  - by eapply h_contents.
  - intros Hw. destruct m as [os ps ts]; unfold no_memory; f_equal; apply map_empty; intros k; simpl in *.
    + by rewrite Hr, Hw, lookup_empty.
    + destruct (ps !! k) as [p|] eqn:Hk; [|done]. destruct (h_all _ _ _ Hh _ _ Hk) as (v & Hv & _).
      by rewrite Hw in Hv.
    + destruct (ts !! k) as [t|] eqn:Hk; [|done]. destruct (h_table _ _ _ Hh k) as (q & v & Hv & _); [eauto|].
      by rewrite Hw in Hv.
Qed.
End claims.

(** Queues 0 and 1 get producers, tables and fields of different values; 0 is moved to 2,
    2 and 1 are swapped, 2 is destroyed. *)
Definition moving : list action :=
  [Construct 0 (Some 50%nat) 8; AddProducer 0 5; Grow 0 7 4; Grow 0 8 8; AddProducer 0 6;
   Use 0 3 (Some 51%nat) 2 1 2 [Kvp 11 (Some 5%nat); Kvp 12 (Some 6%nat)]; Enter 7 (replicate 4 (Kvp 11 (Some 5%nat)));
   Construct 1 (Some 60%nat) 4; AddProducer 1 3; Use 1 4 (Some 61%nat) 7 9 1 [Kvp 0 None; Kvp 13 (Some 3%nat)];
   MoveConstruct 2 0; Swap 2 1; Swap 1 1; Destroy 2].

Example moving_producers :
  (λ w, the_producers <$> views w) <$> steps (H := 2) moving no_world = Some (<[0%nat := []]> {[1%nat := [6; 5]%nat]}).
Proof. vm_compute. reflexivity. Qed.

Lemma moves_refine_witness :
  ∃ w m, steps (H := 2) moving no_world = Some w ∧ acts (H := 2) moving no_memory = Ok m ∧
    parent <$> producers m !! 6%nat = Some 1%nat ∧ tabled (tables m) 1 [8; 7]%nat ∧
    (freeListHead <$> objects m !! 1%nat) = Some (Some 51%nat).
Proof.
  eexists. edestruct (moves_refine (H := 2) moving) as (m & Hm & Hq & Hi & _ & _).
  { done. } { vm_compute. reflexivity. }
  exists m. split; [vm_compute; reflexivity|]. split; [exact Hm|]. split.
  - apply Hi. eexists. split; [vm_compute; reflexivity|]. vm_compute. left.
  - edestruct (Hq 1%nat (View [6; 5]%nat 2 3 (Some 50%nat) 8 (Some 51%nat) 2 1 [8; 7]%nat 2
        [Kvp 11 (Some 5%nat); Kvp 12 (Some 6%nat)])) as (Ho & _ & Ht); [vm_compute; reflexivity|].
    split; [exact Ht|]. by rewrite Ho.
Defined.
End McMove.
