(* ===== verification/McDequeue.v ===== *)
(** * How consumers share a producer's elements

    concurrentqueue.h: the four counters of [ProducerBase] and the part of
    [dequeue] and [dequeue_bulk] that claims elements, which is the same code in
    [ExplicitProducer] and [ImplicitProducer].  Any number of consumers run next
    to the producer; a step is one access to one counter.  A load may return any
    value its counter has had.  A read-modify-write acts on the current value,
    and what a thread read before it is no newer: this is what the fences and
    the orders named in the source give. *)
From S2P Require Import Prelude McDetails McBlock.
Local Open Scope Z_scope.

Module McDequeue.
Import McDetails.

Inductive call := dequeue | dequeue_bulk (max : Z).

(** A counter with the values it had before. *)
Record counter := Counter { now : Z; past : list Z }.

Definition store (c : counter) (v : Z) : counter := Counter v (now c :: past c).
(** [fetch_add] *)
Definition add (c : counter) (n : Z) : counter := store c (u64 (now c + n)).
Definition visible (c : counter) (v : Z) : bool := bool_decide (v ∈ now c :: past c).

Record shared := Shared {
  tailIndex : counter;
  headIndex : counter;
  dequeueOptimisticCount : counter;
  dequeueOvercommit : counter
}.

Definition with_tail (s : shared) c :=
  Shared c (headIndex s) (dequeueOptimisticCount s) (dequeueOvercommit s).
Definition with_head (s : shared) c :=
  Shared (tailIndex s) c (dequeueOptimisticCount s) (dequeueOvercommit s).
Definition with_optimistic (s : shared) c :=
  Shared (tailIndex s) (headIndex s) c (dequeueOvercommit s).
Definition with_overcommit (s : shared) c :=
  Shared (tailIndex s) (headIndex s) (dequeueOptimisticCount s) c.

(** Where a consumer is: about to make the access the constructor names.
    [Returning first count]: it has claimed [count] elements from index [first]. *)
Inductive pc :=
  | LoadTail
  | LoadOvercommit (tail : Z)
  | LoadOptimistic (tail overcommit : Z)
  | AddOptimistic (overcommit desiredCount : Z)
  | ReloadTail (overcommit desiredCount myDequeueCount : Z)
  | AddOvercommit (excess : Z) (granted : option Z)
  | AddHead (actualCount : Z)
  | Returning (first count : Z).

(** How many elements to try for, from the values loaded; [None]: the queue
    looks empty. *)
Definition desired (c : call) (tail overcommit optimistic : Z) : option Z :=
  match c with
  | dequeue => if clt (u64 (optimistic - overcommit)) tail then Some 1 else None
  | dequeue_bulk max =>
      let desiredCount := u64 (tail - u64 (optimistic - overcommit)) in
      if clt 0 desiredCount then Some (if desiredCount <? max then desiredCount else max) else None
  end.

(** How many there are to take after all, [desiredCount] having been added to
    the optimistic count, which was [myDequeueCount]. *)
Definition actual (c : call) (desiredCount tail overcommit myDequeueCount : Z) : option Z :=
  match c with
  | dequeue => if clt (u64 (myDequeueCount - overcommit)) tail then Some 1 else None
  | dequeue_bulk _ =>
      let actualCount := u64 (tail - u64 (myDequeueCount - overcommit)) in
      if clt 0 actualCount
      then Some (if desiredCount <? actualCount then desiredCount else actualCount) else None
  end.

(** What follows: an excess goes to the overcommit counter first. *)
Definition decide_pc (desiredCount : Z) (granted : option Z) : pc :=
  match granted with
  | Some actualCount =>
      if actualCount <? desiredCount then AddOvercommit (desiredCount - actualCount) granted
      else AddHead actualCount
  | None => AddOvercommit desiredCount None
  end.

(** What the environment answers: a read-modify-write takes place, or a load
    returns a value. *)
Inductive answer := Go | Seen (v : Z).

Definition advance (s : shared) (c : call) (p : pc) (a : answer) : option (shared * pc) :=
  match p, a with
  | LoadTail, Seen tail =>
      if visible (tailIndex s) tail then Some (s, LoadOvercommit tail) else None
  | LoadOvercommit tail, Seen overcommit =>
      if visible (dequeueOvercommit s) overcommit
      then Some (s, LoadOptimistic tail overcommit) else None
  | LoadOptimistic tail overcommit, Seen optimistic =>
      if visible (dequeueOptimisticCount s) optimistic
      then Some (s, match desired c tail overcommit optimistic with
                    | Some desiredCount => AddOptimistic overcommit desiredCount
                    | None => Returning 0 0
                    end)
      else None
  | AddOptimistic overcommit desiredCount, Go =>
      let myDequeueCount := now (dequeueOptimisticCount s) in
      Some (with_optimistic s (add (dequeueOptimisticCount s) desiredCount),
            ReloadTail overcommit desiredCount myDequeueCount)
  | ReloadTail overcommit desiredCount myDequeueCount, Seen tail =>
      if visible (tailIndex s) tail
      then Some (s, decide_pc desiredCount (actual c desiredCount tail overcommit myDequeueCount))
      else None
  | AddOvercommit excess granted, Go =>
      Some (with_overcommit s (add (dequeueOvercommit s) excess),
            match granted with Some actualCount => AddHead actualCount | None => Returning 0 0 end)
  | AddHead actualCount, Go =>
      let index := now (headIndex s) in
      Some (with_head s (add (headIndex s) actualCount), Returning index actualCount)
  | _, _ => None
  end.

(** A producer's counters and its consumers; [claims] lists what was claimed,
    in the order of the additions to [headIndex]. *)
Record sub_queue := SubQueue {
  sh : shared;
  threads : list (option (call * pc));
  claims : list (nat * (Z * Z))
}.

Inductive label :=
  | Publish (n : nat)                (* the producer has filled [n] more slots *)
  | Begin (i : nat) (c : call)
  | Act (i : nat) (a : answer).

Definition claim_of (i : nat) (p : pc) : list (nat * (Z * Z)) :=
  match p with Returning first count => if 0 <? count then [(i, (first, count))] else [] | _ => [] end.

Definition step (s : sub_queue) (l : label) : option sub_queue :=
  match l with
  | Publish n =>
      let c := tailIndex (sh s) in
      Some (SubQueue (with_tail (sh s) (store c (u64 (now c + n)))) (threads s) (claims s))
  | Begin i c =>
      match threads s !! i with
      | Some None =>
          Some (SubQueue (sh s) (<[i := Some (c, LoadTail)]> (threads s)) (claims s))
      | _ => None
      end
  | Act i a =>
      match threads s !! i with
      | Some (Some (_, Returning _ _)) =>
          Some (SubQueue (sh s) (<[i := None]> (threads s)) (claims s))
      | Some (Some (c, p)) =>
          '(sh', p') ← advance (sh s) c p a;
          Some (SubQueue sh' (<[i := Some (c, p')]> (threads s)) (claims s ++ claim_of i p'))
      | _ => None
      end
  end.

Fixpoint run (s : sub_queue) (ls : list label) : option sub_queue :=
  match ls with [] => Some s | l :: ls => s' ← step s l; run s' ls end.

(** A producer with no call in progress, whose consumers know its counters. *)
Definition quiescent (t h v : Z) (n : nat) : sub_queue :=
  SubQueue (Shared (Counter (u64 t) []) (Counter (u64 h) []) (Counter (u64 (v + h)) []) (Counter (u64 v) []))
           (replicate n None) [].

Definition limit (c : call) : Z := match c with dequeue => 1 | dequeue_bulk max => max end.

(** What a step adds to the counters, now or later, at most. *)
Definition asked (l : label) : Z :=
  match l with Publish n => n | Begin _ c => limit c | Act _ _ => 0 end.
Definition label_ok (l : label) : Prop := 0 <= asked l.

#[export] Instance label_ok_dec l : Decision (label_ok l).
Proof. unfold label_ok. apply _. Defined.

(** ** What holds in every state *)

(** An addition to [dequeueOptimisticCount]: who made it, unless the call has
    ended; the overcommit it had read; by how much; and how much of that was given
    to the overcommit counter, was found to be there, and was added to the head. *)
Record ticket := Ticket {
  owner : option nat; over : Z; width : Z; released : Z; passed : Z; claimed : Z
}.
Definition kept (k : ticket) : Z := width k - released k.
Definition claims_of : list (nat * (Z * Z)) → Z := zsum (λ e, e.2.2).

Fixpoint tiled (h : Z) (l : list (nat * (Z * Z))) : Prop :=
  match l with
  | [] => True
  | (_, (first, count)) :: l => first = u64 h ∧ 0 < count ∧ tiled (h + count) l
  end.

(** [v] is what a counter held that went up from [lo] to [x]. *)
Definition seen (lo x v : Z) : Prop := ∃ y, v = u64 y ∧ lo <= y <= x.
Record counts (c : counter) (lo x : Z) : Prop := {
  co_now : now c = u64 x;
  co_visible v : v ∈ now c :: past c → seen lo x v
}.

Section invariant.
Variables (t0 h0 o0 v0 : Z).

(** The ticket with the tickets before it, when the tail is [t]: what those kept
    and what this one found there lies between the head and the tail. *)
Record ticket_ok (t : Z) (before : list ticket) (k : ticket) : Prop := {
  ti_released : 0 <= released k;
  ti_claimed : 0 <= claimed k <= passed k;
  ti_passed : passed k <= kept k;
  ti_over : v0 <= over k <= v0 + zsum released before;
  ti_bound : 0 < passed k → zsum kept before + passed k <= t - h0;
  ti_closed : owner k = None → claimed k = passed k ∧ passed k = kept k
}.

Definition tickets_ok (t : Z) (ts : list ticket) : Prop :=
  ∀ n k, ts !! n = Some k → ticket_ok t (take n ts) k.

(** Before its ticket a call has its whole limit still to ask for. *)
Definition owed (th : option (call * pc)) : Z :=
  match th with
  | Some (c, (LoadTail | LoadOvercommit _ | LoadOptimistic _ _ | AddOptimistic _ _)) => limit c
  | _ => 0
  end.
Definition has_ticket (p : pc) : Prop :=
  match p with ReloadTail _ _ _ | AddOvercommit _ _ | AddHead _ => True | _ => False end.

Definition pc_ok (ts : list ticket) (i : nat) (c : call) (p : pc) : Prop :=
  match p with
  | LoadTail | LoadOvercommit _ => 0 <= limit c
  | LoadOptimistic _ overcommit => 0 <= limit c ∧ seen v0 (v0 + zsum released ts) overcommit
  | AddOptimistic overcommit d =>
      0 <= d <= limit c ∧ (c = dequeue → d = 1) ∧ seen v0 (v0 + zsum released ts) overcommit
  | ReloadTail overcommit d my => ∃ n x, ts !! n = Some (Ticket (Some i) x d 0 0 0) ∧
      0 <= d ∧ (c = dequeue → d = 1) ∧
      overcommit = u64 x ∧ my = u64 (o0 + zsum width (take n ts))
  | AddOvercommit excess granted => ∃ n x, ts !! n =
      Some (Ticket (Some i) x (excess + default 0 granted) 0 (default 0 granted) 0) ∧ 0 <= excess
  | AddHead a => ∃ n x r, ts !! n = Some (Ticket (Some i) x (a + r) r a 0)
  | Returning _ _ => True
  end.

Record inv (budget : Z) (ts : list ticket) (t : Z) (s : sub_queue) : Prop := {
  inv_tail : counts (tailIndex (sh s)) t0 t;
  inv_head : now (headIndex (sh s)) = u64 (h0 + claims_of (claims s));
  inv_optimistic : counts (dequeueOptimisticCount (sh s)) o0 (o0 + zsum width ts);
  inv_overcommit : counts (dequeueOvercommit (sh s)) v0 (v0 + zsum released ts);
  inv_tickets : tickets_ok t ts;
  inv_threads i c p : threads s !! i = Some (Some (c, p)) → pc_ok ts i c p;
  inv_owners n k i : ts !! n = Some k → owner k = Some i →
    ∃ c p, threads s !! i = Some (Some (c, p)) ∧ has_ticket p;
  inv_one n n' k k' i : ts !! n = Some k → ts !! n' = Some k' →
    owner k = Some i → owner k' = Some i → n = n';
  inv_budget : t - t0 + zsum width ts + zsum owed (threads s) <= budget;
  inv_claims : tiled h0 (claims s) ∧ claims_of (claims s) = zsum claimed ts
}.

(** ** Tickets *)

Lemma tickets_forall t ts (P : ticket → Prop) :
  (∀ before k, ticket_ok t before k → P k) → tickets_ok t ts → ∀ n, Forall P (take n ts).
Proof.
  intros HP H n. apply Forall_take, Forall_lookup. intros m k Hk. by eapply HP, H.
Qed.

Lemma tickets_released t ts n : tickets_ok t ts → 0 <= zsum released (take n ts).
Proof. intros H. apply zsum_nonneg. eapply tickets_forall; [|done]. by intros ? k []. Qed.

Lemma tickets_claimed_kept t ts n :
  tickets_ok t ts → 0 <= zsum claimed (take n ts) <= zsum kept (take n ts).
Proof.
  intros H. split.
  - apply zsum_nonneg. eapply tickets_forall; [|done]. intros ? k []. lia.
  - apply zsum_le. eapply tickets_forall; [|done]. intros ? k []. lia.
Qed.

Lemma kept_sum ts : zsum kept ts = zsum width ts - zsum released ts.
Proof. apply zsum_sub. Qed.

(** Nobody claims beyond the tail: it is enough to look at the last ticket that
    found something. *)
Lemma claimed_bound t ts :
  h0 <= t → tickets_ok t ts → zsum claimed ts <= t - h0.
Proof.
  intros Ht H. rewrite <- (take_ge ts (length ts)) by lia. generalize (length ts) as n.
  induction n as [|n IH]; [simpl; lia|].
  destruct (ts !! n) as [k|] eqn:Hk.
  - rewrite (take_S_r ts n k Hk), zsum_app. simpl.
    pose proof (H n k Hk) as [_ Hc _ _ Hb _]. pose proof (tickets_claimed_kept t ts n H).
    destruct (decide (0 < passed k)); [specialize (Hb ltac:(lia))|]; lia.
  - rewrite take_ge by (apply lookup_ge_None in Hk; lia).
    rewrite <- (take_ge ts n) by (apply lookup_ge_None in Hk; lia). done.
Qed.

Lemma ticket_mono t t' before before' k :
  ticket_ok t before k → t <= t' → zsum released before <= zsum released before' →
  zsum kept before' <= zsum kept before → ticket_ok t' before' k.
Proof. intros [] ???. constructor; try done; [lia|]. intros. specialize (ti_bound0 ltac:(done)). lia. Qed.

(** A ticket moves on. *)
Lemma tickets_update t ts n k k' :
  tickets_ok t ts → ts !! n = Some k → width k' = width k → released k <= released k' →
  ticket_ok t (take n ts) k' → tickets_ok t (<[n := k']> ts).
Proof.
  intros H Hk Hw Hr Hk' m x Hx.
  assert (Hsum : zsum released (take m ts) <= zsum released (take m (<[n:=k']> ts)) ∧
                 zsum kept (take m (<[n:=k']> ts)) <= zsum kept (take m ts)).
  { rewrite !(zsum_take_insert _ _ _ _ _ _ Hk). unfold kept. case_decide; lia. }
  destruct (decide (m = n)) as [->|Hne].
  - rewrite list_lookup_insert_eq in Hx by (by eapply lookup_lt_Some). simplify_eq.
    eapply ticket_mono; [done|lia|lia|lia].
  - rewrite list_lookup_insert_ne in Hx by done. eapply ticket_mono; [by apply H|lia|lia|lia].
Qed.

(** A new ticket. *)
Lemma tickets_snoc t ts i c w :
  tickets_ok t ts → 0 <= w → v0 <= c <= v0 + zsum released ts →
  tickets_ok t (ts ++ [Ticket (Some i) c w 0 0 0]).
Proof.
  intros H Hw Hc n k Hk. apply lookup_app_Some in Hk as [Hk|[Hn Hk]].
  - rewrite take_app_le by (apply lookup_lt_Some in Hk; lia). by apply H.
  - apply list_lookup_singleton_Some in Hk as [Hn' <-].
    rewrite take_app_le, take_ge by lia. constructor; unfold kept; simpl; try done; lia.
Qed.

Lemma tickets_tail t t' ts : tickets_ok t ts → t <= t' → tickets_ok t' ts.
Proof. intros H Ht n k Hk. eapply ticket_mono; [by apply H|lia..]. Qed.

(** ** Arithmetic *)

Lemma desired_ok c tail overcommit optimistic d :
  0 <= limit c → desired c tail overcommit optimistic = Some d →
  0 <= d <= limit c ∧ (c = dequeue → d = 1).
Proof.
  intros Hl. destruct c as [|max]; simpl in *; [case_match; intros; simplify_eq; done|].
  pose proof (wrap_fits 64 (tail - u64 (optimistic - overcommit)) ltac:(done)) as [? ?].
  case_match; [|done]. intros; simplify_eq. split; [|done].
  destruct (Z.ltb_spec (u64 (tail - u64 (optimistic - overcommit))) max); lia.
Qed.

Lemma actual_spec c d t m x :
  (c = dequeue → d = 1) → - 2 ^ 63 < t - (m - x) < 2 ^ 63 →
  actual c d (u64 t) (u64 x) (u64 m) =
  if 0 <? t - (m - x) then Some (Z.min d (t - (m - x))) else None.
Proof.
  intros Hd Hr. destruct c as [|max]; unfold actual; cbv zeta;
    rewrite (wrap_sub_l 64 m), (wrap_sub_r 64 m x).
  - rewrite clt_spec by lia. rewrite Hd by done.
    destruct (Z.ltb_spec (m - x) t), (Z.ltb_spec 0 (t - (m - x))); try lia; [f_equal; lia|done].
  - rewrite wrap_sub_l, wrap_sub_r, clt_0 by lia. destruct (Z.ltb_spec 0 (t - (m - x))); [|done].
    rewrite (wrap_small 64 (t - (m - x))) by (unfold fits; lia). f_equal.
    destruct (Z.ltb_spec d (t - (m - x))); lia.
Qed.

Lemma seen_mono lo x x' v : x <= x' → seen lo x v → seen lo x' v.
Proof. intros ? (y & -> & ?). exists y. split; [done|lia]. Qed.

Lemma counts_visible c lo x v : counts c lo x → visible c v = true → seen lo x v.
Proof. intros [_ H] Hv%bool_decide_eq_true. by apply H. Qed.

Lemma counts_add c lo x n :
  counts c lo x → lo <= x → 0 <= n → counts (store c (u64 (now c + n))) lo (x + n).
Proof.
  intros [Hn Hv] Hx Hnn. constructor; simpl.
  - by rewrite Hn, wrap_add_l.
  - intros v [->|H]%elem_of_cons.
    + rewrite Hn, wrap_add_l. exists (x + n). split; [done|lia].
    + by eapply seen_mono, Hv; [lia|].
Qed.

(** ** Steps *)

Lemma width_insert ts n k k' m :
  ts !! n = Some k → width k' = width k →
  zsum width (take m (<[n := k']> ts)) = zsum width (take m ts).
Proof. intros Hk Hw. rewrite (zsum_take_insert _ _ _ _ _ _ Hk). case_decide; lia. Qed.

Lemma pc_ok_insert ts n k k' i j c p :
  ts !! n = Some k → owner k = Some i → i ≠ j → width k' = width k →
  released k <= released k' → pc_ok ts j c p → pc_ok (<[n := k']> ts) j c p.
Proof.
  intros Hk Ho Hij Hw Hr.
  assert (Hother : ∀ m x, ts !! m = Some x → owner x = Some j → <[n:=k']> ts !! m = Some x).
  { intros m x Hx Hox. rewrite list_lookup_insert_ne; [done|]. intros ->. congruence. }
  assert (Hrel : zsum released ts <= zsum released (<[n:=k']> ts)).
  { rewrite (zsum_insert _ _ _ _ _ Hk). lia. }
  destruct p; simpl; try done.
  - intros [? ?]. split; [done|]. eapply seen_mono; [|done]. lia.
  - intros (? & ? & ?). split_and!; [tauto..|]. eapply seen_mono; [|done]. lia.
  - intros (m & x & Hx & ? & ? & ? & ?). exists m, x. split_and!; try done.
    + by apply Hother.
    + by rewrite (width_insert _ _ _ _ _ Hk).
  - intros (m & x & Hx & ?). exists m, x. split; [by apply Hother|done].
  - intros (m & x & r & Hx). exists m, x, r. by apply Hother.
Qed.

Lemma pc_ok_snoc ts k j c p : 0 <= released k → pc_ok ts j c p → pc_ok (ts ++ [k]) j c p.
Proof.
  intros Hr.
  assert (Hl : ∀ m x, ts !! m = Some x → (ts ++ [k]) !! m = Some x) by
    (intros; by apply lookup_app_l_Some).
  assert (Hrel : zsum released ts <= zsum released (ts ++ [k])) by (rewrite zsum_app; simpl; lia).
  destruct p; simpl; try done.
  - intros [? ?]. split; [done|]. eapply seen_mono; [|done]. lia.
  - intros (? & ? & ?). split_and!; [tauto..|]. eapply seen_mono; [|done]. lia.
  - intros (m & x & Hx & ? & ? & ? & ?). exists m, x. split_and!; try done; [by apply Hl|].
    by rewrite take_app_le by (apply lookup_lt_Some in Hx; lia).
  - intros (m & x & Hx & ?). exists m, x. split; [by apply Hl|done].
  - intros (m & x & r & Hx). exists m, x, r. by apply Hl.
Qed.

Context (budget t : Z) (ts : list ticket) (s : sub_queue) (I : inv budget ts t s).

(** A step that changes no counter and no ticket. *)
Lemma inv_move i th th' :
  threads s !! i = Some th → owed th' <= owed th →
  (∀ c p, th' = Some (c, p) → pc_ok ts i c p) →
  (∀ c p, th = Some (c, p) → has_ticket p → False) →
  inv budget ts t (SubQueue (sh s) (<[i := th']> (threads s)) (claims s)).
Proof.
  intros Hi Howed Hpc Hno. destruct I as [It Ih Io Iv Ik Ip Iw Iu Ib Ic].
  constructor; simpl; try done.
  - intros j c p [(-> & ? & ?)|[? Hj]]%list_lookup_insert_Some; [by apply Hpc|by apply Ip].
  - intros n k j Hk Ho. destruct (Iw n k j Hk Ho) as (c & p & Hj & Hp).
    destruct (decide (i = j)) as [->|Hne]; [|exists c, p; by rewrite list_lookup_insert_ne].
    exfalso. rewrite Hi in Hj. simplify_eq. by eapply Hno.
  - rewrite (zsum_insert _ _ _ _ _ Hi). lia.
Qed.

(** A step of thread [i] that changes its ticket. *)
Lemma inv_update i c p p' n k k' sh' cl :
  threads s !! i = Some (Some (c, p)) → owed (Some (c, p)) = 0 →
  ts !! n = Some k → owner k = Some i →
  width k' = width k → released k <= released k' → ticket_ok t (take n ts) k' →
  owner k' = Some i ∧ has_ticket p' ∨ owner k' = None → owed (Some (c, p')) = 0 →
  pc_ok (<[n := k']> ts) i c p' →
  tailIndex sh' = tailIndex (sh s) → dequeueOptimisticCount sh' = dequeueOptimisticCount (sh s) →
  counts (dequeueOvercommit sh') v0 (v0 + zsum released (<[n := k']> ts)) →
  now (headIndex sh') = u64 (h0 + claims_of cl) →
  tiled h0 cl ∧ claims_of cl = zsum claimed (<[n := k']> ts) →
  inv budget (<[n := k']> ts) t (SubQueue sh' (<[i := Some (c, p')]> (threads s)) cl).
Proof.
  intros Hi Hd Hk Ho Hw Hr Hk' Hown Hd' Hpc Htail Hopt Hover Hhead Hcl.
  destruct I as [It Ih Io Iv Ik Ip Iw Iu Ib Ic].
  assert (Hlen : (n < length ts)%nat) by (by eapply lookup_lt_Some).
  assert (Hwid : zsum width (<[n:=k']> ts) = zsum width ts)
    by (rewrite (zsum_insert _ _ _ _ _ Hk); lia).
  assert (Hold : ∀ m x j, <[n:=k']> ts !! m = Some x → owner x = Some j →
            ∃ y, ts !! m = Some y ∧ owner y = Some j ∧ (m = n → j = i)).
  { intros m x j [(<- & <- & ?)|[? Hx]]%list_lookup_insert_Some Hox.
    - destruct Hown as [[Hown _]|Hown]; rewrite Hox in Hown; simplify_eq. eauto.
    - exists x. split_and!; [done..|]. by intros ->. }
  constructor; simpl; try done.
  - by rewrite Htail.
  - by rewrite Hopt, Hwid.
  - by eapply tickets_update.
  - intros j d q [(-> & ? & ?)|[Hne Hj]]%list_lookup_insert_Some; [by simplify_eq|].
    eapply pc_ok_insert; try done. by apply Ip.
  - intros m x j Hx Hox. destruct (Hold m x j Hx Hox) as (y & Hy & Hoy & Hmi).
    destruct (Iw m y j Hy Hoy) as (d & q & Hj & Hq).
    destruct (decide (i = j)) as [->|Hne]; [|exists d, q; by rewrite list_lookup_insert_ne].
    exists c, p'. rewrite list_lookup_insert_eq by (by eapply lookup_lt_Some). split; [done|].
    assert (m = n) as -> by (by eapply Iu). rewrite list_lookup_insert_eq in Hx by done.
    simplify_eq. destruct Hown as [[_ ?]|?]; [done|congruence].
  - intros m m' x x' j Hx Hx' Hox Hox'.
    destruct (Hold m x j Hx Hox) as (? & ? & ? & _), (Hold m' x' j Hx' Hox') as (? & ? & ? & _).
    by eapply Iu.
  - rewrite Hwid, (zsum_insert _ _ _ _ _ Hi), Hd, Hd'. lia.
Qed.

Lemma inv_publish (n : nat) :
  t0 <= t → inv (budget + n) ts (t + n)
    (SubQueue (with_tail (sh s) (store (tailIndex (sh s)) (u64 (now (tailIndex (sh s)) + n))))
       (threads s) (claims s)).
Proof.
  intros Ht. destruct I as [It Ih Io Iv Ik Ip Iw Iu Ib Ic]. constructor; simpl; try done.
  - by apply counts_add; [| |lia].
  - eapply tickets_tail; [done|lia].
  - lia.
Qed.

Lemma claims_of_app l l' : claims_of (l ++ l') = claims_of l + claims_of l'.
Proof. apply zsum_app. Qed.

Lemma tiled_app h l l' : tiled h l → tiled (h + claims_of l) l' → tiled h (l ++ l').
Proof.
  revert h. induction l as [|[i [first count]] l IH]; intros h; simpl.
  - by rewrite Z.add_0_r.
  - intros (? & ? & ?) ?. split_and!; [done..|]. apply IH; [done|].
    unfold claims_of in *. simpl in *. by rewrite <- Z.add_assoc.
Qed.

(** A new claim at the head keeps the claims in order. *)
Lemma claim_tiled i a cl :
  0 <= a → tiled h0 cl →
  tiled h0 (cl ++ claim_of i (Returning (u64 (h0 + claims_of cl)) a)) ∧
  claims_of (cl ++ claim_of i (Returning (u64 (h0 + claims_of cl)) a)) = claims_of cl + a.
Proof.
  intros Ha Hcl. simpl. destruct (Z.ltb_spec 0 a).
  - rewrite claims_of_app. split; [|unfold claims_of; simpl; lia]. by apply tiled_app.
  - rewrite app_nil_r. split; [done|lia].
Qed.

Hypothesis Hstart : t0 - h0 + budget < 2 ^ 62.
Hypothesis Hbase : h0 <= t0 ∧ o0 - v0 = h0 ∧ t0 <= t.

Lemma take_ticket i c overcommit d :
  threads s !! i = Some (Some (c, AddOptimistic overcommit d)) →
  let my := now (dequeueOptimisticCount (sh s)) in
  ∃ ts', inv budget ts' t
    (SubQueue (with_optimistic (sh s) (add (dequeueOptimisticCount (sh s)) d))
       (<[i := Some (c, ReloadTail overcommit d my)]> (threads s)) (claims s)).
Proof.
  intros Hi. cbv zeta. destruct I as [It Ih Io Iv Ik Ip Iw Iu Ib Ic].
  pose proof (Ip i c _ Hi) as (Hd & Hc1 & x & -> & Hx). simpl in Hd.
  set (k := Ticket (Some i) x d 0 0 0).
  assert (Hnone : ∀ n y, ts !! n = Some y → owner y ≠ Some i).
  { intros n y Hy Hoy. destruct (Iw n y i Hy Hoy) as (? & ? & ? & Hp). by simplify_eq. }
  pose proof (zsum_nonneg width ts) as Hwid. exists (ts ++ [k]).
  constructor; simpl; try done.
  - rewrite zsum_app. simpl. rewrite Z.add_0_r, Z.add_assoc. apply counts_add; [done| |lia].
    apply Z.le_sub_le_add_l. rewrite Z.sub_diag. apply Hwid, Forall_lookup. intros n y Hy.
    pose proof (Ik n y Hy) as [? ? ? _ _ _]. unfold kept in *. lia.
  - rewrite zsum_app. simpl. by rewrite !Z.add_0_r.
  - apply tickets_snoc; [done|lia|done].
  - intros j e q [(<- & ? & ?)|[Hne Hj]]%list_lookup_insert_Some.
    + simplify_eq. simpl. exists (length ts), x. rewrite lookup_app_r, Nat.sub_diag by lia.
      rewrite take_app_le, take_ge by lia. split_and!; try done; [lia|apply Io].
    + apply pc_ok_snoc; [done|]. by apply Ip.
  - intros n y j [Hy|[Hn Hy]]%lookup_app_Some Hoy.
    + destruct (Iw n y j Hy Hoy) as (e & q & Hj & Hq). exists e, q. split; [|done].
      rewrite list_lookup_insert_ne; [done|]. intros ->. by eapply Hnone.
    + apply list_lookup_singleton_Some in Hy as [_ <-]. simpl in Hoy. simplify_eq.
      do 2 eexists. rewrite list_lookup_insert_eq by (by eapply lookup_lt_Some). done.
  - intros n n' y y' j [Hy|[Hn Hy]]%lookup_app_Some [Hy'|[Hn' Hy']]%lookup_app_Some Hoy Hoy';
      [by eapply Iu| | |];
      repeat match goal with H : [_] !! _ = Some _ |- _ =>
        apply list_lookup_singleton_Some in H as [? <-] end; simpl in *; simplify_eq;
      [exfalso; by eapply Hnone|exfalso; by eapply Hnone|lia].
  - rewrite zsum_app, (zsum_insert _ _ _ _ _ Hi). simpl. lia.
  - rewrite zsum_app. simpl. by rewrite !Z.add_0_r.
Qed.

Lemma decide_pc_cases d g :
  let a := if 0 <? g then Z.min d g else 0 in
  let q := decide_pc d (if 0 <? g then Some (Z.min d g) else None) in
  (∃ o, q = AddOvercommit (d - a) o ∧ default 0 o = a) ∨ q = AddHead a ∧ a = d.
Proof.
  cbv zeta. destruct (Z.ltb_spec 0 g); simpl.
  - destruct (Z.ltb_spec (d `min` g) d); [left; eauto|right; split; [done|lia]].
  - left. exists None. by rewrite Z.sub_0_r.
Qed.

(** The tail is looked at again; what was found lies below it. *)
Lemma decide_ticket i c overcommit d my tail :
  threads s !! i = Some (Some (c, ReloadTail overcommit d my)) →
  visible (tailIndex (sh s)) tail = true →
  ∃ ts', inv budget ts' t
    (SubQueue (sh s) (<[i := Some (c, decide_pc d (actual c d tail overcommit my))]> (threads s))
       (claims s)).
Proof.
  intros Hi Hv. destruct (inv_threads _ _ _ _ I i c _ Hi) as (n & x & Hk & Hd & Hc & -> & ->).
  destruct (counts_visible _ _ _ _ (inv_tail _ _ _ _ I) Hv) as (y & -> & Hy).
  pose proof (inv_tickets _ _ _ _ I) as HT. pose proof (HT n _ Hk) as [_ _ _ Hov _ _]. simpl in Hov.
  pose proof (tickets_claimed_kept t ts n HT) as Hkept. rewrite kept_sum in Hkept.
  pose proof (tickets_released t ts n HT) as Hrel.
  assert (Hw : zsum width (take n ts) <= zsum width ts).
  { rewrite <- (take_drop n ts) at 2. rewrite zsum_app. apply Z.le_sub_le_add_l.
    rewrite Z.sub_diag. apply zsum_nonneg, Forall_drop, Forall_lookup. intros m k Hkm.
    pose proof (HT m k Hkm) as [? ? ? _ _ _]. unfold kept in *. lia. }
  pose proof (inv_budget _ _ _ _ I) as Hb.
  assert (0 <= zsum owed (threads s)).
  { apply zsum_nonneg, Forall_lookup. intros j [[e q]|] Hj; [|done].
    pose proof (inv_threads _ _ _ _ I j e q Hj) as Hp. destruct q; simpl in *; lia. }
  rewrite actual_spec by (try done; lia).
  set (g := y - (o0 + zsum width (take n ts) - x)).
  set (a := if 0 <? g then Z.min d g else 0).
  set (k' := Ticket (Some i) x d 0 a 0).
  assert (Ha : 0 <= a <= d ∧ (0 < a → a <= g)) by (unfold a; destruct (Z.ltb_spec 0 g); lia).
  assert (Hn : (n < length ts)%nat) by (by eapply lookup_lt_Some).
  pose proof (decide_pc_cases d g) as Hq. cbv zeta in Hq. fold a in Hq.
  set (q := decide_pc d _) in *. clearbody q.
  exists (<[n := k']> ts). eapply (inv_update i c _ _ n _ k'); try done.
  - constructor; unfold kept; simpl; try lia; try done. intros Hp. rewrite kept_sum. lia.
  - left. by destruct Hq as [(o & -> & _)|[-> _]].
  - by destruct Hq as [(o & -> & _)|[-> _]].
  - destruct Hq as [(o & -> & Ho)|[-> Had]]; simpl.
    + exists n, x. rewrite Ho, list_lookup_insert_eq by done.
      split; [|lia]. unfold k'. do 2 f_equal; lia.
    + exists n, x, 0. rewrite list_lookup_insert_eq by done. unfold k'. do 2 f_equal. lia.
  - rewrite (zsum_insert _ _ _ _ _ Hk), Z.sub_0_r, Z.add_0_r. apply I.
  - apply I.
  - rewrite (zsum_insert _ _ _ _ _ Hk), Z.sub_0_r, Z.add_0_r. apply I.
Qed.

(** What was asked for too much is given back. *)
Lemma release_ticket i c excess granted :
  threads s !! i = Some (Some (c, AddOvercommit excess granted)) →
  ∃ ts', inv budget ts' t
    (SubQueue (with_overcommit (sh s) (add (dequeueOvercommit (sh s)) excess))
       (<[i := Some (c, match granted with Some a => AddHead a | None => Returning 0 0 end)]> (threads s))
       (claims s)).
Proof.
  intros Hi. destruct (inv_threads _ _ _ _ I i c _ Hi) as (n & x & Hk & He).
  pose proof (inv_tickets _ _ _ _ I n _ Hk) as [_ Hc Hp Hov Hb _]. unfold kept in *. simpl in *.
  assert (Hn : (n < length ts)%nat) by (by eapply lookup_lt_Some).
  pose proof (tickets_released t ts (length ts) (inv_tickets _ _ _ _ I)) as Hrel.
  rewrite take_ge in Hrel by lia.
  set (a := default 0 granted) in *.
  set (k' := Ticket (match granted with Some _ => Some i | None => None end) x (excess + a) excess a 0).
  assert (Ha : granted = None → a = 0) by (unfold a; by intros ->).
  exists (<[n := k']> ts). eapply (inv_update i c _ _ n _ k'); try done.
  - constructor; unfold kept; simpl; try lia.
    destruct granted; [done|]. intros _. rewrite Ha by done. lia.
  - unfold k'. destruct granted; [by left|by right].
  - by destruct granted.
  - destruct granted as [a'|]; simpl; [|done]. exists n, x, excess.
    rewrite list_lookup_insert_eq by done. unfold k'. do 2 f_equal; unfold a; simpl; lia.
  - rewrite (zsum_insert _ _ _ _ _ Hk). simpl. rewrite Z.sub_0_r, Z.add_assoc.
    apply counts_add; [apply I|lia|done].
  - apply I.
  - rewrite (zsum_insert _ _ _ _ _ Hk), Z.sub_0_r, Z.add_0_r. apply I.
Qed.

(** The elements are claimed. *)
Lemma claim_ticket i c a :
  threads s !! i = Some (Some (c, AddHead a)) →
  let index := now (headIndex (sh s)) in
  ∃ ts', inv budget ts' t
    (SubQueue (with_head (sh s) (add (headIndex (sh s)) a))
       (<[i := Some (c, Returning index a)]> (threads s))
       (claims s ++ claim_of i (Returning index a))).
Proof.
  intros Hi. cbv zeta. destruct (inv_threads _ _ _ _ I i c _ Hi) as (n & x & r & Hk).
  pose proof (inv_tickets _ _ _ _ I n _ Hk) as [Hr Hc Hp Hov Hb _]. unfold kept in *. simpl in *.
  assert (Hn : (n < length ts)%nat) by (by eapply lookup_lt_Some).
  set (k' := Ticket None x (a + r) r a a).
  rewrite (inv_head _ _ _ _ I).
  destruct (claim_tiled i a (claims s) ltac:(lia) (proj1 (inv_claims _ _ _ _ I))) as [Htile Hsum].
  exists (<[n := k']> ts). eapply (inv_update i c _ _ n _ k'); try done.
  - constructor; unfold kept; simpl; try done; try lia.
  - by right.
  - rewrite (zsum_insert _ _ _ _ _ Hk). unfold k'. cbn [released]. rewrite Z.sub_add. apply I.
  - simpl in Hsum |- *. rewrite Hsum, (inv_head _ _ _ _ I), wrap_add_l. f_equal. lia.
  - split; [done|]. simpl in Hsum |- *. rewrite Hsum, (zsum_insert _ _ _ _ _ Hk). simpl.
    rewrite (proj2 (inv_claims _ _ _ _ I)). lia.
Qed.

Lemma advance_inv i c p a sh' p' :
  threads s !! i = Some (Some (c, p)) → advance (sh s) c p a = Some (sh', p') →
  ∃ ts', inv budget ts' t
    (SubQueue sh' (<[i := Some (c, p')]> (threads s)) (claims s ++ claim_of i p')).
Proof.
  intros Hi Ha. pose proof (inv_threads _ _ _ _ I i c p Hi) as Hp.
  destruct p, a; simpl in Ha; try discriminate.
  1-3: case_match eqn:Hv; [|done]; injection Ha as <- <-; exists ts.
  - rewrite app_nil_r. apply inv_move with (Some (c, LoadTail)); [done|done| |].
    + by intros ?? [= <- <-].
    + by intros ?? [= <- <-].
  - rewrite app_nil_r. apply inv_move with (Some (c, LoadOvercommit tail)); [done|done| |].
    + intros ?? [= <- <-]. split; [done|].
      eapply counts_visible; [apply I|done].
    + by intros ?? [= <- <-].
  - destruct Hp as [Hl Hs]. destruct (desired _ _ _ _) as [d|] eqn:Hd; simpl; rewrite app_nil_r.
    + destruct (desired_ok _ _ _ _ _ Hl Hd) as [? ?].
      apply inv_move with (Some (c, LoadOptimistic tail overcommit)); [done|done| |].
      * by intros ?? [= <- <-].
      * by intros ?? [= <- <-].
    + apply inv_move with (Some (c, LoadOptimistic tail overcommit)); [done|done| |].
      * by intros ?? [= <- <-].
      * by intros ?? [= <- <-].
  - injection Ha as <- <-. rewrite app_nil_r. by apply take_ticket.
  - case_match eqn:Hv; [|done]. injection Ha as <- <-.
    destruct (decide_ticket _ _ _ _ _ _ Hi Hv) as [ts' H]. exists ts'.
    replace (claim_of i _) with (@nil (nat * (Z * Z))); [by rewrite app_nil_r|].
    unfold decide_pc. repeat case_match; done.
  - injection Ha as <- <-. destruct (release_ticket _ _ _ _ Hi) as [ts' H]. exists ts'.
    replace (claim_of i _) with (@nil (nat * (Z * Z))); [by rewrite app_nil_r|]. by destruct granted.
  - injection Ha as <- <-. by apply claim_ticket.
Qed.

Lemma inv_weaken budget' : budget <= budget' → inv budget' ts t s.
Proof. intros Hb. destruct I. constructor; try done. lia. Qed.

(** A call returns. *)
Lemma inv_end i c first count :
  threads s !! i = Some (Some (c, Returning first count)) →
  inv budget ts t (SubQueue (sh s) (<[i := None]> (threads s)) (claims s)).
Proof. intros Hi. apply (inv_move _ _ _ Hi); [done|done|]. by intros ?? [= <- <-]. Qed.

(** A call begins. *)
Lemma inv_begin i c :
  threads s !! i = Some None → 0 <= limit c →
  inv (budget + limit c) ts t (SubQueue (sh s) (<[i := Some (c, LoadTail)]> (threads s)) (claims s)).
Proof.
  intros Hi Hl. destruct I as [It Ih Io Iv Ik Ip Iw Iu Ib Ic]. constructor; simpl; try done.
  - intros j d q [(<- & ? & ?)|[? Hj]]%list_lookup_insert_Some; [by simplify_eq|by apply Ip].
  - intros m k j Hk Ho. destruct (Iw m k j Hk Ho) as (d & q & Hj & Hq). exists d, q.
    split; [|done]. rewrite list_lookup_insert_ne; [done|congruence].
  - rewrite (zsum_insert _ _ _ _ _ Hi). simpl. lia.
Qed.
End invariant.

Lemma counts_le c lo x : counts c lo x → lo <= x.
Proof. intros [_ H]. destruct (H (now c)) as (y & _ & ?); [by constructor|lia]. Qed.

Definition published (l : label) : Z := match l with Publish n => n | _ => 0 end.

Section runs.
Variables (t0 h0 v0 : Z).
Hypothesis Hbase : h0 <= t0.
Let holds := inv t0 h0 (v0 + h0) v0.

Lemma consumer_act_inv budget ts t s i a s' :
  holds budget ts t s → t0 - h0 + budget < 2 ^ 62 → step s (Act i a) = Some s' →
  ∃ ts', holds budget ts' t s'.
Proof.
  intros I Hb Hs. pose proof (counts_le _ _ _ (inv_tail _ _ _ _ _ _ _ _ I)) as Ht.
  cbn [step] in Hs. destruct (threads s !! i) as [[[c p]|]|] eqn:Hi; [|done..].
  assert (H0 : h0 <= t0 ∧ v0 + h0 - v0 = h0 ∧ t0 <= t) by lia.
  destruct p; simplify_eq; try (exists ts; by eapply inv_end);
    apply bind_Some in Hs as ((sh' & p') & Ha & [= <-]); by eapply advance_inv.
Qed.

Lemma consumers_step_inv budget ts t s l s' :
  holds budget ts t s → label_ok l → t0 - h0 + budget < 2 ^ 62 → step s l = Some s' →
  ∃ ts', holds (budget + asked l) ts' (t + published l) s'.
Proof.
  intros I Hl Hb Hs. pose proof (counts_le _ _ _ (inv_tail _ _ _ _ _ _ _ _ I)) as Ht.
  destruct l as [n|i c|i a]; cbn [asked published]; rewrite ?Z.add_0_r; [| |by eapply consumer_act_inv].
  - injection Hs as <-. exists ts. by apply inv_publish.
  - cbn [step] in Hs. destruct (threads s !! i) as [[|]|] eqn:Hi; simplify_eq.
    exists ts. by apply inv_begin.
Qed.

Lemma consumers_run_inv ls : ∀ budget ts t s s',
  holds budget ts t s → Forall label_ok ls → t0 - h0 + budget + zsum asked ls < 2 ^ 62 →
  run s ls = Some s' → ∃ ts', holds (budget + zsum asked ls) ts' (t + zsum published ls) s'.
Proof.
  induction ls as [|l ls IH]; simpl; intros budget ts t s s' I Hl Hb Hs.
  { rewrite !Z.add_0_r. simplify_eq. eauto. }
  apply Forall_cons in Hl as [Hl Hls]. apply bind_Some in Hs as (s1 & Hs1 & Hs).
  assert (0 <= zsum asked ls) by (by apply zsum_nonneg). unfold label_ok in Hl.
  destruct (consumers_step_inv _ _ _ _ _ _ I Hl ltac:(lia) Hs1) as [ts1 I1].
  rewrite !Z.add_assoc. apply (IH _ _ _ _ _ I1 Hls); [lia|done].
Qed.

Lemma quiescent_inv n : holds 0 [] t0 (quiescent t0 h0 v0 n).
Proof.
  constructor; simpl.
  1, 3, 4: constructor; simpl; [rewrite ?Z.add_0_r; done|].
  1-3: intros v ->%list_elem_of_singleton; eexists; split; [done|lia].
  - unfold claims_of. simpl. by rewrite Z.add_0_r.
  - intros m k Hk. done.
  - intros i c p [? ?]%lookup_replicate. done.
  - intros m k i Hk. done.
  - intros m m' k k' i Hk. done.
  - rewrite zsum_replicate. simpl. lia.
  - done.
Qed.
End runs.

(** The indices a claim covers. *)
Definition indices (e : nat * (Z * Z)) : list Z := (λ j, u64 (e.2.1 + j)) <$> seqZ 0 e.2.2.

Lemma tiled_indices h l :
  tiled h l → 0 <= claims_of l ∧
  concat (indices <$> l) = (λ j, u64 (h + j)) <$> seqZ 0 (claims_of l).
Proof.
  revert h. induction l as [|[i [first count]] l IH]; intros h; [done|].
  simpl. intros (-> & Hc & Hl). destruct (IH _ Hl) as [Hn Heq]. unfold claims_of in *. simpl.
  split; [lia|]. change (list_fmap _ _ indices l) with (indices <$> l).
  rewrite Heq, seqZ_app, fmap_app by lia. f_equal.
  - unfold indices. simpl. apply list_fmap_ext. intros _ j _. apply wrap_add_l.
  - replace (seqZ (0 + count)) with (seqZ (count + 0)) by (f_equal; lia).
    rewrite <- fmap_add_seqZ, <- list_fmap_compose.
    apply list_fmap_ext. intros _ j _. unfold compose. f_equal. lia.
Qed.

Lemma window_nodup h m : m <= 2 ^ 64 → NoDup ((λ j, u64 (h + j)) <$> seqZ 0 m).
Proof.
  intros Hm. apply NoDup_fmap_2_strong; [|apply NoDup_seqZ].
  intros x y [Hx1 Hx2]%elem_of_seqZ [Hy1 Hy2]%elem_of_seqZ H.
  assert (Hz : u64 (h + x - (h + y)) = 0).
  { rewrite <- (wrap_sub_l 64), H, wrap_sub_l, Z.sub_diag. done. }
  replace (h + x - (h + y)) with (x - y) in Hz by lia.
  unfold wrap in Hz. apply Z.mod_divide in Hz; [|done]. destruct Hz as [q Hq]. nia.
Qed.

(** C9: any number of consumers in [dequeue] and [dequeue_bulk], from any point of
    the wrapping counters: every index is claimed by one consumer, in order and
    without gaps, and only after the producer has published its element. *)
Theorem consumers_exclusive t h v n ls s :
  h <= t → Forall label_ok ls → t - h + zsum asked ls < 2 ^ 62 →
  run (quiescent t h v n) ls = Some s →
  ∃ m, 0 <= m <= t + zsum published ls - h ∧
    now (tailIndex (sh s)) = u64 (t + zsum published ls) ∧ now (headIndex (sh s)) = u64 (h + m) ∧
    concat (indices <$> claims s) = (λ j, u64 (h + j)) <$> seqZ 0 m ∧
    NoDup (concat (indices <$> claims s)).
Proof.
  intros Ht Hl Hb Hs.
  destruct (consumers_run_inv t h v Ht ls 0 [] t _ s (quiescent_inv t h v n) Hl ltac:(lia) Hs) as [ts I].
  pose proof (counts_le _ _ _ (inv_tail _ _ _ _ _ _ _ _ I)) as Htt.
  destruct I as [It Ih _ _ Ik _ _ _ Ib [Hc Hsum]].
  pose proof (claimed_bound h v (t + zsum published ls) ts ltac:(lia) Ik) as Hbound.
  destruct (tiled_indices h (claims s) Hc) as [Hn Heq].
  exists (claims_of (claims s)). rewrite Heq, Hsum in *.
  assert (zsum asked ls < 2 ^ 62) by lia.
  assert (zsum published ls <= zsum asked ls).
  { apply zsum_le. eapply Forall_impl; [exact Hl|]. intros [] Hx; simpl in *; [lia|done..]. }
  split_and!; [lia|lia|apply It|done|done|]. apply window_nodup. lia.
Qed.

(** ** Nothing is stranded *)

(** What a call does when it runs alone. *)
Definition alone (i : nat) (c : call) (s : shared) : list label :=
  [Begin i c; Act i (Seen (now (tailIndex s))); Act i (Seen (now (dequeueOvercommit s)));
   Act i (Seen (now (dequeueOptimisticCount s))); Act i Go;
   Act i (Seen (now (tailIndex s))); Act i Go].

Lemma visible_now c : visible c (now c) = true.
Proof. apply bool_decide_eq_true. by constructor. Qed.

Lemma desired_now c t o v :
  0 < limit c → 0 < t - (o - v) < 2 ^ 63 →
  desired c (u64 t) (u64 v) (u64 o) = Some (Z.min (limit c) (t - (o - v))).
Proof.
  intros Hl Hr. destruct c as [|max]; unfold desired; cbv zeta;
    rewrite (wrap_sub_l 64 o), (wrap_sub_r 64 o v).
  - rewrite clt_spec, (proj2 (Z.ltb_lt _ _)) by lia. simpl. f_equal. lia.
  - rewrite wrap_sub_l, wrap_sub_r, clt_0, (proj2 (Z.ltb_lt _ _)) by lia.
    rewrite (wrap_small 64 (t - (o - v))) by (unfold fits; lia). simpl.
    destruct (Z.ltb_spec (t - (o - v)) max); f_equal; lia.
Qed.

Lemma run_act s i c p a ls sh' p' :
  threads s !! i = Some (Some (c, p)) → (∀ f n, p ≠ Returning f n) →
  advance (sh s) c p a = Some (sh', p') →
  run s (Act i a :: ls) =
  run (SubQueue sh' (<[i := Some (c, p')]> (threads s)) (claims s ++ claim_of i p')) ls.
Proof.
  intros Hi Hp Ha. cbn [run step]. rewrite Hi. destruct p; try (by rewrite Ha). by destruct (Hp first count).
Qed.

Lemma run_begin s i c ls :
  threads s !! i = Some None →
  run s (Begin i c :: ls) = run (SubQueue (sh s) (<[i := Some (c, LoadTail)]> (threads s)) (claims s)) ls.
Proof. intros Hi. cbn [run step]. by rewrite Hi. Qed.

Lemma alone_ok s i c t o v :
  threads s !! i = Some None → 0 < limit c → 0 < t - (o - v) < 2 ^ 63 →
  now (tailIndex (sh s)) = u64 t → now (dequeueOptimisticCount (sh s)) = u64 o →
  now (dequeueOvercommit (sh s)) = u64 v →
  ∃ s', run s (alone i c (sh s)) = Some s' ∧
    claims s' = claims s ++ [(i, (now (headIndex (sh s)), Z.min (limit c) (t - (o - v))))].
Proof.
  intros Hi Hl Hr Ht Ho Hv. assert (Hlen : (i < length (threads s))%nat) by (by eapply lookup_lt_Some).
  pose proof (desired_now c t o v Hl Hr) as Hd. set (d := Z.min (limit c) (t - (o - v))) in *.
  assert (Hact : actual c d (u64 t) (u64 v) (u64 o) = Some d).
  { rewrite actual_spec by (try lia; intros ->; simpl in *; lia).
    rewrite (proj2 (Z.ltb_lt _ _)) by lia. f_equal. lia. }
  assert (Hdp : decide_pc d (Some d) = AddHead d) by (simpl; by rewrite Z.ltb_irrefl).
  assert (Hclaim : claim_of i (Returning (now (headIndex (sh s))) d) = [(i, (now (headIndex (sh s)), d))]).
  { simpl. by rewrite (proj2 (Z.ltb_lt _ _)) by lia. }
  unfold alone. rewrite run_begin by done.
  repeat (erewrite run_act; cbn [sh threads claims];
    [|by apply list_lookup_insert_eq; rewrite ?length_insert|done|
     cbn [advance tailIndex dequeueOptimisticCount dequeueOvercommit with_optimistic];
     rewrite ?visible_now, ?Ht, ?Ho, ?Hv, ?Hd, ?Hact, ?Hdp; reflexivity]).
  eexists. split; [reflexivity|]. cbn [claims]. rewrite !app_nil_r. by f_equal.
Qed.

(** With no call in progress every ticket is settled. *)
Lemma tickets_settled t0 h0 o0 v0 budget ts t s :
  inv t0 h0 o0 v0 budget ts t s → Forall (λ th, th = None) (threads s) →
  zsum claimed ts = zsum width ts - zsum released ts.
Proof.
  intros I Hidle. rewrite <- kept_sum. apply zsum_ext, Forall_lookup. intros m k Hk.
  pose proof (inv_tickets _ _ _ _ _ _ _ _ I m k Hk) as [_ _ _ _ _ Hclosed].
  destruct (owner k) as [i|] eqn:Ho; [|destruct (Hclosed eq_refl); lia].
  destruct (inv_owners _ _ _ _ _ _ _ _ I m k i Hk Ho) as (c & p & Hi & _).
  rewrite Forall_lookup in Hidle. by specialize (Hidle i _ Hi).
Qed.

(** C13: when no call is in progress the two dequeue counters agree with the head
    again, whatever calls failed half-way; and a call that then runs alone claims
    the oldest elements, as many as it asks for or as there are. *)
Theorem nothing_stranded t h v n ls s :
  h <= t → Forall label_ok ls → t - h + zsum asked ls < 2 ^ 62 →
  run (quiescent t h v n) ls = Some s → Forall (λ th, th = None) (threads s) →
  u64 (now (dequeueOptimisticCount (sh s)) - now (dequeueOvercommit (sh s))) = now (headIndex (sh s)) ∧
  ∀ i c, (i < length (threads s))%nat → 0 < limit c → now (headIndex (sh s)) ≠ now (tailIndex (sh s)) →
    ∃ s', run s (alone i c (sh s)) = Some s' ∧
      claims s' = claims s ++ [(i, (now (headIndex (sh s)),
        Z.min (limit c) (u64 (now (tailIndex (sh s)) - now (headIndex (sh s))))))].
Proof.
  intros Ht Hl Hb Hs Hidle.
  destruct (consumers_run_inv t h v Ht ls 0 [] t _ s (quiescent_inv t h v n) Hl ltac:(lia) Hs) as [ts I].
  pose proof (counts_le _ _ _ (inv_tail _ _ _ _ _ _ _ _ I)) as Htt.
  pose proof (tickets_settled _ _ _ _ _ _ _ _ I Hidle) as Hset.
  destruct I as [[It _] Ih [Io _] [Iv _] Ik _ _ _ Ib [Hc Hsum]].
  pose proof (claimed_bound h v (t + zsum published ls) ts ltac:(lia) Ik) as Hbound.
  destruct (tiled_indices h (claims s) Hc) as [Hn _].
  assert (zsum published ls <= zsum asked ls).
  { apply zsum_le. eapply Forall_impl; [exact Hl|]. intros [] Hx; simpl in *; [lia|done..]. }
  assert (Hback : v + h + zsum width ts - (v + zsum released ts) = h + claims_of (claims s)) by lia.
  split; [by rewrite Io, Iv, Ih, wrap_sub_l, wrap_sub_r, Hback|].
  intros i c Hi Hlim Hne. rewrite Ih, It, wrap_sub_l, wrap_sub_r. rewrite Ih, It in Hne.
  assert (t + zsum published ls ≠ h + claims_of (claims s)) by (by intros E; rewrite E in Hne).
  rewrite (wrap_small 64 (t + _ - _)) by (unfold fits; lia). rewrite <- Ih, <- Hback.
  apply (alone_ok s i c _ _ _); try done; [|lia].
  destruct (lookup_lt_is_Some_2 _ _ Hi) as [th Hth]. rewrite Hth.
  rewrite Forall_lookup in Hidle. by rewrite (Hidle i th Hth).
Qed.

(** ** Examples *)

(** Counters close to wrapping; two consumers race for the one element, the loser
    gives back; a bulk call wants three and gets the two there are. *)
Definition race : list label :=
  [Publish 1; Begin 0 dequeue; Begin 1 dequeue] ++
  concat ((λ i, [Act i (Seen 0); Act i (Seen 7); Act i (Seen 6)]) <$> [0; 1]%nat) ++
  [Act 1 Go; Act 0 Go; Act 0 (Seen 0); Act 1 (Seen 0); Act 1 Go; Act 0 Go; Act 1 Go; Act 0 Go;
   Publish 2; Begin 0 (dequeue_bulk 3);
   Act 0 (Seen 2); Act 0 (Seen 8); Act 0 (Seen 8); Act 0 Go; Act 0 (Seen 2); Act 0 Go; Act 0 Go].

Definition race_start : sub_queue := quiescent (2 ^ 64 - 1) (2 ^ 64 - 1) 7 2.
Definition race_claims (o : option sub_queue) : option (list (nat * (Z * Z)) * list (option (call * pc))) :=
  s ← o; Some (claims s, threads s).



Lemma consumers_exclusive_witness :
  race_claims (run race_start race) =
    Some ([(1%nat, (2 ^ 64 - 1, 1)); (0%nat, (0, 2))], [None; None]) ∧
  ∀ s, run race_start race = Some s →
  ∃ m, 0 <= m <= 2 ^ 64 - 1 + zsum published race - (2 ^ 64 - 1) ∧
    now (tailIndex (sh s)) = u64 (2 ^ 64 - 1 + zsum published race) ∧
    now (headIndex (sh s)) = u64 (2 ^ 64 - 1 + m) ∧
    concat (indices <$> claims s) = (λ j, u64 (2 ^ 64 - 1 + j)) <$> seqZ 0 m ∧
    NoDup (concat (indices <$> claims s)).
Proof.
  split; [by vm_compute|]. intros s Hs.
  apply (consumers_exclusive (2 ^ 64 - 1) (2 ^ 64 - 1) 7 2 race s); [done| |by vm_compute|exact Hs].
  by apply (bool_decide_unpack (Forall _ _)); vm_compute.
Defined.

(** The consumers as the race leaves them, and one element more. *)
Definition after_race : list label := race ++ [Publish 1].

Lemma nothing_stranded_witness :
  (s ← run race_start after_race; s ← run s (alone 1 (dequeue_bulk 5) (sh s)); Some (claims s)) =
    Some [(1%nat, (2 ^ 64 - 1, 1)); (0%nat, (0, 2)); (1%nat, (2, 1))] ∧
  ∀ s, run race_start after_race = Some s →
  u64 (now (dequeueOptimisticCount (sh s)) - now (dequeueOvercommit (sh s))) = now (headIndex (sh s)).
Proof.
  split; [by vm_compute|]. intros s Hs.
  assert (Hidle : threads s = [None; None]).
  { assert (E : race_claims (run race_start after_race) =
      Some ([(1%nat, (2 ^ 64 - 1, 1)); (0%nat, (0, 2))], [None; None])) by (by vm_compute).
    rewrite Hs in E. unfold race_claims in E. simpl in E. congruence. }
  apply (nothing_stranded (2 ^ 64 - 1) (2 ^ 64 - 1) 7 2 after_race s); [done| |by vm_compute|exact Hs|].
  - by apply (bool_decide_unpack (Forall _ _)); vm_compute.
  - rewrite Hidle. by repeat constructor.
Defined.
End McDequeue.
