(* ===== verification/McHandOver.v ===== *)
(** * Consumers next to the producer that owns the blocks

    concurrentqueue.h: one thread in [ExplicitProducer::enqueue] and any number of
    threads in [dequeue] and [dequeue_bulk].  A consumer that has claimed indices
    (McDequeue.v) looks their block up in the block index, moves the elements out,
    destroys them and marks their slots empty; the producer takes a block again when
    all its slots are marked.  A step is one access to memory that threads share, or
    work on memory that only the producer touches.  The counters are as in McDequeue.v;
    the block index, the element slots and the marks are sequentially consistent, but a
    mark the producer tests may still look unset.  Elements move and are destroyed
    without exceptions. *)
From S2P Require Import Prelude BitTricks McDetails McBlock McPool McSlots McExplicit McDequeue.
Local Open Scope Z_scope.

Module McHandOver.
Import McDetails McBlock McPool McSlots.

Section hand_over.
Context `{Traits} {T : Type}.

(** Where the producer is in [enqueue]: about to make the access, or do the work, the
    constructor names.  [CheckEmpty nx k]: it looks whether block [nx], the one ahead, is
    empty, and has seen [k] marks; [Reuse nx]: it takes that block. *)
Inductive place :=
  | CheckEmpty (nx : nat) (k : nat)
  | Reuse (nx : nat)
  | LoadHead
  | EnsureIndex
  | Requisition
  | WriteEntry
  | StoreFront
  | Construct
  | StoreTail.

(** Where a consumer is that has claimed [count] indices from [first].  The block index
    it uses is number [hid], the oldest being 0; [ii] is the position of an entry.
    [Move]: it takes the element at [index] out of [block], having begun with the one at
    [from]; [Mark]: it marks the slots from [from] to [index], [k] of which are done. *)
Inductive hand :=
  | LoadIndex
  | LoadFront (hid : nat)
  | ReadBase (hid : nat) (front : Z)
  | ReadBlock (hid : nat) (ii index : Z)
  | Move (hid : nat) (ii : Z) (block : nat) (from index : Z)
  | Mark (hid : nat) (ii : Z) (block : nat) (from index : Z) (k : nat)
  | Finished.

(** The counters and the consumers' calls; the blocks; the producer's other fields, of
    which [tailIndex] is what the producer stored last and the other counters are not
    used; the call the producer is in; where consumers are with their claims; what has
    been enqueued; and who moved which element out, from which index, in order. *)
Record state := State {
  counters : McDequeue.sub_queue;
  blocks : pool T;
  own : McExplicit.producer;
  putting : option (bool * T * place);
  hands : list hand;
  given : list T;
  taken : list (nat * (Z * T))
}.

Inductive label :=
  | Put (canAlloc : bool) (x : T)             (* the producer calls [enqueue] *)
  | Own (a : McDequeue.answer)                (* its next step *)
  | Begin (i : nat) (c : McDequeue.call)      (* consumer [i] calls *)
  | Count (i : nat) (a : McDequeue.answer)    (* it accesses a counter, or returns *)
  | Work (i : nat).                           (* it goes on with its claim *)

Definition with_own (s : state) (p : pool T) (r : McExplicit.producer) (o : option (bool * T * place)) : state :=
  State (counters s) p r o (hands s) (given s) (taken s).
Definition with_hand (s : state) (i : nat) (p : pool T) (h : hand) : state :=
  State (counters s) p (own s) (putting s) (<[i := h]> (hands s)) (given s) (taken s).
Definition with_counters (s : state) (q : McDequeue.sub_queue) : state :=
  State q (blocks s) (own s) (putting s) (hands s) (given s) (taken s).

(** ** The producer *)

(** The first access of [enqueue]. *)
Definition start (p : pool T) (r : McExplicit.producer) : result place :=
  if slot (McExplicit.tailIndex r) =? 0
  then match McExplicit.tailBlock r with
       | None => Ok LoadHead
       | Some tb =>
           b ← deref p tb;
           match next b with None => UB | Some nx => Ok (CheckEmpty nx 0) end
       end
  else Ok Construct.

(** [is_empty], one access; [None]: not empty. *)
Definition check (b : block T) (nx k : nat) : result place :=
  if use_flags explicit_context
  then
    f ← aread (emptyFlags b) k;
    match f with
    | None => UB
    | Some false => Ok LoadHead
    | Some true => Ok (if S k =? BLOCK_SIZE then Reuse nx else CheckEmpty nx (S k))
    end
  else e ← is_empty explicit_context b; Ok (if e : bool then Reuse nx else LoadHead).

(** [entry.base = currentTailIndex; entry.block = this->tailBlock] *)
Definition write_entry (r : McExplicit.producer) : result McExplicit.producer :=
  match McExplicit.blockIndex r, McExplicit.tailBlock r with
  | h :: hs, Some tb =>
      es ← awrite (McExplicit.entries h) (McExplicit.pr_blockIndexFront r) (Some (McExplicit.tailIndex r, tb));
      Ok (McExplicit.set_index r (McExplicit.Header (McExplicit.size h) (McExplicit.front h) es :: hs)
            (McExplicit.pr_blockIndexSize r) (McExplicit.pr_blockIndexFront r))
  | _, _ => UB
  end.

(** [front.store(pr_blockIndexFront)] *)
Definition store_front (r : McExplicit.producer) : result McExplicit.producer :=
  match McExplicit.blockIndex r with
  | h :: hs =>
      Ok (McExplicit.set_index r
            (McExplicit.Header (McExplicit.size h) (McExplicit.pr_blockIndexFront r) (McExplicit.entries h) :: hs)
            (McExplicit.pr_blockIndexSize r)
            (Z.land (u64 (McExplicit.pr_blockIndexFront r + 1)) (u64 (McExplicit.pr_blockIndexSize r - 1))))
  | [] => UB
  end.

(** The element's constructor, in the slot of the tail. *)
Definition construct_element (p : pool T) (r : McExplicit.producer) (x : T) : result (pool T) :=
  match McExplicit.tailBlock r with
  | None => UB
  | Some tb =>
      b ← deref p tb;
      b ← construct b (McExplicit.tailIndex r) x;
      update p tb (λ _, b)
  end.

(** The producer's next step; [None]: the answer is not one for this step. *)
Definition own_step (s : state) (canAlloc : bool) (x : T) (w : place) (a : McDequeue.answer) :
    option (result state) :=
  let p := blocks s in
  let r := own s in
  let go p r w := Ok (with_own s p r (Some (canAlloc, x, w))) in
  match w, a with
  | CheckEmpty nx k, McDequeue.Go => Some (b ← deref p nx; w ← check b nx k; go p r w)
  | CheckEmpty nx k, McDequeue.Seen _ => Some (go p r LoadHead)
  | Reuse nx, McDequeue.Go =>
      Some (p ← update p nx (reset_empty explicit_context);
            go p (McExplicit.set_block r (Some nx) (McExplicit.pr_blockIndexSlotsUsed r)) WriteEntry)
  | LoadHead, McDequeue.Seen head =>
      if McDequeue.visible (McDequeue.headIndex (McDequeue.sh (counters s))) head
      then Some (
        assert_ NDEBUG (negb (clt (McExplicit.tailIndex r) head));;
        if too_full (McExplicit.tailIndex r) head then Ok (with_own s p r None) else go p r EnsureIndex)
      else None
  | EnsureIndex, McDequeue.Go =>
      Some ('(p, r, ok) ← McExplicit.ensure_index canAlloc p r;
            if ok : bool then go p r Requisition else Ok (with_own s p r None))
  | Requisition, McDequeue.Go =>
      Some ('(p, o) ← requisition_block canAlloc p;
            match o with
            | None => Ok (with_own s p r None)
            | Some nb => '(p, r) ← McExplicit.insert_block nb p r; go p r WriteEntry
            end)
  | WriteEntry, McDequeue.Go => Some (r ← write_entry r; go p r StoreFront)
  | StoreFront, McDequeue.Go => Some (r ← store_front r; go p r Construct)
  | Construct, McDequeue.Go => Some (p ← construct_element p r x; go p r StoreTail)
  | StoreTail, McDequeue.Go =>
      q ← McDequeue.step (counters s) (McDequeue.Publish 1);
      Some (Ok (State q p (McExplicit.set_tail r (u64 (1 + McExplicit.tailIndex r))) None
                  (hands s) (given s ++ [x]) (taken s)))
  | _, _ => None
  end.

(** ** A consumer with a claim *)

(** Block index number [hid]. *)
Definition header_at (r : McExplicit.producer) (hid : nat) : result McExplicit.header :=
  match rev (McExplicit.blockIndex r) !! hid with Some h => Ok h | None => UB end.

(** The position of the entry for [index], from the base in the entry at the front. *)
Definition entry_position (h : McExplicit.header) (front headBase index : Z) : Z :=
  let blockBaseIndex := Z.ldiff index (BLOCK_SIZE - 1) in
  let offset := u64 (blockBaseIndex - headBase) / BLOCK_SIZE in
  Z.land (u64 (front + offset)) (McExplicit.size h - 1).

(** Where the part of the claim that lies in the block of [from] ends. *)
Definition end_index (first count from : Z) : Z :=
  let endIndex := u64 (Z.ldiff from (BLOCK_SIZE - 1) + BLOCK_SIZE) in
  if clt (u64 (first + count)) endIndex then u64 (first + count) else endIndex.

(** [set_empty] and [set_many_empty], one access: mark number [k], and whether there
    are more to make. *)
Definition mark (c : McDequeue.call) (b : block T) (from n : Z) (k : nat) : result (block T * bool) :=
  match c with
  | McDequeue.dequeue => '(b, _) ← set_empty explicit_context from b; Ok (b, false)
  | McDequeue.dequeue_bulk _ =>
      if use_flags explicit_context
      then b ← set_flag b (u64 (BLOCK_SIZE - 1 - slot from - n + 1) + k); Ok (b, negb (S k =? n))
      else '(b, _) ← set_many_empty explicit_context from n b; Ok (b, false)
  end.

Definition work (s : state) (i : nat) (c : McDequeue.call) (first count : Z) (w : hand) : option (result state) :=
  let p := blocks s in
  let go p w := Ok (with_hand s i p w) in
  match w with
  | LoadIndex =>
      Some (match McExplicit.blockIndex (own s) with
            | [] => UB
            | h :: hs => go p (LoadFront (length hs))
            end)
  | LoadFront hid => Some (h ← header_at (own s) hid; go p (ReadBase hid (McExplicit.front h)))
  | ReadBase hid front =>
      Some (h ← header_at (own s) hid;
            e ← aread (McExplicit.entries h) front;
            match e with
            | None => UB
            | Some (headBase, _) => go p (ReadBlock hid (entry_position h front headBase first) first)
            end)
  | ReadBlock hid ii index =>
      Some (h ← header_at (own s) hid;
            e ← aread (McExplicit.entries h) ii;
            match e with None => UB | Some (_, b) => go p (Move hid ii b index index) end)
  | Move hid ii b from index =>
      Some (bl ← deref p b;
            x ← element bl index;
            bl ← destruct_at bl index;
            p ← update p b (λ _, bl);
            let index' := u64 (index + 1) in
            Ok (State (counters s) p (own s) (putting s)
                  (<[i := if index' =? end_index first count from then Mark hid ii b from index' 0
                          else Move hid ii b from index']> (hands s))
                  (given s) (taken s ++ [(i, (index, x))])))
  | Mark hid ii b from index k =>
      Some (h ← header_at (own s) hid;
            bl ← deref p b;
            '(bl, more) ← mark c bl from (u64 (index - from)) k;
            p ← update p b (λ _, bl);
            if more : bool then go p (Mark hid ii b from index (S k))
            else if index =? u64 (first + count) then go p Finished
            else go p (ReadBlock hid (Z.land (u64 (ii + 1)) (McExplicit.size h - 1)) index))
  | Finished => None
  end.

(** A consumer's call, and how much of its claim it has worked through. *)
Definition claim_at (s : state) (i : nat) : option (McDequeue.call * Z * Z) :=
  match McDequeue.threads (counters s) !! i with
  | Some (Some (c, McDequeue.Returning first count)) => if 0 <? count then Some (c, first, count) else None
  | _ => None
  end.

Definition step (s : state) (l : label) : option (result state) :=
  match l with
  | Put canAlloc x =>
      match putting s with
      | None => Some (w ← start (blocks s) (own s); Ok (with_own s (blocks s) (own s) (Some (canAlloc, x, w))))
      | Some _ => None
      end
  | Own a => '(canAlloc, x, w) ← putting s; own_step s canAlloc x w a
  | Begin i c => q ← McDequeue.step (counters s) (McDequeue.Begin i c); Some (Ok (with_counters s q))
  | Count i a =>
      match claim_at s i with
      | Some _ =>
          match hands s !! i with
          | Some Finished =>
              q ← McDequeue.step (counters s) (McDequeue.Act i a);
              Some (Ok (with_hand (with_counters s q) i (blocks s) LoadIndex))
          | _ => None
          end
      | None => q ← McDequeue.step (counters s) (McDequeue.Act i a); Some (Ok (with_counters s q))
      end
  | Work i =>
      '(c, first, count) ← claim_at s i;
      w ← hands s !! i;
      work s i c first count w
  end.

Fixpoint run (s : state) (ls : list label) : option (result state) :=
  match ls with
  | [] => Some (Ok s)
  | l :: ls =>
      r ← step s l;
      match r with Ok s => run s ls | r => Some r end
  end.

(** ** Data races *)

(** Memory that is not atomic: an element's slot, an entry of a block index. *)
Inductive location := Slot (block : nat) (k : Z) | Entry (hid : nat) (k : Z).

(** What the producer, [None], or consumer [i] accesses next, and whether it writes. *)
Definition accesses (s : state) (agent : option nat) : option (location * bool) :=
  match agent with
  | None =>
      match putting s with
      | Some (_, _, WriteEntry) =>
          match McExplicit.blockIndex (own s) with
          | [] => None
          | _ :: hs => Some (Entry (length hs) (McExplicit.pr_blockIndexFront (own s)), true)
          end
      | Some (_, _, Construct) =>
          tb ← McExplicit.tailBlock (own s); Some (Slot tb (slot (McExplicit.tailIndex (own s))), true)
      | _ => None
      end
  | Some i =>
      match claim_at s i, hands s !! i with
      | Some _, Some (ReadBase hid front) => Some (Entry hid front, false)
      | Some _, Some (ReadBlock hid ii _) => Some (Entry hid ii, false)
      | Some _, Some (Move _ _ b _ index) => Some (Slot b (slot index), true)
      | _, _ => None
      end
  end.

(** No two threads are about to access the same memory, one of them to write. *)
Definition race_free (s : state) : Prop :=
  ∀ a a' l w w', a ≠ a' → accesses s a = Some (l, w) → accesses s a' = Some (l, w') → w = false ∧ w' = false.

(** ** Where it begins, and what is left *)

Definition create (p : pool T) (r : McExplicit.producer) (t h v : Z) (n : nat) : state :=
  State (McDequeue.quiescent t h v n) p r None (replicate n LoadIndex) [] [].

(** Nobody is in a call. *)
Definition idle (s : state) : Prop :=
  putting s = None ∧ Forall (λ th, th = None) (McDequeue.threads (counters s)).

(** The producer as one thread sees it that is alone. *)
Definition seen_alone (s : state) : McExplicit.producer :=
  McExplicit.set_counts (own s) (McDequeue.now (McDequeue.headIndex (McDequeue.sh (counters s))))
    (McDequeue.now (McDequeue.dequeueOptimisticCount (McDequeue.sh (counters s))))
    (McDequeue.now (McDequeue.dequeueOvercommit (McDequeue.sh (counters s)))).

(** What a call may add to the counters. *)
Definition asked (l : label) : Z :=
  match l with Put _ _ => 1 | Begin _ c => McDequeue.limit c | _ => 0 end.
Definition puts (l : label) : nat := match l with Put _ _ => 1 | _ => 0 end.
Definition label_ok (l : label) : Prop := 0 <= asked l.
(** ** What has become of an index

    [Raw]: not yet enqueued.  [Full x]: the element is there, nobody has claimed it;
    [Claimed i x]: consumer [i] has.  [Emptied i]: it has moved it out, but has not
    marked the slot; [Done]: it has. *)
Inductive status := Raw | Full (x : T) | Claimed (i : nat) (x : T) | Emptied (i : nat) | Done.

Definition held (v : status) : option T := match v with Full x | Claimed _ x => Some x | _ => None end.
Definition is_done (v : status) : bool := match v with Done => true | _ => false end.
Definition spent (v : status) : bool := match v with Claimed _ _ | Emptied _ | Done => true | _ => false end.
Definition busy (i : nat) (v : status) : Prop := match v with Claimed j _ | Emptied j => j = i | _ => False end.

Definition fill (st : Z → status) (a b : Z) (v : status) : Z → status :=
  λ idx, if decide (a <= idx < b) then v else st idx.
Definition claim (st : Z → status) (i : nat) (a b : Z) : Z → status :=
  λ idx, if decide (a <= idx < b) then match st idx with Full x => Claimed i x | v => v end else st idx.

(** The slots of the block at [start] that are marked. *)
Definition marked (st : Z → status) (start : Z) : list nat :=
  filter (λ j : nat, is_done (st (start + j)) = true) (seq 0 (Z.to_nat BLOCK_SIZE)).

Record block_at (st : Z → status) (b : block T) (start : Z) : Prop := {
  ba_length : length (elements b) = Z.to_nat BLOCK_SIZE;
  ba_elements (j : nat) : j < BLOCK_SIZE → elements b !! j = Some (held (st (start + j)));
  ba_marks : tracks explicit_context b (marked st start)
}.

(** The base of the block of an index. *)
Definition block_base (idx : Z) : Z := idx - idx mod BLOCK_SIZE.

(** ** What a block index says *)

(** Header [hd], whose slot [f] has the entry of the block at [B], has the entries of
    the blocks of the ring up to that one. *)
Record covers (ring : list nat) (A : Z) (hd : McExplicit.header) (f B : Z) : Prop := {
  cv_size : ∃ m, 0 <= m ∧ McExplicit.size hd = 2 ^ m;
  cv_memory : McExplicit.size hd * BLOCK_SIZE <= 2 ^ 63;
  cv_length : Z.of_nat (length (McExplicit.entries hd)) = McExplicit.size hd;
  cv_front : 0 <= f < McExplicit.size hd;
  cv_base : ∃ kB, (kB < length ring)%nat ∧ B = base A kB;
  cv_entries k i : ring !! k = Some i → base A k <= B →
    McExplicit.entries hd !! Z.to_nat ((f - (B - base A k) / BLOCK_SIZE) mod McExplicit.size hd) =
    Some (Some (u64 (base A k), i))
}.

(** Header number [hid], of size [sz], says the same from slot [f] on; the current
    header, in which the producer writes, is known to have [n] entries. *)
Definition sees (r : McExplicit.producer) (n : nat) (ring : list nat) (A : Z) (hid : nat) (sz f B : Z) : Prop :=
  ∃ newer hd older, McExplicit.blockIndex r = newer ++ hd :: older ∧ hid = length older ∧
    McExplicit.size hd = sz ∧
    match newer with
    | [] => ∃ kB, (kB < n)%nat ∧ B = base A kB ∧
        f = (McExplicit.pr_blockIndexFront r - n + kB) mod McExplicit.pr_blockIndexSize r
    | _ => covers ring A hd f B
    end.

(** The same for what a consumer will find at the front, if it is an old header: the
    blocks of the indices below [e]. *)
Definition will_see (r : McExplicit.producer) (ring : list nat) (A : Z) (hid : nat) (e : Z) : Prop :=
  ∃ newer hd older, McExplicit.blockIndex r = newer ++ hd :: older ∧ hid = length older ∧
    match newer with
    | [] => True
    | _ => ∃ B, covers ring A hd (McExplicit.front hd) B ∧ e <= B + BLOCK_SIZE
    end.

Definition position (sz f B idx : Z) : Z := (f - (B - block_base idx) / BLOCK_SIZE) mod sz.

Section proofs.
Context `{!TraitsOk}.

Lemma block_base_at A (k : nat) j : A mod BLOCK_SIZE = 0 → 0 <= j < BLOCK_SIZE → block_base (base A k + j) = base A k.
Proof. intros HA Hj. unfold block_base. rewrite <- slot_mod, base_slot by done. lia. Qed.

Lemma block_base_bounds idx : block_base idx <= idx < block_base idx + BLOCK_SIZE.
Proof.
  unfold block_base. rewrite <- slot_mod. pose proof (slot_bound idx). lia.
Qed.

(** The block of an index of the ring. *)
Lemma ring_block (ring : list nat) A idx :
  A mod BLOCK_SIZE = 0 → A <= idx < base A (length ring) →
  ∃ k i, ring !! k = Some i ∧ block_base idx = base A k.
Proof.
  intros HA Hi. destruct (locate A (length ring) idx Hi) as (k & j & Hk & Hj & ->).
  destruct (lookup_lt_is_Some_2 ring k Hk) as [i Hk']. exists k, i. split; [done|]. by apply block_base_at.
Qed.

Lemma base_le A (k k' : nat) : base A k <= base A k' ↔ (k ≤ k')%nat.
Proof. pose proof block_size_pos. unfold base. split; nia. Qed.

Lemma base_quotient A (k k' : nat) : (base A k' - base A k) / BLOCK_SIZE = k' - k.
Proof.
  pose proof block_size_pos. unfold base. replace (A + BLOCK_SIZE * k' - (A + BLOCK_SIZE * k)) with ((k' - k) * BLOCK_SIZE) by lia.
  apply Z.div_mul. lia.
Qed.

(** ** Looking up a block *)

Lemma header_ok (r : McExplicit.producer) newer hd older :
  McExplicit.blockIndex r = newer ++ hd :: older → header_at r (length older) = Ok hd.
Proof.
  intros Hb. unfold header_at. rewrite Hb, rev_app_distr. simpl.
  rewrite <- (assoc_L app), lookup_app_r by (by rewrite length_rev).
  by rewrite length_rev, Nat.sub_diag.
Qed.

Lemma current_covers r ring n A hd hs (kB : nat) :
  McExplicit.index_for r ring n A → McExplicit.blockIndex r = hd :: hs → (kB < n ≤ length ring)%nat →
  covers ring A hd ((McExplicit.pr_blockIndexFront r - n + kB) mod McExplicit.pr_blockIndexSize r) (base A kB).
Proof.
  intros X Hb Hk. pose proof (McExplicit.size_bounds _ _ _ _ X). destruct X as [X1 X2 X3 X4 X5 X6]. rewrite Hb in X6.
  destruct X6 as (X6 & X7 & X8). constructor; rewrite ?X6; try done.
  - apply Z.mod_pos_bound. lia.
  - exists kB. split; [lia|done].
  - intros k i Hi Hle%base_le. rewrite base_quotient, Zminus_mod_idemp_l.
    replace (_ - _ + _ - _) with (McExplicit.pr_blockIndexFront r - n + k) by lia. apply X8; [lia|done].
Qed.

Lemma sees_covers r n ring A hid sz f B :
  sees r n ring A hid sz f B → McExplicit.index_for r ring n A → (n ≤ length ring)%nat →
  ∃ hd, header_at r hid = Ok hd ∧ McExplicit.size hd = sz ∧ covers ring A hd f B.
Proof.
  intros (newer & hd & older & Hb & -> & Hs & Hc) X Hn. exists hd. split; [by eapply header_ok|]. split; [done|].
  destruct newer; [|done]. destruct Hc as (kB & Hk & -> & ->). by eapply current_covers.
Qed.

Lemma covers_front ring A hd f B :
  covers ring A hd f B → ∃ i, aread (McExplicit.entries hd) f = Ok (Some (u64 B, i)).
Proof.
  intros [C1 C2 C3 C4 (kB & Hk & ->) C6]. destruct (lookup_lt_is_Some_2 ring kB Hk) as [i Hi]. exists i.
  specialize (C6 kB i Hi (Z.le_refl _)). rewrite Z.sub_diag, Z.div_0_l, Z.sub_0_r, Z.mod_small in C6 by (pose proof block_size_pos; lia).
  apply aread_Z; [lia|done].
Qed.

Lemma covers_position ring A hd f B idx :
  covers ring A hd f B → A mod BLOCK_SIZE = 0 → BLOCK_SIZE * length ring < 2 ^ 62 →
  A <= idx < B + BLOCK_SIZE →
  entry_position hd f (u64 B) (u64 idx) = position (McExplicit.size hd) f B idx ∧
  ∃ k i, ring !! k = Some i ∧ block_base idx = base A k ∧
    aread (McExplicit.entries hd) (position (McExplicit.size hd) f B idx) = Ok (Some (u64 (base A k), i)).
Proof.
  intros [(m & Hm & C1) C2 C3 C4 (kB & HkB & ->) C6] HA Hsz Hi. pose proof block_size_pos.
  destruct (locate A (S kB) idx) as (k & j & Hk & Hj & ->); [unfold base in *; lia|].
  destruct (lookup_lt_is_Some_2 ring k) as [i Hik]; [lia|]. unfold position. rewrite block_base_at, base_quotient by done.
  split.
  - unfold entry_position. rewrite McSlots.block_base, slot_wrap, base_slot by done.
    replace (u64 (u64 (base A k + j) - j - u64 (base A kB))) with (u64 (- (BLOCK_SIZE * (kB - k)))).
    2:{ autorewrite with wrap. unfold base. rewrite <- Z.sub_add_distr. autorewrite with wrap. f_equal. lia. }
    assert (0 <= m <= 64).
    { split; [done|]. apply (Z.pow_le_mono_r_iff 2); [lia..|]. rewrite <- C1. nia. }
    rewrite (land_size _ m), (wrap_mod_size _ m), (offset_mod _ m) by (done || lia || nia). done.
  - exists k, i. split_and!; [done..|]. apply aread_Z; [apply Z.mod_pos_bound; lia|].
    rewrite <- (base_quotient A k kB). apply C6; [done|]. apply base_le. lia.
Qed.
(** ** The producer changes the ring and the index *)

Definition block_in (ring : list nat) (A : Z) (b : nat) (idx : Z) : Prop :=
  ∃ k, ring !! k = Some b ∧ block_base idx = base A k.

(** What consumers have found out about indices that are not [Done] stays true. *)
Record keeps (r : McExplicit.producer) (n : nat) (ring : list nat) (A : Z)
    (r' : McExplicit.producer) (n' : nat) (ring' : list nat) (A' : Z) : Prop := {
  ke_sees hid sz f B idx : A' <= idx < B + BLOCK_SIZE →
    sees r n ring A hid sz f B → sees r' n' ring' A' hid sz f B;
  ke_will hid e : A' < e <= base A n → will_see r ring A hid e → will_see r' ring' A' hid e;
  ke_block b idx : A' <= idx → block_in ring A b idx → block_in ring' A' b idx;
  ke_index : McExplicit.blockIndex r ≠ [] → McExplicit.blockIndex r' ≠ []
}.

Lemma base_shift A (k : nat) : base (A + BLOCK_SIZE) k = base A (S k).
Proof. unfold base. lia. Qed.

Lemma base_pred A (n : nat) : (0 < n)%nat → base A (n - 1) + BLOCK_SIZE = base A n.
Proof. intros Hn. unfold base. replace (Z.of_nat n) with ((n - 1)%nat + 1) by lia. lia. Qed.

Lemma base_above A kB idx :
  A + BLOCK_SIZE <= idx < base A kB + BLOCK_SIZE → ∃ k, kB = S k.
Proof. unfold base. intros Hi. destruct kB as [|k]; [lia|by exists k]. Qed.

Lemma covers_rotate i rest A hd f B idx :
  A + BLOCK_SIZE <= idx < B + BLOCK_SIZE →
  covers (i :: rest) A hd f B → covers (rest ++ [i]) (A + BLOCK_SIZE) hd f B.
Proof.
  intros Hi [C1 C2 C3 C4 (kB & Hk & ->) C6]. destruct (base_above _ _ _ Hi) as [k ->]. simpl in Hk.
  constructor; try done.
  - exists k. rewrite length_app, base_shift. simpl. split; [lia|done].
  - intros j b Hj. rewrite base_shift. intros Hle. apply base_le in Hle as Hle'. apply C6; [|done].
    rewrite lookup_app_l in Hj by lia. done.
Qed.

Lemma covers_snoc ring nb A hd f B : covers ring A hd f B → covers (ring ++ [nb]) A hd f B.
Proof.
  intros [C1 C2 C3 C4 (kB & Hk & ->) C6]. constructor; try done.
  - exists kB. rewrite length_app. split; [lia|done].
  - intros j b Hj Hle. apply base_le in Hle as Hle'. rewrite lookup_app_l in Hj by lia. by apply C6.
Qed.

(** A change that leaves the old headers alone. *)
Lemma sees_change r r' n n' ring ring' A A' hid sz f B :
  (∀ hd, covers ring A hd f B → covers ring' A' hd f B) →
  (∀ hd hs, McExplicit.blockIndex r = hd :: hs →
     ∃ hd', McExplicit.blockIndex r' = hd' :: hs ∧ McExplicit.size hd' = McExplicit.size hd) →
  (∀ kB, (kB < n)%nat → B = base A kB →
     ∃ kB', (kB' < n')%nat ∧ B = base A' kB' ∧
       (McExplicit.pr_blockIndexFront r - n + kB) mod McExplicit.pr_blockIndexSize r =
       (McExplicit.pr_blockIndexFront r' - n' + kB') mod McExplicit.pr_blockIndexSize r') →
  sees r n ring A hid sz f B → sees r' n' ring' A' hid sz f B.
Proof.
  intros Hc Hh Hk (newer & hd & older & Hb & -> & Hs & Hv). destruct newer as [|nh newer].
  - destruct (Hh _ _ Hb) as (hd' & Hb' & Hs'). exists [], hd', older. split_and!; [done|done|congruence|].
    destruct Hv as (kB & Hn & HB & ->). destruct (Hk kB Hn HB) as (kB' & ? & ? & ?). by exists kB'.
  - destruct (Hh nh _ Hb) as (nh' & Hb' & _). exists (nh' :: newer), hd, older. split_and!; try done. by apply Hc.
Qed.

Lemma will_change (r r' : McExplicit.producer) ring ring' A A' hid e :
  (∀ hd B, e <= B + BLOCK_SIZE → covers ring A hd (McExplicit.front hd) B →
     covers ring' A' hd (McExplicit.front hd) B) →
  (∀ hd hs, McExplicit.blockIndex r = hd :: hs → ∃ hd', McExplicit.blockIndex r' = hd' :: hs) →
  will_see r ring A hid e → will_see r' ring' A' hid e.
Proof.
  intros Hc Hh (newer & hd & older & Hb & -> & Hv). destruct newer as [|nh newer].
  - destruct (Hh _ _ Hb) as (hd' & Hb'). by exists [], hd', older.
  - destruct (Hh nh _ Hb) as (nh' & Hb'). exists (nh' :: newer), hd, older. split_and!; try done.
    destruct Hv as (B & ? & ?). exists B. split; [by apply Hc|done].
Qed.

Lemma keeps_same r r' n ring A :
  McExplicit.blockIndex r' = McExplicit.blockIndex r →
  McExplicit.pr_blockIndexFront r' = McExplicit.pr_blockIndexFront r →
  McExplicit.pr_blockIndexSize r' = McExplicit.pr_blockIndexSize r →
  keeps r n ring A r' n ring A.
Proof.
  intros Hb Hf Hs. constructor; [| |done|by rewrite Hb].
  - intros hid sz f B idx _. apply sees_change; [done|rewrite Hb; eauto|]. intros kB. rewrite Hf, Hs. eauto.
  - intros hid e _. apply will_change; [done|]. rewrite Hb. eauto.
Qed.

Lemma keeps_rotate r b u i rest A :
  keeps r (length (i :: rest)) (i :: rest) A (McExplicit.set_block r b u) (length rest) (rest ++ [i]) (A + BLOCK_SIZE).
Proof.
  constructor; simpl McExplicit.blockIndex.
  - intros hid sz f B idx Hi. apply sees_change; [intros hd; by apply (covers_rotate _ _ _ _ _ _ idx)|eauto|].
    intros kB Hk ->. destruct (base_above _ _ _ Hi) as [k ->]. exists k. rewrite base_shift. simpl in *.
    split; [lia|]. split; [done|]. f_equal. lia.
  - intros hid e He. apply will_change; [|eauto]. intros hd B HB C. apply (covers_rotate _ _ _ _ _ _ (e - 1)); [|done]. lia.
  - intros blk idx Hi (k & Hk & Hbb). pose proof (block_base_bounds idx).
    destruct (base_above A k idx) as [k' ->]; [lia|]. exists k'. rewrite base_shift. split; [|done].
    simpl in Hk. rewrite lookup_app_l; [done|by eapply lookup_lt_Some].
  - done.
Qed.

Lemma keeps_snoc r b u n ring nb A :
  keeps r n ring A (McExplicit.set_block r b u) n (ring ++ [nb]) A.
Proof.
  constructor; simpl McExplicit.blockIndex.
  - intros hid sz f B idx _. apply sees_change; [intros hd; apply covers_snoc|eauto|]. intros kB. simpl. eauto.
  - intros hid e _. apply will_change; [intros hd B _; apply covers_snoc|eauto].
  - intros blk idx _ (k & Hk & Hbb). exists k. split; [by apply lookup_app_l_Some|done].
  - done.
Qed.

(** The front header's entries and its front are written. *)
Lemma keeps_header r n n' ring A hd hs hd' f' :
  McExplicit.index_for r ring n A → McExplicit.blockIndex r = hd :: hs →
  McExplicit.size hd' = McExplicit.size hd → (n ≤ n')%nat →
  f' mod McExplicit.pr_blockIndexSize r = (McExplicit.pr_blockIndexFront r + (n' - n)%nat) mod McExplicit.pr_blockIndexSize r →
  keeps r n ring A (McExplicit.set_index r (hd' :: hs) (McExplicit.pr_blockIndexSize r) f') n' ring A.
Proof.
  intros X Hb Hs Hn Hf. constructor; rewrite ?Hb; [| |done|done].
  - intros hid sz f B idx _. apply sees_change; [done| |].
    + intros h0 hs0. rewrite Hb. intros [= <- <-]. by exists hd'.
    + intros kB Hk ->. exists kB. simpl. split; [lia|]. split; [done|].
      replace (f' - n' + kB) with (f' + (kB - n')) by lia. rewrite <- (Zplus_mod_idemp_l f'), Hf, Zplus_mod_idemp_l. f_equal. lia.
  - intros hid e _. apply will_change; [done|]. intros h0 hs0. rewrite Hb. intros [= <- <-]. by exists hd'.
Qed.

(** A larger index takes the place of the current one. *)
Lemma keeps_grow r n ring A hd sz f' :
  McExplicit.index_for r ring n A → (0 < n → McExplicit.front_ok r)%nat → (n ≤ length ring)%nat →
  keeps r n ring A (McExplicit.set_index r (hd :: McExplicit.blockIndex r) sz f') n ring A.
Proof.
  intros X F Hn. constructor; [| |done|done].
  - intros hid s f B idx _ (newer & h & older & Hb & -> & Hs & Hv). exists (hd :: newer), h, older. simpl.
    rewrite Hb. split_and!; try done. destruct newer; [|done]. destruct Hv as (kB & Hk & -> & ->).
    by eapply current_covers.
  - intros hid e [He1 He2] (newer & h & older & Hb & -> & Hv). exists (hd :: newer), h, older. simpl. rewrite Hb.
    split_and!; try done. destruct newer; [|done]. assert (0 < n)%nat as Hp by (unfold base in He2; destruct n; lia).
    specialize (F Hp). unfold McExplicit.front_ok in F. rewrite Hb in F. simpl in Hb. exists (base A (n - 1)).
    rewrite F. replace (McExplicit.pr_blockIndexFront r - 1) with (McExplicit.pr_blockIndexFront r - n + (n - 1)%nat) by lia.
    split; [by eapply current_covers; [..|lia]|]. unfold base in *. nia.
Qed.
(** ** Slots change one after the other *)

Lemma marked_elem st start (j : nat) : j ∈ marked st start ↔ j < BLOCK_SIZE ∧ is_done (st (start + j)) = true.
Proof. unfold marked. rewrite list_elem_of_filter, elem_of_seq. pose proof block_size_pos. split; intros [? ?]; split; try done; lia. Qed.

Lemma marked_nodup st start : NoDup (marked st start).
Proof. apply NoDup_filter, NoDup_seq. Qed.

Lemma marked_ext st st' start :
  (∀ j : nat, j < BLOCK_SIZE → is_done (st' (start + j)) = is_done (st (start + j))) →
  marked st' start ≡ₚ marked st start.
Proof.
  intros He. apply NoDup_Permutation; [apply marked_nodup..|]. intros j. rewrite !marked_elem.
  split; intros [Hj Hd]; (split; [done|]); by rewrite He in *.
Qed.

Lemma marked_fill st start a b :
  start <= a <= b → b <= start + BLOCK_SIZE → (∀ idx, a <= idx < b → is_done (st idx) = false) →
  seq (Z.to_nat (a - start)) (Z.to_nat (b - a)) ++ marked st start ≡ₚ marked (fill st a b Done) start.
Proof.
  intros Ha Hb Hn. apply NoDup_Permutation; [|apply marked_nodup|].
  - apply NoDup_app. split_and!; [apply NoDup_seq| |apply marked_nodup].
    intros j Hj%elem_of_seq [_ Hd]%marked_elem. rewrite Hn in Hd; [done|lia].
  - intros j. rewrite elem_of_app, elem_of_seq, !marked_elem. unfold fill. case_decide as Hj.
    + split; [|intros _; left; lia]. intros _. split; [lia|done].
    + split; [intros [?|?]; [lia|done]|tauto].
Qed.

Lemma block_same st st' b start :
  (∀ j : nat, j < BLOCK_SIZE → st' (start + j) = st (start + j)) → block_at st b start → block_at st' b start.
Proof.
  intros He [B1 B2 B3]. constructor; [done| |].
  - intros j Hj. rewrite He by done. by apply B2.
  - eapply tracks_Permutation; [|exact B3]. symmetry. apply marked_ext. intros j Hj. by rewrite He.
Qed.

(** Blocks with equal slots and marks. *)
Lemma block_fields st b b' start :
  elements b' = elements b → emptyFlags b' = emptyFlags b →
  elementsCompletelyDequeued b' = elementsCompletelyDequeued b → block_at st b start → block_at st b' start.
Proof.
  intros He Hf Hc [B1 B2 B3]. constructor; rewrite ?He; [done|done|].
  unfold tracks in *. by rewrite Hf, Hc.
Qed.

Lemma slot_at start (j : Z) : start mod BLOCK_SIZE = 0 → 0 <= j < BLOCK_SIZE → slot (u64 (start + j)) = j.
Proof. intros Hs Hj. rewrite slot_wrap. replace start with (base start 0) by (unfold base; lia). by apply base_slot. Qed.

(** One slot changes what it holds. *)
Lemma block_write st b start (j : nat) v :
  block_at st b start → j < BLOCK_SIZE → is_done v = false → is_done (st (start + j)) = false →
  block_at (fill st (start + j) (start + j + 1) v) (with_elements b (<[j := held v]> (elements b))) start.
Proof.
  intros [B1 B2 B3] Hj Hv Hd. constructor; simpl.
  - by rewrite length_insert.
  - intros j' Hj'. unfold fill. case_decide as He.
    + assert (j' = j) as -> by lia. rewrite list_lookup_insert_eq by lia. done.
    + rewrite list_lookup_insert_ne by lia. by apply B2.
  - eapply tracks_Permutation; [symmetry; apply (marked_ext st)|exact B3].
    intros j' Hj'. unfold fill. case_decide; [|done]. assert (j' = j) as -> by lia. congruence.
Qed.

Lemma take_slot st b start (j : nat) i x :
  block_at st b start → start mod BLOCK_SIZE = 0 → j < BLOCK_SIZE → st (start + j) = Claimed i x →
  element b (u64 (start + j)) = Ok x ∧
  ∃ b', destruct_at b (u64 (start + j)) = Ok b' ∧ next b' = next b ∧ freeListRefs b' = freeListRefs b ∧
    block_at (fill st (start + j) (start + j + 1) (Emptied i)) b' start.
Proof.
  intros B Hs Hj Hst. assert (Hel : elements b !! j = Some (Some x)) by (rewrite (ba_elements _ _ _ B) by done; by rewrite Hst).
  unfold element, destruct_at. rewrite slot_at, (aread_ok _ _ _ Hel), !bind_ok by (done || lia). split; [done|].
  rewrite awrite_ok by (by eapply lookup_lt_Some). rewrite bind_ok. eexists. split; [reflexivity|]. split_and!; [done..|].
  apply (block_write _ _ _ _ (Emptied i)); [done..|]. by rewrite Hst.
Qed.

Lemma construct_slot st b start (j : nat) x :
  block_at st b start → start mod BLOCK_SIZE = 0 → j < BLOCK_SIZE → st (start + j) = Raw →
  ∃ b', construct b (u64 (start + j)) x = Ok b' ∧ next b' = next b ∧ freeListRefs b' = freeListRefs b ∧
    block_at (fill st (start + j) (start + j + 1) (Full x)) b' start.
Proof.
  intros B Hs Hj Hst. assert (Hel : elements b !! j = Some None) by (rewrite (ba_elements _ _ _ B) by done; by rewrite Hst).
  unfold construct. rewrite slot_at, (aread_ok _ _ _ Hel), !bind_ok by (done || lia).
  rewrite awrite_ok by (by eapply lookup_lt_Some). rewrite bind_ok. eexists. split; [reflexivity|]. split_and!; [done..|].
  apply (block_write _ _ _ _ (Full x)); [done..|]. by rewrite Hst.
Qed.

(** A block without elements, reset. *)
Lemma fresh_block st (b : block T) start :
  length (elements b) = Z.to_nat BLOCK_SIZE → (∀ j : nat, j < BLOCK_SIZE → elements b !! j = Some None) →
  (∀ j : nat, j < BLOCK_SIZE → st (start + j) = Raw) → block_at st (reset_empty explicit_context b) start.
Proof.
  intros Hl He Hr. destruct (reset_fields explicit_context b) as (F1 & _ & _). constructor; rewrite ?F1; [done| |].
  - intros j Hj. by rewrite He, Hr.
  - eapply tracks_Permutation; [|apply reset_tracks]. apply NoDup_Permutation; [apply NoDup_nil_2|apply marked_nodup|].
    intros m. rewrite marked_elem. split; [by intros Hm%not_elem_of_nil|]. intros [Hj Hm]. by rewrite Hr in Hm.
Qed.

(** Marks, the last slot of a part first. *)
Lemma mark_slots st b start c (j n k : nat) i :
  block_at st b start → start mod BLOCK_SIZE = 0 → j + n <= BLOCK_SIZE → (k < n)%nat →
  (c = McDequeue.dequeue → n = 1%nat) → (use_flags explicit_context = false → k = 0%nat) →
  (∀ idx, start + j <= idx < start + j + n - k → st idx = Emptied i) →
  ∃ b' lo, mark c b (u64 (start + j)) n k = Ok (b', bool_decide (start + j < lo)) ∧
    next b' = next b ∧ freeListRefs b' = freeListRefs b ∧
    block_at (fill st lo (start + j + n - k) Done) b' start ∧
    (lo = start + j ∨ lo = start + j + n - S k ∧ use_flags explicit_context = true).
Proof.
  intros [B1 B2 B3] Hs Hj Hk Hc Hu He. pose proof block_size_pos.
  assert (Hfin : ∀ b' lo done, same_slots b b' → tracks explicit_context b' done → start + j <= lo < start + j + n - k →
    done ≡ₚ seq (Z.to_nat (lo - start)) (Z.to_nat (start + j + n - k - lo)) ++ marked st start →
    next b' = next b ∧ freeListRefs b' = freeListRefs b ∧ block_at (fill st lo (start + j + n - k) Done) b' start).
  { intros b' lo done (F1 & F2 & F3 & _) Ht Hlo Hd. split_and!; [done..|]. constructor; rewrite ?F1; [done| |].
    - intros j' Hj'. rewrite B2 by done. unfold fill. case_decide; [|done]. by rewrite He by lia.
    - eapply tracks_Permutation; [|exact Ht]. rewrite Hd. apply marked_fill; [lia..|]. intros idx Hi. by rewrite He by lia. }
  assert (Hfree : ∀ m : nat, (j ≤ m < j + n - k)%nat → m ∉ marked st start).
  { intros m Hm [_ Hd]%marked_elem. rewrite He in Hd; [done|lia]. }
  destruct c as [|max].
  - rewrite Hc in * by done. assert (k = 0)%nat as -> by lia.
    destruct (set_empty_tracks explicit_context b _ (u64 (start + j)) B3) as (b' & Hb & Ht & Hsame).
    { rewrite slot_at, Nat2Z.id by lia. apply Hfree. lia. }
    unfold mark. rewrite Hb, bind_ok. exists b', (start + j). rewrite bool_decide_eq_false_2 by lia. split; [done|].
    rewrite slot_at, Nat2Z.id in Ht by lia.
    destruct (Hfin b' (start + j) _ Hsame Ht ltac:(lia)) as (? & ? & ?); [|by split_and!; [..|left]].
    replace (Z.to_nat (start + j - start)) with j by lia. by replace (Z.to_nat _) with 1%nat by lia.
  - unfold mark. destruct (use_flags explicit_context) eqn:Hf.
    + assert (Hpos : u64 (BLOCK_SIZE - 1 - slot (u64 (start + j)) - n + 1) + k = BLOCK_SIZE - 1 - (j + n - S k)%nat).
      { rewrite slot_at by lia. rewrite wrap_small by (unfold fits; lia). lia. }
      rewrite Hpos.
      destruct (set_flag_tracks explicit_context b _ (j + n - S k)%nat Hf B3) as (b' & -> & Ht & Hsame); [apply Hfree; lia|lia|].
      rewrite bind_ok. exists b', (start + j + n - S k).
      assert (bool_decide (start + j < start + j + n - S k) = negb (S k =? n)) as ->.
      { destruct (Z.eqb_spec (S k) n); [rewrite bool_decide_eq_false_2|rewrite bool_decide_eq_true_2]; lia || done. }
      split; [done|]. destruct (Hfin b' (start + j + n - S k) _ Hsame Ht ltac:(lia)) as (? & ? & ?); [|by split_and!; [..|right]].
      replace (Z.to_nat (start + j + n - S k - start)) with (j + n - S k)%nat by lia. by replace (Z.to_nat _) with 1%nat by lia.
    + rewrite Hu in * by done.
      destruct (set_many_empty_tracks explicit_context b _ (u64 (start + j)) n B3) as (b' & Hb & Ht & Hsame);
        rewrite ?slot_at, ?Nat2Z.id in * by lia; [lia| |].
      { intros m Hm%elem_of_seq. apply Hfree. lia. }
      rewrite Hb, bind_ok. exists b', (start + j). rewrite bool_decide_eq_false_2 by lia. split; [done|].
      destruct (Hfin b' (start + j) _ Hsame Ht ltac:(lia)) as (? & ? & ?); [|by split_and!; [..|left]].
      replace (Z.to_nat (start + j - start)) with j by lia. by replace (Z.to_nat _) with n by lia.
Qed.
(** ** A consumer with a claim *)

(** Of the indices up to [e], consumer [i] has still to empty those from [cl], and to mark
    those it emptied from [m] to [m']. *)
Definition owns (st : Z → status) (i : nat) (cl e m m' : Z) : Prop :=
  (∀ idx, (∃ x, st idx = Claimed i x) ↔ cl <= idx < e) ∧ (∀ idx, st idx = Emptied i ↔ m <= idx < m').

(** It knows the position of the entry of the block of [idx]. *)
Definition route r n ring A (e : Z) (hid : nat) (ii idx : Z) : Prop :=
  ∃ sz f B, sees r n ring A hid sz f B ∧ e <= B + BLOCK_SIZE ∧ ii = position sz f B idx.

Definition part_end (e idx : Z) : Z := Z.min e (block_base idx + BLOCK_SIZE).

Definition walk_ok r n ring A st (i : nat) (c : McDequeue.call) (f e : Z) (w : hand) : Prop :=
  match w with
  | LoadIndex => owns st i f e f f
  | LoadFront hid => owns st i f e f f ∧ will_see r ring A hid e
  | ReadBase hid fr => owns st i f e f f ∧ ∃ sz B, sees r n ring A hid sz fr B ∧ e <= B + BLOCK_SIZE
  | ReadBlock hid ii index => ∃ cur, index = u64 cur ∧ f <= cur < e ∧ owns st i cur e cur cur ∧
      route r n ring A e hid ii cur
  | Move hid ii b from index => ∃ c0 cur, from = u64 c0 ∧ index = u64 cur ∧ f <= c0 <= cur ∧
      cur < part_end e c0 ∧ owns st i cur e c0 cur ∧ route r n ring A e hid ii c0 ∧ block_in ring A b c0
  | Mark hid ii b from index k => ∃ c0, from = u64 c0 ∧ index = u64 (part_end e c0) ∧ f <= c0 < e ∧
      owns st i (part_end e c0) e c0 (part_end e c0 - k) ∧ k < part_end e c0 - c0 ∧
      (use_flags explicit_context = false → k = 0%nat) ∧ route r n ring A e hid ii c0 ∧ block_in ring A b c0
  | Finished => owns st i f f f f
  end.

Definition hand_ok r n ring A st (h0 h : Z) (i : nat) (c : McDequeue.call) (first count : Z) (w : hand) : Prop :=
  ∃ f, first = u64 f ∧ (c = McDequeue.dequeue → count = 1) ∧ 0 < count ∧ h0 <= f ∧ f + count <= h ∧
    walk_ok r n ring A st i c f (f + count) w.

Record hands_ok r n ring A st (h0 h : Z) (s : state) : Prop := {
  ha_length : length (hands s) = length (McDequeue.threads (counters s));
  ha_claim i c first count w : claim_at s i = Some (c, first, count) → hands s !! i = Some w →
    hand_ok r n ring A st h0 h i c first count w;
  ha_idle i w : claim_at s i = None → hands s !! i = Some w → w = LoadIndex;
  ha_busy i idx : busy i (st idx) → is_Some (claim_at s i)
}.

Lemma owns_change st st' i cl e m m' :
  (∀ idx, busy i (st idx) ∨ busy i (st' idx) → st' idx = st idx) → owns st i cl e m m' → owns st' i cl e m m'.
Proof.
  intros Hs [O1 O2]. split; intros idx.
  - rewrite <- O1. split; intros [x Hx]; exists x; rewrite <- Hx; [symmetry|]; apply Hs; rewrite Hx; simpl; tauto.
  - rewrite <- O2. split; intros Hx; rewrite <- Hx; [symmetry|]; apply Hs; rewrite Hx; simpl; tauto.
Qed.

Lemma owns_below st i cl e m m' a idx :
  (∀ j, j < a → st j = Done) → owns st i cl e m m' → cl <= idx < e ∨ m <= idx < m' → a <= idx.
Proof.
  intros Hlow [O1 O2] Hi. destruct (decide (a <= idx)) as [|Hn]; [done|]. specialize (Hlow idx ltac:(lia)).
  destruct Hi as [Hi|Hi]; [apply O1 in Hi as [x Hx]|apply O2 in Hi as Hx]; congruence.
Qed.

Lemma walk_keeps r n ring A r' n' ring' A' st i c f e w :
  keeps r n ring A r' n' ring' A' → (∀ j, j < A' → st j = Done) → f < e <= base A n →
  walk_ok r n ring A st i c f e w → walk_ok r' n' ring' A' st i c f e w.
Proof.
  intros [K1 K2 K3 K4] Hlow He.
  assert (Hroute : ∀ hid ii idx, A' <= idx < e → route r n ring A e hid ii idx → route r' n' ring' A' e hid ii idx).
  { intros hid ii idx Hi (sz & fr & B & Hs & HB & ->). exists sz, fr, B. split_and!; [|done..].
    apply (K1 _ _ _ _ idx); [lia|done]. }
  destruct w as [|hid|hid fr|hid ii index|hid ii b from index|hid ii b from index k|]; simpl; try done.
  - intros [O W]. split; [done|]. apply K2; [|done]. pose proof (owns_below _ _ _ _ _ _ _ (e - 1) Hlow O). lia.
  - intros (O & sz & B & Hs & HB). split; [done|]. exists sz, B. split; [|done].
    pose proof (owns_below _ _ _ _ _ _ _ f Hlow O). apply (K1 _ _ _ _ f); [lia|done].
  - intros (cur & -> & Hc & O & R). exists cur. split_and!; [done|lia|lia|done|].
    apply Hroute; [|done]. pose proof (owns_below _ _ _ _ _ _ _ cur Hlow O). lia.
  - intros (c0 & cur & -> & -> & Hc & Hcur & O & R & B). unfold part_end in *. exists c0, cur. split_and!; try done; [lia|lia| |].
    + apply Hroute; [|done]. pose proof (owns_below _ _ _ _ _ _ _ c0 Hlow O). lia.
    + apply K3; [|done]. pose proof (owns_below _ _ _ _ _ _ _ c0 Hlow O). lia.
  - intros (c0 & -> & -> & Hc & O & Hk & Hu & R & B). exists c0. split_and!; try done; [lia|lia| |].
    + apply Hroute; [|done]. pose proof (owns_below _ _ _ _ _ _ _ c0 Hlow O). lia.
    + apply K3; [|done]. pose proof (owns_below _ _ _ _ _ _ _ c0 Hlow O). lia.
Qed.

Lemma walk_change r n ring A st st' i c f e w :
  (∀ idx, busy i (st idx) ∨ busy i (st' idx) → st' idx = st idx) →
  walk_ok r n ring A st i c f e w → walk_ok r n ring A st' i c f e w.
Proof.
  intros Hs. pose proof (λ cl e m m', owns_change st st' i cl e m m' Hs) as Ho.
  destruct w; simpl; [auto|intros []; auto|intros []; auto| | | |auto].
  - intros (cur & ? & ? & ? & ?). exists cur. split_and!; first [done | by apply Ho | lia].
  - intros (c0 & cur & ? & ? & ? & ? & ? & ? & ?). exists c0, cur. split_and!; first [done | by apply Ho | lia].
  - intros (c0 & ? & ? & ? & ? & ? & ? & ? & ?). exists c0. split_and!; first [done | by apply Ho | lia].
Qed.

(** A position leads to the block, and to the next one. *)
Lemma route_block r n ring A e hid ii idx :
  route r n ring A e hid ii idx → McExplicit.index_for r ring n A → (n ≤ length ring)%nat →
  A mod BLOCK_SIZE = 0 → BLOCK_SIZE * length ring < 2 ^ 62 → A <= idx < e →
  ∃ hd b v, header_at r hid = Ok hd ∧ aread (McExplicit.entries hd) ii = Ok (Some (v, b)) ∧ block_in ring A b idx.
Proof.
  intros (sz & f & B & Hs & HB & ->) X Hn HA Hsz Hi.
  destruct (sees_covers _ _ _ _ _ _ _ _ Hs X Hn) as (hd & Hh & <- & C).
  destruct (covers_position _ _ _ _ _ idx C HA Hsz) as (_ & k & b & Hk & Hb & Hr); [lia|].
  exists hd, b, (u64 (base A k)). split_and!; [done..|]. by exists k.
Qed.

Lemma block_base_next idx : block_base (block_base idx + BLOCK_SIZE) = block_base idx + BLOCK_SIZE.
Proof.
  pose proof block_size_pos. unfold block_base at 1. unfold block_base.
  replace (idx - idx mod BLOCK_SIZE + BLOCK_SIZE) with (BLOCK_SIZE * (idx / BLOCK_SIZE + 1))
    by (pose proof (Z.div_mod idx BLOCK_SIZE); lia).
  rewrite (Z.mul_comm BLOCK_SIZE), Z.mod_mul by lia. lia.
Qed.

Lemma route_next r n ring A e hid ii idx :
  route r n ring A e hid ii idx → McExplicit.index_for r ring n A → (n ≤ length ring)%nat →
  idx < e → part_end e idx ≠ e →
  ∃ hd, header_at r hid = Ok hd ∧
    route r n ring A e hid (Z.land (u64 (ii + 1)) (McExplicit.size hd - 1)) (part_end e idx).
Proof.
  intros (sz & f & B & Hs & HB & ->) X Hn Hi Hne. pose proof block_size_pos.
  destruct (sees_covers _ _ _ _ _ _ _ _ Hs X Hn) as (hd & Hh & <- & C). exists hd. split; [done|].
  exists (McExplicit.size hd), f, B. split_and!; [done..|].
  destruct C as [(m & Hm & C1) C2 _ C4 _ _]. assert (Hp : part_end e idx = block_base idx + BLOCK_SIZE) by (unfold part_end in *; lia).
  rewrite Hp. unfold position. rewrite block_base_next. set (d := (B - block_base idx) / BLOCK_SIZE).
  replace (B - (block_base idx + BLOCK_SIZE)) with (B - block_base idx + (-1) * BLOCK_SIZE) by lia.
  rewrite Z.div_add by lia. fold d. pose proof (Z.mod_pos_bound (f - d) (McExplicit.size hd) ltac:(lia)).
  rewrite (wrap_small 64) by (unfold fits; nia). rewrite (land_size _ m) by done.
  rewrite Zplus_mod_idemp_l. f_equal. lia.
Qed.

(** The producer moves on, or a status that is no consumer's changes. *)
Lemma hands_keeps r n ring A r' n' ring' A' st h0 h s :
  keeps r n ring A r' n' ring' A' → (∀ j, j < A' → st j = Done) → h <= base A n →
  hands_ok r n ring A st h0 h s → hands_ok r' n' ring' A' st h0 h s.
Proof.
  intros K Hlow Hh [H1 H2 H3 H4]. constructor; try done. intros i c first count w Hc Hw.
  destruct (H2 i c first count w Hc Hw) as (f & -> & ? & ? & ? & ? & W). exists f. split_and!; try done.
  eapply walk_keeps; [done|done|lia|done].
Qed.

Lemma hands_free r n ring A st st' h0 h s :
  (∀ i idx, busy i (st idx) ∨ busy i (st' idx) → st' idx = st idx) →
  hands_ok r n ring A st h0 h s → hands_ok r n ring A st' h0 h s.
Proof.
  intros Hs [H1 H2 H3 H4]. constructor; try done.
  - intros i c first count w Hc Hw. destruct (H2 i c first count w Hc Hw) as (f & -> & ? & ? & ? & ? & W).
    exists f. split_and!; try done. eapply walk_change; [apply Hs|done].
  - intros i idx Hb. apply (H4 i idx). by rewrite <- (Hs i idx) by tauto.
Qed.

(** Only the counters and the consumers' part of the state matter. *)
Lemma hands_same r n ring A st h0 h s s' :
  counters s' = counters s → hands s' = hands s → hands_ok r n ring A st h0 h s → hands_ok r n ring A st h0 h s'.
Proof.
  intros Hc Hh [H1 H2 H3 H4]. assert (∀ i, claim_at s' i = claim_at s i) as He by (intros; unfold claim_at; by rewrite Hc).
  constructor; rewrite ?Hc, ?Hh; [done|..]; intros *; rewrite He; [apply H2|apply H3|apply H4].
Qed.
(** ** What holds in every state *)

(** The element that is constructed, but not yet published. *)
Definition building (o : option (bool * T * place)) : list T :=
  match o with Some (_, x, StoreTail) => [x] | _ => [] end.
(** The blocks of the ring that the index has. *)
Definition indexed (o : option (bool * T * place)) (ring : list nat) : nat :=
  match o with Some (_, _, (WriteEntry | StoreFront)) => length ring - 1 | _ => length ring end.
(** The call may still add a block to the ring. *)
Definition wants (o : option (bool * T * place)) : nat :=
  match o with Some (_, _, (CheckEmpty _ _ | Reuse _ | LoadHead | EnsureIndex | Requisition)) => 1 | _ => 0 end.

(** A call on one element claims at most one. *)
Definition one_at (th : option (McDequeue.call * McDequeue.pc)) : Prop :=
  match th with
  | Some (McDequeue.dequeue, p) =>
      match p with
      | McDequeue.AddOptimistic _ d | McDequeue.ReloadTail _ d _ | McDequeue.AddOvercommit _ (Some d)
      | McDequeue.AddHead d => d = 1
      | McDequeue.Returning _ n => n <= 1
      | _ => True
      end
  | _ => True
  end.

Section invariant.
(** The counters at the start, the elements then, and the blocks of other producers. *)
Variables (t0 h0 v0 : Z) (xs : list T) (rest : gset nat).

Definition everything (s : state) : list T := xs ++ given s ++ building (putting s).
Definition tail_of (s : state) : Z := t0 + length (given s).
Definition head_of (s : state) : Z := h0 + McDequeue.claims_of (McDequeue.claims (counters s)).

Definition place_ok (s : state) (ring : list nat) (A : Z) (st : Z → status) : Prop :=
  match putting s with
  | None => base A (length ring) - BLOCK_SIZE < tail_of s <= base A (length ring)
  | Some (_, _, w) =>
      match w with
      | CheckEmpty nx k => tail_of s = base A (length ring) ∧ head ring = Some nx ∧ k < BLOCK_SIZE ∧
          ∀ j : nat, BLOCK_SIZE - k <= j < BLOCK_SIZE → st (A + j) = Done
      | Reuse nx => tail_of s = base A (length ring) ∧ head ring = Some nx ∧
          ∀ j : nat, j < BLOCK_SIZE → st (A + j) = Done
      | LoadHead | EnsureIndex => tail_of s = base A (length ring)
      | Requisition => tail_of s = base A (length ring) ∧
          Z.of_nat (length ring) < McExplicit.pr_blockIndexSize (own s) ∧ McExplicit.blockIndex (own s) ≠ []
      | WriteEntry => ring ≠ [] ∧ tail_of s = base A (length ring - 1) ∧ McExplicit.blockIndex (own s) ≠ []
      | StoreFront => ring ≠ [] ∧ tail_of s = base A (length ring - 1) ∧
          ∃ hd hs tb, McExplicit.blockIndex (own s) = hd :: hs ∧ last ring = Some tb ∧
            McExplicit.entries hd !! Z.to_nat (McExplicit.pr_blockIndexFront (own s)) = Some (Some (u64 (tail_of s), tb))
      | Construct | StoreTail => ring ≠ [] ∧
          base A (length ring) - BLOCK_SIZE <= tail_of s < base A (length ring)
      end
  end.

Record shape (s : state) (owned : gset nat) (ring : list nat) (A : Z) (st : Z → status) : Prop := {
  sh_pool : pool_ok (blocks s) owned;
  sh_owned i : i ∈ ring → i ∈ owned;
  sh_others : McExplicit.others owned ring = rest;
  sh_nodup : NoDup ring;
  sh_tail_block : McExplicit.tailBlock (own s) = last ring;
  sh_tail : McExplicit.tailIndex (own s) = u64 (tail_of s);
  sh_aligned : A mod BLOCK_SIZE = 0;
  sh_blocks k i : ring !! k = Some i → ∃ b, heap (blocks s) !! i = Some b ∧
    next b = McExplicit.successor ring k ∧ block_at st b (base A k);
  sh_low idx : idx < A → st idx = Done;
  sh_head idx : idx < head_of s → spent (st idx) = true;
  sh_full idx : head_of s <= idx < h0 + length (everything s) → ∃ x, st idx = Full x;
  sh_raw idx : h0 + length (everything s) <= idx → st idx = Raw;
  sh_value idx x : held (st idx) = Some x → h0 <= idx ∧ everything s !! Z.to_nat (idx - h0) = Some x;
  sh_index : McExplicit.index_for (own s) ring (indexed (putting s) ring) A;
  sh_front : (0 < indexed (putting s) ring)%nat → McExplicit.front_ok (own s);
  sh_unindexed : McExplicit.blockIndex (own s) = [] → McExplicit.pr_blockIndexFront (own s) = 0 ∧
    McExplicit.pr_blockIndexSize (own s) * BLOCK_SIZE <= 2 ^ 62;
  sh_place : place_ok s ring A st
}.

(** What was moved out is what the indices say, each once. *)
Record log_ok (s : state) (st : Z → status) : Prop := {
  lo_list : ∃ l, (taken s).*2 = (λ e, (u64 e.1, e.2)) <$> l ∧ NoDup l.*1 ∧
    ∀ idx x, (idx, x) ∈ l ↔ h0 <= idx < head_of s ∧ (∀ i y, st idx ≠ Claimed i y) ∧
      everything s !! Z.to_nat (idx - h0) = Some x
}.

(** All of it; [budget] bounds what calls may ask for. *)
Record ready (budget : Z) (s : state) (owned : gset nat) (ring : list nat) (A : Z) (st : Z → status) : Prop := {
  rd_counts : ∃ used ts, McDequeue.inv t0 h0 (v0 + h0) v0 used ts (tail_of s) (counters s) ∧
    used + (if putting s is Some _ then 1 else 0) <= budget;
  rd_head : McDequeue.counts (McDequeue.headIndex (McDequeue.sh (counters s))) h0 (head_of s);
  rd_one : Forall one_at (McDequeue.threads (counters s));
  rd_shape : shape s owned ring A st;
  rd_hands : hands_ok (own s) (indexed (putting s) ring) ring A st h0 (head_of s) s;
  rd_log : log_ok s st
}.

(** [room] bounds the blocks of the ring. *)
Definition holds (budget : Z) (room : nat) (s : state) : Prop :=
  ∃ owned ring A st, ready budget s owned ring A st ∧ (length ring + wants (putting s) ≤ room)%nat.

Hypothesis Hstart : h0 <= t0 ∧ Z.of_nat (length xs) = t0 - h0.

(** The head is between the ring's begin and the tail. *)
Lemma shape_bounds s owned ring A st :
  shape s owned ring A st → A <= head_of s.
Proof.
  intros Sh. destruct (Z.le_gt_cases A (head_of s)) as [|Hlt]; [done|].
  pose proof (sh_low _ _ _ _ _ Sh (head_of s) Hlt) as Hd.
  destruct (Z.lt_ge_cases (head_of s) (h0 + length (everything s))).
  - destruct (sh_full _ _ _ _ _ Sh (head_of s)) as [x Hx]; [lia|]. congruence.
  - rewrite (sh_raw _ _ _ _ _ Sh) in Hd by done. done.
Qed.

Lemma everything_length s : Z.of_nat (length (everything s)) = tail_of s - h0 + length (building (putting s)).
Proof. unfold everything, tail_of. rewrite !length_app. lia. Qed.

Lemma claimed_le budget ts s :
  McDequeue.inv t0 h0 (v0 + h0) v0 budget ts (tail_of s) (counters s) → h0 <= head_of s <= tail_of s.
Proof.
  intros I. pose proof (McDequeue.counts_le _ _ _ (McDequeue.inv_tail _ _ _ _ _ _ _ _ I)).
  destruct (McDequeue.inv_claims _ _ _ _ _ _ _ _ I) as [Htile Hsum].
  destruct (McDequeue.tiled_indices _ _ Htile) as [Hn _]. unfold head_of. rewrite Hsum in *. split; [lia|].
  pose proof (McDequeue.claimed_bound h0 v0 (tail_of s) ts ltac:(lia) (McDequeue.inv_tickets _ _ _ _ _ _ _ _ I)). lia.
Qed.

Lemma used_bound used ts s :
  McDequeue.inv t0 h0 (v0 + h0) v0 used ts (tail_of s) (counters s) → tail_of s - t0 <= used.
Proof.
  intros I. pose proof (McDequeue.inv_budget _ _ _ _ _ _ _ _ I) as Hb.
  assert (0 <= zsum McDequeue.width ts).
  { rewrite <- (take_ge ts (length ts)) by lia. apply zsum_nonneg.
    eapply McDequeue.tickets_forall; [|apply I]. intros ? k []. unfold McDequeue.kept in *. lia. }
  assert (0 <= zsum McDequeue.owed (McDequeue.threads (counters s))); [|lia].
  apply zsum_nonneg, Forall_lookup. intros j [[e q]|] Hj; [|done].
  pose proof (McDequeue.inv_threads _ _ _ _ _ _ _ _ I j e q Hj) as Hp. destruct q; simpl in *; lia.
Qed.

Lemma indexed_bounds s owned ring A st :
  shape s owned ring A st → (indexed (putting s) ring ≤ length ring)%nat ∧ tail_of s <= base A (indexed (putting s) ring).
Proof.
  intros Sh. pose proof (sh_place _ _ _ _ _ Sh) as Hp. unfold place_ok in Hp. unfold indexed.
  destruct (putting s) as [[[ca x] []]|]; (split; [lia|]); first [lia|destruct Hp as [? Hp]; lia|destruct Hp as (? & ? & ?); lia].
Qed.
(** ** Steps of the producer *)

(** A step that constructs nothing and publishes nothing. *)
Lemma own_ready_from budget budget' s owned ring A st p r o owned' ring' A' :
  ready budget s owned ring A st →
  (if o is Some _ then 1 else 0) + budget <= (if putting s is Some _ then 1 else 0) + budget' →
  building o = building (putting s) → shape (with_own s p r o) owned' ring' A' st →
  keeps (own s) (indexed (putting s) ring) ring A r (indexed o ring') ring' A' →
  ready budget' (with_own s p r o) owned' ring' A' st.
Proof.
  intros R Hp Hb Sh K. pose proof R as [(used & ts & I & Hu) Rh Ro Rs Rd [Rl]].
  assert (He : everything (with_own s p r o) = everything s) by (unfold everything; simpl; by rewrite Hb).
  constructor; try done.
  - exists used, ts. split; [done|]. simpl. lia.
  - apply (hands_same _ _ _ _ _ _ _ s); [done..|]. eapply hands_keeps; [exact K|apply Sh| |exact Rd].
    pose proof (claimed_le _ _ _ I). destruct (indexed_bounds _ _ _ _ _ Rs).
    change (head_of (with_own s p r o)) with (head_of s). lia.
  - constructor. by rewrite He.
Qed.

Lemma own_ready budget s owned ring A st p r o owned' ring' A' :
  ready budget s owned ring A st → putting s ≠ None → building o = building (putting s) →
  shape (with_own s p r o) owned' ring' A' st →
  keeps (own s) (indexed (putting s) ring) ring A r (indexed o ring') ring' A' →
  ready budget (with_own s p r o) owned' ring' A' st.
Proof.
  intros R Hp Hb Sh K. eapply own_ready_from; [exact R| |exact Hb|exact Sh|exact K].
  destruct (putting s); [|done]. destruct o; lia.
Qed.

(** The producer only goes to another place. *)
Lemma shape_place s owned ring A st o :
  shape s owned ring A st → building o = building (putting s) → indexed o ring = indexed (putting s) ring →
  place_ok (with_own s (blocks s) (own s) o) ring A st →
  shape (with_own s (blocks s) (own s) o) owned ring A st.
Proof.
  intros Sh Hb Hi Hp. assert (He : everything (with_own s (blocks s) (own s) o) = everything s)
    by (unfold everything; simpl; by rewrite Hb).
  destruct Sh. constructor; rewrite ?He; simpl; rewrite ?Hi; done.
Qed.

Lemma own_place budget s owned ring A st o :
  ready budget s owned ring A st → putting s ≠ None → building o = building (putting s) →
  indexed o ring = indexed (putting s) ring → place_ok (with_own s (blocks s) (own s) o) ring A st →
  ready budget (with_own s (blocks s) (own s) o) owned ring A st.
Proof.
  intros R Hn Hb Hi Hp. apply (own_ready budget s owned ring A); try done.
  - apply shape_place; try done. apply R.
  - rewrite Hi. by apply keeps_same.
Qed.

Lemma ring_head s owned ring A st nx :
  shape s owned ring A st → head ring = Some nx →
  ∃ b, heap (blocks s) !! nx = Some b ∧ block_at st b A.
Proof.
  intros Sh Hh. destruct ring as [|i ring]; [done|]. injection Hh as ->.
  destruct (sh_blocks _ _ _ _ _ Sh 0%nat nx eq_refl) as (b & Hb & _ & B). exists b.
  split; [done|]. by replace A with (base A 0) by (unfold base; lia).
Qed.

(** A look at a mark of the block ahead. *)
Lemma check_ok st b A nx (k : nat) :
  block_at st b A → k < BLOCK_SIZE → (∀ j : nat, BLOCK_SIZE - k <= j < BLOCK_SIZE → st (A + j) = Done) →
  ∃ w, check b nx k = Ok w ∧
    match w with
    | CheckEmpty nx' k' => nx' = nx ∧ k' < BLOCK_SIZE ∧ ∀ j : nat, BLOCK_SIZE - k' <= j < BLOCK_SIZE → st (A + j) = Done
    | Reuse nx' => nx' = nx ∧ ∀ j : nat, j < BLOCK_SIZE → st (A + j) = Done
    | LoadHead => True
    | _ => False
    end.
Proof.
  intros [B1 B2 B3] Hk Hd. pose proof block_size_pos. unfold check. destruct (use_flags explicit_context) eqn:Hu.
  - pose proof B3 as (_ & _ & Hf). rewrite Hu in Hf. destruct Hf as [_ Hf].
    specialize (Hf (Z.to_nat BLOCK_SIZE - 1 - k)%nat ltac:(lia)).
    replace (Z.to_nat BLOCK_SIZE - 1 - (Z.to_nat BLOCK_SIZE - 1 - k))%nat with k in Hf by lia.
    rewrite (aread_ok _ _ _ Hf), bind_ok. case_bool_decide as Hm; [|by eexists].
    apply marked_elem in Hm as [_ Hm].
    assert (Hnow : ∀ j : nat, BLOCK_SIZE - S k <= j < BLOCK_SIZE → st (A + j) = Done).
    { intros j Hj. destruct (decide (j = Z.to_nat BLOCK_SIZE - 1 - k)%nat) as [->|Hne]; [|apply Hd; lia].
      by destruct (st _). }
    destruct (Z.eqb_spec (S k) BLOCK_SIZE); eexists; (split; [reflexivity|]); simpl; split_and!; try done; try lia.
    intros j Hj. apply Hnow. lia.
  - rewrite (is_empty_tracks _ _ _ B3), bind_ok. case_bool_decide as Hl; [|by eexists].
    exists (Reuse nx). split; [done|]. split; [done|]. intros j Hj.
    destruct (done_length (marked st A)) as [_ Hall]; [apply marked_nodup|by intros ? [? _]%marked_elem|].
    apply (proj1 Hall Hl), marked_elem in Hj as [_ Hj]. by destruct (st _).
Qed.

Lemma check_step budget s owned ring A st ca x nx k :
  ready budget s owned ring A st → putting s = Some (ca, x, CheckEmpty nx k) →
  ∃ w, (b ← deref (blocks s) nx; check b nx k) = Ok w ∧
    wants (Some (ca, x, w)) = 1%nat ∧
    ready budget (with_own s (blocks s) (own s) (Some (ca, x, w))) owned ring A st.
Proof.
  intros R Hp. pose proof (sh_place _ _ _ _ _ (rd_shape _ _ _ _ _ _ R)) as Hpl. unfold place_ok in Hpl. rewrite Hp in Hpl.
  destruct Hpl as (Ht & Hh & Hk & Hd). destruct (ring_head _ _ _ _ _ _ (rd_shape _ _ _ _ _ _ R) Hh) as (b & Hb & B).
  rewrite (deref_ok _ _ _ Hb), bind_ok. destruct (check_ok st b A nx k B Hk Hd) as (w & -> & Hw). exists w. split; [done|].
  split; [by destruct w|]. apply own_place; [done|by rewrite Hp|by rewrite Hp; destruct w|by rewrite Hp; destruct w|].
  unfold place_ok. simpl. destruct w; naive_solver.
Qed.

Lemma load_head_step budget s owned ring A st ca x v :
  t0 - h0 + budget < 2 ^ 62 →
  ready budget s owned ring A st → putting s = Some (ca, x, LoadHead) →
  McDequeue.visible (McDequeue.headIndex (McDequeue.sh (counters s))) v = true →
  negb (clt (McExplicit.tailIndex (own s)) v) = true ∧
  ready budget (with_own s (blocks s) (own s) (Some (ca, x, EnsureIndex))) owned ring A st ∧
  ready budget (with_own s (blocks s) (own s) None) owned ring A st.
Proof.
  intros Hbud R Hp Hv. pose proof R as [(used & ts & I & Hu) Rh Ro Rs Rd Rl]. pose proof block_size_pos.
  pose proof (sh_place _ _ _ _ _ Rs) as Hpl. unfold place_ok in Hpl. rewrite Hp in Hpl.
  destruct (McDequeue.counts_visible _ _ _ _ Rh Hv) as (y & -> & Hy). pose proof (claimed_le _ _ _ I).
  pose proof (McDequeue.inv_budget _ _ _ _ _ _ _ _ I) as Hb. split_and!.
  - rewrite (sh_tail _ _ _ _ _ Rs). apply in_order. rewrite Hp in Hu.
    pose proof (used_bound _ _ _ I). lia.
  - by apply own_place; rewrite ?Hp.
  - apply own_place; rewrite ?Hp; try done. unfold place_ok. simpl. change (tail_of _) with (tail_of s). lia.
Qed.
(** The block ahead is taken again. *)
Lemma reuse_step budget s owned ring A st ca x nx :
  ready budget s owned ring A st → putting s = Some (ca, x, Reuse nx) →
  ∃ p' ring', update (blocks s) nx (reset_empty explicit_context) = Ok p' ∧ length ring' = length ring ∧
    ready budget
      (with_own s p' (McExplicit.set_block (own s) (Some nx) (McExplicit.pr_blockIndexSlotsUsed (own s)))
         (Some (ca, x, WriteEntry))) owned ring' (A + BLOCK_SIZE) st.
Proof.
  intros R Hp. pose proof (rd_shape _ _ _ _ _ _ R) as Sh. pose proof block_size_pos.
  pose proof (sh_place _ _ _ _ _ Sh) as Hpl. unfold place_ok in Hpl. rewrite Hp in Hpl. destruct Hpl as (Ht & Hh & Hd).
  destruct ring as [|i rest0]; [done|]. injection Hh as ->.
  destruct (sh_blocks _ _ _ _ _ Sh 0%nat nx eq_refl) as (b & Hb & Hn & B).
  assert (HB : base A 0 = A) by (unfold base; lia). rewrite HB in B. destruct (reset_fields explicit_context b) as (F1 & F2 & F3).
  rewrite (update_ok _ _ _ _ Hb). exists (with_heap (blocks s) (<[nx:=reset_empty explicit_context b]> (heap (blocks s)))), (rest0 ++ [nx]).
  assert (Hlen : length (rest0 ++ [nx]) = length (nx :: rest0)) by (rewrite length_app; simpl; lia).
  split; [done|]. split; [done|].
  pose proof (everything_length s) as Hel. rewrite Hp in Hel. simpl length in Hel.
  apply (own_ready budget s owned (nx :: rest0) A); [done|by rewrite Hp|by rewrite Hp| |].
  2:{ rewrite Hp. simpl indexed. rewrite Hlen. replace (length (nx :: rest0) - 1)%nat with (length rest0) by (simpl; lia).
      apply keeps_rotate. }
  assert (Hevery : everything (with_own s (with_heap (blocks s) (<[nx:=reset_empty explicit_context b]> (heap (blocks s))))
    (McExplicit.set_block (own s) (Some nx) (McExplicit.pr_blockIndexSlotsUsed (own s))) (Some (ca, x, WriteEntry))) = everything s)
    by (unfold everything; by rewrite Hp).
  assert (Hraw : ∀ idx, base A (length (nx :: rest0)) <= idx → st idx = Raw).
  { intros idx Hi. apply (sh_raw _ _ _ _ _ Sh). lia. }
  constructor; simpl; rewrite ?Hevery; try apply Sh.
  - apply update_owned; [apply Sh|apply Sh; left|done|done].
  - intros j Hj. apply Sh. rewrite elem_of_app, list_elem_of_singleton in Hj. apply elem_of_cons. tauto.
  - rewrite <- (sh_others _ _ _ _ _ Sh). unfold McExplicit.others. set_solver.
  - rewrite Permutation_app_comm. apply Sh.
  - by rewrite last_snoc.
  - rewrite Z.add_mod, (sh_aligned _ _ _ _ _ Sh), Z.mod_same by lia. by rewrite Z.mod_0_l by lia.
  - intros k j Hk. rewrite base_shift. destruct (decide (k < length rest0)%nat) as [Hlt|Hge].
    + rewrite lookup_app_l in Hk by done. destruct (sh_blocks _ _ _ _ _ Sh (S k) j Hk) as (bj & Hbj & Hnj & Bj).
      assert (nx ≠ j).
      { intros ->. pose proof (sh_nodup _ _ _ _ _ Sh) as [Hi _]%NoDup_cons. apply Hi. by eapply list_elem_of_lookup_2. }
      exists bj. rewrite lookup_insert_ne, McExplicit.rotate_successor by done. by split_and!.
    + rewrite lookup_app_r in Hk by lia. apply list_lookup_singleton_Some in Hk as [Hk ->].
      assert (k = length rest0) as -> by lia. eexists. rewrite lookup_insert_eq. split; [done|].
      rewrite McExplicit.rotate_successor_last, F2. split; [done|].
      change (base A (S (length rest0))) with (base A (length (j :: rest0))).
      apply fresh_block; [apply B| |intros m Hm; apply Hraw; lia].
      intros m Hm. rewrite (ba_elements _ _ _ B), Hd by done. done.
  - intros idx Hi. destruct (decide (idx < A)) as [|Hge]; [by apply Sh|].
    replace idx with (A + Z.to_nat (idx - A)) by lia. apply Hd. lia.
  - apply McExplicit.index_set_block; [|done]. rewrite Hlen. replace (length (nx :: rest0) - 1)%nat with (length rest0) by (simpl; lia).
    apply McExplicit.index_rotate. pose proof (sh_index _ _ _ _ _ Sh) as X. by rewrite Hp in X.
  - intros _. apply (sh_front _ _ _ _ _ Sh). rewrite Hp. simpl. lia.
  - unfold place_ok. simpl. split; [by destruct rest0|]. change (tail_of _) with (tail_of s). split.
    + rewrite Ht, Hlen, base_shift. f_equal. simpl. lia.
    + intros Hnil. pose proof (sh_index _ _ _ _ _ Sh) as X. apply McExplicit.ix_current in X. by rewrite Hnil in X.
Qed.
(** A larger index, or none. *)
Lemma ensure_step budget s owned ring A st ca x :
  BLOCK_SIZE * length ring < 2 ^ 62 →
  ready budget s owned ring A st → putting s = Some (ca, x, EnsureIndex) →
  ∃ p' r' ok, McExplicit.ensure_index ca (blocks s) (own s) = Ok (p', r', ok) ∧
    ready budget (with_own s p' r' (if ok : bool then Some (ca, x, Requisition) else None)) owned ring A st.
Proof.
  intros Hsz R Hp. pose proof (rd_shape _ _ _ _ _ _ R) as Sh. pose proof block_size_pos.
  pose proof (sh_place _ _ _ _ _ Sh) as Hpl. unfold place_ok in Hpl. rewrite Hp in Hpl.
  pose proof (sh_index _ _ _ _ _ Sh) as X. pose proof (sh_front _ _ _ _ _ Sh) as F. rewrite Hp in X, F. simpl in X, F.
  destruct (McExplicit.ensure_index_for ca (blocks s) (own s) ring A X) as
    (p' & r' & ok & He & Hpool & Hr & X' & F' & Hok & _); [|done|apply Sh|].
  { intros Hne. apply F. destruct ring; [done|simpl; lia]. }
  exists p', r', ok. split; [done|].
  assert (Hheap : heap p' = heap (blocks s) ∧ pool_ok p' owned).
  { destruct Hpool as [->| ->]; (split; [done|]); [apply Sh|apply malloc_pool, Sh]. }
  assert (Hrest : McExplicit.tailBlock r' = McExplicit.tailBlock (own s) ∧ McExplicit.tailIndex r' = McExplicit.tailIndex (own s)).
  { by destruct Hr as [->|(hd & sz & f & ->)]. }
  set (o := if ok then _ else _).
  assert (Hb : building o = building (putting s)) by (rewrite Hp; by destruct ok).
  assert (Hi : indexed o ring = length ring) by (by destruct ok).
  apply (own_ready budget s owned ring A); [done|by rewrite Hp|done| |].
  2:{ rewrite Hi, Hp. simpl indexed. destruct Hr as [->|(hd & sz & f & ->)]; [by apply keeps_same|].
      apply keeps_grow; [done|done|lia]. }
  assert (Hevery : everything (with_own s p' r' o) = everything s) by (unfold everything; simpl; by rewrite Hb).
  destruct Hheap as [Hheap P], Hrest as [Hr1 Hr2].
  constructor; rewrite ?Hevery; cbn [blocks own putting with_own]; rewrite ?Hheap, ?Hr1, ?Hr2, ?Hi; try apply Sh; try done.
  - intros Hn. apply F'. intros ->. simpl in Hn. lia.
  - destruct Hr as [->|(hd & sz & f & ->)]; [apply Sh|done].
  - unfold place_ok. simpl. destruct ok; simpl; change (tail_of _) with (tail_of s); [|lia].
    destruct (Hok eq_refl). by split_and!.
Qed.

(** A new block goes behind the tail block. *)
Lemma insert_step budget s owned ring A st ca x p1 nb b0 :
  ready budget s owned ring A st → putting s = Some (ca, x, Requisition) →
  pool_ok p1 ({[nb]} ∪ owned) → nb ∉ owned → heap p1 !! nb = Some b0 → raw b0 →
  (∀ i, i ∈ owned → heap p1 !! i = heap (blocks s) !! i) →
  ∃ p' r', McExplicit.insert_block nb p1 (own s) = Ok (p', r') ∧
    ready budget (with_own s p' r' (Some (ca, x, WriteEntry))) ({[nb]} ∪ owned) (ring ++ [nb]) A st.
Proof.
  intros R Hp P1 Hnb Hb0 Hraw Hf. pose proof (rd_shape _ _ _ _ _ _ R) as Sh. pose proof block_size_pos.
  pose proof (sh_place _ _ _ _ _ Sh) as Hpl. unfold place_ok in Hpl. rewrite Hp in Hpl. destruct Hpl as (Ht & Hroom & Hpres).
  assert (Hnr : nb ∉ ring) by (intros Hin; apply Hnb; by apply (sh_owned _ _ _ _ _ Sh)).
  assert (Hold : ∀ k i, ring !! k = Some i → heap p1 !! i = heap (blocks s) !! i).
  { intros k i Hi. apply Hf, (sh_owned _ _ _ _ _ Sh). by eapply list_elem_of_lookup_2. }
  destruct (McExplicit.insert_block_links p1 (own s) ({[nb]} ∪ owned) ring nb b0) as (p' & Hins & P' & Hnb' & Hring); try done.
  { intros i Hi. apply elem_of_union_r. by apply (sh_owned _ _ _ _ _ Sh). }
  { apply Sh. }
  { apply Sh. }
  { set_solver. }
  { intros k i Hi. rewrite (Hold k i Hi). destruct (sh_blocks _ _ _ _ _ Sh k i Hi) as (b & ? & ? & _). eauto. }
  do 2 eexists. split; [exact Hins|]. set (r' := McExplicit.set_block _ _ _).
  apply (own_ready budget s owned ring A); [done|by rewrite Hp|by rewrite Hp| |].
  2:{ rewrite Hp. cbn [indexed]. rewrite length_app, Nat.add_sub. apply keeps_snoc. }
  assert (Hevery : everything (with_own s p' r' (Some (ca, x, WriteEntry))) = everything s) by (unfold everything; by rewrite Hp).
  pose proof (everything_length s) as Hel. rewrite Hp in Hel. simpl length in Hel.
  assert (Hst : ∀ idx, base A (length ring) <= idx → st idx = Raw) by (intros idx Hi; apply (sh_raw _ _ _ _ _ Sh); lia).
  assert (Hlen : length (ring ++ [nb]) = S (length ring)) by (rewrite length_app; simpl; lia).
  destruct (reset_fields explicit_context b0) as (F1 & F2 & F3).
  constructor; rewrite ?Hevery; simpl; try apply Sh; try done.
  - intros i [Hi|Hi%list_elem_of_singleton]%elem_of_app; [apply elem_of_union_r; by apply (sh_owned _ _ _ _ _ Sh)|set_solver].
  - rewrite <- (sh_others _ _ _ _ _ Sh). unfold McExplicit.others. set_solver.
  - apply NoDup_app. split_and!; [apply Sh| |apply NoDup_singleton]. intros i Hi ->%list_elem_of_singleton. done.
  - by rewrite last_snoc.
  - intros k i Hi. destruct (decide (k < length ring)%nat) as [Hlt|Hge].
    + rewrite lookup_app_l in Hi by done. destruct (sh_blocks _ _ _ _ _ Sh k i Hi) as (b & Hb & Hn & B).
      eexists. split; [apply (Hring k i b Hi); by rewrite (Hold k i Hi)|]. split; [done|]. by apply (block_fields _ b).
    + rewrite lookup_app_r in Hi by lia. apply list_lookup_singleton_Some in Hi as [Hz ->].
      assert (k = length ring) as -> by lia. eexists. split; [done|]. split; [done|].
      apply (block_fields _ (reset_empty explicit_context b0)); [done..|].
      apply fresh_block; rewrite ?Hraw; [by rewrite length_replicate| |intros j Hj; apply Hst; lia].
      intros j Hj. by rewrite lookup_replicate_2 by lia.
  - rewrite Hlen. simpl. rewrite Nat.sub_0_r. pose proof (sh_index _ _ _ _ _ Sh) as X. rewrite Hp in X.
    by apply McExplicit.index_snoc.
  - rewrite Hlen. simpl. rewrite Nat.sub_0_r. intros Hn. apply (sh_front _ _ _ _ _ Sh). by rewrite Hp.
  - unfold place_ok. simpl. split; [by destruct ring|]. split; [|done]. rewrite Hlen. simpl. by rewrite Nat.sub_0_r.
Qed.

Lemma requisition_step budget s owned ring A st ca x :
  ready budget s owned ring A st → putting s = Some (ca, x, Requisition) →
  ∃ p1 o, requisition_block ca (blocks s) = Ok (p1, o) ∧
    match o with
    | None => ready budget (with_own s p1 (own s) None) owned ring A st
    | Some nb => ∃ p' r' owned', McExplicit.insert_block nb p1 (own s) = Ok (p', r') ∧
        ready budget (with_own s p' r' (Some (ca, x, WriteEntry))) owned' (ring ++ [nb]) A st
    end.
Proof.
  intros R Hp. pose proof (rd_shape _ _ _ _ _ _ R) as Sh. pose proof block_size_pos.
  destruct (requisition_block_ok ca (blocks s) owned (sh_pool _ _ _ _ _ Sh)) as (p1 & o & Hreq & Hf & Ho).
  exists p1, o. split; [done|]. destruct o as [nb|].
  - destruct Ho as (Hnb & P1 & b0 & Hb0 & Hraw).
    destruct (insert_step budget s owned ring A st ca x p1 nb b0) as (p' & r' & ? & ?); try done. eauto.
  - pose proof (sh_place _ _ _ _ _ Sh) as Hpl. unfold place_ok in Hpl. rewrite Hp in Hpl. destruct Hpl as (Ht & _ & _).
    apply (own_ready budget s owned ring A); [done|by rewrite Hp|by rewrite Hp| |rewrite Hp; by apply keeps_same].
    assert (Hevery : everything (with_own s p1 (own s) None) = everything s) by (unfold everything; by rewrite Hp).
    pose proof (sh_index _ _ _ _ _ Sh) as X. pose proof (sh_front _ _ _ _ _ Sh) as F. rewrite Hp in X, F.
    constructor; rewrite ?Hevery; cbn [blocks own putting with_own]; try apply Sh; try done.
    + intros k i Hi. rewrite Hf by (apply (sh_owned _ _ _ _ _ Sh); by eapply list_elem_of_lookup_2). by apply Sh.
    + unfold place_ok. simpl. change (tail_of _) with (tail_of s). lia.
Qed.
(** The entry of the newest block is written, where no consumer looks. *)
Lemma entry_written r ring A hd hs e :
  McExplicit.index_for r ring (length ring - 1) A → McExplicit.blockIndex r = hd :: hs → ring ≠ [] →
  ∃ es, awrite (McExplicit.entries hd) (McExplicit.pr_blockIndexFront r) (Some e) = Ok es ∧
    es !! Z.to_nat (McExplicit.pr_blockIndexFront r) = Some (Some e) ∧
    McExplicit.index_for (McExplicit.set_index r (McExplicit.Header (McExplicit.size hd) (McExplicit.front hd) es :: hs)
      (McExplicit.pr_blockIndexSize r) (McExplicit.pr_blockIndexFront r)) ring (length ring - 1) A.
Proof.
  intros X Hb Hr. pose proof (McExplicit.size_bounds _ _ _ _ X). destruct X as [X1 X2 X3 X4 X5 X6]. rewrite Hb in X6.
  destruct X6 as (X6 & X7 & X8). assert (Hl : (0 < length ring)%nat) by (destruct ring; [done|simpl; lia]).
  set (f := McExplicit.pr_blockIndexFront r) in *. set (sz := McExplicit.pr_blockIndexSize r) in *.
  assert (∃ g : nat, f = g) as [g Hg] by (exists (Z.to_nat f); lia). rewrite Hg in *. rewrite Nat2Z.id.
  rewrite awrite_ok by lia. eexists. split; [reflexivity|]. rewrite list_lookup_insert_eq by lia. split; [done|].
  constructor; simpl; try done. rewrite length_insert. split_and!; [done..|]. intros k i Hk Hi.
  rewrite list_lookup_insert_ne; [by apply X8|]. intros He.
  assert (Hs : Z.to_nat ((g - (length ring - 1)%nat + (length ring - 1)%nat) mod sz) = g).
  { replace (g - (length ring - 1)%nat + (length ring - 1)%nat) with (Z.of_nat g) by lia. rewrite Z.mod_small; lia. }
  assert (k = length ring - 1)%nat; [|lia]. apply (McExplicit.pos_inj sz g (length ring - 1)%nat); [lia..|]. by rewrite Hs.
Qed.

Lemma write_step budget s owned ring A st ca x :
  ready budget s owned ring A st → putting s = Some (ca, x, WriteEntry) →
  ∃ r', write_entry (own s) = Ok r' ∧
    ready budget (with_own s (blocks s) r' (Some (ca, x, StoreFront))) owned ring A st.
Proof.
  intros R Hp. pose proof (rd_shape _ _ _ _ _ _ R) as Sh.
  pose proof (sh_place _ _ _ _ _ Sh) as Hpl. unfold place_ok in Hpl. rewrite Hp in Hpl. destruct Hpl as (Hr & Ht & Hpres).
  destruct (McExplicit.blockIndex (own s)) as [|hd hs] eqn:Hb; [done|].
  destruct (last ring) as [tb|] eqn:Htb; [|by apply last_None in Htb].
  pose proof (sh_index _ _ _ _ _ Sh) as X. pose proof (sh_front _ _ _ _ _ Sh) as F. rewrite Hp in X, F. cbn [indexed] in X, F.
  destruct (entry_written (own s) ring A hd hs (u64 (tail_of s), tb) X Hb Hr) as (es & Hw & Hes & X').
  unfold write_entry. rewrite Hb, (sh_tail_block _ _ _ _ _ Sh), Htb, (sh_tail _ _ _ _ _ Sh), Hw, bind_ok.
  eexists. split; [reflexivity|]. set (r' := McExplicit.set_index _ _ _ _) in *.
  apply (own_ready budget s owned ring A); [done|by rewrite Hp|by rewrite Hp| |].
  - assert (Hevery : everything (with_own s (blocks s) r' (Some (ca, x, StoreFront))) = everything s) by (unfold everything; by rewrite Hp).
    constructor; rewrite ?Hevery; cbn [blocks own putting with_own indexed]; try apply Sh; try done.
    + intros Hn. specialize (F Hn). unfold McExplicit.front_ok in *. by rewrite Hb in F.
    + unfold place_ok. simpl. change (tail_of _) with (tail_of s). split_and!; [done..|]. by eexists _, _, _.
  - rewrite Hp. cbn [indexed]. apply (keeps_header _ _ _ _ _ hd); [done|done|done|lia|]. f_equal. lia.
Qed.

(** The entry is published. *)
Lemma front_step budget s owned ring A st ca x :
  ready budget s owned ring A st → putting s = Some (ca, x, StoreFront) →
  ∃ r', store_front (own s) = Ok r' ∧
    ready budget (with_own s (blocks s) r' (Some (ca, x, Construct))) owned ring A st.
Proof.
  intros R Hp. pose proof (rd_shape _ _ _ _ _ _ R) as Sh. pose proof block_size_pos.
  pose proof (sh_place _ _ _ _ _ Sh) as Hpl. unfold place_ok in Hpl. rewrite Hp in Hpl.
  destruct Hpl as (Hr & Ht & hd & hs & tb & Hb & Htb & He).
  pose proof (sh_index _ _ _ _ _ Sh) as X. rewrite Hp in X. cbn [indexed] in X. pose proof (McExplicit.ix_front _ _ _ _ X) as Hf.
  destruct (McExplicit.write_entry (own s) ring A tb hd hs (McExplicit.pr_blockIndexFront (own s)) X Hb) as (es & f & Hw & Hfe & X' & Hm);
    [by apply last_at|].
  assert (es = McExplicit.entries hd) as ->.
  { rewrite <- (Z2Nat.id (McExplicit.pr_blockIndexFront (own s))) in Hw by lia.
    rewrite awrite_ok in Hw by (by eapply lookup_lt_Some). injection Hw as <-. apply list_insert_id. by rewrite <- Ht. }
  unfold store_front. rewrite Hb, Hfe. eexists. split; [reflexivity|]. set (r' := McExplicit.set_index _ _ _ _) in *.
  apply (own_ready budget s owned ring A); [done|by rewrite Hp|by rewrite Hp| |].
  - assert (Hevery : everything (with_own s (blocks s) r' (Some (ca, x, Construct))) = everything s) by (unfold everything; by rewrite Hp).
    constructor; rewrite ?Hevery; cbn [blocks own putting with_own indexed]; try apply Sh; try done.
    + unfold place_ok. simpl. change (tail_of _) with (tail_of s). split; [done|]. rewrite Ht. unfold base.
      assert (length ring ≠ 0%nat) by (by destruct ring). nia.
  - rewrite Hp. cbn [indexed]. apply (keeps_header _ _ _ _ _ hd); [done|done|done|lia|].
    assert (length ring ≠ 0%nat) by (by destruct ring). replace (length ring - (length ring - 1))%nat with 1%nat by lia.
    rewrite <- Hfe. pose proof (McExplicit.size_bounds _ _ _ _ X). destruct (McExplicit.ix_size _ _ _ _ X) as (m & Hm0 & Hs).
    rewrite (wrap_small 64 (_ + 1)), (wrap_small 64 (_ - 1)) by (unfold fits; lia).
    rewrite (land_size _ m) by done. by rewrite Z.mod_mod by lia.
Qed.
(** The element is constructed. *)
Lemma construct_step budget s owned ring A st ca x :
  ready budget s owned ring A st → putting s = Some (ca, x, Construct) →
  ∃ p', construct_element (blocks s) (own s) x = Ok p' ∧
    ready budget (with_own s p' (own s) (Some (ca, x, StoreTail))) owned ring A
      (fill st (tail_of s) (tail_of s + 1) (Full x)).
Proof.
  intros R Hp. pose proof R as [(used & ts & I & Hu) Rh Ro Sh Rd [(l & Hl1 & Hl2 & Hl3)]]. pose proof block_size_pos.
  pose proof (sh_place _ _ _ _ _ Sh) as Hpl. unfold place_ok in Hpl. rewrite Hp in Hpl. destruct Hpl as (Hr & Ht).
  pose proof (claimed_le _ _ _ I) as Hle. pose proof (everything_length s) as Hel. rewrite Hp in Hel. simpl length in Hel.
  set (t := tail_of s) in *.
  assert (Hlast : (length ring ≠ 0)%nat) by (by destruct ring).
  destruct (lookup_lt_is_Some_2 ring (length ring - 1)) as [tb Htb]; [lia|].
  destruct (sh_blocks _ _ _ _ _ Sh _ _ Htb) as (b & Hb & Hn & B).
  assert (∃ j : nat, j < BLOCK_SIZE ∧ t = base A (length ring - 1) + j) as (j & Hj & Hjt).
  { exists (Z.to_nat (t - base A (length ring - 1))). unfold base in *. nia. }
  assert (Hraw : st t = Raw) by (apply (sh_raw _ _ _ _ _ Sh); lia).
  destruct (construct_slot st b (base A (length ring - 1)) j x B) as (b' & Hc & Hn' & Hf' & B');
    [apply base_aligned, Sh|done|by rewrite <- Hjt|]. rewrite <- Hjt in *.
  unfold construct_element. rewrite (sh_tail_block _ _ _ _ _ Sh), (proj2 (last_at ring tb) Htb), (deref_ok _ _ _ Hb), bind_ok.
  rewrite (sh_tail _ _ _ _ _ Sh). fold t. rewrite Hc, bind_ok, (update_ok _ _ _ _ Hb).
  eexists. split; [reflexivity|]. set (s' := with_own s _ _ _).
  set (st' := fill st t (t + 1) (Full x)) in *.
  assert (Hst' : ∀ idx, idx ≠ t → st' idx = st idx) by (intros idx Hi; unfold st', fill; rewrite decide_False by lia; done).
  assert (Hst'' : st' t = Full x) by (unfold st', fill; rewrite decide_True by lia; done).
  assert (Hevery : everything s' = everything s ++ [x]).
  { unfold everything. rewrite Hp. simpl. by rewrite !app_nil_r, (assoc_L app). }
  assert (Hnew : everything s !! Z.to_nat (t - h0) = None) by (apply lookup_ge_None; lia).
  assert (Hgrow : ∀ idx, idx < t → (everything s ++ [x]) !! Z.to_nat (idx - h0) = everything s !! Z.to_nat (idx - h0) ∨ idx < h0).
  { intros idx Hi. destruct (decide (idx < h0)); [by right|]. left. apply lookup_app_l. lia. }
  constructor; try done.
  - exists used, ts. split; [done|]. simpl. rewrite Hp in Hu. lia.
  - constructor; rewrite ?Hevery, ?length_app; cbn [s' blocks own putting with_own]; try apply Sh; try done.
    + apply (update_owned (blocks s) owned tb b (λ _, b')); [apply Sh| |done|done].
      apply (sh_owned _ _ _ _ _ Sh). by eapply list_elem_of_lookup_2.
    + intros k i Hi. destruct (decide (k = length ring - 1)%nat) as [->|Hne].
      * assert (i = tb) as -> by congruence. exists b'. simpl. rewrite lookup_insert_eq. split; [done|]. split; [congruence|done].
      * destruct (sh_blocks _ _ _ _ _ Sh k i Hi) as (bk & Hbk & Hnk & Bk). exists bk. simpl.
        rewrite lookup_insert_ne by (intros ->; apply Hne; by eapply (NoDup_lookup ring); [apply Sh|..]).
        split; [done|]. split; [done|]. apply (block_same st); [|done]. intros m Hm. apply Hst'. rewrite Hjt.
        intros He. destruct (base_inj A k m (length ring - 1) j); lia.
    + intros idx Hi. rewrite Hst'; [by apply Sh|]. pose proof (shape_bounds _ _ _ _ _ Sh). lia.
    + intros idx Hi. rewrite Hst'; [by apply Sh|]. change (head_of _) with (head_of s) in Hi. lia.
    + intros idx Hi. change (head_of _) with (head_of s) in Hi. simpl in Hi. destruct (decide (idx = t)) as [->|Hne]; [eauto|].
      rewrite Hst' by done. apply (sh_full _ _ _ _ _ Sh). lia.
    + intros idx Hi. simpl in Hi. rewrite Hst' by lia. apply (sh_raw _ _ _ _ _ Sh). lia.
    + intros idx y Hh. destruct (decide (idx = t)) as [->|Hne].
      * rewrite Hst'' in Hh. injection Hh as ->. split; [lia|]. rewrite lookup_app_r by lia.
        replace (Z.to_nat (t - h0) - length (everything s))%nat with 0%nat by lia. done.
      * rewrite Hst' in Hh by done. destruct (sh_value _ _ _ _ _ Sh idx y Hh) as [? ?]. split; [done|]. by apply lookup_app_l_Some.
    + pose proof (sh_index _ _ _ _ _ Sh) as X. by rewrite Hp in X.
    + pose proof (sh_front _ _ _ _ _ Sh) as F. by rewrite Hp in F.
  - apply (hands_same _ _ _ _ _ _ _ s); [done..|]. apply (hands_free _ _ _ _ st).
    + intros i idx Hbusy. destruct (decide (idx = t)) as [->|Hne]; [|by apply Hst']. rewrite Hst'', Hraw in Hbusy. simpl in Hbusy. tauto.
    + change (head_of s') with (head_of s). rewrite Hp in Rd. exact Rd.
  - constructor. exists l. split; [done|]. split; [done|]. intros idx y. rewrite Hl3, Hevery. change (head_of s') with (head_of s).
    split; intros (Hi & Hc' & Hv); (split; [done|]).
    + rewrite Hst' by lia. split; [done|]. by apply lookup_app_l_Some.
    + rewrite Hst' in Hc' by lia. split; [done|]. destruct (Hgrow idx) as [He|?]; [lia| |lia]. by rewrite <- He.
Qed.

(** The element is published. *)
Lemma publish_step budget s owned ring A st ca x q :
  t0 - h0 + budget < 2 ^ 62 →
  ready budget s owned ring A st → putting s = Some (ca, x, StoreTail) →
  McDequeue.step (counters s) (McDequeue.Publish 1) = Some q →
  ready budget (State q (blocks s) (McExplicit.set_tail (own s) (u64 (1 + McExplicit.tailIndex (own s)))) None
    (hands s) (given s ++ [x]) (taken s)) owned ring A st.
Proof.
  intros Hb R Hp Hq. pose proof R as [(used & ts & I & Hu) Rh Ro Sh Rd Rl].
  pose proof (sh_place _ _ _ _ _ Sh) as Hpl. unfold place_ok in Hpl. rewrite Hp in Hpl, Hu. destruct Hpl as (Hr & Ht).
  cbn [McDequeue.step] in Hq. injection Hq as <-. set (s' := State _ _ _ _ _ _ _).
  assert (Hevery : everything s' = everything s) by (unfold everything; rewrite Hp; simpl; by rewrite !app_nil_r).
  assert (Htail : tail_of s' = tail_of s + 1) by (unfold tail_of; simpl; rewrite length_app; simpl; lia).
  pose proof (used_bound _ _ _ I). pose proof (McDequeue.counts_le _ _ _ (McDequeue.inv_tail _ _ _ _ _ _ _ _ I)).
  pose proof (sh_index _ _ _ _ _ Sh) as X. pose proof (sh_front _ _ _ _ _ Sh) as F. rewrite Hp in X, F. cbn [indexed] in X, F.
  constructor; try done.
  - exists (used + 1), ts. split; [|simpl; lia]. rewrite Htail. by apply (McDequeue.inv_publish t0 h0 (v0 + h0) v0 used (tail_of s) ts (counters s) I 1).
  - constructor; rewrite ?Hevery, ?Htail; cbn [blocks own putting s' indexed]; try apply Sh; try done.
    + simpl. rewrite (sh_tail _ _ _ _ _ Sh). rewrite wrap_add_r. f_equal. lia.
    + by destruct X.
    + unfold place_ok. simpl. rewrite Htail. lia.
  - change (head_of s') with (head_of s). rewrite Hp in Rd. cbn [indexed] in *.
    assert (K : keeps (own s) (length ring) ring A (own s') (length ring) ring A) by (by apply keeps_same).
    pose proof (claimed_le _ _ _ I).
    assert (Rd' : hands_ok (own s') (length ring) ring A st h0 (head_of s) s) by (eapply hands_keeps; [exact K|apply Sh|lia|exact Rd]).
    destruct Rd' as [H1' H2' H3' H4']. by constructor.
  - destruct Rl as [(l & ? & ? & Hl)]. constructor. exists l. split; [done|]. split; [done|]. intros idx y. rewrite Hl, Hevery. done.
Qed.
(** A call of [enqueue] begins. *)
Lemma start_step budget s owned ring A st ca x :
  ready budget s owned ring A st → putting s = None →
  ∃ w, start (blocks s) (own s) = Ok w ∧ (wants (Some (ca, x, w)) ≤ 1)%nat ∧
    ready (budget + 1) (with_own s (blocks s) (own s) (Some (ca, x, w))) owned ring A st.
Proof.
  intros R Hp. pose proof (rd_shape _ _ _ _ _ _ R) as Sh. pose proof block_size_pos.
  pose proof (sh_place _ _ _ _ _ Sh) as Hpl. unfold place_ok in Hpl. rewrite Hp in Hpl.
  assert (Hgo : ∀ w, building (Some (ca, x, w)) = [] → indexed (Some (ca, x, w)) ring = length ring →
    place_ok (with_own s (blocks s) (own s) (Some (ca, x, w))) ring A st →
    ready (budget + 1) (with_own s (blocks s) (own s) (Some (ca, x, w))) owned ring A st).
  { intros w Hb Hi Hw. apply (own_ready_from budget _ s owned ring A); rewrite ?Hp; [done|lia|done| |].
    - apply shape_place; rewrite ?Hp; done.
    - rewrite Hi. by apply keeps_same. }
  unfold start. rewrite (sh_tail _ _ _ _ _ Sh), slot_wrap.
  pose proof (sh_aligned _ _ _ _ _ Sh) as HA. destruct (Z.eqb_spec (slot (tail_of s)) 0) as [Hz|Hz].
  - assert (Ht : tail_of s = base A (length ring)).
    { rewrite slot_mod in Hz. unfold base in *. apply Z.mod_divide in Hz as [a Ha]; [|lia]. apply Z.mod_divide in HA as [b Hb]; [|lia].
      assert (a = b + length ring) by nia. nia. }
    rewrite (sh_tail_block _ _ _ _ _ Sh). destruct (last ring) as [tb|] eqn:Htb.
    + apply last_at in Htb. destruct (sh_blocks _ _ _ _ _ Sh _ _ Htb) as (b & Hb & Hn & _).
      rewrite (deref_ok _ _ _ Hb), bind_ok, Hn. pose proof (lookup_lt_Some _ _ _ Htb).
      rewrite McExplicit.tail_successor by lia. destruct ring as [|nx ring]; [done|]. simpl head.
      eexists. split; [reflexivity|]. split; [done|]. apply Hgo; [done..|]. unfold place_ok. simpl.
      split_and!; [done|done|lia|]. intros j Hj. lia.
    + eexists. split; [reflexivity|]. split; [done|]. by apply Hgo.
  - assert (Hne : tail_of s ≠ base A (length ring)).
    { intros He. apply Hz. rewrite He, <- (Z.add_0_r (base A (length ring))). apply base_slot; [done|lia]. }
    eexists. split; [reflexivity|]. split; [simpl; lia|]. apply Hgo; [done..|]. unfold place_ok. simpl.
    change (tail_of _) with (tail_of s). split; [|lia]. intros ->. simpl in *.
    pose proof (shape_bounds _ _ _ _ _ Sh). destruct (rd_counts _ _ _ _ _ _ R) as (used & ts & I & _).
    pose proof (claimed_le _ _ _ I). unfold base in *. lia.
Qed.

(** ** Steps of a consumer with a claim *)

Lemma end_index_ok f e c0 :
  f <= c0 < e → e - f < 2 ^ 62 → end_index (u64 f) (e - f) (u64 c0) = u64 (part_end e c0).
Proof.
  intros Hc He. pose proof block_size_pos. pose proof (block_base_bounds c0). unfold end_index, part_end.
  rewrite McSlots.block_base, slot_wrap, wrap_block_base, !wrap_add_l.
  replace (c0 - slot c0) with (block_base c0) by (unfold block_base; by rewrite slot_mod).
  replace (f + (e - f)) with e by lia. rewrite clt_spec by lia.
  destruct (Z.ltb_spec e (block_base c0 + BLOCK_SIZE)); f_equal; lia.
Qed.

(** What a consumer with a claim finds. *)
Record claimant (s : state) (ring : list nat) (A : Z) (st : Z → status) (i : nat) (c : McDequeue.call)
    (f e : Z) (w : hand) : Prop := {
  cm_one : c = McDequeue.dequeue → e = f + 1;
  cm_range : h0 <= f < e ∧ e <= head_of s ∧ head_of s <= tail_of s ∧ e - f < 2 ^ 62;
  cm_walk : walk_ok (own s) (indexed (putting s) ring) ring A st i c f e w
}.

Lemma find_claimant budget s owned ring A st i c first count w :
  t0 - h0 + budget < 2 ^ 62 →
  ready budget s owned ring A st → claim_at s i = Some (c, first, count) → hands s !! i = Some w →
  ∃ f, first = u64 f ∧ claimant s ring A st i c f (f + count) w.
Proof.
  intros Hb R Hc Hw. destruct (rd_counts _ _ _ _ _ _ R) as (used & ts & I & Hu).
  pose proof (claimed_le _ _ _ I). pose proof (used_bound _ _ _ I).
  assert (used <= budget) by (destruct (putting s); lia).
  destruct (ha_claim _ _ _ _ _ _ _ _ (rd_hands _ _ _ _ _ _ R) i c first count w Hc Hw) as (f & -> & G1 & G2 & G3 & G4 & W).
  exists f. split; [done|]. constructor; [intros Hd; by rewrite (G1 Hd)|lia|done].
Qed.

(** Consumer [i] goes on; what it leaves behind changes only its own indices. *)
Lemma hand_ready budget s owned ring A st st' i c first count f w w' p log :
  ready budget s owned ring A st → claim_at s i = Some (c, first, count) → hands s !! i = Some w →
  first = u64 f → claimant s ring A st i c f (f + count) w →
  let s' := State (counters s) p (own s) (putting s) (<[i := w']> (hands s)) (given s) (taken s ++ log) in
  shape s' owned ring A st' → log_ok s' st' →
  (∀ j idx, j ≠ i → busy j (st idx) ∨ busy j (st' idx) → st' idx = st idx) →
  walk_ok (own s) (indexed (putting s) ring) ring A st' i c f (f + count) w' →
  ready budget s' owned ring A st'.
Proof.
  intros R Hc Hw -> Cm s' Sh Hlog Hoth W. pose proof R as [Rc Rh Ro Rs Rd Rl].
  destruct Rd as [D1 D2 D3 D4]. destruct Cm as [C1 C2 _].
  assert (Hlt : (i < length (hands s))%nat) by (by eapply lookup_lt_Some).
  constructor; try done. constructor; simpl.
  - by rewrite length_insert.
  - intros j cj fj nj wj Hcj Hwj. change (claim_at s' j) with (claim_at s j) in Hcj.
    destruct (decide (j = i)) as [->|Hne].
    + rewrite list_lookup_insert_eq in Hwj by done. rewrite Hc in Hcj. injection Hcj as <- <- <-. injection Hwj as <-.
      exists f. split; [done|]. split; [intros Hd; specialize (C1 Hd); lia|]. split; [lia|]. split; [lia|]. split; [change (head_of s') with (head_of s); lia|done].
    + rewrite list_lookup_insert_ne in Hwj by done. destruct (D2 j cj fj nj wj Hcj Hwj) as (g & ? & ? & ? & ? & ? & Wj).
      exists g. split_and!; try done. eapply walk_change; [|done]. intros idx. by apply Hoth.
  - intros j wj Hcj Hwj. change (claim_at s' j) with (claim_at s j) in Hcj. destruct (decide (j = i)) as [->|Hne]; [congruence|].
    rewrite list_lookup_insert_ne in Hwj by done. by eapply D3.
  - intros j idx Hbusy. change (claim_at s' j) with (claim_at s j). destruct (decide (j = i)) as [->|Hne]; [by rewrite Hc|].
    apply (D4 j idx). by rewrite <- (Hoth j idx) by tauto.
Qed.

(** It only goes to another place. *)
Lemma hand_place budget s owned ring A st i c first count f w w' :
  ready budget s owned ring A st → claim_at s i = Some (c, first, count) → hands s !! i = Some w →
  first = u64 f → claimant s ring A st i c f (f + count) w →
  walk_ok (own s) (indexed (putting s) ring) ring A st i c f (f + count) w' →
  ready budget (with_hand s i (blocks s) w') owned ring A st.
Proof.
  intros R Hc Hw Hf Cm W. pose proof R as [_ _ _ [] _ [Rl]].
  assert (E : with_hand s i (blocks s) w' = State (counters s) (blocks s) (own s) (putting s) (<[i := w']> (hands s)) (given s) (taken s ++ []))
    by (unfold with_hand; by rewrite app_nil_r).
  rewrite E. eapply hand_ready; try done. constructor. simpl. by rewrite app_nil_r.
Qed.
Lemma index_begin budget s owned ring A st i c first count f :
  ready budget s owned ring A st → claimant s ring A st i c f (f + count) LoadIndex →
  claim_at s i = Some (c, first, count) → hands s !! i = Some LoadIndex → first = u64 f →
  ∃ hd hs, McExplicit.blockIndex (own s) = hd :: hs ∧
    ready budget (with_hand s i (blocks s) (LoadFront (length hs))) owned ring A st.
Proof.
  intros R Cm Hc Hw Hf. pose proof (rd_shape _ _ _ _ _ _ R) as Sh. pose proof Cm as [_ Hr O]. simpl in O.
  pose proof (owns_below _ _ _ _ _ _ _ f (sh_low _ _ _ _ _ Sh) O ltac:(lia)) as HA.
  destruct (indexed_bounds _ _ _ _ _ Sh) as [_ Ht]. pose proof (McExplicit.ix_current _ _ _ _ (sh_index _ _ _ _ _ Sh)) as Hcur.
  destruct (McExplicit.blockIndex (own s)) as [|hd hs] eqn:Hb.
  - subst ring. assert (indexed (putting s) [] = 0%nat) as Hz by (destruct (putting s) as [[[? ?] []]|]; done).
    rewrite Hz in Ht. unfold base in Ht. lia.
  - exists hd, hs. split; [done|]. eapply hand_place; try done. simpl. split; [done|].
    exists [], hd, hs. by rewrite Hb.
Qed.

Lemma front_found budget s owned ring A st i c first count f hid :
  ready budget s owned ring A st → claimant s ring A st i c f (f + count) (LoadFront hid) →
  claim_at s i = Some (c, first, count) → hands s !! i = Some (LoadFront hid) → first = u64 f →
  ∃ hd, header_at (own s) hid = Ok hd ∧
    ready budget (with_hand s i (blocks s) (ReadBase hid (McExplicit.front hd))) owned ring A st.
Proof.
  intros R Cm Hc Hw Hf. pose proof (rd_shape _ _ _ _ _ _ R) as Sh. pose proof Cm as [_ Hr [O (newer & hd & older & Hb & Hid & Hv)]].
  exists hd. split; [rewrite Hid; by eapply header_ok|]. eapply hand_place; try done. simpl. split; [done|].
  pose proof (owns_below _ _ _ _ _ _ _ f (sh_low _ _ _ _ _ Sh) O ltac:(lia)) as HA.
  destruct (indexed_bounds _ _ _ _ _ Sh) as [Hn Ht]. exists (McExplicit.size hd).
  destruct newer as [|nh newer].
  - assert (0 < indexed (putting s) ring)%nat as Hpos.
    { destruct (indexed (putting s) ring); [unfold base in Ht; lia|lia]. }
    pose proof (sh_front _ _ _ _ _ Sh Hpos) as F. unfold McExplicit.front_ok in F. simpl in Hb. rewrite Hb in F.
    exists (base A (indexed (putting s) ring - 1)). split; [|rewrite base_pred by done; lia].
    exists [], hd, older. split_and!; [done..|]. exists (indexed (putting s) ring - 1)%nat. split; [lia|]. split; [done|].
    rewrite F. f_equal. lia.
  - destruct Hv as (B & C & HB). exists B. split; [|done]. by exists (nh :: newer), hd, older.
Qed.

Lemma base_found budget s owned ring A st i c first count f hid fr :
  BLOCK_SIZE * length ring < 2 ^ 62 →
  ready budget s owned ring A st → claimant s ring A st i c f (f + count) (ReadBase hid fr) →
  claim_at s i = Some (c, first, count) → hands s !! i = Some (ReadBase hid fr) → first = u64 f →
  ∃ hd v b, header_at (own s) hid = Ok hd ∧ aread (McExplicit.entries hd) fr = Ok (Some (v, b)) ∧
    ready budget (with_hand s i (blocks s) (ReadBlock hid (entry_position hd fr v first) first)) owned ring A st.
Proof.
  intros Hsz R Cm Hc Hw Hf. pose proof (rd_shape _ _ _ _ _ _ R) as Sh. pose proof Cm as [_ Hr (O & sz & B & Hs & HB)].
  pose proof (owns_below _ _ _ _ _ _ _ f (sh_low _ _ _ _ _ Sh) O ltac:(lia)) as HA.
  destruct (indexed_bounds _ _ _ _ _ Sh) as [Hn _].
  destruct (sees_covers _ _ _ _ _ _ _ _ Hs (sh_index _ _ _ _ _ Sh) Hn) as (hd & Hh & <- & C).
  destruct (covers_front _ _ _ _ _ C) as [b Hb].
  destruct (covers_position _ _ _ _ _ f C (sh_aligned _ _ _ _ _ Sh) Hsz) as [Hp _]; [lia|].
  exists hd, (u64 B), b. split_and!; [done..|]. rewrite Hf, Hp. rewrite Hf in *. eapply hand_place; try done.
  exists f. split_and!; [done|lia|lia|done|]. by exists (McExplicit.size hd), fr, B.
Qed.

Lemma block_found budget s owned ring A st i c first count f hid ii index :
  BLOCK_SIZE * length ring < 2 ^ 62 →
  ready budget s owned ring A st → claimant s ring A st i c f (f + count) (ReadBlock hid ii index) →
  claim_at s i = Some (c, first, count) → hands s !! i = Some (ReadBlock hid ii index) → first = u64 f →
  ∃ hd v b, header_at (own s) hid = Ok hd ∧ aread (McExplicit.entries hd) ii = Ok (Some (v, b)) ∧
    ready budget (with_hand s i (blocks s) (Move hid ii b index index)) owned ring A st.
Proof.
  intros Hsz R Cm Hc Hw Hf. pose proof (rd_shape _ _ _ _ _ _ R) as Sh. pose proof Cm as [_ Hr (cur & -> & Hcur & O & Hroute)].
  pose proof (owns_below _ _ _ _ _ _ _ cur (sh_low _ _ _ _ _ Sh) O ltac:(lia)) as HA.
  destruct (indexed_bounds _ _ _ _ _ Sh) as [Hn _]. pose proof (block_base_bounds cur).
  destruct (route_block _ _ _ _ _ _ _ cur Hroute (sh_index _ _ _ _ _ Sh) Hn (sh_aligned _ _ _ _ _ Sh) Hsz)
    as (hd & b & v & Hh & Hb & Hin); [lia|].
  exists hd, v, b. split_and!; [done..|]. eapply hand_place; try done.
  exists cur, cur. unfold part_end. split_and!; try done; lia.
Qed.
Lemma fill_in st lo hi v idx : lo <= idx < hi → fill st lo hi v idx = v.
Proof. intros Hi. unfold fill. by rewrite decide_True. Qed.
Lemma fill_out st lo hi v idx : idx < lo ∨ hi <= idx → fill st lo hi v idx = st idx.
Proof. intros Hi. unfold fill. by rewrite decide_False by lia. Qed.

Lemma busy_spent s owned ring A st i idx :
  shape s owned ring A st → busy i (st idx) → idx < head_of s.
Proof.
  intros Sh Hb. destruct (Z.lt_ge_cases idx (head_of s)) as [|Hge]; [done|].
  destruct (Z.lt_ge_cases idx (h0 + length (everything s))).
  - destruct (sh_full _ _ _ _ _ Sh idx) as [x Hx]; [lia|]. by rewrite Hx in Hb.
  - by rewrite (sh_raw _ _ _ _ _ Sh) in Hb by done.
Qed.

(** A consumer works on indices of its own in one block. *)
Lemma shape_fill s owned ring A st b bl bl' k i lo hi v hs log :
  shape s owned ring A st → ring !! k = Some b → heap (blocks s) !! b = Some bl →
  next bl' = next bl → freeListRefs bl' = freeListRefs bl → block_at (fill st lo hi v) bl' (base A k) →
  base A k <= lo → hi <= base A k + BLOCK_SIZE → (∀ idx, lo <= idx < hi → busy i (st idx)) →
  spent v = true → held v = None →
  shape (State (counters s) (with_heap (blocks s) (<[b := bl']> (heap (blocks s)))) (own s) (putting s) hs (given s) log)
    owned ring A (fill st lo hi v).
Proof.
  intros Sh Hk Hb Hn Hf B Hlo Hhi Hbusy Hsp Hheld. pose proof block_size_pos. set (s' := State _ _ _ _ _ _ _).
  assert (Hin : ∀ idx, lo <= idx < hi → A <= idx < head_of s ∧ st idx ≠ Done).
  { intros idx Hi. specialize (Hbusy idx Hi). split; [|by intros E; rewrite E in Hbusy].
    split; [unfold base in *; lia|by eapply busy_spent]. }
  assert (Hkeep : ∀ idx, st idx = Done → fill st lo hi v idx = Done).
  { intros idx Hd. unfold fill. case_decide as Hi; [|done]. by destruct (Hin idx Hi). }
  constructor; try apply Sh; cbn [s' blocks own putting with_own]; try done.
  - apply (update_owned (blocks s) owned b bl (λ _, bl')); [apply Sh| |done|done].
    apply (sh_owned _ _ _ _ _ Sh). by eapply list_elem_of_lookup_2.
  - intros k' j Hj. destruct (decide (k' = k)) as [->|Hne].
    + assert (j = b) as -> by congruence. exists bl'. simpl. rewrite lookup_insert_eq. split; [done|]. split; [|done].
      rewrite Hn. destruct (sh_blocks _ _ _ _ _ Sh k b Hk) as (b0 & Hb0 & Hn0 & _). congruence.
    + destruct (sh_blocks _ _ _ _ _ Sh k' j Hj) as (bk & Hbk & Hnk & Bk). exists bk. simpl.
      rewrite lookup_insert_ne by (intros ->; apply Hne; by eapply (NoDup_lookup ring); [apply Sh|..]).
      split; [done|]. split; [done|]. apply (block_same st); [|done]. intros m Hm. apply fill_out.
      unfold base in *. assert (k' < k ∨ k < k')%nat as [?|?] by lia; nia.
  - intros idx Hi. apply Hkeep. by apply Sh.
  - intros idx Hi. unfold fill. case_decide; [done|]. by apply (sh_head _ _ _ _ _ Sh).
  - intros idx Hi. rewrite fill_out; [by apply (sh_full _ _ _ _ _ Sh)|]. change (head_of s') with (head_of s) in Hi.
    destruct (decide (lo <= idx < hi)) as [Hx|]; [|lia]. destruct (Hin idx Hx). lia.
  - intros idx Hi. rewrite fill_out; [by apply (sh_raw _ _ _ _ _ Sh)|]. change (everything s') with (everything s) in Hi.
    destruct (decide (lo <= idx < hi)) as [Hx|]; [|lia]. specialize (Hbusy idx Hx).
    by rewrite (sh_raw _ _ _ _ _ Sh) in Hbusy by done.
  - intros idx x. unfold fill. case_decide; [by rewrite Hheld|]. apply (sh_value _ _ _ _ _ Sh).
  - pose proof (sh_place _ _ _ _ _ Sh) as Hp. unfold place_ok in *. simpl. change (tail_of s') with (tail_of s).
    destruct (putting s) as [[[ca y] []]|]; try done.
    + destruct Hp as (? & ? & ? & Hd). split_and!; [done..|]. intros j Hj. by apply Hkeep, Hd.
    + destruct Hp as (? & ? & Hd). split_and!; [done..|]. intros j Hj. by apply Hkeep, Hd.
Qed.

(** The element is moved out and destroyed. *)
Lemma take_step budget s owned ring A st i c first count f hid ii b from index :
  ready budget s owned ring A st → claimant s ring A st i c f (f + count) (Move hid ii b from index) →
  claim_at s i = Some (c, first, count) → hands s !! i = Some (Move hid ii b from index) → first = u64 f →
  ∃ bl x bl' st', deref (blocks s) b = Ok bl ∧ element bl index = Ok x ∧ destruct_at bl index = Ok bl' ∧
    let index' := u64 (index + 1) in
    ready budget (State (counters s) (with_heap (blocks s) (<[b := bl']> (heap (blocks s)))) (own s) (putting s)
      (<[i := if index' =? end_index first count from then Mark hid ii b from index' 0 else Move hid ii b from index']> (hands s))
      (given s) (taken s ++ [(i, (index, x))])) owned ring A st'.
Proof.
  intros R Cm Hc Hw Hf. pose proof (rd_shape _ _ _ _ _ _ R) as Sh. pose proof block_size_pos.
  pose proof Cm as [_ Hr (c0 & cur & -> & -> & Hcur & Hend & O & Hroute & k & Hk & Hbb)].
  pose proof (block_base_bounds c0) as Hc0. unfold part_end in Hend.
  destruct (proj2 (proj1 O cur)) as [x Hx]; [lia|].
  destruct (sh_blocks _ _ _ _ _ Sh k b Hk) as (bl & Hbl & _ & B).
  assert (∃ j : nat, j < BLOCK_SIZE ∧ cur = base A k + j) as (j & Hj & Hcj).
  { exists (Z.to_nat (cur - base A k)). lia. }
  destruct (take_slot st bl (base A k) j i x B) as (Hel & bl' & Hd & Hn & Hfl & B'); [apply base_aligned, Sh|done|by rewrite <- Hcj|].
  rewrite <- Hcj in *. exists bl, x, bl', (fill st cur (cur + 1) (Emptied i)).
  rewrite (deref_ok _ _ _ Hbl). split_and!; [done..|]. rewrite Hf, wrap_add_l.
  replace count with (f + count - f) by lia. rewrite end_index_ok by lia.
  set (w' := if u64 (cur + 1) =? u64 (part_end (f + count) c0) then Mark hid ii b (u64 c0) (u64 (cur + 1)) 0
             else Move hid ii b (u64 c0) (u64 (cur + 1))). set (e := f + count) in *.
  assert (Hout : ∀ idx, idx ≠ cur → fill st cur (cur + 1) (Emptied i) idx = st idx) by (intros; apply fill_out; lia).
  assert (Hat : fill st cur (cur + 1) (Emptied i) cur = Emptied i) by (apply fill_in; lia).
  assert (O' : owns (fill st cur (cur + 1) (Emptied i)) i (cur + 1) e c0 (cur + 1)).
  { destruct O as [O1 O2]. split; intros idx.
    - destruct (decide (idx = cur)) as [->|Hne]; [rewrite Hat; split; [by intros [? ?]|lia]|].
      rewrite Hout, O1 by done. lia.
    - destruct (decide (idx = cur)) as [->|Hne]; [rewrite Hat; split; [lia|done]|]. rewrite Hout, O2 by done. lia. }
  eapply hand_ready; try done.
  - eapply shape_fill; try done; [lia|lia|]. intros idx Hi. assert (idx = cur) as -> by lia. by rewrite Hx.
  - destruct (rd_log _ _ _ _ _ _ R) as [(l & Hl1 & Hl2 & Hl3)]. destruct (sh_value _ _ _ _ _ Sh cur x) as [_ Hv]; [by rewrite Hx|].
    constructor. exists (l ++ [(cur, x)]). simpl. rewrite !fmap_app, Hl1. split; [done|]. split.
    + apply NoDup_app. split_and!; [done| |apply NoDup_singleton]. intros idx Hi Hs%list_elem_of_singleton.
      apply list_elem_of_fmap in Hi as ([idx' y] & -> & Hi). simpl in Hs. subst idx'. apply Hl3 in Hi as (_ & Hno & _). by apply (Hno i x).
    + intros idx y. rewrite elem_of_app, Hl3, list_elem_of_singleton. change (everything (State _ _ _ _ _ _ _)) with (everything s).
      change (head_of (State _ _ _ _ _ _ _)) with (head_of s). destruct (decide (idx = cur)) as [->|Hne].
      * rewrite Hat. split; [|].
        -- intros [(_ & Hno & _)|[= ->]]; [by destruct (Hno i x)|]. split; [lia|]. split; [done|done].
        -- intros (_ & _ & Hy). right. congruence.
      * rewrite Hout by done. split; [intros [?|[= ? ?]]; [done|congruence]|by left].
  - intros m idx Hm Hb. destruct (decide (idx = cur)) as [->|Hne]; [|by apply Hout]. rewrite Hat, Hx in Hb. simpl in Hb.
    destruct Hb; congruence.
  - unfold w'. destruct (Z.eqb_spec (u64 (cur + 1)) (u64 (part_end e c0))) as [He|He].
    + apply wrap_inj in He; [|unfold part_end; lia]. cbn [walk_ok]. fold e. exists c0. rewrite <- He. split_and!; try done; [lia|lia| |lia|].
      * by rewrite Z.sub_0_r.
      * by exists k.
    + cbn [walk_ok]. fold e. exists c0, (cur + 1). split_and!; try done; [lia|lia| |by exists k].
      destruct (decide (cur + 1 = part_end e c0)) as [E|]; [by rewrite E in He|unfold part_end in *; lia].
Qed.
(** The claim goes on as long as there are marks to make, then in the next block. *)
Definition after_mark (hd : McExplicit.header) (more : bool) hid ii b (from index e : Z) (k : nat) : hand :=
  if more then Mark hid ii b from index (S k)
  else if index =? e then Finished else ReadBlock hid (Z.land (u64 (ii + 1)) (McExplicit.size hd - 1)) index.

Lemma mark_walk budget s owned ring A st i c first count f hid ii b from index k :
  ready budget s owned ring A st → claimant s ring A st i c f (f + count) (Mark hid ii b from index k) →
  claim_at s i = Some (c, first, count) → hands s !! i = Some (Mark hid ii b from index k) → first = u64 f →
  ∃ c0 lo hi hd bl bl' k0, from = u64 c0 ∧ header_at (own s) hid = Ok hd ∧ ring !! k0 = Some b ∧
    heap (blocks s) !! b = Some bl ∧
    mark c bl from (u64 (index - from)) k = Ok (bl', bool_decide (c0 < lo)) ∧ next bl' = next bl ∧
    freeListRefs bl' = freeListRefs bl ∧ block_at (fill st lo hi Done) bl' (base A k0) ∧
    base A k0 <= lo ∧ hi <= base A k0 + BLOCK_SIZE ∧ (∀ idx, lo <= idx < hi → st idx = Emptied i) ∧
    walk_ok (own s) (indexed (putting s) ring) ring A (fill st lo hi Done) i c f (f + count)
      (after_mark hd (bool_decide (c0 < lo)) hid ii b from index (u64 (first + count)) k).
Proof.
  intros R Cm Hc Hw Hf. pose proof (rd_shape _ _ _ _ _ _ R) as Sh. pose proof block_size_pos.
  pose proof Cm as [Hone Hr (c0 & -> & -> & Hc0 & O & Hk & Hu & Hroute & k0 & Hk0 & Hbb)].
  set (e := f + count) in *. set (pe := part_end e c0) in *.
  pose proof (block_base_bounds c0) as Hb0. assert (Hpe : c0 < pe <= e ∧ pe <= block_base c0 + BLOCK_SIZE) by (unfold pe, part_end; lia).
  destruct (indexed_bounds _ _ _ _ _ Sh) as [Hn _].
  destruct (sh_blocks _ _ _ _ _ Sh k0 b Hk0) as (bl & Hbl & _ & B).
  assert (∃ j n : nat, c0 = base A k0 + j ∧ pe = base A k0 + j + n ∧ j + n <= BLOCK_SIZE) as (j & n & Hj & Hjn & Hle).
  { exists (Z.to_nat (c0 - base A k0)), (Z.to_nat (pe - c0)). lia. }
  destruct (mark_slots st bl (base A k0) c j n k i B) as (bl' & lo & Hm & Hnx & Hfl & B' & Hlo);
    [apply base_aligned, Sh|done|lia|intros Hd; specialize (Hone Hd); unfold pe, part_end in *; lia|done| |].
  { intros idx Hi. apply (proj2 O). lia. }
  assert (Hlen : u64 (u64 pe - u64 c0) = n).
  { rewrite wrap_sub_l, wrap_sub_r. rewrite wrap_small by (unfold fits; lia). lia. }
  assert (∃ hd, header_at (own s) hid = Ok hd ∧ (pe ≠ e → route (own s) (indexed (putting s) ring) ring A e hid
    (Z.land (u64 (ii + 1)) (McExplicit.size hd - 1)) pe)) as (hd & Hh & Hnext).
  { destruct Hroute as (sz & fr & B0 & Hs & HB & Hii).
    destruct (decide (pe = e)) as [He|He].
    - destruct (sees_covers _ _ _ _ _ _ _ _ Hs (sh_index _ _ _ _ _ Sh) Hn) as (hd & Hh & _ & _). by exists hd.
    - destruct (route_next (own s) (indexed (putting s) ring) ring A e hid ii c0) as (hd & Hh & Hx);
        [by exists sz, fr, B0|apply Sh|done|lia|done|]. by exists hd. }
  rewrite <- Hj, <- Hjn in *. exists c0, lo, (pe - k), hd, bl, bl', k0. rewrite Hlen.
  split_and!; try done; [destruct Hlo as [->|[-> _]]; lia|lia|intros idx Hi; apply (proj2 O); destruct Hlo as [->|[-> _]]; lia|].
  set (st' := fill st lo (pe - k) Done).
  assert (Hst : ∀ idx, lo <= idx < pe - k → st idx = Emptied i) by (intros idx Hi; apply (proj2 O); destruct Hlo as [->|[-> _]]; lia).
  assert (O' : owns st' i pe e c0 lo).
  { destruct O as [O1 O2]. split; intros idx.
    - rewrite <- O1. unfold st', fill. destruct (decide (lo <= idx < pe - k)) as [Hi|Hi]; [|done].
      rewrite Hst by done. split; by intros [? ?].
    - unfold st', fill. destruct (decide (lo <= idx < pe - k)) as [Hi|Hi]; [split; [discriminate|lia]|]. rewrite O2. destruct Hlo as [->|[-> _]]; lia. }
  unfold after_mark. rewrite Hf, wrap_add_l. fold e. clear Hm. case_bool_decide as Hmore.
  - destruct Hlo as [->|[-> Hflags]]; [lia|]. cbn [walk_ok]. exists c0. fold pe. split_and!; try done; [lia|lia|lia|by rewrite Hflags|by exists k0].
  - assert (lo = c0) as -> by (destruct Hlo as [->|[-> _]]; lia).
    destruct (Z.eqb_spec (u64 pe) (u64 e)) as [He|He].
    + apply wrap_inj in He; [|lia]. simpl. destruct O' as [O1 O2]. split; intros idx; [rewrite O1|rewrite O2]; lia.
    + exists pe. assert (pe ≠ e) by (by intros E; rewrite E in He). split_and!; [done|lia|lia| |by apply Hnext].
      destruct O' as [O1 O2]. split; intros idx; [by rewrite O1|rewrite O2; lia].
Qed.

Lemma mark_step budget s owned ring A st i c first count f hid ii b from index k :
  ready budget s owned ring A st → claimant s ring A st i c f (f + count) (Mark hid ii b from index k) →
  claim_at s i = Some (c, first, count) → hands s !! i = Some (Mark hid ii b from index k) → first = u64 f →
  ∃ hd bl bl' more st', header_at (own s) hid = Ok hd ∧ heap (blocks s) !! b = Some bl ∧
    mark c bl from (u64 (index - from)) k = Ok (bl', more) ∧
    ready budget (with_hand s i (with_heap (blocks s) (<[b := bl']> (heap (blocks s))))
      (after_mark hd more hid ii b from index (u64 (first + count)) k)) owned ring A st'.
Proof.
  intros R Cm Hc Hw Hf. destruct (mark_walk _ _ _ _ _ _ _ _ _ _ _ _ _ _ _ _ _ R Cm Hc Hw Hf)
    as (c0 & lo & hi & hd & bl & bl' & k0 & Hfrom & Hh & Hk0 & Hbl & Hm & Hn & Hfl & B & Hlo & Hhi & He & W).
  exists hd, bl, bl', (bool_decide (c0 < lo)), (fill st lo hi Done). split_and!; [done..|].
  set (w' := after_mark _ _ _ _ _ _ _ _ _) in *. set (p' := with_heap _ _).
  assert (E : with_hand s i p' w' = State (counters s) p' (own s) (putting s) (<[i := w']> (hands s)) (given s) (taken s ++ []))
    by (unfold with_hand; by rewrite app_nil_r).
  rewrite E. eapply hand_ready; try done.
  - eapply shape_fill; try done; [apply R|]. intros idx Hi. by rewrite He.
  - destruct (rd_log _ _ _ _ _ _ R) as [(l & Hl1 & Hl2 & Hl3)]. constructor. exists l. simpl. rewrite app_nil_r.
    split; [done|]. split; [done|]. intros idx y. rewrite Hl3. unfold fill. destruct (decide (lo <= idx < hi)) as [Hi|Hi]; [|done].
    rewrite He by done. split; intros (? & _ & ?); (split; [done|]; split; done).
  - intros j idx Hj Hb. destruct (decide (lo <= idx < hi)) as [Hi|Hi]; [|apply fill_out; lia].
    rewrite fill_in, (He idx Hi) in Hb by done. simpl in Hb. destruct Hb; [congruence|done].
Qed.
(** ** Steps on the counters *)

Lemma one_advance c p a sh sh' p' :
  one_at (Some (c, p)) → McDequeue.advance sh c p a = Some (sh', p') → one_at (Some (c, p')).
Proof.
  destruct c as [|max]; [|done]. intros Ho Ha. destruct p, a; simpl in *; try discriminate;
    repeat case_match; simplify_eq; unfold McDequeue.decide_pc in *; simpl in *; simplify_eq; try done.
Qed.

Lemma head_advance c p a sh sh' p' :
  McDequeue.advance sh c p a = Some (sh', p') →
  (McDequeue.headIndex sh' = McDequeue.headIndex sh ∧ ∀ first count, p' = McDequeue.Returning first count → count = 0) ∨
  (∃ n, p = McDequeue.AddHead n ∧ McDequeue.headIndex sh' = McDequeue.add (McDequeue.headIndex sh) n ∧
     p' = McDequeue.Returning (McDequeue.now (McDequeue.headIndex sh)) n).
Proof.
  intros Ha. destruct p, a; simpl in Ha; try discriminate; repeat case_match; simplify_eq;
    try (left; split; [done|by intros ? ? [= _ <-]]); try (right; eexists; by split_and!);
    left; (split; [done|]); intros ? ? Hr; unfold McDequeue.decide_pc in Hr; by repeat case_match.
Qed.

(** A step that claims nothing and ends no claim. *)
Lemma counters_ready budget budget' s q owned ring A st :
  ready budget s owned ring A st →
  (∃ used ts, McDequeue.inv t0 h0 (v0 + h0) v0 used ts (tail_of s) q ∧
     used + (if putting s is Some _ then 1 else 0) <= budget') →
  McDequeue.counts (McDequeue.headIndex (McDequeue.sh q)) h0 (head_of s) →
  McDequeue.claims q = McDequeue.claims (counters s) → Forall one_at (McDequeue.threads q) →
  length (McDequeue.threads q) = length (McDequeue.threads (counters s)) →
  (∀ j, claim_at (with_counters s q) j = claim_at s j) →
  ready budget' (with_counters s q) owned ring A st.
Proof.
  intros [_ _ _ [] [D1 D2 D3 D4] [Rl]] Hq Hh Hcl Ho Hlen Hat.
  assert (Hhead : head_of (with_counters s q) = head_of s) by (unfold head_of; simpl; by rewrite Hcl).
  constructor; try done.
  - by rewrite Hhead.
  - constructor; rewrite ?Hhead; done.
  - rewrite Hhead. constructor; simpl; [congruence|..]; intros *; rewrite Hat; [apply D2|apply D3|apply D4].
  - constructor. by rewrite Hhead.
Qed.

(** A call returns; it may have had a claim. *)
Lemma finish_ready budget s q owned ring A st i :
  ready budget s owned ring A st →
  (∃ used ts, McDequeue.inv t0 h0 (v0 + h0) v0 used ts (tail_of s) q ∧
     used + (if putting s is Some _ then 1 else 0) <= budget) →
  McDequeue.headIndex (McDequeue.sh q) = McDequeue.headIndex (McDequeue.sh (counters s)) →
  McDequeue.claims q = McDequeue.claims (counters s) → Forall one_at (McDequeue.threads q) →
  length (McDequeue.threads q) = length (McDequeue.threads (counters s)) →
  hands s !! i = Some Finished →
  (∀ j, claim_at (with_counters s q) j = if decide (j = i) then None else claim_at s j) →
  ready budget (with_hand (with_counters s q) i (blocks s) LoadIndex) owned ring A st.
Proof.
  intros [_ Rh _ [] [D1 D2 D3 D4] [Rl]] Hq Hh Hcl Ho Hlen Hfin Hat. set (s' := with_hand _ _ _ _).
  assert (Hhead : head_of s' = head_of s) by (unfold head_of; simpl; by rewrite Hcl).
  assert (Hat' : ∀ j, claim_at s' j = if decide (j = i) then None else claim_at s j) by (intros; by rewrite <- Hat).
  assert (Hlt : (i < length (hands s))%nat) by (by eapply lookup_lt_Some).
  constructor; try done.
  - rewrite Hhead. cbn [s' counters with_hand with_counters]. by rewrite Hh.
  - constructor; rewrite ?Hhead; done.
  - rewrite Hhead. constructor.
    + simpl. rewrite length_insert. congruence.
    + intros j c first count w. rewrite Hat'. case_decide; [done|]. simpl. rewrite list_lookup_insert_ne by done. apply D2.
    + intros j w. rewrite Hat'. simpl. case_decide as Hj.
      * subst j. rewrite list_lookup_insert_eq by done. by intros _ [= <-].
      * rewrite list_lookup_insert_ne by done. apply D3.
    + intros j idx Hb. rewrite Hat'. case_decide as Hj; [|by eapply D4]. subst j. exfalso.
      destruct (D4 i idx Hb) as [[[c first] count] Hc].
      destruct (D2 i c first count Finished Hc Hfin) as (f & _ & _ & _ & _ & _ & [O1 O2]).
      destruct (st idx) as [| |j x|j|] eqn:Hs; simpl in Hb; try done; subst j.
      * assert (f <= idx < f); [|lia]. apply O1. eauto.
      * assert (f <= idx < f); [|lia]. by apply O2.
  - constructor. by rewrite Hhead.
Qed.

(** Elements are claimed. *)
Lemma claim_ready budget s q owned ring A st i c n :
  ready budget s owned ring A st →
  (∃ used ts, McDequeue.inv t0 h0 (v0 + h0) v0 used ts (tail_of s) q ∧
     used + (if putting s is Some _ then 1 else 0) <= budget) →
  McDequeue.headIndex (McDequeue.sh q) = McDequeue.add (McDequeue.headIndex (McDequeue.sh (counters s))) n →
  head_of (with_counters s q) = head_of s + n → 0 < n → (c = McDequeue.dequeue → n = 1) →
  Forall one_at (McDequeue.threads q) →
  length (McDequeue.threads q) = length (McDequeue.threads (counters s)) →
  claim_at s i = None → (i < length (McDequeue.threads q))%nat →
  (∀ j, claim_at (with_counters s q) j =
     if decide (j = i) then Some (c, u64 (head_of s), n) else claim_at s j) →
  ready budget (with_counters s q) owned ring A (claim st i (head_of s) (head_of s + n)).
Proof.
  intros R Hq Hh Hhead Hn Hone Ho Hlen Hno Hi Hat. pose proof R as [Rc Rh _ Sh [D1 D2 D3 D4] [(l & Hl1 & Hl2 & Hl3)]].
  set (h := head_of s) in *. set (s' := with_counters s q) in *.
  destruct Hq as (used & ts & I & Hu). pose proof (claimed_le used ts s' I) as Hle. rewrite Hhead in Hle. change (tail_of s') with (tail_of s) in Hle.
  destruct Rc as (used0 & ts0 & I0 & _). pose proof (claimed_le _ _ _ I0) as Hle0. fold h in Hle0.
  pose proof (everything_length s) as Hel.
  assert (Hfull : ∀ idx, h <= idx < h + n → ∃ x, st idx = Full x) by (intros idx Hx; apply (sh_full _ _ _ _ _ Sh); fold h; lia).
  set (st' := claim st i h (h + n)).
  assert (Hin : ∀ idx x, h <= idx < h + n → st idx = Full x → st' idx = Claimed i x).
  { intros idx x Hx Hs. unfold st', claim. rewrite decide_True by done. by rewrite Hs. }
  assert (Hout : ∀ idx, ¬ h <= idx < h + n → st' idx = st idx) by (intros idx Hx; unfold st', claim; by rewrite decide_False).
  assert (Hheld : ∀ idx, held (st' idx) = held (st idx) ∧ is_done (st' idx) = is_done (st idx)).
  { intros idx. destruct (decide (h <= idx < h + n)) as [Hx|Hx]; [|by rewrite Hout].
    destruct (Hfull idx Hx) as [x Hs]. by rewrite (Hin idx x Hx Hs), Hs. }
  assert (Hdone : ∀ idx, st idx = Done → st' idx = Done).
  { intros idx Hd. destruct (Hheld idx) as [_ He]. rewrite Hd in He. by destruct (st' idx). }
  assert (Hnot : ∀ idx j, busy j (st idx) → ¬ h <= idx < h + n).
  { intros idx j Hb Hx. destruct (Hfull idx Hx) as [x Hs]. by rewrite Hs in Hb. }
  constructor; try done.
  - by exists used, ts.
  - rewrite Hhead. cbn [s' counters with_counters]. rewrite Hh. unfold McDequeue.add. apply McDequeue.counts_add; [done|lia|lia].
  - constructor; try apply Sh; rewrite ?Hhead; change (everything s') with (everything s).
    + intros k b Hk. destruct (sh_blocks _ _ _ _ _ Sh k b Hk) as (bl & Hb & Hnx & [B1 B2 B3]). exists bl. split; [done|]. split; [done|].
      constructor; [done| |].
      * intros j Hj. rewrite B2 by done. f_equal. symmetry. apply Hheld.
      * eapply tracks_Permutation; [symmetry; apply marked_ext; intros j Hj; apply Hheld|done].
    + intros idx Hx. apply Hdone. by apply Sh.
    + intros idx Hx. destruct (decide (h <= idx < h + n)) as [Hy|Hy].
      * destruct (Hfull idx Hy) as [x Hs]. by rewrite (Hin idx x Hy Hs).
      * rewrite Hout by done. apply (sh_head _ _ _ _ _ Sh). fold h. lia.
    + intros idx Hx. rewrite Hout by lia. apply (sh_full _ _ _ _ _ Sh). fold h. lia.
    + intros idx Hx. rewrite Hout by lia. by apply (sh_raw _ _ _ _ _ Sh).
    + intros idx x Hx. rewrite (proj1 (Hheld idx)) in Hx. by apply (sh_value _ _ _ _ _ Sh).
    + pose proof (sh_place _ _ _ _ _ Sh) as Hp. unfold place_ok in *. simpl. change (tail_of s') with (tail_of s).
      destruct (putting s) as [[[ca y] []]|]; try done.
      * destruct Hp as (? & ? & ? & Hd). split_and!; [done..|]. intros j Hj. by apply Hdone, Hd.
      * destruct Hp as (? & ? & Hd). split_and!; [done..|]. intros j Hj. by apply Hdone, Hd.
  - rewrite Hhead. constructor.
    + simpl. congruence.
    + intros j cj first count w. rewrite Hat. change (hands s') with (hands s). case_decide as Hj.
      * subst j. intros [= <- <- <-] Hw. apply (D3 i) in Hw as ->; [|done]. exists h. split_and!; try done; [lia|].
        cbn [walk_ok]. split; intros idx.
        -- split.
           ++ intros [x Hx]. destruct (decide (h <= idx < h + n)) as [|Hy]; [done|]. rewrite Hout in Hx by done.
              exfalso. destruct (D4 i idx) as [? Hc]; [by rewrite Hx|]. congruence.
           ++ intros Hx. destruct (Hfull idx Hx) as [x Hs]. exists x. by apply Hin.
        -- split; [|lia]. intros Hx. destruct (decide (h <= idx < h + n)) as [Hy|Hy].
           ++ destruct (Hfull idx Hy) as [x Hs]. by rewrite (Hin idx x Hy Hs) in Hx.
           ++ rewrite Hout in Hx by done. exfalso. destruct (D4 i idx) as [? Hc]; [by rewrite Hx|]. congruence.
      * intros Hc Hw. destruct (D2 j cj first count w Hc Hw) as (f & ? & ? & ? & ? & ? & W). exists f. split_and!; try done; [lia|].
        eapply walk_change; [|exact W]. intros idx [Hb|Hb]; [apply Hout; by eapply Hnot|].
        destruct (decide (h <= idx < h + n)) as [Hy|Hy]; [|by apply Hout]. destruct (Hfull idx Hy) as [x Hs].
        rewrite (Hin idx x Hy Hs) in Hb. simpl in Hb. congruence.
    + intros j w. rewrite Hat. case_decide; [done|]. apply D3.
    + intros j idx Hb. rewrite Hat. case_decide as Hj; [done|]. apply (D4 j idx).
      destruct (decide (h <= idx < h + n)) as [Hy|Hy]; [|by rewrite <- Hout]. destruct (Hfull idx Hy) as [x Hs].
      rewrite (Hin idx x Hy Hs) in Hb. simpl in Hb. congruence.
  - constructor. exists l. split; [done|]. split; [done|]. intros idx y. rewrite Hl3, Hhead.
    change (everything s') with (everything s). fold h. split.
    + intros (Hx & Hc & Hy). rewrite Hout by lia. split; [lia|done].
    + intros (Hx & Hc & Hy). destruct (decide (h <= idx < h + n)) as [Hz|Hz].
      * destruct (Hfull idx Hz) as [x Hs]. exfalso. apply (Hc i x). by apply Hin.
      * rewrite Hout in Hc by done. split; [lia|done].
Qed.
Lemma claim_at_insert s q i th j :
  McDequeue.threads q = <[i := th]> (McDequeue.threads (counters s)) → (i < length (McDequeue.threads (counters s)))%nat →
  claim_at (with_counters s q) j =
  if decide (j = i)
  then match th with
       | Some (c, McDequeue.Returning first count) => if 0 <? count then Some (c, first, count) else None
       | _ => None
       end
  else claim_at s j.
Proof.
  intros Hq Hi. unfold claim_at. simpl. rewrite Hq. case_decide as Hj.
  - subst j. by rewrite list_lookup_insert_eq.
  - by rewrite list_lookup_insert_ne.
Qed.

(** The counters after a consumer's step. *)
Lemma consumer_inv budget s owned ring A st l q :
  t0 - h0 + budget < 2 ^ 62 → ready budget s owned ring A st → McDequeue.label_ok l → McDequeue.published l = 0 →
  McDequeue.step (counters s) l = Some q →
  ∃ used ts, McDequeue.inv t0 h0 (v0 + h0) v0 used ts (tail_of s) q ∧
    used + (if putting s is Some _ then 1 else 0) <= budget + McDequeue.asked l.
Proof.
  intros Hb R Hl Hp Hq. destruct (rd_counts _ _ _ _ _ _ R) as (used & ts & I & Hu).
  destruct (McDequeue.consumers_step_inv t0 h0 v0 (proj1 Hstart) used ts (tail_of s) (counters s) l q I Hl) as [ts' I'];
    [destruct (putting s); lia|done|]. rewrite Hp, Z.add_0_r in I'. exists (used + McDequeue.asked l), ts'. split; [done|lia].
Qed.

Lemma begin_step budget s owned ring A st i c q :
  t0 - h0 + budget < 2 ^ 62 → 0 <= McDequeue.limit c →
  ready budget s owned ring A st → McDequeue.step (counters s) (McDequeue.Begin i c) = Some q →
  ready (budget + McDequeue.limit c) (with_counters s q) owned ring A st.
Proof.
  intros Hb Hl R Hq. pose proof (consumer_inv _ _ _ _ _ _ (McDequeue.Begin i c) q Hb R Hl eq_refl Hq) as Hinv.
  cbn [McDequeue.step] in Hq. destruct (McDequeue.threads (counters s) !! i) as [[|]|] eqn:Hi; simplify_eq.
  pose proof (lookup_lt_Some _ _ _ Hi) as Hlt.
  eapply (counters_ready budget); try done; simpl.
  - apply R.
  - apply Forall_insert; [apply R|]. by destruct c.
  - by rewrite length_insert.
  - intros j. rewrite (claim_at_insert _ _ i (Some (c, McDequeue.LoadTail))) by done. case_decide as Hj; [|done].
    subst j. unfold claim_at. by rewrite Hi.
Qed.

Lemma finish_step budget s owned ring A st i a q x :
  t0 - h0 + budget < 2 ^ 62 → ready budget s owned ring A st → claim_at s i = Some x → hands s !! i = Some Finished →
  McDequeue.step (counters s) (McDequeue.Act i a) = Some q →
  ready budget (with_hand (with_counters s q) i (blocks s) LoadIndex) owned ring A st.
Proof.
  intros Hb R Hc Hw Hq. pose proof (consumer_inv _ _ _ _ _ _ (McDequeue.Act i a) q Hb R (Z.le_refl 0) eq_refl Hq) as Hinv.
  rewrite Z.add_0_r in Hinv. unfold claim_at in Hc.
  destruct (McDequeue.threads (counters s) !! i) as [[[c p]|]|] eqn:Hi; try done. destruct p; try done.
  cbn [McDequeue.step] in Hq. rewrite Hi in Hq. injection Hq as <-. pose proof (lookup_lt_Some _ _ _ Hi) as Hlt.
  eapply (finish_ready budget); try done; simpl.
  - apply Forall_insert; [apply R|done].
  - by rewrite length_insert.
  - intros j. by rewrite (claim_at_insert _ _ i None).
Qed.

Lemma count_step budget s owned ring A st i a q :
  t0 - h0 + budget < 2 ^ 62 → ready budget s owned ring A st → claim_at s i = None →
  McDequeue.step (counters s) (McDequeue.Act i a) = Some q →
  ∃ st', ready budget (with_counters s q) owned ring A st'.
Proof.
  intros Hb R Hc Hq. pose proof (consumer_inv _ _ _ _ _ _ (McDequeue.Act i a) q Hb R (Z.le_refl 0) eq_refl Hq) as Hinv.
  rewrite Z.add_0_r in Hinv. unfold claim_at in Hc. pose proof (rd_one _ _ _ _ _ _ R) as Ho.
  cbn [McDequeue.step] in Hq. destruct (McDequeue.threads (counters s) !! i) as [[[c p]|]|] eqn:Hi; try done.
  pose proof (lookup_lt_Some _ _ _ Hi) as Hlt. pose proof (proj1 (Forall_lookup _ _) Ho i _ Hi) as Hone.
  assert (Hnone : claim_at s i = None) by (unfold claim_at; by rewrite Hi).
  assert ((∃ first count, p = McDequeue.Returning first count) ∨ ∀ first count, p ≠ McDequeue.Returning first count)
    as [(first & count & ->)|Hret] by (destruct p; eauto).
  - injection Hq as <-. exists st. eapply (counters_ready budget); try done; simpl.
    + apply R.
    + apply Forall_insert; [done|done].
    + by rewrite length_insert.
    + intros j. rewrite (claim_at_insert _ _ i None) by done. case_decide as Hj; [by subst|done].
  - assert (Ha : ∃ sh' p', McDequeue.advance (McDequeue.sh (counters s)) c p a = Some (sh', p') ∧
      q = McDequeue.SubQueue sh' (<[i := Some (c, p')]> (McDequeue.threads (counters s)))
            (McDequeue.claims (counters s) ++ McDequeue.claim_of i p')).
    { destruct p; try (apply bind_Some in Hq as ((sh' & p') & Ha & [= <-]); by exists sh', p'). by destruct (Hret first count). }
    destruct Ha as (sh' & p' & Ha & ->). pose proof (one_advance _ _ _ _ _ _ Hone Ha) as Hone'.
    assert (Ho' : Forall one_at (<[i := Some (c, p')]> (McDequeue.threads (counters s)))) by (by apply Forall_insert).
    destruct (head_advance _ _ _ _ _ _ Ha) as [[Hh Hz]|(n & -> & Hh & ->)].
    + assert (McDequeue.claim_of i p' = []) as Hcl.
      { destruct p'; try done. simpl. by rewrite (Hz _ _ eq_refl). }
      exists st. eapply (counters_ready budget); try done; simpl; [rewrite Hh; apply R|by rewrite Hcl, app_nil_r|by rewrite length_insert|].
      intros j. rewrite (claim_at_insert _ _ i (Some (c, p'))) by done. case_decide as Hj; [|done]. subst j. rewrite Hnone.
      destruct p'; try done. by rewrite (Hz _ _ eq_refl).
    + destruct Hinv as (used & ts & I & Hu).
      destruct (McDequeue.inv_claims _ _ _ _ _ _ _ _ I) as [Htile _]. simpl in Htile.
      pose proof (McDequeue.inv_head _ _ _ _ _ _ _ _ I) as Hnow. simpl in Hnow. rewrite Hh in Hnow. simpl in Hnow.
      pose proof (McDequeue.co_now _ _ _ (rd_head _ _ _ _ _ _ R)) as Hnow0.
      destruct (Z.ltb_spec 0 n) as [Hn|Hn].
      * exists (claim st i (head_of s) (head_of s + n)). apply (claim_ready budget s _ owned ring A st i c n); try done; simpl.
        -- by exists used, ts.
        -- unfold head_of. simpl. rewrite (proj2 (Z.ltb_lt _ _)) by done. rewrite McDequeue.claims_of_app. unfold McDequeue.claims_of. simpl. lia.
        -- intros ->. simpl in Hone. done.
        -- by rewrite length_insert.
        -- by rewrite length_insert.
        -- intros j. rewrite (claim_at_insert _ _ i (Some (c, McDequeue.Returning (McDequeue.now (McDequeue.headIndex (McDequeue.sh (counters s)))) n))) by done.
           case_decide; [|done]. by rewrite (proj2 (Z.ltb_lt _ _)), Hnow0.
      * assert (n = 0) as ->.
        { destruct (rd_counts _ _ _ _ _ _ R) as (u0 & ts0 & I0 & _).
          destruct (McDequeue.inv_threads _ _ _ _ _ _ _ _ I0 i c _ Hi) as (m & x & r & Hk).
          destruct (McDequeue.inv_tickets _ _ _ _ _ _ _ _ I0 m _ Hk) as [_ Hcl _ _ _ _]. simpl in Hcl. lia. }
        exists st. eapply (counters_ready budget); try done; simpl.
        -- by exists used, ts.
        -- rewrite Hh. unfold McDequeue.add. rewrite <- (Z.add_0_r (head_of s)).
           pose proof (McDequeue.counts_le _ _ _ (rd_head _ _ _ _ _ _ R)). apply McDequeue.counts_add; [apply R|lia|lia].
        -- by rewrite app_nil_r.
        -- by rewrite length_insert.
        -- intros j. rewrite (claim_at_insert _ _ i (Some (c, McDequeue.Returning (McDequeue.now (McDequeue.headIndex (McDequeue.sh (counters s)))) 0))) by done.
           case_decide as Hj; [by subst|done].
Qed.
(** ** Any step *)

Lemma own_step_ok budget (room : nat) s ca x w a res :
  BLOCK_SIZE * room < 2 ^ 62 → t0 - h0 + budget < 2 ^ 62 → holds budget room s →
  putting s = Some (ca, x, w) → own_step s ca x w a = Some res →
  ∃ s', res = Ok s' ∧ holds budget room s'.
Proof.
  intros Hroom Hb (owned & ring & A & st & R & Hlen) Hp Hs. rewrite Hp in Hlen. pose proof block_size_pos.
  destruct w as [nx k|nx| | | | | | |], a as [|v]; cbn [own_step] in Hs; try discriminate.
  - destruct (check_step budget s owned ring A st ca x nx k R Hp) as (w & Hw & Hwant & R').
    injection Hs as <-. apply bind_inv_ok in Hw as (b & -> & Hw). rewrite bind_ok, Hw, bind_ok.
    eexists. split; [done|]. exists owned, ring, A, st. split; [done|]. cbn [putting with_own]. rewrite Hwant. simpl in Hlen. lia.
  - injection Hs as <-. eexists. split; [done|]. exists owned, ring, A, st. split; [|done].
    apply own_place; rewrite ?Hp; try done. unfold place_ok. simpl.
    pose proof (sh_place _ _ _ _ _ (rd_shape _ _ _ _ _ _ R)) as Hpl. unfold place_ok in Hpl. rewrite Hp in Hpl. apply Hpl.
  - destruct (reuse_step budget s owned ring A st ca x nx R Hp) as (p' & ring' & Hu & Hl & R').
    injection Hs as <-. rewrite Hu, bind_ok. eexists. split; [done|]. exists owned, ring', (A + BLOCK_SIZE), st. split; [done|]. simpl in *. lia.
  - destruct (McDequeue.visible _ v) eqn:Hv; [|done]. injection Hs as <-.
    destruct (load_head_step budget s owned ring A st ca x v Hb R Hp Hv) as (Hassert & R1 & R2).
    rewrite assert_ok, bind_ok by done. destruct (too_full _ v); (eexists; split; [done|]); exists owned, ring, A, st; (split; [done|]); simpl in *; lia.
  - destruct (ensure_step budget s owned ring A st ca x) as (p' & r' & ok & He & R'); [simpl in Hlen; nia|done|done|].
    injection Hs as <-. rewrite He, bind_ok. exists (with_own s p' r' (if ok then Some (ca, x, Requisition) else None)).
    split; [by destruct ok|]. exists owned, ring, A, st. split; [done|]. destruct ok; simpl in *; lia.
  - destruct (requisition_step budget s owned ring A st ca x R Hp) as (p1 & o & Hr & Ho).
    injection Hs as <-. rewrite Hr, bind_ok. destruct o as [nb|].
    + destruct Ho as (p' & r' & owned' & Hi & R'). rewrite Hi, bind_ok. eexists. split; [done|].
      exists owned', (ring ++ [nb]), A, st. split; [done|]. rewrite length_app. simpl in *. lia.
    + eexists. split; [done|]. exists owned, ring, A, st. split; [done|]. simpl in *. lia.
  - destruct (write_step budget s owned ring A st ca x R Hp) as (r' & Hw & R'). injection Hs as <-. rewrite Hw, bind_ok.
    eexists. split; [done|]. by exists owned, ring, A, st.
  - destruct (front_step budget s owned ring A st ca x R Hp) as (r' & Hw & R'). injection Hs as <-. rewrite Hw, bind_ok.
    eexists. split; [done|]. by exists owned, ring, A, st.
  - destruct (construct_step budget s owned ring A st ca x R Hp) as (p' & Hw & R'). injection Hs as <-. rewrite Hw, bind_ok.
    eexists. split; [done|]. by exists owned, ring, A, (fill st (tail_of s) (tail_of s + 1) (Full x)).
  - apply bind_Some in Hs as (q & Hq & [= <-]). eexists. split; [done|]. exists owned, ring, A, st.
    split; [by eapply publish_step|]. done.
Qed.

Lemma work_ok budget (room : nat) s i c first count w res :
  BLOCK_SIZE * room < 2 ^ 62 → t0 - h0 + budget < 2 ^ 62 → holds budget room s →
  claim_at s i = Some (c, first, count) → hands s !! i = Some w → work s i c first count w = Some res →
  ∃ s', res = Ok s' ∧ holds budget room s'.
Proof.
  intros Hroom Hb (owned & ring & A & st & R & Hlen) Hc Hw Hs. pose proof block_size_pos.
  assert (Hsz : BLOCK_SIZE * length ring < 2 ^ 62) by nia.
  destruct (find_claimant budget s owned ring A st i c first count w Hb R Hc Hw) as (f & Hf & Cm).
  destruct w as [|hid|hid fr|hid ii index|hid ii b from index|hid ii b from index k|]; cbn [work] in Hs; try discriminate; injection Hs as <-.
  - destruct (index_begin budget s owned ring A st i c first count f R Cm Hc Hw Hf) as (hd & hs & -> & R').
    eexists. split; [done|]. by exists owned, ring, A, st.
  - destruct (front_found budget s owned ring A st i c first count f hid R Cm Hc Hw Hf) as (hd & -> & R').
    rewrite bind_ok. eexists. split; [done|]. by exists owned, ring, A, st.
  - destruct (base_found budget s owned ring A st i c first count f hid fr Hsz R Cm Hc Hw Hf) as (hd & v & b & -> & Hr & R').
    rewrite bind_ok, Hr, bind_ok. eexists. split; [done|]. by exists owned, ring, A, st.
  - destruct (block_found budget s owned ring A st i c first count f hid ii index Hsz R Cm Hc Hw Hf) as (hd & v & b & -> & Hr & R').
    rewrite bind_ok, Hr, bind_ok. eexists. split; [done|]. by exists owned, ring, A, st.
  - destruct (take_step budget s owned ring A st i c first count f hid ii b from index R Cm Hc Hw Hf)
      as (bl & x & bl' & st' & Hd & Hel & Hdes & R').
    rewrite Hd, bind_ok, Hel, bind_ok, Hdes, bind_ok. unfold update. rewrite Hd, !bind_ok. eexists. split; [done|].
    by exists owned, ring, A, st'.
  - destruct (mark_step budget s owned ring A st i c first count f hid ii b from index k R Cm Hc Hw Hf)
      as (hd & bl & bl' & more & st' & Hh & Hbl & Hm & R').
    rewrite Hh, bind_ok, (deref_ok _ _ _ Hbl), bind_ok, Hm, bind_ok, (update_ok _ _ _ _ Hbl), bind_ok.
    exists (with_hand s i (with_heap (blocks s) (<[b:=bl']> (heap (blocks s))))
      (after_mark hd more hid ii b from index (u64 (first + count)) k)).
    split; [|by exists owned, ring, A, st']. unfold after_mark. destruct more; [done|]. by destruct (index =? _).
Qed.

Lemma hand_step_ok budget (room : nat) s l res :
  label_ok l → BLOCK_SIZE * (room + puts l)%nat < 2 ^ 62 → t0 - h0 + budget + asked l < 2 ^ 62 → holds budget room s →
  step s l = Some res → ∃ s', res = Ok s' ∧ holds (budget + asked l) (room + puts l) s'.
Proof.
  intros Hl Hroom Hb Hh Hs. destruct l as [ca x|a|i c|i a|i]; cbn [asked puts step] in *; rewrite ?Z.add_0_r, ?Nat.add_0_r in *.
  - destruct (putting s) eqn:Hp; [done|]. injection Hs as <-. destruct Hh as (owned & ring & A & st & R & Hlen).
    destruct (start_step budget s owned ring A st ca x R Hp) as (w & -> & Hw & R'). rewrite bind_ok.
    eexists. split; [done|]. exists owned, ring, A, st. split; [done|]. cbn [putting with_own]. lia.
  - apply bind_Some in Hs as ([[ca x] w] & Hp & Hs). by eapply own_step_ok.
  - apply bind_Some in Hs as (q & Hq & [= <-]). destruct Hh as (owned & ring & A & st & R & Hlen).
    unfold label_ok in Hl. simpl in Hl. eexists. split; [done|]. exists owned, ring, A, st. split; [|done].
    eapply begin_step; [lia|done|done|done].
  - destruct Hh as (owned & ring & A & st & R & Hlen). destruct (claim_at s i) eqn:Hc.
    + destruct (hands s !! i) as [[]|] eqn:Hw; try done. apply bind_Some in Hs as (q & Hq & [= <-]).
      eexists. split; [done|]. exists owned, ring, A, st. split; [by eapply finish_step|done].
    + apply bind_Some in Hs as (q & Hq & [= <-]). destruct (count_step budget s owned ring A st i a q Hb R Hc Hq) as [st' R'].
      eexists. split; [done|]. by exists owned, ring, A, st'.
  - apply bind_Some in Hs as ([[c first] count] & Hc & Hs). apply bind_Some in Hs as (w & Hw & Hs). by eapply work_ok.
Qed.

Lemma hand_run_ok ls : ∀ budget room s res,
  Forall label_ok ls → BLOCK_SIZE * (room + sum_list (puts <$> ls))%nat < 2 ^ 62 →
  t0 - h0 + budget + zsum asked ls < 2 ^ 62 → holds budget room s → run s ls = Some res →
  ∃ s', res = Ok s' ∧ holds (budget + zsum asked ls) (room + sum_list (puts <$> ls)) s'.
Proof.
  induction ls as [|l ls IH]; intros budget room s res Hl Hroom Hb Hh Hs.
  { injection Hs as <-. exists s. simpl. by rewrite Z.add_0_r, Nat.add_0_r. }
  apply Forall_cons in Hl as [Hl Hls]. cbn [run] in Hs. apply bind_Some in Hs as (r & Hr & Hs).
  assert (0 <= zsum asked ls) by (by apply zsum_nonneg). simpl in Hb. pose proof block_size_pos.
  change (sum_list (puts <$> l :: ls)) with (puts l + sum_list (puts <$> ls))%nat in *.
  destruct (hand_step_ok budget room s l r Hl) as (s1 & -> & Hh1); [nia|lia|done|done|].
  destruct (IH (budget + asked l) (room + puts l)%nat s1 res Hls) as (s2 & -> & Hh2);
    [by rewrite <- Nat.add_assoc|lia|done|done|].
  exists s2. split; [done|]. simpl. by rewrite Z.add_assoc, Nat.add_assoc.
Qed.
(** ** A claim is worked off *)

(** How many steps are left, at most. *)
Definition cost (first count : Z) (w : hand) : Z :=
  let e := u64 (first + count) in
  match w with
  | LoadIndex => 3 * count + 3
  | LoadFront _ => 3 * count + 2
  | ReadBase _ _ => 3 * count + 1
  | ReadBlock _ _ index => 3 * u64 (e - index)
  | Move _ _ _ from index =>
      let stop := end_index first count from in u64 (stop - index) + u64 (stop - from) + 3 * u64 (e - stop)
  | Mark _ _ _ from index k => u64 (index - from) - k + 3 * u64 (e - index)
  | Finished => 0
  end.

Lemma distance a b : 0 <= b - a < 2 ^ 64 → u64 (u64 b - u64 a) = b - a.
Proof. intros Hd. by rewrite wrap_sub_l, wrap_sub_r, wrap_small. Qed.

Lemma end_index_of f count c0 :
  f <= c0 < f + count → count < 2 ^ 62 → end_index (u64 f) count (u64 c0) = u64 (part_end (f + count) c0).
Proof. intros Hc Hn. rewrite <- (Z.add_simpl_l f count) at 1. by apply end_index_ok; lia. Qed.

(** One step of the consumer: it is never held up. *)
Lemma work_progress budget (room : nat) s i c first count w :
  BLOCK_SIZE * room < 2 ^ 62 → t0 - h0 + budget < 2 ^ 62 → holds budget room s →
  claim_at s i = Some (c, first, count) → hands s !! i = Some w → w ≠ Finished →
  0 < cost first count w ∧
  ∃ s' w', step s (Work i) = Some (Ok s') ∧ holds budget room s' ∧ claim_at s' i = Some (c, first, count) ∧
    hands s' !! i = Some w' ∧ cost first count w' < cost first count w.
Proof.
  intros Hroom Hb Hh Hc Hw Hne. pose proof Hh as (owned & ring & A & st & R & _). pose proof block_size_pos.
  destruct (find_claimant budget s owned ring A st i c first count w Hb R Hc Hw) as (f & -> & [_ Hr W]).
  assert (Hlt : (i < length (hands s))%nat) by (by eapply lookup_lt_Some).
  assert (He : u64 (u64 f + count) = u64 (f + count)) by apply wrap_add_l.
  assert (Hstep : ∃ res, work s i c (u64 f) count w = Some res) by (destruct w; eauto; done). destruct Hstep as [res Hstep].
  assert (Hs : step s (Work i) = Some res) by (cbn [step]; by rewrite Hc, Hw).
  destruct (work_ok budget room s i c (u64 f) count w res Hroom Hb Hh Hc Hw Hstep) as (s' & -> & Hh').
  assert (∃ w', hands s' = <[i := w']> (hands s) ∧ counters s' = counters s ∧
    0 <= cost (u64 f) count w' < cost (u64 f) count w) as (w' & Hhands & Hcounters & Hcost).
  { destruct w as [|hid|hid fr|hid ii index|hid ii b from index|hid ii b from index k|]; cbn [work] in Hstep; try done; injection Hstep as Hstep.
    - destruct (McExplicit.blockIndex (own s)); [done|]. injection Hstep as <-. eexists. split; [done|]. split; [done|]. cbn [cost]. lia.
    - apply bind_inv_ok in Hstep as (hd & _ & [= <-]). eexists. split; [done|]. split; [done|]. cbn [cost]. lia.
    - apply bind_inv_ok in Hstep as (hd & _ & Hstep). apply bind_inv_ok in Hstep as ([[hb b]|] & _ & [= <-]).
      eexists. split; [done|]. split; [done|]. cbn [cost]. rewrite He, distance by lia. lia.
    - apply bind_inv_ok in Hstep as (hd & _ & Hstep). apply bind_inv_ok in Hstep as ([[hb b]|] & _ & [= <-]).
      eexists. split; [done|]. split; [done|]. destruct W as (cur & -> & Hcur & _). cbn [cost].
      pose proof (block_base_bounds cur). rewrite He, end_index_of by lia. unfold part_end. rewrite !distance by lia. lia.
    - apply bind_inv_ok in Hstep as (bl & _ & Hstep). apply bind_inv_ok in Hstep as (x & _ & Hstep).
      apply bind_inv_ok in Hstep as (bl' & _ & Hstep). apply bind_inv_ok in Hstep as (p' & _ & [= <-]).
      eexists. split; [done|]. split; [done|]. destruct W as (c0 & cur & -> & -> & Hcur & Hpe & _). unfold part_end in *.
      pose proof (block_base_bounds c0). rewrite wrap_add_l, end_index_of by lia. unfold part_end.
      destruct (Z.eqb_spec (u64 (cur + 1)) (u64 ((f + count) `min` (block_base c0 + BLOCK_SIZE)))) as [E|E].
      + apply wrap_inj in E; [|lia]. cbn [cost]. rewrite He, end_index_of by lia. unfold part_end. rewrite !distance by lia. lia.
      + assert (cur + 1 ≠ (f + count) `min` (block_base c0 + BLOCK_SIZE)) by (by intros E'; rewrite E' in E).
        cbn [cost]. rewrite He, end_index_of by lia. unfold part_end. rewrite !distance by lia. lia.
    - apply bind_inv_ok in Hstep as (hd & _ & Hstep). apply bind_inv_ok in Hstep as (bl & _ & Hstep).
      destruct W as (c0 & -> & -> & Hcur & _ & Hk & _). pose proof (block_base_bounds c0).
      assert (Hpe : c0 < part_end (f + count) c0 <= f + count) by (unfold part_end; lia).
      destruct (mark c bl _ _ _) as [[bl' more]| | |] eqn:Hm; try done. rewrite bind_ok in Hstep.
      apply bind_inv_ok in Hstep as (p' & _ & Hstep).
      assert (Hmore : more = true → S k < part_end (f + count) c0 - c0).
      { intros ->. unfold mark in Hm. rewrite distance in Hm by lia. destruct c.
        - by destruct (set_empty _ _ _) as [[] | | |].
        - destruct (use_flags _); [|by destruct (set_many_empty _ _ _ _) as [[] | | |]].
          destruct (set_flag _ _) as [bl2| | |]; try done. rewrite bind_ok in Hm.
          assert (negb (Z.of_nat (S k) =? part_end (f + count) c0 - c0) = true) as E by congruence.
          apply negb_true_iff, Z.eqb_neq in E. lia. }
      rewrite He in Hstep. destruct more; [|destruct (Z.eqb_spec (u64 (part_end (f + count) c0)) (u64 (f + count))) as [E|E]];
        injection Hstep as <-; (eexists; split; [done|]; split; [done|]); cbn [cost]; rewrite He, !distance by lia;
        try (specialize (Hmore eq_refl)); lia. }
  split; [lia|]. exists s', w'. split; [done|]. split; [done|]. split; [unfold claim_at in *; by rewrite Hcounters|].
  rewrite Hhands. split; [by apply list_lookup_insert_eq|lia].
Qed.

Lemma finished_or_not (w : hand) : w = Finished ∨ w ≠ Finished.
Proof. destruct w; auto. Qed.

Lemma cost_bound budget s owned ring A st i c first count w :
  t0 - h0 + budget < 2 ^ 62 → ready budget s owned ring A st → claim_at s i = Some (c, first, count) →
  hands s !! i = Some w → cost first count w <= 3 * count + 3.
Proof.
  intros Hb R Hc Hw. pose proof block_size_pos. destruct (find_claimant budget s owned ring A st i c first count w Hb R Hc Hw) as (f & -> & [_ Hr W]).
  assert (He : u64 (u64 f + count) = u64 (f + count)) by apply wrap_add_l.
  destruct w as [|hid|hid fr|hid ii index|hid ii b from index|hid ii b from index k|]; cbn [cost]; try lia.
  - destruct W as (cur & -> & Hcur & _). rewrite He, distance by lia. lia.
  - destruct W as (c0 & cur & -> & -> & Hcur & Hpe & _). pose proof (block_base_bounds c0). unfold part_end in *.
    rewrite He, end_index_of by lia. unfold part_end. rewrite !distance by lia. lia.
  - destruct W as (c0 & -> & -> & Hcur & _). pose proof (block_base_bounds c0). unfold part_end in *.
    rewrite He, !distance by lia. lia.
Qed.

Lemma work_off budget (room : nat) : BLOCK_SIZE * room < 2 ^ 62 → t0 - h0 + budget < 2 ^ 62 →
  ∀ (n : nat) s i c first count w, holds budget room s → claim_at s i = Some (c, first, count) → hands s !! i = Some w →
  cost first count w <= n →
  ∃ (k : nat) s', (k ≤ n)%nat ∧ run s (replicate k (Work i)) = Some (Ok s') ∧ hands s' !! i = Some Finished ∧
    claim_at s' i = Some (c, first, count).
Proof.
  intros Hroom Hb n. induction n as [|n IH]; intros s i c first count w Hh Hc Hw Hn.
  - destruct (finished_or_not w) as [->|Hne]; [by exists 0%nat, s|].
    destruct (work_progress budget room s i c first count w Hroom Hb Hh Hc Hw Hne) as [? _]. lia.
  - destruct (finished_or_not w) as [->|Hne]; [exists 0%nat, s; split_and!; [lia|done..]|].
    destruct (work_progress budget room s i c first count w Hroom Hb Hh Hc Hw Hne) as (_ & s1 & w1 & Hs & Hh1 & Hc1 & Hw1 & Hlt).
    destruct (IH s1 i c first count w1 Hh1 Hc1 Hw1) as (k & s2 & Hk & Hr & Hf & Hc2); [lia|].
    exists (S k), s2. split_and!; [lia| |done|done]. cbn [replicate run]. by rewrite Hs.
Qed.

Lemma claim_hand budget room s i c first count :
  t0 - h0 + budget < 2 ^ 62 → holds budget room s → claim_at s i = Some (c, first, count) →
  ∃ w, hands s !! i = Some w ∧ cost first count w <= 3 * count + 3 ∧ 0 < count.
Proof.
  intros Hb (owned & ring & A & st & R & _) Hc.
  assert (is_Some (hands s !! i)) as [w Hw].
  { apply lookup_lt_is_Some. rewrite (ha_length _ _ _ _ _ _ _ _ (rd_hands _ _ _ _ _ _ R)). unfold claim_at in Hc.
    destruct (_ !! i) eqn:Hi; [by eapply lookup_lt_Some|done]. }
  exists w. split; [done|]. split; [by eapply cost_bound|].
  destruct (find_claimant budget s owned ring A st i c first count w Hb R Hc Hw) as (f & _ & [_ Hr _]). lia.
Qed.

Lemma finished_returns s i c first count :
  claim_at s i = Some (c, first, count) → hands s !! i = Some Finished →
  ∃ s', step s (Count i McDequeue.Go) = Some (Ok s') ∧ McDequeue.threads (counters s') !! i = Some None ∧
    hands s' !! i = Some LoadIndex.
Proof.
  intros Hc Hf. cbn [step]. rewrite Hc, Hf. unfold claim_at in Hc. cbn [McDequeue.step].
  destruct (McDequeue.threads (counters s) !! i) as [[[c0 []]|]|] eqn:Hi; try done.
  eexists. split; [done|]. simpl. rewrite !list_lookup_insert_eq by (by eapply lookup_lt_Some). done.
Qed.

Lemma run_app ls s s1 s2 ls' :
  run s ls = Some (Ok s1) → run s1 ls' = Some (Ok s2) → run s (ls ++ ls') = Some (Ok s2).
Proof.
  revert s. induction ls as [|l ls IH]; intros s Hr Hr'; [by injection Hr as ->|].
  cbn [run app] in *. destruct (step s l) as [[]|]; try done. cbn in *. by apply IH.
Qed.

(** ** No races *)

Lemma sees_current r n ring A hid sz f B idx hd hs :
  sees r n ring A hid sz f B → McExplicit.index_for r ring n A → (n ≤ length ring)%nat → A mod BLOCK_SIZE = 0 →
  McExplicit.blockIndex r = hd :: hs → hid = length hs → A <= idx < B + BLOCK_SIZE →
  ∃ k : nat, (k < n)%nat ∧ position sz f B idx = (McExplicit.pr_blockIndexFront r - n + k) mod McExplicit.pr_blockIndexSize r.
Proof.
  intros (newer & h & older & Hb & Hid & Hs & Hv) X Hn HA Hr Hh Hi. rewrite Hr in Hb. destruct newer as [|nh newer].
  - destruct Hv as (kB & Hk & -> & ->). injection Hb as -> ->.
    destruct (locate A (S kB) idx) as (k & j & Hkk & Hj & ->); [unfold base in *; lia|]. exists k. split; [lia|].
    unfold position. rewrite block_base_at, base_quotient by done.
    pose proof (McExplicit.ix_current _ _ _ _ X) as C. rewrite Hr in C. destruct C as (C & _). rewrite <- Hs, C, Zminus_mod_idemp_l.
    f_equal. lia.
  - apply (f_equal length) in Hb. rewrite length_app in Hb. simpl in Hb. lia.
Qed.

(** What a consumer accesses: an entry the producer does not write, or the slot of an
    index it has claimed. *)
Lemma consumer_access budget s owned ring A st i l w :
  t0 - h0 + budget < 2 ^ 62 → ready budget s owned ring A st → accesses s (Some i) = Some (l, w) →
  (∃ hid ii, l = Entry hid ii ∧ w = false ∧
     ∀ hd hs, McExplicit.blockIndex (own s) = hd :: hs → hid = length hs →
       ∃ k : nat, (k < indexed (putting s) ring)%nat ∧
         ii = (McExplicit.pr_blockIndexFront (own s) - indexed (putting s) ring + k) mod McExplicit.pr_blockIndexSize (own s)) ∨
  (∃ b k (j : nat) x, l = Slot b j ∧ ring !! k = Some b ∧ j < BLOCK_SIZE ∧ st (base A k + j) = Claimed i x).
Proof.
  intros Hb R Ha. unfold accesses in Ha. destruct (claim_at s i) as [[[c first] count]|] eqn:Hc; [|done].
  destruct (hands s !! i) as [wh|] eqn:Hw; [|done].
  destruct (find_claimant budget s owned ring A st i c first count wh Hb R Hc Hw) as (f & _ & Cm).
  pose proof (rd_shape _ _ _ _ _ _ R) as Sh. destruct (indexed_bounds _ _ _ _ _ Sh) as [Hn _]. pose proof (cm_range _ _ _ _ _ _ _ _ _ Cm) as Hr.
  pose proof (cm_walk _ _ _ _ _ _ _ _ _ Cm) as W.
  destruct wh as [|hid|hid fr|hid ii index|hid ii b from index|hid ii b from index k|]; try done; injection Ha as <- <-; [left..|right].
  - destruct W as (O & sz & B & Hs & HB). exists hid, fr. split_and!; [done..|]. intros hd hs Hr' Hid.
    pose proof Hs as (newer & h & older & Hbi & Ho & Hsz & Hv). rewrite Hr' in Hbi. destruct newer as [|nh newer].
    + destruct Hv as (kB & Hk & -> & ->). by exists kB.
    + apply (f_equal length) in Hbi. rewrite length_app in Hbi. simpl in Hbi. lia.
  - destruct W as (cur & -> & Hcur & O & sz & fr & B & Hs & HB & ->). exists hid, (position sz fr B cur). split_and!; [done..|].
    intros hd hs Hr' Hid. pose proof (owns_below _ _ _ _ _ _ _ cur (sh_low _ _ _ _ _ Sh) O ltac:(lia)) as HA.
    eapply sees_current; [exact Hs|apply Sh|done|apply Sh|exact Hr'|done|lia].
  - destruct W as (c0 & cur & -> & -> & Hcur & Hend & O & _ & k & Hk & Hbb). unfold part_end in Hend.
    pose proof (block_base_bounds c0). destruct (proj2 (proj1 O cur)) as [x Hx]; [lia|].
    exists b, k, (Z.to_nat (cur - base A k)), x. split_and!; [|done|lia|by replace (base A k + _) with cur by lia].
    f_equal. replace cur with (base A k + Z.to_nat (cur - base A k)) at 1 by lia. apply slot_at; [apply base_aligned, Sh|lia].
Qed.

Lemma producer_access budget s owned ring A st i l w w' :
  t0 - h0 + budget < 2 ^ 62 → ready budget s owned ring A st →
  accesses s None = Some (l, w) → accesses s (Some i) = Some (l, w') → False.
Proof.
  intros Hb R Hn Hi. pose proof (rd_shape _ _ _ _ _ _ R) as Sh. pose proof block_size_pos.
  pose proof (sh_index _ _ _ _ _ Sh) as X. pose proof (McExplicit.size_bounds _ _ _ _ X) as Hsz.
  pose proof (sh_place _ _ _ _ _ Sh) as Hpl. unfold place_ok in Hpl. unfold accesses in Hn.
  destruct (consumer_access budget s owned ring A st i l w' Hb R Hi) as [(hid & ii & -> & _ & He)|(b & k & j & x & -> & Hk & Hj & Hst)];
    destruct (putting s) as [[[ca y] []]|] eqn:Hp; try done.
  - destruct (McExplicit.blockIndex (own s)) as [|hd hs] eqn:Hbi; [done|]. injection Hn as Hid Hii _.
    destruct (He hd hs eq_refl (eq_sym Hid)) as (k & Hk & Hpos). cbn [indexed] in *. rewrite <- Hii in Hpos.
    pose proof (McExplicit.ix_front _ _ _ _ X). pose proof (McExplicit.ix_room _ _ _ _ X).
    assert (k = length ring - 1)%nat; [|lia].
    apply (McExplicit.pos_inj (McExplicit.pr_blockIndexSize (own s)) (McExplicit.pr_blockIndexFront (own s)) (length ring - 1)%nat); [lia..|].
    rewrite <- Hpos. f_equal. rewrite <- (Z.mod_small (McExplicit.pr_blockIndexFront (own s)) (McExplicit.pr_blockIndexSize (own s))) at 1 by lia.
    f_equal. lia.
  - by apply bind_Some in Hn as (tb & _ & [=]).
  - by destruct (McExplicit.blockIndex (own s)).
  - destruct Hpl as [Hr Ht]. apply bind_Some in Hn as (tb & Htb & [= -> Hslot _]).
    rewrite (sh_tail_block _ _ _ _ _ Sh) in Htb. apply last_at in Htb.
    assert (k = length ring - 1)%nat as -> by (by eapply (NoDup_lookup ring); [apply Sh|..]).
    assert (length ring ≠ 0%nat) by (by destruct ring).
    assert (Hj' : tail_of s = base A (length ring - 1) + (tail_of s - base A (length ring - 1))) by lia.
    rewrite (sh_tail _ _ _ _ _ Sh), Hj', slot_at in Hslot; [|apply base_aligned, Sh|rewrite <- base_pred in Ht by lia; lia].
    assert (base A (length ring - 1) + j = tail_of s) as Hcur by lia. rewrite Hcur in Hst.
    destruct (rd_counts _ _ _ _ _ _ R) as (used & ts & I & _). pose proof (claimed_le _ _ _ I).
    pose proof (busy_spent s owned ring A st i (tail_of s) Sh). rewrite Hst in *. simpl in *. lia.
Qed.

Lemma holds_race_free budget room s : t0 - h0 + budget < 2 ^ 62 → holds budget room s → race_free s.
Proof.
  intros Hb (owned & ring & A & st & R & _) a a' l w w' Hne Ha Ha'. destruct a as [i|], a' as [j|].
  - destruct (consumer_access budget s owned ring A st i l w Hb R Ha) as [(hid & ii & -> & -> & _)|(b & k & m & x & -> & Hk & Hm & Hx)];
      destruct (consumer_access budget s owned ring A st j _ w' Hb R Ha') as [(hid' & ii' & He & -> & _)|(b' & k' & m' & x' & He & Hk' & Hm' & Hx')];
      try done. injection He as -> ?. assert (m' = m) as -> by lia.
    assert (k' = k) as -> by (eapply (NoDup_lookup ring); [apply R|done|done]). congruence.
  - by destruct (producer_access budget s owned ring A st i l w' w Hb R Ha' Ha).
  - by destruct (producer_access budget s owned ring A st j l w w' Hb R Ha Ha').
  - done.
Qed.
(** ** The elements that were moved out *)

(** The elements of [l], each with its index, the first one's being [h]. *)
Definition numbered (h : Z) (l : list T) : list (Z * T) := imap (λ (j : nat) x, (u64 (h + j), x)) l.

Lemma taken_list budget s owned ring A st :
  ready budget s owned ring A st →
  let n := Z.to_nat (head_of s - h0) in
  (n ≤ length (xs ++ given s))%nat ∧ head_of s = h0 + n ∧
  (taken s).*2 ⊆+ numbered h0 (take n (xs ++ given s)) ∧
  ((∀ idx i x, st idx ≠ Claimed i x) → (taken s).*2 ≡ₚ numbered h0 (take n (xs ++ given s))).
Proof.
  intros R n. destruct (rd_counts _ _ _ _ _ _ R) as (used & ts & I & _). pose proof (claimed_le _ _ _ I).
  assert (Hl : Z.of_nat (length (xs ++ given s)) = tail_of s - h0) by (unfold tail_of; rewrite length_app; lia).
  destruct (rd_log _ _ _ _ _ _ R) as [(l & -> & Hnd & Hel)].
  set (k := imap (λ (j : nat) (x : T), (h0 + j, x)) (take n (xs ++ given s))).
  assert (Hk : numbered h0 (take n (xs ++ given s)) = (λ e, (u64 e.1, e.2)) <$> k).
  { unfold k, numbered. by rewrite fmap_imap. }
  assert (Hin : ∀ idx x, (idx, x) ∈ k ↔ h0 <= idx < head_of s ∧ everything s !! Z.to_nat (idx - h0) = Some x).
  { intros idx x. unfold k. rewrite elem_of_lookup_imap. unfold everything. rewrite (assoc_L app). split.
    - intros (j & y & [= -> <-] & Hj). apply lookup_take_Some in Hj as [Hj Hlt]. split; [lia|].
      replace (Z.to_nat (h0 + j - h0)) with j by lia. by apply lookup_app_l_Some.
    - intros [Hi Hx]. rewrite lookup_app_l in Hx by lia. exists (Z.to_nat (idx - h0)), x.
      split; [f_equal; lia|]. apply lookup_take_Some. split; [done|lia]. }
  assert (Hndl : NoDup l) by (by eapply NoDup_fmap_1).
  assert (Hsub : ∀ e, e ∈ l → e ∈ k) by (intros [idx x] (Hi & _ & Hx)%Hel; by apply Hin).
  split; [lia|]. split; [lia|]. rewrite Hk. split.
  - apply fmap_submseteq. by apply NoDup_submseteq.
  - intros Hno. apply fmap_Permutation, NoDup_Permutation; [done| |].
    + apply NoDup_alt. intros a b [idx x]. unfold k. rewrite !list_lookup_imap, !fmap_Some.
      intros (? & ? & [= -> ->]) (? & ? & [= ? ?]). lia.
    + intros [idx x]. rewrite Hel, Hin. split; [tauto|]. intros [? ?]. split; [done|]. split; [|done]. intros i y. apply Hno.
Qed.

(** ** Nobody in a call *)

Lemma idle_slots budget s owned ring A st :
  ready budget s owned ring A st → idle s → ∀ idx,
  held (st idx) = content (head_of s) (drop (Z.to_nat (head_of s - h0)) (xs ++ given s)) idx ∧
  (is_done (st idx) = true ↔ idx < head_of s) ∧ ∀ i x, st idx ≠ Claimed i x.
Proof.
  intros R [Hp Hidle] idx. pose proof (rd_shape _ _ _ _ _ _ R) as Sh.
  destruct (rd_counts _ _ _ _ _ _ R) as (used & ts & I & _). pose proof (claimed_le _ _ _ I).
  assert (Hev : everything s = xs ++ given s) by (unfold everything; by rewrite Hp, app_nil_r).
  assert (Hfree : ∀ i, ¬ busy i (st idx)).
  { intros i Hb. destruct (ha_busy _ _ _ _ _ _ _ _ (rd_hands _ _ _ _ _ _ R) i idx Hb) as [y Hc]. unfold claim_at in Hc.
    destruct (McDequeue.threads (counters s) !! i) as [th|] eqn:Hi; [|done]. rewrite Forall_lookup in Hidle. by rewrite (Hidle i th Hi) in Hc. }
  unfold content. destruct (Z.leb_spec (head_of s) idx) as [Hge|Hlt].
  - rewrite lookup_drop. replace (_ + Z.to_nat (idx - head_of s))%nat with (Z.to_nat (idx - h0)) by lia.
    destruct (Z.lt_ge_cases idx (h0 + length (everything s))) as [Hl|Hl].
    + destruct (sh_full _ _ _ _ _ Sh idx) as [x Hx]; [lia|].
      destruct (sh_value _ _ _ _ _ Sh idx x) as [_ Hv]; [by rewrite Hx|]. rewrite Hev in Hv. rewrite Hx, Hv.
      split_and!; [done|split; [done|lia]|done].
    + rewrite (sh_raw _ _ _ _ _ Sh) by done. rewrite lookup_ge_None_2 by (rewrite <- Hev; lia).
      split_and!; [done|split; [done|lia]|done].
  - pose proof (sh_head _ _ _ _ _ Sh idx Hlt) as Hs.
    destruct (st idx) as [|x|i x|i|]; try done; by destruct (Hfree i).
Qed.

Lemma idle_repr budget (room : nat) s owned ring A st :
  t0 - h0 + budget < 2 ^ 62 → BLOCK_SIZE * room < 2 ^ 62 → (length ring ≤ room)%nat →
  ready budget s owned ring A st → idle s →
  McExplicit.repr (blocks s) (seen_alone s) owned ring A (tail_of s) (head_of s)
    (drop (Z.to_nat (head_of s - h0)) (xs ++ given s)).
Proof.
  intros Hbud Hroom Hlen R Hidle. pose proof (idle_slots _ _ _ _ _ _ R Hidle) as Hst. destruct Hidle as [Hp Hidle].
  pose proof (rd_shape _ _ _ _ _ _ R) as Sh. pose proof block_size_pos.
  destruct (rd_counts _ _ _ _ _ _ R) as (used & ts & I & _). pose proof (claimed_le _ _ _ I) as Hle.
  pose proof (sh_place _ _ _ _ _ Sh) as Hpl. unfold place_ok in Hpl. rewrite Hp in Hpl.
  pose proof (sh_index _ _ _ _ _ Sh) as X. pose proof (sh_front _ _ _ _ _ Sh) as F. rewrite Hp in X, F. cbn [indexed] in X, F.
  constructor; [|by destruct X|intros Hr; apply F; destruct ring; [done|simpl; lia]|lia|apply Sh].
  constructor; try apply Sh.
  - exact (McDequeue.inv_head _ _ _ _ _ _ _ _ I).
  - pose proof (McDequeue.tickets_settled _ _ _ _ _ _ _ _ I Hidle) as Hset.
    destruct (McDequeue.inv_claims _ _ _ _ _ _ _ _ I) as [_ Hsum]. simpl.
    rewrite (McDequeue.co_now _ _ _ (McDequeue.inv_optimistic _ _ _ _ _ _ _ _ I)), (McDequeue.co_now _ _ _ (McDequeue.inv_overcommit _ _ _ _ _ _ _ _ I)).
    rewrite wrap_sub_l, wrap_sub_r. f_equal. unfold head_of. lia.
  - rewrite length_drop, length_app. unfold tail_of in *. lia.
  - pose proof (shape_bounds _ _ _ _ _ Sh). lia.
  - nia.
  - intros k i Hk. destruct (sh_blocks _ _ _ _ _ Sh k i Hk) as (b & Hb & Hn & [B1 B2 B3]). exists b. split; [done|]. split; [done|].
    constructor; [done| |].
    + intros j Hj. rewrite B2 by done. f_equal. apply Hst.
    + eapply tracks_Permutation; [|exact B3]. apply NoDup_Permutation; [apply marked_nodup|apply NoDup_seq|].
      intros j. rewrite marked_elem. unfold dequeued_slots. rewrite elem_of_seq.
      destruct (Hst (base A k + j)) as (_ & Hd & _). rewrite Hd. lia.
Qed.
End invariant.
(** ** From a producer between two calls *)

Lemma create_holds p r owned ring A t h xs v n :
  McExplicit.repr p r owned ring A t h xs →
  holds t h v xs (McExplicit.others owned ring) 0 (length ring) (create p r t h v n).
Proof.
  intros [I X F S U]. pose proof block_size_pos.
  destruct I as [I1 I2 I3 I4 I5 I6 I7 I8 I9 I10 I11 I12]. set (s := create p r t h v n).
  set (st := λ idx, if decide (idx < h) then Done else match xs !! Z.to_nat (idx - h) with Some x => Full x | None => Raw end).
  assert (Hev : everything xs s = xs) by (unfold everything; simpl; by rewrite app_nil_r).
  assert (Ht : tail_of t s = t) by (unfold tail_of; simpl; lia).
  assert (Hh : head_of h s = h) by (unfold head_of, McDequeue.claims_of; simpl; lia).
  assert (Hst : ∀ idx, held (st idx) = content h xs idx).
  { intros idx. unfold st, content. destruct (Z.leb_spec h idx).
    - rewrite decide_False by lia. by destruct (xs !! _).
    - by rewrite decide_True. }
  assert (Hnone : ∀ i, claim_at s i = None).
  { intros i. unfold claim_at. simpl. destruct (replicate n None !! i) as [th|] eqn:Hi; [|done].
    by apply lookup_replicate in Hi as [-> _]. }
  exists owned, ring, A, st. split; [|simpl; lia]. constructor; rewrite ?Hh.
  - exists 0, []. split; [|simpl; lia]. rewrite Ht. apply McDequeue.quiescent_inv.
  - simpl. constructor; [done|]. simpl. intros x ->%list_elem_of_singleton. exists h. split; [done|lia].
  - simpl. apply Forall_replicate. done.
  - constructor; rewrite ?Hev, ?Ht, ?Hh; try done.
    + intros k i Hk. destruct (I12 k i Hk) as (b & Hb & Hn & [B1 B2 B3]). exists b. split; [done|]. split; [done|].
      constructor; [done| |].
      * intros j Hj. by rewrite B2, Hst.
      * eapply tracks_Permutation; [|exact B3]. apply NoDup_Permutation; [apply NoDup_seq|apply marked_nodup|].
        intros j. rewrite marked_elem. unfold dequeued_slots, st. rewrite elem_of_seq. case_decide as Hd.
        -- split; [intros ?; split; [lia|done]|intros [? _]; lia].
        -- split; [intros ?; lia|]. intros [_ Hx]. by destruct (xs !! _).
    + intros idx Hi. unfold st. by rewrite decide_True by lia.
    + intros idx Hi. unfold st. by rewrite decide_True by lia.
    + intros idx Hi. unfold st. rewrite decide_False by lia.
      destruct (lookup_lt_is_Some_2 xs (Z.to_nat (idx - h))) as [x ->]; [lia|]. eauto.
    + intros idx Hi. unfold st. rewrite decide_False, lookup_ge_None_2 by lia. done.
    + intros idx x Hx. rewrite Hst in Hx. unfold content in Hx. destruct (Z.leb_spec h idx); [done|done].
    + intros Hn. apply F. intros ->. simpl in Hn. lia.
    + unfold place_ok. simpl. rewrite Ht. lia.
  - constructor.
    + simpl. by rewrite !length_replicate.
    + intros i c first count w. by rewrite Hnone.
    + intros i w _ Hw. simpl in Hw. by apply lookup_replicate in Hw as [-> _].
    + intros i idx Hb. unfold st in Hb. case_decide; [done|]. by destruct (xs !! _).
  - constructor. exists []. split; [done|]. split; [by apply NoDup_nil_2|]. intros idx x. rewrite Hh. split; [by intros Hx%not_elem_of_nil|lia].
Qed.

(** C10: one producer in [enqueue] and any number of consumers in [dequeue] and
    [dequeue_bulk] of one [ExplicitProducer], from any state between two calls and any
    point of the wrapping counters.  No step is undefined or fails an assertion; no two
    threads are about to touch the same slot or the same entry of the block index with one
    of them writing; and what consumers moved out is what was enqueued first, each element
    once and at its own index. *)
Theorem consumers_race_free p r owned ring A t h xs v n ls res :
  McExplicit.repr p r owned ring A t h xs → Forall label_ok ls → t - h + zsum asked ls < 2 ^ 62 →
  BLOCK_SIZE * (length ring + sum_list (puts <$> ls))%nat < 2 ^ 62 →
  run (create p r t h v n) ls = Some res →
  ∃ s (m : nat), res = Ok s ∧ race_free s ∧ (m ≤ length (xs ++ given s))%nat ∧
    McDequeue.now (McDequeue.headIndex (McDequeue.sh (counters s))) = u64 (h + m) ∧
    (taken s).*2 ⊆+ numbered h (take m (xs ++ given s)).
Proof.
  intros R Hl Hb Hsz Hrun. pose proof R as [[] _ _ _ _].
  assert (Hstart : h <= t ∧ Z.of_nat (length xs) = t - h) by lia.
  destruct (hand_run_ok t h v xs (McExplicit.others owned ring) Hstart ls 0 (length ring) (create p r t h v n) res Hl Hsz) as (s & -> & Hh);
    [lia|by eapply create_holds|done|].
  exists s. pose proof (holds_race_free t h v xs _ Hstart (0 + zsum asked ls) _ s ltac:(lia) Hh) as Hrf.
  destruct Hh as (owned' & ring' & A' & st & Rd & _).
  destruct (taken_list _ _ _ _ _ Hstart _ _ _ _ _ _ Rd) as (Hn & Hhead & Hsub & _).
  eexists. split_and!; [done|done|exact Hn| |exact Hsub]. rewrite <- Hhead. apply (rd_head _ _ _ _ _ _ _ _ _ _ _ Rd).
Qed.

(** C12: in any state so reached, a consumer that has claimed [count] elements is never
    held up by the others: [3 * count + 3] of its own steps are enough to take them out and
    mark their slots, and then its call returns. *)
Theorem claim_worked_off p r owned ring A t h xs v n ls s i c first count :
  McExplicit.repr p r owned ring A t h xs → Forall label_ok ls → t - h + zsum asked ls < 2 ^ 62 →
  BLOCK_SIZE * (length ring + sum_list (puts <$> ls))%nat < 2 ^ 62 →
  run (create p r t h v n) ls = Some (Ok s) → claim_at s i = Some (c, first, count) →
  ∃ (k : nat) s', k <= 3 * count + 3 ∧ run s (replicate k (Work i) ++ [Count i McDequeue.Go]) = Some (Ok s') ∧
    McDequeue.threads (counters s') !! i = Some None ∧ hands s' !! i = Some LoadIndex.
Proof.
  intros R Hl Hb Hsz Hrun Hc. pose proof R as [[] _ _ _ _].
  assert (Hstart : h <= t ∧ Z.of_nat (length xs) = t - h) by lia.
  destruct (hand_run_ok t h v xs (McExplicit.others owned ring) Hstart ls 0 (length ring) (create p r t h v n) (Ok s) Hl Hsz) as (s0 & [= <-] & Hh);
    [lia|by eapply create_holds|done|].
  rewrite Z.add_0_l in Hh.
  destruct (claim_hand _ _ _ _ _ Hstart _ _ _ _ _ _ _ Hb Hh Hc) as (w & Hw & Hcost & Hpos).
  destruct (work_off t h v xs _ Hstart _ _ Hsz Hb (Z.to_nat (3 * count + 3)) s i c first count w Hh Hc Hw) as (k & s' & Hk & Hr & Hf & Hc'); [lia|].
  destruct (finished_returns s' i c first count Hc' Hf) as (s'' & Hs & Ht & Hw'). exists k, s''. split_and!; [lia| |done|done].
  eapply run_app; [exact Hr|]. cbn [run]. by rewrite Hs.
Qed.

(** C11: when nobody is in a call any more, the producer is one between two calls of
    McExplicit.v: it holds the elements that were not dequeued, in order, all that lay
    before them was moved out, once, and the blocks of other producers are as they were. *)
Theorem quiescent_again p r owned ring A t h xs v n ls s :
  McExplicit.repr p r owned ring A t h xs → Forall label_ok ls → t - h + zsum asked ls < 2 ^ 62 →
  BLOCK_SIZE * (length ring + sum_list (puts <$> ls))%nat < 2 ^ 62 →
  run (create p r t h v n) ls = Some (Ok s) → idle s →
  ∃ (m : nat) owned' ring' A', (m ≤ length (xs ++ given s))%nat ∧
    (taken s).*2 ≡ₚ numbered h (take m (xs ++ given s)) ∧
    McExplicit.repr (blocks s) (seen_alone s) owned' ring' A' (t + length (given s)) (h + m) (drop m (xs ++ given s)) ∧
    McExplicit.others owned' ring' = McExplicit.others owned ring.
Proof.
  intros R Hl Hb Hsz Hrun Hidle. pose proof R as [[] _ _ _ _].
  assert (Hstart : h <= t ∧ Z.of_nat (length xs) = t - h) by lia.
  destruct (hand_run_ok t h v xs (McExplicit.others owned ring) Hstart ls 0 (length ring) (create p r t h v n) (Ok s) Hl Hsz) as (s' & [= <-] & Hh);
    [lia|by eapply create_holds|done|].
  destruct Hh as (owned' & ring' & A' & st & Rd & Hlen).
  destruct (taken_list _ _ _ _ _ Hstart _ _ _ _ _ _ Rd) as (Hn & Hhead & _ & Hperm).
  pose proof (idle_repr t h v xs _ Hstart (0 + zsum asked ls) (length ring + sum_list (puts <$> ls)) s owned' ring' A' st ltac:(lia) Hsz ltac:(lia) Rd Hidle) as Hrepr.
  exists (Z.to_nat (head_of h s - h)), owned', ring', A'. split_and!; [done| | |apply Rd].
  - apply Hperm. intros idx. by apply (idle_slots _ _ _ _ _ Hstart _ _ _ _ _ _ Rd Hidle).
  - rewrite <- Hhead. exact Hrepr.
Qed.
End proofs.
End hand_over.

(** ** Example: blocks of two elements, counters about to wrap *)

Definition small : Traits := {|
  BLOCK_SIZE := 2;
  sizeof_Block := 72;
  EXPLICIT_BLOCK_EMPTY_COUNTER_THRESHOLD := 32;
  EXPLICIT_INITIAL_INDEX_SIZE := 2;
  IMPLICIT_INITIAL_INDEX_SIZE := 2;
  MAX_SUBQUEUE_SIZE := SIZE_MAX;
  NDEBUG := false
|}.
#[local] Existing Instance small.
#[local] Instance small_ok : TraitsOk.
Proof. split; first [by exists 1|done]. Qed.

Definition two_blocks : pool Z := initial_blocks 2 [].
Definition about_to_wrap : McExplicit.producer :=
  McExplicit.Producer (2 ^ 64 - 2) (2 ^ 64 - 2) 0 2 None [McExplicit.Header 2 0 [None; None]] 0 2 0.

Lemma two_blocks_repr :
  McExplicit.repr two_blocks about_to_wrap ∅ [] (2 ^ 64 - 2) (2 ^ 64 - 2) (2 ^ 64 - 2) [].
Proof.
  constructor; [constructor| |done|done|done]; try done.
  - by apply initial_blocks_ok.
  - by intros i Hi%elem_of_nil.
  - constructor.
  - constructor; try done. by exists 1.
Qed.

Definition own_go (n : nat) : list (label (T := Z)) := replicate n (Own McDequeue.Go).
Definition work_on (i n : nat) : list (label (T := Z)) := replicate n (Work i).
Definition loads (i : nat) (c : McDequeue.call) (vs : list Z) : list (label (T := Z)) := Begin i c :: ((λ v, Count i (McDequeue.Seen v)) <$> vs).

(** Two blocks are filled; consumer 0 takes three elements and is half-way through when
    consumer 1 takes the fourth and the producer, which finds the first block marked,
    begins it again. *)
Definition schedule : list (label (T := Z)) :=
  [Put true 11; Own (McDequeue.Seen (2 ^ 64 - 2))] ++ own_go 6 ++ Put true 12 :: own_go 2 ++
  [Put true 13; Own McDequeue.Go; Own (McDequeue.Seen (2 ^ 64 - 2))] ++ own_go 6 ++ Put true 14 :: own_go 2 ++
  loads 0 (McDequeue.dequeue_bulk 3) [2; 7; 5] ++ [Count 0 McDequeue.Go; Count 0 (McDequeue.Seen 2); Count 0 McDequeue.Go] ++ work_on 0 8 ++
  loads 1 McDequeue.dequeue [2; 7; 8] ++ [Count 1 McDequeue.Go; Count 1 (McDequeue.Seen 2); Count 1 McDequeue.Go] ++ work_on 1 3 ++
  [Put false 15] ++ own_go 7 ++ work_on 1 3 ++ [Count 1 McDequeue.Go] ++ work_on 0 3 ++ [Count 0 McDequeue.Go].

Definition start_state : state (T := Z) := create two_blocks about_to_wrap (2 ^ 64 - 2) (2 ^ 64 - 2) 7 2.

(** It runs, and all calls return. *)
Definition outcome (ls : list (label (T := Z))) : option (list (nat * (Z * Z)) * list Z * bool * list (option (McDequeue.call * McDequeue.pc))) :=
  match run start_state ls with
  | Some (Ok s) => Some (taken s, given s, bool_decide (is_Some (putting s)), McDequeue.threads (counters s))
  | _ => None
  end.

Example schedule_outcome : outcome schedule =
  Some ([(0%nat, (2 ^ 64 - 2, 11)); (0%nat, (2 ^ 64 - 1, 12)); (1%nat, (1, 14)); (0%nat, (0, 13))], [11; 12; 13; 14; 15], false, [None; None]).
Proof. vm_compute. reflexivity. Qed.

Lemma outcome_run ls out : outcome ls = Some out → ∃ s, run start_state ls = Some (Ok s) ∧
  out = (taken s, given s, bool_decide (is_Some (putting s)), McDequeue.threads (counters s)).
Proof.
  unfold outcome. destruct (run start_state ls) as [[s| | |]|]; try done. intros [= <-]. by exists s.
Qed.

Lemma schedule_ok (k : nat) : Forall label_ok (take k schedule).
Proof. apply Forall_take. unfold label_ok. repeat constructor; done. Qed.

Lemma consumers_race_free_witness : ∃ s (m : nat), run start_state schedule = Some (Ok s) ∧ race_free s ∧
  (m ≤ length (given s))%nat ∧ McDequeue.now (McDequeue.headIndex (McDequeue.sh (counters s))) = u64 (2 ^ 64 - 2 + m) ∧
  (taken s).*2 ⊆+ numbered (2 ^ 64 - 2) (take m (given s)).
Proof.
  destruct (outcome_run schedule _ schedule_outcome) as (s & Hr & _).
  destruct (consumers_race_free two_blocks about_to_wrap ∅ [] (2 ^ 64 - 2) (2 ^ 64 - 2) (2 ^ 64 - 2) [] 7 2 schedule (Ok s))
    as (s' & m & [= <-] & H); [exact two_blocks_repr|exact (schedule_ok 200)|by vm_compute|by vm_compute|exact Hr|].
  exists s, m. exact (conj Hr H).
Defined.

Lemma claim_worked_off_witness : ∃ s (k : nat) s', run start_state (take 36 schedule) = Some (Ok s) ∧ k <= 12 ∧
  run s (replicate k (Work 0) ++ [Count 0 McDequeue.Go]) = Some (Ok s') ∧
  McDequeue.threads (counters s') !! 0%nat = Some None ∧ hands s' !! 0%nat = Some LoadIndex.
Proof.
  destruct (outcome_run (take 36 schedule) (_, _, _, _) ltac:(vm_compute; reflexivity)) as (s & Hr & E).
  assert (Hc : claim_at s 0 = Some (McDequeue.dequeue_bulk 3, 2 ^ 64 - 2, 3)).
  { unfold claim_at. injection E as _ _ _ <-. reflexivity. }
  destruct (claim_worked_off two_blocks about_to_wrap ∅ [] (2 ^ 64 - 2) (2 ^ 64 - 2) (2 ^ 64 - 2) [] 7 2 (take 36 schedule) s 0
    (McDequeue.dequeue_bulk 3) (2 ^ 64 - 2) 3
    two_blocks_repr (schedule_ok 36)) as (k & s' & H); [by vm_compute|by vm_compute|exact Hr|exact Hc|].
  exists s, k, s'. exact (conj Hr H).
Defined.

Lemma quiescent_again_witness : ∃ s (m : nat) owned ring A, run start_state schedule = Some (Ok s) ∧
  (taken s).*2 ≡ₚ numbered (2 ^ 64 - 2) (take m (given s)) ∧
  McExplicit.repr (blocks s) (seen_alone s) owned ring A (2 ^ 64 - 2 + length (given s)) (2 ^ 64 - 2 + m) (drop m (given s)).
Proof.
  destruct (outcome_run schedule _ schedule_outcome) as (s & Hr & E).
  destruct (quiescent_again two_blocks about_to_wrap ∅ [] (2 ^ 64 - 2) (2 ^ 64 - 2) (2 ^ 64 - 2) [] 7 2 schedule s)
    as (m & owned & ring & A & _ & H1 & H2 & _);
    [exact two_blocks_repr|exact (schedule_ok 200)|by vm_compute|by vm_compute|exact Hr| |exists s, m, owned, ring, A; exact (conj Hr (conj H1 H2))].
  injection E as _ _ Hp Ht. split; [|by rewrite <- Ht; repeat constructor].
  apply eq_sym, bool_decide_eq_false, eq_None_not_Some in Hp. exact Hp.
Defined.
End McHandOver.
