(* ===== verification/McHash.v ===== *)
(** * The hash from threads to implicit producers

    concurrentqueue.h: [get_or_add_implicit_producer], a lock-free hash table that
    grows.  Any number of threads are in it; a step is one access to the shared
    state.  A relaxed load of a key returns the current key, or the empty key if the
    thread has not seen another one there yet; a load of the pointer to the table
    returns the current table or one before it, but none older than the thread has
    seen.  What a thread has seen passes on with the resizing lock when it is cleared
    with [memory_order_release]; after a failed allocation the source clears it with
    [memory_order_relaxed], so that the next owner may see an old table.  Keys are never
    removed, as the header disables [thread_local] support. *)
From S2P Require Import Prelude McDetails McBlock.
Local Open Scope Z_scope.

Module McHash.
Import McDetails.

Definition invalid_thread_id : Z := 0.
(** A thread identifier is an address, 8 bytes. *)
Definition sizeof_thread_id : Z := 8.

(** [ImplicitProducerHash] with its [ImplicitProducerKVP]s. *)
Record hash := Hash { capacity : Z; keys : list Z; values : list (option nat); prev : option nat }.

(** The tables, in the order in which they were stored to [implicitProducerHash], the last
    one of which it points to; [prev] leads to another of them.  A [test_and_set] of the
    lock synchronises with the thread that cleared it last, which had seen the table
    [lockView], the first one if it had cleared it with [memory_order_relaxed].  Producers
    are numbered as they are created. *)
Record shared := Shared {
  hashes : list hash;
  implicitProducerHashCount : Z;
  implicitProducerHashResizeInProgress : bool;
  lockView : nat;
  producers : nat
}.

Definition with_hashes (s : shared) hs :=
  Shared hs (implicitProducerHashCount s) (implicitProducerHashResizeInProgress s) (lockView s) (producers s).
Definition with_count (s : shared) c :=
  Shared (hashes s) c (implicitProducerHashResizeInProgress s) (lockView s) (producers s).
Definition with_lock (s : shared) b view :=
  Shared (hashes s) (implicitProducerHashCount s) b view (producers s).
Definition with_producers (s : shared) n :=
  Shared (hashes s) (implicitProducerHashCount s) (implicitProducerHashResizeInProgress s) (lockView s) n.

Definition set_key (s : shared) (h i : nat) (id : Z) : shared :=
  with_hashes s (alter (λ t, Hash (capacity t) (<[i := id]> (keys t)) (values t) (prev t)) h (hashes s)).
Definition set_value (s : shared) (h i : nat) (v : option nat) : shared :=
  with_hashes s (alter (λ t, Hash (capacity t) (keys t) (<[i := v]> (values t)) (prev t)) h (hashes s)).

Definition new_hash (cap : Z) (before : option nat) : hash :=
  Hash cap (replicate (Z.to_nat cap) invalid_thread_id) (replicate (Z.to_nat cap) None) before.

(** Where a thread is in the call: about to make the access the constructor names.
    [Probe] looks for the thread in table [h], [AddProbe] and what follows enter it
    in table [main]. *)
Inductive pc :=
  | LoadHash
  | Probe (main h : nat) (index : Z)
  | AddProbe (main : nat) (index : Z) (v : option nat)
  | AddCas (main : nat) (index : Z) (v : option nat)
  | SetValue (main : nat) (index : Z) (v : option nat)
  | CountUp (main : nat)
  | TestAndSet (main : nat) (newCount : Z)
  | ReloadLocked (newCount : Z)
  | Malloc (main : nat) (newCount : Z)
  | Publish (main : nat) (newCount : Z) (newHash : hash)
  | Clear (main : nat) (newCount : Z)
  | MallocFailed
  | ClearFailed
  | Create (main : nat) (newCount : Z)
  | CreateFailed
  | ReloadHash (newCount : Z)
  | Returning (o : option nat).

(** What a thread has seen of the pointer to the table, and the keys it has seen
    not to be empty. *)
Record thread := Thread { seen_hash : nat; seen_keys : gset (nat * nat); at_ : option pc }.

(** [index &= hash->capacity - 1] *)
Definition mask (t : hash) (index : Z) : Z := Z.land index (u64 (capacity t - 1)).

(** [newCount < (mainHash->capacity >> 1) + (mainHash->capacity >> 2)] *)
Definition has_room (t : hash) (newCount : Z) : bool :=
  newCount <? u64 (Z.shiftr (capacity t) 1 + Z.shiftr (capacity t) 2).
Definition half_full (t : hash) (newCount : Z) : bool := Z.shiftr (capacity t) 1 <=? newCount.

(** The rest of the loop body after the resizing, and its start. *)
Definition insert_or_wait (t : hash) (main : nat) (newCount : Z) : pc :=
  if has_room t newCount then Create main newCount else ReloadHash newCount.
Definition grow_or_insert (t : hash) (main : nat) (newCount : Z) : pc :=
  if half_full t newCount then TestAndSet main newCount else insert_or_wait t main newCount.

(** [while (newCount >= (newCapacity >> 1)) newCapacity <<= 1], at most [fuel] turns. *)
Fixpoint grow_capacity (fuel : nat) (newCount newCapacity : Z) : option Z :=
  match fuel with
  | O => None
  | S fuel =>
      if Z.shiftr newCapacity 1 <=? newCount
      then grow_capacity fuel newCount (u64 (Z.shiftl newCapacity 1)) else Some newCapacity
  end.

(** What the environment answers: a store or read-modify-write takes place; a load
    returns a table or a key; memory is had or not, for a larger table or a producer. *)
Inductive answer := Go | SeenHash (m : nat) | SeenKey (k : Z) | Grown (b : bool) | Allocated (b : bool).

Definition see_hash (s : shared) (th : thread) (m : nat) : bool :=
  bool_decide (seen_hash th ≤ m < length (hashes s))%nat.
Definition see_key (th : thread) (h i : nat) (current k : Z) : bool :=
  (k =? current) || ((k =? invalid_thread_id) && negb (bool_decide ((h, i) ∈ seen_keys th))).

Definition move (th : thread) (p : pc) : thread := Thread (seen_hash th) (seen_keys th) (Some p).
Definition move_hash (th : thread) (m : nat) (p : pc) : thread := Thread m (seen_keys th) (Some p).
Definition move_key (th : thread) (h i : nat) (k : Z) (p : pc) : thread :=
  Thread (seen_hash th)
    (if k =? invalid_thread_id then seen_keys th else {[(h, i)]} ∪ seen_keys th) (Some p).

(** Where the search goes from a table that does not have the thread. *)
Definition next_hash (hashedId : Z) (main : nat) (before : option nat) : pc :=
  match before with None => CountUp main | Some h => Probe main h hashedId end.

Definition advance (id : Z) (s : shared) (th : thread) (p : pc) (a : answer) : option (shared * thread) :=
  let hashedId := hash_thread_id sizeof_thread_id id in
  match p, a with
  | LoadHash, SeenHash m =>
      if see_hash s th m then Some (s, move_hash th m (Probe m m hashedId)) else None
  | Probe main h index, SeenKey k =>
      t ← hashes s !! h;
      let index := mask t index in
      let i := Z.to_nat index in
      current ← keys t !! i;
      if negb (see_key th h i current k) then None
      else
        Some (s, move_key th h i k
          (if k =? id
           then
             let value := default None (values t !! i) in
             if decide (h = main) then Returning value else AddProbe main hashedId value
           else if k =? invalid_thread_id then next_hash hashedId main (prev t)
           else Probe main h (u64 (index + 1))))
  | AddProbe main index v, SeenKey k =>
      t ← hashes s !! main;
      let index := mask t index in
      let i := Z.to_nat index in
      current ← keys t !! i;
      if negb (see_key th main i current k) then None
      else
        Some (s, move_key th main i k
          (if k =? invalid_thread_id then AddCas main index v else AddProbe main (u64 (index + 1)) v))
  | AddCas main index v, Go =>
      t ← hashes s !! main;
      let i := Z.to_nat index in
      current ← keys t !! i;
      Some (if current =? invalid_thread_id
            then (set_key s main i id, move_key th main i id (SetValue main index v))
            else (s, move_key th main i current (AddProbe main (u64 (index + 1)) v)))
  | SetValue main index v, Go =>
      Some (set_value s main (Z.to_nat index) v, move th (Returning v))
  | CountUp main, Go =>
      t ← hashes s !! main;
      let newCount := u64 (1 + implicitProducerHashCount s) in
      Some (with_count s newCount, move th (grow_or_insert t main newCount))
  | TestAndSet main newCount, Go =>
      t ← hashes s !! main;
      Some (with_lock s true (lockView s),
            move_hash th (seen_hash th `max` lockView s)
              (if implicitProducerHashResizeInProgress s then insert_or_wait t main newCount
               else ReloadLocked newCount))
  | ReloadLocked newCount, SeenHash m =>
      if see_hash s th m
      then
        t ← hashes s !! m;
        Some (s, move_hash th m (if half_full t newCount then Malloc m newCount else Clear m newCount))
      else None
  | Malloc main newCount, Grown b =>
      if b : bool
      then
        t ← hashes s !! main;
        newCapacity ← grow_capacity 64 newCount (u64 (Z.shiftl (capacity t) 1));
        Some (s, move th (Publish main newCount (new_hash newCapacity (Some main))))
      else Some (s, move th MallocFailed)
  | Publish main newCount newHash, Go =>
      Some (with_hashes s (hashes s ++ [newHash]),
            move_hash th (length (hashes s)) (Clear (length (hashes s)) newCount))
  | Clear main newCount, Go =>
      t ← hashes s !! main;
      Some (with_lock s false (seen_hash th), move th (insert_or_wait t main newCount))
  | MallocFailed, Go =>
      Some (with_count s (u64 (implicitProducerHashCount s - 1)), move th ClearFailed)
  | ClearFailed, Go => Some (with_lock s false 0, move th (Returning None))
  | Create main newCount, Allocated b =>
      if b : bool
      then Some (with_producers s (S (producers s)), move th (AddProbe main hashedId (Some (producers s))))
      else Some (s, move th CreateFailed)
  | CreateFailed, Go =>
      Some (with_count s (u64 (implicitProducerHashCount s - 1)), move th (Returning None))
  | ReloadHash newCount, SeenHash m =>
      if see_hash s th m
      then t ← hashes s !! m; Some (s, move_hash th m (grow_or_insert t m newCount)) else None
  | _, _ => None
  end.

(** The queue's table with the threads that use it; [returned] lists what calls
    returned. *)
Record table := Table {
  sh : shared;
  threads : gmap Z thread;
  returned : list (Z * option nat)
}.

Inductive label := Begin (id : Z) | Act (id : Z) (a : answer).

Definition step (q : table) (l : label) : option table :=
  match l with
  | Begin id =>
      th ← threads q !! id;
      match at_ th with
      | None => Some (Table (sh q) (<[id := move th LoadHash]> (threads q)) (returned q))
      | Some _ => None
      end
  | Act id a =>
      th ← threads q !! id;
      match at_ th with
      | None => None
      | Some (Returning o) =>
          Some (Table (sh q) (<[id := Thread (seen_hash th) (seen_keys th) None]> (threads q))
                  (returned q ++ [(id, o)]))
      | Some p =>
          '(s, th') ← advance id (sh q) th p a; Some (Table s (<[id := th']> (threads q)) (returned q))
      end
  end.

Fixpoint run (q : table) (ls : list label) : option table :=
  match ls with [] => Some q | l :: ls => q' ← step q l; run q' ls end.

(** [populate_initial_implicit_producer_hash], and the threads with these identifiers. *)
Definition create (INITIAL_IMPLICIT_PRODUCER_HASH_SIZE : Z) (ids : list Z) : table :=
  Table (Shared [new_hash INITIAL_IMPLICIT_PRODUCER_HASH_SIZE None] 0 false 0 0)
        (list_to_map ((λ id, (id, Thread 0 ∅ None)) <$> ids)) [].

(** No allocation of a larger table fails. *)
Definition grows (l : label) : Prop := ∀ id, l ≠ Act id (Grown false).

(** ** What holds in every state, when no allocation of a larger table fails *)

Definition key_at (s : shared) (h i : nat) : option Z := t ← hashes s !! h; keys t !! i.
Definition value_at (s : shared) (h i : nat) : option (option nat) := t ← hashes s !! h; values t !! i.

(** The thread is in one of the tables. *)
Definition known (s : shared) (id : Z) : Prop := ∃ h i, key_at s h i = Some id.

(** The slot tried after [d] others. *)
Definition position (id cap : Z) (d : nat) : nat :=
  Z.to_nat ((hash_thread_id sizeof_thread_id id + d) mod cap).

Definition limit (t : hash) : Z := capacity t / 2 + capacity t / 4.

(** The thread has seen the first [d] slots of its chain in table [h] to be taken. *)
Definition passed (id : Z) (th : thread) (h : nat) (cap : Z) (d : nat) : Prop :=
  ∀ d', (d' < d)%nat → (h, position id cap d') ∈ seen_keys th.

(** About to resize, or to take the resizing back. *)
Definition locked (p : pc) : bool :=
  match p with
  | ReloadLocked _ | Malloc _ _ | Publish _ _ _ | Clear _ _ | MallocFailed | ClearFailed => true
  | _ => false
  end.

(** The proof gives each thread that is counted the count it has seen, its ticket,
    and each producer its thread. *)
Section invariant.
Context (tickets : gmap Z Z) (owner : gmap Z nat).

Definition absent (s : shared) (id : Z) : Prop := ∀ h i, key_at s h i ≠ Some id.

Definition entering (s : shared) (id newCount : Z) : Prop :=
  tickets !! id = Some newCount ∧ owner !! id = None ∧ absent s id.

(** Looking for a slot of table [main] that is not taken. *)
Definition placing (s : shared) (id : Z) (th : thread) (main : nat) (index : Z) (v : option nat) : Prop :=
  ∃ t (d : nat) n P, hashes s !! main = Some t ∧ (main ≤ seen_hash th)%nat ∧
    index mod capacity t = (hash_thread_id sizeof_thread_id id + d) mod capacity t ∧
    passed id th main (capacity t) d ∧ (∀ i, key_at s main i ≠ Some id) ∧
    tickets !! id = Some n ∧ n < limit t ∧ v = Some P ∧ owner !! id = Some P.

Definition pc_ok (s : shared) (id : Z) (th : thread) (p : pc) : Prop :=
  match p with
  | LoadHash => is_Some (tickets !! id) → known s id
  | Probe main h index =>
      (h ≤ main ≤ seen_hash th)%nat ∧
      (∀ h' i, (h < h' ≤ main)%nat → key_at s h' i ≠ Some id) ∧
      (is_Some (tickets !! id) → ∃ h' i, (h' ≤ h)%nat ∧ key_at s h' i = Some id) ∧
      ∃ t (d : nat), hashes s !! h = Some t ∧
        index mod capacity t = (hash_thread_id sizeof_thread_id id + d) mod capacity t ∧
        passed id th h (capacity t) d ∧ ∀ d', (d' < d)%nat → key_at s h (position id (capacity t) d') ≠ Some id
  | AddProbe main index v => placing s id th main index v
  | AddCas main index v =>
      placing s id th main index v ∧ ∀ t, hashes s !! main = Some t → 0 <= index < capacity t
  | SetValue main index v =>
      0 <= index ∧ key_at s main (Z.to_nat index) = Some id ∧ ∃ P, v = Some P ∧ owner !! id = Some P
  | CountUp main => (main ≤ seen_hash th)%nat ∧ tickets !! id = None
  | TestAndSet main n | Clear main n => (main ≤ seen_hash th)%nat ∧ entering s id n
  | Malloc main n =>
      main = seen_hash th ∧ entering s id n ∧ ∃ t, hashes s !! main = Some t ∧ capacity t / 2 <= n
  | Publish main n newHash =>
      main = seen_hash th ∧ entering s id n ∧ ∃ m, 0 <= m <= 34 ∧ newHash = new_hash (2 ^ m) (Some main)
  | ReloadLocked n | ReloadHash n => entering s id n
  | MallocFailed | ClearFailed => False
  | CreateFailed => ∃ n, entering s id n
  | Create main n =>
      (main ≤ seen_hash th)%nat ∧ entering s id n ∧ ∃ t, hashes s !! main = Some t ∧ n < limit t
  | Returning (Some P) => owner !! id = Some P ∧ known s id
  | Returning None => tickets !! id = None
  end.

(** A key in a table: its thread comes upon it before any empty slot. *)
Record entry_ok (q : table) (h : nat) (t : hash) (i : nat) (id : Z) : Prop := {
  en_thread : ∃ th d, threads q !! id = Some th ∧ i = position id (capacity t) d ∧
    passed id th h (capacity t) d ∧ (h, i) ∈ seen_keys th ∧ (h ≤ seen_hash th)%nat ∧
    ((∃ index v, at_ th = Some (SetValue h index v) ∧ i = Z.to_nat index) ∨
     ∃ P, values t !! i = Some (Some P) ∧ owner !! id = Some P);
  en_ticket : ∃ n, tickets !! id = Some n ∧ n < limit t;
  en_unique j : keys t !! j = Some id → j = i
}.

Record table_ok (t : hash) : Prop := {
  ta_capacity : ∃ m, 0 <= m <= 34 ∧ capacity t = 2 ^ m;
  ta_keys : length (keys t) = Z.to_nat (capacity t);
  ta_values : length (values t) = Z.to_nat (capacity t)
}.

(** The table before number [h]. *)
Definition before (h : nat) : option nat := match h with O => None | S h => Some h end.

(** At most [x] threads have a ticket up to [x]. *)
Definition up_to (x : Z) : gmap Z Z := filter (λ p, p.2 <= x) tickets.

Record inv (q : table) : Prop := {
  inv_hashes : hashes (sh q) ≠ [];
  inv_tables h t : hashes (sh q) !! h = Some t → table_ok t;
  inv_prev h t : hashes (sh q) !! h = Some t → prev t = before h;
  inv_growing h1 h2 t1 t2 : (h1 ≤ h2)%nat → hashes (sh q) !! h1 = Some t1 →
    hashes (sh q) !! h2 = Some t2 → capacity t1 <= capacity t2;
  inv_count : implicitProducerHashCount (sh q) = size tickets;
  inv_tickets x : 0 <= x → Z.of_nat (size (up_to x)) <= x;
  inv_threads id n : tickets !! id = Some n → is_Some (threads q !! id) ∧ 0 < n <= size (threads q);
  inv_size : size (threads q) <= 2 ^ 32;
  inv_ids id : is_Some (threads q !! id) → id ≠ invalid_thread_id;
  inv_entries h t i id : hashes (sh q) !! h = Some t → keys t !! i = Some id → id ≠ invalid_thread_id →
    entry_ok q h t i id;
  inv_seen id th : threads q !! id = Some th → (seen_hash th < length (hashes (sh q)))%nat ∧
    ∀ h i, (h, i) ∈ seen_keys th → ∃ k, key_at (sh q) h i = Some k ∧ k ≠ invalid_thread_id;
  inv_owner id P : owner !! id = Some P → (P < producers (sh q))%nat ∧ is_Some (tickets !! id);
  inv_owners id1 id2 P : owner !! id1 = Some P → owner !! id2 = Some P → id1 = id2;
  inv_pc id th p : threads q !! id = Some th → at_ th = Some p → pc_ok (sh q) id th p;
  inv_idle id th : threads q !! id = Some th → at_ th = None → is_Some (tickets !! id) → known (sh q) id;
  inv_lock id th p : threads q !! id = Some th → at_ th = Some p → locked p = true →
    implicitProducerHashResizeInProgress (sh q) = true ∧
    ∀ id' th' p', threads q !! id' = Some th' → at_ th' = Some p' → locked p' = true → id' = id;
  inv_view : (lockView (sh q) < length (hashes (sh q)))%nat ∧
    (implicitProducerHashResizeInProgress (sh q) = false → S (lockView (sh q)) = length (hashes (sh q)));
  inv_newest id th p : threads q !! id = Some th → at_ th = Some p → locked p = true →
    S (seen_hash th) = length (hashes (sh q));
  inv_largest id th main n newHash : threads q !! id = Some th → at_ th = Some (Publish main n newHash) →
    ∀ h t, hashes (sh q) !! h = Some t → capacity t <= capacity newHash;
  inv_returned id o : (id, o) ∈ returned q → ∀ P, o = Some P → owner !! id = Some P
}.
End invariant.

(** ** The tables of two states *)

(** Thread [id] has changed the tables: keys of others are as they were, and no key
    was removed. *)
Record extends (id : Z) (s s' : shared) : Prop := {
  ex_tables h t : hashes s !! h = Some t → ∃ t', hashes s' !! h = Some t' ∧ capacity t' = capacity t;
  ex_keys id' h i : id' ≠ id → id' ≠ invalid_thread_id →
    key_at s' h i = Some id' ↔ key_at s h i = Some id';
  ex_taken h i k : key_at s h i = Some k → k ≠ invalid_thread_id → key_at s' h i = Some k
}.

Lemma extends_refl id s : extends id s s.
Proof. constructor; naive_solver. Qed.

Lemma known_other id id' s s' :
  extends id s s' → id' ≠ id → id' ≠ invalid_thread_id → known s' id' ↔ known s id'.
Proof. intros E H1 H2. unfold known. by setoid_rewrite (ex_keys _ _ _ E id' _ _ H1 H2). Qed.

Lemma absent_other id id' s s' :
  extends id s s' → id' ≠ id → id' ≠ invalid_thread_id → absent s id' → absent s' id'.
Proof. intros E H1 H2 Ha h i Hk. apply (Ha h i). by apply (ex_keys _ _ _ E). Qed.

(** What another thread knows stays true. *)
Lemma pc_ok_other tk ow tk' ow' id id' s s' th p :
  extends id s s' → id' ≠ id → id' ≠ invalid_thread_id →
  tk' !! id' = tk !! id' → ow' !! id' = ow !! id' → pc_ok tk ow s id' th p → pc_ok tk' ow' s' id' th p.
Proof.
  intros E H1 H2 Ht Ho Hp.
  assert (Hent : ∀ n, entering tk ow s id' n → entering tk' ow' s' id' n).
  { intros n (? & ? & ?). split_and!; [by rewrite Ht|by rewrite Ho|by eapply absent_other]. }
  assert (Hpl : ∀ main index v, placing tk ow s id' th main index v → placing tk' ow' s' id' th main index v).
  { intros main index v (t & d & n & P & Hm & Hs & Hi & Hpa & Hk & Hn & Hl & -> & HP).
    destruct (ex_tables _ _ _ E _ _ Hm) as (t' & Hm' & Hc). exists t', d, n, P.
    unfold limit in *. rewrite Hc, Ht, Ho. split_and!; try done. intros i Hk'. apply (Hk i).
    by apply (ex_keys _ _ _ E). }
  destruct p; simpl in *; rewrite ?Ht, ?Ho; try done.
  - intros HS. apply (known_other id id' s s'); auto.
  - destruct Hp as (Hh & Ha & Hk & t & d & Hm & Hi & Hpa & Hd). split; [done|]. split; [|split].
    + intros h' i Hr Hk'. apply (Ha h' i Hr). by apply (ex_keys _ _ _ E).
    + intros HS. destruct (Hk HS) as (h' & i & Hle & Hki). exists h', i. split; [done|].
      by apply (ex_keys _ _ _ E).
    + destruct (ex_tables _ _ _ E _ _ Hm) as (t' & Hm' & Hc). exists t', d. rewrite Hc. split_and!; try done.
      intros d' Hd' Hk'. apply (Hd d' Hd'). by apply (ex_keys _ _ _ E).
  - by apply Hpl.
  - destruct Hp as [Hp Hi]. split; [by apply Hpl|]. intros t Hm'.
    destruct Hp as (t0 & _ & _ & _ & Hm & _). destruct (ex_tables _ _ _ E _ _ Hm) as (t' & Hm2 & Hc).
    assert (t' = t) as -> by congruence. rewrite Hc. by apply Hi.
  - destruct Hp as (Hi & Hk & HP). split_and!; [done|by apply (ex_keys _ _ _ E)|done].
  - destruct Hp. split; [done|by apply Hent].
  - by apply Hent.
  - destruct Hp as (Hm & He & t & Hl & Ht'). split; [done|]. split; [by apply Hent|].
    destruct (ex_tables _ _ _ E _ _ Hl) as (t' & Hm' & Hc). exists t'. split; [done|by rewrite Hc].
  - destruct Hp as (? & ? & ?). split_and!; [done|by apply Hent|done].
  - destruct Hp. split; [done|by apply Hent].
  - destruct Hp as (Hm & He & t & Hl & Ht'). split; [done|]. split; [by apply Hent|].
    destruct (ex_tables _ _ _ E _ _ Hl) as (t' & Hm' & Hc). unfold limit in *. exists t'.
    split; [done|by rewrite Hc].
  - destruct Hp as [n Hn]. exists n. by apply Hent.
  - by apply Hent.
  - destruct o; [|done]. destruct Hp as [HP Hk]. split; [done|]. by apply (known_other id id' s s').
Qed.

Definition busy (th : thread) : bool := match at_ th with Some p => locked p | None => false end.
Definition setting (th : thread) : bool := match at_ th with Some (SetValue _ _ _) => true | _ => false end.

(** What an access of thread [id] has to preserve. *)
Record access_ok (tk : gmap Z Z) (ow : gmap Z nat) (tk' : gmap Z Z) (ow' : gmap Z nat)
    (q : table) (id : Z) (th : thread) (s' : shared) (th' : thread) : Prop := {
  ac_extends : extends id (sh q) s';
  ac_tickets id' : id' ≠ id → tk' !! id' = tk !! id';
  ac_owner id' : id' ≠ id → ow' !! id' = ow !! id';
  ac_seen : (seen_hash th ≤ seen_hash th' < length (hashes s'))%nat ∧ seen_keys th ⊆ seen_keys th';
  ac_seen_keys h i : (h, i) ∈ seen_keys th' → (h, i) ∈ seen_keys th ∨
    ∃ k, key_at s' h i = Some k ∧ k ≠ invalid_thread_id;
  ac_tables h t : hashes s' !! h = Some t → table_ok t;
  ac_growing h1 h2 t1 t2 : (h1 ≤ h2)%nat → hashes s' !! h1 = Some t1 →
    hashes s' !! h2 = Some t2 → capacity t1 <= capacity t2;
  ac_count : implicitProducerHashCount s' = size tk';
  ac_up_to x : 0 <= x → Z.of_nat (size (up_to tk' x)) <= x;
  ac_bound n : tk' !! id = Some n → 0 < n <= size (threads q);
  ac_mine h t i : hashes s' !! h = Some t → keys t !! i = Some id →
    entry_ok tk' ow' (Table s' (<[id := th']> (threads q)) (returned q)) h t i id;
  ac_values h t t' i k : hashes (sh q) !! h = Some t → hashes s' !! h = Some t' →
    keys t !! i = Some k → k ≠ id → values t' !! i = values t !! i;
  ac_made : (producers (sh q) ≤ producers s')%nat;
  ac_new_owner P : ow' !! id = Some P → is_Some (tk' !! id) ∧
    (ow !! id = Some P ∨ (producers (sh q) ≤ P < producers s')%nat);
  ac_kept P : ow !! id = Some P → ow' !! id = Some P;
  ac_pc : match at_ th' with
          | Some p => pc_ok tk' ow' s' id th' p
          | None => is_Some (tk' !! id) → known s' id
          end;
  ac_length : length (hashes s') = length (hashes (sh q)) ∨ busy th = true;
  ac_take : busy th' = true → implicitProducerHashResizeInProgress s' = true ∧
    (busy th = true ∨ implicitProducerHashResizeInProgress (sh q) = false);
  ac_release : implicitProducerHashResizeInProgress s' = true ∨ busy th = true ∨
    implicitProducerHashResizeInProgress s' = implicitProducerHashResizeInProgress (sh q);
  ac_prev h t : hashes s' !! h = Some t → prev t = before h;
  ac_view : (lockView s' < length (hashes s'))%nat ∧
    (implicitProducerHashResizeInProgress s' = false → S (lockView s') = length (hashes s'));
  ac_newest : busy th' = true → S (seen_hash th') = length (hashes s');
  ac_largest main n newHash : at_ th' = Some (Publish main n newHash) →
    ∀ h t, hashes s' !! h = Some t → capacity t <= capacity newHash
}.

Lemma key_at_table s h i k : key_at s h i = Some k ↔ ∃ t, hashes s !! h = Some t ∧ keys t !! i = Some k.
Proof. unfold key_at. by rewrite bind_Some. Qed.

Lemma access_inv tk ow tk' ow' q id th s' th' :
  inv tk ow q → threads q !! id = Some th → access_ok tk ow tk' ow' q id th s' th' →
  inv tk' ow' (Table s' (<[id := th']> (threads q)) (returned q)).
Proof.
  intros I Hth [].
  assert (Hid : id ≠ invalid_thread_id) by (apply (inv_ids _ _ _ I); by exists th).
  assert (Hids : ∀ id', is_Some (<[id:=th']> (threads q) !! id') ↔ is_Some (threads q !! id')).
  { intros id'. rewrite lookup_insert_is_Some'. split; [intros [<- | ?]; [by exists th|done]|by right]. }
  assert (Hb : ∀ id' thx p, id' ≠ id → threads q !! id' = Some thx → at_ thx = Some p → locked p = true →
    implicitProducerHashResizeInProgress s' = true ∧ busy th = false ∧ busy th' = false ∧
    length (hashes s') = length (hashes (sh q))).
  { intros id' thx p Hne Hthx Hp Hl. destruct (inv_lock _ _ _ I id' thx p Hthx Hp Hl) as [Hlock Hu].
    assert (busy th = false) as Hbf.
    { destruct (busy th) eqn:Hb; [|done]. exfalso. unfold busy in Hb. destruct (at_ th) as [p0|] eqn:Hp0; [|done].
      apply Hne. symmetry. by apply (Hu id th p0). }
    assert (busy th' = false) as Hbf'.
    { destruct (busy th') eqn:Hb; [|done]. destruct (ac_take0 eq_refl) as [_ [?|?]]; congruence. }
    split_and!; [|done|done|destruct ac_length0; [done|congruence]].
    destruct ac_release0 as [?|[?|Hr]]; [done|congruence|by rewrite Hr]. }
  constructor; cbn [sh threads returned]; try done.
  - intros Hn. destruct ac_seen0 as [[_ Hlt] _]. rewrite Hn in Hlt. simpl in Hlt. lia.
  - intros id' n Hn. rewrite Hids, map_size_insert_Some by done.
    destruct (decide (id' = id)) as [->|Hne]; [split; [by exists th|by apply ac_bound0]|].
    apply (inv_threads _ _ _ I). by rewrite <- ac_tickets0.
  - rewrite map_size_insert_Some by done. apply (inv_size _ _ _ I).
  - intros id' HS%Hids. by apply (inv_ids _ _ _ I).
  - intros h t' i id' Ht' Hk' Hz. destruct (decide (id' = id)) as [->|Hne]; [by apply ac_mine0|].
    assert (key_at (sh q) h i = Some id') as Hk.
    { apply (ex_keys _ _ _ ac_extends0); [done|done|]. apply key_at_table. by exists t'. }
    apply key_at_table in Hk as (t & Ht & Hk).
    destruct (ex_tables _ _ _ ac_extends0 _ _ Ht) as (t2 & Ht2 & Hc). assert (t2 = t') as -> by congruence.
    destruct (inv_entries _ _ _ I h t i id' Ht Hk Hz) as [(thx & d & Hthx & Hi & Hp & Hs & Hm & Hv) (n & Hn & Hl) Hu].
    constructor; cbn [threads].
    + exists thx, d. rewrite lookup_insert_ne, Hc by done. split_and!; try done.
      rewrite (ac_owner0 id' Hne), (ac_values0 h t t' i id' Ht Ht' Hk Hne). done.
    + exists n. unfold limit in *. by rewrite (ac_tickets0 id' Hne), Hc.
    + intros j Hj. apply Hu. assert (key_at (sh q) h j = Some id') as Hkj.
      { apply (ex_keys _ _ _ ac_extends0); [done|done|]. apply key_at_table. by exists t'. }
      apply key_at_table in Hkj as (t3 & Ht3 & Hk3). congruence.
  - intros id' thx Hthx. destruct (decide (id' = id)) as [->|Hne].
    + rewrite lookup_insert_eq in Hthx. injection Hthx as <-. split; [lia|]. intros h i Hi.
      destruct (ac_seen_keys0 h i Hi) as [Hold|?]; [|done].
      destruct (proj2 (inv_seen _ _ _ I id th Hth) h i Hold) as (k & Hk & Hz). exists k.
      split; [|done]. by apply (ex_taken _ _ _ ac_extends0).
    + rewrite lookup_insert_ne in Hthx by done. destruct (inv_seen _ _ _ I id' thx Hthx) as [Hlt Hkeys].
      split.
      * destruct (lookup_lt_is_Some_2 _ _ Hlt) as [t Ht].
        destruct (ex_tables _ _ _ ac_extends0 _ _ Ht) as (t' & Ht' & _). by eapply lookup_lt_Some.
      * intros h i Hi. destruct (Hkeys h i Hi) as (k & Hk & Hz). exists k. split; [|done].
        by apply (ex_taken _ _ _ ac_extends0).
  - intros id' P HP. destruct (decide (id' = id)) as [->|Hne].
    + destruct (ac_new_owner0 P HP) as [HS [Hold|?]]; [|split; [lia|done]].
      destruct (inv_owner _ _ _ I id P Hold). split; [lia|done].
    + rewrite ac_owner0 in HP by done. destruct (inv_owner _ _ _ I id' P HP). rewrite ac_tickets0 by done.
      split; [lia|done].
  - assert (Hone : ∀ id' P, id' ≠ id → ow' !! id = Some P → ow' !! id' = Some P → False).
    { intros id' P Hne HP HP'. rewrite ac_owner0 in HP' by done.
      destruct (ac_new_owner0 P HP) as [_ [Hold|?]]; [apply Hne; by eapply (inv_owners _ _ _ I)|].
      destruct (inv_owner _ _ _ I id' P HP'). lia. }
    intros id1 id2 P H1 H2. destruct (decide (id1 = id)) as [->|Hne1], (decide (id2 = id)) as [->|Hne2]; try done.
    + by destruct (Hone id2 P).
    + by destruct (Hone id1 P).
    + rewrite ac_owner0 in H1, H2 by done. by eapply (inv_owners _ _ _ I).
  - intros id' thx p Hthx Hp. destruct (decide (id' = id)) as [->|Hne].
    + rewrite lookup_insert_eq in Hthx. injection Hthx as <-. by rewrite Hp in ac_pc0.
    + rewrite lookup_insert_ne in Hthx by done. eapply (pc_ok_other tk ow); try done; [|by auto..|].
      * apply (inv_ids _ _ _ I). by exists thx.
      * by apply (inv_pc _ _ _ I).
  - intros id' thx Hthx Hp HS. destruct (decide (id' = id)) as [->|Hne].
    + rewrite lookup_insert_eq in Hthx. injection Hthx as <-. rewrite Hp in ac_pc0. by apply ac_pc0.
    + rewrite lookup_insert_ne in Hthx by done. apply (known_other id id' (sh q) s'); try done.
      * apply (inv_ids _ _ _ I). by exists thx.
      * apply (inv_idle _ _ _ I id' thx); try done. by rewrite <- ac_tickets0.
  - intros id' thx p Hthx Hp Hl. destruct (decide (id' = id)) as [->|Hne].
    + rewrite lookup_insert_eq in Hthx. injection Hthx as <-. unfold busy at 1 in ac_take0. rewrite Hp in ac_take0.
      destruct (ac_take0 Hl) as [Hlock _]. split; [done|].
      intros id2 th2 p2 Hth2 Hp2 Hl2. destruct (decide (id2 = id)) as [|Hne2]; [done|]. exfalso.
      rewrite lookup_insert_ne in Hth2 by done.
      destruct (Hb id2 th2 p2 Hne2 Hth2 Hp2 Hl2) as (_ & _ & Hbf & _). unfold busy in Hbf. rewrite Hp in Hbf. congruence.
    + rewrite lookup_insert_ne in Hthx by done. destruct (Hb id' thx p Hne Hthx Hp Hl) as (Hlock & _ & Hbf & _).
      split; [done|]. intros id2 th2 p2 Hth2 Hp2 Hl2. destruct (decide (id2 = id)) as [->|Hne2].
      * rewrite lookup_insert_eq in Hth2. injection Hth2 as <-. unfold busy in Hbf. rewrite Hp2 in Hbf. congruence.
      * rewrite lookup_insert_ne in Hth2 by done.
        destruct (inv_lock _ _ _ I id' thx p Hthx Hp Hl) as [_ Hu]. by eapply Hu.
  - intros id' thx p Hthx Hp Hl. destruct (decide (id' = id)) as [->|Hne].
    + rewrite lookup_insert_eq in Hthx. injection Hthx as <-. apply ac_newest0. unfold busy. by rewrite Hp.
    + rewrite lookup_insert_ne in Hthx by done. destruct (Hb id' thx _ Hne Hthx Hp Hl) as (_ & _ & _ & ->).
      by apply (inv_newest _ _ _ I id' thx p).
  - intros id' thx main n newHash Hthx Hp. destruct (decide (id' = id)) as [->|Hne].
    + rewrite lookup_insert_eq in Hthx. injection Hthx as <-. by eapply ac_largest0.
    + rewrite lookup_insert_ne in Hthx by done. destruct (Hb id' thx _ Hne Hthx Hp eq_refl) as (_ & _ & _ & Hlen).
      intros h t' Ht'. apply lookup_lt_Some in Ht' as Hlt. rewrite Hlen in Hlt.
      destruct (lookup_lt_is_Some_2 _ _ Hlt) as [t Ht].
      destruct (ex_tables _ _ _ ac_extends0 _ _ Ht) as (t2 & Ht2 & Hc). assert (t2 = t') as -> by congruence.
      rewrite Hc. by eapply (inv_largest _ _ _ I).
  - intros id' o Ho P HP. destruct (decide (id' = id)) as [->|Hne].
    + apply ac_kept0. by apply (inv_returned _ _ _ I id o).
    + rewrite ac_owner0 by done. by apply (inv_returned _ _ _ I id' o).
Qed.

Lemma extends_hashes id s s' : hashes s' = hashes s → extends id s s'.
Proof.
  intros Hs. constructor; unfold key_at; rewrite ?Hs; [naive_solver|done|done].
Qed.

Lemma entry_later tk ow q id th th' s' h t i :
  entry_ok tk ow q h t i id → threads q !! id = Some th → setting th = false →
  seen_keys th ⊆ seen_keys th' → (seen_hash th ≤ seen_hash th')%nat →
  entry_ok tk ow (Table s' (<[id := th']> (threads q)) (returned q)) h t i id.
Proof.
  intros [(thx & d & Hthx & Hi & Hp & Hs & Hm & Hv) Ht Hu] Hth Hset Hsub Hle.
  assert (thx = th) as -> by congruence. constructor; [|done|done]. exists th', d. cbn [threads].
  rewrite lookup_insert_eq. split_and!; [done|done| |set_solver|lia|].
  - intros d' Hd'. apply Hsub. by apply Hp.
  - right. destruct Hv as [(index & v & Ha & _)|?]; [|done]. unfold setting in Hset. by rewrite Ha in Hset.
Qed.

(** An access that leaves the tables alone. *)
Lemma still_access tk ow tk' ow' q id th s' th' :
  inv tk ow q → threads q !! id = Some th → hashes s' = hashes (sh q) →
  (tk' = tk ∧ ow' = ow ∧ setting th = false) ∨ absent (sh q) id →
  (∀ id', id' ≠ id → tk' !! id' = tk !! id') → (∀ id', id' ≠ id → ow' !! id' = ow !! id') →
  implicitProducerHashCount s' = size tk' → (∀ x, 0 <= x → Z.of_nat (size (up_to tk' x)) <= x) →
  (∀ n, tk' !! id = Some n → 0 < n <= size (threads q)) →
  (producers (sh q) ≤ producers s')%nat →
  (∀ P, ow' !! id = Some P → is_Some (tk' !! id) ∧
    (ow !! id = Some P ∨ (producers (sh q) ≤ P < producers s')%nat)) →
  (∀ P, ow !! id = Some P → ow' !! id = Some P) →
  (seen_hash th ≤ seen_hash th' < length (hashes (sh q)))%nat ∧ seen_keys th ⊆ seen_keys th' →
  (∀ h i, (h, i) ∈ seen_keys th' → (h, i) ∈ seen_keys th ∨
    ∃ k, key_at (sh q) h i = Some k ∧ k ≠ invalid_thread_id) →
  match at_ th' with
  | Some p => pc_ok tk' ow' s' id th' p
  | None => is_Some (tk' !! id) → known s' id
  end →
  (busy th' = true → implicitProducerHashResizeInProgress s' = true ∧
    (busy th = true ∨ implicitProducerHashResizeInProgress (sh q) = false)) →
  implicitProducerHashResizeInProgress s' = true ∨ busy th = true ∨
    implicitProducerHashResizeInProgress s' = implicitProducerHashResizeInProgress (sh q) →
  (lockView s' < length (hashes (sh q)))%nat ∧
    (implicitProducerHashResizeInProgress s' = false → S (lockView s') = length (hashes (sh q))) →
  (busy th' = true → S (seen_hash th') = length (hashes (sh q))) →
  (∀ main n newHash, at_ th' = Some (Publish main n newHash) →
    ∀ h t, hashes (sh q) !! h = Some t → capacity t <= capacity newHash) →
  inv tk' ow' (Table s' (<[id := th']> (threads q)) (returned q)).
Proof.
  intros I Hth Hs Hmine Htk How Hcount Hup Hbound Hmade Hnew Hkept Hseen Hkeys Hpc Htake Hrel Hview Hnewest Hlarge.
  apply (access_inv tk ow _ _ q id th); [done|done|].
  assert (Hid : id ≠ invalid_thread_id) by (apply (inv_ids _ _ _ I); by exists th).
  constructor; rewrite ?Hs; try done.
  - by apply extends_hashes.
  - intros h i Hi. unfold key_at. rewrite Hs. by apply Hkeys.
  - apply (inv_tables _ _ _ I).
  - apply (inv_growing _ _ _ I).
  - intros h t i Ht Hk. destruct Hmine as [(-> & -> & Hset)|Habs].
    + eapply entry_later; try done; [|apply Hseen|lia]. by eapply inv_entries.
    + destruct (Habs h i). apply key_at_table. by exists t.
  - congruence.
  - by left.
  - apply (inv_prev _ _ _ I).
Qed.

(** A thread that is still busy has seen the newest table. *)
Lemma newest_kept tk ow q id th p p' (th' : thread) :
  inv tk ow q → threads q !! id = Some th → at_ th = Some p → locked p' = locked p →
  (seen_hash th ≤ seen_hash th' < length (hashes (sh q)))%nat → locked p' = true → S (seen_hash th') = length (hashes (sh q)).
Proof. intros I Hth Hp Hl Hs Hl'. pose proof (inv_newest _ _ _ I id th p Hth Hp). rewrite Hl in Hl'. specialize (H Hl'). lia. Qed.

(** An access that only reads. *)
Lemma read_access tk ow q id th th' p p' :
  inv tk ow q → threads q !! id = Some th → at_ th = Some p → at_ th' = Some p' → setting th = false →
  locked p' = locked p →
  (seen_hash th ≤ seen_hash th' < length (hashes (sh q)))%nat ∧ seen_keys th ⊆ seen_keys th' →
  (∀ h i, (h, i) ∈ seen_keys th' → (h, i) ∈ seen_keys th ∨
    ∃ k, key_at (sh q) h i = Some k ∧ k ≠ invalid_thread_id) →
  pc_ok tk ow (sh q) id th' p' →
  (∀ main n newHash, p' = Publish main n newHash →
    ∀ h t, hashes (sh q) !! h = Some t → capacity t <= capacity newHash) →
  inv tk ow (Table (sh q) (<[id := th']> (threads q)) (returned q)).
Proof.
  intros I Hth Hp Hp' Hset Hl Hseen Hkeys Hpc Hlarge.
  eapply (still_access tk ow tk ow q id th (sh q) th'); try done.
  - by left.
  - apply (inv_count _ _ _ I).
  - apply (inv_tickets _ _ _ I).
  - intros n Hn. by apply (inv_threads _ _ _ I id n).
  - intros P HP. split; [by apply (inv_owner _ _ _ I id P)|by left].
  - by rewrite Hp'.
  - intros Hb. unfold busy in *. rewrite Hp' in Hb. rewrite Hp. split; [|left; congruence].
    destruct (inv_lock _ _ _ I id th p Hth Hp) as [? _]; [congruence|done].
  - by right; right.
  - apply (inv_view _ _ _ I).
  - unfold busy. rewrite Hp'. eapply newest_kept; try done. apply Hseen.
  - intros main n nh Hm. apply (Hlarge main n nh). congruence.
Qed.

(** ** Positions in a table *)

Lemma mask_mod t x : table_ok t → mask t x = x mod capacity t.
Proof.
  intros [(m & Hm & Hc) _ _]. unfold mask.
  assert (1 <= 2 ^ m <= 2 ^ 34) by (split; [pose proof (Z.pow_pos_nonneg 2 m); lia|apply Z.pow_le_mono_r; lia]).
  rewrite (wrap_small 64 (capacity t - 1)) by (unfold fits; lia). rewrite Hc. apply land_mask. lia.
Qed.

Lemma mask_next t x : table_ok t → u64 (x + 1) mod capacity t = (x + 1) mod capacity t.
Proof. intros [(m & Hm & ->) _ _]. apply wrap_mod_pow2. lia. Qed.

Lemma capacity_pos t : table_ok t → 0 < capacity t <= 2 ^ 34.
Proof.
  intros [(m & Hm & ->) _ _]. split; [apply Z.pow_pos_nonneg; lia|apply Z.pow_le_mono_r; lia].
Qed.

(** The slot that [index] names, [d] after the first. *)
Lemma index_position t id index (d : nat) :
  table_ok t → index mod capacity t = (hash_thread_id sizeof_thread_id id + d) mod capacity t →
  Z.to_nat (mask t index) = position id (capacity t) d ∧ 0 <= mask t index < capacity t ∧
  u64 (mask t index + 1) mod capacity t = (hash_thread_id sizeof_thread_id id + S d) mod capacity t.
Proof.
  intros T Hi. pose proof (capacity_pos _ T). rewrite (mask_mod _ _ T), Hi. split; [done|].
  split; [apply Z.mod_pos_bound; lia|]. rewrite (mask_next _ _ T), Zplus_mod_idemp_l. f_equal. lia.
Qed.

Lemma limit_mono t1 t2 : capacity t1 <= capacity t2 → limit t1 <= limit t2.
Proof.
  unfold limit. intros Hc. pose proof (Z.div_le_mono (capacity t1) (capacity t2) 2).
  pose proof (Z.div_le_mono (capacity t1) (capacity t2) 4). lia.
Qed.

Lemma passed_snoc id th th' h cap d :
  passed id th h cap d → seen_keys th ⊆ seen_keys th' → (h, position id cap d) ∈ seen_keys th' →
  passed id th' h cap (S d).
Proof.
  intros Hp Hsub Hd d' Hd'. destruct (decide (d' = d)) as [->|]; [done|]. apply Hsub, Hp. lia.
Qed.

(** ** The search *)

(** A thread that reads an empty slot of its chain is not in the table. *)
Lemma not_in_table tk ow q id th h t (d : nat) i k current :
  inv tk ow q → threads q !! id = Some th → hashes (sh q) !! h = Some t →
  i = position id (capacity t) d → (∀ d', (d' < d)%nat → key_at (sh q) h (position id (capacity t) d') ≠ Some id) →
  keys t !! i = Some current → see_key th h i current k = true → k = invalid_thread_id →
  ∀ j, key_at (sh q) h j ≠ Some id.
Proof.
  intros I Hth Ht Hi Hd Hcur Hsee -> j Hj.
  assert (Hid : id ≠ invalid_thread_id) by (apply (inv_ids _ _ _ I); by exists th).
  apply key_at_table in Hj as Hj'. destruct Hj' as (t' & Ht' & Hkj). assert (t' = t) as -> by congruence.
  destruct (inv_entries _ _ _ I h t j id Ht Hkj Hid) as [(thx & d0 & Hthx & Hjd & Hp & Hs & _ & _) _ Hu].
  assert (thx = th) as -> by congruence.
  assert (Hseen : (h, i) ∈ seen_keys th → current ≠ invalid_thread_id ∧ False).
  { intros Hin. destruct (proj2 (inv_seen _ _ _ I id th Hth) h i Hin) as (k & Hk & Hz).
    apply key_at_table in Hk as (t2 & Ht2 & Hk2). assert (k = current) as -> by congruence.
    unfold see_key in Hsee. rewrite bool_decide_eq_true_2 in Hsee by done.
    rewrite andb_false_r, orb_false_r in Hsee. apply Z.eqb_eq in Hsee. done. }
  destruct (lt_eq_lt_dec d0 d) as [[Hlt| ->]|Hgt].
  - apply (Hd d0 Hlt). by rewrite <- Hjd.
  - apply Hseen. by rewrite Hi, <- Hjd.
  - apply Hseen. rewrite Hi. by apply Hp.
Qed.

(** What a read of a key adds to what the thread has seen. *)
Lemma see_key_current th h i current k :
  see_key th h i current k = true → k ≠ invalid_thread_id → current = k.
Proof.
  unfold see_key. intros [H|H]%orb_true_iff Hk; [by apply Z.eqb_eq in H|].
  apply andb_true_iff in H as [H _]. by apply Z.eqb_eq in H.
Qed.

Lemma move_key_seen s th h i k t p :
  hashes s !! h = Some t → (k ≠ invalid_thread_id → keys t !! i = Some k) →
  seen_keys th ⊆ seen_keys (move_key th h i k p) ∧
  (k ≠ invalid_thread_id → (h, i) ∈ seen_keys (move_key th h i k p)) ∧
  ∀ h' i', (h', i') ∈ seen_keys (move_key th h i k p) → (h', i') ∈ seen_keys th ∨
    ∃ k', key_at s h' i' = Some k' ∧ k' ≠ invalid_thread_id.
Proof.
  intros Ht Hk. unfold move_key; cbn [seen_keys]. destruct (Z.eqb_spec k invalid_thread_id) as [->|Hne].
  - split_and!; [done|done|by left].
  - split_and!; [set_solver|set_solver|]. intros h' i' [Hi%elem_of_singleton|]%elem_of_union; [|by left].
    injection Hi as -> ->. right. exists k. split; [|done]. apply key_at_table. exists t. auto.
Qed.

(** A read of a key keeps the invariant when the thread may be where it goes. *)
Lemma key_access tk ow q id th h i k t p p' :
  inv tk ow q → threads q !! id = Some th → at_ th = Some p → setting th = false →
  hashes (sh q) !! h = Some t → (k ≠ invalid_thread_id → keys t !! i = Some k) →
  locked p' = false → locked p = false → (∀ main n newHash, p' ≠ Publish main n newHash) →
  pc_ok tk ow (sh q) id (move_key th h i k p') p' →
  inv tk ow (Table (sh q) (<[id := move_key th h i k p']> (threads q)) (returned q)).
Proof.
  intros I Hth Hp Hset Ht Hk Hl Hl0 Hpub Hpc.
  destruct (move_key_seen (sh q) th h i k t p' Ht Hk) as (Hsub & _ & Hnew).
  apply (read_access tk ow q id th _ p p'); try done.
  - congruence.
  - split; [|done]. cbn [move_key seen_hash]. split; [lia|]. by apply (inv_seen _ _ _ I id th).
  - intros main n nh ->. by destruct (Hpub main n nh).
Qed.

Lemma inv_hash_at tk ow q id th h :
  inv tk ow q → threads q !! id = Some th → (h ≤ seen_hash th)%nat →
  ∃ t, hashes (sh q) !! h = Some t ∧ table_ok t.
Proof.
  intros I Hth Hh. destruct (inv_seen _ _ _ I id th Hth) as [Hlt _].
  destruct (lookup_lt_is_Some_2 (hashes (sh q)) h) as [t Ht]; [lia|]. exists t.
  split; [done|]. by eapply inv_tables.
Qed.

(** The start of a search. *)
Lemma passed_0 id th h cap : passed id th h cap 0.
Proof. intros d' Hd. lia. Qed.

Lemma start_mod id cap : hash_thread_id sizeof_thread_id id mod cap = (hash_thread_id sizeof_thread_id id + 0%nat) mod cap.
Proof. f_equal. lia. Qed.

Lemma probe_ok tk ow q id th main h index a s' th' :
  inv tk ow q → threads q !! id = Some th → at_ th = Some (Probe main h index) →
  advance id (sh q) th (Probe main h index) a = Some (s', th') →
  inv tk ow (Table s' (<[id := th']> (threads q)) (returned q)).
Proof.
  intros I Hth Hp Ha. pose proof (inv_pc _ _ _ I id th _ Hth Hp) as (Hh & Habove & Hticket & t & d & Ht & Hi & Hpa & Hd).
  assert (Hid : id ≠ invalid_thread_id) by (apply (inv_ids _ _ _ I); by exists th).
  destruct a as [| |k| |]; try discriminate Ha. cbn [advance] in Ha. rewrite Ht in Ha; cbn [mbind option_bind] in Ha.
  pose proof (inv_tables _ _ _ I _ _ Ht) as T. destruct (index_position t id index d T Hi) as (Hpos & Hrange & Hnext).
  rewrite Hpos in Ha. set (i := position id (capacity t) d) in *.
  destruct (keys t !! i) as [current|] eqn:Hcur; [|discriminate Ha]. cbn [mbind option_bind] in Ha.
  destruct (see_key th h i current k) eqn:Hsee; [|discriminate Ha]. cbn [negb] in Ha. injection Ha as <- <-.
  assert (Hk : k ≠ invalid_thread_id → keys t !! i = Some k).
  { intros Hne. by rewrite Hcur, (see_key_current _ _ _ _ _ Hsee Hne). }
  assert (Hset : setting th = false) by (unfold setting; by rewrite Hp).
  destruct (Z.eqb_spec k id) as [->|Hkid].
  - (* found *)
    pose proof (Hk Hid) as Hki.
    destruct (inv_entries _ _ _ I h t i id Ht Hki Hid) as [(thx & d0 & Hthx & _ & _ & _ & _ & Hv) (n & Hn & Hl) _].
    assert (thx = th) as -> by congruence.
    destruct Hv as [(x & v & Hx & _)|(P & HP & Ho)]; [congruence|]. rewrite HP. cbn [default].
    assert (Hkn : known (sh q) id) by (exists h, i; apply key_at_table; by exists t).
    case_decide as Hm; eapply key_access; try done.
    destruct (inv_hash_at _ _ _ _ _ main I Hth) as (t2 & Ht2 & T2); [lia|].
    exists t2, 0%nat, n, P. cbn [move_key seen_hash]. split_and!; try done; [lia|apply start_mod|apply passed_0| |].
    + intros j. apply Habove. lia.
    + pose proof (limit_mono t t2 (inv_growing _ _ _ I h main t t2 ltac:(lia) Ht Ht2)). unfold limit in *. simpl in *. lia.
  - destruct (Z.eqb_spec k invalid_thread_id) as [->|Hkz].
    + (* not in this table *)
      pose proof (not_in_table _ _ _ _ _ _ _ _ _ _ _ I Hth Ht eq_refl Hd Hcur Hsee eq_refl) as Hno.
      rewrite (inv_prev _ _ _ I h t Ht).
      destruct h as [|h]; cbn [next_hash before]; eapply key_access; try done; cbn [pc_ok move_key seen_hash].
      * split; [lia|]. apply eq_None_not_Some. intros HS. destruct (Hticket HS) as (h' & j & Hle & Hj).
        apply (Hno j). by replace 0%nat with h' by lia.
      * split; [lia|]. split; [|split].
        -- intros h' j Hr. destruct (decide (h' = S h)) as [->|]; [by apply Hno|]. apply Habove. lia.
        -- intros HS. destruct (Hticket HS) as (h' & j & Hle & Hj). exists h', j. split; [|done].
           destruct (decide (h' = S h)) as [->|]; [by destruct (Hno j)|lia].
        -- destruct (inv_hash_at _ _ _ _ _ h I Hth) as (t2 & Ht2 & T2); [lia|]. exists t2, 0%nat.
           split_and!; [done|apply start_mod|apply passed_0|lia].
    + (* taken by another *)
      destruct (move_key_seen (sh q) th h i k t (Probe main h (u64 (mask t index + 1))) Ht Hk) as (Hsub & Hin & _).
      eapply key_access; try done. cbn [pc_ok]. split; [done|]. split; [done|]. split; [done|]. exists t, (S d).
      split_and!; [done|done|by eapply passed_snoc; try done; apply Hin|]. intros d' Hd'.
      destruct (decide (d' = d)) as [->|]; [|apply Hd; lia]. fold i.
      intros (t2 & Ht2 & Hk2)%key_at_table. assert (t2 = t) as -> by congruence. rewrite (Hk Hkz) in Hk2. congruence.
Qed.

Lemma add_probe_ok tk ow q id th main index v a s' th' :
  inv tk ow q → threads q !! id = Some th → at_ th = Some (AddProbe main index v) →
  advance id (sh q) th (AddProbe main index v) a = Some (s', th') →
  inv tk ow (Table s' (<[id := th']> (threads q)) (returned q)).
Proof.
  intros I Hth Hp Ha. pose proof (inv_pc _ _ _ I id th _ Hth Hp) as (t & d & n & P & Ht & Hm & Hi & Hpa & Hno & Hn & Hl & -> & HP).
  destruct a as [| |k| |]; try discriminate Ha. cbn [advance] in Ha. rewrite Ht in Ha; cbn [mbind option_bind] in Ha.
  pose proof (inv_tables _ _ _ I _ _ Ht) as T. destruct (index_position t id index d T Hi) as (Hpos & Hrange & Hnext).
  rewrite Hpos in Ha. set (i := position id (capacity t) d) in *.
  destruct (keys t !! i) as [current|] eqn:Hcur; [|discriminate Ha]. cbn [mbind option_bind] in Ha.
  destruct (see_key th main i current k) eqn:Hsee; [|discriminate Ha]. cbn [negb] in Ha. injection Ha as <- <-.
  assert (Hk : k ≠ invalid_thread_id → keys t !! i = Some k).
  { intros Hne. by rewrite Hcur, (see_key_current _ _ _ _ _ Hsee Hne). }
  assert (Hset : setting th = false) by (unfold setting; by rewrite Hp).
  destruct (Z.eqb_spec k invalid_thread_id) as [->|Hkz]; eapply key_access; try done.
  - split.
    + exists t, d, n, P. cbn [move_key seen_hash]. split_and!; try done.
      by rewrite (mask_mod t index T), Z.mod_mod by (pose proof (capacity_pos t T); lia).
    + intros t2 Ht2. by assert (t2 = t) as -> by congruence.
  - destruct (move_key_seen (sh q) th main i k t (AddProbe main (u64 (mask t index + 1)) (Some P)) Ht Hk) as (Hsub & Hin & _).
    exists t, (S d), n, P. split_and!; try done. by eapply passed_snoc; try done; apply Hin.
Qed.

(** ** Entering a thread *)

(** Each table of [hs] has the shape of the one it replaces. *)
Definition same_shape (s : shared) (hs : list hash) : Prop :=
  length hs = length (hashes s) ∧ ∀ h t', hs !! h = Some t' →
    ∃ t, hashes s !! h = Some t ∧ capacity t' = capacity t ∧
      length (keys t') = length (keys t) ∧ length (values t') = length (values t) ∧ prev t' = prev t.

Lemma same_shape_alter s f h :
  (∀ t, capacity (f t) = capacity t ∧ length (keys (f t)) = length (keys t) ∧
    length (values (f t)) = length (values t) ∧ prev (f t) = prev t) → same_shape s (alter f h (hashes s)).
Proof.
  intros Hf. split; [by rewrite length_alter|]. intros h' t' Ht'.
  destruct (decide (h' = h)) as [->|Hne].
  - rewrite list_lookup_alter_eq in Ht'. apply fmap_Some in Ht' as (t & Ht & ->). exists t. split; [done|]. apply Hf.
  - rewrite list_lookup_alter_ne in Ht' by done. by exists t'.
Qed.

Lemma table_access tk ow q id th th' hs p p' :
  inv tk ow q → threads q !! id = Some th → at_ th = Some p → at_ th' = Some p' →
  locked p = false → locked p' = false → (∀ main n newHash, p' ≠ Publish main n newHash) →
  same_shape (sh q) hs → extends id (sh q) (with_hashes (sh q) hs) →
  seen_hash th' = seen_hash th ∧ seen_keys th ⊆ seen_keys th' →
  (∀ h i, (h, i) ∈ seen_keys th' → (h, i) ∈ seen_keys th ∨
    ∃ k, key_at (with_hashes (sh q) hs) h i = Some k ∧ k ≠ invalid_thread_id) →
  (∀ h t i, hs !! h = Some t → keys t !! i = Some id →
    entry_ok tk ow (Table (with_hashes (sh q) hs) (<[id := th']> (threads q)) (returned q)) h t i id) →
  (∀ h t t' i k, hashes (sh q) !! h = Some t → hs !! h = Some t' → keys t !! i = Some k → k ≠ id →
    values t' !! i = values t !! i) →
  pc_ok tk ow (with_hashes (sh q) hs) id th' p' →
  inv tk ow (Table (with_hashes (sh q) hs) (<[id := th']> (threads q)) (returned q)).
Proof.
  intros I Hth Hp Hp' Hl Hl' Hpub [Hlen Hshape] Hext [Hs Hsub] Hkeys Hmine Hvals Hpc.
  apply (access_inv tk ow _ _ q id th); [done|done|].
  assert (Hbusy : busy th' = false) by (unfold busy; by rewrite Hp').
  constructor; cbn [with_hashes hashes implicitProducerHashCount producers implicitProducerHashResizeInProgress lockView]; try done.
  - split; [|done]. rewrite Hs, Hlen. split; [lia|]. by apply (inv_seen _ _ _ I id th).
  - intros h t' Ht'. destruct (Hshape h t' Ht') as (t & Ht & Hc & Hk & Hv & _).
    destruct (inv_tables _ _ _ I h t Ht). constructor; by rewrite ?Hc, ?Hk, ?Hv.
  - intros h1 h2 t1 t2 Hle H1 H2. destruct (Hshape h1 t1 H1) as (t1' & Ht1 & -> & _).
    destruct (Hshape h2 t2 H2) as (t2' & Ht2 & -> & _). by eapply (inv_growing _ _ _ I).
  - apply (inv_count _ _ _ I).
  - apply (inv_tickets _ _ _ I).
  - intros n Hn. by apply (inv_threads _ _ _ I id n).
  - intros P HP. split; [by apply (inv_owner _ _ _ I id P)|by left].
  - by rewrite Hp'.
  - by left.
  - congruence.
  - by right; right.
  - intros h t' Ht'. destruct (Hshape h t' Ht') as (t & Ht & _ & _ & _ & ->). by apply (inv_prev _ _ _ I).
  - rewrite Hlen. apply (inv_view _ _ _ I).
  - congruence.
  - intros main n nh Hm. rewrite Hp' in Hm. injection Hm as ->. by destruct (Hpub main n nh).
Qed.

Lemma key_at_set_key s h i k0 id h' i' :
  key_at s h i = Some k0 →
  key_at (set_key s h i id) h' i' = if decide (h' = h ∧ i' = i) then Some id else key_at s h' i'.
Proof.
  intros (t & Ht & Hk)%key_at_table. unfold key_at, set_key; cbn [with_hashes hashes].
  destruct (decide (h' = h)) as [->|Hne].
  - rewrite list_lookup_alter_eq, Ht. cbn. destruct (decide (i' = i)) as [->|Hi].
    + rewrite decide_True by done. apply list_lookup_insert_eq. by eapply lookup_lt_Some.
    + rewrite decide_False by naive_solver. by rewrite list_lookup_insert_ne.
  - rewrite list_lookup_alter_ne by done. by rewrite decide_False by naive_solver.
Qed.

Lemma key_at_set_value s h i v h' i' : key_at (set_value s h i v) h' i' = key_at s h' i'.
Proof.
  unfold key_at, set_value; cbn [with_hashes hashes]. destruct (decide (h' = h)) as [->|Hne].
  - rewrite list_lookup_alter_eq. by destruct (hashes s !! h).
  - by rewrite list_lookup_alter_ne.
Qed.

Lemma extends_alter id s f h :
  (∀ t, capacity (f t) = capacity t) →
  (∀ id' h' i, id' ≠ id → id' ≠ invalid_thread_id →
    key_at (with_hashes s (alter f h (hashes s))) h' i = Some id' ↔ key_at s h' i = Some id') →
  (∀ h' i k, key_at s h' i = Some k → k ≠ invalid_thread_id →
    key_at (with_hashes s (alter f h (hashes s))) h' i = Some k) →
  extends id s (with_hashes s (alter f h (hashes s))).
Proof.
  intros Hf H1 H2. constructor; [|done|done]. intros h' t Ht. cbn [with_hashes hashes].
  destruct (decide (h' = h)) as [->|Hne].
  - exists (f t). by rewrite list_lookup_alter_eq, Ht.
  - exists t. by rewrite list_lookup_alter_ne.
Qed.

Lemma add_cas_ok tk ow q id th main index v a s' th' :
  inv tk ow q → threads q !! id = Some th → at_ th = Some (AddCas main index v) →
  advance id (sh q) th (AddCas main index v) a = Some (s', th') →
  inv tk ow (Table s' (<[id := th']> (threads q)) (returned q)).
Proof.
  intros I Hth Hp Ha.
  pose proof (inv_pc _ _ _ I id th _ Hth Hp) as ((t & d & n & P & Ht & Hm & Hi & Hpa & Hno & Hn & Hl & -> & HP) & Hr).
  specialize (Hr t Ht). destruct a; try discriminate Ha. cbn [advance] in Ha. rewrite Ht in Ha; cbn [mbind option_bind] in Ha.
  pose proof (inv_tables _ _ _ I _ _ Ht) as T. destruct (index_position t id index d T Hi) as (Hpos & Hrange & Hnext).
  rewrite (mask_mod t index T), (Z.mod_small index) in Hpos, Hnext by done. rewrite Hpos in Ha. set (i := position id (capacity t) d) in *.
  destruct (keys t !! i) as [current|] eqn:Hcur; [|discriminate Ha]. cbn [mbind option_bind] in Ha. injection Ha as Ha.
  assert (Hid : id ≠ invalid_thread_id) by (apply (inv_ids _ _ _ I); by exists th).
  assert (Hset : setting th = false) by (unfold setting; by rewrite Hp).
  destruct (Z.eqb_spec current invalid_thread_id) as [->|Hcz]; injection Ha as <- <-.
  2:{ destruct (move_key_seen (sh q) th main i current t (AddProbe main (u64 (index + 1)) (Some P)) Ht (λ _, Hcur)) as (Hsub & Hin & _).
      eapply key_access; try done. exists t, (S d), n, P. split_and!; try done. by eapply passed_snoc; try done; apply Hin. }
  assert (Hkat : key_at (sh q) main i = Some invalid_thread_id) by (apply key_at_table; by exists t).
  pose proof (λ h' i', key_at_set_key (sh q) main i _ id h' i' Hkat) as Hka. cbv beta in Hka.
  assert (Hin : (main, i) ∈ seen_keys (move_key th main i id (SetValue main index (Some P)))).
  { cbn. rewrite (proj2 (Z.eqb_neq _ _) Hid). set_solver. }
  assert (Hsub : seen_keys th ⊆ seen_keys (move_key th main i id (SetValue main index (Some P)))).
  { cbn. case_match; set_solver. }
  eapply table_access; try done.
  - apply same_shape_alter. intros t'. cbn. by rewrite length_insert.
  - apply extends_alter; [done|..]; intros k h' i'; fold (set_key (sh q) main i id).
    + intros H1 H2. rewrite Hka. case_decide as He; [|done]. destruct He as [-> ->]. rewrite Hkat. naive_solver.
    + intros H1 H2. rewrite Hka. case_decide as He; [|done]. destruct He as [-> ->]. congruence.
  - fold (set_key (sh q) main i id). intros h' i' Hj. cbn [move_key seen_keys] in Hj.
    rewrite (proj2 (Z.eqb_neq _ _) Hid) in Hj. apply elem_of_union in Hj as [Hj%elem_of_singleton|]; [|by left].
    injection Hj as -> ->. right. exists id. rewrite Hka. by rewrite decide_True.
  - fold (set_key (sh q) main i id). intros h' t' i' Ht' Hk'. destruct (decide (h' = main)) as [->|Hne].
    + assert (Hi' : key_at (set_key (sh q) main i id) main i' = Some id) by (apply key_at_table; by exists t').
      rewrite Hka in Hi'. case_decide as He; [|by destruct (Hno i')]. destruct He as [_ ->].
      cbn [set_key with_hashes hashes] in Ht'. rewrite list_lookup_alter_eq, Ht in Ht'. injection Ht' as <-.
      constructor; cbn [threads capacity keys].
      * eexists _, d. rewrite lookup_insert_eq. split_and!; try done; [|left; by exists index, (Some P)].
        intros d' Hd'. apply Hsub. by apply Hpa.
      * by exists n.
      * intros j Hj. destruct (decide (j = i)) as [|Hji]; [done|]. destruct (Hno j). apply key_at_table. exists t.
        by rewrite list_lookup_insert_ne in Hj.
    + rewrite list_lookup_alter_ne in Ht' by done. eapply entry_later; try done. by eapply inv_entries.
  - intros h' t1 t2 i' k H1 H2 Hk Hne. destruct (decide (h' = main)) as [->|Hh].
    + rewrite list_lookup_alter_eq, H1 in H2. by injection H2 as <-.
    + rewrite list_lookup_alter_ne in H2 by done. congruence.
  - fold (set_key (sh q) main i id). cbn [pc_ok]. rewrite Hpos, Hka, decide_True by done. split_and!; [lia|done|by exists P].
Qed.

Lemma set_value_ok tk ow q id th main index v a s' th' :
  inv tk ow q → threads q !! id = Some th → at_ th = Some (SetValue main index v) →
  advance id (sh q) th (SetValue main index v) a = Some (s', th') →
  inv tk ow (Table s' (<[id := th']> (threads q)) (returned q)).
Proof.
  intros I Hth Hp Ha. pose proof (inv_pc _ _ _ I id th _ Hth Hp) as (Hi & Hk & P & -> & HP).
  destruct a; try discriminate Ha. cbn [advance] in Ha. injection Ha as <- <-.
  assert (Hid : id ≠ invalid_thread_id) by (apply (inv_ids _ _ _ I); by exists th).
  set (i := Z.to_nat index) in *. pose proof (key_at_set_value (sh q) main i (Some P)) as Hka.
  pose proof Hk as Hkt. apply key_at_table in Hkt as (t & Ht & Hkt).
  assert (Hother : ∀ h t1 t2, hashes (sh q) !! h = Some t1 → hashes (set_value (sh q) main i (Some P)) !! h = Some t2 →
    capacity t2 = capacity t1 ∧ keys t2 = keys t1 ∧
    ∀ j, (h ≠ main ∨ j ≠ i → values t2 !! j = values t1 !! j) ∧
      (h = main → j = i → (j < length (values t1))%nat → values t2 !! j = Some (Some P))).
  { intros h t1 t2 H1 H2. cbn [set_value with_hashes hashes] in H2. destruct (decide (h = main)) as [->|Hh].
    - rewrite list_lookup_alter_eq, H1 in H2. injection H2 as <-. cbn. split_and!; try done. intros j. split.
      + intros Hne. apply list_lookup_insert_ne. naive_solver.
      + intros _ -> Hlt. by apply list_lookup_insert_eq.
    - rewrite list_lookup_alter_ne in H2 by done. assert (t2 = t1) as -> by congruence. naive_solver. }
  eapply table_access; try done.
  - apply same_shape_alter. intros t'. cbn. by rewrite length_insert.
  - apply extends_alter; [done|..]; intros k h' i'; fold (set_value (sh q) main i (Some P)); by rewrite Hka.
  - by left.
  - fold (set_value (sh q) main i (Some P)). intros h' t' i' Ht' Hk'.
    assert (key_at (sh q) h' i' = Some id) as Hold by (rewrite <- Hka; apply key_at_table; by exists t').
    apply key_at_table in Hold as (t0 & Ht0 & Hk0).
    destruct (inv_entries _ _ _ I h' t0 i' id Ht0 Hk0 Hid) as [(thx & d & Hthx & Hpos & Hp0 & Hs & Hm & Hv) (n & Hn & Hl) Hu].
    assert (thx = th) as -> by congruence.
    destruct (Hother h' t0 t' Ht0 Ht') as (Hc & Hke & Hval). destruct (Hval i') as [Hv1 Hv2].
    constructor; cbn [threads].
    + eexists _, d. rewrite lookup_insert_eq, Hc. split_and!; try done. right.
      destruct (decide (h' = main ∧ i' = i)) as [[-> ->]|Hne].
      * exists P. split; [|done]. apply Hv2; [done|done|]. destruct (inv_tables _ _ _ I _ _ Ht0) as [_ Hkl Hvl].
        apply lookup_lt_Some in Hk0. lia.
      * rewrite Hv1 by (destruct (decide (h' = main)); naive_solver).
        destruct Hv as [(x & v & Hx & Hi')|]; [|done]. assert (x = index ∧ h' = main) as [-> ->] by naive_solver. naive_solver.
    + exists n. unfold limit in *. by rewrite Hc.
    + intros j. rewrite Hke. apply Hu.
  - fold (set_value (sh q) main i (Some P)). intros h' t1 t2 i' k H1 H2 Hk' Hne.
    destruct (Hother h' t1 t2 H1 H2) as (_ & _ & Hval). apply Hval. destruct (decide (h' = main)) as [->|]; [|by left].
    right. intros ->. apply Hne. congruence.
  - fold (set_value (sh q) main i (Some P)). cbn [pc_ok]. split; [done|]. exists main, i. by rewrite Hka.
Qed.

(** ** Counting and resizing *)

Lemma up_to_insert tk id n x :
  tk !! id = None → n = size tk + 1 → Z.of_nat (size (up_to tk x)) <= x → 0 <= x →
  Z.of_nat (size (up_to (<[id := n]> tk) x)) <= x.
Proof.
  intros Hid Hn Hx H0. unfold up_to in *. destruct (decide (n <= x)) as [Hle|Hlt].
  - rewrite map_filter_insert_True by done. pose proof (map_subseteq_size _ _ (map_filter_subseteq (λ p : Z * Z, p.2 <= x) tk)).
    rewrite map_size_insert_None; [lia|]. apply map_lookup_filter_None. by left.
  - rewrite map_filter_insert_False by (simpl; lia). by rewrite delete_id.
Qed.

Lemma up_to_delete tk id x : (size (up_to (delete id tk) x) ≤ size (up_to tk x))%nat.
Proof. unfold up_to. rewrite map_filter_delete. apply map_subseteq_size, delete_subseteq. Qed.

(** There is a ticket for each thread. *)
Lemma ticket_room tk ow q id :
  inv tk ow q → is_Some (threads q !! id) → tk !! id = None → size tk + 1 <= size (threads q).
Proof.
  intros I Hth Htk. assert (Hsub : {[id]} ∪ dom tk ⊆ dom (threads q)).
  { intros id' [->%elem_of_singleton|[n Hn]%elem_of_dom]%elem_of_union; [by apply elem_of_dom|].
    apply elem_of_dom. by apply (inv_threads _ _ _ I id' n). }
  apply subseteq_size in Hsub. rewrite size_union in Hsub by (apply disjoint_singleton_l; by apply not_elem_of_dom).
  rewrite size_singleton, !size_dom in Hsub. lia.
Qed.

Lemma no_ticket_absent tk ow q id :
  inv tk ow q → id ≠ invalid_thread_id → tk !! id = None → absent (sh q) id ∧ ow !! id = None.
Proof.
  intros I Hid Htk. split.
  - intros h i (t & Ht & Hk)%key_at_table. destruct (inv_entries _ _ _ I h t i id Ht Hk Hid) as [_ (n & Hn & _) _]. congruence.
  - apply eq_None_not_Some. intros [P HP]. destruct (inv_owner _ _ _ I id P HP) as [_ [n Hn]]. congruence.
Qed.

Lemma limit_u64 t : table_ok t → u64 (Z.shiftr (capacity t) 1 + Z.shiftr (capacity t) 2) = limit t.
Proof.
  intros T. pose proof (capacity_pos t T). rewrite !Z.shiftr_div_pow2 by done. apply (wrap_small 64 (limit t)).
  unfold limit, fits. pose proof (Z.div_pos (capacity t) 2). pose proof (Z.div_pos (capacity t) 4).
  pose proof (Z.mul_div_le (capacity t) 2). pose proof (Z.mul_div_le (capacity t) 4). lia.
Qed.

(** Where a thread that has its ticket may go. *)
Lemma insert_or_wait_ok tk ow s id th t main n :
  entering tk ow s id n → hashes s !! main = Some t → table_ok t → (main ≤ seen_hash th)%nat →
  pc_ok tk ow s id th (insert_or_wait t main n) ∧ locked (insert_or_wait t main n) = false.
Proof.
  intros He Ht T Hm. unfold insert_or_wait. destruct (has_room t n) eqn:Hr; [|done]. split; [|done].
  split; [done|]. split; [done|]. exists t. split; [done|]. unfold has_room in Hr. rewrite (limit_u64 t T) in Hr. lia.
Qed.

Lemma grow_or_insert_ok tk ow s id th t main n :
  entering tk ow s id n → hashes s !! main = Some t → table_ok t → (main ≤ seen_hash th)%nat →
  pc_ok tk ow s id th (grow_or_insert t main n) ∧ locked (grow_or_insert t main n) = false.
Proof.
  intros He Ht T Hm. unfold grow_or_insert. destruct (half_full t n); [done|]. by eapply insert_or_wait_ok.
Qed.

Lemma half_full_div t n : half_full t n = true ↔ capacity t / 2 <= n.
Proof. unfold half_full. rewrite Z.shiftr_div_pow2 by done. apply Z.leb_le. Qed.

(** Growing ends, at a power of two. *)
Lemma grow_capacity_ok fuel m n :
  0 <= m <= 34 → 0 <= n <= 2 ^ 32 → 34 - m < Z.of_nat fuel →
  ∃ m', m <= m' <= 34 ∧ grow_capacity fuel n (2 ^ m) = Some (2 ^ m').
Proof.
  revert m. induction fuel as [|fuel IH]; intros m Hm Hn Hf; [lia|]. cbn [grow_capacity].
  destruct (Z.leb_spec (Z.shiftr (2 ^ m) 1) n) as [Hle|]; [|exists m; split; [lia|done]].
  rewrite Z.shiftr_div_pow2 in Hle by done. change (2 ^ 1) with 2 in Hle.
  assert (m < 34).
  { destruct (decide (m = 34)) as [->|]; [|lia]. change (2 ^ 34 / 2) with (2 ^ 33) in Hle. lia. }
  rewrite Z.shiftl_mul_pow2 by done. replace (2 ^ m * 2 ^ 1) with (2 ^ (m + 1)) by (rewrite Z.pow_add_r; lia).
  rewrite (wrap_small 64 (2 ^ (m + 1))).
  - destruct (IH (m + 1)) as (m' & Hm' & Heq); [lia..|]. exists m'. split; [lia|done].
  - split; [lia|]. apply Z.pow_lt_mono_r; lia.
Qed.

Lemma busy_move th p : busy (move th p) = locked p.
Proof. done. Qed.

(** A thread takes its ticket. *)
Lemma count_up_ok tk ow q id th main a s' th' :
  inv tk ow q → threads q !! id = Some th → at_ th = Some (CountUp main) →
  advance id (sh q) th (CountUp main) a = Some (s', th') →
  ∃ n, inv (<[id := n]> tk) ow (Table s' (<[id := th']> (threads q)) (returned q)).
Proof.
  intros I Hth Hp Ha. pose proof (inv_pc _ _ _ I id th _ Hth Hp) as (Hm & Htk).
  destruct a; try discriminate Ha. cbn [advance] in Ha.
  destruct (inv_hash_at _ _ _ _ _ main I Hth Hm) as (t & Ht & T). rewrite Ht in Ha; cbn [mbind option_bind] in Ha.
  injection Ha as <- <-. assert (Hid : id ≠ invalid_thread_id) by (apply (inv_ids _ _ _ I); by exists th).
  destruct (no_ticket_absent _ _ _ _ I Hid Htk) as [Habs How].
  pose proof (ticket_room _ _ _ _ I (mk_is_Some _ _ Hth) Htk) as Hroom. pose proof (inv_size _ _ _ I).
  rewrite (inv_count _ _ _ I), (wrap_small 64 (1 + size tk)) by (unfold fits; lia).
  replace (1 + size tk) with (size tk + 1) by lia. set (n := size tk + 1) in *. exists n.
  assert (He : entering (<[id := n]> tk) ow (sh q) id n) by (split_and!; [by rewrite lookup_insert_eq|done|done]).
  destruct (grow_or_insert_ok _ _ (sh q) id th t main n He Ht T Hm) as [Hpc Hl].
  eapply still_access; try done; cbn [move at_ seen_hash seen_keys with_count implicitProducerHashCount].
  - by right.
  - intros id' Hne. by rewrite lookup_insert_ne.
  - rewrite map_size_insert_None by done. lia.
  - intros x Hx. apply up_to_insert; [done|done| |done]. by apply (inv_tickets _ _ _ I).
  - intros n'. rewrite lookup_insert_eq. intros [= <-]. lia.
  - intros P HP. congruence.
  - split; [|done]. split; [lia|]. by apply (inv_seen _ _ _ I id th).
  - by left.
  - rewrite busy_move, Hl. done.
  - by right; right.
  - apply (inv_view _ _ _ I).
  - rewrite busy_move, Hl. done.
  - intros m0 n0 nh [= Hx]. rewrite Hx in Hl. done.
Qed.

(** A thread that got no memory gives its ticket back. *)
Lemma give_back_ticket tk ow q id th p p' n :
  inv tk ow q → threads q !! id = Some th → at_ th = Some p → entering tk ow (sh q) id n →
  locked p' = locked p → pc_ok (delete id tk) ow (sh q) id th p' →
  (∀ main n newHash, p' ≠ Publish main n newHash) →
  inv (delete id tk) ow
    (Table (with_count (sh q) (u64 (implicitProducerHashCount (sh q) - 1))) (<[id := move th p']> (threads q)) (returned q)).
Proof.
  intros I Hth Hp (Htk & How & Habs) Hl Hpc Hnp.
  assert (Hid : id ≠ invalid_thread_id) by (apply (inv_ids _ _ _ I); by exists th).
  pose proof (inv_threads _ _ _ I id n Htk) as [_ Hn].
  assert (Hsize : Z.of_nat (size (delete id tk)) = size tk - 1 ∧ 0 < size tk).
  { assert (size (<[id := n]> (delete id tk)) = S (size (delete id tk))) as Hs
      by (apply map_size_insert_None, lookup_delete_eq).
    rewrite insert_delete_id in Hs by done. lia. }
  assert (Hle : size tk <= size (threads q)).
  { assert (dom tk ⊆ dom (threads q)) as Hsub.
    { intros id' [m Hm]%elem_of_dom. apply elem_of_dom. by apply (inv_threads _ _ _ I id' m). }
    apply subseteq_size in Hsub. rewrite !size_dom in Hsub. lia. }
  pose proof (inv_size _ _ _ I).
  rewrite (inv_count _ _ _ I), (wrap_small 64 (size tk - 1)) by (unfold fits; lia).
  eapply still_access; try done; cbn [move at_ seen_hash seen_keys with_count implicitProducerHashCount].
  - by right.
  - intros id' Hne. by rewrite lookup_delete_ne.
  - lia.
  - intros x Hx. pose proof (up_to_delete tk id x). pose proof (inv_tickets _ _ _ I x Hx). lia.
  - intros n'. by rewrite lookup_delete_eq.
  - intros P HP. congruence.
  - split; [|done]. split; [lia|]. by apply (inv_seen _ _ _ I id th).
  - by left.
  - rewrite busy_move, Hl. unfold busy. rewrite Hp. intros Hb. split; [|by left].
    by apply (inv_lock _ _ _ I id th p Hth Hp).
  - by right; right.
  - apply (inv_view _ _ _ I).
  - rewrite busy_move. eapply newest_kept; try done. split; [done|]. by apply (inv_seen _ _ _ I id th).
  - intros m0 n0 nh [= ->]. by destruct (Hnp m0 n0 nh).
Qed.

(** An access to the lock, by a thread that may see more of the tables by it. *)
Lemma lock_access tk ow q id th b view seen p p' :
  inv tk ow q → threads q !! id = Some th → at_ th = Some p → setting th = false →
  pc_ok tk ow (sh q) id (move_hash th seen p') p' →
  (locked p' = true → b = true ∧ implicitProducerHashResizeInProgress (sh q) = false ∧ S seen = length (hashes (sh q))) →
  (b = true ∨ locked p = true) →
  (seen_hash th ≤ seen < length (hashes (sh q)))%nat → (view < length (hashes (sh q)))%nat →
  (b = false → S view = length (hashes (sh q))) →
  (∀ main n newHash, p' ≠ Publish main n newHash) →
  inv tk ow (Table (with_lock (sh q) b view) (<[id := move_hash th seen p']> (threads q)) (returned q)).
Proof.
  intros I Hth Hp Hset Hpc Hb Hrel Hseen Hview Hnewest Hnp.
  eapply still_access; try done;
    cbn [move_hash at_ seen_hash seen_keys with_lock implicitProducerHashResizeInProgress lockView].
  - by left.
  - apply (inv_count _ _ _ I).
  - apply (inv_tickets _ _ _ I).
  - intros n Hn. by apply (inv_threads _ _ _ I id n).
  - intros P HP. split; [by apply (inv_owner _ _ _ I id P)|by left].
  - by left.
  - unfold busy at 1. cbn. intros Hl. destruct (Hb Hl) as (? & ? & _). split; [done|by right].
  - unfold busy. rewrite Hp. naive_solver.
  - unfold busy. cbn. intros Hl. by apply Hb.
  - intros m0 n0 nh [= ->]. by destruct (Hnp m0 n0 nh).
Qed.

Lemma move_seen th p : move th p = move_hash th (seen_hash th) p.
Proof. done. Qed.

(** A new table. *)
Lemma key_at_push s cap o h i k :
  k ≠ invalid_thread_id →
  key_at (with_hashes s (hashes s ++ [new_hash cap o])) h i = Some k ↔ key_at s h i = Some k.
Proof.
  intros Hk. unfold key_at; cbn [with_hashes hashes]. destruct (decide (h < length (hashes s))%nat).
  - by rewrite lookup_app_l.
  - rewrite lookup_app_r by lia. rewrite (lookup_ge_None_2 (hashes s) h) by lia.
    destruct (h - length (hashes s))%nat; [|done]. cbn. split; [|done].
    intros [Hi _]%lookup_replicate. congruence.
Qed.

Lemma push_table s cap o h t :
  hashes (with_hashes s (hashes s ++ [new_hash cap o])) !! h = Some t ↔
  hashes s !! h = Some t ∨ (h = length (hashes s) ∧ t = new_hash cap o).
Proof.
  cbn [with_hashes hashes]. rewrite lookup_app_Some, list_lookup_singleton_Some. split.
  - intros [?|(? & ? & ->)]; [by left|]. right. split; [lia|done].
  - intros [?|[-> ->]]; [by left|]. right. split_and!; [lia|lia|done].
Qed.

Lemma new_hash_ok m o : 0 <= m <= 34 → table_ok (new_hash (2 ^ m) o).
Proof. intros Hm. constructor; cbn; [by exists m|by rewrite length_replicate..]. Qed.

Lemma push_extends id s cap o : extends id s (with_hashes s (hashes s ++ [new_hash cap o])).
Proof.
  constructor.
  - intros h t Ht. exists t. split; [|done]. apply push_table. by left.
  - intros id' h i _ Hz. by apply key_at_push.
  - intros h i k Hk Hz. by apply key_at_push.
Qed.

Lemma publish_ok tk ow q id th main n newHash a s' th' :
  inv tk ow q → threads q !! id = Some th → at_ th = Some (Publish main n newHash) →
  advance id (sh q) th (Publish main n newHash) a = Some (s', th') →
  inv tk ow (Table s' (<[id := th']> (threads q)) (returned q)).
Proof.
  intros I Hth Hp Ha. pose proof (inv_pc _ _ _ I id th _ Hth Hp) as (Hm & (Htk & How & Habs) & m & Hmr & ->).
  pose proof (inv_largest _ _ _ I id th _ _ _ Hth Hp) as Hlarge.
  pose proof (inv_newest _ _ _ I id th _ Hth Hp eq_refl) as Hnew.
  destruct a; try discriminate Ha. cbn [advance] in Ha. injection Ha as <- <-.
  assert (Hid : id ≠ invalid_thread_id) by (apply (inv_ids _ _ _ I); by exists th).
  destruct (inv_seen _ _ _ I id th Hth) as [Hlt _].
  set (s2 := with_hashes (sh q) (hashes (sh q) ++ [new_hash (2 ^ m) (Some main)])).
  assert (Habs' : absent s2 id) by (intros h i Hk; apply (Habs h i); by apply key_at_push in Hk).
  assert (Hlen : length (hashes s2) = S (length (hashes (sh q)))) by (cbn; rewrite length_app; simpl; lia).
  apply (access_inv tk ow _ _ q id th); [done|done|].
  constructor; try done.
  - apply push_extends.
  - cbn [move_hash seen_hash]. split; [|done]. rewrite Hlen. lia.
  - by left.
  - intros h t [Ht|[_ ->]]%push_table; [by eapply inv_tables|by apply new_hash_ok].
  - intros h1 h2 t1 t2 Hle [H1|[-> ->]]%push_table [H2|[-> ->]]%push_table; try done.
    + by eapply (inv_growing _ _ _ I).
    + by eapply Hlarge.
    + apply lookup_lt_Some in H2. lia.
  - apply (inv_count _ _ _ I).
  - apply (inv_tickets _ _ _ I).
  - intros n' Hn. by apply (inv_threads _ _ _ I id n').
  - intros h t i Ht Hk. destruct (Habs' h i). apply key_at_table. by exists t.
  - intros h t t' i k Ht [Ht'|[-> _]]%push_table _ _; [congruence|]. apply lookup_lt_Some in Ht. lia.
  - intros P HP. congruence.
  - right. unfold busy. by rewrite Hp.
  - intros _. split; [by apply (inv_lock _ _ _ I id th _ Hth Hp)|]. left. unfold busy. by rewrite Hp.
  - by right; right.
  - intros h t [Ht|[-> ->]]%push_table; [by apply (inv_prev _ _ _ I)|]. cbn. rewrite <- Hnew. cbn. congruence.
  - rewrite Hlen. change (lockView s2) with (lockView (sh q)). pose proof (inv_view _ _ _ I) as [? _]. split; [lia|]. intros Hfree.
    destruct (inv_lock _ _ _ I id th _ Hth Hp eq_refl) as [Hlock _]. cbn in Hfree. congruence.
Qed.

(** A producer is made. *)
Lemma create_producer_ok tk ow q id th main n a s' th' :
  inv tk ow q → threads q !! id = Some th → at_ th = Some (Create main n) →
  advance id (sh q) th (Create main n) a = Some (s', th') →
  ∃ ow', inv tk ow' (Table s' (<[id := th']> (threads q)) (returned q)).
Proof.
  intros I Hth Hp Ha. pose proof (inv_pc _ _ _ I id th _ Hth Hp) as (Hm & (Htk & How & Habs) & t & Ht & Hl).
  destruct a as [| | | |b]; try discriminate Ha. cbn [advance] in Ha.
  assert (Hid : id ≠ invalid_thread_id) by (apply (inv_ids _ _ _ I); by exists th).
  destruct b; injection Ha as <- <-.
  - exists (<[id := producers (sh q)]> ow).
    eapply still_access; try done; cbn [move at_ seen_hash seen_keys].
    + by right.
    + intros id' Hne. by rewrite lookup_insert_ne.
    + apply (inv_count _ _ _ I).
    + apply (inv_tickets _ _ _ I).
    + intros n' Hn. by apply (inv_threads _ _ _ I id n').
    + cbn. lia.
    + intros P. rewrite lookup_insert_eq. intros [= <-]. split; [by exists n|]. right. cbn. lia.
    + intros P HP. congruence.
    + split; [|done]. split; [lia|]. by apply (inv_seen _ _ _ I id th).
    + by left.
    + exists t, 0%nat, n, (producers (sh q)). rewrite lookup_insert_eq.
      split_and!; try done; [apply start_mod|apply passed_0|]. intros i. apply Habs.
    + by right; right.
    + apply (inv_view _ _ _ I).
  - exists ow. eapply read_access; try done.
    + unfold setting. by rewrite Hp.
    + split; [|done]. cbn. split; [lia|]. by apply (inv_seen _ _ _ I id th).
    + by left.
    + by exists n.
Qed.

(** A load of the pointer to the table. *)
Lemma hash_access tk ow q id th m p p' :
  inv tk ow q → threads q !! id = Some th → at_ th = Some p → setting th = false →
  (seen_hash th ≤ m < length (hashes (sh q)))%nat → locked p' = locked p →
  pc_ok tk ow (sh q) id (move_hash th m p') p' →
  (∀ main n newHash, p' ≠ Publish main n newHash) →
  inv tk ow (Table (sh q) (<[id := move_hash th m p']> (threads q)) (returned q)).
Proof.
  intros I Hth Hp Hset Hm Hl Hpc Hnp. eapply read_access; try done.
  - by left.
  - intros main n nh ->. by destruct (Hnp main n nh).
Qed.

Lemma load_hash_ok tk ow q id th a s' th' :
  inv tk ow q → threads q !! id = Some th → at_ th = Some LoadHash →
  advance id (sh q) th LoadHash a = Some (s', th') →
  inv tk ow (Table s' (<[id := th']> (threads q)) (returned q)).
Proof.
  intros I Hth Hp Ha. pose proof (inv_pc _ _ _ I id th _ Hth Hp) as Hk. cbn [pc_ok] in Hk.
  destruct a as [|m| | |]; try discriminate Ha. cbn [advance] in Ha. unfold see_hash in Ha.
  case_bool_decide as Hm; [|discriminate Ha]. injection Ha as <- <-.
  assert (Hid : id ≠ invalid_thread_id) by (apply (inv_ids _ _ _ I); by exists th).
  eapply hash_access; try done; [unfold setting; by rewrite Hp|].
  cbn [pc_ok move_hash seen_hash]. split; [lia|]. split; [lia|]. split.
  - intros HS. destruct (Hk HS) as (h & i & (t & Ht & Hki)%key_at_table). exists h, i. split; [|apply key_at_table; by exists t].
    destruct (inv_entries _ _ _ I h t i id Ht Hki Hid) as [(thx & d & Hthx & _ & _ & _ & Hle & _) _ _].
    assert (thx = th) as -> by congruence. lia.
  - destruct (lookup_lt_is_Some_2 (hashes (sh q)) m) as [t Ht]; [lia|]. exists t, 0%nat.
    split_and!; [done|apply start_mod|apply passed_0|lia].
Qed.

Lemma reload_ok tk ow q id th n a s' th' :
  inv tk ow q → threads q !! id = Some th → at_ th = Some (ReloadHash n) →
  advance id (sh q) th (ReloadHash n) a = Some (s', th') →
  inv tk ow (Table s' (<[id := th']> (threads q)) (returned q)).
Proof.
  intros I Hth Hp Ha. pose proof (inv_pc _ _ _ I id th _ Hth Hp) as He. cbn [pc_ok] in He.
  destruct a as [|m| | |]; try discriminate Ha. cbn [advance] in Ha. unfold see_hash in Ha.
  case_bool_decide as Hm; [|discriminate Ha].
  destruct (lookup_lt_is_Some_2 (hashes (sh q)) m) as [t Ht]; [lia|]. rewrite Ht in Ha; cbn [mbind option_bind] in Ha.
  injection Ha as <- <-. pose proof (inv_tables _ _ _ I _ _ Ht) as T.
  destruct (grow_or_insert_ok tk ow (sh q) id (move_hash th m (grow_or_insert t m n)) t m n He Ht T) as [Hpc Hl]; [done|].
  eapply hash_access; try done.
  - unfold setting. by rewrite Hp.
  - intros main n' nh Hx. by rewrite Hx in Hl.
Qed.

Lemma reload_locked_ok tk ow q id th n a s' th' :
  inv tk ow q → threads q !! id = Some th → at_ th = Some (ReloadLocked n) →
  advance id (sh q) th (ReloadLocked n) a = Some (s', th') →
  inv tk ow (Table s' (<[id := th']> (threads q)) (returned q)).
Proof.
  intros I Hth Hp Ha. pose proof (inv_pc _ _ _ I id th _ Hth Hp) as He. cbn [pc_ok] in He.
  destruct a as [|m| | |]; try discriminate Ha. cbn [advance] in Ha. unfold see_hash in Ha.
  case_bool_decide as Hm; [|discriminate Ha].
  destruct (lookup_lt_is_Some_2 (hashes (sh q)) m) as [t Ht]; [lia|].
  rewrite Ht in Ha; cbn [mbind option_bind] in Ha. injection Ha as <- <-.
  assert (Hset : setting th = false) by (unfold setting; by rewrite Hp).
  destruct (half_full t n) eqn:Hh; eapply hash_access; try done; try lia.
  split; [done|]. split; [done|]. exists t. split; [done|]. by apply half_full_div.
Qed.

(** The size of the table to come. *)
Lemma malloc_grows tk ow q id th main n :
  inv tk ow q → threads q !! id = Some th → at_ th = Some (Malloc main n) →
  ∃ t m, hashes (sh q) !! main = Some t ∧ 0 <= m <= 34 ∧ capacity t <= 2 ^ m ∧
    grow_capacity 64 n (u64 (Z.shiftl (capacity t) 1)) = Some (2 ^ m).
Proof.
  intros I Hth Hp. pose proof (inv_pc _ _ _ I id th _ Hth Hp) as (Hm & He & t & Ht & Hhalf).
  assert (Hn : 0 < n <= 2 ^ 32).
  { destruct He as (Htk & _). destruct (inv_threads _ _ _ I id n Htk) as [_ ?]. pose proof (inv_size _ _ _ I). lia. }
  destruct (inv_tables _ _ _ I _ _ Ht) as [(m & Hmr & Hc) _ _]. rewrite Hc in Hhalf.
  assert (m < 34).
  { destruct (decide (m = 34)) as [->|]; [|lia]. change (2 ^ 34 / 2) with (2 ^ 33) in Hhalf. lia. }
  destruct (grow_capacity_ok 64 (m + 1) n) as (m' & Hm' & Heq); [lia..|]. exists t, m'.
  rewrite Hc, Z.shiftl_mul_pow2 by done. replace (2 ^ m * 2 ^ 1) with (2 ^ (m + 1)) by (rewrite Z.pow_add_r; lia).
  rewrite (wrap_small 64 (2 ^ (m + 1))) by (split; [lia|apply Z.pow_lt_mono_r; lia]).
  split_and!; [done|lia|lia|apply Z.pow_le_mono_r; lia|done].
Qed.

Lemma malloc_ok tk ow q id th main n a s' th' :
  inv tk ow q → threads q !! id = Some th → at_ th = Some (Malloc main n) → a ≠ Grown false →
  advance id (sh q) th (Malloc main n) a = Some (s', th') →
  inv tk ow (Table s' (<[id := th']> (threads q)) (returned q)).
Proof.
  intros I Hth Hp Hg Ha. pose proof (inv_pc _ _ _ I id th _ Hth Hp) as (Hm & He & _).
  destruct (malloc_grows _ _ _ _ _ _ _ I Hth Hp) as (t & m & Ht & Hmr & Hle & Hcap).
  destruct a as [| | |[]|]; try discriminate Ha; [|done]. cbn [advance] in Ha.
  assert (Hset : setting th = false) by (unfold setting; by rewrite Hp).
  pose proof (inv_newest _ _ _ I id th _ Hth Hp eq_refl) as Hlast.
  assert (Hseen : (seen_hash th < length (hashes (sh q)))%nat) by (by apply (inv_seen _ _ _ I id th)).
  rewrite Ht in Ha; cbn [mbind option_bind] in Ha. rewrite Hcap in Ha. injection Ha as <- <-.
  eapply read_access; try done.
  - by left.
  - split; [done|]. split; [done|]. by exists m.
  - intros main0 n0 nh [= <- <- <-] h t' Ht'. cbn. apply lookup_lt_Some in Ht' as Hlt.
    assert (capacity t' <= capacity t) by (eapply (inv_growing _ _ _ I h main); try done; lia). lia.
Qed.

(** Every access keeps the invariant. *)
Lemma hash_advance_inv tk ow q id th p a s' th' :
  inv tk ow q → threads q !! id = Some th → at_ th = Some p → a ≠ Grown false →
  advance id (sh q) th p a = Some (s', th') →
  ∃ tk' ow', inv tk' ow' (Table s' (<[id := th']> (threads q)) (returned q)).
Proof.
  intros I Hth Hp Hg Ha. pose proof (inv_pc _ _ _ I id th _ Hth Hp) as Hpc.
  assert (Hset : (∀ main index v, p ≠ SetValue main index v) → setting th = false).
  { intros Hne. unfold setting. rewrite Hp. destruct p; try done. by destruct (Hne main index v). }
  destruct p.
  - exists tk, ow. by eapply load_hash_ok.
  - exists tk, ow. by eapply probe_ok.
  - exists tk, ow. by eapply add_probe_ok.
  - exists tk, ow. by eapply add_cas_ok.
  - exists tk, ow. by eapply set_value_ok.
  - destruct (count_up_ok _ _ _ _ _ _ _ _ _ I Hth Hp Ha) as [n I']. by exists (<[id := n]> tk), ow.
  - exists tk, ow. destruct Hpc as (Hm & He). destruct a; try discriminate Ha. cbn [advance] in Ha.
    destruct (inv_hash_at _ _ _ _ _ main I Hth Hm) as (t & Ht & T). rewrite Ht in Ha; cbn [mbind option_bind] in Ha.
    injection Ha as <- <-. pose proof (inv_seen _ _ _ I id th Hth) as [Hlt _]. pose proof (inv_view _ _ _ I) as [Hview Hfree].
    set (p' := insert_or_wait t main newCount).
    destruct (insert_or_wait_ok tk ow (sh q) id (move_hash th (seen_hash th `max` lockView (sh q)) p') t main newCount He Ht T)
      as [Hpc Hl]; [cbn; lia|]. fold p' in Hpc, Hl.
    destruct (implicitProducerHashResizeInProgress (sh q)) eqn:Hlock; eapply lock_access; try done; try (by left); try (by apply Hset); try lia.
    + by rewrite Hl.
    + intros m0 n0 nh Hx. by rewrite Hx in Hl.
    + intros _. split_and!; [done|done|]. specialize (Hfree eq_refl). lia.
  - exists tk, ow. by eapply reload_locked_ok.
  - exists tk, ow. by eapply malloc_ok.
  - exists tk, ow. by eapply publish_ok.
  - exists tk, ow. destruct Hpc as (Hm & He). destruct a; try discriminate Ha. cbn [advance] in Ha.
    destruct (inv_hash_at _ _ _ _ _ main I Hth Hm) as (t & Ht & T). rewrite Ht in Ha; cbn [mbind option_bind] in Ha.
    injection Ha as <- <-. destruct (insert_or_wait_ok tk ow (sh q) id th t main newCount He Ht T Hm) as [Hpc Hl].
    pose proof (inv_newest _ _ _ I id th _ Hth Hp eq_refl) as Hnew. rewrite move_seen.
    eapply lock_access; try done; try (by right); try (by apply Hset); try lia.
    + by rewrite Hl.
    + intros m0 n0 nh Hx. by rewrite Hx in Hl.
  - done.
  - done.
  - exists tk. by eapply create_producer_ok.
  - destruct Hpc as [n He]. destruct a; try discriminate Ha. injection Ha as <- <-. exists (delete id tk), ow.
    eapply give_back_ticket; try done. by apply lookup_delete_eq.
  - exists tk, ow. by eapply reload_ok.
  - by destruct a.
Qed.

(** ** All runs *)

Lemma create_thread k ids id th :
  threads (create k ids) !! id = Some th → id ∈ ids ∧ th = Thread 0 ∅ None.
Proof.
  cbn [create threads]. intros H%elem_of_list_to_map_2. apply list_elem_of_fmap in H as (x & [= -> ->] & Hx). done.
Qed.

Lemma hash_create_inv k ids :
  0 <= k <= 34 → NoDup ids → invalid_thread_id ∉ ids → Z.of_nat (length ids) <= 2 ^ 32 → inv ∅ ∅ (create (2 ^ k) ids).
Proof.
  intros Hk Hnd Hz Hlen. assert (T : table_ok (new_hash (2 ^ k) None)) by by apply new_hash_ok.
  assert (Hh : ∀ h t, hashes (sh (create (2 ^ k) ids)) !! h = Some t → h = O ∧ t = new_hash (2 ^ k) None).
  { intros h t Ht. cbn in Ht. by apply list_lookup_singleton_Some in Ht as [-> ->]. }
  assert (Hkey : ∀ h i, key_at (sh (create (2 ^ k) ids)) h i = None ∨ key_at (sh (create (2 ^ k) ids)) h i = Some invalid_thread_id).
  { intros h i. destruct (key_at _ h i) eqn:He; [|by left]. right. apply key_at_table in He as (t & Ht & Hk').
    destruct (Hh h t Ht) as [-> ->]. cbn in Hk'. apply lookup_replicate in Hk' as [-> _]. done. }
  constructor; try done.
  - by intros h t [-> ->]%Hh.
  - by intros h t [-> ->]%Hh.
  - intros h1 h2 t1 t2 _ [_ ->]%Hh [_ ->]%Hh. lia.
  - cbn [create threads]. rewrite map_size_list_to_map, length_fmap; [done|].
    rewrite <- list_fmap_compose. by rewrite list_fmap_id.
  - intros id [th Hth]. apply create_thread in Hth as [Hin _]. by intros ->.
  - intros h t i id Ht Hki Hne. destruct (Hkey h i) as [Hn|Hn]; unfold key_at in Hn; rewrite Ht in Hn; cbn in Hn; congruence.
  - intros id th Hth. apply create_thread in Hth as [_ ->]. cbn. split; [lia|set_solver].
  - intros id th p Hth Hp. apply create_thread in Hth as [_ ->]. done.
  - intros id th Hth _ [n Hn]. by rewrite lookup_empty in Hn.
  - intros id th p Hth Hp. apply create_thread in Hth as [_ ->]. done.
  - cbn. split; [lia|done].
  - intros id th p Hth Hp. apply create_thread in Hth as [_ ->]. done.
  - intros id th main n nh Hth Hp. apply create_thread in Hth as [_ ->]. done.
  - intros id o Hin. by apply not_elem_of_nil in Hin.
Qed.

(** What is returned does not enter the rest. *)
Lemma hash_return_inv tk ow s ths r id o :
  inv tk ow (Table s ths r) → (∀ P, o = Some P → ow !! id = Some P) → inv tk ow (Table s ths (r ++ [(id, o)])).
Proof.
  intros I Ho. destruct I. constructor; try done.
  - intros h t i id' Ht Hk Hz. by destruct (inv_entries0 h t i id' Ht Hk Hz).
  - cbn. intros id' o' [Hin|Hin%list_elem_of_singleton]%elem_of_app; [by apply inv_returned0|]. by injection Hin as -> ->.
Qed.

Lemma hash_step_inv q l q' tk ow : inv tk ow q → grows l → step q l = Some q' → ∃ tk' ow', inv tk' ow' q'.
Proof.
  intros I Hg Hs. destruct l as [id|id a]; cbn [step] in Hs; apply bind_Some in Hs as (th & Hth & Hs).
  - destruct (at_ th) eqn:Hp; [done|]. injection Hs as <-. exists tk, ow.
    eapply still_access; try done.
    + left. split_and!; [done..|]. unfold setting. by rewrite Hp.
    + apply (inv_count _ _ _ I).
    + apply (inv_tickets _ _ _ I).
    + intros n Hn. by apply (inv_threads _ _ _ I id n).
    + intros P HP. split; [by apply (inv_owner _ _ _ I id P)|by left].
    + split; [|done]. cbn [move seen_hash]. split; [lia|]. by apply (inv_seen _ _ _ I id th).
    + by left.
    + cbn. by apply (inv_idle _ _ _ I id th).
    + by right; right.
    + apply (inv_view _ _ _ I).
  - destruct (at_ th) as [p|] eqn:Hp; [|done].
    assert (Hadv : (∃ o, p = Returning o) ∨ (∀ o, p ≠ Returning o)) by (destruct p; try (by right); left; by eexists).
    destruct Hadv as [[o ->]|Hadv].
    + injection Hs as <-. exists tk, ow. pose proof (inv_pc _ _ _ I id th _ Hth Hp) as Hpc.
      apply hash_return_inv.
      * eapply still_access; try done.
        -- left. split_and!; [done..|]. unfold setting. by rewrite Hp.
        -- apply (inv_count _ _ _ I).
        -- apply (inv_tickets _ _ _ I).
        -- intros n Hn. by apply (inv_threads _ _ _ I id n).
        -- intros P HP. split; [by apply (inv_owner _ _ _ I id P)|by left].
        -- split; [|done]. cbn [seen_hash]. split; [lia|]. by apply (inv_seen _ _ _ I id th).
        -- by left.
        -- cbn. intros [n Hn]. destruct o; [by apply Hpc|]. cbn in Hpc. congruence.
        -- by right; right.
        -- apply (inv_view _ _ _ I).
      * intros P ->. by apply Hpc.
    + assert (Hs' : ('(s, th') ← advance id (sh q) th p a;
                     Some (Table s (<[id := th']> (threads q)) (returned q))) = Some q').
      { destruct p; try exact Hs. by destruct (Hadv o). }
      apply bind_Some in Hs' as ([s th'] & Ha & [= <-]). eapply hash_advance_inv; try done. intros ->. by apply (Hg id).
Qed.

Lemma hash_run_inv ls q q' tk ow : inv tk ow q → Forall grows ls → run q ls = Some q' → ∃ tk' ow', inv tk' ow' q'.
Proof.
  revert q tk ow. induction ls as [|l ls IH]; intros q tk ow I Hg Hr; cbn [run] in Hr.
  - injection Hr as <-. by exists tk, ow.
  - apply Forall_cons in Hg as [Hl Hg]. apply bind_Some in Hr as (q1 & Hs & Hr).
    destruct (hash_step_inv _ _ _ _ _ I Hl Hs) as (tk1 & ow1 & I1). by eapply IH.
Qed.

(** "Not an infinite loop because at least one slot is free in the hash table": a
    full table would have a thread in each slot. *)
Lemma free_slot tk ow q h t :
  inv tk ow q → hashes (sh q) !! h = Some t → ∃ i, keys t !! i = Some invalid_thread_id.
Proof.
  intros I Ht. destruct (decide (invalid_thread_id ∈ keys t)) as [Hin|Hnot].
  { by apply list_elem_of_lookup in Hin. }
  exfalso. pose proof (inv_tables _ _ _ I _ _ Ht) as T. pose proof (capacity_pos t T).
  assert (Hentry : ∀ i id, keys t !! i = Some id → entry_ok tk ow q h t i id).
  { intros i id Hi. apply (inv_entries _ _ _ I); [done|done|]. intros ->. apply Hnot. by eapply list_elem_of_lookup_2. }
  assert (Hnd : NoDup (keys t)).
  { apply NoDup_alt. intros i j id Hi Hj. by apply (en_unique _ _ _ _ _ _ _ (Hentry j id Hj)). }
  assert (Hsub : list_to_set (keys t) ⊆ dom (up_to tk (limit t - 1))).
  { intros id [i Hi]%elem_of_list_to_set%list_elem_of_lookup. apply elem_of_dom.
    destruct (en_ticket _ _ _ _ _ _ _ (Hentry i id Hi)) as (n & Hn & Hl). exists n.
    apply map_lookup_filter_Some. split; [done|]. simpl. lia. }
  apply subseteq_size in Hsub. rewrite size_list_to_set, size_dom in Hsub by done.
  rewrite (ta_keys t T) in Hsub. unfold limit in *.
  pose proof (Z.mul_div_le (capacity t) 2). pose proof (Z.mul_div_le (capacity t) 4).
  pose proof (Z.div_pos (capacity t) 2). pose proof (Z.div_pos (capacity t) 4).
  destruct (decide (capacity t / 2 + capacity t / 4 = 0)) as [Hzero|].
  - destruct (keys t) as [|id ks] eqn:Hks; [pose proof (ta_keys t T) as Hl; rewrite Hks in Hl; simpl in Hl; lia|].
    destruct (en_ticket _ _ _ _ _ _ _ (Hentry 0%nat id eq_refl)) as (n & Hn & Hlim). unfold limit in Hlim.
    pose proof (inv_threads _ _ _ I id n Hn). lia.
  - pose proof (inv_tickets _ _ _ I (capacity t / 2 + capacity t / 4 - 1)). lia.
Qed.

(** C16: [get_or_add_implicit_producer], on any number of threads and through any
    growing of the table: as long as no allocation of a larger table fails, two calls
    return the same producer exactly when one thread made them, whatever the relaxed
    loads see and whatever producers could not be made. *)
Theorem producer_per_thread k ids ls q id1 id2 P1 P2 :
  0 <= k <= 34 → NoDup ids → invalid_thread_id ∉ ids → Z.of_nat (length ids) <= 2 ^ 32 →
  Forall grows ls → run (create (2 ^ k) ids) ls = Some q →
  (id1, Some P1) ∈ returned q → (id2, Some P2) ∈ returned q → id1 = id2 ↔ P1 = P2.
Proof.
  intros Hk Hnd Hz Hlen Hg Hr H1 H2.
  destruct (hash_run_inv _ _ _ _ _ (hash_create_inv k ids Hk Hnd Hz Hlen) Hg Hr) as (tk & ow & I).
  pose proof (inv_returned _ _ _ I _ _ H1 _ eq_refl). pose proof (inv_returned _ _ _ I _ _ H2 _ eq_refl).
  split; [congruence|]. intros ->. by eapply (inv_owners _ _ _ I).
Qed.

(** ** Examples *)

(** The answer of a memory that never runs out and never shows an old value. *)
Definition current_answer (s : shared) (p : pc) : answer :=
  match p with
  | LoadHash | ReloadHash _ | ReloadLocked _ => SeenHash (length (hashes s) - 1)
  | Probe _ h index | AddProbe h index _ =>
      SeenKey (default 0 (t ← hashes s !! h; keys t !! Z.to_nat (mask t index)))
  | Malloc _ _ => Grown true
  | Create _ _ => Allocated true
  | _ => Go
  end.

(** The labels of the calls of these threads, one after the other. *)
Fixpoint trace (fuel : nat) (q : table) (ids : list Z) : list label :=
  match fuel, ids with
  | S fuel, id :: rest =>
      match threads q !! id ≫= at_ with
      | None => Begin id :: match step q (Begin id) with Some q => trace fuel q ids | None => [] end
      | Some p =>
          let l := Act id (current_answer (sh q) p) in
          match step q l with
          | Some q => l :: trace fuel q (match p with Returning _ => rest | _ => ids end)
          | None => []
          end
      end
  | _, _ => []
  end.

(** Whether no allocation of a larger table fails. *)
Definition growsb (l : label) : bool := match l with Act _ (Grown false) => false | _ => true end.
Lemma growsb_ok ls : forallb growsb ls = true → Forall grows ls.
Proof.
  intros Hf. apply Forall_forall. intros l Hin id ->. rewrite forallb_forall in Hf.
  by specialize (Hf _ (proj1 (list_elem_of_In _ _) Hin)).
Qed.

(** Four threads from a table of two slots: it grows three times, and the threads
    that come back find their producers in old tables. *)
Lemma producer_per_thread_witness :
  ∃ q, run (create (2 ^ 1) [5; 9; 12; 77]) (trace 200 (create (2 ^ 1) [5; 9; 12; 77]) [5; 9; 12; 77; 5; 9; 12]) = Some q ∧
    (capacity <$> hashes (sh q)) = [2; 4; 8; 16] ∧ (9, Some 1%nat) ∈ returned q ∧ (12, Some 2%nat) ∈ returned q ∧
    (9 = 12 ↔ 1%nat = 2%nat).
Proof.
  eexists. split; [vm_compute; reflexivity|]. split; [done|].
  match goal with |- (9, _) ∈ returned ?q ∧ _ => assert (H1 : (9, Some 1%nat) ∈ returned q) by (cbn; set_solver);
    assert (H2 : (12, Some 2%nat) ∈ returned q) by (cbn; set_solver) end.
  split; [done|]. split; [done|].
  eapply (producer_per_thread 1 [5; 9; 12; 77] (trace 200 (create (2 ^ 1) [5; 9; 12; 77]) [5; 9; 12; 77; 5; 9; 12]));
    [lia|by apply (bool_decide_unpack (NoDup _))|set_solver|cbn; lia|apply growsb_ok; vm_compute; reflexivity
    |vm_compute; reflexivity|exact H1|exact H2].
Defined.

(** Labels, and turns of threads whose accesses see the current values. *)
Fixpoint follow (q : table) (plan : list (label + Z)) : list label :=
  match plan with
  | [] => []
  | x :: plan =>
      let l := match x with
        | inl l => l
        | inr id => Act id (default Go (current_answer (sh q) <$> (threads q !! id ≫= at_)))
        end in
      l :: match step q l with Some q => follow q plan | None => [] end
  end.

(** Thread 5 makes the second table.  Thread 9 is refused a third one, and clears the lock
    with [memory_order_relaxed].  Thread 12 has only seen the first table and takes the
    lock: it makes a table that leads to the first one. *)
Definition three_threads : table := create (2 ^ 1) [5; 9; 12].
Definition failed_growth : list (label + Z) :=
  (inl <$> trace 40 three_threads [5]) ++
  [inl (Begin 9)] ++ (inr <$> replicate 7 9) ++ [inl (Act 9 (Grown false))] ++ (inr <$> replicate 3 9) ++
  [inl (Begin 12); inl (Act 12 (SeenHash 0)); inr 12; inr 12; inr 12; inl (Act 12 (SeenHash 0))] ++ (inr <$> replicate 8 12) ++
  [inl (Begin 5)] ++ (inr <$> replicate 11 5).

(** C25: without the release order the lock does not protect the table.  There is a run of
    three threads in which one allocation of a larger table fails, nothing else does, and
    a thread that had a producer gets a second one: the table it was entered in is no
    longer reachable, as the thread that grew the table next saw an older one. *)
Theorem failed_growth_two_producers :
  ∃ ls q, run (create (2 ^ 1) [5; 9; 12]) ls = Some q ∧
    List.filter (λ l, negb (growsb l)) ls = [Act 9 (Grown false)] ∧
    returned q = [(5, Some 0%nat); (9, None); (12, Some 1%nat); (5, Some 2%nat)] ∧
    prev <$> hashes (sh q) = [None; Some 0%nat; Some 0%nat].
Proof.
  exists (follow three_threads failed_growth). eexists. split; [vm_compute; reflexivity|]. by split; [vm_compute|].
Qed.
End McHash.
