(* ===== verification/McHashReturns.v ===== *)
(** * A call of [get_or_add_implicit_producer] returns

    A thread that runs alone, while no other holds the resizing lock, comes to an end
    whatever its relaxed loads see, and has a producer unless memory ran out.  (With
    another thread stopped while it holds the lock, a thread that finds the table three
    quarters full waits for it: the call is not lock-free.) *)
From S2P Require Import Prelude McDetails McBlock McHash.
Local Open Scope Z_scope.

Module McHashReturns.
Import McDetails McHash.

(** Memory is had when it is asked for. *)
Definition had (a : answer) : Prop := a ≠ Grown false ∧ a ≠ Allocated false.

(** The thread has [d] slots of its chain in table [h] behind it. *)
Definition behind (s : shared) (id : Z) (th : thread) (h : nat) (index : Z) (d : nat) : Prop :=
  ∃ t, hashes s !! h = Some t ∧
    index mod capacity t = (hash_thread_id sizeof_thread_id id + d) mod capacity t ∧
    passed id th h (capacity t) d.

(** At most [n] accesses are left; no table is wider than 2^34. *)
Definition within (s : shared) (id : Z) (th : thread) (p : pc) (n : Z) : Prop :=
  let last := 3 * 2 ^ 34 in
  match p with
  | Returning o => is_Some o ∧ 1 <= n
  | SetValue _ _ _ => 2 <= n
  | AddProbe main index _ => ∃ d, behind s id th main index d ∧ d <= 2 ^ 34 ∧ 3 * (2 ^ 34 - d) + 4 <= n
  | AddCas main index _ => ∃ d, behind s id th main index d ∧ d <= 2 ^ 34 ∧ 3 * (2 ^ 34 - d) + 3 <= n
  | Create _ _ => last + 5 <= n
  | Clear main c => (∃ t, hashes s !! main = Some t ∧ c < capacity t / 2) ∧ last + 6 <= n
  | Publish _ c newHash => c < capacity newHash / 2 ∧ last + 7 <= n
  | Malloc _ _ => last + 8 <= n
  | ReloadLocked _ => last + 9 <= n
  | TestAndSet _ _ => last + 10 <= n
  | CountUp _ => last + 11 <= n
  | Probe _ h index => ∃ d, behind s id th h index d ∧ d <= 2 ^ 34 ∧ last + 12 + h * 2 ^ 34 + (2 ^ 34 - d) <= n
  | LoadHash => last + 13 + length (hashes s) * 2 ^ 34 <= n
  | MallocFailed | ClearFailed | CreateFailed | ReloadHash _ => False
  end.

(** The thread is in a call, is the only one that may hold the lock, and has at
    most [n] accesses left. *)
Definition alone (q : table) (id : Z) (n : Z) : Prop :=
  ∃ th p tk ow, threads q !! id = Some th ∧ at_ th = Some p ∧ inv tk ow q ∧
    implicitProducerHashResizeInProgress (sh q) = locked p ∧ within (sh q) id th p n.

Lemma within_pos s id th p n : within s id th p n → 0 < n.
Proof.
  destruct p; cbn [within]; intros Hw; try done; try lia.
  1-3: destruct Hw as (d & _ & Hw); lia.
  all: destruct Hw; lia.
Qed.

Lemma passed_lt tk ow q id th h t (d : nat) :
  inv tk ow q → threads q !! id = Some th → hashes (sh q) !! h = Some t → passed id th h (capacity t) d →
  d < capacity t.
Proof.
  intros I Hth Ht Hp. destruct (free_slot _ _ _ _ _ I Ht) as [i Hi].
  pose proof (inv_tables _ _ _ I _ _ Ht) as T. pose proof (capacity_pos t T).
  destruct (decide (d < capacity t)) as [|Hge]; [done|]. exfalso.
  set (x := (i - hash_thread_id sizeof_thread_id id) mod capacity t).
  assert (Hx : 0 <= x < capacity t) by (apply Z.mod_pos_bound; lia).
  assert (Hpos : position id (capacity t) (Z.to_nat x) = i).
  { unfold position. rewrite Z2Nat.id by lia. unfold x. rewrite Zplus_mod_idemp_r.
    replace (_ + (i - _)) with (Z.of_nat i) by lia. apply lookup_lt_Some in Hi. rewrite (ta_keys t T) in Hi.
    rewrite Z.mod_small by lia. lia. }
  assert (Hin : (h, i) ∈ seen_keys th) by (rewrite <- Hpos; apply Hp; lia).
  destruct (proj2 (inv_seen _ _ _ I id th Hth) h i Hin) as (k & (t2 & Ht2 & Hk)%key_at_table & Hz). congruence.
Qed.

Lemma grow_capacity_room fuel n c c' : grow_capacity fuel n c = Some c' → n < c' / 2.
Proof.
  revert c. induction fuel as [|fuel IH]; intros c; cbn [grow_capacity]; [done|].
  destruct (Z.leb_spec (Z.shiftr c 1) n) as [|Hlt]; [apply IH|]. intros [= <-].
  by rewrite Z.shiftr_div_pow2 in Hlt by done.
Qed.

Lemma insert_when_room t main n : table_ok t → n < capacity t / 2 → insert_or_wait t main n = Create main n.
Proof.
  intros T Hn. unfold insert_or_wait, has_room. rewrite (limit_u64 t T).
  pose proof (capacity_pos t T). pose proof (Z.div_pos (capacity t) 4). unfold limit.
  by rewrite (proj2 (Z.ltb_lt _ _)) by lia.
Qed.

Lemma grow_or_insert_cases t main n :
  table_ok t → grow_or_insert t main n = TestAndSet main n ∨ grow_or_insert t main n = Create main n.
Proof.
  intros T. unfold grow_or_insert. destruct (half_full t n) eqn:Hh; [by left|]. right.
  apply insert_when_room; [done|]. destruct (decide (capacity t / 2 <= n)) as [Hle|]; [|lia].
  apply half_full_div in Hle. congruence.
Qed.

(** The next slot of the chain. *)
Lemma behind_next s id th h t index (d : nat) k p :
  table_ok t → hashes s !! h = Some t → k ≠ invalid_thread_id →
  index mod capacity t = (hash_thread_id sizeof_thread_id id + d) mod capacity t → passed id th h (capacity t) d →
  behind s id (move_key th h (position id (capacity t) d) k p) h (u64 (mask t index + 1)) (S d).
Proof.
  intros T Ht Hk Hi Hp. destruct (index_position t id index d T Hi) as (_ & _ & Hnext).
  exists t. split_and!; [done|done|]. eapply passed_snoc; [done|..]; cbn [move_key seen_keys];
    rewrite (proj2 (Z.eqb_neq _ _) Hk); set_solver.
Qed.

Lemma behind_start s id th h t :
  hashes s !! h = Some t → behind s id th h (hash_thread_id sizeof_thread_id id) 0.
Proof. intros Ht. exists t. split_and!; [done|apply start_mod|apply passed_0]. Qed.

Lemma width t : table_ok t → 0 < capacity t <= 2 ^ 34.
Proof. apply capacity_pos. Qed.

Section alone.
Context (tk : gmap Z Z) (ow : gmap Z nat) (q : table) (id : Z) (th : thread).
Hypothesis (I : inv tk ow q) (Hth : threads q !! id = Some th).

(** What an access leads to. *)
Definition goes_on (n : Z) (s' : shared) (th' : thread) : Prop :=
  ∃ p', at_ th' = Some p' ∧ implicitProducerHashResizeInProgress s' = locked p' ∧ within s' id th' p' (n - 1).

Lemma probe_within main h index a n s' th' :
  at_ th = Some (Probe main h index) → implicitProducerHashResizeInProgress (sh q) = false →
  within (sh q) id th (Probe main h index) n → advance id (sh q) th (Probe main h index) a = Some (s', th') →
  goes_on n s' th'.
Proof.
  intros Hp Hlock (d & (t & Ht & Hi & Hpa) & Hn) Ha.
  assert (Hid : id ≠ invalid_thread_id) by (apply (inv_ids _ _ _ I); by exists th).
  destruct (inv_pc _ _ _ I id th _ Hth Hp) as (Hh & _).
  destruct a as [| |k| |]; try discriminate Ha. cbn [advance] in Ha. rewrite Ht in Ha; cbn [mbind option_bind] in Ha.
  pose proof (inv_tables _ _ _ I _ _ Ht) as T. destruct (index_position t id index d T Hi) as (Hpos & _).
  pose proof (passed_lt _ _ _ _ _ _ _ _ I Hth Ht Hpa) as Hd. pose proof (width t T) as Hw.
  rewrite Hpos in Ha. destruct (keys t !! position id (capacity t) d) as [current|] eqn:Hcur; [|discriminate Ha].
  cbn [mbind option_bind] in Ha. destruct (see_key _ _ _ _ _) eqn:Hsee in Ha; [|discriminate Ha]. injection Ha as <- <-.
  eexists. split; [done|]. destruct (Z.eqb_spec k id) as [->|Hkid].
  - rewrite (see_key_current _ _ _ _ _ Hsee Hid) in Hcur.
    destruct (inv_entries _ _ _ I _ _ _ _ Ht Hcur Hid) as [(thx & d0 & Hthx & _ & _ & _ & _ & Hv) _ _].
    assert (thx = th) as -> by congruence. destruct Hv as [(x & v & Hx & _)|(P & -> & _)]; [congruence|].
    case_decide; (split; [done|]); cbn [within default].
    + split; [done|]. lia.
    + destruct (inv_hash_at _ _ _ _ _ main I Hth) as (t2 & Ht2 & _); [lia|]. exists 0%nat.
      split; [by eapply behind_start|]. lia.
  - destruct (Z.eqb_spec k invalid_thread_id) as [->|Hz].
    + rewrite (inv_prev _ _ _ I _ _ Ht). destruct h as [|h]; (split; [done|]); cbn [within next_hash before]; [lia|].
      destruct (inv_hash_at _ _ _ _ _ h I Hth) as (t2 & Ht2 & _); [lia|]. exists 0%nat.
      split; [by eapply behind_start|]. lia.
    + split; [done|]. exists (S d). split; [by apply behind_next|]. lia.
Qed.

Lemma add_probe_within main index v a n s' th' :
  at_ th = Some (AddProbe main index v) → implicitProducerHashResizeInProgress (sh q) = false →
  within (sh q) id th (AddProbe main index v) n → advance id (sh q) th (AddProbe main index v) a = Some (s', th') →
  goes_on n s' th'.
Proof.
  intros Hp Hlock (d & (t & Ht & Hi & Hpa) & Hn) Ha.
  destruct a as [| |k| |]; try discriminate Ha. cbn [advance] in Ha. rewrite Ht in Ha; cbn [mbind option_bind] in Ha.
  pose proof (inv_tables _ _ _ I _ _ Ht) as T. destruct (index_position t id index d T Hi) as (Hpos & _).
  pose proof (passed_lt _ _ _ _ _ _ _ _ I Hth Ht Hpa) as Hd. pose proof (width t T) as Hw.
  rewrite Hpos in Ha. destruct (keys t !! position id (capacity t) d) as [current|] eqn:Hcur; [|discriminate Ha].
  cbn [mbind option_bind] in Ha. destruct (see_key _ _ _ _ _) eqn:Hsee in Ha; [|discriminate Ha]. injection Ha as <- <-.
  eexists. split; [done|]. destruct (Z.eqb_spec k invalid_thread_id) as [->|Hz]; (split; [done|]).
  - exists d. split; [|lia]. exists t. split_and!; [done| |done].
    by rewrite (mask_mod t index T), Z.mod_mod by lia.
  - exists (S d). split; [by apply behind_next|]. lia.
Qed.

Lemma add_cas_within main index v a n s' th' :
  at_ th = Some (AddCas main index v) → implicitProducerHashResizeInProgress (sh q) = false →
  within (sh q) id th (AddCas main index v) n → advance id (sh q) th (AddCas main index v) a = Some (s', th') →
  goes_on n s' th'.
Proof.
  intros Hp Hlock (d & (t & Ht & Hi & Hpa) & Hn) Ha.
  destruct (inv_pc _ _ _ I id th _ Hth Hp) as (_ & Hr). specialize (Hr t Ht).
  destruct a; try discriminate Ha. cbn [advance] in Ha. rewrite Ht in Ha; cbn [mbind option_bind] in Ha.
  pose proof (inv_tables _ _ _ I _ _ Ht) as T. destruct (index_position t id index d T Hi) as (Hpos & _).
  pose proof (behind_next (sh q) id th main t index d) as Hnext.
  assert (Hmask : mask t index = index) by (rewrite (mask_mod t index T); by apply Z.mod_small).
  rewrite Hmask in Hpos, Hnext.
  pose proof (passed_lt _ _ _ _ _ _ _ _ I Hth Ht Hpa) as Hd. pose proof (width t T) as Hw.
  rewrite Hpos in Ha. destruct (keys t !! position id (capacity t) d) as [current|] eqn:Hcur; [|discriminate Ha].
  cbn [mbind option_bind] in Ha. injection Ha as Ha. destruct (Z.eqb_spec current invalid_thread_id) as [->|Hz];
    injection Ha as <- <-; (eexists; split; [done|split; [done|]]); cbn [within].
  - lia.
  - exists (S d). split; [by apply Hnext|]. lia.
Qed.

Lemma advance_within p a n s' th' :
  at_ th = Some p → implicitProducerHashResizeInProgress (sh q) = locked p → within (sh q) id th p n →
  had a → advance id (sh q) th p a = Some (s', th') → goes_on n s' th'.
Proof.
  intros Hp Hlock Hw Ha Hadv. pose proof (inv_pc _ _ _ I id th _ Hth Hp) as Hpc.
  assert (Hat : ∀ m, (m ≤ seen_hash th)%nat → ∃ t, hashes (sh q) !! m = Some t ∧ table_ok t)
    by (intros m; by eapply inv_hash_at).
  destruct p; try (by destruct Hw).
  - destruct a as [|m| | |]; try discriminate Hadv. cbn [advance] in Hadv. unfold see_hash in Hadv.
    case_bool_decide as Hm; [|discriminate Hadv]. injection Hadv as <- <-. eexists. split_and!; [done|done|].
    destruct (lookup_lt_is_Some_2 (hashes (sh q)) m) as [t Ht]; [lia|].
    exists 0%nat. split; [by eapply behind_start|]. cbn [within] in Hw.  lia.
  - by eapply probe_within.
  - by eapply add_probe_within.
  - by eapply add_cas_within.
  - destruct Hpc as (_ & _ & P & -> & _). destruct a; try discriminate Hadv. injection Hadv as <- <-.
    eexists. split_and!; [done|done|]. cbn [within] in *. split; [done|lia].
  - destruct Hpc as [Hm _]. destruct (Hat _ Hm) as (t & Ht & T). destruct a; try discriminate Hadv.
    cbn [advance] in Hadv. rewrite Ht in Hadv; cbn [mbind option_bind] in Hadv. injection Hadv as <- <-.
    eexists. split; [done|]. cbn [within] in Hw. edestruct (grow_or_insert_cases t main) as [Hg|Hg]; [done|rewrite Hg..];
      (split; [done|]); cbn [within]; lia.
  - destruct Hpc as [Hm _]. destruct (Hat _ Hm) as (t & Ht & T). destruct a; try discriminate Hadv.
    cbn [advance] in Hadv. rewrite Ht, Hlock in Hadv; cbn [mbind option_bind locked] in Hadv. injection Hadv as <- <-.
    eexists. split_and!; [done|done|]. cbn [within] in *. lia.
  - destruct a as [|m| | |]; try discriminate Hadv. cbn [advance] in Hadv. destruct (see_hash _ _ _); [|discriminate Hadv].
    apply bind_Some in Hadv as (t & Ht & [= <- <-]). eexists. split; [done|].
    destruct (half_full t newCount) eqn:Hh; (split; [done|]); cbn [within] in *; [lia|]. split; [|lia].
    exists t. split; [done|]. destruct (decide (capacity t / 2 <= newCount)) as [Hle|]; [|lia].
    apply half_full_div in Hle. congruence.
  - destruct Ha as [Hg _]. destruct a as [| | |[]|]; try done. cbn [advance] in Hadv. apply bind_Some in Hadv as (t & Ht & Hadv).
    apply bind_Some in Hadv as (c & Hc & [= <- <-]). eexists. split_and!; [done|done|].
    split; [by eapply grow_capacity_room|cbn [within] in Hw; lia].
  - destruct Hw as [Hr Hw]. destruct a; try discriminate Hadv. injection Hadv as <- <-.
    eexists. split_and!; [done|done|]. split; [|lia]. exists newHash. split; [|done]. cbn.
    by rewrite lookup_app_r, Nat.sub_diag by lia.
  - destruct Hpc as [Hm _], Hw as [(t0 & Ht0 & Hr) Hw]. destruct (Hat _ Hm) as (t & Ht & T).
    assert (t0 = t) as -> by congruence. destruct a; try discriminate Hadv.
    cbn [advance] in Hadv. rewrite Ht in Hadv; cbn [mbind option_bind] in Hadv. injection Hadv as <- <-.
    rewrite (insert_when_room t main newCount T Hr). eexists. split_and!; [done|done|]. cbn [within]. lia.
  - destruct Hpc as (Hm & _). destruct (Hat _ Hm) as (t & Ht & T).
    destruct Ha as [_ Ha]. destruct a as [| | | |[]]; try done. injection Hadv as <- <-.
    eexists. split_and!; [done|done|]. exists 0%nat. split; [by eapply behind_start|]. cbn [within] in Hw. lia.
Qed.

Lemma see_current h i k : see_key th h i k k = true.
Proof. unfold see_key. by rewrite Z.eqb_refl. Qed.

Lemma slot_exists t index : table_ok t → is_Some (keys t !! Z.to_nat (mask t index)).
Proof.
  intros T. pose proof (capacity_pos t T). apply lookup_lt_is_Some. rewrite (ta_keys t T), (mask_mod t index T).
  pose proof (Z.mod_pos_bound index (capacity t)). lia.
Qed.

(** No thread is ever stuck. *)
Lemma advance_enabled p :
  at_ th = Some p → (∀ o, p ≠ Returning o) → ∃ a, had a ∧ is_Some (advance id (sh q) th p a).
Proof.
  intros Hp Hret. pose proof (inv_pc _ _ _ I id th _ Hth Hp) as Hpc.
  assert (Hat : ∀ m, (m ≤ seen_hash th)%nat → ∃ t, hashes (sh q) !! m = Some t ∧ table_ok t)
    by (intros m; by eapply inv_hash_at).
  destruct (inv_seen _ _ _ I id th Hth) as [Hseen _].
  destruct p; cbn [pc_ok] in Hpc.
  - exists (SeenHash (seen_hash th)). split; [done|]. cbn [advance]. unfold see_hash. by rewrite bool_decide_eq_true_2 by lia.
  - destruct Hpc as (Hm & _). destruct (Hat h) as (t & Ht & T); [lia|]. destruct (slot_exists t index T) as [k Hk].
    exists (SeenKey k). split; [done|]. cbn [advance]. rewrite Ht. cbn. rewrite Hk. cbn. by rewrite see_current.
  - destruct Hpc as (t & d & n & P & Ht & _). pose proof (inv_tables _ _ _ I _ _ Ht) as T. destruct (slot_exists t index T) as [k Hk].
    exists (SeenKey k). split; [done|]. cbn [advance]. rewrite Ht. cbn. rewrite Hk. cbn. by rewrite see_current.
  - destruct Hpc as ((t & d & n & P & Ht & _) & Hr). specialize (Hr t Ht).
    pose proof (inv_tables _ _ _ I _ _ Ht) as T. destruct (slot_exists t index T) as [k Hk].
    rewrite (mask_mod t index T), Z.mod_small in Hk by done.
    exists Go. split; [done|]. cbn [advance]. rewrite Ht. cbn. by rewrite Hk.
  - by exists Go.
  - destruct (Hat main) as (t & Ht & _); [apply Hpc|]. exists Go. split; [done|]. cbn [advance]. by rewrite Ht.
  - destruct (Hat main) as (t & Ht & _); [apply Hpc|]. exists Go. split; [done|]. cbn [advance]. by rewrite Ht.
  - destruct (lookup_lt_is_Some_2 (hashes (sh q)) (seen_hash th)) as [t Ht]; [lia|].
    exists (SeenHash (seen_hash th)). split; [done|]. cbn [advance]. unfold see_hash.
    rewrite bool_decide_eq_true_2 by lia. by rewrite Ht.
  - destruct (malloc_grows _ _ _ _ _ _ _ I Hth Hp) as (t & m & Ht & _ & _ & Hg).
    exists (Grown true). split; [done|]. cbn [advance]. rewrite Ht. cbn [mbind option_bind]. by rewrite Hg.
  - by exists Go.
  - destruct (Hat main) as (t & Ht & _); [apply Hpc|]. exists Go. split; [done|]. cbn [advance]. by rewrite Ht.
  - by exists Go.
  - by exists Go.
  - by exists (Allocated true).
  - by exists Go.
  - destruct (lookup_lt_is_Some_2 (hashes (sh q)) (seen_hash th)) as [t Ht]; [lia|].
    exists (SeenHash (seen_hash th)). split; [done|]. cbn [advance]. unfold see_hash.
    rewrite bool_decide_eq_true_2 by lia. by rewrite Ht.
  - by destruct (Hret o).
Qed.
End alone.

(** ** A call *)

Lemma act_step q id th p a q' :
  threads q !! id = Some th → at_ th = Some p → (∀ o, p ≠ Returning o) →
  step q (Act id a) = Some q' ↔
  ∃ s th', advance id (sh q) th p a = Some (s, th') ∧ q' = Table s (<[id := th']> (threads q)) (returned q).
Proof.
  intros Hth Hp Hret. cbn [step]. rewrite Hth. cbn [mbind option_bind]. rewrite Hp.
  assert (H : (match p with
          | Returning o => Some (Table (sh q) (<[id := Thread (seen_hash th) (seen_keys th) None]> (threads q)) (returned q ++ [(id, o)]))
          | _ => '(s, th') ← advance id (sh q) th p a; Some (Table s (<[id := th']> (threads q)) (returned q))
          end = ('(s, th') ← advance id (sh q) th p a; Some (Table s (<[id := th']> (threads q)) (returned q))))%type)
    by (destruct p; try done; by destruct (Hret o)).
  rewrite H, bind_Some. split.
  - intros ([s th'] & Ha & [= <-]). by exists s, th'.
  - intros (s & th' & Ha & ->). by exists (s, th').
Qed.

(** The call is over, and got a producer. *)
Definition has_returned (q q' : table) (id : Z) : Prop :=
  ∃ P th, returned q' = returned q ++ [(id, Some P)] ∧ threads q' !! id = Some th ∧ at_ th = None.

Lemma alone_step q id n a q' :
  alone q id n → had a → step q (Act id a) = Some q' →
  1 <= n ∧ (has_returned q q' id ∨ (returned q' = returned q ∧ alone q' id (n - 1))).
Proof.
  intros (th & p & tk & ow & Hth & Hp & I & Hlock & Hw) Ha Hs.
  assert (Hret : (∃ o, p = Returning o) ∨ (∀ o, p ≠ Returning o)) by (destruct p; try (by right); left; by eexists).
  destruct Hret as [[o ->]|Hret].
  - cbn [step] in Hs. rewrite Hth in Hs. cbn [mbind option_bind] in Hs. rewrite Hp in Hs. injection Hs as <-.
    destruct Hw as [[P ->] Hn]. split; [done|]. left. exists P, (Thread (seen_hash th) (seen_keys th) None).
    cbn. by rewrite lookup_insert_eq.
  - apply (act_step _ _ _ _ _ _ Hth Hp Hret) in Hs as (s & th' & Hadv & ->).
    destruct (advance_within tk ow q id th I Hth p a n s th' Hp Hlock Hw Ha Hadv) as (p' & Hp' & Hlock' & Hw').
    destruct (hash_advance_inv _ _ _ _ _ _ _ _ _ I Hth Hp (proj1 Ha) Hadv) as (tk' & ow' & I').
    split; [|right; split; [done|]].
    + apply within_pos in Hw'. lia.
    + exists th', p', tk', ow'. split_and!; [|done..]. cbn. by rewrite lookup_insert_eq.
Qed.

Lemma alone_enabled q id n : alone q id n → ∃ a, had a ∧ is_Some (step q (Act id a)).
Proof.
  intros (th & p & tk & ow & Hth & Hp & I & _).
  assert (Hret : (∃ o, p = Returning o) ∨ (∀ o, p ≠ Returning o)) by (destruct p; try (by right); left; by eexists).
  destruct Hret as [[o ->]|Hret].
  - exists Go. split; [done|]. cbn [step]. rewrite Hth. cbn [mbind option_bind]. rewrite Hp. by eexists.
  - destruct (advance_enabled tk ow q id th I Hth p Hp Hret) as (a & Ha & [[s th'] Hadv]). exists a. split; [done|].
    eexists. apply (act_step _ _ _ _ _ _ Hth Hp Hret). by exists s, th'.
Qed.


(** The accesses of a call on its own. *)
Lemma alone_run as_ : ∀ q id n q',
  alone q id n → Forall (λ a, had a) as_ → run q (Act id <$> as_) = Some q' →
  Z.of_nat (length as_) <= n ∧
  (has_returned q q' id ∨
   (returned q' = returned q ∧ ∃ a q'', had a ∧ step q' (Act id a) = Some q'')).
Proof.
  induction as_ as [|a as_ IH]; intros q id n q' Hal Has Hr; cbn [run fmap list_fmap] in Hr.
  - injection Hr as <-. split.
    + destruct Hal as (th & p & tk & ow & _ & _ & _ & _ & Hw%within_pos). simpl. lia.
    + right. split; [done|]. destruct (alone_enabled _ _ _ Hal) as (a & Ha & q'' & Hq''). by exists a, q''.
  - apply Forall_cons in Has as [Ha Has]. apply bind_Some in Hr as (q1 & Hs & Hr).
    destruct (alone_step _ _ _ _ _ Hal Ha Hs) as [Hn [Hret|[Hsame Hal1]]].
    + destruct Hret as (P & th & Hret & Hth & Hidle). destruct as_ as [|a' as_].
      * injection Hr as <-. split; [simpl; lia|]. left. by exists P, th.
      * cbn [run fmap list_fmap step] in Hr. rewrite Hth in Hr. cbn [mbind option_bind] in Hr. by rewrite Hidle in Hr.
    + destruct (IH q1 id (n - 1) q' Hal1 Has Hr) as [Hlen Hres]. split; [simpl; lia|].
      unfold has_returned in *. by rewrite Hsame in Hres.
Qed.

(** C17: "only fails if memory allocation fails", and does not loop: a thread enters
    [get_or_add_implicit_producer] in any state its queue can be in as long as no
    allocation of a larger table has failed, at a moment when no other thread is stopped
    inside the resizing of the table, and runs alone.  Then, with memory to be had, it has
    returned a producer after a bounded number of accesses, whatever its relaxed loads
    return; until then it can go on. *)
Theorem get_or_add_returns k ids ls q q0 id :
  0 <= k <= 34 → NoDup ids → invalid_thread_id ∉ ids → Z.of_nat (length ids) <= 2 ^ 32 →
  Forall grows ls → run (create (2 ^ k) ids) ls = Some q → implicitProducerHashResizeInProgress (sh q) = false →
  step q (Begin id) = Some q0 →
  ∃ bound : nat, ∀ as_ q', Forall (λ a, had a) as_ → run q0 (Act id <$> as_) = Some q' →
    (length as_ ≤ bound)%nat ∧
    (has_returned q q' id ∨
     (returned q' = returned q ∧ ∃ a q'', had a ∧ step q' (Act id a) = Some q'')).
Proof.
  intros Hk Hnd Hz Hlen Hg Hr Hlock Hs.
  destruct (hash_run_inv _ _ _ _ _ (hash_create_inv k ids Hk Hnd Hz Hlen) Hg Hr) as (tk & ow & I).
  destruct (hash_step_inv q (Begin id) _ _ _ I ltac:(done) Hs) as (tk0 & ow0 & I0).
  set (n := 3 * 2 ^ 34 + 13 + length (hashes (sh q0)) * 2 ^ 34).
  assert (returned q0 = returned q ∧ alone q0 id n) as [Hsame Hal].
  { cbn [step] in Hs. apply bind_Some in Hs as (th & Hth & Hs). destruct (at_ th) eqn:Hp; [done|]. injection Hs as <-.
    split; [done|]. exists (move th LoadHash), LoadHash, tk0, ow0. split_and!; [|done..|]; [by cbn; rewrite lookup_insert_eq|].
    unfold within, n. lia. }
  exists (Z.to_nat n). intros as_ q' Has Hr'. destruct (alone_run as_ q0 id n q' Hal Has Hr') as [Hl Hres].
  split; [lia|]. unfold has_returned in *. by rewrite Hsame in Hres.
Qed.

(** ** An example *)

(** The second of two threads, on its own: it passes the first in the second table,
    misses itself in both, and makes a third. *)
Definition second_call : list answer :=
  [SeenHash 1; SeenKey 5; SeenKey 0; SeenKey 0; Go; Go; SeenHash 1; Grown true; Go; Go; Allocated true; SeenKey 0;
   Go; Go; Go].

Definition two_threads : table := create (2 ^ 1) [5; 9].
Definition first_done : table :=
  Eval vm_compute in default two_threads (run two_threads (trace 14 two_threads [5])).
Definition second_begun : table := Eval vm_compute in default first_done (step first_done (Begin 9)).
Definition second_done : table :=
  Eval vm_compute in default second_begun (run second_begun (Act 9 <$> second_call)).

Lemma get_or_add_returns_witness :
  returned second_done = [(5, Some 0%nat); (9, Some 1%nat)] ∧
  ∃ bound : nat, (length second_call ≤ bound)%nat ∧
    (has_returned first_done second_done 9 ∨ returned second_done = returned first_done).
Proof.
  split; [done|].
  destruct (get_or_add_returns 1 [5; 9] (trace 14 two_threads [5]) first_done second_begun 9) as [bound Hb].
  - lia.
  - by apply (bool_decide_unpack (NoDup _)).
  - set_solver.
  - cbn; lia.
  - apply growsb_ok. vm_compute. reflexivity.
  - vm_compute. reflexivity.
  - reflexivity.
  - vm_compute. reflexivity.
  - exists bound. destruct (Hb second_call second_done) as [Hlen Hres];
      [by repeat constructor|vm_compute; reflexivity|]. split; [done|]. naive_solver.
Defined.
End McHashReturns.
