(* ===== verification/McThreads.v ===== *)
(** * Threads without tokens

    concurrentqueue.h: the public methods that enqueue, and those of them that take no
    token put together: a thread looks for its producer in the hash of McHash.v, makes
    one in the list of McQueue.v if it has none, and enqueues to it.  Threads interleave
    at every access to the hash; what they do to the queue itself comes one after the
    other. *)
From S2P Require Import Prelude McDetails McBlock McPool McBulk McImplicit McSubQueue McProducerBase McQueue McQueueRuns.
From S2P Require Import McOrigin McTokens McConcurrentQueue McQueueDestructor McMove McHash.
Local Open Scope Z_scope.

Module McThreads.
Import McDetails McSubQueue McQueue McQueueRuns.

Section threads.
Context {E P T : Type} `{!SubQueue E P T} `{Quota} `{!McMove.HashSize}.

(** What a thread enqueues without a token. *)
Inductive request :=
  | Item (canAlloc throws : bool) (x : T)
  | Items (canAlloc : bool) (xs : list T) (throws : list bool).

(** The public methods: [throws] tells which constructors of the elements throw. *)
Definition enqueue (throws : bool) (x : T) : request := Item true throws x.
Definition enqueue_bulk (xs : list T) (throws : list bool) : request := Items true xs throws.
Definition try_enqueue (throws : bool) (x : T) : request := Item false throws x.
Definition try_enqueue_bulk (xs : list T) (throws : list bool) : request := Items false xs throws.

(** The same with the token of producer [i]. *)
Definition enqueue_with (i : nat) (throws : bool) (x : T) : call (T := T) := Enqueue i true throws x.
Definition enqueue_bulk_with (i : nat) (xs : list T) (throws : list bool) : call (T := T) := EnqueueBulk i true xs throws.
Definition try_enqueue_with (i : nat) (throws : bool) (x : T) : call (T := T) := Enqueue i false throws x.
Definition try_enqueue_bulk_with (i : nat) (xs : list T) (throws : list bool) : call (T := T) :=
  EnqueueBulk i false xs throws.

(** The queue and the hash; [implicits] are the implicit producers in the order they were
    made, which is how the hash numbers them; [requests] what the threads that look for
    their producers are about to enqueue. *)
Record state := State {
  sys : system (E := E) (P := P);
  hashing : McHash.table;
  implicits : list nat;
  requests : gmap Z request
}.

Definition its_queue (st : state) : queue (E := E) (P := P) := the_queue (sys st).

(** What a step shows: a thread's method returned, having used a producer or none; a
    producer was made; a call was answered. *)
Inductive event :=
  | Silent
  | Made (o : option nat) (recycled : bool)
  | Reply (id : Z) (r : request) (producer : option nat) (res : enqueued)
  | Answer (c : call (T := T)) (a : answer (T := T)).

(** A thread calls a method. *)
Definition begin (id : Z) (r : request) (st : state) : option (result (state * event)) :=
  if McMove.INITIAL_IMPLICIT_PRODUCER_HASH_SIZE =? 0 then Some (Ok (st, Reply id r None (Returned false)))
  else
    h ← McHash.step (hashing st) (McHash.Begin id);
    Some (Ok (State (sys st) h (implicits st) (<[id := r]> (requests st)), Silent)).

(** The hash after the step of a thread that has been given a new producer, or none. *)
Definition told (id : Z) (b : bool) (h : McHash.table) : result McHash.table :=
  match McHash.step h (McHash.Act id (McHash.Allocated b)) with Some h => Ok h | None => UB end.

(** A producer that was given up is not counted again. *)
Definition told_recycled (id : Z) (main : nat) (n : nat) (h : McHash.table) : result McHash.table :=
  match McHash.threads h !! id with
  | Some th =>
      let s := McHash.sh h in
      let p := McHash.AddProbe main (hash_thread_id McHash.sizeof_thread_id id) (Some n) in
      Ok (McHash.Table (McHash.with_count s (u64 (McHash.implicitProducerHashCount s - 1)))
            (<[id := McHash.move th p]> (McHash.threads h)) (McHash.returned h))
  | None => UB
  end.

(** [recycle_or_create_producer(false, recycled)] in [get_or_add_implicit_producer]. *)
Definition create_producer (id : Z) (main : nat) (st : state) : result (state * event) :=
  '(q, o, recycled) ← recycle_or_create_producer false (its_queue st);
  '(h, made) ← (match o with
    | None => h ← told id false (hashing st); Ok (h, implicits st)
    | Some i =>
        if recycled : bool
        then
          match list_find (eq i) (implicits st) with
          | Some (n, _) => h ← told_recycled id main n (hashing st); Ok (h, implicits st)
          | None => UB
          end
        else h ← told id true (hashing st); Ok (h, implicits st ++ [i])
    end);
  Ok (State (with_queue (sys st) q) h made (requests st), Made o recycled).

(** The producer that [get_or_add_implicit_producer] returned. *)
Definition producer_at (o : option nat) (st : state) : result (option nat) :=
  match o with
  | None => Ok None
  | Some n => match implicits st !! n with Some i => Ok (Some i) | None => UB end
  end.

(** The rest of [inner_enqueue] and [inner_enqueue_bulk]. *)
Definition finish (id : Z) (r : request) (o : option nat) (h : McHash.table) (st : state) : result (state * event) :=
  producer ← producer_at o st;
  '(q, res) ← (match r with
    | Item canAlloc throws x => inner_enqueue_implicit canAlloc throws producer x (its_queue st)
    | Items canAlloc xs throws => inner_enqueue_bulk_implicit canAlloc producer xs throws (its_queue st)
    end);
  Ok (State (with_queue (sys st) q) h (implicits st) (delete id (requests st)), Reply id r producer res).

(** A thread in a method goes on by one access to the hash. *)
Definition access (id : Z) (a : McHash.answer) (st : state) : option (result (state * event)) :=
  th ← McHash.threads (hashing st) !! id;
  p ← McHash.at_ th;
  match p with
  | McHash.Create main _ => Some (create_producer id main st)
  | McHash.Returning o =>
      h ← McHash.step (hashing st) (McHash.Act id a);
      r ← requests st !! id;
      Some (finish id r o h st)
  | _ =>
      h ← McHash.step (hashing st) (McHash.Act id a);
      Some (Ok (State (sys st) h (implicits st) (requests st), Silent))
  end.

(** Another call: implicit producers are made by [access] only. *)
Definition other (c : call (T := T)) (st : state) : option (result (state * event)) :=
  match c with
  | NewProducer false => None
  | _ => Some ('(s, a) ← exec (sys st) c; Ok (State s (hashing st) (implicits st) (requests st), Answer c a))
  end.

Inductive label := Begin (id : Z) (r : request) | Access (id : Z) (a : McHash.answer) | Other (c : call (T := T)).

Definition step (st : state) (l : label) : option (result (state * event)) :=
  match l with
  | Begin id r => begin id r st
  | Access id a => access id a st
  | Other c => other c st
  end.

Fixpoint run (st : state) (ls : list label) : option (result (state * list event)) :=
  match ls with
  | [] => Some (Ok (st, []))
  | l :: ls =>
      m ← step st l;
      match m with
      | Ok (st, e) => m ← run st ls; Some ('(st, es) ← m; Ok (st, e :: es))
      | Throw x => Some (Throw x)
      | Abort => Some Abort
      | UB => Some UB
      end
  end.

(** ** What the events say *)

Definition request_call (i : nat) (r : request) : call (T := T) :=
  match r with
  | Item canAlloc throws x => Enqueue i canAlloc throws x
  | Items canAlloc xs throws => EnqueueBulk i canAlloc xs throws
  end.
Definition elements (r : request) : list T := match r with Item _ _ x => [x] | Items _ xs _ => xs end.

(** The call of McQueueRuns.v that the step made on the queue. *)
Definition on_queue (e : event) : option (call * answer) :=
  match e with
  | Silent | Reply _ _ None _ => None
  | Made o recycled => Some (NewProducer false, Created o recycled)
  | Reply _ r (Some i) res => Some (request_call i r, Added res)
  | Answer c a => Some (c, a)
  end.
Definition calls (es : list event) : list (call * answer) := omap on_queue es.

(** What thread [id] has been told is in the queue. *)
Definition accepted_in (id : Z) (e : event) : list T :=
  match e with
  | Reply id' r _ (Returned true) => if decide (id' = id) then elements r else []
  | _ => []
  end.
Definition accepted (id : Z) (es : list event) : list T := concat (accepted_in id <$> es).

(** ** What the threads have to see to *)

Context `{!SubQueueLaws E P T}.

(** As in McQueueRuns.v; tokens hold explicit producers, and no allocation of a larger hash
    table fails. *)
Definition explicit_at (st : state) (i : nat) : Prop :=
  ∃ nd, producers (its_queue st) !! i = Some nd ∧ isExplicit (sub nd) = true.
Definition by_token (st : state) (c : call (T := T)) : Prop :=
  match c with Enqueue i _ _ _ | EnqueueBulk i _ _ _ | DropToken i => explicit_at st i | _ => True end.
Definition label_ok (st : state) (l : label) : Prop :=
  match l with
  | Begin _ _ => True
  | Access _ a => a ≠ McHash.Grown false ∧ S (length (producers (its_queue st))) < 2 ^ 32
  | Other c => by_token st c ∧ call_ok (sys st) c
  end.
Fixpoint labels_ok (st : state) (ls : list label) : Prop :=
  match ls with
  | [] => True
  | l :: ls => label_ok st l ∧ ∀ st' e, step st l = Some (Ok (st', e)) → labels_ok st' ls
  end.

Definition size (r : request) : nat := length (elements r).
Definition label_adds (l : label) : nat :=
  match l with Begin _ r => size r | Access _ _ => 0 | Other c => adds c end.
Definition pending (st : state) : nat := map_fold (λ _ r m, (size r + m)%nat) 0%nat (requests st).

(** ** The hash *)

Lemma advance_producers id s th p a s' th' :
  McHash.advance id s th p a = Some (s', th') →
  McHash.producers s' =
    match p, a with McHash.Create _ _, McHash.Allocated true => S (McHash.producers s) | _, _ => McHash.producers s end ∧
  is_Some (McHash.at_ th').
Proof.
  intros Hs. destruct p, a; cbn [McHash.advance] in Hs; try discriminate Hs;
    repeat match type of Hs with
      | mbind _ _ = Some _ => apply bind_Some in Hs as (? & _ & Hs)
      | (if ?b then _ else _) = Some _ => destruct b; try discriminate Hs
      | Some (if ?b then _ else _) = Some _ => destruct b
      end; injection Hs as <- <-; eauto.
Qed.

Lemma hash_act h id a h' th p :
  McHash.threads h !! id = Some th → McHash.at_ th = Some p → McHash.step h (McHash.Act id a) = Some h' →
  (∃ th', McHash.threads h' = <[id := th']> (McHash.threads h) ∧
     match p with McHash.Returning _ => McHash.at_ th' = None | _ => is_Some (McHash.at_ th') end) ∧
  McHash.returned h' = McHash.returned h ++ match p with McHash.Returning o => [(id, o)] | _ => [] end ∧
  McHash.producers (McHash.sh h') =
    match p, a with
    | McHash.Create _ _, McHash.Allocated true => S (McHash.producers (McHash.sh h))
    | _, _ => McHash.producers (McHash.sh h)
    end.
Proof.
  intros Hth Hp Hs. unfold McHash.step in Hs. rewrite Hth in Hs. simpl in Hs. rewrite Hp in Hs.
  destruct p;
    try (destruct (McHash.advance _ _ _ _ _) as [[s' th']|] eqn:Ha; [|done]; simpl in Hs; injection Hs as <-; simpl;
         destruct (advance_producers _ _ _ _ _ _ _ Ha) as [Hpr Hat];
         split; [by exists th'|split; [by rewrite app_nil_r|exact Hpr]]).
  injection Hs as <-. simpl. split; [by eexists|done].
Qed.

Lemma act_grows id a : a ≠ McHash.Grown false → McHash.grows (McHash.Act id a).
Proof. by intros Ha id' [= _ ->]. Qed.

(** ** Explicit and implicit producers *)

Context `{!McTokens.Keeps (E := E) (P := P) (T := T) (λ _, True)}.

(** The implicit producers are the same ones, and the explicit ones still are. *)
Definition kinds_kept (fs fs' : list (bool * bool * option nat)) : Prop :=
  (∀ i b t, fs' !! i = Some (false, b, t) ↔ fs !! i = Some (false, b, t)) ∧
  (∀ i b t, fs !! i = Some (true, b, t) → ∃ b' t', fs' !! i = Some (true, b', t')).

Lemma kinds_refl fs : kinds_kept fs fs.
Proof. by split; eauto. Qed.

Lemma kinds_set fs i b t b' t' : fs !! i = Some (true, b, t) → kinds_kept fs (<[i := (true, b', t')]> fs).
Proof.
  intros Hi. pose proof (lookup_lt_Some _ _ _ Hi). split; intros j c u.
  - rewrite list_lookup_insert_Some. naive_solver.
  - intros Hj. destruct (decide (i = j)) as [<-|Hne]; [|by rewrite list_lookup_insert_ne by done; eauto].
    rewrite list_lookup_insert_eq by done. eauto.
Qed.

Lemma kinds_snoc fs b t : kinds_kept fs (fs ++ [(true, b, t)]).
Proof.
  split; intros j c u; [rewrite lookup_snoc_Some; split; [by intros [[_ ?]|[_ ?]]|]|intros Hj; do 2 eexists; by apply lookup_app_l_Some].
  intros Hj. left. split; [by eapply lookup_lt_Some|done].
Qed.

Lemma explicit_face st i : explicit_at st i → ∃ b t, McTokens.faces (its_queue st) !! i = Some (true, b, t).
Proof.
  intros (nd & Hi & Hx). exists (inactive nd), (token nd). unfold McTokens.faces. rewrite list_lookup_fmap, Hi.
  simpl. unfold McTokens.face. by rewrite Hx.
Qed.

Lemma exec_kinds st c s' a :
  exec (sys st) c = Ok (s', a) → by_token st c → c ≠ NewProducer false →
  kinds_kept (McTokens.faces (its_queue st)) (McTokens.faces (the_queue s')).
Proof.
  intros Hr Hb Hn.
  assert (c = NewProducer true ∨ (∃ i, c = DropToken i) ∨ (McTokens.plain c = true ∧ ∀ x, c ≠ NewProducer x)) as [->|[[i ->]|[Hp Hx]]].
  { destruct c as [[]| | | | | | | | | | | |]; try done; naive_solver. }
  - cbn [exec] in Hr. apply bind_inv_ok in Hr as ([[q o] r] & Hr & [= <- <-]). cbn [the_queue with_queue].
    destruct (McTokens.recycle_faces (λ _, True) _ _ _ _ _ Hr) as [_ Hf]. unfold its_queue. destruct o as [i|]; [|rewrite Hf; apply kinds_refl].
    destruct r; [destruct Hf as (tk & Hi & ->); by eapply kinds_set|destruct Hf as [_ ->]; apply kinds_snoc].
  - destruct (explicit_face _ _ Hb) as (b & t & Hi). cbn [exec destroy_token] in Hr.
    apply bind_inv_ok in Hr as (q & Hd & [= <- <-]). apply bind_inv_ok in Hd as (nd & _ & [= <-]). cbn [the_queue with_queue].
    pose proof (lookup_lt_Some _ _ _ Hi). unfold its_queue in *.
    assert (McTokens.faces (set_token (the_queue (sys st)) i None) = <[i := (true, b, None)]> (McTokens.faces (the_queue (sys st)))) as Hf
      by by eapply McTokens.faces_set_token.
    rewrite (McTokens.faces_set_inactive _ _ true b None), Hf, list_insert_insert_eq; [by eapply kinds_set|].
    rewrite Hf. by apply list_lookup_insert_eq.
  - destruct (McTokens.exec_calm (λ _, True) _ _ _ _ Hr Hp Hx) as [Hf _]. unfold its_queue. rewrite Hf. apply kinds_refl.
Qed.

(** ** What holds in every state *)

Record threads_ok (st : state) (qs : list (list T)) (n : nat) : Prop := {
  t_system : system_ok (sys st) qs n;
  t_hash : ∃ tk ow, McHash.inv tk ow (hashing st);
  t_made : McHash.producers (McHash.sh (hashing st)) = length (implicits st);
  t_nodup : NoDup (implicits st);
  t_implicit i : i ∈ implicits st ↔ ∃ t, McTokens.faces (its_queue st) !! i = Some (false, false, t);
  t_active i b t : McTokens.faces (its_queue st) !! i = Some (false, b, t) → b = false;
  t_requests id : is_Some (requests st !! id) ↔
    ∃ th, McHash.threads (hashing st) !! id = Some th ∧ is_Some (McHash.at_ th)
}.

(** What later states keep, and what an event says of a state after it. *)
Definition later (st st' : state) : Prop :=
  McHash.returned (hashing st) `prefix_of` McHash.returned (hashing st') ∧
  implicits st `prefix_of` implicits st' ∧
  ∀ i b t, McTokens.faces (its_queue st) !! i = Some (true, b, t) → ∃ b' t', McTokens.faces (its_queue st') !! i = Some (true, b', t').

Lemma later_intro st st' l m :
  McHash.returned (hashing st') = McHash.returned (hashing st) ++ l → implicits st' = implicits st ++ m →
  (∀ i b t, McTokens.faces (its_queue st) !! i = Some (true, b, t) → ∃ b' t', McTokens.faces (its_queue st') !! i = Some (true, b', t')) →
  later st st'.
Proof. intros Hr Hi Hf. split_and!; [by exists l|by exists m|done]. Qed.

#[local] Instance later_preorder : PreOrder later.
Proof.
  split; [intros st; apply (later_intro _ _ [] []); rewrite ?app_nil_r; eauto|]. intros s1 s2 s3 (A1 & A2 & A3) (B1 & B2 & B3).
  split_and!; [by etransitivity|by etransitivity|]. intros i b t (b' & t' & Hi)%A3. by eapply B3.
Qed.

Definition event_ok (st : state) (e : event) : Prop :=
  match e with
  | Reply id _ (Some i) _ =>
      ∃ n, (id, Some n) ∈ McHash.returned (hashing st) ∧ implicits st !! n = Some i
  | Reply _ _ None res => res = Returned false
  | Answer (Enqueue i _ _ _) _ | Answer (EnqueueBulk i _ _ _) _ =>
      ∃ b t, McTokens.faces (its_queue st) !! i = Some (true, b, t)
  | _ => True
  end.

Lemma event_ok_later st st' e : later st st' → event_ok st e → event_ok st' e.
Proof.
  intros (L1 & L2 & L3) He. destruct e as [| |id r [i|] res|c a]; simpl in *; try done.
  - destruct He as (n & Hn & Hi). exists n. split; [by eapply elem_of_prefix|by eapply prefix_lookup_Some].
  - destruct c; try done; destruct He as (b & t & Hi); by eapply L3.
Qed.

Definition served (qs : list (list T)) (e : event) (qs' : list (list T)) : Prop :=
  match on_queue e with None => qs' = qs | Some (c, a) => serves qs c a qs' end.

(** What a step has to bring about. *)
Definition goes_on (st : state) (qs : list (list T)) (bound : nat) (r : result (state * event)) : Prop :=
  ∃ st' e qs' n', r = Ok (st', e) ∧ threads_ok st' qs' n' ∧ (n' + pending st' ≤ bound)%nat ∧
    served qs e qs' ∧ later st st' ∧ event_ok st' e.

Lemma pending_insert st id r :
  requests st !! id = None → map_fold (λ _ r m, (size r + m)%nat) 0%nat (<[id := r]> (requests st)) = (size r + pending st)%nat.
Proof. intros Hn. apply (map_fold_insert_L (λ _ r m, (size r + m)%nat)); [intros; lia|done]. Qed.

Lemma pending_delete st id r :
  requests st !! id = Some r →
  pending st = (size r + map_fold (λ _ r m, (size r + m)%nat) 0%nat (delete id (requests st)))%nat.
Proof. intros Hr. apply (map_fold_delete_L (λ _ r m, (size r + m)%nat)); [intros; lia|done]. Qed.

Lemma begin_goes_on st qs n id r out :
  threads_ok st qs n → begin id r st = Some out → goes_on st qs (n + pending st + size r) out.
Proof.
  intros I Hs. unfold begin in Hs. destruct (_ =? 0).
  { injection Hs as <-. exists st, (Reply id r None (Returned false)), qs, n. split_and!; try done; lia. }
  apply bind_Some in Hs as (h & Hh & [= <-]). destruct I as [I1 (tk & ow & I2) I3 I4 I5 I6 I7].
  pose proof (McHash.hash_step_inv _ (McHash.Begin id) _ _ _ I2 ltac:(done) Hh) as I2'.
  cbn [McHash.step] in Hh. apply bind_Some in Hh as (th & Hth & Hh). destruct (McHash.at_ th) eqn:Hat; [done|].
  injection Hh as <-.
  assert (requests st !! id = None) as Hn.
  { apply eq_None_not_Some. intros (th' & Hth' & Hs')%I7. assert (th' = th) as -> by congruence.
    rewrite Hat in Hs'. by apply is_Some_None in Hs'. }
  exists (State (sys st) (McHash.Table (McHash.sh (hashing st)) (<[id := McHash.move th McHash.LoadHash]> (McHash.threads (hashing st)))
    (McHash.returned (hashing st))) (implicits st) (<[id := r]> (requests st))), Silent, qs, n.
  split; [done|]. split; [split; try done|].
  - intros id'. simpl. destruct (decide (id' = id)) as [->|Hne].
    + rewrite !lookup_insert_eq. split; [intros _; eexists; split; [done|by eexists]|by eexists].
    + rewrite !lookup_insert_ne by done. apply I7.
  - split; [|split_and!; [done| |done]; apply (later_intro _ _ [] []); rewrite ?app_nil_r; eauto]. pose proof (pending_insert st id r Hn). unfold pending in *. simpl. lia.
Qed.

Lemma other_goes_on st qs n c out :
  threads_ok st qs n → by_token st c → call_ok (sys st) c → fits_in (n + pending st + adds c) →
  other c st = Some out → goes_on st qs (n + pending st + adds c) out.
Proof.
  intros [I1 I2 I3 I4 I5 I6 I7] Hb Hc Hfit Hs.
  assert (c ≠ NewProducer false) as Hne by (intros ->; done).
  assert (out = ('(s, a) ← exec (sys st) c; Ok (State s (hashing st) (implicits st) (requests st), Answer c a))) as ->.
  { destruct c as [[]| | | | | | | | | | | |]; first [done|by injection Hs as <-]. }
  destruct (exec_serves _ _ _ _ I1 Hc) as (s' & a & qs' & Hr & Hsv & S' & _); [eapply fits_in_less; [|done]; lia|].
  destruct (exec_kinds _ _ _ _ Hr Hb Hne) as [K1 K2]. rewrite Hr, bind_ok.
  exists (State s' (hashing st) (implicits st) (requests st)), (Answer c a), qs', (n + adds c)%nat.
  split; [done|]. split; [split; try done|].
  - intros i. unfold its_queue. simpl. rewrite I5. split; intros (t & Ht); exists t; by apply K1.
  - intros i b t Hi%K1. by eapply I6.
  - split; [unfold pending; simpl; unfold pending in *; lia|]. split; [done|].
    split; [by apply (later_intro _ _ [] []); rewrite ?app_nil_r|]. destruct c; try done; destruct (explicit_face _ _ Hb) as (b & t & Hi); by eapply K2.
Qed.

(** The thread stays in its method. *)
Lemma requests_kept st h id th th' p :
  (∀ id, is_Some (requests st !! id) ↔ ∃ th, McHash.threads (hashing st) !! id = Some th ∧ is_Some (McHash.at_ th)) →
  McHash.threads (hashing st) !! id = Some th → McHash.at_ th = Some p →
  McHash.threads h = <[id := th']> (McHash.threads (hashing st)) → is_Some (McHash.at_ th') →
  ∀ id, is_Some (requests st !! id) ↔ ∃ th, McHash.threads h !! id = Some th ∧ is_Some (McHash.at_ th).
Proof.
  intros Hr Hth Hp Hh Ht' id'. rewrite Hr, Hh. destruct (decide (id' = id)) as [->|Hne].
  - rewrite lookup_insert_eq. split; intros _; [by exists th'|exists th; split; [done|by eexists]].
  - by rewrite lookup_insert_ne.
Qed.

Lemma quiet_goes_on st qs n id a h th p :
  threads_ok st qs n → McHash.threads (hashing st) !! id = Some th → McHash.at_ th = Some p →
  match p with McHash.Create _ _ | McHash.Returning _ => False | _ => True end →
  a ≠ McHash.Grown false → McHash.step (hashing st) (McHash.Act id a) = Some h →
  goes_on st qs (n + pending st) (Ok (State (sys st) h (implicits st) (requests st), Silent)).
Proof.
  intros [I1 (tk & ow & I2) I3 I4 I5 I6 I7] Hth Hp Hq Hg Hs.
  destruct (hash_act _ _ _ _ _ _ Hth Hp Hs) as ((th' & Ht & Hat) & Hret & Hpr).
  exists (State (sys st) h (implicits st) (requests st)), Silent, qs, n.
  split; [done|]. split; [split; try done|].
  - exact (McHash.hash_step_inv _ _ _ _ _ I2 (act_grows id a Hg) Hs).
  - simpl. rewrite Hpr, <- I3. by destruct p.
  - apply (requests_kept st h id th th' p I7 Hth Hp Ht). by destruct p.
  - split; [done|]. split; [done|]. split; [|done]. eapply (later_intro _ _ _ []); [exact Hret|by rewrite app_nil_r|eauto].
Qed.

Lemma told_ok st id th main newCount b :
  (∃ tk ow, McHash.inv tk ow (hashing st)) →
  McHash.threads (hashing st) !! id = Some th → McHash.at_ th = Some (McHash.Create main newCount) →
  ∃ h th', told id b (hashing st) = Ok h ∧ (∃ tk ow, McHash.inv tk ow h) ∧
    McHash.threads h = <[id := th']> (McHash.threads (hashing st)) ∧ is_Some (McHash.at_ th') ∧
    McHash.returned h = McHash.returned (hashing st) ∧
    McHash.producers (McHash.sh h) = ((if b then 1 else 0) + McHash.producers (McHash.sh (hashing st)))%nat.
Proof.
  intros (tk & ow & I) Hth Hp. unfold told.
  destruct (McHash.step (hashing st) (McHash.Act id (McHash.Allocated b))) as [h|] eqn:Hs.
  - destruct (hash_act _ _ _ _ _ _ Hth Hp Hs) as ((th' & Ht & Hat) & Hret & Hpr). exists h, th'.
    split; [done|]. split; [by apply (McHash.hash_step_inv _ _ _ _ _ I (act_grows id (McHash.Allocated b) ltac:(done)) Hs)|]. split; [done|]. split; [done|].
    split; [by rewrite Hret, app_nil_r|]. rewrite Hpr. by destruct b.
  - exfalso. unfold McHash.step in Hs. rewrite Hth in Hs. simpl in Hs. rewrite Hp in Hs. simpl in Hs. by destruct b.
Qed.

Lemma create_goes_on st qs n id main newCount th :
  threads_ok st qs n → McHash.threads (hashing st) !! id = Some th → McHash.at_ th = Some (McHash.Create main newCount) →
  S (length (producers (its_queue st))) < 2 ^ 32 →
  goes_on st qs (n + pending st) (create_producer id main st).
Proof.
  intros [I1 I2 I3 I4 I5 I6 I7] Hth Hp Hlen.
  destruct (producers_ok _ _ _ (NewProducer false) I1 Hlen Logic.I) as (s' & a & qs' & Hr & Hsv & S' & _).
  cbn [exec] in Hr. apply bind_inv_ok in Hr as ([[q o] r] & Hr & [= <- <-]).
  destruct (McTokens.recycle_faces (λ _, True) _ _ _ _ _ Hr) as [_ Hf].
  unfold create_producer. unfold its_queue in *. rewrite Hr, bind_ok. destruct o as [i|].
  - destruct r; [destruct Hf as (t & Hi & _); by specialize (I6 _ _ _ Hi)|]. destruct Hf as [-> Hf].
    destruct (told_ok st id th main newCount true I2 Hth Hp) as (h & th' & -> & Hh & Ht & Hat & Hret & Hpr). rewrite !bind_ok.
    set (fs := McTokens.faces (the_queue (sys st))) in *.
    assert (length fs ∉ implicits st) as Hfresh.
    { intros (t & Hi)%I5. apply lookup_lt_Some in Hi. lia. }
    do 4 eexists. split; [reflexivity|]. split; [split; simpl|]; try done.
    + rewrite Hpr, I3, length_app. simpl. lia.
    + apply NoDup_app. split; [done|]. split; [|apply NoDup_singleton]. by intros x Hx ->%list_elem_of_singleton.
    + intros j. unfold its_queue. simpl. rewrite Hf, elem_of_app, list_elem_of_singleton, I5. split.
      * intros [(t & Hj)| ->]; [exists t; by apply lookup_app_l_Some|exists None; by apply list_lookup_middle].
      * intros (t & [[_ Hj]|[-> _]]%lookup_snoc_Some); [left; by exists t|by right].
    + intros j b t. unfold its_queue. simpl. rewrite Hf. intros [[_ Hj]|[_ [= <- _]]]%lookup_snoc_Some; [by eapply I6|done].
    + by apply (requests_kept st h id th th' _ I7 Hth Hp Ht).
    + split; [done|]. split; [done|]. split; [|done].
      apply (later_intro _ _ [] [length fs]); [by rewrite app_nil_r|done|].
      intros j b t Hj. exists b, t. unfold its_queue in *. simpl. rewrite Hf. by apply lookup_app_l_Some.
  - destruct (told_ok st id th main newCount false I2 Hth Hp) as (h & th' & -> & Hh & Ht & Hat & Hret & Hpr). rewrite !bind_ok.
    do 4 eexists. split; [reflexivity|]. split; [split; simpl|]; try done; unfold its_queue; simpl; rewrite ?Hf; try done.
    + by rewrite Hpr.
    + by apply (requests_kept st h id th th' _ I7 Hth Hp Ht).
    + split; [done|]. split; [done|]. split; [|done].
      apply (later_intro _ _ [] []); rewrite ?app_nil_r; [done..|]. unfold its_queue. simpl. rewrite Hf. eauto.
Qed.

(** What a thread is told is the number of an implicit producer. *)
Lemma producer_at_ok st qs n id th o :
  threads_ok st qs n → McHash.threads (hashing st) !! id = Some th → McHash.at_ th = Some (McHash.Returning o) →
  match o with
  | None => producer_at o st = Ok None
  | Some k => ∃ i t, producer_at o st = Ok (Some i) ∧ implicits st !! k = Some i ∧
      McTokens.faces (its_queue st) !! i = Some (false, false, t)
  end.
Proof.
  intros I Hth Hp. destruct o as [k|]; [|done]. destruct (t_hash _ _ _ I) as (tk & ow & J).
  destruct (McHash.inv_pc _ _ _ J _ _ _ Hth Hp) as [Ho _]. destruct (McHash.inv_owner _ _ _ J _ _ Ho) as [Hk _].
  rewrite (t_made _ _ _ I) in Hk. destruct (lookup_lt_is_Some_2 _ _ Hk) as [i Hi].
  assert (i ∈ implicits st) as (t & Ht)%(t_implicit _ _ _ I) by by eapply list_elem_of_lookup_2.
  exists i, t. simpl. by rewrite Hi.
Qed.

Lemma request_call_ok st i r t :
  McTokens.faces (its_queue st) !! i = Some (false, false, t) → call_ok (sys st) (request_call i r).
Proof.
  unfold McTokens.faces. rewrite list_lookup_fmap. destruct (producers (its_queue st) !! i) as [nd|] eqn:Hi; [|done].
  intros [= Hx _ _]. by destruct r; exists nd; (split; [done|]); rewrite Hx.
Qed.

(** The request of [id] is answered and forgotten. *)
Lemma requests_done st h id th' :
  (∀ id, is_Some (requests st !! id) ↔ ∃ th, McHash.threads (hashing st) !! id = Some th ∧ is_Some (McHash.at_ th)) →
  McHash.threads h = <[id := th']> (McHash.threads (hashing st)) → McHash.at_ th' = None →
  ∀ id', is_Some (delete id (requests st) !! id') ↔ ∃ th, McHash.threads h !! id' = Some th ∧ is_Some (McHash.at_ th).
Proof.
  intros Hr Hh Ht' id'. rewrite Hh. destruct (decide (id' = id)) as [->|Hne].
  - rewrite lookup_delete_eq, lookup_insert_eq. split; [by intros [? ?]|]. intros (th & [= <-] & Hs).
    rewrite Ht' in Hs. by apply is_Some_None in Hs.
  - by rewrite lookup_delete_ne, lookup_insert_ne.
Qed.

Lemma finish_goes_on st qs n id th o a h r :
  threads_ok st qs n → McHash.threads (hashing st) !! id = Some th → McHash.at_ th = Some (McHash.Returning o) →
  a ≠ McHash.Grown false → McHash.step (hashing st) (McHash.Act id a) = Some h → requests st !! id = Some r →
  fits_in (n + pending st) → goes_on st qs (n + pending st) (finish id r o h st).
Proof.
  intros I Hth Hp Hg Hs Hr Hfit. pose proof (producer_at_ok _ _ _ _ _ _ I Hth Hp) as Ho.
  destruct I as [I1 (tk & ow & I2) I3 I4 I5 I6 I7].
  pose proof (McHash.hash_step_inv _ _ _ _ _ I2 (act_grows id a Hg) Hs) as I2'.
  destruct (hash_act _ _ _ _ _ _ Hth Hp Hs) as ((th' & Ht & Hat) & Hret & Hpr).
  pose proof (pending_delete _ _ _ Hr) as Hpend. unfold finish. destruct o as [k|].
  - destruct Ho as (i & t & -> & Hi & Hf). rewrite bind_ok.
    destruct (exec_serves _ _ _ (request_call i r) I1 (request_call_ok _ _ r _ Hf)) as (s' & ans & qs' & Hx & Hsv & S' & _).
    { eapply fits_in_less; [|done]. destruct r; unfold size in *; simpl in *; lia. }
    assert (∃ q res, (match r with
        | Item canAlloc throws x => inner_enqueue_implicit canAlloc throws (Some i) x (its_queue st)
        | Items canAlloc xs throws => inner_enqueue_bulk_implicit canAlloc (Some i) xs throws (its_queue st)
        end) = Ok (q, res) ∧ s' = with_queue (sys st) q ∧ ans = Added res) as (q & res & -> & -> & ->).
    { destruct r; cbn [request_call exec] in Hx; apply bind_inv_ok in Hx as ([q res] & Hx & [= <- <-]); by exists q, res. }
    assert (McTokens.faces q = McTokens.faces (its_queue st)) as Hfs.
    { apply (McTokens.exec_calm (λ _, True) _ _ _ _ Hx); by destruct r. }
    rewrite bind_ok. do 4 eexists. split; [reflexivity|]. split; [split; simpl|]; try done; unfold its_queue; simpl; rewrite ?Hfs; try done.
    + by rewrite Hpr.
    + by eapply requests_done.
    + split; [unfold pending in *; simpl; destruct r; unfold size in *; simpl in *; lia|]. split; [done|]. split.
      * eapply (later_intro _ _ _ []); [exact Hret|by rewrite app_nil_r|]. unfold its_queue. simpl. rewrite Hfs. eauto.
      * exists k. simpl. rewrite Hret. split; [|done]. apply elem_of_app. right. left.
  - rewrite Ho, bind_ok. assert ((match r with
        | Item canAlloc throws x => inner_enqueue_implicit canAlloc throws None x (its_queue st)
        | Items canAlloc xs throws => inner_enqueue_bulk_implicit canAlloc None xs throws (its_queue st)
        end) = Ok (its_queue st, Returned false)) as -> by by destruct r.
    rewrite bind_ok. do 2 eexists. exists qs, n. split; [reflexivity|]. split; [split; simpl|]; try done.
    + assert (with_queue (sys st) (its_queue st) = sys st) as -> by (unfold its_queue; by destruct (sys st)). done.
    + by rewrite Hpr.
    + by eapply requests_done.
    + split; [unfold pending in *; simpl; lia|]. split; [done|]. split; [|done].
      eapply (later_intro _ _ _ []); [exact Hret|by rewrite app_nil_r|eauto].
Qed.

Lemma step_goes_on st qs n l out :
  threads_ok st qs n → label_ok st l → fits_in (n + pending st + label_adds l) → step st l = Some out →
  goes_on st qs (n + pending st + label_adds l) out.
Proof.
  intros I Hl Hfit Hs. destruct l as [id r|id a|c]; cbn [step label_adds] in *.
  - by eapply begin_goes_on.
  - destruct Hl as [Hg Hl]. rewrite Nat.add_0_r in *. unfold access in Hs. apply bind_Some in Hs as (th & Hth & Hs). apply bind_Some in Hs as (p & Hp & Hs).
    destruct p; try (apply bind_Some in Hs as (h' & Hh & [= <-]); by eapply quiet_goes_on).
    + injection Hs as <-. by eapply create_goes_on.
    + apply bind_Some in Hs as (h & Hh & Hs). apply bind_Some in Hs as (r & Hr & [= <-]). by eapply finish_goes_on.
  - destruct Hl. by eapply other_goes_on.
Qed.

Lemma run_goes_on ls : ∀ st qs n out,
  threads_ok st qs n → labels_ok st ls → fits_in (n + pending st + sum_list (label_adds <$> ls)) → run st ls = Some out →
  ∃ st' es qs' n', out = Ok (st', es) ∧ threads_ok st' qs' n' ∧ later st st' ∧
    serves_all qs (calls es).*1 (calls es).*2 qs' ∧ Forall (event_ok st') es.
Proof.
  induction ls as [|l ls IH]; intros st qs n out I Hl Hfit Hr; cbn [run] in Hr.
  { injection Hr as <-. exists st, [], qs, n. split_and!; try done; constructor. }
  apply bind_Some in Hr as (r & Hs & Hr). destruct Hl as [Hl Hls]. rewrite fmap_cons in Hfit. cbn [sum_list] in Hfit.
  destruct (step_goes_on st qs n l r I Hl) as (st1 & e & qs1 & n1 & -> & I1 & Hn & Hsv & Hlat & He); [|done|].
  { eapply fits_in_less; [|done]. unfold id. lia. }
  apply bind_Some in Hr as (out' & Hr & [= <-]).
  destruct (IH st1 qs1 n1 out' I1 (Hls _ _ Hs)) as (st2 & es & qs2 & n2 & -> & I2 & Hlat2 & Hsv2 & Hes); [|done|].
  { eapply fits_in_less; [|done]. unfold id. lia. }
  rewrite bind_ok. exists st2, (e :: es), qs2, n2. split; [done|]. split; [done|]. split; [by etransitivity|]. split.
  - unfold served in Hsv. unfold calls. cbn [omap list_omap]. destruct (on_queue e) as [[c a]|]; [|by subst].
    rewrite !fmap_cons. by econstructor.
  - constructor; [by eapply event_ok_later|done].
Qed.

(** ** One producer for each thread *)

(** The producer of a thread, according to what its calls of
    [get_or_add_implicit_producer] returned. *)
Definition own (st : state) (id : Z) : option nat :=
  '(_, (_, o)) ← list_find (λ r, r.1 = id ∧ r.2 ≠ None) (McHash.returned (hashing st));
  k ← o; implicits st !! k.

Lemma own_of st qs n id k i :
  threads_ok st qs n → (id, Some k) ∈ McHash.returned (hashing st) → implicits st !! k = Some i → own st id = Some i.
Proof.
  intros I Hin Hi. destruct (t_hash _ _ _ I) as (tk & ow & J). unfold own.
  destruct (list_find_elem_of (λ r, r.1 = id ∧ r.2 ≠ None) _ _ Hin) as [[j [id' o]] Hf]; [done|]. rewrite Hf. simpl.
  apply list_find_Some in Hf as (Hj & [Hid Ho] & _). simpl in *. subst id'. destruct o as [k'|]; [|done]. simpl.
  pose proof (McHash.inv_returned _ _ _ J _ _ Hin _ eq_refl).
  pose proof (McHash.inv_returned _ _ _ J _ _ (list_elem_of_lookup_2 _ _ _ Hj) _ eq_refl). congruence.
Qed.

Lemma own_inv st qs n id i :
  threads_ok st qs n → own st id = Some i →
  ∃ k, implicits st !! k = Some i ∧ ∀ tk ow, McHash.inv tk ow (hashing st) → ow !! id = Some k.
Proof.
  intros I Ho. unfold own in Ho. apply bind_Some in Ho as ([j [id' o]] & Hf & Ho). apply bind_Some in Ho as (k & -> & Hk).
  apply list_find_Some in Hf as (Hj & [Hid _] & _). simpl in Hid. subst id'. exists k. split; [done|]. intros tk ow J.
  by apply (McHash.inv_returned _ _ _ J _ _ (list_elem_of_lookup_2 _ _ _ Hj)).
Qed.

Lemma own_injective st qs n id1 id2 i :
  threads_ok st qs n → own st id1 = Some i → own st id2 = Some i → id1 = id2.
Proof.
  intros I (k1 & Hk1 & H1')%(own_inv _ _ _ _ _ I) (k2 & Hk2 & H2')%(own_inv _ _ _ _ _ I).
  destruct (t_hash _ _ _ I) as (tk & ow & J). assert (k1 = k2) as -> by (by eapply NoDup_lookup; [apply (t_nodup _ _ _ I)|..]).
  by eapply (McHash.inv_owners _ _ _ J); [apply (H1' tk ow)|apply (H2' tk ow)].
Qed.

Lemma own_explicit st qs n id i b t :
  threads_ok st qs n → own st id = Some i → McTokens.faces (its_queue st) !! i ≠ Some (true, b, t).
Proof.
  intros I (k & Hk & _)%(own_inv _ _ _ _ _ I) Hf.
  assert (i ∈ implicits st) as (t' & Ht)%(t_implicit _ _ _ I) by by eapply list_elem_of_lookup_2. congruence.
Qed.

Lemma event_sent st qs n id i e :
  threads_ok st qs n → event_ok st e → own st id = Some i →
  accepted_in id e = match on_queue e with Some (c, a) => sent i c a | None => [] end.
Proof.
  intros I He Ho. destruct e as [|o rc|id' r [j|] res|c a]; simpl in *; try done.
  - destruct He as (k & Hk & Hj). pose proof (own_of _ _ _ _ _ _ I Hk Hj) as Ho'.
    assert (id' = id ↔ j = i) as Hiff.
    { split; [intros ->; congruence|intros ->; by eapply own_injective]. }
    destruct res as [[]|]; [|by destruct r..].
    destruct r; simpl; repeat case_decide; naive_solver.
  - by subst res.
  - destruct c; try done; simpl; destruct He as (b & t & Hf); destruct a as [| |[[]|]| | |]; try done;
      (case_decide; [|done]); subst; exfalso; by eapply own_explicit.
Qed.

Lemma accepted_sent st qs n id i es :
  threads_ok st qs n → Forall (event_ok st) es → own st id = Some i →
  accepted id es = all_sent i (calls es).*1 (calls es).*2.
Proof.
  intros I He Ho. unfold accepted, calls. induction He as [|e es He _ IH]; [done|].
  rewrite fmap_cons. cbn [concat omap list_omap]. rewrite IH, (event_sent _ _ _ _ _ _ I He Ho).
  by destruct (on_queue e) as [[c a]|].
Qed.

Lemma accepted_nothing st qs n id es :
  threads_ok st qs n → Forall (event_ok st) es → own st id = None → accepted id es = [].
Proof.
  intros I He Ho. unfold accepted. induction He as [|e es He _ IH]; [done|].
  rewrite fmap_cons. cbn [concat]. rewrite IH, app_nil_r.
  destruct e as [|o rc|id' r [j|] res|c a]; simpl in *; try done; [|by subst res].
  destruct res as [[]|]; try done. case_decide; [|done]. subst. destruct He as (k & Hk & Hj).
  rewrite (own_of _ _ _ _ _ _ I Hk Hj) in Ho. done.
Qed.
End threads.

Import McBlock McPool McConcurrentQueue.

Section queue.
Context `{Traits} `{McProducerBase.Element} `{Quota} `{!McMove.HashSize} {T : Type}.
Implicit Types (ls : list (label (T := T))).

(** [ConcurrentQueue(capacity)], and the threads with these identifiers. *)
Definition started (q : queue (E := pool T) (P := McProducerBase.sub)) (ids : list Z) : state (T := T) :=
  State (System q []) (McHash.create McMove.INITIAL_IMPLICIT_PRODUCER_HASH_SIZE ids) [] ∅.
Definition start (capacity : Z) (mallocs : list bool) (ids : list Z) :
    result (state (E := pool T) (P := McProducerBase.sub) (T := T)) :=
  q ← construct capacity mallocs; Ok (started q ids).

Context `{!TraitsOk}.

#[local] Instance kinds_keep : McTokens.Keeps (E := pool T) (P := McProducerBase.sub) (T := T) (λ _, True).
Proof.
  constructor.
  - intros x e e' o Hr. split; [done|]. by apply (McTokens.create_keeps (McOrigin.sourced 0) _ _ _ _ Hr).
  - intros ca th x e p e' p' r Hr. split; [done|]. by apply (McTokens.enqueue_keeps (McOrigin.sourced 0) _ _ _ _ _ _ _ _ Hr).
  - intros ca xs th e p e' p' r Hr. split; [done|]. by apply (McTokens.enqueue_bulk_keeps (McOrigin.sourced 0) _ _ _ _ _ _ _ _ Hr).
  - intros th e p e' p' d Hr. split; [done|]. by apply (McTokens.dequeue_keeps (McOrigin.sourced 0) _ _ _ _ _ _ Hr).
  - intros th max e p e' p' d Hr. split; [done|]. by apply (McTokens.dequeue_bulk_keeps (McOrigin.sourced 0) _ _ _ _ _ _ _ Hr).
Qed.

Lemma create_idle size ids id th : McHash.threads (McHash.create size ids) !! id = Some th → McHash.at_ th = None.
Proof.
  simpl. intros Hin%elem_of_list_to_map_2. apply list_elem_of_fmap in Hin as (id' & [= -> ->] & _). done.
Qed.

Lemma start_threads_ok k capacity ms ids :
  0 <= k <= 34 → McMove.INITIAL_IMPLICIT_PRODUCER_HASH_SIZE = 2 ^ k → NoDup ids → McHash.invalid_thread_id ∉ ids →
  Z.of_nat (length ids) <= 2 ^ 32 → 0 <= capacity <= 2 ^ 31 → threads_ok (started (constructed capacity ms) ids) [] 0.
Proof.
  intros Hk Hs Hnd Hz Hl Hc. split; try done.
  - by apply (constructed_ok _ ms Hc).
  - exists ∅, ∅. unfold started. simpl. rewrite Hs. by apply McHash.hash_create_inv.
  - constructor.
  - intros i. split; [by intros ?%not_elem_of_nil|by intros (t & [=])].
  - intros id. simpl. split; [by intros [? ?]|]. intros (th & Hth & Hat).
    rewrite (create_idle McMove.INITIAL_IMPLICIT_PRODUCER_HASH_SIZE ids id th Hth) in Hat. by apply is_Some_None in Hat.
Qed.

(** C2: threads that enqueue without tokens.  Any number of threads call the methods that
    take no token, their searches of the hash interleaved in any way and the tables growing
    under them, while tokens are used and consumers take elements.  Nothing undefined
    happens; every thread has a producer of its own, which it shares with no other thread
    and no token; and when no consumer's assignment throws, the elements a thread was told
    are in the queue are, in the order in which it enqueued them, those handed out from
    its producer followed by those still there.  As long as no allocation of a larger hash
    table fails, after which a thread can get a second producer; calls with tokens
    do not throw on the way to a producer and their bulks are not refused. *)
Theorem threads_fifo k capacity ms ids ls out :
  0 <= k <= 34 → McMove.INITIAL_IMPLICIT_PRODUCER_HASH_SIZE = 2 ^ k → NoDup ids → McHash.invalid_thread_id ∉ ids →
  Z.of_nat (length ids) <= 2 ^ 32 → 0 <= capacity <= 2 ^ 31 →
  BLOCK_SIZE * sum_list (label_adds <$> ls) < 2 ^ 62 →
  ∃ st0, start capacity ms ids = Ok st0 ∧
    (labels_ok st0 ls → run st0 ls = Some out →
     ∃ st es qs, out = Ok (st, es) ∧ serves_all [] (calls es).*1 (calls es).*2 qs ∧
       (Forall (λ a, loses a = false) (calls es).*2 →
        ∃ (tagged : list (nat * T)) (mine : Z → option nat),
          all_received (calls es).*2 = tagged.*2 ∧
          (∀ id1 id2 i, mine id1 = Some i → mine id2 = Some i → id1 = id2) ∧
          ∀ id, accepted id es = match mine id with Some i => from i tagged ++ content i qs | None => [] end)).
Proof.
  intros Hk Hs Hnd Hz Hl Hc Hfit. exists (started (constructed capacity ms) ids).
  split; [unfold start; by rewrite construct_small|]. intros Hls Hr.
  pose proof (start_threads_ok k capacity ms ids Hk Hs Hnd Hz Hl Hc) as I0.
  destruct (run_goes_on ls _ _ _ out I0 Hls) as (st & es & qs & n & -> & I & _ & Hsv & Hes); [exact Hfit|done|].
  exists st, es, qs. split; [done|]. split; [done|]. intros Hlost.
  destruct (serves_all_tagged _ _ _ _ Hsv Hlost) as (tagged & Ht & Hi). exists tagged, (own st).
  split; [done|]. split; [intros id1 id2 i; by apply (own_injective st qs n)|]. intros id. destruct (own st id) as [i|] eqn:Ho.
  - rewrite (accepted_sent _ _ _ _ _ _ I Hes Ho). apply Hi.
  - by apply (accepted_nothing _ _ _ _ _ I Hes).
Qed.
End queue.

(** ** Example: blocks of 4 elements, a table of 2 slots *)

#[local] Existing Instance McImplicit.small.
#[local] Existing Instance McImplicit.small_ok.
#[local] Existing Instance no_exceptions.
#[local] Existing Instance quota_4.
#[local] Instance two_slots : McMove.HashSize := 2.

(** Labels, and turns of threads whose accesses see the current values. *)
Fixpoint follow (st : state (E := pool Z) (P := McProducerBase.sub) (T := Z)) (plan : list (label (T := Z) + Z)) :
    list (label (T := Z)) :=
  match plan with
  | [] => []
  | x :: plan =>
      let l := match x with
        | inl l => l
        | inr id =>
            Access id (default McHash.Go
              (McHash.current_answer (McHash.sh (hashing st)) <$> (McHash.threads (hashing st) !! id ≫= McHash.at_)))
        end in
      l :: match step st l with Some (Ok (st, _)) => follow st plan | _ => [] end
  end.

Definition turns_of (l : list Z) : list (label (T := Z) + Z) := inr <$> l.

(** Threads 5 and 9 make their producers side by side, and the table grows; producer 2 has
    a token; thread 5 comes back. *)
Definition plan : list (label (T := Z) + Z) :=
  [inl (Begin 5 (enqueue_bulk [1; 2; 3; 4; 5; 6] [])); inl (Begin 9 (enqueue false 100))] ++
  turns_of [5; 9; 5; 9; 5; 9; 5; 9; 5; 9; 5; 9; 5; 9; 5; 9; 5; 9; 5; 9; 5; 9; 5; 9; 5; 9; 9; 9; 9; 9] ++
  [inl (Other (NewProducer true)); inl (Other (enqueue_with 2 false 50)); inl (Other NewConsumer);
   inl (Begin 5 (try_enqueue false 7))] ++ turns_of [5; 5; 5; 5; 5; 5; 5; 5; 5] ++
  [inl (Other (TryDequeueToken 0 false)); inl (Other (TryDequeue false)); inl (Other (TryDequeueBulk 4 []))].
Definition first_state : state (E := pool Z) (P := McProducerBase.sub) (T := Z) := started (constructed 5 []) [5; 9; 12].
Definition labels : list (label (T := Z)) := follow first_state plan.

Definition shown (e : event (T := Z)) : bool := match e with Silent => false | _ => true end.
Definition outcome : option (list (event (T := Z)) * list Z * list Z) :=
  match run first_state labels with
  | Some (Ok (st, es)) =>
      Some (List.filter shown es, accepted 5 es, McHash.capacity <$> McHash.hashes (McHash.sh (hashing st)))
  | _ => None
  end.

Definition expected : option (list (event (T := Z)) * list Z * list Z) :=
  Some ([Made (Some 0%nat) false; Reply 5 (Items true [1; 2; 3; 4; 5; 6] []) (Some 0%nat) (Returned true);
         Made (Some 1%nat) false; Reply 9 (Item true false 100) (Some 1%nat) (Returned true);
         Answer (NewProducer true) (Created (Some 2%nat) false); Answer (Enqueue 2 true false 50) (Added (Returned true));
         Answer NewConsumer Done; Reply 5 (Item false false 7) (Some 0%nat) (Returned true);
         Answer (TryDequeueToken 0 false) (One (Got 50)); Answer (TryDequeue false) (One (Got 1));
         Answer (TryDequeueBulk 4 []) (Many (GotMany [100; 2; 3; 4]))], [1; 2; 3; 4; 5; 6; 7], [2; 4; 8]).

Ltac label_is_ok :=
  lazymatch goal with
  | |- explicit_at _ _ => eexists; split; reflexivity
  | |- ∃ n, _ ∧ _ => eexists; split; [reflexivity|]; label_is_ok
  | |- _ → _ => intros _; label_is_ok
  | |- _ ∧ _ => split; label_is_ok
  | |- True => exact I
  | |- (_ < _)%nat => vm_compute; lia
  | |- _ ≠ _ => discriminate
  | |- _ => reflexivity
  end.
Ltac labels_are_ok :=
  lazymatch goal with
  | |- labels_ok _ [] => exact I
  | |- labels_ok _ _ =>
      split; [cbn [label_ok by_token call_ok]; label_is_ok|
        let Hx := fresh in intros ? ? Hx; vm_compute in Hx; injection Hx as <- <-; labels_are_ok]
  end.

Lemma labels_fine : labels_ok first_state labels.
Proof.
  let l := eval vm_compute in labels in assert (labels = l) as -> by (vm_compute; reflexivity).
  labels_are_ok.
Qed.

Lemma threads_fifo_witness :
  outcome = expected ∧
  ∃ out st es qs, run first_state labels = Some out ∧ out = Ok (st, es) ∧ serves_all [] (calls es).*1 (calls es).*2 qs ∧
    (Forall (λ a, loses a = false) (calls es).*2 →
     ∃ (tagged : list (nat * Z)) (mine : Z → option nat),
       all_received (calls es).*2 = tagged.*2 ∧
       (∀ id1 id2 i, mine id1 = Some i → mine id2 = Some i → id1 = id2) ∧
       ∀ id, accepted id es = match mine id with Some i => from i tagged ++ content i qs | None => [] end).
Proof.
  split; [vm_compute; reflexivity|]. assert (is_Some (run first_state labels)) as [out Hr] by (vm_compute; by eexists).
  destruct (threads_fifo 1 5 [] [5; 9; 12] labels out) as (st0 & Hst0 & Hrun).
  - lia.
  - reflexivity.
  - by apply (bool_decide_unpack (NoDup _)).
  - by apply (bool_decide_unpack (McHash.invalid_thread_id ∉ [5; 9; 12])).
  - by vm_compute.
  - lia.
  - by vm_compute.
  - assert (st0 = first_state) as -> by (unfold start in Hst0; rewrite construct_small in Hst0 by lia; by injection Hst0 as <-).
    destruct (Hrun labels_fine Hr) as (st & es & qs & ? & ? & ?). exists out, st, es, qs. split_and!; assumption.
Defined.
End McThreads.
