(* ===== verification/LightweightSemaphore.v ===== *)
(** * The semaphores of [BlockingConcurrentQueue]

    [mpmc_sema::Semaphore] on POSIX and [mpmc_sema::LightweightSemaphore]
    (blockingconcurrentqueue.h).  Any number of threads wait and signal; a step
    is one access to [m_count] or one call into the operating system's
    semaphore, each with every answer it may give. *)
From S2P Require Import Prelude.
Local Open Scope Z_scope.

Module LightweightSemaphore.

(** ** [Semaphore], the POSIX wrapper *)

(** What a [sem_*] call answers: 0, or -1 with [errno]. *)
Inductive errno := EINTR | EAGAIN | ETIMEDOUT.
Inductive rc := Success | Failed (e : errno).

#[global] Instance errno_eq_dec : EqDecision errno.
Proof. solve_decision. Defined.
#[global] Instance rc_eq_dec : EqDecision rc.
Proof. solve_decision. Defined.

Definition SEM_VALUE_MAX : Z := INT_MAX.

(** [sem_post]; the wrapper ignores [EOVERFLOW]. *)
Definition sem_post (v : Z) : Z := if v <? SEM_VALUE_MAX then v + 1 else v.

(** The value after a [sem_*wait] that answers [r], if it can. *)
Definition sem_take (can_fail : errno → bool) (v : Z) (r : rc) : option Z :=
  match r with
  | Success => if 0 <? v then Some (v - 1) else None
  | Failed e => if can_fail e then Some v else None
  end.
Definition sem_wait := sem_take (λ e, bool_decide (e = EINTR)).
Definition sem_trywait (v : Z) :=
  sem_take (λ e, bool_decide (e = EINTR) || (bool_decide (e = EAGAIN) && (v =? 0))) v.
Definition sem_timedwait := sem_take (λ e, bool_decide (e = EINTR ∨ e = ETIMEDOUT)).

(** [while (rc == -1 && errno == EINTR)] *)
Definition interrupted (r : rc) : bool := bool_decide (r = Failed EINTR).
(** The values [try_wait] and [timed_wait] return. *)
Definition try_wait_value (r : rc) : bool := negb (bool_decide (r = Failed EAGAIN)).
Definition timed_wait_value (r : rc) : bool := negb (bool_decide (r = Failed ETIMEDOUT)).

(** The absolute deadline [timed_wait] computes from the clock. *)
Record timespec := TS { tv_sec : Z; tv_nsec : Z }.
Definition usecs_in_1_sec : Z := 1000000.
Definition nsecs_in_1_sec : Z := 1000000000.
Definition deadline (now : timespec) (usecs : Z) : timespec :=
  let sec := tv_sec now + usecs / usecs_in_1_sec in
  let nsec := tv_nsec now + u64 (u64 (usecs mod usecs_in_1_sec) * 1000) in
  if nsecs_in_1_sec <=? nsec then TS (sec + 1) (nsec - nsecs_in_1_sec) else TS sec nsec.

(** ** [LightweightSemaphore] *)

(** Stores into the atomic [ssize_t] wrap. *)
Definition SSIZE_MAX : Z := 2 ^ 63 - 1.
Definition ssize (x : Z) : Z := (x + 2 ^ 63) mod 2 ^ 64 - 2 ^ 63.
(** [(int)x] *)
Definition to_int (x : Z) : Z := (x + 2 ^ 31) mod 2 ^ 32 - 2 ^ 31.

(** The public calls; a negative timeout waits for ever. *)
Inductive call :=
  | tryWait
  | wait_forever
  | wait (timeout_usecs : Z)
  | tryWaitMany (max : Z)
  | waitMany (max timeout_usecs : Z)
  | waitMany_forever (max : Z)
  | signal (count : Z).

(** [*WithPartialSpinning] for one permit and for many. *)
Inductive amount := One | Many (max : Z).

(** The count a successful compare-exchange leaves. *)
Definition newCount (w : amount) (oldCount : Z) : Z :=
  match w with
  | One => oldCount - 1
  | Many max => if max <? oldCount then oldCount - max else 0
  end.

(** Where a thread is. *)
Inductive pc :=
  (* tryWait, tryWaitMany: [base] permits were acquired before; with
     [next = Some t] a failure goes on to wait with timeout [t] *)
  | TryLoad (w : amount) (next : option Z) (base : Z)
  | TryCas (w : amount) (next : option Z) (base oldCount : Z)
  (* the spinning loop, with [spin] iterations after this one *)
  | Spin (w : amount) (t : Z) (spin : nat)
  | SpinCas (w : amount) (t : Z) (spin : nat) (oldCount : Z)
  | FetchSub (w : amount) (t : Z)
  | InSema (w : amount) (t : Z)
  (* the loop after a timeout *)
  | AdjLoad (w : amount)
  | AdjTry (w : amount)
  | AdjCas (w : amount) (oldCount : Z)
  (* signal *)
  | FetchAdd (count : Z)
  | Posting (left : Z)
  | Returning (r : Z).

Definition start (c : call) : pc :=
  match c with
  | tryWait => TryLoad One None 0
  | wait_forever => TryLoad One (Some (-1)) 0
  | wait t => TryLoad One (Some t) 0
  | tryWaitMany max => TryLoad (Many max) None 0
  | waitMany max t => TryLoad (Many max) (Some t) 0
  | waitMany_forever max => TryLoad (Many max) (Some (-1)) 0
  | signal n => FetchAdd n
  end.

(** The assertions on the arguments, and on the result of [waitMany(max)]. *)
Definition args_ok (c : call) : bool :=
  match c with
  | tryWaitMany max | waitMany max _ | waitMany_forever max => 0 <=? max
  | signal n => 0 <=? n
  | _ => true
  end.
Definition result_ok (c : call) (r : Z) : bool :=
  match c with waitMany_forever _ => 0 <? r | _ => true end.

(** [int spin = 10000; while (--spin >= 0)] *)
Definition SPINS : nat := Z.to_nat 10000.
#[global] Opaque SPINS.

Definition spin_next (w : amount) (t : Z) (spin : nat) : pc :=
  match spin with O => FetchSub w t | S n => Spin w t n end.

(** A [tryWait*] that got nothing. *)
Definition try_failed (w : amount) (next : option Z) (base : Z) : pc :=
  match next, w with
  | None, _ => Returning base
  | Some t, Many max => if 0 <? max then spin_next w t SPINS else Returning 0
  | Some t, One => spin_next w t SPINS
  end.
(** [while (oldCount > 0)] *)
Definition try_test (w : amount) (next : option Z) (base oldCount : Z) : pc :=
  if 0 <? oldCount then TryCas w next base oldCount else try_failed w next base.

(** One permit acquired after the spinning loop. *)
Definition acquired (w : amount) : pc :=
  match w with
  | Many max => if 1 <? max then TryLoad (Many (max - 1)) None 1 else Returning 1
  | One => Returning 1
  end.

(** [while (count-- > 0)] *)
Definition posting (n : Z) : pc := if 0 <? n then Posting n else Returning 0.

(** [m_count] with the values it had before, and the value of [m_sema].  A load
    that is not a read-modify-write may return any value the counter has had:
    this includes what the C++ memory model allows. *)
Record shared := Shared { m_count : Z; past : list Z; m_sema : Z }.

Definition set_count (s : shared) (v : Z) : shared :=
  Shared (ssize v) (m_count s :: past s) (m_sema s).
Definition set_sema (s : shared) (v : Z) : shared := Shared (m_count s) (past s) v.

(** What the environment answers in a step. *)
Inductive answer :=
  | Go               (* a read-modify-write takes place, or nothing is asked *)
  | Seen (v : Z)     (* a load, or a compare-exchange that fails, reads [v] *)
  | Sys (r : rc).

Definition visible (s : shared) (v : Z) : bool := bool_decide (v ∈ m_count s :: past s).

Definition advance (s : shared) (p : pc) (a : answer) : option (shared * pc) :=
  match p, a with
  | TryLoad w next base, Seen v =>
      if visible s v then Some (s, try_test w next base v) else None
  | TryCas w next base old, Go =>
      if m_count s =? old
      then Some (set_count s (newCount w old), Returning (base + (old - newCount w old))) else None
  | TryCas w next base old, Seen v =>       (* compare_exchange_weak *)
      if visible s v then Some (s, try_test w next base v) else None
  | Spin w t n, Seen v =>
      if visible s v
      then Some (s, if 0 <? v then SpinCas w t n v else spin_next w t n) else None
  | SpinCas w t n old, Go =>
      if m_count s =? old
      then Some (set_count s (newCount w old), Returning (old - newCount w old)) else None
  | SpinCas w t n old, Seen v =>
      if visible s v && negb (v =? old) then Some (s, spin_next w t n) else None
  | FetchSub w t, Go =>
      let old := m_count s in
      Some (set_count s (old - 1), if 0 <? old then acquired w else InSema w t)
  | InSema w t, Sys r =>
      v ← (if t <? 0 then sem_wait else sem_timedwait) (m_sema s) r;
      Some (set_sema s v,
        if interrupted r then InSema w t
        else if (t <? 0) || timed_wait_value r then acquired w else AdjLoad w)
  | AdjLoad w, Seen v =>
      if visible s v then Some (s, if 0 <=? v then AdjTry w else AdjCas w v) else None
  | AdjTry w, Sys r =>
      v ← sem_trywait (m_sema s) r;
      Some (set_sema s v,
        if interrupted r then AdjTry w else if try_wait_value r then acquired w else AdjLoad w)
  | AdjCas w old, Go =>
      if m_count s =? old then Some (set_count s (old + 1), Returning 0) else None
  | AdjCas w old, Seen v =>
      if visible s v && negb (v =? old) then Some (s, AdjLoad w) else None
  | FetchAdd n, Go =>
      let old := m_count s in
      let toRelease := if - old <? n then - old else n in
      Some (set_count s (old + n),
        if 0 <? toRelease then posting (to_int toRelease) else Returning 0)
  | Posting n, Go => Some (set_sema s (sem_post (m_sema s)), posting (n - 1))
  | _, _ => None
  end.

(** A semaphore and the threads that use it; [None] is a thread outside. *)
Record sema := Sema {
  sh : shared;
  threads : list (option (call * pc));
  log : list (call * Z);            (* the calls that returned, with their results *)
  bad : bool                        (* an assertion failed *)
}.

Definition create (initialCount : Z) (n : nat) : sema :=
  Sema (Shared initialCount [] 0) (replicate n None) [] (negb (0 <=? initialCount)).

Definition availableApprox (count : Z) : Z := if 0 <? count then count else 0.

Inductive label := Begin (i : nat) (c : call) | Act (i : nat) (a : answer).

Definition step (s : sema) (l : label) : option sema :=
  match l with
  | Begin i c =>
      match threads s !! i with
      | Some None =>
          Some (Sema (sh s) (<[i := Some (c, start c)]> (threads s)) (log s)
                     (bad s || negb (args_ok c)))
      | _ => None
      end
  | Act i a =>
      match threads s !! i with
      | Some (Some (c, Returning r)) =>
          Some (Sema (sh s) (<[i := None]> (threads s)) (log s ++ [(c, r)])
                     (bad s || negb (result_ok c r)))
      | Some (Some (c, p)) =>
          '(sh', p') ← advance (sh s) p a;
          Some (Sema sh' (<[i := Some (c, p')]> (threads s)) (log s) (bad s))
      | _ => None
      end
  end.

Fixpoint run (s : sema) (ls : list label) : option sema :=
  match ls with [] => Some s | l :: ls => s' ← step s l; run s' ls end.

(** ** What the semaphore keeps *)

(** The timeout a call waits with, and the permits it may acquire. *)
Definition timeout (c : call) : option Z :=
  match c with
  | wait_forever | waitMany_forever _ => Some (-1)
  | wait t | waitMany _ t => Some t
  | _ => None
  end.
Definition limit_of (w : amount) : Z := match w with One => 1 | Many max => max end.
Definition limit (c : call) : Z :=
  match c with
  | tryWait | wait_forever | wait _ => 1
  | tryWaitMany max | waitMany max _ | waitMany_forever max => max
  | signal _ => 0
  end.

Definition is_signal (c : call) : Prop := match c with signal _ => True | _ => False end.

(** A result within the call's contract. *)
Definition result_in (c : call) (r : Z) : Prop :=
  0 <= r <= limit c ∧ (∀ t, timeout c = Some t → t < 0 → 0 < limit c → 0 < r).

Definition pc_ok (c : call) (p : pc) : Prop :=
  match p with
  | TryLoad w None base | TryCas w None base _ =>
      ¬ is_signal c ∧ 0 <= limit_of w ∧ base + limit_of w = limit c ∧
      (timeout c = None ∧ base = 0 ∨ base = 1)
  | TryLoad w (Some t) base | TryCas w (Some t) base _ =>
      ¬ is_signal c ∧ 0 <= limit_of w ∧ base = 0 ∧ limit_of w = limit c ∧ timeout c = Some t
  | Spin w t _ | SpinCas w t _ _ | FetchSub w t | InSema w t =>
      ¬ is_signal c ∧ 0 < limit_of w ∧ limit_of w = limit c ∧ timeout c = Some t
  | AdjLoad w | AdjTry w | AdjCas w _ =>
      ¬ is_signal c ∧ 0 < limit_of w ∧ limit_of w = limit c ∧ ∃ t, timeout c = Some t ∧ 0 <= t
  | FetchAdd n => c = signal n ∧ 0 <= n
  | Posting n => is_signal c ∧ 0 < n
  | Returning r => result_in c r
  end ∧
  match p with
  | TryCas _ _ _ old | SpinCas _ _ _ old => 0 < old
  | AdjCas _ old => old < 0
  | _ => True
  end.

(** Threads that took their turn and await a permit; permits about to be
    posted; permits acquired; permits signalled. *)
Definition waiting_pc (p : pc) : Z :=
  match p with InSema _ _ | AdjLoad _ | AdjTry _ | AdjCas _ _ => 1 | _ => 0 end.
Definition posts_pc (p : pc) : Z := match p with Posting n => n | _ => 0 end.
Definition held_pc (p : pc) : Z :=
  match p with TryLoad _ _ b | TryCas _ _ b _ => b | Returning r => r | _ => 0 end.
Definition given_pc (c : call) (p : pc) : Z :=
  match c, p with signal n, (Posting _ | Returning _) => n | _, _ => 0 end.
Definition asked (c : call) : Z := match c with signal n => n | _ => 0 end.

Definition of_thread (f : call → pc → Z) (th : option (call * pc)) : Z :=
  match th with Some (c, p) => f c p | None => 0 end.

Definition waiting := zsum (of_thread (λ _, waiting_pc)).
Definition posts := zsum (of_thread (λ _, posts_pc)).
Definition held := zsum (of_thread (λ _, held_pc)).
Definition given := zsum (of_thread given_pc).
Definition owed := zsum (of_thread (λ c _, asked c)).
(** By the calls that returned. *)
Definition acquired_by : list (call * Z) → Z := zsum snd.
Definition signalled_by : list (call * Z) → Z := zsum (asked ∘ fst).

Definition pos (x : Z) : Z := Z.max 0 x.

Lemma ssize_ok x : - 2 ^ 63 <= x < 2 ^ 63 → ssize x = x.
Proof. intros. unfold ssize. rewrite Z.mod_small; lia. Qed.

Lemma to_int_ok x : - 2 ^ 31 <= x < 2 ^ 31 → to_int x = x.
Proof. intros. unfold to_int. rewrite Z.mod_small; lia. Qed.

Section invariant.
Variable (k0 : Z).   (* the initial count *)

(** Every waiting thread has a permit coming or an entry in a negative
    count, and every permit signalled is acquired or still available. *)
Record inv (budget : Z) (s : sema) : Prop := {
  inv_waiting : waiting (threads s) = m_sema (sh s) + posts (threads s) + pos (- m_count (sh s));
  inv_permits :
    k0 + signalled_by (log s) + given (threads s) =
    acquired_by (log s) + held (threads s) +
    pos (m_count (sh s)) + m_sema (sh s) + posts (threads s);
  inv_budget : k0 + signalled_by (log s) + owed (threads s) <= budget;
  inv_sema : 0 <= m_sema (sh s);
  inv_threads : Forall (λ th, match th with Some (c, p) => args_ok c = true ∧ pc_ok c p | None => True end) (threads s);
  inv_log : Forall (λ e, 0 <= asked (fst e) ∧ result_in (fst e) (snd e)) (log s);
  inv_good : bad s = false
}.

Context (s : sema) (budget : Z) (I : inv budget s).
Hypothesis Hthreads : length (threads s) ≤ INT_MAX.
Hypothesis Hbudget : budget <= SSIZE_MAX.

(** A thread's state, and what its step must preserve. *)
Lemma thread_ok i c p : threads s !! i = Some (Some (c, p)) → args_ok c = true ∧ pc_ok c p.
Proof. intros Hi. apply (Forall_lookup_1 _ _ _ _ (inv_threads _ _ I) Hi). Qed.

Lemma waiting_le : waiting (threads s) <= INT_MAX.
Proof.
  etransitivity; [|exact Hthreads]. apply zsum_le_length, Forall_forall.
  intros [[c p]|] _; simpl; [|lia]. destruct p; simpl; lia.
Qed.

Lemma posts_nonneg : Forall (λ th, 0 <= of_thread (λ _, posts_pc) th) (threads s).
Proof.
  eapply Forall_impl; [apply (inv_threads _ _ I)|]. intros [[c p]|]; simpl; [|lia].
  intros [_ [Hp _]]. destruct p; simpl in *; lia.
Qed.

Lemma held_nonneg : 0 <= held (threads s).
Proof.
  apply zsum_nonneg. eapply Forall_impl; [apply (inv_threads _ _ I)|].
  intros [[c p]|]; simpl; [|lia]. intros [_ [Hp _]].
  destruct p as [? [] ?|? [] ? ?|? ? ?|? ? ? ?|? ?|? ?|?|?|? ?|?|?|?]; simpl in *;
    unfold result_in in *; naive_solver lia.
Qed.

Lemma given_le_asked :
  Forall (λ th, of_thread given_pc th <= of_thread (λ c _, asked c) th) (threads s).
Proof.
  eapply Forall_impl; [apply (inv_threads _ _ I)|].
  intros [[c p]|]; simpl; [|done]. intros [Ha _].
  destruct c, p; simpl in *; try apply Z.leb_le in Ha; lia.
Qed.

Lemma given_le_owed : given (threads s) <= owed (threads s).
Proof. apply zsum_le, given_le_asked. Qed.

Lemma owed_given i c p :
  threads s !! i = Some (Some (c, p)) →
  given (threads s) - given_pc c p + asked c <= owed (threads s).
Proof.
  intros Hi. unfold given, owed.
  pose proof (zsum_insert (of_thread given_pc) _ _ _ None Hi) as G.
  pose proof (zsum_insert (of_thread (λ c _, asked c)) _ _ _ None Hi) as O. simpl in G, O.
  enough (zsum (of_thread given_pc) (<[i:=None]> (threads s)) <=
          zsum (of_thread (λ c _, asked c)) (<[i:=None]> (threads s))) by lia.
  apply zsum_le, Forall_insert; [|done]. apply given_le_asked.
Qed.

(** What thread [i] can rely on before its step. *)
Lemma ranges i c p :
  threads s !! i = Some (Some (c, p)) →
  - INT_MAX <= m_count (sh s) ∧ 0 <= m_sema (sh s) ∧
  m_sema (sh s) + posts_pc p + pos (- m_count (sh s)) <= INT_MAX ∧
  pos (m_count (sh s)) + asked c - given_pc c p <= SSIZE_MAX.
Proof.
  intros Hi. pose proof (inv_waiting _ _ I). pose proof waiting_le.
  pose proof (zsum_ge _ _ _ _ posts_nonneg Hi) as Hp. simpl in Hp. fold (posts (threads s)) in Hp.
  assert (0 <= posts_pc p).
  { destruct (thread_ok _ _ _ Hi) as [_ [Hk _]]. destruct p; simpl in *; lia. }
  pose proof (inv_sema _ _ I). pose proof (inv_permits _ _ I). pose proof (inv_budget _ _ I).
  pose proof (owed_given i c p Hi). pose proof held_nonneg.
  assert (0 <= acquired_by (log s)).
  { apply zsum_nonneg. eapply Forall_impl; [apply (inv_log _ _ I)|]. unfold result_in. naive_solver lia. }
  unfold pos in *. split_and!; lia.
Qed.
End invariant.

(** The effect of one step on the sums. *)
Definition balanced (c : call) (s : shared) (p : pc) (s' : shared) (p' : pc) : Prop :=
  pc_ok c p' ∧ 0 <= m_sema s' ∧
  waiting_pc p' - waiting_pc p =
    m_sema s' - m_sema s + (posts_pc p' - posts_pc p) +
    (pos (- m_count s') - pos (- m_count s)) ∧
  given_pc c p' - given_pc c p =
    held_pc p' - held_pc p + (pos (m_count s') - pos (m_count s)) +
    (m_sema s' - m_sema s) + (posts_pc p' - posts_pc p).

(** Jumps between places that stand for the same permits. *)
Definition neutral (c : call) (p : pc) (k : Z) : Prop :=
  pc_ok c p ∧ waiting_pc p = 0 ∧ posts_pc p = 0 ∧ held_pc p = k ∧ given_pc c p = 0.

Lemma given_not_signal c p : ¬ is_signal c → given_pc c p = 0.
Proof. by destruct c. Qed.

Lemma spin_next_neutral c w t n :
  ¬ is_signal c → 0 < limit_of w → limit_of w = limit c → timeout c = Some t →
  neutral c (spin_next w t n) 0.
Proof. intros. unfold neutral. rewrite given_not_signal by done. by destruct n. Qed.

Lemma returning_neutral c r :
  ¬ is_signal c → 0 <= r <= limit c →
  (∀ t, timeout c = Some t → t < 0 → 0 < limit c → 0 < r) → neutral c (Returning r) r.
Proof. intros. unfold neutral. rewrite given_not_signal by done. by split_and!. Qed.

Lemma try_failed_neutral c w next base :
  pc_ok c (TryLoad w next base) → neutral c (try_failed w next base) base.
Proof.
  intros [H _]. destruct next as [t|]; simpl in H.
  - destruct H as (Hc & Hw & -> & Hl & Ht). destruct w as [|max]; [by apply spin_next_neutral|].
    simpl. destruct (Z.ltb_spec 0 max); [by apply spin_next_neutral|].
    apply returning_neutral; [done|simpl in *; lia|]. intros. simpl in *. lia.
  - destruct H as (Hc & Hw & Hl & Ht). apply returning_neutral; [done|lia|].
    intros t Ht' ? ?. destruct Ht as [[? _]|]; [congruence|lia].
Qed.

Lemma try_test_neutral c w next base old :
  pc_ok c (TryLoad w next base) → neutral c (try_test w next base old) base.
Proof.
  intros Hp. unfold try_test. destruct (Z.ltb_spec 0 old); [|by apply try_failed_neutral].
  unfold neutral. destruct Hp as [Hp _]. rewrite given_not_signal by (destruct next; apply Hp).
  split_and!; try done.
Qed.

Lemma acquired_neutral c w t :
  ¬ is_signal c → 0 < limit_of w → limit_of w = limit c → timeout c = Some t →
  neutral c (acquired w) 1.
Proof.
  intros Hc Hw Hl Ht. unfold acquired. destruct w as [|max]; simpl in *.
  - apply returning_neutral; [done|lia..].
  - destruct (Z.ltb_spec 1 max); [|apply returning_neutral; [done|lia..]].
    unfold neutral. rewrite given_not_signal by done. simpl. split_and!; try done; try lia.
    split; [|done]. split_and!; simpl; [done|lia..|by right].
Qed.

Lemma newCount_pos w old : 0 < old → 0 <= limit_of w →
  0 <= newCount w old <= old ∧ old - newCount w old <= limit_of w ∧
  (0 < limit_of w → newCount w old < old).
Proof. intros. destruct w as [|max]; simpl in *; [lia|]. destruct (Z.ltb_spec max old); lia. Qed.

Lemma sem_take_cases f v r v' :
  sem_take f v r = Some v' → 0 <= v →
  0 <= v' ∧ (r = Success ∧ v' = v - 1 ∨ ∃ e, r = Failed e ∧ f e = true ∧ v' = v).
Proof.
  unfold sem_take. intros Hs Hv. destruct r as [|e].
  - destruct (Z.ltb_spec 0 v); simplify_eq. split; [lia|by left].
  - destruct (f e) eqn:He; simplify_eq. split; [lia|]. right. eauto.
Qed.

(** Unfold one step and compare the sums. *)
Ltac balance :=
  simpl; split_and!; try done; try lia; unfold pc_ok; split_and!; simpl; try done; try lia; eauto.

Lemma in_sema_balanced c s w t r s' p' :
  pc_ok c (InSema w t) → 0 <= m_sema s →
  advance s (InSema w t) (Sys r) = Some (s', p') → balanced c s (InSema w t) s' p'.
Proof.
  intros [(Hc & Hw & Hl & Ht) _] Hv Hs. simpl in Hs.
  pose proof (acquired_neutral c w t Hc Hw Hl Ht) as (A1 & A2 & A3 & A4 & A5).
  apply bind_Some in Hs as (v & Hs & [= <- <-]). unfold balanced. rewrite !given_not_signal by done.
  destruct (Z.ltb_spec t 0) as [Hneg|Hneg]; apply sem_take_cases in Hs as [Hv' Hs]; try done.
  all: destruct Hs as [[-> ->]|(e & -> & He & ->)]; simpl; rewrite ?A2, ?A3, ?A4; simpl.
  1,3: balance.
  - apply bool_decide_eq_true in He as ->. balance.
  - apply bool_decide_eq_true in He as [-> | ->]; balance.
Qed.

Lemma adj_try_balanced c s w r s' p' :
  pc_ok c (AdjTry w) → 0 <= m_sema s →
  advance s (AdjTry w) (Sys r) = Some (s', p') → balanced c s (AdjTry w) s' p'.
Proof.
  intros [(Hc & Hw & Hl & t & Ht & Htp) _] Hv Hs. simpl in Hs.
  pose proof (acquired_neutral c w t Hc Hw Hl Ht) as (A1 & A2 & A3 & A4 & A5).
  apply bind_Some in Hs as (v & Hs & [= <- <-]). unfold balanced. rewrite !given_not_signal by done.
  apply sem_take_cases in Hs as [Hv' Hs]; [|done].
  destruct Hs as [[-> ->]|(e & -> & He & ->)]; simpl; rewrite ?A2, ?A3, ?A4; simpl.
  - balance.
  - destruct e; try done; balance.
Qed.

Lemma signal_balanced c s n s' p' :
  pc_ok c (FetchAdd n) → - INT_MAX <= m_count s → 0 <= m_sema s →
  pos (m_count s) + n <= SSIZE_MAX →
  advance s (FetchAdd n) Go = Some (s', p') → balanced c s (FetchAdd n) s' p'.
Proof.
  intros [[-> Hn] _] H1 H2 H3 Hs. simpl in Hs. injection Hs as <- <-.
  unfold balanced, SSIZE_MAX, pos, INT_MAX in *. simpl.
  rewrite (ssize_ok (m_count s + n)) by lia.
  set (r := if - m_count s <? n then - m_count s else n).
  assert (r = Z.min (- m_count s) n) as Hr by (unfold r; destruct (Z.ltb_spec (- m_count s) n); lia).
  clearbody r. destruct (Z.ltb_spec 0 r) as [Hp|Hp].
  - rewrite to_int_ok by lia. unfold posting. rewrite (proj2 (Z.ltb_lt 0 r)) by done. balance.
  - unfold result_in. balance.
Qed.

Lemma jump_balanced c s p p' k :
  neutral c p' k → 0 <= m_sema s → ¬ is_signal c →
  waiting_pc p = 0 → posts_pc p = 0 → held_pc p = k → balanced c s p s p'.
Proof.
  intros (N1 & N2 & N3 & N4 & N5) Hv Hc Hw Hp Hh. unfold balanced.
  rewrite N2, N3, N4, N5, Hw, Hp, Hh, given_not_signal by done. split_and!; [done|lia..].
Qed.

(** A compare-exchange that takes permits. *)
Lemma take_balanced c s p w base :
  pc_ok c (TryLoad w None base) → 0 < m_count s <= SSIZE_MAX → 0 <= m_sema s →
  waiting_pc p = 0 → posts_pc p = 0 → held_pc p = base →
  balanced c s p (set_count s (newCount w (m_count s)))
    (Returning (base + (m_count s - newCount w (m_count s)))).
Proof.
  intros [(Hc & Hw & Hl & Ht) _] [H0 H1] Hv Hwp Hpp Hh.
  destruct (newCount_pos w (m_count s)) as (N1 & N2 & N3); [done..|].
  unfold balanced, SSIZE_MAX in *. rewrite !given_not_signal, Hwp, Hpp, Hh by done. simpl.
  rewrite (ssize_ok (newCount w (m_count s))) by lia. unfold pos. split_and!; try lia.
  split; [|done]. split; [lia|]. intros t Ht' ? ?. destruct Ht as [[? _]| ->]; [congruence|lia].
Qed.

Lemma take_balanced' c s p w :
  ¬ is_signal c → 0 <= limit_of w → limit_of w = limit c → 0 < m_count s <= SSIZE_MAX → 0 <= m_sema s →
  waiting_pc p = 0 → posts_pc p = 0 → held_pc p = 0 →
  balanced c s p (set_count s (newCount w (m_count s)))
    (Returning (m_count s - newCount w (m_count s))).
Proof.
  intros Hc Hw Hl [H0 H1] Hv Hwp Hpp Hh.
  destruct (newCount_pos w (m_count s)) as (N1 & N2 & N3); [done..|].
  unfold balanced, SSIZE_MAX in *. rewrite !given_not_signal, Hwp, Hpp, Hh by done. simpl.
  rewrite (ssize_ok (newCount w (m_count s))) by lia. unfold pos. split_and!; try lia.
  split; [|done]. split; [lia|]. intros. lia.
Qed.

Lemma fetch_sub_balanced c s w t s' p' :
  pc_ok c (FetchSub w t) → - INT_MAX <= m_count s <= SSIZE_MAX → 0 <= m_sema s →
  advance s (FetchSub w t) Go = Some (s', p') → balanced c s (FetchSub w t) s' p'.
Proof.
  intros [(Hc & Hw & Hl & Ht) _] [H0 H1] Hv Hs. simpl in Hs. injection Hs as <- <-.
  pose proof (acquired_neutral c w t Hc Hw Hl Ht) as (A1 & A2 & A3 & A4 & A5).
  unfold balanced, INT_MAX, SSIZE_MAX in *. rewrite !given_not_signal by done. simpl.
  rewrite (ssize_ok (m_count s - 1)) by lia. unfold pos.
  destruct (Z.ltb_spec 0 (m_count s)); [rewrite A2, A3, A4|]; balance.
Qed.

Lemma post_balanced c s n :
  pc_ok c (Posting n) → 0 <= m_sema s → m_sema s + n <= INT_MAX →
  balanced c s (Posting n) (set_sema s (sem_post (m_sema s))) (posting (n - 1)).
Proof.
  intros [[Hc Hn] _] Hv Hb. unfold balanced, sem_post, SEM_VALUE_MAX, posting.
  destruct c; try done. rewrite (proj2 (Z.ltb_lt (m_sema s) INT_MAX)) by lia. simpl.
  destruct (Z.ltb_spec 0 (n - 1)); unfold result_in; balance.
Qed.

(** The place a [tryWait*] retries from. *)
Lemma retry_ok c w next base old :
  pc_ok c (TryCas w next base old) → pc_ok c (TryLoad w next base) ∧ ¬ is_signal c ∧ 0 < old.
Proof. intros [H ?]. destruct next; (split; [by split|split; [apply H|done]]). Qed.

Lemma advance_balanced c s p a s' p' :
  pc_ok c p → - INT_MAX <= m_count s → 0 <= m_sema s →
  m_sema s + posts_pc p + pos (- m_count s) <= INT_MAX →
  pos (m_count s) + asked c - given_pc c p <= SSIZE_MAX →
  advance s p a = Some (s', p') → balanced c s p s' p'.
Proof.
  intros Hp H1 H2 H3 H4 Hs. assert (0 <= pos (- m_count s)) by (unfold pos; lia).
  assert (¬ is_signal c → m_count s <= SSIZE_MAX).
  { intros Hc. rewrite given_not_signal in H4 by done. unfold pos in *. destruct c; simpl in *; try done; lia. }
  destruct p as [w next base|w next base old|w t n|w t n old|w t|w t|w|w|w old|n|n|r], a as [|v|r'];
    try done; try (by eapply in_sema_balanced); try (by eapply adj_try_balanced).
  all: try (eapply fetch_sub_balanced; [done| |done..]; split; [done|]; apply H0, Hp).
  all: try (eapply signal_balanced; [done..| |done]; destruct Hp as [[-> _] _]; simpl in *; lia).
  all: try (simpl in Hs; case_match; simplify_eq).
  all: try match goal with H : (m_count _ =? _) = true |- _ => apply Z.eqb_eq in H as <- end.
  - eapply jump_balanced; [by apply try_test_neutral|try done..]. destruct next; apply Hp.
  - apply retry_ok in Hp as (Hp & Hc & Hold).
    destruct next as [t|]; [|apply take_balanced; auto with lia].
    destruct Hp as [(_ & Hw & -> & Hl & _) _]. apply take_balanced'; auto with lia.
  - apply retry_ok in Hp as (Hp & Hc & Hold).
    eapply jump_balanced; [by apply try_test_neutral|done..].
  - destruct Hp as [(Hc & Hw & Hl & Ht) _]. destruct (Z.ltb_spec 0 v).
    + eapply (jump_balanced _ _ _ _ 0); try done. unfold neutral.
      rewrite given_not_signal by done. by split_and!.
    + eapply jump_balanced; [by apply spin_next_neutral|done..].
  - destruct Hp as [(Hc & Hw & Hl & Ht) Hold]. apply take_balanced'; auto with lia.
  - destruct Hp as [(Hc & Hw & Hl & Ht) Hold].
    eapply jump_balanced; [by apply spin_next_neutral|done..].
  - destruct Hp as [(Hc & Hp) _]. unfold balanced. rewrite !given_not_signal by done.
    destruct (Z.leb_spec 0 v); balance.
  - destruct Hp as [(Hc & Hw & Hl & t & Ht & Htp) Hold]. unfold balanced, SSIZE_MAX, INT_MAX in *.
    rewrite !given_not_signal by done. simpl. rewrite (ssize_ok (m_count s + 1)) by lia.
    unfold pos. balance. split; [lia|]. intros t' Ht'. simplify_eq. lia.
  - destruct Hp as [(Hc & Hp) _]. unfold balanced. rewrite !given_not_signal by done. balance.
  - simpl in Hs, H3. injection Hs as <- <-. apply post_balanced; [done..|lia].
Qed.

Lemma start_ok c : args_ok c = true → pc_ok c (start c).
Proof.
  intros Ha. destruct c; simpl in *; (split; [|done]); try apply Z.leb_le in Ha;
    simpl; split_and!; try done; try lia; by left.
Qed.

Lemma start_sums c :
  args_ok c = true →
  waiting_pc (start c) = 0 ∧ posts_pc (start c) = 0 ∧ held_pc (start c) = 0 ∧
  given_pc c (start c) = 0 ∧ 0 <= asked c.
Proof. intros Ha. destruct c; simpl in *; try apply Z.leb_le in Ha; split_and!; done || lia. Qed.

(** Permits [Begin] labels bring. *)
Definition brings (l : label) : Z := match l with Begin _ c => asked c | _ => 0 end.
(** A schedule that respects the assertions on arguments; [waitMany(max)] also
    asserts its result, so it must be called with a positive [max]. *)
Definition call_ok (c : call) : Prop :=
  args_ok c = true ∧ match c with waitMany_forever max => 0 < max | _ => True end.
Definition label_ok (l : label) : Prop :=
  match l with Begin _ c => call_ok c | Act _ _ => True end.

Definition calls_good (s : sema) : Prop :=
  Forall (λ th, match th with Some (c, _) => call_ok c | None => True end) (threads s).

(** Replacing one thread changes the sums by the difference. *)
Ltac sums Hi :=
  unfold waiting, posts, held, given, owed in *;
  rewrite ?(zsum_insert _ _ _ _ _ Hi), ?zsum_app; simpl in *.

Lemma begin_inv k0 b s i c :
  inv k0 b s → threads s !! i = Some None → call_ok c →
  inv k0 (b + asked c)
    (Sema (sh s) (<[i := Some (c, start c)]> (threads s)) (log s) (bad s || negb (args_ok c))).
Proof.
  intros I Hi [Ha _]. destruct (start_sums c Ha) as (S1 & S2 & S3 & S4 & S5).
  destruct I as [I1 I2 I3 I4 I5 I6 I7].
  constructor; simpl; try done; try (sums Hi; lia).
  - apply Forall_insert; [done|]. split; [done|by apply start_ok].
  - by rewrite I7, Ha.
Qed.

Lemma return_inv k0 b s i c r :
  inv k0 b s → threads s !! i = Some (Some (c, Returning r)) → call_ok c →
  inv k0 b
    (Sema (sh s) (<[i := None]> (threads s)) (log s ++ [(c, r)]) (bad s || negb (result_ok c r))).
Proof.
  intros I Hi [Ha Hc]. destruct (thread_ok _ _ _ I _ _ _ Hi) as [_ [Hr _]].
  destruct I as [I1 I2 I3 I4 I5 I6 I7].
  constructor; simpl; try done.
  - sums Hi; lia.
  - unfold acquired_by, signalled_by in *. sums Hi.
    destruct c; simpl in *; lia.
  - unfold signalled_by in *. sums Hi. lia.
  - by apply Forall_insert.
  - apply Forall_app. split; [done|]. apply Forall_singleton. split; [|done].
    destruct (start_sums c Ha); simpl. tauto.
  - rewrite I7. destruct c; try done. simpl in *. destruct Hr as [_ Hr].
    rewrite (proj2 (Z.ltb_lt 0 r)); [done|]. by eapply Hr.
Qed.

Lemma act_inv k0 b s i c p sh' p' :
  inv k0 b s → threads s !! i = Some (Some (c, p)) → balanced c (sh s) p sh' p' →
  inv k0 b (Sema sh' (<[i := Some (c, p')]> (threads s)) (log s) (bad s)).
Proof.
  intros I Hi (B1 & B2 & B3 & B4). destruct (thread_ok _ _ _ I _ _ _ Hi) as [Ha _].
  destruct I as [I1 I2 I3 I4 I5 I6 I7].
  constructor; simpl; try done; try (sums Hi; lia). by apply Forall_insert.
Qed.

Lemma act_cases s i a s' c p :
  threads s !! i = Some (Some (c, p)) → step s (Act i a) = Some s' →
  (∃ r, p = Returning r ∧
    s' = Sema (sh s) (<[i := None]> (threads s)) (log s ++ [(c, r)])
              (bad s || negb (result_ok c r))) ∨
  (∃ sh' p', advance (sh s) p a = Some (sh', p') ∧
    s' = Sema sh' (<[i := Some (c, p')]> (threads s)) (log s) (bad s)).
Proof.
  intros Hi Hs. simpl in Hs. rewrite Hi in Hs.
  destruct p; try (by injection Hs as <-; left; eauto).
  all: apply bind_Some in Hs as ([sh' p'] & Ha & [= <-]); right; eauto.
Qed.

Lemma step_ok k0 b s l s' :
  inv k0 b s → calls_good s → label_ok l →
  length (threads s) ≤ INT_MAX → b <= SSIZE_MAX →
  step s l = Some s' →
  inv k0 (b + brings l) s' ∧ calls_good s' ∧ length (threads s') = length (threads s).
Proof.
  intros I G Hl Hn Hb Hs. destruct l as [i c|i a].
  - simpl in Hs. destruct (threads s !! i) as [[|]|] eqn:Hi; try done. injection Hs as <-. simpl.
    split_and!; [by apply begin_inv|by apply Forall_insert|simpl; by rewrite length_insert].
  - destruct (threads s !! i) as [[[c p]|]|] eqn:Hi; [|by simpl in Hs; rewrite Hi in Hs..].
    pose proof (Forall_lookup_1 _ _ _ _ G Hi) as Hc. simpl. rewrite Z.add_0_r.
    destruct (act_cases _ _ _ _ _ _ Hi Hs) as [(r & -> & ->)|(sh' & p' & Ha & ->)].
    + split_and!; [by apply return_inv|by apply Forall_insert|simpl; by rewrite length_insert].
    + destruct (ranges _ _ _ I Hn Hb _ _ _ Hi) as (R1 & R2 & R3 & R4).
      assert (balanced c (sh s) p sh' p').
      { eapply advance_balanced; [|done..|exact Ha]. by apply (thread_ok _ _ _ I _ _ _ Hi). }
      split_and!; [by eapply act_inv|by apply Forall_insert|simpl; by rewrite length_insert].
Qed.

Lemma create_inv k0 n : 0 <= k0 → inv k0 k0 (create k0 n).
Proof.
  intros Hk. constructor; simpl; unfold pos, waiting, posts, held, given, owed,
    signalled_by, acquired_by; rewrite ?zsum_replicate; simpl; try lia.
  all: by apply Forall_replicate || by constructor.
Qed.

Lemma run_ok k0 ls : ∀ b s s',
  inv k0 b s → calls_good s → Forall label_ok ls → length (threads s) ≤ INT_MAX →
  b + zsum brings ls <= SSIZE_MAX → run s ls = Some s' →
  inv k0 (b + zsum brings ls) s' ∧ length (threads s') = length (threads s).
Proof.
  induction ls as [|l ls IH]; intros b s s' I G Hl Hn Hb Hr; simpl in *.
  - injection Hr as <-. by rewrite Z.add_0_r.
  - apply bind_Some in Hr as (s1 & Hs & Hr). apply Forall_cons in Hl as [Hl Hls].
    assert (0 <= zsum brings ls).
    { apply zsum_nonneg. eapply Forall_impl; [exact Hls|]. intros [i c|]; simpl; [|lia].
      intros [Hc _]. by destruct (start_sums c Hc) as (_ & _ & _ & _ & ?). }
    assert (0 <= brings l).
    { destruct l as [i c|]; simpl; [|lia]. destruct Hl as [Hc _].
      by destruct (start_sums c Hc) as (_ & _ & _ & _ & ?). }
    destruct (step_ok _ _ _ _ _ I G Hl Hn ltac:(lia) Hs) as (I1 & G1 & Hn1).
    rewrite Z.add_assoc. rewrite <- Hn1 in Hn |- *. apply (IH _ s1); [done..|lia|done].
Qed.

(** A schedule of [n] threads on a semaphore created with [k0] permits. *)
Definition schedule_ok (k0 : Z) (n : nat) (ls : list label) : Prop :=
  0 <= k0 ∧ n ≤ INT_MAX ∧ Forall label_ok ls ∧ k0 + zsum brings ls <= SSIZE_MAX.

Lemma sema_run_inv k0 n ls s :
  schedule_ok k0 n ls → run (create k0 n) ls = Some s → inv k0 (k0 + zsum brings ls) s.
Proof.
  intros (Hk & Hn & Hl & Hb) Hr. eapply run_ok; [by apply create_inv| |done| |done|done].
  - by apply Forall_replicate.
  - simpl. by rewrite length_replicate.
Qed.

(** C31: any number of threads wait, with or without timeouts, and signal in any
    interleaving: no assertion fails, every call returns a number of permits its
    contract allows (a wait without timeout at least one), and the permits acquired
    never exceed the initial count and those signalled. *)
Theorem semaphore_safe k0 n ls s :
  schedule_ok k0 n ls → run (create k0 n) ls = Some s →
  bad s = false ∧ Forall (λ e, result_in (fst e) (snd e)) (log s) ∧
  acquired_by (log s) + held (threads s) <= k0 + signalled_by (log s) + given (threads s).
Proof.
  intros Hok Hr. pose proof (sema_run_inv _ _ _ _ Hok Hr) as I. split_and!.
  - apply (inv_good _ _ _ I).
  - eapply Forall_impl; [apply (inv_log _ _ _ I)|]. by intros e [_ ?].
  - pose proof (inv_permits _ _ _ I). pose proof (inv_sema _ _ _ I).
    pose proof (zsum_nonneg _ _ (posts_nonneg _ _ _ I)). fold (posts (threads s)) in *.
    unfold pos in *. lia.
Qed.

(** C32: no permit is stranded while a thread waits for one.  Once no signal is
    half-way through its posts, either all permits signalled have been acquired, or
    a thread inside the system semaphore can take its step; and with threads inside
    it, a positive [m_count] means that each of them has its permit there. *)
Theorem no_stranded_waiter k0 n ls s i c w t :
  schedule_ok k0 n ls → run (create k0 n) ls = Some s → posts (threads s) = 0 →
  threads s !! i = Some (Some (c, InSema w t)) →
  (acquired_by (log s) + held (threads s) = k0 + signalled_by (log s) + given (threads s) ∨
   is_Some (step s (Act i (Sys Success)))) ∧
  (0 < m_count (sh s) → waiting (threads s) = m_sema (sh s)).
Proof.
  intros Hok Hr Hp Hi. pose proof (sema_run_inv _ _ _ _ Hok Hr) as I.
  pose proof (inv_permits _ _ _ I). pose proof (inv_waiting _ _ _ I). pose proof (inv_sema _ _ _ I).
  split; [|unfold pos in *; lia].
  destruct (Z.ltb_spec 0 (m_sema (sh s))) as [Hv|Hv].
  - right. simpl. rewrite Hi. simpl. unfold sem_wait, sem_timedwait.
    destruct (t <? 0); simpl; rewrite (proj2 (Z.ltb_lt 0 _)) by done; simpl; eauto.
  - left. assert (1 <= waiting (threads s)).
    { eapply Z.le_trans; [|eapply (zsum_ge _ _ i (Some (c, InSema w t))); [|done]]; [done|].
      apply Forall_forall. intros [[c' p']|] _; simpl; [destruct p'; simpl|]; lia. }
    unfold pos in *. lia.
Qed.

(** when no call is in progress, [availableApprox] is exact: the initial count
    and the permits signalled, less those acquired; the system semaphore is 0. *)
Theorem quiescent_count k0 n ls s :
  schedule_ok k0 n ls → run (create k0 n) ls = Some s → threads s = replicate n None →
  availableApprox (m_count (sh s)) = k0 + signalled_by (log s) - acquired_by (log s) ∧
  m_sema (sh s) = 0.
Proof.
  intros Hok Hr Hq. pose proof (sema_run_inv _ _ _ _ Hok Hr) as I.
  pose proof (inv_permits _ _ _ I) as P. pose proof (inv_waiting _ _ _ I) as W.
  pose proof (inv_sema _ _ _ I). rewrite Hq in P, W.
  unfold waiting, posts, held, given in *. repeat rewrite zsum_replicate in P.
  repeat rewrite zsum_replicate in W. simpl in P, W.
  unfold availableApprox, pos in *. destruct (Z.ltb_spec 0 (m_count (sh s))); lia.
Qed.

(** the deadline handed to [sem_timedwait] is a normalised time, exactly the
    timeout after the clock's, for every unsigned 64-bit timeout. *)
Theorem deadline_exact now usecs :
  0 <= tv_nsec now < nsecs_in_1_sec → fits 64 usecs →
  0 <= tv_nsec (deadline now usecs) < nsecs_in_1_sec ∧
  tv_sec (deadline now usecs) * nsecs_in_1_sec + tv_nsec (deadline now usecs) =
  tv_sec now * nsecs_in_1_sec + tv_nsec now + usecs * 1000.
Proof.
  unfold deadline, nsecs_in_1_sec, usecs_in_1_sec, fits. intros Hn Hu.
  pose proof (Z.mod_pos_bound usecs 1000000 eq_refl).
  pose proof (Z.div_mod usecs 1000000 ltac:(done)).
  rewrite (wrap_small 64 (usecs mod 1000000)), (wrap_small 64 (usecs mod 1000000 * 1000))
    by (unfold fits; lia).
  destruct (Z.leb_spec 1000000000 (tv_nsec now + usecs mod 1000000 * 1000)); simpl; lia.
Qed.

(** *** A wait that spins out, sleeps, is interrupted and then signalled *)

Definition sleeping : list label :=
  [Begin 0 wait_forever; Act 0 (Seen 0)] ++ replicate SPINS (Act 0 (Seen 0)) ++
  [Act 0 Go; Begin 1 (signal 1); Act 1 Go; Act 1 Go].
Definition woken : list label :=
  sleeping ++ [Act 0 (Sys (Failed EINTR)); Act 0 (Sys Success); Act 1 Go; Act 0 Go;
    Begin 1 (signal 2); Act 1 Go; Act 1 Go; Begin 0 (tryWaitMany 5); Act 0 (Seen 2);
    Act 0 Go; Act 0 Go].

Lemma schedule_ok_dec k0 (n : nat) ls :
  (0 <=? k0) && (n <=? INT_MAX) && (k0 + zsum brings ls <=? SSIZE_MAX) &&
  forallb (λ l, match l with
    | Begin _ c => args_ok c && match c with waitMany_forever max => 0 <? max | _ => true end
    | Act _ _ => true end) ls = true →
  schedule_ok k0 n ls.
Proof.
  intros H. repeat apply andb_prop in H as [H ?]. unfold schedule_ok.
  split_and!; [by apply Z.leb_le..| |by apply Z.leb_le].
  apply Forall_forall. intros l Hl. apply forallb_forall with (x := l) in H0; [|by apply list_elem_of_In].
  destruct l as [i c|]; [|done]. apply andb_prop in H0 as [? H0]. split; [done|].
  destruct c; try done. by apply Z.ltb_lt.
Qed.

Definition after (k0 : Z) (n : nat) (ls : list label) : sema :=
  default (create k0 n) (run (create k0 n) ls).

Lemma semaphore_safe_witness :
  log (after 0 2 woken) = [(signal 1, 0); (wait_forever, 1); (signal 2, 0); (tryWaitMany 5, 2)] ∧
  acquired_by (log (after 0 2 woken)) + held (threads (after 0 2 woken)) <=
  0 + signalled_by (log (after 0 2 woken)) + given (threads (after 0 2 woken)).
Proof.
  split; [by vm_compute|].
  apply (semaphore_safe 0 2 woken); [apply schedule_ok_dec; by vm_compute|by vm_compute].
Defined.

Lemma no_stranded_waiter_witness :
  m_sema (sh (after 0 2 sleeping)) = 1 ∧
  (0 < m_count (sh (after 0 2 sleeping)) →
   waiting (threads (after 0 2 sleeping)) = m_sema (sh (after 0 2 sleeping))).
Proof.
  split; [by vm_compute|].
  apply (no_stranded_waiter 0 2 sleeping _ 0 wait_forever One (-1));
    [apply schedule_ok_dec; by vm_compute|by vm_compute..].
Defined.

Lemma quiescent_count_witness :
  availableApprox (m_count (sh (after 0 2 woken))) =
  0 + signalled_by (log (after 0 2 woken)) - acquired_by (log (after 0 2 woken)) ∧
  m_sema (sh (after 0 2 woken)) = 0.
Proof.
  apply (quiescent_count 0 2 woken); [apply schedule_ok_dec; by vm_compute|by vm_compute..].
Defined.

Lemma deadline_exact_witness :
  deadline (TS 5 999999999) 1000001 = TS 7 999 ∧
  0 <= tv_nsec (deadline (TS 5 999999999) 1000001) < nsecs_in_1_sec.
Proof.
  split; [done|]. apply (deadline_exact (TS 5 999999999) 1000001); by vm_compute.
Defined.
End LightweightSemaphore.
