(* ===== verification/BlockingConcurrentQueue.v ===== *)
(** * [BlockingConcurrentQueue]

    blockingconcurrentqueue.h.  Every method is a thread's path through calls on
    the inner [ConcurrentQueue] and on the [LightweightSemaphore]; the threads
    interleave at every access to the semaphore and at every inner call.  The
    inner queue is used through a class that says what it promises: elements
    are neither lost nor made up, and some dequeue on a queue with elements
    finds one. *)
From S2P Require Import Prelude LightweightSemaphore.
Local Open Scope Z_scope.

Module BlockingConcurrentQueue.
Import LightweightSemaphore.

(** The calls on the inner queue: with [Some] token or none, allocating or not.
    [Env] stands for what other threads and the allocator do during the call. *)
Class InnerQueue (Q T Env : Type) : Type := {
  iq_enqueue : bool → option nat → T → Env → Q → Q * bool;
  iq_enqueue_bulk : bool → option nat → list T → Env → Q → Q * bool;
  iq_try_dequeue : option nat → Env → Q → Q * option T;
  iq_try_dequeue_bulk : option nat → nat → Env → Q → Q * list T
}.

Class InnerQueueLaws (Q T Env : Type) `{!InnerQueue Q T Env} : Type := {
  iq_elems : Q → list T;
  iq_enqueue_law alloc tok x e q :
    iq_elems (iq_enqueue alloc tok x e q).1 ≡ₚ
    (if (iq_enqueue alloc tok x e q).2 then [x] else []) ++ iq_elems q;
  iq_enqueue_bulk_law alloc tok xs e q :
    iq_elems (iq_enqueue_bulk alloc tok xs e q).1 ≡ₚ
    (if (iq_enqueue_bulk alloc tok xs e q).2 then xs else []) ++ iq_elems q;
  iq_try_dequeue_law tok e q :
    iq_elems q ≡ₚ option_list (iq_try_dequeue tok e q).2 ++ iq_elems (iq_try_dequeue tok e q).1;
  iq_try_dequeue_bulk_law tok max e q :
    (length (iq_try_dequeue_bulk tok max e q).2 ≤ max)%nat ∧
    iq_elems q ≡ₚ (iq_try_dequeue_bulk tok max e q).2 ++
                  iq_elems (iq_try_dequeue_bulk tok max e q).1;
  iq_dequeue_progress tok q :
    iq_elems q ≠ [] → ∃ e, is_Some (iq_try_dequeue tok e q).2;
  iq_dequeue_bulk_progress tok max q :
    iq_elems q ≠ [] → (0 < max)%nat → ∃ e, (iq_try_dequeue_bulk tok max e q).2 ≠ []
}.

Section queue.
Context {Q T Env : Type} `{!InnerQueue Q T Env}.

(** The methods; [may_alloc] tells [enqueue] from [try_enqueue]. *)
Inductive op :=
  | enqueue (may_alloc : bool) (token : option nat) (item : T)
  | enqueue_bulk (may_alloc : bool) (token : option nat) (items : list T)
  | try_dequeue (token : option nat)
  | try_dequeue_bulk (token : option nat) (max : Z)
  | wait_dequeue (token : option nat)
  | wait_dequeue_timed (token : option nat) (timeout_usecs : Z)
  | wait_dequeue_bulk (token : option nat) (max : Z)
  | wait_dequeue_bulk_timed (token : option nat) (max timeout_usecs : Z).

(** What a method returns: whether it enqueued, or the elements it dequeued. *)
Inductive reply := Enqueued (b : bool) | Dequeued (xs : list T).

(** Where a thread is in a method. *)
Inductive phase :=
  | Enqueueing                         (* before [inner.enqueue] *)
  | Signalling                         (* in [sema->signal] *)
  | Waiting                            (* in [sema->wait] and the like *)
  | Dequeueing (want : nat) (got : list T)    (* [while (count != max)] *)
  | Finished (r : reply).

Record bqueue := BQ {
  inner : Q;
  sema_ : sema;
  clients : list (option (op * phase));
  history : list (op * reply)
}.

(** The elements a method enqueues, and the semaphore call it makes. *)
Definition items (o : op) : list T :=
  match o with enqueue _ _ x => [x] | enqueue_bulk _ _ xs => xs | _ => [] end.

Definition sema_call (o : op) : call :=
  match o with
  | enqueue _ _ _ => signal 1
  | enqueue_bulk _ _ xs => signal (ssize (length xs))
  | try_dequeue _ => tryWait
  | try_dequeue_bulk _ max => tryWaitMany (ssize max)
  | wait_dequeue _ => wait_forever
  | wait_dequeue_timed _ t => wait t
  | wait_dequeue_bulk _ max => waitMany_forever (ssize max)
  | wait_dequeue_bulk_timed _ max t => waitMany (ssize max) t
  end.

Definition is_enqueue (o : op) : bool :=
  match o with enqueue _ _ _ | enqueue_bulk _ _ _ => true | _ => false end.

(** [inner.enqueue(item)] and [inner.enqueue_bulk(itemFirst, count)]. *)
Definition call_inner_enqueue (o : op) (e : Env) (q : Q) : Q * bool :=
  match o with
  | enqueue alloc tok x => iq_enqueue alloc tok x e q
  | enqueue_bulk alloc tok xs => iq_enqueue_bulk alloc tok xs e q
  | _ => (q, false)
  end.

(** [inner.try_dequeue(item)] and [inner.try_dequeue_bulk(itemFirst, n)]. *)
Definition call_inner_dequeue (o : op) (n : nat) (e : Env) (q : Q) : Q * list T :=
  match o with
  | try_dequeue tok | wait_dequeue tok | wait_dequeue_timed tok _ =>
      let '(q, x) := iq_try_dequeue tok e q in (q, option_list x)
  | try_dequeue_bulk tok _ | wait_dequeue_bulk tok _ | wait_dequeue_bulk_timed tok _ _ =>
      iq_try_dequeue_bulk tok n e q
  | _ => (q, [])
  end.

(** The loop that dequeues what the permits stand for. *)
Definition dequeueing (want : nat) (got : list T) : phase :=
  match want with O => Finished (Dequeued got) | S _ => Dequeueing want got end.

(** What follows the semaphore call that returned [r]. *)
Definition after_sema (o : op) (r : Z) : phase :=
  if is_enqueue o then Finished (Enqueued true) else dequeueing (Z.to_nat r) [].

Inductive blabel :=
  | BBegin (i : nat) (o : op)
  | BInner (i : nat) (e : Env)
  | BSema (i : nat) (a : answer)
  | BReturn (i : nat).

(** The result the semaphore is about to hand to thread [i]. *)
Definition sema_result (s : sema) (i : nat) : option Z :=
  match threads s !! i with Some (Some (_, Returning r)) => Some r | _ => None end.

Definition set_client (b : bqueue) (i : nat) (c : option (op * phase)) : list (option (op * phase)) :=
  <[i := c]> (clients b).

Definition bstep (b : bqueue) (l : blabel) : option bqueue :=
  match l with
  | BBegin i o =>
      match clients b !! i with
      | Some None =>
          if is_enqueue o
          then Some (BQ (inner b) (sema_ b) (set_client b i (Some (o, Enqueueing))) (history b))
          else s ← step (sema_ b) (Begin i (sema_call o));
               Some (BQ (inner b) s (set_client b i (Some (o, Waiting))) (history b))
      | _ => None
      end
  | BInner i e =>
      match clients b !! i with
      | Some (Some (o, Enqueueing)) =>
          let '(q, ok) := call_inner_enqueue o e (inner b) in
          if ok : bool
          then s ← step (sema_ b) (Begin i (sema_call o));
               Some (BQ q s (set_client b i (Some (o, Signalling))) (history b))
          else Some (BQ q (sema_ b) (set_client b i (Some (o, Finished (Enqueued false))))
                        (history b))
      | Some (Some (o, Dequeueing want got)) =>
          let '(q, xs) := call_inner_dequeue o want e (inner b) in
          Some (BQ q (sema_ b)
                   (set_client b i (Some (o, dequeueing (want - length xs) (got ++ xs))))
                   (history b))
      | _ => None
      end
  | BSema i a =>
      match clients b !! i with
      | Some (Some (o, (Signalling | Waiting) as ph)) =>
          s ← step (sema_ b) (Act i a);
          Some (BQ (inner b) s
                   (set_client b i (Some (o,
                      match sema_result (sema_ b) i with Some r => after_sema o r | None => ph end)))
                   (history b))
      | _ => None
      end
  | BReturn i =>
      match clients b !! i with
      | Some (Some (o, Finished r)) =>
          Some (BQ (inner b) (sema_ b) (set_client b i None) (history b ++ [(o, r)]))
      | _ => None
      end
  end.

Fixpoint brun (b : bqueue) (ls : list blabel) : option bqueue :=
  match ls with [] => Some b | l :: ls => b' ← bstep b l; brun b' ls end.

(** The constructors: the inner queue, then a semaphore from [Traits::malloc]. *)
Definition bcreate (q : Q) (malloc_ok : bool) (n : nat) : result bqueue :=
  if malloc_ok then Ok (BQ q (create 0 n) (replicate n None) []) else Throw bad_alloc.

Definition size_approx (b : bqueue) : Z := availableApprox (m_count (sh (sema_ b))).

(** [swap_internal] on two distinct queues: both members change places. *)
Definition swap_internal (b other : bqueue) : bqueue * bqueue :=
  (BQ (inner other) (sema_ other) (clients b) (history b),
   BQ (inner b) (sema_ b) (clients other) (history other)).

(** ** Contracts of the methods *)

Definition op_limit (o : op) : Z :=
  match o with
  | try_dequeue _ | wait_dequeue _ | wait_dequeue_timed _ _ => 1
  | try_dequeue_bulk _ max | wait_dequeue_bulk _ max | wait_dequeue_bulk_timed _ max _ => max
  | _ => 0
  end.

(** Dequeues that wait until there is an element. *)
Definition blocking (o : op) : bool :=
  match o with
  | wait_dequeue _ => true
  | wait_dequeue_timed _ t => t <? 0
  | wait_dequeue_bulk _ _ => true
  | wait_dequeue_bulk_timed _ max t => (t <? 0) && (0 <? max)
  | _ => false
  end.

Definition reply_ok (o : op) (r : reply) : Prop :=
  match r with
  | Enqueued _ => is_enqueue o = true
  | Dequeued xs => is_enqueue o = false ∧ length xs <= op_limit o ∧ (blocking o = true → xs ≠ [])
  end.

(** [ssize_t] counts, and a positive [max] for [wait_dequeue_bulk]. *)
Definition op_ok (o : op) : Prop :=
  length (items o) <= SSIZE_MAX ∧ 0 <= op_limit o <= SSIZE_MAX ∧
  match o with wait_dequeue_bulk _ max => 0 < max | _ => True end.

Definition client_ok (o : op) (ph : phase) : Prop :=
  op_ok o ∧
  match ph with
  | Enqueueing | Signalling => is_enqueue o = true
  | Waiting => is_enqueue o = false
  | Dequeueing want got =>
      is_enqueue o = false ∧ (0 < want)%nat ∧ want + length got <= op_limit o
  | Finished r => reply_ok o r
  end.

(** A client is inside the semaphore exactly while it signals or waits. *)
Definition linked (c : option (op * phase)) (th : option (call * pc)) : Prop :=
  match c, th with
  | Some (o, (Signalling | Waiting)), Some (k, _) => k = sema_call o
  | Some (_, (Signalling | Waiting)), None => False
  | _, th => th = None
  end.

(** Elements a method has put into the inner queue, and taken from it. *)
Definition put_by (o : op) (ph : phase) : list T :=
  match ph with Signalling | Finished (Enqueued true) => items o | _ => [] end.
Definition got_by (ph : phase) : list T :=
  match ph with Dequeueing _ got | Finished (Dequeued got) => got | _ => [] end.
Definition wanted_by (ph : phase) : Z := match ph with Dequeueing want _ => want | _ => 0 end.
Definition to_put (o : op) (ph : phase) : Z :=
  match ph with Enqueueing => length (items o) | _ => 0 end.

Definition of_client {A} (d : A) (f : op → phase → A) (c : option (op * phase)) : A :=
  match c with Some (o, ph) => f o ph | None => d end.

Definition enqueued (b : bqueue) : list T :=
  concat (of_client [] put_by <$> clients b) ++
  concat ((λ e, put_by (fst e) (Finished (snd e))) <$> history b).
Definition dequeued (b : bqueue) : list T :=
  concat (of_client [] (λ _, got_by) <$> clients b) ++
  concat ((λ e, got_by (Finished (snd e))) <$> history b).
Definition wanted (b : bqueue) : Z := zsum (of_client 0 (λ _, wanted_by)) (clients b).
Definition pending (b : bqueue) : Z := zsum (of_client 0 to_put) (clients b).

Section laws.
Context `{!InnerQueueLaws Q T Env}.

Definition elems (b : bqueue) : list T := iq_elems (inner b).

Record binv (budget : Z) (b : bqueue) : Prop := {
  bi_sema : ∃ k, inv 0 k (sema_ b) ∧ k + pending b <= budget;
  bi_calls : calls_good (sema_ b);
  bi_linked : Forall2 linked (clients b) (threads (sema_ b));
  bi_clients : Forall (of_client True client_ok) (clients b);
  (* every element has its permit: signalled and not used up, or on its way *)
  bi_permits :
    length (elems b) + acquired_by (log (sema_ b)) =
    signalled_by (log (sema_ b)) + owed (threads (sema_ b)) + wanted b;
  bi_elems : enqueued b ≡ₚ dequeued b ++ elems b;
  bi_history : Forall (λ e, reply_ok (fst e) (snd e)) (history b)
}.

(** ** Elements are conserved *)

Lemma conserve (put put' got got' put1 put2 got1 got2 q q' : list T) :
  put1 ++ put' ≡ₚ put2 ++ put → got1 ++ got' ≡ₚ got2 ++ got → put ≡ₚ got ++ q →
  put2 ++ got1 ++ q ≡ₚ put1 ++ got2 ++ q' → put' ≡ₚ got' ++ q'.
Proof.
  intros Hput Hgot Hq Hloc.
  apply (Permutation_app_inv_l (put1 ++ got1)).
  transitivity (got1 ++ put2 ++ put).
  { rewrite <- Hput. solve_Permutation. }
  rewrite Hq. transitivity (got ++ put2 ++ got1 ++ q); [solve_Permutation|].
  rewrite Hloc. transitivity (put1 ++ (got2 ++ got) ++ q'); [solve_Permutation|].
  rewrite <- Hgot. solve_Permutation.
Qed.

(** Client [i] moves from [(o, ph)] to [c]. *)
Lemma enqueued_update b q s h i c c' :
  clients b !! i = Some c →
  of_client [] put_by c ++ enqueued (BQ q s (set_client b i c') (history b ++ h)) ≡ₚ
  (of_client [] put_by c' ++ concat ((λ e, put_by (fst e) (Finished (snd e))) <$> h)) ++ enqueued b.
Proof.
  intros Hi. unfold enqueued, set_client. simpl. rewrite fmap_app, concat_app, (assoc_L app).
  rewrite (concat_insert _ _ _ _ _ Hi). solve_Permutation.
Qed.

Lemma dequeued_update b q s h i c c' :
  clients b !! i = Some c →
  of_client [] (λ _, got_by) c ++ dequeued (BQ q s (set_client b i c') (history b ++ h)) ≡ₚ
  (of_client [] (λ _, got_by) c' ++ concat ((λ e, got_by (Finished (snd e))) <$> h)) ++ dequeued b.
Proof.
  intros Hi. unfold dequeued, set_client. simpl. rewrite fmap_app, concat_app, (assoc_L app).
  rewrite (concat_insert _ _ _ _ _ Hi). solve_Permutation.
Qed.

Lemma elems_update b q s h i c c' :
  clients b !! i = Some c → enqueued b ≡ₚ dequeued b ++ elems b →
  (of_client [] put_by c' ++ concat ((λ e, put_by (fst e) (Finished (snd e))) <$> h)) ++
    of_client [] (λ _, got_by) c ++ elems b ≡ₚ
  of_client [] put_by c ++
    (of_client [] (λ _, got_by) c' ++ concat ((λ e, got_by (Finished (snd e))) <$> h)) ++ iq_elems q →
  enqueued (BQ q s (set_client b i c') (history b ++ h)) ≡ₚ
  dequeued (BQ q s (set_client b i c') (history b ++ h)) ++ iq_elems q.
Proof.
  intros Hi Hb. eapply conserve; [by eapply enqueued_update|by eapply dequeued_update|done].
Qed.

(** ** The inner queue and the semaphore, one call at a time *)

Lemma inner_enqueue_law o e q q' ok :
  is_enqueue o = true → call_inner_enqueue o e q = (q', ok) →
  iq_elems q' ≡ₚ (if ok then items o else []) ++ iq_elems q.
Proof.
  intros Ho He. destruct o as [al tok x|al tok xs| | | | | |]; try done; simpl in *.
  - pose proof (iq_enqueue_law al tok x e q) as P. by rewrite He in P.
  - pose proof (iq_enqueue_bulk_law al tok xs e q) as P. by rewrite He in P.
Qed.

Lemma inner_dequeue_law o want e q q' xs :
  is_enqueue o = false → (0 < want)%nat → call_inner_dequeue o want e q = (q', xs) →
  (length xs ≤ want)%nat ∧ iq_elems q ≡ₚ xs ++ iq_elems q'.
Proof.
  intros Ho Hw He.
  assert (∀ tok, (let '(q, x) := iq_try_dequeue tok e q in (q, option_list x)) = (q', xs) →
    (length xs ≤ want)%nat ∧ iq_elems q ≡ₚ xs ++ iq_elems q').
  { intros tok. pose proof (iq_try_dequeue_law tok e q) as P.
    destruct (iq_try_dequeue tok e q) as [q1 x]. intros [= -> <-]. split; [|done].
    destruct x; simpl; lia. }
  assert (∀ tok, iq_try_dequeue_bulk tok want e q = (q', xs) →
    (length xs ≤ want)%nat ∧ iq_elems q ≡ₚ xs ++ iq_elems q').
  { intros tok Hd. pose proof (iq_try_dequeue_bulk_law tok want e q) as P. by rewrite Hd in P. }
  destruct o; try done; simpl in He; eauto.
Qed.

Lemma sema_call_ok o : op_ok o → call_ok (sema_call o).
Proof.
  unfold op_ok, SSIZE_MAX. intros (H1 & H2 & H3). unfold call_ok.
  destruct o; simpl in *; try done; rewrite ?ssize_ok by lia; split; try done; by apply Z.leb_le; lia.
Qed.

Lemma sema_call_enqueue o :
  op_ok o → is_enqueue o = true → asked (sema_call o) = length (items o) ∧ is_signal (sema_call o).
Proof.
  unfold op_ok, SSIZE_MAX. intros (H1 & _) He. destruct o; try done; simpl in *.
  split; [|done]. apply ssize_ok. lia.
Qed.

Lemma sema_call_dequeue o r :
  op_ok o → is_enqueue o = false → result_in (sema_call o) r →
  asked (sema_call o) = 0 ∧ 0 <= r <= op_limit o ∧ (blocking o = true → 0 < r).
Proof.
  unfold op_ok, result_in, SSIZE_MAX. intros (_ & H1 & H2) He [H3 H4].
  destruct o as [| | |tok max|tok|tok t|tok max|tok max t]; try done; simpl in *;
    rewrite ?ssize_ok in * by lia; (split; [done|split; [done|]]); try done; intros Hb.
  - apply (H4 (-1)); done || lia.
  - apply Z.ltb_lt in Hb. by apply (H4 t).
  - apply (H4 (-1)); done || lia.
  - apply andb_prop in Hb as [Hb Hm]. apply Z.ltb_lt in Hb, Hm. by apply (H4 t).
Qed.

Lemma sema_begin s i c s' :
  step s (Begin i c) = Some s' →
  threads s !! i = Some None ∧ log s' = log s ∧
  threads s' = <[i := Some (c, start c)]> (threads s) ∧
  owed (threads s') = owed (threads s) + asked c.
Proof.
  simpl. destruct (threads s !! i) as [[|]|] eqn:Hi; try done. intros [= <-]. simpl.
  split_and!; try done. unfold owed. rewrite (zsum_insert _ _ _ _ _ Hi). simpl. lia.
Qed.

Lemma sema_act s i a s' c p :
  threads s !! i = Some (Some (c, p)) → step s (Act i a) = Some s' →
  match sema_result s i with
  | Some r =>
      p = Returning r ∧ threads s' = <[i := None]> (threads s) ∧ log s' = log s ++ [(c, r)] ∧
      owed (threads s') = owed (threads s) - asked c
  | None =>
      (∃ p', threads s' = <[i := Some (c, p')]> (threads s)) ∧ log s' = log s ∧
      owed (threads s') = owed (threads s)
  end.
Proof.
  intros Hi Hs. unfold sema_result. rewrite Hi. unfold owed.
  destruct (act_cases _ _ _ _ _ _ Hi Hs) as [(r & -> & ->)|(sh' & p' & Ha & ->)].
  - simpl. rewrite (zsum_insert _ _ _ _ _ Hi). simpl. split_and!; try done; lia.
  - destruct p; simpl; rewrite (zsum_insert _ _ _ _ _ Hi); simpl; (split_and!; [by eauto|done|lia]) || done.
Qed.

(** ** The invariant is kept *)

(** Client [i] goes from [c] to [c'], the rest being given. *)
Lemma client_update budget budget' b i c c' q s h :
  binv budget b → clients b !! i = Some c →
  (∃ k, inv 0 k s ∧ k + pending b - of_client 0 to_put c + of_client 0 to_put c' <= budget') →
  calls_good s → Forall2 linked (<[i := c']> (clients b)) (threads s) →
  of_client True client_ok c' →
  length (iq_elems q) + acquired_by (log s) =
    signalled_by (log s) + owed (threads s) + wanted b
    - of_client 0 (λ _, wanted_by) c + of_client 0 (λ _, wanted_by) c' →
  (of_client [] put_by c' ++ concat ((λ e, put_by (fst e) (Finished (snd e))) <$> h)) ++
    of_client [] (λ _, got_by) c ++ elems b ≡ₚ
  of_client [] put_by c ++
    (of_client [] (λ _, got_by) c' ++ concat ((λ e, got_by (Finished (snd e))) <$> h)) ++ iq_elems q →
  Forall (λ e, reply_ok (fst e) (snd e)) h →
  binv budget' (BQ q s (set_client b i c') (history b ++ h)).
Proof.
  intros I Hi (k & Hk & Hb) Hg Hl Hc Hp He Hh. destruct I as [_ _ _ I4 I5 I6 I7].
  constructor; simpl; try done.
  - exists k. split; [done|]. unfold pending, set_client in *. simpl.
    rewrite (zsum_insert _ _ _ _ _ Hi). lia.
  - by apply Forall_insert.
  - unfold wanted, set_client, elems in *. simpl. rewrite (zsum_insert _ _ _ _ _ Hi). lia.
  - by eapply elems_update.
  - by apply Forall_app.
Qed.

Lemma client_update' budget budget' b i c c' q s :
  binv budget b → clients b !! i = Some c →
  (∃ k, inv 0 k s ∧ k + pending b - of_client 0 to_put c + of_client 0 to_put c' <= budget') →
  calls_good s → Forall2 linked (<[i := c']> (clients b)) (threads s) →
  of_client True client_ok c' →
  length (iq_elems q) + acquired_by (log s) =
    signalled_by (log s) + owed (threads s) + wanted b
    - of_client 0 (λ _, wanted_by) c + of_client 0 (λ _, wanted_by) c' →
  of_client [] put_by c' ++ of_client [] (λ _, got_by) c ++ elems b ≡ₚ
  of_client [] put_by c ++ of_client [] (λ _, got_by) c' ++ iq_elems q →
  binv budget' (BQ q s (set_client b i c') (history b)).
Proof.
  intros I Hi Hk Hg Hl Hc Hp He. rewrite <- (app_nil_r (history b)).
  eapply client_update; try done. simpl. by rewrite !app_nil_r.
Qed.

Lemma linked_sema b budget i o ph :
  binv budget b → clients b !! i = Some (Some (o, ph)) → ph = Signalling ∨ ph = Waiting →
  ∃ p, threads (sema_ b) !! i = Some (Some (sema_call o, p)).
Proof.
  intros I Hi Hph. destruct (Forall2_lookup_l _ _ _ _ _ (bi_linked _ _ I) Hi) as (th & Hth & Hl).
  destruct Hph as [-> | ->]; destruct th as [[c p]|]; simpl in Hl; subst; eauto; done.
Qed.

Lemma linked_keep b budget i c c' :
  binv budget b → clients b !! i = Some c → linked c None → linked c' None →
  (∀ o ph, c = Some (o, ph) → ph ≠ Signalling ∧ ph ≠ Waiting) →
  Forall2 linked (<[i := c']> (clients b)) (threads (sema_ b)).
Proof.
  intros I Hi Hc Hc' Hph. destruct (Forall2_lookup_l _ _ _ _ _ (bi_linked _ _ I) Hi) as (th & Hth & Hl).
  rewrite <- (list_insert_id (threads (sema_ b)) i th Hth).
  apply Forall2_insert; [apply I|]. destruct c as [[o ph]|]; [|by simpl in Hl; subst].
  destruct (Hph _ _ eq_refl). destruct ph; simpl in Hl; by subst.
Qed.

Definition bbrings (l : blabel) : Z := match l with BBegin _ o => length (items o) | _ => 0 end.
Definition blabel_ok (l : blabel) : Prop := match l with BBegin _ o => op_ok o | _ => True end.

Section step.
Context (budget : Z) (b : bqueue) (I : binv budget b).
Hypothesis Hn : length (clients b) ≤ INT_MAX.
Hypothesis Hbudget : budget <= SSIZE_MAX.

(** What a step of the semaphore keeps. *)
Lemma sema_step_ok l s k :
  inv 0 k (sema_ b) → k + pending b <= budget → step (sema_ b) l = Some s → label_ok l →
  inv 0 (k + brings l) s ∧ calls_good s.
Proof.
  intros Hk Hb Hs Hl.
  assert (0 <= pending b).
  { apply zsum_nonneg, Forall_forall. intros [[o ph]|] _; simpl; [|lia]. destruct ph; simpl; lia. }
  rewrite (Forall2_length _ _ _ (bi_linked _ _ I)) in Hn.
  destruct (step_ok 0 k (sema_ b) l s) as (? & ? & _); try done; [apply I|lia].
Qed.

Lemma client_is i o ph :
  clients b !! i = Some (Some (o, ph)) → client_ok o ph.
Proof. intros Hi. apply (Forall_lookup_1 _ _ _ _ (bi_clients _ _ I) Hi). Qed.

Lemma begin_ok i o b' :
  bstep b (BBegin i o) = Some b' → op_ok o → binv (budget + length (items o)) b'.
Proof.
  intros Hs Ho. cbn [bstep] in Hs. destruct (clients b !! i) as [[|]|] eqn:Hi; try done.
  destruct (bi_sema _ _ I) as (k & Hk & Hb). destruct (is_enqueue o) eqn:He.
  - injection Hs as <-. eapply client_update'; try done; simpl; try apply I.
    + exists k. split; [done|lia].
    + by eapply linked_keep.
    + pose proof (bi_permits _ _ I). unfold elems in *. lia.
  - apply bind_Some in Hs as (s & Hs & [= <-]).
    destruct (sema_step_ok _ _ _ Hk Hb Hs (sema_call_ok o Ho)) as [Hk' Hg].
    apply sema_begin in Hs as (Hth & Hlog & Hths & Howed). rewrite Hths in *.
    assert (asked (sema_call o) = 0) as Ha by (by destruct o).
    simpl in Hk'. rewrite Ha in *.
    eapply client_update'; try done; simpl.
    + eexists. split; [done|lia].
    + rewrite Hths. by apply Forall2_insert; [apply I|].
    + pose proof (bi_permits _ _ I). unfold elems in *. rewrite Hlog, Hths. lia.
Qed.

Lemma inner_enqueue_ok i o e q ok b' :
  clients b !! i = Some (Some (o, Enqueueing)) → call_inner_enqueue o e (inner b) = (q, ok) →
  bstep b (BInner i e) = Some b' → binv budget b'.
Proof.
  intros Hi He Hs. cbn [bstep] in Hs. rewrite Hi, He in Hs.
  destruct (client_is _ _ _ Hi) as [Ho Hen]. pose proof (inner_enqueue_law _ _ _ _ _ Hen He) as P.
  destruct (bi_sema _ _ I) as (k & Hk & Hb). pose proof (Permutation_length P) as Hlen.
  rewrite length_app in Hlen. pose proof (bi_permits _ _ I) as B. unfold elems in B.
  destruct ok.
  - apply bind_Some in Hs as (s & Hs & [= <-]).
    destruct (sema_step_ok _ _ _ Hk Hb Hs (sema_call_ok o Ho)) as [Hk' Hg].
    apply sema_begin in Hs as (Hth & Hlog & Hths & Howed).
    destruct (sema_call_enqueue o Ho Hen) as [Ha _]. simpl in Hk'. rewrite Ha in *.
    eapply client_update'; try done; simpl.
    + eexists. split; [done|lia].
    + rewrite Hths. by apply Forall2_insert; [apply I|].
    + rewrite Hlog, Howed. lia.
  - injection Hs as <-. eapply client_update'; try done; simpl; try apply I.
    + exists k. split; [done|lia].
    + eapply linked_keep; [done..|]; intros ? ? [= <- <-]; done.
    + simpl in Hlen. lia.
Qed.

Lemma inner_dequeue_ok i o want got e q xs b' :
  clients b !! i = Some (Some (o, Dequeueing want got)) →
  call_inner_dequeue o want e (inner b) = (q, xs) →
  bstep b (BInner i e) = Some b' → binv budget b'.
Proof.
  intros Hi He Hs. cbn [bstep] in Hs. rewrite Hi, He in Hs. injection Hs as <-.
  destruct (client_is _ _ _ Hi) as (Ho & Hen & Hw & Hl).
  destruct (inner_dequeue_law _ _ _ _ _ _ Hen Hw He) as [Hxs P].
  destruct (bi_sema _ _ I) as (k & Hk & Hb). pose proof (Permutation_length P) as Hlen.
  rewrite length_app in Hlen. pose proof (bi_permits _ _ I) as B. unfold elems in B.
  unfold dequeueing. destruct (want - length xs)%nat as [|m] eqn:Hm.
  - eapply client_update'; try done; simpl; try apply I.
    + exists k. split; [done|lia].
    + eapply linked_keep; [done..|]; intros ? ? [= <- <-]; done.
    + split; [done|]. split_and!; [done|rewrite length_app; lia|].
      intros _ Hnil. apply (f_equal length) in Hnil. rewrite length_app in Hnil. simpl in Hnil. lia.
    + lia.
    + unfold elems. rewrite P. solve_Permutation.
  - eapply client_update'; try done; simpl; try apply I.
    + exists k. split; [done|lia].
    + eapply linked_keep; [done..|]; intros ? ? [= <- <-]; done.
    + split; [done|]. split_and!; [done|lia|rewrite length_app; lia].
    + lia.
    + unfold elems. rewrite P. solve_Permutation.
Qed.
Lemma sema_act_ok i a b' : bstep b (BSema i a) = Some b' → binv budget b'.
Proof.
  intros Hs. cbn [bstep] in Hs. destruct (clients b !! i) as [[[o ph]|]|] eqn:Hi; try done.
  assert (∃ s, (ph = Signalling ∨ ph = Waiting) ∧ step (sema_ b) (Act i a) = Some s ∧
    b' = BQ (inner b) s (set_client b i (Some (o,
      match sema_result (sema_ b) i with Some r => after_sema o r | None => ph end))) (history b))
    as (s & Hph & Hs' & ->).
  { destruct ph; try done; apply bind_Some in Hs as (s & Hs & [= <-]); eauto. }
  clear Hs. destruct (linked_sema _ _ _ _ _ I Hi Hph) as [p Hp].
  destruct (client_is _ _ _ Hi) as [Ho Hc]. destruct (bi_sema _ _ I) as (k & Hk & Hb).
  destruct (sema_step_ok _ _ _ Hk Hb Hs' Logic.I) as [Hk' Hg]. simpl in Hk'.
  rewrite Z.add_0_r in Hk'. pose proof (sema_act _ _ _ _ _ _ Hp Hs') as A.
  pose proof (bi_permits _ _ I) as B. unfold elems in B.
  assert (of_client 0 to_put (Some (o, ph)) = 0) as Hput by (by destruct Hph as [-> | ->]).
  destruct (sema_result (sema_ b) i) as [r|] eqn:Hr.
  - destruct A as (-> & Hths & Hlog & Howed). destruct (thread_ok _ _ _ Hk _ _ _ Hp) as [_ [Hres _]].
    assert (acquired_by (log s) = acquired_by (log (sema_ b)) + r ∧
            signalled_by (log s) = signalled_by (log (sema_ b)) + asked (sema_call o)) as [Hacq Hsig].
    { unfold acquired_by, signalled_by. rewrite Hlog, !zsum_app. simpl. lia. }
    unfold after_sema. destruct (is_enqueue o) eqn:He.
    + destruct (sema_call_enqueue o Ho He) as [Ha Hsg]. destruct Hph as [-> | ->]; [|done].
      assert (r = 0) as -> by (destruct Hres; destruct (sema_call o); simpl in *; try done; lia).
      eapply client_update'; try done; simpl.
      * exists k. split; [done|]. simpl in Hput. lia.
      * rewrite Hths. by apply Forall2_insert; [apply I|].
      * lia.
    + destruct (sema_call_dequeue o r Ho He Hres) as (Ha & Hr0 & Hbl).
      destruct Hph as [-> | ->]; [simpl in Hc; congruence|]. unfold dequeueing.
      destruct (Z.to_nat r) as [|m] eqn:Hm; (eapply client_update'; try done; simpl;
        [exists k; split; [done|]; simpl in Hput; lia
        |rewrite Hths; by apply Forall2_insert; [apply I|]
        |split; [done|]; simpl; rewrite ?He|lia]).
      * split_and!; [done|lia|]. intros Hb' _. specialize (Hbl Hb'). lia.
      * split_and!; [done|lia|lia].
  - destruct A as ((p' & Hths) & Hlog & Howed). eapply client_update'; try done.
    + exists k. split; [done|lia].
    + rewrite Hths. apply Forall2_insert; [apply I|]. by destruct Hph as [-> | ->].
    + rewrite Hlog, Howed. lia.
Qed.

Lemma return_ok i b' : bstep b (BReturn i) = Some b' → binv budget b'.
Proof.
  intros Hs. cbn [bstep] in Hs. destruct (clients b !! i) as [[[o ph]|]|] eqn:Hi; try done.
  destruct ph as [| | | |r]; try done. injection Hs as <-.
  destruct (client_is _ _ _ Hi) as [Ho Hr]. destruct (bi_sema _ _ I) as (k & Hk & Hb).
  pose proof (bi_permits _ _ I) as B. unfold elems in B.
  eapply client_update; try done; simpl; try apply I.
  - exists k. split; [done|lia].
  - eapply linked_keep; [done..|]. by intros ? ? [= <- <-].
  - lia.
  - unfold elems. rewrite !app_nil_r. solve_Permutation.
  - by apply Forall_singleton.
Qed.
End step.

Lemma length_clients b l b' : bstep b l = Some b' → length (clients b') = length (clients b).
Proof.
  intros Hs. destruct l as [i o|i e|i a|i]; cbn [bstep] in Hs;
    destruct (clients b !! i) as [[[o' ph]|]|]; try done.
  - destruct (is_enqueue o); [by injection Hs as <-; apply length_insert|].
    apply bind_Some in Hs as (s & _ & [= <-]). apply length_insert.
  - destruct ph; try done.
    + destruct (call_inner_enqueue _ _ _) as [q []]; [|by injection Hs as <-; apply length_insert].
      apply bind_Some in Hs as (s & _ & [= <-]). apply length_insert.
    + destruct (call_inner_dequeue _ _ _ _). injection Hs as <-. apply length_insert.
  - destruct ph; try done; apply bind_Some in Hs as (s & _ & [= <-]); apply length_insert.
  - destruct ph; try done. injection Hs as <-. apply length_insert.
Qed.

Lemma bstep_ok budget b l b' :
  binv budget b → length (clients b) ≤ INT_MAX → budget <= SSIZE_MAX →
  blabel_ok l → bstep b l = Some b' → binv (budget + bbrings l) b'.
Proof.
  intros I Hn Hb Hl Hs. destruct l as [i o|i e|i a|i]; simpl; rewrite ?Z.add_0_r.
  - by eapply begin_ok.
  - pose proof Hs as Hs'. cbn [bstep] in Hs'.
    destruct (clients b !! i) as [[[o ph]|]|] eqn:Hi; try done. destruct ph as [| | |want got|]; try done.
    + destruct (call_inner_enqueue o e (inner b)) as [q ok] eqn:He. by eapply inner_enqueue_ok.
    + destruct (call_inner_dequeue o want e (inner b)) as [q xs] eqn:He. by eapply inner_dequeue_ok.
  - by eapply sema_act_ok.
  - by eapply return_ok.
Qed.

(** ** Correctness *)

Definition schedule_good (n : nat) (ls : list blabel) : Prop :=
  n ≤ INT_MAX ∧ Forall blabel_ok ls ∧ zsum bbrings ls <= SSIZE_MAX.

(** A run of [n] threads on a queue created empty. *)
Definition reaches (n : nat) (ls : list blabel) (b : bqueue) : Prop :=
  ∃ q b0, iq_elems q = [] ∧ bcreate q true n = Ok b0 ∧ brun b0 ls = Some b.

Lemma bcreate_inv q n : iq_elems q = [] → binv 0 (BQ q (create 0 n) (replicate n None) []).
Proof.
  intros Hq. constructor; unfold elems, enqueued, dequeued, wanted, pending, acquired_by,
    signalled_by, owed; simpl; rewrite ?zsum_replicate, ?Hq; simpl; try done.
  - exists 0. split; [by apply create_inv|lia].
  - by apply Forall_replicate.
  - by apply Forall2_replicate.
  - by apply Forall_replicate.
  - lia.
  - rewrite !app_nil_r, !fmap_replicate. simpl. by induction n.
Qed.

Lemma brun_ok ls : ∀ budget b b',
  binv budget b → length (clients b) ≤ INT_MAX → Forall blabel_ok ls →
  budget + zsum bbrings ls <= SSIZE_MAX → brun b ls = Some b' →
  binv (budget + zsum bbrings ls) b' ∧ length (clients b') = length (clients b).
Proof.
  induction ls as [|l ls IH]; intros budget b b' I Hn Hl Hb Hr; simpl in *.
  - injection Hr as <-. by rewrite Z.add_0_r.
  - apply bind_Some in Hr as (b1 & Hs & Hr). apply Forall_cons in Hl as [Hl Hls].
    assert (∀ l, 0 <= bbrings l) as Hpos by (intros []; simpl; lia).
    pose proof (zsum_nonneg bbrings ls ltac:(by apply Forall_forall)). pose proof (Hpos l).
    pose proof (bstep_ok _ _ _ _ I Hn ltac:(lia) Hl Hs) as I1. apply length_clients in Hs.
    rewrite Z.add_assoc. rewrite <- Hs in Hn |- *. apply (IH _ b1); [done..|lia|done].
Qed.

Lemma reaches_inv n ls b :
  schedule_good n ls → reaches n ls b → binv (zsum bbrings ls) b ∧ length (clients b) = n.
Proof.
  intros (Hn & Hl & Hb) (q & b0 & Hq & [= <-] & Hr).
  destruct (brun_ok ls _ _ _ (bcreate_inv q n Hq)
    ltac:(simpl; by rewrite length_replicate) Hl Hb Hr) as [I Hlen].
  split; [done|]. rewrite Hlen. apply length_replicate.
Qed.

(** The elements in the inner queue, split by where their permits are. *)
Lemma elems_count budget b k :
  binv budget b → inv 0 k (sema_ b) →
  Z.of_nat (length (elems b)) =
    held (threads (sema_ b)) + pos (m_count (sh (sema_ b))) + m_sema (sh (sema_ b)) +
    posts (threads (sema_ b)) + (owed (threads (sema_ b)) - given (threads (sema_ b))) + wanted b.
Proof. intros I Hk. pose proof (bi_permits _ _ I). pose proof (inv_permits _ _ _ Hk). lia. Qed.

Lemma wanted_nonneg b : Forall (λ c, 0 <= of_client 0 (λ _, wanted_by) c) (clients b).
Proof. apply Forall_forall. intros [[o ph]|] _; simpl; [destruct ph; simpl|]; lia. Qed.

(** in every interleaving of the methods, what was enqueued successfully is what
    was dequeued and what is inside, each element once; every reply is within its
    method's contract (a [wait_dequeue] returns an element, a bulk dequeue at most
    [max]); and no assertion fails. *)
Theorem blocking_conserves n ls b :
  schedule_good n ls → reaches n ls b →
  enqueued b ≡ₚ dequeued b ++ elems b ∧
  Forall (λ e, reply_ok (fst e) (snd e)) (history b) ∧ bad (sema_ b) = false.
Proof.
  intros Hok Hr. destruct (reaches_inv _ _ _ Hok Hr) as [I _].
  destruct (bi_sema _ _ I) as (k & Hk & _).
  split_and!; [apply I|apply I|apply (inv_good _ _ _ Hk)].
Qed.

(** A thread that wants elements has as many permits that are not used up. *)
Lemma permits_cover n ls b i o want got :
  schedule_good n ls → reaches n ls b → clients b !! i = Some (Some (o, Dequeueing want got)) →
  is_enqueue o = false ∧ (0 < want ≤ length (elems b))%nat.
Proof.
  intros Hok Hr Hi. destruct (reaches_inv _ _ _ Hok Hr) as [I _].
  destruct (bi_sema _ _ I) as (k & Hk & _). pose proof (elems_count _ _ _ I Hk) as E.
  pose proof (zsum_ge _ _ _ _ (wanted_nonneg b) Hi) as Hw. fold (wanted b) in Hw. simpl in Hw.
  pose proof (given_le_owed _ _ _ Hk). pose proof (held_nonneg _ _ _ Hk).
  pose proof (inv_sema _ _ _ Hk). pose proof (zsum_nonneg _ _ (posts_nonneg _ _ _ Hk)) as P.
  fold (posts (threads (sema_ b))) in P. unfold pos in *.
  destruct (client_is _ _ I _ _ _ Hi) as (_ & Hen & Hpos & _). split; [done|lia].
Qed.

(** a thread in the loop [while (!inner.try_dequeue(item))] never waits for an
    element that does not exist: the inner queue has at least as many elements as it
    still wants, and some call of [try_dequeue] there succeeds. *)
Theorem permit_has_element n ls b i o want got :
  schedule_good n ls → reaches n ls b →
  clients b !! i = Some (Some (o, Dequeueing want got)) →
  (want ≤ length (elems b))%nat ∧ ∃ e, (call_inner_dequeue o want e (inner b)).2 ≠ [].
Proof.
  intros Hok Hr Hi. destruct (permits_cover _ _ _ _ _ _ _ Hok Hr Hi) as (Hen & Hpos & Hle). split; [done|].
  assert (Hne : iq_elems (inner b) ≠ []).
  { intros Hnil. unfold elems in Hle. rewrite Hnil in Hle. simpl in Hle. lia. }
  destruct o as [| |tok|tok max|tok|tok t|tok max|tok max t]; try done; simpl.
  all: try (by apply iq_dequeue_bulk_progress).
  all: destruct (iq_dequeue_progress tok _ Hne) as [e [x He]]; exists e;
    destruct (iq_try_dequeue tok e (inner b)); simpl in *; by subst.
Qed.

(** C30: no lost wakeup: when every method in progress sleeps in the system semaphore
    and the queue has an element, a sleeping thread can be woken. *)
Theorem no_sleep_on_elements n ls b i o c w t :
  schedule_good n ls → reaches n ls b →
  (∀ j o' ph, clients b !! j = Some (Some (o', ph)) →
     ph = Waiting ∧ ∃ c' w' t', threads (sema_ b) !! j = Some (Some (c', InSema w' t'))) →
  clients b !! i = Some (Some (o, Waiting)) →
  threads (sema_ b) !! i = Some (Some (c, InSema w t)) →
  elems b ≠ [] → is_Some (bstep b (BSema i (Sys Success))).
Proof.
  intros Hok Hr Hall Hi Hth Hne. destruct (reaches_inv _ _ _ Hok Hr) as [I _].
  destruct (bi_sema _ _ I) as (k & Hk & _). pose proof (elems_count _ _ _ I Hk) as E.
  assert (Hz : Forall (λ th, of_thread (λ _, held_pc) th = 0 ∧ of_thread (λ _, posts_pc) th = 0 ∧
      of_thread (λ c _, asked c) th = 0 ∧ of_thread given_pc th = 0) (threads (sema_ b))).
  { apply Forall_lookup. intros j th Hj.
    destruct (Forall2_lookup_r _ _ _ _ _ (bi_linked _ _ I) Hj) as ([[o' ph]|] & Hc & Hl);
      [|by simpl in Hl; subst]. destruct (Hall _ _ _ Hc) as [-> (c' & w' & t' & Hj')].
    rewrite Hj in Hj'. injection Hj' as ->. simpl in Hl. subst c'.
    destruct (client_is _ _ I _ _ _ Hc) as [_ He]. simpl in He. split_and!; try done; by destruct o'. }
  assert (wanted b = 0) as Hw.
  { apply zsum_zero, Forall_lookup. intros j [[o' ph]|] Hj; [|done].
    by destruct (Hall _ _ _ Hj) as [-> _]. }
  assert (owed (threads (sema_ b)) = 0 ∧ held (threads (sema_ b)) = 0 ∧
    posts (threads (sema_ b)) = 0 ∧ given (threads (sema_ b)) = 0) as (Ho & Hh & Hp & Hg) by (split_and!; apply zsum_zero; 
      (eapply Forall_impl; [exact Hz|]); by intros ? (? & ? & ? & ?)).
  pose proof (inv_waiting _ _ _ Hk) as W. pose proof (inv_permits _ _ _ Hk).
  assert (1 <= waiting (threads (sema_ b))).
  { eapply Z.le_trans; [|eapply (zsum_ge _ _ i (Some (c, InSema w t))); [|done]]; [done|].
    apply Forall_forall. intros [[c' p']|] _; simpl; [destruct p'; simpl|]; lia. }
  assert (length (elems b) ≠ 0%nat) by (by destruct (elems b)).
  assert (0 < m_sema (sh (sema_ b))) as Hv.
  { pose proof (inv_sema _ _ _ Hk). unfold pos in *. lia. }
  cbn [bstep]. rewrite Hi. cbn [step]. rewrite Hth. simpl. unfold sem_wait, sem_timedwait.
  destruct (t <? 0); simpl; rewrite (proj2 (Z.ltb_lt 0 _)) by done; simpl; eauto.
Qed.

(** with no method in progress [size_approx] is the number of elements. *)
Theorem size_approx_exact n ls b :
  schedule_good n ls → reaches n ls b → clients b = replicate n None →
  size_approx b = length (elems b).
Proof.
  intros Hok Hr Hq. destruct (reaches_inv _ _ _ Hok Hr) as [I _].
  destruct (bi_sema _ _ I) as (k & Hk & _). pose proof (elems_count _ _ _ I Hk) as E.
  assert (threads (sema_ b) = replicate n None) as Hth.
  { pose proof (bi_linked _ _ I) as L. rewrite Hq in L. clear - L.
    remember (replicate n None) as l eqn:Hl. revert n Hl. induction L as [|c th l l' Hc L IH];
      intros [|n] Hl; simplify_eq/=; [done|]. f_equal. by apply IH. }
  pose proof (inv_waiting _ _ _ Hk) as W. pose proof (inv_sema _ _ _ Hk).
  unfold wanted in E. rewrite Hth in E, W. rewrite Hq in E.
  unfold waiting, posts, held, given, owed in *. repeat rewrite zsum_replicate in E.
  repeat rewrite zsum_replicate in W. simpl in E, W.
  unfold size_approx, availableApprox, pos in *.
  destruct (Z.ltb_spec 0 (m_count (sh (sema_ b)))); lia.
Qed.
End laws.
End queue.

(** ** A run on a list that may fail when the environment says so *)

#[global] Instance list_queue : InnerQueue (list Z) Z bool := {|
  iq_enqueue _ _ x (e : bool) q := if e then (q ++ [x], true) else (q, false);
  iq_enqueue_bulk _ _ xs (e : bool) q := if e then (q ++ xs, true) else (q, false);
  iq_try_dequeue _ (e : bool) q :=
    match q with x :: q' => if e then (q', Some x) else (q, None) | [] => (q, None) end;
  iq_try_dequeue_bulk _ max (e : bool) q :=
    if e then (drop max q, take max q) else (q, [])
|}.

#[global] Program Instance list_queue_laws : InnerQueueLaws (list Z) Z bool := {|
  iq_elems q := q
|}.
Next Obligation. intros al tok x [] q; simpl; [by rewrite (Permutation_app_comm q)|done]. Qed.
Next Obligation. intros al tok xs [] q; simpl; [by rewrite (Permutation_app_comm q)|done]. Qed.
Next Obligation. by intros tok [] [|x q]. Qed.
Next Obligation.
  intros tok max [] q; simpl; [|lia || (split; [lia|done])].
  rewrite length_take, take_drop. split; [lia|done].
Qed.
Next Obligation. intros tok [|x q] H; [done|]. exists true. by eexists. Qed.
Next Obligation. intros tok [|max] [|x q] H Hm; simpl in *; try done; try lia. by exists true. Qed.

(** A consumer spins out and sleeps, a producer enqueues two elements, the
    consumer takes the first, missing it once. *)
Definition asleep_then_fed : list (blabel (T := Z) (Env := bool)) :=
  [BBegin 0 (wait_dequeue None); BSema 0 (Seen 0)] ++ replicate SPINS (BSema 0 (Seen 0)) ++
  [BSema 0 Go; BBegin 1 (enqueue_bulk true None [7; 8]); BInner 1 true; BSema 1 Go; BSema 1 Go;
   BSema 1 Go; BReturn 1].
Definition fed : list (blabel (T := Z) (Env := bool)) :=
  asleep_then_fed ++ [BSema 0 (Sys Success); BSema 0 Go].
Definition taken : list (blabel (T := Z) (Env := bool)) :=
  fed ++ [BInner 0 false; BInner 0 true; BReturn 0].

Definition bafter (ls : list (blabel (T := Z) (Env := bool))) : bqueue (Q := list Z) (T := Z) :=
  default (BQ [] (create 0 2) [] []) (brun (BQ [] (create 0 2) (replicate 2 None) []) ls).

Lemma schedule_good_dec (n : nat) (ls : list (blabel (T := Z) (Env := bool))) :
  (n <=? INT_MAX) &&
  forallb (λ l, match l with
    | BBegin _ o => (length (items o) <=? SSIZE_MAX) && (0 <=? op_limit o) &&
        (op_limit o <=? SSIZE_MAX) && match o with wait_dequeue_bulk _ max => 0 <? max | _ => true end
    | _ => true
    end) ls && (zsum bbrings ls <=? SSIZE_MAX) = true →
  schedule_good n ls.
Proof.
  intros H. repeat apply andb_prop in H as [H ?]. unfold schedule_good.
  split_and!; [by apply Z.leb_le| |by apply Z.leb_le].
  apply Forall_forall. intros l Hl. apply forallb_forall with (x := l) in H1; [|by apply list_elem_of_In].
  destruct l as [i o| | |]; try done. repeat apply andb_prop in H1 as [H1 ?].
  unfold blabel_ok, op_ok. split_and!; [by apply Z.leb_le..|]. destruct o; try done. by apply Z.ltb_lt.
Qed.

Lemma bafter_reaches ls b :
  brun (BQ [] (create 0 2) (replicate 2 None) []) ls = Some b →
  reaches (Q := list Z) (T := Z) (Env := bool) 2 ls b.
Proof. intros H. by exists [], (BQ [] (create 0 2) (replicate 2 None) []). Qed.

Lemma blocking_conserves_witness :
  history (bafter taken) =
    [(enqueue_bulk true None [7; 8], Enqueued true); (wait_dequeue None, Dequeued [7])] ∧
  elems (Env := bool) (bafter taken) = [8] ∧ bad (sema_ (bafter taken)) = false.
Proof.
  split; [by vm_compute|]. split; [by vm_compute|].
  apply (blocking_conserves (T := Z) (Env := bool) 2 taken);
    [apply schedule_good_dec; by vm_compute|apply bafter_reaches; by vm_compute].
Defined.

Lemma permit_has_element_witness :
  clients (bafter fed) !! 0%nat = Some (Some (wait_dequeue None, Dequeueing 1 [])) ∧
  (1 ≤ length (elems (Env := bool) (bafter fed)))%nat.
Proof.
  split; [by vm_compute|].
  apply (permit_has_element (T := Z) (Env := bool) 2 fed (bafter fed) 0 (wait_dequeue None) 1 []);
    [apply schedule_good_dec; by vm_compute|apply bafter_reaches; by vm_compute|by vm_compute].
Defined.

Lemma no_sleep_on_elements_witness :
  elems (Env := bool) (bafter asleep_then_fed) = [7; 8] ∧
  is_Some (bstep (Env := bool) (bafter asleep_then_fed) (BSema 0 (Sys Success))).
Proof.
  split; [by vm_compute|].
  apply (no_sleep_on_elements (T := Z) (Env := bool) 2 asleep_then_fed (bafter asleep_then_fed) 0
    (wait_dequeue None) wait_forever One (-1));
    [apply schedule_good_dec; by vm_compute|apply bafter_reaches; by vm_compute| |by vm_compute..].
  intros j o' ph.
  replace (clients (bafter asleep_then_fed)) with [Some (wait_dequeue (T := Z) None, Waiting (T := Z)); None]
    by (by vm_compute).
  destruct j as [|[|j]]; simpl; [|done..]. intros [= <- <-]. split; [done|].
  eexists wait_forever, One, (-1). by vm_compute.
Defined.

Lemma size_approx_exact_witness :
  size_approx (bafter taken) = 1 ∧
  size_approx (bafter taken) = length (elems (Env := bool) (bafter taken)).
Proof.
  split; [by vm_compute|].
  apply (size_approx_exact (T := Z) (Env := bool) 2 taken);
    [apply schedule_good_dec; by vm_compute|apply bafter_reaches; by vm_compute|by vm_compute].
Defined.
End BlockingConcurrentQueue.
