(* ===== verification/ConcurrentInner.v ===== *)
(** * [BlockingConcurrentQueue] on [ConcurrentQueue]

    blockingconcurrentqueue.h: the member [inner] is a [ConcurrentQueue].  Here the
    methods of McQueueRuns.v, on the producers of McProducerBase.v, are shown to keep what
    BlockingConcurrentQueue.v asks of its inner queue, so that its theorems hold of the
    two together. *)
From S2P Require Import Prelude McBlock McPool McBulk McImplicit McSubQueue McProducerBase McQueue McQueueRuns McConcurrentQueue.
From S2P Require Import McImplicitIndex McTokens LightweightSemaphore BlockingConcurrentQueue.
Local Open Scope Z_scope.

Module ConcurrentInner.
Import McBlock McPool McSubQueue McProducerBase McQueue McQueueRuns McConcurrentQueue.

(** ** Pieces taken from the fronts of lists *)

Section pieces.
Context {E P T : Type} `{!SubQueue E P T} `{!SubQueueLaws E P T}.
Implicit Types (qs : list (list T)).

Lemma takes_concat qs ps qs' : takes qs ps qs' → concat qs ≡ₚ concat ps.*2 ++ concat qs'.
Proof.
  induction 1 as [|qs k ys zs ps qs' Hk _ IH]; [done|]. cbn [fmap list_fmap concat snd].
  rewrite <- (assoc_L app), <- IH. pose proof (lookup_lt_Some _ _ _ Hk).
  rewrite (insert_take_drop qs k zs) by done. rewrite <- (take_drop_middle _ _ _ Hk) at 1.
  rewrite !concat_app. cbn [concat]. rewrite <- !(assoc_L app). solve_Permutation.
Qed.

Lemma takes_suffix qs ps qs' i xs' :
  takes qs ps qs' → qs' !! i = Some xs' → ∃ xs, qs !! i = Some xs ∧ xs' `suffix_of` xs.
Proof.
  intros Ht. revert i xs'. induction Ht as [|qs k ys zs ps qs' Hk _ IH]; intros i xs' Hi; [by exists xs'|].
  apply IH in Hi as (xs & Hi & Hs). apply list_lookup_insert_Some in Hi as [(? & ? & _)|[_ Hi]]; [subst|by exists xs].
  eexists. split; [exact Hk|]. by apply suffix_app_r.
Qed.

Lemma all_empty_concat qs : all_empty qs → concat qs = [].
Proof. induction 1 as [|xs qs -> _ IH]; [done|exact IH]. Qed.

(** The end of [xs] that is as long as the sub-queue [p]. *)
Definition rest (p : P) (xs : list T) : list T := drop (length xs - Z.to_nat (sub_size_approx p)) xs.

Lemma rest_suffix p xs xs' : xs' `suffix_of` xs → sub_size_approx p = length xs' → rest p xs = xs'.
Proof.
  intros [ys ->] Hs. unfold rest. rewrite Hs, length_app, Nat2Z.id. replace (_ + _ - _)%nat with (length ys) by lia.
  apply drop_app_length.
Qed.
End pieces.

Section inner.
Context `{Traits} `{Element} `{Quota} {T : Type} `{!TraitsOk}.

Definition sys : Type := system (E := pool T) (P := McProducerBase.sub).

(** A queue with its consumer tokens, the elements of its producers, and a bound of the
    number of elements it has been given. *)
Record inner_queue := Inner {
  real : sys;
  contents : list (list T);
  used : nat;
  real_ok : system_ok real contents used;
  real_fits : BLOCK_SIZE * used < 2 ^ 62;
  real_total : (length (concat contents) ≤ used)%nat
}.

Definition nodes (q : inner_queue) : list (node (P := McProducerBase.sub)) := producers (the_queue (real q)).

Definition accepted_now (q : inner_queue) (c : call (T := T)) : bool :=
  match exec (real q) c with Ok (_, Added (Returned true)) => true | _ => false end.
Definition fits_now (q : inner_queue) (n : nat) : bool := BLOCK_SIZE * (used q + n)%nat <? 2 ^ 62.

(** The calls considered in McQueueRuns.v, of those that are made here; constructors and
    assignments of the elements do not throw. *)
Definition may (q : inner_queue) (c : call (T := T)) : bool :=
  match c with
  | Enqueue i _ throws _ => bool_decide (i < length (nodes q))%nat && negb throws && fits_now q 1
  | EnqueueBulk i _ xs [] =>
      match nodes q !! i with
      | Some nd => (negb (isExplicit (T := T) (McQueue.sub nd)) || accepted_now q c) && fits_now q (length xs)
      | None => false
      end
  | TryDequeue throws => negb throws
  | TryDequeueToken k throws => bool_decide (k < length (consumers (real q)))%nat && negb throws
  | TryDequeueBulk _ [] => true
  | TryDequeueBulkToken k _ [] => bool_decide (k < length (consumers (real q)))%nat
  | _ => false
  end.

Lemma accepted_now_ok q c : accepted_now q c = true → accepted (real q) c.
Proof. unfold accepted_now, accepted. intros Ha s r Hr. rewrite Hr in Ha. by destruct r as [[]|]. Qed.

Lemma may_ok q c : may q c = true → call_ok (real q) c ∧ fits_in (E := pool T) (P := McProducerBase.sub) (T := T) (used q + adds c).
Proof.
  assert (Hfit : ∀ n, fits_now q n = true → fits_in (E := pool T) (P := McProducerBase.sub) (T := T) (used q + n)) by (intros n Hn%Z.ltb_lt; exact Hn).
  assert (Hzero : fits_in (E := pool T) (P := McProducerBase.sub) (T := T) (used q + 0)).
  { rewrite Nat.add_0_r. exact (real_fits q). }
  destruct c as [ | | |i ca th x|i ca xs th|th| |k th| |max th|k max th| | ]; try done; simpl.
  - rewrite !andb_true_iff. intros [[Hi%bool_decide_eq_true_1 Ht%negb_true_iff] Hf]. subst. split; [|by apply Hfit].
    destruct (lookup_lt_is_Some_2 _ _ Hi) as [nd Hnd]. by exists nd.
  - destruct th; [|done]. destruct (nodes q !! i) as [nd|] eqn:Hi; [|done]. rewrite andb_true_iff, orb_true_iff, negb_true_iff.
    intros [Hx Hf]. split; [|by apply Hfit]. exists nd. split; [done|]. intros He. destruct Hx as [Hx|Hx]; [congruence|].
    split; [done|]. by apply accepted_now_ok.
  - rewrite andb_true_iff. intros [Hk%bool_decide_eq_true_1 _]. split; [done|by apply Hzero].
  - destruct th; [|done]. intros Hk%bool_decide_eq_true_1. split; [done|by apply Hzero].
Qed.

(** The elements after call [c] answered [a] and left the system [s]. *)
Definition after (c : call (T := T)) (a : McQueueRuns.answer (T := T)) (s : sys) (qs : list (list T)) : list (list T) :=
  match c, a with
  | Enqueue i _ _ x, Added (Returned true) => alter (λ xs, xs ++ [x]) i qs
  | EnqueueBulk i _ ys _, Added (Returned true) => alter (λ xs, xs ++ ys) i qs
  | Enqueue _ _ _ _, _ | EnqueueBulk _ _ _ _, _ => qs
  | _, _ => zip_with (λ nd xs, rest (McQueue.sub nd) xs) (producers (the_queue s)) qs
  end.

Lemma taken_after qs ps qs' s n :
  takes qs ps qs' → system_ok (s : sys) qs' n → qs' = zip_with (λ nd xs, rest (McQueue.sub nd) xs) (producers (the_queue s)) qs.
Proof.
  intros Ht [I _ _]. pose proof (takes_length _ _ _ Ht) as Hl. pose proof (queue_length _ _ _ I) as Hp.
  apply list_eq. intros i. rewrite lookup_zip_with. destruct (qs' !! i) as [xs'|] eqn:Hi.
  - destruct (takes_suffix _ _ _ _ _ Ht Hi) as (xs & Hx & Hs).
    destruct (lookup_lt_is_Some_2 (producers (the_queue s)) i) as [nd Hnd]; [rewrite <- Hp; by eapply lookup_lt_Some|].
    rewrite Hnd, Hx. simpl. f_equal. symmetry. apply rest_suffix; [done|].
    eapply (size_law (T := T)); [apply (qo_holds _ _ _ I)| |exact Hi]. by rewrite list_lookup_fmap, Hnd.
  - apply lookup_ge_None in Hi. rewrite (proj2 (lookup_ge_None (producers (the_queue s)) i)) by lia. done.
Qed.

Lemma serves_after q c a s qs' n :
  may q c = true → serves (contents q) c a qs' → system_ok (s : sys) qs' n → qs' = after c a s (contents q).
Proof.
  intros Hm Hs I. destruct c as [ | | |i ca th x|i ca xs th|th| |k th| |max th|k max th| | ]; try done;
    destruct a as [| |r|d|d|]; try done; simpl in Hs.
  - destruct Hs as (ys & Hy & -> & _). destruct r as [[]|]; simpl; [|by apply list_insert_id..].
    by rewrite (McTokens.alter_at _ _ _ _ Hy).
  - destruct Hs as (ys & Hy & -> & _). destruct r as [[]|]; simpl; [|by apply list_insert_id..].
    by rewrite (McTokens.alter_at _ _ _ _ Hy).
  - destruct d as [x| |]; [destruct Hs as [_ (ps & Ht & _)]|destruct Hs as (ps & Ht & _)|destruct Hs as (_ & x & ps & Ht & _)];
      by eapply taken_after.
  - destruct d as [x| |]; [destruct Hs as [_ (ps & Ht & _)]|destruct Hs as (ps & Ht & _)|destruct Hs as (_ & x & ps & Ht & _)];
      by eapply taken_after.
  - destruct d; [destruct Hs as (ps & Ht & _)|destruct Hs as (_ & ps & Ht & _)]; by eapply taken_after.
  - destruct d; [destruct Hs as (ps & Ht & _)|destruct Hs as (_ & ps & Ht & _)]; by eapply taken_after.
Qed.

Lemma exec_after q c :
  may q c = true →
  ∃ s a, exec (real q) c = Ok (s, a) ∧ serves (contents q) c a (after c a s (contents q)) ∧
    system_ok (s : sys) (after c a s (contents q)) (used q + adds c) ∧ BLOCK_SIZE * (used q + adds c)%nat < 2 ^ 62.
Proof.
  intros Hm. destruct (may_ok _ _ Hm) as [Hc Hf].
  destruct (exec_serves _ _ _ _ (real_ok q) Hc Hf) as (s & a & qs' & Hr & Hs & S & _). exists s, a.
  rewrite <- (serves_after _ _ _ _ _ _ Hm Hs S). by split_and!.
Qed.

Lemma performed q c s a :
  may q c = true → exec (real q) c = Ok (s, a) →
  system_ok (s : sys) (after c a s (contents q)) (used q + adds c) ∧ BLOCK_SIZE * (used q + adds c)%nat < 2 ^ 62 ∧
  (length (concat (after c a s (contents q))) ≤ used q + adds c)%nat.
Proof.
  intros Hm Hr. destruct (exec_after q c Hm) as (s' & a' & Hr' & Hs & S & Hf). assert ((s', a') = (s, a)) as [= -> ->] by congruence.
  split_and!; [done..|]. apply serves_total in Hs. pose proof (real_total q). lia.
Qed.

(** The call, if it is one of those considered. *)
Definition resume (q : inner_queue) (c : call (T := T)) (Hm : may q c = true) (r : result (sys * McQueueRuns.answer (T := T))) :
    exec (real q) c = r → option (inner_queue * McQueueRuns.answer (T := T)) :=
  match r with
  | Ok (s, a) => λ Hr,
      Some (Inner s (after c a s (contents q)) (used q + adds c)
              (proj1 (performed q c s a Hm Hr)) (proj1 (proj2 (performed q c s a Hm Hr)))
              (proj2 (proj2 (performed q c s a Hm Hr))), a)
  | _ => λ _, None
  end.
Definition perform (c : call (T := T)) (q : inner_queue) : option (inner_queue * McQueueRuns.answer (T := T)) :=
  match decide (may q c = true) with
  | left Hm => resume q c Hm (exec (real q) c) eq_refl
  | right _ => None
  end.

Lemma perform_ok c q :
  match perform c q with
  | Some (q', a) => serves (contents q) c a (contents q')
  | None => may q c = false
  end.
Proof.
  unfold perform. destruct (decide (may q c = true)) as [Hm|Hm]; [|by apply not_true_iff_false].
  destruct (exec_after q c Hm) as (s & a & Hr & Hs & _). generalize (eq_refl (exec (real q) c)).
  generalize (exec (real q) c) at 2 3. intros r Hr'. destruct r as [[s' a']| | |]; simplify_eq; [|congruence..].
  assert ((s', a') = (s, a)) as [= -> ->] by congruence. done.
Qed.

Lemma perform_exec c q :
  may q c = true → ∃ q' a, perform c q = Some (q', a) ∧ exec (real q) c = Ok (real q', a).
Proof.
  intros Hm. unfold perform. destruct (decide (may q c = true)) as [Hm'|]; [|done].
  destruct (exec_after q c Hm) as (s & a & Hr & _). generalize (eq_refl (exec (real q) c)).
  generalize (exec (real q) c) at 2 3. intros r Hr'. destruct r as [[s' a']| | |]; simplify_eq; [|congruence..].
  cbn [resume]. do 2 eexists. split; [reflexivity|]. exact Hr'.
Qed.

(** ** What BlockingConcurrentQueue.v asks for *)

(** The answer of the environment is the calling thread's producer, used when there is no
    token.  The class wants total functions: here a call that is not considered is left
    out, and a token that the queue does not have counts as no token.  The theorem below
    is about runs in which neither happens. *)
Definition valid_consumer (tok : option nat) (q : inner_queue) : option nat :=
  match tok with
  | Some k => if bool_decide (k < length (consumers (real q)))%nat then Some k else None
  | None => None
  end.
Definition dequeue_call (tok : option nat) (q : inner_queue) : call (T := T) :=
  match valid_consumer tok q with Some k => TryDequeueToken k false | None => TryDequeue false end.
Definition dequeue_bulk_call (tok : option nat) (max : nat) (q : inner_queue) : call (T := T) :=
  match valid_consumer tok q with Some k => TryDequeueBulkToken k max [] | None => TryDequeueBulk max [] end.

Definition added (o : option (inner_queue * McQueueRuns.answer (T := T))) (q : inner_queue) : inner_queue * bool :=
  match o with
  | Some (q, Added (Returned b)) => (q, b)
  | Some (q, _) => (q, false)
  | None => (q, false)
  end.

#[global] Instance concurrent_inner : BlockingConcurrentQueue.InnerQueue inner_queue T nat := {|
  BlockingConcurrentQueue.iq_enqueue alloc tok x e q := added (perform (Enqueue (default e tok) alloc false x) q) q;
  BlockingConcurrentQueue.iq_enqueue_bulk alloc tok xs e q := added (perform (EnqueueBulk (default e tok) alloc xs []) q) q;
  BlockingConcurrentQueue.iq_try_dequeue tok _ q :=
    match perform (dequeue_call tok q) q with
    | Some (q, One (Got x)) => (q, Some x)
    | Some (q, _) => (q, None)
    | None => (q, None)
    end;
  BlockingConcurrentQueue.iq_try_dequeue_bulk tok max _ q :=
    match perform (dequeue_bulk_call tok max q) q with
    | Some (q, Many (GotMany xs)) => (q, xs)
    | Some (q, _) => (q, [])
    | None => (q, [])
    end
|}.

Lemma concat_insert_app (qs : list (list T)) i xs ys :
  qs !! i = Some xs → concat (<[i := xs ++ ys]> qs) ≡ₚ ys ++ concat qs.
Proof.
  intros Hi. pose proof (lookup_lt_Some _ _ _ Hi). rewrite insert_take_drop by done.
  rewrite <- (take_drop_middle _ _ _ Hi) at 3. rewrite !concat_app. cbn [concat]. rewrite <- !(assoc_L app). solve_Permutation.
Qed.

Lemma dequeue_call_may tok q : may q (dequeue_call tok q) = true.
Proof.
  unfold dequeue_call, valid_consumer. destruct tok as [k|]; [|done]. case_bool_decide; [|done]. simpl.
  by rewrite bool_decide_eq_true_2.
Qed.

Lemma dequeue_bulk_call_may tok max q : may q (dequeue_bulk_call tok max q) = true.
Proof.
  unfold dequeue_bulk_call, valid_consumer. destruct tok as [k|]; [|done]. case_bool_decide; [|done]. simpl.
  by rewrite bool_decide_eq_true_2.
Qed.

(** How the calls that take elements are answered. *)
Lemma dequeue_answer tok q :
  ∃ q' d, perform (dequeue_call tok q) q = Some (q', One d) ∧ answers_one (contents q) false d (contents q').
Proof.
  pose proof (perform_ok (dequeue_call tok q) q) as Hp. destruct (perform _ q) as [[q' a]|]; [|by rewrite dequeue_call_may in Hp].
  exists q'. unfold dequeue_call in *. destruct (valid_consumer tok q); destruct a as [| | |d| |]; try done; by exists d.
Qed.

Lemma dequeue_bulk_answer tok max q :
  ∃ q' d, perform (dequeue_bulk_call tok max q) q = Some (q', Many d) ∧ answers_many (contents q) [] max d (contents q').
Proof.
  pose proof (perform_ok (dequeue_bulk_call tok max q) q) as Hp. destruct (perform _ q) as [[q' a]|]; [|by rewrite dequeue_bulk_call_may in Hp].
  exists q'. unfold dequeue_bulk_call in *. destruct (valid_consumer tok q); destruct a as [| | | |d|]; try done; by exists d.
Qed.

#[global, refine] Instance concurrent_inner_laws : BlockingConcurrentQueue.InnerQueueLaws inner_queue T nat := {|
  BlockingConcurrentQueue.iq_elems q := concat (contents q)
|}.
Proof.
  - intros alloc tok x e q. cbn [BlockingConcurrentQueue.iq_enqueue concurrent_inner]. pose proof (perform_ok (Enqueue (default e tok) alloc false x) q) as Hp.
    destruct (perform _ q) as [[q' a]|]; [|done]. destruct a as [| |r| | |]; try done. destruct Hp as (xs & Hx & Hq & _).
    destruct r as [[]|]; simpl in *; rewrite Hq; [by apply concat_insert_app|by rewrite list_insert_id..].
  - intros alloc tok ys e q. cbn [BlockingConcurrentQueue.iq_enqueue_bulk concurrent_inner]. pose proof (perform_ok (EnqueueBulk (default e tok) alloc ys []) q) as Hp.
    destruct (perform _ q) as [[q' a]|]; [|done]. destruct a as [| |r| | |]; try done. destruct Hp as (xs & Hx & Hq & _).
    destruct r as [[]|]; simpl in *; rewrite Hq; [by apply concat_insert_app|by rewrite list_insert_id..].
  - intros tok e q. cbn [BlockingConcurrentQueue.iq_try_dequeue concurrent_inner]. destruct (dequeue_answer tok q) as (q' & d & -> & Hd).
    destruct d as [x| |]; [destruct Hd as [_ (ps & Ht & Ho & _)]|destruct Hd as (ps & Ht & Ho & _)|by destruct Hd];
      rewrite (takes_concat _ _ _ Ht), <- Ho; done.
  - intros tok max e q. cbn [BlockingConcurrentQueue.iq_try_dequeue_bulk concurrent_inner]. destruct (dequeue_bulk_answer tok max q) as (q' & d & -> & Hd).
    destruct d as [ys|ys]; [|by destruct Hd]. destruct Hd as (ps & Ht & Ho & Hl & _). simpl. split; [done|].
    by rewrite (takes_concat _ _ _ Ht), <- Ho.
  - intros tok q Hne. exists 0%nat. cbn [BlockingConcurrentQueue.iq_try_dequeue concurrent_inner]. destruct (dequeue_answer tok q) as (q' & d & -> & Hd).
    destruct d as [x| |]; [by eexists| |by destruct Hd]. destruct Hd as (ps & Ht & Ho & _ & He). exfalso. apply Hne.
    apply Permutation_nil. rewrite (takes_concat _ _ _ Ht), <- Ho, (all_empty_concat _ (He ltac:(simpl; lia))). done.
  - intros tok max q Hne Hmax. exists 0%nat. cbn [BlockingConcurrentQueue.iq_try_dequeue_bulk concurrent_inner].
    destruct (dequeue_bulk_answer tok max q) as (q' & d & -> & Hd). destruct d as [ys|ys]; [|by destruct Hd].
    destruct Hd as (ps & Ht & Ho & _ & He). simpl. intros ->. apply Hne, Permutation_nil.
    rewrite (takes_concat _ _ _ Ht), <- Ho, all_empty_concat; [done|]. apply He. simpl. lia.
Defined.

(** ** The two queues together *)

(** Before threads use the queue, tokens and the producers of threads are made. *)
Definition makes (c : call (T := T)) : bool := match c with NewProducer _ | NewConsumer => true | _ => false end.

Lemma made_ok capacity ms (makers : list (call (T := T))) :
  0 <= capacity <= 2 ^ 31 → Forall (λ c, makes c = true) makers → calls_ok (System (constructed capacity ms) []) makers →
  ∃ (s : sys) answers k, run (System (constructed capacity ms) []) makers = Ok (s, answers) ∧
    system_ok s (replicate k []) 0.
Proof.
  intros Hc Hm Hcs. assert (sum_list (adds <$> makers) = 0%nat) as Hz.
  { clear Hcs. induction Hm as [|c cs Hx _ IH]; [done|]. rewrite fmap_cons. simpl. rewrite IH. by destruct c. }
  destruct (run_serves makers _ [] 0 (constructed_ok _ ms Hc) Hcs) as (s & answers & qs & Hr & Hs & S & _).
  { rewrite Hz. change (BLOCK_SIZE * 0 < 2 ^ 62). lia. }
  apply serves_all_total in Hs. rewrite Hz in Hs, S. simpl in Hs.
  exists s, answers, (length qs). split; [exact Hr|]. assert (replicate (length qs) [] = qs) as ->; [|exact S].
  clear -Hs. induction qs as [|xs qs IH]; [done|]. simpl in *. rewrite length_app in Hs. rewrite IH by lia.
  destruct xs; [done|simpl in Hs; lia].
Qed.

(** The call that a step of the blocking queue makes on its inner queue. *)
Definition inner_call (b : BlockingConcurrentQueue.bqueue (Q := inner_queue) (T := T))
    (l : BlockingConcurrentQueue.blabel (T := T) (Env := nat)) : option (call (T := T)) :=
  match l with
  | BlockingConcurrentQueue.BInner i e =>
      match BlockingConcurrentQueue.clients b !! i with
      | Some (Some (o, BlockingConcurrentQueue.Enqueueing)) =>
          match o with
          | BlockingConcurrentQueue.enqueue alloc tok x => Some (Enqueue (default e tok) alloc false x)
          | BlockingConcurrentQueue.enqueue_bulk alloc tok xs => Some (EnqueueBulk (default e tok) alloc xs [])
          | _ => None
          end
      | Some (Some (o, BlockingConcurrentQueue.Dequeueing want _)) =>
          match o with
          | BlockingConcurrentQueue.try_dequeue tok | BlockingConcurrentQueue.wait_dequeue tok
          | BlockingConcurrentQueue.wait_dequeue_timed tok _ =>
              Some (match tok with Some k => TryDequeueToken k false | None => TryDequeue false end)
          | BlockingConcurrentQueue.try_dequeue_bulk tok _ | BlockingConcurrentQueue.wait_dequeue_bulk tok _
          | BlockingConcurrentQueue.wait_dequeue_bulk_timed tok _ _ =>
              Some (match tok with Some k => TryDequeueBulkToken k want [] | None => TryDequeueBulk want [] end)
          | _ => None
          end
      | _ => None
      end
  | _ => None
  end.

(** The calls of a run on the inner queue, and whether they are all considered. *)
Fixpoint inner_calls (b : BlockingConcurrentQueue.bqueue (Q := inner_queue) (T := T))
    (ls : list (BlockingConcurrentQueue.blabel (T := T) (Env := nat))) : list (call (T := T)) :=
  match ls with
  | [] => []
  | l :: ls =>
      option_list (inner_call b l) ++
      match BlockingConcurrentQueue.bstep b l with Some b' => inner_calls b' ls | None => [] end
  end.
Fixpoint inner_calls_ok (b : BlockingConcurrentQueue.bqueue (Q := inner_queue) (T := T))
    (ls : list (BlockingConcurrentQueue.blabel (T := T) (Env := nat))) : bool :=
  match ls with
  | [] => true
  | l :: ls =>
      match inner_call b l with Some c => may (BlockingConcurrentQueue.inner b) c | None => true end &&
      match BlockingConcurrentQueue.bstep b l with Some b' => inner_calls_ok b' ls | None => true end
  end.

Lemma valid_token k q : bool_decide (k < length (consumers (real q)))%nat = true → valid_consumer (Some k) q = Some k.
Proof. simpl. by intros ->. Qed.

Lemma dequeue_performed tok e q :
  let c := match tok with Some k => TryDequeueToken k false | None => TryDequeue false end in
  may q c = true → ∃ a, exec (real q) c = Ok (real (BlockingConcurrentQueue.iq_try_dequeue tok e q).1, a).
Proof.
  intros c Hm. assert (dequeue_call tok q = c) as Hc.
  { unfold dequeue_call, c in *. destruct tok as [k|]; [|done]. cbn [may] in Hm. rewrite andb_true_r in Hm. by rewrite valid_token. }
  destruct (perform_exec c q Hm) as (q' & a & Hp & Hr). exists a. rewrite Hr.
  cbn [BlockingConcurrentQueue.iq_try_dequeue concurrent_inner]. rewrite Hc, Hp. by destruct a as [| | |[]| |].
Qed.

Lemma dequeue_bulk_performed tok max e q :
  let c := match tok with Some k => TryDequeueBulkToken k max [] | None => TryDequeueBulk max [] end in
  may q c = true → ∃ a, exec (real q) c = Ok (real (BlockingConcurrentQueue.iq_try_dequeue_bulk tok max e q).1, a).
Proof.
  intros c Hm. assert (dequeue_bulk_call tok max q = c) as Hc.
  { unfold dequeue_bulk_call, c in *. destruct tok as [k|]; [|done]. by rewrite valid_token. }
  destruct (perform_exec c q Hm) as (q' & a & Hp & Hr). exists a. rewrite Hr.
  cbn [BlockingConcurrentQueue.iq_try_dequeue_bulk concurrent_inner]. rewrite Hc, Hp. by destruct a as [| | | |[]|].
Qed.

Lemma added_performed c q : may q c = true → ∃ a, exec (real q) c = Ok (real (added (perform c q) q).1, a).
Proof.
  intros Hm. destruct (perform_exec c q Hm) as (q' & a & Hp & Hr). exists a. rewrite Hr, Hp. by destruct a as [| |[]| | |].
Qed.

(** A step makes its call on the inner queue, or none. *)
Lemma step_performed b l b' :
  BlockingConcurrentQueue.bstep b l = Some b' →
  match inner_call b l with
  | Some c => may (BlockingConcurrentQueue.inner b) c = true →
      ∃ a, exec (real (BlockingConcurrentQueue.inner b)) c = Ok (real (BlockingConcurrentQueue.inner b'), a)
  | None => BlockingConcurrentQueue.inner b' = BlockingConcurrentQueue.inner b
  end.
Proof.
  destruct l as [i o|i e|i a|i]; cbn [BlockingConcurrentQueue.bstep inner_call]; intros Hb;
    destruct (BlockingConcurrentQueue.clients b !! i) as [[[o' ph]|]|] eqn:Hi; try discriminate Hb.
  - destruct (BlockingConcurrentQueue.is_enqueue o); [by injection Hb as <-|].
    by apply bind_Some in Hb as (s & _ & [= <-]).
  - destruct ph; try discriminate Hb.
    + destruct (BlockingConcurrentQueue.call_inner_enqueue o' e (BlockingConcurrentQueue.inner b)) as [q ok] eqn:Hq.
      assert (BlockingConcurrentQueue.inner b' = q) as ->.
      { destruct ok; [by apply bind_Some in Hb as (s & _ & [= <-])|by injection Hb as <-]. }
      replace q with (BlockingConcurrentQueue.call_inner_enqueue o' e (BlockingConcurrentQueue.inner b)).1 by (by rewrite Hq).
      destruct o'; try done; apply added_performed.
    + destruct (BlockingConcurrentQueue.call_inner_dequeue o' want e (BlockingConcurrentQueue.inner b)) as [q xs] eqn:Hq.
      injection Hb as <-. cbn [BlockingConcurrentQueue.inner].
      replace q with (BlockingConcurrentQueue.call_inner_dequeue o' want e (BlockingConcurrentQueue.inner b)).1 by (by rewrite Hq).
      destruct o'; try done; cbn [BlockingConcurrentQueue.call_inner_dequeue];
        first [apply dequeue_bulk_performed | intros Hm; destruct (dequeue_performed _ e _ Hm) as [a Ha]; exists a;
          rewrite Ha; by destruct (BlockingConcurrentQueue.iq_try_dequeue _ _ _)].
  - destruct ph; try discriminate Hb; by apply bind_Some in Hb as (s & _ & [= <-]).
  - destruct ph; try discriminate Hb. by injection Hb as <-.
Qed.

Lemma run_performed ls : ∀ b b',
  BlockingConcurrentQueue.brun b ls = Some b' → inner_calls_ok b ls = true →
  ∃ answers, run (real (BlockingConcurrentQueue.inner b)) (inner_calls b ls) = Ok (real (BlockingConcurrentQueue.inner b'), answers).
Proof.
  induction ls as [|l ls IH]; intros b b' Hb Hok; cbn [BlockingConcurrentQueue.brun inner_calls inner_calls_ok] in *.
  { injection Hb as <-. by exists []. }
  apply bind_Some in Hb as (b1 & Hb1 & Hb). rewrite Hb1 in *. apply andb_prop in Hok as [Hm Hok].
  pose proof (step_performed _ _ _ Hb1) as Hp. destruct (IH _ _ Hb Hok) as [answers Hr].
  destruct (inner_call b l) as [c|]; simpl.
  - destruct (Hp Hm) as [a Ha]. rewrite Ha, bind_ok, Hr. by eexists.
  - rewrite <- Hp. by exists answers.
Qed.

(** C29: [BlockingConcurrentQueue] on a [ConcurrentQueue] with any producers and tokens.
    Any number of threads call the methods of the blocking queue, the calls on the inner
    queue each in one piece.  The methods do to the inner queue what its calls do, one
    after the other; what was enqueued is what was dequeued and what the sub-queues hold,
    each element once; the inner queue's own [size_approx] counts the latter; and a
    thread that has a permit and looks for elements finds as many in the sub-queues as it
    still wants.  This holds of the runs in which the tokens are tokens of the inner
    queue and every thread has a producer there, elements do not throw, less than 2^62
    slots are filled, and the inner queue refuses no bulk enqueued with a token, after
    which it would lose elements. *)
Theorem blocking_on_concurrent (q0 : inner_queue) n ls b0 b :
  concat (contents q0) = [] → BlockingConcurrentQueue.schedule_good n ls →
  BlockingConcurrentQueue.bcreate q0 true n = Ok b0 → BlockingConcurrentQueue.brun b0 ls = Some b →
  inner_calls_ok b0 ls = true →
  let q := BlockingConcurrentQueue.inner b in
  (∃ answers, run (real q0) (inner_calls b0 ls) = Ok (real q, answers)) ∧
  BlockingConcurrentQueue.enqueued b ≡ₚ BlockingConcurrentQueue.dequeued b ++ concat (contents q) ∧
  McQueue.size_approx (the_queue (real q)) = Ok (Z.of_nat (length (concat (contents q)))) ∧
  ∀ i o want got, BlockingConcurrentQueue.clients b !! i = Some (Some (o, BlockingConcurrentQueue.Dequeueing want got)) →
    (want ≤ length (concat (contents q)))%nat.
Proof.
  intros He Hok Hb0 Hb Hcs q.
  assert (BlockingConcurrentQueue.reaches n ls b) as Hreach by (exists q0, b0; split_and!; [exact He|done|done]).
  destruct (BlockingConcurrentQueue.reaches_inv _ _ _ Hok Hreach) as [I _]. split.
  { injection Hb0 as <-. by apply run_performed in Hb. }
  split; [exact (BlockingConcurrentQueue.bi_elems _ _ I)|]. split.
  - rewrite (size_approx_ok _ _ _ (so_queue _ _ _ (real_ok q))). f_equal. pose proof (real_total q). pose proof (real_fits q).
    pose proof block_size_pos. apply wrap_small. unfold fits. nia.
  - intros i o want got Hi. by destruct (BlockingConcurrentQueue.permits_cover n ls b i o want got Hok Hreach Hi) as (_ & _ & ?).
Qed.
End inner.

(** ** Example: blocks of 4 elements *)

#[local] Existing Instance McImplicit.small.
#[local] Existing Instance McImplicit.small_ok.
#[local] Existing Instance no_exceptions.
#[local] Existing Instance quota_4.

Definition makers : list (call (T := Z)) := [NewProducer false; NewProducer true; NewConsumer].
Definition made : sys (T := Z) :=
  match run (System (constructed 5 []) []) makers with Ok (s, _) => s | _ => System (constructed 5 []) [] end.

Lemma made_is_ok : system_ok made [[]; []] 0.
Proof.
  destruct (made_ok 5 [] makers) as (s & answers & k & Hr & S); [lia|by repeat constructor| |].
  - repeat (split; [cbn [call_ok]; first [exact I|vm_compute; reflexivity]|
      let Hx := fresh in intros ? ? Hx; vm_compute in Hx; injection Hx as <- <-]). exact I.
  - pose proof (queue_length _ _ _ (so_queue _ _ _ S)) as Hk. rewrite length_replicate in Hk.
    assert (length (producers (the_queue made)) = 2%nat) as Hl by (vm_compute; reflexivity).
    assert (made = s) as Hs by (unfold made; by rewrite Hr). rewrite <- Hs in S, Hk. rewrite Hl in Hk. subst k. exact S.
Qed.

Definition empty_queue : inner_queue (T := Z) := Inner made [[]; []] 0 made_is_ok ltac:(vm_compute; reflexivity) ltac:(vm_compute; lia).

Import BlockingConcurrentQueue LightweightSemaphore.

(** Elements come in through a token and without one; a consumer gets three permits and
    takes the elements from both producers, which another thread adds to. *)
Definition schedule : list (blabel (T := Z) (Env := nat)) :=
  [BBegin 1 (enqueue_bulk true (Some 1%nat) [7; 8]); BInner 1 0%nat; BSema 1 Go; BSema 1 Go; BReturn 1;
   BBegin 1 (enqueue true None 9); BInner 1 0%nat; BSema 1 Go; BSema 1 Go; BReturn 1;
   BBegin 0 (wait_dequeue_bulk (Some 0%nat) 5); BSema 0 (Seen 3); BSema 0 Go; BSema 0 Go;
   BBegin 1 (enqueue false (Some 1%nat) 10); BInner 1 0%nat; BInner 0 0%nat; BSema 1 Go; BSema 1 Go; BReturn 1; BReturn 0].
Definition bstart : bqueue (Q := inner_queue (T := Z)) (T := Z) := BQ empty_queue (create 0 2) (replicate 2 None) [].
Definition bafter (k : nat) : bqueue (Q := inner_queue (T := Z)) (T := Z) := default bstart (brun bstart (take k schedule)).

Example both_producers :
  (contents (inner (bafter 21)), history (bafter 21)) =
  ([[9]; []], [(enqueue_bulk true (Some 1%nat) [7; 8], Enqueued true); (enqueue true None 9, Enqueued true);
               (enqueue false (Some 1%nat) 10, Enqueued true); (wait_dequeue_bulk (Some 0%nat) 5, Dequeued [7; 8; 10])]).
Proof. vm_compute. reflexivity. Qed.

Lemma halfway :
  ∃ b, brun bstart (take 16 schedule) = Some b ∧
    clients b !! 0%nat = Some (Some (wait_dequeue_bulk (Some 0%nat) 5, Dequeueing 3 [])) ∧ contents (inner b) = [[9]; [7; 8; 10]].
Proof.
  assert ((λ b, (clients b !! 0%nat, contents (inner b))) <$> brun bstart (take 16 schedule) =
    Some (Some (Some (wait_dequeue_bulk (Some 0%nat) 5, Dequeueing 3 [])), [[9]; [7; 8; 10]])) as Hb by (vm_compute; reflexivity).
  destruct (brun bstart (take 16 schedule)) as [b|]; [|discriminate Hb]. cbn [fmap option_fmap option_map] in Hb.
  injection Hb as Hc Hx. exists b. split; [reflexivity|]. split; [exact Hc|exact Hx].
Qed.

Lemma good_schedule (n : nat) (ls : list (blabel (T := Z) (Env := nat))) :
  (n <=? INT_MAX) &&
  forallb (λ l, match l with
    | BBegin _ o => (length (items o) <=? SSIZE_MAX) && (0 <=? op_limit o) &&
        (op_limit o <=? SSIZE_MAX) && match o with wait_dequeue_bulk _ max => 0 <? max | _ => true end
    | _ => true
    end) ls && (zsum bbrings ls <=? SSIZE_MAX) = true → schedule_good n ls.
Proof.
  rewrite !andb_true_iff, forallb_forall. intros [[Hn Hl] Hb]. split_and!; [by apply Z.leb_le| |by apply Z.leb_le].
  apply Forall_forall. intros l Hin. specialize (Hl l (proj1 (list_elem_of_In _ _) Hin)). destruct l as [i o| | |]; try done.
  rewrite !andb_true_iff in Hl. destruct Hl as [[[H1 H2] H3] H4]. unfold blabel_ok, op_ok.
  split_and!; [by apply Z.leb_le..|]. destruct o; try done. by apply Z.ltb_lt.
Qed.

Lemma blocking_on_concurrent_witness :
  ∃ b, brun bstart (take 16 schedule) = Some b ∧ contents (inner b) = [[9]; [7; 8; 10]] ∧
    (∃ answers, McQueueRuns.run made (inner_calls bstart (take 16 schedule)) = Ok (real (inner b), answers)) ∧
    McQueue.size_approx (the_queue (real (inner b))) = Ok (Z.of_nat (length (concat (contents (inner b))))) ∧
    (3 ≤ length (concat (contents (inner b))))%nat.
Proof.
  destruct halfway as (b & Hb & Hc & Hx). exists b.
  destruct (blocking_on_concurrent empty_queue 2 (take 16 schedule) bstart b) as (Hr & _ & Hs & Hw).
  - reflexivity.
  - apply good_schedule. vm_compute. reflexivity.
  - reflexivity.
  - exact Hb.
  - vm_compute. reflexivity.
  - split; [exact Hb|]. split; [exact Hx|]. split; [exact Hr|]. split; [exact Hs|]. exact (Hw _ _ _ _ Hc).
Defined.
End ConcurrentInner.
