(* ===== verification/RapidPool.v ===== *)
(** * [CDMRapidPool] (dmrapidpool.h): a fixed pool of slots on a free list

    Each slot has a header of three bit fields: whether it is in use, the
    number of its pool, and the next slot of the free list.  The objects are
    part of the model: a slot's memory is raw ([None]) or holds an object. *)
From S2P Require Import Prelude.
Local Open Scope Z_scope.

(** What [FetchObj] does: no slot, the constructor of the object threw, or a
    pointer. *)
Inductive fetched (P : Type) := Null | Threw (e : exn) | Object (p : P).
Arguments Null {P}.
Arguments Threw {P} _.
Arguments Object {P} _.

#[export] Instance fetched_fmap : FMap fetched := λ P Q f r,
  match r with Null => Null | Threw e => Threw e | Object p => Object (f p) end.

Module RapidPool.
Section pool.
Context {T : Type} (SIZE : nat) (NDEBUG : bool).

Record SRapidData := Slot {
  dwUse : bool;
  dwIndex : Z;                 (* 15 bits *)
  dwFlag : Z;                  (* 16 bits *)
  szData : option T
}.

Record t := mk {
  m_wIndex : Z;                (* [uint16_t] *)
  m_wFirstFlag : Z;            (* [uint16_t] *)
  m_qwFreeCount : Z;           (* [uint64_t] *)
  m_stRapidData : list SRapidData
}.

Definition create (wIndex : Z) : t :=
  let m_wIndex := u16 wIndex in
  mk m_wIndex 0 (u64 SIZE)
    ((λ i : nat, Slot false (wrap 15 m_wIndex) (u16 (i + 1)) None) <$> seq 0 SIZE).

Definition GetFreeCount (q : t) : Z := m_qwFreeCount q.
Definition GetMallocCount : Z := SIZE.
Definition Empty (q : t) : bool := 0 =? m_qwFreeCount q.
Definition IsFull (q : t) : bool := Z.of_nat SIZE =? m_qwFreeCount q.

(** [~CDMRapidPool]. *)
Definition destroy (q : t) : result () := assert_ NDEBUG (IsFull q).

(** [x] is the outcome of the constructor [T(std::forward<Args>(args)...)]; an
    object is named by the number of its slot. *)
Definition FetchObj (q : t) (x : exn + T) : result (t * fetched nat) :=
  if Empty q then Ok (q, Null) else
  assert_ NDEBUG (m_wFirstFlag q <? SIZE);;
  p ← aread (m_stRapidData q) (m_wFirstFlag q);
  if dwUse p then Abort else
  assert_ NDEBUG (dwIndex p =? m_wIndex q);;
  let first := dwFlag p in
  let count := u64 (m_qwFreeCount q - 1) in
  assert_ NDEBUG ((count >=? 0) && (count <=? SIZE));;
  slots ← awrite (m_stRapidData q) (m_wFirstFlag q)
    (Slot true (dwIndex p) (dwFlag p) (match x with inr v => Some v | inl _ => szData p end));
  Ok (mk (m_wIndex q) first count slots,
      match x with inr _ => Object (Z.to_nat (m_wFirstFlag q)) | inl e => Threw e end).

(** The object must be alive when [tObj->~T()] runs. *)
Definition ReleaseObj (q : t) (tObj : nat) : result t :=
  p ← aread (m_stRapidData q) tObj;
  if negb (dwUse p) then Abort else
  assert_ NDEBUG (dwIndex p =? m_wIndex q);;
  assert_ NDEBUG ((0 <=? tObj) && (tObj <=? SIZE - 1));;
  let count := u64 (m_qwFreeCount q + 1) in
  assert_ NDEBUG ((count >=? 0) && (count <=? SIZE));;
  defined_if (bool_decide (is_Some (szData p)));;
  slots ← awrite (m_stRapidData q) tObj (Slot false (dwIndex p) (m_wFirstFlag q) None);
  Ok (mk (m_wIndex q) (u16 tObj) count slots).

(** The object in a slot, as the caller sees it through the pointer. *)
Definition object (q : t) (tObj : nat) : option T := (m_stRapidData q !! tObj) ≫= szData.

(** ** The free list *)

(** The slots from [first] on, in the order [FetchObj] hands them out. *)
Fixpoint chain (slots : list SRapidData) (first : Z) (free : list nat) : Prop :=
  match free with
  | [] => first = Z.of_nat SIZE
  | i :: free => first = Z.of_nat i ∧ ∃ p, slots !! i = Some p ∧ chain slots (dwFlag p) free
  end.

(** [used i] is [None] for a free slot, and the object in a slot in use
    ([Some None] for a slot whose object was never constructed). *)
Definition slot_ok (k : nat) (free : list nat) (used : nat → option (option T)) (i : nat)
    (p : SRapidData) : Prop :=
  dwIndex p = k ∧
  (if dwUse p then (i ∉ free) ∧ used i = Some (szData p)
   else (i ∈ free) ∧ used i = None ∧ szData p = None).

Record repr (k : nat) (q : t) (free : list nat) (used : nat → option (option T)) : Prop := {
  re_index : m_wIndex q = k;
  re_length : length (m_stRapidData q) = SIZE;
  re_count : m_qwFreeCount q = length free;
  re_nodup : NoDup free;
  re_chain : chain (m_stRapidData q) (m_wFirstFlag q) free;
  re_slots i p : m_stRapidData q !! i = Some p → slot_ok k free used i p;
  re_used i : (SIZE ≤ i)%nat → used i = None
}.

Hypothesis (HSIZE : 0 < SIZE < 65535).

Lemma seq_chain slots n i :
  (i + n = SIZE)%nat →
  (∀ j, (j < SIZE)%nat → ∃ p, slots !! j = Some p ∧ dwFlag p = u16 (j + 1)) →
  chain slots i (seq i n).
Proof.
  revert i. induction n as [|n IH]; intros i Hi Hs; simpl; [lia|].
  split; [done|]. destruct (Hs i) as (p & Hp & Hf); [lia|]. exists p. split; [done|].
  rewrite Hf, wrap_small by (unfold fits; lia). replace (i + 1) with (Z.of_nat (S i)) by lia.
  apply IH; [lia|done].
Qed.

Lemma base_create_ok (k : nat) : k < 2 ^ 15 → repr k (create k) (seq 0 SIZE) (λ _, None).
Proof.
  intros Hk. unfold create.
  rewrite (wrap_small 16 k), (wrap_small 15 k) by (unfold fits; lia).
  rewrite wrap_small by (unfold fits; lia).
  assert (Hs : ∀ i p, ((λ i : nat, Slot false k (u16 (i + 1)) None) <$> seq 0 SIZE) !! i = Some p →
            (i < SIZE)%nat ∧ p = Slot false k (u16 (i + 1)) None).
  { intros i p Hp. rewrite list_lookup_fmap in Hp. apply fmap_Some in Hp as (j & Hj & ->).
    by apply lookup_seq in Hj as [-> Hj]. }
  constructor; simpl; try done.
  - by rewrite length_fmap, length_seq.
  - by rewrite length_seq.
  - apply NoDup_seq.
  - apply (seq_chain _ _ 0); [lia|]. intros j Hj. eexists.
    rewrite list_lookup_fmap, lookup_seq_lt by lia. by split.
  - intros i p [Hi ->]%Hs. repeat split. apply elem_of_seq. lia.
Qed.

(** The slots off the list do not matter to it. *)
Lemma chain_insert slots first free i p :
  i ∉ free → chain slots first free → chain (<[i := p]> slots) first free.
Proof.
  revert first. induction free as [|j free IH]; intros first Hi; simpl; [done|].
  intros [-> (p' & Hp' & Hc)]. split; [done|]. exists p'.
  rewrite list_lookup_insert_ne by (intros ->; apply Hi; left). split; [done|].
  apply IH; [|done]. intros ?. apply Hi. by right.
Qed.

Lemma repr_free_lt k q free used i : repr k q free used → i ∈ free → (i < SIZE)%nat.
Proof.
  intros R Hi. destruct R as [_ Hl _ _ Hc _ _]. revert Hc Hi.
  generalize (m_wFirstFlag q). induction free as [|j free IH]; intros first Hc Hi.
  - by apply not_elem_of_nil in Hi.
  - destruct Hc as [-> (p & Hp & Hc)]. apply elem_of_cons in Hi as [->|Hi]; [|by eapply IH].
    rewrite <- Hl. by eapply lookup_lt_Some.
Qed.

Lemma repr_count_le k q free used : repr k q free used → (length free ≤ SIZE)%nat.
Proof.
  intros R. rewrite <- (length_seq SIZE 0).
  apply submseteq_length, NoDup_submseteq; [apply R|].
  intros i Hi. apply elem_of_seq. pose proof (repr_free_lt _ _ _ _ _ R Hi). lia.
Qed.

Lemma Empty_ok k q free used : repr k q free used → Empty q = bool_decide (free = []).
Proof.
  intros R. unfold Empty. rewrite (re_count _ _ _ _ R). case_bool_decide as E.
  - by rewrite E.
  - apply Z.eqb_neq. by destruct free.
Qed.

Lemma FetchObj_empty k q used x : repr k q [] used → FetchObj q x = Ok (q, Null).
Proof. intros R. unfold FetchObj. by rewrite (Empty_ok _ _ _ _ R), bool_decide_true. Qed.

(** [FetchObj] takes the head of the free list; if the constructor throws, the
    slot stays in use without an object. *)
Lemma base_FetchObj_ok k q i free used used' x :
  repr k q (i :: free) used →
  used' i = Some (match x with inr v => Some v | inl _ => None end) →
  (∀ j, j ≠ i → used' j = used j) →
  ∃ q', FetchObj q x = Ok (q', match x with inr _ => Object i | inl e => Threw e end) ∧
        repr k q' free used'.
Proof.
  intros R Hi Hne. pose proof (repr_count_le _ _ _ _ R) as Hle.
  pose proof (repr_free_lt _ _ _ _ i R ltac:(left)) as Hlt.
  unfold FetchObj. rewrite (Empty_ok _ _ _ _ R), bool_decide_false by done.
  destruct R as [R1 R2 R3 R4 [R5 (p & Hp & R5')] R6 R7]. destruct (R6 i p Hp) as [Hix Hsl].
  apply NoDup_cons in R4 as [Hnin R4].
  rewrite R5, (assert_ok _ (i <? SIZE)), bind_ok by (apply Z.ltb_lt; lia).
  rewrite (aread_ok _ _ _ Hp), bind_ok.
  destruct (dwUse p) eqn:Hu; [by destruct Hsl as [[] _]; left|]. destruct Hsl as (_ & Hui & Hraw).
  rewrite (assert_ok _ (dwIndex p =? _)), bind_ok by (apply Z.eqb_eq; congruence). simpl length in *.
  rewrite R3, (wrap_small 64) by (unfold fits; lia).
  rewrite assert_ok, bind_ok by (rewrite andb_true_iff, Z.geb_leb, !Z.leb_le; lia).
  rewrite awrite_ok, bind_ok, Nat2Z.id by lia. eexists. split; [done|].
  constructor; simpl; try done.
  - by rewrite length_insert.
  - lia.
  - by apply chain_insert.
  - intros j p' [(<- & <- & _)|[Hj Hp']]%list_lookup_insert_Some; split; simpl; try done.
    + split; [done|]. rewrite Hi. destruct x; simpl; congruence.
    + by apply (R6 j p').
    + destruct (R6 j p' Hp') as [_ Hsl]. rewrite Hne by done. destruct (dwUse p').
      * split; [|tauto]. intros ?. destruct Hsl as [[] _]. by right.
      * destruct Hsl as ([->|?]%elem_of_cons & ? & ?); done.
  - intros j Hj. rewrite Hne by lia. by apply R7.
Qed.

(** [ReleaseObj] puts the slot back at the head. *)
Lemma base_ReleaseObj_ok k q i free used used' v :
  repr k q free used → used i = Some (Some v) →
  used' i = None → (∀ j, j ≠ i → used' j = used j) →
  ∃ q', ReleaseObj q i = Ok q' ∧ repr k q' (i :: free) used'.
Proof.
  intros R Hi Hi' Hne. destruct R as [R1 R2 R3 R4 R5 R6 R7] eqn:HR.
  assert (Hlt : (i < SIZE)%nat).
  { destruct (decide (i < SIZE)%nat); [done|]. rewrite R7 in Hi; [done|lia]. }
  destruct (lookup_lt_is_Some_2 (m_stRapidData q) i) as [p Hp]; [lia|].
  destruct (R6 i p Hp) as [Hix Hsl].
  destruct (dwUse p) eqn:Hu; [|destruct Hsl as (_ & ? & _); congruence].
  destruct Hsl as [Hnin Hs]. rewrite Hi in Hs. injection Hs as Hs.
  assert (Hle : (S (length free) ≤ SIZE)%nat).
  { rewrite <- (length_seq SIZE 0).
    change (S (length free)) with (length (i :: free)).
    apply submseteq_length, NoDup_submseteq; [by apply NoDup_cons|].
    intros j [->|Hj]%elem_of_cons; apply elem_of_seq; [lia|].
    pose proof (repr_free_lt _ _ _ _ _ R Hj). lia. }
  unfold ReleaseObj. rewrite (aread_ok _ _ _ Hp), bind_ok, Hu. cbn [negb].
  rewrite (assert_ok _ (dwIndex p =? _)), bind_ok by (apply Z.eqb_eq; congruence).
  rewrite (assert_ok _ ((0 <=? _) && _)), bind_ok by (rewrite andb_true_iff, !Z.leb_le; lia).
  rewrite R3, (wrap_small 64) by (unfold fits; lia).
  rewrite assert_ok, bind_ok by (rewrite andb_true_iff, Z.geb_leb, !Z.leb_le; lia).
  rewrite <- Hs, bool_decide_true by eauto. simpl.
  rewrite awrite_ok, bind_ok by lia. rewrite wrap_small by (unfold fits; lia).
  eexists. split; [done|]. constructor; simpl; try done.
  - by rewrite length_insert.
  - lia.
  - by apply NoDup_cons.
  - split; [done|]. eexists. rewrite list_lookup_insert_eq by lia. split; [done|].
    by apply chain_insert.
  - intros j p' [(<- & <- & _)|[Hj Hp']]%list_lookup_insert_Some; split; simpl; try done.
    + split; [left|done].
    + by apply (R6 j p').
    + destruct (R6 j p' Hp') as [_ Hsl']. rewrite Hne by done. destruct (dwUse p').
      * split; [|tauto]. by intros [->|?]%elem_of_cons; [|tauto].
      * split; [right|]; tauto.
  - intros j Hj. rewrite Hne by lia. by apply R7.
Qed.

(** Releasing a free slot, a double delete, aborts. *)
Lemma base_ReleaseObj_free k q i free used :
  repr k q free used → (i < SIZE)%nat → used i = None → ReleaseObj q i = Abort.
Proof.
  intros R Hlt Hi. destruct (lookup_lt_is_Some_2 (m_stRapidData q) i) as [p Hp].
  { by rewrite (re_length _ _ _ _ R). }
  destruct (re_slots _ _ _ _ R i p Hp) as [_ Hsl]. unfold ReleaseObj.
  rewrite (aread_ok _ _ _ Hp), bind_ok. destruct (dwUse p); [|done].
  destruct Hsl as [_ Hs]. congruence.
Qed.

Lemma base_object_ok k q free used i v :
  repr k q free used → used i = Some (Some v) → object q i = Some v.
Proof.
  intros R Hi. unfold object. destruct (m_stRapidData q !! i) as [p|] eqn:Hp; simpl.
  - destruct (re_slots _ _ _ _ R i p Hp) as [_ Hsl].
    destruct (dwUse p); [destruct Hsl as [_ Hs]; congruence|].
    destruct Hsl as (_ & ? & _). congruence.
  - apply lookup_ge_None in Hp. rewrite (re_length _ _ _ _ R) in Hp.
    rewrite (re_used _ _ _ _ R) in Hi by done. done.
Qed.

(** The pool of a slot is read from its header. *)
Lemma index_ok k q free used i p :
  repr k q free used → m_stRapidData q !! i = Some p → dwIndex p = k.
Proof. intros R Hp. by destruct (re_slots _ _ _ _ R i p Hp). Qed.
End pool.
End RapidPool.
