(* ===== verification/DynamicRapidPool.v ===== *)
(** * [CDynamicRapidPool] (dmrapidpool.h): a pool that grows by whole pools

    A default pool and up to [INDEX] more, allocated when all earlier ones are
    empty.  An object is named by the pool it lies in (0 is the default one)
    and its slot. *)
From S2P Require Import Prelude RapidPool.
Local Open Scope Z_scope.

Module DynamicRapidPool.
Section pool.
Context {T : Type} (SIZE INDEX : nat) (NDEBUG : bool).

Abbreviation base := (@RapidPool.t T).
Abbreviation header := (@RapidPool.SRapidData T).

Record t := mk {
  m_oDefaultRapidPool : base;
  m_arrGrowRapidPool : list (option base)
}.

(** The result of a pool, as a pointer into pool [k]. *)
Definition in_pool (k : nat) (r : fetched nat) : fetched (nat * nat) := pair k <$> r.

Definition create : t := mk (RapidPool.create SIZE 0) (replicate INDEX None).

(** [GetFreeCount] and [GetMallocCount] stop at the first missing pool. *)
Fixpoint free_from (pools : list (option base)) (acc : Z) : Z :=
  match pools with
  | Some p :: pools => free_from pools (u64 (acc + RapidPool.GetFreeCount p))
  | _ => acc
  end.
Definition GetFreeCount (d : t) : Z :=
  free_from (m_arrGrowRapidPool d) (RapidPool.GetFreeCount (m_oDefaultRapidPool d)).

Fixpoint malloc_from (pools : list (option base)) (acc : Z) : Z :=
  match pools with
  | Some p :: pools => malloc_from pools (u64 (acc + RapidPool.GetMallocCount SIZE))
  | _ => acc
  end.
Definition GetMallocCount (d : t) : Z :=
  malloc_from (m_arrGrowRapidPool d) (RapidPool.GetMallocCount SIZE).

(** The loop of [FetchObj] from index [i] on, over the rest of the array. *)
Fixpoint fetch_from (i : nat) (pools : list (option base)) (x : exn + T) :
    result (list (option base) * fetched (nat * nat)) :=
  match pools with
  | [] => assert_ NDEBUG false;; Ok ([], Null)
  | o :: pools =>
      let p := match o with None => RapidPool.create SIZE (i + 1) | Some p => p end in
      if negb (RapidPool.Empty p) then
        '(p, r) ← RapidPool.FetchObj SIZE NDEBUG p x;
        Ok (Some p :: pools, in_pool (S i) r)
      else
        '(pools, r) ← fetch_from (S i) pools x;
        Ok (Some p :: pools, r)
  end.

Definition FetchObj (d : t) (x : exn + T) : result (t * fetched (nat * nat)) :=
  if negb (RapidPool.Empty (m_oDefaultRapidPool d)) then
    '(p, r) ← RapidPool.FetchObj SIZE NDEBUG (m_oDefaultRapidPool d) x;
    Ok (mk p (m_arrGrowRapidPool d), in_pool 0 r)
  else
    '(pools, r) ← fetch_from 0 (m_arrGrowRapidPool d) x;
    Ok (mk (m_oDefaultRapidPool d) pools, r).

(** The pool with number [k]. *)
Definition pool_at (d : t) (k : nat) : option base :=
  match k with O => Some (m_oDefaultRapidPool d) | S k => mjoin (m_arrGrowRapidPool d !! k) end.

(** [GetRapidData]: the header in front of the object. *)
Definition GetRapidData (d : t) (obj : nat * nat) : result header :=
  match pool_at d obj.1 ≫= (λ q, RapidPool.m_stRapidData q !! obj.2) with
  | Some p => Ok p
  | None => UB
  end.

(** [ReleaseObj] of pool number [k] on an object that may lie in another one:
    the pointer difference is then not a slot of the pool. *)
Definition release_in (q : base) (k : Z) (p : header) (obj : nat * nat) :
    result base :=
  if k =? obj.1 then RapidPool.ReleaseObj SIZE NDEBUG q obj.2
  else if negb (RapidPool.dwUse p) then Abort
  else assert_ NDEBUG (RapidPool.dwIndex p =? RapidPool.m_wIndex q);; assert_ NDEBUG false;; UB.

Definition ReleaseObj (d : t) (obj : option (nat * nat)) : result t :=
  match obj with
  | None => Ok d
  | Some obj =>
      p ← GetRapidData d obj;
      if 0 =? RapidPool.dwIndex p then
        q ← release_in (m_oDefaultRapidPool d) 0 p obj; Ok (mk q (m_arrGrowRapidPool d))
      else
        assert_ NDEBUG (RapidPool.dwIndex p <? INDEX + 1);;
        o ← aread (m_arrGrowRapidPool d) (RapidPool.dwIndex p - 1);
        assert_ NDEBUG (bool_decide (is_Some o));;
        match o with
        | None => UB
        | Some q =>
            q ← release_in q (RapidPool.dwIndex p) p obj;
            pools ← awrite (m_arrGrowRapidPool d) (RapidPool.dwIndex p - 1) (Some q);
            Ok (mk (m_oDefaultRapidPool d) pools)
        end
  end.

(** [~CDynamicRapidPool]: the grown pools, then the default one. *)
Fixpoint destroy_all (pools : list (option base)) : result () :=
  match pools with
  | [] => Ok ()
  | Some p :: pools => RapidPool.destroy SIZE NDEBUG p;; destroy_all pools
  | None :: pools => destroy_all pools
  end.
Definition destroy (d : t) : result () :=
  destroy_all (m_arrGrowRapidPool d);; RapidPool.destroy SIZE NDEBUG (m_oDefaultRapidPool d).

(** The object a pointer leads to. *)
Definition object (d : t) (obj : nat * nat) : option T :=
  pool_at d obj.1 ≫= (λ q, RapidPool.object q obj.2).

(** ** Correctness *)

(** The slots in use: an object, or nothing when its constructor threw. *)
Abbreviation store := (gmap (nat * nat) (option T)).
Definition used_in (m : store) (k : nat) : nat → option (option T) := λ i, m !! (k, i).

(** The pools from number [k] on, with their free lists. *)
Fixpoint pools_ok (k : nat) (qs : list base) (frees : list (list nat)) (m : store) : Prop :=
  match qs, frees with
  | [], [] => ∀ j i, (k ≤ j)%nat → m !! (j, i) = None
  | q :: qs, free :: frees =>
      RapidPool.repr SIZE k q free (used_in m k) ∧ pools_ok (S k) qs frees m
  | _, _ => False
  end.

(** The array: the pools that exist, then null pointers. *)
Definition grown (qs : list base) (n : nat) : list (option base) :=
  (Some <$> qs) ++ replicate n None.

Record repr (d : t) (m : store) (frees : list (list nat)) : Prop := {
  re_pools : ∃ qs n, m_arrGrowRapidPool d = grown qs n ∧ (length qs + n = INDEX)%nat ∧
    pools_ok 0 (m_oDefaultRapidPool d :: qs) frees m;
  re_balance : (length (concat frees) + size m = SIZE * length frees)%nat
}.

Hypothesis (HSIZE : 0 < SIZE < 65535) (HINDEX : INDEX < 32767).

Lemma pools_ok_length k qs frees m : pools_ok k qs frees m → length qs = length frees.
Proof.
  revert k frees. induction qs as [|q qs IH]; intros k [|free frees]; simpl; try done.
  intros [_ H]. f_equal. by eapply IH.
Qed.

Lemma base_frame (k : nat) (q : base) (free : list nat) (m m' : store) :
  RapidPool.repr SIZE k q free (used_in m k) → (∀ i, m' !! (k, i) = m !! (k, i)) →
  RapidPool.repr SIZE k q free (used_in m' k).
Proof.
  intros [R1 R2 R3 R4 R5 R6 R7] E. constructor; try done.
  - intros i p Hp. specialize (R6 i p Hp). unfold RapidPool.slot_ok, used_in in *. by rewrite E.
  - intros i Hi. unfold used_in. rewrite E. by apply R7.
Qed.

Lemma pools_ok_frame (k : nat) (qs : list base) (frees : list (list nat)) (m m' : store) :
  pools_ok k qs frees m → (∀ j i, (k ≤ j)%nat → m' !! (j, i) = m !! (j, i)) →
  pools_ok k qs frees m'.
Proof.
  revert k frees. induction qs as [|q qs IH]; intros k [|free frees]; simpl; try done.
  - intros H E j i Hj. rewrite E by done. by apply H.
  - intros [R H] E. split; [eapply base_frame; [done|]|eapply IH; [done|]].
    + intros i. by apply E.
    + intros j i Hj. apply E. lia.
Qed.

(** Pool [k + n] is replaced. *)
Lemma pools_ok_update k qs frees m m' n q' free' :
  pools_ok k qs frees m → (n < length qs)%nat →
  RapidPool.repr SIZE (k + n) q' free' (used_in m' (k + n)) →
  (∀ j i, j ≠ (k + n)%nat → m' !! (j, i) = m !! (j, i)) →
  pools_ok k (<[n := q']> qs) (<[n := free']> frees) m'.
Proof.
  revert k frees n. induction qs as [|q qs IH]; intros k [|free frees] n; simpl; try done; [lia|].
  intros [R H] Hn R' E. destruct n as [|n]; simpl.
  - rewrite Nat.add_0_r in *. split; [done|]. eapply pools_ok_frame; [done|].
    intros j i Hj. apply E. lia.
  - split.
    + eapply base_frame; [done|]. intros i. apply E. lia.
    + replace (k + S n)%nat with (S k + n)%nat in * by lia. apply IH; [done|lia|done|done].
Qed.

Lemma pools_ok_lookup k qs frees m j i o :
  pools_ok k qs frees m → (k ≤ j)%nat → m !! (j, i) = Some o →
  ∃ q free, qs !! (j - k)%nat = Some q ∧ frees !! (j - k)%nat = Some free ∧
    RapidPool.repr SIZE j q free (used_in m j).
Proof.
  revert k frees. induction qs as [|q qs IH]; intros k [|free frees]; simpl; try done.
  - intros H Hj Hm. rewrite H in Hm; done.
  - intros [R H] Hj Hm. destruct (decide (j = k)) as [->|Hne].
    + rewrite Nat.sub_diag. by exists q, free.
    + replace (j - k)%nat with (S (j - S k)) by lia. simpl. apply IH; [done|lia|done].
Qed.

Lemma create_ok : repr create ∅ [seq 0 SIZE].
Proof.
  constructor.
  - exists [], INDEX. split_and!; [done|done|]. simpl. split; [|done].
    pose proof (RapidPool.base_create_ok (T := T) SIZE HSIZE 0 ltac:(lia)) as R.
    destruct R as [R1 R2 R3 R4 R5 R6 R7]. by constructor.
  - simpl. rewrite app_nil_r, length_seq, map_size_empty. lia.
Qed.

(** ** [FetchObj] *)

(** What the constructor leaves in the slot, and what the caller gets. *)
Definition built (x : exn + T) : option T := match x with inr v => Some v | inl _ => None end.
Definition given (x : exn + T) (p : nat * nat) : fetched (nat * nat) :=
  match x with inr _ => Object p | inl e => Threw e end.

(** [m'] is [m] with an object in slot [p]. *)
Definition stored (m m' : store) (p : nat * nat) (o : option T) : Prop :=
  m' !! p = Some o ∧ ∀ p', p' ≠ p → m' !! p' = m !! p'.

Lemma take_ok (k : nat) (q : base) (free : list nat) (m : store) (x : exn + T) :
  RapidPool.repr SIZE k q free (used_in m k) → free ≠ [] →
  ∃ i q' free' r, RapidPool.FetchObj SIZE NDEBUG q x = Ok (q', r) ∧ in_pool k r = given x (k, i) ∧
    free = i :: free' ∧ m !! (k, i) = None ∧
    ∀ m', stored m m' (k, i) (built x) → RapidPool.repr SIZE k q' free' (used_in m' k).
Proof.
  intros R Hne. destruct free as [|i free']; [done|].
  assert (Hi : m !! (k, i) = None).
  { pose proof (RapidPool.re_chain _ _ _ _ _ R) as [_ (p & Hp & _)].
    destruct (RapidPool.re_slots _ _ _ _ _ R i p Hp) as [_ Hs].
    destruct (RapidPool.dwUse p); [destruct Hs as [[] _]; left|by destruct Hs as (_ & ? & _)]. }
  pose (m0 := <[(k, i) := built x]> m).
  assert (E0 : ∀ j, j ≠ i → used_in m0 k j = used_in m k j).
  { intros j Hj. unfold used_in, m0. rewrite lookup_insert_ne; [done|congruence]. }
  destruct (RapidPool.base_FetchObj_ok SIZE NDEBUG HSIZE k q i free' _ (used_in m0 k) x R)
    as (q' & Hq' & R'); [unfold used_in, m0; by rewrite lookup_insert_eq|done|].
  eexists i, q', free', _. split; [exact Hq'|]. split_and!; [by destruct x|done|done|].
  intros m' [Hm' E]. eapply base_frame; [exact R'|]. intros j. unfold m0.
  destruct (decide (j = i)) as [->|Hj].
  - by rewrite lookup_insert_eq.
  - rewrite lookup_insert_ne by congruence. apply E. congruence.
Qed.

(** The outcome of a search over the pools from number [k] on: a slot of one
    of them was taken, or they are all full. *)
Lemma fetch_from_ok qs frees m n x i :
  pools_ok (S i) qs frees m → (i + length qs + n ≤ INDEX)%nat →
  (∃ k s qs' frees' n' ,
     fetch_from i (grown qs n) x = Ok (grown qs' n', given x (k, s)) ∧
     (S i ≤ k)%nat ∧ m !! (k, s) = None ∧ (length qs' + n' = length qs + n)%nat ∧
     (∀ m', stored m m' (k, s) (built x) → pools_ok (S i) qs' frees' m') ∧
     (length (concat frees') + 1 + SIZE * length frees =
      length (concat frees) + SIZE * length frees')%nat) ∨
  (Forall (λ free, free = []) frees ∧ n = 0%nat ∧
   fetch_from i (grown qs n) x = (assert_ NDEBUG false;; Ok (grown qs 0, Null))).
Proof.
  revert i frees. induction qs as [|q qs IH]; intros i [|free frees] P Hb; try done.
  - destruct n as [|n]; [right; by simpl; destruct NDEBUG|left].
    assert (R : RapidPool.repr SIZE (S i) (RapidPool.create SIZE (i + 1)) (seq 0 SIZE) (used_in m (S i))).
    { pose proof (RapidPool.base_create_ok (T := T) SIZE HSIZE (S i) ltac:(simpl in *; lia)) as R.
      replace (Z.of_nat (S i)) with (i + 1) in R by lia.
      destruct R as [R1 R2 R3 R4 R5 R6 R7]. constructor; try done.
      - intros j p Hp. specialize (R6 j p Hp). unfold RapidPool.slot_ok, used_in in *.
        by rewrite (P (S i) j).
      - intros j _. by apply P. }
    assert (Hne : seq 0 SIZE ≠ []) by (intros E; apply (f_equal length) in E; rewrite length_seq in E; simpl in E; lia).
    destruct (take_ok _ _ _ m x R Hne) as (s & q' & free' & r & Hq' & Hr & Hf & Hm & R').
    exists (S i), s, [q'], [free'], n. unfold grown. simpl.
    rewrite (RapidPool.Empty_ok SIZE _ _ _ _ R), bool_decide_false by done. simpl.
    rewrite Hq'. simpl. rewrite Hr. split_and!; try done; try lia.
    + intros m' Hm'. split; [by apply R'|]. intros j l Hj. rewrite (proj2 Hm') by (intros [=]; lia).
      apply P. lia.
    + rewrite app_nil_r. apply (f_equal length) in Hf. rewrite length_seq in Hf. simpl in Hf. lia.
  - destruct P as [R P]. change (grown (q :: qs) n) with (Some q :: grown qs n).
    cbn [fetch_from]. rewrite (RapidPool.Empty_ok SIZE _ _ _ _ R). case_bool_decide as E; simpl.
    + destruct (IH (S i) frees P) as
        [(k & s & qs' & frees' & n' & -> & Hk & Hm & Hl & H & Hbal)|(HF & -> & ->)];
        [simpl in *; lia|left|right].
      * exists k, s, (q :: qs'), (free :: frees'), n'. simpl. split_and!; try done; try lia.
        -- intros m' Hm'. split; [|by apply H]. eapply base_frame; [done|].
           intros j. apply (proj2 Hm'). intros [=]. lia.
        -- rewrite E. simpl. lia.
      * split_and!; [by constructor|done|]. by destruct NDEBUG.
    + destruct (take_ok _ _ _ m x R E) as (s & q' & free' & r & Hq' & Hr & -> & Hm & R').
      left. exists (S i), s, (q' :: qs), (free' :: frees), n. rewrite Hq'. simpl. rewrite Hr.
      split_and!; try done; try lia.
      intros m' Hm'. split; [by apply R'|]. eapply pools_ok_frame; [done|].
      intros j l Hj. apply (proj2 Hm'). intros [=]. lia.
Qed.

Lemma concat_all_nil (l : list (list nat)) : Forall (λ x, x = []) l → concat l = [].
Proof. induction 1 as [|x l -> _ IH]; [done|]. simpl. done. Qed.

(** [FetchObj] takes a slot that was not in use; only when all [SIZE] slots of
    all [INDEX + 1] pools are in use it returns null (or fails its assertion). *)
Lemma FetchObj_ok d m frees x :
  repr d m frees →
  (∃ p d' frees', FetchObj d x = Ok (d', given x p) ∧ m !! p = None ∧
     repr d' (<[p := built x]> m) frees') ∨
  (size m = (SIZE * S INDEX)%nat ∧ FetchObj d x = (assert_ NDEBUG false;; Ok (d, Null))).
Proof.
  intros [(qs & n & Hg & Hn & P) Hbal]. destruct frees as [|free frees]; [done|].
  destruct P as [R P]. unfold FetchObj. rewrite (RapidPool.Empty_ok SIZE _ _ _ _ R).
  assert (St : ∀ p, stored m (<[p := built x]> m) p (built x)).
  { intros p. split; [apply lookup_insert_eq|]. intros. by rewrite lookup_insert_ne. }
  case_bool_decide as E; simpl.
  - destruct (fetch_from_ok qs frees m n x 0 P) as
      [(k & s & qs' & frees' & n' & Hf & Hk & Hm & Hl & H & Hb)|(HF & -> & Hf)]; [lia| |].
    + left. exists (k, s), (mk (m_oDefaultRapidPool d) (grown qs' n')), (free :: frees').
      rewrite Hg, Hf. split_and!; [done|done|]. constructor; simpl.
      * exists qs', n'. split_and!; [done|lia| |by apply H]. eapply base_frame; [done|].
        intros j. apply lookup_insert_ne. intros [=]. lia.
      * rewrite E in *. simpl in *. rewrite map_size_insert_None by done. lia.
    + right. apply concat_all_nil in HF. simpl in Hbal. rewrite HF, E in Hbal. simpl in Hbal.
      apply pools_ok_length in P. split; [rewrite Hbal; f_equal; lia|].
      rewrite Hg, Hf, <- Hg. destruct NDEBUG; [|done]. by destruct d.
  - left. destruct (take_ok _ _ _ m x R E) as (s & q' & free' & r & Hq' & Hr & -> & Hm & R').
    rewrite Hq'. simpl. rewrite Hr. eexists (0%nat, s), _, (free' :: frees).
    split_and!; [done|done|]. constructor; simpl in *.
    + exists qs, n. split_and!; [done|done|by apply R'|]. eapply pools_ok_frame; [done|].
      intros j l Hj. apply lookup_insert_ne. intros [=]. lia.
    + rewrite map_size_insert_None by done. lia.
Qed.

(** ** [ReleaseObj] *)

Lemma pools_ok_nth k qs frees m n free :
  pools_ok k qs frees m → frees !! n = Some free →
  ∃ q, qs !! n = Some q ∧ RapidPool.repr SIZE (k + n) q free (used_in m (k + n)).
Proof.
  revert k frees n. induction qs as [|q qs IH]; intros k [|free' frees] n; simpl; try done.
  intros [R P] Hn. destruct n as [|n]; simplify_eq/=.
  - exists q. by rewrite Nat.add_0_r.
  - rewrite <- Nat.add_succ_comm. by eapply IH.
Qed.

(** The header of a slot, found in its own pool. *)
Lemma slot_header d m frees k s free :
  repr d m frees → frees !! k = Some free → (s < SIZE)%nat →
  ∃ q p, pool_at d k = Some q ∧ RapidPool.repr SIZE k q free (used_in m k) ∧
    GetRapidData d (k, s) = Ok p ∧ RapidPool.m_stRapidData q !! s = Some p ∧
    RapidPool.dwIndex p = k.
Proof.
  intros [(qs & n & Hg & Hn & P) _] Hf Hs.
  destruct (pools_ok_nth 0 _ _ _ k free P Hf) as (q & Hq & R). simpl in R.
  assert (Hat : pool_at d k = Some q).
  { destruct k as [|k]; simpl in *; [done|]. rewrite Hg. unfold grown.
    rewrite lookup_app_l by (rewrite length_fmap; by eapply lookup_lt_Some).
    by rewrite list_lookup_fmap, Hq. }
  destruct (lookup_lt_is_Some_2 (RapidPool.m_stRapidData q) s) as [p Hp].
  { by rewrite (RapidPool.re_length _ _ _ _ _ R). }
  exists q, p. unfold GetRapidData. simpl fst. simpl snd. rewrite Hat. simpl. rewrite Hp.
  split_and!; try done. by eapply RapidPool.index_ok.
Qed.

Lemma used_in_range d m frees k s o :
  repr d m frees → m !! (k, s) = Some o → is_Some (frees !! k) ∧ (s < SIZE)%nat.
Proof.
  intros [(qs & n & Hg & Hn & P) _] Hm.
  destruct (pools_ok_lookup 0 _ _ _ k s _ P ltac:(lia) Hm) as (q & free & Hq & Hf & R).
  rewrite Nat.sub_0_r in Hf. split; [by eexists|].
  destruct (decide (s < SIZE)%nat); [done|].
  pose proof (RapidPool.re_used _ _ _ _ _ R s ltac:(lia)) as E. unfold used_in in E. congruence.
Qed.

Definition set_pool (d : t) (k : nat) (q : base) : t :=
  match k with
  | O => mk q (m_arrGrowRapidPool d)
  | S k => mk (m_oDefaultRapidPool d) (<[k := Some q]> (m_arrGrowRapidPool d))
  end.

(** [ReleaseObj] finds the pool the object came from. *)
Lemma ReleaseObj_dispatch d k s q p :
  length (m_arrGrowRapidPool d) = INDEX → pool_at d k = Some q → (k ≤ INDEX)%nat →
  GetRapidData d (k, s) = Ok p → RapidPool.dwIndex p = k →
  ReleaseObj d (Some (k, s)) = (q ← RapidPool.ReleaseObj SIZE NDEBUG q s; Ok (set_pool d k q)).
Proof.
  intros Hl Hq Hk Hgr Hix. unfold ReleaseObj. rewrite Hgr, bind_ok, Hix. destruct k as [|k].
  - simpl in Hq. by injection Hq as <-.
  - rewrite (proj2 (Z.eqb_neq 0 _)) by lia.
    rewrite (assert_ok _ (S k <? INDEX + 1)), bind_ok by (apply Z.ltb_lt; lia).
    replace (S k - 1) with (Z.of_nat k) by lia.
    assert (Hlk : m_arrGrowRapidPool d !! k = Some (Some q)).
    { simpl in Hq. by destruct (m_arrGrowRapidPool d !! k) as [o|]; simpl in Hq; subst. }
    rewrite (aread_ok _ _ _ Hlk), bind_ok.
    rewrite (assert_ok _ (bool_decide _)), bind_ok by (by apply bool_decide_eq_true; eauto).
    unfold release_in. simpl fst. simpl snd. rewrite Z.eqb_refl.
    destruct (RapidPool.ReleaseObj SIZE NDEBUG q s) as [q'| | |]; [|done..].
    rewrite !bind_ok, awrite_ok, bind_ok by lia. done.
Qed.

Lemma concat_length_update (l : list (list nat)) k x y :
  l !! k = Some x → (length (concat (<[k := y]> l)) + length x = length (concat l) + length y)%nat.
Proof.
  intros Hk. pose proof (concat_insert id l k x y Hk) as E.
  rewrite !list_fmap_id in E. apply Permutation_length in E. rewrite !length_app in E.
  unfold id in E. lia.
Qed.

Lemma repr_shape d m frees :
  repr d m frees → length (m_arrGrowRapidPool d) = INDEX ∧ (length frees ≤ S INDEX)%nat.
Proof.
  intros [(qs & n & Hg & Hn & P) _]. apply pools_ok_length in P. simpl in P.
  rewrite Hg. unfold grown. rewrite length_app, length_fmap, length_replicate. lia.
Qed.

(** A pool and its free list are replaced. *)
Lemma set_pool_repr d m frees k q' free free' m' :
  repr d m frees → frees !! k = Some free →
  RapidPool.repr SIZE k q' free' (used_in m' k) →
  (∀ j i, j ≠ k → m' !! (j, i) = m !! (j, i)) →
  (length free' + size m' = length free + size m)%nat →
  repr (set_pool d k q') m' (<[k := free']> frees).
Proof.
  intros Rd Hf R' E Hsz. destruct Rd as [(qs & n & Hg & Hn & P) Hbal].
  pose proof (concat_length_update frees k free free' Hf) as L.
  assert (Hkl : (k < length (m_oDefaultRapidPool d :: qs))%nat).
  { rewrite (pools_ok_length _ _ _ _ P). by eapply lookup_lt_Some. }
  pose proof (pools_ok_update 0 _ _ _ m' k q' free' P Hkl R' E) as U.
  constructor; [|rewrite length_insert; lia]. destruct k as [|k]; simpl in *.
  - by exists qs, n.
  - exists (<[k := q']> qs), n. split_and!; [|by rewrite length_insert|exact U].
    rewrite Hg. unfold grown. rewrite insert_app_l by (rewrite length_fmap; lia).
    by rewrite list_fmap_insert.
Qed.

(** Releasing an object frees its slot and nothing else. *)
Lemma ReleaseObj_ok d m frees p v :
  repr d m frees → m !! p = Some (Some v) →
  ∃ d' frees', ReleaseObj d (Some p) = Ok d' ∧ repr d' (delete p m) frees' ∧
    length frees' = length frees.
Proof.
  intros Rd Hm. destruct p as [k s].
  destruct (used_in_range _ _ _ _ _ _ Rd Hm) as [[free Hf] Hs].
  destruct (slot_header d m frees k s free Rd Hf Hs) as (q & p & Hq & R & Hgr & Hp & Hix).
  destruct (RapidPool.base_ReleaseObj_ok SIZE NDEBUG HSIZE k q s free (used_in m k)
    (used_in (delete (k, s) m) k) v) as (q' & Hq' & R');
    [done|done|by unfold used_in; rewrite lookup_delete_eq| |].
  { intros j Hj. unfold used_in. apply lookup_delete_ne. congruence. }
  destruct (repr_shape _ _ _ Rd) as [Hl Hfl]. pose proof (lookup_lt_Some _ _ _ Hf).
  rewrite (ReleaseObj_dispatch d k s q p Hl Hq ltac:(lia) Hgr Hix), Hq', bind_ok.
  eexists _, _. split; [done|]. split; [|apply length_insert].
  eapply set_pool_repr; [done|done|done| |].
  - intros j i Hj. apply lookup_delete_ne. congruence.
  - rewrite map_size_delete_Some by eauto. simpl.
    assert (size m ≠ 0%nat) by (intros E%map_size_empty_inv; by rewrite E, lookup_empty in Hm). lia.
Qed.

(** Releasing a slot that is not in use aborts. *)
Lemma ReleaseObj_free d m frees k s :
  repr d m frees → is_Some (frees !! k) → (s < SIZE)%nat → m !! (k, s) = None →
  ReleaseObj d (Some (k, s)) = Abort.
Proof.
  intros Rd [free Hf] Hs Hm.
  destruct (slot_header d m frees k s free Rd Hf Hs) as (q & p & Hq & R & Hgr & Hp & Hix).
  destruct (repr_shape _ _ _ Rd) as [Hl Hfl]. pose proof (lookup_lt_Some _ _ _ Hf).
  rewrite (ReleaseObj_dispatch d k s q p Hl Hq ltac:(lia) Hgr Hix).
  by rewrite (RapidPool.base_ReleaseObj_free SIZE NDEBUG k q s free _ R Hs Hm).
Qed.

(** What a pointer leads to. *)
Lemma object_ok d m frees p v : repr d m frees → m !! p = Some (Some v) → object d p = Some v.
Proof.
  intros Rd Hm. destruct p as [k s].
  destruct (used_in_range _ _ _ _ _ _ Rd Hm) as [[free Hf] Hs].
  destruct (slot_header d m frees k s free Rd Hf Hs) as (q & p & Hq & R & _).
  unfold object. simpl fst. simpl snd. rewrite Hq. simpl. by eapply RapidPool.base_object_ok.
Qed.

(** ** The counts and the destructor *)

Lemma counts_from k qs frees m n acc :
  pools_ok k qs frees m → 0 <= acc → acc + SIZE * length frees < 2 ^ 64 →
  free_from (grown qs n) acc = acc + length (concat frees) ∧
  malloc_from (grown qs n) acc = acc + SIZE * length frees ∧
  (length (concat frees) ≤ SIZE * length frees)%nat.
Proof.
  revert k frees acc. induction qs as [|q qs IH]; intros k [|free frees] acc P Ha Hb; try done.
  - unfold grown. simpl. rewrite Nat.mul_0_r. destruct n; simpl; lia.
  - destruct P as [R P]. change (grown (q :: qs) n) with (Some q :: grown qs n). simpl.
    pose proof (RapidPool.repr_count_le _ _ _ _ _ R) as Hle. simpl length in Hb.
    unfold RapidPool.GetFreeCount, RapidPool.GetMallocCount.
    rewrite (RapidPool.re_count _ _ _ _ _ R). rewrite !wrap_small by (unfold fits; lia).
    destruct (IH (S k) frees (acc + length free) P) as (-> & _ & H1); [lia|lia|].
    destruct (IH (S k) frees (acc + SIZE) P) as (_ & -> & _); [lia|lia|].
    rewrite length_app. lia.
Qed.

Lemma counts_ok d m frees :
  repr d m frees →
  GetMallocCount d = SIZE * length frees ∧ GetFreeCount d + size m = GetMallocCount d.
Proof.
  intros Rd. pose proof (repr_shape _ _ _ Rd) as [_ Hfl].
  destruct Rd as [(qs & n & Hg & Hn & P) Hbal]. destruct frees as [|free frees]; [done|].
  destruct P as [R P]. unfold GetFreeCount, GetMallocCount. rewrite Hg.
  pose proof (RapidPool.repr_count_le _ _ _ _ _ R) as Hle. simpl length in *.
  unfold RapidPool.GetFreeCount, RapidPool.GetMallocCount.
  rewrite (RapidPool.re_count _ _ _ _ _ R).
  destruct (counts_from 1 qs frees m n (length free) P) as (-> & _ & H1); [lia|nia|].
  destruct (counts_from 1 qs frees m n SIZE P) as (_ & -> & _); [lia|nia|].
  rewrite length_app in Hbal. lia.
Qed.

Lemma pools_ok_free_le k qs frees m :
  pools_ok k qs frees m → (length (concat frees) ≤ SIZE * length frees)%nat.
Proof.
  revert k frees. induction qs as [|q qs IH]; intros k [|free frees] P; try done; simpl; [lia|].
  destruct P as [R P]. pose proof (RapidPool.repr_count_le _ _ _ _ _ R).
  apply IH in P. rewrite length_app. lia.
Qed.

Lemma destroy_all_ok k qs frees m n :
  pools_ok k qs frees m → (length (concat frees) = SIZE * length frees)%nat →
  destroy_all (grown qs n) = Ok ().
Proof.
  revert k frees. induction qs as [|q qs IH]; intros k [|free frees] P H; try done.
  - unfold grown. simpl. by induction n.
  - destruct P as [R P]. change (grown (q :: qs) n) with (Some q :: grown qs n). simpl in *.
    pose proof (RapidPool.repr_count_le _ _ _ _ _ R) as Hle. rewrite length_app in H.
    pose proof (pools_ok_free_le _ _ _ _ P) as Hall.
    unfold RapidPool.destroy, RapidPool.IsFull.
    rewrite (RapidPool.re_count _ _ _ _ _ R), assert_ok, bind_ok by (apply Z.eqb_eq; lia).
    eapply IH; [done|lia].
Qed.

Lemma destroy_ok d m frees : repr d m frees → m = ∅ → destroy d = Ok ().
Proof.
  intros [(qs & n & Hg & Hn & P) Hbal] ->. destruct frees as [|free frees]; [done|].
  rewrite map_size_empty in Hbal. pose proof P as [R P']. unfold destroy.
  pose proof (RapidPool.repr_count_le _ _ _ _ _ R) as Hle.
  assert (Hall : (length (concat frees) ≤ SIZE * length frees)%nat) by (by eapply pools_ok_free_le).
  simpl in Hbal. rewrite length_app in Hbal.
  rewrite Hg, (destroy_all_ok 1 qs frees ∅ n P'), bind_ok by lia.
  unfold RapidPool.destroy, RapidPool.IsFull.
  rewrite (RapidPool.re_count _ _ _ _ _ R). apply assert_ok, Z.eqb_eq. lia.
Qed.

(** ** A client of the pool *)

(** Create an object with the given outcome of its constructor, delete the
    [n]th of the objects it holds, or delete a null pointer. *)
Inductive call := CNew (x : exn + T) | CDelete (n : nat) | CDeleteNull.

Definition client_step (s : t * list ((nat * nat) * T)) (c : call) :
    result (t * list ((nat * nat) * T)) :=
  let '(d, live) := s in
  match c with
  | CNew x =>
      '(d, r) ← FetchObj d x;
      Ok (d, match r, x with Object p, inr v => live ++ [(p, v)] | _, _ => live end)
  | CDelete n =>
      match live !! n with
      | Some (p, _) => d ← ReleaseObj d (Some p); Ok (d, delete n live)
      | None => Ok (d, live)
      end
  | CDeleteNull => d ← ReleaseObj d None; Ok (d, live)
  end.

Fixpoint client_run (s : t * list ((nat * nat) * T)) (cs : list call) :
    result (t * list ((nat * nat) * T)) :=
  match cs with [] => Ok s | c :: cs => s ← client_step s c; client_run s cs end.

(** With [live] objects held and [lost] slots lost to constructors that threw, there is a
    slot left whenever an object is created. *)
Fixpoint within (live lost : nat) (cs : list call) : Prop :=
  match cs with
  | [] => True
  | CNew (inr _) :: cs => (live + lost < SIZE * S INDEX)%nat ∧ within (S live) lost cs
  | CNew (inl _) :: cs => (live + lost < SIZE * S INDEX)%nat ∧ within live (S lost) cs
  | CDelete n :: cs => within (if bool_decide (n < live)%nat then pred live else live) lost cs
  | CDeleteNull :: cs => within live lost cs
  end.
Fixpoint throws (cs : list call) : nat :=
  match cs with
  | [] => 0 | CNew (inl _) :: cs => S (throws cs) | _ :: cs => throws cs
  end.

(** [m] is what the client holds, and the [k] slots whose constructor threw. *)
Record client_inv (live : list ((nat * nat) * T)) (m : store) (k : nat) : Prop := {
  ci_nodup : NoDup live.*1;
  ci_live p v : (p, v) ∈ live ↔ m !! p = Some (Some v);
  ci_size : size m = (length live + k)%nat
}.

Lemma client_new_inv live m k p v :
  client_inv live m k → m !! p = None →
  client_inv (live ++ [(p, v)]) (<[p := Some v]> m) k.
Proof.
  intros [Hnd Hl Hs] Hp. constructor.
  - rewrite fmap_app. apply NoDup_app. split; [done|]. split; [|apply NoDup_singleton].
    intros p' Hp' Hin'. apply (list_elem_of_singleton p' p) in Hin' as ->. apply list_elem_of_fmap in Hp' as ([p' v'] & -> & Hin).
    apply Hl in Hin. simpl in *. congruence.
  - intros p' v'. rewrite elem_of_app, list_elem_of_singleton, Hl, lookup_insert_Some.
    destruct (decide (p' = p)) as [->|Hne]; intuition congruence.
  - rewrite length_app, map_size_insert_None by done. simpl. lia.
Qed.

Lemma client_throw_inv live m k p :
  client_inv live m k → m !! p = None → client_inv live (<[p := None]> m) (S k).
Proof.
  intros [Hnd Hl Hs] Hp. constructor; [done| |rewrite map_size_insert_None by done; lia].
  intros p' v'. rewrite Hl, lookup_insert_Some.
  destruct (decide (p' = p)) as [->|Hne]; intuition congruence.
Qed.

Lemma client_delete_inv live m k n p v :
  client_inv live m k → live !! n = Some (p, v) → client_inv (delete n live) (delete p m) k.
Proof.
  intros [Hnd Hl Hs] Hn. pose proof (list_elem_of_lookup_2 _ _ _ Hn) as Hin.
  assert (Hp : live ≡ₚ (p, v) :: delete n live) by (by apply delete_Permutation).
  pose proof Hnd as Hnd'. rewrite Hp in Hnd'. simpl in Hnd'. apply NoDup_cons in Hnd' as [Hni Hnd'].
  assert (Hel : ∀ y, y ∈ live ↔ y = (p, v) ∨ y ∈ delete n live)
    by (intros y; rewrite <- elem_of_cons; by rewrite <- Hp).
  constructor; [done| |].
  - intros p' v'. rewrite lookup_delete_Some, <- Hl, Hel.
    destruct (decide (p' = p)) as [->|Hne]; [|intuition congruence].
    split; [|tauto]. intros Hin'. destruct Hni.
    apply list_elem_of_fmap. by exists (p, v').
  - apply Hl in Hin. rewrite map_size_delete_Some by eauto. apply Permutation_length in Hp.
    simpl in Hp. lia.
Qed.

Lemma client_run_ok cs : ∀ d live m frees k,
  repr d m frees → client_inv live m k → within (length live) k cs →
  ∃ d' live' m' frees', client_run (d, live) cs = Ok (d', live') ∧ repr d' m' frees' ∧
    client_inv live' m' (k + throws cs).
Proof.
  induction cs as [|c cs IH]; intros d live m frees k R I Hb; cbn [client_run throws].
  { rewrite Nat.add_0_r. by exists d, live, m, frees. }
  destruct c as [x|n|]; cbn [client_step].
  - pose proof (ci_size _ _ _ I) as Hsize.
    destruct (FetchObj_ok d m frees x R) as [(p & d1 & frees1 & -> & Hp & R1)|[Hs _]];
      [|destruct x; destruct Hb; lia].
    destruct x as [e|v]; destruct Hb as [_ Hb]; simpl.
    + destruct (IH d1 live _ frees1 (S k) R1 (client_throw_inv _ _ _ _ I Hp) Hb)
        as (d' & live' & m' & frees' & H1 & H2 & H3).
      exists d', live', m', frees'. split_and!; [done|done|]. by rewrite <- Nat.add_succ_comm.
    + destruct (IH d1 _ _ frees1 k R1 (client_new_inv _ _ _ _ v I Hp))
        as (d' & live' & m' & frees' & H1 & H2 & H3); [by rewrite length_app, Nat.add_comm|].
      by exists d', live', m', frees'.
  - cbn [within] in Hb. destruct (live !! n) as [[p v]|] eqn:Hn.
    + pose proof (list_elem_of_lookup_2 _ _ _ Hn) as Hin. apply (ci_live _ _ _ I) in Hin as Hp.
      destruct (ReleaseObj_ok d m frees p v R Hp) as (d1 & frees1 & -> & R1 & _). simpl.
      rewrite bool_decide_true in Hb by (by eapply lookup_lt_Some).
      destruct (IH d1 _ _ frees1 k R1 (client_delete_inv _ _ _ _ _ _ I Hn))
        as (d' & live' & m' & frees' & H1 & H2 & H3); [by rewrite length_delete, Nat.sub_1_r by eauto|].
      by exists d', live', m', frees'.
    + rewrite bool_decide_false in Hb by (by apply Nat.le_ngt, lookup_ge_None). by eapply IH.
  - by eapply IH.
Qed.
End pool.
Arguments call T : clear implicits.

(** C37: a client that deletes only objects it holds, and creates one only while the
    objects it holds and the slots lost to constructors that threw are fewer than
    [SIZE * (INDEX + 1)], never meets undefined behaviour, an abort or a null pointer,
    however many objects it creates in all: the objects it holds have distinct addresses
    and the values they were created with, and the free count is the malloc count less
    the objects held and the slots lost.  If it has deleted all its objects and no
    constructor threw, the destructor succeeds. *)
Theorem pool_client_safe {T} (SIZE INDEX : nat) NDEBUG (cs : list (call T))
  (HSIZE : 0 < SIZE < 65535) (HINDEX : INDEX < 32767) (Hcs : within SIZE INDEX 0 0 cs) :
  ∃ d live, client_run SIZE INDEX NDEBUG (create SIZE INDEX, []) cs = Ok (d, live) ∧
    NoDup live.*1 ∧ (∀ p v, (p, v) ∈ live → object d p = Some v) ∧
    GetFreeCount d + length live + throws cs = GetMallocCount SIZE d ∧
    (live = [] → throws cs = 0%nat → destroy SIZE NDEBUG d = Ok ()).
Proof.
  pose proof (create_ok (T := T) SIZE INDEX HSIZE) as R.
  destruct (client_run_ok SIZE INDEX NDEBUG HSIZE HINDEX cs _ [] ∅ _ 0 R)
    as (d & live & m & frees & Hr & R' & I).
  { constructor; [constructor| |done]. intros p v.
    by rewrite lookup_empty, elem_of_nil. }
  { done. }
  exists d, live. destruct (counts_ok _ _ HSIZE HINDEX _ _ _ R') as [_ Hc].
  destruct I as [Hnd Hl Hs]. split_and!; [done|done| |lia|].
  - intros p v Hin. eapply object_ok; [done|]. by apply Hl.
  - intros -> Ht. rewrite Ht in Hs. eapply destroy_ok; [done|]. by apply map_size_empty_inv.
Qed.

(** Four objects in three slots. *)
Lemma pool_client_safe_witness :
  ∃ d live, client_run 1 2 false (create 1 2, [])
      [CNew (inr 5); CNew (inr 6); CDelete 0; CDeleteNull; CNew (inr 7); CNew (inr 8)] = Ok (d, live) ∧
    live = [((1, 0)%nat, 6); ((0, 0)%nat, 7); ((2, 0)%nat, 8)] ∧
    NoDup live.*1 ∧ (∀ p v, (p, v) ∈ live → object d p = Some v) ∧
    GetFreeCount d + length live + 0%nat = GetMallocCount 1 d ∧
    (live = [] → 0%nat = 0%nat → destroy 1 false d = Ok ()).
Proof.
  destruct (pool_client_safe 1 2 false
    [CNew (inr 5); CNew (inr 6); CDelete 0; CDeleteNull; CNew (inr 7); CNew (inr 8)])
    as (d & live & Hr & H); [lia|lia|simpl; lia|].
  exists d, live. split; [done|]. split; [|done].
  vm_compute in Hr. by injection Hr as <- <-.
Defined.

(** deleting an object twice aborts the program: whatever the client did
    before, releasing a pointer it held and then the same pointer again
    reaches [abort()], with or without [NDEBUG]. *)
Theorem double_delete_aborts {T} (SIZE INDEX : nat) NDEBUG (cs : list (call T)) d live p v d'
  (HSIZE : 0 < SIZE < 65535) (HINDEX : INDEX < 32767) (Hcs : within SIZE INDEX 0 0 cs)
  (Hr : client_run SIZE INDEX NDEBUG (create SIZE INDEX, []) cs = Ok (d, live))
  (Hp : (p, v) ∈ live) (Hrel : ReleaseObj SIZE INDEX NDEBUG d (Some p) = Ok d') :
  ReleaseObj SIZE INDEX NDEBUG d' (Some p) = Abort.
Proof.
  pose proof (create_ok (T := T) SIZE INDEX HSIZE) as R.
  destruct (client_run_ok SIZE INDEX NDEBUG HSIZE HINDEX cs _ [] ∅ _ 0 R)
    as (d1 & live1 & m & frees & Hr1 & R1 & I).
  { constructor; [constructor| |done]. intros p' v'. by rewrite lookup_empty, elem_of_nil. }
  { done. }
  rewrite Hr in Hr1. injection Hr1 as <- <-. apply (ci_live _ _ _ I) in Hp.
  destruct (ReleaseObj_ok SIZE INDEX NDEBUG HSIZE HINDEX d m frees p v R1 Hp)
    as (d2 & frees2 & Hrel2 & R2 & Hf). rewrite Hrel in Hrel2. injection Hrel2 as <-.
  destruct p as [k s]. destruct (used_in_range _ _ _ _ _ _ _ _ R1 Hp) as [Hk Hs].
  apply (ReleaseObj_free SIZE INDEX NDEBUG HINDEX d' _ frees2 k s R2);
    [|done|apply lookup_delete_eq].
  apply lookup_lt_is_Some. rewrite Hf. by apply lookup_lt_is_Some.
Qed.

Lemma double_delete_aborts_witness :
  ∃ d live d', client_run 1 2 true (create 1 2, []) [CNew (inr 5); CNew (inr 6)] = Ok (d, live) ∧
    ReleaseObj 1 2 true d (Some (1, 0)%nat) = Ok d' ∧
    ReleaseObj 1 2 true d' (Some (1, 0)%nat) = Abort.
Proof.
  destruct (client_run 1 2 true (create 1 2, []) [CNew (inr 5); CNew (inr 6)])
    as [[d live]| | |] eqn:Hr; [|by vm_compute in Hr..].
  destruct (ReleaseObj 1 2 true d (Some (1, 0)%nat)) as [d'| | |] eqn:Hrel;
    [|by vm_compute in Hr; injection Hr as <- <-; vm_compute in Hrel..].
  exists d, live, d'. split; [done|]. split; [done|].
  apply (double_delete_aborts 1 2 true [CNew (inr 5); CNew (inr 6)] d live (1, 0)%nat 6 d');
    [lia|lia|simpl; lia|done| |done].
  vm_compute in Hr. injection Hr as <- <-. right. left.
Defined.

(** a constructor that throws loses its slot: the slot stays marked as in
    use although no object is in it and the caller got no pointer to release,
    so that the free count never comes back to the malloc count and, without
    [NDEBUG], the destructor's assertion fails. *)
Theorem throwing_constructor_leaks {T} (SIZE INDEX : nat) e (HSIZE : 0 < SIZE < 65535)
  (HINDEX : INDEX < 32767) :
  ∃ d, FetchObj SIZE false (create (T := T) SIZE INDEX) (inl e) = Ok (d, Threw e) ∧
    GetFreeCount d = GetMallocCount SIZE d - 1 ∧ destroy SIZE false d = Abort.
Proof.
  pose proof (create_ok (T := T) SIZE INDEX HSIZE) as R.
  destruct (FetchObj_ok SIZE INDEX false HSIZE HINDEX _ _ _ (inl e) R)
    as [(p & d & frees & Hd & _ & R')|[Hs _]].
  2: { rewrite map_size_empty in Hs. lia. }
  exists d. split; [exact Hd|]. destruct (counts_ok _ _ HSIZE HINDEX _ _ _ R') as [_ Hc].
  rewrite map_size_insert_None, map_size_empty in Hc by done. split; [lia|].
  unfold FetchObj in Hd. change (m_oDefaultRapidPool (create SIZE INDEX)) with
    (RapidPool.create (T := T) SIZE 0) in Hd.
  pose proof (RapidPool.base_create_ok (T := T) SIZE HSIZE 0 ltac:(lia)) as R0.
  change (Z.of_nat 0) with 0 in R0.
  rewrite (RapidPool.Empty_ok _ _ _ _ _ R0), bool_decide_false in Hd
    by (intros E; apply (f_equal length) in E; rewrite length_seq in E; simpl in E; lia).
  apply bind_inv_ok in Hd as ([q r] & Hq & Hd). injection Hd as <- _.
  unfold destroy. simpl.
  assert (Hall : destroy_all SIZE false (replicate INDEX (None : option (@RapidPool.t T))) = Ok ())
    by (by clear; induction INDEX).
  rewrite Hall, bind_ok. unfold RapidPool.destroy, RapidPool.IsFull.
  assert (Hfc : RapidPool.m_qwFreeCount q = SIZE - 1).
  { revert Hc. unfold GetFreeCount, GetMallocCount. simpl.
    destruct INDEX; simpl; unfold RapidPool.GetFreeCount, RapidPool.GetMallocCount; lia. }
  rewrite Hfc, (proj2 (Z.eqb_neq _ _)) by lia. done.
Qed.

Lemma throwing_constructor_leaks_witness :
  ∃ d, FetchObj 2 false (create (T := Z) 2 1) (inl bad_alloc) = Ok (d, Threw bad_alloc) ∧
    GetFreeCount d = GetMallocCount 2 d - 1 ∧ destroy 2 false d = Abort.
Proof. apply (throwing_constructor_leaks 2 1 bad_alloc); lia. Defined.
End DynamicRapidPool.
