(* ===== verification/RapidFactory.v ===== *)
(** * [CDMRapidFactory], [DMPool], [DMNew] and [DMDelete] (dmrapidpool.h)

    The registry of all pools, and the thread-local pools behind [DMNew] and
    [DMDelete]. *)
From stdpp Require Import sorting pretty.
From S2P Require Import Prelude RapidPool DynamicRapidPool.
Local Open Scope Z_scope.

Module RapidFactory.

(** What the registry asks a pool ([IDMRapidInfo]). *)
Record info := Info {
  GetFreeCount : Z;
  GetMallocCount : Z;
  GetObjName : string;
  GetObjSize : Z
}.

(** [m_mapDMRapidInfo]: sets of pools by the name of their objects. *)
Abbreviation t := (gmap string (gset nat)).

Section factory.
Context (NDEBUG : bool).

Definition RegPool (m_mapDMRapidInfo : t) (poInfo : nat) (name : string) : result t :=
  match m_mapDMRapidInfo !! name with
  | Some set =>
      if decide (poInfo ∈ set) then assert_ NDEBUG false;; Ok m_mapDMRapidInfo
      else Ok (<[name := {[poInfo]} ∪ set]> m_mapDMRapidInfo)
  | None => Ok (<[name := {[poInfo]}]> m_mapDMRapidInfo)
  end.

Definition UnRegPool (m_mapDMRapidInfo : t) (poInfo : nat) (name : string) : result t :=
  match m_mapDMRapidInfo !! name with
  | None => assert_ NDEBUG false;; Ok m_mapDMRapidInfo
  | Some set =>
      if decide (poInfo ∈ set) then
        let set := set ∖ {[poInfo]} in
        Ok (if decide (set = ∅) then delete name m_mapDMRapidInfo
            else <[name := set]> m_mapDMRapidInfo)
      else assert_ NDEBUG false;; Ok m_mapDMRapidInfo
  end.

(** [std::map] is ordered by key, [std::set] by address. *)
Definition key_le {A} (x y : string * A) : Prop := String.leb x.1 y.1 = true.
#[export] Instance key_le_dec {A} (x y : string * A) : Decision (key_le x y).
Proof. unfold key_le. apply _. Defined.

Definition listing (m_mapDMRapidInfo : t) : list (string * nat) :=
  '(name, set) ← merge_sort key_le (map_to_list m_mapDMRapidInfo);
  pair name <$> merge_sort le (elements set).

(** [std::endl]. *)
Definition endl : string := String (Ascii.ascii_of_nat 10) EmptyString.

(** A line of [Print]; [mb] formats the [double] at the end of it. *)
Definition line (mb : Z → string) (i : info) : string :=
  GetObjName i +:+ ", " +:+ pretty (GetObjSize i) +:+ ", " +:+ pretty (GetMallocCount i) +:+
  ", " +:+ pretty (GetFreeCount i) +:+ ", " +:+ mb (GetObjSize i * GetMallocCount i) +:+
  "M" +:+ endl.

Definition Print (mb : Z → string) (pools : nat → info) (m_mapDMRapidInfo : t) : string :=
  "ObjName, ObjSize, MallocCount, FreeCount, TotalSize" +:+ endl +:+
  foldr String.app EmptyString ((λ p, line mb (pools p.2)) <$> listing m_mapDMRapidInfo).

(** ** Correctness *)

(** The pools registered under a name. *)
Definition pools_of (m : t) (name : string) : gset nat := default ∅ (m !! name).

(** No name without a pool. *)
Definition wf (m : t) : Prop := map_Forall (λ _ set, set ≠ ∅) m.

Lemma pools_of_insert m name name' set :
  pools_of (<[name := set]> m) name' = if decide (name' = name) then set else pools_of m name'.
Proof.
  unfold pools_of. case_decide as E; [by rewrite E, lookup_insert_eq|].
  by rewrite lookup_insert_ne.
Qed.

Lemma pools_of_delete m name name' :
  pools_of (delete name m) name' = if decide (name' = name) then ∅ else pools_of m name'.
Proof.
  unfold pools_of. case_decide as E; [by rewrite E, lookup_delete_eq|].
  by rewrite lookup_delete_ne.
Qed.

Lemma pools_of_some m name set : m !! name = Some set → pools_of m name = set.
Proof. unfold pools_of. by intros ->. Qed.

Lemma RegPool_ok m p name :
  wf m → p ∉ pools_of m name →
  ∃ m', RegPool m p name = Ok m' ∧ wf m' ∧
    ∀ name', pools_of m' name' =
      if decide (name' = name) then {[p]} ∪ pools_of m name else pools_of m name'.
Proof.
  intros Hwf Hp. unfold RegPool. destruct (m !! name) as [set|] eqn:Hm.
  - rewrite (pools_of_some _ _ _ Hm) in *. rewrite decide_False by done.
    eexists. split; [done|]. split; [|intros name'; apply pools_of_insert].
    apply map_Forall_insert_2; [|done]. clear. set_solver.
  - assert (E : pools_of m name = ∅) by (unfold pools_of; by rewrite Hm).
    eexists. split; [done|]. split.
    + apply map_Forall_insert_2; [|done]. clear. set_solver.
    + intros name'. rewrite pools_of_insert, E. by rewrite union_empty_r_L.
Qed.

Lemma UnRegPool_ok m p name :
  wf m → p ∈ pools_of m name →
  ∃ m', UnRegPool m p name = Ok m' ∧ wf m' ∧
    ∀ name', pools_of m' name' =
      if decide (name' = name) then pools_of m name ∖ {[p]} else pools_of m name'.
Proof.
  intros Hwf Hp. unfold UnRegPool. destruct (m !! name) as [set|] eqn:Hm.
  2: { unfold pools_of in Hp. rewrite Hm in Hp. by apply not_elem_of_empty in Hp. }
  rewrite (pools_of_some _ _ _ Hm) in *. rewrite decide_True by done.
  eexists. split; [done|]. case_decide as E; split.
  - by apply map_Forall_delete.
  - intros name'. rewrite pools_of_delete. by case_decide.
  - by apply map_Forall_insert_2.
  - intros name'. apply pools_of_insert.
Qed.

(** Unregistering what was just registered gives the map back. *)
Lemma RegPool_UnRegPool m p name :
  wf m → p ∉ pools_of m name → (m' ← RegPool m p name; UnRegPool m' p name) = Ok m.
Proof.
  intros Hwf Hp. unfold RegPool, UnRegPool. destruct (m !! name) as [set|] eqn:Hm.
  - rewrite (pools_of_some _ _ _ Hm) in Hp. rewrite decide_False by done. simpl.
    rewrite lookup_insert_eq, decide_True by (clear; set_solver).
    replace (({[p]} ∪ set) ∖ {[p]}) with set by (clear -Hp; set_solver).
    rewrite decide_False by exact (Hwf _ _ Hm). by rewrite insert_insert_eq, insert_id.
  - simpl. rewrite lookup_insert_eq, decide_True by (clear; set_solver).
    rewrite decide_True by (clear; set_solver). by rewrite delete_insert_id.
Qed.

Lemma listing_elem m name p : (name, p) ∈ listing m ↔ p ∈ pools_of m name.
Proof.
  unfold listing. rewrite list_elem_of_bind. split.
  - intros ([name' set] & Hin & Hm). apply list_elem_of_fmap in Hin as (p' & [= -> ->] & Hin).
    rewrite merge_sort_Permutation in Hin. rewrite merge_sort_Permutation in Hm.
    apply elem_of_map_to_list in Hm. rewrite (pools_of_some _ _ _ Hm). by apply elem_of_elements.
  - intros Hp. unfold pools_of in Hp. destruct (m !! name) as [set|] eqn:Hm; simpl in Hp.
    2: { by apply not_elem_of_empty in Hp. }
    exists (name, set). split.
    + apply list_elem_of_fmap. exists p. split; [done|].
      rewrite merge_sort_Permutation. by apply elem_of_elements.
    + rewrite merge_sort_Permutation. by apply elem_of_map_to_list.
Qed.

Lemma listing_nodup m : NoDup (listing m).
Proof.
  unfold listing. apply NoDup_bind.
  - intros [n1 s1] [n2 s2] y H1 H2 (p1 & -> & _)%list_elem_of_fmap (p2 & [= ->] & _)%list_elem_of_fmap.
    rewrite merge_sort_Permutation in H1, H2. apply elem_of_map_to_list in H1, H2. congruence.
  - intros [n1 s1] _. apply NoDup_fmap_2; [intros ? ? [=]; done|].
    rewrite merge_sort_Permutation. apply NoDup_elements.
  - rewrite merge_sort_Permutation. apply NoDup_map_to_list.
Qed.

(** Pools come and go. *)
Inductive event := Construct (p : nat) (name : string) | Destruct (p : nat) (name : string).

Definition event_step (m : t) (e : event) : result t :=
  match e with Construct p name => RegPool m p name | Destruct p name => UnRegPool m p name end.
Fixpoint event_run (m : t) (es : list event) : result t :=
  match es with [] => Ok m | e :: es => m ← event_step m e; event_run m es end.

(** The pools alive after the events; [None] when a pool is constructed while
    alive or destroyed while not. *)
Definition alive_step (l : gset (string * nat)) (e : event) : option (gset (string * nat)) :=
  match e with
  | Construct p name => if decide ((name, p) ∈ l) then None else Some ({[(name, p)]} ∪ l)
  | Destruct p name => if decide ((name, p) ∈ l) then Some (l ∖ {[(name, p)]}) else None
  end.
Fixpoint alive_run (l : gset (string * nat)) (es : list event) : option (gset (string * nat)) :=
  match es with [] => Some l | e :: es => l ← alive_step l e; alive_run l es end.

Lemma event_run_ok es : ∀ m l l',
  wf m → (∀ name p, p ∈ pools_of m name ↔ (name, p) ∈ l) → alive_run l es = Some l' →
  ∃ m', event_run m es = Ok m' ∧ wf m' ∧ ∀ name p, p ∈ pools_of m' name ↔ (name, p) ∈ l'.
Proof.
  induction es as [|e es IH]; intros m l l' Hwf Hl Hr; simpl in *.
  { injection Hr as <-. eauto. }
  apply bind_Some in Hr as (l1 & Hs & Hr). destruct e as [p name|p name]; simpl in *.
  - case_decide as Hp; [done|]. injection Hs as <-. rewrite <- Hl in Hp.
    destruct (RegPool_ok m p name Hwf Hp) as (m1 & -> & Hwf1 & E). simpl.
    eapply IH; [done| |done]. intros name' p'. rewrite E, elem_of_union, elem_of_singleton.
    case_decide as En; [subst name'; rewrite elem_of_union, elem_of_singleton|];
      rewrite Hl; clear -En || clear; intuition congruence.
  - case_decide as Hp; [|done]. injection Hs as <-. rewrite <- Hl in Hp.
    destruct (UnRegPool_ok m p name Hwf Hp) as (m1 & -> & Hwf1 & E). simpl.
    eapply IH; [done| |done]. intros name' p'. rewrite E, elem_of_difference, elem_of_singleton.
    case_decide as En; [subst name'; rewrite elem_of_difference, elem_of_singleton|];
      rewrite Hl; clear -En || clear; intuition congruence.
Qed.
End factory.

(** ** The thread-local pools *)
Section dm.
Context {T : Type} (SIZE INDEX : nat) (NDEBUG : bool) (ObjName : string).

Abbreviation pool := (@DynamicRapidPool.t T).

Record dm := DM {
  factory : t;
  pools : gmap nat pool        (* the [thread_local oPool] of each thread *)
}.

(** A pointer: the thread whose pool the object lies in, and where. *)
Abbreviation pointer := (nat * (nat * nat))%type.

(** [DMPool<T>()] in thread [tid]: the pool is constructed at the first call. *)
Definition DMPool (w : dm) (tid : nat) : result (dm * pool) :=
  match pools w !! tid with
  | Some d => Ok (w, d)
  | None =>
      let d := DynamicRapidPool.create SIZE INDEX in
      f ← RegPool NDEBUG (factory w) tid ObjName;
      Ok (DM f (<[tid := d]> (pools w)), d)
  end.

Definition DMNew (w : dm) (tid : nat) (x : exn + T) : result (dm * fetched pointer) :=
  '(w, d) ← DMPool w tid;
  '(d, r) ← DynamicRapidPool.FetchObj SIZE NDEBUG d x;
  Ok (DM (factory w) (<[tid := d]> (pools w)), fetched_fmap _ _ (pair tid) r).

(** [ReleaseObj] of pool [d] on an object of another thread's pool, whose
    header is [p]: the difference of the two addresses is not a slot. *)
Definition release_foreign (d : pool) (p : @RapidPool.SRapidData T) : result pool :=
  let release (q : @RapidPool.t T) : result pool :=
    if negb (RapidPool.dwUse p) then Abort else
    assert_ NDEBUG (RapidPool.dwIndex p =? RapidPool.m_wIndex q);; assert_ NDEBUG false;; UB in
  if 0 =? RapidPool.dwIndex p then release (DynamicRapidPool.m_oDefaultRapidPool d) else
  assert_ NDEBUG (RapidPool.dwIndex p <? INDEX + 1);;
  o ← aread (DynamicRapidPool.m_arrGrowRapidPool d) (RapidPool.dwIndex p - 1);
  assert_ NDEBUG (bool_decide (is_Some o));;
  match o with None => UB | Some q => release q end.

Definition DMDelete (w : dm) (tid : nat) (data : option pointer) : result dm :=
  '(w, d) ← DMPool w tid;
  d ← match data with
      | None => DynamicRapidPool.ReleaseObj SIZE INDEX NDEBUG d None
      | Some (owner, obj) =>
          if decide (owner = tid) then DynamicRapidPool.ReleaseObj SIZE INDEX NDEBUG d (Some obj)
          else match pools w !! owner with
               | None => UB
               | Some d' => p ← DynamicRapidPool.GetRapidData d' obj; release_foreign d p
               end
      end;
  Ok (DM (factory w) (<[tid := d]> (pools w))).

(** [DMPoolDeleter<T>()(f)]. *)
Definition DMPoolDeleter (w : dm) (tid : nat) (f : option pointer) : result dm :=
  match f with Some _ => DMDelete w tid f | None => Ok w end.

(** The destructor of the thread-local pool, when thread [tid] ends. *)
Definition ThreadExit (w : dm) (tid : nat) : result dm :=
  match pools w !! tid with
  | None => Ok w
  | Some d =>
      DynamicRapidPool.destroy_all SIZE NDEBUG (DynamicRapidPool.m_arrGrowRapidPool d);;
      f ← UnRegPool NDEBUG (factory w) tid ObjName;
      RapidPool.destroy SIZE NDEBUG (DynamicRapidPool.m_oDefaultRapidPool d);;
      Ok (DM f (delete tid (pools w)))
  end.

(** [DMGetPoolInfo()]. *)
Definition DMGetPoolInfo (mb : Z → string) (infos : nat → info) (w : dm) : string :=
  Print mb infos (factory w).

(** An object in use, deleted in a thread that did not create it. *)
Lemma release_foreign_bad d p :
  RapidPool.dwUse p = true →
  if NDEBUG then release_foreign d p = UB
  else release_foreign d p = Abort ∨ release_foreign d p = UB.
Proof.
  intros Hu. unfold release_foreign, assert_. rewrite Hu. cbn [negb].
  set (l := DynamicRapidPool.m_arrGrowRapidPool d). set (i := RapidPool.dwIndex p - 1).
  destruct NDEBUG; cbn [orb].
  - destruct (0 =? RapidPool.dwIndex p); [done|]. rewrite bind_ok.
    by destruct (aread_cases l i) as [->|[[q|] ->]].
  - destruct (0 =? RapidPool.dwIndex p); [left; by destruct (RapidPool.dwIndex p =? _)|].
    destruct (_ <? _); [|by left]. rewrite bind_ok.
    destruct (aread_cases l i) as [->|[[q|] ->]]; simpl; [by right| |by left].
    left. by destruct (RapidPool.dwIndex p =? _).
Qed.
End dm.
Arguments dm T : clear implicits.

(** the registry lists exactly the pools that are alive: for every
    sequence in which pools are destroyed after they were constructed, no
    assertion fails, [Print] goes over each live pool once, and when the last
    pool of a name goes its entry goes. *)
Theorem registry_exact NDEBUG es l (Hes : alive_run ∅ es = Some l) :
  ∃ m, event_run NDEBUG ∅ es = Ok m ∧ NoDup (listing m) ∧
    (∀ name p, (name, p) ∈ listing m ↔ (name, p) ∈ l) ∧
    (∀ name, (∀ p, (name, p) ∉ l) → m !! name = None).
Proof.
  destruct (event_run_ok NDEBUG es ∅ ∅ l) as (m & Hm & Hwf & Hl); [done| |done|].
  { intros name p. unfold pools_of. rewrite lookup_empty. simpl. by rewrite !elem_of_empty. }
  exists m. split_and!; [done|apply listing_nodup|intros; by rewrite listing_elem|].
  intros name Hno. destruct (m !! name) as [set|] eqn:E; [|done].
  destruct (set_choose_L set) as [p Hp]; [exact (Hwf _ _ E)|].
  destruct (Hno p). apply Hl. by rewrite (pools_of_some _ _ _ E).
Qed.

Lemma registry_exact_witness :
  ∃ m, event_run false ∅ [Construct 2 "b"; Construct 1 "b"; Construct 3 "a"; Destruct 3 "a"] = Ok m ∧
    listing m = [("b"%string, 1%nat); ("b"%string, 2%nat)] ∧ NoDup (listing m).
Proof.
  destruct (registry_exact false [Construct 2 "b"; Construct 1 "b"; Construct 3 "a"; Destruct 3 "a"]
    {[("b"%string, 1%nat); ("b"%string, 2%nat)]}) as (m & Hm & H & _); [by vm_compute|].
  exists m. split; [done|]. split; [|done]. vm_compute in Hm. injection Hm as <-. by vm_compute.
Defined.

(** an object must be deleted in the thread that created it: in any other
    thread [DMDelete] of an object in use, for which the header in front of
    it still names the pool of its creator, aborts on a failing assertion or,
    with [NDEBUG], is undefined. *)
Theorem cross_thread_delete {T} (SIZE INDEX : nat) NDEBUG ObjName (w : dm T) tid tid' d d' obj v m frees
  (Hne : tid' ≠ tid) (Hw : pools w !! tid = Some d) (Hw' : pools w !! tid' = Some d')
  (HSIZE : 0 < SIZE < 65535) (HINDEX : INDEX < 32767)
  (Hd : DynamicRapidPool.repr SIZE INDEX d m frees) (Hobj : m !! obj = Some (Some v)) :
  let r := DMDelete SIZE INDEX NDEBUG ObjName w tid' (Some (tid, obj)) in
  if NDEBUG then r = UB else r = Abort ∨ r = UB.
Proof.
  intros r. destruct obj as [k s].
  destruct (DynamicRapidPool.used_in_range SIZE INDEX d m frees k s _ Hd Hobj) as [[free Hf] Hs].
  destruct (DynamicRapidPool.slot_header SIZE INDEX d m frees k s free Hd Hf Hs)
    as (q & p & Hq & R & Hgr & Hp & Hix).
  assert (Hu : RapidPool.dwUse p = true).
  { destruct (RapidPool.re_slots _ _ _ _ _ R s p Hp) as [_ Hsl].
    destruct (RapidPool.dwUse p); [done|]. destruct Hsl as (_ & E & _).
    unfold DynamicRapidPool.used_in in E. congruence. }
  assert (E : r = (d ← release_foreign INDEX NDEBUG d' p; Ok (DM (factory w) (<[tid' := d]> (pools w))))).
  { unfold r, DMDelete, DMPool. rewrite Hw'. simpl. rewrite decide_False by done.
    by rewrite Hw, Hgr. }
  rewrite E. pose proof (release_foreign_bad INDEX NDEBUG d' p Hu) as B.
  destruct NDEBUG; [by rewrite B|]. destruct B as [-> | ->]; auto.
Qed.

Lemma cross_thread_delete_witness :
  ∃ w p, DMNew 2 1 true "int" (DM ∅ ∅) 1 (inr 7) = Ok (w, Object p) ∧
    ∃ w2 q, DMNew 2 1 true "int" w 2 (inr 8) = Ok (w2, Object q) ∧
      DMDelete 2 1 true "int" w2 2 (Some p) = UB.
Proof.
  destruct (DynamicRapidPool.FetchObj_ok (T := Z) 2 1 true ltac:(lia) ltac:(lia) _ _ _ (inr 7)
    (DynamicRapidPool.create_ok 2 1 ltac:(lia)))
    as [(obj & d & frees & Hd & Hnone & R)|[Hs _]]; [|by rewrite map_size_empty in Hs].
  pose proof Hd as Hd0. vm_compute in Hd0. injection Hd0 as <- <-.
  eexists _, _. split; [by vm_compute|]. eexists _, _. split; [by vm_compute|].
  eapply (cross_thread_delete 2 1 true "int" _ 1 2 _ _ (0, 0)%nat 7 (<[(0, 0)%nat := Some 7]> ∅) frees);
    [done|by vm_compute|by vm_compute|lia|lia|exact R|by vm_compute].
Defined.
End RapidFactory.
